(* ===== verification/_CoqProject ===== *)
-Q . S2P
Prelude.v
Text.v
Domain.v
DomainLaws.v
Policy.v
StoreTypes.v
Settings.v
SettingsLaws.v
Truncation.v
TruncationLaws.v
Spill.v
StoreValidate.v
StoreJobs.v
Store.v
StoreQuery.v
StoreLoad.v
Ledger.v
StoreRefine.v
StoreGuarantees.v
StoreShell.v
ShellLaws.v
Backend.v
Runtime.v
RunJob.v
RunStages.v
RunGuarantees.v
ToolOutput.v
ToonLaws.v
RenderLaws.v
RenderGuarantees.v
RunSamples.v
StoreQueryLaws.v
ReceiptLaws.v
Manifest.v
ManifestCheck.v
ManifestLaws.v
Registry.v
RegistryAudit.v
RegistryOps.v
RegistryLaws.v
RegistryInvariant.v
RegistryGuarantees.v
Packages.v
PackageLaws.v
StoreRestart.v
Paths.v
Tools.v
Submission.v
Service.v
ScopeGuarantees.v
ServiceGuarantees.v
KeyLocks.v
Repositories.v
RequestLaws.v
ServiceSamples.v
Rpc.v
RpcPackages.v
RpcServer.v
LiveWatch.v
LiveWatchLaws.v
VerdictLaws.v
RpcLaws.v
ToolText.v
LocalAuth.v
Transport.v
TransportLaws.v
ToolTextLaws.v
WindowLaws.v
FileOps.v
MutationTools.v
MutationLaws.v
WriteLaws.v
MoveLaws.v
ReadTools.v
ReadToolLaws.v
SearchLaws.v
Artifacts.v
ArtifactLaws.v
MemoryFs.v
ToolSamples.v
