(* ===== verification/Prelude.v ===== *)
(** * Verification of the Atelia Secretary core

    Atelia Secretary is a daemon that runs tool jobs on registered repositories
    and keeps an auditable ledger of everything it did.  This library models its
    core, the crate [src/crates/atelia-core/src], and the daemon around it,
    [src/crates/ateliad/src], from the start of the process to the answer of an
    HTTP request, and proves what makes them correct.

    ** The program

    - [domain.rs]: the records of the ledger (repositories, jobs, events, policy
      and lock decisions, tool invocations, results and audit records, migration
      locks), their prefixed ids and the job status machine.
    - [policy.rs]: the policy engine; it maps a requested capability, the trust
      state of the repository and the scope of the request to an outcome and a
      risk tier.
    - [store.rs]: the ledger.  [InMemoryStore] holds the state behind a mutex;
      every mutation validates, works on a clone, writes the clone to a durable
      snapshot, installs it and broadcasts its events.
    - [settings.rs]: scoped defaults for rendering tool output.
    - [tool_output.rs], [artifacts.rs]: rendering of results and the artifacts
      large fields are spilled to.
    - [runtime.rs]: the job runner; it takes a request through store, policy
      engine and tool, and the lifecycle service that cancels jobs.
    - [extensions.rs]: manifests of extension packages with their validation, and
      the registry of installed versions, rollback targets, blocklist and audit
      trail.
    - [tools.rs]: the tools a job can run on the files of a repository; each
      resolves its path inside the repository and works through descriptors that
      follow no link.
    - [service.rs] of the daemon: the request handlers; a submission is checked
      against the scope of its repository, given a tool, run once per
      idempotency key and answered from a cache when repeated; each package
      request works on a draft of the registry, appends an audit record, stores
      the snapshot of the draft and installs it.
    - [rpc.rs] of the daemon: the messages clients exchange with it; each method
      parses its request, calls the service and converts the answer.
    - [transport.rs] and [main.rs] of the daemon: the session token, the address
      it listens on, the HTTP routes and handlers, and the stream of live events.

    The runner calls the policy engine, the tool, the output limits, the spill
    and the renderer, and records each stage in the store before it goes on; the
    store is shared by all threads of the daemon; subscribers follow the
    broadcast and catch up by replaying the ledger.

    ** The files

    Shared: [Prelude] (results and the [?] operator, ordered iteration of hash
    maps, integers at their width, tactics), [Text] (Rust's [str], [usize] and
    [Path] operations the code uses, their laws, and the splitting, prefixes and
    address parser of the manifest checks).

    Domain: [Domain] has one record per struct, one inductive per enum and one
    function per method of [domain.rs]; [DomainLaws] proves the invariant of the
    job status machine, finality of ended jobs, the lock reclaim protocol, the
    overflow-free expiry of migration locks and the round trip of ids.

    Policy: [Policy] has capability names, the rule table, the default engine
    and the interface [PolicyEngine] with its laws; the theorems give the exact
    conditions under which a tool may run, and monotonicity of the table.

    Store: [StoreTypes] is the state [InMemoryInner], its errors and queries;
    [StoreValidate] and [StoreJobs] are the validation
    functions; [Store] has one function per mutating method of the trait
    [SecretaryStore], in the order of its checks; [StoreQuery] is the read side
    (replay, paging, filters) and [StoreLoad] the validation of a loaded
    snapshot.  [StoreShell] wraps the transactions in the mutex, the atomic
    snapshot write (each system call of which may fail) and the broadcast.

    The specification of the store is [Ledger]: a step relation whose steps add
    one record or one event, an order on states ([store_le]: nothing is lost or
    rewritten) and an invariant ([store_wf]), with the proof that steps
    keep both; [StoreRefine] proves that every transaction is a sequence of
    steps; [StoreGuarantees] draws the consequences for every reachable state: well-formedness, append-only
    history, finality of ended jobs, optimistic concurrency, the exclusive
    migration lock.  [ShellLaws] proves that a store call is all or nothing
    under every I/O failure, that the file on disk always loads to a state that
    has everything acknowledged, and that subscribers see exactly the ledger.
    [StoreQueryLaws] proves that replay and paging are exact and terminate.
    [ReceiptLaws] and [StoreRestart] compare what the store
    accepts with what the loader accepts: event validation is exact, the loader
    refuses a state the store produced only for an idempotency receipt that
    events appended later no longer match, and the two ways in which the store
    writes a file it then refuses to load are shown by example.  [StoreRestart]
    also has [with_durable_snapshot_path]; opening restores the store and is
    stable.

    Settings: [Settings] has scopes, overrides, resolution, updates and the
    migration of legacy settings; [SettingsLaws] proves bounds on what is
    resolved, that the change log is truthful, where legacy settings keep their
    meaning and, by example, where they do not.

    Output: [Truncation] has characters, number parsing and lines, and the UTF-8
    aware cutting of fields in [runtime.rs], [TruncationLaws] its specification as the longest fitting prefix, the
    agreement of its two loops and of the truncating with the rejecting policy;
    [Spill] is [spill_large_tool_result_fields] of [artifacts.rs] over the
    interface [ArtifactWriter].  [ToolOutput] has the TOON, text and JSON
    renderers of [tool_output.rs].  [ToonLaws] reads TOON values and whole
    documents back; [RenderLaws] and [RenderGuarantees] prove that TOON loses nothing
    it does not report, that renderings fit their lines and bytes, and when
    rendering fails, and, with the renderers put into the runner, that runs do
    not fail to render.

    Runner: [Backend] is the store as the runner sees it, an interface with its
    laws, and the instance in which other clients act between any two calls,
    between the last call and the start of the tool ([backend_yield]), and any
    write may fail.  [Runtime] has requests, tools and event references;
    [RunJob] is [run_tool_job_with_finalizer], stage by stage, and [cancel_job],
    as computations over a world that records every execution of the tool with
    the store state it started in.  [RunStages] says what the store
    holds after each stage; [RunGuarantees] has the properties: a tool runs at most once and only after the recorded
    decision permits it (other clients may cancel the job in between), receipts say what the store holds, failures of the
    tool fail the job unless the store fails too, stored output is bounded, cancellation is exact.
    [RunSamples] evaluates runs and renderers, and shows the failure path that
    leaves a job running.

    Packages: [Manifest] has the types of a manifest, [ManifestCheck] one
    function per validation function of [extensions.rs] in the order of its
    checks, and [ManifestLaws] what acceptance guarantees: the boundary rules,
    and that what its tools and services refer to is declared (the capabilities of
    hooks and webhooks are only checked for their names).  [Registry],
    [RegistryAudit] and [RegistryOps] are the registry: data, validation of audit
    records and snapshots, operations.  [RegistryLaws] studies rollback chains, states the invariant [registry_wf] and proves that the
    snapshot validator decides it, [RegistryInvariant] that every operation keeps
    it, and [RegistryGuarantees] the consequences: snapshots load back, history
    is kept, loops are refused exactly, rollback undoes an update, blocked
    packages stay out, service calls are granted exactly when both sides agree.
    [Packages] is the package part of [SecretaryService], and [PackageLaws] proves that a request is all or nothing (but for the file after a
    failed directory sync), leaves one truthful audit record of its package and survives a restart, and which installs can be audited.
    Its module [RegistryDemo] evaluates the registry on the official manifest and
    shows two weaknesses of its checks.

    Requests: [Paths] has [std::path], the resolution of a path inside a
    repository and the scope checks of [service.rs]; [Tools] the file tools with
    their arguments; [Submission] the way from a request to a tool and its
    arguments; [Service] [submit_job] with its idempotency keys, policy checks,
    rendering, cancellation and settings; [Repositories] registration, listings,
    repertoire and health; [KeyLocks] the locking protocol of the keys as a step
    relation between threads, which may panic and poison a lock.  [ScopeGuarantees] proves that a submitted tool
    stays in the scope of its repository, [ServiceGuarantees] that a key runs
    once and that cached receipts are durable, [RequestLaws] what registration,
    capability names and listings guarantee; [ServiceSamples] evaluates them.

    File tools: [ToolText] has the text algorithms (the read window, the line
    diff, cutting, exact replacement), [ToolTextLaws] and [WindowLaws] their
    specifications.  [FileOps] has the language the rest is written in (programs
    as trees of system calls, a view of the disk, the documented behaviour
    [posix] of each call, and a rely-guarantee logic [wp] with its adequacy; the
    history [recorded] of a run is the list of its calls with their answers, so
    that a theorem can say which path a request resolved to), the file operations
    and the write locks, [MutationTools] the
    mutating tools from the path to the reported fields, [ReadTools] the reading
    tools with their buffered loops and the walk of a search.  [MutationLaws]
    proves that only the entry the request resolved to is replaced, and only by a
    complete file that is on disk, beside other processes that leave the
    descriptors, locks and temporary files of the run alone; [WriteLaws] and
    [MoveLaws] that a tool which reports success did exactly what it reports, and
    that deletions and moves touch only the entries of their requests.  [ReadToolLaws] and [SearchLaws]
    prove that the reading tools stay below a canonical root (or at the path the
    artifact store answered) whatever the system answers, and that on a disk at rest ([shows]: the answers of the system
    describe one [Tree]) they report exactly what is there.  [MemoryFs] is a
    concrete operating system with these laws, on which [ToolSamples] evaluates
    the tools.

    Artifact store: [Artifacts] is [LocalArtifactStore] of [artifacts.rs]
    (writing, updating and removing artifacts and their records, listing, lookup,
    retention) over a file system of its own, a tree with symbolic links in which
    every call may fail and a failing write may leave a part of its data; its
    instance [local_artifact_store] implements the interface of the spill.
    [ArtifactLaws] proves that the spill keeps every byte of a field it replaces
    and loses no record or file of the store whatever calls fail, that a lookup
    answers only with records its context may see and files of their scope, and
    that an expiration spares every file and record that is no target.

    RPC: [Rpc] has the messages, labels, parsers and conversions of [rpc.rs],
    [RpcPackages] the package methods with the authoring flow, [RpcServer] the
    other methods.  [VerdictLaws] proves that no client can record a verdict of
    the registry, [RpcLaws] that a polling client sees every event once and that
    what the daemon returns parses to what it accepted.

    Live events: [LiveWatch] is the opening of a live watch, with what other
    threads do between two acquisitions of the lock, and the stream: the
    broadcast channel, the forwarding task, the bounded queue and the body of the
    response, as a machine that a schedule drives.  [LiveWatchLaws] proves that
    the client is shown a beginning of the matching events whatever the schedule,
    and all of them when it catches up, which finitely many turns achieve.

    Start and transport: [LocalAuth] has the session token file, shared by the
    daemons that start on it, as machines that make one system call per turn, the
    checks at the start of [main.rs] and the bearer header; it proves that all
    daemons get the same token, that starting ends and that a started daemon is
    guarded.  [Transport] has routes, payloads, one function per handler, the
    router and the layers around it; [TransportLaws] proves that routes and paths
    correspond, that only guarded requests are carried out, that every request is
    answered, that the checks of tool arguments agree with the service's and that
    an update of settings is the core's.

    ** Representation

    - [u64] and [usize] are [N] with the checked, saturating or wrapping
      operation of the source written out; [i64] milliseconds are [Z], and the
      expiry of a migration lock is computed as the source does, in [i128].
    - A [String] is its UTF-8 bytes; error messages keep the template and the
      arguments of [format!] unrendered.
    - A [HashMap] is a [gmap]; where the source sorts what it iterates, so does
      the model; where it stops at the first error of an unordered iteration,
      the theorems do not depend on which one.
    - [Result] is [result], with [let?] for [?]; the runner is a state and error
      monad of its own, with [let!].
    - Fuel: [decimal_digits] takes 20 steps, as many as [u64::MAX] has digits
      ([parse_usize_to_string]); [chars_end] takes one step per byte, and each
      step consumes at least one; [strip_ws] and [chars_from] likewise;
      [hex_digits] takes 8 steps, as many as a [u32] has digits; [follow_pages]
      takes one step more than there are matches, and the theorems state that this is
      enough; the two walks along rollback targets take one and three steps more
      than there are versions, and [RegistryLaws] proves that they never run
      out; [read_loop] may take two calls more than the byte limit, every one of
      which reads a byte or is the last; [window_loop] takes one round more than
      the file has bytes, and [read_windows_are_faithful] states that it ends;
      [read_until_io] and [window_loop_io] take two turns more than the scan
      limit; a search ends when it may take more turns than there are canonical
      paths and than any file has bytes ([fs_search_exact]); [scan_live] takes
      one turn more than there are events ([every_request_is_answered]);
      [START_TURNS] is enough for a daemon to start ([daemon_start_ends]).

    ** What is assumed

    Nothing globally.  Code the development does not contain is an argument, a
    class: [UuidLib] ([Uuid::parse_str]), [SnapshotCodec] ([serde_json], with
    the law that it reads back what it wrote), [Entropy] (the streams of UUIDs
    and clock readings, about which nothing is assumed: UUIDs may collide and
    clocks run backwards; only the spill theorem assumes that the ids it draws are
    new, [new_ids]), [RegistryPort] (the registry snapshot the store
    carries along; its instance [registry_port] is the registry of this library,
    and [registry_port_laws] discharges what the store relies on), [ResultJson]
    ([serde_json] on results, with the laws [ResultJsonLaws]), [Renderer] (its
    instance [tool_output_renderer] is the renderer of this library), [RuntimeTool], [ArtifactWriter] (its instance
    [local_artifact_store] is the store of this library), [ArtifactDefaults],
    [IndexCodec] ([serde_json] on an index, with [IndexCodecLaws]: it writes every
    list of records and reads it back), [Process] (working directory and id),
    [FileSystem] (what the daemon asks the file system about paths, with
    [FileSystemLaws]), [Os] (the system calls of the file tools, with
    [PosixLaws]: each call behaves as documented; [canonical_names] lists the
    canonical paths of a tree), [ProjectIdLib] and [RepositoryIdJson] (the text
    of ids in settings scopes, with [ProjectIdLaws] and [RepositoryIdJsonLaws]:
    they print and parse back), [UuidText] (a UUID has no slash in it) and
    [Deserialize] (what [serde_json] makes of a body, one instance per payload,
    about which nothing is assumed).  Binding a socket keeps the address it was
    given ([Hbind] of [started_daemon_is_guarded]).  What other processes may do
    between two calls of a tool is the relation [rely]; the artifact store is
    taken to be alone in its directory, which has the shape [layout].  Every law has an instance
    among the samples.

    ** What is not modelled

    The process tools [proc.exec] and [proc.run] of [tools.rs]; the [Serialize]
    and [Deserialize] implementations and the JSON text of HTTP answers; sockets
    and the HTTP library below the registered paths; the variants for systems that
    are not Unix; log output; the shutdown of [main.rs].  They are I/O,
    serialisation, or further components behind the interfaces above. *)
From stdpp Require Export base tactics numbers list gmap strings sorting.
From Stdlib Require Export Ascii.
From Stdlib Require Export Lia ZifyBool ZifyN ZifyNat.

(** ** Results: Rust's [Result] and the [?] operator

    The notations expand to a [match] or an [if], so a proof about a handler
    walks the handler's own case analysis. *)

Inductive result (E A : Type) : Type :=
  | Ok (a : A)
  | Err (e : E).
Arguments Ok {E A} a.
Arguments Err {E A} e.

Declare Scope secretary_scope.
Delimit Scope secretary_scope with secretary.

(** [let x = m?; k] *)
Notation "'let?' x := m 'in' k" :=
  (match m with Ok x => k | Err e => Err e end)
  (at level 10, x name, m at level 200, k at level 200,
   format "'[v' 'let?'  x  :=  m  'in' '/' k ']'") : secretary_scope.
Notation "'let?' ' p := m 'in' k" :=
  (match m with Ok p => k | Err e => Err e end)
  (at level 10, p pattern, m at level 200, k at level 200) : secretary_scope.
(** [if b { return Err(e) } k] *)
Notation "'reject?' b 'with' e 'in' k" :=
  (if b then Err e else k)
  (at level 10, b at level 200, e at level 200, k at level 200,
   format "'[v' 'reject?'  b  'with'  e  'in' '/' k ']'") : secretary_scope.
Open Scope secretary_scope.

Lemma Ok_inj {E A} (a b : A) : @Ok E A a = Ok b → a = b.
Proof. by intros [= ->]. Qed.

Definition ok_or {E A} (o : option A) (e : E) : result E A :=
  match o with Some a => Ok a | None => Err e end.

Definition map_err {E F A} (f : E → F) (r : result E A) : result F A :=
  match r with Ok a => Ok a | Err e => Err (f e) end.

Definition is_ok {E A} (r : result E A) : bool :=
  match r with Ok _ => true | Err _ => false end.

(** A [for] loop whose body may return early with an error. *)
Fixpoint for_each {E A} (body : A → result E unit) (l : list A) : result E unit :=
  match l with
  | [] => Ok tt
  | x :: l => let? _ := body x in for_each body l
  end.

(** [collect::<Result<Vec<_>, _>>()] over a fallible map. *)
Fixpoint try_map {E A B} (f : A → result E B) (l : list A) : result E (list B) :=
  match l with
  | [] => Ok []
  | x :: l => let? y := f x in let? ys := try_map f l in Ok (y :: ys)
  end.

(** [Iterator::find] and [Option::filter] with a boolean test. *)
Definition find_bool {A} (f : A → bool) (l : list A) : option A := List.find f l.

Definition opt_filter {A} (f : A → bool) (o : option A) : option A :=
  match o with Some a => if f a then Some a else None | None => None end.

Definition or_else {A} (o o' : option A) : option A :=
  match o with Some a => Some a | None => o' end.

Definition is_some {A} (o : option A) : bool :=
  match o with Some _ => true | None => false end.
Definition is_none {A} (o : option A) : bool := negb (is_some o).

(** ** Machine integers

    [u32], [u64] and [usize] (64-bit targets) are [N] with the bound written
    out at each operation; [i64] is [Z]. *)

Definition u64_max : N := 18446744073709551615.
Definition usize_max : N := u64_max.
Definition i64_max : Z := 9223372036854775807.
Definition i64_min : Z := (-9223372036854775808)%Z.
Definition i128_max : Z := 170141183460469231731687303715884105727.

Definition checked_add_u64 (a b : N) : option N :=
  if (a + b <=? u64_max)%N then Some (a + b)%N else None.
Definition saturating_add_u64 (a b : N) : N := N.min (a + b) u64_max.
(** [saturating_sub] on unsigned integers is subtraction on [N]. *)
Definition saturating_sub (a b : N) : N := (a - b)%N.

Lemma checked_add_u64_Some a b c :
  checked_add_u64 a b = Some c → c = (a + b)%N ∧ (a + b <= u64_max)%N.
Proof. unfold checked_add_u64. destruct (N.leb_spec (a + b) u64_max); naive_solver. Qed.

Lemma checked_add_u64_None a b :
  checked_add_u64 a b = None → (u64_max < a + b)%N.
Proof. unfold checked_add_u64. by destruct (N.leb_spec (a + b) u64_max). Qed.

Lemma checked_add_u64_mono a b c :
  (c <= b)%N → is_Some (checked_add_u64 a b) → is_Some (checked_add_u64 a c).
Proof.
  intros Hle [x Hx]. apply checked_add_u64_Some in Hx as [_ Hx].
  unfold checked_add_u64. destruct (N.leb_spec (a + c) u64_max); [by eexists|lia].
Qed.

(** ** Byte order on strings: the order of [str] in Rust *)

Fixpoint str_le (a b : string) : bool :=
  match a, b with
  | EmptyString, _ => true
  | String _ _, EmptyString => false
  | String x a, String y b =>
      if (N_of_ascii x <? N_of_ascii y)%N then true
      else if (N_of_ascii x =? N_of_ascii y)%N then str_le a b
      else false
  end.

Lemma N_of_ascii_inj x y : N_of_ascii x = N_of_ascii y → x = y.
Proof. intros H. by rewrite <- (ascii_N_embedding x), H, ascii_N_embedding. Qed.

Ltac str_le_cases :=
  repeat match goal with
    | |- context [(?x <? ?y)%N] => destruct (N.ltb_spec x y)
    | |- context [(?x =? ?y)%N] => destruct (N.eqb_spec x y)
    | H : context [(?x <? ?y)%N] |- _ => destruct (N.ltb_spec x y)
    | H : context [(?x =? ?y)%N] |- _ => destruct (N.eqb_spec x y)
    end.

Lemma str_le_total a b : str_le a b = true ∨ str_le b a = true.
Proof.
  revert b; induction a as [|x a IH]; intros [|y b]; simpl; auto.
  str_le_cases; auto; lia.
Qed.

Lemma str_le_trans a b c : str_le a b = true → str_le b c = true → str_le a c = true.
Proof.
  revert b c; induction a as [|x a IH]; intros [|y b] [|z c]; simpl; try done.
  intros H1 H2. str_le_cases; try done; try lia; eauto.
Qed.

Lemma str_le_antisym a b : str_le a b = true → str_le b a = true → a = b.
Proof.
  revert b; induction a as [|x a IH]; intros [|y b]; simpl; try done.
  intros H1 H2. str_le_cases; try done; try lia.
  f_equal; [by apply N_of_ascii_inj | by apply IH].
Qed.

(** ** Ordered maps

    A [BTreeMap] is a [gmap] whose iterators visit the bindings in key order;
    a [HashMap] is a [gmap] whose iterators visit them in an unspecified order
    (here the one of [map_to_list]). *)

Class OrderedKey (K : Type) := {
  key_le : K → K → bool;
  key_le_total x y : key_le x y = true ∨ key_le y x = true;
  key_le_trans x y z : key_le x y = true → key_le y z = true → key_le x z = true;
  key_le_antisym x y : key_le x y = true → key_le y x = true → x = y
}.

Definition key_ltb `{OrderedKey K} (x y : K) : bool := key_le x y && negb (key_le y x).

#[export] Program Instance N_ordered : OrderedKey N := {| key_le := N.leb |}.
Next Obligation. intros x y. lia. Qed.
Next Obligation. intros x y z ??. lia. Qed.
Next Obligation. intros x y ??. lia. Qed.

#[export] Instance string_ordered : OrderedKey string := {|
  key_le := str_le; key_le_total := str_le_total;
  key_le_trans := str_le_trans; key_le_antisym := str_le_antisym |}.

Section Maps.
Context {K V : Type} `{Countable K}.

Definition hash_values (m : gmap K V) : list V := (map_to_list m).*2.
Definition hash_keys (m : gmap K V) : list K := (map_to_list m).*1.

Context `{!OrderedKey K}.

Definition entry_le (p q : K * V) : Prop := key_le p.1 q.1 = true.
#[export] Instance entry_le_dec p q : Decision (entry_le p q).
Proof. unfold entry_le. apply _. Defined.
#[local] Instance entry_le_trans : Transitive entry_le.
Proof. intros x y z. apply key_le_trans. Qed.
#[local] Instance entry_le_total : Total entry_le.
Proof. intros x y. apply key_le_total. Qed.

Definition btree_to_list (m : gmap K V) : list (K * V) := merge_sort entry_le (map_to_list m).
Definition btree_values (m : gmap K V) : list V := (btree_to_list m).*2.
(** [range(start..)] *)
Definition btree_range_from (start : K) (m : gmap K V) : list (K * V) :=
  List.filter (λ p, key_le start p.1) (btree_to_list m).

Lemma elem_of_hash_values (m : gmap K V) v :
  v ∈ hash_values m ↔ ∃ k, m !! k = Some v.
Proof.
  unfold hash_values. rewrite list_elem_of_fmap. split.
  - intros ([k v'] & -> & Hin). exists k. by apply elem_of_map_to_list.
  - intros [k Hk]. exists (k, v). split; [done|]. by apply elem_of_map_to_list.
Qed.

Lemma btree_to_list_perm (m : gmap K V) : btree_to_list m ≡ₚ map_to_list m.
Proof. apply merge_sort_Permutation. Qed.

Lemma elem_of_btree_to_list (m : gmap K V) k v :
  (k, v) ∈ btree_to_list m ↔ m !! k = Some v.
Proof. rewrite btree_to_list_perm. apply elem_of_map_to_list. Qed.

Lemma btree_to_list_sorted (m : gmap K V) : StronglySorted entry_le (btree_to_list m).
Proof. apply Sorted_StronglySorted; [apply _|]. apply Sorted_merge_sort. apply _. Qed.

Lemma btree_to_list_nodup (m : gmap K V) : NoDup (btree_to_list m).*1.
Proof. rewrite btree_to_list_perm. apply NoDup_fst_map_to_list. Qed.

Lemma elem_of_btree_values (m : gmap K V) v :
  v ∈ btree_values m ↔ ∃ k, m !! k = Some v.
Proof.
  unfold btree_values. rewrite list_elem_of_fmap. split.
  - intros ([k v'] & -> & Hin). exists k. by apply elem_of_btree_to_list.
  - intros [k Hk]. exists (k, v). split; [done|]. by apply elem_of_btree_to_list.
Qed.
End Maps.

(** ** Loops *)

Lemma for_each_Ok {E A} (body : A → result E unit) l :
  for_each body l = Ok tt ↔ ∀ x, x ∈ l → body x = Ok tt.
Proof.
  induction l as [|x l IH]; simpl.
  - split; [by intros _ ? ?%not_elem_of_nil | done].
  - destruct (body x) as [[]|e] eqn:Hx.
    + rewrite IH. split.
      * intros Hl y [->|Hy]%elem_of_cons; eauto.
      * intros Hl y Hy. apply Hl. by right.
    + split; [done|]. intros Hl. rewrite <- Hx. apply Hl. by left.
Qed.

Lemma find_bool_None {A} (f : A → bool) l x :
  find_bool f l = None → x ∈ l → f x = false.
Proof.
  intros Hf Hin. apply (List.find_none _ _ Hf). by apply list_elem_of_In.
Qed.

Lemma find_bool_Some {A} (f : A → bool) l x :
  find_bool f l = Some x → x ∈ l ∧ f x = true.
Proof. intros Hf. apply List.find_some in Hf. by rewrite list_elem_of_In. Qed.

Lemma find_bool_is_Some {A} (f : A → bool) l x :
  x ∈ l → f x = true → is_Some (find_bool f l).
Proof.
  intros Hin Hx. destruct (find_bool f l) eqn:E; [by eexists|].
  by rewrite (find_bool_None _ _ _ E Hin) in Hx.
Qed.

Lemma existsb_false {A} (f : A → bool) l : existsb f l = false ↔ ∀ x, x ∈ l → f x = false.
Proof.
  induction l as [|y l IH]; simpl; [split; [by intros _ x ?%not_elem_of_nil|done]|].
  rewrite orb_false_iff, IH. split.
  - intros [Hy Hl] x [->|Hx]%elem_of_cons; auto.
  - intros H. split; [apply H; by left|]. intros x Hx. apply H. by right.
Qed.

Lemma ok_or_Ok {E A} (o : option A) (e : E) a : ok_or o e = Ok a ↔ o = Some a.
Proof. destruct o; simpl; naive_solver. Qed.

(** What a handler's guards say when it succeeds. *)
Lemma then_Ok {E B} (m : result E unit) (k : result E B) b :
  match m with Ok _ => k | Err e => Err e end = Ok b ↔ m = Ok tt ∧ k = Ok b.
Proof. destruct m as [[]|]; split; [done|by intros [_ ?]|done|by intros [? _]]. Qed.
Lemma bind_Ok {E A B} (m : result E A) (k : A → result E B) b :
  match m with Ok a => k a | Err e => Err e end = Ok b ↔ ∃ a, m = Ok a ∧ k a = Ok b.
Proof. destruct m; split; [eauto|by intros (? & [= <-] & ?)|done|by intros (? & ? & _)]. Qed.
Lemma reject_Ok {E B} (b : bool) (e : E) (k : result E B) x :
  (if b then Err e else k) = Ok x ↔ b = false ∧ k = Ok x.
Proof. destruct b; split; [done|by intros [? _]|done|by intros [_ ?]]. Qed.
Lemma map_err_Ok {E F A} (f : E → F) (r : result E A) a : map_err f r = Ok a ↔ r = Ok a.
Proof. destruct r; simpl; split; congruence. Qed.

(** ** Tactics *)

(** Walk a hypothesis [H : handler ... = Ok r] through the handler's guards. *)
Ltac step_ok H :=
  match type of H with
  | match ?m with Ok _ => _ | Err _ => _ end = Ok _ =>
      let E := fresh "Hok" in destruct m eqn:E; [|discriminate H]
  | (if ?b then Err _ else _) = Ok _ =>
      let E := fresh "Hg" in destruct b eqn:E; [discriminate H|]
  | (if ?b then _ else _) = Ok _ =>
      let E := fresh "Hg" in destruct b eqn:E; try discriminate H
  | match ?m with Some _ => _ | None => _ end = Ok _ =>
      let E := fresh "Ho" in destruct m eqn:E; try discriminate H
  | (let '(_, _) := ?m in _) = Ok _ =>
      let E := fresh "Hp" in destruct m eqn:E
  | Ok _ = Ok _ => injection H as H
  | ok_or _ _ = Ok _ => apply ok_or_Ok in H
  end.
Ltac run_ok H := repeat (step_ok H; simpl in H).

Create HintDb secretary.
#[export] Hint Resolve elem_of_hash_values elem_of_btree_values : secretary.
