(* ===== verification/Text.v ===== *)
(** * Text: the parts of Rust's standard library on text that the program uses *)
From S2P Require Import Prelude.

(** * The parts of Rust's [str], integer formatting and [Path] the
    program uses

    A [String] is the sequence of its UTF-8 bytes, a Rocq [string].  The
    functions below follow the standard library's documented behaviour:
    [str::trim], [to_ascii_lowercase], [replace] of single characters,
    [strip_prefix], [parse::<usize>], [usize::to_string], and the component
    view of a Unix [Path] ([==] and [starts_with]). *)

Abbreviation bytes := (list ascii).
Definition to_bytes (s : string) : bytes := String.list_ascii_of_string s.
Definition of_bytes (l : bytes) : string := String.string_of_list_ascii l.
Definition code (c : ascii) : N := N_of_ascii c.
Definition str_len (s : string) : N := N.of_nat (length (to_bytes s)).
Definition str_is_empty (s : string) : bool :=
  match s with EmptyString => true | String _ _ => false end.

(** ** [str::trim]: Unicode white space, on the bytes *)

(** Bytes taken by a white-space character at the head of the list, 0 when the
    first character is not white space.  The multi-byte encodings are those of
    U+0085, U+00A0, U+1680, U+2000..U+200A, U+2028, U+2029, U+202F, U+205F and
    U+3000. *)
Definition ws1 (a : N) : bool := ((9 <=? a) && (a <=? 13) || (a =? 32))%N.
Definition ws2 (a b : N) : bool := ((a =? 194) && ((b =? 133) || (b =? 160)))%N.
Definition ws3 (a b c : N) : bool :=
  ((a =? 225) && (b =? 154) && (c =? 128)
   || (a =? 226) && (b =? 128)
        && ((128 <=? c) && (c <=? 138) || (c =? 168) || (c =? 169) || (c =? 175))
   || (a =? 226) && (b =? 129) && (c =? 159)
   || (a =? 227) && (b =? 128) && (c =? 128))%N.

Definition ws_head (l : bytes) : nat :=
  match l with
  | a :: l1 =>
      if ws1 (code a) then 1
      else match l1 with
           | b :: l2 =>
               if ws2 (code a) (code b) then 2
               else match l2 with
                    | c :: _ => if ws3 (code a) (code b) (code c) then 3 else 0
                    | [] => 0
                    end
           | [] => 0
           end
  | [] => 0
  end.

(** The same for the last character, on the reversed bytes. *)
Definition ws_last (r : bytes) : nat :=
  match r with
  | a :: r1 =>
      if ws1 (code a) then 1
      else match r1 with
           | b :: r2 =>
               if ws2 (code b) (code a) then 2
               else match r2 with
                    | c :: _ => if ws3 (code c) (code b) (code a) then 3 else 0
                    | [] => 0
                    end
           | [] => 0
           end
  | [] => 0
  end.

(** Drop white space while [ws] finds some; one step per byte is enough. *)
Fixpoint strip_ws (ws : bytes → nat) (fuel : nat) (l : bytes) : bytes :=
  match fuel with
  | O => l
  | S fuel => match ws l with O => l | n => strip_ws ws fuel (drop n l) end
  end.

Definition trim_start_bytes (l : bytes) : bytes := strip_ws ws_head (length l) l.
Definition trim_end_bytes (l : bytes) : bytes :=
  rev (strip_ws ws_last (length l) (rev l)).
Definition trim (s : string) : string :=
  of_bytes (trim_end_bytes (trim_start_bytes (to_bytes s))).

(** [s.trim().is_empty()] *)
Definition is_blank (s : string) : bool := str_is_empty (trim s).

(** ** Character maps and prefixes *)

Definition ascii_lower (c : ascii) : ascii :=
  if ((65 <=? code c) && (code c <=? 90))%N then ascii_of_N (code c + 32) else c.

Fixpoint map_bytes (f : ascii → ascii) (s : string) : string :=
  match s with
  | EmptyString => EmptyString
  | String c s => String (f c) (map_bytes f s)
  end.

Definition to_ascii_lowercase (s : string) : string := map_bytes ascii_lower s.

(** [s.replace(chars, to)] for single-byte characters. *)
Definition replace_chars (from : list ascii) (to : ascii) (s : string) : string :=
  map_bytes (λ c, if bool_decide (c ∈ from) then to else c) s.

Fixpoint strip_prefix (p s : string) : option string :=
  match p, s with
  | EmptyString, _ => Some s
  | String a p, String b s => if bool_decide (a = b) then strip_prefix p s else None
  | String _ _, EmptyString => None
  end.
Definition starts_with (p s : string) : bool := is_some (strip_prefix p s).

Definition str_eqb (a b : string) : bool := bool_decide (a = b).
Definition str_in (s : string) (l : list string) : bool := existsb (str_eqb s) l.

(** ** Decimal numbers *)

Definition digit (n : N) : ascii := ascii_of_N (48 + n).

Fixpoint decimal_digits (fuel : nat) (n : N) (acc : string) : string :=
  match fuel with
  | O => acc
  | S fuel =>
      let acc := String (digit (n mod 10)) acc in
      if (n <? 10)%N then acc else decimal_digits fuel (n / 10) acc
  end.

(** [usize::to_string]; 20 digits hold every 64-bit value. *)
Definition usize_to_string (n : N) : string := decimal_digits 20 n EmptyString.

Fixpoint parse_digits (acc : N) (s : string) : option N :=
  match s with
  | EmptyString => Some acc
  | String c s =>
      if ((48 <=? code c) && (code c <=? 57))%N then
        let acc' := (acc * 10 + (code c - 48))%N in
        if (acc' <=? usize_max)%N then parse_digits acc' s else None
      else None
  end.

Definition plus_sign : ascii := "+".

(** [str::parse::<usize>]: an optional plus sign, then at least one digit, with
    overflow an error. *)
Definition parse_usize (s : string) : option N :=
  match s with
  | EmptyString => None
  | String c rest =>
      if bool_decide (c = plus_sign) then
        match rest with EmptyString => None | _ => parse_digits 0 rest end
      else parse_digits 0 s
  end.

(** ** Paths *)

Definition slash : ascii := "/".

(** Split at [/], the current piece kept reversed. *)
Fixpoint split_slash (l : bytes) (cur : bytes) : list bytes :=
  match l with
  | [] => [rev cur]
  | c :: l => if bool_decide (c = slash) then rev cur :: split_slash l []
              else split_slash l (c :: cur)
  end.

Inductive PathComponent :=
  | RootDir
  | CurDir
  | ParentDir
  | Normal (name : string).
#[export] Instance PathComponent_eq_dec : EqDecision PathComponent.
Proof. solve_decision. Defined.

Definition component_of (p : bytes) : option PathComponent :=
  if bool_decide (p = []) then None
  else if bool_decide (p = to_bytes ".") then None
  else if bool_decide (p = to_bytes "..") then Some ParentDir
  else Some (Normal (of_bytes p)).

(** [Path::components] on Unix: a leading [/] is [RootDir], empty pieces and
    [.] pieces disappear, except a leading [.] of a relative path. *)
Definition path_components (s : string) : list PathComponent :=
  let pieces := split_slash (to_bytes s) [] in
  let body := omap component_of pieces in
  match to_bytes s with
  | c :: _ =>
      if bool_decide (c = slash) then RootDir :: body
      else match pieces with
           | p :: _ => if bool_decide (p = to_bytes ".") then CurDir :: body else body
           | [] => body
           end
  | [] => body
  end.

Fixpoint list_prefixb {A} `{EqDecision A} (p l : list A) : bool :=
  match p, l with
  | [], _ => true
  | x :: p, y :: l => bool_decide (x = y) && list_prefixb p l
  | _ :: _, [] => false
  end.

(** [Path] equality and [Path::starts_with] compare components. *)
Definition path_eqb (a b : string) : bool :=
  bool_decide (path_components a = path_components b).
Definition path_starts_with (a b : string) : bool :=
  list_prefixb (path_components b) (path_components a).

(** * Decimal numbers round trip *)

Lemma code_digit d : (d < 10)%N → code (digit d) = (48 + d)%N.
Proof. intros Hd. unfold code, digit. apply N_ascii_embedding. lia. Qed.

Lemma parse_digits_digit acc d s :
  (d < 10)%N → (acc * 10 + d <= usize_max)%N →
  parse_digits acc (String (digit d) s) = parse_digits (acc * 10 + d) s.
Proof.
  intros Hd Hmax. simpl. rewrite (code_digit d Hd).
  replace ((48 <=? 48 + d) && (48 + d <=? 57))%N with true by lia.
  replace (48 + d - 48)%N with d by lia. destruct (N.leb_spec (acc * 10 + d) usize_max); [done|lia].
Qed.

Lemma parse_decimal_digits fuel n s :
  (n < 10 ^ N.of_nat fuel)%N → (n <= usize_max)%N → fuel ≠ 0 →
  parse_digits 0 (decimal_digits fuel n s) = parse_digits n s.
Proof.
  revert n s. induction fuel as [|fuel IH]; intros n s Hn Hmax Hf; [done|].
  cbn [decimal_digits].
  pose proof (N.mod_lt n 10 ltac:(lia)) as Hm. pose proof (N.div_mod n 10 ltac:(lia)) as Hdm.
  destruct (N.ltb_spec n 10) as [Hlt|Hge].
  - rewrite N.mod_small by done. rewrite parse_digits_digit by lia. by rewrite N.add_0_l.
  - destruct fuel as [|fuel].
    { simpl in Hn. lia. }
    rewrite IH; [|rewrite Nat2N.inj_succ, N.pow_succ_r in Hn by lia|lia|done].
    + rewrite parse_digits_digit by lia. f_equal. lia.
    + apply N.Div0.div_lt_upper_bound. lia.
Qed.

Lemma decimal_digits_head fuel n s :
  fuel ≠ 0 → ∃ d r, (d < 10)%N ∧ decimal_digits fuel n s = String (digit d) r.
Proof.
  revert n s. induction fuel as [|fuel IH]; intros n s Hf; [done|]. cbn [decimal_digits].
  destruct (n <? 10)%N; [exists (n mod 10)%N, s; split; [apply N.mod_lt; lia|done]|].
  destruct fuel as [|fuel]; [exists (n mod 10)%N, s; split; [apply N.mod_lt; lia|done]|].
  by apply IH.
Qed.

(** Printing a [usize] and parsing it gives it back. *)
Lemma parse_usize_to_string n : (n <= usize_max)%N → parse_usize (usize_to_string n) = Some n.
Proof.
  intros Hn. unfold usize_to_string.
  destruct (decimal_digits_head 20 n EmptyString) as (d & r & Hd & Heq); [done|].
  pose proof (parse_decimal_digits 20 n EmptyString) as Hp. rewrite Heq in *. unfold parse_usize.
  rewrite bool_decide_eq_false_2.
  - rewrite Hp; [done| |done|done]. unfold usize_max, u64_max in Hn. lia.
  - intros Hc. apply (f_equal code) in Hc. rewrite (code_digit d Hd) in Hc.
    change (code plus_sign) with 43%N in Hc. lia.
Qed.

Lemma usize_to_string_nonempty n : str_is_empty (usize_to_string n) = false.
Proof.
  unfold usize_to_string. by destruct (decimal_digits_head 20 n EmptyString) as (d & r & _ & ->).
Qed.

(** ** [trim] *)

Lemma to_of_bytes l : to_bytes (of_bytes l) = l.
Proof. apply String.list_ascii_of_string_of_list_ascii. Qed.
Lemma of_to_bytes s : of_bytes (to_bytes s) = s.
Proof. apply String.string_of_list_ascii_of_string. Qed.
Lemma to_bytes_app a b : to_bytes (a +:+ b) = to_bytes a ++ to_bytes b.
Proof. induction a as [|c a IH]; [done|]. change (c :: to_bytes (a +:+ b) = c :: (to_bytes a ++ to_bytes b)). by rewrite IH. Qed.

Lemma ws_head_bound l : ws_head l ≤ length l.
Proof. unfold ws_head. repeat case_match; simpl; lia. Qed.
Lemma ws_last_bound l : ws_last l ≤ length l.
Proof. unfold ws_last. repeat case_match; simpl; lia. Qed.

(** White space at the head of a prefix is white space at the head of the whole. *)
Lemma ws_head_app p q : ws_head p ≠ 0 → ws_head (p ++ q) = ws_head p.
Proof.
  destruct p as [|a [|b [|c p]]]; simpl; try done; destruct q as [|? [|??]]; simpl;
    repeat case_match; congruence.
Qed.

Section StripWs.
Context (ws : bytes → nat) (Hbound : ∀ l, ws l ≤ length l).

Lemma strip_ws_stops fuel l : length l ≤ fuel → ws (strip_ws ws fuel l) = 0.
Proof.
  revert l. induction fuel as [|fuel IH]; intros l Hl; simpl.
  - pose proof (Hbound l). lia.
  - destruct (ws l) as [|n] eqn:Hws; [done|]. apply IH.
    rewrite length_drop. destruct l; [|simpl in *; lia]. pose proof (Hbound []). simpl in *. lia.
Qed.

Lemma strip_ws_id fuel l : ws l = 0 → strip_ws ws fuel l = l.
Proof. intros Hl. destruct fuel; simpl; [done|]. by rewrite Hl. Qed.

Lemma strip_ws_suffix fuel l : ∃ p, l = p ++ strip_ws ws fuel l.
Proof.
  revert l. induction fuel as [|fuel IH]; intros l; simpl; [by exists []|].
  destruct (ws l) as [|n] eqn:Hws; [by exists []|].
  destruct (IH (drop (S n) l)) as [p Hp]. exists (take (S n) l ++ p).
  rewrite <- app_assoc, <- Hp. symmetry. apply take_drop.
Qed.
End StripWs.

Lemma trim_start_clean l : ws_head (trim_start_bytes l) = 0.
Proof. apply strip_ws_stops; [apply ws_head_bound|done]. Qed.

Lemma trim_end_clean l : ws_last (rev (trim_end_bytes l)) = 0.
Proof.
  unfold trim_end_bytes. rewrite rev_involutive.
  apply strip_ws_stops; [apply ws_last_bound|by rewrite length_rev].
Qed.

Lemma trim_end_prefix l : ∃ q, l = trim_end_bytes l ++ q.
Proof.
  destruct (strip_ws_suffix ws_last (length l) (rev l)) as [p Hp]. exists (rev p).
  unfold trim_end_bytes. rewrite <- rev_app_distr, <- Hp. by rewrite rev_involutive.
Qed.

Lemma ws_head_trim s : ws_head (to_bytes (trim s)) = 0.
Proof.
  unfold trim. rewrite to_of_bytes. set (l := trim_start_bytes (to_bytes s)).
  destruct (trim_end_prefix l) as [q Hq].
  destruct (decide (ws_head (trim_end_bytes l) = 0)) as [|Hne]; [done|].
  pose proof (ws_head_app _ q Hne) as Happ. rewrite <- Hq in Happ.
  unfold l in Happ. rewrite trim_start_clean in Happ. done.
Qed.

(** Trimming a trimmed string changes nothing. *)
Lemma trim_idempotent s : trim (trim s) = trim s.
Proof.
  pose proof (ws_head_trim s) as Hhead. unfold trim in *. rewrite to_of_bytes in *. f_equal.
  set (t := trim_end_bytes (trim_start_bytes (to_bytes s))) in *.
  assert (trim_start_bytes t = t) as -> by by apply strip_ws_id.
  unfold trim_end_bytes. rewrite (strip_ws_id ws_last _ (rev t)); [apply rev_involutive|].
  apply trim_end_clean.
Qed.

(** Text that starts with a character that is not white space is not blank. *)
Lemma ws_last_whole r : ws_last r = length r → r ≠ [] → ws_head (rev r) ≠ 0.
Proof.
  destruct r as [|a [|b [|c [|d r]]]]; simpl; try done; intros Hr _; revert Hr;
    repeat case_match; try done; try lia; congruence.
Qed.

Lemma strip_all_ws fuel r : strip_ws ws_last fuel r = [] → r ≠ [] → ws_head (rev r) ≠ 0.
Proof.
  revert r. induction fuel as [|fuel IH]; intros r; simpl; [done|].
  destruct (ws_last r) as [|n] eqn:Hws; [done|]. intros Hs Hne.
  destruct (decide (drop (S n) r = [])) as [Hnil|Hrest].
  - apply ws_last_whole; [|done]. pose proof (ws_last_bound r).
    apply (f_equal length) in Hnil. rewrite length_drop in Hnil. simpl in Hnil. lia.
  - rewrite <- (take_drop (S n) r), rev_app_distr. rewrite ws_head_app; by apply IH.
Qed.

Lemma not_blank l : l ≠ [] → ws_head l = 0 → is_blank (of_bytes l) = false.
Proof.
  intros Hne Hhead. unfold is_blank, trim. rewrite to_of_bytes.
  assert (trim_start_bytes l = l) as -> by by apply strip_ws_id.
  unfold trim_end_bytes.
  destruct (strip_ws ws_last (length l) (rev l)) as [|c t] eqn:Hs.
  - apply strip_all_ws in Hs; [by rewrite rev_involutive in Hs|].
    intros Hr. apply Hne. by rewrite <- (rev_involutive l), Hr.
  - simpl. destruct (rev t ++ [c]) eqn:He; [|done]. by destruct (rev t).
Qed.

Lemma is_blank_trim s : is_blank (trim s) = is_blank s.
Proof. unfold is_blank. by rewrite trim_idempotent. Qed.

Lemma str_eqb_eq a b : str_eqb a b = true ↔ a = b.
Proof. apply bool_decide_eq_true. Qed.
Lemma str_eqb_neq a b : str_eqb a b = false ↔ a ≠ b.
Proof. apply bool_decide_eq_false. Qed.

(** * Splitting strings, character classes and IPv6 literals

    The parts of Rust's [str], [char] and [Ipv6Addr] the extension manifests
    are checked with.  Tests for ASCII characters look at bytes: the bytes of
    other characters are never in the tested ranges. *)

(** ** Characters *)

Definition in_range (lo hi : N) (c : ascii) : bool := ((lo <=? code c) && (code c <=? hi))%N.
Definition is_ascii_digit : ascii → bool := in_range 48 57.
Definition is_ascii_lowercase : ascii → bool := in_range 97 122.
Definition is_ascii_uppercase : ascii → bool := in_range 65 90.
Definition is_ascii_alphanumeric (c : ascii) : bool :=
  is_ascii_digit c || is_ascii_lowercase c || is_ascii_uppercase c.
Definition is_ascii_hexdigit (c : ascii) : bool :=
  is_ascii_digit c || in_range 97 102 c || in_range 65 70 c.

Definition all_chars (f : ascii → bool) (s : string) : bool := forallb f (to_bytes s).
Definition any_char (f : ascii → bool) (s : string) : bool := existsb f (to_bytes s).
Definition contains_char (c : ascii) : string → bool := any_char (λ x, bool_decide (x = c)).

(** [value.chars().any(char::is_whitespace)]: some suffix starts with a white
    space character (an encoding never starts inside another character). *)
Fixpoint bytes_have_whitespace (l : bytes) : bool :=
  match l with
  | [] => false
  | _ :: rest => negb (ws_head l =? 0)%nat || bytes_have_whitespace rest
  end.
Definition has_whitespace (s : string) : bool := bytes_have_whitespace (to_bytes s).

Definition starts_with_char (c : ascii) (s : string) : bool :=
  match s with String x _ => bool_decide (x = c) | EmptyString => false end.
Definition ends_with_char (c : ascii) (s : string) : bool :=
  match last (to_bytes s) with Some x => bool_decide (x = c) | None => false end.
(** [strip_suffix(char)] *)
Definition strip_suffix_char (c : ascii) (s : string) : option string :=
  if ends_with_char c s then Some (of_bytes (removelast (to_bytes s))) else None.

(** ** Splitting *)

(** [split(seps)]; the current piece is kept reversed. *)
Fixpoint split_bytes (seps : list ascii) (l cur : bytes) : list bytes :=
  match l with
  | [] => [rev cur]
  | c :: l => if bool_decide (c ∈ seps) then rev cur :: split_bytes seps l []
              else split_bytes seps l (c :: cur)
  end.
Definition split_at (seps : list ascii) (s : string) : list string :=
  map of_bytes (split_bytes seps (to_bytes s) []).

(** [split_once(char)]: around the first occurrence. *)
Fixpoint split_once_bytes (c : ascii) (l before : bytes) : option (bytes * bytes) :=
  match l with
  | [] => None
  | x :: l => if bool_decide (x = c) then Some (rev before, l)
              else split_once_bytes c l (x :: before)
  end.
Definition split_once (c : ascii) (s : string) : option (string * string) :=
  match split_once_bytes c (to_bytes s) [] with
  | Some (a, b) => Some (of_bytes a, of_bytes b)
  | None => None
  end.
(** [rsplit_once(char)]: around the last occurrence. *)
Definition rsplit_once (c : ascii) (s : string) : option (string * string) :=
  match split_once_bytes c (rev (to_bytes s)) [] with
  | Some (b, a) => Some (of_bytes (rev a), of_bytes (rev b))
  | None => None
  end.

(** ** [Ipv6Addr::from_str]

    The parser of the standard library: each reader takes the remaining bytes
    and returns what is left, or fails without consuming.  Only acceptance
    matters here, so the groups' values are dropped, except for the range of an
    IPv4 octet. *)

Definition hex_value (c : ascii) : option N :=
  if is_ascii_digit c then Some (code c - 48)%N
  else if in_range 97 102 c then Some (code c - 87)%N
  else if in_range 65 70 c then Some (code c - 55)%N
  else None.
Definition digit_value (radix : N) (c : ascii) : option N :=
  opt_filter (λ d, (d <? radix)%N) (hex_value c).

(** The digits at the head: value, count and rest. *)
Fixpoint read_digits (radix : N) (l : bytes) (value : N) (count : nat) : N * nat * bytes :=
  match l with
  | [] => (value, count, [])
  | c :: rest =>
      match digit_value radix c with
      | Some d => read_digits radix rest (value * radix + d)%N (S count)
      | None => (value, count, l)
      end
  end.

Definition zero_char : ascii := "0".

(** [read_number(radix, Some(max_digits), allow_zero_prefix)] with the largest
    value of the target type. *)
Definition read_number (radix : N) (max_digits : nat) (allow_zero_prefix : bool) (max_value : N)
  (l : bytes) : option bytes :=
  let leading_zero := match l with c :: _ => bool_decide (c = zero_char) | [] => false end in
  let '(value, count, rest) := read_digits radix l 0 0 in
  if (count =? 0)%nat || (max_digits <? count)%nat
     || negb allow_zero_prefix && leading_zero && (1 <? count)%nat
     || (max_value <? value)%N
  then None else Some rest.

Definition read_given_char (c : ascii) (l : bytes) : option bytes :=
  match l with x :: rest => if bool_decide (x = c) then Some rest else None | [] => None end.

(** [read_separator(sep, index, inner)] *)
Definition read_separator (sep : ascii) (index : nat) (inner : bytes → option bytes) (l : bytes)
  : option bytes :=
  match index with
  | O => inner l
  | S _ => match read_given_char sep l with Some rest => inner rest | None => None end
  end.

Definition dot : ascii := ".".
Definition colon : ascii := ":".

Definition read_octet : bytes → option bytes := read_number 10 3 false 255.
Definition read_ipv4_addr (l : bytes) : option bytes :=
  l ← read_separator dot 0 read_octet l;
  l ← read_separator dot 1 read_octet l;
  l ← read_separator dot 2 read_octet l;
  read_separator dot 3 read_octet l.

(** [read_groups]: how many of [limit] groups were read, whether the last two
    were an IPv4 address, and the rest; [todo] is [limit - index]. *)
Fixpoint read_groups (index todo : nat) (l : bytes) : nat * bool * bytes :=
  match todo with
  | O => (index, false, l)
  | S todo =>
      match (if (1 <=? todo)%nat then read_separator colon index read_ipv4_addr l else None) with
      | Some rest => (index + 2, true, rest)%nat
      | None =>
          match read_separator colon index (read_number 16 4 true 65535) l with
          | Some rest => read_groups (S index) todo rest
          | None => (index, false, l)
          end
      end
  end.

Definition read_ipv6_addr (l : bytes) : option bytes :=
  let '(head_size, head_ipv4, rest) := read_groups 0 8 l in
  if (head_size =? 8)%nat then Some rest
  else if head_ipv4 then None
  else
    rest ← read_given_char colon rest;
    rest ← read_given_char colon rest;
    let '(_, _, rest) := read_groups 0 (8 - (head_size + 1)) rest in
    Some rest.

(** [Ipv6Addr::from_str(host).is_ok()] *)
Definition ipv6_parses (s : string) : bool :=
  match read_ipv6_addr (to_bytes s) with Some [] => true | _ => false end.

Example ipv6_samples :
  map ipv6_parses ["::1"; "fe80::1:2"; "1:2:3:4:5:6:7:8"; "::ffff:127.0.0.1"; "::";
                   "1:2:3:4:5:6:7"; "1::2::3"; "::12345"; "::127.0.0.01"; "1.2.3.4"; "g::"]%string
  = [true; true; true; true; true; false; false; false; false; false; false].
Proof. vm_compute. reflexivity. Qed.
