(* ===== verification/Domain.v ===== *)
(** * Domain: the ledger records of [crates/atelia-core/src/domain.rs]

    Opaque prefixed ids, timestamps, the records of every collection of the
    ledger, and the operations the records carry: the job status machine, the
    lock reclaim protocol and the schema-migration lock. *)
From S2P Require Import Prelude Text.

(** ** Opaque ids

    The macro [opaque_id!] declares one newtype over [String] per kind; here
    the kind is an index.  [Uuid::parse_str] and [Uuid::new_v4] belong to the
    [uuid] crate: the first is a parameter, the value of the second an argument
    of the operation that draws it. *)

Class UuidLib := { uuid_parse_str : string → bool }.

Inductive IdKind :=
  | RepositoryIdKind | JobIdKind | JobEventIdKind | PolicyDecisionIdKind
  | LockDecisionIdKind | ToolInvocationIdKind | ToolResultIdKind
  | AuditRecordIdKind | SchemaMigrationIdKind | OutputRefIdKind | ArtifactRefIdKind.

Record OpaqueId (k : IdKind) := MkId { as_str : string }.
Arguments MkId {k} as_str.
Arguments as_str {k} _.

Abbreviation RepositoryId := (OpaqueId RepositoryIdKind).
Abbreviation JobId := (OpaqueId JobIdKind).
Abbreviation JobEventId := (OpaqueId JobEventIdKind).
Abbreviation PolicyDecisionId := (OpaqueId PolicyDecisionIdKind).
Abbreviation LockDecisionId := (OpaqueId LockDecisionIdKind).
Abbreviation ToolInvocationId := (OpaqueId ToolInvocationIdKind).
Abbreviation ToolResultId := (OpaqueId ToolResultIdKind).
Abbreviation AuditRecordId := (OpaqueId AuditRecordIdKind).
Abbreviation SchemaMigrationId := (OpaqueId SchemaMigrationIdKind).
Abbreviation OutputRefId := (OpaqueId OutputRefIdKind).
Abbreviation ArtifactRefId := (OpaqueId ArtifactRefIdKind).

#[export] Instance OpaqueId_eq_dec k : EqDecision (OpaqueId k).
Proof. solve_decision. Defined.
#[export] Instance OpaqueId_countable k : Countable (OpaqueId k).
Proof. apply (inj_countable' as_str MkId). by intros []. Defined.

Lemma as_str_inj {k} (i j : OpaqueId k) : as_str i = as_str j → i = j.
Proof. destruct i, j; simpl. by intros ->. Qed.

#[export] Program Instance OpaqueId_ordered k : OrderedKey (OpaqueId k) :=
  {| key_le i j := str_le (as_str i) (as_str j) |}.
Next Obligation. intros k x y. apply str_le_total. Qed.
Next Obligation. intros k x y z. apply str_le_trans. Qed.
Next Obligation. intros k x y ??. by apply as_str_inj, str_le_antisym. Qed.

Definition id_prefix (k : IdKind) : string :=
  match k with
  | RepositoryIdKind => "repo_"
  | JobIdKind => "job_"
  | JobEventIdKind => "evt_"
  | PolicyDecisionIdKind => "pol_"
  | LockDecisionIdKind => "lock_"
  | ToolInvocationIdKind => "tool_"
  | ToolResultIdKind => "res_"
  | AuditRecordIdKind => "aud_"
  | SchemaMigrationIdKind => "mig_"
  | OutputRefIdKind => "out_"
  | ArtifactRefIdKind => "art_"
  end.

Definition id_type_name (k : IdKind) : string :=
  match k with
  | RepositoryIdKind => "RepositoryId"
  | JobIdKind => "JobId"
  | JobEventIdKind => "JobEventId"
  | PolicyDecisionIdKind => "PolicyDecisionId"
  | LockDecisionIdKind => "LockDecisionId"
  | ToolInvocationIdKind => "ToolInvocationId"
  | ToolResultIdKind => "ToolResultId"
  | AuditRecordIdKind => "AuditRecordId"
  | SchemaMigrationIdKind => "SchemaMigrationId"
  | OutputRefIdKind => "OutputRefId"
  | ArtifactRefIdKind => "ArtifactRefId"
  end.

Record InvalidIdError := {
  iie_type_name : string;
  iie_expected_prefix : string;
  iie_value : string
}.

(** [Self::new()], with the value drawn from [Uuid::new_v4] as an argument. *)
Definition id_new (k : IdKind) (uuid : string) : OpaqueId k := MkId (id_prefix k +:+ uuid).

Definition try_from_string `{UuidLib} (k : IdKind) (value : string)
  : result InvalidIdError (OpaqueId k) :=
  let error := {| iie_type_name := id_type_name k;
                  iie_expected_prefix := id_prefix k; iie_value := value |} in
  let? uuid_part := ok_or (strip_prefix (id_prefix k) value) error in
  reject? str_is_empty uuid_part || negb (uuid_parse_str uuid_part) with error in
  Ok (MkId value).

Definition has_valid_prefix {k} (i : OpaqueId k) : bool := starts_with (id_prefix k) (as_str i).

(** ** Timestamps

    [LedgerTimestamp] is a struct with the single field [unix_millis : i64];
    it is modelled by that field. *)

Abbreviation LedgerTimestamp := Z (only parsing).

(** [LedgerTimestamp::now], from the milliseconds [duration_since(UNIX_EPOCH)]
    gives ([None] when the clock is before the epoch). *)
Definition ledger_now (since_epoch : option N) : LedgerTimestamp :=
  match since_epoch with
  | Some millis => Z.min (Z.of_N millis) i64_max
  | None => 0
  end%Z.

(** ** Small records and enumerations *)

Inductive Actor :=
  | User (id : string) (display_name : option string)
  | Agent (id : string) (display_name : option string)
  | Extension (id : string)
  | System (id : string).

Record RedactionMarker := {
  red_field_path : string;
  red_reason : string;
  red_redacted_at : LedgerTimestamp
}.

Record TruncationMetadata := {
  trunc_original_bytes : N;
  trunc_retained_bytes : N;
  trunc_reason : string
}.

Record OutputRef := {
  oref_id : OutputRefId;
  oref_uri : string;
  oref_media_type : string;
  oref_label : option string;
  oref_digest : option string
}.

Record ArtifactRef := {
  aref_id : ArtifactRefId;
  aref_uri : string;
  aref_media_type : string;
  aref_label : option string;
  aref_digest : option string
}.

Record PathScope := {
  ps_root_path : string;
  ps_allowed_paths : list string
}.

Definition path_scope_repository (root_path : string) : PathScope :=
  {| ps_root_path := root_path; ps_allowed_paths := [root_path] |}.

Inductive RepositoryTrustState := Trusted | ReadOnly | TrustBlocked.

Record RepositoryMetadata := {
  rmeta_observed_at : LedgerTimestamp;
  rmeta_vcs_kind : option string;
  rmeta_branch : option string;
  rmeta_head_revision : option string
}.

Record RepositoryRecord := {
  repo_id : RepositoryId;
  repo_schema_version : N;
  repo_created_at : LedgerTimestamp;
  repo_updated_at : LedgerTimestamp;
  repo_display_name : string;
  repo_root_path : string;
  repo_allowed_path_scope : PathScope;
  repo_trust_state : RepositoryTrustState;
  repo_owner_hint : option string;
  repo_last_observed_metadata : option RepositoryMetadata;
  repo_redactions : list RedactionMarker
}.

Definition DOMAIN_SCHEMA_VERSION : N := 1.

Definition repository_record_new (uuid display_name root_path : string)
  (trust_state : RepositoryTrustState) (created_at : LedgerTimestamp) : RepositoryRecord := {|
  repo_id := id_new RepositoryIdKind uuid;
  repo_schema_version := DOMAIN_SCHEMA_VERSION;
  repo_created_at := created_at;
  repo_updated_at := created_at;
  repo_display_name := display_name;
  repo_root_path := root_path;
  repo_allowed_path_scope := path_scope_repository root_path;
  repo_trust_state := trust_state;
  repo_owner_hint := None;
  repo_last_observed_metadata := None;
  repo_redactions := []
|}.

Inductive JobKind := JkRead | JkMutate | JkProcess | JkMaintenance | JkOther (name : string).

(** ** Jobs *)

Inductive JobStatus := Queued | Running | Succeeded | Failed | Blocked | Canceled.

Definition is_terminal (s : JobStatus) : bool :=
  match s with Succeeded | Failed | Blocked | Canceled => true | _ => false end.

#[export] Instance JobStatus_eq_dec : EqDecision JobStatus.
Proof. solve_decision. Defined.

Definition can_transition_to (s next : JobStatus) : bool :=
  if bool_decide (s = next) then true
  else match s with
       | Queued => match next with Running | Failed | Blocked | Canceled => true | _ => false end
       | Running => match next with Succeeded | Failed | Blocked | Canceled => true | _ => false end
       | Succeeded | Failed | Blocked | Canceled => false
       end.

Inductive CancellationState := NotRequested | Requested | CooperativeStop | ForceStop | CancelCompleted.

Inductive RiskTier := R0 | R1 | R2 | R3 | R4.
Inductive PolicyOutcome := Allowed | Audited | NeedsApproval | PolicyBlocked.

Record PolicySummary := {
  ps_decision_id : option PolicyDecisionId;
  ps_outcome : PolicyOutcome;
  ps_risk_tier : RiskTier;
  ps_reason_code : string
}.

Record JobRecord := {
  job_id : JobId;
  job_schema_version : N;
  job_created_at : LedgerTimestamp;
  job_updated_at : LedgerTimestamp;
  job_started_at : option LedgerTimestamp;
  job_completed_at : option LedgerTimestamp;
  job_requester : Actor;
  job_repository_id : RepositoryId;
  job_kind : JobKind;
  job_goal : option string;
  job_status : JobStatus;
  job_policy_summary : option PolicySummary;
  job_cancellation_state : CancellationState;
  job_latest_event_id : option JobEventId;
  job_redactions : list RedactionMarker
}.

Definition normalize_optional_domain_goal (goal : option string) : option string :=
  match goal with
  | Some goal => let trimmed := trim goal in
                 if str_is_empty trimmed then None else Some trimmed
  | None => None
  end.

Definition job_record_new (uuid : string) (requester : Actor) (repository_id : RepositoryId)
  (kind : JobKind) (goal : option string) (created_at : LedgerTimestamp) : JobRecord := {|
  job_id := id_new JobIdKind uuid;
  job_schema_version := DOMAIN_SCHEMA_VERSION;
  job_created_at := created_at;
  job_updated_at := created_at;
  job_started_at := None;
  job_completed_at := None;
  job_requester := requester;
  job_repository_id := repository_id;
  job_kind := kind;
  job_goal := normalize_optional_domain_goal goal;
  job_status := Queued;
  job_policy_summary := None;
  job_cancellation_state := NotRequested;
  job_latest_event_id := None;
  job_redactions := []
|}.

(** Field updates of a job record. *)
Definition job_set_lifecycle (j : JobRecord) (status : JobStatus) (updated_at : LedgerTimestamp)
  (started_at completed_at : option LedgerTimestamp) : JobRecord := {|
  job_id := job_id j; job_schema_version := job_schema_version j;
  job_created_at := job_created_at j; job_updated_at := updated_at;
  job_started_at := started_at; job_completed_at := completed_at;
  job_requester := job_requester j; job_repository_id := job_repository_id j;
  job_kind := job_kind j; job_goal := job_goal j; job_status := status;
  job_policy_summary := job_policy_summary j;
  job_cancellation_state := job_cancellation_state j;
  job_latest_event_id := job_latest_event_id j; job_redactions := job_redactions j |}.

Definition job_set_latest_event (j : JobRecord) (e : option JobEventId) : JobRecord := {|
  job_id := job_id j; job_schema_version := job_schema_version j;
  job_created_at := job_created_at j; job_updated_at := job_updated_at j;
  job_started_at := job_started_at j; job_completed_at := job_completed_at j;
  job_requester := job_requester j; job_repository_id := job_repository_id j;
  job_kind := job_kind j; job_goal := job_goal j; job_status := job_status j;
  job_policy_summary := job_policy_summary j;
  job_cancellation_state := job_cancellation_state j;
  job_latest_event_id := e; job_redactions := job_redactions j |}.

Definition job_set_policy_summary (j : JobRecord) (p : option PolicySummary) : JobRecord := {|
  job_id := job_id j; job_schema_version := job_schema_version j;
  job_created_at := job_created_at j; job_updated_at := job_updated_at j;
  job_started_at := job_started_at j; job_completed_at := job_completed_at j;
  job_requester := job_requester j; job_repository_id := job_repository_id j;
  job_kind := job_kind j; job_goal := job_goal j; job_status := job_status j;
  job_policy_summary := p;
  job_cancellation_state := job_cancellation_state j;
  job_latest_event_id := job_latest_event_id j; job_redactions := job_redactions j |}.

Definition job_set_cancellation (j : JobRecord) (c : CancellationState) : JobRecord := {|
  job_id := job_id j; job_schema_version := job_schema_version j;
  job_created_at := job_created_at j; job_updated_at := job_updated_at j;
  job_started_at := job_started_at j; job_completed_at := job_completed_at j;
  job_requester := job_requester j; job_repository_id := job_repository_id j;
  job_kind := job_kind j; job_goal := job_goal j; job_status := job_status j;
  job_policy_summary := job_policy_summary j;
  job_cancellation_state := c;
  job_latest_event_id := job_latest_event_id j; job_redactions := job_redactions j |}.

Inductive JobStatusTransitionError :=
  | InvalidTransition (from to : JobStatus)
  | NonMonotonicTimestamp (at_ latest : LedgerTimestamp).

(** The maximum of the timestamps the record carries. *)
Definition job_latest_timestamp (j : JobRecord) : LedgerTimestamp :=
  foldr Z.max (job_updated_at j)
    (omap id [Some (job_updated_at j); job_started_at j; job_completed_at j]).

Definition ensure_monotonic_transition_timestamp (j : JobRecord) (at_ : LedgerTimestamp)
  : result JobStatusTransitionError unit :=
  let latest := job_latest_timestamp j in
  reject? (at_ <? latest)%Z with NonMonotonicTimestamp at_ latest in
  Ok tt.

Definition transition_status (j : JobRecord) (next : JobStatus) (at_ : LedgerTimestamp)
  : result JobStatusTransitionError JobRecord :=
  reject? negb (can_transition_to (job_status j) next)
    with InvalidTransition (job_status j) next in
  let? _ := ensure_monotonic_transition_timestamp j at_ in
  let started_at :=
    if bool_decide (next = Running) && is_none (job_started_at j)
    then Some at_ else job_started_at j in
  let completed_at :=
    if is_terminal next && is_none (job_completed_at j)
    then Some at_ else job_completed_at j in
  Ok (job_set_lifecycle j next at_ started_at completed_at).

(** ** Events *)

Inductive EventSubjectType :=
  | SubjRepository | SubjJob | SubjPolicyDecision | SubjLockDecision
  | SubjToolInvocation | SubjToolResult | SubjAuditRecord.

Record EventSubject := {
  subject_type : EventSubjectType;
  subject_id : string
}.

Definition subject_repository (i : RepositoryId) : EventSubject :=
  {| subject_type := SubjRepository; subject_id := as_str i |}.
Definition subject_job (i : JobId) : EventSubject :=
  {| subject_type := SubjJob; subject_id := as_str i |}.
Definition subject_policy_decision (i : PolicyDecisionId) : EventSubject :=
  {| subject_type := SubjPolicyDecision; subject_id := as_str i |}.
Definition subject_lock_decision (i : LockDecisionId) : EventSubject :=
  {| subject_type := SubjLockDecision; subject_id := as_str i |}.
Definition subject_tool_invocation (i : ToolInvocationId) : EventSubject :=
  {| subject_type := SubjToolInvocation; subject_id := as_str i |}.
Definition subject_tool_result (i : ToolResultId) : EventSubject :=
  {| subject_type := SubjToolResult; subject_id := as_str i |}.
Definition subject_audit_record (i : AuditRecordId) : EventSubject :=
  {| subject_type := SubjAuditRecord; subject_id := as_str i |}.

Definition has_valid_subject_id `{UuidLib} (s : EventSubject) : bool :=
  match subject_type s with
  | SubjRepository => is_ok (try_from_string RepositoryIdKind (subject_id s))
  | SubjJob => is_ok (try_from_string JobIdKind (subject_id s))
  | SubjPolicyDecision => is_ok (try_from_string PolicyDecisionIdKind (subject_id s))
  | SubjLockDecision => is_ok (try_from_string LockDecisionIdKind (subject_id s))
  | SubjToolInvocation => is_ok (try_from_string ToolInvocationIdKind (subject_id s))
  | SubjToolResult => is_ok (try_from_string ToolResultIdKind (subject_id s))
  | SubjAuditRecord => is_ok (try_from_string AuditRecordIdKind (subject_id s))
  end.

Inductive EventSeverity := SevDebug | SevInfo | SevWarning | SevError.

Inductive ToolResultStatus := TrSucceeded | TrFailed | TrCanceled | TrTimedOut.

Inductive JobEventKind :=
  | JobSubmitted
  | JobStatusChanged (from to : JobStatus)
  | PolicyDecided (outcome : PolicyOutcome)
  | LockHeldEvent
  | LockReleasedEvent
  | LockReclaimedEvent
  | ToolInvoked (tool_id : string)
  | ToolResultRecorded (status : ToolResultStatus)
  | AuditRecorded
  | CancellationRequested
  | RecoveryActionRecorded
  | MessageEvent.

Record EventRefs := {
  ref_repository_id : option RepositoryId;
  ref_job_id : option JobId;
  ref_policy_decision_id : option PolicyDecisionId;
  ref_lock_decision_id : option LockDecisionId;
  ref_tool_invocation_id : option ToolInvocationId;
  ref_tool_result_id : option ToolResultId;
  ref_content_type : option string;
  ref_audit_record_id : option AuditRecordId;
  ref_output_refs : list OutputRef;
  ref_artifact_refs : list ArtifactRef
}.

Record JobEvent := {
  evt_id : JobEventId;
  evt_schema_version : N;
  evt_sequence_number : N;
  evt_created_at : LedgerTimestamp;
  evt_subject : EventSubject;
  evt_kind : JobEventKind;
  evt_severity : EventSeverity;
  evt_public_message : string;
  evt_refs : EventRefs;
  evt_redactions : list RedactionMarker
}.

Definition evt_set_sequence (e : JobEvent) (n : N) : JobEvent := {|
  evt_id := evt_id e; evt_schema_version := evt_schema_version e;
  evt_sequence_number := n; evt_created_at := evt_created_at e;
  evt_subject := evt_subject e; evt_kind := evt_kind e; evt_severity := evt_severity e;
  evt_public_message := evt_public_message e; evt_refs := evt_refs e;
  evt_redactions := evt_redactions e |}.

(** ** Policy decisions *)

Record ResourceScope := {
  scope_kind : string;
  scope_value : string
}.

Record PolicyDecision := {
  pol_id : PolicyDecisionId;
  pol_schema_version : N;
  pol_created_at : LedgerTimestamp;
  pol_requester : Actor;
  pol_repository_id : RepositoryId;
  pol_requested_capability : string;
  pol_resource_scope : ResourceScope;
  pol_tool_id : option string;
  pol_provider_id : option string;
  pol_declared_effect : string;
  pol_current_trust_state : RepositoryTrustState;
  pol_approval_available : bool;
  pol_policy_version : string;
  pol_outcome : PolicyOutcome;
  pol_risk_tier : RiskTier;
  pol_reason_code : string;
  pol_user_reason : string;
  pol_approval_request_ref : option OutputRef;
  pol_audit_ref : option AuditRecordId;
  pol_redactions : list RedactionMarker
}.

(** ** Locks *)

Inductive LockOwner :=
  | OwnerJob (id : JobId)
  | OwnerProcess (id : string)
  | OwnerSystem (id : string).
#[export] Instance LockOwner_eq_dec : EqDecision LockOwner.
Proof. solve_decision. Defined.

Inductive LockedScope :=
  | ScopeRepository
  | ScopePath (path : string)
  | ScopePathPattern (pattern : string).
#[export] Instance LockedScope_eq_dec : EqDecision LockedScope.
Proof. solve_decision. Defined.

Inductive LockStatus := LockHeld | LockReleased | LockExpired | LockReclaimed.
#[export] Instance LockStatus_eq_dec : EqDecision LockStatus.
Proof. solve_decision. Defined.

Record LockDecision := {
  lock_id : LockDecisionId;
  lock_schema_version : N;
  lock_created_at : LedgerTimestamp;
  lock_updated_at : LedgerTimestamp;
  lock_repository_id : RepositoryId;
  lock_policy_decision_id : PolicyDecisionId;
  lock_owner : LockOwner;
  lock_locked_scope : LockedScope;
  lock_locked_at : LedgerTimestamp;
  lock_expires_at : LedgerTimestamp;
  lock_released_at : option LedgerTimestamp;
  lock_reclaimed_at : option LedgerTimestamp;
  lock_status : LockStatus;
  lock_redactions : list RedactionMarker
}.

Inductive LockDecisionCreateError :=
  | NonPositiveDuration (locked_at expires_at : LedgerTimestamp).

Inductive LockReclaimError :=
  | OwnerMismatch
  | AlreadyReleased
  | NotExpired (reclaimed_at expires_at : LedgerTimestamp)
  | ReclaimNonMonotonicTimestamp (at_ latest : LedgerTimestamp).

Definition lock_decision_new (uuid : string) (repository_id : RepositoryId)
  (policy_decision_id : PolicyDecisionId) (owner : LockOwner) (locked_scope : LockedScope)
  (locked_at expires_at : LedgerTimestamp) : result LockDecisionCreateError LockDecision :=
  reject? (expires_at <=? locked_at)%Z with NonPositiveDuration locked_at expires_at in
  Ok {| lock_id := id_new LockDecisionIdKind uuid;
        lock_schema_version := DOMAIN_SCHEMA_VERSION;
        lock_created_at := locked_at;
        lock_updated_at := locked_at;
        lock_repository_id := repository_id;
        lock_policy_decision_id := policy_decision_id;
        lock_owner := owner;
        lock_locked_scope := locked_scope;
        lock_locked_at := locked_at;
        lock_expires_at := expires_at;
        lock_released_at := None;
        lock_reclaimed_at := None;
        lock_status := LockHeld;
        lock_redactions := [] |}.

Definition ensure_monotonic_reclaim_timestamp (l : LockDecision) (reclaimed_at : LedgerTimestamp)
  : result LockReclaimError unit :=
  reject? (reclaimed_at <? lock_updated_at l)%Z
    with ReclaimNonMonotonicTimestamp reclaimed_at (lock_updated_at l) in
  Ok tt.

(** [reclaim(&mut self, ...) -> Result<bool, _>]: the new record and the flag. *)
Definition reclaim (l : LockDecision) (owner : LockOwner) (reclaimed_at : LedgerTimestamp)
  : result LockReclaimError (LockDecision * bool) :=
  reject? negb (bool_decide (owner = lock_owner l)) with OwnerMismatch in
  match lock_status l with
  | LockReclaimed => Ok (l, false)
  | LockHeld | LockExpired =>
      let? _ := ensure_monotonic_reclaim_timestamp l reclaimed_at in
      reject? (reclaimed_at <? lock_expires_at l)%Z
        with NotExpired reclaimed_at (lock_expires_at l) in
      Ok ({| lock_id := lock_id l; lock_schema_version := lock_schema_version l;
             lock_created_at := lock_created_at l; lock_updated_at := reclaimed_at;
             lock_repository_id := lock_repository_id l;
             lock_policy_decision_id := lock_policy_decision_id l;
             lock_owner := lock_owner l; lock_locked_scope := lock_locked_scope l;
             lock_locked_at := lock_locked_at l; lock_expires_at := lock_expires_at l;
             lock_released_at := lock_released_at l;
             lock_reclaimed_at := Some reclaimed_at; lock_status := LockReclaimed;
             lock_redactions := lock_redactions l |}, true)
  | LockReleased => Err AlreadyReleased
  end.

(** ** Tools and audit *)

Record ResolvedPath := {
  rp_requested_path : string;
  rp_resolved_path : string;
  rp_display_path : string
}.

Record ToolInvocation := {
  inv_id : ToolInvocationId;
  inv_schema_version : N;
  inv_created_at : LedgerTimestamp;
  inv_job_id : JobId;
  inv_repository_id : RepositoryId;
  inv_policy_decision_id : PolicyDecisionId;
  inv_actor : Actor;
  inv_tool_id : string;
  inv_requested_capability : string;
  inv_args_summary : string;
  inv_resolved_paths : list ResolvedPath;
  inv_timeout_millis : option N;
  inv_redactions : list RedactionMarker
}.

Inductive StructuredValue :=
  | SvNull
  | SvBool (b : bool)
  | SvInteger (z : Z)
  | SvString (s : string)
  | SvStringList (l : list string).

Record ToolResultField := {
  field_key : string;
  field_value : StructuredValue
}.

Record ToolResult := {
  res_id : ToolResultId;
  res_schema_version : N;
  res_created_at : LedgerTimestamp;
  res_invocation_id : ToolInvocationId;
  res_tool_id : string;
  res_status : ToolResultStatus;
  res_schema_ref : option string;
  res_fields : list ToolResultField;
  res_evidence_refs : list ArtifactRef;
  res_output_refs : list OutputRef;
  res_truncation : option TruncationMetadata;
  res_redactions : list RedactionMarker
}.

Record AuditRecord := {
  aud_id : AuditRecordId;
  aud_schema_version : N;
  aud_created_at : LedgerTimestamp;
  aud_actor : Actor;
  aud_repository_id : RepositoryId;
  aud_requested_capability : string;
  aud_policy_decision_id : PolicyDecisionId;
  aud_tool_invocation_id : option ToolInvocationId;
  aud_effect_summary : string;
  aud_output_refs : list OutputRef;
  aud_redactions : list RedactionMarker
}.

(** ** Schema migrations and their lock *)

Inductive SchemaMigrationStatus := MigApplied | MigFailed.

Definition MIGRATION_LOCK_RECORD_NAME : string := "migration_lock".

Inductive MigrationLockStatus := MlHeld | MlReleased | MlExpired.
#[export] Instance MigrationLockStatus_eq_dec : EqDecision MigrationLockStatus.
Proof. solve_decision. Defined.

Record MigrationLockRecord := {
  ml_status : MigrationLockStatus;
  ml_leader_id : string;
  ml_safe : bool;
  ml_locked_at : LedgerTimestamp;
  ml_timeout_millis : N;
  ml_released_at : option LedgerTimestamp
}.

Inductive SchemaMigrationRecordError := NonPositiveTimeout.

Definition migration_lock_record_new (leader_id : string) (safe : bool) (timeout_millis : N)
  (locked_at : LedgerTimestamp) : result SchemaMigrationRecordError MigrationLockRecord :=
  reject? (timeout_millis =? 0)%N with NonPositiveTimeout in
  Ok {| ml_status := MlHeld; ml_leader_id := leader_id; ml_safe := safe;
        ml_locked_at := locked_at; ml_timeout_millis := timeout_millis;
        ml_released_at := None |}.

(** [locked_at.saturating_add(timeout).min(i64::MAX)] in [i128]. *)
Definition expires_at (l : MigrationLockRecord) : LedgerTimestamp :=
  Z.min (Z.min (ml_locked_at l + Z.of_N (ml_timeout_millis l)) i128_max) i64_max.

Definition is_active (l : MigrationLockRecord) (at_ : LedgerTimestamp) : bool :=
  bool_decide (ml_status l = MlHeld) && (at_ <? expires_at l)%Z.

Definition is_expired (l : MigrationLockRecord) (at_ : LedgerTimestamp) : bool :=
  (expires_at l <=? at_)%Z.

Record SchemaMigrationRecord := {
  mig_id : SchemaMigrationId;
  mig_schema_version : N;
  mig_created_at : LedgerTimestamp;
  mig_updated_at : LedgerTimestamp;
  mig_migration_name : string;
  mig_migration_version : N;
  mig_status : SchemaMigrationStatus;
  mig_leader_id : option string;
  mig_migration_lock : option MigrationLockRecord;
  mig_notes : option string;
  mig_redactions : list RedactionMarker
}.

Definition new_migration_lock (uuid leader_id : string) (locked_at : LedgerTimestamp) (safe : bool)
  (timeout_millis : N) : result SchemaMigrationRecordError SchemaMigrationRecord :=
  let? migration_lock := migration_lock_record_new leader_id safe timeout_millis locked_at in
  Ok {| mig_id := id_new SchemaMigrationIdKind uuid;
        mig_schema_version := DOMAIN_SCHEMA_VERSION;
        mig_created_at := locked_at;
        mig_updated_at := locked_at;
        mig_migration_name := MIGRATION_LOCK_RECORD_NAME;
        mig_migration_version := 1;
        mig_status := MigApplied;
        mig_leader_id := Some (ml_leader_id migration_lock);
        mig_migration_lock := Some migration_lock;
        mig_notes := None;
        mig_redactions := [] |}.

Definition is_migration_lock (r : SchemaMigrationRecord) : bool :=
  str_eqb (mig_migration_name r) MIGRATION_LOCK_RECORD_NAME && is_some (mig_migration_lock r).

(** Field updates of a migration record and of its lock. *)
Definition ml_close (l : MigrationLockRecord) (status : MigrationLockStatus)
  (released_at : LedgerTimestamp) : MigrationLockRecord := {|
  ml_status := status; ml_leader_id := ml_leader_id l; ml_safe := ml_safe l;
  ml_locked_at := ml_locked_at l; ml_timeout_millis := ml_timeout_millis l;
  ml_released_at := Some released_at |}.

Definition mig_set_lock (r : SchemaMigrationRecord) (l : MigrationLockRecord)
  (updated_at : LedgerTimestamp) : SchemaMigrationRecord := {|
  mig_id := mig_id r; mig_schema_version := mig_schema_version r;
  mig_created_at := mig_created_at r; mig_updated_at := updated_at;
  mig_migration_name := mig_migration_name r; mig_migration_version := mig_migration_version r;
  mig_status := mig_status r; mig_leader_id := mig_leader_id r;
  mig_migration_lock := Some l; mig_notes := mig_notes r; mig_redactions := mig_redactions r |}.

(** ** Decidable equality, as derived by [PartialEq, Eq] *)

#[export] Instance Actor_eq_dec : EqDecision Actor.
Proof. solve_decision. Defined.
#[export] Instance RedactionMarker_eq_dec : EqDecision RedactionMarker.
Proof. solve_decision. Defined.
#[export] Instance TruncationMetadata_eq_dec : EqDecision TruncationMetadata.
Proof. solve_decision. Defined.
#[export] Instance OutputRef_eq_dec : EqDecision OutputRef.
Proof. solve_decision. Defined.
#[export] Instance ArtifactRef_eq_dec : EqDecision ArtifactRef.
Proof. solve_decision. Defined.
#[export] Instance RepositoryTrustState_eq_dec : EqDecision RepositoryTrustState.
Proof. solve_decision. Defined.
#[export] Instance JobKind_eq_dec : EqDecision JobKind.
Proof. solve_decision. Defined.
#[export] Instance CancellationState_eq_dec : EqDecision CancellationState.
Proof. solve_decision. Defined.
#[export] Instance RiskTier_eq_dec : EqDecision RiskTier.
Proof. solve_decision. Defined.
#[export] Instance PolicyOutcome_eq_dec : EqDecision PolicyOutcome.
Proof. solve_decision. Defined.
#[export] Instance PolicySummary_eq_dec : EqDecision PolicySummary.
Proof. solve_decision. Defined.
#[export] Instance JobRecord_eq_dec : EqDecision JobRecord.
Proof. solve_decision. Defined.
#[export] Instance EventSubjectType_eq_dec : EqDecision EventSubjectType.
Proof. solve_decision. Defined.
#[export] Instance EventSubject_eq_dec : EqDecision EventSubject.
Proof. solve_decision. Defined.
#[export] Instance EventSeverity_eq_dec : EqDecision EventSeverity.
Proof. solve_decision. Defined.
#[export] Instance ToolResultStatus_eq_dec : EqDecision ToolResultStatus.
Proof. solve_decision. Defined.
#[export] Instance JobEventKind_eq_dec : EqDecision JobEventKind.
Proof. solve_decision. Defined.
#[export] Instance EventRefs_eq_dec : EqDecision EventRefs.
Proof. solve_decision. Defined.
#[export] Instance JobEvent_eq_dec : EqDecision JobEvent.
Proof. solve_decision. Defined.
#[export] Instance ResourceScope_eq_dec : EqDecision ResourceScope.
Proof. solve_decision. Defined.
#[export] Instance PolicyDecision_eq_dec : EqDecision PolicyDecision.
Proof. solve_decision. Defined.
#[export] Instance ResolvedPath_eq_dec : EqDecision ResolvedPath.
Proof. solve_decision. Defined.
#[export] Instance ToolInvocation_eq_dec : EqDecision ToolInvocation.
Proof. solve_decision. Defined.
#[export] Instance StructuredValue_eq_dec : EqDecision StructuredValue.
Proof. solve_decision. Defined.
#[export] Instance ToolResultField_eq_dec : EqDecision ToolResultField.
Proof. solve_decision. Defined.
#[export] Instance ToolResult_eq_dec : EqDecision ToolResult.
Proof. solve_decision. Defined.
#[export] Instance AuditRecord_eq_dec : EqDecision AuditRecord.
Proof. solve_decision. Defined.
#[export] Instance PathScope_eq_dec : EqDecision PathScope.
Proof. solve_decision. Defined.
#[export] Instance RepositoryMetadata_eq_dec : EqDecision RepositoryMetadata.
Proof. solve_decision. Defined.
#[export] Instance RepositoryRecord_eq_dec : EqDecision RepositoryRecord.
Proof. solve_decision. Defined.
#[export] Instance LockDecision_eq_dec : EqDecision LockDecision.
Proof. solve_decision. Defined.
#[export] Instance MigrationLockRecord_eq_dec : EqDecision MigrationLockRecord.
Proof. solve_decision. Defined.
#[export] Instance SchemaMigrationStatus_eq_dec : EqDecision SchemaMigrationStatus.
Proof. solve_decision. Defined.
#[export] Instance SchemaMigrationRecord_eq_dec : EqDecision SchemaMigrationRecord.
Proof. solve_decision. Defined.
