(* ===== verification/DomainLaws.v ===== *)
(** * DomainLaws: correctness of the domain records

    The job status machine (its invariant, what is reachable from a new job,
    and that terminal jobs stay put), the lock reclaim protocol, the migration
    lock's expiry arithmetic, and the opaque ids. *)
From S2P Require Import Prelude Text Domain.

(** ** Strings and prefixes *)

Lemma strip_prefix_app p s : strip_prefix p (p +:+ s) = Some s.
Proof. induction p as [|c p IH]; simpl; [done|]. by rewrite bool_decide_eq_true_2. Qed.

Lemma strip_prefix_Some p s r : strip_prefix p s = Some r → s = p +:+ r.
Proof.
  revert s; induction p as [|c p IH]; simpl; [by intros s [= ->]|].
  intros [|d s]; [done|]. case_bool_decide; [|done]. subst. intros Hr.
  by rewrite (IH _ Hr).
Qed.

(** ** The job status machine *)

(** What the timestamps of a job record say about its status. *)
Record job_wf (j : JobRecord) : Prop := {
  jw_created : (job_created_at j <= job_updated_at j)%Z;
  jw_started : ∀ t, job_started_at j = Some t →
    (job_created_at j <= t <= job_updated_at j)%Z;
  jw_completed : ∀ t, job_completed_at j = Some t →
    (job_created_at j <= t <= job_updated_at j)%Z;
  jw_order : ∀ s t, job_started_at j = Some s → job_completed_at j = Some t → (s <= t)%Z;
  jw_running : job_status j = Running → is_Some (job_started_at j);
  jw_terminal : is_terminal (job_status j) = true ↔ is_Some (job_completed_at j);
  jw_queued : job_status j = Queued → job_started_at j = None;
  jw_succeeded : job_status j = Succeeded → is_Some (job_started_at j)
}.

Lemma job_latest_timestamp_spec j t :
  (job_latest_timestamp j <= t)%Z ↔
  (job_updated_at j <= t)%Z ∧
  (∀ s, job_started_at j = Some s → (s <= t)%Z) ∧
  (∀ s, job_completed_at j = Some s → (s <= t)%Z).
Proof.
  unfold job_latest_timestamp.
  destruct (job_started_at j), (job_completed_at j); simpl; split;
    intros; repeat split; try (intros ? [= <-]); try (intros ? ?; done); try lia;
    destruct_and?;
    repeat match goal with H : ∀ s, Some ?x = Some s → _ |- _ => specialize (H x eq_refl) end;
    lia.
Qed.

Lemma transition_status_Ok j next t j' :
  transition_status j next t = Ok j' ↔
  can_transition_to (job_status j) next = true ∧ (job_latest_timestamp j <= t)%Z ∧
  j' = job_set_lifecycle j next t
         (if bool_decide (next = Running) && is_none (job_started_at j)
          then Some t else job_started_at j)
         (if is_terminal next && is_none (job_completed_at j)
          then Some t else job_completed_at j).
Proof.
  unfold transition_status, ensure_monotonic_transition_timestamp.
  destruct (can_transition_to _ _); simpl; [|split; [done|by intros (? & _)]].
  destruct (Z.ltb_spec t (job_latest_timestamp j)) as [Hlt|Hle].
  - split; [done|]. intros (_ & Hle & _). lia.
  - split; [by intros [= <-] | by intros (_ & _ & ->)].
Qed.

Lemma job_record_new_wf uuid req repo kind goal t : job_wf (job_record_new uuid req repo kind goal t).
Proof. split; simpl; try done; split; naive_solver. Qed.

Ltac destruct_statuses j next :=
  destruct (job_status j) eqn:?, next; simpl in *; try done.

(** A successful transition keeps the record well formed. *)
Lemma transition_status_wf j next t j' :
  job_wf j → transition_status j next t = Ok j' → job_wf j'.
Proof.
  intros [Hc Hs Hd Ho Hr Ht Hq Hsu]. rewrite transition_status_Ok.
  intros (Hcan & (Hu & Hs' & Hd')%job_latest_timestamp_spec & ->).
  assert (Hnone : is_terminal (job_status j) = false → job_completed_at j = None).
  { intros Hf. destruct (job_completed_at j); [|done]. rewrite Hf in Ht. naive_solver. }
  assert (Hsome : is_terminal (job_status j) = true → is_Some (job_completed_at j)) by naive_solver.
  unfold can_transition_to in Hcan.
  destruct (job_started_at j) as [s|] eqn:Es, (job_completed_at j) as [d|] eqn:Ed;
    destruct_statuses j next;
    try (specialize (Hs _ eq_refl)); try (specialize (Hd _ eq_refl));
    try (specialize (Hs' _ eq_refl)); try (specialize (Hd' _ eq_refl));
    try (destruct (Hr eq_refl); done); try (by specialize (Hq eq_refl));
    try (by specialize (Hnone eq_refl)); try (destruct (Hsome eq_refl); done);
    try (destruct (Hsu eq_refl); done);
    split; simpl; intros; simplify_eq; try done; try lia; eauto; try naive_solver.
Qed.

Lemma can_transition_terminal s next :
  is_terminal s = true → can_transition_to s next = true → next = s.
Proof.
  unfold can_transition_to. case_bool_decide; [done|]. by destruct s.
Qed.

Definition job_step (j j' : JobRecord) : Prop :=
  ∃ next t, transition_status j next t = Ok j'.

Lemma job_step_frame j j' :
  job_step j j' →
  job_id j' = job_id j ∧ job_created_at j' = job_created_at j ∧
  job_repository_id j' = job_repository_id j ∧ job_requester j' = job_requester j ∧
  job_kind j' = job_kind j ∧ job_goal j' = job_goal j ∧
  job_latest_event_id j' = job_latest_event_id j.
Proof. intros (next & t & (_ & _ & ->)%transition_status_Ok). done. Qed.

Lemma job_step_monotone j j' : job_step j j' → (job_updated_at j <= job_updated_at j')%Z.
Proof.
  intros (next & t & (_ & H%job_latest_timestamp_spec & ->)%transition_status_Ok). simpl. lia.
Qed.

(** Every record reachable from a new job by successful status
    transitions is well formed: it carries [started_at] when it runs or
    succeeded, [completed_at] exactly when its status is terminal, its
    timestamps are ordered [created <= started <= completed <= updated], and
    the identity fields never changed.  In particular no job succeeds without
    having run. *)
Theorem reachable_jobs_well_formed uuid req repo kind goal t j :
  rtc job_step (job_record_new uuid req repo kind goal t) j →
  job_wf j ∧ job_id j = id_new JobIdKind uuid ∧ job_created_at j = t ∧
  job_repository_id j = repo ∧ (t <= job_updated_at j)%Z.
Proof.
  set (j0 := job_record_new _ _ _ _ _ _). intros Hrtc.
  assert (job_wf j0) as Hwf by apply job_record_new_wf.
  assert (job_id j0 = id_new JobIdKind uuid ∧ job_created_at j0 = t ∧
          job_repository_id j0 = repo ∧ (t <= job_updated_at j0)%Z) as Hid.
  { unfold j0; simpl. repeat split; lia. }
  clearbody j0. induction Hrtc as [j|j1 j2 j3 Hstep Hrtc IH]; [by split|].
  apply IH.
  - destruct Hstep as (next & u & Hu). eauto using transition_status_wf.
  - pose proof (job_step_monotone _ _ Hstep).
    destruct (job_step_frame _ _ Hstep) as (-> & -> & -> & _). destruct_and?.
    repeat split; try done; lia.
Qed.

(** A two-step run: queued, running, succeeded. *)
Definition sample_job : JobRecord :=
  job_record_new "1" (System "s") (MkId "repo_1") JkRead None 10.
Definition sample_done : JobRecord :=
  job_set_lifecycle sample_job Succeeded 30 (Some 20%Z) (Some 30%Z).

Lemma sample_job_runs : job_step sample_job (job_set_lifecycle sample_job Running 20 (Some 20%Z) None).
Proof. exists Running, 20%Z. reflexivity. Qed.
Lemma sample_job_succeeds :
  job_step (job_set_lifecycle sample_job Running 20 (Some 20%Z) None) sample_done.
Proof. exists Succeeded, 30%Z. reflexivity. Qed.

Lemma reachable_jobs_well_formed_witness :
  job_wf sample_done ∧ job_id sample_done = id_new JobIdKind "1" ∧
  job_created_at sample_done = 10%Z ∧
  job_repository_id sample_done = MkId "repo_1" ∧ (10 <= job_updated_at sample_done)%Z.
Proof.
  apply (reachable_jobs_well_formed "1" (System "s") (MkId "repo_1") JkRead None 10 sample_done).
  eapply rtc_l; [apply sample_job_runs|]. eapply rtc_l; [apply sample_job_succeeds|].
  apply rtc_refl.
Defined.

(** A terminal job never leaves its status, and its start and completion
    times never change, whatever transitions are attempted. *)
Theorem terminal_jobs_stay_terminal j j' :
  is_terminal (job_status j) = true → job_wf j → rtc job_step j j' →
  job_status j' = job_status j ∧ job_started_at j' = job_started_at j ∧
  job_completed_at j' = job_completed_at j.
Proof.
  intros Hterm Hwf Hrtc. induction Hrtc as [j|j1 j2 j3 Hstep Hrtc IH]; [done|].
  assert (job_wf j2) as Hwf2.
  { destruct Hstep as (next & u & Hu). eauto using transition_status_wf. }
  assert (is_Some (job_completed_at j1)) as [c Hc] by (by apply (jw_terminal _ Hwf)).
  destruct Hstep as (next & u & (Hcan & _ & ->)%transition_status_Ok).
  apply (can_transition_terminal _ _ Hterm) in Hcan as ->.
  destruct IH as (-> & -> & ->); [done|done|]. simpl. rewrite Hc.
  split_and!; [done| |by rewrite andb_false_r].
  rewrite bool_decide_eq_false_2; [done|]. intros Heq. by rewrite Heq in Hterm.
Qed.

Lemma terminal_jobs_stay_terminal_witness :
  job_status (job_set_lifecycle sample_done Succeeded 40 (Some 20%Z) (Some 30%Z)) = Succeeded ∧
  job_started_at (job_set_lifecycle sample_done Succeeded 40 (Some 20%Z) (Some 30%Z)) = Some 20%Z ∧
  job_completed_at (job_set_lifecycle sample_done Succeeded 40 (Some 20%Z) (Some 30%Z)) = Some 30%Z.
Proof.
  apply (terminal_jobs_stay_terminal sample_done); [reflexivity| |].
  - destruct sample_job_succeeds as (? & ? & H2), sample_job_runs as (? & ? & H1).
    eapply transition_status_wf; [|apply H2]. eapply transition_status_wf; [|apply H1].
    apply job_record_new_wf.
  - eapply rtc_l; [|apply rtc_refl]. exists Succeeded, 40%Z. reflexivity.
Defined.

(** ** Lock reclaim *)

(** What [reclaim] grants: an expired, unreleased lock, to its owner, at a time
    that is neither before the expiry nor before the last update. *)
Definition reclaimable (l : LockDecision) (owner : LockOwner) (t : LedgerTimestamp) : Prop :=
  owner = lock_owner l ∧ (lock_status l = LockHeld ∨ lock_status l = LockExpired) ∧
  (lock_updated_at l <= t)%Z ∧ (lock_expires_at l <= t)%Z.

Lemma reclaim_granted l owner t l' :
  reclaim l owner t = Ok (l', true) →
  reclaimable l owner t ∧ lock_status l' = LockReclaimed ∧
  lock_reclaimed_at l' = Some t ∧ lock_updated_at l' = t ∧
  lock_owner l' = lock_owner l ∧ lock_expires_at l' = lock_expires_at l ∧
  lock_released_at l' = lock_released_at l ∧ lock_id l' = lock_id l.
Proof.
  unfold reclaim, ensure_monotonic_reclaim_timestamp, reclaimable.
  case_bool_decide; simpl; [|done].
  destruct (lock_status l); try done;
    destruct (Z.ltb_spec t (lock_updated_at l)); try done;
    destruct (Z.ltb_spec t (lock_expires_at l)); try done;
    intros [= <-]; simpl; split_and!; auto.
Qed.

Lemma reclaim_grants l owner t :
  reclaimable l owner t → ∃ l', reclaim l owner t = Ok (l', true).
Proof.
  intros (-> & Hst & Hu & He). unfold reclaim, ensure_monotonic_reclaim_timestamp.
  rewrite bool_decide_eq_true_2 by done. simpl.
  destruct (Z.ltb_spec t (lock_updated_at l)); [lia|].
  destruct (Z.ltb_spec t (lock_expires_at l)); [lia|].
  destruct Hst as [-> | ->]; eauto.
Qed.

(** A lock is reclaimed exactly when the caller owns it, it is held or
    expired, and the time is at or past both its expiry and its last update;
    the reclaimed lock records that time, and a second reclaim by the same
    owner, at any time, changes nothing. *)
Theorem reclaim_protocol l owner t :
  (reclaimable l owner t ↔ ∃ l', reclaim l owner t = Ok (l', true)) ∧
  (∀ l', reclaim l owner t = Ok (l', true) →
     lock_status l' = LockReclaimed ∧ lock_reclaimed_at l' = Some t ∧
     ∀ t', reclaim l' owner t' = Ok (l', false)).
Proof.
  split.
  - split; [apply reclaim_grants | intros [l' Hl']; by destruct (reclaim_granted _ _ _ _ Hl')].
  - intros l' Hl'. destruct (reclaim_granted _ _ _ _ Hl') as ((-> & _) & Hst & Hat & _ & Hown & _).
    split_and!; [done..|]. intros t'. unfold reclaim. by rewrite Hown, Hst, bool_decide_eq_true_2.
Qed.

(** ** The migration lock *)

Lemma expires_at_le_max l : (expires_at l <= i64_max)%Z.
Proof. unfold expires_at. lia. Qed.

(** For [i64] lock times the sum never reaches the [i128] bound, so the expiry
    is the sum clipped to [i64::MAX]. *)
Lemma expires_at_value l :
  (i64_min <= ml_locked_at l <= i64_max)%Z → (ml_timeout_millis l <= u64_max)%N →
  expires_at l = Z.min (ml_locked_at l + Z.of_N (ml_timeout_millis l)) i64_max.
Proof. unfold expires_at, i64_min, i64_max, u64_max, i128_max. lia. Qed.

(** The expiry of a migration lock is computed without overflow: it is
    [locked_at + timeout] clipped to [i64::MAX]; a held lock is active strictly
    before it and expired from it on, never both and never neither; a newly
    created lock is active at its own [locked_at] except when [locked_at] is
    [i64::MAX] itself. *)
Theorem migration_lock_expiry l :
  (i64_min <= ml_locked_at l <= i64_max)%Z → (0 < ml_timeout_millis l <= u64_max)%N →
  expires_at l = Z.min (ml_locked_at l + Z.of_N (ml_timeout_millis l)) i64_max ∧
  (ml_status l = MlHeld → ∀ t, is_active l t = negb (is_expired l t)) ∧
  (∀ t t', is_active l t' = true → (t <= t')%Z → is_active l t = true) ∧
  (ml_status l = MlHeld → is_active l (ml_locked_at l) = negb (ml_locked_at l =? i64_max)%Z).
Proof.
  intros Hl Ht. pose proof (expires_at_value l Hl ltac:(lia)) as Hv.
  split_and!; [done| | |]; unfold is_active, is_expired; rewrite Hv.
  - intros -> t. rewrite bool_decide_eq_true_2 by done. lia.
  - intros t t' Hact Hle. lia.
  - intros ->. rewrite bool_decide_eq_true_2 by done. unfold i64_max in *. lia.
Qed.

Definition sample_lock : MigrationLockRecord :=
  {| ml_status := MlHeld; ml_leader_id := "leader"; ml_safe := true;
     ml_locked_at := 100; ml_timeout_millis := u64_max; ml_released_at := None |}.

Lemma migration_lock_expiry_witness :
  expires_at sample_lock = i64_max ∧ is_active sample_lock (i64_max - 1) = true.
Proof.
  destruct (migration_lock_expiry sample_lock) as (Hv & _);
    [unfold sample_lock, i64_min, i64_max; simpl; lia | unfold sample_lock, u64_max; simpl; lia |].
  split; [rewrite Hv; reflexivity | reflexivity].
Defined.

(** ** Ids *)

Section Ids.
Context `{UuidLib}.

Lemma try_from_string_Ok k v i :
  try_from_string k v = Ok i ↔
  as_str i = v ∧ ∃ u, v = id_prefix k +:+ u ∧ u ≠ EmptyString ∧ uuid_parse_str u = true.
Proof.
  unfold try_from_string. destruct (strip_prefix (id_prefix k) v) as [u|] eqn:Hp; simpl.
  - apply strip_prefix_Some in Hp. destruct u as [|c u]; simpl.
    + split; [done|]. intros (_ & u & -> & Hne & _).
      apply (inj (String.append (id_prefix k))) in Hp. done.
    + destruct (uuid_parse_str (String c u)) eqn:Hu; simpl.
      * split; [intros [= <-]; eauto|]. intros (Hi & _). destruct i. by rewrite <- Hi.
      * split; [done|]. intros (_ & u' & -> & _ & Hu').
        apply (inj (String.append (id_prefix k))) in Hp. congruence.
  - split; [done|]. intros (_ & u & -> & _). by rewrite strip_prefix_app in Hp.
Qed.

(** No prefix is a prefix of another, so a string is an id of one kind at most. *)
Lemma id_prefix_disjoint k k' u u' :
  id_prefix k +:+ u = id_prefix k' +:+ u' → k = k'.
Proof. destruct k, k'; simpl; intros Heq; first [reflexivity | discriminate Heq]. Qed.

(** Id parsing.  The text of a freshly generated id parses back to that id
    whenever the UUID part parses; parsing succeeds on no other text than the
    prefix followed by a non-empty valid UUID; and no text is an id of two
    different kinds, so the id of an event's subject determines its type. *)
Theorem opaque_ids_roundtrip k u :
  (u ≠ EmptyString → uuid_parse_str u = true →
     try_from_string k (as_str (id_new k u)) = Ok (id_new k u)) ∧
  (∀ v i, try_from_string k v = Ok i → as_str i = v ∧ has_valid_prefix i = true) ∧
  (∀ k' v i i', try_from_string k v = Ok i → try_from_string k' v = Ok i' → k = k').
Proof.
  split_and!.
  - intros Hne Hp. apply try_from_string_Ok. eauto.
  - intros v i (<- & u' & Hv & _)%try_from_string_Ok. split; [done|].
    unfold has_valid_prefix, starts_with. by rewrite Hv, strip_prefix_app.
  - intros k' v i i' (_ & u1 & -> & _)%try_from_string_Ok (_ & u2 & Hv & _)%try_from_string_Ok.
    eapply id_prefix_disjoint, Hv.
Qed.
End Ids.
