(* ===== verification/Policy.v ===== *)
(** * Policy: the default policy engine of [crates/atelia-core/src/policy.rs]

    Capability names are normalised and classified; a rule table maps the
    class, the repository's trust state and the request's scope flags to an
    outcome and a risk tier. *)
From S2P Require Import Prelude Text Domain.

Definition POLICY_SCHEMA_VERSION : N := 1.
Definition DEFAULT_POLICY_VERSION : string := "policy-default-v1".
Definition REASON_REPOSITORY_BLOCKED : string := "repository_blocked".
Definition SCOPE_KIND_REPOSITORY : string := "repository".
Definition SCOPE_VALUE_ROOT : string := ".".

Record PolicyInput := {
  pin_requester : Actor;
  pin_repository_id : RepositoryId;
  pin_requested_capability : string;
  pin_resource_scope : ResourceScope;
  pin_tool_id : option string;
  pin_provider_id : option string;
  pin_declared_effect : string;
  pin_current_trust_state : RepositoryTrustState;
  pin_approval_available : bool;
  pin_policy_version : string;
  pin_registered_scope : bool;
  pin_broad_or_unbounded : bool
}.

Definition policy_input_new (requester : Actor) (repository_id : RepositoryId)
  (requested_capability : string) (resource_scope : ResourceScope) (declared_effect : string)
  (current_trust_state : RepositoryTrustState) (approval_available : bool)
  (policy_version : string) : PolicyInput := {|
  pin_requester := requester;
  pin_repository_id := repository_id;
  pin_requested_capability := requested_capability;
  pin_resource_scope := resource_scope;
  pin_tool_id := None;
  pin_provider_id := None;
  pin_declared_effect := declared_effect;
  pin_current_trust_state := current_trust_state;
  pin_approval_available := approval_available;
  pin_policy_version := policy_version;
  pin_registered_scope := true;
  pin_broad_or_unbounded := false |}.

Definition with_tool_id (i : PolicyInput) (tool_id : string) : PolicyInput := {|
  pin_requester := pin_requester i; pin_repository_id := pin_repository_id i;
  pin_requested_capability := pin_requested_capability i;
  pin_resource_scope := pin_resource_scope i; pin_tool_id := Some tool_id;
  pin_provider_id := pin_provider_id i; pin_declared_effect := pin_declared_effect i;
  pin_current_trust_state := pin_current_trust_state i;
  pin_approval_available := pin_approval_available i; pin_policy_version := pin_policy_version i;
  pin_registered_scope := pin_registered_scope i;
  pin_broad_or_unbounded := pin_broad_or_unbounded i |}.

Definition outside_registered_scope (i : PolicyInput) : PolicyInput := {|
  pin_requester := pin_requester i; pin_repository_id := pin_repository_id i;
  pin_requested_capability := pin_requested_capability i;
  pin_resource_scope := pin_resource_scope i; pin_tool_id := pin_tool_id i;
  pin_provider_id := pin_provider_id i; pin_declared_effect := pin_declared_effect i;
  pin_current_trust_state := pin_current_trust_state i;
  pin_approval_available := pin_approval_available i; pin_policy_version := pin_policy_version i;
  pin_registered_scope := false;
  pin_broad_or_unbounded := pin_broad_or_unbounded i |}.

Definition broad_or_unbounded (i : PolicyInput) : PolicyInput := {|
  pin_requester := pin_requester i; pin_repository_id := pin_repository_id i;
  pin_requested_capability := pin_requested_capability i;
  pin_resource_scope := pin_resource_scope i; pin_tool_id := pin_tool_id i;
  pin_provider_id := pin_provider_id i; pin_declared_effect := pin_declared_effect i;
  pin_current_trust_state := pin_current_trust_state i;
  pin_approval_available := pin_approval_available i; pin_policy_version := pin_policy_version i;
  pin_registered_scope := pin_registered_scope i;
  pin_broad_or_unbounded := true |}.

(** ** Capabilities *)

Inductive Capability :=
  | Informational | FilesystemRead | FilesystemWrite | ProcessExec
  | BroadRepositoryMutation | DestructiveRepositoryAction
  | ExternalNetworkOrService | SecretAccess | Unsupported.
#[export] Instance Capability_eq_dec : EqDecision Capability.
Proof. solve_decision. Defined.

Definition dot : ascii := ".".
Definition separators : list ascii := ["_"; "-"; ":"; "/"]%char.

(** [name.trim().to_ascii_lowercase().replace(['_', '-', ':', '/'], ".")] *)
Definition normalize_capability (name : string) : string :=
  replace_chars separators dot (to_ascii_lowercase (trim name)).

(** The arms of the match on the normalised name. *)
Definition classify (normalized : string) : Capability :=
  if str_in normalized
       ["informational"; "status"; "health"; "capability.discovery"; "capabilities.list";
        "policy.preview"; "policy.check"] then Informational
  else if str_in normalized
       ["filesystem.read"; "filesystem.list"; "filesystem.search"; "filesystem.stat";
        "filesystem.diff"; "fs.read"; "fs.list"; "fs.search"; "fs.stat"; "fs.diff"]
       then FilesystemRead
  else if str_in normalized
       ["filesystem.write"; "filesystem.patch"; "filesystem.delete"; "filesystem.move";
        "fs.write"; "fs.patch"; "fs.delete"; "fs.move"] then FilesystemWrite
  else if str_in normalized
       ["process.exec"; "process.execute"; "process.run"; "proc.exec"; "proc.run"]
       then ProcessExec
  else if str_in normalized
       ["repository.mutate.broad"; "repo.mutate.broad"; "repository.broad.mutation";
        "repo.broad.mutation"] then BroadRepositoryMutation
  else if str_in normalized
       ["repository.destructive"; "repo.destructive"; "repository.delete"; "repo.delete";
        "repository.reset.hard"; "repo.reset.hard"] then DestructiveRepositoryAction
  else if str_in normalized
       ["network.external"; "external.network"; "service.external"; "external.service";
        "network.call"; "service.call"] then ExternalNetworkOrService
  else if str_in normalized
       ["secret.access"; "secrets.access"; "secret.read"; "secrets.read"] then SecretAccess
  else Unsupported.

Definition from_name (name : string) : Capability := classify (normalize_capability name).

Definition is_repository_mutating (c : Capability) : bool :=
  match c with
  | FilesystemWrite | ProcessExec | BroadRepositoryMutation | DestructiveRepositoryAction => true
  | _ => false
  end.

(** ** The rule table *)

Record RuleDecision := {
  rule_outcome : PolicyOutcome;
  rule_risk_tier : RiskTier;
  rule_reason_code : string;
  rule_user_reason : string
}.

Definition rule_allowed t c u :=
  {| rule_outcome := Allowed; rule_risk_tier := t; rule_reason_code := c; rule_user_reason := u |}.
Definition rule_audited t c u :=
  {| rule_outcome := Audited; rule_risk_tier := t; rule_reason_code := c; rule_user_reason := u |}.
Definition rule_needs_approval t c u :=
  {| rule_outcome := NeedsApproval; rule_risk_tier := t; rule_reason_code := c; rule_user_reason := u |}.
Definition rule_blocked t c u :=
  {| rule_outcome := PolicyBlocked; rule_risk_tier := t; rule_reason_code := c; rule_user_reason := u |}.

Definition evaluate_rule (input : PolicyInput) : RuleDecision :=
  let capability := from_name (pin_requested_capability input) in
  if bool_decide (pin_current_trust_state input = TrustBlocked) then
    rule_blocked R4 REASON_REPOSITORY_BLOCKED
      "The repository is blocked by policy, so the requested action cannot run."
  else if negb (pin_registered_scope input) then
    rule_blocked R4 "outside_registered_scope"
      "The requested resource is outside the registered repository scope."
  else if is_repository_mutating capability
          && bool_decide (pin_current_trust_state input = ReadOnly) then
    rule_blocked R4 "repository_read_only"
      "The repository is read-only, so repository-mutating actions cannot run."
  else
    match capability with
    | Informational =>
        rule_allowed R0 "informational_allowed"
          "Informational status or capability discovery is allowed."
    | FilesystemRead =>
        if bool_decide (pin_current_trust_state input = ReadOnly) then
          rule_audited R1 "bounded_read_audited_read_only"
            "Bounded filesystem read is allowed in a read-only repository with audit evidence."
        else
          rule_allowed R1 "bounded_read_allowed"
            "Bounded filesystem read is allowed inside the registered repository scope."
    | FilesystemWrite =>
        if pin_broad_or_unbounded input then
          rule_needs_approval R3 "filesystem_write_broad_or_unbounded_needs_approval"
            "Broad or unbounded filesystem write needs approval before it can run."
        else
          rule_audited R2 "bounded_write_audited"
            "Filesystem modifications inside the registered repository scope require audit evidence."
    | ProcessExec =>
        if pin_broad_or_unbounded input then
          rule_needs_approval R3 "process_broad_or_unbounded_needs_approval"
            "Process execution is broad or unbounded and needs approval before it can run."
        else
          rule_audited R2 "bounded_process_audited"
            "Process execution with explicit argv, cwd, timeout, and env allowlist requires audit evidence."
    | BroadRepositoryMutation =>
        rule_needs_approval R3 "broad_repository_mutation_needs_approval"
          "Broad repository mutation needs approval before it can run."
    | DestructiveRepositoryAction =>
        rule_blocked R4 "destructive_repository_action_blocked"
          "Destructive repository actions are blocked until explicit policy support exists."
    | ExternalNetworkOrService =>
        rule_needs_approval R3 "external_network_or_service_needs_approval"
          "External network or service access needs approval before it can run."
    | SecretAccess =>
        rule_needs_approval R3 "secret_access_needs_approval"
          "Secret access needs approval before it can run."
    | Unsupported =>
        rule_blocked R4 "unsupported_capability_blocked"
          "The requested capability is not supported by the default policy."
    end.

(** ** Engines

    The trait [PolicyEngine]: a decision from an input, with the values the
    implementation draws ([PolicyDecisionId::new], [LedgerTimestamp::now]) as
    arguments. *)

Class PolicyEngine (P : Type) := {
  engine_evaluate : P → string → LedgerTimestamp → PolicyInput → PolicyDecision
}.

Inductive DefaultPolicyEngine := MkDefaultPolicyEngine.

Definition default_evaluate (uuid : string) (now : LedgerTimestamp) (input : PolicyInput)
  : PolicyDecision :=
  let rule := evaluate_rule input in {|
  pol_id := id_new PolicyDecisionIdKind uuid;
  pol_schema_version := POLICY_SCHEMA_VERSION;
  pol_created_at := now;
  pol_requester := pin_requester input;
  pol_repository_id := pin_repository_id input;
  pol_requested_capability := pin_requested_capability input;
  pol_resource_scope := pin_resource_scope input;
  pol_tool_id := pin_tool_id input;
  pol_provider_id := pin_provider_id input;
  pol_declared_effect := pin_declared_effect input;
  pol_current_trust_state := pin_current_trust_state input;
  pol_approval_available := pin_approval_available input;
  pol_policy_version := pin_policy_version input;
  pol_outcome := rule_outcome rule;
  pol_risk_tier := rule_risk_tier rule;
  pol_reason_code := rule_reason_code rule;
  pol_user_reason := rule_user_reason rule;
  pol_approval_request_ref := None;
  pol_audit_ref := None;
  pol_redactions := [] |}.

#[export] Instance default_engine : PolicyEngine DefaultPolicyEngine :=
  {| engine_evaluate _ := default_evaluate |}.

Definition canonicalize_job_requested_capability (name : string) : option string :=
  match from_name name with
  | Informational => Some "capability.discovery"
  | _ => None
  end.

(** What every engine promises its clients: the decision is about the input it
    was given and carries the id drawn for it. *)
Class PolicyEngineLaws (P : Type) `{PolicyEngine P} : Prop := {
  engine_id p u t i : pol_id (engine_evaluate p u t i) = id_new PolicyDecisionIdKind u;
  engine_repository p u t i : pol_repository_id (engine_evaluate p u t i) = pin_repository_id i;
  engine_blocked_root p u t i :
    pol_outcome (engine_evaluate p u t i) = PolicyBlocked →
    trim (pol_reason_code (engine_evaluate p u t i)) = REASON_REPOSITORY_BLOCKED →
    pin_current_trust_state i = TrustBlocked
}.

(** ** Laws of the default engine *)

(** An outcome that lets the tool run. *)
Definition permits (o : PolicyOutcome) : bool :=
  match o with Allowed | Audited => true | NeedsApproval | PolicyBlocked => false end.

(** Restrictiveness of outcomes and of trust states. *)
Definition outcome_rank (o : PolicyOutcome) : nat :=
  match o with Allowed => 0 | Audited => 1 | NeedsApproval => 2 | PolicyBlocked => 3 end.
Definition trust_rank (t : RepositoryTrustState) : nat :=
  match t with Trusted => 0 | ReadOnly => 1 | TrustBlocked => 2 end.

Ltac policy_cases :=
  unfold evaluate_rule in *; simpl in *;
  repeat match goal with
    | |- context [pin_current_trust_state ?i] => destruct (pin_current_trust_state i)
    | |- context [pin_registered_scope ?i] => destruct (pin_registered_scope i)
    | |- context [pin_broad_or_unbounded ?i] => destruct (pin_broad_or_unbounded i)
    | |- context [from_name ?s] => destruct (from_name s)
    end; simpl in *.

#[export] Instance default_engine_laws : PolicyEngineLaws DefaultPolicyEngine.
Proof.
  split; [done|done|]. intros [] u t i. simpl. policy_cases; done.
Qed.

(** The outcome and tier as a function of what the rules look at. *)
Definition verdict (c : Capability) (t : RepositoryTrustState) (scoped broad : bool)
  : PolicyOutcome * RiskTier :=
  match t, scoped with
  | TrustBlocked, _ | _, false => (PolicyBlocked, R4)
  | Trusted, true =>
      match c with
      | Informational => (Allowed, R0)
      | FilesystemRead => (Allowed, R1)
      | FilesystemWrite | ProcessExec => if broad then (NeedsApproval, R3) else (Audited, R2)
      | BroadRepositoryMutation | ExternalNetworkOrService | SecretAccess => (NeedsApproval, R3)
      | DestructiveRepositoryAction | Unsupported => (PolicyBlocked, R4)
      end
  | ReadOnly, true =>
      match c with
      | Informational => (Allowed, R0)
      | FilesystemRead => (Audited, R1)
      | ExternalNetworkOrService | SecretAccess => (NeedsApproval, R3)
      | _ => (PolicyBlocked, R4)
      end
  end.

Lemma evaluate_rule_verdict i :
  (rule_outcome (evaluate_rule i), rule_risk_tier (evaluate_rule i)) =
  verdict (from_name (pin_requested_capability i)) (pin_current_trust_state i)
    (pin_registered_scope i) (pin_broad_or_unbounded i).
Proof. policy_cases; reflexivity. Qed.

Lemma verdict_tier c t s b :
  ((verdict c t s b).1 = PolicyBlocked ↔ (verdict c t s b).2 = R4) ∧
  ((verdict c t s b).1 = NeedsApproval ↔ (verdict c t s b).2 = R3).
Proof. destruct c, t, s, b; simpl; split; split; intros; congruence. Qed.

Lemma verdict_monotone c t t' s s' b b' :
  trust_rank t <= trust_rank t' → (s' = true → s = true) → (b = true → b' = true) →
  outcome_rank (verdict c t s b).1 <= outcome_rank (verdict c t' s' b').1.
Proof.
  intros Ht Hs Hb. apply Nat.leb_le.
  destruct t, t'; simpl in Ht; try lia; clear Ht;
    destruct s, s'; try (discriminate (Hs eq_refl)); clear Hs;
    destruct b, b'; try (discriminate (Hb eq_refl)); clear Hb;
    destruct c; reflexivity.
Qed.

(** The default engine lets a tool run only when the repository is not
    blocked, the resource is inside the registered scope, the repository is not
    read-only for a mutating capability, and the capability is one of
    informational, bounded read, bounded write or bounded process execution; a
    plain [Allowed], with no audit evidence, never covers a mutating
    capability.  Conversely those conditions are enough. *)
Theorem default_policy_permits_iff u t i :
  let c := from_name (pin_requested_capability i) in
  permits (pol_outcome (default_evaluate u t i)) = true ↔
  pin_current_trust_state i ≠ TrustBlocked ∧ pin_registered_scope i = true ∧
  (is_repository_mutating c = true →
     pin_current_trust_state i = Trusted ∧ pin_broad_or_unbounded i = false ∧
     pol_outcome (default_evaluate u t i) = Audited) ∧
  (c = Informational ∨ c = FilesystemRead ∨ c = FilesystemWrite ∨ c = ProcessExec).
Proof.
  simpl. pose proof (f_equal fst (evaluate_rule_verdict i)) as Ho. simpl in Ho. rewrite Ho. clear Ho.
  destruct (from_name _), (pin_current_trust_state i), (pin_registered_scope i),
    (pin_broad_or_unbounded i); simpl; split; intros; destruct_and?; split_and?; auto;
    try congruence; destruct_or?; try congruence;
    match goal with H : true = true → _ |- _ => destruct (H eq_refl) as (? & ? & ?) end; congruence.
Qed.

(** The verdict is monotone: lowering the trust state (trusted, read-only,
    blocked), leaving the registered scope, or making the request broad, can
    only make the outcome more restrictive; and the risk tier agrees with the
    outcome ([Blocked] exactly at R4, [NeedsApproval] exactly at R3). *)
Theorem default_policy_monotone i i' :
  pin_requested_capability i = pin_requested_capability i' →
  trust_rank (pin_current_trust_state i) <= trust_rank (pin_current_trust_state i') →
  (pin_registered_scope i' = true → pin_registered_scope i = true) →
  (pin_broad_or_unbounded i = true → pin_broad_or_unbounded i' = true) →
  outcome_rank (rule_outcome (evaluate_rule i)) <= outcome_rank (rule_outcome (evaluate_rule i')) ∧
  (rule_outcome (evaluate_rule i) = PolicyBlocked ↔ rule_risk_tier (evaluate_rule i) = R4) ∧
  (rule_outcome (evaluate_rule i) = NeedsApproval ↔ rule_risk_tier (evaluate_rule i) = R3).
Proof.
  intros Hc Ht Hs Hb. pose proof (f_equal fst (evaluate_rule_verdict i)) as Ho.
  pose proof (f_equal snd (evaluate_rule_verdict i)) as Hr.
  pose proof (f_equal fst (evaluate_rule_verdict i')) as Ho'. simpl in Ho, Hr, Ho'.
  rewrite Ho, Ho', Hr, <- Hc. split; [by apply verdict_monotone | apply verdict_tier].
Qed.

Definition sample_input (cap : string) (t : RepositoryTrustState) : PolicyInput :=
  policy_input_new (System "s") (MkId "repo_1") cap
    {| scope_kind := "path"; scope_value := "src" |} "effect" t true DEFAULT_POLICY_VERSION.

Lemma default_policy_monotone_witness :
  rule_outcome (evaluate_rule (sample_input " FS_Read " Trusted)) = Allowed ∧
  rule_outcome (evaluate_rule (sample_input " FS_Read " ReadOnly)) = Audited ∧
  outcome_rank (rule_outcome (evaluate_rule (sample_input " FS_Read " Trusted))) <=
  outcome_rank (rule_outcome (evaluate_rule (sample_input " FS_Read " ReadOnly))).
Proof.
  split; [reflexivity|]. split; [reflexivity|].
  refine (proj1 (default_policy_monotone (sample_input " FS_Read " Trusted)
                   (sample_input " FS_Read " ReadOnly) _ _ _ _));
    [reflexivity | simpl; lia | reflexivity | done].
Defined.
