(* ===== verification/StoreTypes.v ===== *)
(** * StoreTypes: data of the ledger store ([crates/atelia-core/src/store.rs])

    Errors, queries, the in-memory state [InMemoryInner] and the records the
    store shares with the runtime ([RuntimeJobReceipt], [RenderedToolOutput]).

    Error messages are kept unrendered, as [format_args!] has them before
    formatting: the template of the source and its arguments. *)
From S2P Require Import Prelude Text Domain.

(** ** Messages *)

Inductive Message :=
  | Fmt (template : string) (args : list FmtArg)
with FmtArg :=
  | AStr (s : string)
  | ANum (z : Z)
  | AId {k : IdKind} (i : OpaqueId k)
  | AOptId {k : IdKind} (i : option (OpaqueId k))
  | ADbgStr (s : string)
  | AOptStr (s : option string)
  | AStatus (s : JobStatus)
  | ACancellation (c : CancellationState)
  | ATime (t : Z)
  | AActor (a : Actor)
  | AKind (k : JobKind)
  | ASubjectType (s : EventSubjectType)
  | ATransition (e : JobStatusTransitionError)
  | AMsg (m : Message).

Definition msg (s : string) : Message := Fmt s [].

Inductive StoreError :=
  | NotFound (collection : string) (id : Message)
  | DuplicateId (collection : string) (id : Message)
  | Conflict (collection : string) (reason : Message)
  | InvalidReference (collection : string) (reason : Message)
  | InvalidCursor (reason : Message)
  | CursorExpired (reason : Message)
  | SequenceOverflow
  | InvalidRecord (collection : string) (reason : Message).

Abbreviation StoreResult := (result StoreError).

(** [id_debug]: the debug text of an id or of a string. *)
Definition id_debug {k} (i : OpaqueId k) : Message := Fmt "{:?}" [AId i].
Definition str_debug (s : string) : Message := Fmt "{:?}" [ADbgStr s].

(** ** Cursors, queries and pages *)

Inductive EventCursor :=
  | Beginning
  | AfterSequence (sequence : N)
  | AfterEventId (id : JobEventId).

Record JobQuery := {
  jq_repository_id : option RepositoryId;
  jq_status : option JobStatus;
  jq_requester : option Actor;
  jq_page_size : option N;
  jq_page_token : option string
}.

Record JobPage := {
  jp_jobs : list JobRecord;
  jp_next_page_token : option string
}.

Record EventQuery := {
  eq_repository_id : option RepositoryId;
  eq_cursor : EventCursor;
  eq_subject_ids : list string;
  eq_job_ids : list JobId;
  eq_min_severity : option EventSeverity;
  eq_page_size : option N;
  eq_page_token : option string
}.

Definition event_query_default : EventQuery := {|
  eq_repository_id := None; eq_cursor := Beginning; eq_subject_ids := []; eq_job_ids := [];
  eq_min_severity := None; eq_page_size := None; eq_page_token := None |}.

Record EventPage := {
  ep_events : list JobEvent;
  ep_next_page_token : option string;
  ep_resolved_cursor_sequence : option N
}.

(** ** Records shared with the runtime *)

Inductive OutputFormat := Toon | Json | Text.
#[export] Instance OutputFormat_eq_dec : EqDecision OutputFormat.
Proof. solve_decision. Defined.

Record RenderedToolOutput := {
  ro_format : OutputFormat;
  ro_schema_version : string;
  ro_body : string;
  ro_fallback_reason : option string;
  ro_truncation : option TruncationMetadata
}.
#[export] Instance RenderedToolOutput_eq_dec : EqDecision RenderedToolOutput.
Proof. solve_decision. Defined.

Record RuntimeJobReceipt := {
  rcp_job : JobRecord;
  rcp_policy_decision : PolicyDecision;
  rcp_tool_invocation : option ToolInvocation;
  rcp_tool_result : option ToolResult;
  rcp_rendered_output : option RenderedToolOutput;
  rcp_audit_record : option AuditRecord;
  rcp_events : list JobEvent
}.
#[export] Instance RuntimeJobReceipt_eq_dec : EqDecision RuntimeJobReceipt.
Proof. solve_decision. Defined.

Record SubmitJobIdempotencyRecord := {
  idem_signature : string;
  idem_receipt : RuntimeJobReceipt
}.
#[export] Instance SubmitJobIdempotencyRecord_eq_dec : EqDecision SubmitJobIdempotencyRecord.
Proof. solve_decision. Defined.

Record ToolResultAuditTerminalRequest := {
  tat_record : JobRecord;
  tat_tool_result : ToolResult;
  tat_tool_result_event : JobEvent;
  tat_audit_record : AuditRecord;
  tat_audit_event : JobEvent;
  tat_terminal_event : JobEvent;
  tat_idempotency : option (string * SubmitJobIdempotencyRecord)
}.

(** The receipt with its job and events replaced. *)
Definition rcp_set (r : RuntimeJobReceipt) (j : JobRecord) (es : list JobEvent)
  : RuntimeJobReceipt := {|
  rcp_job := j; rcp_policy_decision := rcp_policy_decision r;
  rcp_tool_invocation := rcp_tool_invocation r; rcp_tool_result := rcp_tool_result r;
  rcp_rendered_output := rcp_rendered_output r; rcp_audit_record := rcp_audit_record r;
  rcp_events := es |}.

(** ** The in-memory state

    The extension registry ([extensions.rs]) is a component of its own; the
    store holds a snapshot of it and asks it to validate one. *)

Class RegistryPort := {
  registry_snapshot : Type;
  registry_default : registry_snapshot;
  (** [validate_with_policy(&ManifestValidationPolicy::default())] *)
  registry_validate : registry_snapshot → result Message unit;
  (** [repair_loaded_extension_registry_snapshot], and whether it changed anything *)
  registry_repair : registry_snapshot → registry_snapshot * bool
}.

Record InMemoryInner `{RegistryPort} := {
  repositories : gmap RepositoryId RepositoryRecord;
  jobs : gmap JobId JobRecord;
  job_events_by_id : gmap JobEventId JobEvent;
  job_events_by_sequence : gmap N JobEventId;
  next_event_sequence : N;
  policy_decisions : gmap PolicyDecisionId PolicyDecision;
  lock_decisions : gmap LockDecisionId LockDecision;
  schema_migrations : gmap SchemaMigrationId SchemaMigrationRecord;
  tool_invocations : gmap ToolInvocationId ToolInvocation;
  tool_results : gmap ToolResultId ToolResult;
  audit_records : gmap AuditRecordId AuditRecord;
  idempotent_submit_jobs : gmap string SubmitJobIdempotencyRecord;
  extension_registry_snapshot : registry_snapshot
}.

Section Inner.
Context `{RegistryPort}.

Definition inner_default : InMemoryInner := {|
  repositories := ∅; jobs := ∅; job_events_by_id := ∅; job_events_by_sequence := ∅;
  next_event_sequence := 0; policy_decisions := ∅; lock_decisions := ∅;
  schema_migrations := ∅; tool_invocations := ∅; tool_results := ∅; audit_records := ∅;
  idempotent_submit_jobs := ∅; extension_registry_snapshot := registry_default |}.

(** Assignments to one field of the state. *)
Definition set_repositories (s : InMemoryInner) m : InMemoryInner := {|
  repositories := m; jobs := jobs s; job_events_by_id := job_events_by_id s;
  job_events_by_sequence := job_events_by_sequence s;
  next_event_sequence := next_event_sequence s; policy_decisions := policy_decisions s;
  lock_decisions := lock_decisions s; schema_migrations := schema_migrations s;
  tool_invocations := tool_invocations s; tool_results := tool_results s;
  audit_records := audit_records s; idempotent_submit_jobs := idempotent_submit_jobs s;
  extension_registry_snapshot := extension_registry_snapshot s |}.

Definition set_jobs (s : InMemoryInner) m : InMemoryInner := {|
  repositories := repositories s; jobs := m; job_events_by_id := job_events_by_id s;
  job_events_by_sequence := job_events_by_sequence s;
  next_event_sequence := next_event_sequence s; policy_decisions := policy_decisions s;
  lock_decisions := lock_decisions s; schema_migrations := schema_migrations s;
  tool_invocations := tool_invocations s; tool_results := tool_results s;
  audit_records := audit_records s; idempotent_submit_jobs := idempotent_submit_jobs s;
  extension_registry_snapshot := extension_registry_snapshot s |}.

Definition set_ledger (s : InMemoryInner) by_id by_seq next : InMemoryInner := {|
  repositories := repositories s; jobs := jobs s; job_events_by_id := by_id;
  job_events_by_sequence := by_seq; next_event_sequence := next;
  policy_decisions := policy_decisions s; lock_decisions := lock_decisions s;
  schema_migrations := schema_migrations s; tool_invocations := tool_invocations s;
  tool_results := tool_results s; audit_records := audit_records s;
  idempotent_submit_jobs := idempotent_submit_jobs s;
  extension_registry_snapshot := extension_registry_snapshot s |}.

Definition set_policy_decisions (s : InMemoryInner) m : InMemoryInner := {|
  repositories := repositories s; jobs := jobs s; job_events_by_id := job_events_by_id s;
  job_events_by_sequence := job_events_by_sequence s;
  next_event_sequence := next_event_sequence s; policy_decisions := m;
  lock_decisions := lock_decisions s; schema_migrations := schema_migrations s;
  tool_invocations := tool_invocations s; tool_results := tool_results s;
  audit_records := audit_records s; idempotent_submit_jobs := idempotent_submit_jobs s;
  extension_registry_snapshot := extension_registry_snapshot s |}.

Definition set_lock_decisions (s : InMemoryInner) m : InMemoryInner := {|
  repositories := repositories s; jobs := jobs s; job_events_by_id := job_events_by_id s;
  job_events_by_sequence := job_events_by_sequence s;
  next_event_sequence := next_event_sequence s; policy_decisions := policy_decisions s;
  lock_decisions := m; schema_migrations := schema_migrations s;
  tool_invocations := tool_invocations s; tool_results := tool_results s;
  audit_records := audit_records s; idempotent_submit_jobs := idempotent_submit_jobs s;
  extension_registry_snapshot := extension_registry_snapshot s |}.

Definition set_schema_migrations (s : InMemoryInner) m : InMemoryInner := {|
  repositories := repositories s; jobs := jobs s; job_events_by_id := job_events_by_id s;
  job_events_by_sequence := job_events_by_sequence s;
  next_event_sequence := next_event_sequence s; policy_decisions := policy_decisions s;
  lock_decisions := lock_decisions s; schema_migrations := m;
  tool_invocations := tool_invocations s; tool_results := tool_results s;
  audit_records := audit_records s; idempotent_submit_jobs := idempotent_submit_jobs s;
  extension_registry_snapshot := extension_registry_snapshot s |}.

Definition set_tool_invocations (s : InMemoryInner) m : InMemoryInner := {|
  repositories := repositories s; jobs := jobs s; job_events_by_id := job_events_by_id s;
  job_events_by_sequence := job_events_by_sequence s;
  next_event_sequence := next_event_sequence s; policy_decisions := policy_decisions s;
  lock_decisions := lock_decisions s; schema_migrations := schema_migrations s;
  tool_invocations := m; tool_results := tool_results s; audit_records := audit_records s;
  idempotent_submit_jobs := idempotent_submit_jobs s;
  extension_registry_snapshot := extension_registry_snapshot s |}.

Definition set_tool_results (s : InMemoryInner) m : InMemoryInner := {|
  repositories := repositories s; jobs := jobs s; job_events_by_id := job_events_by_id s;
  job_events_by_sequence := job_events_by_sequence s;
  next_event_sequence := next_event_sequence s; policy_decisions := policy_decisions s;
  lock_decisions := lock_decisions s; schema_migrations := schema_migrations s;
  tool_invocations := tool_invocations s; tool_results := m; audit_records := audit_records s;
  idempotent_submit_jobs := idempotent_submit_jobs s;
  extension_registry_snapshot := extension_registry_snapshot s |}.

Definition set_audit_records (s : InMemoryInner) m : InMemoryInner := {|
  repositories := repositories s; jobs := jobs s; job_events_by_id := job_events_by_id s;
  job_events_by_sequence := job_events_by_sequence s;
  next_event_sequence := next_event_sequence s; policy_decisions := policy_decisions s;
  lock_decisions := lock_decisions s; schema_migrations := schema_migrations s;
  tool_invocations := tool_invocations s; tool_results := tool_results s; audit_records := m;
  idempotent_submit_jobs := idempotent_submit_jobs s;
  extension_registry_snapshot := extension_registry_snapshot s |}.

Definition set_idempotent_submit_jobs (s : InMemoryInner) m : InMemoryInner := {|
  repositories := repositories s; jobs := jobs s; job_events_by_id := job_events_by_id s;
  job_events_by_sequence := job_events_by_sequence s;
  next_event_sequence := next_event_sequence s; policy_decisions := policy_decisions s;
  lock_decisions := lock_decisions s; schema_migrations := schema_migrations s;
  tool_invocations := tool_invocations s; tool_results := tool_results s;
  audit_records := audit_records s; idempotent_submit_jobs := m;
  extension_registry_snapshot := extension_registry_snapshot s |}.

Definition set_extension_snapshot (s : InMemoryInner) m : InMemoryInner := {|
  repositories := repositories s; jobs := jobs s; job_events_by_id := job_events_by_id s;
  job_events_by_sequence := job_events_by_sequence s;
  next_event_sequence := next_event_sequence s; policy_decisions := policy_decisions s;
  lock_decisions := lock_decisions s; schema_migrations := schema_migrations s;
  tool_invocations := tool_invocations s; tool_results := tool_results s;
  audit_records := audit_records s; idempotent_submit_jobs := idempotent_submit_jobs s;
  extension_registry_snapshot := m |}.

End Inner.
