(* ===== verification/Settings.v ===== *)
(** * Settings: tool-output defaults ([crates/atelia-core/src/settings.rs])

    Scoped overrides of the rendering defaults, their resolution along the chain
    workspace, level, tool, and the audited updates.  The rendering options and
    policy types are those of [tool_output.rs]. *)
From S2P Require Import Prelude Text Domain StoreTypes.

(** ** Rendering options ([tool_output.rs]) *)

Record RenderOptions := {
  rend_format : OutputFormat;
  rend_include_policy : bool;
  rend_include_diagnostics : bool;
  rend_include_cost : bool
}.

Definition render_options_default : RenderOptions := {|
  rend_format := Toon; rend_include_policy := false; rend_include_diagnostics := false;
  rend_include_cost := false |}.

Inductive ToolOutputVerbosity := Minimal | NormalVerbosity | Expanded | DebugVerbosity.
Inductive ToolOutputGranularity := Summary | KeyFields | Full.
Inductive OversizeOutputPolicy := TruncateWithMetadata | SpillToArtifactRef | RejectOversize.
#[export] Instance RenderOptions_eq_dec : EqDecision RenderOptions.
Proof. solve_decision. Defined.
#[export] Instance ToolOutputVerbosity_eq_dec : EqDecision ToolOutputVerbosity.
Proof. solve_decision. Defined.
#[export] Instance ToolOutputGranularity_eq_dec : EqDecision ToolOutputGranularity.
Proof. solve_decision. Defined.
#[export] Instance OversizeOutputPolicy_eq_dec : EqDecision OversizeOutputPolicy.
Proof. solve_decision. Defined.

Record ToolOutputRenderPolicy := {
  rpol_render_options : RenderOptions;
  rpol_max_fields : option N;
  rpol_max_inline_lines : option N;
  rpol_max_inline_bytes : option N;
  rpol_oversize_policy : OversizeOutputPolicy;
  rpol_include_evidence_refs : bool;
  rpol_include_output_refs : bool;
  rpol_include_redactions : bool
}.

Definition from_render_options (o : RenderOptions) : ToolOutputRenderPolicy := {|
  rpol_render_options := o; rpol_max_fields := None; rpol_max_inline_lines := None;
  rpol_max_inline_bytes := None; rpol_oversize_policy := TruncateWithMetadata;
  rpol_include_evidence_refs := true; rpol_include_output_refs := true;
  rpol_include_redactions := true |}.

(** ** Scopes *)

Definition TOOL_OUTPUT_SETTINGS_SCHEMA_VERSION : N := 1.
Definition DEFAULT_MAX_INLINE_BYTES : N := 16 * 1024.
Definition MIN_MAX_INLINE_BYTES : N := 256.
Definition MAX_MAX_INLINE_BYTES : N := 1024 * 1024.
Definition DEFAULT_MAX_INLINE_LINES : N := 200.
Definition MIN_MAX_INLINE_LINES : N := 1.
Definition MAX_MAX_INLINE_LINES : N := 10000.

Inductive ToolOutputSettingsLevel :=
  | LvWorkspace
  | LvRepository (repository_id : RepositoryId)
  | LvProject (project_id : string)
  | LvSession (session_id : string)
  | LvAgentProfile (agent_id : string).
#[export] Instance ToolOutputSettingsLevel_eq_dec : EqDecision ToolOutputSettingsLevel.
Proof. solve_decision. Defined.

Record ToolOutputSettingsScope := {
  scope_level : ToolOutputSettingsLevel;
  scope_tool_id : option string
}.
#[export] Instance ToolOutputSettingsScope_eq_dec : EqDecision ToolOutputSettingsScope.
Proof. solve_decision. Defined.

Definition workspace : ToolOutputSettingsScope :=
  {| scope_level := LvWorkspace; scope_tool_id := None |}.
Definition for_tool (s : ToolOutputSettingsScope) (tool_id : string) : ToolOutputSettingsScope :=
  {| scope_level := scope_level s; scope_tool_id := Some tool_id |}.

Definition push_unique (chain : list ToolOutputSettingsScope) (s : ToolOutputSettingsScope)
  : list ToolOutputSettingsScope :=
  if bool_decide (s ∈ chain) then chain else chain ++ [s].

Definition resolution_chain (s : ToolOutputSettingsScope) : list ToolOutputSettingsScope :=
  let chain := push_unique [] workspace in
  let chain := push_unique chain {| scope_level := scope_level s; scope_tool_id := None |} in
  match scope_tool_id s with
  | Some tool_id => push_unique (push_unique chain (for_tool workspace tool_id)) s
  | None => chain
  end.

Definition scope_migration_depth (s : ToolOutputSettingsScope) : nat :=
  (if is_some (scope_tool_id s) then 1 else 0) + 1.

(** ** Defaults and overrides *)

Record ToolOutputDefaults := {
  def_render_options : RenderOptions;
  def_max_inline_bytes : N;
  def_max_inline_lines : N;
  def_verbosity : ToolOutputVerbosity;
  def_granularity : ToolOutputGranularity;
  def_oversize_policy : OversizeOutputPolicy
}.
#[export] Instance ToolOutputDefaults_eq_dec : EqDecision ToolOutputDefaults.
Proof. solve_decision. Defined.

Record ToolOutputOverrides := {
  ov_format : option OutputFormat;
  ov_include_policy : option bool;
  ov_include_diagnostics : option bool;
  ov_include_cost : option bool;
  ov_max_inline_bytes : option N;
  ov_max_inline_lines : option N;
  ov_verbosity : option ToolOutputVerbosity;
  ov_granularity : option ToolOutputGranularity;
  ov_oversize_policy : option OversizeOutputPolicy
}.

Definition defaults_default : ToolOutputDefaults := {|
  def_render_options := render_options_default;
  def_max_inline_bytes := DEFAULT_MAX_INLINE_BYTES;
  def_max_inline_lines := DEFAULT_MAX_INLINE_LINES;
  def_verbosity := NormalVerbosity;
  def_granularity := KeyFields;
  def_oversize_policy := TruncateWithMetadata |}.

Definition overrides_default : ToolOutputOverrides := {|
  ov_format := None; ov_include_policy := None; ov_include_diagnostics := None;
  ov_include_cost := None; ov_max_inline_bytes := None; ov_max_inline_lines := None;
  ov_verbosity := None; ov_granularity := None; ov_oversize_policy := None |}.

Definition overrides_is_empty (o : ToolOutputOverrides) : bool :=
  is_none (ov_format o) && is_none (ov_include_policy o) && is_none (ov_include_diagnostics o)
  && is_none (ov_include_cost o) && is_none (ov_max_inline_bytes o)
  && is_none (ov_max_inline_lines o) && is_none (ov_verbosity o) && is_none (ov_granularity o)
  && is_none (ov_oversize_policy o).

(** [(a != b).then_some(a)] *)
Definition differing {A} `{EqDecision A} (a b : A) : option A :=
  if bool_decide (a = b) then None else Some a.

Definition from_defaults_with_parent (base inherited : ToolOutputDefaults) : ToolOutputOverrides :=
  let b := def_render_options base in
  let i := def_render_options inherited in {|
  ov_format := differing (rend_format b) (rend_format i);
  ov_include_policy := differing (rend_include_policy b) (rend_include_policy i);
  ov_include_diagnostics := differing (rend_include_diagnostics b) (rend_include_diagnostics i);
  ov_include_cost := differing (rend_include_cost b) (rend_include_cost i);
  ov_max_inline_bytes := differing (def_max_inline_bytes base) (def_max_inline_bytes inherited);
  ov_max_inline_lines := differing (def_max_inline_lines base) (def_max_inline_lines inherited);
  ov_verbosity := differing (def_verbosity base) (def_verbosity inherited);
  ov_granularity := differing (def_granularity base) (def_granularity inherited);
  ov_oversize_policy := differing (def_oversize_policy base) (def_oversize_policy inherited) |}.

Definition from_defaults (base : ToolOutputDefaults) : ToolOutputOverrides :=
  from_defaults_with_parent base defaults_default.

Definition merge (self update : ToolOutputOverrides) : ToolOutputOverrides := {|
  ov_format := or_else (ov_format update) (ov_format self);
  ov_include_policy := or_else (ov_include_policy update) (ov_include_policy self);
  ov_include_diagnostics := or_else (ov_include_diagnostics update) (ov_include_diagnostics self);
  ov_include_cost := or_else (ov_include_cost update) (ov_include_cost self);
  ov_max_inline_bytes := or_else (ov_max_inline_bytes update) (ov_max_inline_bytes self);
  ov_max_inline_lines := or_else (ov_max_inline_lines update) (ov_max_inline_lines self);
  ov_verbosity := or_else (ov_verbosity update) (ov_verbosity self);
  ov_granularity := or_else (ov_granularity update) (ov_granularity self);
  ov_oversize_policy := or_else (ov_oversize_policy update) (ov_oversize_policy self) |}.

(** [if let Some(x) = self.x { defaults.x = x }] for each field. *)
Definition apply_to (o : ToolOutputOverrides) (d : ToolOutputDefaults) : ToolOutputDefaults :=
  let r := def_render_options d in {|
  def_render_options := {|
    rend_format := default (rend_format r) (ov_format o);
    rend_include_policy := default (rend_include_policy r) (ov_include_policy o);
    rend_include_diagnostics := default (rend_include_diagnostics r) (ov_include_diagnostics o);
    rend_include_cost := default (rend_include_cost r) (ov_include_cost o) |};
  def_max_inline_bytes := default (def_max_inline_bytes d) (ov_max_inline_bytes o);
  def_max_inline_lines := default (def_max_inline_lines d) (ov_max_inline_lines o);
  def_verbosity := default (def_verbosity d) (ov_verbosity o);
  def_granularity := default (def_granularity d) (ov_granularity o);
  def_oversize_policy := default (def_oversize_policy d) (ov_oversize_policy o) |}.

Definition apply_verbosity_constraints (r : RenderOptions) (v : ToolOutputVerbosity)
  : RenderOptions :=
  match v with
  | Minimal | NormalVerbosity =>
      {| rend_format := rend_format r; rend_include_policy := false;
         rend_include_diagnostics := false; rend_include_cost := false |}
  | Expanded =>
      {| rend_format := rend_format r; rend_include_policy := rend_include_policy r;
         rend_include_diagnostics := rend_include_diagnostics r; rend_include_cost := false |}
  | DebugVerbosity =>
      {| rend_format := rend_format r; rend_include_policy := true;
         rend_include_diagnostics := true; rend_include_cost := true |}
  end.

Definition render_policy_with_render_options (d : ToolOutputDefaults)
  (requested : option RenderOptions) : ToolOutputRenderPolicy :=
  let render_options := apply_verbosity_constraints
    (match requested with Some r => r | None => def_render_options d end) (def_verbosity d) in
  let lines := def_max_inline_lines d in
  let field_limit :=
    match def_granularity d with
    | Summary => Some (N.min 1 lines)
    | KeyFields => Some (N.min 3 lines)
    | Full => None
    end in
  let detailed := negb (bool_decide (def_granularity d = Summary)) in {|
  rpol_render_options := render_options;
  rpol_max_fields := field_limit;
  rpol_max_inline_lines := Some lines;
  rpol_max_inline_bytes := Some (def_max_inline_bytes d);
  rpol_oversize_policy := def_oversize_policy d;
  rpol_include_evidence_refs := detailed;
  rpol_include_output_refs := detailed;
  rpol_include_redactions := detailed |}.

Definition render_policy (d : ToolOutputDefaults) : ToolOutputRenderPolicy :=
  render_policy_with_render_options d None.

(** ** Validation *)

Inductive ToolOutputSettingsError :=
  | DuplicateScope (scope : ToolOutputSettingsScope)
  | EmptyUpdate
  | MissingReason
  | MaxInlineBytesOutOfRange (value min max : N)
  | MaxInlineLinesOutOfRange (value min max : N).

Definition validate_inline_bytes (value : N) : result ToolOutputSettingsError unit :=
  if ((MIN_MAX_INLINE_BYTES <=? value) && (value <=? MAX_MAX_INLINE_BYTES))%N then Ok tt
  else Err (MaxInlineBytesOutOfRange value MIN_MAX_INLINE_BYTES MAX_MAX_INLINE_BYTES).

Definition validate_inline_lines (value : N) : result ToolOutputSettingsError unit :=
  if ((MIN_MAX_INLINE_LINES <=? value) && (value <=? MAX_MAX_INLINE_LINES))%N then Ok tt
  else Err (MaxInlineLinesOutOfRange value MIN_MAX_INLINE_LINES MAX_MAX_INLINE_LINES).

Definition defaults_validate (d : ToolOutputDefaults) : result ToolOutputSettingsError unit :=
  let? _ := validate_inline_bytes (def_max_inline_bytes d) in
  let? _ := validate_inline_lines (def_max_inline_lines d) in
  Ok tt.

(** [TryFrom<ToolOutputOverridesUnvalidated>] on the fields of the record. *)
Definition overrides_try_from (o : ToolOutputOverrides)
  : result ToolOutputSettingsError ToolOutputOverrides :=
  let? _ := match ov_max_inline_bytes o with
            | Some b => validate_inline_bytes b | None => Ok tt end in
  let? _ := match ov_max_inline_lines o with
            | Some l => validate_inline_lines l | None => Ok tt end in
  Ok o.

Definition with_overrides (d : ToolOutputDefaults) (o : ToolOutputOverrides)
  : result ToolOutputSettingsError ToolOutputDefaults :=
  let defaults := apply_to o d in
  let? _ := defaults_validate defaults in
  Ok defaults.

(** ** Settings of one scope *)

Record ToolOutputSettings := {
  set_schema_version : N;
  set_scope : ToolOutputSettingsScope;
  set_overrides : ToolOutputOverrides;
  set_updated_at : LedgerTimestamp;
  set_updated_by : option Actor;
  set_legacy_defaults : option ToolOutputDefaults
}.

Record ToolOutputSettingsChange := {
  chg_schema_version : N;
  chg_actor : Actor;
  chg_scope : ToolOutputSettingsScope;
  chg_old_defaults : ToolOutputDefaults;
  chg_new_defaults : ToolOutputDefaults;
  chg_reason : string;
  chg_changed_at : LedgerTimestamp
}.

Definition settings_new (scope : ToolOutputSettingsScope) (created_at : LedgerTimestamp)
  : ToolOutputSettings := {|
  set_schema_version := TOOL_OUTPUT_SETTINGS_SCHEMA_VERSION; set_scope := scope;
  set_overrides := overrides_default; set_updated_at := created_at; set_updated_by := None;
  set_legacy_defaults := None |}.

Definition resolved_overrides (s : ToolOutputSettings) (inherited : ToolOutputDefaults)
  : ToolOutputOverrides :=
  match set_legacy_defaults s with
  | Some defaults => from_defaults_with_parent defaults inherited
  | None => set_overrides s
  end.

Definition apply_legacy_migration (s : ToolOutputSettings) (inherited : ToolOutputDefaults)
  : ToolOutputSettings :=
  match set_legacy_defaults s with
  | Some defaults => {|
      set_schema_version := set_schema_version s; set_scope := set_scope s;
      set_overrides := from_defaults_with_parent defaults inherited;
      set_updated_at := set_updated_at s; set_updated_by := set_updated_by s;
      set_legacy_defaults := None |}
  | None => s
  end.

(** [ToolOutputSettings::apply_update] *)
Definition settings_apply_update (s : ToolOutputSettings) (actor : Actor)
  (update : ToolOutputOverrides) (reason : string) (inherited_defaults : ToolOutputDefaults)
  (updated_at : LedgerTimestamp)
  : result ToolOutputSettingsError (ToolOutputSettings * ToolOutputSettingsChange) :=
  reject? overrides_is_empty update with EmptyUpdate in
  reject? is_blank reason with MissingReason in
  let resolved := resolved_overrides s inherited_defaults in
  let old_defaults := apply_to resolved inherited_defaults in
  let? new_defaults := with_overrides old_defaults update in
  Ok ({| set_schema_version := set_schema_version s; set_scope := set_scope s;
         set_overrides := merge resolved update; set_updated_at := updated_at;
         set_updated_by := Some actor; set_legacy_defaults := None |},
      {| chg_schema_version := TOOL_OUTPUT_SETTINGS_SCHEMA_VERSION; chg_actor := actor;
         chg_scope := set_scope s; chg_old_defaults := old_defaults;
         chg_new_defaults := new_defaults; chg_reason := reason; chg_changed_at := updated_at |}).

(** ** The service *)

Record InMemoryToolOutputSettingsService := {
  svc_settings : list ToolOutputSettings;
  svc_changes : list ToolOutputSettingsChange
}.

Definition service_new (created_at : LedgerTimestamp) : InMemoryToolOutputSettingsService :=
  {| svc_settings := [settings_new workspace created_at]; svc_changes := [] |}.

Definition find_setting (l : list ToolOutputSettings) (scope : ToolOutputSettingsScope)
  : option ToolOutputSettings :=
  find_bool (λ s, bool_decide (set_scope s = scope)) l.

(** One step of the resolution loop. *)
Definition resolve_step (l : list ToolOutputSettings) (d : ToolOutputDefaults)
  (scope : ToolOutputSettingsScope) : ToolOutputDefaults :=
  match find_setting l scope with
  | Some candidate => apply_to (resolved_overrides candidate d) d
  | None => d
  end.

Definition resolve_defaults (svc : InMemoryToolOutputSettingsService)
  (scope : ToolOutputSettingsScope) : ToolOutputDefaults :=
  foldl (resolve_step (svc_settings svc)) defaults_default (resolution_chain scope).

(** The chain up to, and without, the scope itself. *)
Fixpoint take_until (scope : ToolOutputSettingsScope) (l : list ToolOutputSettingsScope)
  : list ToolOutputSettingsScope :=
  match l with
  | [] => []
  | s :: l => if bool_decide (s = scope) then [] else s :: take_until scope l
  end.

Definition resolve_parent_defaults_for (l : list ToolOutputSettings)
  (scope : ToolOutputSettingsScope) : ToolOutputDefaults :=
  foldl (resolve_step l) defaults_default (take_until scope (resolution_chain scope)).

(** [position(|candidate| candidate.scope == scope)]: the list around the first
    setting of the scope. *)
Fixpoint split_at_scope (l : list ToolOutputSettings) (scope : ToolOutputSettingsScope)
  : option (list ToolOutputSettings * ToolOutputSettings * list ToolOutputSettings) :=
  match l with
  | [] => None
  | s :: l =>
      if bool_decide (set_scope s = scope) then Some ([], s, l)
      else match split_at_scope l scope with
           | Some (before, found, after) => Some (s :: before, found, after)
           | None => None
           end
  end.

Definition apply_update (svc : InMemoryToolOutputSettingsService) (actor : Actor)
  (scope : ToolOutputSettingsScope) (update : ToolOutputOverrides) (reason : string)
  (updated_at : LedgerTimestamp)
  : result ToolOutputSettingsError (InMemoryToolOutputSettingsService * ToolOutputSettingsChange) :=
  let l := svc_settings svc in
  let inherited := resolve_parent_defaults_for l scope in
  let? '(l, change) :=
    match split_at_scope l scope with
    | Some (before, s, after) =>
        let? '(s, change) := settings_apply_update s actor update reason inherited updated_at in
        Ok (before ++ s :: after, change)
    | None =>
        let? '(s, change) :=
          settings_apply_update (settings_new scope updated_at) actor update reason inherited
            updated_at in
        Ok (l ++ [s], change)
    end in
  Ok ({| svc_settings := l; svc_changes := svc_changes svc ++ [change] |}, change).

(** [indices.sort_by_key(|idx| (depth, idx))]: the indices of depth 1, then those
    of depth 2, each in order. *)
Definition migration_order (l : list ToolOutputSettings) : list nat :=
  let at_depth d := List.filter (λ i, bool_decide (scope_migration_depth <$> (set_scope <$> l !! i) = Some d))
                      (seq 0 (length l)) in
  at_depth 1 ++ at_depth 2.

Definition migrate_at (l : list ToolOutputSettings) (idx : nat) : list ToolOutputSettings :=
  match l !! idx with
  | Some s => <[idx := apply_legacy_migration s (resolve_parent_defaults_for l (set_scope s))]> l
  | None => l
  end.

Definition migrate_legacy_settings (l : list ToolOutputSettings) : list ToolOutputSettings :=
  foldl migrate_at l (migration_order l).

(** The loop that looks for a repeated scope. *)
Fixpoint duplicate_scope (seen : list ToolOutputSettingsScope) (l : list ToolOutputSettings)
  : option ToolOutputSettingsScope :=
  match l with
  | [] => None
  | s :: l => if bool_decide (set_scope s ∈ seen) then Some (set_scope s)
              else duplicate_scope (seen ++ [set_scope s]) l
  end.

Definition new_with_settings (created_at : LedgerTimestamp) (settings : list ToolOutputSettings)
  : result ToolOutputSettingsError InMemoryToolOutputSettingsService :=
  match duplicate_scope [] settings with
  | Some scope => Err (DuplicateScope scope)
  | None =>
      let l := if existsb (λ s, bool_decide (set_scope s = workspace)) settings then settings
               else settings ++ [settings_new workspace created_at] in
      Ok {| svc_settings := migrate_legacy_settings l; svc_changes := [] |}
  end.

Definition new_with_defaults (created_at : LedgerTimestamp) (base_defaults : ToolOutputDefaults)
  : InMemoryToolOutputSettingsService := {|
  svc_settings := [{| set_schema_version := TOOL_OUTPUT_SETTINGS_SCHEMA_VERSION;
                      set_scope := workspace; set_overrides := from_defaults base_defaults;
                      set_updated_at := created_at; set_updated_by := None;
                      set_legacy_defaults := None |}];
  svc_changes := [] |}.

Definition resolve_render_options (svc : InMemoryToolOutputSettingsService)
  (scope : ToolOutputSettingsScope) : RenderOptions := def_render_options (resolve_defaults svc scope).

Definition resolve_defaults_with_overrides (svc : InMemoryToolOutputSettingsService)
  (scope : ToolOutputSettingsScope) (o : ToolOutputOverrides)
  : result ToolOutputSettingsError ToolOutputDefaults :=
  with_overrides (resolve_defaults svc scope) o.
