(* ===== verification/SettingsLaws.v ===== *)
(** * SettingsLaws: resolution of the tool-output defaults

    Resolved defaults always respect the size bounds, the change log records
    what was resolved before and after each update, and legacy settings keep
    their meaning where the migration order cannot interfere. *)
From S2P Require Import Prelude Text Domain StoreTypes Settings.

(** ** Overrides *)

Lemma default_differing {A} `{EqDecision A} (a b : A) : default b (differing a b) = a.
Proof. unfold differing. by case_bool_decide; simpl. Qed.

(** Overrides taken as a difference reproduce the base on the parent. *)
Lemma apply_from_defaults base inherited :
  apply_to (from_defaults_with_parent base inherited) inherited = base.
Proof.
  unfold apply_to, from_defaults_with_parent. simpl. rewrite !default_differing.
  by destruct base as [[] ? ? ? ? ?].
Qed.

Lemma default_or_else {A} (x : A) (o o' : option A) : default x (or_else o o') = default (default x o') o.
Proof. by destruct o. Qed.

Lemma apply_merge o u d : apply_to (merge o u) d = apply_to u (apply_to o d).
Proof. unfold apply_to, merge. simpl. by rewrite !default_or_else. Qed.

Lemma apply_overrides_default d : apply_to overrides_default d = d.
Proof. by destruct d as [[] ? ? ? ? ?]. Qed.

(** ** Bounds *)

Definition bytes_ok (n : N) : Prop := (MIN_MAX_INLINE_BYTES <= n <= MAX_MAX_INLINE_BYTES)%N.
Definition lines_ok (n : N) : Prop := (MIN_MAX_INLINE_LINES <= n <= MAX_MAX_INLINE_LINES)%N.
Definition defaults_ok (d : ToolOutputDefaults) : Prop :=
  bytes_ok (def_max_inline_bytes d) ∧ lines_ok (def_max_inline_lines d).
Definition overrides_ok (o : ToolOutputOverrides) : Prop :=
  (∀ n, ov_max_inline_bytes o = Some n → bytes_ok n) ∧
  (∀ n, ov_max_inline_lines o = Some n → lines_ok n).

Lemma defaults_validate_Ok d : defaults_validate d = Ok tt ↔ defaults_ok d.
Proof.
  unfold defaults_validate, defaults_ok, validate_inline_bytes, validate_inline_lines, bytes_ok, lines_ok.
  destruct ((_ <=? _) && (_ <=? _))%N eqn:H1; simpl.
  - destruct ((MIN_MAX_INLINE_LINES <=? _) && (_ <=? _))%N eqn:H2; simpl; split; try done; lia.
  - split; [done|lia].
Qed.

Lemma apply_to_ok o d : overrides_ok o → defaults_ok d → defaults_ok (apply_to o d).
Proof.
  intros [Hb Hl] [Hb' Hl']. split; simpl.
  - destruct (ov_max_inline_bytes o); simpl; eauto.
  - destruct (ov_max_inline_lines o); simpl; eauto.
Qed.

Lemma from_defaults_ok base inherited : defaults_ok base → overrides_ok (from_defaults_with_parent base inherited).
Proof.
  intros [Hb Hl]. split; intros n; simpl; unfold differing; case_bool_decide; try done; by intros [= <-].
Qed.

Lemma with_overrides_Ok d o d' :
  with_overrides d o = Ok d' ↔ d' = apply_to o d ∧ defaults_ok (apply_to o d).
Proof.
  unfold with_overrides. rewrite <- defaults_validate_Ok.
  destruct (defaults_validate (apply_to o d)) as [[]|]; split; try done.
  - by intros [= <-].
  - by intros [-> _].
  - by intros [_ ?].
Qed.

(** ** The resolution chain *)

Lemma resolution_chain_split scope :
  resolution_chain scope = take_until scope (resolution_chain scope) ++ [scope].
Proof.
  destruct scope as [lv [t|]]; unfold resolution_chain, push_unique, for_tool, workspace; simpl;
    repeat (case_bool_decide; simpl in *; simplify_eq; try done);
    exfalso; set_solver.
Qed.

(** ** Lookup of a scope *)

Lemma find_setting_split l scope :
  match split_at_scope l scope with
  | Some (before, s, after) =>
      l = before ++ s :: after ∧ set_scope s = scope ∧ find_setting l scope = Some s ∧
      Forall (λ s', set_scope s' ≠ scope) before
  | None => find_setting l scope = None ∧ Forall (λ s', set_scope s' ≠ scope) l
  end.
Proof.
  induction l as [|s l IH]; simpl; [done|]. unfold find_setting in *. simpl.
  case_bool_decide as Hs; [done|].
  destruct (split_at_scope l scope) as [[[before s'] after]|].
  - destruct IH as (-> & ? & ? & ?). by split_and!; [| | |constructor].
  - destruct IH as [? ?]. by split; [|constructor].
Qed.

Lemma find_setting_app_ne before s after x :
  set_scope s ≠ x → find_setting (before ++ s :: after) x = find_setting (before ++ after) x.
Proof.
  intros Hne. unfold find_setting, find_bool. induction before as [|y before IH]; simpl.
  - by rewrite bool_decide_eq_false_2.
  - by destruct (bool_decide _).
Qed.

Lemma find_setting_app_eq before s after :
  Forall (λ s', set_scope s' ≠ set_scope s) before →
  find_setting (before ++ s :: after) (set_scope s) = Some s.
Proof.
  unfold find_setting, find_bool. induction 1 as [|y before Hy _ IH]; simpl.
  - by rewrite bool_decide_eq_true_2.
  - by rewrite bool_decide_eq_false_2.
Qed.

Lemma find_setting_elem l x s : find_setting l x = Some s → s ∈ l ∧ set_scope s = x.
Proof. intros [? H%bool_decide_eq_true]%find_bool_Some. done. Qed.

(** Replacing the setting of one scope. *)
Lemma foldl_resolve_ext l l' d chain :
  (∀ x, x ∈ chain → find_setting l' x = find_setting l x) →
  foldl (resolve_step l') d chain = foldl (resolve_step l) d chain.
Proof.
  revert d. induction chain as [|x chain IH]; intros d Hx; simpl; [done|].
  unfold resolve_step at 2 4. rewrite (Hx x) by (by left). apply IH. intros y Hy. apply Hx. by right.
Qed.

Lemma take_until_not_elem scope l : scope ∉ take_until scope l.
Proof.
  induction l as [|x l IH]; simpl; [by apply not_elem_of_nil|].
  case_bool_decide; [by apply not_elem_of_nil|]. rewrite not_elem_of_cons. naive_solver.
Qed.

Lemma resolve_defaults_unfold svc scope :
  resolve_defaults svc scope =
  resolve_step (svc_settings svc) (resolve_parent_defaults_for (svc_settings svc) scope) scope.
Proof.
  unfold resolve_defaults, resolve_parent_defaults_for.
  rewrite resolution_chain_split at 1. by rewrite foldl_app.
Qed.

(** ** Updates *)

(** What a successful update does to the list of settings. *)
Lemma apply_update_Ok svc actor scope u reason t svc' change :
  apply_update svc actor scope u reason t = Ok (svc', change) →
  ∃ before s s' after,
    (svc_settings svc = before ++ s :: after ∨
     svc_settings svc = before ∧ after = [] ∧ s = settings_new scope t) ∧
    set_scope s = scope ∧ Forall (λ x, set_scope x ≠ scope) before ∧
    settings_apply_update s actor u reason (resolve_parent_defaults_for (svc_settings svc) scope) t
      = Ok (s', change) ∧
    svc_settings svc' = before ++ s' :: after ∧ svc_changes svc' = svc_changes svc ++ [change].
Proof.
  unfold apply_update. intros Hok. pose proof (find_setting_split (svc_settings svc) scope) as Hf.
  destruct (split_at_scope (svc_settings svc) scope) as [[[before s] after]|].
  - destruct Hf as (Hl & Hs & _ & Hb).
    destruct (settings_apply_update s _ _ _ _ _) as [[s' c]|] eqn:Hu; simplify_eq.
    exists before, s, s', after. split_and!; try done. by left.
  - destruct Hf as [_ Hb].
    destruct (settings_apply_update _ _ _ _ _ _) as [[s' c]|] eqn:Hu; simplify_eq.
    exists (svc_settings svc), (settings_new scope t), s', []. split_and!; try done. by right.
Qed.

Lemma settings_apply_update_Ok s actor u reason inherited t s' change :
  settings_apply_update s actor u reason inherited t = Ok (s', change) →
  set_scope s' = set_scope s ∧ set_legacy_defaults s' = None ∧
  set_overrides s' = merge (resolved_overrides s inherited) u ∧
  chg_old_defaults change = apply_to (resolved_overrides s inherited) inherited ∧
  chg_new_defaults change = apply_to u (chg_old_defaults change) ∧
  defaults_ok (chg_new_defaults change) ∧ chg_scope change = set_scope s ∧
  chg_actor change = actor ∧ chg_reason change = reason.
Proof.
  unfold settings_apply_update. intros Hok. do 3 step_ok Hok. injection Hok as <- <-.
  apply with_overrides_Ok in Hok0 as [-> Hv]. by split_and!.
Qed.

(** The parent of the scope does not see the update. *)
Lemma parent_defaults_update before s s' after scope :
  set_scope s = scope → set_scope s' = scope →
  resolve_parent_defaults_for (before ++ s' :: after) scope =
  resolve_parent_defaults_for (before ++ s :: after) scope.
Proof.
  intros Hs Hs'. unfold resolve_parent_defaults_for. apply foldl_resolve_ext. intros x Hx.
  assert (x ≠ scope). { intros ->. by apply take_until_not_elem in Hx. }
  rewrite !find_setting_app_ne by congruence. done.
Qed.

Lemma settings_new_transparent l scope t x d :
  Forall (λ y, set_scope y ≠ scope) l →
  resolve_step (l ++ [settings_new scope t]) d x = resolve_step l d x.
Proof.
  intros Hl. unfold resolve_step. destruct (decide (x = scope)) as [->|Hne].
  - pose proof (find_setting_app_eq l (settings_new scope t) [] Hl) as Hn. simpl in Hn. rewrite Hn.
    destruct (find_setting l scope) as [y|] eqn:Hy.
    + apply find_setting_elem in Hy as [Hin Hs]. rewrite Forall_forall in Hl. by destruct (Hl y Hin).
    + simpl. apply apply_overrides_default.
  - by rewrite find_setting_app_ne, app_nil_r.
Qed.

Lemma foldl_settings_new_transparent l scope t chain d :
  Forall (λ y, set_scope y ≠ scope) l →
  foldl (resolve_step (l ++ [settings_new scope t])) d chain = foldl (resolve_step l) d chain.
Proof.
  intros Hl. revert d. induction chain as [|x chain IH]; intros d; simpl; [done|].
  by rewrite settings_new_transparent, IH.
Qed.

(** The settings change log is truthful.  A successful update records as
    old and new defaults exactly what resolution gave for the scope before and
    gives after it, appends one entry, and changes no scope whose resolution
    chain does not pass through the updated one. *)
Theorem settings_changes_are_truthful svc actor scope u reason t svc' change :
  apply_update svc actor scope u reason t = Ok (svc', change) →
  chg_old_defaults change = resolve_defaults svc scope ∧
  chg_new_defaults change = resolve_defaults svc' scope ∧
  svc_changes svc' = svc_changes svc ++ [change] ∧
  ∀ other, scope ∉ resolution_chain other → resolve_defaults svc' other = resolve_defaults svc other.
Proof.
  intros (before & s & s' & after & Hl & Hs & Hb & Hu & Hl' & Hc)%apply_update_Ok.
  apply settings_apply_update_Ok in Hu as (Hs' & Hleg & Hov & Hold & Hnew & _).
  assert (∀ chain d, foldl (resolve_step (svc_settings svc)) d chain =
                     foldl (resolve_step (before ++ s :: after)) d chain) as Hsvc.
  { intros chain d. destruct Hl as [->|(Hl & -> & ->)]; [done|].
    rewrite Hl. by rewrite foldl_settings_new_transparent. }
  assert (resolve_parent_defaults_for (svc_settings svc) scope =
          resolve_parent_defaults_for (before ++ s :: after) scope) as Hpar.
  { unfold resolve_parent_defaults_for. apply Hsvc. }
  rewrite Hpar in *. split_and!; [| |done|].
  - rewrite Hold, resolve_defaults_unfold, Hpar.
    pose proof (Hsvc [scope] (resolve_parent_defaults_for (before ++ s :: after) scope)) as Hone.
    simpl in Hone. rewrite Hone. unfold resolve_step. subst scope.
    by rewrite find_setting_app_eq.
  - rewrite resolve_defaults_unfold, Hl', (parent_defaults_update before s s' after) by congruence.
    rewrite Hnew, Hold. unfold resolve_step. rewrite <- Hs, <- Hs'.
    rewrite find_setting_app_eq by (by rewrite Hs', Hs). unfold resolved_overrides at 2.
    by rewrite Hleg, Hov, apply_merge, Hs', Hs.
  - intros other Hno. unfold resolve_defaults. rewrite Hsvc, Hl'. apply foldl_resolve_ext.
    intros x Hx. rewrite !find_setting_app_ne; [done|congruence..].
Qed.

(** ** Bounds of every reachable service *)

Definition settings_ok (s : ToolOutputSettings) : Prop :=
  overrides_ok (set_overrides s) ∧ ∀ d, set_legacy_defaults s = Some d → defaults_ok d.

Lemma settings_new_ok scope t : settings_ok (settings_new scope t).
Proof. by split; [split|]. Qed.

Lemma resolved_overrides_ok s d : settings_ok s → overrides_ok (resolved_overrides s d).
Proof.
  intros [Ho Hl]. unfold resolved_overrides. destruct (set_legacy_defaults s); [|done].
  apply from_defaults_ok. by apply Hl.
Qed.

Lemma foldl_resolve_ok l d chain :
  Forall settings_ok l → defaults_ok d → defaults_ok (foldl (resolve_step l) d chain).
Proof.
  intros Hl. revert d. induction chain as [|x chain IH]; intros d Hd; simpl; [done|].
  apply IH. unfold resolve_step. destruct (find_setting l x) as [s|] eqn:Hs; [|done].
  apply find_setting_elem in Hs as [Hin _]. rewrite Forall_forall in Hl.
  apply apply_to_ok; [|done]. by apply resolved_overrides_ok, Hl.
Qed.

Lemma defaults_default_ok : defaults_ok defaults_default.
Proof. by apply defaults_validate_Ok. Qed.

Lemma merge_ok o u d :
  overrides_ok o → defaults_ok (apply_to u d) → overrides_ok (merge o u).
Proof.
  intros [Hb Hl] [Hb' Hl']. simpl in *. split; simpl; intros n.
  - destruct (ov_max_inline_bytes u); simpl in *; [by intros [= <-]|apply Hb].
  - destruct (ov_max_inline_lines u); simpl in *; [by intros [= <-]|apply Hl].
Qed.

Lemma apply_update_ok svc actor scope u reason t svc' change :
  Forall settings_ok (svc_settings svc) →
  apply_update svc actor scope u reason t = Ok (svc', change) →
  Forall settings_ok (svc_settings svc').
Proof.
  intros Hok (before & s & s' & after & Hl & Hs & Hb & Hu & -> & _)%apply_update_Ok.
  apply settings_apply_update_Ok in Hu as (_ & Hleg & Hov & _ & Hnew & Hv & _).
  assert (settings_ok s ∧ Forall settings_ok before ∧ Forall settings_ok after) as (Hsok & Hbok & Haok).
  { destruct Hl as [Hl|(Hl & -> & ->)].
    - rewrite Hl, Forall_app, Forall_cons in Hok. tauto.
    - rewrite Hl in Hok. split_and!; [apply settings_new_ok|done|constructor]. }
  apply Forall_app. split; [done|]. constructor; [|done]. split; [|by rewrite Hleg].
  rewrite Hov. rewrite Hnew in Hv. eapply merge_ok; [|done]. by apply resolved_overrides_ok.
Qed.

Lemma migrate_at_ok l i : Forall settings_ok l → Forall settings_ok (migrate_at l i).
Proof.
  intros Hl. unfold migrate_at. destruct (l !! i) as [s|] eqn:Hi; [|done].
  apply Forall_insert; [done|]. pose proof (Forall_lookup_1 _ _ _ _ Hl Hi) as [Ho Hd].
  unfold apply_legacy_migration. destruct (set_legacy_defaults s) as [d|] eqn:Hleg.
  - split; [|done]. simpl. by apply from_defaults_ok, Hd.
  - split; [done|]. intros d Hd'. congruence.
Qed.

Lemma migrate_legacy_settings_ok l : Forall settings_ok l → Forall settings_ok (migrate_legacy_settings l).
Proof.
  unfold migrate_legacy_settings. generalize (migration_order l) as order. intros order. revert l.
  induction order as [|i order IH]; intros l Hl; simpl; [done|]. by apply IH, migrate_at_ok.
Qed.

(** Services built by the public constructors from valid data, then updated. *)
Inductive service_reachable : InMemoryToolOutputSettingsService → Prop :=
  | sr_new t : service_reachable (service_new t)
  | sr_defaults t d : defaults_validate d = Ok tt → service_reachable (new_with_defaults t d)
  | sr_settings t l svc :
      Forall settings_ok l → new_with_settings t l = Ok svc → service_reachable svc
  | sr_update svc actor scope u reason t svc' change :
      service_reachable svc → apply_update svc actor scope u reason t = Ok (svc', change) →
      service_reachable svc'.

Lemma service_reachable_ok svc : service_reachable svc → Forall settings_ok (svc_settings svc).
Proof.
  induction 1 as [t|t d Hd|t l svc Hl Hnew|].
  - constructor; [apply settings_new_ok|constructor].
  - constructor; [|constructor]. split; [|done]. apply from_defaults_ok. by apply defaults_validate_Ok.
  - unfold new_with_settings in Hnew. destruct (duplicate_scope [] l); [done|].
    injection Hnew as <-. simpl. apply migrate_legacy_settings_ok.
    destruct (existsb _ l); [done|]. apply Forall_app. split; [done|].
    constructor; [apply settings_new_ok|constructor].
  - eauto using apply_update_ok.
Qed.

(** Whatever updates were made at whatever scopes, the resolved defaults
    of every scope stay within the supported size limits, so the byte and line
    budgets handed to the renderer are always valid. *)
Theorem resolved_defaults_in_bounds svc scope :
  service_reachable svc →
  defaults_validate (resolve_defaults svc scope) = Ok tt ∧
  rpol_max_inline_bytes (render_policy (resolve_defaults svc scope))
    = Some (def_max_inline_bytes (resolve_defaults svc scope)) ∧
  (256 <= def_max_inline_bytes (resolve_defaults svc scope) <= 1048576)%N ∧
  (1 <= def_max_inline_lines (resolve_defaults svc scope) <= 10000)%N.
Proof.
  intros Hok%service_reachable_ok. split; [|split; [done|]].
  - apply defaults_validate_Ok. by apply foldl_resolve_ok; [|apply defaults_default_ok].
  - exact (foldl_resolve_ok (svc_settings svc) defaults_default (resolution_chain scope) Hok
             defaults_default_ok).
Qed.

(** ** Legacy settings *)

(** A legacy setting means the same before and after its migration, for a
    resolution that reaches it with the defaults it was migrated against. *)
Lemma migrated_resolves_same s d :
  apply_to (resolved_overrides (apply_legacy_migration s d) d) d = apply_to (resolved_overrides s d) d.
Proof.
  unfold apply_legacy_migration, resolved_overrides.
  destruct (set_legacy_defaults s) eqn:Hs; [done|]. by rewrite Hs.
Qed.

(** Scopes whose only parent is the workspace. *)
Definition simple_scope (s : ToolOutputSettingsScope) : Prop :=
  scope_tool_id s = None ∨ scope_level s = LvWorkspace.

Lemma simple_chain scope :
  simple_scope scope → resolution_chain scope = if bool_decide (scope = workspace) then [workspace]
                                                else [workspace; scope].
Proof.
  destruct scope as [lv [t|]]; intros Hs.
  - destruct Hs as [Hs|Hs]; simpl in Hs; [done|subst lv].
    unfold resolution_chain, push_unique, for_tool, workspace. simpl.
    repeat (case_bool_decide; simpl in *; simplify_eq; try done); set_solver.
  - unfold resolution_chain, push_unique, workspace. simpl.
    repeat (case_bool_decide; simpl in *; simplify_eq; try done); set_solver.
Qed.

Lemma resolve_simple l scope :
  simple_scope scope →
  foldl (resolve_step l) defaults_default (resolution_chain scope) =
  resolve_step l (resolve_parent_defaults_for l scope) scope ∧
  resolve_parent_defaults_for l scope =
    if bool_decide (scope = workspace) then defaults_default
    else resolve_step l defaults_default workspace.
Proof.
  intros Hs. unfold resolve_parent_defaults_for. rewrite (simple_chain _ Hs).
  case_bool_decide as Hw; simpl.
  - subst. by rewrite bool_decide_eq_true_2.
  - rewrite bool_decide_eq_false_2 by congruence. by rewrite bool_decide_eq_true_2.
Qed.

Lemma find_setting_NoDup l i s :
  NoDup (set_scope <$> l) → l !! i = Some s → find_setting l (set_scope s) = Some s.
Proof.
  intros Hnd Hi. destruct (find_setting l (set_scope s)) as [s'|] eqn:Hf.
  - apply find_setting_elem in Hf as [(i' & Hi')%list_elem_of_lookup Hs].
    assert (i' = i) as ->; [|congruence].
    eapply (NoDup_lookup (set_scope <$> l)); [done| |]; rewrite list_lookup_fmap.
    + by rewrite Hi'.
    + rewrite Hi. simpl. congruence.
  - eapply find_bool_None in Hf; [|eapply list_elem_of_lookup_2, Hi].
    by apply bool_decide_eq_false in Hf.
Qed.

Lemma migrate_at_scopes l i : set_scope <$> migrate_at l i = set_scope <$> l.
Proof.
  unfold migrate_at. destruct (l !! i) as [s|] eqn:Hi; [|done]. rewrite list_fmap_insert.
  apply list_insert_id. rewrite list_lookup_fmap, Hi. simpl. f_equal.
  unfold apply_legacy_migration. by destruct (set_legacy_defaults s).
Qed.

Lemma find_setting_migrate_at l i s x :
  NoDup (set_scope <$> l) → l !! i = Some s →
  find_setting (migrate_at l i) x =
  if bool_decide (x = set_scope s)
  then Some (apply_legacy_migration s (resolve_parent_defaults_for l (set_scope s)))
  else find_setting l x.
Proof.
  intros Hnd Hi. set (m := apply_legacy_migration s _).
  assert (set_scope m = set_scope s) as Hm.
  { unfold m, apply_legacy_migration. by destruct (set_legacy_defaults s). }
  case_bool_decide as Hx.
  - subst x. rewrite <- Hm. apply (find_setting_NoDup _ i); [by rewrite migrate_at_scopes|].
    unfold migrate_at. rewrite Hi. apply list_lookup_insert_eq. by eapply lookup_lt_Some.
  - unfold migrate_at. rewrite Hi. fold m. rewrite insert_take_drop by (by eapply lookup_lt_Some).
    rewrite find_setting_app_ne by congruence.
    rewrite <- (take_drop_middle l i s Hi) at 3. by rewrite find_setting_app_ne.
Qed.

Lemma resolve_migrate_at l i scope :
  NoDup (set_scope <$> l) → simple_scope scope →
  foldl (resolve_step (migrate_at l i)) defaults_default (resolution_chain scope) =
  foldl (resolve_step l) defaults_default (resolution_chain scope).
Proof.
  intros Hnd Hs. destruct (l !! i) as [s|] eqn:Hi; [|by unfold migrate_at; rewrite Hi].
  assert (∀ x, simple_scope x →
    resolve_step (migrate_at l i) (resolve_parent_defaults_for l x) x =
    resolve_step l (resolve_parent_defaults_for l x) x) as Hstep.
  { intros x Hx. unfold resolve_step. rewrite (find_setting_migrate_at l i s) by done.
    case_bool_decide as Hxs; [|done]. subst x.
    rewrite migrated_resolves_same. by rewrite (find_setting_NoDup l i s). }
  assert (resolve_step (migrate_at l i) defaults_default workspace =
          resolve_step l defaults_default workspace) as Hws.
  { assert (simple_scope workspace) as Hsw by (by left). specialize (Hstep workspace Hsw).
    destruct (resolve_simple l workspace Hsw) as [_ Hp]. rewrite bool_decide_eq_true_2 in Hp by done.
    by rewrite Hp in Hstep. }
  destruct (resolve_simple (migrate_at l i) scope Hs) as [-> Hp'].
  destruct (resolve_simple l scope Hs) as [-> Hp]. rewrite Hp', Hws, <- Hp. by apply Hstep.
Qed.

Lemma duplicate_scope_NoDup seen l :
  NoDup seen → duplicate_scope seen l = None → NoDup (seen ++ (set_scope <$> l)).
Proof.
  revert seen. induction l as [|s l IH]; intros seen Hnd Hd; simpl in *; [by rewrite app_nil_r|].
  case_bool_decide as Hin; [done|].
  rewrite cons_middle, app_assoc. apply IH; [|done]. apply NoDup_app. split_and!; [done| |].
  - intros x Hx ->%list_elem_of_singleton. done.
  - apply NoDup_singleton.
Qed.

(** Migrating legacy settings keeps their meaning: every legacy setting of
    a scope without a tool, or of the workspace for a tool, resolves after the
    migration to exactly the defaults it stored. *)
Theorem legacy_migration_preserves_defaults t l svc s d :
  new_with_settings t l = Ok svc → s ∈ l → set_legacy_defaults s = Some d →
  simple_scope (set_scope s) → resolve_defaults svc (set_scope s) = d.
Proof.
  unfold new_with_settings. intros Hnew Hin Hleg Hs.
  destruct (duplicate_scope [] l) eqn:Hdup; [done|]. injection Hnew as <-.
  set (l' := if existsb _ l then l else _).
  assert (NoDup (set_scope <$> l') ∧ s ∈ l') as [Hnd Hin'].
  { apply (duplicate_scope_NoDup []) in Hdup; [|constructor]. simpl in Hdup. unfold l'.
    destruct (existsb _ l) eqn:He; [done|]. rewrite fmap_app. split; [|set_solver].
    apply NoDup_app. split_and!; [done| |apply NoDup_singleton].
    intros x (y & -> & Hy)%list_elem_of_fmap Hx%list_elem_of_singleton. simpl in Hx.
    assert (existsb (λ s, bool_decide (set_scope s = workspace)) l = true) as Ht; [|congruence].
    apply existsb_exists. exists y. split; [by apply list_elem_of_In|]. by apply bool_decide_eq_true. }
  assert (foldl (resolve_step (migrate_legacy_settings l')) defaults_default (resolution_chain (set_scope s))
    = foldl (resolve_step l') defaults_default (resolution_chain (set_scope s))) as Hmig.
  { unfold migrate_legacy_settings. generalize (migration_order l') as order. intros order.
    clear Hin'. revert Hnd. generalize l' as k.
    induction order as [|i order IH]; intros k Hk; simpl; [done|].
    rewrite IH by (by rewrite migrate_at_scopes). by apply resolve_migrate_at. }
  unfold resolve_defaults. simpl. rewrite Hmig.
  destruct (resolve_simple l' (set_scope s) Hs) as [-> _]. unfold resolve_step.
  apply list_elem_of_lookup in Hin' as [i Hi]. rewrite (find_setting_NoDup l' i s) by done.
  unfold resolved_overrides. rewrite Hleg. apply apply_from_defaults.
Qed.

(** ** Where the order of migration shows *)

Module SettingsDemo.
Definition with_lines (d : ToolOutputDefaults) (n : N) : ToolOutputDefaults := {|
  def_render_options := def_render_options d; def_max_inline_bytes := def_max_inline_bytes d;
  def_max_inline_lines := n; def_verbosity := def_verbosity d;
  def_granularity := def_granularity d; def_oversize_policy := def_oversize_policy d |}.

Definition legacy_setting (scope : ToolOutputSettingsScope) (n : N) : ToolOutputSettings := {|
  set_schema_version := 1; set_scope := scope; set_overrides := overrides_default;
  set_updated_at := 0; set_updated_by := None;
  set_legacy_defaults := Some (with_lines defaults_default n) |}.

Definition demo_repo_scope : ToolOutputSettingsScope :=
  {| scope_level := LvRepository (MkId "repo_1"); scope_tool_id := None |}.
Definition demo_repo_tool : ToolOutputSettingsScope := for_tool demo_repo_scope "fs.search".
Definition demo_workspace_tool : ToolOutputSettingsScope := for_tool workspace "fs.search".

Definition resolved_lines (r : result ToolOutputSettingsError InMemoryToolOutputSettingsService)
  (scope : ToolOutputSettingsScope) : option N :=
  match r with
  | Ok svc => Some (def_max_inline_lines (resolve_defaults svc scope))
  | Err _ => None
  end.

(** The migration depends on the order of the stored settings for tool
    scopes below the workspace.  Both tool scopes get the same migration depth,
    although the workspace's tool scope is a parent of the repository's: with the
    repository's setting first, a legacy limit of 200 lines resolves to the
    repository's 50; with the workspace's first, to 200. *)
Theorem legacy_migration_order_dependent :
  let repo := legacy_setting demo_repo_scope 50 in
  let repo_tool := legacy_setting demo_repo_tool 200 in
  let workspace_tool := legacy_setting demo_workspace_tool 200 in
  resolved_lines (new_with_settings 0 [repo_tool; workspace_tool; repo]) demo_repo_tool = Some 50%N ∧
  resolved_lines (new_with_settings 0 [workspace_tool; repo_tool; repo]) demo_repo_tool = Some 200%N.
Proof. vm_compute. split; reflexivity. Qed.

Lemma legacy_migration_preserves_defaults_witness :
  ∃ svc, new_with_settings 0 [legacy_setting demo_repo_scope 50] = Ok svc ∧
    def_max_inline_lines (resolve_defaults svc demo_repo_scope) = 50%N.
Proof.
  eexists. split; [reflexivity|].
  rewrite (legacy_migration_preserves_defaults 0 [legacy_setting demo_repo_scope 50] _
             (legacy_setting demo_repo_scope 50) (with_lines defaults_default 50)).
  - reflexivity.
  - reflexivity.
  - left.
  - reflexivity.
  - left. reflexivity.
Defined.

Definition demo_update : ToolOutputOverrides := {|
  ov_format := None; ov_include_policy := None; ov_include_diagnostics := None;
  ov_include_cost := None; ov_max_inline_bytes := Some 256%N; ov_max_inline_lines := None;
  ov_verbosity := None; ov_granularity := None; ov_oversize_policy := None |}.
Definition demo_updated : InMemoryToolOutputSettingsService * ToolOutputSettingsChange :=
  match apply_update (service_new 0) (System "s") demo_repo_scope demo_update "smaller" 5 with
  | Ok r => r
  | Err _ => (service_new 0, {| chg_schema_version := 0; chg_actor := System "s";
      chg_scope := workspace; chg_old_defaults := defaults_default;
      chg_new_defaults := defaults_default; chg_reason := ""; chg_changed_at := 0 |})
  end.

Lemma settings_changes_are_truthful_witness :
  chg_old_defaults (demo_updated.2) = defaults_default ∧
  def_max_inline_bytes (resolve_defaults demo_updated.1 demo_repo_tool) = 256%N ∧
  resolve_defaults demo_updated.1 workspace = defaults_default.
Proof.
  destruct (settings_changes_are_truthful (service_new 0) (System "s") demo_repo_scope demo_update
              "smaller" 5 demo_updated.1 demo_updated.2) as (Hold & _ & _ & Hother).
  - reflexivity.
  - split; [rewrite Hold; reflexivity|]. split; [reflexivity|].
    rewrite Hother; [reflexivity|]. apply (bool_decide_eq_true_1 _). reflexivity.
Defined.

Lemma resolved_defaults_in_bounds_witness :
  (256 <= def_max_inline_bytes (resolve_defaults demo_updated.1 demo_repo_tool) <= 1048576)%N.
Proof.
  apply (resolved_defaults_in_bounds demo_updated.1 demo_repo_tool).
  apply (sr_update (service_new 0) (System "s") demo_repo_scope demo_update "smaller" 5
           demo_updated.1 demo_updated.2); [apply sr_new|reflexivity].
Defined.
End SettingsDemo.
