(* ===== verification/Truncation.v ===== *)
(** * Truncation: the cutting of long output in [runtime.rs], and characters, numbers and lines as text *)
From S2P Require Import Prelude Text Domain StoreTypes Settings.

(** * Output size limits of the runtime ([runtime.rs])

    Strings are UTF-8: a sequence of characters, each a leading byte followed by
    the number of continuation bytes the leading byte announces. *)

(** ** Characters *)

(** A byte that may start a character ([is_char_boundary] looks at this). *)
Definition is_lead (c : ascii) : bool := negb ((128 <=? code c) && (code c <? 192))%N.

(** [char::len_utf8] of the character a leading byte starts. *)
Definition len_utf8 (c : ascii) : nat :=
  if (code c <? 128)%N then 1
  else if (code c <? 224)%N then 2
  else if (code c <? 240)%N then 3
  else 4.

(** [str::is_char_boundary] *)
Definition is_char_boundary (l : bytes) (i : nat) : bool :=
  (i =? 0) || (i =? length l) || match l !! i with Some c => is_lead c | None => false end.

(** The [while] loop that walks back to a boundary. *)
Fixpoint back_to_boundary (l : bytes) (end_ : nat) : nat :=
  match end_ with
  | O => O
  | S e => if is_char_boundary l end_ then end_ else back_to_boundary l e
  end.

Definition truncate_string_value (value : string) (max_inline_bytes : N) : option string :=
  let l := to_bytes value in
  if (N.of_nat (length l) <=? max_inline_bytes)%N then None
  else Some (of_bytes (take (back_to_boundary l (N.to_nat max_inline_bytes)) l)).

(** The [chars] loop of [truncate_string_list]: the end of the last character
    that fits.  Each round consumes a character, so the length of the rest is
    fuel enough. *)
Fixpoint chars_end (fuel : nat) (rest : bytes) (offset remaining : nat) : nat :=
  match fuel with
  | O => offset
  | S fuel =>
      match rest with
      | [] => offset
      | c :: _ =>
          let next := offset + len_utf8 c in
          if remaining <? next then offset
          else chars_end fuel (drop (len_utf8 c) rest) next remaining
      end
  end.

Definition truncation_end (value : bytes) (remaining : nat) : nat :=
  chars_end (length value) value 0 remaining.

(** ** Lists of strings *)

(** The loop over the values: [index] counts them, [kept] is what was kept. *)
Fixpoint truncate_list_loop (values : list string) (index : nat) (max_inline_bytes : N)
  (kept : list string) (kept_bytes : N) : list string * N :=
  match values with
  | [] => (kept, kept_bytes)
  | value :: values =>
      let separator := (if (0 <? index)%nat then 1 else 0)%N in
      let remaining := saturating_sub max_inline_bytes (saturating_add_u64 kept_bytes separator) in
      if (remaining =? 0)%N then (kept, kept_bytes)
      else
        let l := to_bytes value in
        if (N.of_nat (length l) <=? remaining)%N then
          truncate_list_loop values (S index) max_inline_bytes (kept ++ [value])
            (kept_bytes + (separator + N.of_nat (length l)))%N
        else
          let e := truncation_end l (N.to_nat remaining) in
          if (0 <? e)%nat then (kept ++ [of_bytes (take e l)], (kept_bytes + (separator + N.of_nat e))%N)
          else (kept, kept_bytes)
  end.

Definition truncate_string_list (values : list string) (max_inline_bytes : N) : list string * N :=
  truncate_list_loop values 0 max_inline_bytes [] 0.

Definition string_bytes (s : string) : N := N.of_nat (length (to_bytes s)).

Fixpoint string_list_byte_len_from (values : list string) (bytes : N) : N :=
  match values with
  | [] => bytes
  | value :: values =>
      let bytes := saturating_add_u64 bytes (string_bytes value) in
      let bytes := match values with [] => bytes | _ => saturating_add_u64 bytes 1 end in
      string_list_byte_len_from values bytes
  end.
Definition string_list_byte_len (values : list string) : N := string_list_byte_len_from values 0.

(** ** Fields *)

Definition field_bytes (value : StructuredValue) : option N :=
  match value with
  | SvString value => Some (string_bytes value)
  | SvStringList values => Some (string_list_byte_len values)
  | SvNull | SvBool _ | SvInteger _ => None
  end.

Definition oversized_field_bytes (field : ToolResultField) (max_inline_bytes : N) : option N :=
  match field_bytes (field_value field) with
  | Some bytes => if (max_inline_bytes <? bytes)%N then Some bytes else None
  | None => None
  end.

Record ToolResultTruncationReport := {
  rep_fields : nat;
  rep_original_bytes : N;
  rep_retained_bytes : N
}.

(** The replacement of an oversized value and the bytes it retains. *)
Definition truncated_value (value : StructuredValue) (max_inline_bytes : N)
  : option (StructuredValue * N) :=
  match value with
  | SvString value =>
      match truncate_string_value value max_inline_bytes with
      | Some truncated => Some (SvString truncated, string_bytes truncated)
      | None => None
      end
  | SvStringList values =>
      let '(truncated, retained) := truncate_string_list values max_inline_bytes in
      Some (SvStringList truncated, retained)
  | SvNull | SvBool _ | SvInteger _ => None
  end.

(** One round of the loop over the fields. *)
Definition truncate_field (max_inline_bytes : N)
  (acc : list ToolResultField * ToolResultTruncationReport) (field : ToolResultField)
  : list ToolResultField * ToolResultTruncationReport :=
  let '(done, report) := acc in
  match oversized_field_bytes field max_inline_bytes with
  | None => (done ++ [field], report)
  | Some original_bytes =>
      match truncated_value (field_value field) max_inline_bytes with
      | None => (done ++ [field], report)
      | Some (value, retained_bytes) =>
          (done ++ [{| field_key := field_key field; field_value := value |}],
           {| rep_fields := S (rep_fields report);
              rep_original_bytes := saturating_add_u64 (rep_original_bytes report) original_bytes;
              rep_retained_bytes := saturating_add_u64 (rep_retained_bytes report) retained_bytes |})
      end
  end.

Definition res_set_fields (r : ToolResult) (fields : list ToolResultField) : ToolResult := {|
  res_id := res_id r; res_schema_version := res_schema_version r;
  res_created_at := res_created_at r; res_invocation_id := res_invocation_id r;
  res_tool_id := res_tool_id r; res_status := res_status r; res_schema_ref := res_schema_ref r;
  res_fields := fields; res_evidence_refs := res_evidence_refs r;
  res_output_refs := res_output_refs r; res_truncation := res_truncation r;
  res_redactions := res_redactions r |}.
Definition res_set_truncation (r : ToolResult) (t : option TruncationMetadata) : ToolResult := {|
  res_id := res_id r; res_schema_version := res_schema_version r;
  res_created_at := res_created_at r; res_invocation_id := res_invocation_id r;
  res_tool_id := res_tool_id r; res_status := res_status r; res_schema_ref := res_schema_ref r;
  res_fields := res_fields r; res_evidence_refs := res_evidence_refs r;
  res_output_refs := res_output_refs r; res_truncation := t; res_redactions := res_redactions r |}.

Definition truncate_oversized_tool_result_fields (result : ToolResult) (max_inline_bytes : N)
  : ToolResult * option ToolResultTruncationReport :=
  let '(fields, report) :=
    foldl (truncate_field max_inline_bytes)
      ([], {| rep_fields := 0; rep_original_bytes := 0; rep_retained_bytes := 0 |})
      (res_fields result) in
  (res_set_fields result fields, if (rep_fields report =? 0)%nat then None else Some report).

Definition merge_runtime_truncation (existing : option TruncationMetadata)
  (original_bytes retained_bytes : N) (reason : string) : TruncationMetadata :=
  match existing with
  | Some existing => {|
      trunc_original_bytes := saturating_add_u64 (trunc_original_bytes existing) original_bytes;
      trunc_retained_bytes := saturating_add_u64 (trunc_retained_bytes existing) retained_bytes;
      trunc_reason := trunc_reason existing +:+ "; " +:+ reason |}
  | None => {| trunc_original_bytes := original_bytes; trunc_retained_bytes := retained_bytes;
               trunc_reason := reason |}
  end.

(** The oversized fields with their sizes, as the message of the source lists
    them; [None] when there is none. *)
Definition oversized_fields (result : ToolResult) (max_inline_bytes : N) : list (string * N) :=
  omap (λ field, (λ size, (field_key field, size)) <$> oversized_field_bytes field max_inline_bytes)
    (res_fields result).

(** [usize::try_from(u64)] on 64-bit targets is the identity. *)
Definition max_inline_bytes_as_usize (max_inline_bytes : N) : N :=
  if (max_inline_bytes <=? usize_max)%N then max_inline_bytes else usize_max.

Definition reject_oversized_tool_result (result : ToolResult) (defaults : ToolOutputDefaults)
  : option Message :=
  match oversized_fields result (max_inline_bytes_as_usize (def_max_inline_bytes defaults)) with
  | [] => None
  | details =>
      Some (Fmt "tool output field(s) exceed max_inline_bytes={} with configured policy reject_oversize: {}"
        (ANum (Z.of_N (def_max_inline_bytes defaults)) ::
         concat (map (λ '(key, size), [AStr key; ANum (Z.of_N size)]) details)))
  end.

(** * Characters of a string, numbers as text, lines

    The parts of Rust's [char], [str] and number parsing the renderers of
    [tool_output.rs] use.  A character is the list of its UTF-8 bytes. *)

(** ** [str::chars] *)

(** Each round takes the bytes its leading byte announces, so the length of the
    string is fuel enough. *)
Fixpoint chars_from (fuel : nat) (l : bytes) : list bytes :=
  match fuel with
  | O => []
  | S fuel =>
      match l with
      | [] => []
      | c :: _ => take (len_utf8 c) l :: chars_from fuel (drop (len_utf8 c) l)
      end
  end.
Definition chars (s : string) : list bytes := chars_from (length (to_bytes s)) (to_bytes s).

(** [char as u32] *)
Definition char_u32 (ch : bytes) : N :=
  match ch with
  | [a] => code a
  | [a; b] => (code a - 192) * 64 + (code b - 128)
  | [a; b; c] => ((code a - 224) * 64 + (code b - 128)) * 64 + (code c - 128)
  | [a; b; c; d] =>
      (((code a - 240) * 64 + (code b - 128)) * 64 + (code c - 128)) * 64 + (code d - 128)
  | _ => 0
  end%N.

(** [char::is_control]: the Unicode category Cc. *)
Definition is_control (ch : bytes) : bool :=
  match ch with
  | [a] => ((code a <? 32) || (code a =? 127))%N
  | [a; b] => ((code a =? 194) && (128 <=? code b) && (code b <? 160))%N
  | _ => false
  end.
(** [char::is_whitespace] *)
Definition is_whitespace (ch : bytes) : bool := negb (ws_head ch =? 0)%nat.

(** ** Numbers *)

(** [{:x}] of a [u32], which has at most eight digits. *)
Definition hex_digit (n : N) : ascii := if (n <? 10)%N then digit n else ascii_of_N (87 + n).
Fixpoint hex_digits (fuel : nat) (n : N) (acc : bytes) : bytes :=
  match fuel with
  | O => acc
  | S fuel =>
      let acc := hex_digit (n mod 16) :: acc in
      if (n <? 16)%N then acc else hex_digits fuel (n / 16) acc
  end.
Definition hex_u32 (n : N) : bytes := hex_digits 8 n [].

Definition minus_sign : ascii := "-".

(** [i64::to_string] *)
Definition i64_to_string (z : Z) : string :=
  if (z <? 0)%Z then String minus_sign (usize_to_string (Z.abs_N z)) else usize_to_string (Z.to_N z).

Definition digits_value (l : bytes) : N := fst (fst (read_digits 10 l 0 0)).
Definition all_digits (l : bytes) : bool := negb (bool_decide (l = [])) && forallb is_ascii_digit l.

(** The optional sign of a number: whether it is negative, and the rest. *)
Definition split_sign (l : bytes) : bool * bytes :=
  match l with
  | c :: rest =>
      if bool_decide (c = minus_sign) then (true, rest)
      else if bool_decide (c = plus_sign) then (false, rest) else (false, l)
  | [] => (false, [])
  end.

(** [str::parse::<i64>]: an optional sign, then at least one digit, in range. *)
Definition parse_i64 (s : string) : option Z :=
  let '(negative, digits) := split_sign (to_bytes s) in
  if all_digits digits then
    let value := Z.of_N (digits_value digits) in
    let value := (if negative then - value else value)%Z in
    if ((i64_min <=? value) && (value <=? i64_max))%Z then Some value else None
  else None.

(** [str::parse::<f64>().is_ok()]: an optional sign, then [inf], [infinity] or
    [nan] in any case, or digits with at most one point and at least one digit,
    and an optional exponent. *)
Definition point : ascii := ".".
Definition is_exponent_sign (c : ascii) : bool :=
  bool_decide (c = "e"%char) || bool_decide (c = "E"%char).
Fixpoint skip_digits (l : bytes) : nat * bytes :=
  match l with
  | c :: rest => if is_ascii_digit c then let '(n, r) := skip_digits rest in (S n, r) else (O, l)
  | [] => (O, [])
  end.
Definition exponent_ok (l : bytes) : bool :=
  match l with
  | [] => true
  | c :: rest => is_exponent_sign c && all_digits (snd (split_sign rest))
  end.
Definition number_ok (l : bytes) : bool :=
  let '(whole, rest) := skip_digits l in
  match rest with
  | c :: after =>
      if bool_decide (c = point) then
        let '(fraction, rest) := skip_digits after in
        (0 <? whole + fraction)%nat && exponent_ok rest
      else (0 <? whole)%nat && exponent_ok rest
  | [] => (0 <? whole)%nat
  end.
Definition parses_as_f64 (s : string) : bool :=
  let '(_, rest) := split_sign (to_bytes s) in
  str_in (to_ascii_lowercase (of_bytes rest)) ["inf"; "infinity"; "nan"] || number_ok rest.

(** ** Suffixes and lines *)

(** [str::ends_with] *)
Definition ends_with (suffix s : string) : bool :=
  list_prefixb (rev (to_bytes suffix)) (rev (to_bytes s)).

Definition line_feed : ascii := ascii_of_N 10.
Definition carriage_return : ascii := ascii_of_N 13.

(** [str::lines().count()]: pieces between line feeds, without an empty last
    one. *)
Definition lines_count (s : string) : nat :=
  let pieces := split_bytes [line_feed] (to_bytes s) [] in
  match last pieces with
  | Some [] => pred (length pieces)
  | _ => length pieces
  end.

(** [[T]::join(separator)] *)
Definition join (separator : string) (l : list string) : string := String.concat separator l.

Example f64_samples :
  map parses_as_f64 ["1"; "+1."; ".5"; "1e9"; "-1.5E-3"; "NaN"; "-Infinity"; ""; "."; "e5"; "1e"; "0x1"; "infin"]
  = [true; true; true; true; true; true; true; false; false; false; false; false; false].
Proof. reflexivity. Qed.

Example i64_samples :
  map parse_i64 ["9223372036854775807"; "9223372036854775808"; "-9223372036854775808"; "+7"; "-"; "1_0"]
  = [Some i64_max; None; Some i64_min; Some 7%Z; None; None].
Proof. reflexivity. Qed.
