(* ===== verification/TruncationLaws.v ===== *)
(** * TruncationLaws: what the output size limits guarantee

    A valid string is a sequence of characters; cutting one keeps the longest
    run of whole characters that fits, whichever of the two loops of the source
    does it, and after truncation no field is oversized. *)
From S2P Require Import Prelude Text Domain StoreTypes Settings Truncation.

(** ** Valid strings *)

Inductive utf8 : bytes → Prop :=
| utf8_nil : utf8 []
| utf8_char c conts rest :
    is_lead c = true →
    S (length conts) = len_utf8 c →
    Forall (λ b, is_lead b = false) conts →
    utf8 rest →
    utf8 (c :: conts ++ rest).

(** The executable form: the number of continuation bytes still expected. *)
Fixpoint utf8_from (pending : nat) (l : bytes) : bool :=
  match l with
  | [] => (pending =? 0)%nat
  | c :: l =>
      match pending with
      | O => is_lead c && utf8_from (len_utf8 c - 1) l
      | S pending => negb (is_lead c) && utf8_from pending l
      end
  end.

Lemma utf8_from_sound l pending :
  utf8_from pending l = true →
  ∃ conts rest, l = conts ++ rest ∧ length conts = pending ∧
    Forall (λ b, is_lead b = false) conts ∧ utf8 rest.
Proof.
  revert pending; induction l as [|c l IH]; intros pending; simpl.
  - destruct pending; [|done]. intros _. exists [], []. repeat split; auto using utf8.
  - destruct pending as [|pending]; intros [Hc Hl]%andb_true_iff.
    + destruct (IH _ Hl) as (conts & rest & -> & Hlen & Hconts & Hrest).
      exists [], (c :: conts ++ rest). repeat split; [constructor|].
      apply utf8_char; [done| |done..].
      rewrite Hlen. unfold len_utf8; repeat case_match; reflexivity.
    + destruct (IH _ Hl) as (conts & rest & -> & Hlen & Hconts & Hrest).
      exists (c :: conts), rest. repeat split; simpl; [lia| |done].
      constructor; [by apply negb_true_iff|done].
Qed.

Lemma utf8_decide l : utf8_from 0 l = true → utf8 l.
Proof.
  intros (conts & rest & -> & Hlen & _ & Hrest)%utf8_from_sound.
  by destruct conts.
Qed.

Lemma utf8_app p q : utf8 p → utf8 q → utf8 (p ++ q).
Proof.
  intros Hp Hq; induction Hp; simpl; [done|].
  rewrite <- app_assoc. by constructor.
Qed.

Lemma utf8_app_inv p q : utf8 p → utf8 (p ++ q) → utf8 q.
Proof.
  intros Hp; revert q; induction Hp as [|c conts rest Hc Hlen Hcs Hp IH]; intros q; simpl; [done|].
  rewrite <- app_assoc. inversion 1 as [|c' conts' rest' Hc' Hlen' Hcs' Hrest' [Ecc Eapp]]; subst.
  apply app_inj_1 in Eapp as [-> ->]; [|lia]. by apply IH.
Qed.

(** ** Character boundaries *)

Lemma boundary_cons c conts rest i :
  S (length conts) = len_utf8 c →
  Forall (λ b, is_lead b = false) conts →
  is_char_boundary (c :: conts ++ rest) i = true →
  i = 0%nat ∨ ∃ j, i = (len_utf8 c + j)%nat ∧ is_char_boundary rest j = true.
Proof.
  intros Hlen Hcs Hb. destruct (decide (i = 0%nat)) as [->|Hi]; [by left|right].
  destruct i as [|i]; [done|]. unfold is_char_boundary in Hb; simpl in Hb.
  rewrite length_app in Hb. destruct (decide (i < length conts)%nat) as [Hlt|Hge].
  - rewrite lookup_app_l in Hb by done.
    destruct (lookup_lt_is_Some_2 conts i Hlt) as [b Hbi]. rewrite Hbi in Hb.
    rewrite (Forall_lookup_1 _ _ _ _ Hcs Hbi) in Hb.
    rewrite orb_false_r in Hb. apply Nat.eqb_eq in Hb. lia.
  - exists (i - length conts)%nat. split; [lia|].
    rewrite lookup_app_r in Hb by lia. unfold is_char_boundary.
    apply orb_true_iff in Hb as [Hb|Hb].
    + apply Nat.eqb_eq in Hb. replace (i - length conts)%nat with (length rest) by lia.
      by rewrite Nat.eqb_refl, orb_true_r.
    + by rewrite Hb, !orb_true_r.
Qed.

Lemma boundary_split l i :
  utf8 l → is_char_boundary l i = true → utf8 (take i l) ∧ utf8 (drop i l).
Proof.
  intros Hl; revert i; induction Hl as [|c conts rest Hc Hlen Hcs Hl IH]; intros i Hb.
  { rewrite take_nil, drop_nil. split; constructor. }
  destruct (boundary_cons _ _ _ _ Hlen Hcs Hb) as [->|(j & -> & Hj)].
  - split; [constructor|by constructor].
  - destruct (IH j Hj) as [Ht Hd]. rewrite <- Hlen; simpl.
    rewrite take_app_add, drop_app_add. split; [by constructor|done].
Qed.

Lemma split_boundary l i :
  utf8 l → utf8 (take i l) → (i ≤ length l)%nat → is_char_boundary l i = true.
Proof.
  intros Hl Ht Hi. assert (Hd : utf8 (drop i l)).
  { apply (utf8_app_inv (take i l)); [done|]. by rewrite take_drop. }
  unfold is_char_boundary.
  replace (l !! i) with (drop i l !! 0%nat) by (rewrite lookup_drop; f_equal; lia).
  inversion Hd as [E|c conts rest Hc _ _ _ E].
  - assert (length (drop i l) = 0%nat) as Hz by (by rewrite <- E).
    rewrite length_drop in Hz. replace i with (length l) by lia.
    by rewrite Nat.eqb_refl, orb_true_r.
  - simpl. by rewrite Hc, orb_true_r.
Qed.

(** [e] is the last boundary of [l] that is at most [n]. *)
Definition last_boundary (l : bytes) (n e : nat) : Prop :=
  (e ≤ n)%nat ∧ is_char_boundary l e = true ∧
  ∀ i, (i ≤ n)%nat → is_char_boundary l i = true → (i ≤ e)%nat.

Lemma last_boundary_unique l n e e' :
  last_boundary l n e → last_boundary l n e' → e = e'.
Proof.
  intros (H1 & H2 & H3) (H1' & H2' & H3').
  apply Nat.le_antisymm; auto.
Qed.

Lemma back_to_boundary_last l n : last_boundary l n (back_to_boundary l n).
Proof.
  induction n as [|n (IH1 & IH2 & IH3)].
  - repeat split; auto.
  - cbn [back_to_boundary]. destruct (is_char_boundary l (S n)) eqn:Hb.
    + repeat split; auto.
    + repeat split; [lia|done|]. intros i Hi Hbi.
      destruct (decide (i = S n)) as [->|]; [congruence|]. apply IH3; [lia|done].
Qed.

Lemma boundary_le l i : is_char_boundary l i = true → (i ≤ length l)%nat.
Proof.
  unfold is_char_boundary. intros [[H|H]%orb_true_iff|H]%orb_true_iff.
  - apply Nat.eqb_eq in H. lia.
  - apply Nat.eqb_eq in H. lia.
  - destruct (l !! i) eqn:E; [|done]. apply lookup_lt_Some in E. lia.
Qed.

Lemma boundary_zero l : is_char_boundary l 0 = true.
Proof. reflexivity. Qed.

Lemma boundary_shift c conts rest j :
  S (length conts) = len_utf8 c →
  is_char_boundary rest j = true → (0 < j ∨ utf8 rest)%nat →
  is_char_boundary (c :: conts ++ rest) (len_utf8 c + j) = true.
Proof.
  intros Hlen Hj Hor. assert (Hor' : j = length rest ∨ ∃ b, rest !! j = Some b ∧ is_lead b = true).
  { unfold is_char_boundary in Hj. apply orb_true_iff in Hj as [[H|H]%orb_true_iff|H].
    - apply Nat.eqb_eq in H; subst j. destruct Hor as [?|Hr]; [lia|].
      inversion Hr as [|b conts' rest' Hb]; [by left|right]. by exists b.
    - left. by apply Nat.eqb_eq.
    - right. destruct (rest !! j) as [b|]; [|done]. by exists b. }
  unfold is_char_boundary. rewrite <- Hlen; simpl. destruct Hor' as [->|(b & Hb & Hlead)].
  - rewrite length_app, Nat.eqb_refl. done.
  - rewrite lookup_app_r by lia. replace (length conts + j - length conts)%nat with j by lia.
    by rewrite Hb, Hlead, orb_true_r.
Qed.

Lemma len_utf8_pos c : (0 < len_utf8 c)%nat.
Proof. unfold len_utf8; repeat case_match; lia. Qed.

(** The [chars] loop stops at the last boundary that fits. *)
Lemma chars_end_last fuel rest offset remaining :
  utf8 rest → (length rest ≤ fuel)%nat → (offset ≤ remaining)%nat →
  ∃ e, chars_end fuel rest offset remaining = (offset + e)%nat ∧
    last_boundary rest (remaining - offset) e.
Proof.
  revert rest offset; induction fuel as [|fuel IH]; intros rest offset Hr Hf Ho;
    inversion Hr as [|c conts rest' Hc Hlen Hcs Hr']; subst; simpl in *; try lia.
  - exists 0%nat. split; [lia|]. repeat split; [lia|]. intros i _ Hi%boundary_le; done.
  - exists 0%nat. split; [lia|]. repeat split; [lia|]. intros i _ Hi%boundary_le; done.
  - case_match eqn:Hlt.
    + exists 0%nat. apply Nat.ltb_lt in Hlt. split; [lia|]. repeat split; [lia|].
      intros i Hi Hb. destruct (boundary_cons _ _ _ _ Hlen Hcs Hb) as [->|(j & -> & _)]; lia.
    + apply Nat.ltb_ge in Hlt. rewrite length_app in Hf.
      replace (drop (len_utf8 c) (c :: conts ++ rest')) with rest'
        by (rewrite <- Hlen; simpl; by rewrite drop_app_length).
      destruct (IH rest' (offset + len_utf8 c)%nat Hr' ltac:(lia) ltac:(lia))
        as (e & -> & He1 & He2 & He3).
      exists (len_utf8 c + e)%nat. split; [lia|]. repeat split; [lia| |].
      * apply boundary_shift; auto.
      * intros i Hi Hb. destruct (boundary_cons _ _ _ _ Hlen Hcs Hb) as [->|(j & -> & Hj)]; [lia|].
        apply Nat.add_le_mono_l, He3; [lia|done].
Qed.

Lemma truncation_end_last l n : utf8 l → last_boundary l n (truncation_end l n).
Proof.
  intros Hl. destruct (chars_end_last (length l) l 0 n Hl ltac:(lia) ltac:(lia)) as (e & E & He).
  rewrite Nat.sub_0_r in He. unfold truncation_end. by rewrite E.
Qed.

(** The two loops of the source that cut a string, walking back from the
    limit to a character boundary and walking forward over the characters,
    stop at the same byte of every valid string, whatever the limit. *)
Theorem truncation_loops_agree l n :
  utf8 l → truncation_end l n = back_to_boundary l n.
Proof.
  intros Hl. apply (last_boundary_unique l n).
  - by apply truncation_end_last.
  - apply back_to_boundary_last.
Qed.

(** ** Strings *)

Definition valid_string (s : string) : Prop := utf8 (to_bytes s).

(** The first [e] bytes of a string, when [e] is a boundary of it. *)
Definition cut (s : string) (e : nat) : string := of_bytes (take e (to_bytes s)).

Lemma cut_facts s n e :
  valid_string s → last_boundary (to_bytes s) n e →
  valid_string (cut s e) ∧ string_bytes (cut s e) = N.of_nat e ∧ (e ≤ n)%nat.
Proof.
  intros Hs (Hle & Hb & _). unfold valid_string, cut, string_bytes. rewrite to_of_bytes.
  pose proof (boundary_le _ _ Hb). rewrite length_take. split_and!; [|lia..].
  by apply boundary_split.
Qed.

(** A string longer than the limit is cut to a valid string within the
    limit, a prefix of it, and no longer valid prefix fits; a string within
    the limit is left alone. *)
Theorem truncate_string_longest_prefix s max :
  valid_string s →
  match truncate_string_value s max with
  | None => (string_bytes s ≤ max)%N
  | Some t =>
      (max < string_bytes s)%N ∧ valid_string t ∧ to_bytes t `prefix_of` to_bytes s ∧
      (string_bytes t ≤ max)%N ∧
      ∀ p, p `prefix_of` to_bytes s → utf8 p → (N.of_nat (length p) ≤ max)%N →
        (N.of_nat (length p) ≤ string_bytes t)%N
  end.
Proof.
  intros Hs. unfold truncate_string_value.
  destruct (N.of_nat (length (to_bytes s)) <=? max)%N eqn:Hlen.
  { by apply N.leb_le. }
  apply N.leb_gt in Hlen. pose proof (back_to_boundary_last (to_bytes s) (N.to_nat max)) as Hlast.
  destruct (cut_facts _ _ _ Hs Hlast) as (Hv & Hbytes & Hle).
  unfold cut in *. split_and!; [done..| | |].
  - rewrite to_of_bytes. apply prefix_take.
  - lia.
  - intros p [q Hq] Hp Hmax. rewrite Hbytes. destruct Hlast as (_ & _ & Hlast).
    enough (length p ≤ back_to_boundary (to_bytes s) (N.to_nat max))%nat by lia. apply Hlast; [lia|].
    apply split_boundary; [done|by rewrite Hq, take_app_length|].
    rewrite Hq, length_app. lia.
Qed.

(** ** Lists of strings *)

(** The size of the values joined by a separator byte. *)
Fixpoint tail_len (values : list string) : N :=
  match values with
  | [] => 0
  | v :: values => (1 + string_bytes v + tail_len values)%N
  end.
Definition joined_len (values : list string) : N :=
  match values with
  | [] => 0
  | v :: values => (string_bytes v + tail_len values)%N
  end.
Definition separator_len (kept : list string) : N :=
  match kept with [] => 0 | _ => 1 end%N.

Lemma tail_len_app l v : tail_len (l ++ [v]) = (tail_len l + (1 + string_bytes v))%N.
Proof. induction l as [|w l IH]; cbn [tail_len app]; [lia|]. rewrite IH. lia. Qed.

Lemma joined_len_snoc l v :
  joined_len (l ++ [v]) = (joined_len l + (separator_len l + string_bytes v))%N.
Proof.
  destruct l as [|w l]; cbn [joined_len app separator_len tail_len]; [lia|].
  rewrite tail_len_app. lia.
Qed.

Lemma string_list_byte_len_from_eq values b :
  (b ≤ u64_max)%N →
  string_list_byte_len_from values b = N.min (b + joined_len values) u64_max.
Proof.
  revert b; induction values as [|v values IH]; intros b Hb; [simpl; lia|].
  cbn [string_list_byte_len_from joined_len].
  destruct values as [|w values].
  - cbn [string_list_byte_len_from tail_len]. unfold saturating_add_u64. lia.
  - rewrite IH by (unfold saturating_add_u64; lia).
    cbn [joined_len tail_len]. unfold saturating_add_u64. lia.
Qed.

Lemma string_list_byte_len_eq values :
  string_list_byte_len values = N.min (joined_len values) u64_max.
Proof. unfold string_list_byte_len. rewrite string_list_byte_len_from_eq; [f_equal|]; lia. Qed.

(** The bytes left for the next value once [kept] is kept. *)
Definition room (max : N) (kept : list string) : nat :=
  N.to_nat (max - (joined_len kept + separator_len kept)).

(** [out] is [values] cut where the room ends: all of it, or whole values and
    then the longest non-empty valid prefix of the next one, if any fits. *)
Definition cut_list (max : N) (values out : list string) : Prop :=
  out = values ∨
  ∃ pre v post e, values = pre ++ v :: post ∧
    last_boundary (to_bytes v) (room max pre) e ∧
    out = pre ++ (if decide (e = 0%nat) then [] else [cut v e]).

Lemma separator_if (kept : list string) :
  (if (0 <? length kept)%nat then 1 else 0)%N = separator_len kept.
Proof. by destruct kept. Qed.

Lemma remaining_room max kept :
  (max ≤ u64_max)%N →
  saturating_sub max
    (saturating_add_u64 (joined_len kept) (if (0 <? length kept)%nat then 1 else 0)%N)
  = N.of_nat (room max kept).
Proof.
  intros Hmax. unfold saturating_sub, saturating_add_u64, room. rewrite N2Nat.id, separator_if. lia.
Qed.

Lemma cut_room max kept v e :
  (joined_len kept ≤ max)%N → valid_string v →
  last_boundary (to_bytes v) (room max kept) e → e ≠ 0%nat →
  joined_len (kept ++ [cut v e]) = (joined_len kept + (separator_len kept + N.of_nat e))%N ∧
  (joined_len (kept ++ [cut v e]) ≤ max)%N.
Proof.
  intros Hk Hv He Hne. destruct (cut_facts _ _ _ Hv He) as (_ & Hb & Hle).
  rewrite joined_len_snoc, Hb. split; [done|]. unfold room in Hle. lia.
Qed.

Lemma truncate_list_loop_spec max values kept :
  (max ≤ u64_max)%N → Forall valid_string values → (joined_len kept ≤ max)%N →
  let '(out, bytes) := truncate_list_loop values (length kept) max kept (joined_len kept) in
  bytes = joined_len out ∧ (joined_len out ≤ max)%N ∧
  ((out = kept ++ values) ∨
   ∃ pre v post e, values = pre ++ v :: post ∧
     last_boundary (to_bytes v) (room max (kept ++ pre)) e ∧
     out = (kept ++ pre) ++ (if decide (e = 0%nat) then [] else [cut v e])).
Proof.
  intros Hmax Hvalid; revert kept.
  induction Hvalid as [|v values Hv Hvalid IH]; intros kept Hk; cbn [truncate_list_loop].
  { split_and!; [done..|]. left. by rewrite app_nil_r. }
  rewrite remaining_room, separator_if by done.
  assert (Hstop : ∀ e, last_boundary (to_bytes v) (room max kept) e → ∀ out,
            out = kept ++ (if decide (e = 0%nat) then [] else [cut v e]) →
            ∃ pre v' post e', v :: values = pre ++ v' :: post ∧
              last_boundary (to_bytes v') (room max (kept ++ pre)) e' ∧
              out = (kept ++ pre) ++ (if decide (e' = 0%nat) then [] else [cut v' e'])).
  { intros e He out ->. exists [], v, values, e. by rewrite !app_nil_r. }
  destruct (N.of_nat (room max kept) =? 0)%N eqn:Hroom.
  { split_and!; [done..|]. right. apply (Hstop 0%nat); [|by rewrite decide_True, app_nil_r].
    apply N.eqb_eq in Hroom. replace (room max kept) with 0%nat by lia.
    split_and!; [done..|]. intros; lia. }
  apply N.eqb_neq in Hroom. destruct (_ <=? _)%N eqn:Hfit.
  - apply N.leb_le in Hfit.
    specialize (IH (kept ++ [v])). rewrite joined_len_snoc, length_app, Nat.add_1_r in IH.
    fold (string_bytes v) in Hfit |- *. destruct (truncate_list_loop _ _ _ _ _) as [out bytes].
    destruct IH as (Hb & Hle & Hor); [unfold room in *; lia|].
    split_and!; [done..|]. rewrite <- app_assoc in Hor.
    destruct Hor as [->|(pre & w & post & e & -> & He & ->)]; [by left|right].
    exists (v :: pre), w, post, e. by rewrite <- !app_assoc in *.
  - pose proof (truncation_end_last _ (room max kept) Hv) as He.
    rewrite Nat2N.id. destruct (0 <? _)%nat eqn:Hpos.
    + apply Nat.ltb_lt in Hpos.
      destruct (cut_room _ _ _ _ Hk Hv He ltac:(lia)) as [Hj Hle].
      split_and!; [by symmetry|done|right].
      apply (Hstop _ He). by rewrite decide_False by lia.
    + apply Nat.ltb_ge in Hpos. split_and!; [done..|right].
      apply (Hstop _ He). rewrite decide_True by lia. by rewrite app_nil_r.
Qed.

Lemma cut_list_valid max values out :
  Forall valid_string values → cut_list max values out → Forall valid_string out.
Proof.
  intros Hv [->|(pre & v & post & e & -> & He & ->)]; [done|].
  apply Forall_app in Hv as [Hpre Hv]. apply Forall_cons in Hv as [Hv _].
  apply Forall_app; split; [done|]. case_decide; constructor; [|constructor].
  by apply (cut_facts _ _ _ Hv He).
Qed.

Lemma truncate_string_list_cut values max :
  (max ≤ u64_max)%N → Forall valid_string values →
  let '(out, bytes) := truncate_string_list values max in
  bytes = joined_len out ∧ (joined_len out ≤ max)%N ∧ cut_list max values out ∧
  Forall valid_string out.
Proof.
  intros Hmax Hv. pose proof (truncate_list_loop_spec max values [] Hmax Hv ltac:(simpl; lia)) as H.
  unfold truncate_string_list. cbn [length joined_len] in H.
  destruct (truncate_list_loop _ _ _ _ _) as [out bytes]. destruct H as (Hb & Hle & Hor).
  assert (Hcut : cut_list max values out) by exact Hor.
  split_and!; [done..|]. by eapply cut_list_valid.
Qed.

(** A list of strings is cut to whole values followed by at most one
    non-empty valid prefix, the longest that fits in the room its predecessors
    leave; what is kept is valid, within the limit, and the byte count
    reported for it is its exact size, separators included. *)
Theorem truncate_string_list_exact values max :
  (max ≤ usize_max)%N → Forall valid_string values →
  let '(out, bytes) := truncate_string_list values max in
  bytes = string_list_byte_len out ∧ (bytes ≤ max)%N ∧ Forall valid_string out ∧
  cut_list max values out.
Proof.
  intros Hmax Hv. pose proof (truncate_string_list_cut values max Hmax Hv) as H.
  destruct (truncate_string_list values max) as [out bytes].
  destruct H as (-> & Hle & Hcut & Hvalid). rewrite string_list_byte_len_eq.
  assert (u64_max = usize_max) by reflexivity. split_and!; [lia|done..].
Qed.

(** ** Fields *)

Definition valid_value (value : StructuredValue) : Prop :=
  match value with
  | SvString s => valid_string s
  | SvStringList values => Forall valid_string values
  | SvNull | SvBool _ | SvInteger _ => True
  end.
Definition valid_field (field : ToolResultField) : Prop := valid_value (field_value field).

(** What truncation may do to a field: nothing unless it is oversized. *)
Definition field_cut (max : N) (field field' : ToolResultField) : Prop :=
  field_key field' = field_key field ∧ valid_field field' ∧
  oversized_field_bytes field' max = None ∧
  (oversized_field_bytes field max = None → field' = field).

Lemma field_bytes_None_iff field max :
  oversized_field_bytes field max = None ↔
  match field_bytes (field_value field) with Some b => (b ≤ max)%N | None => True end.
Proof.
  unfold oversized_field_bytes. destruct (field_bytes _) as [b|]; [|done].
  destruct (N.ltb_spec max b); split; intros; try done; lia.
Qed.

Lemma truncated_value_spec field max original :
  (max ≤ u64_max)%N → valid_field field → oversized_field_bytes field max = Some original →
  ∃ value retained, truncated_value (field_value field) max = Some (value, retained) ∧
    valid_value value ∧ (retained ≤ max < original)%N ∧ field_bytes value = Some retained.
Proof.
  intros Hmax Hv. unfold oversized_field_bytes, valid_field in *.
  destruct (field_value field) as [| | |s|values]; simpl in *; try discriminate.
  - destruct (N.ltb_spec max (string_bytes s)) as [Hlt|]; [|done]. intros [= <-].
    unfold truncate_string_value. rewrite (proj2 (N.leb_gt _ _)) by done.
    pose proof (back_to_boundary_last (to_bytes s) (N.to_nat max)) as Hlast.
    destruct (cut_facts _ _ _ Hv Hlast) as (Hv' & Hb & Hle). unfold cut in *.
    eexists _, _. split_and!; [reflexivity|done|lia|done|reflexivity].
  - rewrite string_list_byte_len_eq.
    destruct (N.ltb_spec max (N.min (joined_len values) u64_max)) as [Hlt|]; [|done].
    intros [= <-]. pose proof (truncate_string_list_cut values max Hmax Hv) as H.
    destruct (truncate_string_list values max) as [out bytes].
    destruct H as (-> & Hle & _ & Hvalid).
    eexists _, _. split_and!; [reflexivity|done..|]. simpl.
    rewrite string_list_byte_len_eq. f_equal. lia.
Qed.

Definition report_sane (r : ToolResultTruncationReport) : Prop :=
  (rep_retained_bytes r ≤ rep_original_bytes r)%N.

Lemma truncate_field_spec max field acc report :
  (max ≤ u64_max)%N → valid_field field →
  ∃ field' report', truncate_field max (acc, report) field = (acc ++ [field'], report') ∧
    field_cut max field field' ∧ (report_sane report → report_sane report') ∧
    rep_fields report' =
      (rep_fields report + match oversized_field_bytes field max with None => 0 | Some _ => 1 end)%nat.
Proof.
  intros Hmax Hv. unfold truncate_field. destruct (oversized_field_bytes field max) as [o|] eqn:Ho.
  - destruct (truncated_value_spec _ _ _ Hmax Hv Ho) as (v & r & -> & Hv' & Hr & Hb).
    eexists _, _. split; [reflexivity|]. split; [|split].
    + split_and!; [done..| |congruence]. apply field_bytes_None_iff. simpl. rewrite Hb. lia.
    + unfold report_sane, saturating_add_u64; simpl. lia.
    + simpl. lia.
  - eexists _, _. split; [reflexivity|]. split_and!; solve [done | lia].
Qed.

Lemma omap_cons_eq {A B} (f : A → option B) x l :
  omap f (x :: l) = match f x with Some y => y :: omap f l | None => omap f l end.
Proof. reflexivity. Qed.

Lemma truncate_fields_spec max fields acc report :
  (max ≤ u64_max)%N → Forall valid_field fields →
  ∃ fields' report', foldl (truncate_field max) (acc, report) fields = (acc ++ fields', report') ∧
    Forall2 (field_cut max) fields fields' ∧ (report_sane report → report_sane report') ∧
    rep_fields report' =
      (rep_fields report + length (omap (λ f, oversized_field_bytes f max) fields))%nat.
Proof.
  intros Hmax Hv; revert acc report.
  induction Hv as [|field fields Hf Hv IH]; intros acc report; cbn [foldl].
  { exists [], report. rewrite app_nil_r. split_and!; [done..|simpl; lia]. }
  destruct (truncate_field_spec max field acc report Hmax Hf)
    as (field' & report1 & -> & Hcut & Hsane1 & Hn1).
  destruct (IH (acc ++ [field']) report1) as (fields' & report' & -> & Hall & Hsane & Hn).
  exists (field' :: fields'), report'. rewrite <- app_assoc.
  split_and!; [done|by constructor|auto|]. rewrite Hn, Hn1, omap_cons_eq.
  destruct (oversized_field_bytes field max); cbn [length]; lia.
Qed.

Lemma oversized_none_omap max fields :
  Forall (λ f, oversized_field_bytes f max = None) fields →
  omap (λ f, oversized_field_bytes f max) fields = [].
Proof. induction 1 as [|f fields Hf _ IH]; [done|]. by rewrite omap_cons_eq, Hf, IH. Qed.

Lemma fields_cut_fixed max fields fields' :
  Forall2 (field_cut max) fields fields' →
  Forall (λ f, oversized_field_bytes f max = None) fields → fields' = fields.
Proof.
  induction 1 as [|f f' fields fields' (_ & _ & _ & Hid) _ IH]; [done|].
  intros [Hf Hfs]%Forall_cons. by rewrite (Hid Hf), (IH Hfs).
Qed.

Lemma truncate_result_spec result max :
  (max ≤ usize_max)%N → Forall valid_field (res_fields result) →
  ∃ fields' report,
    truncate_oversized_tool_result_fields result max = (res_set_fields result fields', report) ∧
    Forall2 (field_cut max) (res_fields result) fields' ∧
    match report with
    | None => omap (λ f, oversized_field_bytes f max) (res_fields result) = []
    | Some r => report_sane r ∧
        rep_fields r = length (omap (λ f, oversized_field_bytes f max) (res_fields result)) ∧
        rep_fields r ≠ 0%nat
    end.
Proof.
  intros Hmax Hv. unfold truncate_oversized_tool_result_fields.
  destruct (truncate_fields_spec max (res_fields result) []
              {| rep_fields := 0; rep_original_bytes := 0; rep_retained_bytes := 0 |} Hmax Hv)
    as (fields' & report & -> & Hall & Hsane & Hn).
  simpl in Hn. eexists _, _. split; [reflexivity|]. split; [done|].
  destruct (Nat.eqb_spec (rep_fields report) 0) as [Hz|Hz].
  - apply length_zero_iff_nil. lia.
  - split_and!; [|done..]. apply Hsane. unfold report_sane. simpl. lia.
Qed.

Lemma truncate_settled result max :
  (max ≤ usize_max)%N → Forall valid_field (res_fields result) →
  Forall (λ f, oversized_field_bytes f max = None) (res_fields result) →
  truncate_oversized_tool_result_fields result max = (result, None).
Proof.
  intros Hmax Hv Hnone.
  destruct (truncate_result_spec result max Hmax Hv) as (fields' & report & -> & Hall & Hrep).
  rewrite (oversized_none_omap _ _ Hnone) in Hrep. rewrite (fields_cut_fixed _ _ _ Hall Hnone).
  destruct report as [r|]; [by destruct Hrep as (_ & ? & ?)|]. by destruct result.
Qed.

Lemma omap_nil_none max fields :
  omap (λ f, oversized_field_bytes f max) fields = [] →
  Forall (λ f, oversized_field_bytes f max = None) fields.
Proof.
  induction fields as [|f fields IH]; [constructor|]. rewrite omap_cons_eq.
  destruct (oversized_field_bytes f max) eqn:Hf; [done|]. intros H. constructor; auto.
Qed.

Lemma length_oversized result max :
  length (omap (λ f, oversized_field_bytes f max) (res_fields result))
  = length (oversized_fields result max).
Proof.
  unfold oversized_fields. induction (res_fields result) as [|f fields IH]; [done|].
  rewrite !omap_cons_eq. destruct (oversized_field_bytes f max); simpl; by rewrite ?IH.
Qed.

Lemma fields_cut_settled max fields fields' :
  Forall2 (field_cut max) fields fields' →
  Forall valid_field fields' ∧ Forall (λ f, oversized_field_bytes f max = None) fields'.
Proof.
  induction 1 as [|f f' fields fields' (_ & Hv & Ho & _) _ [IHv IHo]]; split; by constructor.
Qed.

Lemma reject_oversized_iff result defaults :
  reject_oversized_tool_result result defaults = None ↔
  oversized_fields result (max_inline_bytes_as_usize (def_max_inline_bytes defaults)) = [].
Proof. unfold reject_oversized_tool_result. by case_match. Qed.

Lemma oversized_nil_bound result max field size :
  oversized_fields result max = [] → field ∈ res_fields result →
  field_bytes (field_value field) = Some size → (size ≤ max)%N.
Proof.
  intros Hnil Hin Hsize. assert (Hall : Forall (λ f, oversized_field_bytes f max = None) (res_fields result)).
  { apply omap_nil_none, length_zero_iff_nil. by rewrite length_oversized, Hnil. }
  rewrite Forall_forall in Hall. specialize (Hall _ Hin). apply field_bytes_None_iff in Hall.
  by rewrite Hsize in Hall.
Qed.

Lemma max_inline_bytes_usize n : (max_inline_bytes_as_usize n ≤ usize_max)%N.
Proof. unfold max_inline_bytes_as_usize. destruct (N.leb_spec n usize_max); lia. Qed.

Lemma truncated_within result defaults :
  Forall valid_field (res_fields result) →
  reject_oversized_tool_result
    (truncate_oversized_tool_result_fields result
       (max_inline_bytes_as_usize (def_max_inline_bytes defaults))).1 defaults = None.
Proof.
  intros Hv. pose proof (max_inline_bytes_usize (def_max_inline_bytes defaults)) as Hmax.
  destruct (truncate_result_spec result _ Hmax Hv) as (fields' & report & -> & Hall & _).
  destruct (fields_cut_settled _ _ _ Hall) as [_ Ho']. apply reject_oversized_iff.
  apply length_zero_iff_nil. rewrite <- length_oversized. simpl. by rewrite oversized_none_omap.
Qed.

(** Truncation leaves no field over the limit, keeps every key and every
    field that was within it, reports exactly the number of fields it cut (and
    no report when it cut none) without retaining more than it was given, and
    a second pass changes nothing; the policy that rejects oversized output
    instead rejects exactly the results truncation would have changed. *)
Theorem oversize_policies_agree result defaults :
  Forall valid_field (res_fields result) →
  let max := max_inline_bytes_as_usize (def_max_inline_bytes defaults) in
  let '(result', report) := truncate_oversized_tool_result_fields result max in
  Forall2 (field_cut max) (res_fields result) (res_fields result') ∧
  truncate_oversized_tool_result_fields result' max = (result', None) ∧
  reject_oversized_tool_result result' defaults = None ∧
  match report with
  | None => result' = result ∧ reject_oversized_tool_result result defaults = None
  | Some r =>
      reject_oversized_tool_result result defaults ≠ None ∧
      rep_fields r = length (oversized_fields result max) ∧
      (rep_retained_bytes r ≤ rep_original_bytes r)%N
  end.
Proof.
  intros Hv max. pose proof (max_inline_bytes_usize (def_max_inline_bytes defaults)) as Hmax.
  destruct (truncate_result_spec result max Hmax Hv) as (fields' & report & -> & Hall & Hrep).
  destruct (fields_cut_settled _ _ _ Hall) as [Hv' Ho'].
  rewrite !reject_oversized_iff. fold max. cbn [res_fields res_set_fields].
  split_and!; [done|by apply truncate_settled| |].
  { apply length_zero_iff_nil. rewrite <- length_oversized. simpl.
    by rewrite oversized_none_omap. }
  destruct report as [r|].
  - destruct Hrep as (Hsane & Hn & Hne). rewrite length_oversized in Hn.
    split_and!; [|done..]. intros E%reject_oversized_iff. fold max in E. by rewrite E in Hn.
  - rewrite (fields_cut_fixed _ _ _ Hall (omap_nil_none _ _ Hrep)).
    split; [by destruct result|]. apply reject_oversized_iff, length_zero_iff_nil.
    fold max. by rewrite <- length_oversized, Hrep.
Qed.

(** ** Samples *)

Module TruncationDemo.

(** "a" and the two-byte character U+00E9, and a three-byte character. *)
Definition e_acute : bytes := [ascii_of_N 97; ascii_of_N 195; ascii_of_N 169].
Definition euro : bytes := [ascii_of_N 226; ascii_of_N 130; ascii_of_N 172].
Definition text : string := of_bytes (e_acute ++ euro).

Lemma text_valid : valid_string text.
Proof. apply utf8_decide. reflexivity. Defined.

Lemma truncation_loops_agree_witness :
  utf8 (to_bytes text) ∧ truncation_end (to_bytes text) 2 = 1%nat ∧
  truncation_end (to_bytes text) 2 = back_to_boundary (to_bytes text) 2.
Proof.
  split; [exact text_valid|]. split; [reflexivity|].
  apply (truncation_loops_agree (to_bytes text) 2 text_valid).
Defined.

Lemma truncate_string_longest_prefix_witness :
  truncate_string_value text 5 = Some (of_bytes e_acute) ∧ valid_string (of_bytes e_acute).
Proof.
  split; [reflexivity|].
  exact (proj1 (proj2 (truncate_string_longest_prefix text 5 text_valid))).
Defined.

Lemma truncate_string_list_exact_witness :
  truncate_string_list [text; text; text] 11 = ([text; of_bytes e_acute], 10%N) ∧
  string_list_byte_len [text; of_bytes e_acute] = 10%N.
Proof.
  split; [vm_compute; reflexivity|]. symmetry.
  assert (Hv : Forall valid_string [text; text; text])
    by (repeat constructor; exact text_valid).
  exact (proj1 (truncate_string_list_exact [text; text; text] 11
    ltac:(vm_compute; discriminate) Hv)).
Defined.

Definition field (key : string) (value : StructuredValue) : ToolResultField :=
  {| field_key := key; field_value := value |}.
Definition sample_result : ToolResult := {|
  res_id := id_new ToolResultIdKind "r"; res_schema_version := 1; res_created_at := 0;
  res_invocation_id := id_new ToolInvocationIdKind "i"; res_tool_id := "t"; res_status := TrSucceeded; res_schema_ref := None;
  res_fields := [field "a" (SvString text); field "b" (SvStringList [text; text]);
                 field "c" (SvBool true)];
  res_evidence_refs := []; res_output_refs := []; res_truncation := None; res_redactions := [] |}.

(** The defaults of the program with a limit of eleven bytes. *)
Definition small_defaults : ToolOutputDefaults := {|
  def_render_options := def_render_options defaults_default;
  def_max_inline_bytes := 11; def_max_inline_lines := def_max_inline_lines defaults_default;
  def_verbosity := def_verbosity defaults_default;
  def_granularity := def_granularity defaults_default;
  def_oversize_policy := def_oversize_policy defaults_default |}.

Lemma oversize_policies_agree_witness :
  Forall valid_field (res_fields sample_result) ∧
  rep_fields <$> (truncate_oversized_tool_result_fields sample_result 11).2 = Some 1%nat ∧
  reject_oversized_tool_result sample_result small_defaults ≠ None.
Proof.
  assert (Hv : Forall valid_field (res_fields sample_result))
    by (repeat constructor; exact text_valid).
  split; [exact Hv|]. split; [vm_compute; reflexivity|].
  exact (proj1 (proj2 (proj2 (proj2 (oversize_policies_agree sample_result small_defaults Hv))))).
Defined.

End TruncationDemo.
