(* ===== verification/Spill.v ===== *)
(** * Spill: large results become artifacts ([artifacts.rs]) *)
From S2P Require Import Prelude Text Domain StoreTypes Settings Truncation.

(** * Moving large output fields to artifacts ([artifacts.rs])

    [spill_large_tool_result_fields] writes every field over the limit as an
    artifact and puts a reference in its place; if a write fails it removes what
    it wrote and leaves the result alone.  The artifact store is the interface
    [ArtifactWriter] of the source; its state is the type [F]. *)

Inductive ArtifactError :=
  | InvalidScope (scope : string)
  | ArtifactIo
  | InvalidIndex (path : string) (reason : string).

Definition DEFAULT_MEDIA_TYPE : string := "text/plain; charset=utf-8".

Record ToolResultSpilloverOptions := {
  spo_max_inline_bytes : N;
  spo_media_type : string
}.
Definition spillover_options_new (max_inline_bytes : N) : ToolResultSpilloverOptions :=
  {| spo_max_inline_bytes := max_inline_bytes; spo_media_type := DEFAULT_MEDIA_TYPE |}.

Record ToolResultSpilloverReport := {
  spr_spilled_fields : list string;
  spr_original_bytes : N;
  spr_retained_bytes : N
}.

(** The trait: [W] is the handle, [F] the state behind it. *)
Class ArtifactWriter (W F : Type) := {
  write_artifact_bytes : W → string → string → string → bytes → F → F * result ArtifactError OutputRef;
  delete_artifact_bytes : W → OutputRef → F → F * result ArtifactError unit;
  update_spill_metadata : W → string → OutputRef → option N → option N → F →
    F * result ArtifactError unit;
  delete_artifact_record : W → string → OutputRef → F → F * result ArtifactError unit
}.

(** [values.join("\n")] *)
Definition newline : ascii := ascii_of_N 10.
Fixpoint join_lines (values : list string) : bytes :=
  match values with
  | [] => []
  | [value] => to_bytes value
  | value :: values => to_bytes value ++ newline :: join_lines values
  end.

Definition spillable_field_bytes (field : ToolResultField) : option bytes :=
  match field_value field with
  | SvString value => Some (to_bytes value)
  | SvStringList values => Some (join_lines values)
  | SvNull | SvBool _ | SvInteger _ => None
  end.

Definition merge_truncation (existing : option TruncationMetadata)
  (original_bytes retained_bytes : N) : TruncationMetadata :=
  match existing with
  | Some existing => {|
      trunc_original_bytes := saturating_add_u64 (trunc_original_bytes existing) original_bytes;
      trunc_retained_bytes := saturating_add_u64 (trunc_retained_bytes existing) retained_bytes;
      trunc_reason := trunc_reason existing +:+ "; artifact spillover" |}
  | None => {| trunc_original_bytes := original_bytes; trunc_retained_bytes := retained_bytes;
               trunc_reason := "artifact spillover" |}
  end.

(** One planned replacement: the field's index and key, its new value and the
    artifact that holds the old one. *)
Record PlannedSpill := {
  plan_index : nat;
  plan_key : string;
  plan_replacement : string;
  plan_output_ref : OutputRef
}.

(** The variables of the loop. *)
Record SpillState := {
  sps_original_bytes : N;
  sps_retained_bytes : N;
  sps_written : list OutputRef;
  sps_planned : list PlannedSpill
}.

Section Spill.
Context {W F : Type} `{ArtifactWriter W F}.

Fixpoint rollback_artifact_writes (writer : W) (scope : string) (output_refs : list OutputRef)
  (f : F) : F :=
  match output_refs with
  | [] => f
  | output_ref :: output_refs =>
      let f := (delete_artifact_bytes writer output_ref f).1 in
      let f := (delete_artifact_record writer scope output_ref f).1 in
      rollback_artifact_writes writer scope output_refs f
  end.

(** The body of the loop for a field over the limit.  The sums are over data
    held in memory, so they stay within [u64]. *)
Definition spill_field (writer : W) (scope tool_id : string) (options : ToolResultSpilloverOptions)
  (index : nat) (field : ToolResultField) (bytes : bytes) (acc : SpillState) (f : F)
  : F * result ArtifactError SpillState :=
  match write_artifact_bytes writer scope (tool_id +:+ "." +:+ field_key field)
          (spo_media_type options) bytes f with
  | (f, Err error) => (rollback_artifact_writes writer scope (sps_written acc) f, Err error)
  | (f, Ok output_ref) =>
      let written := sps_written acc ++ [output_ref] in
      let replacement := "artifact_ref " +:+ oref_uri output_ref in
      let retained_size := string_bytes replacement in
      let original_size := N.of_nat (length bytes) in
      match update_spill_metadata writer scope output_ref (Some original_size)
              (Some retained_size) f with
      | (f, Err error) => (rollback_artifact_writes writer scope written f, Err error)
      | (f, Ok _) =>
          (f, Ok {| sps_original_bytes := sps_original_bytes acc + original_size;
                    sps_retained_bytes := sps_retained_bytes acc + retained_size;
                    sps_written := written;
                    sps_planned := sps_planned acc ++
                      [{| plan_index := index; plan_key := field_key field;
                          plan_replacement := replacement; plan_output_ref := output_ref |}] |})
      end
  end.

Fixpoint plan_spills (writer : W) (scope tool_id : string) (options : ToolResultSpilloverOptions)
  (index : nat) (fields : list ToolResultField) (acc : SpillState) (f : F)
  : F * result ArtifactError SpillState :=
  match fields with
  | [] => (f, Ok acc)
  | field :: fields =>
      match spillable_field_bytes field with
      | None => plan_spills writer scope tool_id options (S index) fields acc f
      | Some bytes =>
          if (N.of_nat (length bytes) <=? spo_max_inline_bytes options)%N
          then plan_spills writer scope tool_id options (S index) fields acc f
          else
            match spill_field writer scope tool_id options index field bytes acc f with
            | (f, Err error) => (f, Err error)
            | (f, Ok acc) => plan_spills writer scope tool_id options (S index) fields acc f
            end
      end
  end.

(** [result.fields[*index].value = StructuredValue::String(replacement)] *)
Definition apply_spill (fields : list ToolResultField) (p : PlannedSpill) : list ToolResultField :=
  alter (λ field, {| field_key := field_key field; field_value := SvString (plan_replacement p) |})
    (plan_index p) fields.

Definition spilled_result (result : ToolResult) (acc : SpillState) : ToolResult := {|
  res_id := res_id result; res_schema_version := res_schema_version result;
  res_created_at := res_created_at result; res_invocation_id := res_invocation_id result;
  res_tool_id := res_tool_id result; res_status := res_status result;
  res_schema_ref := res_schema_ref result;
  res_fields := foldl apply_spill (res_fields result) (sps_planned acc);
  res_evidence_refs := res_evidence_refs result;
  res_output_refs := res_output_refs result ++ map plan_output_ref (sps_planned acc);
  res_truncation :=
    Some (merge_truncation (res_truncation result) (sps_original_bytes acc)
            (sps_retained_bytes acc));
  res_redactions := res_redactions result |}.

Definition spill_large_tool_result_fields (result : ToolResult) (writer : W) (scope : string)
  (options : ToolResultSpilloverOptions) (f : F)
  : F * ToolResult * Prelude.result ArtifactError (option ToolResultSpilloverReport) :=
  if (spo_max_inline_bytes options =? 0)%N then (f, result, Ok None)
  else
    match plan_spills writer scope (res_tool_id result) options 0 (res_fields result)
            {| sps_original_bytes := 0; sps_retained_bytes := 0; sps_written := [];
               sps_planned := [] |} f with
    | (f, Err error) => (f, result, Err error)
    | (f, Ok acc) =>
        match sps_planned acc with
        | [] => (f, result, Ok None)
        | _ =>
            (f, spilled_result result acc,
             Ok (Some {| spr_spilled_fields := map plan_key (sps_planned acc);
                         spr_original_bytes := sps_original_bytes acc;
                         spr_retained_bytes := sps_retained_bytes acc |}))
        end
    end.
End Spill.

(** * What a spill replaces *)

Definition spills (options : ToolResultSpilloverOptions) (field : ToolResultField) : bool :=
  match spillable_field_bytes field with
  | Some b => (spo_max_inline_bytes options <? N.of_nat (length b))%N
  | None => false
  end.

Definition reference_to (r : OutputRef) : string := "artifact_ref " +:+ oref_uri r.

(** The fields with each large one replaced by the next reference. *)
Fixpoint spill_fields (options : ToolResultSpilloverOptions) (fields : list ToolResultField)
  (refs : list OutputRef) : list ToolResultField :=
  match fields, refs with
  | [], _ => []
  | field :: fields, [] => field :: fields
  | field :: fields, r :: refs' =>
      if spills options field
      then {| field_key := field_key field; field_value := SvString (reference_to r) |}
           :: spill_fields options fields refs'
      else field :: spill_fields options fields refs
  end.

Lemma spill_fields_nil options fields : spill_fields options fields [] = fields.
Proof. by destruct fields. Qed.

Lemma apply_spill_middle pre field fields p o :
  plan_index p = length pre → plan_replacement p = reference_to o →
  apply_spill (pre ++ field :: fields) p =
  pre ++ {| field_key := field_key field; field_value := SvString (reference_to o) |} :: fields.
Proof.
  intros Hi Hr. unfold apply_spill. rewrite Hi, Hr, <- (Nat.add_0_r (length pre)).
  by rewrite alter_app_r.
Qed.

(** The replacements [planned] for [fields], of which the first has the index
    [index]; [refs] are the artifacts they refer to. *)
Definition planned_for (options : ToolResultSpilloverOptions) (index : nat)
  (fields : list ToolResultField) (refs : list OutputRef) (planned : list PlannedSpill) : Prop :=
  map plan_output_ref planned = refs ∧
  map plan_key planned = map field_key (List.filter (spills options) fields) ∧
  ∀ pre, length pre = index →
    foldl apply_spill (pre ++ fields) planned = pre ++ spill_fields options fields refs.

Lemma planned_skip options index field fields refs planned :
  spills options field = false → planned_for options (S index) fields refs planned →
  planned_for options index (field :: fields) refs planned.
Proof.
  intros Hs (H1 & H2 & H3). unfold planned_for. cbn [List.filter]. rewrite Hs. split_and!; try done.
  intros pre Hpre. specialize (H3 (pre ++ [field])). rewrite length_app, <- !app_assoc in H3.
  cbn [app] in H3. rewrite H3 by (simpl; lia). cbn [spill_fields]. rewrite Hs.
  destruct refs; [|done]. by rewrite spill_fields_nil.
Qed.

Lemma planned_spill options index field fields o refs p planned :
  spills options field = true → plan_index p = index → plan_key p = field_key field →
  plan_replacement p = reference_to o → plan_output_ref p = o →
  planned_for options (S index) fields refs planned →
  planned_for options index (field :: fields) (o :: refs) (p :: planned).
Proof.
  intros Hs E1 E2 E3 E4 (H1 & H2 & H3). unfold planned_for. cbn [List.filter]. rewrite Hs. split_and!.
  - simpl. congruence.
  - simpl. congruence.
  - intros pre Hpre. cbn [foldl]. rewrite (apply_spill_middle pre field fields p o) by congruence.
    rewrite cons_middle, app_assoc, H3 by (rewrite length_app; simpl; lia).
    rewrite <- app_assoc. cbn [spill_fields]. by rewrite Hs.
Qed.
