(* ===== verification/StoreValidate.v ===== *)
(** * StoreValidate: the validation functions of [store.rs]

    Every check a mutation runs before it touches the draft state: reference
    checks, event subject and reference consistency, the job update protocol,
    and the record-level checks of repositories, locks and migrations. *)
From S2P Require Import Prelude Text Domain Policy StoreTypes.

Section Validate.
Context `{UuidLib} `{RegistryPort}.

Implicit Types inner : InMemoryInner.

(** ** Reference checks *)

Definition ensure_ref_exists {k} (exists_ : bool) (collection : string) (i : OpaqueId k)
  (context : string) : StoreResult unit :=
  if exists_ then Ok tt
  else Err (NotFound collection (Fmt "{} ({context})" [AMsg (id_debug i); AStr context])).

Definition ensure_ref_absent {k} (absent : bool) (collection : string) (i : OpaqueId k)
  : StoreResult unit :=
  if absent then Ok tt else Err (DuplicateId collection (id_debug i)).

Definition ensure_same_repository (collection context : string) (expected actual : RepositoryId)
  : StoreResult unit :=
  if bool_decide (actual = expected) then Ok tt
  else Err (InvalidReference collection
              (Fmt "{context} belongs to repository {}, not {}"
                 [AStr context; AMsg (id_debug actual); AMsg (id_debug expected)])).

Definition contains_key {K V} `{Countable K} (m : gmap K V) (k : K) : bool := is_some (m !! k).

(** [get(...).ok_or_else(...)] with a [NotFound] naming the reference. *)
Definition get_ref {k V} (m : gmap (OpaqueId k) V) (i : OpaqueId k) (collection context : string)
  : StoreResult V :=
  ok_or (m !! i) (NotFound collection (Fmt "{} ({context})" [AMsg (id_debug i); AStr context])).

Definition validate_job_refs inner (record : JobRecord) : StoreResult unit :=
  ensure_ref_exists (contains_key (repositories inner) (job_repository_id record))
    "repositories" (job_repository_id record) "job.repository_id".

Definition validate_tool_invocation_refs inner (record : ToolInvocation) : StoreResult unit :=
  let? job := get_ref (jobs inner) (inv_job_id record) "jobs" "tool_invocation.job_id" in
  let? _ := ensure_ref_exists (contains_key (repositories inner) (inv_repository_id record))
              "repositories" (inv_repository_id record) "tool_invocation.repository_id" in
  let? _ := ensure_same_repository "tool_invocations" "tool_invocation.job_id"
              (inv_repository_id record) (job_repository_id job) in
  let? policy_decision := get_ref (policy_decisions inner) (inv_policy_decision_id record)
                            "policy_decisions" "tool_invocation.policy_decision_id" in
  ensure_same_repository "tool_invocations" "tool_invocation.policy_decision_id"
    (inv_repository_id record) (pol_repository_id policy_decision).

(** The checks shared by [validate_tool_result_refs] and
    [validate_loaded_tool_result_record]. *)
Definition validate_loaded_tool_result_record inner (record : ToolResult) : StoreResult unit :=
  let? invocation := get_ref (tool_invocations inner) (res_invocation_id record)
                       "tool_invocations" "tool_result.invocation_id" in
  reject? negb (str_eqb (inv_tool_id invocation) (res_tool_id record))
    with InvalidReference "tool_results"
           (Fmt "tool_result.tool_id {} does not match invocation tool_id {}"
              [AStr (res_tool_id record); AStr (inv_tool_id invocation)]) in
  Ok tt.

Definition validate_tool_result_refs inner (record : ToolResult) : StoreResult unit :=
  let? invocation := get_ref (tool_invocations inner) (res_invocation_id record)
                       "tool_invocations" "tool_result.invocation_id" in
  reject? negb (str_eqb (inv_tool_id invocation) (res_tool_id record))
    with InvalidReference "tool_results"
           (Fmt "tool_result.tool_id {} does not match invocation tool_id {}"
              [AStr (res_tool_id record); AStr (inv_tool_id invocation)]) in
  reject? existsb (λ existing, bool_decide (res_invocation_id existing = res_invocation_id record))
            (hash_values (tool_results inner))
    with Conflict "tool_results"
           (Fmt "tool_result already exists for invocation {}"
              [AMsg (id_debug (res_invocation_id record))]) in
  Ok tt.

Definition validate_audit_record_refs_with_pending_tool_result inner (record : AuditRecord)
  (pending_tool_result : option ToolResult) : StoreResult unit :=
  let? _ := ensure_ref_exists (contains_key (repositories inner) (aud_repository_id record))
              "repositories" (aud_repository_id record) "audit_record.repository_id" in
  let? policy_decision := get_ref (policy_decisions inner) (aud_policy_decision_id record)
                            "policy_decisions" "audit_record.policy_decision_id" in
  let? _ := ensure_same_repository "audit_records" "audit_record.policy_decision_id"
              (aud_repository_id record) (pol_repository_id policy_decision) in
  match aud_tool_invocation_id record with
  | None => Ok tt
  | Some tool_invocation_id =>
      let? tool_invocation := get_ref (tool_invocations inner) tool_invocation_id
                                "tool_invocations" "audit_record.tool_invocation_id" in
      let? _ := ensure_same_repository "audit_records" "audit_record.tool_invocation_id"
                  (aud_repository_id record) (inv_repository_id tool_invocation) in
      reject? negb (bool_decide
                (inv_policy_decision_id tool_invocation = aud_policy_decision_id record))
        with InvalidReference "audit_records"
          (Fmt "audit_record.tool_invocation_id {} belongs to policy_decision_id {}, not {}"
             [AMsg (id_debug tool_invocation_id);
              AMsg (id_debug (inv_policy_decision_id tool_invocation));
              AMsg (id_debug (aud_policy_decision_id record))]) in
      match pending_tool_result with
      | None => Ok tt
      | Some tool_result =>
          reject? negb (bool_decide (res_invocation_id tool_result = tool_invocation_id))
            with InvalidReference "audit_records"
              (Fmt "pending tool_result {} belongs to invocation_id {}, not {}"
                 [AMsg (id_debug (res_id tool_result));
                  AMsg (id_debug (res_invocation_id tool_result));
                  AMsg (id_debug tool_invocation_id)]) in
          Ok tt
      end
  end.

Definition validate_audit_record_refs inner (record : AuditRecord) : StoreResult unit :=
  validate_audit_record_refs_with_pending_tool_result inner record None.

(** ** Event subjects *)

Definition subject_not_found (collection : string) (event : JobEvent) : StoreError :=
  NotFound collection
    (Fmt "{} (job_event.subject_id)" [AStr (subject_id (evt_subject event))]).

Definition names_subject {k} (event : JobEvent) (i : OpaqueId k) : bool :=
  str_eqb (as_str i) (subject_id (evt_subject event)).

Definition subject_repository_id inner (event : JobEvent) (pending_job : option JobRecord)
  (pending_tool_result : option ToolResult) (pending_audit_record : option AuditRecord)
  : StoreResult (option RepositoryId) :=
  match subject_type (evt_subject event) with
  | SubjRepository =>
      let? repository :=
        ok_or (find_bool (names_subject event) (hash_keys (repositories inner)))
          (subject_not_found "repositories" event) in
      Ok (Some repository)
  | SubjJob =>
      let? job :=
        ok_or (or_else
                 (find_bool (λ job, names_subject event (job_id job)) (btree_values (jobs inner)))
                 (opt_filter (λ job, names_subject event (job_id job)) pending_job))
          (subject_not_found "jobs" event) in
      Ok (Some (job_repository_id job))
  | SubjPolicyDecision =>
      let? policy_decision :=
        ok_or (find_bool (λ p, names_subject event (pol_id p))
                 (hash_values (policy_decisions inner)))
          (subject_not_found "policy_decisions" event) in
      Ok (Some (pol_repository_id policy_decision))
  | SubjLockDecision =>
      let? lock_decision :=
        ok_or (find_bool (λ l, names_subject event (lock_id l))
                 (hash_values (lock_decisions inner)))
          (subject_not_found "lock_decisions" event) in
      Ok (Some (lock_repository_id lock_decision))
  | SubjToolInvocation =>
      let? tool_invocation :=
        ok_or (find_bool (λ i, names_subject event (inv_id i))
                 (hash_values (tool_invocations inner)))
          (subject_not_found "tool_invocations" event) in
      Ok (Some (inv_repository_id tool_invocation))
  | SubjToolResult =>
      let? tool_result :=
        ok_or (or_else
                 (find_bool (λ r, names_subject event (res_id r))
                    (hash_values (tool_results inner)))
                 (opt_filter (λ r, names_subject event (res_id r)) pending_tool_result))
          (subject_not_found "tool_results" event) in
      let? tool_invocation :=
        ok_or (tool_invocations inner !! res_invocation_id tool_result)
          (Conflict "tool_results"
             (Fmt "tool_result {} references missing invocation {}"
                [AStr (subject_id (evt_subject event));
                 AMsg (id_debug (res_invocation_id tool_result))])) in
      Ok (Some (inv_repository_id tool_invocation))
  | SubjAuditRecord =>
      let? audit_record :=
        ok_or (or_else
                 (find_bool (λ a, names_subject event (aud_id a))
                    (hash_values (audit_records inner)))
                 (opt_filter (λ a, names_subject event (aud_id a)) pending_audit_record))
          (subject_not_found "audit_records" event) in
      Ok (Some (aud_repository_id audit_record))
  end.

Definition validate_event_subject inner (event : JobEvent) (pending_job : option JobRecord)
  (pending_tool_result : option ToolResult) (pending_audit_record : option AuditRecord)
  : StoreResult (option RepositoryId) :=
  let? srepo := subject_repository_id inner event pending_job pending_tool_result
                  pending_audit_record in
  let? _ :=
    match srepo, ref_repository_id (evt_refs event) with
    | Some subject_repo, Some ref_repo =>
        ensure_same_repository "job_events" "job_event.subject_id" ref_repo subject_repo
    | _, _ => Ok tt
    end in
  Ok srepo.

(** ** Event references *)

Definition ensure_subject_ref_matches (event : JobEvent) (expected : EventSubjectType)
  (ref_id context : string) : StoreResult unit :=
  if negb (bool_decide (subject_type (evt_subject event) = expected))
     || str_eqb (subject_id (evt_subject event)) ref_id then Ok tt
  else Err (InvalidReference "job_events"
         (Fmt "{context} {} does not match event.subject_id {} for subject_type {:?}"
            [AStr context; AStr ref_id; AStr (subject_id (evt_subject event));
             ASubjectType (subject_type (evt_subject event))])).

(** [&mut Option<&str>]: the expectation after the check. *)
Definition ensure_event_identity_consistency (expected : option string)
  (actual context field_name : string) : StoreResult (option string) :=
  match expected with
  | Some e =>
      if str_eqb e actual then Ok (Some e)
      else Err (InvalidReference "job_events"
             (Fmt "{context} implies {field_name} {actual}, not {expected}"
                [AStr context; AStr field_name; AStr actual; AStr e]))
  | None => Ok (Some actual)
  end.

Definition ensure_event_job_consistency (expected : option string) (implied_job_id : JobId)
  (context : string) : StoreResult (option string) :=
  ensure_event_identity_consistency expected (as_str implied_job_id) context "job_id".

Definition ensure_event_policy_consistency (expected : option string)
  (implied_policy_decision_id : PolicyDecisionId) (context : string)
  : StoreResult (option string) :=
  ensure_event_identity_consistency expected (as_str implied_policy_decision_id) context
    "policy_decision_id".

Definition ensure_event_repository_consistency (expected : option RepositoryId)
  (actual : RepositoryId) (context : string) : StoreResult (option RepositoryId) :=
  match expected with
  | Some e => let? _ := ensure_same_repository "job_events" context e actual in Ok (Some e)
  | None => Ok (Some actual)
  end.

(** The three running expectations of [validate_event_refs]. *)
Record EventExpectation := {
  exp_repository : option RepositoryId;
  exp_job : option string;
  exp_policy : option string
}.

Definition initial_expectation (event : JobEvent) (subject_repo : option RepositoryId)
  : EventExpectation := {|
  exp_repository := or_else (ref_repository_id (evt_refs event)) subject_repo;
  exp_job :=
    match subject_type (evt_subject event) with
    | SubjJob => Some (subject_id (evt_subject event))
    | _ => as_str <$> ref_job_id (evt_refs event)
    end;
  exp_policy :=
    match subject_type (evt_subject event) with
    | SubjPolicyDecision => Some (subject_id (evt_subject event))
    | _ => as_str <$> ref_policy_decision_id (evt_refs event)
    end |}.

Definition check_repository_ref inner (event : JobEvent) (x : EventExpectation)
  : StoreResult EventExpectation :=
  match ref_repository_id (evt_refs event) with
  | None => Ok x
  | Some i =>
      let? _ := ensure_subject_ref_matches event SubjRepository (as_str i)
                  "job_event.refs.repository_id" in
      let? _ := ensure_ref_exists (contains_key (repositories inner) i) "repositories" i
                  "job_event.refs.repository_id" in
      Ok x
  end.

Definition check_job_ref inner (event : JobEvent) (pending_job : option JobRecord)
  (x : EventExpectation) : StoreResult EventExpectation :=
  match ref_job_id (evt_refs event) with
  | None => Ok x
  | Some i =>
      let? _ := ensure_subject_ref_matches event SubjJob (as_str i) "job_event.refs.job_id" in
      let? job :=
        ok_or (or_else (jobs inner !! i) (opt_filter (λ j, bool_decide (job_id j = i)) pending_job))
          (NotFound "jobs" (Fmt "{} (job_event.refs.job_id)" [AMsg (id_debug i)])) in
      let? r := ensure_event_repository_consistency (exp_repository x) (job_repository_id job)
                  "job_event.refs.job_id" in
      let? j := ensure_event_job_consistency (exp_job x) (job_id job) "job_event.refs.job_id" in
      Ok {| exp_repository := r; exp_job := j; exp_policy := exp_policy x |}
  end.

Definition check_policy_ref inner (event : JobEvent) (x : EventExpectation)
  : StoreResult EventExpectation :=
  match ref_policy_decision_id (evt_refs event) with
  | None => Ok x
  | Some i =>
      let? _ := ensure_subject_ref_matches event SubjPolicyDecision (as_str i)
                  "job_event.refs.policy_decision_id" in
      let? policy_decision := get_ref (policy_decisions inner) i "policy_decisions"
                                "job_event.refs.policy_decision_id" in
      let? r := ensure_event_repository_consistency (exp_repository x)
                  (pol_repository_id policy_decision) "job_event.refs.policy_decision_id" in
      Ok {| exp_repository := r; exp_job := exp_job x; exp_policy := exp_policy x |}
  end.

Definition check_lock_ref inner (event : JobEvent) (x : EventExpectation)
  : StoreResult EventExpectation :=
  match ref_lock_decision_id (evt_refs event) with
  | None => Ok x
  | Some i =>
      let? _ := ensure_subject_ref_matches event SubjLockDecision (as_str i)
                  "job_event.refs.lock_decision_id" in
      let? lock_decision := get_ref (lock_decisions inner) i "lock_decisions"
                              "job_event.refs.lock_decision_id" in
      let? r := ensure_event_repository_consistency (exp_repository x)
                  (lock_repository_id lock_decision) "job_event.refs.lock_decision_id" in
      let? p := ensure_event_policy_consistency (exp_policy x)
                  (lock_policy_decision_id lock_decision) "job_event.refs.lock_decision_id" in
      Ok {| exp_repository := r; exp_job := exp_job x; exp_policy := p |}
  end.

Definition check_invocation_ref inner (event : JobEvent) (x : EventExpectation)
  : StoreResult EventExpectation :=
  match ref_tool_invocation_id (evt_refs event) with
  | None => Ok x
  | Some i =>
      let? _ := ensure_subject_ref_matches event SubjToolInvocation (as_str i)
                  "job_event.refs.tool_invocation_id" in
      let? tool_invocation := get_ref (tool_invocations inner) i "tool_invocations"
                                "job_event.refs.tool_invocation_id" in
      let? r := ensure_event_repository_consistency (exp_repository x)
                  (inv_repository_id tool_invocation) "job_event.refs.tool_invocation_id" in
      let? j := ensure_event_job_consistency (exp_job x) (inv_job_id tool_invocation)
                  "job_event.refs.tool_invocation_id" in
      let? p := ensure_event_policy_consistency (exp_policy x)
                  (inv_policy_decision_id tool_invocation) "job_event.refs.tool_invocation_id" in
      Ok {| exp_repository := r; exp_job := j; exp_policy := p |}
  end.

(** [refs.tool_invocation_id.is_some_and(|id| id != other)] *)
Definition invocation_ref_differs (event : JobEvent) (other : ToolInvocationId) : bool :=
  match ref_tool_invocation_id (evt_refs event) with
  | Some i => negb (bool_decide (i = other))
  | None => false
  end.

(** [inner.tool_results.get(id).or_else(pending)] *)
Definition find_tool_result inner (pending_tool_result : option ToolResult) (i : ToolResultId)
  : StoreResult ToolResult :=
  ok_or (or_else (tool_results inner !! i)
           (opt_filter (λ r, bool_decide (res_id r = i)) pending_tool_result))
    (NotFound "tool_results" (Fmt "{} (job_event.refs.tool_result_id)" [AMsg (id_debug i)])).

Definition check_result_ref inner (event : JobEvent) (pending_tool_result : option ToolResult)
  (x : EventExpectation) : StoreResult EventExpectation :=
  match ref_tool_result_id (evt_refs event) with
  | None => Ok x
  | Some i =>
      let? _ := ensure_subject_ref_matches event SubjToolResult (as_str i)
                  "job_event.refs.tool_result_id" in
      let? tool_result := find_tool_result inner pending_tool_result i in
      let? tool_invocation :=
        ok_or (tool_invocations inner !! res_invocation_id tool_result)
          (Conflict "tool_results"
             (Fmt "tool_result {} references missing invocation {}"
                [AMsg (id_debug i); AMsg (id_debug (res_invocation_id tool_result))])) in
      let? r := ensure_event_repository_consistency (exp_repository x)
                  (inv_repository_id tool_invocation) "job_event.refs.tool_result_id" in
      reject? invocation_ref_differs event (res_invocation_id tool_result)
        with InvalidReference "job_events"
          (Fmt "job_event.refs.tool_result_id {} belongs to invocation_id {}, not {:?}"
             [AMsg (id_debug i); AMsg (id_debug (res_invocation_id tool_result));
              AOptId (ref_tool_invocation_id (evt_refs event))]) in
      let? j := ensure_event_job_consistency (exp_job x) (inv_job_id tool_invocation)
                  "job_event.refs.tool_result_id" in
      let? p := ensure_event_policy_consistency (exp_policy x)
                  (inv_policy_decision_id tool_invocation) "job_event.refs.tool_result_id" in
      Ok {| exp_repository := r; exp_job := j; exp_policy := p |}
  end.

Definition check_audit_ref inner (event : JobEvent) (pending_tool_result : option ToolResult)
  (pending_audit_record : option AuditRecord) (x : EventExpectation)
  : StoreResult EventExpectation :=
  match ref_audit_record_id (evt_refs event) with
  | None => Ok x
  | Some i =>
      let? _ := ensure_subject_ref_matches event SubjAuditRecord (as_str i)
                  "job_event.refs.audit_record_id" in
      let? audit_record :=
        ok_or (or_else (audit_records inner !! i)
                 (opt_filter (λ a, bool_decide (aud_id a = i)) pending_audit_record))
          (NotFound "audit_records"
             (Fmt "{} (job_event.refs.audit_record_id)" [AMsg (id_debug i)])) in
      let? r := ensure_event_repository_consistency (exp_repository x)
                  (aud_repository_id audit_record) "job_event.refs.audit_record_id" in
      let? p := ensure_event_policy_consistency (exp_policy x)
                  (aud_policy_decision_id audit_record) "job_event.refs.audit_record_id" in
      match aud_tool_invocation_id audit_record with
      | None => Ok {| exp_repository := r; exp_job := exp_job x; exp_policy := p |}
      | Some tool_invocation_id =>
          let? canonical_invocation :=
            ok_or (tool_invocations inner !! tool_invocation_id)
              (Conflict "audit_records"
                 (Fmt "audit_record {} references missing invocation {}"
                    [AMsg (id_debug i); AMsg (id_debug tool_invocation_id)])) in
          reject? invocation_ref_differs event tool_invocation_id
            with InvalidReference "job_events"
              (Fmt "job_event.refs.audit_record_id {} belongs to invocation_id {}, not {:?}"
                 [AMsg (id_debug i); AMsg (id_debug tool_invocation_id);
                  AOptId (ref_tool_invocation_id (evt_refs event))]) in
          let? j := ensure_event_job_consistency (exp_job x) (inv_job_id canonical_invocation)
                      "job_event.refs.audit_record_id" in
          let? _ :=
            match ref_tool_result_id (evt_refs event) with
            | None => Ok tt
            | Some tool_result_id =>
                let? tool_result := find_tool_result inner pending_tool_result tool_result_id in
                reject? negb (bool_decide (res_invocation_id tool_result = tool_invocation_id))
                  with InvalidReference "job_events"
                    (Fmt "job_event.refs.audit_record_id {} belongs to invocation_id {}, but tool_result_id {} belongs to invocation_id {}"
                       [AMsg (id_debug i); AMsg (id_debug tool_invocation_id);
                        AMsg (id_debug tool_result_id);
                        AMsg (id_debug (res_invocation_id tool_result))]) in
                Ok tt
            end in
          Ok {| exp_repository := r; exp_job := j; exp_policy := p |}
      end
  end.

Definition validate_event_refs inner (event : JobEvent) (pending_job : option JobRecord)
  (pending_tool_result : option ToolResult) (pending_audit_record : option AuditRecord)
  (subject_repo : option RepositoryId) : StoreResult unit :=
  let x := initial_expectation event subject_repo in
  let? x := check_repository_ref inner event x in
  let? x := check_job_ref inner event pending_job x in
  let? x := check_policy_ref inner event x in
  let? x := check_lock_ref inner event x in
  let? x := check_invocation_ref inner event x in
  let? x := check_result_ref inner event pending_tool_result x in
  let? _ := check_audit_ref inner event pending_tool_result pending_audit_record x in
  Ok tt.

Definition validate_new_job_event_with_pending_records inner (event : JobEvent)
  (pending_job : option JobRecord) (pending_tool_result : option ToolResult)
  (pending_audit_record : option AuditRecord) : StoreResult unit :=
  reject? contains_key (job_events_by_id inner) (evt_id event)
    with DuplicateId "job_events" (id_debug (evt_id event)) in
  reject? negb (has_valid_subject_id (evt_subject event))
    with InvalidReference "job_events"
      (Fmt "event.subject_id {} does not match subject_type {:?}"
         [AStr (subject_id (evt_subject event)); ASubjectType (subject_type (evt_subject event))]) in
  let? srepo := validate_event_subject inner event pending_job pending_tool_result
                  pending_audit_record in
  validate_event_refs inner event pending_job pending_tool_result pending_audit_record srepo.

Definition validate_new_job_event inner (event : JobEvent) (pending_job : option JobRecord)
  : StoreResult unit :=
  validate_new_job_event_with_pending_records inner event pending_job None None.

Definition validate_initial_event_for_job (record : JobRecord) (event : JobEvent)
  : StoreResult unit :=
  reject? negb (bool_decide (subject_type (evt_subject event) = SubjJob))
          || negb (str_eqb (subject_id (evt_subject event)) (as_str (job_id record)))
    with InvalidReference "job_events"
      (Fmt "initial event subject must identify job {}" [AMsg (id_debug (job_id record))]) in
  reject? negb (bool_decide (ref_job_id (evt_refs event) = Some (job_id record)))
    with InvalidReference "job_events"
      (Fmt "initial event refs.job_id must identify job {}" [AMsg (id_debug (job_id record))]) in
  reject? negb (bool_decide (ref_repository_id (evt_refs event) = Some (job_repository_id record)))
    with InvalidReference "job_events"
      (Fmt "initial event refs.repository_id must identify repository {}"
         [AMsg (id_debug (job_repository_id record))]) in
  Ok tt.
End Validate.
