(* ===== verification/StoreJobs.v ===== *)
(** * StoreJobs: checks of job updates, locks and receipts ([store.rs]) *)
From S2P Require Import Prelude Text Domain Policy StoreTypes StoreValidate.

(** * The job update protocol and the record checks of [store.rs]

    A stored job is replaced only together with an event, and only in the way
    that event announces: [validate_job_update] and its parts.  The second half
    holds the checks on repository, lock and migration records. *)

(** ** Updates of a stored job *)

Section JobUpdate.
Context `{RegistryPort}.

Definition job_update_conflict (i : JobId) (reason : Message) : StoreResult unit :=
  Err (Conflict "jobs" (Fmt "job update for {} {}" [AMsg (id_debug i); AMsg reason])).

Definition ensure_immutable_job_field {T} `{EqDecision T} (i : JobId) (field_name : string)
  (dbg : T → FmtArg) (existing incoming : T) : StoreResult unit :=
  if bool_decide (existing = incoming) then Ok tt
  else Err (Conflict "jobs"
    (Fmt "job update for {} attempted to change immutable field {field_name}: existing {:?}, incoming {:?}"
       [AMsg (id_debug i); AStr field_name; dbg existing; dbg incoming])).

Definition status_change_matches (kind : JobEventKind) (from to : JobStatus) : bool :=
  match kind with
  | JobStatusChanged f t => bool_decide (f = from) && bool_decide (t = to)
  | _ => false
  end.
Definition is_status_changed (kind : JobEventKind) : bool :=
  match kind with JobStatusChanged _ _ => true | _ => false end.
Definition is_cancellation_requested (kind : JobEventKind) : bool :=
  match kind with CancellationRequested => true | _ => false end.
Definition is_policy_decided (kind : JobEventKind) : bool :=
  match kind with PolicyDecided _ => true | _ => false end.

(** The branch of [validate_job_lifecycle_update] for an equal or a different
    status. *)
Definition validate_job_status_change (existing record : JobRecord) (event : JobEvent)
  : StoreResult unit :=
  if negb (bool_decide (job_status record = job_status existing)) then
    let? _ :=
      (if status_change_matches (evt_kind event) (job_status existing) (job_status record)
       then Ok tt
       else job_update_conflict (job_id record)
         (Fmt "status changed from {:?} to {:?} without matching JobStatusChanged event"
            [AStatus (job_status existing); AStatus (job_status record)])) in
    let? expected :=
      map_err (λ error, Conflict "jobs"
          (Fmt "job update for {} has invalid lifecycle transition: {error:?}"
             [AMsg (id_debug (job_id record)); ATransition error]))
        (transition_status existing (job_status record) (job_updated_at record)) in
    if negb (bool_decide (job_started_at record = job_started_at expected))
       || negb (bool_decide (job_completed_at record = job_completed_at expected))
    then job_update_conflict (job_id record)
           (Fmt "lifecycle timestamps do not match transition from {:?} to {:?}"
              [AStatus (job_status existing); AStatus (job_status record)])
    else Ok tt
  else if is_status_changed (evt_kind event) then
    job_update_conflict (job_id record)
      (msg "JobStatusChanged event did not change materialized job status")
  else if negb (bool_decide (job_started_at record = job_started_at existing))
          || negb (bool_decide (job_completed_at record = job_completed_at existing)) then
    job_update_conflict (job_id record)
      (msg "lifecycle timestamps changed without a status transition")
  else Ok tt.

Definition validate_job_lifecycle_update (existing record : JobRecord) (event : JobEvent)
  : StoreResult unit :=
  if (job_updated_at record <? job_updated_at existing)%Z then
    job_update_conflict (job_id record)
      (Fmt "updated_at moved backwards from {:?} to {:?}"
         [ATime (job_updated_at existing); ATime (job_updated_at record)])
  else
  let? _ := validate_job_status_change existing record event in
  if bool_decide (job_status record = Running) && is_none (job_started_at record) then
    job_update_conflict (job_id record) (msg "running job must have started_at")
  else if is_terminal (job_status record) && is_none (job_completed_at record) then
    job_update_conflict (job_id record) (msg "terminal job must have completed_at")
  else if negb (is_terminal (job_status record)) && is_some (job_completed_at record) then
    job_update_conflict (job_id record) (msg "non-terminal job cannot have completed_at")
  else Ok tt.

Definition validate_job_cancellation_update (existing record : JobRecord) (event : JobEvent)
  : StoreResult unit :=
  if bool_decide (job_cancellation_state record = job_cancellation_state existing) then
    if is_cancellation_requested (evt_kind event) then
      job_update_conflict (job_id record)
        (msg "CancellationRequested event did not change materialized cancellation state")
    else Ok tt
  else
    match job_cancellation_state existing, job_cancellation_state record, evt_kind event with
    | NotRequested, Requested, CancellationRequested => Ok tt
    | _, _, _ =>
        job_update_conflict (job_id record)
          (Fmt "cancellation_state changed from {:?} to {:?} without matching CancellationRequested event"
             [ACancellation (job_cancellation_state existing);
              ACancellation (job_cancellation_state record)])
    end.

Definition validate_job_policy_summary_update (existing record : JobRecord) (event : JobEvent)
  : StoreResult unit :=
  if bool_decide (job_policy_summary record = job_policy_summary existing) then Ok tt
  else if negb (is_policy_decided (evt_kind event)) then
    job_update_conflict (job_id record)
      (msg "policy_summary changed without a PolicyDecided event")
  else
    let summary_policy_id := job_policy_summary record ≫= ps_decision_id in
    if negb (bool_decide (summary_policy_id = ref_policy_decision_id (evt_refs event))) then
      job_update_conflict (job_id record)
        (msg "policy_summary decision_id must match event refs.policy_decision_id")
    else Ok tt.

Definition validate_job_update_against (existing record : JobRecord) (event : JobEvent)
  : StoreResult unit :=
  let? _ := ensure_same_repository "jobs" "job.repository_id" (job_repository_id existing)
              (job_repository_id record) in
  let? _ := ensure_immutable_job_field (job_id record) "schema_version" (λ n, ANum (Z.of_N n))
              (job_schema_version existing) (job_schema_version record) in
  let? _ := ensure_immutable_job_field (job_id record) "created_at" ATime
              (job_created_at existing) (job_created_at record) in
  let? _ := ensure_immutable_job_field (job_id record) "requester" AActor
              (job_requester existing) (job_requester record) in
  let? _ := ensure_immutable_job_field (job_id record) "kind" AKind
              (job_kind existing) (job_kind record) in
  let? _ := ensure_immutable_job_field (job_id record) "goal" AOptStr
              (job_goal existing) (job_goal record) in
  let? _ := validate_job_lifecycle_update existing record event in
  let? _ := validate_job_cancellation_update existing record event in
  let? _ := validate_job_policy_summary_update existing record event in
  reject? negb (bool_decide (ref_job_id (evt_refs event) = Some (job_id record)))
    with InvalidReference "job_events"
      (Fmt "job update event refs.job_id must identify job {}" [AMsg (id_debug (job_id record))]) in
  reject? negb (bool_decide (ref_repository_id (evt_refs event) = Some (job_repository_id record)))
    with InvalidReference "job_events"
      (Fmt "job update event refs.repository_id must identify repository {}"
         [AMsg (id_debug (job_repository_id record))]) in
  Ok tt.

Definition validate_job_update (inner : InMemoryInner) (record : JobRecord) (event : JobEvent)
  : StoreResult unit :=
  let? existing := ok_or (jobs inner !! job_id record)
                     (NotFound "jobs" (id_debug (job_id record))) in
  reject? negb (bool_decide (job_latest_event_id record = job_latest_event_id existing))
    with Conflict "jobs"
      (Fmt "job update for {} is stale: expected latest_event_id {:?}, got {:?}"
         [AMsg (id_debug (job_id record)); AOptId (job_latest_event_id existing);
          AOptId (job_latest_event_id record)]) in
  validate_job_update_against existing record event.

Definition validate_two_stage_job_update_identity (first_record : JobRecord) (first_event : JobEvent)
  (final_record : JobRecord) (final_event : JobEvent) : StoreResult unit :=
  reject? negb (bool_decide (job_id first_record = job_id final_record))
    with InvalidReference "jobs"
      (Fmt "two-stage job update first_record {} does not match final_record {}"
         [AMsg (id_debug (job_id first_record)); AMsg (id_debug (job_id final_record))]) in
  for_each (λ '(context, event),
      reject? negb (bool_decide (ref_job_id (evt_refs event) = Some (job_id first_record)))
        with InvalidReference "job_events"
          (Fmt "{context} must identify job {}"
             [AStr context; AMsg (id_debug (job_id first_record))]) in
      Ok tt)
    [("first_event.refs.job_id"%string, first_event); ("final_event.refs.job_id"%string, final_event)].

Definition validate_sibling_event_ids_are_unique (left right : JobEvent) : StoreResult unit :=
  if negb (bool_decide (evt_id left = evt_id right)) then Ok tt
  else Err (DuplicateId "job_events" (id_debug (evt_id left))).
End JobUpdate.

(** ** Repository records *)

Definition validate_repository_record (record : RepositoryRecord) : StoreResult unit :=
  reject? is_blank (repo_display_name record)
    with InvalidRecord "repositories" (msg "display_name must not be empty") in
  reject? is_blank (repo_root_path record)
    with InvalidRecord "repositories" (msg "root_path must not be empty") in
  reject? negb (str_eqb (ps_root_path (repo_allowed_path_scope record)) (repo_root_path record))
    with InvalidRecord "repositories"
      (msg "allowed_path_scope.root_path must match repository root_path") in
  reject? bool_decide (ps_allowed_paths (repo_allowed_path_scope record) = [])
    with InvalidRecord "repositories"
      (msg "allowed_path_scope must include at least one path") in
  Ok tt.

Definition repository_roots_strictly_overlap (candidate_root blocked_root : string) : bool :=
  negb (path_eqb candidate_root blocked_root)
  && (path_starts_with candidate_root blocked_root || path_starts_with blocked_root candidate_root).

Definition is_root_scoped_repository_block (p : PolicyDecision) : bool :=
  bool_decide (pol_outcome p = PolicyBlocked)
  && str_eqb (trim (pol_reason_code p)) REASON_REPOSITORY_BLOCKED
  && str_eqb (trim (scope_kind (pol_resource_scope p))) SCOPE_KIND_REPOSITORY
  && str_eqb (trim (scope_value (pol_resource_scope p))) SCOPE_VALUE_ROOT.

(** ** Lock records *)

(** [is_active_lock_status] tests the debug text of the status against
    [Held], [Active], [held], [active]; of the four statuses of [LockStatus]
    only [Held] prints as one of these. *)
Definition lock_status_debug (s : LockStatus) : string :=
  match s with
  | LockHeld => "Held"
  | LockReleased => "Released"
  | LockExpired => "Expired"
  | LockReclaimed => "Reclaimed"
  end.
Definition is_active_lock_status (s : LockStatus) : bool :=
  str_in (lock_status_debug s) ["Held"; "Active"; "held"; "active"].

Definition validate_lock_decision_timing (record : LockDecision) : StoreResult unit :=
  let err m := InvalidRecord "lock_decisions" (msg m) in
  reject? (lock_expires_at record <=? lock_locked_at record)%Z
    with err "expires_at must be later than locked_at" in
  reject? negb (lock_created_at record =? lock_locked_at record)%Z
    with err "created_at must equal locked_at" in
  reject? (lock_updated_at record <? lock_locked_at record)%Z
    with err "updated_at must not be earlier than locked_at" in
  reject? is_some (lock_released_at record) && is_some (lock_reclaimed_at record)
    with err "released_at and reclaimed_at are mutually exclusive" in
  match lock_status record with
  | LockHeld | LockExpired =>
      reject? is_some (lock_released_at record) || is_some (lock_reclaimed_at record)
        with err "active or expired locks must not have terminal timestamps" in
      Ok tt
  | LockReleased =>
      let? released_at := ok_or (lock_released_at record) (err "released locks require released_at") in
      reject? (released_at <? lock_locked_at record)%Z || (lock_updated_at record <? released_at)%Z
        with err "released_at must be monotonic with lock timestamps" in
      Ok tt
  | LockReclaimed =>
      let? reclaimed_at := ok_or (lock_reclaimed_at record)
                             (err "reclaimed locks require reclaimed_at") in
      reject? (reclaimed_at <? lock_expires_at record)%Z || (lock_updated_at record <? reclaimed_at)%Z
        with err "reclaimed_at must be at or after expires_at and updated_at" in
      Ok tt
  end.

(** ** Migration records *)

Definition is_schema_migration_lock (record : SchemaMigrationRecord) : bool :=
  str_eqb (mig_migration_name record) MIGRATION_LOCK_RECORD_NAME
  && is_some (mig_migration_lock record).

Definition validate_schema_migration_record (record : SchemaMigrationRecord) : StoreResult unit :=
  let err m := InvalidRecord "schema_migrations" (msg m) in
  reject? is_blank (mig_migration_name record) with err "migration_name must not be empty" in
  reject? match mig_leader_id record with Some l => is_blank l | None => false end
    with err "leader_id must not be blank" in
  reject? (mig_updated_at record <? mig_created_at record)%Z
    with err "updated_at must not be earlier than created_at" in
  if str_eqb (mig_migration_name record) MIGRATION_LOCK_RECORD_NAME then
    let? top_level_leader_id :=
      ok_or (mig_leader_id record) (err "migration_lock records require leader_id") in
    let? lock := ok_or (mig_migration_lock record)
                   (err "migration_lock record requires migration_lock metadata") in
    reject? (ml_timeout_millis lock =? 0)%N
      with err "schema migration lock timeout_millis must be greater than zero" in
    reject? is_blank (ml_leader_id lock)
      with err "schema migration lock leader_id must not be blank" in
    reject? negb (str_eqb top_level_leader_id (ml_leader_id lock))
      with err "migration_lock record leader_id must match migration_lock.leader_id" in
    reject? negb (mig_created_at record =? ml_locked_at lock)%Z
      with err "lock held record created_at must equal locked_at" in
    if bool_decide (ml_status lock = MlHeld) then
      reject? is_some (ml_released_at lock)
        with err "lock held records cannot have released_at" in
      Ok tt
    else
      match ml_released_at lock with
      | Some released_at =>
          reject? (released_at <? mig_created_at record)%Z
            with err "lock released_at must not be earlier than created_at" in
          reject? (mig_updated_at record <? released_at)%Z
            with err "lock updated_at must not be earlier than released_at" in
          Ok tt
      | None => Err (err "lock released/expired records require released_at")
      end
  else
    reject? is_some (mig_migration_lock record)
      with err "non-lock migration records cannot include migration_lock metadata" in
    Ok tt.

(** * Submit-job idempotency receipts ([store.rs])

    A durable receipt is bound to an idempotency key only when it agrees with
    the stored job, policy decision, tool records and with the complete chain
    of events of the job. *)

Section Receipts.
Context `{RegistryPort}.
Implicit Types inner : InMemoryInner.

Definition idem : string := "submit_job_idempotency".

Definition validate_loaded_submit_job_receipt_job (stored_job receipt_job : JobRecord)
  : StoreResult unit :=
  let err m := InvalidRecord idem (msg m) in
  reject? (job_updated_at receipt_job <? job_created_at receipt_job)%Z
    with err "receipt.job.updated_at must not be earlier than created_at" in
  let? _ :=
    match job_started_at receipt_job with
    | Some started_at =>
        reject? (started_at <? job_created_at receipt_job)%Z
          with err "receipt.job.started_at must not be earlier than created_at" in
        reject? (job_updated_at receipt_job <? started_at)%Z
          with err "receipt.job.started_at must not be later than updated_at" in
        Ok tt
    | None => Ok tt
    end in
  let? _ :=
    match job_completed_at receipt_job with
    | Some completed_at =>
        reject? (completed_at <? job_created_at receipt_job)%Z
          with err "receipt.job.completed_at must not be earlier than created_at" in
        reject? (job_updated_at receipt_job <? completed_at)%Z
          with err "receipt.job.completed_at must not be later than updated_at" in
        match job_started_at receipt_job with
        | Some started_at =>
            reject? (completed_at <? started_at)%Z
              with err "receipt.job.completed_at must not be earlier than started_at" in
            Ok tt
        | None => Ok tt
        end
    | None => Ok tt
    end in
  let? _ := ensure_same_repository idem "receipt.job.repository_id"
              (job_repository_id stored_job) (job_repository_id receipt_job) in
  let normalized_stored_job :=
    job_set_lifecycle stored_job (job_status stored_job) (job_updated_at receipt_job)
      (job_started_at stored_job) (job_completed_at stored_job) in
  reject? negb (bool_decide (normalized_stored_job = receipt_job))
    with Conflict "jobs"
      (Fmt "submit_job idempotency receipt job {} does not match stored job when ignoring updated_at"
         [AMsg (id_debug (job_id receipt_job))]) in
  Ok tt.

(** Does the event belong to the job, directly or through its tool records? *)
Definition submit_job_receipt_event_belongs_to_job inner (i : JobId) (event : JobEvent)
  : StoreResult bool :=
  let refs := evt_refs event in
  if match ref_job_id refs with Some j => bool_decide (j = i) | None => false end then Ok true
  else if bool_decide (subject_type (evt_subject event) = SubjJob)
          && str_eqb (subject_id (evt_subject event)) (as_str i) then Ok true
  else
  let? by_invocation :=
    match ref_tool_invocation_id refs with
    | None => Ok false
    | Some t =>
        let? tool_invocation := get_ref (tool_invocations inner) t "tool_invocations"
              "submit_job_idempotency.event.refs.tool_invocation_id" in
        Ok (bool_decide (inv_job_id tool_invocation = i))
    end in
  if by_invocation then Ok true else
  let? by_result :=
    match ref_tool_result_id refs with
    | None => Ok false
    | Some r =>
        let? tool_result := get_ref (tool_results inner) r "tool_results"
              "submit_job_idempotency.event.refs.tool_result_id" in
        let? tool_invocation := get_ref (tool_invocations inner) (res_invocation_id tool_result)
              "tool_invocations" "submit_job_idempotency.event.refs.tool_result_id.invocation_id" in
        Ok (bool_decide (inv_job_id tool_invocation = i))
    end in
  if by_result then Ok true else
  match ref_audit_record_id refs with
  | None => Ok false
  | Some a =>
      let? audit_record := get_ref (audit_records inner) a "audit_records"
            "submit_job_idempotency.event.refs.audit_record_id" in
      match aud_tool_invocation_id audit_record with
      | None => Ok false
      | Some t =>
          let? tool_invocation := get_ref (tool_invocations inner) t "tool_invocations"
                "submit_job_idempotency.event.refs.audit_record_id.tool_invocation_id" in
          Ok (bool_decide (inv_job_id tool_invocation = i))
      end
  end.

Definition validate_submit_job_receipt_event_lineage inner (i : JobId) (event : JobEvent)
  : StoreResult unit :=
  let? belongs := submit_job_receipt_event_belongs_to_job inner i event in
  if belongs : bool then Ok tt
  else Err (InvalidReference idem
         (Fmt "receipt.event {} does not belong to receipt.job {}"
            [AMsg (id_debug (evt_id event)); AMsg (id_debug i)])).

Definition validate_loaded_submit_job_receipt_lineage inner (receipt : RuntimeJobReceipt)
  : StoreResult unit :=
  let job := rcp_job receipt in
  let decision := rcp_policy_decision receipt in
  let? _ := ensure_same_repository idem "receipt.policy_decision.repository_id"
              (job_repository_id job) (pol_repository_id decision) in
  let? _ :=
    match rcp_tool_invocation receipt with
    | None => Ok tt
    | Some inv =>
        let? _ := ensure_same_repository idem "receipt.tool_invocation.repository_id"
                    (job_repository_id job) (inv_repository_id inv) in
        reject? negb (bool_decide (inv_job_id inv = job_id job))
          with InvalidReference idem
            (Fmt "receipt.tool_invocation {} does not belong to receipt.job {}"
               [AMsg (id_debug (inv_id inv)); AMsg (id_debug (job_id job))]) in
        reject? negb (bool_decide (inv_policy_decision_id inv = pol_id decision))
          with InvalidReference idem
            (Fmt "receipt.tool_invocation {} does not belong to receipt.policy_decision {}"
               [AMsg (id_debug (inv_id inv)); AMsg (id_debug (pol_id decision))]) in
        Ok tt
    end in
  let? _ :=
    match rcp_tool_result receipt, rcp_tool_invocation receipt with
    | Some res, Some inv =>
        reject? negb (bool_decide (res_invocation_id res = inv_id inv))
          with InvalidReference idem
            (Fmt "receipt.tool_result {} does not reference receipt.tool_invocation {}"
               [AMsg (id_debug (res_id res)); AMsg (id_debug (inv_id inv))]) in
        Ok tt
    | _, _ => Ok tt
    end in
  let? _ :=
    match rcp_audit_record receipt with
    | None => Ok tt
    | Some aud =>
        let? _ := ensure_same_repository idem "receipt.audit_record.repository_id"
                    (job_repository_id job) (aud_repository_id aud) in
        reject? negb (bool_decide (aud_policy_decision_id aud = pol_id decision))
          with InvalidReference idem
            (Fmt "receipt.audit_record {} does not belong to receipt.policy_decision {}"
               [AMsg (id_debug (aud_id aud)); AMsg (id_debug (pol_id decision))]) in
        match aud_tool_invocation_id aud, rcp_tool_invocation receipt with
        | Some t, Some inv =>
            reject? negb (bool_decide (t = inv_id inv))
              with InvalidReference idem
                (Fmt "receipt.audit_record {} does not reference receipt.tool_invocation {}"
                   [AMsg (id_debug (aud_id aud)); AMsg (id_debug (inv_id inv))]) in
            Ok tt
        | _, _ => Ok tt
        end
    end in
  for_each (validate_submit_job_receipt_event_lineage inner (job_id job)) (rcp_events receipt).

(** The event a sequence entry names. *)
Definition event_of_id inner (i : JobEventId) : StoreResult JobEvent :=
  ok_or (job_events_by_id inner !! i)
    (Conflict "job_events"
       (Fmt "sequence index references missing id {}" [AMsg (id_debug i)])).

(** The loop of [expected_submit_job_receipt_events]: the events of the job in
    ledger order, which must end at [latest]. *)
Fixpoint expected_events_loop inner (i : JobId) (latest : JobEventId) (ids : list JobEventId)
  (found : bool) (acc : list JobEvent) : StoreResult (bool * list JobEvent) :=
  match ids with
  | [] => Ok (found, acc)
  | event_id :: ids =>
      let? event := event_of_id inner event_id in
      let? belongs := submit_job_receipt_event_belongs_to_job inner i event in
      if belongs : bool then
        reject? found
          with InvalidRecord idem
            (Fmt "receipt.job.latest_event_id {} is not the end of the current job event chain for job {}"
               [AMsg (id_debug latest); AMsg (id_debug i)]) in
        expected_events_loop inner i latest ids
          (found || bool_decide (evt_id event = latest)) (acc ++ [event])
      else expected_events_loop inner i latest ids found acc
  end.

Definition expected_submit_job_receipt_events inner (receipt : RuntimeJobReceipt)
  : StoreResult (list JobEvent) :=
  let i := job_id (rcp_job receipt) in
  let? latest := ok_or (job_latest_event_id (rcp_job receipt))
    (InvalidRecord idem
       (Fmt "receipt.job.latest_event_id is missing for job {}" [AMsg (id_debug i)])) in
  let? '(found, events) :=
    expected_events_loop inner i latest (btree_values (job_events_by_sequence inner)) false [] in
  reject? negb found
    with InvalidReference idem
      (Fmt "receipt.job.latest_event_id {} was not found in the stored job event chain for job {}"
         [AMsg (id_debug latest); AMsg (id_debug i)]) in
  Ok events.

(** The zip of expected and recorded events. *)
Fixpoint same_event_chain (i : JobId) (index : Z) (expected recorded : list JobEvent)
  : StoreResult unit :=
  match expected, recorded with
  | e :: expected, r :: recorded =>
      reject? negb (bool_decide (e = r))
        with InvalidReference idem
          (Fmt "receipt.events[{index}] does not match the stored job event chain for job {}"
             [ANum index; AMsg (id_debug i)]) in
      same_event_chain i (index + 1) expected recorded
  | _, _ => Ok tt
  end.

Definition validate_loaded_submit_job_receipt_event_chain inner (receipt : RuntimeJobReceipt)
  : StoreResult unit :=
  let? expected := expected_submit_job_receipt_events inner receipt in
  reject? negb (length expected =? length (rcp_events receipt))%nat
    with InvalidRecord idem
      (Fmt "receipt.events must contain the complete job event chain for job {}"
         [AMsg (id_debug (job_id (rcp_job receipt)))]) in
  same_event_chain (job_id (rcp_job receipt)) 0 expected (rcp_events receipt).

(** The tool records of the receipt: all of them or none, each as stored. *)
Definition validate_receipt_tool_records inner (receipt : RuntimeJobReceipt) : StoreResult unit :=
  match rcp_tool_invocation receipt, rcp_tool_result receipt, rcp_rendered_output receipt,
        rcp_audit_record receipt with
  | None, None, None, None => Ok tt
  | Some inv, Some res, Some _, Some aud =>
      let? stored_inv := get_ref (tool_invocations inner) (inv_id inv) "tool_invocations"
                           "submit_job_idempotency.tool_invocation" in
      reject? negb (bool_decide (stored_inv = inv))
        with InvalidReference idem
          (Fmt "receipt.tool_invocation {} does not match stored tool invocation record"
             [AMsg (id_debug (inv_id inv))]) in
      let? stored_res := get_ref (tool_results inner) (res_id res) "tool_results"
                           "submit_job_idempotency.tool_result" in
      reject? negb (bool_decide (stored_res = res))
        with InvalidReference idem
          (Fmt "receipt.tool_result {} does not match stored tool result record"
             [AMsg (id_debug (res_id res))]) in
      let? stored_aud := get_ref (audit_records inner) (aud_id aud) "audit_records"
                           "submit_job_idempotency.audit_record" in
      reject? negb (bool_decide (stored_aud = aud))
        with InvalidReference idem
          (Fmt "receipt.audit_record {} does not match stored audit record"
             [AMsg (id_debug (aud_id aud))]) in
      reject? negb (bool_decide (res_invocation_id res = inv_id inv))
        with InvalidReference idem
          (Fmt "receipt.tool_result {} does not reference receipt.tool_invocation {}"
             [AMsg (id_debug (res_id res)); AMsg (id_debug (inv_id inv))]) in
      reject? negb (bool_decide (aud_tool_invocation_id aud = Some (inv_id inv)))
        with InvalidReference idem
          (Fmt "receipt.audit_record {} does not reference receipt.tool_invocation {}"
             [AMsg (id_debug (aud_id aud)); AMsg (id_debug (inv_id inv))]) in
      Ok tt
  | _, _, _, _ =>
      Err (InvalidRecord idem
        (msg "successful submit_job receipts must include either all tool records or none"))
  end.

(** [windows(2)]: strictly increasing sequence numbers. *)
Fixpoint increasing_sequences (index : Z) (events : list JobEvent) : StoreResult unit :=
  match events with
  | previous :: ((event :: _) as rest) =>
      reject? (evt_sequence_number event <=? evt_sequence_number previous)%N
        with InvalidRecord idem
          (Fmt "receipt.events[{next_index}] sequence_number {} must be greater than receipt.events[{previous_index}] sequence_number {}"
             [ANum (index + 1); ANum (Z.of_N (evt_sequence_number event));
              ANum index; ANum (Z.of_N (evt_sequence_number previous))]) in
      increasing_sequences (index + 1) rest
  | _ => Ok tt
  end.

Definition validate_receipt_stored_event inner (event : JobEvent) : StoreResult unit :=
  let? stored := get_ref (job_events_by_id inner) (evt_id event) "job_events"
                   "submit_job_idempotency.events" in
  reject? negb (bool_decide (stored = event))
    with InvalidReference idem
      (Fmt "receipt.event {} does not match stored job event record"
         [AMsg (id_debug (evt_id event))]) in
  Ok tt.

Definition validate_loaded_submit_job_receipt inner (receipt : RuntimeJobReceipt)
  : StoreResult unit :=
  let job := rcp_job receipt in
  let? stored_job := get_ref (jobs inner) (job_id job) "jobs" "submit_job_idempotency.job" in
  let? _ := validate_loaded_submit_job_receipt_job stored_job job in
  let? stored_policy := get_ref (policy_decisions inner) (pol_id (rcp_policy_decision receipt))
                          "policy_decisions" "submit_job_idempotency.policy_decision" in
  reject? negb (bool_decide (stored_policy = rcp_policy_decision receipt))
    with InvalidReference idem
      (Fmt "receipt.policy_decision {} does not match stored policy decision record"
         [AMsg (id_debug (pol_id (rcp_policy_decision receipt)))]) in
  let? _ := validate_loaded_submit_job_receipt_lineage inner receipt in
  let? _ := validate_receipt_tool_records inner receipt in
  reject? bool_decide (rcp_events receipt = [])
    with InvalidRecord idem (msg "successful submit_job receipts must include events") in
  let? _ := increasing_sequences 0 (rcp_events receipt) in
  let? _ := validate_loaded_submit_job_receipt_event_chain inner receipt in
  let? _ := for_each (validate_receipt_stored_event inner) (rcp_events receipt) in
  reject? negb (bool_decide (job_latest_event_id job = evt_id <$> last (rcp_events receipt)))
    with InvalidReference idem
      (Fmt "receipt.job.latest_event_id does not match the final receipt event for job {}"
         [AMsg (id_debug (job_id job))]) in
  Ok tt.

Definition validate_submit_job_idempotency_record inner (key : string)
  (record : SubmitJobIdempotencyRecord) : StoreResult unit :=
  reject? is_blank key with InvalidRecord idem (msg "idempotency key must not be empty") in
  reject? is_blank (idem_signature record)
    with InvalidRecord idem
      (Fmt "idempotency key {} has an empty request signature" [AMsg (str_debug key)]) in
  reject? negb (bool_decide (job_status (rcp_job (idem_receipt record)) = Succeeded))
    with InvalidRecord idem
      (Fmt "idempotency key {} must reference a succeeded submit_job receipt"
         [AMsg (str_debug key)]) in
  validate_loaded_submit_job_receipt inner (idem_receipt record).

Definition insert_submit_job_idempotency_locked inner (key : string)
  (record : SubmitJobIdempotencyRecord) : StoreResult InMemoryInner :=
  let? _ := validate_submit_job_idempotency_record inner key record in
  match idempotent_submit_jobs inner !! key with
  | Some existing =>
      if bool_decide (existing = record) then Ok inner
      else Err (Conflict idem
             (Fmt "idempotency key {} is already bound to a different submit receipt"
                [AMsg (str_debug key)]))
  | None =>
      Ok (set_idempotent_submit_jobs inner (<[key := record]> (idempotent_submit_jobs inner)))
  end.
End Receipts.
