(* ===== verification/Store.v ===== *)
(** * Store: the transactions of [InMemoryStore] ([store.rs])

    Each mutating method of [SecretaryStore] runs a closure on a clone of the
    state.  Here the closure is a function from the state to either an error or
    the new state, the value returned and, where the method publishes, the
    events to publish.  [StoreShell] wraps them with the lock, the durable
    snapshot and the broadcast. *)
From S2P Require Import Prelude Text Domain Policy StoreTypes StoreValidate StoreJobs.

Section Transactions.
Context `{UuidLib} `{RegistryPort}.
Implicit Types inner : InMemoryInner.

Definition Tx (R : Type) : Type := InMemoryInner → StoreResult (InMemoryInner * R).
(** A transaction of [mutate_with_published_events]. *)
Definition PubTx (R : Type) : Type := InMemoryInner → StoreResult (InMemoryInner * R * list JobEvent).

(** ** Collections *)

Definition insert_record {k V} (m : gmap (OpaqueId k) V) (i : OpaqueId k) (record : V)
  (collection : string) : StoreResult (gmap (OpaqueId k) V) :=
  reject? contains_key m i with DuplicateId collection (id_debug i) in
  Ok (<[i := record]> m).

Definition get_record {k V} (m : gmap (OpaqueId k) V) (i : OpaqueId k) (collection : string)
  : StoreResult V :=
  ok_or (m !! i) (NotFound collection (id_debug i)).

(** ** The event ledger *)

Definition append_event_locked inner (event : JobEvent) : StoreResult (InMemoryInner * JobEvent) :=
  let? next_sequence := ok_or (checked_add_u64 (next_event_sequence inner) 1) SequenceOverflow in
  let event := evt_set_sequence event next_sequence in
  Ok (set_ledger inner
        (<[evt_id event := event]> (job_events_by_id inner))
        (<[next_sequence := evt_id event]> (job_events_by_sequence inner))
        next_sequence, event).

Definition ensure_event_sequence_capacity inner (event_count : N) : StoreResult unit :=
  let? _ := ok_or (checked_add_u64 (next_event_sequence inner) event_count) SequenceOverflow in
  Ok tt.

(** [inner.jobs.insert(record.id, record)] with the latest event set. *)
Definition put_job inner (record : JobRecord) (event : JobEvent) : InMemoryInner :=
  set_jobs inner (<[job_id record := job_set_latest_event record (Some (evt_id event))]> (jobs inner)).

(** ** Repositories *)

Fixpoint blocked_policy_overlap inner (root_path : string) (decisions : list PolicyDecision)
  : StoreResult (option (PolicyDecision * string)) :=
  match decisions with
  | [] => Ok None
  | policy_decision :: decisions =>
      if negb (is_root_scoped_repository_block policy_decision)
      then blocked_policy_overlap inner root_path decisions
      else
        let? repository :=
          ok_or (repositories inner !! pol_repository_id policy_decision)
            (InvalidReference "policy_decisions"
               (Fmt "policy decision {} references missing repository {}"
                  [AMsg (id_debug (pol_id policy_decision));
                   AMsg (id_debug (pol_repository_id policy_decision))])) in
        if repository_roots_strictly_overlap root_path (repo_root_path repository)
        then Ok (Some (policy_decision, repo_root_path repository))
        else blocked_policy_overlap inner root_path decisions
  end.

Definition root_scoped_blocked_policy_overlapping_repository inner (root_path : string)
  : StoreResult (option (PolicyDecision * string)) :=
  blocked_policy_overlap inner root_path (hash_values (policy_decisions inner)).

Definition blocked_roots_conflict (record existing : RepositoryRecord) : bool :=
  repository_roots_strictly_overlap (repo_root_path record) (repo_root_path existing)
  && (bool_decide (repo_trust_state record = TrustBlocked)
      || bool_decide (repo_trust_state existing = TrustBlocked)).

Definition create_repository (record : RepositoryRecord) : Tx unit := λ inner,
  let? _ := validate_repository_record record in
  reject? existsb (λ repository, str_eqb (repo_root_path repository) (repo_root_path record))
            (hash_values (repositories inner))
    with DuplicateId "repositories" (Fmt "root_path {}" [AStr (repo_root_path record)]) in
  match find_bool (blocked_roots_conflict record) (hash_values (repositories inner)) with
  | Some conflicting_repository =>
      Err (Conflict "repositories"
        (Fmt "root_path {} conflicts with blocked repository root {}"
           [AStr (repo_root_path record); AStr (repo_root_path conflicting_repository)]))
  | None =>
      let? overlap :=
        root_scoped_blocked_policy_overlapping_repository inner (repo_root_path record) in
      match overlap with
      | Some (policy_decision, blocked_root) =>
          Err (Conflict "repositories"
            (Fmt "root_path {} conflicts with blocked policy root {} from policy decision {}"
               [AStr (repo_root_path record); AStr blocked_root;
                AMsg (id_debug (pol_id policy_decision))]))
      | None =>
          let? m := insert_record (repositories inner) (repo_id record) record "repositories" in
          Ok (set_repositories inner m, tt)
      end
  end.

(** ** Policy decisions *)

Definition create_policy_decision (record : PolicyDecision) : Tx unit := λ inner,
  let? _ := ensure_ref_exists (contains_key (repositories inner) (pol_repository_id record))
              "repositories" (pol_repository_id record) "policy_decision.repository_id" in
  let? _ :=
    (if is_root_scoped_repository_block record then
       let? repository :=
         ok_or (repositories inner !! pol_repository_id record)
           (NotFound "repositories" (id_debug (pol_repository_id record))) in
       match find_bool (λ existing,
                 negb (bool_decide (repo_id existing = repo_id repository))
                 && repository_roots_strictly_overlap (repo_root_path repository)
                      (repo_root_path existing)) (hash_values (repositories inner)) with
       | Some conflicting_repository =>
           Err (Conflict "policy_decisions"
             (Fmt "repository root_path {} conflicts with repository root_path {}"
                [AStr (repo_root_path repository); AStr (repo_root_path conflicting_repository)]))
       | None => Ok tt
       end
     else Ok tt) in
  let? m := insert_record (policy_decisions inner) (pol_id record) record "policy_decisions" in
  Ok (set_policy_decisions inner m, tt).

(** ** Lock decisions *)

Definition lock_conflicts (record existing : LockDecision) : bool :=
  is_active_lock_status (lock_status existing)
  && bool_decide (lock_repository_id existing = lock_repository_id record)
  && bool_decide (lock_locked_scope existing = lock_locked_scope record).

Definition create_lock_decision (record : LockDecision) : Tx unit := λ inner,
  reject? contains_key (lock_decisions inner) (lock_id record)
    with DuplicateId "lock_decisions" (id_debug (lock_id record)) in
  let? _ := validate_lock_decision_timing record in
  reject? negb (contains_key (repositories inner) (lock_repository_id record))
    with NotFound "repositories" (id_debug (lock_repository_id record)) in
  let? policy_decision :=
    ok_or (policy_decisions inner !! lock_policy_decision_id record)
      (NotFound "policy_decisions" (id_debug (lock_policy_decision_id record))) in
  let? _ := ensure_same_repository "lock_decisions" "lock_decision.policy_decision_id"
              (lock_repository_id record) (pol_repository_id policy_decision) in
  let? _ :=
    match lock_owner record with
    | OwnerJob i =>
        let? job := get_ref (jobs inner) i "jobs" "lock_decision.owner" in
        ensure_same_repository "lock_decisions" "lock_decision.owner"
          (lock_repository_id record) (job_repository_id job)
    | _ => Ok tt
    end in
  let? _ :=
    (if is_active_lock_status (lock_status record) then
       match find_bool (lock_conflicts record) (hash_values (lock_decisions inner)) with
       | Some existing =>
           Err (Conflict "lock_decisions"
             (Fmt "active lock {} already covers repository/scope"
                [AMsg (id_debug (lock_id existing))]))
       | None => Ok tt
       end
     else Ok tt) in
  Ok (set_lock_decisions inner (<[lock_id record := record]> (lock_decisions inner)), tt).

(** ** Schema migrations *)

(** The order of [max_by]: creation time, then id text. *)
Definition migration_after (left right : SchemaMigrationRecord) : bool :=
  (mig_created_at right <? mig_created_at left)%Z
  || ((mig_created_at right =? mig_created_at left)%Z
      && key_ltb (as_str (mig_id right)) (as_str (mig_id left))).

(** [Iterator::max_by]: the last of the greatest elements. *)
Definition max_migration (l : list SchemaMigrationRecord) : option SchemaMigrationRecord :=
  foldl (λ best x, match best with
                   | None => Some x
                   | Some b => if migration_after b x then Some b else Some x
                   end) None l.

Definition schema_migration_lock_records (m : gmap SchemaMigrationId SchemaMigrationRecord)
  : list SchemaMigrationRecord :=
  List.filter is_schema_migration_lock (hash_values m).

Definition most_recent_schema_migration_lock_record
  (m : gmap SchemaMigrationId SchemaMigrationRecord) : option SchemaMigrationRecord :=
  max_migration (schema_migration_lock_records m).

Definition lock_active_at (at_ : LedgerTimestamp) (record : SchemaMigrationRecord) : bool :=
  match mig_migration_lock record with Some lock => is_active lock at_ | None => false end.

Definition active_migration_lock inner (at_ : LedgerTimestamp) : option SchemaMigrationRecord :=
  max_migration
    (List.filter (lock_active_at at_) (schema_migration_lock_records (schema_migrations inner))).

Definition lock_leader_or_unknown (record : SchemaMigrationRecord) : string :=
  match mig_migration_lock record with Some lock => ml_leader_id lock | None => "<unknown>" end.

Definition schema_migration_lock_conflict_reason (active_lock : SchemaMigrationRecord) : Message :=
  Fmt "active migration lock {} already held by {}"
    [AMsg (id_debug (mig_id active_lock)); AStr (lock_leader_or_unknown active_lock)].

(** One record of [expire_schema_migration_locks]. *)
Definition expire_lock (now : LedgerTimestamp) (record : SchemaMigrationRecord)
  : SchemaMigrationRecord :=
  match mig_migration_lock record with
  | Some lock =>
      if bool_decide (ml_status lock = MlHeld) && is_expired lock now then
        let terminal_at := Z.max now (mig_updated_at record) in
        mig_set_lock record (ml_close lock MlExpired terminal_at) terminal_at
      else record
  | None => record
  end.

Definition expire_schema_migration_locks inner (now : LedgerTimestamp) : InMemoryInner :=
  set_schema_migrations inner (expire_lock now <$> schema_migrations inner).

Definition create_schema_migration (record : SchemaMigrationRecord) : Tx unit := λ inner,
  let? _ := validate_schema_migration_record record in
  let write_at :=
    match mig_migration_lock record with
    | Some lock => ml_locked_at lock
    | None => mig_updated_at record
    end in
  let inner := expire_schema_migration_locks inner write_at in
  let? _ :=
    match active_migration_lock inner write_at with
    | Some active_lock =>
        let conflict := Conflict "schema_migrations"
                          (schema_migration_lock_conflict_reason active_lock) in
        reject? is_migration_lock record with conflict in
        reject? negb (bool_decide
                        (mig_leader_id record = Some (lock_leader_or_unknown active_lock)))
          with conflict in
        Ok tt
    | None => Ok tt
    end in
  let? m := insert_record (schema_migrations inner) (mig_id record) record "schema_migrations" in
  Ok (set_schema_migrations inner m, tt).

(** [uuid] is the value [SchemaMigrationId::new] draws.  The [expect] on
    [new_migration_lock] panics on an error; [None] stands for that panic. *)
Definition acquire_schema_migration_lock (uuid leader_id : string) (safe : bool)
  (timeout_millis : N) (locked_at : LedgerTimestamp) : Tx (option SchemaMigrationRecord) := λ inner,
  reject? is_blank leader_id
    with InvalidRecord "schema_migrations" (msg "leader_id must not be blank") in
  reject? (timeout_millis =? 0)%N
    with InvalidRecord "schema_migrations" (msg "timeout_millis must be greater than zero") in
  let inner := expire_schema_migration_locks inner locked_at in
  match active_migration_lock inner locked_at with
  | Some active_lock =>
      Err (Conflict "schema_migrations" (schema_migration_lock_conflict_reason active_lock))
  | None =>
      match new_migration_lock uuid leader_id locked_at safe timeout_millis with
      | Err _ => Ok (inner, None)
      | Ok record =>
          let? m := insert_record (schema_migrations inner) (mig_id record) record
                      "schema_migrations" in
          Ok (set_schema_migrations inner m, Some record)
      end
  end.

Definition get_schema_migration_lock (now : LedgerTimestamp) : Tx (option SchemaMigrationRecord) :=
  λ inner,
  let inner := expire_schema_migration_locks inner now in
  Ok (inner, most_recent_schema_migration_lock_record (schema_migrations inner)).

Definition release_schema_migration_lock (i : SchemaMigrationId) (leader_id : string)
  (released_at : LedgerTimestamp) : Tx SchemaMigrationRecord := λ inner,
  let inner := expire_schema_migration_locks inner released_at in
  let? record := get_record (schema_migrations inner) i "schema_migrations" in
  reject? negb (is_schema_migration_lock record)
    with InvalidRecord "schema_migrations"
           (Fmt "{} is not a migration lock" [AMsg (id_debug i)]) in
  match mig_migration_lock record with
  | None => Err (InvalidRecord "schema_migrations"
                   (Fmt "{} is not a migration lock" [AMsg (id_debug i)]))
  | Some lock_record =>
      reject? negb (str_eqb (ml_leader_id lock_record) leader_id)
        with Conflict "schema_migrations" (msg "migration lock leader_id mismatch") in
      if bool_decide (ml_status lock_record = MlReleased) then Ok (inner, record)
      else
      reject? bool_decide (ml_status lock_record = MlExpired)
        with Conflict "schema_migrations" (msg "migration lock is already expired") in
      reject? (released_at <? ml_locked_at lock_record)%Z
        with InvalidRecord "schema_migrations"
               (msg "released_at must not be earlier than locked_at") in
      let record := mig_set_lock record (ml_close lock_record MlReleased released_at)
                      (Z.max released_at (mig_updated_at record)) in
      Ok (set_schema_migrations inner (<[i := record]> (schema_migrations inner)), record)
  end.

(** ** Tool invocations, results and audit records *)

Definition create_tool_invocation (record : ToolInvocation) : Tx unit := λ inner,
  let? _ := validate_tool_invocation_refs inner record in
  let? m := insert_record (tool_invocations inner) (inv_id record) record "tool_invocations" in
  Ok (set_tool_invocations inner m, tt).

Definition create_tool_result (record : ToolResult) : Tx unit := λ inner,
  let? _ := validate_tool_result_refs inner record in
  let? m := insert_record (tool_results inner) (res_id record) record "tool_results" in
  Ok (set_tool_results inner m, tt).

Definition create_audit_record (record : AuditRecord) : Tx unit := λ inner,
  let? _ := validate_audit_record_refs inner record in
  let? m := insert_record (audit_records inner) (aud_id record) record "audit_records" in
  Ok (set_audit_records inner m, tt).

Definition record_submit_job_idempotency (key : string) (record : SubmitJobIdempotencyRecord)
  : Tx unit := λ inner,
  let? inner := insert_submit_job_idempotency_locked inner key record in
  Ok (inner, tt).

Definition set_extension_registry_snapshot (snapshot : registry_snapshot) : Tx unit :=
  λ inner,
  let? _ := map_err (InvalidRecord "extension_registry") (registry_validate snapshot) in
  Ok (set_extension_snapshot inner snapshot, tt).

(** ** Jobs and their events *)

Definition create_job_with_initial_event (record : JobRecord) (initial_event : JobEvent)
  : PubTx JobEvent := λ inner,
  let? _ := validate_job_refs inner record in
  reject? contains_key (jobs inner) (job_id record)
    with DuplicateId "jobs" (id_debug (job_id record)) in
  let? _ := validate_initial_event_for_job record initial_event in
  let? _ := validate_new_job_event inner initial_event (Some record) in
  let? '(inner, event) := append_event_locked inner initial_event in
  Ok (put_job inner record event, event, [event]).

Definition append_job_event (event : JobEvent) : PubTx JobEvent := λ inner,
  let? _ := validate_new_job_event inner event None in
  let? '(inner, event) := append_event_locked inner event in
  Ok (inner, event, [event]).

Definition append_job_event_and_update_job (record : JobRecord) (event : JobEvent)
  : PubTx JobEvent := λ inner,
  let? _ := validate_job_update inner record event in
  let? _ := validate_new_job_event inner event None in
  let? '(inner, event) := append_event_locked inner event in
  Ok (put_job inner record event, event, [event]).

(** [events.last_mut()] and [events.get_mut(len.saturating_sub(n))]; both do
    nothing on an empty list. *)
Definition set_from_end {A} (n : nat) (x : A) (l : list A) : list A := <[length l - n := x]> l.

Definition append_job_event_and_update_job_with_submit_job_idempotency (record : JobRecord)
  (event : JobEvent) (key : string) (idempotency_record : SubmitJobIdempotencyRecord)
  : PubTx JobEvent := λ inner,
  let? _ := validate_job_update inner record event in
  let? _ := validate_new_job_event inner event None in
  let? '(inner, event) := append_event_locked inner event in
  let committed_job := job_set_latest_event record (Some (evt_id event)) in
  let inner := put_job inner record event in
  let receipt := idem_receipt idempotency_record in
  let idempotency_record := {|
    idem_signature := idem_signature idempotency_record;
    idem_receipt := rcp_set receipt committed_job (set_from_end 1 event (rcp_events receipt)) |} in
  let? inner := insert_submit_job_idempotency_locked inner key idempotency_record in
  Ok (inner, event, [event]).

Definition append_job_events_and_update_job (first_record : JobRecord) (first_event : JobEvent)
  (final_record : JobRecord) (final_event : JobEvent) : PubTx (JobEvent * JobEvent) := λ inner,
  let? _ := validate_sibling_event_ids_are_unique first_event final_event in
  let? _ := validate_two_stage_job_update_identity first_record first_event final_record
              final_event in
  let? _ := validate_job_update inner first_record first_event in
  let? _ := validate_new_job_event inner first_event None in
  let intermediate_record := job_set_latest_event first_record (Some (evt_id first_event)) in
  let? _ := validate_job_update_against intermediate_record final_record final_event in
  let? _ := validate_new_job_event inner final_event None in
  let? _ := ensure_event_sequence_capacity inner 2 in
  let? '(inner, first_event) := append_event_locked inner first_event in
  let? '(inner, final_event) := append_event_locked inner final_event in
  Ok (put_job inner final_record final_event, (first_event, final_event),
      [first_event; final_event]).

(** The checks [record_tool_result_and_audit_with_events] and
    [record_tool_result_audit_terminal_with_submit_job_idempotency] share, with
    the capacity they reserve. *)
Definition validate_result_and_audit inner (record : JobRecord) (tool_result : ToolResult)
  (tool_result_event : JobEvent) (audit_record : AuditRecord) (audit_event : JobEvent)
  (event_count : N) : StoreResult unit :=
  let? _ := validate_job_update inner record tool_result_event in
  let? _ := validate_job_update inner record audit_event in
  let? _ := validate_tool_result_refs inner tool_result in
  let? _ := validate_audit_record_refs_with_pending_tool_result inner audit_record
              (Some tool_result) in
  let? _ := validate_new_job_event_with_pending_records inner tool_result_event None
              (Some tool_result) None in
  let? _ := validate_new_job_event_with_pending_records inner audit_event None
              (Some tool_result) (Some audit_record) in
  let? _ := ensure_ref_absent (negb (contains_key (tool_results inner) (res_id tool_result)))
              "tool_results" (res_id tool_result) in
  let? _ := ensure_ref_absent (negb (contains_key (audit_records inner) (aud_id audit_record)))
              "audit_records" (aud_id audit_record) in
  ensure_event_sequence_capacity inner event_count.

(** The writes both methods share. *)
Definition commit_result_and_audit inner (record : JobRecord) (tool_result : ToolResult)
  (tool_result_event : JobEvent) (audit_record : AuditRecord) (audit_event : JobEvent)
  : StoreResult (InMemoryInner * JobEvent * JobEvent) :=
  let? m := insert_record (tool_results inner) (res_id tool_result) tool_result "tool_results" in
  let inner := set_tool_results inner m in
  let? '(inner, tool_result_event) := append_event_locked inner tool_result_event in
  let inner := put_job inner record tool_result_event in
  let? m := insert_record (audit_records inner) (aud_id audit_record) audit_record
              "audit_records" in
  let inner := set_audit_records inner m in
  let? '(inner, audit_event) := append_event_locked inner audit_event in
  Ok (put_job inner record audit_event, tool_result_event, audit_event).

Definition record_tool_result_and_audit_with_events (record : JobRecord) (tool_result : ToolResult)
  (tool_result_event : JobEvent) (audit_record : AuditRecord) (audit_event : JobEvent)
  : PubTx (JobEvent * JobEvent) := λ inner,
  let? _ := validate_sibling_event_ids_are_unique tool_result_event audit_event in
  let? _ := validate_result_and_audit inner record tool_result tool_result_event audit_record
              audit_event 2 in
  let? '(inner, tool_result_event, audit_event) :=
    commit_result_and_audit inner record tool_result tool_result_event audit_record audit_event in
  Ok (inner, (tool_result_event, audit_event), [tool_result_event; audit_event]).

Definition terminal_status_of (s : ToolResultStatus) : JobStatus :=
  match s with
  | TrSucceeded => Succeeded
  | TrFailed | TrTimedOut => Failed
  | TrCanceled => Canceled
  end.

(** The receipt with its last three events and its job replaced by what was
    committed. *)
Definition commit_receipt (r : SubmitJobIdempotencyRecord) (final_record : JobRecord)
  (tool_result_event audit_event terminal_event : JobEvent) : SubmitJobIdempotencyRecord :=
  let receipt := idem_receipt r in {|
  idem_signature := idem_signature r;
  idem_receipt := rcp_set receipt final_record
    (set_from_end 1 terminal_event
       (set_from_end 2 audit_event
          (set_from_end 3 tool_result_event (rcp_events receipt)))) |}.

Definition record_tool_result_audit_terminal_with_submit_job_idempotency
  (request : ToolResultAuditTerminalRequest) : PubTx (JobEvent * JobEvent * JobEvent) := λ inner,
  let record := tat_record request in
  let tool_result := tat_tool_result request in
  let tool_result_event := tat_tool_result_event request in
  let audit_record := tat_audit_record request in
  let audit_event := tat_audit_event request in
  let terminal_event := tat_terminal_event request in
  let? _ := validate_sibling_event_ids_are_unique tool_result_event audit_event in
  let? _ := validate_sibling_event_ids_are_unique tool_result_event terminal_event in
  let? _ := validate_sibling_event_ids_are_unique audit_event terminal_event in
  let? _ := validate_result_and_audit inner record tool_result tool_result_event audit_record
              audit_event 3 in
  let? final_record :=
    map_err (λ error, Conflict "jobs"
        (Fmt "job update for {} has invalid lifecycle transition: {error:?}"
           [AMsg (id_debug (job_id record)); ATransition error]))
      (transition_status record (terminal_status_of (res_status tool_result))
         (evt_created_at terminal_event)) in
  let? _ := validate_job_update_against record final_record terminal_event in
  let? _ := validate_new_job_event_with_pending_records inner terminal_event (Some final_record)
              (Some tool_result) (Some audit_record) in
  let? '(inner, tool_result_event, audit_event) :=
    commit_result_and_audit inner record tool_result tool_result_event audit_record audit_event in
  let? '(inner, terminal_event) := append_event_locked inner terminal_event in
  let inner := put_job inner final_record terminal_event in
  let final_record := job_set_latest_event final_record (Some (evt_id terminal_event)) in
  let? inner :=
    match tat_idempotency request with
    | Some (key, idempotency_record) =>
        insert_submit_job_idempotency_locked inner key
          (commit_receipt idempotency_record final_record tool_result_event audit_event
             terminal_event)
    | None => Ok inner
    end in
  Ok (inner, (tool_result_event, audit_event, terminal_event),
      [tool_result_event; audit_event; terminal_event]).
End Transactions.
