(* ===== verification/StoreQuery.v ===== *)
(** * StoreQuery: the read side of the store ([store.rs])

    Event cursors and replay, event filters, pagination of jobs and events, the
    repository an event belongs to, and the status snapshot of a project. *)
From S2P Require Import Prelude Text Domain StoreTypes StoreValidate StoreJobs Store.

Section Query.
Context `{RegistryPort}.
Implicit Types inner : InMemoryInner.

(** ** The repository of an event *)

Definition ensure_owned_event_repository_consistency (expected : option RepositoryId)
  (actual : RepositoryId) (context : string) : StoreResult (option RepositoryId) :=
  match expected with
  | Some e => let? _ := ensure_same_repository "job_events" context e actual in Ok (Some e)
  | None => Ok (Some actual)
  end.

(** One optional reference: look the record up and compare its repository. *)
Definition derive_from_ref {k V} (m : gmap (OpaqueId k) V) (r : option (OpaqueId k))
  (collection context : string) (repository_of : V → StoreResult RepositoryId)
  (expected : option RepositoryId) : StoreResult (option RepositoryId) :=
  match r with
  | None => Ok expected
  | Some i =>
      let? record := get_ref m i collection context in
      let? repository := repository_of record in
      ensure_owned_event_repository_consistency expected repository context
  end.

Definition derive_event_repository_from_refs inner (event : JobEvent)
  (event_repo : option RepositoryId) : StoreResult (option RepositoryId) :=
  let refs := evt_refs event in
  let? r := derive_from_ref (jobs inner) (ref_job_id refs) "jobs" "job_event.refs.job_id"
              (λ job, Ok (job_repository_id job)) event_repo in
  let? r := derive_from_ref (policy_decisions inner) (ref_policy_decision_id refs)
              "policy_decisions" "job_event.refs.policy_decision_id"
              (λ p, Ok (pol_repository_id p)) r in
  let? r := derive_from_ref (lock_decisions inner) (ref_lock_decision_id refs)
              "lock_decisions" "job_event.refs.lock_decision_id"
              (λ l, Ok (lock_repository_id l)) r in
  let? r := derive_from_ref (tool_invocations inner) (ref_tool_invocation_id refs)
              "tool_invocations" "job_event.refs.tool_invocation_id"
              (λ i, Ok (inv_repository_id i)) r in
  let? r := derive_from_ref (tool_results inner) (ref_tool_result_id refs)
              "tool_results" "job_event.refs.tool_result_id"
              (λ res,
                let? invocation :=
                  ok_or (tool_invocations inner !! res_invocation_id res)
                    (Conflict "tool_results"
                       (Fmt "tool_result {} references missing invocation {}"
                          [AOptId (ref_tool_result_id refs);
                           AMsg (id_debug (res_invocation_id res))])) in
                Ok (inv_repository_id invocation)) r in
  derive_from_ref (audit_records inner) (ref_audit_record_id refs)
    "audit_records" "job_event.refs.audit_record_id" (λ a, Ok (aud_repository_id a)) r.

Definition event_repository_id inner (event : JobEvent) : StoreResult (option RepositoryId) :=
  match ref_repository_id (evt_refs event) with
  | Some r => Ok (Some r)
  | None =>
      let? srepo := subject_repository_id inner event None None None in
      derive_event_repository_from_refs inner event srepo
  end.

(** ** Cursors and replay *)

Definition event_cursor_sequence inner (cursor : EventCursor) : StoreResult N :=
  match cursor with
  | Beginning => Ok 0%N
  | AfterSequence sequence => Ok sequence
  | AfterEventId i =>
      let? event := ok_or (job_events_by_id inner !! i)
                      (InvalidCursor (Fmt "unknown event id: {}" [AMsg (id_debug i)])) in
      Ok (evt_sequence_number event)
  end.

Definition resolve_event_cursor_sequence inner (cursor : EventCursor) : StoreResult (option N) :=
  match cursor with
  | Beginning => Ok None
  | AfterSequence sequence => Ok (Some sequence)
  | AfterEventId i =>
      let? n := event_cursor_sequence inner (AfterEventId i) in Ok (Some n)
  end.

Definition cursor_expired_live_event_id (i : JobEventId) : StoreError :=
  CursorExpired (Fmt "live watch event cursor {} is no longer retained; refresh status before opening a live watch"
    [AMsg (id_debug i)]).

Definition resolve_live_event_cursor_sequence inner (cursor : EventCursor)
  : StoreResult (option N) :=
  match cursor with
  | AfterEventId i =>
      match job_events_by_id inner !! i with
      | Some event => Ok (Some (evt_sequence_number event))
      | None => Err (cursor_expired_live_event_id i)
      end
  | cursor => resolve_event_cursor_sequence inner cursor
  end.

(** [take(limit.unwrap_or(usize::MAX))] *)
Definition take_limit {A} (limit : option N) (l : list A) : list A :=
  match limit with Some n => take (N.to_nat n) l | None => l end.

Definition replay_job_events inner (cursor : EventCursor) (limit : option N)
  : StoreResult (list JobEvent) :=
  let? after_sequence := event_cursor_sequence inner cursor in
  match checked_add_u64 after_sequence 1 with
  | None => Ok []
  | Some start_sequence =>
      try_map (event_of_id inner)
        (take_limit limit (btree_range_from start_sequence (job_events_by_sequence inner)).*2)
  end.

(** ** Event filters *)

Definition severity_rank (s : EventSeverity) : N :=
  match s with SevDebug => 0 | SevInfo => 1 | SevWarning => 2 | SevError => 3 end.

(** [repository_ids]: the requested repository and the one of the event. *)
Definition matches_event_query (event : JobEvent) (query : EventQuery)
  (repository_ids : option (RepositoryId * option RepositoryId)) : bool :=
  let repository_matches :=
    match repository_ids with
    | Some (requested, actual) => bool_decide (actual = Some requested)
    | None => true
    end in
  let subject_matches :=
    bool_decide (eq_subject_ids query = [])
    || str_in (subject_id (evt_subject event)) (eq_subject_ids query) in
  let job_matches :=
    bool_decide (eq_job_ids query = [])
    || match ref_job_id (evt_refs event) with
       | None => bool_decide (subject_type (evt_subject event) = SubjJob)
                 && existsb (λ i, str_eqb (as_str i) (subject_id (evt_subject event)))
                      (eq_job_ids query)
       | Some i => bool_decide (i ∈ eq_job_ids query)
       end in
  let severity_matches :=
    match eq_min_severity query with
    | Some m => (severity_rank m <=? severity_rank (evt_severity event))%N
    | None => true
    end in
  repository_matches && subject_matches && job_matches && severity_matches.

Definition event_matches_query inner (event : JobEvent) (query : EventQuery) : StoreResult bool :=
  match eq_repository_id query with
  | Some requested =>
      let? actual := event_repository_id inner event in
      Ok (matches_event_query event query (Some (requested, actual)))
  | None => Ok (matches_event_query event query None)
  end.

(** ** Pagination *)

Definition page_start (page_token : option string) (collection : string) : StoreResult N :=
  match page_token with
  | Some token =>
      if str_is_empty token then Ok 0%N
      else ok_or (parse_usize token)
             (InvalidCursor (Fmt "{collection} page token is not a numeric offset"
                               [AStr collection]))
  | None => Ok 0%N
  end.

Definition page_token_of (start : N) (retained : nat) : string :=
  usize_to_string (start + N.of_nat retained).

(** The loop of [page_records]: skip [start], retain [page_size], and note
    whether something follows. *)
Fixpoint page_loop {A} (records : list A) (skipped start page_size : N) (retained : list A)
  : list A * bool :=
  match records with
  | [] => (retained, false)
  | record :: records =>
      if (skipped <? start)%N then page_loop records (skipped + 1) start page_size retained
      else if (N.of_nat (length retained) =? page_size)%N then (retained, true)
      else page_loop records skipped start page_size (retained ++ [record])
  end.

Definition page_records {A} (records : list A) (start page_size : N) : list A * option string :=
  if (page_size =? 0)%N then ([], None)
  else
    let '(retained, has_next) := page_loop records 0 start page_size [] in
    (retained, if has_next : bool then Some (page_token_of start (length retained)) else None).

Definition job_matches_query (query : JobQuery) (job : JobRecord) : bool :=
  match jq_repository_id query with
  | Some r => bool_decide (job_repository_id job = r) | None => true end
  && match jq_status query with
     | Some s => bool_decide (job_status job = s) | None => true end
  && match jq_requester query with
     | Some a => bool_decide (job_requester job = a) | None => true end.

Definition page_size_or_max (page_size : option N) : N := default usize_max page_size.

Definition query_jobs inner (query : JobQuery) : StoreResult JobPage :=
  let? start := page_start (jq_page_token query) "jobs" in
  let '(page, next_page_token) :=
    page_records (List.filter (job_matches_query query) (btree_values (jobs inner)))
      start (page_size_or_max (jq_page_size query)) in
  Ok {| jp_jobs := page; jp_next_page_token := next_page_token |}.

(** The loop of [collect_paginated_filtered_job_events] over the ids of the
    sequence range. *)
Fixpoint collect_loop inner (query : EventQuery) (ids : list JobEventId)
  (skipped start page_size : N) (retained : list JobEvent) : StoreResult (list JobEvent * bool) :=
  match ids with
  | [] => Ok (retained, false)
  | i :: ids =>
      let? event := event_of_id inner i in
      let? matches := event_matches_query inner event query in
      if matches : bool then
        if (skipped <? start)%N
        then collect_loop inner query ids (skipped + 1) start page_size retained
        else if (N.of_nat (length retained) =? page_size)%N then Ok (retained, true)
        else collect_loop inner query ids skipped start page_size (retained ++ [event])
      else collect_loop inner query ids skipped start page_size retained
  end.

Definition collect_paginated_filtered_job_events inner (query : EventQuery) (start page_size : N)
  : StoreResult (list JobEvent * option string) :=
  let? after_sequence := event_cursor_sequence inner (eq_cursor query) in
  if (page_size =? 0)%N then Ok ([], None)
  else
    let? '(retained, has_next) :=
      match checked_add_u64 after_sequence 1 with
      | Some start_sequence =>
          collect_loop inner query
            (btree_range_from start_sequence (job_events_by_sequence inner)).*2
            0 start page_size []
      | None => Ok ([], false)
      end in
    Ok (retained, if has_next : bool then Some (page_token_of start (length retained)) else None).

Definition query_job_events inner (query : EventQuery) : StoreResult EventPage :=
  let? start := page_start (eq_page_token query) "job_events" in
  let? resolved := resolve_event_cursor_sequence inner (eq_cursor query) in
  let? '(events, next_page_token) :=
    collect_paginated_filtered_job_events inner query start
      (page_size_or_max (eq_page_size query)) in
  Ok {| ep_events := events; ep_next_page_token := next_page_token;
        ep_resolved_cursor_sequence := resolved |}.

(** ** Latest event of a repository and the project snapshot *)

Fixpoint latest_event_loop inner (repository_id : RepositoryId) (ids : list JobEventId)
  : StoreResult (option JobEvent) :=
  match ids with
  | [] => Ok None
  | i :: ids =>
      let? event := ok_or (job_events_by_id inner !! i)
        (Conflict "job_events"
           (Fmt "sequence index references missing event {}" [AMsg (id_debug i)])) in
      let? repository := event_repository_id inner event in
      if bool_decide (repository = Some repository_id) then Ok (Some event)
      else latest_event_loop inner repository_id ids
  end.

Definition latest_job_event_for_repository inner (repository_id : RepositoryId)
  : StoreResult (option JobEvent) :=
  latest_event_loop inner repository_id (rev (btree_values (job_events_by_sequence inner))).

Definition job_recency (x y : JobRecord) : Prop :=
  (job_updated_at y < job_updated_at x)%Z ∨
  job_updated_at y = job_updated_at x ∧ str_le (as_str (job_id y)) (as_str (job_id x)) = true.
#[export] Instance job_recency_dec x y : Decision (job_recency x y).
Proof. unfold job_recency. apply _. Defined.

Definition decision_recency (x y : PolicyDecision) : Prop :=
  (pol_created_at y < pol_created_at x)%Z ∨
  pol_created_at y = pol_created_at x ∧ str_le (as_str (pol_id y)) (as_str (pol_id x)) = true.
#[export] Instance decision_recency_dec x y : Decision (decision_recency x y).
Proof. unfold decision_recency. apply _. Defined.

Record ProjectStatusSnapshot := {
  snap_recent_jobs : list JobRecord;
  snap_recent_policy_decisions : list PolicyDecision;
  snap_latest_event : option JobEvent
}.

Definition project_status_snapshot inner (repository_id : RepositoryId)
  (recent_job_limit recent_policy_decision_limit : nat) : StoreResult ProjectStatusSnapshot :=
  let recent_jobs :=
    take recent_job_limit
      (merge_sort job_recency
         (List.filter (λ job, bool_decide (job_repository_id job = repository_id))
            (btree_values (jobs inner)))) in
  let recent_policy_decisions :=
    take recent_policy_decision_limit
      (merge_sort decision_recency
         (List.filter (λ d, bool_decide (pol_repository_id d = repository_id))
            (hash_values (policy_decisions inner)))) in
  let? latest_event := latest_job_event_for_repository inner repository_id in
  Ok {| snap_recent_jobs := recent_jobs;
        snap_recent_policy_decisions := recent_policy_decisions;
        snap_latest_event := latest_event |}.
End Query.
