(* ===== verification/StoreLoad.v ===== *)
(** * StoreLoad: validation of a loaded snapshot ([store.rs])

    What [with_durable_snapshot_path] checks before it trusts the state it read
    from disk. *)
From S2P Require Import Prelude Text Domain Policy StoreTypes StoreValidate StoreJobs.
From S2P Require Import Store.

Section Load.
Context `{UuidLib} `{RegistryPort}.
Implicit Types inner : InMemoryInner.

Definition validate_loaded_job_record inner (job : JobRecord) : StoreResult unit :=
  let err m := InvalidRecord "jobs" (msg m) in
  let? _ := ensure_ref_exists (contains_key (repositories inner) (job_repository_id job))
              "repositories" (job_repository_id job) "jobs.repository_id" in
  reject? (job_updated_at job <? job_created_at job)%Z
    with err "updated_at must not be earlier than created_at" in
  reject? match job_started_at job with Some t => (t <? job_created_at job)%Z | None => false end
    with err "started_at must not be earlier than created_at" in
  reject? match job_completed_at job with Some t => (t <? job_created_at job)%Z | None => false end
    with err "completed_at must not be earlier than created_at" in
  reject? bool_decide (job_status job = Running) && is_none (job_started_at job)
    with err "running jobs must have started_at" in
  reject? is_terminal (job_status job) && is_none (job_completed_at job)
    with err "terminal jobs must have completed_at" in
  reject? negb (is_terminal (job_status job)) && is_some (job_completed_at job)
    with err "non-terminal jobs must not have completed_at" in
  match job_latest_event_id job with
  | None => Ok tt
  | Some latest_event_id =>
      let? event := get_ref (job_events_by_id inner) latest_event_id "job_events"
                      "jobs.latest_event_id" in
      reject? negb (bool_decide (ref_job_id (evt_refs event) = Some (job_id job)))
              && negb (str_eqb (subject_id (evt_subject event)) (as_str (job_id job)))
        with InvalidReference "jobs"
          (Fmt "latest_event_id {} does not point at an event for job {}"
             [AMsg (id_debug latest_event_id); AMsg (id_debug (job_id job))]) in
      Ok tt
  end.

(** The [HashSet] of roots seen so far. *)
Fixpoint check_unique_roots (seen : gset string) (l : list RepositoryRecord) : StoreResult unit :=
  match l with
  | [] => Ok tt
  | repository :: l =>
      let? _ := validate_repository_record repository in
      reject? bool_decide (repo_root_path repository ∈ seen)
        with InvalidRecord "repositories"
               (Fmt "duplicate root_path {}" [AStr (repo_root_path repository)]) in
      check_unique_roots ({[repo_root_path repository]} ∪ seen) l
  end.

(** Each repository against the ones after it. *)
Fixpoint check_blocked_overlaps (l : list RepositoryRecord) : StoreResult unit :=
  match l with
  | [] => Ok tt
  | repository :: l =>
      let? _ := for_each (λ other,
          reject? blocked_roots_conflict repository other
            with InvalidRecord "repositories"
              (Fmt "blocked root_path {} conflicts with repository root_path {}"
                 [AStr (repo_root_path repository); AStr (repo_root_path other)]) in
          Ok tt) l in
      check_blocked_overlaps l
  end.

Definition check_blocking_decision inner (policy_decision : PolicyDecision) : StoreResult unit :=
  if negb (is_root_scoped_repository_block policy_decision) then Ok tt
  else
    let? repository :=
      ok_or (repositories inner !! pol_repository_id policy_decision)
        (InvalidReference "policy_decisions"
           (Fmt "policy decision {} references missing repository {}"
              [AMsg (id_debug (pol_id policy_decision));
               AMsg (id_debug (pol_repository_id policy_decision))])) in
    for_each (λ other,
        reject? negb (bool_decide (repo_id other = repo_id repository))
                && repository_roots_strictly_overlap (repo_root_path repository)
                     (repo_root_path other)
          with InvalidRecord "policy_decisions"
            (Fmt "policy_decision root_path {} conflicts with repository root_path {}"
               [AStr (repo_root_path repository); AStr (repo_root_path other)]) in
        Ok tt) (hash_values (repositories inner)).

Definition check_lock_decision inner (l : LockDecision) : StoreResult unit :=
  let? _ := validate_lock_decision_timing l in
  let? _ := ensure_ref_exists (contains_key (repositories inner) (lock_repository_id l))
              "repositories" (lock_repository_id l) "lock_decisions.repository_id" in
  let? policy_decision :=
    ok_or (policy_decisions inner !! lock_policy_decision_id l)
      (NotFound "policy_decisions" (id_debug (lock_policy_decision_id l))) in
  let? _ := ensure_same_repository "lock_decisions" "lock_decision.policy_decision_id"
              (lock_repository_id l) (pol_repository_id policy_decision) in
  match lock_owner l with
  | OwnerJob i =>
      let? job := get_ref (jobs inner) i "jobs" "lock_decision.owner" in
      ensure_same_repository "lock_decisions" "lock_decision.owner"
        (lock_repository_id l) (job_repository_id job)
  | _ => Ok tt
  end.

(** The set of (repository, scope) pairs of active locks.  The source keys the
    scope by its debug text, which is injective on [LockedScope]. *)
Fixpoint check_active_scopes (seen : list (RepositoryId * LockedScope)) (l : list LockDecision)
  : StoreResult unit :=
  match l with
  | [] => Ok tt
  | x :: l =>
      reject? bool_decide ((lock_repository_id x, lock_locked_scope x) ∈ seen)
        with Conflict "lock_decisions"
          (msg "multiple active lock decisions cover the same repository/scope") in
      check_active_scopes ((lock_repository_id x, lock_locked_scope x) :: seen) l
  end.

Fixpoint check_tool_results inner (seen : gset ToolInvocationId) (l : list ToolResult)
  : StoreResult unit :=
  match l with
  | [] => Ok tt
  | x :: l =>
      let? _ := validate_loaded_tool_result_record inner x in
      reject? bool_decide (res_invocation_id x ∈ seen)
        with Conflict "tool_results"
          (Fmt "multiple tool_results reference invocation {}"
             [AMsg (id_debug (res_invocation_id x))]) in
      check_tool_results inner ({[res_invocation_id x]} ∪ seen) l
  end.

(** The loop of [validate_loaded_job_event_sequence]; [validated] is the clone
    from which the events seen so far are removed. *)
Fixpoint event_sequence_loop inner (validated : InMemoryInner) (expected_sequence : N)
  (seen : gset JobEventId) (entries : list (N * JobEventId)) : StoreResult (N * gset JobEventId) :=
  match entries with
  | [] => Ok (expected_sequence, seen)
  | (sequence_number, event_id) :: entries =>
      reject? negb (sequence_number =? expected_sequence)%N
        with InvalidRecord "job_events"
          (Fmt "sequence ledger has gap: expected {}, found {}"
             [ANum (Z.of_N expected_sequence); ANum (Z.of_N sequence_number)]) in
      let expected_sequence := saturating_add_u64 expected_sequence 1 in
      reject? bool_decide (event_id ∈ seen)
        with Conflict "job_events"
          (Fmt "sequence index references duplicate event id {}" [AMsg (id_debug event_id)]) in
      let? event := event_of_id inner event_id in
      reject? negb (evt_sequence_number event =? sequence_number)%N
        with InvalidRecord "job_events"
          (Fmt "event {} stores sequence {} but ledger index says {}"
             [AMsg (id_debug event_id); ANum (Z.of_N (evt_sequence_number event));
              ANum (Z.of_N sequence_number)]) in
      let validated :=
        set_ledger validated (delete event_id (job_events_by_id validated))
          (delete sequence_number (job_events_by_sequence validated))
          (next_event_sequence validated) in
      let? _ := validate_new_job_event validated event None in
      event_sequence_loop inner validated expected_sequence ({[event_id]} ∪ seen) entries
  end.

Definition validate_loaded_job_event_sequence inner : StoreResult unit :=
  let? '(expected_sequence, seen) :=
    event_sequence_loop inner inner 1 ∅ (btree_to_list (job_events_by_sequence inner)) in
  reject? negb (saturating_sub expected_sequence 1 =? next_event_sequence inner)%N
    with InvalidRecord "job_events"
      (Fmt "next_event_sequence {} does not match retained sequence {}"
         [ANum (Z.of_N (next_event_sequence inner));
          ANum (Z.of_N (saturating_sub expected_sequence 1))]) in
  reject? negb (size seen =? size (job_events_by_id inner))%nat
    with InvalidRecord "job_events"
      (msg "sequence index and id index disagree on event count") in
  Ok tt.

Definition validate_loaded_store inner : StoreResult unit :=
  let repos := hash_values (repositories inner) in
  let? _ := check_unique_roots ∅ repos in
  let? _ := check_blocked_overlaps repos in
  let? _ := for_each (check_blocking_decision inner) (hash_values (policy_decisions inner)) in
  let? _ := for_each (validate_loaded_job_record inner) (btree_values (jobs inner)) in
  let? _ := for_each (λ p,
      ensure_ref_exists (contains_key (repositories inner) (pol_repository_id p))
        "repositories" (pol_repository_id p) "policy_decisions.repository_id")
      (hash_values (policy_decisions inner)) in
  let? _ := for_each (check_lock_decision inner) (hash_values (lock_decisions inner)) in
  let? _ := check_active_scopes []
      (List.filter (λ l, is_active_lock_status (lock_status l))
         (hash_values (lock_decisions inner))) in
  let? _ := for_each validate_schema_migration_record (hash_values (schema_migrations inner)) in
  let? _ := for_each (validate_tool_invocation_refs inner)
      (hash_values (tool_invocations inner)) in
  let? _ := check_tool_results inner ∅ (hash_values (tool_results inner)) in
  let? _ := for_each (validate_audit_record_refs inner) (hash_values (audit_records inner)) in
  let? _ := for_each (λ '(key, submission),
      validate_submit_job_idempotency_record inner key submission)
      (map_to_list (idempotent_submit_jobs inner)) in
  let? _ := map_err (InvalidRecord "extension_registry")
      (registry_validate (extension_registry_snapshot inner)) in
  validate_loaded_job_event_sequence inner.
End Load.
