(* ===== verification/Ledger.v ===== *)
(** * Ledger: the abstract specification of the store, and its laws *)
From S2P Require Import Prelude Text Domain DomainLaws Policy StoreTypes StoreValidate StoreJobs.
From S2P Require Import Store.

(** * The abstract specification of the store

    What the store promises, independently of the order of its checks: a state
    order [store_le] (records are never lost or rewritten, jobs and migration
    locks only move forward), an invariant [store_wf], and a step relation
    [ledger_step] whose steps add one record, or one event with or without a
    new version of its job.  [StoreRefine] proves that every transaction of
    [Store] is a sequence of these steps. *)

Section Ledger.
Context `{UuidLib} `{RegistryPort}.
Implicit Types s : InMemoryInner.

(** ** Order on states *)

Definition status_rank (x : JobStatus) : nat :=
  match x with Queued => 0 | Running => 1 | _ => 2 end.

Record job_le (j j' : JobRecord) : Prop := {
  jl_repository : job_repository_id j' = job_repository_id j;
  jl_schema : job_schema_version j' = job_schema_version j;
  jl_created : job_created_at j' = job_created_at j;
  jl_requester : job_requester j' = job_requester j;
  jl_kind : job_kind j' = job_kind j;
  jl_goal : job_goal j' = job_goal j;
  jl_updated : (job_updated_at j <= job_updated_at j')%Z;
  jl_status : job_status j' = job_status j ∨ status_rank (job_status j) < status_rank (job_status j')
}.

Definition lock_le (l l' : MigrationLockRecord) : Prop :=
  l' = l ∨
  ml_status l = MlHeld ∧ ml_status l' ≠ MlHeld ∧ ml_leader_id l' = ml_leader_id l ∧
  ml_locked_at l' = ml_locked_at l ∧ ml_timeout_millis l' = ml_timeout_millis l.

Record migration_le (m m' : SchemaMigrationRecord) : Prop := {
  ml_id : mig_id m' = mig_id m;
  ml_name : mig_migration_name m' = mig_migration_name m;
  ml_version : mig_migration_version m' = mig_migration_version m;
  ml_created : mig_created_at m' = mig_created_at m;
  ml_leader : mig_leader_id m' = mig_leader_id m;
  ml_updated : (mig_updated_at m <= mig_updated_at m')%Z;
  ml_lock : match mig_migration_lock m, mig_migration_lock m' with
            | None, None => True
            | Some l, Some l' => lock_le l l'
            | _, _ => False
            end
}.

Record store_le s s' : Prop := {
  le_repositories : repositories s ⊆ repositories s';
  le_policies : policy_decisions s ⊆ policy_decisions s';
  le_locks : lock_decisions s ⊆ lock_decisions s';
  le_invocations : tool_invocations s ⊆ tool_invocations s';
  le_results : tool_results s ⊆ tool_results s';
  le_audits : audit_records s ⊆ audit_records s';
  le_events : job_events_by_id s ⊆ job_events_by_id s';
  le_sequence : job_events_by_sequence s ⊆ job_events_by_sequence s';
  le_next : (next_event_sequence s <= next_event_sequence s')%N;
  le_receipts : idempotent_submit_jobs s ⊆ idempotent_submit_jobs s';
  le_jobs i j : jobs s !! i = Some j → ∃ j', jobs s' !! i = Some j' ∧ job_le j j';
  le_migrations i m : schema_migrations s !! i = Some m →
    ∃ m', schema_migrations s' !! i = Some m' ∧ migration_le m m'
}.

Lemma job_le_refl j : job_le j j.
Proof. by split; auto. Qed.
Lemma job_le_trans j1 j2 j3 : job_le j1 j2 → job_le j2 j3 → job_le j1 j3.
Proof.
  intros [] []; split; try congruence; [lia|].
  destruct_or?; [left; congruence|right; congruence|right; congruence|right; lia].
Qed.

Lemma lock_le_trans l1 l2 l3 : lock_le l1 l2 → lock_le l2 l3 → lock_le l1 l3.
Proof. intros [->|(?&?&?&?&?)] [->|(?&?&?&?&?)]; unfold lock_le; auto 10 with congruence. Qed.

Lemma migration_le_refl m : migration_le m m.
Proof. split; auto; [lia|]. destruct (mig_migration_lock m); unfold lock_le; auto. Qed.
Lemma migration_le_trans m1 m2 m3 : migration_le m1 m2 → migration_le m2 m3 → migration_le m1 m3.
Proof.
  intros [?????? H1] [?????? H2]; split; try congruence; [lia|].
  destruct (mig_migration_lock m1), (mig_migration_lock m2), (mig_migration_lock m3);
    try done; eauto using lock_le_trans.
Qed.

#[export] Instance store_le_preorder : PreOrder store_le.
Proof.
  split.
  - intros s. split; try done; eauto using job_le_refl, migration_le_refl.
  - intros s1 s2 s3 [] []. split; try (by etrans); try lia.
    + intros i j Hj. edestruct le_jobs0 as (j' & Hj' & ?); [done|].
      edestruct le_jobs1 as (j'' & ? & ?); [done|]. eauto using job_le_trans.
    + intros i j Hj. edestruct le_migrations0 as (j' & Hj' & ?); [done|].
      edestruct le_migrations1 as (j'' & ? & ?); [done|]. eauto using migration_le_trans.
Qed.

(** ** What an event may refer to *)

(** The subject of the event exists and belongs to repository [r]. *)
Definition subject_in s (e : JobEvent) (r : RepositoryId) : Prop :=
  let id := subject_id (evt_subject e) in
  match subject_type (evt_subject e) with
  | SubjRepository => as_str r = id ∧ is_Some (repositories s !! r)
  | SubjJob => ∃ i j, as_str i = id ∧ jobs s !! i = Some j ∧ job_repository_id j = r
  | SubjPolicyDecision =>
      ∃ i p, as_str i = id ∧ policy_decisions s !! i = Some p ∧ pol_repository_id p = r
  | SubjLockDecision =>
      ∃ i l, as_str i = id ∧ lock_decisions s !! i = Some l ∧ lock_repository_id l = r
  | SubjToolInvocation =>
      ∃ i t, as_str i = id ∧ tool_invocations s !! i = Some t ∧ inv_repository_id t = r
  | SubjToolResult =>
      ∃ i x t, as_str i = id ∧ tool_results s !! i = Some x ∧
        tool_invocations s !! res_invocation_id x = Some t ∧ inv_repository_id t = r
  | SubjAuditRecord =>
      ∃ i a, as_str i = id ∧ audit_records s !! i = Some a ∧ aud_repository_id a = r
  end.

(** A reference of the type of the subject names the subject. *)
Definition names_same (e : JobEvent) (ty : EventSubjectType) (id : string) : Prop :=
  subject_type (evt_subject e) = ty → subject_id (evt_subject e) = id.
(** Where the event names an invocation, it is this one. *)
Definition agrees_invocation (e : JobEvent) (i : ToolInvocationId) : Prop :=
  ∀ t, ref_tool_invocation_id (evt_refs e) = Some t → i = t.

(** Everything the event names exists, in one repository, and belongs to one
    job and one policy decision. *)
Record event_of s (e : JobEvent) (r : RepositoryId) (job policy : string) : Prop := {
  ei_valid : has_valid_subject_id (evt_subject e) = true;
  ei_subject : subject_in s e r;
  ei_subject_job : names_same e SubjJob job;
  ei_subject_policy : names_same e SubjPolicyDecision policy;
  ei_repository i : ref_repository_id (evt_refs e) = Some i →
    names_same e SubjRepository (as_str i) ∧ i = r ∧ is_Some (repositories s !! i);
  ei_job i : ref_job_id (evt_refs e) = Some i →
    as_str i = job ∧ ∃ j, jobs s !! i = Some j ∧ job_repository_id j = r;
  ei_policy i : ref_policy_decision_id (evt_refs e) = Some i →
    as_str i = policy ∧ ∃ p, policy_decisions s !! i = Some p ∧ pol_repository_id p = r;
  ei_lock i : ref_lock_decision_id (evt_refs e) = Some i →
    names_same e SubjLockDecision (as_str i) ∧
    ∃ l, lock_decisions s !! i = Some l ∧ lock_repository_id l = r ∧
      as_str (lock_policy_decision_id l) = policy;
  ei_invocation i : ref_tool_invocation_id (evt_refs e) = Some i →
    names_same e SubjToolInvocation (as_str i) ∧
    ∃ t, tool_invocations s !! i = Some t ∧ inv_repository_id t = r ∧
      as_str (inv_job_id t) = job ∧ as_str (inv_policy_decision_id t) = policy;
  ei_result i : ref_tool_result_id (evt_refs e) = Some i →
    names_same e SubjToolResult (as_str i) ∧
    ∃ x t, tool_results s !! i = Some x ∧ tool_invocations s !! res_invocation_id x = Some t ∧
      inv_repository_id t = r ∧ agrees_invocation e (res_invocation_id x) ∧
      as_str (inv_job_id t) = job ∧ as_str (inv_policy_decision_id t) = policy;
  ei_audit i : ref_audit_record_id (evt_refs e) = Some i →
    names_same e SubjAuditRecord (as_str i) ∧
    ∃ a, audit_records s !! i = Some a ∧ aud_repository_id a = r ∧
      as_str (aud_policy_decision_id a) = policy ∧
      ∀ t, aud_tool_invocation_id a = Some t →
        agrees_invocation e t ∧
        (∃ inv, tool_invocations s !! t = Some inv ∧ as_str (inv_job_id inv) = job) ∧
        ∀ ri, ref_tool_result_id (evt_refs e) = Some ri →
          ∃ x, tool_results s !! ri = Some x ∧ res_invocation_id x = t
}.

Definition event_in s (e : JobEvent) (r : RepositoryId) : Prop :=
  ∃ job policy, event_of s e r job policy.
Definition event_ok s (e : JobEvent) : Prop := ∃ r, event_in s e r.

Lemma subject_in_mono s s' e r : store_le s s' → subject_in s e r → subject_in s' e r.
Proof.
  intros Hle. unfold subject_in. destruct (subject_type _).
  - intros [? [x Hx]]. split; [done|]. exists x. by eapply lookup_weaken, le_repositories.
  - intros (i & j & ? & Hj & ?). edestruct le_jobs as (j' & ? & []); [done..|].
    exists i, j'. split_and!; congruence.
  - intros (i & p & ? & Hp & ?). exists i, p. eauto using lookup_weaken, le_policies.
  - intros (i & p & ? & Hp & ?). exists i, p. eauto using lookup_weaken, le_locks.
  - intros (i & p & ? & Hp & ?). exists i, p. eauto using lookup_weaken, le_invocations.
  - intros (i & x & t & ? & Hx & Ht & ?). exists i, x, t.
    eauto 10 using lookup_weaken, le_invocations, le_results.
  - intros (i & p & ? & Hp & ?). exists i, p. eauto using lookup_weaken, le_audits.
Qed.

Lemma event_in_mono s s' e r : store_le s s' → event_in s e r → event_in s' e r.
Proof.
  intros Hle (job & policy & []). exists job, policy. split; try done.
  - by eapply subject_in_mono.
  - intros i Hi. destruct (ei_repository0 i Hi) as (? & ? & x & ?).
    eauto 10 using lookup_weaken, le_repositories.
  - intros i Hi. destruct (ei_job0 i Hi) as (? & j & Hj & ?).
    destruct (le_jobs _ _ Hle _ _ Hj) as (j' & ? & []). split; [done|].
    exists j'. split; congruence.
  - intros i Hi. destruct (ei_policy0 i Hi) as (? & p & ? & ?).
    eauto 10 using lookup_weaken, le_policies.
  - intros i Hi. destruct (ei_lock0 i Hi) as (? & l & ? & ? & ?).
    eauto 10 using lookup_weaken, le_locks.
  - intros i Hi. destruct (ei_invocation0 i Hi) as (? & t & ? & ?).
    split; [done|]. exists t. split; [|done]. eauto using lookup_weaken, le_invocations.
  - intros i Hi. destruct (ei_result0 i Hi) as (? & x & t & ? & ? & ?).
    split; [done|]. exists x, t.
    split; [eauto using lookup_weaken, le_results|split; [|done]].
    eauto using lookup_weaken, le_invocations.
  - intros i Hi. destruct (ei_audit0 i Hi) as (? & a & ? & ? & ? & Ht).
    split; [done|]. exists a. split_and!; eauto using lookup_weaken, le_audits.
    intros t Hat. destruct (Ht t Hat) as (? & (inv & ? & ?) & Hx). split_and!; [done|..].
    + exists inv. eauto using lookup_weaken, le_invocations.
    + intros ri Hri. destruct (Hx ri Hri) as (x & ? & ?). eauto using lookup_weaken, le_results.
Qed.

Lemma event_ok_mono s s' e : store_le s s' → event_ok s e → event_ok s' e.
Proof. intros Hle [r Hr]. exists r. by eapply event_in_mono. Qed.

(** ** The invariant *)

(** Each collection is keyed by the id of its records. *)
Record keys_wf s : Prop := {
  kw_repositories i x : repositories s !! i = Some x → repo_id x = i;
  kw_jobs i x : jobs s !! i = Some x → job_id x = i;
  kw_policies i x : policy_decisions s !! i = Some x → pol_id x = i;
  kw_locks i x : lock_decisions s !! i = Some x → lock_id x = i;
  kw_migrations i x : schema_migrations s !! i = Some x → mig_id x = i;
  kw_invocations i x : tool_invocations s !! i = Some x → inv_id x = i;
  kw_results i x : tool_results s !! i = Some x → res_id x = i;
  kw_audits i x : audit_records s !! i = Some x → aud_id x = i
}.

(** The event ledger: sequence numbers 1..next without gap, and the two
    indexes are inverse to each other. *)
Record ledger_wf s : Prop := {
  lw_bound : (next_event_sequence s <= u64_max)%N;
  lw_range n : is_Some (job_events_by_sequence s !! n) ↔ (1 <= n <= next_event_sequence s)%N;
  lw_sequence n i : job_events_by_sequence s !! n = Some i →
    ∃ e, job_events_by_id s !! i = Some e ∧ evt_sequence_number e = n;
  lw_id i e : job_events_by_id s !! i = Some e →
    evt_id e = i ∧ job_events_by_sequence s !! evt_sequence_number e = Some i
}.

(** Every reference of a record resolves, inside one repository. *)
Definition job_ok s (i : JobId) (j : JobRecord) : Prop :=
  is_Some (repositories s !! job_repository_id j) ∧
  ∃ l e, job_latest_event_id j = Some l ∧ job_events_by_id s !! l = Some e ∧
    ref_job_id (evt_refs e) = Some i.

Definition policy_in s (i : PolicyDecisionId) (r : RepositoryId) : Prop :=
  ∃ p, policy_decisions s !! i = Some p ∧ pol_repository_id p = r.
Definition job_in s (i : JobId) (r : RepositoryId) : Prop :=
  ∃ j, jobs s !! i = Some j ∧ job_repository_id j = r.

Definition lock_ok s (l : LockDecision) : Prop :=
  validate_lock_decision_timing l = Ok tt ∧
  is_Some (repositories s !! lock_repository_id l) ∧
  policy_in s (lock_policy_decision_id l) (lock_repository_id l) ∧
  (∀ i, lock_owner l = OwnerJob i → job_in s i (lock_repository_id l)).

Definition invocation_ok s (t : ToolInvocation) : Prop :=
  is_Some (repositories s !! inv_repository_id t) ∧
  job_in s (inv_job_id t) (inv_repository_id t) ∧
  policy_in s (inv_policy_decision_id t) (inv_repository_id t).

Definition result_ok s (x : ToolResult) : Prop :=
  ∃ t, tool_invocations s !! res_invocation_id x = Some t ∧ inv_tool_id t = res_tool_id x.

Definition audit_ok s (a : AuditRecord) : Prop :=
  is_Some (repositories s !! aud_repository_id a) ∧
  policy_in s (aud_policy_decision_id a) (aud_repository_id a) ∧
  (∀ i, aud_tool_invocation_id a = Some i →
     ∃ t, tool_invocations s !! i = Some t ∧ inv_repository_id t = aud_repository_id a ∧
       inv_policy_decision_id t = aud_policy_decision_id a).

Record refs_wf s : Prop := {
  rw_jobs i j : jobs s !! i = Some j → job_ok s i j;
  rw_policies i p : policy_decisions s !! i = Some p → is_Some (repositories s !! pol_repository_id p);
  rw_locks i l : lock_decisions s !! i = Some l → lock_ok s l;
  rw_invocations i t : tool_invocations s !! i = Some t → invocation_ok s t;
  rw_results i x : tool_results s !! i = Some x → result_ok s x;
  rw_audits i a : audit_records s !! i = Some a → audit_ok s a;
  rw_events i e : job_events_by_id s !! i = Some e → event_ok s e
}.

(** Repository roots are distinct, and a blocked root shares no subtree with
    another root, whether blocked by trust state or by a policy decision. *)
Record roots_wf s : Prop := {
  ow_record i r : repositories s !! i = Some r → validate_repository_record r = Ok tt;
  ow_unique i i' r r' : repositories s !! i = Some r → repositories s !! i' = Some r' →
    repo_root_path r = repo_root_path r' → i = i';
  ow_blocked i i' r r' : repositories s !! i = Some r → repositories s !! i' = Some r' →
    i ≠ i' → blocked_roots_conflict r r' = false;
  ow_policy i p i' r r' : policy_decisions s !! i = Some p →
    is_root_scoped_repository_block p = true →
    repositories s !! pol_repository_id p = Some r → repositories s !! i' = Some r' →
    i' ≠ pol_repository_id p →
    repository_roots_strictly_overlap (repo_root_path r) (repo_root_path r') = false
}.

(** At most one active lock per repository and scope; at most one tool result
    per invocation; at most one held migration lock. *)
Definition held_migration (m : SchemaMigrationRecord) : Prop :=
  ∃ l, mig_migration_lock m = Some l ∧ ml_status l = MlHeld.

Record exclusive_wf s : Prop := {
  ew_locks i i' l l' : lock_decisions s !! i = Some l → lock_decisions s !! i' = Some l' →
    is_active_lock_status (lock_status l) = true → is_active_lock_status (lock_status l') = true →
    lock_repository_id l = lock_repository_id l' → lock_locked_scope l = lock_locked_scope l' →
    i = i';
  ew_results i i' x x' : tool_results s !! i = Some x → tool_results s !! i' = Some x' →
    res_invocation_id x = res_invocation_id x' → i = i';
  ew_record i m : schema_migrations s !! i = Some m → validate_schema_migration_record m = Ok tt;
  ew_migrations i i' m m' : schema_migrations s !! i = Some m → schema_migrations s !! i' = Some m' →
    held_migration m → held_migration m' → i = i'
}.

Record store_wf s : Prop := {
  sw_keys : keys_wf s;
  sw_ledger : ledger_wf s;
  sw_refs : refs_wf s;
  sw_roots : roots_wf s;
  sw_exclusive : exclusive_wf s
}.

(** Every stored job has well-formed lifecycle timestamps. *)
Definition jobs_wf s : Prop := ∀ i j, jobs s !! i = Some j → job_wf j.

(** ** Abstract steps *)

Definition ledger_append s (e : JobEvent) : InMemoryInner :=
  let n := (next_event_sequence s + 1)%N in
  set_ledger s (<[evt_id e := evt_set_sequence e n]> (job_events_by_id s))
    (<[n := evt_id e]> (job_events_by_sequence s)) n.

Definition new_event s (e : JobEvent) : Prop :=
  job_events_by_id s !! evt_id e = None ∧ (next_event_sequence s + 1 <= u64_max)%N.

(** The next version of a stored job, announced by [e]. *)
Definition job_update_ok (j j' : JobRecord) (e : JobEvent) : Prop :=
  job_le j j' ∧ (job_wf j → job_wf j') ∧
  (job_status j' ≠ job_status j → evt_kind e = JobStatusChanged (job_status j) (job_status j')).

Inductive ledger_step : InMemoryInner → InMemoryInner → Prop :=
  | ls_repository s r :
      repositories s !! repo_id r = None →
      validate_repository_record r = Ok tt →
      (∀ i r', repositories s !! i = Some r' →
         repo_root_path r' ≠ repo_root_path r ∧ blocked_roots_conflict r r' = false) →
      (∀ i p r', policy_decisions s !! i = Some p → is_root_scoped_repository_block p = true →
         repositories s !! pol_repository_id p = Some r' →
         repository_roots_strictly_overlap (repo_root_path r) (repo_root_path r') = false) →
      ledger_step s (set_repositories s (<[repo_id r := r]> (repositories s)))
  | ls_policy s p r :
      policy_decisions s !! pol_id p = None →
      repositories s !! pol_repository_id p = Some r →
      (is_root_scoped_repository_block p = true →
         ∀ i r', repositories s !! i = Some r' → repo_id r' ≠ repo_id r →
         repository_roots_strictly_overlap (repo_root_path r) (repo_root_path r') = false) →
      ledger_step s (set_policy_decisions s (<[pol_id p := p]> (policy_decisions s)))
  | ls_lock s l :
      lock_decisions s !! lock_id l = None →
      lock_ok s l →
      (is_active_lock_status (lock_status l) = true →
         ∀ i l', lock_decisions s !! i = Some l' → lock_conflicts l l' = false) →
      ledger_step s (set_lock_decisions s (<[lock_id l := l]> (lock_decisions s)))
  | ls_expire s now :
      ledger_step s (expire_schema_migration_locks s now)
  | ls_migration s m :
      schema_migrations s !! mig_id m = None →
      validate_schema_migration_record m = Ok tt →
      (held_migration m → ∀ i m', schema_migrations s !! i = Some m' → ¬ held_migration m') →
      ledger_step s (set_schema_migrations s (<[mig_id m := m]> (schema_migrations s)))
  | ls_release s i m l t :
      schema_migrations s !! i = Some m → mig_migration_lock m = Some l →
      ml_status l = MlHeld → (ml_locked_at l <= t)%Z →
      ledger_step s (set_schema_migrations s
        (<[i := mig_set_lock m (ml_close l MlReleased t) (Z.max t (mig_updated_at m))]>
           (schema_migrations s)))
  | ls_invocation s t :
      tool_invocations s !! inv_id t = None → invocation_ok s t →
      ledger_step s (set_tool_invocations s (<[inv_id t := t]> (tool_invocations s)))
  | ls_result s x :
      tool_results s !! res_id x = None → result_ok s x →
      (∀ i x', tool_results s !! i = Some x' → res_invocation_id x' ≠ res_invocation_id x) →
      ledger_step s (set_tool_results s (<[res_id x := x]> (tool_results s)))
  | ls_audit s a :
      audit_records s !! aud_id a = None → audit_ok s a →
      ledger_step s (set_audit_records s (<[aud_id a := a]> (audit_records s)))
  | ls_event s e :
      new_event s e → event_ok s e →
      ledger_step s (ledger_append s e)
  | ls_job_event s j e :
      new_event s e →
      event_ok (put_job (ledger_append s e) j e) e →
      is_Some (repositories s !! job_repository_id j) →
      ref_job_id (evt_refs e) = Some (job_id j) →
      (∀ j0, jobs s !! job_id j = Some j0 → job_update_ok j0 j e) →
      ledger_step s (put_job (ledger_append s e) j e)
  | ls_receipt s key r :
      idempotent_submit_jobs s !! key = None →
      validate_submit_job_idempotency_record s key r = Ok tt →
      ledger_step s (set_idempotent_submit_jobs s (<[key := r]> (idempotent_submit_jobs s)))
  | ls_extensions s x :
      registry_validate x = Ok tt →
      ledger_step s (set_extension_snapshot s x).
End Ledger.

(** * The abstract store keeps its promises

    Every step of [Ledger.ledger_step] moves the state forward in [store_le]
    and preserves the invariant [store_wf]. *)

(** ** Roots *)

Lemma repository_roots_strictly_overlap_sym a b :
  repository_roots_strictly_overlap a b = repository_roots_strictly_overlap b a.
Proof.
  unfold repository_roots_strictly_overlap, path_eqb. rewrite orb_comm. f_equal. f_equal.
  apply bool_decide_ext. naive_solver.
Qed.

Lemma blocked_roots_conflict_sym a b : blocked_roots_conflict a b = blocked_roots_conflict b a.
Proof.
  unfold blocked_roots_conflict. by rewrite repository_roots_strictly_overlap_sym, orb_comm.
Qed.

(** ** Migration locks *)

(** A valid record with a held lock is a lock record. *)
Lemma validate_schema_migration_record_lock m l :
  validate_schema_migration_record m = Ok tt → mig_migration_lock m = Some l →
  mig_migration_name m = MIGRATION_LOCK_RECORD_NAME ∧ mig_created_at m = ml_locked_at l ∧
  (mig_created_at m <= mig_updated_at m)%Z.
Proof.
  unfold validate_schema_migration_record. intros Hv Hl. rewrite Hl in Hv. simpl in Hv.
  unfold str_eqb in Hv.
  destruct (bool_decide (mig_migration_name m = _)) eqn:Hn; run_ok Hv; try discriminate;
    apply bool_decide_eq_true in Hn; split_and!; try done; lia.
Qed.

Lemma validate_schema_migration_record_close m l st t u :
  validate_schema_migration_record m = Ok tt → mig_migration_lock m = Some l →
  st ≠ MlHeld → (ml_locked_at l <= t <= u)%Z →
  validate_schema_migration_record (mig_set_lock m (ml_close l st t) u) = Ok tt.
Proof.
  intros Hv Hl Hst Ht. destruct (validate_schema_migration_record_lock _ _ Hv Hl) as (Hn & Hc & Hu).
  revert Hv. unfold validate_schema_migration_record; simpl. rewrite Hl, Hn, Hc; simpl.
  rewrite (bool_decide_eq_false_2 _ Hst).
  intros Hv. repeat step_ok Hv; simpl; try done;
    repeat case_match; try done; lia.
Qed.

Lemma validate_expire_lock now m :
  validate_schema_migration_record m = Ok tt →
  validate_schema_migration_record (expire_lock now m) = Ok tt.
Proof.
  intros Hv. unfold expire_lock. destruct (mig_migration_lock m) as [l|] eqn:Hl; [|done].
  destruct (_ && _) eqn:Hb; [|done].
  destruct (validate_schema_migration_record_lock _ _ Hv Hl) as (_ & Hc & Hu).
  apply validate_schema_migration_record_close; try done. lia.
Qed.

Lemma held_expire_lock now m : held_migration (expire_lock now m) → held_migration m.
Proof.
  unfold held_migration, expire_lock. destruct (mig_migration_lock m) as [l|] eqn:Hl; [|by rewrite Hl].
  destruct (_ && _); [|by rewrite Hl]. simpl. by intros (? & [= <-] & ?).
Qed.

(** A lock still held after the expiry pass is active: nothing lies between. *)
Lemma held_after_expiry_active now m :
  held_migration (expire_lock now m) → lock_active_at now (expire_lock now m) = true.
Proof.
  unfold held_migration, expire_lock, lock_active_at.
  destruct (mig_migration_lock m) as [l|] eqn:Hl; [|rewrite Hl; by intros (? & ? & ?)].
  destruct (bool_decide (ml_status l = MlHeld)) eqn:Hb; simpl.
  - destruct (is_expired l now) eqn:He; simpl; [by intros (? & [= <-] & ?)|].
    intros _. rewrite Hl. unfold is_active. rewrite Hb. simpl.
    unfold is_expired in He. lia.
  - rewrite Hl. intros (l' & [= <-] & Hl'). by case_bool_decide.
Qed.

Lemma migration_le_close m l st t u :
  mig_migration_lock m = Some l → ml_status l = MlHeld → st ≠ MlHeld →
  (mig_updated_at m <= u)%Z →
  migration_le m (mig_set_lock m (ml_close l st t) u).
Proof. intros Hl Hs Hst Hu. split; simpl; try done. rewrite Hl. by right. Qed.

Lemma migration_le_expire now m : migration_le m (expire_lock now m).
Proof.
  unfold expire_lock. destruct (mig_migration_lock m) as [l|] eqn:Hl; [|apply migration_le_refl].
  destruct (bool_decide _ && _) eqn:Hb; [|apply migration_le_refl].
  apply andb_true_iff in Hb as [Hb%bool_decide_eq_true _].
  by apply migration_le_close; try done; lia.
Qed.

Lemma is_Some_weaken {K V} `{Countable K} (m m' : gmap K V) k :
  m ⊆ m' → is_Some (m !! k) → is_Some (m' !! k).
Proof. intros Hsub [x Hx]. eauto using lookup_weaken. Qed.

Section Steps.
Context `{UuidLib} `{RegistryPort}.
Implicit Types s : InMemoryInner.

(** ** The state order *)

Lemma store_le_append s e : new_event s e → ledger_wf s → store_le s (ledger_append s e).
Proof.
  intros [Hid Hmax] Hwf. split; simpl; try done; eauto using job_le_refl, migration_le_refl; try lia.
  - by apply insert_subseteq.
  - apply insert_subseteq. apply eq_None_not_Some. rewrite (lw_range _ Hwf). lia.
Qed.

Lemma job_le_latest j j' i : job_le j j' → job_le j (job_set_latest_event j' i).
Proof. by intros []. Qed.

Lemma store_le_put_job s j e :
  (∀ j0, jobs s !! job_id j = Some j0 → job_le j0 j) → store_le s (put_job s j e).
Proof.
  intros Hle. split; simpl; try done; eauto using migration_le_refl.
  intros i j0 Hj0. destruct (decide (i = job_id j)) as [->|Hne].
  - rewrite lookup_insert_eq. eauto using job_le_latest.
  - rewrite lookup_insert_ne by done. eauto using job_le_refl.
Qed.

Lemma store_le_map_migrations s m :
  (∀ i x, schema_migrations s !! i = Some x → ∃ y, m !! i = Some y ∧ migration_le x y) →
  store_le s (set_schema_migrations s m).
Proof. intros Hm. split; simpl; try done; eauto using job_le_refl. Qed.

Lemma ledger_step_le s s' : ledger_wf s → ledger_step s s' → store_le s s'.
Proof.
  intros Hwf. destruct 1; try (split; simpl; try done;
    eauto using job_le_refl, migration_le_refl; by apply insert_subseteq).
  - apply store_le_map_migrations. intros i m Hm. rewrite lookup_fmap, Hm. simpl.
    eauto using migration_le_expire.
  - apply store_le_map_migrations. intros i m' Hm'. exists m'.
    rewrite lookup_insert_ne by congruence. eauto using migration_le_refl.
  - apply store_le_map_migrations. intros i' m' Hm'. destruct (decide (i = i')) as [->|Hne].
    + rewrite lookup_insert_eq. simplify_eq. eexists; split; [done|].
      apply migration_le_close; try done. lia.
    + rewrite lookup_insert_ne by done. eauto using migration_le_refl.
  - by apply store_le_append.
  - etrans; [by apply store_le_append|]. apply store_le_put_job. simpl.
    intros j0 Hj0. by match goal with Hu : ∀ _, _ → job_update_ok _ _ _ |- _ =>
      destruct (Hu _ Hj0) as [? _] end.
Qed.

(** ** Monotonicity of the reference predicates *)

Lemma job_in_mono s s' i r : store_le s s' → job_in s i r → job_in s' i r.
Proof.
  intros Hle (j & Hj & <-). destruct (le_jobs _ _ Hle _ _ Hj) as (j' & ? & []). by exists j'.
Qed.

Lemma policy_in_mono s s' i r : store_le s s' → policy_in s i r → policy_in s' i r.
Proof. intros Hle (p & Hp & <-). exists p. eauto using lookup_weaken, le_policies. Qed.

Lemma job_ok_mono s s' i j : store_le s s' → job_ok s i j → job_ok s' i j.
Proof.
  intros Hle (Hr & l & e & ? & ? & ?). split; [eauto using is_Some_weaken, le_repositories|].
  exists l, e. eauto using lookup_weaken, le_events.
Qed.

Lemma lock_ok_mono s s' l : store_le s s' → lock_ok s l → lock_ok s' l.
Proof.
  intros Hle (? & ? & ? & Ho). split_and!; eauto using is_Some_weaken, le_repositories, policy_in_mono.
  intros i Hi. eauto using job_in_mono.
Qed.

Lemma invocation_ok_mono s s' t : store_le s s' → invocation_ok s t → invocation_ok s' t.
Proof.
  intros Hle (? & ? & ?).
  split_and!; eauto using is_Some_weaken, le_repositories, policy_in_mono, job_in_mono.
Qed.

Lemma result_ok_mono s s' x : store_le s s' → result_ok s x → result_ok s' x.
Proof. intros Hle (t & ? & ?). exists t. eauto using lookup_weaken, le_invocations. Qed.

Lemma audit_ok_mono s s' a : store_le s s' → audit_ok s a → audit_ok s' a.
Proof.
  intros Hle (? & ? & Ha). split_and!; eauto using is_Some_weaken, le_repositories, policy_in_mono.
  intros i Hi. destruct (Ha i Hi) as (t & ? & ?). exists t. eauto using lookup_weaken, le_invocations.
Qed.

(** ** References *)

(** A state that is ahead of a well-formed one is well formed when the records
    it adds are. *)
Lemma refs_wf_extend s s' :
  store_le s s' → refs_wf s →
  (∀ i x, jobs s' !! i = Some x → jobs s !! i = Some x ∨ job_ok s' i x) →
  (∀ i x, policy_decisions s' !! i = Some x →
     policy_decisions s !! i = Some x ∨ is_Some (repositories s' !! pol_repository_id x)) →
  (∀ i x, lock_decisions s' !! i = Some x → lock_decisions s !! i = Some x ∨ lock_ok s' x) →
  (∀ i x, tool_invocations s' !! i = Some x →
     tool_invocations s !! i = Some x ∨ invocation_ok s' x) →
  (∀ i x, tool_results s' !! i = Some x → tool_results s !! i = Some x ∨ result_ok s' x) →
  (∀ i x, audit_records s' !! i = Some x → audit_records s !! i = Some x ∨ audit_ok s' x) →
  (∀ i x, job_events_by_id s' !! i = Some x →
     job_events_by_id s !! i = Some x ∨ event_ok s' x) →
  refs_wf s'.
Proof.
  intros Hle [] Hj Hp Hl Hi Hr Ha He. split; intros i x Hx.
  - destruct (Hj _ _ Hx); eauto using job_ok_mono.
  - destruct (Hp _ _ Hx); eauto using is_Some_weaken, le_repositories.
  - destruct (Hl _ _ Hx); eauto using lock_ok_mono.
  - destruct (Hi _ _ Hx); eauto using invocation_ok_mono.
  - destruct (Hr _ _ Hx); eauto using result_ok_mono.
  - destruct (Ha _ _ Hx); eauto using audit_ok_mono.
  - destruct (He _ _ Hx); eauto using event_ok_mono.
Qed.

Lemma event_ok_sequence s e n : event_ok s e → event_ok s (evt_set_sequence e n).
Proof. intros (r & job & policy & []). exists r, job, policy. by split. Qed.

Ltac split_insert :=
  match goal with
  | Hx : <[_ := _]> _ !! _ = Some _ |- _ =>
      apply lookup_insert_Some in Hx as [[<- <-]|[? Hx]]
  end.

Lemma ledger_step_refs s s' : ledger_wf s → refs_wf s → ledger_step s s' → refs_wf s'.
Proof.
  intros Hl Hwf Hstep. pose proof (ledger_step_le _ _ Hl Hstep) as Hle.
  apply (refs_wf_extend s); [done..| | | | | | |]; destruct Hstep; simpl in *; intros i' x' Hx;
    auto; split_insert; auto; right.
  - split; [done|]. exists (evt_id e), (evt_set_sequence e (next_event_sequence s + 1)).
    split_and!; simpl; [done|by rewrite lookup_insert_eq|done].
  - eauto using event_ok_sequence, event_ok_mono.
  - eauto using event_ok_sequence.
Qed.

(** ** Keys and the event ledger *)

Lemma ledger_step_keys s s' : keys_wf s → ledger_step s s' → keys_wf s'.
Proof.
  intros [] Hstep. destruct Hstep; split; simpl; try done; intros i' x' Hx; simpl in *;
    try (split_insert; simpl; by eauto).
  - rewrite lookup_fmap in Hx. destruct (schema_migrations s !! i') as [m|] eqn:Hm; [|done].
    simpl in Hx. simplify_eq. rewrite (ml_id _ _ (migration_le_expire now m)). eauto.
Qed.

Lemma ledger_wf_append s e : new_event s e → ledger_wf s → ledger_wf (ledger_append s e).
Proof.
  intros [Hid Hmax] [Hb Hr Hs Hi]. split; simpl; [done|..].
  - intros n. rewrite lookup_insert_is_Some, Hr. lia.
  - intros n i. rewrite lookup_insert_Some. intros [[<- <-]|[? Hn]].
    + rewrite lookup_insert_eq. eauto.
    + destruct (Hs _ _ Hn) as (e' & He' & ?). exists e'. split; [|done].
      rewrite lookup_insert_ne; [done|congruence].
  - intros i e'. rewrite lookup_insert_Some. intros [[<- <-]|[? He]].
    + by rewrite lookup_insert_eq.
    + destruct (Hi _ _ He) as [? Hseq]. split; [done|].
      rewrite lookup_insert_ne; [done|]. intros Heq.
      pose proof (proj1 (Hr _) (mk_is_Some _ _ Hseq)). lia.
Qed.

Lemma ledger_step_ledger s s' : ledger_wf s → ledger_step s s' → ledger_wf s'.
Proof.
  intros Hwf Hstep. pose proof Hwf as []. destruct Hstep; try done.
  - by apply ledger_wf_append.
  - destruct (ledger_wf_append s e) as []; [done..|]. done.
Qed.

(** ** Roots *)

Lemma ledger_step_roots s s' : keys_wf s → refs_wf s → roots_wf s → ledger_step s s' → roots_wf s'.
Proof.
  intros Hk Hrefs [Hrec Huniq Hblk Hpol] Hstep. destruct Hstep as
    [s r Hnew Hv Hroots Hp|s p r Hnew Hr Hp| | | | | | | | | | | ]; try done.
  - split; simpl.
    + intros i r'. rewrite lookup_insert_Some. intros [[<- <-]|[? ?]]; eauto.
    + intros i i' r1 r2. rewrite !lookup_insert_Some.
      intros [[<- <-]|[? Hx1]] [[<- <-]|[? Hx2]] Heq; eauto; exfalso.
      * by apply (Hroots _ _ Hx2).
      * by apply (Hroots _ _ Hx1).
    + intros i i' r1 r2. rewrite !lookup_insert_Some.
      intros [[<- <-]|[? Hx1]] [[<- <-]|[? Hx2]] Hne; eauto; try done.
      * by apply (Hroots _ _ Hx2).
      * rewrite blocked_roots_conflict_sym. by apply (Hroots _ _ Hx1).
    + intros i p i' r1 r2 Hi Hb. rewrite !lookup_insert_Some.
      intros [[Hid <-]|[? Hx1]] [[<- <-]|[? Hx2]] Hne; eauto; try done.
      * destruct (rw_policies _ Hrefs _ _ Hi) as [? ?]. congruence.
      * rewrite repository_roots_strictly_overlap_sym. eauto.
  - split; simpl; eauto. intros i p' i' r1 r2. rewrite !lookup_insert_Some.
    intros [[<- <-]|[? Hi]] Hb Hr1 Hr2 Hne; [|by eauto].
    simplify_eq. apply (Hp Hb _ _ Hr2).
    rewrite (kw_repositories _ Hk _ _ Hr2), (kw_repositories _ Hk _ _ Hr). done.
Qed.

(** ** Exclusion *)

Lemma exclusive_wf_expire s now :
  exclusive_wf s → exclusive_wf (expire_schema_migration_locks s now).
Proof.
  intros [Hl Hr Hrec Hm]. split; simpl; try done; setoid_rewrite lookup_fmap_Some.
  - intros i ? (m & <- & Hi). eauto using validate_expire_lock.
  - intros i i' ? ? (m & <- & ?) (m' & <- & ?) ?%held_expire_lock ?%held_expire_lock. eauto.
Qed.

Lemma exclusive_wf_lock s l :
  exclusive_wf s →
  (is_active_lock_status (lock_status l) = true →
     ∀ i l', lock_decisions s !! i = Some l' → lock_conflicts l l' = false) →
  exclusive_wf (set_lock_decisions s (<[lock_id l := l]> (lock_decisions s))).
Proof.
  intros [Hl Hr Hrec Hm] Hnew.
  assert (Hc : ∀ i l', lock_decisions s !! i = Some l' →
    is_active_lock_status (lock_status l) = true → is_active_lock_status (lock_status l') = true →
    lock_repository_id l' = lock_repository_id l → lock_locked_scope l' = lock_locked_scope l → False).
  { intros i l' Hi Ha Ha' Hrepo Hscope. pose proof (Hnew Ha _ _ Hi) as Hf.
    unfold lock_conflicts in Hf. by rewrite Ha', !bool_decide_eq_true_2 in Hf. }
  split; simpl; try done. intros i i' x x'. rewrite !lookup_insert_Some.
  intros [[<- <-]|[? Hx]] [[<- <-]|[? Hx']] ????; eauto; exfalso; eauto.
Qed.

Lemma exclusive_wf_result s x :
  exclusive_wf s →
  (∀ i x', tool_results s !! i = Some x' → res_invocation_id x' ≠ res_invocation_id x) →
  exclusive_wf (set_tool_results s (<[res_id x := x]> (tool_results s))).
Proof.
  intros [Hl Hr Hrec Hm] Hnew. split; simpl; try done.
  intros i i' y y'. rewrite !lookup_insert_Some.
  intros [[<- <-]|[? Hx]] [[<- <-]|[? Hx']] ?; eauto; exfalso; naive_solver.
Qed.

Lemma exclusive_wf_migration s i m :
  exclusive_wf s → validate_schema_migration_record m = Ok tt →
  (held_migration m → ∀ i' m', schema_migrations s !! i' = Some m' → i' ≠ i → ¬ held_migration m') →
  exclusive_wf (set_schema_migrations s (<[i := m]> (schema_migrations s))).
Proof.
  intros [Hl Hr Hrec Hm] Hv Hnew. split; simpl; try done.
  - intros i' m'. rewrite lookup_insert_Some. intros [[<- <-]|[? Hx]]; eauto.
  - intros i1 i2 m1 m2. rewrite !lookup_insert_Some.
    intros [[<- <-]|[? Hx]] [[<- <-]|[? Hx']] ??; eauto; exfalso; eapply Hnew; eauto.
Qed.

Lemma ledger_step_exclusive s s' : exclusive_wf s → ledger_step s s' → exclusive_wf s'.
Proof.
  intros Hwf Hstep. pose proof Hwf as [_ _ Hrec _].
  destruct Hstep; try (by destruct Hwf; split).
  - by apply exclusive_wf_lock.
  - by apply exclusive_wf_expire.
  - apply exclusive_wf_migration; eauto.
  - apply exclusive_wf_migration; [done| |].
    + apply validate_schema_migration_record_close; eauto. lia.
    + by intros (? & [= <-] & ?).
  - by apply exclusive_wf_result.
Qed.

(** ** The invariant *)

Lemma ledger_step_wf s s' : store_wf s → ledger_step s s' → store_wf s'.
Proof.
  intros [] Hstep. split; eauto using ledger_step_keys, ledger_step_ledger, ledger_step_refs,
    ledger_step_roots, ledger_step_exclusive.
Qed.

Lemma ledger_steps_wf s s' : store_wf s → rtc ledger_step s s' → store_wf s'.
Proof. intros Hwf. induction 1; eauto using ledger_step_wf. Qed.

Lemma ledger_steps_le s s' : store_wf s → rtc ledger_step s s' → store_le s s'.
Proof.
  intros Hwf. induction 1 as [|s1 s2 s3 Hstep _ IH]; [done|].
  transitivity s2; eauto using ledger_step_le, sw_ledger, ledger_step_wf.
Qed.

Lemma inner_default_wf : store_wf inner_default.
Proof.
  split; split; simpl; try done.
  intros n. rewrite lookup_empty, is_Some_alt. lia.
Qed.

(** Jobs that exist keep well-formed timestamps. *)
Lemma ledger_step_job_wf s s' i j j' :
  ledger_step s s' → jobs s !! i = Some j → jobs s' !! i = Some j' → job_wf j → job_wf j'.
Proof.
  intros Hstep Hj Hj' Hwf. destruct Hstep; simpl in *; simplify_eq; try done.
  split_insert; [|by simplify_eq].
  match goal with Hu : ∀ _, _ → job_update_ok _ _ _ |- _ => destruct (Hu _ Hj) as (_ & Hup & _) end.
  by destruct (Hup Hwf); split.
Qed.
End Steps.
