(* ===== verification/StoreRefine.v ===== *)
(** * StoreRefine: events, and every transaction as steps of the ledger *)
From S2P Require Import Prelude Text Domain DomainLaws Policy StoreTypes StoreValidate StoreJobs.
From S2P Require Import Store Ledger.

(** * What a validated event guarantees

    [validate_new_job_event_with_pending_records] checks an event against the
    state before the transaction together with the records the transaction is
    about to add.  If it accepts, the event is well referenced ([event_ok]) in
    every later state that holds those records. *)

#[export] Instance as_str_Inj k : Inj (=) (=) (@as_str k).
Proof. by intros [] [] [= ->]. Qed.

Lemma contains_key_spec {K V} `{Countable K} (m : gmap K V) k :
  contains_key m k = true ↔ is_Some (m !! k).
Proof. unfold contains_key. rewrite <- not_eq_None_Some. destruct (m !! k); simpl; naive_solver. Qed.

Lemma contains_key_false {K V} `{Countable K} (m : gmap K V) k :
  contains_key m k = false ↔ m !! k = None.
Proof. unfold contains_key. by destruct (m !! k). Qed.

Lemma get_ref_Ok {k V} (m : gmap (OpaqueId k) V) i c x v :
  get_ref m i c x = Ok v ↔ m !! i = Some v.
Proof. apply ok_or_Ok. Qed.

Lemma ensure_ref_exists_Ok {k} b c (i : OpaqueId k) x :
  ensure_ref_exists b c i x = Ok tt ↔ b = true.
Proof. unfold ensure_ref_exists. by destruct b. Qed.

Lemma ensure_same_repository_Ok c x r r' : ensure_same_repository c x r r' = Ok tt ↔ r' = r.
Proof. unfold ensure_same_repository. case_bool_decide; naive_solver. Qed.

Lemma str_eqb_true a b : str_eqb a b = true ↔ a = b.
Proof. apply bool_decide_eq_true. Qed.

Lemma ensure_subject_ref_matches_Ok e ty i c :
  ensure_subject_ref_matches e ty i c = Ok tt ↔ names_same e ty i.
Proof.
  unfold ensure_subject_ref_matches, names_same.
  destruct (decide (subject_type (evt_subject e) = ty)) as [Hty|Hty].
  - rewrite (bool_decide_eq_true_2 _ Hty). simpl. unfold str_eqb. case_bool_decide; naive_solver.
  - rewrite (bool_decide_eq_false_2 _ Hty). naive_solver.
Qed.

Lemma ensure_event_repository_consistency_Ok r r' c x :
  ensure_event_repository_consistency (Some r) r' c = Ok x ↔ r' = r ∧ x = Some r.
Proof.
  simpl. destruct (ensure_same_repository _ _ _ _) as [[]|] eqn:Hs.
  - apply ensure_same_repository_Ok in Hs. naive_solver.
  - split; [done|]. intros [-> _]. by rewrite (proj2 (ensure_same_repository_Ok _ _ r r)) in Hs.
Qed.

(** An expectation is set to what is found, or confirmed. *)
Lemma ensure_event_identity_consistency_Ok o a c f x :
  ensure_event_identity_consistency o a c f = Ok x ↔
  x = Some a ∧ ∀ i, o = Some i → i = a.
Proof.
  destruct o as [i|]; simpl; [|naive_solver].
  destruct (str_eqb i a) eqn:Hs; unfold str_eqb in Hs; case_bool_decide; naive_solver.
Qed.

Lemma or_else_Some {A} (o o' : option A) x :
  or_else o o' = Some x → o = Some x ∨ o = None ∧ o' = Some x.
Proof. destruct o; simpl; naive_solver. Qed.

Lemma opt_filter_Some {A} (f : A → bool) (o : option A) x :
  opt_filter f o = Some x ↔ o = Some x ∧ f x = true.
Proof.
  destruct o as [a|]; simpl; [|by split; [|intros []]].
  destruct (f a) eqn:Hf; split.
  - by intros [= <-].
  - by intros [[= <-] _].
  - done.
  - intros [[= <-] ?]. congruence.
Qed.

Section Events.
Context `{UuidLib} `{RegistryPort}.
Implicit Types s : InMemoryInner.

(** The records the transaction adds are in the later state [s']. *)
Record pending_in s' (pj : option JobRecord) (pr : option ToolResult) (pa : option AuditRecord)
  : Prop := {
  pi_job j : pj = Some j → job_in s' (job_id j) (job_repository_id j);
  pi_result x : pr = Some x → tool_results s' !! res_id x = Some x;
  pi_audit a : pa = Some a → audit_records s' !! aud_id a = Some a
}.

Section Sound.
Context (s s' : InMemoryInner) (e : JobEvent).
Context (pj : option JobRecord) (pr : option ToolResult) (pa : option AuditRecord).
Context (Hkeys : keys_wf s) (Hle : store_le s s') (Hpend : pending_in s' pj pr pa).

Lemma names_subject_spec {k} (i : OpaqueId k) :
  names_subject e i = true ↔ as_str i = subject_id (evt_subject e).
Proof. apply str_eqb_true. Qed.

Lemma find_hash_named {k V} (m : gmap (OpaqueId k) V) (f : V → OpaqueId k) v :
  (∀ i x, m !! i = Some x → f x = i) →
  find_bool (λ x, names_subject e (f x)) (hash_values m) = Some v →
  m !! f v = Some v ∧ as_str (f v) = subject_id (evt_subject e).
Proof.
  intros Hk [(i & Hi)%elem_of_hash_values Hn%names_subject_spec]%find_bool_Some.
  by pose proof (Hk _ _ Hi) as <-.
Qed.

Lemma find_tool_result_in i x :
  find_tool_result s pr i = Ok x → tool_results s' !! i = Some x.
Proof.
  unfold find_tool_result. intros [Hx|[_ Hx]]%ok_or_Ok%or_else_Some.
  - eauto using lookup_weaken, le_results.
  - apply opt_filter_Some in Hx as [Hx <-%bool_decide_eq_true]. by apply (pi_result _ _ _ _ Hpend).
Qed.

(** The subject check computes the repository of the subject. *)
Lemma subject_repository_id_sound o :
  subject_repository_id s e pj pr pa = Ok o → ∃ r, o = Some r ∧ subject_in s' e r.
Proof.
  unfold subject_repository_id, subject_in. destruct (subject_type (evt_subject e)); intros Hok;
    step_ok Hok; try step_ok Hok; repeat match goal with
      Hx : ok_or _ _ = Ok _ |- _ => apply ok_or_Ok in Hx end; simplify_eq; eexists; (split; [done|]).
  - apply find_bool_Some in Hok0 as [Hin Hn%names_subject_spec]. split; [done|].
    unfold hash_keys in Hin. apply list_elem_of_fmap in Hin as ([i r] & -> & Hin%elem_of_map_to_list).
    eauto using lookup_weaken, le_repositories.
  - apply or_else_Some in Hok0 as [Hf|[_ Hf]].
    + apply find_bool_Some in Hf as [(i & Hi)%elem_of_btree_values Hn%names_subject_spec].
      pose proof (kw_jobs _ Hkeys _ _ Hi). destruct (le_jobs _ _ Hle _ _ Hi) as (j' & ? & []).
      exists i, j'. split_and!; congruence.
    + apply opt_filter_Some in Hf as [Hf Hn%names_subject_spec].
      destruct (pi_job _ _ _ _ Hpend _ Hf) as (j' & ? & ?). eauto.
  - apply find_hash_named in Hok0 as [??]; [|apply kw_policies; done].
    eauto 10 using lookup_weaken, le_policies.
  - apply find_hash_named in Hok0 as [??]; [|apply kw_locks; done].
    eauto 10 using lookup_weaken, le_locks.
  - apply find_hash_named in Hok0 as [??]; [|apply kw_invocations; done].
    eauto 10 using lookup_weaken, le_invocations.
  - assert (tool_results s' !! res_id a = Some a ∧ as_str (res_id a) = subject_id (evt_subject e))
      as [Hx Hn].
    { apply or_else_Some in Hok0 as [Hf|[_ Hf]].
      - apply find_hash_named in Hf as [??]; [|apply kw_results; done].
        eauto using lookup_weaken, le_results.
      - apply opt_filter_Some in Hf as [Hf Hn%names_subject_spec].
        by pose proof (pi_result _ _ _ _ Hpend _ Hf). }
    exists (res_id a), a, a0. split_and!; try done. eauto using lookup_weaken, le_invocations.
  - apply or_else_Some in Hok0 as [Hf|[_ Hf]].
    + apply find_hash_named in Hf as [??]; [|apply kw_audits; done].
      eauto 10 using lookup_weaken, le_audits.
    + apply opt_filter_Some in Hf as [Hf Hn%names_subject_spec].
      pose proof (pi_audit _ _ _ _ Hpend _ Hf). eauto.
Qed.

(** ** References *)

(** Expectations are only ever filled in. *)
Definition fills (o o' : option string) : Prop := ∀ i, o = Some i → o' = Some i.

Record expects (r : RepositoryId) (x y : EventExpectation) : Prop := {
  ex_from : exp_repository x = Some r;
  ex_repository : exp_repository y = Some r;
  ex_job : fills (exp_job x) (exp_job y);
  ex_policy : fills (exp_policy x) (exp_policy y)
}.

Lemma identity_fills o a c f x :
  ensure_event_identity_consistency o a c f = Ok x → fills o x ∧ x = Some a.
Proof.
  intros [-> Ha]%ensure_event_identity_consistency_Ok. split; [|done].
  intros i Hi. by rewrite (Ha i Hi).
Qed.

(** Read off what the checks of one reference established. *)
Ltac use_checks Hr :=
  repeat match goal with
    | Hc : unit |- _ => destruct Hc
    | Hc : ok_or _ _ = Ok _ |- _ => apply ok_or_Ok in Hc
    | Hc : get_ref _ _ _ _ = Ok _ |- _ => apply get_ref_Ok in Hc
    | Hc : ensure_ref_exists _ _ _ _ = Ok tt |- _ => apply ensure_ref_exists_Ok in Hc
    | Hc : ensure_subject_ref_matches _ _ _ _ = Ok tt |- _ =>
        apply ensure_subject_ref_matches_Ok in Hc
    | Hc : ensure_event_repository_consistency _ _ _ = Ok _ |- _ =>
        rewrite Hr in Hc; apply ensure_event_repository_consistency_Ok in Hc as [? ->]
    | Hc : ensure_event_job_consistency _ _ _ = Ok _ |- _ => apply identity_fills in Hc as [? ->]
    | Hc : ensure_event_policy_consistency _ _ _ = Ok _ |- _ => apply identity_fills in Hc as [? ->]
    end.

Lemma invocation_ref_differs_false i :
  invocation_ref_differs e i = false ↔ agrees_invocation e i.
Proof.
  unfold invocation_ref_differs, agrees_invocation.
  destruct (ref_tool_invocation_id (evt_refs e)) as [t|]; [|naive_solver].
  case_bool_decide; naive_solver.
Qed.

Ltac expecting := split; simpl; first [done | by intros ? ?].

Lemma expects_refl r x : exp_repository x = Some r → expects r x x.
Proof. intros Hr. expecting. Qed.

Lemma expects_trans r x y z : expects r x y → expects r y z → expects r x z.
Proof. intros [] []. split; try done; intros i Hi; eauto. Qed.

Lemma check_repository_ref_sound x y :
  check_repository_ref s e x = Ok y →
  y = x ∧ ∀ i, ref_repository_id (evt_refs e) = Some i →
    names_same e SubjRepository (as_str i) ∧ is_Some (repositories s' !! i).
Proof.
  intros Hok. unfold check_repository_ref in Hok.
  destruct (ref_repository_id (evt_refs e)) as [i|] eqn:Hi; [|by simplify_eq].
  run_ok Hok. use_checks I. split; [done|]. intros i' [= <-].
  apply contains_key_spec in Hok1. eauto using is_Some_weaken, le_repositories.
Qed.

Lemma check_job_ref_sound r x y :
  exp_repository x = Some r → check_job_ref s e pj x = Ok y →
  expects r x y ∧ ∀ i, ref_job_id (evt_refs e) = Some i →
    exp_job y = Some (as_str i) ∧ job_in s' i r.
Proof.
  intros Hr Hok. unfold check_job_ref in Hok.
  destruct (ref_job_id (evt_refs e)) as [i|] eqn:Hi; [|by simplify_eq; split; [apply expects_refl|]].
  run_ok Hok. use_checks Hr. subst y. split; [expecting|]. intros i' [= <-].
  apply or_else_Some in Hok1 as [Hj|[_ Hj]].
  - rewrite (kw_jobs _ Hkeys _ _ Hj). split; [done|].
    eapply job_in_mono; [done|]. by exists a0.
  - apply opt_filter_Some in Hj as [Hj <-%bool_decide_eq_true]. split; [done|]. subst r.
    by apply (pi_job _ _ _ _ Hpend).
Qed.

Lemma check_policy_ref_sound r x y :
  exp_repository x = Some r → check_policy_ref s e x = Ok y →
  expects r x y ∧ ∀ i, ref_policy_decision_id (evt_refs e) = Some i →
    names_same e SubjPolicyDecision (as_str i) ∧ policy_in s' i r.
Proof.
  intros Hr Hok. unfold check_policy_ref in Hok.
  destruct (ref_policy_decision_id (evt_refs e)) as [i|] eqn:Hi;
    [|by simplify_eq; split; [apply expects_refl|]].
  run_ok Hok. use_checks Hr. subst y. split; [expecting|]. intros i' [= <-]. split; [done|].
  eapply policy_in_mono; [done|]. by exists a0.
Qed.

Lemma check_lock_ref_sound r x y :
  exp_repository x = Some r → check_lock_ref s e x = Ok y →
  expects r x y ∧ ∀ i, ref_lock_decision_id (evt_refs e) = Some i →
    names_same e SubjLockDecision (as_str i) ∧
    ∃ l, lock_decisions s' !! i = Some l ∧ lock_repository_id l = r ∧
      exp_policy y = Some (as_str (lock_policy_decision_id l)).
Proof.
  intros Hr Hok. unfold check_lock_ref in Hok.
  destruct (ref_lock_decision_id (evt_refs e)) as [i|] eqn:Hi;
    [|by simplify_eq; split; [apply expects_refl|]].
  run_ok Hok. use_checks Hr. subst y. split; [expecting|]. intros i' [= <-]. split; [done|].
  exists a0. split_and!; eauto using lookup_weaken, le_locks.
Qed.

Lemma check_invocation_ref_sound r x y :
  exp_repository x = Some r → check_invocation_ref s e x = Ok y →
  expects r x y ∧ ∀ i, ref_tool_invocation_id (evt_refs e) = Some i →
    names_same e SubjToolInvocation (as_str i) ∧
    ∃ t, tool_invocations s' !! i = Some t ∧ inv_repository_id t = r ∧
      exp_job y = Some (as_str (inv_job_id t)) ∧
      exp_policy y = Some (as_str (inv_policy_decision_id t)).
Proof.
  intros Hr Hok. unfold check_invocation_ref in Hok.
  destruct (ref_tool_invocation_id (evt_refs e)) as [i|] eqn:Hi;
    [|by simplify_eq; split; [apply expects_refl|]].
  run_ok Hok. use_checks Hr. subst y. split; [expecting|]. intros i' [= <-]. split; [done|].
  exists a0. split_and!; eauto using lookup_weaken, le_invocations.
Qed.

Lemma check_result_ref_sound r x y :
  exp_repository x = Some r → check_result_ref s e pr x = Ok y →
  expects r x y ∧ ∀ i, ref_tool_result_id (evt_refs e) = Some i →
    names_same e SubjToolResult (as_str i) ∧
    ∃ x t, tool_results s' !! i = Some x ∧ tool_invocations s' !! res_invocation_id x = Some t ∧
      inv_repository_id t = r ∧ agrees_invocation e (res_invocation_id x) ∧
      exp_job y = Some (as_str (inv_job_id t)) ∧
      exp_policy y = Some (as_str (inv_policy_decision_id t)).
Proof.
  intros Hr Hok. unfold check_result_ref in Hok.
  destruct (ref_tool_result_id (evt_refs e)) as [i|] eqn:Hi;
    [|by simplify_eq; split; [apply expects_refl|]].
  run_ok Hok. use_checks Hr. subst y. split; [expecting|]. intros i' [= <-]. split; [done|].
  exists a0, a1. apply invocation_ref_differs_false in Hg.
  split_and!; eauto using find_tool_result_in, lookup_weaken, le_invocations.
Qed.

Lemma check_audit_ref_sound r x y :
  exp_repository x = Some r → check_audit_ref s e pr pa x = Ok y →
  expects r x y ∧ ∀ i, ref_audit_record_id (evt_refs e) = Some i →
    names_same e SubjAuditRecord (as_str i) ∧
    ∃ a, audit_records s' !! i = Some a ∧ aud_repository_id a = r ∧
      exp_policy y = Some (as_str (aud_policy_decision_id a)) ∧
      ∀ t, aud_tool_invocation_id a = Some t → agrees_invocation e t ∧
        (∃ inv, tool_invocations s' !! t = Some inv ∧ exp_job y = Some (as_str (inv_job_id inv))) ∧
        ∀ ri, ref_tool_result_id (evt_refs e) = Some ri →
          ∃ x, tool_results s' !! ri = Some x ∧ res_invocation_id x = t.
Proof.
  intros Hr Hok. unfold check_audit_ref in Hok.
  destruct (ref_audit_record_id (evt_refs e)) as [i|] eqn:Hi;
    [|by simplify_eq; split; [apply expects_refl|]].
  step_ok Hok. step_ok Hok. step_ok Hok. step_ok Hok. use_checks Hr.
  assert (audit_records s' !! i = Some a0) as Ha.
  { apply or_else_Some in Hok1 as [Ha|[_ Ha]]; [eauto using lookup_weaken, le_audits|].
    apply opt_filter_Some in Ha as [Ha <-%bool_decide_eq_true]. by apply (pi_audit _ _ _ _ Hpend). }
  destruct (aud_tool_invocation_id a0) as [t|] eqn:Ht.
  - do 5 step_ok Hok. use_checks Hr. subst y. split; [expecting|]. intros i' [= <-].
    split; [done|]. exists a0. split_and!; try done. intros t' Ht'. simplify_eq.
    apply invocation_ref_differs_false in Hg. split_and!; [done|..].
    + eexists. split; [|done]. eauto using lookup_weaken, le_invocations.
    + intros ri Hri. rewrite Hri in Hok4. do 2 step_ok Hok4.
      apply negb_false_iff, bool_decide_eq_true in Hg0. eauto using find_tool_result_in.
  - simplify_eq. split; [expecting|]. intros i' [= <-].
    split; [done|]. exists a0. split_and!; try done. intros t' Ht'. congruence.
Qed.

Lemma initial_repository r :
  (∀ i, ref_repository_id (evt_refs e) = Some i → i = r) →
  exp_repository (initial_expectation e (Some r)) = Some r.
Proof.
  intros Hr. simpl. destruct (ref_repository_id (evt_refs e)) as [i|]; simpl; [|done].
  by rewrite (Hr i).
Qed.

Lemma initial_policy r i :
  ref_policy_decision_id (evt_refs e) = Some i → names_same e SubjPolicyDecision (as_str i) →
  exp_policy (initial_expectation e (Some r)) = Some (as_str i).
Proof.
  intros Hi Hn. simpl. unfold names_same in Hn.
  destruct (subject_type (evt_subject e)); rewrite ?Hi; simpl; try done. by rewrite Hn.
Qed.

(** All checks passed: [z] is the final expectation, and its job and policy
    decision are those of everything the event names. *)
Lemma validate_event_refs_sound r :
  has_valid_subject_id (evt_subject e) = true →
  (∀ i, ref_repository_id (evt_refs e) = Some i → i = r) → subject_in s' e r →
  validate_event_refs s e pj pr pa (Some r) = Ok tt → event_in s' e r.
Proof.
  intros Hv Hr Hsub Hok. unfold validate_event_refs in Hok.
  do 6 step_ok Hok. destruct (check_audit_ref _ _ _ _ _) as [z|] eqn:Ha; [|done].
  destruct (check_repository_ref_sound _ _ Hok0) as [-> Hrepo].
  destruct (check_job_ref_sound _ _ _ (initial_repository r Hr) Hok1) as [Hx1 Hjob].
  destruct (check_policy_ref_sound _ _ _ (ex_repository _ _ _ Hx1) Hok2) as [Hx2 Hpol].
  destruct (check_lock_ref_sound _ _ _ (ex_repository _ _ _ Hx2) Hok3) as [Hx3 Hlock].
  destruct (check_invocation_ref_sound _ _ _ (ex_repository _ _ _ Hx3) Hok4) as [Hx4 Hinv].
  destruct (check_result_ref_sound _ _ _ (ex_repository _ _ _ Hx4) Hok5) as [Hx5 Hres].
  destruct (check_audit_ref_sound _ _ _ (ex_repository _ _ _ Hx5) Ha) as [Hx6 Haud].
  pose proof (expects_trans _ _ _ _ Hx5 Hx6) as Hz5.
  pose proof (expects_trans _ _ _ _ Hx4 Hz5) as Hz4.
  pose proof (expects_trans _ _ _ _ Hx3 Hz4) as Hz3.
  pose proof (expects_trans _ _ _ _ Hx2 Hz3) as Hz2.
  pose proof (expects_trans _ _ _ _ Hx1 Hz2) as Hz1.
  exists (default "" (exp_job z)), (default "" (exp_policy z)).
  assert (∀ i, exp_job z = Some i → i = default "" (exp_job z)) as HJ by (by intros i ->).
  assert (∀ i, exp_policy z = Some i → i = default "" (exp_policy z)) as HP by (by intros i ->).
  split; try done.
  - intros Hty. apply HJ, (ex_job _ _ _ Hz1). simpl. by rewrite Hty.
  - intros Hty. apply HP, (ex_policy _ _ _ Hz1). simpl. by rewrite Hty.
  - intros i Hi. destruct (Hrepo i Hi). eauto.
  - intros i Hi. destruct (Hjob i Hi). split; [|done]. by apply HJ, (ex_job _ _ _ Hz2).
  - intros i Hi. destruct (Hpol i Hi). split; [|done].
    by apply HP, (ex_policy _ _ _ Hz1), initial_policy.
  - intros i Hi. destruct (Hlock i Hi) as (? & l & ? & ? & ?). split; [done|]. exists l.
    split_and!; try done. by apply HP, (ex_policy _ _ _ Hz4).
  - intros i Hi. destruct (Hinv i Hi) as (? & t & ? & ? & ? & ?). split; [done|]. exists t.
    split_and!; try done; [by apply HJ, (ex_job _ _ _ Hz5)|by apply HP, (ex_policy _ _ _ Hz5)].
  - intros i Hi. destruct (Hres i Hi) as (? & x & t & ? & ? & ? & ? & ? & ?).
    split; [done|]. exists x, t.
    split_and!; try done; [by apply HJ, (ex_job _ _ _ Hx6)|by apply HP, (ex_policy _ _ _ Hx6)].
  - intros i Hi. destruct (Haud i Hi) as (? & x & ? & ? & ? & Ht). split; [done|]. exists x.
    split_and!; try done; [by apply HP|]. intros t Hxt.
    destruct (Ht t Hxt) as (? & (inv & ? & ?) & ?). split_and!; try done. exists inv. eauto.
Qed.

Lemma validate_new_job_event_sound :
  validate_new_job_event_with_pending_records s e pj pr pa = Ok tt →
  job_events_by_id s !! evt_id e = None ∧ event_ok s' e.
Proof.
  unfold validate_new_job_event_with_pending_records, validate_event_subject. intros Hok.
  do 3 step_ok Hok. do 3 step_ok Hok0. subst a.
  apply contains_key_false in Hg. split; [done|]. apply negb_false_iff in Hg0.
  destruct (subject_repository_id_sound _ Hok1) as (r & -> & Hsub).
  exists r. apply validate_event_refs_sound; [done| |done..].
  intros i Hi. rewrite Hi in Hok2. destruct a1. by apply ensure_same_repository_Ok in Hok2.
Qed.
End Sound.
End Events.

(** * The transactions of [Store] implement [Ledger]

    [StoreOp] names every mutating method of [SecretaryStore]; [exec_op] runs
    its transaction.  Each successful transaction is a sequence of abstract
    steps, so every state reachable from the empty store satisfies [store_wf]
    and lies ahead of the states before it. *)

(** ** Job updates *)

Lemma can_transition_rank a b :
  can_transition_to a b = true → b = a ∨ status_rank a < status_rank b.
Proof.
  unfold can_transition_to. case_bool_decide; [by left|]. destruct a, b; simpl; try done; right; lia.
Qed.

(** The lifecycle invariant reads the status and four timestamps only. *)
Lemma job_wf_ext j j' :
  job_status j' = job_status j → job_created_at j' = job_created_at j →
  job_started_at j' = job_started_at j → job_completed_at j' = job_completed_at j →
  (job_updated_at j <= job_updated_at j')%Z → job_wf j → job_wf j'.
Proof.
  intros Hs Hc Hst Hco Hu [H1 H2 H3 H4 H5 H6 H7 H8].
  split; rewrite ?Hs, ?Hc, ?Hst, ?Hco; try done; [lia|intros t Ht..].
  - specialize (H2 t Ht). lia.
  - specialize (H3 t Ht). lia.
Qed.

Lemma job_update_ok_refl j e i : job_update_ok (job_set_latest_event j i) j e.
Proof.
  split_and!; [by split; auto|apply job_wf_ext; simpl; try done; lia|done].
Qed.

Lemma job_update_ok_latest j j' e i : job_update_ok j j' e → job_update_ok (job_set_latest_event j i) j' e.
Proof.
  intros ([] & Hwf & Hst). split_and!; [by split|intros Hj; apply Hwf|done].
  revert Hj. apply job_wf_ext; simpl; try done; lia.
Qed.

Section JobUpdates.
Context `{UuidLib} `{RegistryPort}.

Lemma ensure_immutable_job_field_Ok {T} `{EqDecision T} i f dbg (a b : T) :
  ensure_immutable_job_field i f dbg a b = Ok tt → a = b.
Proof. unfold ensure_immutable_job_field. by case_bool_decide. Qed.

Lemma validate_job_status_change_sound j j' e :
  validate_job_status_change j j' e = Ok tt → job_created_at j' = job_created_at j →
  (job_updated_at j <= job_updated_at j')%Z →
  (job_wf j → job_wf j') ∧
  (job_status j' = job_status j ∨
   status_rank (job_status j) < status_rank (job_status j') ∧
   evt_kind e = JobStatusChanged (job_status j) (job_status j')).
Proof.
  unfold validate_job_status_change, job_update_conflict. intros Hok Hc Hu.
  destruct (negb (bool_decide (job_status j' = job_status j))) eqn:Hs.
  - step_ok Hok. step_ok Hok. destruct (transition_status j _ _) as [x|] eqn:Ht; [|done].
    simpl in Hok1. injection Hok1 as ->.
    destruct (negb _ || negb _) eqn:Hb in Hok; [done|].
    apply orb_false_iff in Hb as [Hb1%negb_false_iff%bool_decide_eq_true
                                  Hb2%negb_false_iff%bool_decide_eq_true].
    pose proof Ht as (Hcan & _ & Hx)%transition_status_Ok. split.
    + intros Hwf. pose proof (transition_status_wf _ _ _ _ Hwf Ht) as Hwf'. revert Hwf'.
      apply job_wf_ext; subst a0; simpl; try done; lia.
    + apply negb_true_iff, bool_decide_eq_false in Hs.
      destruct (can_transition_rank _ _ Hcan) as [|Hr]; [done|]. right. split; [done|].
      destruct (status_change_matches _ _ _) eqn:Hm; [|done]. unfold status_change_matches in Hm.
      destruct (evt_kind e); try done. apply andb_true_iff in Hm as [Hm1 Hm2].
      apply bool_decide_eq_true in Hm1, Hm2. by subst.
  - apply negb_false_iff, bool_decide_eq_true in Hs. step_ok Hok.
    destruct (negb _ || negb _) eqn:Hb in Hok; [done|].
    apply orb_false_iff in Hb as [Hb1%negb_false_iff%bool_decide_eq_true
                                  Hb2%negb_false_iff%bool_decide_eq_true].
    split; [|by left]. by apply job_wf_ext.
Qed.

Lemma validate_job_update_against_sound j j' e :
  validate_job_update_against j j' e = Ok tt →
  job_update_ok j j' e ∧ ref_job_id (evt_refs e) = Some (job_id j') ∧
  ref_repository_id (evt_refs e) = Some (job_repository_id j').
Proof.
  unfold validate_job_update_against. intros Hok. repeat step_ok Hok.
  repeat match goal with
    | a : unit |- _ => destruct a
    | Hc : negb (bool_decide _) = false |- _ => apply negb_false_iff, bool_decide_eq_true in Hc
    | Hc : ensure_same_repository _ _ _ _ = Ok tt |- _ => apply ensure_same_repository_Ok in Hc
    | Hc : ensure_immutable_job_field _ _ _ _ _ = Ok tt |- _ =>
        apply ensure_immutable_job_field_Ok in Hc
    end.
  unfold validate_job_lifecycle_update, job_update_conflict in Hok6.
  destruct (Z.ltb_spec (job_updated_at j') (job_updated_at j)); [done|]. step_ok Hok6. destruct a.
  destruct (validate_job_status_change_sound j j' e) as [Hwf Hst]; [done|congruence|lia|].
  split; [|done]. split_and!; [split; try congruence; tauto|done|].
  intros Hne. by destruct Hst as [|[_ ?]].
Qed.

Lemma validate_job_update_sound s j' e :
  validate_job_update s j' e = Ok tt →
  ∃ j, jobs s !! job_id j' = Some j ∧ job_latest_event_id j' = job_latest_event_id j ∧
    job_update_ok j j' e ∧ ref_job_id (evt_refs e) = Some (job_id j') ∧
    ref_repository_id (evt_refs e) = Some (job_repository_id j').
Proof.
  unfold validate_job_update. intros Hok. step_ok Hok. step_ok Hok. apply ok_or_Ok in Hok0.
  exists a. apply validate_job_update_against_sound in Hok as (? & ? & ?).
  apply negb_false_iff, bool_decide_eq_true in Hg. done.
Qed.
End JobUpdates.

(** ** Single-record transactions *)

Section Records.
Context `{UuidLib} `{RegistryPort}.
Implicit Types s : InMemoryInner.

Lemma insert_record_Ok {k V} (m : gmap (OpaqueId k) V) i x c m' :
  insert_record m i x c = Ok m' ↔ m !! i = None ∧ m' = <[i := x]> m.
Proof.
  unfold insert_record. destruct (contains_key m i) eqn:Hc.
  - apply contains_key_spec in Hc as [? Hc]. split; [done|]. intros [? _]. congruence.
  - apply contains_key_false in Hc. split; [by intros [= <-]|by intros [_ ->]].
Qed.

(** Normalise the facts the guards of a transaction leave. *)
Ltac use_guards :=
  repeat match goal with
    | a : unit |- _ => destruct a
    | Hc : ok_or _ _ = Ok _ |- _ => apply ok_or_Ok in Hc
    | Hc : get_ref _ _ _ _ = Ok _ |- _ => apply get_ref_Ok in Hc
    | Hc : ensure_ref_exists _ _ _ _ = Ok tt |- _ =>
        apply ensure_ref_exists_Ok, contains_key_spec in Hc
    | Hc : ensure_same_repository _ _ _ _ = Ok tt |- _ => apply ensure_same_repository_Ok in Hc
    | Hc : insert_record _ _ _ _ = Ok _ |- _ => apply insert_record_Ok in Hc as [Hc ->]
    | Hc : negb _ = false |- _ => apply negb_false_iff in Hc
    | Hc : bool_decide _ = true |- _ => apply bool_decide_eq_true in Hc
    | Hc : str_eqb _ _ = true |- _ => apply str_eqb_true in Hc
    | Hc : contains_key _ _ = true |- _ => apply contains_key_spec in Hc
    | Hc : contains_key _ _ = false |- _ => apply contains_key_false in Hc
    end; simplify_eq.

Lemma blocked_policy_overlap_None s root l :
  blocked_policy_overlap s root l = Ok None →
  ∀ p r, p ∈ l → is_root_scoped_repository_block p = true →
  repositories s !! pol_repository_id p = Some r →
  repository_roots_strictly_overlap root (repo_root_path r) = false.
Proof.
  induction l as [|q l IH]; simpl; intros Hok p r Hin Hb Hr; [by apply not_elem_of_nil in Hin|].
  destruct (negb (is_root_scoped_repository_block q)) eqn:Hq.
  - apply elem_of_cons in Hin as [->|Hin]; [by rewrite Hb in Hq|eauto].
  - step_ok Hok. apply ok_or_Ok in Hok0. step_ok Hok.
    apply elem_of_cons in Hin as [->|Hin]; [|eauto]. congruence.
Qed.

Lemma create_repository_refines r s s' :
  create_repository r s = Ok (s', tt) → ledger_step s s'.
Proof.
  unfold create_repository. intros Hok. step_ok Hok. step_ok Hok.
  destruct (find_bool _ _) eqn:Hf; [done|]. step_ok Hok. destruct a0 as [[]|]; [done|].
  step_ok Hok. step_ok Hok. use_guards. apply ls_repository; try done.
  - intros i r' Hr'. assert (r' ∈ hash_values (repositories s)) by (apply elem_of_hash_values; eauto).
    pose proof (proj1 (existsb_false _ _) Hg _ H1) as Hne. apply bool_decide_eq_false in Hne.
    split; [done|]. by apply (find_bool_None _ _ _ Hf).
  - intros i p r' Hp Hb Hr'. eapply blocked_policy_overlap_None; eauto.
    apply elem_of_hash_values; eauto.
Qed.

Lemma create_policy_decision_refines p s s' :
  create_policy_decision p s = Ok (s', tt) → ledger_step s s'.
Proof.
  unfold create_policy_decision. intros Hok. do 4 step_ok Hok. use_guards.
  destruct Hok0 as [r Hr]. apply (ls_policy _ _ r); try done.
  intros Hb i r' Hr' Hne. rewrite Hb, Hr in Hok1. simpl in Hok1. step_ok Hok1.
  assert (r' ∈ hash_values (repositories s)) as Hin by (apply elem_of_hash_values; eauto).
  pose proof (find_bool_None _ _ _ Ho Hin) as Hf. simpl in Hf.
  by rewrite bool_decide_eq_false_2 in Hf.
Qed.

Lemma create_lock_decision_refines l s s' :
  create_lock_decision l s = Ok (s', tt) → ledger_step s s'.
Proof.
  unfold create_lock_decision. intros Hok. repeat step_ok Hok. use_guards.
  apply ls_lock; try done.
  - split_and!; try done; [by eexists|]. intros i Hi. rewrite Hi in Hok3. step_ok Hok3. use_guards.
    by eexists.
  - intros Ha i l' Hl'. rewrite Ha in Hok4. step_ok Hok4.
    apply (find_bool_None _ _ _ Ho). apply elem_of_hash_values; eauto.
Qed.

Lemma create_tool_invocation_refines t s s' :
  create_tool_invocation t s = Ok (s', tt) → ledger_step s s'.
Proof.
  unfold create_tool_invocation, validate_tool_invocation_refs. intros Hok.
  do 3 step_ok Hok. repeat step_ok Hok0. use_guards. apply ls_invocation; try done.
  split_and!; [done|by eexists..].
Qed.

Lemma validate_tool_result_refs_sound x s :
  validate_tool_result_refs s x = Ok tt →
  result_ok s x ∧ ∀ i x', tool_results s !! i = Some x' → res_invocation_id x' ≠ res_invocation_id x.
Proof.
  unfold validate_tool_result_refs. intros Hok. do 3 step_ok Hok. use_guards.
  split; [by eexists|]. intros i x' Hx'.
  assert (x' ∈ hash_values (tool_results s)) as Hin by (apply elem_of_hash_values; eauto).
  pose proof (proj1 (existsb_false _ _) Hg0 _ Hin) as Hne. by apply bool_decide_eq_false in Hne.
Qed.

Lemma create_tool_result_refines x s s' :
  create_tool_result x s = Ok (s', tt) → ledger_step s s'.
Proof.
  unfold create_tool_result. intros Hok. do 3 step_ok Hok. use_guards.
  apply validate_tool_result_refs_sound in Hok0 as [? ?]. by apply ls_result.
Qed.

Lemma validate_audit_record_refs_sound a s pr :
  validate_audit_record_refs_with_pending_tool_result s a pr = Ok tt → audit_ok s a.
Proof.
  unfold validate_audit_record_refs_with_pending_tool_result. intros Hok.
  do 3 step_ok Hok. use_guards. split_and!; [done|by eexists|].
  intros i Hi. rewrite Hi in Hok. do 3 step_ok Hok. use_guards. by eexists.
Qed.

Lemma create_audit_record_refines a s s' :
  create_audit_record a s = Ok (s', tt) → ledger_step s s'.
Proof.
  unfold create_audit_record, validate_audit_record_refs. intros Hok. do 3 step_ok Hok. use_guards.
  apply validate_audit_record_refs_sound in Hok0. by apply ls_audit.
Qed.

Lemma insert_receipt_refines key r s s' :
  insert_submit_job_idempotency_locked s key r = Ok s' → rtc ledger_step s s'.
Proof.
  unfold insert_submit_job_idempotency_locked. intros Hok. step_ok Hok. use_guards.
  destruct (idempotent_submit_jobs s !! key) eqn:Hk; step_ok Hok; try step_ok Hok; subst; [done|].
  apply rtc_once. by apply ls_receipt.
Qed.

Lemma set_extension_registry_snapshot_refines x s s' :
  set_extension_registry_snapshot x s = Ok (s', tt) → ledger_step s s'.
Proof.
  unfold set_extension_registry_snapshot. intros Hok. step_ok Hok. step_ok Hok. use_guards.
  apply ls_extensions. by destruct (registry_validate x) as [[]|].
Qed.

(** ** Schema migrations *)

Lemma max_migration_None l : max_migration l = None → l = [].
Proof.
  unfold max_migration. destruct l as [|x l]; [done|]. simpl.
  generalize x. induction l as [|y l IH]; simpl; intros x'; [done|].
  destruct (migration_after x' y); intros Hf; by specialize (IH _ Hf).
Qed.

Lemma no_active_lock_none_held s now :
  exclusive_wf s →
  active_migration_lock (expire_schema_migration_locks s now) now = None →
  ∀ i m, schema_migrations (expire_schema_migration_locks s now) !! i = Some m →
  ¬ held_migration m.
Proof.
  intros Hwf Hnone%max_migration_None i m Hm Hheld.
  pose proof Hm as (m0 & <- & Hm0)%lookup_fmap_Some.
  pose proof (held_after_expiry_active _ _ Hheld) as Hact.
  assert (expire_lock now m0 ∈ @nil SchemaMigrationRecord) as []%not_elem_of_nil.
  rewrite <- Hnone. apply list_elem_of_In, filter_In. split; [|done].
  apply filter_In. split.
  - apply list_elem_of_In, elem_of_hash_values. by exists i.
  - destruct Hheld as (l & Hl & _). unfold is_schema_migration_lock. rewrite Hl.
    destruct (validate_schema_migration_record_lock (expire_lock now m0) l) as [-> _]; [|done..].
    eauto using validate_expire_lock, ew_record.
Qed.

(** The active lock found after the expiry pass is one that was active before it. *)
Lemma lock_active_expire t m : lock_active_at t (expire_lock t m) = lock_active_at t m.
Proof.
  unfold expire_lock, lock_active_at. destruct (mig_migration_lock m) as [l|] eqn:Hl; [|by rewrite Hl].
  destruct (bool_decide _ && is_expired l t) eqn:Hb; [|by rewrite Hl]. simpl.
  unfold is_active, is_expired in *. simpl. lia.
Qed.

Lemma max_migration_elem l x : max_migration l = Some x → x ∈ l.
Proof.
  unfold max_migration.
  assert (∀ o, foldl (λ best x, match best with
                   | None => Some x
                   | Some b => if migration_after b x then Some b else Some x
                   end) o l = Some x → o = Some x ∨ x ∈ l) as Hgen.
  { induction l as [|y l IH]; simpl; intros o Ho; [by left|].
    apply IH in Ho as [Ho|Ho]; [|by right; right].
    destruct o as [b|]; [destruct (migration_after b y)|]; simplify_eq; eauto using list_elem_of_here. }
  intros [?|?]%Hgen; done.
Qed.

Lemma active_migration_lock_Some s t x :
  active_migration_lock (expire_schema_migration_locks s t) t = Some x →
  ∃ i m l, schema_migrations s !! i = Some m ∧ mig_migration_lock m = Some l ∧ is_active l t = true.
Proof.
  intros Hx%max_migration_elem. apply list_elem_of_In, filter_In in Hx as [[Hx _]%filter_In Ha].
  apply list_elem_of_In, elem_of_hash_values in Hx as (i & (m & <- & Hm)%lookup_fmap_Some).
  rewrite lock_active_expire in Ha. unfold lock_active_at in Ha.
  destruct (mig_migration_lock m) as [l|] eqn:Hl; [|done]. by exists i, m, l.
Qed.

Lemma active_migration_lock_None s t :
  exclusive_wf s → active_migration_lock (expire_schema_migration_locks s t) t = None →
  ∀ i m l, schema_migrations s !! i = Some m → mig_migration_lock m = Some l → is_active l t = false.
Proof.
  intros Hwf Hnone i m l Hm Hl. destruct (is_active l t) eqn:Ha; [|done]. exfalso.
  eapply (no_active_lock_none_held s t Hwf Hnone i (expire_lock t m)); [simpl; by rewrite lookup_fmap, Hm|].
  unfold is_active in Ha. apply andb_true_iff in Ha as [Hh%bool_decide_eq_true Hlt].
  exists l. split; [|done]. unfold expire_lock. rewrite Hl.
  destruct (bool_decide _ && is_expired l t) eqn:Hb; [|done]. unfold is_expired in Hb. lia.
Qed.

Lemma create_schema_migration_refines m s s' :
  exclusive_wf s → create_schema_migration m s = Ok (s', tt) → rtc ledger_step s s'.
Proof.
  unfold create_schema_migration. intros Hwf Hok. step_ok Hok.
  set (t := match mig_migration_lock m with Some _ => _ | None => _ end) in *.
  do 3 step_ok Hok. use_guards. eapply rtc_l; [apply (ls_expire s t)|]. apply rtc_once.
  apply ls_migration; try done. intros (l & Hl & Hheld).
  apply no_active_lock_none_held; [done|].
  destruct (active_migration_lock _ t) eqn:Ha; [|done]. simpl in Hok1.
  destruct (validate_schema_migration_record_lock _ _ Hok0 Hl) as [Hn _].
  unfold is_migration_lock in Hok1. by rewrite Hn, Hl in Hok1.
Qed.

Lemma new_migration_lock_Ok uuid leader t safe timeout :
  is_blank leader = false → (timeout =? 0)%N = false →
  ∃ m, new_migration_lock uuid leader t safe timeout = Ok m ∧
    validate_schema_migration_record m = Ok tt ∧ held_migration m ∧ mig_leader_id m = Some leader.
Proof.
  intros Hb Ht. unfold new_migration_lock, migration_lock_record_new. rewrite Ht.
  eexists. split_and!; [done| |by eexists|done].
  unfold validate_schema_migration_record.
  with_strategy opaque [is_blank N.eqb Z.eqb Z.ltb str_eqb] simpl.
  by rewrite Hb, Ht, Z.ltb_irrefl, Z.eqb_refl, (proj2 (str_eqb_true leader leader) eq_refl).
Qed.

Lemma acquire_refines uuid leader safe timeout t s s' o :
  exclusive_wf s → acquire_schema_migration_lock uuid leader safe timeout t s = Ok (s', o) →
  rtc ledger_step s s' ∧ ∃ m, o = Some m ∧ schema_migrations s' !! mig_id m = Some m ∧
    held_migration m ∧ mig_leader_id m = Some leader.
Proof.
  unfold acquire_schema_migration_lock. intros Hwf Hok. step_ok Hok. step_ok Hok.
  destruct (active_migration_lock _ t) eqn:Ha; [done|].
  destruct (new_migration_lock_Ok uuid leader t safe timeout) as (m & Hm & Hv & Hh & Hld); [done..|].
  rewrite Hm in Hok. do 2 step_ok Hok. use_guards. split.
  - eapply rtc_l; [apply (ls_expire s t)|]. apply rtc_once. apply ls_migration; try done.
    intros _. by apply no_active_lock_none_held.
  - exists m. simpl. by rewrite lookup_insert_eq.
Qed.

Lemma release_refines i leader t s s' m :
  release_schema_migration_lock i leader t s = Ok (s', m) → rtc ledger_step s s'.
Proof.
  unfold release_schema_migration_lock, get_record. intros Hok. do 2 step_ok Hok. use_guards.
  destruct (mig_migration_lock a) as [l|] eqn:Hl; [|done]. step_ok Hok.
  eapply rtc_l; [apply (ls_expire s t)|].
  destruct (bool_decide (ml_status l = MlReleased)) eqn:Hr; [by simplify_eq|].
  do 2 step_ok Hok. step_ok Hok. use_guards. apply rtc_once. apply (ls_release (expire_schema_migration_locks s t) i a l t); try done.
  - destruct (ml_status l); try done; by case_bool_decide.
  - lia.
Qed.
End Records.

(** ** Jobs and events *)

Section JobTransactions.
Context `{UuidLib} `{RegistryPort}.
Implicit Types s : InMemoryInner.

Lemma append_event_locked_Ok s e s' e' :
  append_event_locked s e = Ok (s', e') ↔
  (next_event_sequence s + 1 <= u64_max)%N ∧ s' = ledger_append s e ∧
  e' = evt_set_sequence e (next_event_sequence s + 1).
Proof.
  unfold append_event_locked. destruct (checked_add_u64 _ 1) as [n|] eqn:Hn; simpl.
  - apply checked_add_u64_Some in Hn as [-> Hn]. split; [by intros [= <- <-]|by intros (_ & -> & ->)].
  - apply checked_add_u64_None in Hn. split; [done|]. intros [? _]. lia.
Qed.

Lemma put_job_sequence s j e n : put_job s j (evt_set_sequence e n) = put_job s j e.
Proof. done. Qed.

(** An event validated against [s0], possibly with pending records, is appended
    to a later state [s] together with the new version [j] of its job. *)
Lemma job_event_step s0 s j e pj pr pa :
  keys_wf s0 → ledger_wf s → store_le s0 s →
  validate_new_job_event_with_pending_records s0 e pj pr pa = Ok tt →
  new_event s e →
  pending_in (put_job (ledger_append s e) j e) pj pr pa →
  is_Some (repositories s !! job_repository_id j) →
  ref_job_id (evt_refs e) = Some (job_id j) →
  (∀ j0, jobs s !! job_id j = Some j0 → job_update_ok j0 j e) →
  ledger_step s (put_job (ledger_append s e) j e).
Proof.
  intros Hk Hl Hle Hv Hnew Hpend Hr Hj Hup. apply ls_job_event; try done.
  apply (validate_new_job_event_sound s0 _ e pj pr pa); try done.
  transitivity s; [done|]. transitivity (ledger_append s e); [by apply store_le_append|].
  apply store_le_put_job. simpl. intros j0 Hj0. by destruct (Hup _ Hj0).
Qed.

Lemma validate_new_job_event_absent s e pj pr pa :
  validate_new_job_event_with_pending_records s e pj pr pa = Ok tt →
  job_events_by_id s !! evt_id e = None.
Proof.
  unfold validate_new_job_event_with_pending_records. intros Hok. step_ok Hok.
  by apply contains_key_false in Hg.
Qed.

Lemma create_job_refines j e s s' e' es :
  store_wf s → create_job_with_initial_event j e s = Ok (s', e', es) → ledger_step s s'.
Proof.
  unfold create_job_with_initial_event, validate_job_refs. intros [Hk Hl _ _ _] Hok.
  do 5 step_ok Hok. step_ok Hok. step_ok Hok. simplify_eq.
  destruct a, a0, a1. apply ensure_ref_exists_Ok, contains_key_spec in Hok0.
  apply contains_key_false in Hg. apply append_event_locked_Ok in Hok3 as (Hmax & -> & ->).
  unfold validate_initial_event_for_job in Hok1. do 3 step_ok Hok1.
  apply negb_false_iff, bool_decide_eq_true in Hg1.
  apply (job_event_step s s j e (Some j) None None); try done.
  - split; [|done]. exact (validate_new_job_event_absent s e (Some j) None None Hok2).
  - split; try done. intros j' [= <-]. eexists. simpl. by rewrite lookup_insert_eq.
  - intros j0 Hj0. congruence.
Qed.

Lemma append_job_event_refines e s s' e' es :
  store_wf s → append_job_event e s = Ok (s', e', es) → ledger_step s s'.
Proof.
  unfold append_job_event. intros [Hk _ _ _ _] Hok. do 3 step_ok Hok. simplify_eq. destruct a.
  apply append_event_locked_Ok in Hok1 as (Hmax & -> & ->).
  destruct (validate_new_job_event_sound s s e None None None) as [? ?]; try done.
  by apply ls_event.
Qed.

(** The stored job names an existing repository, and so does its next version. *)
Lemma job_repository_exists s i j j' :
  refs_wf s → jobs s !! i = Some j → job_le j j' → is_Some (repositories s !! job_repository_id j').
Proof. intros Hr Hj [-> _ _ _ _ _ _ _]. by destruct (rw_jobs _ Hr _ _ Hj). Qed.

Lemma update_job_refines j e s :
  store_wf s → validate_job_update s j e = Ok tt → validate_new_job_event s e None = Ok tt →
  (next_event_sequence s + 1 <= u64_max)%N →
  ledger_step s (put_job (ledger_append s e) j e).
Proof.
  intros [Hk Hl Hr _ _] (j0 & Hj0 & _ & Hup & Hj & _)%validate_job_update_sound Hv Hmax.
  apply (job_event_step s s j e None None None); try done.
  - split; [|done]. exact (validate_new_job_event_absent s e None None None Hv).
  - destruct Hup. eauto using job_repository_exists.
  - intros j1 Hj1. congruence.
Qed.

Lemma append_job_event_and_update_job_refines j e s s' e' es :
  store_wf s → append_job_event_and_update_job j e s = Ok (s', e', es) → ledger_step s s'.
Proof.
  unfold append_job_event_and_update_job. intros Hwf Hok. do 4 step_ok Hok. simplify_eq.
  destruct a, a0. apply append_event_locked_Ok in Hok2 as (Hmax & -> & ->).
  rewrite put_job_sequence. by apply update_job_refines.
Qed.

Lemma update_with_idempotency_refines j e key r s s' e' es :
  store_wf s →
  append_job_event_and_update_job_with_submit_job_idempotency j e key r s = Ok (s', e', es) →
  rtc ledger_step s s'.
Proof.
  unfold append_job_event_and_update_job_with_submit_job_idempotency. intros Hwf Hok.
  do 4 step_ok Hok. step_ok Hok. simplify_eq. destruct a, a0.
  apply append_event_locked_Ok in Hok2 as (Hmax & -> & ->).
  rewrite put_job_sequence in Hok3. eapply rtc_l; [by apply update_job_refines|]. by eapply insert_receipt_refines.
Qed.

Lemma put_job_twice s j1 e1 j2 e2 :
  job_id j1 = job_id j2 →
  put_job (ledger_append (put_job s j1 e1) e2) j2 e2 = put_job (ledger_append s e2) j2 e2.
Proof. intros Heq. unfold put_job, set_jobs; simpl. by rewrite Heq, insert_insert_eq. Qed.

Lemma append_job_events_and_update_job_refines j1 e1 j2 e2 s s' es es' :
  store_wf s → append_job_events_and_update_job j1 e1 j2 e2 s = Ok (s', es, es') →
  rtc ledger_step s s'.
Proof.
  unfold append_job_events_and_update_job. intros Hwf Hok.
  do 7 step_ok Hok. step_ok Hok. step_ok Hok. step_ok Hok. step_ok Hok. simplify_eq.
  repeat match goal with a : () |- _ => destruct a end.
  apply append_event_locked_Ok in Hok7 as (Hmax1 & -> & ->).
  apply append_event_locked_Ok in Hok8 as (Hmax2 & -> & ->).
  unfold validate_two_stage_job_update_identity in Hok1. step_ok Hok1.
  apply negb_false_iff, bool_decide_eq_true in Hg.
  unfold validate_sibling_event_ids_are_unique in Hok0. step_ok Hok0.
  apply negb_true_iff, bool_decide_eq_false in Hg0.
  pose proof (update_job_refines _ _ _ Hwf Hok2 Hok3 Hmax1) as Hs1.
  eapply rtc_l; [done|]. apply rtc_once.
  pose proof (ledger_step_wf _ _ Hwf Hs1) as [_ Hl1 _ _ _].
  apply validate_job_update_against_sound in Hok4 as (Hup & Hj2 & _).
  rewrite put_job_sequence, <- (put_job_twice (ledger_append s e1) j1 e1 j2 e2 Hg).
  apply (job_event_step s _ j2 e2 None None None); try done.
  - apply Hwf.
  - eauto using ledger_step_le, sw_ledger.
  - split; [|done]. simpl. rewrite lookup_insert_ne by done.
    exact (validate_new_job_event_absent s e2 None None None Hok5).
  - destruct Hup as [[Hrepo _ _ _ _ _ _ _] _]. simpl in *. rewrite Hrepo.
    apply validate_job_update_sound in Hok2 as (j0 & Hj0 & _ & [Hle _] & _).
    eapply job_repository_exists; [apply Hwf|done..].
  - simpl. rewrite Hg, lookup_insert_eq. intros ? [= <-]. done.
Qed.

(** ** Tool results with their audit record *)

Definition with_result s (x : ToolResult) : InMemoryInner :=
  set_tool_results s (<[res_id x := x]> (tool_results s)).
Definition with_audit s (a : AuditRecord) : InMemoryInner :=
  set_audit_records s (<[aud_id a := a]> (audit_records s)).
Definition with_job_event s (j : JobRecord) (e : JobEvent) : InMemoryInner :=
  put_job (ledger_append s e) j e.

Lemma commit_result_and_audit_Ok s j x re a ae s' re' ae' :
  commit_result_and_audit s j x re a ae = Ok (s', re', ae') →
  tool_results s !! res_id x = None ∧ audit_records s !! aud_id a = None ∧
  (next_event_sequence s + 2 <= u64_max)%N ∧
  s' = with_job_event (with_audit (with_job_event (with_result s x) j re) a) j ae ∧
  re' = evt_set_sequence re (next_event_sequence s + 1) ∧
  ae' = evt_set_sequence ae (next_event_sequence s + 2).
Proof.
  unfold commit_result_and_audit. intros Hok. step_ok Hok. apply insert_record_Ok in Hok0 as [Hx ->].
  do 2 step_ok Hok. apply append_event_locked_Ok in Hok0 as (Hmax1 & -> & ->).
  step_ok Hok. apply insert_record_Ok in Hok0 as [Ha ->].
  do 2 step_ok Hok. apply append_event_locked_Ok in Hok0 as (Hmax2 & -> & ->).
  simplify_eq. simpl in *. split_and!; try done; [lia|].
  by rewrite <- N.add_assoc.
Qed.

Record result_audit_checked s j x re a ae : Prop := {
  rc_job : ∃ j0, jobs s !! job_id j = Some j0 ∧ job_update_ok j0 j re;
  rc_refs : ref_job_id (evt_refs re) = Some (job_id j) ∧ ref_job_id (evt_refs ae) = Some (job_id j);
  rc_result : result_ok s x ∧
    ∀ i x', tool_results s !! i = Some x' → res_invocation_id x' ≠ res_invocation_id x;
  rc_audit : audit_ok s a;
  rc_result_event :
    validate_new_job_event_with_pending_records s re None (Some x) None = Ok tt;
  rc_audit_event :
    validate_new_job_event_with_pending_records s ae None (Some x) (Some a) = Ok tt
}.

Lemma validate_result_and_audit_sound s j x re a ae n :
  validate_result_and_audit s j x re a ae n = Ok tt → result_audit_checked s j x re a ae.
Proof.
  unfold validate_result_and_audit. intros Hok. do 8 step_ok Hok.
  repeat match goal with u : () |- _ => destruct u end.
  apply validate_job_update_sound in Hok0 as (j0 & Hj0 & _ & Hup & Hre & _).
  apply validate_job_update_sound in Hok1 as (_ & _ & _ & _ & Hae & _).
  apply validate_tool_result_refs_sound in Hok2. apply validate_audit_record_refs_sound in Hok3.
  split; eauto.
Qed.

Lemma with_result_step s j x re a ae :
  result_audit_checked s j x re a ae → tool_results s !! res_id x = None →
  ledger_step s (with_result s x).
Proof. intros [_ _ [? ?] _ _ _] Hx. by apply ls_result. Qed.

Lemma with_result_event_step s j x re a ae :
  store_wf s → result_audit_checked s j x re a ae → tool_results s !! res_id x = None →
  (next_event_sequence s + 1 <= u64_max)%N →
  ledger_step (with_result s x) (with_job_event (with_result s x) j re).
Proof.
  intros Hwf Hc Hx Hmax. pose proof (with_result_step _ _ _ _ _ _ Hc Hx) as Hs.
  destruct Hc as [(j0 & Hj0 & Hup) [Hre _] _ _ Hv _].
  pose proof (ledger_step_wf _ _ Hwf Hs) as [_ Hl _ _ _].
  apply (job_event_step s _ j re None (Some x) None); try done; [apply Hwf|..].
  - eauto using ledger_step_le, sw_ledger.
  - split; [|done]. exact (validate_new_job_event_absent _ _ _ _ _ Hv).
  - split; try done. intros x' [= <-]. simpl. by rewrite lookup_insert_eq.
  - destruct Hup as [Hle _]. exact (job_repository_exists _ _ _ _ (sw_refs _ Hwf) Hj0 Hle).
  - simpl. intros j1 Hj1. congruence.
Qed.

Lemma commit_result_and_audit_refines s j x re a ae :
  store_wf s → result_audit_checked s j x re a ae → evt_id re ≠ evt_id ae →
  tool_results s !! res_id x = None → audit_records s !! aud_id a = None →
  (next_event_sequence s + 2 <= u64_max)%N →
  rtc ledger_step s (with_job_event (with_audit (with_job_event (with_result s x) j re) a) j ae).
Proof.
  intros Hwf Hc Hne Hx Ha Hmax. pose proof (with_result_step _ _ _ _ _ _ Hc Hx) as Hs1.
  assert (ledger_step (with_result s x) (with_job_event (with_result s x) j re)) as Hs2.
  { eapply with_result_event_step; [done..|lia]. }
  pose proof (ledger_step_wf _ _ Hwf Hs1) as Hwf1. pose proof (ledger_step_wf _ _ Hwf1 Hs2) as Hwf2.
  assert (store_le s (with_job_event (with_result s x) j re)) as Hle2.
  { transitivity (with_result s x); eauto using ledger_step_le, sw_ledger. }
  destruct Hc as [(j0 & Hj0 & Hup) [_ Hae] _ Haud _ Hv].
  assert (ledger_step (with_job_event (with_result s x) j re)
    (with_audit (with_job_event (with_result s x) j re) a)) as Hs3.
  { apply ls_audit; [done|]. by eapply audit_ok_mono. }
  pose proof (ledger_step_wf _ _ Hwf2 Hs3) as Hwf3.
  eapply rtc_l; [done|]. eapply rtc_l; [done|]. eapply rtc_l; [done|]. apply rtc_once.
  apply (job_event_step s _ j ae None (Some x) (Some a)); try done; [apply Hwf|apply Hwf3|..].
  - transitivity (with_job_event (with_result s x) j re); eauto using ledger_step_le, sw_ledger.
  - split; simpl; [|lia]. rewrite lookup_insert_ne by done.
    exact (validate_new_job_event_absent _ _ _ _ _ Hv).
  - split; try done; simpl.
    + intros x' [= <-]. by rewrite lookup_insert_eq.
    + intros a' [= <-]. by rewrite lookup_insert_eq.
  - destruct Hup as [Hle _]. exact (job_repository_exists _ _ _ _ (sw_refs _ Hwf) Hj0 Hle).
  - simpl. rewrite lookup_insert_eq. intros j1 [= <-]. apply job_update_ok_refl.
Qed.

Lemma sibling_ids_ne e1 e2 :
  validate_sibling_event_ids_are_unique e1 e2 = Ok tt → evt_id e1 ≠ evt_id e2.
Proof.
  unfold validate_sibling_event_ids_are_unique. destruct (negb _) eqn:Hb; [|done].
  by apply negb_true_iff, bool_decide_eq_false in Hb.
Qed.

Lemma record_tool_result_and_audit_refines j x re a ae s s' es es' :
  store_wf s → record_tool_result_and_audit_with_events j x re a ae s = Ok (s', es, es') →
  rtc ledger_step s s'.
Proof.
  unfold record_tool_result_and_audit_with_events. intros Hwf Hok.
  do 5 step_ok Hok. simplify_eq.
  repeat match goal with u : () |- _ => destruct u end.
  apply commit_result_and_audit_Ok in Hok2 as (? & ? & ? & -> & _ & _).
  apply commit_result_and_audit_refines;
    eauto using validate_result_and_audit_sound, sibling_ids_ne.
Qed.

Lemma record_terminal_refines q s s' es es' :
  store_wf s →
  record_tool_result_audit_terminal_with_submit_job_idempotency q s = Ok (s', es, es') →
  rtc ledger_step s s'.
Proof.
  unfold record_tool_result_audit_terminal_with_submit_job_idempotency.
  destruct q as [j x re a ae te oid]; simpl. intros Hwf Hok.
  do 9 step_ok Hok. do 3 step_ok Hok. step_ok Hok. simplify_eq.
  repeat match goal with u : () |- _ => destruct u end.
  apply commit_result_and_audit_Ok in Hok7 as (? & ? & ? & -> & _ & _).
  apply append_event_locked_Ok in Hok8 as (Hmax & -> & ->).
  apply validate_result_and_audit_sound in Hok3. apply sibling_ids_ne in Hok0, Hok1, Hok2.
  pose proof (commit_result_and_audit_refines _ _ _ _ _ _ Hwf Hok3 Hok0 H1 H2 H3) as Hs.
  pose proof (ledger_steps_wf _ _ Hwf Hs) as Hwf'. pose proof (ledger_steps_le _ _ Hwf Hs) as Hle.
  set (s4 := with_job_event _ j ae) in *.
  destruct (transition_status j _ _) as [f|] eqn:Ht in Hok4; [|done].
  simpl in Hok4. injection Hok4 as <-.
  assert (job_id f = job_id j) as Hid.
  { destruct (job_step_frame j f) as [? _]; [by do 2 eexists|done]. }
  apply validate_job_update_against_sound in Hok5 as (Hup & Hte & _).
  assert (jobs s4 !! job_id f = Some (job_set_latest_event j (Some (evt_id ae)))) as Hj4.
  { rewrite Hid. simpl. by rewrite lookup_insert_eq. }
  rewrite put_job_sequence in Hok9.
  assert (ledger_step s4 (put_job (ledger_append s4 te) f te)) as Hs5.
  { apply (job_event_step s _ f te (Some f) (Some x) (Some a)); try done; [apply Hwf|apply Hwf'|..].
    - split; [|done]. simpl. rewrite !lookup_insert_ne by done.
      exact (validate_new_job_event_absent _ _ _ _ _ Hok6).
    - split; simpl.
      + intros f' [= <-]. eexists. simpl. by rewrite lookup_insert_eq.
      + intros x' [= <-]. by rewrite lookup_insert_eq.
      + intros a' [= <-]. by rewrite lookup_insert_eq.
    - eapply job_repository_exists; [apply Hwf'|done|]. by destruct Hup as [[] _].
    - rewrite Hj4. intros ? [= <-]. by apply job_update_ok_latest. }
  etrans; [done|]. eapply rtc_l; [done|].
  destruct oid as [[key r]|]; [by eapply insert_receipt_refines|by simplify_eq].
Qed.
End JobTransactions.
