(* ===== verification/StoreGuarantees.v ===== *)
(** * StoreGuarantees: the transactions of the store, on an example and in general *)
From S2P Require Import Prelude Text Domain DomainLaws Policy StoreTypes StoreValidate StoreJobs.
From S2P Require Import Store Ledger StoreRefine.

(** * The transactions of the store, on an example and in general *)

(** * A concrete job run

    One repository, one job that is submitted, allowed by the policy engine,
    started, run by a tool and completed.  The witnesses of the store theorems
    evaluate the transactions on these records. *)

(** A UUID parser and an extension registry to evaluate with: the parser
    accepts any non-empty text, the registry any snapshot. *)
Definition sample_uuid_lib : UuidLib := {| uuid_parse_str s := negb (str_is_empty s) |}.
Definition sample_registry : RegistryPort := {|
  registry_snapshot := N; registry_default := 0%N; registry_validate _ := Ok tt;
  registry_repair x := (x, false) |}.

Definition demo_repository : RepositoryRecord :=
  repository_record_new "r1" "demo" "/srv/demo" Trusted 10.
Definition demo_user : Actor := User "u1" None.

Definition demo_job : JobRecord :=
  job_record_new "j1" demo_user (repo_id demo_repository) JkRead (Some "read the tree") 20.

Definition demo_refs : EventRefs := {|
  ref_repository_id := Some (repo_id demo_repository); ref_job_id := Some (job_id demo_job);
  ref_policy_decision_id := None; ref_lock_decision_id := None; ref_tool_invocation_id := None;
  ref_tool_result_id := None; ref_content_type := None; ref_audit_record_id := None;
  ref_output_refs := []; ref_artifact_refs := [] |}.

Definition demo_event (uuid : string) (t : Z) (subject : EventSubject) (kind : JobEventKind)
  (refs : EventRefs) : JobEvent := {|
  evt_id := id_new JobEventIdKind uuid; evt_schema_version := 1; evt_sequence_number := 0;
  evt_created_at := t; evt_subject := subject; evt_kind := kind; evt_severity := SevInfo;
  evt_public_message := "demo"; evt_refs := refs; evt_redactions := [] |}.

Definition demo_submitted : JobEvent :=
  demo_event "e1" 20 (subject_job (job_id demo_job)) JobSubmitted demo_refs.

Definition demo_decision : PolicyDecision :=
  default_evaluate "p1" 30
    (policy_input_new demo_user (repo_id demo_repository) "filesystem.read"
       {| scope_kind := "path"; scope_value := "src" |} "effect" Trusted true DEFAULT_POLICY_VERSION).

Definition demo_policy_refs : EventRefs := {|
  ref_repository_id := Some (repo_id demo_repository); ref_job_id := Some (job_id demo_job);
  ref_policy_decision_id := Some (pol_id demo_decision); ref_lock_decision_id := None;
  ref_tool_invocation_id := None; ref_tool_result_id := None; ref_content_type := None;
  ref_audit_record_id := None; ref_output_refs := []; ref_artifact_refs := [] |}.

Definition demo_decided : JobEvent :=
  demo_event "e2" 30 (subject_policy_decision (pol_id demo_decision)) (PolicyDecided Allowed)
    demo_policy_refs.
Definition demo_job_decided : JobRecord :=
  job_set_latest_event
    (job_set_policy_summary demo_job
       (Some {| ps_decision_id := Some (pol_id demo_decision); ps_outcome := Allowed;
                ps_risk_tier := R0; ps_reason_code := "allowed" |}))
    (Some (evt_id demo_submitted)).

Definition demo_started : JobEvent :=
  demo_event "e3" 40 (subject_job (job_id demo_job)) (JobStatusChanged Queued Running)
    demo_policy_refs.
Definition demo_job_running : JobRecord :=
  job_set_lifecycle (job_set_latest_event demo_job_decided (Some (evt_id demo_decided)))
    Running 40 (Some 40%Z) None.

Definition demo_invocation : ToolInvocation := {|
  inv_id := id_new ToolInvocationIdKind "t1"; inv_schema_version := 1; inv_created_at := 50;
  inv_job_id := job_id demo_job; inv_repository_id := repo_id demo_repository;
  inv_policy_decision_id := pol_id demo_decision; inv_actor := demo_user; inv_tool_id := "tool.echo";
  inv_requested_capability := "filesystem.read"; inv_args_summary := "{}"; inv_resolved_paths := [];
  inv_timeout_millis := None; inv_redactions := [] |}.

Definition demo_result : ToolResult := {|
  res_id := id_new ToolResultIdKind "x1"; res_schema_version := 1; res_created_at := 60;
  res_invocation_id := inv_id demo_invocation; res_tool_id := "tool.echo"; res_status := TrSucceeded;
  res_schema_ref := None; res_fields := []; res_evidence_refs := []; res_output_refs := [];
  res_truncation := None; res_redactions := [] |}.

Definition demo_audit : AuditRecord := {|
  aud_id := id_new AuditRecordIdKind "a1"; aud_schema_version := 1; aud_created_at := 60;
  aud_actor := demo_user; aud_repository_id := repo_id demo_repository;
  aud_requested_capability := "filesystem.read"; aud_policy_decision_id := pol_id demo_decision;
  aud_tool_invocation_id := Some (inv_id demo_invocation); aud_effect_summary := "effect";
  aud_output_refs := []; aud_redactions := [] |}.

Definition demo_tool_refs : EventRefs := {|
  ref_repository_id := Some (repo_id demo_repository); ref_job_id := Some (job_id demo_job);
  ref_policy_decision_id := Some (pol_id demo_decision); ref_lock_decision_id := None;
  ref_tool_invocation_id := Some (inv_id demo_invocation);
  ref_tool_result_id := Some (res_id demo_result); ref_content_type := None;
  ref_audit_record_id := None; ref_output_refs := []; ref_artifact_refs := [] |}.
Definition demo_audit_refs : EventRefs := {|
  ref_repository_id := Some (repo_id demo_repository); ref_job_id := Some (job_id demo_job);
  ref_policy_decision_id := Some (pol_id demo_decision); ref_lock_decision_id := None;
  ref_tool_invocation_id := Some (inv_id demo_invocation);
  ref_tool_result_id := Some (res_id demo_result); ref_content_type := None;
  ref_audit_record_id := Some (aud_id demo_audit); ref_output_refs := []; ref_artifact_refs := [] |}.

Definition demo_result_event : JobEvent :=
  demo_event "e4" 60 (subject_tool_result (res_id demo_result)) (ToolResultRecorded TrSucceeded)
    demo_tool_refs.
Definition demo_audit_event : JobEvent :=
  demo_event "e5" 60 (subject_audit_record (aud_id demo_audit)) AuditRecorded demo_audit_refs.
Definition demo_succeeded : JobEvent :=
  demo_event "e6" 70 (subject_job (job_id demo_job)) (JobStatusChanged Running Succeeded)
    demo_audit_refs.

(** The job as stored when the tool finishes. *)
Definition demo_job_current : JobRecord :=
  job_set_latest_event demo_job_running (Some (evt_id demo_started)).
Definition demo_job_done : JobRecord :=
  job_set_lifecycle demo_job_current Succeeded 70 (Some 40%Z) (Some 70%Z).

Definition demo_receipt : RuntimeJobReceipt := {|
  rcp_job := demo_job_done; rcp_policy_decision := demo_decision;
  rcp_tool_invocation := Some demo_invocation; rcp_tool_result := Some demo_result;
  rcp_rendered_output := Some {| ro_format := Toon; ro_schema_version := "1"; ro_body := "";
                                 ro_fallback_reason := None; ro_truncation := None |};
  rcp_audit_record := Some demo_audit;
  rcp_events := [evt_set_sequence demo_submitted 1; evt_set_sequence demo_decided 2;
                 evt_set_sequence demo_started 3; demo_result_event; demo_audit_event;
                 demo_succeeded] |}.

Definition demo_terminal_request : ToolResultAuditTerminalRequest := {|
  tat_record := demo_job_current; tat_tool_result := demo_result;
  tat_tool_result_event := demo_result_event; tat_audit_record := demo_audit;
  tat_audit_event := demo_audit_event; tat_terminal_event := demo_succeeded;
  tat_idempotency := Some ("key-1"%string,
    {| idem_signature := "signature"; idem_receipt := demo_receipt |}) |}.

(** * What the store guarantees

    One constructor of [StoreOp] per mutating method of the trait
    [SecretaryStore]; [exec_op] runs its transaction and returns the new state
    and the events to publish.  The theorems speak about every state reachable
    from the empty store by such transactions. *)

Section Ops.
Context `{UuidLib} `{RegistryPort}.
Implicit Types s : InMemoryInner.

Inductive StoreOp :=
  | OpCreateRepository (r : RepositoryRecord)
  | OpCreateJob (j : JobRecord) (e : JobEvent)
  | OpAppendEvent (e : JobEvent)
  | OpUpdateJob (j : JobRecord) (e : JobEvent)
  | OpUpdateJobIdempotent (j : JobRecord) (e : JobEvent) (key : string)
      (r : SubmitJobIdempotencyRecord)
  | OpUpdateJobTwice (j1 : JobRecord) (e1 : JobEvent) (j2 : JobRecord) (e2 : JobEvent)
  | OpCreatePolicyDecision (p : PolicyDecision)
  | OpCreateLockDecision (l : LockDecision)
  | OpCreateSchemaMigration (m : SchemaMigrationRecord)
  | OpAcquireMigrationLock (uuid leader : string) (safe : bool) (timeout : N) (at_ : LedgerTimestamp)
  | OpGetMigrationLock (now : LedgerTimestamp)
  | OpReleaseMigrationLock (i : SchemaMigrationId) (leader : string) (at_ : LedgerTimestamp)
  | OpCreateToolInvocation (t : ToolInvocation)
  | OpCreateToolResult (x : ToolResult)
  | OpCreateAuditRecord (a : AuditRecord)
  | OpRecordIdempotency (key : string) (r : SubmitJobIdempotencyRecord)
  | OpRecordResultAudit (j : JobRecord) (x : ToolResult) (re : JobEvent) (a : AuditRecord)
      (ae : JobEvent)
  | OpRecordTerminal (q : ToolResultAuditTerminalRequest)
  | OpSetExtensions (x : registry_snapshot).

(** [mutate] publishes nothing; [mutate_with_published_events] what the
    transaction says. *)
Definition quiet {R} (r : StoreResult (InMemoryInner * R))
  : StoreResult (InMemoryInner * list JobEvent) :=
  let? '(s, _) := r in Ok (s, []).
Definition publishing {R} (r : StoreResult (InMemoryInner * R * list JobEvent))
  : StoreResult (InMemoryInner * list JobEvent) :=
  let? '(s, _, es) := r in Ok (s, es).

Definition exec_op (op : StoreOp) s : StoreResult (InMemoryInner * list JobEvent) :=
  match op with
  | OpCreateRepository r => quiet (create_repository r s)
  | OpCreateJob j e => publishing (create_job_with_initial_event j e s)
  | OpAppendEvent e => publishing (append_job_event e s)
  | OpUpdateJob j e => publishing (append_job_event_and_update_job j e s)
  | OpUpdateJobIdempotent j e key r =>
      publishing (append_job_event_and_update_job_with_submit_job_idempotency j e key r s)
  | OpUpdateJobTwice j1 e1 j2 e2 => publishing (append_job_events_and_update_job j1 e1 j2 e2 s)
  | OpCreatePolicyDecision p => quiet (create_policy_decision p s)
  | OpCreateLockDecision l => quiet (create_lock_decision l s)
  | OpCreateSchemaMigration m => quiet (create_schema_migration m s)
  | OpAcquireMigrationLock uuid leader safe timeout t =>
      quiet (acquire_schema_migration_lock uuid leader safe timeout t s)
  | OpGetMigrationLock now => quiet (get_schema_migration_lock now s)
  | OpReleaseMigrationLock i leader t => quiet (release_schema_migration_lock i leader t s)
  | OpCreateToolInvocation t => quiet (create_tool_invocation t s)
  | OpCreateToolResult x => quiet (create_tool_result x s)
  | OpCreateAuditRecord a => quiet (create_audit_record a s)
  | OpRecordIdempotency key r => quiet (record_submit_job_idempotency key r s)
  | OpRecordResultAudit j x re a ae =>
      publishing (record_tool_result_and_audit_with_events j x re a ae s)
  | OpRecordTerminal q =>
      publishing (record_tool_result_audit_terminal_with_submit_job_idempotency q s)
  | OpSetExtensions x => quiet (set_extension_registry_snapshot x s)
  end.

Fixpoint exec_ops (ops : list StoreOp) s : StoreResult (InMemoryInner * list JobEvent) :=
  match ops with
  | [] => Ok (s, [])
  | op :: ops =>
      let? '(s, es) := exec_op op s in
      let? '(s, es') := exec_ops ops s in
      Ok (s, es ++ es')
  end.

(** States reachable from the empty store. *)
Definition store_step s s' : Prop := ∃ op es, exec_op op s = Ok (s', es).
Definition reachable s : Prop := rtc store_step inner_default s.

Lemma quiet_Ok {R} (r : StoreResult (InMemoryInner * R)) s es :
  quiet r = Ok (s, es) → (∃ v, r = Ok (s, v)) ∧ es = [].
Proof. destruct r as [[]|]; simpl; [|done]. intros [= -> <-]. eauto. Qed.
Lemma publishing_Ok {R} (r : StoreResult (InMemoryInner * R * list JobEvent)) s es :
  publishing r = Ok (s, es) → ∃ v, r = Ok (s, v, es).
Proof. destruct r as [[[]]|]; simpl; [|done]. intros [= -> <-]. eauto. Qed.

Lemma exec_op_refines op s s' es :
  store_wf s → exec_op op s = Ok (s', es) → rtc ledger_step s s'.
Proof.
  intros Hwf Hop. pose proof (sw_exclusive _ Hwf) as Hex.
  destruct op; cbn [exec_op] in Hop;
    first [apply quiet_Ok in Hop as [[v Hop] _]; try destruct v
          |apply publishing_Ok in Hop as [v Hop]];
    eauto using rtc_once, create_repository_refines, create_job_refines, append_job_event_refines,
      append_job_event_and_update_job_refines, update_with_idempotency_refines,
      append_job_events_and_update_job_refines, create_policy_decision_refines,
      create_lock_decision_refines, create_schema_migration_refines, release_refines,
      create_tool_invocation_refines, create_tool_result_refines, create_audit_record_refines,
      record_tool_result_and_audit_refines, record_terminal_refines,
      set_extension_registry_snapshot_refines.
  - by apply acquire_refines in Hop as [? _].
  - by apply acquire_refines in Hop as [? _].
  - unfold get_schema_migration_lock in Hop. simplify_eq. apply rtc_once, ls_expire.
  - unfold get_schema_migration_lock in Hop. simplify_eq. apply rtc_once, ls_expire.
  - unfold record_submit_job_idempotency in Hop. step_ok Hop. simplify_eq.
    by eapply insert_receipt_refines.
Qed.

(** ** The published events *)

(** [es] are the events [s'] has over [s], with consecutive sequence numbers. *)
Record ledger_extends s s' (es : list JobEvent) : Prop := {
  le_next_sequence : next_event_sequence s' = (next_event_sequence s + N.of_nat (length es))%N;
  le_old_events : job_events_by_id s ⊆ job_events_by_id s';
  le_new_events k e : es !! k = Some e →
    evt_sequence_number e = (next_event_sequence s + N.of_nat k + 1)%N ∧
    job_events_by_id s !! evt_id e = None ∧ job_events_by_id s' !! evt_id e = Some e
}.

Lemma ledger_extends_trans s1 s2 s3 es es' :
  ledger_extends s1 s2 es → ledger_extends s2 s3 es' → ledger_extends s1 s3 (es ++ es').
Proof.
  intros [Hn1 Ho1 He1] [Hn2 Ho2 He2]. split.
  - rewrite length_app. lia.
  - by trans (job_events_by_id s2).
  - intros k e [Hk|[Hlen Hk]]%lookup_app_Some.
    + destruct (He1 _ _ Hk) as (? & ? & ?). split_and!; try done. by eapply lookup_weaken.
    + destruct (He2 _ _ Hk) as (? & ? & ?). split_and!; [lia| |done].
      by eapply lookup_weaken_None.
Qed.

Lemma ledger_extends_same s s' :
  job_events_by_id s' = job_events_by_id s → next_event_sequence s' = next_event_sequence s →
  ledger_extends s s' [].
Proof. intros Hi Hn. split; [simpl; lia|by rewrite Hi|done]. Qed.

Lemma ledger_extends_append s e :
  job_events_by_id s !! evt_id e = None →
  ledger_extends s (ledger_append s e) [evt_set_sequence e (next_event_sequence s + 1)].
Proof.
  intros Hid. split; simpl; [done|by apply insert_subseteq|].
  intros [|k] e' Hk; simplify_eq/=. rewrite lookup_insert_eq. split_and!; [lia|done..].
Qed.

(** Only the fields of the ledger matter. *)
Lemma ledger_extends_frame s1 s2 s1' s2' es :
  job_events_by_id s1' = job_events_by_id s1 → next_event_sequence s1' = next_event_sequence s1 →
  job_events_by_id s2' = job_events_by_id s2 → next_event_sequence s2' = next_event_sequence s2 →
  ledger_extends s1 s2 es → ledger_extends s1' s2' es.
Proof.
  intros H1 H2 H3 H4 [Hn Ho He]. split; rewrite ?H1, ?H2, ?H3, ?H4; done.
Qed.

Lemma insert_receipt_ledger s key r s' :
  insert_submit_job_idempotency_locked s key r = Ok s' →
  job_events_by_id s' = job_events_by_id s ∧ next_event_sequence s' = next_event_sequence s.
Proof.
  unfold insert_submit_job_idempotency_locked. intros Hok. step_ok Hok.
  destruct (idempotent_submit_jobs s !! key); step_ok Hok; try step_ok Hok; by subst.
Qed.

(** A transaction that only sets other fields leaves the ledger alone. *)
Ltac solve_quiet Hop :=
  apply quiet_Ok in Hop as [[? Hop] ->];
  repeat first
    [ step_ok Hop
    | match type of Hop with match ?x with _ => _ end = Ok _ => destruct x; try discriminate Hop end ];
  simplify_eq; by apply ledger_extends_same.

Lemma published_create_job j e s s' v es :
  create_job_with_initial_event j e s = Ok (s', v, es) → ledger_extends s s' es.
Proof.
  unfold create_job_with_initial_event. intros Hok. do 6 step_ok Hok. simplify_eq.
  apply append_event_locked_Ok in Hok3 as (_ & -> & ->).
  eapply ledger_extends_frame, ledger_extends_append; [done..|]. destruct a1.
  exact (validate_new_job_event_absent s e (Some j) None None Hok2).
Qed.

Lemma published_append e s s' v es :
  append_job_event e s = Ok (s', v, es) → ledger_extends s s' es.
Proof.
  unfold append_job_event. intros Hok. do 3 step_ok Hok. simplify_eq. destruct a.
  apply append_event_locked_Ok in Hok1 as (_ & -> & ->). apply ledger_extends_append.
  exact (validate_new_job_event_absent s e None None None Hok0).
Qed.

Lemma published_update j e s s' v es :
  append_job_event_and_update_job j e s = Ok (s', v, es) → ledger_extends s s' es.
Proof.
  unfold append_job_event_and_update_job. intros Hok. do 4 step_ok Hok. simplify_eq. destruct a, a0.
  apply append_event_locked_Ok in Hok2 as (_ & -> & ->).
  eapply ledger_extends_frame, ledger_extends_append; [done..|].
  exact (validate_new_job_event_absent s e None None None Hok1).
Qed.

Lemma published_update_idempotent j e key r s s' v es :
  append_job_event_and_update_job_with_submit_job_idempotency j e key r s = Ok (s', v, es) →
  ledger_extends s s' es.
Proof.
  unfold append_job_event_and_update_job_with_submit_job_idempotency. intros Hok.
  do 5 step_ok Hok. simplify_eq. destruct a, a0.
  apply append_event_locked_Ok in Hok2 as (_ & -> & ->). apply insert_receipt_ledger in Hok3 as [Hi Hn].
  eapply ledger_extends_frame, ledger_extends_append; [done..|].
  exact (validate_new_job_event_absent s e None None None Hok1).
Qed.

Lemma published_update_twice j1 e1 j2 e2 s s' v es :
  append_job_events_and_update_job j1 e1 j2 e2 s = Ok (s', v, es) → ledger_extends s s' es.
Proof.
  unfold append_job_events_and_update_job. intros Hok. do 11 step_ok Hok. simplify_eq.
  repeat match goal with a : () |- _ => destruct a end.
  apply append_event_locked_Ok in Hok7 as (_ & -> & ->).
  apply append_event_locked_Ok in Hok8 as (_ & -> & ->). apply sibling_ids_ne in Hok0.
  apply (ledger_extends_trans _ (ledger_append s e1) _ [_] [_]).
  - apply ledger_extends_append. exact (validate_new_job_event_absent s e1 None None None Hok3).
  - eapply ledger_extends_frame, ledger_extends_append; [done..|]. simpl.
    rewrite lookup_insert_ne by done. exact (validate_new_job_event_absent s e2 None None None Hok5).
Qed.

Lemma published_result_audit s j x re a ae s' re' ae' :
  commit_result_and_audit s j x re a ae = Ok (s', re', ae') → evt_id re ≠ evt_id ae →
  job_events_by_id s !! evt_id re = None → job_events_by_id s !! evt_id ae = None →
  ledger_extends s s' [re'; ae'].
Proof.
  intros (_ & _ & _ & -> & -> & ->)%commit_result_and_audit_Ok Hne Hre Hae.
  apply (ledger_extends_trans _ (ledger_append s re) _ [_] [_]).
  - by apply ledger_extends_append.
  - replace (next_event_sequence s + 2)%N
      with (next_event_sequence (ledger_append s re) + 1)%N by (simpl; lia).
    eapply ledger_extends_frame, ledger_extends_append; [done..|]. simpl.
    by rewrite lookup_insert_ne.
Qed.

Lemma published_record_result_audit j x re a ae s s' v es :
  record_tool_result_and_audit_with_events j x re a ae s = Ok (s', v, es) → ledger_extends s s' es.
Proof.
  unfold record_tool_result_and_audit_with_events. intros Hok. do 5 step_ok Hok. simplify_eq.
  repeat match goal with u : () |- _ => destruct u end.
  apply validate_result_and_audit_sound in Hok1 as [_ _ _ _ Hre Hae].
  eapply published_result_audit; eauto using sibling_ids_ne, validate_new_job_event_absent.
Qed.

Lemma published_record_terminal q s s' v es :
  record_tool_result_audit_terminal_with_submit_job_idempotency q s = Ok (s', v, es) →
  ledger_extends s s' es.
Proof.
  unfold record_tool_result_audit_terminal_with_submit_job_idempotency.
  destruct q as [j x re a ae te oid]; simpl. intros Hok. do 13 step_ok Hok. simplify_eq.
  repeat match goal with u : () |- _ => destruct u end.
  apply validate_result_and_audit_sound in Hok3 as [_ _ _ _ Hre Hae].
  apply sibling_ids_ne in Hok0, Hok1, Hok2.
  apply append_event_locked_Ok in Hok8 as (_ & -> & ->).
  pose proof Hok7 as (_ & _ & _ & Hi & _)%commit_result_and_audit_Ok.
  eapply published_result_audit in Hok7; eauto using validate_new_job_event_absent.
  match type of Hok9 with match _ with Some _ => _ | None => Ok ?x end = _ => set (s5 := x) in * end.
  assert (job_events_by_id s' = job_events_by_id s5 ∧ next_event_sequence s' = next_event_sequence s5)
    as [Hi' Hn'].
  { destruct oid as [[key r]|]; [by eapply insert_receipt_ledger|by simplify_eq]. }
  apply (ledger_extends_trans _ _ _ [_; _] [_] Hok7).
  eapply ledger_extends_frame, ledger_extends_append; [done..|]. subst. simpl.
  rewrite !lookup_insert_ne by done. eauto using validate_new_job_event_absent.
Qed.

Lemma exec_op_extends op s s' es : exec_op op s = Ok (s', es) → ledger_extends s s' es.
Proof.
  intros Hop. destruct op; cbn [exec_op] in Hop;
    try (apply publishing_Ok in Hop as [v Hop];
      by eauto using published_create_job, published_append, published_update,
        published_update_idempotent, published_update_twice, published_record_result_audit,
        published_record_terminal).
  - unfold create_repository in Hop. solve_quiet Hop.
  - unfold create_policy_decision in Hop. solve_quiet Hop.
  - unfold create_lock_decision in Hop. solve_quiet Hop.
  - unfold create_schema_migration in Hop. solve_quiet Hop.
  - unfold acquire_schema_migration_lock in Hop. solve_quiet Hop.
  - unfold get_schema_migration_lock in Hop. solve_quiet Hop.
  - unfold release_schema_migration_lock in Hop. solve_quiet Hop.
  - unfold create_tool_invocation in Hop. solve_quiet Hop.
  - unfold create_tool_result in Hop. solve_quiet Hop.
  - unfold create_audit_record in Hop. solve_quiet Hop.
  - apply quiet_Ok in Hop as [[v Hop] ->]. unfold record_submit_job_idempotency in Hop.
    do 2 step_ok Hop. simplify_eq. apply insert_receipt_ledger in Hok as [? ?].
    by apply ledger_extends_same.
  - unfold set_extension_registry_snapshot in Hop. solve_quiet Hop.
Qed.

(** ** Where jobs come from *)

(** Every job of [s'] was in [s], or was just created. *)
Definition jobs_from s s' (created : option (JobRecord * JobEvent)) : Prop :=
  ∀ i j', jobs s' !! i = Some j' →
    is_Some (jobs s !! i) ∨
    ∃ j e, created = Some (j, e) ∧ j' = job_set_latest_event j (Some (evt_id e)).

Lemma jobs_from_put s s' j e c :
  jobs s' = jobs s → is_Some (jobs s !! job_id j) → jobs_from s (put_job s' j e) c.
Proof.
  intros Heq Hj i j'. simpl. rewrite Heq, lookup_insert_Some. intros [[<- <-]|[_ ?]]; eauto.
Qed.

Lemma jobs_from_same s s' c : jobs s' = jobs s → jobs_from s s' c.
Proof. intros Heq i j'. rewrite Heq. eauto. Qed.

Ltac solve_quiet_jobs Hop :=
  apply quiet_Ok in Hop as [[? Hop] ->];
  repeat first
    [ step_ok Hop
    | match type of Hop with match ?x with _ => _ end = Ok _ => destruct x; try discriminate Hop end ];
  simplify_eq; by apply jobs_from_same.

Lemma insert_receipt_jobs s key r s' :
  insert_submit_job_idempotency_locked s key r = Ok s' → jobs s' = jobs s.
Proof.
  unfold insert_submit_job_idempotency_locked. intros Hok. step_ok Hok.
  destruct (idempotent_submit_jobs s !! key); step_ok Hok; try step_ok Hok; by subst.
Qed.

Lemma validate_job_update_exists s j e :
  validate_job_update s j e = Ok tt → is_Some (jobs s !! job_id j).
Proof. intros (j0 & Hj0 & _)%validate_job_update_sound. eauto. Qed.

Lemma jobs_from_update_twice j1 e1 j2 e2 s s' v es c :
  append_job_events_and_update_job j1 e1 j2 e2 s = Ok (s', v, es) → jobs_from s s' c.
Proof.
  unfold append_job_events_and_update_job. intros Hok. do 11 step_ok Hok. simplify_eq.
  repeat match goal with a : () |- _ => destruct a end.
  apply append_event_locked_Ok in Hok7 as (_ & -> & ->).
  apply append_event_locked_Ok in Hok8 as (_ & -> & ->).
  apply jobs_from_put; [done|]. unfold validate_two_stage_job_update_identity in Hok1.
  step_ok Hok1. apply negb_false_iff, bool_decide_eq_true in Hg as <-.
  by eapply validate_job_update_exists.
Qed.

Lemma jobs_from_result_audit s j x re a ae s' re' ae' n c :
  validate_result_and_audit s j x re a ae n = Ok tt →
  commit_result_and_audit s j x re a ae = Ok (s', re', ae') →
  jobs_from s s' c ∧ is_Some (jobs s !! job_id j).
Proof.
  intros [(j0 & Hj0 & _) _ _ _ _ _]%validate_result_and_audit_sound
    (_ & _ & _ & -> & _ & _)%commit_result_and_audit_Ok.
  split; [|eauto]. intros i j'. simpl. rewrite insert_insert_eq, lookup_insert_Some.
  intros [[<- <-]|[_ ?]]; eauto.
Qed.

Lemma jobs_from_terminal q s s' v es c :
  record_tool_result_audit_terminal_with_submit_job_idempotency q s = Ok (s', v, es) →
  jobs_from s s' c.
Proof.
  unfold record_tool_result_audit_terminal_with_submit_job_idempotency.
  destruct q as [j x re a ae te oid]; simpl. intros Hok. do 13 step_ok Hok. simplify_eq.
  repeat match goal with u : () |- _ => destruct u end.
  destruct (jobs_from_result_audit _ _ _ _ _ _ _ _ _ _ c Hok3 Hok7) as [Hfrom Hj].
  apply append_event_locked_Ok in Hok8 as (_ & -> & ->).
  destruct (transition_status j _ _) as [f|] eqn:Ht in Hok4; [|done].
  simpl in Hok4. injection Hok4 as <-.
  destruct (job_step_frame j f) as [Hid _]; [by do 2 eexists|].
  match type of Hok7 with _ = Ok (?x, _, _) => assert (jobs s' =
    <[job_id f := job_set_latest_event f (Some (evt_id te))]> (jobs x)) as Hjobs end.
  { destruct oid as [[key r]|]; [by apply insert_receipt_jobs in Hok9|by simplify_eq]. }
  intros k j'. rewrite Hjobs, Hid, lookup_insert_Some. intros [[<- <-]|[_ ?]]; eauto.
Qed.

Definition created_job (op : StoreOp) : option (JobRecord * JobEvent) :=
  match op with OpCreateJob j e => Some (j, e) | _ => None end.

Lemma exec_op_jobs op s s' es : exec_op op s = Ok (s', es) → jobs_from s s' (created_job op).
Proof.
  intros Hop. destruct op; cbn [exec_op] in Hop; cbn [created_job].
  - unfold create_repository in Hop. solve_quiet_jobs Hop.
  - apply publishing_Ok in Hop as [v Hop]. unfold create_job_with_initial_event in Hop.
    do 6 step_ok Hop. simplify_eq. apply append_event_locked_Ok in Hok2 as (_ & -> & ->).
    intros i j'. simpl. rewrite lookup_insert_Some. intros [[<- <-]|[_ ?]]; eauto 10.
  - apply publishing_Ok in Hop as [v Hop]. unfold append_job_event in Hop.
    do 3 step_ok Hop. simplify_eq. apply append_event_locked_Ok in Hok0 as (_ & -> & ->).
    by apply jobs_from_same.
  - apply publishing_Ok in Hop as [v Hop]. unfold append_job_event_and_update_job in Hop.
    do 4 step_ok Hop. simplify_eq. apply append_event_locked_Ok in Hok1 as (_ & -> & ->).
    destruct a. apply jobs_from_put; eauto using validate_job_update_exists.
  - apply publishing_Ok in Hop as [v Hop].
    unfold append_job_event_and_update_job_with_submit_job_idempotency in Hop.
    do 5 step_ok Hop. simplify_eq. apply append_event_locked_Ok in Hok1 as (_ & -> & ->).
    apply insert_receipt_jobs in Hok2. destruct a. intros i j'. rewrite Hok2.
    eapply jobs_from_put; eauto using validate_job_update_exists.
  - apply publishing_Ok in Hop as [v Hop]. by eapply jobs_from_update_twice.
  - unfold create_policy_decision in Hop. solve_quiet_jobs Hop.
  - unfold create_lock_decision in Hop. solve_quiet_jobs Hop.
  - unfold create_schema_migration in Hop. solve_quiet_jobs Hop.
  - unfold acquire_schema_migration_lock in Hop. solve_quiet_jobs Hop.
  - unfold get_schema_migration_lock in Hop. solve_quiet_jobs Hop.
  - unfold release_schema_migration_lock in Hop. solve_quiet_jobs Hop.
  - unfold create_tool_invocation in Hop. solve_quiet_jobs Hop.
  - unfold create_tool_result in Hop. solve_quiet_jobs Hop.
  - unfold create_audit_record in Hop. solve_quiet_jobs Hop.
  - apply quiet_Ok in Hop as [[v Hop] ->]. unfold record_submit_job_idempotency in Hop.
    do 2 step_ok Hop. simplify_eq. apply insert_receipt_jobs in Hok. by apply jobs_from_same.
  - apply publishing_Ok in Hop as [v Hop]. unfold record_tool_result_and_audit_with_events in Hop.
    do 5 step_ok Hop. simplify_eq. destruct a1. by eapply jobs_from_result_audit in Hok0 as [? _].
  - apply publishing_Ok in Hop as [v Hop]. by eapply jobs_from_terminal.
  - unfold set_extension_registry_snapshot in Hop. solve_quiet_jobs Hop.
Qed.

(** ** Sequences of transactions *)

Lemma store_step_wf s s' : store_wf s → store_step s s' → store_wf s'.
Proof. intros Hwf (op & es & Hop). eauto using ledger_steps_wf, exec_op_refines. Qed.

Lemma store_steps_wf s s' : store_wf s → rtc store_step s s' → store_wf s'.
Proof. intros Hwf. induction 1; eauto using store_step_wf. Qed.

Lemma reachable_wf s : reachable s → store_wf s.
Proof. apply store_steps_wf, inner_default_wf. Qed.

Lemma store_steps_le s s' : store_wf s → rtc store_step s s' → store_le s s'.
Proof.
  intros Hwf. induction 1 as [|s1 s2 s3 Hstep _ IH]; [done|].
  transitivity s2; [|by eauto using store_step_wf].
  destruct Hstep as (op & es & Hop). eauto using ledger_steps_le, exec_op_refines.
Qed.

Lemma ledger_steps_job_wf s s' i j j' :
  store_wf s → rtc ledger_step s s' → jobs s !! i = Some j → jobs s' !! i = Some j' →
  job_wf j → job_wf j'.
Proof.
  intros Hwf Hsteps. revert j Hwf. induction Hsteps as [s|s1 s2 s3 Hstep _ IH].
  - intros j _ Hj Hj'. by simplify_eq.
  - intros j Hwf Hj Hj' Hwfj.
    destruct (le_jobs _ _ (ledger_step_le _ _ (sw_ledger _ Hwf) Hstep) _ _ Hj) as (j2 & Hj2 & _).
    eauto using ledger_step_wf, ledger_step_job_wf.
Qed.

Lemma exec_op_jobs_wf op s s' es :
  store_wf s → exec_op op s = Ok (s', es) → jobs_wf s →
  (∀ j e, op = OpCreateJob j e → job_wf j) → jobs_wf s'.
Proof.
  intros Hwf Hop Hjobs Hnew i j' Hj'. pose proof (exec_op_refines _ _ _ _ Hwf Hop) as Hsteps.
  destruct (exec_op_jobs _ _ _ _ Hop _ _ Hj') as [[j Hj]|(j & e & Hc & ->)].
  - eauto using ledger_steps_job_wf.
  - destruct op; simplify_eq/=. specialize (Hnew _ _ eq_refl). revert Hnew.
    apply job_wf_ext; simpl; try done; lia.
Qed.

Lemma exec_ops_jobs_wf ops s s' es :
  store_wf s → jobs_wf s → exec_ops ops s = Ok (s', es) →
  (∀ j e, OpCreateJob j e ∈ ops → job_wf j) → jobs_wf s'.
Proof.
  revert s es. induction ops as [|op ops IH]; simpl; intros s es Hwf Hj Hok Hnew; [by simplify_eq|].
  destruct (exec_op op s) as [[s1 es1]|] eqn:Hop; [|done].
  destruct (exec_ops ops s1) as [[s2 es2]|] eqn:Hops; [|done]. simplify_eq.
  eapply IH; [by eapply store_step_wf; [|do 2 eexists]| |done|].
  - eapply exec_op_jobs_wf; [done..|]. intros j e ->. eapply (Hnew j e). by left.
  - intros j e Hin. eapply (Hnew j e). by right.
Qed.

Lemma exec_ops_steps ops s s' es : exec_ops ops s = Ok (s', es) → rtc store_step s s'.
Proof.
  revert s es. induction ops as [|op ops IH]; simpl; intros s es Hok; [by simplify_eq|].
  destruct (exec_op op s) as [[s1 es1]|] eqn:H1; [|done].
  destruct (exec_ops ops s1) as [[s2 es2]|] eqn:H2; [|done]. simplify_eq.
  eapply rtc_l; [by do 2 eexists|eauto].
Qed.

Lemma exec_ops_extends ops s s' es : exec_ops ops s = Ok (s', es) → ledger_extends s s' es.
Proof.
  revert s es. induction ops as [|op ops IH]; simpl; intros s es Hok.
  { simplify_eq. by apply ledger_extends_same. }
  destruct (exec_op op s) as [[s1 es1]|] eqn:H1; [|done].
  destruct (exec_ops ops s1) as [[s2 es2]|] eqn:H2; [|done]. simplify_eq.
  eauto using ledger_extends_trans, exec_op_extends.
Qed.
End Ops.

(** ** The demo run *)

Module Demo.
#[local] Existing Instance sample_uuid_lib.
#[local] Existing Instance sample_registry.

Definition demo_ops : list StoreOp :=
  [OpCreateRepository demo_repository; OpCreateJob demo_job demo_submitted;
   OpCreatePolicyDecision demo_decision; OpUpdateJob demo_job_decided demo_decided;
   OpUpdateJob demo_job_running demo_started; OpCreateToolInvocation demo_invocation;
   OpRecordTerminal demo_terminal_request].

(** The state after the first [n] operations. *)
Definition demo_state (n : nat) : InMemoryInner :=
  match exec_ops (take n demo_ops) inner_default with Ok (s, _) => s | Err _ => inner_default end.
Definition demo_events (n : nat) : list JobEvent :=
  match exec_ops (take n demo_ops) inner_default with Ok (_, es) => es | Err _ => [] end.

Lemma demo_run : exec_ops demo_ops inner_default = Ok (demo_state 7, demo_events 7).
Proof. vm_compute. reflexivity. Qed.
Lemma demo_run5 : exec_ops (take 5 demo_ops) inner_default = Ok (demo_state 5, demo_events 5).
Proof. vm_compute. reflexivity. Qed.
End Demo.

(** * The properties of the store

    The theorems a client of [SecretaryStore] relies on, over arbitrary
    sequences of its transactions, each evaluated on the demo run. *)

Section Guarantees.
Context `{UuidLib} `{RegistryPort}.
Implicit Types s : InMemoryInner.

(** C2: every successful transaction of the store, whichever method ran it, is
    a sequence of abstract ledger steps: it adds well-referenced records, appends
    events with the next sequence numbers and advances jobs and locks, and does
    nothing else. *)
Theorem transactions_refine_ledger op s s' es :
  store_wf s → exec_op op s = Ok (s', es) → rtc ledger_step s s'.
Proof. apply exec_op_refines. Qed.

(** C7: every state reachable from the empty store satisfies the store
    invariant: collections are keyed by record id, the event ledger has the
    sequence numbers 1..n without gap and consistent indexes, every reference
    resolves inside one repository, blocked roots share no subtree with another
    root, and active locks, tool results and held migration locks are exclusive. *)
Theorem reachable_store_well_formed s : reachable s → store_wf s.
Proof. apply reachable_wf. Qed.

(** C11: history is append-only.  From any reachable state, later states keep
    every repository, policy decision, lock decision, invocation, result, audit
    record, event and receipt unchanged; jobs keep their identity fields and
    only advance in status; migration locks only close. *)
Theorem store_history_append_only s s' :
  reachable s → rtc store_step s s' → store_le s s'.
Proof. intros Hr. by apply store_steps_le, reachable_wf. Qed.

(** A terminal job stays in its status through any further transactions:
    the job is still there, in the same status, and its [updated_at] never
    moves backwards. *)
Theorem terminal_job_status_is_final s s' i j :
  reachable s → rtc store_step s s' → jobs s !! i = Some j → is_terminal (job_status j) = true →
  ∃ j', jobs s' !! i = Some j' ∧ job_status j' = job_status j ∧
    (job_updated_at j <= job_updated_at j')%Z.
Proof.
  intros Hr Hsteps Hj Hterm.
  assert (store_le s s') as Hle by eauto using store_steps_le, reachable_wf.
  destruct (le_jobs _ _ Hle _ _ Hj) as (j' & Hj' & []). exists j'. split_and!; try done.
  destruct jl_status as [|Hlt]; [done|]. destruct (job_status j), (job_status j'); simpl in *; lia || done.
Qed.

(** The timestamps of every stored job agree with its status
    ([started_at] when it ran, [completed_at] exactly when it ended, in order)
    after any sequence of transactions that creates jobs with such timestamps;
    updates are checked by the store itself. *)
Theorem stored_jobs_well_formed ops s es :
  exec_ops ops inner_default = Ok (s, es) →
  (∀ j e, OpCreateJob j e ∈ ops → job_wf j) → jobs_wf s.
Proof.
  intros Hok Hnew. by eapply exec_ops_jobs_wf; [apply inner_default_wf|..].
Qed.

(** Optimistic concurrency.  After a job update commits, every other update
    of the same job that was prepared from the state before it is rejected as
    stale, whatever it changes. *)
Theorem concurrent_job_update_rejected j e j' e' s s' v es :
  append_job_event_and_update_job j e s = Ok (s', v, es) → store_wf s →
  job_id j' = job_id j → job_latest_event_id j' = job_latest_event_id j →
  ∃ reason, append_job_event_and_update_job j' e' s' = Err (Conflict "jobs" reason).
Proof.
  unfold append_job_event_and_update_job at 1. intros Hok Hwf Hid Hlatest.
  do 4 step_ok Hok. simplify_eq. destruct a, a0.
  apply append_event_locked_Ok in Hok2 as (_ & -> & ->).
  apply validate_job_update_sound in Hok0 as (j0 & Hj0 & Hl0 & _).
  pose proof (validate_new_job_event_absent s e None None None Hok1) as Habs.
  unfold append_job_event_and_update_job, validate_job_update. rewrite Hid. simpl.
  rewrite lookup_insert_eq. simpl. rewrite bool_decide_eq_false_2; [simpl; by eexists|].
  rewrite Hlatest, Hl0. destruct (rw_jobs _ (sw_refs _ Hwf) _ _ Hj0) as (_ & l & e0 & -> & He0 & _).
  congruence.
Qed.

(** Acquiring the migration lock never panics, and decides exactly: with a
    leader and a positive timeout it fails with a conflict precisely when some
    lock is held and unexpired at [locked_at]; otherwise (the drawn id being
    fresh) it returns the new lock, held by the caller, as the only held one. *)
Theorem acquire_migration_lock_exact uuid leader safe timeout t s :
  store_wf s → is_blank leader = false → (0 < timeout)%N →
  schema_migrations s !! id_new SchemaMigrationIdKind uuid = None →
  ((∃ i m l, schema_migrations s !! i = Some m ∧ mig_migration_lock m = Some l ∧
      is_active l t = true) ∧
   (∃ reason, acquire_schema_migration_lock uuid leader safe timeout t s
      = Err (Conflict "schema_migrations" reason))) ∨
  ((∀ i m l, schema_migrations s !! i = Some m → mig_migration_lock m = Some l →
      is_active l t = false) ∧
   (∃ s' m, acquire_schema_migration_lock uuid leader safe timeout t s = Ok (s', Some m) ∧
      mig_leader_id m = Some leader ∧ held_migration m ∧
      ∀ i m', schema_migrations s' !! i = Some m' → held_migration m' → m' = m)).
Proof.
  intros Hwf Hb Ht Hid. pose proof (sw_exclusive _ Hwf) as Hex.
  assert ((timeout =? 0)%N = false) as Ht0 by lia.
  destruct (new_migration_lock_Ok uuid leader t safe timeout) as (m & Hm & Hv & Hh & Hl); [done..|].
  assert (mig_id m = id_new SchemaMigrationIdKind uuid) as Hmid.
  { unfold new_migration_lock, migration_lock_record_new in Hm. rewrite Ht0 in Hm. by simplify_eq. }
  unfold acquire_schema_migration_lock. rewrite Hb, Ht0.
  destruct (active_migration_lock _ t) as [x|] eqn:Ha; [left|right].
  - apply active_migration_lock_Some in Ha as (i & m0 & l0 & ? & ? & ?). split; eauto 10.
  - split; [exact (active_migration_lock_None _ _ Hex Ha)|]. rewrite Hm.
    exists (set_schema_migrations s (<[mig_id m := m]>
      (schema_migrations (expire_schema_migration_locks s t)))), m.
    split_and!; try done.
    + unfold insert_record. rewrite (proj2 (contains_key_false _ _)); [done|].
      simpl. by rewrite lookup_fmap, Hmid, Hid.
    + simpl. intros i m'. rewrite lookup_insert_Some. intros [[_ <-]|[_ Hi]] Hh'; [done|].
      exfalso. by eapply no_active_lock_none_held.
Qed.
End Guarantees.

(** ** Witnesses on the demo run *)

Module GuaranteesDemo.
Import Demo.
#[local] Existing Instance sample_uuid_lib.
#[local] Existing Instance sample_registry.

Lemma demo_reachable5 : reachable (demo_state 5).
Proof. exact (exec_ops_steps _ _ _ _ demo_run5). Qed.

Lemma demo_tail_runs :
  exec_ops (drop 5 demo_ops) (demo_state 5) = Ok (demo_state 7, drop 3 (demo_events 7)).
Proof. vm_compute. reflexivity. Qed.
Lemma demo_tail_steps : rtc store_step (demo_state 5) (demo_state 7).
Proof. exact (exec_ops_steps _ _ _ _ demo_tail_runs). Qed.

Lemma transactions_refine_ledger_witness :
  rtc ledger_step (demo_state 0) (demo_state 1) ∧ repositories (demo_state 1) ≠ ∅.
Proof.
  split.
  - apply (transactions_refine_ledger (OpCreateRepository demo_repository) _ _ []).
    + apply inner_default_wf.
    + vm_compute. reflexivity.
  - vm_compute. discriminate.
Defined.

Lemma reachable_store_well_formed_witness : store_wf (demo_state 7).
Proof.
  apply (reachable_store_well_formed (demo_state 7)). exact (exec_ops_steps _ _ _ _ demo_run).
Defined.

Lemma store_history_append_only_witness : store_le (demo_state 5) (demo_state 7).
Proof.
  apply (store_history_append_only (demo_state 5) (demo_state 7) demo_reachable5 demo_tail_steps).
Defined.

(** The state the expiry pass leaves, and the finished job in it. *)
Definition demo_expired : InMemoryInner := expire_schema_migration_locks (demo_state 7) 100.

Lemma terminal_job_status_is_final_witness :
  ∃ j', jobs demo_expired !! job_id demo_job = Some j' ∧ job_status j' = Succeeded.
Proof.
  destruct (terminal_job_status_is_final (demo_state 7) demo_expired (job_id demo_job)
              (job_set_latest_event demo_job_done (Some (evt_id demo_succeeded))))
    as (j' & Hj' & Hst & _).
  - exact (exec_ops_steps _ _ _ _ demo_run).
  - apply rtc_once. exists (OpGetMigrationLock 100), []. reflexivity.
  - vm_compute. reflexivity.
  - reflexivity.
  - exists j'. split; [exact Hj'|]. rewrite Hst. reflexivity.
Defined.

Lemma stored_jobs_well_formed_witness : jobs_wf (demo_state 7).
Proof.
  apply (stored_jobs_well_formed demo_ops (demo_state 7) (demo_events 7) demo_run).
  intros j e Hin. unfold demo_ops in Hin.
  repeat (apply elem_of_cons in Hin as [Hin|Hin]; [try discriminate Hin|]);
    [|by apply not_elem_of_nil in Hin].
  injection Hin as -> _. apply job_record_new_wf.
Defined.

Lemma concurrent_job_update_rejected_witness :
  ∃ reason, append_job_event_and_update_job demo_job_decided
    (demo_event "e9" 31 (subject_policy_decision (pol_id demo_decision)) (PolicyDecided Allowed)
       demo_policy_refs) (demo_state 4) = Err (Conflict "jobs" reason).
Proof.
  apply (concurrent_job_update_rejected demo_job_decided demo_decided demo_job_decided _
           (demo_state 3) (demo_state 4) (evt_set_sequence demo_decided 2)
           [evt_set_sequence demo_decided 2]).
  - vm_compute. reflexivity.
  - apply reachable_wf, (exec_ops_steps (take 3 demo_ops) _ _ (demo_events 3)).
    vm_compute. reflexivity.
  - reflexivity.
  - reflexivity.
Defined.

Lemma acquire_migration_lock_exact_witness :
  ∃ s' m, acquire_schema_migration_lock "m1" "leader" true 5 100 inner_default = Ok (s', Some m) ∧
    mig_leader_id m = Some "leader".
Proof.
  destruct (acquire_migration_lock_exact "m1" "leader" true 5 100 inner_default)
    as [[(i & m & l & Hi & _) _]|[_ (s' & m & Hok & Hl & _)]].
  - apply inner_default_wf.
  - vm_compute. reflexivity.
  - lia.
  - reflexivity.
  - discriminate Hi.
  - exists s', m. split; [exact Hok|exact Hl].
Defined.
End GuaranteesDemo.
