(* ===== verification/StoreShell.v ===== *)
(** * StoreShell: the mutex, the durable snapshot and the broadcast ([store.rs])

    [InMemoryStore] runs each transaction on a clone of the state, writes the
    clone to disk, installs it and publishes its events.  The disk is the file at
    the snapshot path and the temporary files beside it; each write may fail at
    any of its system calls.  [serde_json] is a third-party codec: a parameter
    whose only law is that it reads back what it wrote. *)
From S2P Require Import Prelude Text Domain DomainLaws Policy StoreTypes StoreValidate StoreJobs.
From S2P Require Import Store StoreQuery StoreLoad Ledger StoreRefine.
From S2P Require Import StoreGuarantees.

Definition DURABLE_STORE_SCHEMA_VERSION : N := 2.
Definition DURABLE_STORE_LEGACY_SCHEMA_VERSION : N := 1.

Record DurableStoreSnapshot `{RegistryPort} := {
  snapshot_schema_version : N;
  snapshot_inner : InMemoryInner
}.

Class SnapshotCodec `{RegistryPort} := {
  to_vec_pretty : DurableStoreSnapshot → result Message string;
  from_str : string → result Message DurableStoreSnapshot
}.
Class SnapshotCodecLaws `{SnapshotCodec} : Prop := {
  from_str_to_vec x bytes : to_vec_pretty x = Ok bytes → from_str bytes = Ok x
}.

(** ** The disk *)

Record Disk := {
  disk_file : option string;
  disk_temporaries : list string
}.

(** The system call of [persist_durable_snapshot] that fails. *)
Inductive IoFault :=
  | CreateDirFails
  | OpenFails
  | WriteFails (written : nat)
  | FlushFails
  | SyncFails
  | RenameFails (removed : bool)
  | SyncDirectoryFails.

Definition leave_temporary (d : Disk) (bytes : string) : Disk :=
  {| disk_file := disk_file d; disk_temporaries := bytes :: disk_temporaries d |}.
Definition replace_file (d : Disk) (bytes : string) : Disk :=
  {| disk_file := Some bytes; disk_temporaries := disk_temporaries d |}.

Definition write_bytes_atomically (fault : option IoFault) (d : Disk) (bytes : string)
  : Disk * result IoFault unit :=
  match fault with
  | Some OpenFails => (d, Err OpenFails)
  | Some (WriteFails n) => (leave_temporary d (String.substring 0 n bytes), Err (WriteFails n))
  | Some FlushFails => (leave_temporary d bytes, Err FlushFails)
  | Some SyncFails => (leave_temporary d bytes, Err SyncFails)
  | Some (RenameFails removed) =>
      (if removed then d else leave_temporary d bytes, Err (RenameFails removed))
  | Some SyncDirectoryFails => (replace_file d bytes, Err SyncDirectoryFails)
  | Some CreateDirFails | None => (replace_file d bytes, Ok tt)
  end.

Section Shell.
Context `{UuidLib} `{RegistryPort} `{!SnapshotCodec}.
Implicit Types inner s : InMemoryInner.

Definition store_conflict (template : string) : StoreError := Conflict "store" (msg template).

Definition persist_durable_snapshot (fault : option IoFault) (d : Disk) inner
  : Disk * StoreResult unit :=
  match fault with
  | Some CreateDirFails =>
      (d, Err (store_conflict "failed to create durable snapshot directory {}: {error}"))
  | _ =>
      let snapshot := {| snapshot_schema_version := DURABLE_STORE_SCHEMA_VERSION;
                         snapshot_inner := inner |} in
      match to_vec_pretty snapshot with
      | Err _ => (d, Err (store_conflict "failed to serialize durable snapshot {}: {error}"))
      | Ok bytes =>
          let '(d, r) := write_bytes_atomically fault d bytes in
          (d, map_err (λ _, store_conflict "failed to write durable snapshot {}: {error}") r)
      end
  end.

(** Reading the file; [None] is a failing [read_to_string]. *)
Definition load_durable_snapshot (raw : option string) : StoreResult InMemoryInner :=
  let err m := InvalidRecord "store" (msg m) in
  let? raw := ok_or raw (err "failed to read durable snapshot {}: {error}") in
  let? snapshot := map_err (λ _, err "failed to parse durable snapshot {}: {error}")
                     (from_str raw) in
  reject? negb ((DURABLE_STORE_LEGACY_SCHEMA_VERSION <=? snapshot_schema_version snapshot)%N
                && (snapshot_schema_version snapshot <=? DURABLE_STORE_SCHEMA_VERSION)%N)
    with err "durable snapshot {} has unsupported schema_version {}" in
  Ok (snapshot_inner snapshot).

(** ** The store handle

    [sent] is the log of the broadcast channels: [None] for the channel of all
    events, [Some r] for the channel of repository [r]. *)
Record InMemoryStore := {
  st_inner : InMemoryInner;
  st_poisoned : bool;
  st_durable : bool;
  st_disk : Disk;
  st_broadcasters : gset RepositoryId;
  st_sent : list (option RepositoryId * JobEvent)
}.

Definition with_disk (st : InMemoryStore) (d : Disk) : InMemoryStore := {|
  st_inner := st_inner st; st_poisoned := st_poisoned st; st_durable := st_durable st;
  st_disk := d; st_broadcasters := st_broadcasters st; st_sent := st_sent st |}.
Definition with_broadcasters (st : InMemoryStore) (b : gset RepositoryId) : InMemoryStore := {|
  st_inner := st_inner st; st_poisoned := st_poisoned st; st_durable := st_durable st;
  st_disk := st_disk st; st_broadcasters := b; st_sent := st_sent st |}.
Definition with_inner (st : InMemoryStore) inner : InMemoryStore := {|
  st_inner := inner; st_poisoned := st_poisoned st; st_durable := st_durable st;
  st_disk := st_disk st; st_broadcasters := st_broadcasters st; st_sent := st_sent st |}.
Definition with_sent (st : InMemoryStore) l : InMemoryStore := {|
  st_inner := st_inner st; st_poisoned := st_poisoned st; st_durable := st_durable st;
  st_disk := st_disk st; st_broadcasters := st_broadcasters st; st_sent := l |}.

(** [InMemoryStore::default()]: no snapshot path. *)
Definition store_default : InMemoryStore := {|
  st_inner := inner_default; st_poisoned := false; st_durable := false;
  st_disk := {| disk_file := None; disk_temporaries := [] |};
  st_broadcasters := ∅; st_sent := [] |}.

(** [lock()] *)
Definition lock (st : InMemoryStore) : StoreResult InMemoryInner :=
  if st_poisoned st then Err (store_conflict "in-memory store lock was poisoned")
  else Ok (st_inner st).

(** The snapshot write of both [mutate] functions. *)
Definition persist_if_durable (fault : option IoFault) (st : InMemoryStore) draft
  : InMemoryStore * StoreResult unit :=
  if st_durable st then
    let '(d, r) := persist_durable_snapshot fault (st_disk st) draft in (with_disk st d, r)
  else (st, Ok tt).

Definition mutate {R} (fault : option IoFault) (mutator : Tx R) (st : InMemoryStore)
  : InMemoryStore * StoreResult R :=
  match lock st with
  | Err e => (st, Err e)
  | Ok guard =>
      match mutator guard with
      | Err e => (st, Err e)
      | Ok (draft, result) =>
          match persist_if_durable fault st draft with
          | (st, Err e) => (st, Err e)
          | (st, Ok _) => (with_inner st draft, Ok result)
          end
      end
  end.

(** The loop of [prepare_job_event_publish]; the broadcasters it creates stay
    when a later event fails. *)
Fixpoint prepare_job_event_publish inner (events : list JobEvent) (b : gset RepositoryId)
  : gset RepositoryId * StoreResult (list (JobEvent * option RepositoryId)) :=
  match events with
  | [] => (b, Ok [])
  | event :: events =>
      match event_repository_id inner event with
      | Err e => (b, Err e)
      | Ok None =>
          let '(b, r) := prepare_job_event_publish inner events b in
          (b, let? targets := r in Ok ((event, None) :: targets))
      | Ok (Some r) =>
          match get_record (repositories inner) r "repositories" with
          | Err e => (b, Err e)
          | Ok _ =>
              let '(b, rest) := prepare_job_event_publish inner events ({[r]} ∪ b) in
              (b, let? targets := rest in Ok ((event, Some r) :: targets))
          end
      end
  end.

Definition publish_target (t : JobEvent * option RepositoryId)
  : list (option RepositoryId * JobEvent) :=
  (None, t.1) :: match t.2 with Some r => [(Some r, t.1)] | None => [] end.

Definition publish_job_events (targets : list (JobEvent * option RepositoryId)) (st : InMemoryStore)
  : InMemoryStore :=
  with_sent st (st_sent st ++ concat (map publish_target targets)).

Definition mutate_with_published_events {R} (fault : option IoFault) (mutator : PubTx R)
  (st : InMemoryStore) : InMemoryStore * StoreResult R :=
  match lock st with
  | Err e => (st, Err e)
  | Ok guard =>
      match mutator guard with
      | Err e => (st, Err e)
      | Ok (draft, result, events) =>
          let '(b, prepared) := prepare_job_event_publish draft events (st_broadcasters st) in
          let st := with_broadcasters st b in
          match prepared with
          | Err e => (st, Err e)
          | Ok publish_targets =>
              match persist_if_durable fault st draft with
              | (st, Err e) => (st, Err e)
              | (st, Ok _) => (publish_job_events publish_targets (with_inner st draft), Ok result)
              end
          end
      end
  end.

Definition subscribe_repository_job_events (r : RepositoryId) (st : InMemoryStore)
  : InMemoryStore * StoreResult RepositoryId :=
  match lock st with
  | Err e => (st, Err e)
  | Ok inner =>
      match get_record (repositories inner) r "repositories" with
      | Err e => (st, Err e)
      | Ok _ => (with_broadcasters st ({[r]} ∪ st_broadcasters st), Ok r)
      end
  end.
End Shell.

(** ** One call of a mutating method *)

Section RunOp.
Context `{UuidLib} `{RegistryPort} `{!SnapshotCodec}.

(** The methods that go through [mutate_with_published_events]. *)
Definition publishes (op : StoreOp) : bool :=
  match op with
  | OpCreateJob _ _ | OpAppendEvent _ | OpUpdateJob _ _ | OpUpdateJobIdempotent _ _ _ _
  | OpUpdateJobTwice _ _ _ _ | OpRecordResultAudit _ _ _ _ _ | OpRecordTerminal _ => true
  | _ => false
  end.

Definition run_op (fault : option IoFault) (op : StoreOp) (st : InMemoryStore)
  : InMemoryStore * StoreResult unit :=
  if publishes op
  then mutate_with_published_events fault
         (λ inner, let? '(inner, events) := exec_op op inner in Ok (inner, tt, events)) st
  else mutate fault (λ inner, let? '(inner, _) := exec_op op inner in Ok (inner, tt)) st.

Definition run_ops (l : list (option IoFault * StoreOp)) (st : InMemoryStore) : InMemoryStore :=
  foldl (λ st '(fault, op), (run_op fault op st).1) st l.
End RunOp.
