(* ===== verification/ShellLaws.v ===== *)
(** * ShellLaws: atomicity, durability and publication

    A failed call changes neither the state nor what subscribers saw; a
    successful one installs, persists and publishes the same transaction.  The
    file on disk always reads back as the acknowledged state or as the one
    transaction after it whose directory sync failed. *)
From S2P Require Import Prelude Text Domain DomainLaws Policy StoreTypes StoreValidate StoreJobs.
From S2P Require Import Store StoreQuery StoreLoad Ledger StoreRefine.
From S2P Require Import StoreGuarantees StoreShell.

Section Routing.
Context `{UuidLib} `{RegistryPort}.
Implicit Types s : InMemoryInner.

(** ** Every stored event has one repository *)

Lemma find_hash_by_id {k V} (m : gmap (OpaqueId k) V) (f : V → OpaqueId k) e i v :
  (∀ i x, m !! i = Some x → f x = i) → m !! i = Some v →
  as_str i = subject_id (evt_subject e) →
  find_bool (λ x, names_subject e (f x)) (hash_values m) = Some v.
Proof.
  intros Hk Hi Hs. destruct (find_bool_is_Some (λ x, names_subject e (f x)) (hash_values m) v) as [w Hw].
  - apply elem_of_hash_values. eauto.
  - apply names_subject_spec. by rewrite (Hk _ _ Hi).
  - destruct (find_hash_named e m f w Hk Hw) as [Hw' Hn].
    assert (f w = i) as Hfi by (apply (inj as_str); congruence). congruence.
Qed.

Lemma find_btree_by_id s e i j :
  keys_wf s → jobs s !! i = Some j → as_str i = subject_id (evt_subject e) →
  find_bool (λ x, names_subject e (job_id x)) (btree_values (jobs s)) = Some j.
Proof.
  intros Hk Hi Hs.
  destruct (find_bool_is_Some (λ x, names_subject e (job_id x)) (btree_values (jobs s)) j) as [w Hw].
  - apply elem_of_btree_values. eauto.
  - apply names_subject_spec. by rewrite (kw_jobs _ Hk _ _ Hi).
  - pose proof Hw as [(i' & Hi')%elem_of_btree_values Hn%names_subject_spec]%find_bool_Some.
    pose proof (kw_jobs _ Hk _ _ Hi') as Hid.
    assert (i' = i) as -> by (apply (inj as_str); congruence). congruence.
Qed.

Lemma subject_repository_id_complete s e r :
  keys_wf s → subject_in s e r → subject_repository_id s e None None None = Ok (Some r).
Proof.
  intros Hk Hs. unfold subject_in, subject_repository_id in *.
  destruct (subject_type (evt_subject e)).
  - destruct Hs as [Hid [x Hx]].
    destruct (find_bool_is_Some (names_subject e) (hash_keys (repositories s)) r) as [w Hw].
    + apply list_elem_of_fmap. exists (r, x). split; [done|]. by apply elem_of_map_to_list.
    + by apply names_subject_spec.
    + rewrite Hw. simpl. apply find_bool_Some in Hw as [_ Hn%names_subject_spec].
      do 2 f_equal. apply (inj as_str). congruence.
  - destruct Hs as (i & j & Hid & Hj & <-). by rewrite (find_btree_by_id s e i j).
  - destruct Hs as (i & x & Hid & Hx & <-).
    by rewrite (find_hash_by_id _ pol_id e i x (kw_policies _ Hk) Hx Hid).
  - destruct Hs as (i & x & Hid & Hx & <-).
    by rewrite (find_hash_by_id _ lock_id e i x (kw_locks _ Hk) Hx Hid).
  - destruct Hs as (i & x & Hid & Hx & <-).
    by rewrite (find_hash_by_id _ inv_id e i x (kw_invocations _ Hk) Hx Hid).
  - destruct Hs as (i & x & t & Hid & Hx & Ht & <-).
    rewrite (find_hash_by_id _ res_id e i x (kw_results _ Hk) Hx Hid). simpl. by rewrite Ht.
  - destruct Hs as (i & x & Hid & Hx & <-).
    by rewrite (find_hash_by_id _ aud_id e i x (kw_audits _ Hk) Hx Hid).
Qed.

Lemma derive_from_ref_complete {k V} (m : gmap (OpaqueId k) V) o c x f r :
  (∀ i, o = Some i → ∃ v, m !! i = Some v ∧ f v = Ok r) →
  derive_from_ref m o c x f (Some r) = Ok (Some r).
Proof.
  intros Hv. unfold derive_from_ref. destruct o as [i|]; [|done].
  destruct (Hv i eq_refl) as (v & Hi & Hf). unfold get_ref. rewrite Hi. simpl. rewrite Hf. simpl.
  by rewrite (proj2 (ensure_same_repository_Ok _ _ r r) eq_refl).
Qed.

Lemma event_repository_id_complete s e r :
  keys_wf s → event_in s e r → event_repository_id s e = Ok (Some r).
Proof.
  intros Hk (job & policy & [_ Hsub _ _ Hrepo Hjob Hpol Hlock Hinv Hres Haud]).
  unfold event_repository_id.
  destruct (ref_repository_id (evt_refs e)) as [i|] eqn:Hi.
  { by destruct (Hrepo i eq_refl) as (_ & -> & _). }
  rewrite (subject_repository_id_complete s e r) by done.
  unfold derive_event_repository_from_refs.
  rewrite !derive_from_ref_complete; [done|..]; intros i Hr.
  - destruct (Haud i Hr) as (_ & a & ? & <- & _). eauto.
  - destruct (Hres i Hr) as (_ & x & t & ? & Ht & <- & _). exists x. by rewrite Ht.
  - destruct (Hinv i Hr) as (_ & t & ? & <- & _). eauto.
  - destruct (Hlock i Hr) as (_ & l & ? & <- & _). eauto.
  - destruct (Hpol i Hr) as (_ & p & ? & <-). eauto.
  - destruct (Hjob i Hr) as (_ & j & ? & <-). eauto.
Qed.

Lemma event_in_repository_exists s e r :
  refs_wf s → event_in s e r → is_Some (repositories s !! r).
Proof.
  intros Hw (job & policy & [_ Hsub _ _ _ _ _ _ _ _ _]). unfold subject_in in Hsub.
  destruct (subject_type (evt_subject e)).
  - by destruct Hsub.
  - destruct Hsub as (i & j & _ & Hj & <-). by destruct (rw_jobs _ Hw _ _ Hj).
  - destruct Hsub as (i & x & _ & Hx & <-). by apply (rw_policies _ Hw _ _ Hx).
  - destruct Hsub as (i & x & _ & Hx & <-). by destruct (rw_locks _ Hw _ _ Hx) as (_ & ? & _).
  - destruct Hsub as (i & x & _ & Hx & <-). by destruct (rw_invocations _ Hw _ _ Hx).
  - destruct Hsub as (i & x & t & _ & _ & Ht & <-). by destruct (rw_invocations _ Hw _ _ Ht).
  - destruct Hsub as (i & x & _ & Hx & <-). by destruct (rw_audits _ Hw _ _ Hx).
Qed.

(** The targets are the events, in order, each with its repository. *)
Lemma prepare_targets_events s es b b' ts :
  prepare_job_event_publish s es b = (b', Ok ts) →
  ts.*1 = es ∧ Forall (λ t, event_repository_id s t.1 = Ok t.2) ts.
Proof.
  revert b b' ts. induction es as [|e es IH]; simpl; intros b b' ts Hp; [by simplify_eq|].
  destruct (event_repository_id s e) as [[r|]|] eqn:Hr; [| |done].
  - destruct (get_record _ _ _); [|done].
    destruct (prepare_job_event_publish s es _) as [b1 [ts1|]] eqn:H1; simplify_eq.
    destruct (IH _ _ _ H1) as [<- ?]. by split; [|constructor].
  - destruct (prepare_job_event_publish s es _) as [b1 [ts1|]] eqn:H1; simplify_eq.
    destruct (IH _ _ _ H1) as [<- ?]. by split; [|constructor].
Qed.

(** Does the event go to the channel of [r]? *)
Definition routed_to s (r : RepositoryId) (e : JobEvent) : bool :=
  match event_repository_id s e with
  | Ok (Some r') => bool_decide (r' = r)
  | _ => false
  end.

(** Events stored in a well-formed state are all routed to their repository. *)
Lemma prepare_publish_complete s es b :
  store_wf s → (∀ e, e ∈ es → job_events_by_id s !! evt_id e = Some e) →
  ∃ b' targets, prepare_job_event_publish s es b = (b', Ok targets) ∧ targets.*1 = es ∧
    b ⊆ b' ∧ ∀ e o, (e, o) ∈ targets → ∃ r, o = Some r ∧ r ∈ b' ∧ event_in s e r.
Proof.
  intros Hwf. revert b. induction es as [|e es IH]; intros b Hes; simpl.
  { exists b, []. split_and!; try done. intros e o Hin%not_elem_of_nil. done. }
  destruct (rw_events _ (sw_refs _ Hwf) (evt_id e) e) as [r Hr].
  { apply Hes. by left. }
  rewrite (event_repository_id_complete s e r) by (done || apply Hwf).
  destruct (event_in_repository_exists _ _ _ (sw_refs _ Hwf) Hr) as [x Hx].
  unfold get_record. rewrite Hx. simpl.
  destruct (IH ({[r]} ∪ b)) as (b' & ts & -> & Hts & Hsub & Hall).
  { intros e' He'. apply Hes. by right. }
  exists b', ((e, Some r) :: ts). split_and!; [done|by rewrite fmap_cons, Hts|set_solver|].
  intros e' o [[= -> ->]|Hin]%elem_of_cons; [|eauto]. exists r. split_and!; try done. set_solver.
Qed.
End Routing.

(** ** The channels *)

Section Channels.
Context `{UuidLib} `{RegistryPort}.

Definition global_log (l : list (option RepositoryId * JobEvent)) : list JobEvent :=
  omap (λ '(c, e), match c with None => Some e | Some _ => None end) l.
Definition repository_log (r : RepositoryId) (l : list (option RepositoryId * JobEvent))
  : list JobEvent :=
  omap (λ '(c, e), if bool_decide (c = Some r) then Some e else None) l.

Lemma global_log_targets ts : global_log (concat (map publish_target ts)) = ts.*1.
Proof.
  induction ts as [|[e [r|]] ts IH]; simpl; [done| |]; unfold global_log in *; simpl; by rewrite IH.
Qed.

Lemma repository_log_targets r ts :
  repository_log r (concat (map publish_target ts)) =
  omap (λ '(e, o), if bool_decide (o = Some r) then Some e else None) ts.
Proof.
  induction ts as [|[e [r'|]] ts IH]; simpl; [done| |]; unfold repository_log in *; simpl.
  - case_bool_decide; simpl; by rewrite IH.
  - by rewrite IH.
Qed.

Lemma repository_log_routed s r ts :
  Forall (λ t, event_repository_id s t.1 = Ok t.2) ts →
  repository_log r (concat (map publish_target ts)) = List.filter (routed_to s r) ts.*1.
Proof.
  rewrite repository_log_targets. induction 1 as [|[e o] ts He _ IH]; [done|].
  rewrite fmap_cons. cbn [List.filter fst]. unfold routed_to at 1. simpl in He. rewrite He.
  cbn [omap list_omap]. rewrite IH.
  destruct o as [r'|]; [|done]. repeat case_bool_decide; naive_solver.
Qed.

Lemma repository_log_app r l l' : repository_log r (l ++ l') = repository_log r l ++ repository_log r l'.
Proof. apply omap_app. Qed.
Lemma global_log_app l l' : global_log (l ++ l') = global_log l ++ global_log l'.
Proof. apply omap_app. Qed.
End Channels.

Section Calls.
Context `{UuidLib} `{RegistryPort} `{!SnapshotCodec} `{!SnapshotCodecLaws}.
Implicit Types s : InMemoryInner.

Definition snapshot_of s : DurableStoreSnapshot :=
  {| snapshot_schema_version := DURABLE_STORE_SCHEMA_VERSION; snapshot_inner := s |}.

(** The file holds the snapshot of [s]. *)
Definition persisted (d : Disk) s : Prop :=
  ∃ bytes, to_vec_pretty (snapshot_of s) = Ok bytes ∧ disk_file d = Some bytes.

Lemma persist_durable_snapshot_spec fault d s d' r :
  persist_durable_snapshot fault d s = (d', r) →
  match r with
  | Ok _ => persisted d' s
  | Err _ => disk_file d' = disk_file d ∨ fault = Some SyncDirectoryFails ∧ persisted d' s
  end.
Proof.
  unfold persist_durable_snapshot. fold (snapshot_of s). intros Hp.
  destruct fault as [[]|]; try (by simplify_eq; left);
    (destruct (to_vec_pretty (snapshot_of s)) as [bytes|] eqn:Hb; [|by simplify_eq; left]);
    simpl in Hp; simplify_eq; simpl; auto; try (right; split; [done|]); try (exists bytes; done).
  destruct removed; auto.
Qed.

Lemma persist_if_durable_spec fault st s st' r :
  persist_if_durable fault st s = (st', r) →
  st_inner st' = st_inner st ∧ st_sent st' = st_sent st ∧
  st_durable st' = st_durable st ∧ st_poisoned st' = st_poisoned st ∧
  match r with
  | Ok _ => st_durable st = true → persisted (st_disk st') s
  | Err _ => disk_file (st_disk st') = disk_file (st_disk st) ∨
             fault = Some SyncDirectoryFails ∧ persisted (st_disk st') s
  end.
Proof.
  unfold persist_if_durable. destruct (st_durable st) eqn:Hd.
  - destruct (persist_durable_snapshot fault (st_disk st) s) as [d r'] eqn:Hp. intros [= <- <-].
    apply persist_durable_snapshot_spec in Hp. split_and!; try done. by destruct r'.
  - intros [= <- <-]. by split_and!.
Qed.

(** What one call does. *)
Inductive call_spec (fault : option IoFault) (op : StoreOp) (st st' : InMemoryStore)
  : StoreResult unit → Prop :=
  | call_ok es :
      exec_op op (st_inner st) = Ok (st_inner st', es) →
      global_log (st_sent st') = global_log (st_sent st) ++ es →
      (∀ r, repository_log r (st_sent st') =
         repository_log r (st_sent st) ++ List.filter (routed_to (st_inner st') r) es) →
      st_durable st' = st_durable st →
      (st_durable st = true → persisted (st_disk st') (st_inner st')) →
      call_spec fault op st st' (Ok tt)
  | call_err e :
      st_inner st' = st_inner st → st_sent st' = st_sent st → st_durable st' = st_durable st →
      disk_file (st_disk st') = disk_file (st_disk st) ∨
      (fault = Some SyncDirectoryFails ∧
       ∃ s es, exec_op op (st_inner st) = Ok (s, es) ∧ persisted (st_disk st') s) →
      call_spec fault op st st' (Err e).

Lemma exec_op_quiet op s s' es :
  exec_op op s = Ok (s', es) → publishes op = false → es = [].
Proof.
  intros Hop Hp. destruct op; try discriminate Hp; cbn [exec_op] in Hop; by apply quiet_Ok in Hop as [_ ->].
Qed.

Lemma run_op_sound fault op st st' r :
  run_op fault op st = (st', r) → call_spec fault op st st' r.
Proof.
  unfold run_op, lock. destruct (publishes op) eqn:Hpub; intros Hr.
  - unfold mutate_with_published_events, lock in Hr.
    destruct (st_poisoned st); [simplify_eq; by apply call_err; auto|].
    destruct (exec_op op (st_inner st)) as [[s es]|] eqn:Hop;
      [|simplify_eq; by apply call_err; auto].
    destruct (prepare_job_event_publish s es (st_broadcasters st)) as [b pr] eqn:Hprep.
    destruct pr as [ts|]; [|simplify_eq; by apply call_err; auto].
    destruct (persist_if_durable fault (with_broadcasters st b) s) as [st1 r1] eqn:Hper.
    apply persist_if_durable_spec in Hper as (Hi & Hs & Hd & Hpo & Hdisk).
    destruct r1 as [[]|]; simplify_eq; simpl in *.
    + apply prepare_targets_events in Hprep as [<- Hts]. eapply call_ok; [done| | |done..]; simpl.
      * by rewrite global_log_app, global_log_targets, Hs.
      * intros r. by rewrite repository_log_app, (repository_log_routed s), Hs.
    + apply call_err; try done. destruct Hdisk as [|[? ?]]; eauto 10.
  - unfold mutate, lock in Hr. destruct (st_poisoned st); [simplify_eq; by apply call_err; auto|].
    destruct (exec_op op (st_inner st)) as [[s es]|] eqn:Hop;
      [|simplify_eq; by apply call_err; auto].
    destruct (persist_if_durable fault st s) as [st1 r1] eqn:Hper.
    apply persist_if_durable_spec in Hper as (Hi & Hs & Hd & Hpo & Hdisk).
    pose proof (exec_op_quiet _ _ _ _ Hop Hpub) as ->.
    destruct r1 as [[]|]; simplify_eq; simpl in *.
    + eapply call_ok; [done| | |done..]; simpl; intros; by rewrite Hs, app_nil_r.
    + apply call_err; try done. destruct Hdisk as [|[? ?]]; eauto 10.
Qed.

(** No call poisons the lock. *)
Lemma mutate_poisoned {R} fault (tx : Tx R) st : st_poisoned (mutate fault tx st).1 = st_poisoned st.
Proof.
  unfold mutate. destruct (lock st); [|done]. destruct (tx a) as [[draft v]|]; [|done].
  destruct (persist_if_durable fault st draft) as [st1 r1] eqn:Hper.
  apply persist_if_durable_spec in Hper as (_ & _ & _ & Hp & _). by destruct r1.
Qed.

Lemma run_op_poisoned fault op st : st_poisoned (run_op fault op st).1 = st_poisoned st.
Proof.
  unfold run_op. destruct (publishes op); [|apply mutate_poisoned].
  unfold mutate_with_published_events. destruct (lock st); [|done].
  destruct (let? '(_, _) := exec_op op a in _) as [[[draft u] es]|]; [|done].
  destruct (prepare_job_event_publish draft es (st_broadcasters st)) as [b [ts|]]; [|done].
  destruct (persist_if_durable fault (with_broadcasters st b) draft) as [st1 r1] eqn:Hper.
  apply persist_if_durable_spec in Hper as (_ & _ & _ & Hp & _). by destruct r1.
Qed.

(** ** Runs *)

(** A store opened on a path where no snapshot exists yet. *)
Definition fresh_durable : InMemoryStore := {|
  st_inner := inner_default; st_poisoned := false; st_durable := true;
  st_disk := {| disk_file := None; disk_temporaries := [] |};
  st_broadcasters := ∅; st_sent := [] |}.

(** The state on disk is the acknowledged one, or one unacknowledged
    transaction ahead; before the first write there is none. *)
Definition durable_ok (st : InMemoryStore) : Prop :=
  (disk_file (st_disk st) = None ∧ st_inner st = inner_default) ∨
  ∃ s, persisted (st_disk st) s ∧ (s = st_inner st ∨ store_step (st_inner st) s).

Record run_wf (st : InMemoryStore) : Prop := {
  rn_durable : st_durable st = true;
  rn_reachable : rtc store_step inner_default (st_inner st);
  rn_disk : durable_ok st;
  rn_global : ledger_extends inner_default (st_inner st) (global_log (st_sent st));
  rn_repository r : repository_log r (st_sent st) =
    List.filter (routed_to (st_inner st) r) (global_log (st_sent st))
}.

Lemma fresh_run_wf : run_wf fresh_durable.
Proof. split; [done|apply rtc_refl|by left|by apply ledger_extends_same|done]. Qed.

(** The channel of a stored event never changes. *)
Lemma routed_to_stable s s' r e :
  store_wf s → store_step s s' → job_events_by_id s !! evt_id e = Some e →
  routed_to s' r e = routed_to s r e.
Proof.
  intros Hwf Hstep He. pose proof (store_step_wf _ _ Hwf Hstep) as Hwf'.
  destruct (rw_events _ (sw_refs _ Hwf) _ _ He) as [r0 Hr].
  assert (event_in s' e r0) as Hr'.
  { destruct Hstep as (op & es & Hop).
    eapply event_in_mono; [|done]. eauto using ledger_steps_le, exec_op_refines. }
  unfold routed_to. rewrite (event_repository_id_complete s e r0), (event_repository_id_complete s' e r0);
    try done; apply Hwf || apply Hwf'.
Qed.

Lemma filter_ext_elem {A} (f g : A → bool) l :
  (∀ x, x ∈ l → f x = g x) → List.filter f l = List.filter g l.
Proof. intros Hfg. apply List.filter_ext_in. intros x Hx. by apply Hfg, list_elem_of_In. Qed.

Lemma run_op_preserves fault op st : run_wf st → run_wf (run_op fault op st).1.
Proof.
  intros [Hd Hr Hdisk Hg Hrep]. destruct (run_op fault op st) as [st' r] eqn:Hrun. simpl.
  apply run_op_sound in Hrun as [es Hop Hlog Hchan Hdur Hper|e Hi Hs Hdur Hdisk'].
  - assert (store_step (st_inner st) (st_inner st')) as Hstep by (by do 2 eexists).
    split; [congruence|by eapply rtc_r| |rewrite Hlog|].
    + right. exists (st_inner st'). split; [by apply Hper|by left].
    + eauto using ledger_extends_trans, exec_op_extends.
    + intros r'. rewrite Hchan, Hrep, Hlog, List.filter_app. f_equal. apply filter_ext_elem.
      intros x (k & Hk)%list_elem_of_lookup. symmetry. apply routed_to_stable; try done.
      * by apply reachable_wf.
      * by destruct (le_new_events _ _ _ Hg _ _ Hk) as (_ & _ & ?).
  - split; rewrite ?Hi, ?Hs; try done; [congruence|].
    destruct Hdisk' as [Hf|(_ & s & es & Hop & Hper)].
    + destruct Hdisk as [[Hn Hdef]|(s & (bytes & Hb & Hfile) & Hs')]; [left|right].
      * split; congruence.
      * exists s. rewrite Hi. split; [|done]. exists bytes. split; congruence.
    + right. exists s. split; [done|]. right. rewrite Hi. by do 2 eexists.
Qed.

Lemma run_ops_wf l : run_wf (run_ops l fresh_durable).
Proof.
  unfold run_ops. generalize fresh_run_wf. generalize fresh_durable.
  induction l as [|[fault op] l IH]; intros st Hst; [done|]. by apply IH, run_op_preserves.
Qed.

Lemma persisted_load d s :
  persisted d s → load_durable_snapshot (disk_file d) = Ok s.
Proof.
  intros (bytes & Hb & Hf). unfold load_durable_snapshot. rewrite Hf. simpl.
  by rewrite (from_str_to_vec _ _ Hb).
Qed.

(** C3: a store call is atomic.  If it returns an error, the state and every
    channel are as before, and the file is untouched unless the directory sync
    after the rename failed, in which case it holds the rejected transaction.
    If it succeeds, the state is the transaction's result, the file (of a
    durable store) is the snapshot of that state, and the transaction's events
    were sent in order on the global channel and on their repository's. *)
Theorem store_calls_are_atomic fault op st :
  call_spec fault op st (run_op fault op st).1 (run_op fault op st).2.
Proof. apply run_op_sound. by destruct (run_op fault op st). Qed.

(** C4: crash recovery.  After any sequence of calls on a fresh durable store,
    with I/O failing at any step, the file either does not exist and nothing was
    ever acknowledged, or it loads to a well-formed state that contains
    everything acknowledged: the current state, or one transaction more. *)
Theorem crash_recovery_loses_nothing l :
  let st := run_ops l fresh_durable in
  (disk_file (st_disk st) = None ∧ st_inner st = inner_default) ∨
  (∃ s, load_durable_snapshot (disk_file (st_disk st)) = Ok s ∧
     (s = st_inner st ∨ store_step (st_inner st) s) ∧ store_wf s ∧ store_le (st_inner st) s).
Proof.
  intros st. destruct (run_ops_wf l) as [_ Hr Hdisk _ _]. fold st in Hr, Hdisk.
  pose proof (reachable_wf _ Hr) as Hwf.
  destruct Hdisk as [?|(s & Hper & Hs)]; [by left|right]. exists s.
  split; [by apply persisted_load|]. split; [done|].
  destruct Hs as [->|Hs]; [done|]. split; [by eapply store_step_wf|].
  apply store_steps_le; [done|]. by apply rtc_once.
Qed.

(** C8: subscribers see the ledger.  After any sequence of calls, with any
    failures, the global channel has carried exactly the events of the ledger,
    in sequence order, each once; and each repository channel exactly those of
    them that belong to the repository. *)
Theorem subscribers_see_the_ledger l :
  let st := run_ops l fresh_durable in
  ledger_extends inner_default (st_inner st) (global_log (st_sent st)) ∧
  ∀ r, repository_log r (st_sent st) =
    List.filter (routed_to (st_inner st) r) (global_log (st_sent st)).
Proof. intros st. by destruct (run_ops_wf l). Qed.

(** Publication never aborts a valid transaction: on a well-formed state,
    a transaction that passes validation commits unless the disk fails, and every
    event it appends is routed to the repository it belongs to. *)
Theorem valid_transactions_commit op st s' es bytes :
  store_wf (st_inner st) → st_poisoned st = false →
  exec_op op (st_inner st) = Ok (s', es) → to_vec_pretty (snapshot_of s') = Ok bytes →
  ∃ st', run_op None op st = (st', Ok tt) ∧ st_inner st' = s' ∧
    ∀ e, e ∈ es → ∃ r, event_in s' e r ∧ event_repository_id s' e = Ok (Some r).
Proof.
  intros Hwf Hpo Hop Hb.
  assert (store_wf s') as Hwf' by (eapply store_step_wf; [done|by do 2 eexists]).
  assert (∀ e, e ∈ es → job_events_by_id s' !! evt_id e = Some e) as Hes.
  { intros e (k & Hk)%list_elem_of_lookup.
    by destruct (le_new_events _ _ _ (exec_op_extends _ _ _ _ Hop) _ _ Hk) as (_ & _ & ?). }
  assert (∀ st1, ∃ st2, persist_if_durable None st1 s' = (st2, Ok tt)) as Hper.
  { intros st1. unfold persist_if_durable, persist_durable_snapshot. fold (snapshot_of s').
    rewrite Hb. destruct (st_durable st1); simpl; eauto. }
  assert (∃ st', run_op None op st = (st', Ok tt) ∧ st_inner st' = s') as (st' & Hrun & Hst').
  { unfold run_op. destruct (publishes op).
    - unfold mutate_with_published_events, lock. rewrite Hpo, Hop.
      destruct (prepare_publish_complete s' es (st_broadcasters st) Hwf' Hes) as (b & ts & -> & _).
      destruct (Hper (with_broadcasters st b)) as [st2 ->]. by eexists.
    - unfold mutate, lock. rewrite Hpo, Hop. destruct (Hper st) as [st2 ->]. by eexists. }
  exists st'. split_and!; try done. intros e He. destruct (rw_events _ (sw_refs _ Hwf') _ _ (Hes e He)) as [r Hr].
  exists r. split; [done|]. apply event_repository_id_complete; [apply Hwf'|done].
Qed.
End Calls.

(** ** Witnesses on the demo run *)

Module ShellDemo.
Import Demo.
#[local] Existing Instance sample_uuid_lib.
#[local] Existing Instance sample_registry.

#[export] Instance snapshot_type_eq_dec : EqDecision (@registry_snapshot sample_registry).
Proof. simpl. apply _. Defined.
#[export] Instance InMemoryInner_eq_dec : EqDecision InMemoryInner.
Proof. solve_decision. Defined.
#[export] Instance DurableStoreSnapshot_eq_dec : EqDecision DurableStoreSnapshot.
Proof. solve_decision. Defined.

(** A codec for the snapshots of the demo run: the text is the number of
    operations run, and other snapshots are refused. *)
Definition demo_snapshot (n : nat) : DurableStoreSnapshot := snapshot_of (demo_state n).
Definition demo_texts : list (string * nat) :=
  [("0", 0); ("1", 1); ("2", 2); ("3", 3); ("4", 4); ("5", 5); ("6", 6); ("7", 7)]%string.

Definition demo_codec : SnapshotCodec := {|
  to_vec_pretty x :=
    match find_bool (λ p, bool_decide (x = demo_snapshot p.2)) demo_texts with
    | Some p => Ok p.1
    | None => Err (msg "unknown snapshot")
    end;
  from_str text :=
    match find_bool (λ p, str_eqb text p.1) demo_texts with
    | Some p => Ok (demo_snapshot p.2)
    | None => Err (msg "unknown text")
    end |}.
#[local] Existing Instance demo_codec.

Lemma demo_codec_laws : SnapshotCodecLaws.
Proof.
  split. intros x bytes. cbn [to_vec_pretty from_str demo_codec].
  destruct (find_bool (λ p, bool_decide (x = demo_snapshot p.2)) demo_texts) as [[t n]|] eqn:Hf; [|done].
  apply find_bool_Some in Hf as [Hin Hx%bool_decide_eq_true]. simpl. intros [= <-]. simpl in Hx. subst x.
  unfold demo_texts in Hin.
  repeat (apply elem_of_cons in Hin as [[= -> ->]|Hin]; [reflexivity|]). by apply not_elem_of_nil in Hin.
Qed.

(** Six successful calls; the directory sync of the seventh fails. *)
Definition demo_calls : list (option IoFault * StoreOp) :=
  zip (replicate 6 None ++ [Some SyncDirectoryFails]) demo_ops.

Lemma crash_recovery_loses_nothing_witness :
  st_inner (run_ops demo_calls fresh_durable) = demo_state 6 ∧
  load_durable_snapshot (disk_file (st_disk (run_ops demo_calls fresh_durable))) = Ok (demo_state 7) ∧
  store_le (demo_state 6) (demo_state 7).
Proof.
  assert (st_inner (run_ops demo_calls fresh_durable) = demo_state 6) as Hi
    by (vm_compute; reflexivity).
  assert (load_durable_snapshot (disk_file (st_disk (run_ops demo_calls fresh_durable)))
          = Ok (demo_state 7)) as Hl by (vm_compute; reflexivity).
  split; [exact Hi|]. split; [exact Hl|].
  destruct (@crash_recovery_loses_nothing _ _ demo_codec demo_codec_laws demo_calls)
    as [[Hnone _]|(s & Hs & _ & _ & Hle)].
  - rewrite Hnone in Hl. discriminate Hl.
  - rewrite Hl in Hs. apply Ok_inj in Hs. rewrite Hi, <- Hs in Hle. exact Hle.
Defined.

Lemma valid_transactions_commit_witness :
  ∃ st', run_op None (OpRecordTerminal demo_terminal_request)
           (run_ops (take 6 demo_calls) fresh_durable) = (st', Ok tt) ∧ st_inner st' = demo_state 7.
Proof.
  destruct (valid_transactions_commit (OpRecordTerminal demo_terminal_request)
              (run_ops (take 6 demo_calls) fresh_durable) (demo_state 7) (drop 3 (demo_events 7)) "7")
    as (st' & Hr & Hi & _).
  - apply (store_steps_wf inner_default); [apply inner_default_wf|].
    apply (exec_ops_steps (take 6 demo_ops) _ _ (demo_events 6)). vm_compute. reflexivity.
  - reflexivity.
  - vm_compute. reflexivity.
  - vm_compute. reflexivity.
  - exists st'. split; [exact Hr|exact Hi].
Defined.
End ShellDemo.
