(* ===== verification/Backend.v ===== *)
(** * Backend: the store as the runtime sees it

    The runtime is generic in the store (trait [SecretaryStore]): it only ever
    asks it to run one of the transactions of [Store] or to read.  [StoreBackend]
    is that interface and [StoreBackendLaws] its contract.  The daemon's threads
    share one [InMemoryStore]; [SharedStore] is that store with the calls the
    other threads make before each of ours and the I/O faults of the calls. *)
From S2P Require Import Prelude Text Domain DomainLaws Policy StoreTypes StoreValidate StoreJobs.
From S2P Require Import Store StoreQuery StoreLoad Ledger StoreRefine.
From S2P Require Import StoreGuarantees StoreShell ShellLaws.

Class StoreBackend (S : Type) `{UuidLib} `{RegistryPort} := {
  backend_view : S → InMemoryInner;
  backend_mutate : ∀ {R}, Tx R → S → S * StoreResult R;
  backend_publish : ∀ {R}, PubTx R → S → S * StoreResult R;
  backend_read : ∀ {R}, (InMemoryInner → StoreResult R) → S → S * StoreResult R;
  (** Time passes without a call of ours. *)
  backend_yield : S → S
}.

(** Every call happens atomically at some later state of the store: [s1] is the
    state the other clients left.  A call that fails changes nothing. *)
Class StoreBackendLaws (S : Type) `{StoreBackend S} : Prop := {
  mutate_law {R} (tx : Tx R) s s' r :
    backend_mutate tx s = (s', r) →
    ∃ s1, rtc store_step (backend_view s) s1 ∧
      match r with
      | Ok v => tx s1 = Ok (backend_view s', v)
      | Err _ => backend_view s' = s1
      end;
  publish_law {R} (tx : PubTx R) s s' r :
    backend_publish tx s = (s', r) →
    ∃ s1, rtc store_step (backend_view s) s1 ∧
      match r with
      | Ok v => ∃ es, tx s1 = Ok (backend_view s', v, es)
      | Err _ => backend_view s' = s1
      end;
  read_law {R} (f : InMemoryInner → StoreResult R) s s' r :
    backend_read f s = (s', r) →
    rtc store_step (backend_view s) (backend_view s') ∧
    match r with Ok v => f (backend_view s') = Ok v | Err _ => True end;
  yield_law s : rtc store_step (backend_view s) (backend_view (backend_yield s))
}.

(** ** The shared store *)

Section Shared.
Context `{UuidLib} `{RegistryPort} `{!SnapshotCodec}.

(** One entry per call or pause of ours still to come: what the other threads do
    before it, and the I/O fault it meets. *)
Record SharedStore := {
  sh_store : InMemoryStore;
  sh_schedule : list (list (option IoFault * StoreOp) * option IoFault)
}.

(** Lets the other threads run and returns the fault of our call. *)
Definition interleave (s : SharedStore) : InMemoryStore * option IoFault *
  list (list (option IoFault * StoreOp) * option IoFault) :=
  match sh_schedule s with
  | [] => (sh_store s, None, [])
  | (others, fault) :: schedule => (run_ops others (sh_store s), fault, schedule)
  end.

#[export] Instance shared_backend : StoreBackend SharedStore := {|
  backend_view s := st_inner (sh_store s);
  backend_mutate _ tx s :=
    let '(st, fault, schedule) := interleave s in
    let '(st, r) := mutate fault tx st in
    ({| sh_store := st; sh_schedule := schedule |}, r);
  backend_publish _ tx s :=
    let '(st, fault, schedule) := interleave s in
    let '(st, r) := mutate_with_published_events fault tx st in
    ({| sh_store := st; sh_schedule := schedule |}, r);
  backend_read _ f s :=
    let '(st, _, schedule) := interleave s in
    ({| sh_store := st; sh_schedule := schedule |}, let? inner := lock st in f inner);
  backend_yield s :=
    let '(st, _, schedule) := interleave s in {| sh_store := st; sh_schedule := schedule |}
|}.

Lemma run_op_steps fault op st :
  rtc store_step (st_inner st) (st_inner (run_op fault op st).1).
Proof.
  destruct (run_op fault op st) as [st' r] eqn:E. apply run_op_sound in E. simpl.
  destruct E as [es Hop|e ->]; [|done]. apply rtc_once. by exists op, es.
Qed.

Lemma run_ops_steps l st : rtc store_step (st_inner st) (st_inner (run_ops l st)).
Proof.
  revert st; induction l as [|[fault op] l IH]; intros st; simpl; [done|].
  etrans; [apply (run_op_steps fault op)|apply IH].
Qed.

Lemma interleave_steps s st fault schedule :
  interleave s = (st, fault, schedule) → rtc store_step (st_inner (sh_store s)) (st_inner st).
Proof.
  unfold interleave. destruct (sh_schedule s) as [|[others f] l]; intros [= <- <- <-];
    [done|apply run_ops_steps].
Qed.

Lemma mutate_spec {R} fault (tx : Tx R) st st' r :
  mutate fault tx st = (st', r) →
  match r with
  | Ok v => tx (st_inner st) = Ok (st_inner st', v)
  | Err _ => st_inner st' = st_inner st
  end.
Proof.
  unfold mutate, lock. destruct (st_poisoned st); [by intros [= <- <-]|].
  destruct (tx (st_inner st)) as [[s v]|]; [|by intros [= <- <-]].
  destruct (persist_if_durable fault st s) as [st1 r1] eqn:Hper.
  apply persist_if_durable_spec in Hper as (Hi & _).
  destruct r1; intros [= <- <-]; done.
Qed.

Lemma mutate_published_spec {R} fault (tx : PubTx R) st st' r :
  mutate_with_published_events fault tx st = (st', r) →
  match r with
  | Ok v => ∃ es, tx (st_inner st) = Ok (st_inner st', v, es)
  | Err _ => st_inner st' = st_inner st
  end.
Proof.
  unfold mutate_with_published_events, lock. destruct (st_poisoned st); [by intros [= <- <-]|].
  destruct (tx (st_inner st)) as [[[s v] es]|]; [|by intros [= <- <-]].
  destruct (prepare_job_event_publish _ _ _) as [b [ts|]]; [|by intros [= <- <-]].
  destruct (persist_if_durable fault (with_broadcasters st b) s) as [st1 r1] eqn:Hper.
  apply persist_if_durable_spec in Hper as (Hi & _).
  destruct r1; intros [= <- <-]; [by exists es|done].
Qed.

#[export] Instance shared_backend_laws : StoreBackendLaws SharedStore.
Proof.
  split; [intros R tx s s' r; simpl..|intros s; simpl];
    destruct (interleave s) as [[st fault] schedule] eqn:Hi; apply interleave_steps in Hi.
  - destruct (mutate fault tx st) as [st1 r1] eqn:Hm. apply mutate_spec in Hm.
    intros [= <- <-]. by exists (st_inner st).
  - destruct (mutate_with_published_events fault tx st) as [st1 r1] eqn:Hm.
    apply mutate_published_spec in Hm. intros [= <- <-]. by exists (st_inner st).
  - intros [= <- <-]. split; [done|]. simpl. unfold lock.
    destruct (st_poisoned st); simpl; [done|]. by destruct (tx (st_inner st)).
  - done.
Qed.
End Shared.
