(* ===== verification/Runtime.v ===== *)
(** * Runtime: running tool jobs ([runtime.rs])

    [run_tool_job_with_finalizer] takes a request through the store, the policy
    engine and a tool.  The store, the artifact store, the renderer and the tool
    are interfaces, as in the source; what the code draws from outside (UUIDs
    and the clock) comes from two streams, about which nothing is assumed: UUIDs
    may repeat and the clock may go backwards. *)
From S2P Require Import Prelude Text Domain DomainLaws Policy StoreTypes Settings Truncation Spill.
From S2P Require Import StoreValidate StoreJobs Store StoreQuery StoreGuarantees.
From S2P Require Import Backend.

Definition RUNTIME_SCHEMA_VERSION : N := 1.

(** ** Requests *)

Record RuntimeArtifactSpillover := {
  spill_root_dir : string;
  spill_options : ToolResultSpilloverOptions
}.

Record RuntimeJobRequest := {
  req_requester : Actor;
  req_repository_id : RepositoryId;
  req_kind : JobKind;
  req_goal : option string;
  req_message : option string;
  req_resource_scope : ResourceScope;
  req_requested_capabilities : list string;
  req_approval_available : bool;
  req_render_options : option RenderOptions;
  req_tool_output_defaults : ToolOutputDefaults;
  req_artifact_spillover : option RuntimeArtifactSpillover
}.

Definition normalize_optional_runtime_goal (goal : option string) : option string :=
  match goal with
  | Some goal => let trimmed := trim goal in
                 if str_is_empty trimmed then None else Some trimmed
  | None => None
  end.

Definition request_new (requester : Actor) (repository_id : RepositoryId) (kind : JobKind)
  (goal : option string) : RuntimeJobRequest := {|
  req_requester := requester;
  req_repository_id := repository_id;
  req_kind := kind;
  req_goal := normalize_optional_runtime_goal goal;
  req_message := None;
  req_resource_scope := {| scope_kind := "repository"; scope_value := "." |};
  req_requested_capabilities := [];
  req_approval_available := true;
  req_render_options := None;
  req_tool_output_defaults := defaults_default;
  req_artifact_spillover := None |}.

(** [value.map(str::trim).filter(|value| !value.is_empty())] *)
Definition non_blank (value : option string) : option string :=
  opt_filter (λ v, negb (str_is_empty v)) (trim <$> value).

Definition display_optional_runtime_text (value : option string) : string :=
  match non_blank value with Some value => value | None => "<unset>" end.
Definition display_goal : option string → string := display_optional_runtime_text.
Definition display_message : option string → string := display_optional_runtime_text.
Definition summarize_goal (goal : option string) : string := "goal=" +:+ display_goal goal.

(** ** Errors *)

Inductive ToolOutputRenderError :=
  | UnsupportedFormat (format : OutputFormat)
  | JsonSerialize (reason : Message)
  | OversizeOutput (reason : Message).

Inductive RuntimeError :=
  | RtStore (error : StoreError)
  | RtJobStatusTransition (error : JobStatusTransitionError)
  | RtToolOutputRender (error : ToolOutputRenderError)
  | RtArtifact (error : ArtifactError)
  | RtInvalidToolRequest (reason : Message)
  | RtInvalidToolResult (reason : Message)
  | RtToolOutputTooLarge (reason : Message).

(** ** UUIDs and the clock *)

Class Entropy := {
  uuid_at : nat → string;
  now_at : nat → LedgerTimestamp
}.

(** How many of each were drawn. *)
Record Sources := { src_uuids : nat; src_clock : nat }.

Definition draw_uuid `{Entropy} (s : Sources) : Sources * string :=
  ({| src_uuids := S (src_uuids s); src_clock := src_clock s |}, uuid_at (src_uuids s)).
Definition draw_now `{Entropy} (s : Sources) : Sources * LedgerTimestamp :=
  ({| src_uuids := src_uuids s; src_clock := S (src_clock s) |}, now_at (src_clock s)).

(** ** Tools *)

Class RuntimeTool (T : Type) := {
  tool_id : T → string;
  requested_capability : T → string;
  declared_effect : T → string;
  args_summary : T → RuntimeJobRequest → string;
  resolved_paths : T → RuntimeJobRequest → list ResolvedPath;
  execute : T → ToolInvocation → RuntimeJobRequest → Sources → Sources * ToolResult
}.

Inductive EchoTool := MkEchoTool.

Definition echo_args_summary (request : RuntimeJobRequest) : string :=
  match non_blank (req_goal request) with
  | Some goal => summarize_goal (Some goal)
  | None => display_message (req_message request)
  end.

Definition string_field (key value : string) : ToolResultField :=
  {| field_key := key; field_value := SvString value |}.

Definition echo_fields (request : RuntimeJobRequest) : list ToolResultField :=
  let goal := non_blank (req_goal request) in
  let message := non_blank (req_message request) in
  let summary := match goal with
                 | Some goal => "echoed goal: " +:+ display_goal (Some goal)
                 | None => "echoed message: " +:+ display_message message
                 end in
  [string_field "summary" summary] ++
  match goal, message with
  | Some goal, _ => [string_field "goal" goal]
  | None, Some message => [string_field "message" message]
  | None, None => []
  end ++
  [string_field "policy.state" "recorded_before_execution"].

Definition echo_execute `{Entropy} (invocation : ToolInvocation) (request : RuntimeJobRequest)
  (s : Sources) : Sources * ToolResult :=
  let '(s, uuid) := draw_uuid s in
  let '(s, now) := draw_now s in
  (s, {| res_id := id_new ToolResultIdKind uuid; res_schema_version := RUNTIME_SCHEMA_VERSION;
         res_created_at := now; res_invocation_id := inv_id invocation;
         res_tool_id := inv_tool_id invocation; res_status := TrSucceeded;
         res_schema_ref := Some "tool_result.secretary.echo.v2"; res_fields := echo_fields request;
         res_evidence_refs := []; res_output_refs := []; res_truncation := None;
         res_redactions := [] |}).

#[export] Instance echo_tool `{Entropy} : RuntimeTool EchoTool := {|
  tool_id _ := "secretary.echo";
  requested_capability _ := "capability.discovery";
  declared_effect _ := "produce a deterministic contract result without external effects";
  args_summary _ := echo_args_summary;
  resolved_paths _ _ := [];
  execute _ := echo_execute |}.

(** ** The renderer and the artifact store *)

(** [render_tool_result_with_policy] of [tool_output.rs]. *)
Class Renderer := {
  render_tool_result_with_policy :
    ToolResult → ToolOutputRenderPolicy → result ToolOutputRenderError RenderedToolOutput
}.

(** [ArtifactStoreConfig::default_local] reads the environment; the handle of
    [LocalArtifactStore] is its root directory. *)
Class ArtifactDefaults := { default_local_root : string }.

Definition spillover_local_default `{ArtifactDefaults} (max_inline_bytes : N)
  : RuntimeArtifactSpillover :=
  {| spill_root_dir := default_local_root; spill_options := spillover_options_new max_inline_bytes |}.

(** ** Checks of the request and of the result *)

Definition normalized_requested_capability (capability : string) : string :=
  let trimmed := trim capability in
  match canonicalize_job_requested_capability trimmed with
  | Some canonical => canonical
  | None => trimmed
  end.

Definition validate_requested_capability_hints (requested_capabilities : list string)
  (enforced_capability : string) : result RuntimeError unit :=
  reject? existsb (λ capability, str_is_empty (trim capability)) requested_capabilities
    with RtInvalidToolRequest (msg "requested_capabilities must not contain empty entries") in
  match find_bool (λ capability, negb (str_eqb capability enforced_capability))
          (map normalized_requested_capability requested_capabilities) with
  | Some mismatched =>
      Err (RtInvalidToolRequest
        (Fmt "requested_capabilities contains {mismatched:?}, but tool requires {enforced_capability:?}"
           [ADbgStr mismatched; ADbgStr enforced_capability]))
  | None => Ok tt
  end.

Definition validate_runtime_tool_result (invocation : ToolInvocation) (r : ToolResult)
  : result RuntimeError unit :=
  reject? negb (bool_decide (res_invocation_id r = inv_id invocation))
    with RtInvalidToolResult
      (Fmt "tool result invocation_id {} does not match active invocation {}"
         [AStr (as_str (res_invocation_id r)); AStr (as_str (inv_id invocation))]) in
  reject? negb (str_eqb (res_tool_id r) (inv_tool_id invocation))
    with RtInvalidToolResult
      (Fmt "tool result tool_id {} does not match active invocation tool_id {}"
         [AStr (res_tool_id r); AStr (inv_tool_id invocation)]) in
  Ok tt.

Definition policy_summary (policy_decision : PolicyDecision) : PolicySummary := {|
  ps_decision_id := Some (pol_id policy_decision); ps_outcome := pol_outcome policy_decision;
  ps_risk_tier := pol_risk_tier policy_decision; ps_reason_code := pol_reason_code policy_decision |}.

Definition policy_event_severity (outcome : PolicyOutcome) : EventSeverity :=
  match outcome with
  | Allowed | Audited => SevInfo
  | NeedsApproval => SevWarning
  | PolicyBlocked => SevError
  end.

Definition tool_result_event_severity (status : ToolResultStatus) : EventSeverity :=
  match status with
  | TrSucceeded => SevInfo
  | TrFailed | TrTimedOut | TrCanceled => SevError
  end.

(** [{:?}] of the status. *)
Definition status_debug (status : ToolResultStatus) : string :=
  match status with
  | TrSucceeded => "Succeeded"
  | TrFailed => "Failed"
  | TrCanceled => "Canceled"
  | TrTimedOut => "TimedOut"
  end.

(** ** Event references *)

Definition refs_for_job (job : JobRecord) : EventRefs := {|
  ref_repository_id := Some (job_repository_id job); ref_job_id := Some (job_id job);
  ref_policy_decision_id := None; ref_lock_decision_id := None; ref_tool_invocation_id := None;
  ref_tool_result_id := None; ref_content_type := None; ref_audit_record_id := None;
  ref_output_refs := []; ref_artifact_refs := [] |}.

Definition refs_for_policy (job : JobRecord) (d : PolicyDecision) : EventRefs := {|
  ref_repository_id := Some (job_repository_id job); ref_job_id := Some (job_id job);
  ref_policy_decision_id := Some (pol_id d); ref_lock_decision_id := None;
  ref_tool_invocation_id := None; ref_tool_result_id := None; ref_content_type := None;
  ref_audit_record_id := None; ref_output_refs := []; ref_artifact_refs := [] |}.

Definition refs_for_invocation (job : JobRecord) (d : PolicyDecision) (i : ToolInvocation)
  : EventRefs := {|
  ref_repository_id := Some (job_repository_id job); ref_job_id := Some (job_id job);
  ref_policy_decision_id := Some (pol_id d); ref_lock_decision_id := None;
  ref_tool_invocation_id := Some (inv_id i); ref_tool_result_id := None; ref_content_type := None;
  ref_audit_record_id := None; ref_output_refs := []; ref_artifact_refs := [] |}.

Definition refs_for_result (job : JobRecord) (d : PolicyDecision) (i : ToolInvocation)
  (r : ToolResult) : EventRefs := {|
  ref_repository_id := Some (job_repository_id job); ref_job_id := Some (job_id job);
  ref_policy_decision_id := Some (pol_id d); ref_lock_decision_id := None;
  ref_tool_invocation_id := Some (inv_id i); ref_tool_result_id := Some (res_id r);
  ref_content_type := Some "application/json"; ref_audit_record_id := None;
  ref_output_refs := []; ref_artifact_refs := [] |}.

Definition refs_for_audit (job : JobRecord) (d : PolicyDecision) (i : ToolInvocation)
  (r : ToolResult) (a : AuditRecord) : EventRefs := {|
  ref_repository_id := Some (job_repository_id job); ref_job_id := Some (job_id job);
  ref_policy_decision_id := Some (pol_id d); ref_lock_decision_id := None;
  ref_tool_invocation_id := Some (inv_id i); ref_tool_result_id := Some (res_id r);
  ref_content_type := Some "application/json"; ref_audit_record_id := Some (aud_id a);
  ref_output_refs := []; ref_artifact_refs := [] |}.
