(* ===== verification/RunJob.v ===== *)
(** * RunJob: the job runner and the lifecycle service ([runtime.rs])

    [run_tool_job_with_finalizer] in the order of the source, split at its
    stages: submit, decide, stop or start, invoke, bound the output, commit.
    Each stage is a computation over the world: the store, the files, the
    UUID and clock streams, and a record of the tool executions, each with the
    state of the store when it started. *)
From S2P Require Import Prelude Text Domain DomainLaws Policy StoreTypes Settings Truncation Spill.
From S2P Require Import StoreValidate StoreJobs Store StoreQuery StoreGuarantees.
From S2P Require Import Backend Runtime.

Section World.
Context `{UuidLib} `{RegistryPort}.
Context (S F : Type).

Record World := {
  w_store : S;
  w_files : F;
  w_sources : Sources;
  w_executed : list (ToolInvocation * InMemoryInner)
}.

Definition M (A : Type) : Type := World → World * result RuntimeError A.
End World.
Arguments w_store {_ _ _}.
Arguments w_files {_ _ _}.
Arguments w_sources {_ _ _}.
Arguments w_executed {_ _ _}.
Arguments Build_World {_ _ _}.

(** [let x = m?; k] over the world. *)
Notation "'let!' x := m 'in' k" :=
  (λ w, match m w with (w, Ok x) => k w | (w, Err e) => (w, Err e) end)
  (at level 10, x name, m at level 200, k at level 200) : secretary_scope.
Notation "'let!' ' p := m 'in' k" :=
  (λ w, match m w with (w, Ok p) => k w | (w, Err e) => (w, Err e) end)
  (at level 10, p pattern, m at level 200, k at level 200) : secretary_scope.

Section Run.
Context `{UuidLib} `{RegistryPort} `{Entropy} `{Renderer} `{ArtifactDefaults}.
Context {S F : Type} `{!StoreBackend S} `{!ArtifactWriter string F}.
Abbreviation M := (M S F).
Abbreviation World := (World S F).

Definition ret {A} (a : A) : M A := λ w, (w, Ok a).
Definition fail {A} (e : RuntimeError) : M A := λ w, (w, Err e).
Definition lift {A} (r : result RuntimeError A) : M A := λ w, (w, r).

Definition with_store (w : World) (s : S) : World :=
  Build_World s (w_files w) (w_sources w) (w_executed w).
Definition with_files (w : World) (f : F) : World :=
  Build_World (w_store w) f (w_sources w) (w_executed w).
Definition with_sources (w : World) (s : Sources) : World :=
  Build_World (w_store w) (w_files w) s (w_executed w).

Definition uuid_new : M string := λ w,
  let '(s, u) := draw_uuid (w_sources w) in (with_sources w s, Ok u).
Definition timestamp_now : M LedgerTimestamp := λ w,
  let '(s, t) := draw_now (w_sources w) in (with_sources w s, Ok t).

Definition call_mutate {R} (tx : Tx R) : M R := λ w,
  let '(s, r) := backend_mutate tx (w_store w) in (with_store w s, map_err RtStore r).
Definition call_publish {R} (tx : PubTx R) : M R := λ w,
  let '(s, r) := backend_publish tx (w_store w) in (with_store w s, map_err RtStore r).
Definition call_read {R} (f : InMemoryInner → StoreResult R) : M R := λ w,
  let '(s, r) := backend_read f (w_store w) in (with_store w s, map_err RtStore r).

Definition transition (job : JobRecord) (next : JobStatus) (at_ : LedgerTimestamp) : M JobRecord :=
  lift (map_err RtJobStatusTransition (transition_status job next at_)).

Definition job_event (subject : EventSubject) (kind : JobEventKind) (severity : EventSeverity)
  (public_message : string) (refs : EventRefs) : M JobEvent :=
  let! uuid := uuid_new in
  let! now := timestamp_now in
  ret {| evt_id := id_new JobEventIdKind uuid; evt_schema_version := RUNTIME_SCHEMA_VERSION;
         evt_sequence_number := 0; evt_created_at := now; evt_subject := subject;
         evt_kind := kind; evt_severity := severity; evt_public_message := public_message;
         evt_refs := refs; evt_redactions := [] |}.

(** [append_job_event_and_update_job] followed by [events.push] and by taking
    its id as the job's latest event. *)
Definition record_event (job : JobRecord) (events : list JobEvent) (event : JobEvent)
  : M (JobRecord * list JobEvent) :=
  let! event := call_publish (append_job_event_and_update_job job event) in
  ret (job_set_latest_event job (Some (evt_id event)), events ++ [event]).

Definition append_failed_job_event (job : JobRecord) (events : list JobEvent)
  (public_message : string) (refs : EventRefs) : M (JobRecord * list JobEvent) :=
  let! now := timestamp_now in
  let! failed := transition job Failed now in
  let! failure_event := job_event (subject_job (job_id failed))
      (JobStatusChanged (job_status job) Failed) SevError public_message refs in
  record_event failed events failure_event.

(** ** Stages *)

(** The job as stored, with what the ledger got for it. *)
Record Stage := { stg_job : JobRecord; stg_events : list JobEvent }.

Definition get_repository (i : RepositoryId) (inner : InMemoryInner)
  : StoreResult RepositoryRecord := get_record (repositories inner) i "repositories".
Definition get_job (i : JobId) (inner : InMemoryInner) : StoreResult JobRecord :=
  get_record (jobs inner) i "jobs".

Definition submit_job (request : RuntimeJobRequest) : M Stage :=
  let! now := timestamp_now in
  let! uuid := uuid_new in
  let job := job_record_new uuid (req_requester request) (req_repository_id request)
               (req_kind request) (req_goal request) now in
  let! initial_event := job_event (subject_job (job_id job)) JobSubmitted SevInfo "job submitted"
      (refs_for_job job) in
  let! initial_event := call_publish (create_job_with_initial_event job initial_event) in
  ret {| stg_job := job_set_latest_event job (Some (evt_id initial_event));
         stg_events := [initial_event] |}.

Definition policy_input {T} `{RuntimeTool T} (request : RuntimeJobRequest) (tool : T)
  (capability : string) (repository : RepositoryRecord) : PolicyInput :=
  with_tool_id
    (policy_input_new (req_requester request) (req_repository_id request) capability
       (req_resource_scope request) (declared_effect tool) (repo_trust_state repository)
       (req_approval_available request) DEFAULT_POLICY_VERSION)
    (tool_id tool).

Definition decide_policy {P} `{PolicyEngine P} (engine : P) (input : PolicyInput) (st : Stage)
  : M (PolicyDecision * Stage) :=
  let! uuid := uuid_new in
  let! now := timestamp_now in
  let policy_decision := engine_evaluate engine uuid now input in
  let! _ := call_mutate (create_policy_decision policy_decision) in
  let job := job_set_policy_summary (stg_job st) (Some (policy_summary policy_decision)) in
  let! policy_event := job_event (subject_policy_decision (pol_id policy_decision))
      (PolicyDecided (pol_outcome policy_decision))
      (policy_event_severity (pol_outcome policy_decision)) (pol_user_reason policy_decision)
      (refs_for_policy job policy_decision) in
  let! '(job, events) := record_event job (stg_events st) policy_event in
  ret (policy_decision, {| stg_job := job; stg_events := events |}).

Definition Finalizer : Type := RuntimeJobReceipt → option (string * SubmitJobIdempotencyRecord).

(** [submit_job_idempotency.take().and_then(|finalizer| finalizer(&receipt))],
    for a succeeded job only. *)
Definition finalize (finalizer : option Finalizer) (receipt : RuntimeJobReceipt)
  : option (string * SubmitJobIdempotencyRecord) :=
  if bool_decide (job_status (rcp_job receipt) = Succeeded)
  then match finalizer with Some finalizer => finalizer receipt | None => None end
  else None.

(** The early return for [Blocked] and [NeedsApproval]. *)
Definition stop_job (policy_decision : PolicyDecision) (finalizer : option Finalizer) (st : Stage)
  : M RuntimeJobReceipt :=
  let previous := job_status (stg_job st) in
  let! now := timestamp_now in
  let! job := transition (stg_job st) Blocked now in
  let! status_event := job_event (subject_job (job_id job)) (JobStatusChanged previous Blocked)
      SevWarning "job stopped before tool execution" (refs_for_policy job policy_decision) in
  let final_receipt := {|
    rcp_job := job_set_latest_event job (Some (evt_id status_event));
    rcp_policy_decision := policy_decision; rcp_tool_invocation := None; rcp_tool_result := None;
    rcp_rendered_output := None; rcp_audit_record := None;
    rcp_events := stg_events st ++ [status_event] |} in
  let! persisted_event :=
    call_publish (match finalize finalizer final_receipt with
                  | Some (idempotency_key, idempotency_record) =>
                      append_job_event_and_update_job_with_submit_job_idempotency job status_event
                        idempotency_key idempotency_record
                  | None => append_job_event_and_update_job job status_event
                  end) in
  ret (rcp_set final_receipt (rcp_job final_receipt)
         (set_from_end 1 persisted_event (rcp_events final_receipt))).

Definition start_job (policy_decision : PolicyDecision) (st : Stage) : M Stage :=
  let previous := job_status (stg_job st) in
  let! now := timestamp_now in
  let! job := transition (stg_job st) Running now in
  let! running_event := job_event (subject_job (job_id job)) (JobStatusChanged previous Running)
      SevInfo "job running" (refs_for_policy job policy_decision) in
  let! '(job, events) := record_event job (stg_events st) running_event in
  ret {| stg_job := job; stg_events := events |}.

Definition record_invocation {T} `{RuntimeTool T} (request : RuntimeJobRequest) (tool : T)
  (capability : string) (policy_decision : PolicyDecision) (st : Stage)
  : M (ToolInvocation * Stage) :=
  let job := stg_job st in
  let! uuid := uuid_new in
  let! now := timestamp_now in
  let invocation := {|
    inv_id := id_new ToolInvocationIdKind uuid; inv_schema_version := RUNTIME_SCHEMA_VERSION;
    inv_created_at := now; inv_job_id := job_id job;
    inv_repository_id := req_repository_id request;
    inv_policy_decision_id := pol_id policy_decision; inv_actor := req_requester request;
    inv_tool_id := tool_id tool; inv_requested_capability := capability;
    inv_args_summary := args_summary tool request;
    inv_resolved_paths := resolved_paths tool request; inv_timeout_millis := None;
    inv_redactions := [] |} in
  let! _ := call_mutate (create_tool_invocation invocation) in
  let! invocation_event := job_event (subject_tool_invocation (inv_id invocation))
      (ToolInvoked (inv_tool_id invocation)) SevInfo "tool invoked"
      (refs_for_invocation job policy_decision invocation) in
  let! '(job, events) := record_event job (stg_events st) invocation_event in
  ret (invocation, {| stg_job := job; stg_events := events |}).

(** [tool.execute(&invocation, &request)]; other threads may have acted since the
    event of the invocation was recorded. *)
Definition execute_tool {T} `{RuntimeTool T} (tool : T) (invocation : ToolInvocation)
  (request : RuntimeJobRequest) : M ToolResult := λ w,
  let store := backend_yield (w_store w) in
  let '(s, r) := execute tool invocation request (w_sources w) in
  (Build_World store (w_files w) s (w_executed w ++ [(invocation, backend_view store)]), Ok r).

(** [append_failed_job_event(..)?; return Err(error)] *)
Definition abandon {A} (policy_decision : PolicyDecision) (invocation : ToolInvocation) (st : Stage)
  (public_message : string) (error : RuntimeError) : M A :=
  let! _ := append_failed_job_event (stg_job st) (stg_events st) public_message
              (refs_for_invocation (stg_job st) policy_decision invocation) in
  fail error.

Definition spill (spillover : RuntimeArtifactSpillover) (scope : string) (result : ToolResult)
  : M (ToolResult * Prelude.result ArtifactError (option ToolResultSpilloverReport)) := λ w,
  let '(f, result, r) := spill_large_tool_result_fields result (spill_root_dir spillover) scope
                           (spill_options spillover) (w_files w) in
  (with_files w f, Ok (result, r)).

(** The result to store and whether it must be rendered again. *)
Definition spill_output (policy_decision : PolicyDecision) (invocation : ToolInvocation)
  (st : Stage) (spillover : RuntimeArtifactSpillover) (scope : string) (result : ToolResult)
  : M (ToolResult * bool) :=
  let! '(result, report) := spill spillover scope result in
  match report with
  | Ok report => ret (result, is_some report)
  | Err error =>
      abandon policy_decision invocation st "artifact spillover failed" (RtArtifact error)
  end.

Definition reject_if_oversized (policy_decision : PolicyDecision) (invocation : ToolInvocation)
  (st : Stage) (request : RuntimeJobRequest) (result : ToolResult) : M unit :=
  match reject_oversized_tool_result result (req_tool_output_defaults request) with
  | Some reason =>
      abandon policy_decision invocation st "tool result exceeded output size limits"
        (RtToolOutputTooLarge reason)
  | None => ret tt
  end.

Definition bound_output (policy_decision : PolicyDecision) (invocation : ToolInvocation)
  (st : Stage) (request : RuntimeJobRequest) (scope : string) (result : ToolResult)
  : M (ToolResult * bool) :=
  let defaults := req_tool_output_defaults request in
  let max_inline_bytes := max_inline_bytes_as_usize (def_max_inline_bytes defaults) in
  match req_artifact_spillover request with
  | Some spillover => spill_output policy_decision invocation st spillover scope result
  | None =>
      match def_oversize_policy defaults with
      | SpillToArtifactRef =>
          spill_output policy_decision invocation st (spillover_local_default max_inline_bytes)
            scope result
      | RejectOversize =>
          let! _ := reject_if_oversized policy_decision invocation st request result in
          ret (result, false)
      | TruncateWithMetadata =>
          match truncate_oversized_tool_result_fields result max_inline_bytes with
          | (result, Some report) =>
              ret (res_set_truncation result
                     (Some (merge_runtime_truncation (res_truncation result)
                              (rep_original_bytes report) (rep_retained_bytes report)
                              "runtime truncate_with_metadata")), true)
          | (result, None) => ret (result, false)
          end
      end
  end.

(** [render_tool_result_with_policy], failing the job on an error. *)
Definition render_or_abandon (policy_decision : PolicyDecision) (invocation : ToolInvocation)
  (st : Stage) (result : ToolResult) (policy : ToolOutputRenderPolicy) : M RenderedToolOutput :=
  match render_tool_result_with_policy result policy with
  | Ok rendered_output => ret rendered_output
  | Err error =>
      abandon policy_decision invocation st "tool output rendering failed"
        (RtToolOutputRender error)
  end.

(** What the runner holds once the tool has run. *)
Record Completion := {
  cmp_decision : PolicyDecision;
  cmp_invocation : ToolInvocation;
  cmp_result : ToolResult;
  cmp_rendered : RenderedToolOutput;
  cmp_rerender : bool
}.

(** From the tool's result to the bounded and first rendered output. *)
Definition process_result (request : RuntimeJobRequest) (repository : RepositoryRecord)
  (policy_decision : PolicyDecision) (invocation : ToolInvocation) (st : Stage)
  (result : ToolResult) : M Completion :=
  let! _ := (match validate_runtime_tool_result invocation result with
             | Err error =>
                 abandon policy_decision invocation st "tool result rejected" error
             | Ok _ => ret tt
             end) in
  let render_policy := render_policy_with_render_options (req_tool_output_defaults request)
                         (req_render_options request) in
  let! _ := (if bool_decide (def_oversize_policy (req_tool_output_defaults request)
                             = RejectOversize)
             then reject_if_oversized policy_decision invocation st request result
             else ret tt) in
  let! rendered_output := render_or_abandon policy_decision invocation st result render_policy in
  let! '(result, should_rerender_output) :=
    bound_output policy_decision invocation st request (as_str (repo_id repository)) result in
  ret {| cmp_decision := policy_decision; cmp_invocation := invocation; cmp_result := result;
         cmp_rendered := rendered_output; cmp_rerender := should_rerender_output |}.

(** The audit record, the last three events and the commit. *)
Definition complete_job (request : RuntimeJobRequest) (capability : string)
  (finalizer : option Finalizer) (st : Stage) (c : Completion) : M RuntimeJobReceipt :=
  let job := stg_job st in
  let policy_decision := cmp_decision c in
  let invocation := cmp_invocation c in
  let result := cmp_result c in
  let! result_event := job_event (subject_tool_result (res_id result))
      (ToolResultRecorded (res_status result)) (tool_result_event_severity (res_status result))
      "tool result recorded" (refs_for_result job policy_decision invocation result) in
  let! uuid := uuid_new in
  let! now := timestamp_now in
  let audit_record := {|
    aud_id := id_new AuditRecordIdKind uuid; aud_schema_version := RUNTIME_SCHEMA_VERSION;
    aud_created_at := now; aud_actor := req_requester request;
    aud_repository_id := req_repository_id request; aud_requested_capability := capability;
    aud_policy_decision_id := pol_id policy_decision;
    aud_tool_invocation_id := Some (inv_id invocation);
    aud_effect_summary :=
      inv_tool_id invocation +:+ " completed with " +:+ status_debug (res_status result);
    aud_output_refs := res_output_refs result; aud_redactions := res_redactions result |} in
  let! audit_event := job_event (subject_audit_record (aud_id audit_record)) AuditRecorded SevInfo
      "audit record created" (refs_for_audit job policy_decision invocation result audit_record) in
  let job_before_tool_commit := job in
  let job := job_set_latest_event job (Some (evt_id audit_event)) in
  let events := stg_events st ++ [result_event; audit_event] in
  let terminal_status := terminal_status_of (res_status result) in
  let! terminal_event := job_event (subject_job (job_id job))
      (JobStatusChanged (job_status job) terminal_status) SevInfo "job completed"
      (refs_for_audit job policy_decision invocation result audit_record) in
  let! rendered_output :=
    (if cmp_rerender c
     then render_or_abandon policy_decision invocation {| stg_job := job; stg_events := events |}
            result (render_policy_with_render_options (req_tool_output_defaults request)
                      (req_render_options request))
     else ret (cmp_rendered c)) in
  let! job := transition job terminal_status (evt_created_at terminal_event) in
  let final_receipt := {|
    rcp_job := job_set_latest_event job (Some (evt_id terminal_event));
    rcp_policy_decision := policy_decision; rcp_tool_invocation := Some invocation;
    rcp_tool_result := Some result; rcp_rendered_output := Some rendered_output;
    rcp_audit_record := Some audit_record; rcp_events := events ++ [terminal_event] |} in
  let! '(persisted_result_event, persisted_audit_event, persisted_terminal_event) :=
    call_publish (record_tool_result_audit_terminal_with_submit_job_idempotency {|
      tat_record := job_before_tool_commit; tat_tool_result := result;
      tat_tool_result_event := result_event; tat_audit_record := audit_record;
      tat_audit_event := audit_event; tat_terminal_event := terminal_event;
      tat_idempotency := finalize finalizer final_receipt |}) in
  ret (rcp_set final_receipt (rcp_job final_receipt)
         (if (3 <=? length (rcp_events final_receipt))%nat
          then set_from_end 1 persisted_terminal_event
                 (set_from_end 2 persisted_audit_event
                    (set_from_end 3 persisted_result_event (rcp_events final_receipt)))
          else rcp_events final_receipt)).

(** ** The runner *)

Definition run_tool_job_with_finalizer {P T} `{PolicyEngine P} `{RuntimeTool T} (engine : P)
  (request : RuntimeJobRequest) (tool : T) (submit_job_idempotency : option Finalizer)
  : M RuntimeJobReceipt :=
  let capability := normalized_requested_capability (requested_capability tool) in
  if str_is_empty capability
  then fail (RtInvalidToolRequest (msg "requested_capability must not be empty"))
  else
    let! _ := lift (validate_requested_capability_hints (req_requested_capabilities request)
                      capability) in
    let! repository := call_read (get_repository (req_repository_id request)) in
    let! st := submit_job request in
    let! '(policy_decision, st) :=
      decide_policy engine (policy_input request tool capability repository) st in
    if bool_decide (pol_outcome policy_decision = PolicyBlocked)
       || bool_decide (pol_outcome policy_decision = NeedsApproval)
    then stop_job policy_decision submit_job_idempotency st
    else
      let! st := start_job policy_decision st in
      let! '(invocation, st) := record_invocation request tool capability policy_decision st in
      let! result := execute_tool tool invocation request in
      let! completion := process_result request repository policy_decision invocation st result in
      complete_job request capability submit_job_idempotency st completion.

Definition run_tool_job {P T} `{PolicyEngine P} `{RuntimeTool T} (engine : P)
  (request : RuntimeJobRequest) (tool : T) : M RuntimeJobReceipt :=
  run_tool_job_with_finalizer engine request tool None.

Definition submit_echo_job {P} `{PolicyEngine P} (engine : P) (request : RuntimeJobRequest)
  : M RuntimeJobReceipt := run_tool_job engine request MkEchoTool.

(** ** Cancellation *)

Record CancelJobReceipt := {
  can_job : JobRecord;
  can_events : list JobEvent
}.

Definition cancel_job (i : JobId) (reason : string) : M CancelJobReceipt :=
  let! job := call_read (get_job i) in
  let previous_status := job_status job in
  if negb (bool_decide (previous_status = Queued) || bool_decide (previous_status = Running))
  then fail (RtStore (Conflict "jobs" (Fmt "job {} cannot be cancelled in state {:?}"
                                         [AStr (as_str i); AStatus previous_status])))
  else
    let cancellation_requested_job := job_set_cancellation job Requested in
    let! cancel_event := job_event (subject_job (job_id cancellation_requested_job))
        CancellationRequested SevWarning reason (refs_for_job cancellation_requested_job) in
    let job := job_set_latest_event cancellation_requested_job (Some (evt_id cancel_event)) in
    let! now := timestamp_now in
    let! job := transition job Canceled now in
    let! status_event := job_event (subject_job (job_id job))
        (JobStatusChanged previous_status Canceled) SevWarning "job cancelled"
        (refs_for_job job) in
    let! '(cancel_event, status_event) :=
      call_publish (append_job_events_and_update_job cancellation_requested_job cancel_event job
                      status_event) in
    ret {| can_job := job_set_latest_event job (Some (evt_id status_event));
           can_events := [cancel_event; status_event] |}.
End Run.
