(* ===== verification/RunStages.v ===== *)
(** * RunStages: the job runner, stage by stage *)
From S2P Require Import Prelude Text Domain DomainLaws Policy StoreTypes Settings Truncation Spill.
From S2P Require Import StoreValidate StoreJobs Store StoreQuery Ledger StoreRefine.
From S2P Require Import StoreGuarantees Backend Runtime RunJob.

(** * Stage by stage, what the runner does to the store

    [quiet] computations run no tool and change the store only by store
    transactions, their own or other clients'; every stage but the execution of
    the tool is quiet.  The other lemmas say what the store holds after a stage
    succeeds. *)

Section Laws.
Context `{UuidLib} `{RegistryPort} `{Entropy} `{Renderer} `{ArtifactDefaults}.
Context {S F : Type} `{!StoreBackend S} `{!StoreBackendLaws S} `{!ArtifactWriter string F}.
Abbreviation M := (M S F).
Abbreviation World := (World S F).
Implicit Types w : World.
Implicit Types s : InMemoryInner.

Definition view w : InMemoryInner := backend_view (w_store w).

(** ** Quiet computations *)

Definition evolves w w' : Prop :=
  rtc store_step (view w) (view w') ∧ w_executed w' = w_executed w.
Definition quiet_run {A} (m : M A) : Prop := ∀ w w' r, m w = (w', r) → evolves w w'.

Lemma evolves_refl w : evolves w w.
Proof. by split. Qed.
Lemma evolves_trans w1 w2 w3 : evolves w1 w2 → evolves w2 w3 → evolves w1 w3.
Proof. intros [? ?] [? ?]. split; [by etrans|congruence]. Qed.

Lemma quiet_ret {A} (a : A) : quiet_run (ret a).
Proof. intros w w' r [= <- <-]. apply evolves_refl. Qed.
Lemma quiet_fail {A} e : quiet_run (A := A) (fail e).
Proof. intros w w' r [= <- <-]. apply evolves_refl. Qed.
Lemma quiet_lift {A} (x : result RuntimeError A) : quiet_run (lift x).
Proof. intros w w' r [= <- <-]. apply evolves_refl. Qed.
Lemma quiet_bind {A B} (m : M A) (k : A → M B) :
  quiet_run m → (∀ a, quiet_run (k a)) →
  quiet_run (λ w, match m w with (w, Ok x) => k x w | (w, Err e) => (w, Err e) end).
Proof.
  intros Hm Hk w w' r. destruct (m w) as [w1 [a|e]] eqn:E; intros Hr.
  - eapply evolves_trans; [by eapply Hm|by eapply Hk].
  - simplify_eq. by eapply Hm.
Qed.

Lemma quiet_uuid : quiet_run uuid_new.
Proof. intros w w' r [= <- <-]. by split. Qed.
Lemma quiet_now : quiet_run timestamp_now.
Proof. intros w w' r [= <- <-]. by split. Qed.

(** The transactions of the store are store steps. *)
Definition is_tx {R} (tx : Tx R) : Prop := ∀ s s' v, tx s = Ok (s', v) → store_step s s'.
Definition is_pub_tx {R} (tx : PubTx R) : Prop :=
  ∀ s s' v es, tx s = Ok (s', v, es) → store_step s s'.

Lemma tx_policy p : is_tx (create_policy_decision p).
Proof. intros s s' v E. exists (OpCreatePolicyDecision p), []. simpl. by rewrite E. Qed.
Lemma tx_invocation t : is_tx (create_tool_invocation t).
Proof. intros s s' v E. exists (OpCreateToolInvocation t), []. simpl. by rewrite E. Qed.
Lemma tx_create_job j e : is_pub_tx (create_job_with_initial_event j e).
Proof. intros s s' v es E. exists (OpCreateJob j e), es. simpl. by rewrite E. Qed.
Lemma tx_update_job j e : is_pub_tx (append_job_event_and_update_job j e).
Proof. intros s s' v es E. exists (OpUpdateJob j e), es. simpl. by rewrite E. Qed.
Lemma tx_update_idempotent j e key r :
  is_pub_tx (append_job_event_and_update_job_with_submit_job_idempotency j e key r).
Proof. intros s s' v es E. exists (OpUpdateJobIdempotent j e key r), es. simpl. by rewrite E. Qed.
Lemma tx_update_twice j1 e1 j2 e2 : is_pub_tx (append_job_events_and_update_job j1 e1 j2 e2).
Proof. intros s s' v es E. exists (OpUpdateJobTwice j1 e1 j2 e2), es. simpl. by rewrite E. Qed.
Lemma tx_terminal q : is_pub_tx (record_tool_result_audit_terminal_with_submit_job_idempotency q).
Proof. intros s s' v es E. exists (OpRecordTerminal q), es. simpl. by rewrite E. Qed.

Lemma call_mutate_spec {R} (tx : Tx R) w w' r :
  call_mutate tx w = (w', r) →
  w_executed w' = w_executed w ∧
  ∃ s1, rtc store_step (view w) s1 ∧
    match r with Ok v => tx s1 = Ok (view w', v) | Err _ => view w' = s1 end.
Proof.
  unfold call_mutate. destruct (backend_mutate tx (w_store w)) as [b r1] eqn:E.
  destruct (mutate_law tx _ _ _ E) as (s1 & Hsteps & Hr). intros [= <- <-].
  split; [done|]. exists s1. by destruct r1.
Qed.

Lemma call_publish_spec {R} (tx : PubTx R) w w' r :
  call_publish tx w = (w', r) →
  w_executed w' = w_executed w ∧
  ∃ s1, rtc store_step (view w) s1 ∧
    match r with Ok v => ∃ es, tx s1 = Ok (view w', v, es) | Err _ => view w' = s1 end.
Proof.
  unfold call_publish. destruct (backend_publish tx (w_store w)) as [b r1] eqn:E.
  destruct (publish_law tx _ _ _ E) as (s1 & Hsteps & Hr). intros [= <- <-].
  split; [done|]. exists s1. by destruct r1.
Qed.

Lemma quiet_mutate {R} (tx : Tx R) : is_tx tx → quiet_run (call_mutate tx).
Proof.
  intros Htx w w' r (He & s1 & Hs & Hr)%call_mutate_spec. split; [|done].
  destruct r as [v|]; [|by rewrite Hr]. eapply rtc_r; eauto.
Qed.

Lemma quiet_publish {R} (tx : PubTx R) : is_pub_tx tx → quiet_run (call_publish tx).
Proof.
  intros Htx w w' r (He & s1 & Hs & Hr)%call_publish_spec. split; [|done].
  destruct r as [v|]; [|by rewrite Hr]. destruct Hr as [es Hr]. eapply rtc_r; eauto.
Qed.

Lemma call_read_spec {R} (f : InMemoryInner → StoreResult R) w w' r :
  call_read f w = (w', r) →
  evolves w w' ∧ match r with Ok v => f (view w') = Ok v | Err _ => True end.
Proof.
  unfold call_read. destruct (backend_read f (w_store w)) as [b r1] eqn:E.
  destruct (read_law f _ _ _ E) as [Hsteps Hr]. intros [= <- <-].
  split; [by split|]. by destruct r1.
Qed.
Lemma quiet_read {R} (f : InMemoryInner → StoreResult R) : quiet_run (call_read f).
Proof. intros w w' r E. by apply call_read_spec in E as [? _]. Qed.
End Laws.

Create HintDb runtime.
#[export] Hint Resolve quiet_ret quiet_fail quiet_lift quiet_uuid quiet_now quiet_mutate quiet_publish
  quiet_read tx_policy tx_invocation tx_create_job tx_update_job tx_update_idempotent
  tx_update_twice tx_terminal : runtime.

(** Splits a computation into the parts that are known to be quiet. *)
Ltac solve_quiet_run :=
  repeat first
    [ solve [auto with runtime]
    | apply quiet_bind; [|intros ?]
    | case_match
    | progress simpl ].

Section Stages.
Context `{UuidLib} `{RegistryPort} `{Entropy} `{Renderer} `{ArtifactDefaults}.
Context {S F : Type} `{!StoreBackend S} `{!StoreBackendLaws S} `{!ArtifactWriter string F}.
Abbreviation M := (M S F).
Abbreviation World := (World S F).
Implicit Types w : World.
Implicit Types s : InMemoryInner.

Lemma quiet_job_event a b c d e : quiet_run (S:=S) (F:=F) (job_event a b c d e).
Proof. unfold job_event. solve_quiet_run. Qed.
#[local] Hint Resolve quiet_job_event : runtime.

Lemma quiet_record_event job events e : quiet_run (S:=S) (F:=F) (record_event job events e).
Proof. unfold record_event. solve_quiet_run. Qed.
#[local] Hint Resolve quiet_record_event : runtime.

Lemma quiet_transition job next t : quiet_run (S:=S) (F:=F) (transition job next t).
Proof. apply quiet_lift. Qed.
#[local] Hint Resolve quiet_transition : runtime.

Lemma quiet_abandon {A} d i st m e : quiet_run (S:=S) (F:=F) (A:=A) (abandon d i st m e).
Proof. unfold abandon, append_failed_job_event. solve_quiet_run. Qed.
#[local] Hint Resolve quiet_abandon : runtime.

Lemma quiet_submit request : quiet_run (S:=S) (F:=F) (submit_job request).
Proof. unfold submit_job. solve_quiet_run. Qed.

Lemma quiet_decide {P} `{PolicyEngine P} (engine : P) input st :
  quiet_run (S:=S) (F:=F) (decide_policy engine input st).
Proof. unfold decide_policy. solve_quiet_run. Qed.

Lemma quiet_stop d fin st : quiet_run (S:=S) (F:=F) (stop_job d fin st).
Proof. unfold stop_job. solve_quiet_run. Qed.

Lemma quiet_start d st : quiet_run (S:=S) (F:=F) (start_job d st).
Proof. unfold start_job. solve_quiet_run. Qed.

Lemma quiet_record_invocation {T} `{RuntimeTool T} request (tool : T) c d st :
  quiet_run (S:=S) (F:=F) (record_invocation request tool c d st).
Proof. unfold record_invocation. solve_quiet_run. Qed.

Lemma quiet_spill sp scope x : quiet_run (S:=S) (F:=F) (spill sp scope x).
Proof.
  intros w w' r. unfold spill. destruct (spill_large_tool_result_fields _ _ _ _ _) as [[f x'] r'].
  intros [= <- <-]. by split.
Qed.
#[local] Hint Resolve quiet_spill : runtime.

Lemma quiet_process request repository d i st x :
  quiet_run (S:=S) (F:=F) (process_result request repository d i st x).
Proof.
  unfold process_result, reject_if_oversized, render_or_abandon, bound_output, spill_output,
    reject_if_oversized. solve_quiet_run.
Qed.

Lemma quiet_complete request c fin st x :
  quiet_run (S:=S) (F:=F) (complete_job request c fin st x).
Proof. unfold complete_job, render_or_abandon. solve_quiet_run. Qed.

Lemma quiet_cancel i reason : quiet_run (S:=S) (F:=F) (cancel_job i reason).
Proof. unfold cancel_job. solve_quiet_run. Qed.
End Stages.

(** * What the store holds after each stage of a run *)

(** Walks over the successful steps of a computation. *)
Ltac step_run H :=
  cbv beta in H;
  match type of H with
  | match ?m ?w with (_, _) => _ end = (_, Ok _) =>
      let w1 := fresh "w" in let E := fresh "Hrun" in
      destruct (m w) as [w1 [?|?]] eqn:E; [|discriminate H]
  end.

(** Replaces the inserts and appends of a transaction by what they write. *)
Ltac use_writes :=
  repeat match goal with
    | E : append_event_locked _ _ = Ok _ |- _ => apply append_event_locked_Ok in E as (_ & -> & ->)
    | E : insert_record _ _ _ _ = Ok _ |- _ => apply insert_record_Ok in E as [_ ->]
    end.

Section Events.
Context `{UuidLib} `{RegistryPort}.
Implicit Types s : InMemoryInner.

(** ** Stored events *)

Definition stored s (e : JobEvent) : Prop := job_events_by_id s !! evt_id e = Some e.
Definition seq_lt (e e' : JobEvent) : Prop := (evt_sequence_number e < evt_sequence_number e')%N.

(** The events are in the ledger, in this order. *)
Definition logged s (events : list JobEvent) : Prop :=
  Forall (stored s) events ∧ StronglySorted seq_lt events.

Lemma stored_bound s e : store_wf s → stored s e → (evt_sequence_number e ≤ next_event_sequence s)%N.
Proof.
  intros Hwf He. destruct (lw_id _ (sw_ledger _ Hwf) _ _ He) as [_ Hseq].
  by apply (lw_range _ (sw_ledger _ Hwf)); eexists.
Qed.

Lemma stored_mono s s' e : store_le s s' → stored s e → stored s' e.
Proof. intros Hle He. eapply lookup_weaken; [exact He|]. by apply le_events. Qed.

Lemma logged_mono s s' events : store_le s s' → logged s events → logged s' events.
Proof.
  intros Hle [Hst Hso]. split; [|done]. eapply Forall_impl; [done|]. eauto using stored_mono.
Qed.

Lemma StronglySorted_snoc {A} (R : A → A → Prop) l x :
  StronglySorted R l → Forall (λ y, R y x) l → StronglySorted R (l ++ [x]).
Proof.
  induction 1 as [|y l Hl IH Hy]; intros Hx; simpl; [by repeat constructor|].
  apply Forall_cons in Hx as [? ?]. constructor; [auto|]. apply Forall_app; auto.
Qed.

(** Events appended to the ledger come after all that were there. *)
Lemma logged_app s s' events new :
  store_wf s → logged s events → ledger_extends s s' new → logged s' (events ++ new).
Proof.
  intros Hwf [Hst Hso] [Hn Hold Hnew].
  assert (Hst' : Forall (stored s') (events ++ new)).
  { apply Forall_app; split.
    - eapply Forall_impl; [done|]. intros e He. by eapply lookup_weaken.
    - apply Forall_lookup. intros k e Hk. by apply (Hnew k e). }
  split; [done|]. clear Hst'.
  assert (Hbound : ∀ k e, new !! k = Some e → Forall (λ y, seq_lt y e) (events ++ take k new)).
  { intros k e Hk. destruct (Hnew _ _ Hk) as (Hseq & _). apply Forall_app; split.
    - eapply Forall_impl; [done|]. intros y Hy%stored_bound; [|done]. unfold seq_lt. lia.
    - apply Forall_lookup. intros i y Hi%lookup_take_Some. destruct Hi as [Hi Hlt].
      destruct (Hnew _ _ Hi) as (Hs & _). unfold seq_lt. lia. }
  clear Hst Hn Hold Hnew. induction new as [|e new IH] using rev_ind; [by rewrite app_nil_r|].
  rewrite app_assoc. apply StronglySorted_snoc.
  - apply IH. intros k y Hk. rewrite <- (take_app_le new [e]) by
      (apply lookup_lt_Some in Hk; lia). apply Hbound. by apply lookup_app_l_Some.
  - pose proof (Hbound (length new) e) as Hb. rewrite take_app_length in Hb. apply Hb.
    by rewrite lookup_app_r, Nat.sub_diag.
Qed.

(** ** The transactions a run makes *)

Lemma update_job_facts s s' j e v es :
  append_job_event_and_update_job j e s = Ok (s', v, es) →
  es = [v] ∧ v = evt_set_sequence e (next_event_sequence s + 1) ∧
  jobs s' !! job_id j = Some (job_set_latest_event j (Some (evt_id e))).
Proof.
  unfold append_job_event_and_update_job. intros Hok. do 4 step_ok Hok. simplify_eq.
  apply append_event_locked_Ok in Hok2 as (_ & -> & ->). split_and!; [done..|].
  simpl. by rewrite lookup_insert_eq.
Qed.

Lemma create_job_facts s s' j e v es :
  create_job_with_initial_event j e s = Ok (s', v, es) →
  es = [v] ∧ v = evt_set_sequence e (next_event_sequence s + 1) ∧
  jobs s' !! job_id j = Some (job_set_latest_event j (Some (evt_id e))).
Proof.
  unfold create_job_with_initial_event. intros Hok. do 6 step_ok Hok. simplify_eq.
  apply append_event_locked_Ok in Hok3 as (_ & -> & ->). split_and!; [done..|].
  simpl. by rewrite lookup_insert_eq.
Qed.

Lemma create_policy_facts s s' p v :
  create_policy_decision p s = Ok (s', v) → policy_decisions s' !! pol_id p = Some p.
Proof.
  unfold create_policy_decision. intros Hok. do 4 step_ok Hok. simplify_eq.
  apply insert_record_Ok in Hok2 as [_ ->]. simpl. by rewrite lookup_insert_eq.
Qed.

Lemma create_invocation_facts s s' t v :
  create_tool_invocation t s = Ok (s', v) → tool_invocations s' !! inv_id t = Some t.
Proof.
  unfold create_tool_invocation. intros Hok. do 3 step_ok Hok. simplify_eq.
  apply insert_record_Ok in Hok1 as [_ ->]. simpl. by rewrite lookup_insert_eq.
Qed.

Lemma update_twice_facts s s' j1 e1 j2 e2 v es :
  append_job_events_and_update_job j1 e1 j2 e2 s = Ok (s', v, es) →
  es = [v.1; v.2] ∧ v.1 = evt_set_sequence e1 (next_event_sequence s + 1) ∧
  v.2 = evt_set_sequence e2 (next_event_sequence s + 2) ∧
  jobs s' !! job_id j2 = Some (job_set_latest_event j2 (Some (evt_id e2))).
Proof.
  unfold append_job_events_and_update_job. intros Hok. do 11 step_ok Hok. simplify_eq. use_writes.
  simpl. split_and!; [done..| |by rewrite lookup_insert_eq]. f_equal. lia.
Qed.

Lemma insert_receipt_facts s s' key r :
  insert_submit_job_idempotency_locked s key r = Ok s' →
  idempotent_submit_jobs s' !! key = Some r ∧ jobs s' = jobs s ∧
  tool_results s' = tool_results s ∧ audit_records s' = audit_records s.
Proof.
  unfold insert_submit_job_idempotency_locked. intros Hok. step_ok Hok.
  destruct (idempotent_submit_jobs s !! key) eqn:Hkey.
  - case_bool_decide; simplify_eq. by split_and!.
  - simplify_eq. simpl. by rewrite lookup_insert_eq.
Qed.

Lemma commit_result_audit_facts s j x re a ae s' re' ae' :
  commit_result_and_audit s j x re a ae = Ok (s', re', ae') →
  re' = evt_set_sequence re (next_event_sequence s + 1) ∧
  ae' = evt_set_sequence ae (next_event_sequence s + 2) ∧
  next_event_sequence s' = (next_event_sequence s + 2)%N ∧
  tool_results s' !! res_id x = Some x ∧ audit_records s' !! aud_id a = Some a.
Proof.
  unfold commit_result_and_audit. intros Hok. repeat step_ok Hok. simplify_eq. use_writes. simpl. rewrite !lookup_insert_eq. split_and!; [done| |lia|done..]. f_equal. lia.
Qed.

(** What the commit of a tool job stores. *)
Record committed (q : ToolResultAuditTerminalRequest) s s' (final : JobRecord)
  (re ae te : JobEvent) : Prop := {
  cm_result_event : re = evt_set_sequence (tat_tool_result_event q) (next_event_sequence s + 1);
  cm_audit_event : ae = evt_set_sequence (tat_audit_event q) (next_event_sequence s + 2);
  cm_terminal_event : te = evt_set_sequence (tat_terminal_event q) (next_event_sequence s + 3);
  cm_transition :
    transition_status (tat_record q) (terminal_status_of (res_status (tat_tool_result q)))
      (evt_created_at (tat_terminal_event q)) = Ok final;
  cm_job : jobs s' !! job_id (tat_record q) = Some (job_set_latest_event final (Some (evt_id te)));
  cm_result : tool_results s' !! res_id (tat_tool_result q) = Some (tat_tool_result q);
  cm_audit : audit_records s' !! aud_id (tat_audit_record q) = Some (tat_audit_record q);
  cm_receipt key r : tat_idempotency q = Some (key, r) →
    idempotent_submit_jobs s' !! key =
      Some (commit_receipt r (job_set_latest_event final (Some (evt_id te))) re ae te)
}.

Lemma transition_job_id j next t j' : transition_status j next t = Ok j' → job_id j' = job_id j.
Proof. by intros (_ & _ & ->)%transition_status_Ok. Qed.

Lemma record_terminal_facts q s s' re ae te es :
  record_tool_result_audit_terminal_with_submit_job_idempotency q s = Ok (s', (re, ae, te), es) →
  es = [re; ae; te] ∧ ∃ final, committed q s s' final re ae te.
Proof.
  unfold record_tool_result_audit_terminal_with_submit_job_idempotency. intros Hok.
  do 4 step_ok Hok.
  destruct (transition_status (tat_record q) _ _) as [final|] eqn:Hfin; cbn [map_err] in Hok; [|done].
  do 2 step_ok Hok.
  destruct (commit_result_and_audit _ _ _ _ _ _) as [[[s1 re1] ae1]|] eqn:Hcommit; [|done].
  destruct (append_event_locked s1 _) as [[s2 te1]|] eqn:Hterm; [|done].
  apply commit_result_audit_facts in Hcommit as (-> & -> & Hn & Hres & Haud).
  apply append_event_locked_Ok in Hterm as (_ & -> & ->).
  destruct (match tat_idempotency q with Some _ => _ | None => _ end) as [s3|] eqn:Hins; [|done].
  apply Ok_inj in Hok. simplify_eq. split; [done|]. exists final.
  pose proof (transition_job_id _ _ _ _ Hfin) as Hid.
  assert (Hs3 : jobs s' !! job_id (tat_record q) = Some (job_set_latest_event final
            (Some (evt_id (tat_terminal_event q)))) ∧
          tool_results s' !! res_id (tat_tool_result q) = Some (tat_tool_result q) ∧
          audit_records s' !! aud_id (tat_audit_record q) = Some (tat_audit_record q)).
  { destruct (tat_idempotency q) as [[key r]|].
    - apply insert_receipt_facts in Hins as (_ & -> & -> & ->). simpl.
      by rewrite <- Hid, lookup_insert_eq.
    - simplify_eq. simpl. by rewrite <- Hid, lookup_insert_eq. }
  destruct Hs3 as (Hj & Hr & Ha). split; simpl; try done.
  - rewrite Hn. f_equal. lia.
  - intros key r Hk. rewrite Hk in Hins. by apply insert_receipt_facts in Hins as [-> _].
Qed.
End Events.


(** ** Stages *)

Section Stages.
Context `{UuidLib} `{RegistryPort} `{Entropy} `{Renderer} `{ArtifactDefaults}.
Context {S F : Type} `{!StoreBackend S} `{!StoreBackendLaws S} `{!ArtifactWriter string F}.
Abbreviation M := (M S F).
Abbreviation World := (World S F).
Implicit Types w : World.
Implicit Types s : InMemoryInner.

Lemma evolves_le w w' :
  store_wf (view w) → evolves w w' → store_wf (view w') ∧ store_le (view w) (view w').
Proof. intros Hwf [Hs _]. eauto using store_steps_wf, store_steps_le. Qed.

(** The stage is what the store holds: its job is stored as it is, its events
    are in the ledger, and the last of them is the job's latest. *)
Record stage_ok s (st : Stage) : Prop := {
  so_job : jobs s !! job_id (stg_job st) = Some (stg_job st);
  so_events : logged s (stg_events st);
  so_latest : job_latest_event_id (stg_job st) = evt_id <$> last (stg_events st)
}.

Lemma job_event_Ok sub kind sev m refs w w' e :
  job_event sub kind sev m refs w = (w', Ok e) →
  evolves w w' ∧ evt_kind e = kind ∧ evt_subject e = sub ∧ evt_refs e = refs.
Proof.
  intros E. split; [by eapply quiet_job_event|]. unfold job_event in E.
  do 2 step_run E. by injection E as _ <-.
Qed.

Lemma publish_logged {R} (tx : PubTx R) events w w' v :
  (∀ s s' v es, tx s = Ok (s', v, es) → ledger_extends s s' es) →
  store_wf (view w) → logged (view w) events → call_publish tx w = (w', Ok v) →
  ∃ s1 es, tx s1 = Ok (view w', v, es) ∧ store_wf s1 ∧ store_le (view w) s1 ∧
    logged (view w') (events ++ es).
Proof.
  intros Htx Hwf Hlog (_ & s1 & Hs & es & Hr)%call_publish_spec.
  exists s1, es. assert (store_wf s1) by eauto using store_steps_wf.
  assert (store_le (view w) s1) by eauto using store_steps_le.
  split_and!; try done. eauto using logged_app, logged_mono.
Qed.

Lemma record_event_Ok job events e w w' job' events' :
  store_wf (view w) → logged (view w) events →
  record_event job events e w = (w', Ok (job', events')) →
  ∃ n, job' = job_set_latest_event job (Some (evt_id e)) ∧
    events' = events ++ [evt_set_sequence e n] ∧
    stage_ok (view w') {| stg_job := job'; stg_events := events' |}.
Proof.
  intros Hwf Hlog E. unfold record_event in E. step_run E. injection E as <- <- <-.
  apply (publish_logged _ events) in Hrun as (s1 & es & Htx & _ & _ & Hlog'); [|apply published_update|done..].
  apply update_job_facts in Htx as (-> & -> & Hjob). eexists. split_and!; [done..|].
  split; simpl; [done|done|]. by rewrite last_snoc.
Qed.

Lemma submit_job_Ok request w w' st :
  store_wf (view w) → submit_job request w = (w', Ok st) →
  stage_ok (view w') st ∧ job_status (stg_job st) = Queued ∧
  job_repository_id (stg_job st) = req_repository_id request.
Proof.
  intros Hwf E. unfold submit_job in E. do 4 step_run E. injection E as <- <-.
  apply quiet_now in Hrun. apply quiet_uuid in Hrun0. apply job_event_Ok in Hrun1 as (Hev & _ & _ & _).
  assert (store_wf (view w2)) as Hwf2 by
    (apply (evolves_le w w2); eauto using evolves_trans).
  apply (publish_logged _ []) in Hrun2 as (s1 & es & Htx & _ & _ & Hlog');
    [|apply published_create_job|done|split; constructor].
  apply create_job_facts in Htx as (-> & -> & Hjob).
  split; [|done]. by split.
Qed.

Lemma decide_policy_Ok {P} `{PolicyEngine P} (engine : P) input st w w' d st' :
  store_wf (view w) → stage_ok (view w) st →
  decide_policy engine input st w = (w', Ok (d, st')) →
  stage_ok (view w') st' ∧ policy_decisions (view w') !! pol_id d = Some d ∧
  (∃ u t, d = engine_evaluate engine u t input) ∧
  job_status (stg_job st') = job_status (stg_job st) ∧ job_id (stg_job st') = job_id (stg_job st) ∧
  job_policy_summary (stg_job st') = Some (policy_summary d).
Proof.
  intros Hwf Hst E. unfold decide_policy in E. do 5 step_run E. destruct a3 as [job events].
  injection E as <- <- <-.
  apply quiet_uuid in Hrun. apply quiet_now in Hrun0.
  pose proof (quiet_mutate _ (tx_policy _) _ _ _ Hrun1) as Hev1.
  apply call_mutate_spec in Hrun1 as (_ & s1 & _ & Htx%create_policy_facts).
  apply job_event_Ok in Hrun2 as (Hev2 & _).
  destruct (evolves_le w w3) as [Hwf3 Hle3]; [done|eauto 6 using evolves_trans|].
  destruct (evolves_le w2 w3) as [_ Hle23]; [|done|].
  { apply (evolves_le w w2); eauto using evolves_trans. }
  pose proof (quiet_record_event _ _ _ _ _ _ Hrun3) as Hev3.
  apply record_event_Ok in Hrun3 as (n & -> & -> & Hok); [|done|apply (logged_mono (view w)); [done|by apply so_events]].
  split; [done|]. destruct (evolves_le w3 w4 Hwf3 Hev3) as [_ Hle].
  split_and!; [|by eexists _, _|done..].
  eapply lookup_weaken; [exact Htx|]. etrans; by apply le_policies.
Qed.

Lemma transition_Ok job next t w w' job' :
  transition job next t w = (w', Ok job') → w' = w ∧ transition_status job next t = Ok job'.
Proof.
  unfold transition, lift. destruct (transition_status job next t); by intros [= <- ?]; simplify_eq.
Qed.

(** What a transition keeps. *)
Lemma transition_keeps j next t j' :
  transition_status j next t = Ok j' →
  job_status j' = next ∧ job_id j' = job_id j ∧ job_policy_summary j' = job_policy_summary j ∧
  job_repository_id j' = job_repository_id j ∧ job_latest_event_id j' = job_latest_event_id j.
Proof. by intros (_ & _ & ->)%transition_status_Ok. Qed.

Lemma start_job_Ok d st w w' st' :
  store_wf (view w) → stage_ok (view w) st → start_job d st w = (w', Ok st') →
  stage_ok (view w') st' ∧ job_status (stg_job st') = Running ∧
  job_id (stg_job st') = job_id (stg_job st) ∧
  job_policy_summary (stg_job st') = job_policy_summary (stg_job st).
Proof.
  intros Hwf Hst E. unfold start_job in E. do 4 step_run E. destruct a2 as [job events].
  injection E as <- <-. apply quiet_now in Hrun. apply transition_Ok in Hrun0 as [-> Htr].
  apply transition_keeps in Htr as (Hs & Hid & Hp & _).
  apply job_event_Ok in Hrun1 as (Hev & _).
  destruct (evolves_le w w2) as [Hwf2 Hle2]; [done|eauto using evolves_trans|].
  apply record_event_Ok in Hrun2 as (n & -> & -> & Hok);
    [|done|apply (logged_mono (view w)); [done|by apply so_events]].
  by split_and!.
Qed.

Lemma record_invocation_Ok {T} `{RuntimeTool T} request (tool : T) c d st w w' i st' :
  store_wf (view w) → stage_ok (view w) st →
  record_invocation request tool c d st w = (w', Ok (i, st')) →
  stage_ok (view w') st' ∧ tool_invocations (view w') !! inv_id i = Some i ∧
  inv_job_id i = job_id (stg_job st) ∧ inv_tool_id i = tool_id tool ∧
  inv_requested_capability i = c ∧ inv_repository_id i = req_repository_id request ∧
  inv_policy_decision_id i = pol_id d ∧
  (∃ events e, stg_events st' = events ++ [e] ∧ evt_kind e = ToolInvoked (tool_id tool)) ∧
  stg_job st' = job_set_latest_event (stg_job st) (job_latest_event_id (stg_job st')).
Proof.
  intros Hwf Hst E. unfold record_invocation in E. do 5 step_run E. destruct a3 as [job events].
  injection E as <- <- <-. apply quiet_uuid in Hrun. apply quiet_now in Hrun0.
  pose proof (quiet_mutate _ (tx_invocation _) _ _ _ Hrun1) as Hev1.
  apply call_mutate_spec in Hrun1 as (_ & s1 & _ & Htx%create_invocation_facts).
  apply job_event_Ok in Hrun2 as (Hev2 & Hk & _).
  destruct (evolves_le w w3) as [Hwf3 Hle3]; [done|eauto 6 using evolves_trans|].
  destruct (evolves_le w2 w3) as [_ Hle23]; [|done|].
  { apply (evolves_le w w2); eauto using evolves_trans. }
  pose proof (quiet_record_event _ _ _ _ _ _ Hrun3) as Hev3.
  apply record_event_Ok in Hrun3 as (n & -> & -> & Hok);
    [|done|apply (logged_mono (view w)); [done|by apply so_events]].
  destruct (evolves_le w3 w4 Hwf3 Hev3) as [_ Hle]. split; [done|].
  split_and!; try done; [|by eexists _, _].
  eapply lookup_weaken; [exact Htx|]. etrans; by apply le_invocations.
Qed.
End Stages.

(** * How a run ends *)

Lemma set_from_end_snoc {A} (l : list A) x y : set_from_end 1 y (l ++ [x]) = l ++ [y].
Proof.
  unfold set_from_end. rewrite length_app. simpl.
  replace (length l + 1 - 1)%nat with (length l + 0)%nat by lia. by rewrite insert_app_r.
Qed.

Lemma set_from_end_three {A} (l : list A) a b c x y z :
  set_from_end 1 z (set_from_end 2 y (set_from_end 3 x (l ++ [a; b; c]))) = l ++ [x; y; z].
Proof.
  unfold set_from_end. rewrite !length_insert, length_app. simpl.
  replace (length l + 3 - 3)%nat with (length l + 0)%nat by lia.
  replace (length l + 3 - 2)%nat with (length l + 1)%nat by lia.
  replace (length l + 3 - 1)%nat with (length l + 2)%nat by lia.
  by rewrite !insert_app_r.
Qed.

Lemma transition_set_latest j l next t :
  transition_status (job_set_latest_event j l) next t =
  match transition_status j next t with
  | Ok j' => Ok (job_set_latest_event j' l)
  | Err e => Err e
  end.
Proof.
  unfold transition_status, ensure_monotonic_transition_timestamp, job_latest_timestamp. simpl.
  by repeat case_match.
Qed.

Section Commit.
Context `{UuidLib} `{RegistryPort} `{Entropy} `{Renderer} `{ArtifactDefaults}.
Context {S F : Type} `{!StoreBackend S} `{!StoreBackendLaws S} `{!ArtifactWriter string F}.
Abbreviation M := (M S F).
Abbreviation World := (World S F).
Implicit Types w : World.
Implicit Types s : InMemoryInner.

(** The receipt's job and events, as a stage. *)
Definition receipt_stage (rc : RuntimeJobReceipt) : Stage :=
  {| stg_job := rcp_job rc; stg_events := rcp_events rc |}.

Lemma stop_job_Ok d fin st w w' rc :
  store_wf (view w) → stage_ok (view w) st → stop_job d fin st w = (w', Ok rc) →
  stage_ok (view w') (receipt_stage rc) ∧ job_status (rcp_job rc) = Blocked ∧
  job_id (rcp_job rc) = job_id (stg_job st) ∧ rcp_policy_decision rc = d ∧
  rcp_tool_invocation rc = None ∧ rcp_tool_result rc = None ∧ rcp_rendered_output rc = None ∧
  rcp_audit_record rc = None.
Proof.
  intros Hwf Hst E. unfold stop_job in E. do 3 step_run E.
  apply quiet_now in Hrun. apply transition_Ok in Hrun0 as [-> Htr].
  apply transition_keeps in Htr as (Hs & Hid & _). apply job_event_Ok in Hrun1 as (Hev & _).
  destruct (evolves_le w w2) as [Hwf2 Hle2]; [done|eauto using evolves_trans|].
  unfold finalize in E at 1. cbn [rcp_job job_status job_set_latest_event] in E.
  rewrite Hs, bool_decide_eq_false_2 in E by done. step_run E. injection E as <- <-.
  apply (publish_logged _ (stg_events st)) in Hrun0 as (s1 & es & Htx & _ & _ & Hlog);
    [|apply published_update|done|apply (logged_mono (view w)); [done|by apply so_events]].
  apply update_job_facts in Htx as (-> & -> & Hjob). simpl in *.
  split; [|by split_and!]. unfold receipt_stage. simpl. rewrite set_from_end_snoc.
  split; simpl; [done|done|]. by rewrite last_snoc.
Qed.

(** What a successful commit leaves: the receipt is the stored state. *)
Record completed (request : RuntimeJobRequest) (capability : string) (fin : option Finalizer)
  (st : Stage) (c : Completion) s (rc : RuntimeJobReceipt) : Prop := {
  co_stage : stage_ok s (receipt_stage rc);
  co_status : job_status (rcp_job rc) = terminal_status_of (res_status (cmp_result c));
  co_job_id : job_id (rcp_job rc) = job_id (stg_job st);
  co_decision : rcp_policy_decision rc = cmp_decision c;
  co_invocation : rcp_tool_invocation rc = Some (cmp_invocation c);
  co_result : rcp_tool_result rc = Some (cmp_result c);
  co_result_stored : tool_results s !! res_id (cmp_result c) = Some (cmp_result c);
  co_rendered : is_Some (rcp_rendered_output rc);
  co_audit : ∃ a, rcp_audit_record rc = Some a ∧ audit_records s !! aud_id a = Some a ∧
    aud_tool_invocation_id a = Some (inv_id (cmp_invocation c)) ∧
    aud_policy_decision_id a = pol_id (cmp_decision c) ∧ aud_actor a = req_requester request ∧
    aud_requested_capability a = capability;
  co_receipt f key signature :
    fin = Some f → job_status (rcp_job rc) = Succeeded →
    (∀ r, job_status (rcp_job r) = Succeeded →
       f r = Some (key, {| idem_signature := signature; idem_receipt := r |})) →
    idempotent_submit_jobs s !! key =
      Some {| idem_signature := signature; idem_receipt := rc |}
}.

Lemma render_quiet_or (b : bool) d i st x policy (r : RenderedToolOutput) :
  quiet_run (S:=S) (F:=F) (if b then render_or_abandon d i st x policy else ret r).
Proof.
  unfold render_or_abandon. destruct b; [|apply quiet_ret].
  case_match; [apply quiet_ret|apply quiet_abandon].
Qed.

Lemma complete_job_Ok request capability fin st c w w' rc :
  store_wf (view w) → logged (view w) (stg_events st) →
  complete_job request capability fin st c w = (w', Ok rc) →
  completed request capability fin st c (view w') rc.
Proof.
  intros Hwf Hst E. unfold complete_job in E. do 7 step_run E.
  apply job_event_Ok in Hrun as (Hev & _). apply quiet_uuid in Hrun0. apply quiet_now in Hrun1.
  apply job_event_Ok in Hrun2 as (Hev2 & _). apply job_event_Ok in Hrun3 as (Hev3 & _).
  apply render_quiet_or in Hrun4. apply transition_Ok in Hrun5 as [-> Htr].
  destruct (evolves_le w w5) as [Hwf5 Hle5]; [done|eauto 10 using evolves_trans|].
  step_run E. destruct a6 as [[re ae] te]. injection E as <- <-.
  apply (publish_logged _ (stg_events st)) in Hrun as (s1 & es & Htx & _ & _ & Hlog);
    [|apply published_record_terminal|done|by apply (logged_mono (view w))].
  apply record_terminal_facts in Htx as (-> & final & [Hre Hae Hte Hfin Hjob Hres Haud Hrec]).
  cbn [tat_record tat_tool_result tat_tool_result_event tat_audit_record tat_audit_event
       tat_terminal_event tat_idempotency rcp_events] in *.
  rewrite transition_set_latest, Hfin in Htr. injection Htr as <-.
  pose proof (transition_keeps _ _ _ _ Hfin) as (Hs & Hid & _).
  rewrite <- !app_assoc in *. simpl app.
  assert (Hlen : length (stg_events st ++ [a; a2; a3]) = (3 + length (stg_events st))%nat)
    by (rewrite length_app; simpl; lia).
  rewrite Hlen.
  rewrite set_from_end_three. assert (Hte_id : evt_id te = evt_id a3) by (by rewrite Hte).
  rewrite Hte_id in Hjob, Hrec.
  split; try done; simpl in *.
  - split; simpl; [by rewrite Hid|done|]. rewrite last_app. simpl. by rewrite Hte_id.
  - eexists. by split_and!.
  - intros f key signature -> Hsucc Hf. unfold finalize in Hrec. simpl in Hrec.
    rewrite Hsucc, Hf, bool_decide_eq_true_2 in Hrec by done.
    rewrite (Hrec _ _ eq_refl). unfold commit_receipt. simpl.
    by rewrite set_from_end_three.
Qed.
End Commit.
