(* ===== verification/RunGuarantees.v ===== *)
(** * RunGuarantees: the job runner beside other clients *)
From S2P Require Import Prelude Text Domain DomainLaws Policy StoreTypes Settings Truncation.
From S2P Require Import TruncationLaws Spill StoreValidate StoreJobs Store.
From S2P Require Import StoreQuery StoreLoad Ledger StoreRefine StoreGuarantees.
From S2P Require Import StoreShell ShellLaws Backend Runtime RunJob RunStages.

(** * What a run guarantees, with any other clients on the store *)

Section Theorems.
Context `{UuidLib} `{RegistryPort} `{Entropy} `{Renderer} `{ArtifactDefaults}.
Context {S F : Type} `{!StoreBackend S} `{!StoreBackendLaws S} `{!ArtifactWriter string F}.
Context {P T : Type} `{!PolicyEngine P} `{!RuntimeTool T}.
Abbreviation M := (M S F).
Abbreviation World := (World S F).
Implicit Types (w : World) (s : InMemoryInner) (engine : P) (tool : T).

Definition capability_of tool : string :=
  normalized_requested_capability (requested_capability tool).

(** The state of the store in which the tool may run. *)
Record permitted (engine : P) (request : RuntimeJobRequest) (tool : T) s
  (repository : RepositoryRecord) (d : PolicyDecision) (i : ToolInvocation) (st : Stage) : Prop := {
  pm_stage : stage_ok s st;
  pm_running : job_status (stg_job st) = Running;
  pm_summary : job_policy_summary (stg_job st) = Some (policy_summary d);
  pm_repository : repositories s !! req_repository_id request = Some repository;
  pm_decision : policy_decisions s !! pol_id d = Some d;
  pm_evaluated : ∃ u t,
    d = engine_evaluate engine u t (policy_input request tool (capability_of tool) repository);
  pm_permits : permits (pol_outcome d) = true;
  pm_invocation : tool_invocations s !! inv_id i = Some i;
  pm_job_id : inv_job_id i = job_id (stg_job st);
  pm_tool_id : inv_tool_id i = tool_id tool;
  pm_capability : inv_requested_capability i = capability_of tool;
  pm_repository_id : inv_repository_id i = req_repository_id request;
  pm_policy : inv_policy_decision_id i = pol_id d;
  pm_event : ∃ events e, stg_events st = events ++ [e] ∧ evt_kind e = ToolInvoked (tool_id tool)
}.

Definition after_execution (request : RuntimeJobRequest) (tool : T) (fin : option Finalizer)
  (repository : RepositoryRecord) (d : PolicyDecision) (i : ToolInvocation) (st : Stage)
  (x : ToolResult) : M RuntimeJobReceipt :=
  let! completion := process_result request repository d i st x in
  complete_job request (capability_of tool) fin st completion.

(** A receipt of a job that was stopped before any tool ran. *)
Definition stopped s (rc : RuntimeJobReceipt) : Prop :=
  stage_ok s (receipt_stage rc) ∧ job_status (rcp_job rc) = Blocked ∧
  policy_decisions s !! pol_id (rcp_policy_decision rc) = Some (rcp_policy_decision rc) ∧
  permits (pol_outcome (rcp_policy_decision rc)) = false ∧
  rcp_tool_invocation rc = None ∧ rcp_tool_result rc = None ∧ rcp_rendered_output rc = None ∧
  rcp_audit_record rc = None.

Lemma stopped_outcome o :
  bool_decide (o = PolicyBlocked) || bool_decide (o = NeedsApproval) = negb (permits o).
Proof. by destruct o. Qed.

(** An error before the tool runs. *)
Ltac ends_early := intros [= <- <-]; left; split; [eauto 10 using evolves_trans|done].

(** The part of the runner after a decision that permits the tool. *)
Definition run_permitted (request : RuntimeJobRequest) (tool : T) (fin : option Finalizer)
  (repository : RepositoryRecord) (d : PolicyDecision) (st : Stage) : M RuntimeJobReceipt :=
  let! st := start_job d st in
  let! '(i, st) := record_invocation request tool (capability_of tool) d st in
  let! x := execute_tool tool i request in
  after_execution request tool fin repository d i st x.

Lemma run_permitted_cases engine request tool fin repository d st w w' r :
  store_wf (view w) → stage_ok (view w) st →
  repositories (view w) !! req_repository_id request = Some repository →
  policy_decisions (view w) !! pol_id d = Some d →
  (∃ u t, d = engine_evaluate engine u t
                (policy_input request tool (capability_of tool) repository)) →
  job_policy_summary (stg_job st) = Some (policy_summary d) → permits (pol_outcome d) = true →
  run_permitted request tool fin repository d st w = (w', r) →
  (evolves w w' ∧ is_ok r = false) ∨
  ∃ w1 w2 i st x,
    evolves w w1 ∧ permitted engine request tool (view w1) repository d i st ∧
    execute_tool tool i request w1 = (w2, Ok x) ∧
    after_execution request tool fin repository d i st x w2 = (w', r).
Proof.
  intros Hwf Hst Hrepo Hd Heval Hsum Hperm. unfold run_permitted.
  destruct (start_job d st w) as [w4 [st4|]] eqn:E4;
    pose proof (quiet_start _ _ _ _ _ E4) as Hev4; [|ends_early].
  destruct (evolves_le w w4 Hwf Hev4) as [Hwf4 Hle4].
  apply start_job_Ok in E4 as (Hst4 & Hrun & Hid4 & Hsum4); [|done..].
  destruct (record_invocation _ _ _ _ _ w4) as [w5 [[i st5]|]] eqn:E5;
    pose proof (quiet_record_invocation _ _ _ _ _ _ _ _ E5) as Hev5; [|ends_early].
  destruct (evolves_le w4 w5 Hwf4 Hev5) as [Hwf5 Hle5].
  apply record_invocation_Ok in E5 as (Hst5 & Hi & Hij & Hit & Hic & Hir & Hip & Hev & Hj5); [|done..].
  destruct (execute_tool tool i request w5) as [w6 [x|]] eqn:E6;
    [|unfold execute_tool in E6; by destruct (execute tool i request (w_sources w5))].
  intros E7. right. exists w5, w6, i, st5, x.
  split_and!; [eauto using evolves_trans| |done|done].
  assert (Hid5 : job_id (stg_job st5) = job_id (stg_job st4)) by (by rewrite Hj5).
  assert (Hrun5 : job_status (stg_job st5) = job_status (stg_job st4)) by (by rewrite Hj5).
  assert (Hsum5 : job_policy_summary (stg_job st5) = job_policy_summary (stg_job st4))
    by (by rewrite Hj5).
  split; try done; try congruence.
  - eapply lookup_weaken; [exact Hrepo|]. etrans; by apply le_repositories.
  - eapply lookup_weaken; [exact Hd|]. etrans; by apply le_policies.
Qed.

(** A run either ends before the tool runs, or runs it in a permitted state. *)
Lemma run_cases engine request tool fin w w' r :
  store_wf (view w) → run_tool_job_with_finalizer engine request tool fin w = (w', r) →
  (evolves w w' ∧ match r with Ok rc => stopped (view w') rc | Err _ => True end) ∨
  ∃ w1 w2 repository d i st x,
    evolves w w1 ∧ permitted engine request tool (view w1) repository d i st ∧
    execute_tool tool i request w1 = (w2, Ok x) ∧
    after_execution request tool fin repository d i st x w2 = (w', r).
Proof.
  intros Hwf. unfold run_tool_job_with_finalizer. fold (capability_of tool).
  destruct (str_is_empty (capability_of tool)).
  { intros [= <- <-]. left. split; [apply evolves_refl|done]. }
  destruct (lift _ w) as [w0 [[]|]] eqn:E0; apply quiet_lift in E0; [|ends_early].
  destruct (call_read _ w0) as [w1 [repository|]] eqn:E1;
    apply call_read_spec in E1 as [Hev1 Hrepo]; [|ends_early].
  apply ok_or_Ok in Hrepo.
  destruct (evolves_le w w1) as [Hwf1 Hle1]; [done|by eapply evolves_trans|].
  destruct (submit_job request w1) as [w2 [st|]] eqn:E2; pose proof (quiet_submit _ _ _ _ E2) as Hev2;
    [|ends_early].
  destruct (evolves_le w1 w2 Hwf1 Hev2) as [Hwf2 Hle2].
  apply submit_job_Ok in E2 as (Hst & _ & _); [|done].
  destruct (decide_policy _ _ _ w2) as [w3 [[d st']|]] eqn:E3;
    pose proof (quiet_decide _ _ _ _ _ _ E3) as Hev3; [|ends_early].
  destruct (evolves_le w2 w3 Hwf2 Hev3) as [Hwf3 Hle3].
  apply decide_policy_Ok in E3 as (Hst' & Hd & Heval & _ & _ & Hsum); [|done..].
  rewrite stopped_outcome. destruct (permits (pol_outcome d)) eqn:Hperm; simpl; intros E4.
  - change (run_permitted request tool fin repository d st' w3 = (w', r)) in E4.
    apply (run_permitted_cases engine) in E4; try done.
    + destruct E4 as [[Hev4 Hno]|(w4 & w5 & i & st4 & x & Hev4 & ?)].
      * left. destruct r; [done|]. split; [eauto 10 using evolves_trans|done].
      * right. exists w4, w5, repository, d, i, st4, x. split; [eauto 10 using evolves_trans|done].
    + eapply lookup_weaken; [exact Hrepo|]. etrans; by apply le_repositories.
  - pose proof (quiet_stop _ _ _ _ _ _ E4) as Hev4. left.
    split; [eauto 10 using evolves_trans|]. destruct r as [rc|]; [|done].
    destruct (evolves_le w3 w' Hwf3 Hev4) as [_ Hle4].
    apply stop_job_Ok in E4 as (? & ? & ? & Hrd & ? & ? & ? & ?); [|done..].
    unfold stopped. rewrite Hrd. split_and!; try done.
    eapply lookup_weaken; [exact Hd|by apply le_policies].
Qed.

Lemma execute_tool_spec tool i request w w' x :
  execute_tool tool i request w = (w', Ok x) →
  rtc store_step (view w) (view w') ∧ w_executed w' = w_executed w ++ [(i, view w')].
Proof.
  unfold execute_tool. destruct (execute tool i request (w_sources w)). intros [= <- <-].
  split; [apply yield_law|done].
Qed.
(** What a permitted state recorded is still there when the tool starts. *)
Lemma permitted_before engine request tool s s' repository d i st :
  store_wf s → permitted engine request tool s repository d i st → rtc store_step s s' →
  store_wf s' ∧ store_le s s' ∧ logged s' (stg_events st).
Proof.
  intros Hwf Hp Hs. pose proof (store_steps_le _ _ Hwf Hs) as Hle.
  split_and!; [by eapply store_steps_wf|done|]. apply (logged_mono s); [done|]. by apply Hp.
Qed.

Lemma quiet_after request tool fin repository d i st x :
  quiet_run (after_execution request tool fin repository d i st x).
Proof. apply quiet_bind; [apply quiet_process|intros c; apply quiet_complete]. Qed.

(** ** What the output stage keeps *)

Definition same_identity (x x' : ToolResult) : Prop :=
  res_id x' = res_id x ∧ res_invocation_id x' = res_invocation_id x ∧
  res_tool_id x' = res_tool_id x ∧ res_status x' = res_status x.

Lemma spill_output_Ok d i st sp scope x w w' x' b :
  spill_output d i st sp scope x w = (w', Ok (x', b)) → same_identity x x'.
Proof.
  unfold spill_output, spill.
  destruct (spill_large_tool_result_fields _ _ _ _ _) as [[f y] r] eqn:E. simpl.
  destruct r as [rep|e]; [|unfold abandon; by destruct (append_failed_job_event _ _ _ _ _) as [? []]].
  intros [= _ <- _]. unfold spill_large_tool_result_fields in E.
  repeat case_match; simplify_eq; done.
Qed.

Lemma truncate_identity x max x' rep :
  truncate_oversized_tool_result_fields x max = (x', rep) → same_identity x x'.
Proof.
  unfold truncate_oversized_tool_result_fields. destruct (foldl _ _ _). by intros [= <- <-].
Qed.

Lemma abandon_not_Ok {A} d i st m e w w' (a : A) : abandon d i st m e w ≠ ((w' : World), Ok a).
Proof. unfold abandon. by destruct (append_failed_job_event _ _ _ _ _) as [? []]. Qed.

(** The result is within the limit when it is not spilled. *)
Definition bounded (request : RuntimeJobRequest) (x : ToolResult) : Prop :=
  reject_oversized_tool_result x (req_tool_output_defaults request) = None.

Lemma bound_output_Ok d i st request scope x w w' x' b :
  bound_output d i st request scope x w = (w', Ok (x', b)) →
  same_identity x x' ∧
  (req_artifact_spillover request = None →
   def_oversize_policy (req_tool_output_defaults request) ≠ SpillToArtifactRef →
   Forall valid_field (res_fields x) → bounded request x').
Proof.
  unfold bound_output. destruct (req_artifact_spillover request) as [sp|].
  { intros Hs%spill_output_Ok. by split. }
  destruct (def_oversize_policy _).
  - destruct (truncate_oversized_tool_result_fields x _) as [y [rep|]] eqn:E.
    + intros [= _ <- _]. split; [by apply truncate_identity in E|]. intros _ _ Hv.
      pose proof (truncated_within x (req_tool_output_defaults request) Hv) as Hb.
      by rewrite E in Hb.
    + intros [= _ <- _]. split; [by apply truncate_identity in E|]. intros _ _ Hv.
      pose proof (truncated_within x (req_tool_output_defaults request) Hv) as Hb.
      by rewrite E in Hb.
  - intros Hs%spill_output_Ok. by split.
  - unfold reject_if_oversized.
    destruct (reject_oversized_tool_result x _) as [m|] eqn:Hr.
    + by destruct (abandon _ _ _ _ _ _) as [w1 [[]|]] eqn:E; [apply abandon_not_Ok in E|].
    + intros [= _ <- _]. by split.
Qed.

Lemma process_result_Ok request repository d i st x w w' c :
  process_result request repository d i st x w = (w', Ok c) →
  cmp_decision c = d ∧ cmp_invocation c = i ∧ same_identity x (cmp_result c) ∧
  res_invocation_id x = inv_id i ∧ res_tool_id x = inv_tool_id i ∧
  (req_artifact_spillover request = None →
   def_oversize_policy (req_tool_output_defaults request) ≠ SpillToArtifactRef →
   Forall valid_field (res_fields x) → bounded request (cmp_result c)).
Proof.
  intros E. unfold process_result in E. step_run E. step_run E. step_run E. step_run E.
  destruct a2 as [x' b]. injection E as _ <-. simpl.
  apply bound_output_Ok in Hrun2 as [Hid Hb]. split_and!; try done.
  - unfold validate_runtime_tool_result in Hrun.
    destruct (decide (res_invocation_id x = inv_id i)) as [|Hne]; [done|].
    rewrite bool_decide_eq_false_2 in Hrun by done. by apply abandon_not_Ok in Hrun.
  - unfold validate_runtime_tool_result in Hrun.
    destruct (bool_decide (res_invocation_id x = inv_id i)); [|by apply abandon_not_Ok in Hrun].
    simpl in Hrun. destruct (str_eqb (res_tool_id x) (inv_tool_id i)) eqn:Hs;
      [by apply bool_decide_eq_true in Hs|by apply abandon_not_Ok in Hrun].
Qed.

(** ** Failures after the tool ran *)

(** Errors of the store and of the clock, as opposed to errors of the tool,
    its output or the artifact store. *)
Definition infrastructure_error (e : RuntimeError) : Prop :=
  match e with RtStore _ | RtJobStatusTransition _ => True | _ => False end.

(** The job ended as failed, and its latest event says so. *)
Definition job_failed s (i : JobId) : Prop :=
  ∃ j e from, jobs s !! i = Some j ∧ job_status j = Failed ∧
    job_latest_event_id j = Some (evt_id e) ∧ stored s e ∧
    evt_kind e = JobStatusChanged from Failed ∧ evt_severity e = SevError.

Definition fails_job {A} (i : JobId) (m : M A) : Prop :=
  ∀ w w' e, m w = (w', Err e) → infrastructure_error e ∨ job_failed (view w') i.

Lemma fails_bind {A B} i (m : M A) (k : A → M B) :
  fails_job i m → (∀ a, fails_job i (k a)) →
  fails_job i (λ w, match m w with (w, Ok x) => k x w | (w, Err e) => (w, Err e) end).
Proof.
  intros Hm Hk w w' e. destruct (m w) as [w1 [a|e']] eqn:E; [apply Hk|].
  intros [= <- <-]. by eapply Hm.
Qed.
Lemma fails_ret {A} i (a : A) : fails_job i (ret a).
Proof. intros w w' e [=]. Qed.
Lemma fails_uuid i : fails_job i uuid_new.
Proof. intros w w' e [=]. Qed.
Lemma fails_now i : fails_job i timestamp_now.
Proof. intros w w' e [=]. Qed.
Lemma fails_transition i job next t : fails_job i (transition job next t).
Proof.
  intros w w' e. unfold transition, lift. destruct (transition_status job next t); [done|].
  intros [= <- <-]. by left.
Qed.
Lemma fails_publish {R} i (tx : PubTx R) : fails_job i (call_publish tx).
Proof.
  intros w w' e. unfold call_publish. destruct (backend_publish tx (w_store w)) as [? []]; [done|].
  intros [= <- <-]. by left.
Qed.
Lemma fails_job_event i a b c d e : fails_job i (job_event a b c d e).
Proof. repeat (apply fails_bind; intros); [apply fails_uuid|apply fails_now|apply fails_ret]. Qed.

Lemma abandon_fails {A} id d i st m e :
  id = job_id (stg_job st) → fails_job (A:=A) id (abandon d i st m e).
Proof.
  intros -> w w' e'. unfold abandon.
  destruct (append_failed_job_event _ _ _ _ w) as [w1 [a|e1]] eqn:E.
  2:{ intros [= <- <-]. left. revert E. unfold append_failed_job_event, transition, lift.
      simpl. destruct (transition_status _ _ _); simpl; [|by intros [= <- <-]].
      unfold record_event, call_publish.
      destruct (backend_publish _ _) as [? []]; simpl; [done|by intros [= <- <-]]. }
  intros [= <- <-]. right. unfold append_failed_job_event in E. do 3 step_run E.
  apply transition_Ok in Hrun0 as [-> Htr]. apply transition_keeps in Htr as (Hs & Hid & _).
  assert (Hsev : evt_severity a2 = SevError) by (unfold job_event in Hrun1; by injection Hrun1 as _ <-).
  apply job_event_Ok in Hrun1 as (_ & Hk & _). unfold record_event in E. step_run E.
  injection E as <- _. apply call_publish_spec in Hrun0 as (_ & s1 & _ & es & Htx).
  pose proof (published_update _ _ _ _ _ _ Htx) as [_ _ Hnew].
  apply update_job_facts in Htx as (-> & -> & Hjob). rewrite Hid in Hjob.
  eexists _, (evt_set_sequence a2 (next_event_sequence s1 + 1)), _.
  split_and!; [exact Hjob|done|done| |exact Hk|done]. by apply (Hnew 0%nat).
Qed.

Ltac solve_fails :=
  repeat first
    [ solve [auto using fails_ret, fails_uuid, fails_now, fails_transition, fails_publish,
               fails_job_event]
    | apply abandon_fails; reflexivity
    | apply fails_bind; [|intros ?]
    | case_match ].

Lemma fails_spill i sp scope x : fails_job i (spill sp scope x).
Proof. intros w w' e. unfold spill. by destruct (spill_large_tool_result_fields _ _ _ _ _) as [[]]. Qed.

Lemma process_fails request repository d i st x :
  fails_job (job_id (stg_job st)) (process_result request repository d i st x).
Proof.
  unfold process_result, reject_if_oversized, render_or_abandon, bound_output, spill_output,
    reject_if_oversized. solve_fails; apply fails_spill.
Qed.

Lemma complete_fails request c fin st x :
  fails_job (job_id (stg_job st)) (complete_job request c fin st x).
Proof.
  unfold complete_job, render_or_abandon. solve_fails.
Qed.

Lemma after_fails request tool fin repository d i st x :
  fails_job (job_id (stg_job st)) (after_execution request tool fin repository d i st x).
Proof. apply fails_bind; [apply process_fails|intros c; apply complete_fails]. Qed.

(** ** Successful completion *)

(** Bounding the output touches the store only to fail the job. *)
Definition inert {A} (m : M A) : Prop := ∀ w w' a, m w = (w', Ok a) → view w' = view w.

Lemma inert_bind {A B} (m : M A) (k : A → M B) :
  inert m → (∀ a, inert (k a)) →
  inert (λ w, match m w with (w, Ok x) => k x w | (w, Err e) => (w, Err e) end).
Proof.
  intros Hm Hk w w' b. destruct (m w) as [w1 [a|]] eqn:E; [|done].
  intros ->%Hk. by eapply Hm.
Qed.
Lemma inert_ret {A} (a : A) : inert (ret a).
Proof. by intros w w' b [= <- _]. Qed.
Lemma inert_abandon {A} d i st m e : inert (A:=A) (abandon d i st m e).
Proof. by intros w w' a ?%abandon_not_Ok. Qed.
Lemma inert_spill sp scope x : inert (spill sp scope x).
Proof.
  intros w w' a. unfold spill. destruct (spill_large_tool_result_fields _ _ _ _ _) as [[]].
  by intros [= <- _].
Qed.

Lemma inert_process request repository d i st x : inert (process_result request repository d i st x).
Proof.
  unfold process_result, reject_if_oversized, render_or_abandon, bound_output, spill_output,
    reject_if_oversized.
  repeat first [apply inert_ret | apply inert_abandon | apply inert_spill
               | apply inert_bind; [|intros ?] | case_match].
Qed.

Lemma after_execution_Ok request tool fin repository d i st x w w' rc :
  store_wf (view w) → logged (view w) (stg_events st) →
  after_execution request tool fin repository d i st x w = (w', Ok rc) →
  ∃ c, cmp_decision c = d ∧ cmp_invocation c = i ∧ same_identity x (cmp_result c) ∧
    res_invocation_id x = inv_id i ∧
    (req_artifact_spillover request = None →
     def_oversize_policy (req_tool_output_defaults request) ≠ SpillToArtifactRef →
     Forall valid_field (res_fields x) → bounded request (cmp_result c)) ∧
    completed request (capability_of tool) fin st c (view w') rc.
Proof.
  intros Hwf Hst E. unfold after_execution in E. step_run E. exists a.
  pose proof (inert_process _ _ _ _ _ _ _ _ _ Hrun) as Hv.
  apply process_result_Ok in Hrun as (? & ? & ? & ? & _ & ?).
  apply complete_job_Ok in E; [|by rewrite Hv..]. by split_and!.
Qed.

Lemma terminal_status_terminal x : is_terminal (terminal_status_of x) = true.
Proof. by destruct x. Qed.

(** The outcome of the default engine on the input of a run. *)
Lemma default_outcome u t request tool repository :
  pol_outcome (engine_evaluate MkDefaultPolicyEngine u t
                 (policy_input request tool (capability_of tool) repository)) =
  (verdict (from_name (capability_of tool)) (repo_trust_state repository) true false).1.
Proof.
  exact (f_equal fst (evaluate_rule_verdict
    (policy_input request tool (capability_of tool) repository))).
Qed.

Lemma verdict_confines c t :
  permits (verdict c t true false).1 = true →
  t ≠ TrustBlocked ∧
  (is_repository_mutating c = true →
     t = Trusted ∧ (verdict c t true false).1 = Audited ∧ (c = FilesystemWrite ∨ c = ProcessExec)).
Proof. destruct c, t; simpl; intros; split_and?; try done; intros; split_and?; auto. Qed.

(** A job that is queued or running now never was in a terminal status. *)
Lemma job_live_before j j' :
  job_le j j' →
  negb (bool_decide (job_status j' = Queued) || bool_decide (job_status j' = Running)) = false →
  is_terminal (job_status j) = false.
Proof.
  intros [_ _ _ _ _ _ _ Hs]. destruct (job_status j'), (job_status j); simpl in *; intros;
    destruct Hs; try done; lia.
Qed.
End Theorems.

(** * The properties of the job runner *)

Section Guarantees.
Context `{UuidLib} `{RegistryPort} `{Entropy} `{Renderer} `{ArtifactDefaults}.
Context {S F : Type} `{!StoreBackend S} `{!StoreBackendLaws S} `{!ArtifactWriter string F}.
Context {T : Type} `{!RuntimeTool T}.
Implicit Types (w : World S F) (s : InMemoryInner) (tool : T).

(** C1: every tool execution is mediated by the policy.  Whatever the engine,
    the tool, the other clients of the store and the I/O failures, a run
    executes the tool at most once, and only after it brought the store to a
    state [s0] where the job was running, the invocation and the decision that
    permits it were recorded, that decision was the engine's answer for this
    request, tool and repository, and the ledger's latest event of the job
    announced the call.  Other clients may act between [s0] and the state [s] in
    which the tool starts (and may have cancelled the job by then); the job is
    still stored, and the decision, the invocation and the events are. *)
Theorem tool_runs_only_after_permission {P} `{!PolicyEngine P} (engine : P) request tool fin w w' r :
  store_wf (view w) →
  run_tool_job_with_finalizer engine request tool fin w = (w', r) →
  rtc store_step (view w) (view w') ∧
  (w_executed w' = w_executed w ∨
   ∃ i s0 s repository d st, w_executed w' = w_executed w ++ [(i, s)] ∧
     rtc store_step (view w) s0 ∧ rtc store_step s0 s ∧ rtc store_step s (view w') ∧
     permitted engine request tool s0 repository d i st ∧
     policy_decisions s !! pol_id d = Some d ∧ tool_invocations s !! inv_id i = Some i ∧
     logged s (stg_events st) ∧
     ∃ j, jobs s !! inv_job_id i = Some j ∧ job_le (stg_job st) j).
Proof.
  intros Hwf [[[Hs He] _]|(w1 & w2 & repository & d & i & st & x & [Hs1 He1] & Hp & Hx & Ha)]%run_cases;
    [by auto| |done].
  apply execute_tool_spec in Hx as [Hs2 He2]. apply quiet_after in Ha as [Hs3 He3].
  split; [by repeat (etrans; [eassumption|])|right].
  destruct (permitted_before _ _ _ _ _ _ _ _ _ (store_steps_wf _ _ Hwf Hs1) Hp Hs2) as (_ & Hle & Hlog).
  exists i, (view w1), (view w2), repository, d, st. split_and!; try done; [congruence| | |].
  - by eapply lookup_weaken, le_policies; [apply Hp|].
  - by eapply lookup_weaken, le_invocations; [apply Hp|].
  - rewrite (pm_job_id _ _ _ _ _ _ _ _ Hp). by eapply le_jobs, so_job, Hp.
Qed.

(** With the default policy engine no tool runs in a blocked repository,
    and a tool that changes the repository runs only in a trusted one, for a
    bounded write or process execution, under an audited decision. *)
Theorem default_engine_confines_tools request tool fin w w' r :
  store_wf (view w) →
  run_tool_job_with_finalizer MkDefaultPolicyEngine request tool fin w = (w', r) →
  w_executed w' ≠ w_executed w →
  ∃ repository d, repositories (view w') !! req_repository_id request = Some repository ∧
    repo_trust_state repository ≠ TrustBlocked ∧
    policy_decisions (view w') !! pol_id d = Some d ∧
    (is_repository_mutating (from_name (capability_of tool)) = true →
       repo_trust_state repository = Trusted ∧ pol_outcome d = Audited ∧
       (from_name (capability_of tool) = FilesystemWrite ∨
        from_name (capability_of tool) = ProcessExec)).
Proof.
  intros Hwf [[[_ He] _]|(w1 & w2 & repository & d & i & st & x & Hev & Hp & Hx & Ha)]%run_cases Hne;
    [congruence| |done].
  destruct (evolves_le w w1 Hwf Hev) as [Hwf1 _].
  apply execute_tool_spec in Hx as [Hs _]. apply quiet_after in Ha as [Hs3 _].
  pose proof (store_steps_le _ _ Hwf1 (transitivity (R:=rtc store_step) Hs Hs3)) as Hle.
  destruct Hp as [_ _ _ Hrepo Hd (u & t & Hd') Hperm _ _ _ _ _ _ _]. exists repository, d.
  rewrite Hd', default_outcome in Hperm. apply verdict_confines in Hperm as [Htrust Hmut].
  split_and!; [by eapply lookup_weaken, le_repositories|done|by eapply lookup_weaken, le_policies|].
  by rewrite Hd', default_outcome.
Qed.

(** C6: a receipt is the truth.  When a run returns a receipt, the store holds
    exactly its job, in a terminal status, its decision and its events, in the
    order of the receipt and the last of them the job's latest; a job that was
    stopped ran no tool, and otherwise the store holds exactly the receipt's
    invocation, result and audit record, which belong together, and the job's
    status is the one the tool's result calls for. *)
Theorem receipts_match_the_store {P} `{!PolicyEngine P} (engine : P) request tool fin w w' rc :
  store_wf (view w) →
  run_tool_job_with_finalizer engine request tool fin w = (w', Ok rc) →
  stage_ok (view w') (receipt_stage rc) ∧ is_terminal (job_status (rcp_job rc)) = true ∧
  policy_decisions (view w') !! pol_id (rcp_policy_decision rc) = Some (rcp_policy_decision rc) ∧
  match rcp_tool_invocation rc, rcp_tool_result rc, rcp_audit_record rc with
  | None, None, None =>
      job_status (rcp_job rc) = Blocked ∧ w_executed w' = w_executed w ∧
      permits (pol_outcome (rcp_policy_decision rc)) = false
  | Some i, Some x, Some a =>
      permits (pol_outcome (rcp_policy_decision rc)) = true ∧
      tool_invocations (view w') !! inv_id i = Some i ∧
      tool_results (view w') !! res_id x = Some x ∧ audit_records (view w') !! aud_id a = Some a ∧
      inv_job_id i = job_id (rcp_job rc) ∧ res_invocation_id x = inv_id i ∧
      aud_tool_invocation_id a = Some (inv_id i) ∧
      job_status (rcp_job rc) = terminal_status_of (res_status x)
  | _, _, _ => False
  end.
Proof.
  intros Hwf [[[_ He] Hst]|(w1 & w2 & repository & d & i & st & x & Hev & Hp & Hx & Ha)]%run_cases;
    [| |done].
  { destruct Hst as (Hst & Hs & Hd & Hperm & -> & -> & _ & ->). rewrite Hs. by split_and!. }
  destruct (evolves_le w w1 Hwf Hev) as [Hwf1 _]. apply execute_tool_spec in Hx as [Hs He2].
  pose proof (quiet_after _ _ _ _ _ _ _ _ _ _ _ Ha) as [Hs2 He3].
  destruct (permitted_before _ _ _ _ _ _ _ _ _ Hwf1 Hp Hs) as (Hwf2 & _ & Hlog).
  apply after_execution_Ok in Ha as (c & Hcd & Hci & Hid & Hinv & _ & Hc); [|done..].
  pose proof (store_steps_le _ _ Hwf1 (transitivity (R:=rtc store_step) Hs Hs2)) as Hle.
  destruct Hc as [Hstage Hstat Hjob -> -> -> Hres _ (a & -> & Haud & Hai & _) _], Hp, Hid as (_ & Hid & _).
  subst. rewrite Hstat, terminal_status_terminal.
  split_and!; try done; try congruence.
  - by eapply lookup_weaken, le_policies.
  - by eapply lookup_weaken, le_invocations.
Qed.

(** The durable idempotency receipt of a succeeded job is the receipt the
    caller got: if the finalizer binds the receipt it is shown to a key, the
    store binds that key to the receipt the run returns, committed events and
    all, so a retry replays the original answer. *)
Theorem idempotency_receipt_is_the_receipt {P} `{!PolicyEngine P} (engine : P) request tool key
    signature w w' rc :
  store_wf (view w) →
  run_tool_job_with_finalizer engine request tool
    (Some (λ r, Some (key, {| idem_signature := signature; idem_receipt := r |}))) w = (w', Ok rc) →
  job_status (rcp_job rc) = Succeeded →
  idempotent_submit_jobs (view w') !! key =
    Some {| idem_signature := signature; idem_receipt := rc |}.
Proof.
  intros Hwf [[_ Hst]|(w1 & w2 & repository & d & i & st & x & Hev & Hp & Hx & Ha)]%run_cases Hsucc;
    [| |done].
  { destruct Hst as (_ & Hs & _). congruence. }
  destruct (evolves_le w w1 Hwf Hev) as [Hwf1 _]. apply execute_tool_spec in Hx as [Hs _].
  destruct (permitted_before _ _ _ _ _ _ _ _ _ Hwf1 Hp Hs) as (Hwf2 & _ & Hlog).
  apply after_execution_Ok in Ha as (c & _ & _ & _ & _ & _ & Hc); [|done..].
  by eapply co_receipt.
Qed.

(** C35: stored output is within the limit.  With the truncating or the
    rejecting policy and no artifact spillover, no field of the result a run
    stores is over the configured size, for any tool that produces valid
    strings. *)
Theorem stored_output_is_bounded {P} `{!PolicyEngine P} (engine : P) request tool fin w w' rc x :
  store_wf (view w) →
  (∀ i src, Forall valid_field (res_fields (execute tool i request src).2)) →
  req_artifact_spillover request = None →
  def_oversize_policy (req_tool_output_defaults request) ≠ SpillToArtifactRef →
  run_tool_job_with_finalizer engine request tool fin w = (w', Ok rc) →
  rcp_tool_result rc = Some x →
  tool_results (view w') !! res_id x = Some x ∧
  ∀ field size, field ∈ res_fields x →
    field_bytes (field_value field) = Some size →
    (size ≤ max_inline_bytes_as_usize (def_max_inline_bytes (req_tool_output_defaults request)))%N.
Proof.
  intros Hwf Hvalid Hsp Hpol
    [[_ Hst]|(w1 & w2 & repository & d & i & st & y & Hev & Hp & Hx & Ha)]%run_cases Hrx; [| |done].
  { destruct Hst as (_ & _ & _ & _ & _ & Hnone & _). congruence. }
  destruct (evolves_le w w1 Hwf Hev) as [Hwf1 _].
  assert (Forall valid_field (res_fields y)) as Hy.
  { unfold execute_tool in Hx. specialize (Hvalid i (w_sources w1)).
    destruct (execute tool i request (w_sources w1)). by injection Hx as _ <-. }
  apply execute_tool_spec in Hx as [Hs _].
  destruct (permitted_before _ _ _ _ _ _ _ _ _ Hwf1 Hp Hs) as (Hwf2 & _ & Hlog).
  apply after_execution_Ok in Ha as (c & _ & _ & _ & _ & Hb & Hc); [|done..].
  rewrite (co_result _ _ _ _ _ _ _ Hc) in Hrx. injection Hrx as <-.
  split; [by eapply co_result_stored|]. intros field size Hin Hsize.
  specialize (Hb Hsp Hpol Hy). apply reject_oversized_iff in Hb.
  by eapply oversized_nil_bound.
Qed.

(** C12: a run that fails because of the tool, its output or the artifact store
    fails the job: if a run executed the tool and returned an error, then either
    the error is one of the store or of a status transition, which says nothing
    of the job (a rejected transition may leave it running), or the job is stored
    as failed and the ledger's latest event of it says so. *)
Theorem tool_errors_fail_the_job {P} `{!PolicyEngine P} (engine : P) request tool fin w w' e :
  store_wf (view w) →
  run_tool_job_with_finalizer engine request tool fin w = (w', Err e) →
  w_executed w' ≠ w_executed w →
  infrastructure_error e ∨
  ∃ i s, w_executed w' = w_executed w ++ [(i, s)] ∧ job_failed (view w') (inv_job_id i).
Proof.
  intros Hwf [[[_ He] _]|(w1 & w2 & repository & d & i & st & x & [_ He1] & Hp & Hx & Ha)]%run_cases Hne;
    [congruence| |done].
  pose proof (quiet_after _ _ _ _ _ _ _ _ _ _ _ Ha) as [_ He3].
  apply execute_tool_spec in Hx as [_ He2].
  apply after_fails in Ha as [|Hf]; [by left|right]. exists i, (view w2).
  split; [congruence|]. by rewrite (pm_job_id _ _ _ _ _ _ _ _ Hp).
Qed.

(** Cancellation is exact.  A successful cancellation leaves the job
    cancelled with the cancellation requested, and adds two consecutive events,
    the request and the status change, the second of them the job's latest; and
    a job that has ended is never cancelled. *)
Theorem cancel_job_exact i reason w w' rc :
  store_wf (view w) → cancel_job i reason w = (w', Ok rc) →
  jobs (view w') !! i = Some (can_job rc) ∧ job_status (can_job rc) = Canceled ∧
  job_cancellation_state (can_job rc) = Requested ∧
  (∀ j, jobs (view w) !! i = Some j → is_terminal (job_status j) = false) ∧
  ∃ requested changed from, can_events rc = [requested; changed] ∧
    stored (view w') requested ∧ stored (view w') changed ∧
    evt_kind requested = CancellationRequested ∧ evt_kind changed = JobStatusChanged from Canceled ∧
    evt_sequence_number changed = (evt_sequence_number requested + 1)%N ∧
    job_latest_event_id (can_job rc) = Some (evt_id changed).
Proof.
  intros Hwf E. unfold cancel_job in E. step_run E. rename a into job.
  apply call_read_spec in Hrun as [Hev Hget]. apply ok_or_Ok in Hget.
  destruct (negb _) eqn:Hlive; [done|].
  destruct (evolves_le w w0 Hwf Hev) as [Hwf0 Hle0].
  pose proof (kw_jobs _ (sw_keys _ Hwf0) _ _ Hget) as Hid.
  do 5 step_run E. destruct a3 as [requested changed]. injection E as <- <-.
  apply job_event_Ok in Hrun as (_ & Hk & _). apply transition_Ok in Hrun1 as [-> Htr].
  apply job_event_Ok in Hrun2 as (_ & Hk' & _).
  apply transition_status_Ok in Htr as (_ & _ & ->).
  apply call_publish_spec in Hrun3 as (_ & s1 & _ & es & Htx).
  pose proof (published_update_twice _ _ _ _ _ _ _ _ Htx) as [_ _ Hnew].
  apply update_twice_facts in Htx as (-> & Hr & Hc & Hjob). simpl in *. rewrite Hid in Hjob.
  split_and!; try done.
  - by rewrite Hc.
  - intros j Hj. destruct (le_jobs _ _ Hle0 _ _ Hj) as (j' & Hj' & Hjle).
    simplify_eq. by eapply job_live_before.
  - exists requested, changed, (job_status job). split_and!; try done.
    + by apply (Hnew 0%nat).
    + by apply (Hnew 1%nat).
    + by rewrite Hr.
    + by rewrite Hc.
    + rewrite Hr, Hc. simpl. lia.
Qed.
End Guarantees.
