(* ===== verification/ToolOutput.v ===== *)
(** * ToolOutput: the renderers of tool results ([tool_output.rs])

    A result is first reduced to what the policy renders (channels, number of
    fields, references, byte budget per field), then written as TOON lines, as
    one line of text or as JSON.  [serde_json] is a parameter. *)
From S2P Require Import Prelude Text Domain StoreTypes Settings Truncation Spill Runtime.

Definition TOOL_RESULT_SCHEMA_NAME : string := "tool_result".

(** [OutputFormat::as_str] *)
Definition format_name (f : OutputFormat) : string :=
  match f with Toon => "toon" | Json => "json" | Text => "text" end.

Definition nlen {A} (l : list A) : N := N.of_nat (length l).
(** [Vec::truncate] and [Iterator::take], computed in binary. *)
Definition takeN {A} (n : N) (l : list A) : list A := take (N.to_nat (N.min n (nlen l))) l.
Definition count_text {A} (l : list A) : string := usize_to_string (nlen l).

(** ** Values *)

Definition comma : ascii := ",".
Definition quote_char : ascii := ascii_of_N 34.
Definition backslash : ascii := ascii_of_N 92.
Definition open_brace : ascii := "{".
Definition close_brace : ascii := "}".

(** The punctuation that is quoted in TOON: comma, brackets, braces, both quotes,
    hash, colon and backslash. *)
Definition quoted_marks : list ascii :=
  [comma; "["%char; "]"%char; open_brace; close_brace; quote_char; ascii_of_N 39; "#"%char; ":"%char;
   backslash].
Definition needs_quotes (character : bytes) : bool :=
  is_control character || is_whitespace character
  || match character with [c] => bool_decide (c ∈ quoted_marks) | _ => false end.

Definition is_toon_literal (value : string) : bool :=
  str_in value ["null"; "true"; "false"] || is_some (parse_i64 value) || parses_as_f64 value.

(** What [quote_string] pushes for one character. *)
Definition escape_char (character : bytes) : bytes :=
  match character with
  | [c] =>
      if bool_decide (c = backslash) then [backslash; backslash]
      else if bool_decide (c = quote_char) then [backslash; quote_char]
      else if bool_decide (c = line_feed) then [backslash; "n"%char]
      else if bool_decide (c = carriage_return) then [backslash; "r"%char]
      else if bool_decide (c = ascii_of_N 9) then [backslash; "t"%char]
      else if is_control character
      then [backslash; "u"%char; open_brace] ++ hex_u32 (char_u32 character) ++ [close_brace]
      else character
  | _ =>
      if is_control character
      then [backslash; "u"%char; open_brace] ++ hex_u32 (char_u32 character) ++ [close_brace]
      else character
  end.
Definition quote_string (value : string) : string :=
  of_bytes (quote_char :: concat (map escape_char (chars value)) ++ [quote_char]).

Definition render_toon_value (value : string) : string :=
  if str_is_empty value || is_toon_literal value || existsb needs_quotes (chars value)
  then quote_string value else value.

Definition render_optional_string (value : option string) : string :=
  match value with Some value => render_toon_value value | None => "null" end.

Definition render_structured_value (value : StructuredValue) : string :=
  match value with
  | SvNull => "null"
  | SvBool value => if value then "true" else "false"
  | SvInteger value => i64_to_string value
  | SvString value => render_toon_value value
  | SvStringList values => "[" +:+ join "," (map render_toon_value values) +:+ "]"
  end.

(** The loop of [normalize_text_output_value]; [chars.peek] looks at the rest. *)
Fixpoint normalize_bytes (l : bytes) : bytes :=
  match l with
  | [] => []
  | c :: rest =>
      if bool_decide (c = carriage_return) then
        " "%char ::
        match rest with
        | d :: rest' => if bool_decide (d = line_feed) then normalize_bytes rest' else normalize_bytes rest
        | [] => []
        end
      else if bool_decide (c = line_feed) then " "%char :: normalize_bytes rest
      else c :: normalize_bytes rest
  end.
Definition normalize_text_output_value (value : string) : string :=
  if negb (any_char (λ c, bool_decide (c = carriage_return) || bool_decide (c = line_feed)) value)
  then value else of_bytes (normalize_bytes (to_bytes value)).

Definition status_name (status : ToolResultStatus) : string :=
  match status with
  | TrSucceeded => "succeeded"
  | TrFailed => "failed"
  | TrCanceled => "canceled"
  | TrTimedOut => "timeout"
  end.

Definition schema_version (result : ToolResult) : string :=
  TOOL_RESULT_SCHEMA_NAME +:+ ".v" +:+ usize_to_string (res_schema_version result).

Fixpoint find_summary (fields : list ToolResultField) : option string :=
  match fields with
  | [] => None
  | field :: fields =>
      match field_value field with
      | SvString value => if str_eqb (field_key field) "summary" then Some value else find_summary fields
      | _ => find_summary fields
      end
  end.
Definition summary_field (result : ToolResult) : option string := find_summary (res_fields result).

(** ** Channels *)

Inductive OptionalFieldChannel := ChannelPolicy | ChannelDiagnostics | ChannelCost.

Definition optional_field_channel (key : string) : option OptionalFieldChannel :=
  let normalized := replace_chars ["-"%char; "."%char; " "%char] "_"%char
                      (to_ascii_lowercase (trim key)) in
  if str_eqb normalized "policy" || starts_with "policy_" normalized
     || str_in normalized ["needs_approval"; "blocked_reason"]
  then Some ChannelPolicy
  else if str_in normalized ["diagnostic"; "diagnostics"] || starts_with "diagnostic_" normalized
          || starts_with "diagnostics_" normalized
          || str_in normalized ["retry_hint"; "parser_failure"]
  then Some ChannelDiagnostics
  else if str_eqb normalized "cost" || starts_with "cost_" normalized
          || ends_with "_tokens" normalized || str_in normalized ["duration_ms"; "elapsed_ms"]
  then Some ChannelCost
  else None.

Definition should_render_field (key : string) (options : RenderOptions) : bool :=
  match optional_field_channel key with
  | Some ChannelPolicy => rend_include_policy options
  | Some ChannelDiagnostics => rend_include_diagnostics options
  | Some ChannelCost => rend_include_cost options
  | None => true
  end.

(** ** The byte budget *)

Definition oversized_field_bytes (field : ToolResultField) (max_inline_bytes : N) : option N :=
  let check bytes := if (max_inline_bytes <? bytes)%N then Some bytes else None in
  match field_value field with
  | SvString value => check (str_len value)
  | SvStringList [] => check 0%N
  | SvStringList values => check (foldr (λ value n, (str_len value + n)%N) 0%N values + (nlen values - 1))%N
  | SvNull | SvBool _ | SvInteger _ => None
  end.

Definition truncate_string_value (value : string) (max_inline_bytes : N) : option string :=
  if (str_len value <=? max_inline_bytes)%N then None
  else let l := to_bytes value in
       Some (of_bytes (take (back_to_boundary l (N.to_nat max_inline_bytes)) l)).

(** The loop over the values. *)
Fixpoint truncate_values (values : list string) (max_inline_bytes : N) (kept_values : list string)
  (kept_bytes : N) : list string * N :=
  match values with
  | [] => (kept_values, kept_bytes)
  | value :: values =>
      let separator := match kept_values with [] => 0 | _ => 1 end%N in
      let remaining := saturating_sub max_inline_bytes (saturating_add_u64 kept_bytes separator) in
      if (remaining =? 0)%N then (kept_values, kept_bytes)
      else
        match or_else (truncate_string_value value remaining)
                (if (str_len value <=? remaining)%N then Some value else None) with
        | None => (kept_values, kept_bytes)
        | Some truncated =>
            if str_is_empty truncated then truncate_values values max_inline_bytes kept_values kept_bytes
            else truncate_values values max_inline_bytes (kept_values ++ [truncated])
                   (saturating_add_u64 kept_bytes (separator + str_len truncated))
        end
  end.
Definition truncate_string_list (values : list string) (max_inline_bytes : N) : list string * N :=
  truncate_values values max_inline_bytes [] 0.

Record BudgetTotals := {
  bt_omitted_fields : N;
  bt_original_bytes : N;
  bt_retained_bytes : N
}.

(** One round of the loop over the fields. *)
Definition budget_field (max_inline_bytes : N) (totals : BudgetTotals) (field : ToolResultField)
  : ToolResultField * BudgetTotals :=
  match oversized_field_bytes field max_inline_bytes with
  | None => (field, totals)
  | Some bytes =>
      let '(value, retained) :=
        match field_value field with
        | SvString value =>
            match truncate_string_value value max_inline_bytes with
            | Some truncated => (SvString truncated, str_len truncated)
            | None => (field_value field, 0%N)
            end
        | SvStringList values =>
            let '(truncated, retained) := truncate_string_list values max_inline_bytes in
            (SvStringList truncated, retained)
        | value => (value, 0%N)
        end in
      ({| field_key := field_key field; field_value := value |},
       {| bt_omitted_fields := bt_omitted_fields totals + 1;
          bt_original_bytes := saturating_add_u64 (bt_original_bytes totals) bytes;
          bt_retained_bytes := saturating_add_u64 (bt_retained_bytes totals) retained |})
  end.
Fixpoint budget_fields (max_inline_bytes : N) (totals : BudgetTotals) (fields : list ToolResultField)
  : list ToolResultField * BudgetTotals :=
  match fields with
  | [] => ([], totals)
  | field :: fields =>
      let '(field, totals) := budget_field max_inline_bytes totals field in
      let '(fields, totals) := budget_fields max_inline_bytes totals fields in
      (field :: fields, totals)
  end.

Definition max_inline_bytes_as_usize (max_inline_bytes : N) : N :=
  if (max_inline_bytes <=? usize_max)%N then max_inline_bytes else usize_max.

Definition oversized_details (fields : list ToolResultField) (max_inline_bytes : N)
  : list (string * N) :=
  omap (λ field, (λ bytes, (field_key field, bytes)) <$> oversized_field_bytes field max_inline_bytes)
    fields.

Definition apply_render_byte_budget (result : ToolResult) (max_inline_bytes : N)
  (oversize_policy : OversizeOutputPolicy)
  : Prelude.result ToolOutputRenderError (ToolResult * option string) :=
  let max_inline_bytes := max_inline_bytes_as_usize max_inline_bytes in
  match oversized_details (res_fields result) max_inline_bytes with
  | [] => Ok (result, None)
  | oversized_fields =>
      let details := join ", " (map (λ '(key, size),
        key +:+ " (" +:+ usize_to_string size +:+ " bytes)") oversized_fields) in
      let limit := usize_to_string max_inline_bytes in
      match oversize_policy with
      | RejectOversize =>
          Err (OversizeOutput
            (Fmt "tool output field(s) exceed max_inline_bytes={max_inline_bytes} with configured policy reject_oversize: {details}"
               [ANum (Z.of_N max_inline_bytes); AStr details]))
      | TruncateWithMetadata | SpillToArtifactRef =>
          let '(fields, totals) :=
            budget_fields max_inline_bytes
              {| bt_omitted_fields := 0; bt_original_bytes := 0; bt_retained_bytes := 0 |}
              (res_fields result) in
          if (bt_omitted_fields totals =? 0)%N then Ok (res_set_fields result fields, None)
          else
            let reason := "rendering truncated oversized tool output to max_inline_bytes=" +:+ limit in
            let truncation := merge_runtime_truncation (res_truncation result)
              (bt_original_bytes totals) (bt_retained_bytes totals) reason in
            Ok (res_set_truncation (res_set_fields result fields) (Some truncation),
                Some ("rendering truncated oversized output to max_inline_bytes=" +:+ limit
                      +:+ "; omitted fields=" +:+ usize_to_string (bt_omitted_fields totals)
                      +:+ ", details=" +:+ details))
      end
  end.

(** ** What is rendered *)

Definition combine_fallback_reasons (policy_reason truncation_reason : option string)
  : option string :=
  match policy_reason, truncation_reason with
  | None, None => None
  | Some reason, None | None, Some reason => Some reason
  | Some policy_reason, Some truncation_reason => Some (policy_reason +:+ "; " +:+ truncation_reason)
  end.

(** [sort_by_key(|field| field.key != "summary")], which is stable: the
    summaries first, the others behind them, both in order. *)
Definition is_summary (field : ToolResultField) : bool := str_eqb (field_key field) "summary".
Definition prioritize_renderable_fields (fields : list ToolResultField) : list ToolResultField :=
  List.filter is_summary fields ++ List.filter (λ field, negb (is_summary field)) fields.

Definition res_set_refs (r : ToolResult) (evidence_refs : list ArtifactRef)
  (output_refs : list OutputRef) (redactions : list RedactionMarker) : ToolResult := {|
  res_id := res_id r; res_schema_version := res_schema_version r;
  res_created_at := res_created_at r; res_invocation_id := res_invocation_id r;
  res_tool_id := res_tool_id r; res_status := res_status r; res_schema_ref := res_schema_ref r;
  res_fields := res_fields r; res_evidence_refs := evidence_refs; res_output_refs := output_refs;
  res_truncation := res_truncation r; res_redactions := redactions |}.

(** The result without the fields and references the policy leaves out. *)
Definition select_renderable (result : ToolResult) (policy : ToolOutputRenderPolicy) : ToolResult :=
  let fields := List.filter (λ field, should_render_field (field_key field) (rpol_render_options policy))
                  (res_fields result) in
  let fields := match rpol_max_fields policy with
                | Some max_fields => takeN max_fields (prioritize_renderable_fields fields)
                | None => fields
                end in
  res_set_refs (res_set_fields result fields)
    (if rpol_include_evidence_refs policy then res_evidence_refs result else [])
    (if rpol_include_output_refs policy then res_output_refs result else [])
    (if rpol_include_redactions policy then res_redactions result else []).

Definition renderable_result (result : ToolResult) (policy : ToolOutputRenderPolicy)
  : Prelude.result ToolOutputRenderError (ToolResult * option string) :=
  let result := select_renderable result policy in
  match rpol_max_inline_bytes policy with
  | Some max_inline_bytes =>
      let? '(result, byte_budget_reason) :=
        apply_render_byte_budget result max_inline_bytes (rpol_oversize_policy policy) in
      Ok (result, combine_fallback_reasons None byte_budget_reason)
  | None => Ok (result, None)
  end.

Definition omitted {A} (original rendered : list A) : N := saturating_sub (nlen original) (nlen rendered).
Definition render_policy_fallback_reason (original rendered : ToolResult) : option string :=
  let omitted_fields := omitted (res_fields original) (res_fields rendered) in
  let omitted_evidence_refs := omitted (res_evidence_refs original) (res_evidence_refs rendered) in
  let omitted_output_refs := omitted (res_output_refs original) (res_output_refs rendered) in
  let omitted_redactions := omitted (res_redactions original) (res_redactions rendered) in
  if ((0 <? omitted_fields) || (0 <? omitted_evidence_refs) || (0 <? omitted_output_refs)
      || (0 <? omitted_redactions))%N
  then Some ("render policy compacted output; omitted fields=" +:+ usize_to_string omitted_fields
             +:+ ", evidence_refs=" +:+ usize_to_string omitted_evidence_refs
             +:+ ", output_refs=" +:+ usize_to_string omitted_output_refs
             +:+ ", redactions=" +:+ usize_to_string omitted_redactions)
  else None.

(** ** TOON *)

Record ToonSection := {
  sec_label : string;
  sec_count : N;
  sec_lines : list string
}.

Definition build_fields_section (fields : list ToolResultField) : list string :=
  match fields with
  | [] => []
  | _ =>
      ("fields[" +:+ count_text fields +:+ "]{key,value}") ::
      map (λ field, "  " +:+ render_toon_value (field_key field) +:+ ","
                    +:+ render_structured_value (field_value field)) fields
  end.

Definition build_artifact_refs_section (label : string) (refs : list ArtifactRef) : list string :=
  match refs with
  | [] => []
  | _ =>
      (label +:+ "[" +:+ count_text refs +:+ "]{id,uri,media_type,label,digest}") ::
      map (λ reference,
        "  " +:+ as_str (aref_id reference) +:+ "," +:+ render_toon_value (aref_uri reference) +:+ ","
        +:+ render_toon_value (aref_media_type reference) +:+ ","
        +:+ render_optional_string (aref_label reference) +:+ ","
        +:+ render_optional_string (aref_digest reference)) refs
  end.

Definition build_output_refs_section (refs : list OutputRef) : list string :=
  match refs with
  | [] => []
  | _ =>
      ("output_refs[" +:+ count_text refs +:+ "]{id,uri,media_type,label,digest}") ::
      map (λ reference,
        "  " +:+ as_str (oref_id reference) +:+ "," +:+ render_toon_value (oref_uri reference) +:+ ","
        +:+ render_toon_value (oref_media_type reference) +:+ ","
        +:+ render_optional_string (oref_label reference) +:+ ","
        +:+ render_optional_string (oref_digest reference)) refs
  end.

Definition build_truncation_section (truncation : TruncationMetadata) : list string :=
  ["truncation"; "  truncated true";
   "  original_bytes " +:+ usize_to_string (trunc_original_bytes truncation);
   "  retained_bytes " +:+ usize_to_string (trunc_retained_bytes truncation);
   "  reason " +:+ render_toon_value (trunc_reason truncation)].

Definition build_redactions_section (redactions : list RedactionMarker) : list string :=
  match redactions with
  | [] => []
  | _ =>
      ("redactions[" +:+ count_text redactions +:+ "]{field_path,reason,redacted_at_ms}") ::
      map (λ redaction,
        "  " +:+ render_toon_value (red_field_path redaction) +:+ ","
        +:+ render_toon_value (red_reason redaction) +:+ ","
        +:+ i64_to_string (red_redacted_at redaction)) redactions
  end.

Definition toon_sections (result : ToolResult) : list ToonSection :=
  [{| sec_label := "fields"; sec_count := nlen (res_fields result);
      sec_lines := build_fields_section (res_fields result) |};
   {| sec_label := "evidence_refs"; sec_count := nlen (res_evidence_refs result);
      sec_lines := build_artifact_refs_section "evidence_refs" (res_evidence_refs result) |};
   {| sec_label := "output_refs"; sec_count := nlen (res_output_refs result);
      sec_lines := build_output_refs_section (res_output_refs result) |}] ++
  match res_truncation result with
  | Some truncation =>
      [{| sec_label := "truncation"; sec_count := 1; sec_lines := build_truncation_section truncation |}]
  | None => []
  end ++
  [{| sec_label := "redactions"; sec_count := nlen (res_redactions result);
      sec_lines := build_redactions_section (res_redactions result) |}].

(** The lines every rendering starts with ([fallback_reason] is [None] in every
    call of [render_toon]). *)
Definition toon_prelude (result : ToolResult) (fallback_reason : option string) : list string :=
  ["status " +:+ status_name (res_status result);
   "schema_version " +:+ schema_version result;
   "format " +:+ format_name Toon] ++
  match fallback_reason with
  | Some reason => ["requested_format " +:+ render_toon_value (format_name Json);
                    "format_fallback_reason " +:+ render_toon_value reason]
  | None => []
  end ++
  ["tool_id " +:+ render_toon_value (res_tool_id result);
   "result_id " +:+ as_str (res_id result);
   "invocation_id " +:+ as_str (res_invocation_id result)] ++
  match res_schema_ref result with
  | Some schema_ref => ["schema_ref " +:+ render_toon_value schema_ref]
  | None => []
  end.

Definition section_total (label : string) (sections : list ToonSection) : N :=
  foldr (λ section n, (sec_count section + n)%N) 0%N
    (List.filter (λ section, str_eqb (sec_label section) label) sections).
Definition format_omitted_section_counts (sections : list ToonSection) : string :=
  let total label := usize_to_string (section_total label sections) in
  "fields=" +:+ total "fields" +:+ ", evidence_refs=" +:+ total "evidence_refs"
  +:+ ", output_refs=" +:+ total "output_refs" +:+ ", truncation=" +:+ total "truncation"
  +:+ ", redactions=" +:+ total "redactions".

Definition rendering_truncation_reason (omitted_sections : list ToonSection)
  (max_inline_lines : option N) (omitted_section : string) (prelude_lines_omitted : option N)
  : string :=
  "toon rendering truncated to max_inline_lines="
  +:+ match max_inline_lines with Some value => usize_to_string value | None => "unbounded" end
  +:+ " before " +:+ omitted_section
  +:+ match prelude_lines_omitted with
      | Some value => "; prelude_lines_omitted=" +:+ usize_to_string value
      | None => ""
      end
  +:+ "; omitted " +:+ format_omitted_section_counts omitted_sections.

Definition build_rendering_truncation_notice (reason : string) (remaining_lines : N) : list string :=
  if (remaining_lines <=? 1)%N
  then ["rendering_truncated true; rendering_truncation_reason " +:+ render_toon_value reason]
  else ["rendering_truncated true"; "rendering_truncation_reason " +:+ render_toon_value reason].

(** [max.is_some_and(|max| n > max)] *)
Definition exceeds (max : option N) (n : N) : bool :=
  match max with Some max => (max <? n)%N | None => false end.

(** The loop over the sections: the lines so far, and the reason to stop. *)
Fixpoint append_sections (max_inline_lines : option N) (sections : list ToonSection) (body_lines : N)
  (lines : list string) : list string * option string :=
  match sections with
  | [] => (lines, None)
  | section :: rest =>
      match sec_lines section with
      | [] => append_sections max_inline_lines rest body_lines lines
      | new_lines =>
          if exceeds max_inline_lines (body_lines + nlen new_lines)
          then (lines, Some (rendering_truncation_reason sections max_inline_lines (sec_label section) None))
          else append_sections max_inline_lines rest (body_lines + nlen new_lines) (lines ++ new_lines)
      end
  end.

Definition line_feed_string : string := String line_feed EmptyString.
Abbreviation Rendering := (string * option string * option TruncationMetadata)%type.

(** The lines of a rendering and the reason it was cut. *)
Definition toon_lines (result : ToolResult) (max_inline_lines : option N)
  (fallback_reason : option string) : list string * option string :=
  let lines := toon_prelude result fallback_reason in
  let sections := toon_sections result in
  let body_lines := nlen lines in
  let '(lines, truncation_reason) :=
    if exceeds max_inline_lines body_lines
    then (lines, Some (rendering_truncation_reason sections max_inline_lines "tool output prelude"
                         (saturating_sub body_lines <$> max_inline_lines)))
    else append_sections max_inline_lines sections body_lines lines in
  match truncation_reason with
  | Some reason =>
      let max_inline_lines := default usize_max max_inline_lines in
      let remaining_lines := saturating_sub max_inline_lines (nlen lines) in
      let notice_lines := build_rendering_truncation_notice reason remaining_lines in
      let keep_len := saturating_sub max_inline_lines (nlen notice_lines) in
      (takeN keep_len lines ++ notice_lines, Some reason)
  | None => (lines, None)
  end.

Definition render_toon (result : ToolResult) (policy : ToolOutputRenderPolicy)
  (fallback_reason : option string) : Prelude.result ToolOutputRenderError Rendering :=
  let? '(rendered_result, policy_fallback_reason) := renderable_result result policy in
  let policy_fallback_reason :=
    combine_fallback_reasons policy_fallback_reason
      (render_policy_fallback_reason result rendered_result) in
  let '(lines, truncation_reason) :=
    toon_lines rendered_result (rpol_max_inline_lines policy) fallback_reason in
  Ok (join line_feed_string lines,
      combine_fallback_reasons policy_fallback_reason truncation_reason,
      res_truncation rendered_result).

(** ** Text *)

Definition text_redaction (redaction : RedactionMarker) : string :=
  normalize_text_output_value (red_field_path redaction) +:+ " ("
  +:+ normalize_text_output_value (red_reason redaction) +:+ ", redacted_at_ms "
  +:+ i64_to_string (red_redacted_at redaction) +:+ ")".

Definition text_count {A} (l : list A) (what : string) : list string :=
  match l with [] => [] | _ => [count_text l +:+ what] end.

Definition text_parts (result : ToolResult) : list string :=
  let summary := match summary_field result with
                 | Some summary => normalize_text_output_value summary
                 | None => "no summary"
                 end in
  [normalize_text_output_value (res_tool_id result) +:+ " " +:+ status_name (res_status result)
   +:+ ": " +:+ summary] ++
  text_count (res_fields result) " field(s)" ++
  text_count (res_evidence_refs result) " evidence ref(s)" ++
  text_count (res_output_refs result) " output ref(s)" ++
  match res_truncation result with
  | Some truncation =>
      ["truncated " +:+ usize_to_string (trunc_retained_bytes truncation) +:+ "/"
       +:+ usize_to_string (trunc_original_bytes truncation) +:+ " bytes: "
       +:+ normalize_text_output_value (trunc_reason truncation)]
  | None => []
  end ++
  match res_redactions result with
  | [] => []
  | redactions => [count_text redactions +:+ " redaction(s): " +:+ join ", " (map text_redaction redactions)]
  end.

Definition render_text (result : ToolResult) (policy : ToolOutputRenderPolicy)
  : Prelude.result ToolOutputRenderError Rendering :=
  let? '(rendered_result, policy_fallback_reason) := renderable_result result policy in
  Ok (join "; " (text_parts rendered_result),
      combine_fallback_reasons policy_fallback_reason
        (render_policy_fallback_reason result rendered_result),
      res_truncation rendered_result).

(** ** JSON *)

(** [serde_json::to_string] and [to_string_pretty] of a result, with the text of
    their error. *)
Class ResultJson := {
  json_compact : ToolResult → result string string;
  json_pretty : ToolResult → result string string
}.

Section Json.
Context `{ResultJson}.

Definition serialize (body : result string string) : result ToolOutputRenderError string :=
  map_err (λ reason, JsonSerialize (Fmt "{}" [AStr reason])) body.

(** [serde_json::to_string(result).ok().is_some_and(..)] *)
Definition compact_fits (result : ToolResult) (max_inline_lines : N) : bool :=
  match json_compact result with
  | Ok body => (N.of_nat (lines_count body) <=? max_inline_lines)%N
  | Err _ => false
  end.
(** [max.is_none_or(|max| body.lines().count() <= max)] *)
Definition fits_lines (body : string) (max_inline_lines : option N) : bool :=
  match max_inline_lines with
  | Some max => (N.of_nat (lines_count body) <=? max)%N
  | None => true
  end.

(** Taking at most [remaining] also covers the case [remaining == 0], in which the
    source clears the references. *)
Definition truncate_json_rendering (result : ToolResult) (max_inline_lines : N)
  : ToolResult * option string :=
  if compact_fits result max_inline_lines then (result, None)
  else
    let fields := takeN max_inline_lines (res_fields result) in
    let omitted_fields := (nlen (res_fields result) - nlen fields)%N in
    let remaining := saturating_sub max_inline_lines (nlen fields) in
    let evidence_refs := takeN remaining (res_evidence_refs result) in
    let remaining := (remaining - nlen evidence_refs)%N in
    let output_refs := takeN remaining (res_output_refs result) in
    let remaining := (remaining - nlen output_refs)%N in
    let redactions := takeN remaining (res_redactions result) in
    let omitted_evidence_refs := (nlen (res_evidence_refs result) - nlen evidence_refs)%N in
    let omitted_output_refs := (nlen (res_output_refs result) - nlen output_refs)%N in
    let omitted_redactions := (nlen (res_redactions result) - nlen redactions)%N in
    let result := res_set_refs (res_set_fields result fields) evidence_refs output_refs redactions in
    if ((omitted_fields =? 0) && (omitted_evidence_refs =? 0) && (omitted_output_refs =? 0)
        && (omitted_redactions =? 0))%N
    then (result, None)
    else if compact_fits result max_inline_lines then (result, None)
    else (result,
          Some ("json rendering truncated to max_inline_lines=" +:+ usize_to_string max_inline_lines
                +:+ "; omitted fields=" +:+ usize_to_string omitted_fields
                +:+ ", evidence_refs=" +:+ usize_to_string omitted_evidence_refs
                +:+ ", output_refs=" +:+ usize_to_string omitted_output_refs
                +:+ ", redactions=" +:+ usize_to_string omitted_redactions)).

Definition render_json (result : ToolResult) (policy : ToolOutputRenderPolicy)
  : Prelude.result ToolOutputRenderError Rendering :=
  let? '(rendered_result, policy_fallback_reason) := renderable_result result policy in
  let truncation := res_truncation rendered_result in
  let policy_fallback_reason :=
    combine_fallback_reasons policy_fallback_reason
      (render_policy_fallback_reason result rendered_result) in
  let? pretty_body := serialize (json_pretty rendered_result) in
  if fits_lines pretty_body (rpol_max_inline_lines policy)
  then Ok (pretty_body, policy_fallback_reason, truncation)
  else
    let compact_fallback_reason :=
      (λ max, "json rendering switched from pretty to compact to fit max_inline_lines="
              +:+ usize_to_string max) <$> rpol_max_inline_lines policy in
    let? compact_body := serialize (json_compact rendered_result) in
    if fits_lines compact_body (rpol_max_inline_lines policy)
    then Ok (compact_body, combine_fallback_reasons policy_fallback_reason compact_fallback_reason,
             truncation)
    else
      let '(result, fallback_reason) :=
        match rpol_max_inline_lines policy with
        | Some max_inline_lines => truncate_json_rendering rendered_result max_inline_lines
        | None => (rendered_result, None)
        end in
      let? body := serialize (json_compact result) in
      Ok (body,
          combine_fallback_reasons
            (combine_fallback_reasons policy_fallback_reason compact_fallback_reason) fallback_reason,
          truncation).

Definition render_tool_result_with_policy (result : ToolResult) (policy : ToolOutputRenderPolicy)
  : Prelude.result ToolOutputRenderError RenderedToolOutput :=
  let format := rend_format (rpol_render_options policy) in
  let? '(body, fallback_reason, truncation) :=
    match format with
    | Toon => render_toon result policy None
    | Text => render_text result policy
    | Json => render_json result policy
    end in
  Ok {| ro_format := format; ro_schema_version := schema_version result; ro_body := body;
        ro_fallback_reason := fallback_reason; ro_truncation := truncation |}.

Definition render_tool_result (result : ToolResult) (options : RenderOptions)
  : Prelude.result ToolOutputRenderError RenderedToolOutput :=
  render_tool_result_with_policy result (from_render_options options).

(** The renderer of the runner. *)
Definition tool_output_renderer : Renderer :=
  {| Runtime.render_tool_result_with_policy := render_tool_result_with_policy |}.

End Json.
