(* ===== verification/ToonLaws.v ===== *)
(** * ToonLaws: a TOON document can be read back *)
From S2P Require Import Prelude Text Domain StoreTypes Settings Truncation TruncationLaws Spill.
From S2P Require Import Runtime ToolOutput.

(** * Values written as TOON can be read back

    A reader for TOON values serves as the specification of the quoting rules:
    whatever [render_structured_value] writes, the reader gets back, although
    bare words, quoted strings, numbers and lists share one syntax. *)

(** ** Characters *)

Definition char_ok (ch : bytes) : Prop :=
  ∃ c conts, ch = c :: conts ∧ is_lead c = true ∧ S (length conts) = len_utf8 c ∧
    Forall (λ b, is_lead b = false) conts.

Lemma chars_from_cons fuel ch l :
  char_ok ch → chars_from (S fuel) (ch ++ l) = ch :: chars_from fuel l.
Proof.
  intros (c & conts & -> & Hc & Hlen & Hcs). cbn [chars_from app]. rewrite <- Hlen. cbn [take drop].
  by rewrite take_app_length, drop_app_length.
Qed.

Lemma utf8_chars l : utf8 l → ∃ cs, Forall char_ok cs ∧ l = concat cs.
Proof.
  induction 1 as [|c conts rest Hc Hlen Hcs _ (cs & Hok & ->)]; [by exists []|].
  exists ((c :: conts) :: cs). split; [|done]. constructor; [|done]. by exists c, conts.
Qed.

Lemma chars_from_concat cs fuel :
  Forall char_ok cs → (length cs ≤ fuel)%nat → chars_from fuel (concat cs) = cs.
Proof.
  intros Hok. revert fuel. induction Hok as [|ch cs Hch _ IH]; intros fuel Hfuel; [by destruct fuel|].
  destruct fuel as [|fuel]; simpl in Hfuel; [lia|]. cbn [concat].
  rewrite chars_from_cons by done. by rewrite IH by lia.
Qed.

Lemma length_concat_chars cs : Forall char_ok cs → (length cs ≤ length (concat cs))%nat.
Proof.
  induction 1 as [|ch cs (c & conts & -> & _) _ IH]; simpl; [lia|]. rewrite length_app. lia.
Qed.

Lemma chars_valid s : valid_string s → Forall char_ok (chars s) ∧ concat (chars s) = to_bytes s.
Proof.
  intros (cs & Hok & Hs)%utf8_chars. unfold chars. rewrite Hs.
  rewrite chars_from_concat by auto using length_concat_chars. done.
Qed.

(** The first byte of a character decides whether it is ASCII. *)
Lemma char_ok_ascii ch : char_ok ch → (∃ c, ch = [c] ∧ (code c < 128)%N) ∨
  (2 ≤ length ch)%nat ∧ Forall (λ b, (128 ≤ code b)%N) ch.
Proof.
  intros (c & conts & -> & Hc & Hlen & Hcs).
  assert (Hcs' : Forall (λ b, (128 ≤ code b)%N) conts).
  { eapply Forall_impl; [exact Hcs|]. intros b Hb. unfold is_lead in Hb. lia. }
  unfold len_utf8 in Hlen. destruct (N.ltb_spec (code c) 128) as [Hlt|Hge].
  - left. exists c. destruct conts; [done|simpl in Hlen; lia].
  - right. split; [simpl; repeat case_match; lia|]. by constructor.
Qed.

Lemma byte_in_char s c : valid_string s → c ∈ to_bytes s → (code c < 128)%N → [c] ∈ chars s.
Proof.
  intros [Hok Hs]%chars_valid Hin Hc. rewrite <- Hs in Hin.
  apply list_elem_of_In, in_concat in Hin as (ch & Hch & Hin). apply list_elem_of_In in Hch, Hin.
  pose proof (proj1 (Forall_forall _ _) Hok ch Hch) as [(d & -> & _)|[_ Hbig]]%char_ok_ascii.
  - apply list_elem_of_singleton in Hin as ->. done.
  - pose proof (proj1 (Forall_forall _ _) Hbig c Hin). simpl in *. lia.
Qed.

(** ** Reading quoted strings *)

Inductive QuoteState := Plain | Escape | Brace | Hex (n : N).

(** The bytes of a character below U+0800. *)
Definition encode_small (n : N) : bytes :=
  if (n <? 128)%N then [ascii_of_N n] else [ascii_of_N (192 + n / 64); ascii_of_N (128 + n mod 64)].

Definition unescape (c : ascii) : option ascii :=
  if bool_decide (c = backslash) then Some backslash
  else if bool_decide (c = quote_char) then Some quote_char
  else if bool_decide (c = "n"%char) then Some line_feed
  else if bool_decide (c = "r"%char) then Some carriage_return
  else if bool_decide (c = "t"%char) then Some (ascii_of_N 9)
  else None.

(** What follows an opening quote: the text up to the closing one, and the rest. *)
Fixpoint read_quoted (st : QuoteState) (text : bytes) (l : bytes) : option (bytes * bytes) :=
  match l with
  | [] => None
  | c :: l =>
      match st with
      | Plain =>
          if bool_decide (c = quote_char) then Some (text, l)
          else if bool_decide (c = backslash) then read_quoted Escape text l
          else read_quoted Plain (text ++ [c]) l
      | Escape =>
          if bool_decide (c = "u"%char) then read_quoted Brace text l
          else match unescape c with
               | Some c => read_quoted Plain (text ++ [c]) l
               | None => None
               end
      | Brace => if bool_decide (c = open_brace) then read_quoted (Hex 0) text l else None
      | Hex n =>
          if bool_decide (c = close_brace) then read_quoted Plain (text ++ encode_small n) l
          else match digit_value 16 c with
               | Some d => read_quoted (Hex (n * 16 + d)) text l
               | None => None
               end
      end
  end.

Lemma read_plain c text l :
  c ≠ quote_char → c ≠ backslash →
  read_quoted Plain text (c :: l) = read_quoted Plain (text ++ [c]) l.
Proof. intros Hq Hb. simpl. by rewrite !bool_decide_eq_false_2. Qed.

Lemma read_plain_bytes ch text l :
  Forall (λ b, (128 ≤ code b)%N) ch →
  read_quoted Plain text (ch ++ l) = read_quoted Plain (text ++ ch) l.
Proof.
  intros Hch. revert text. induction Hch as [|c ch Hc _ IH]; intros text; [by rewrite app_nil_r|].
  cbn [app]. rewrite read_plain by (intros ->; done). by rewrite IH, <- app_assoc.
Qed.

(** The escapes of control characters, all 65 of them, by computation. *)
Definition control_escape (n : N) : bytes :=
  [backslash; "u"%char; open_brace] ++ hex_u32 n ++ [close_brace].

(** One or two digits with the value of the number. *)
Definition hex_reads (n : N) : bool :=
  match hex_u32 n with
  | [a] => bool_decide (digit_value 16 a = Some n) && bool_decide (a ≠ close_brace)
  | [a; b] =>
      match digit_value 16 a, digit_value 16 b with
      | Some x, Some y => (n =? x * 16 + y)%N && bool_decide (a ≠ close_brace ∧ b ≠ close_brace)
      | _, _ => false
      end
  | _ => false
  end.
Lemma hex_reads_small n : (n < 160)%N → hex_reads n = true.
Proof.
  intros Hn. assert (Hall : forallb hex_reads (map N.of_nat (seq 0 160)) = true) by by vm_compute.
  rewrite forallb_forall in Hall. apply Hall, in_map_iff. exists (N.to_nat n).
  split; [lia|]. apply in_seq. lia.
Qed.

Lemma read_control n text l :
  (n < 160)%N →
  read_quoted Plain text (control_escape n ++ l) = read_quoted Plain (text ++ encode_small n) l.
Proof.
  intros Hn. pose proof (hex_reads_small n Hn) as Hhex. unfold control_escape, hex_reads in *.
  destruct (hex_u32 n) as [|a [|b [|]]]; [done| | |done].
  - apply andb_true_iff in Hhex as [Hd%bool_decide_eq_true Ha%bool_decide_eq_true]. cbn.
    rewrite (bool_decide_eq_false_2 (a = _)) by done. by rewrite Hd.
  - destruct (digit_value 16 a) as [x|] eqn:Hx; [|done].
    destruct (digit_value 16 b) as [y|] eqn:Hy; [|done].
    apply andb_true_iff in Hhex as [->%N.eqb_eq [Ha Hb]%bool_decide_eq_true]. cbn.
    rewrite (bool_decide_eq_false_2 (a = _)) by done. rewrite Hx. cbn.
    rewrite (bool_decide_eq_false_2 (b = _)) by done. by rewrite Hy.
Qed.

Lemma encode_control ch : char_ok ch → is_control ch = true →
  encode_small (char_u32 ch) = ch ∧ (char_u32 ch < 160)%N.
Proof.
  intros Hok Hc. destruct ch as [|a [|b [|]]]; try done; simpl in *.
  - unfold encode_small. rewrite (proj2 (N.ltb_lt _ _)) by lia. unfold code.
    rewrite ascii_N_embedding. split; [done|]. unfold code in Hc. lia.
  - assert (Ha : code a = 194%N) by lia. assert (Hb : (128 ≤ code b < 160)%N) by lia.
    unfold encode_small. rewrite Ha. replace ((194 - 192) * 64 + (code b - 128))%N with (code b) by lia.
    destruct (N.ltb_spec (code b) 128); [lia|].
    replace (192 + code b / 64)%N with (code a) by lia.
    replace (128 + code b mod 64)%N with (code b) by lia.
    unfold code in *. rewrite !ascii_N_embedding. split; [done|lia].
Qed.

(** Reading undoes the escape of every character. *)
Lemma read_escape ch text l : char_ok ch →
  read_quoted Plain text (escape_char ch ++ l) = read_quoted Plain (text ++ ch) l.
Proof.
  intros Hok. assert (Hctl : is_control ch = true →
    read_quoted Plain text (control_escape (char_u32 ch) ++ l) = read_quoted Plain (text ++ ch) l).
  { intros Hc. destruct (encode_control ch Hok Hc) as [He Hlt]. rewrite read_control by done. by rewrite He. }
  destruct (char_ok_ascii ch Hok) as [(c & -> & Hc)|[Hlen Hbig]].
  - unfold escape_char. repeat case_bool_decide; subst; try reflexivity.
    destruct (is_control [c]) eqn:Hctrl; [by apply Hctl|]. by apply read_plain.
  - destruct ch as [|a [|b ch]]; simpl in Hlen; [lia|lia|]. unfold escape_char.
    destruct (is_control (a :: b :: ch)) eqn:Hctrl; [by apply Hctl|]. by apply read_plain_bytes.
Qed.

Lemma read_escapes cs text l : Forall char_ok cs →
  read_quoted Plain text (concat (map escape_char cs) ++ quote_char :: l)
  = Some (text ++ concat cs, l).
Proof.
  intros Hok. revert text. induction Hok as [|ch cs Hch _ IH]; intros text.
  - simpl. by rewrite app_nil_r.
  - cbn [map concat]. rewrite <- app_assoc, read_escape by done. by rewrite IH, <- app_assoc.
Qed.

(** ** Tokens *)

Definition is_delimiter (c : ascii) : bool :=
  bool_decide (c = comma) || bool_decide (c = "]"%char) || bool_decide (c = line_feed).

(** Nothing, or a delimiter, comes next. *)
Definition ends (l : bytes) : Prop :=
  match l with [] => True | c :: _ => is_delimiter c = true end.

Inductive Token := Word (word : bytes) | Quoted (text : bytes).

Fixpoint read_bare (l : bytes) : bytes * bytes :=
  match l with
  | [] => ([], [])
  | c :: rest =>
      if is_delimiter c then ([], l) else let '(word, rest) := read_bare rest in (c :: word, rest)
  end.
Definition read_token (l : bytes) : option (Token * bytes) :=
  match l with
  | c :: rest =>
      if bool_decide (c = quote_char)
      then match read_quoted Plain [] rest with
           | Some (text, rest) => Some (Quoted text, rest)
           | None => None
           end
      else let '(word, rest) := read_bare l in Some (Word word, rest)
  | [] => Some (Word [], [])
  end.
Definition token_text (t : Token) : string :=
  match t with Word word => of_bytes word | Quoted text => of_bytes text end.

Lemma read_bare_app w rest :
  Forall (λ c, is_delimiter c = false) w → ends rest → read_bare (w ++ rest) = (w, rest).
Proof.
  intros Hw Hrest. induction Hw as [|c w Hc _ IH]; simpl.
  - destruct rest as [|c rest]; [done|]. simpl in *. by rewrite Hrest.
  - by rewrite Hc, IH.
Qed.

(** A word has neither delimiters nor marks that are quoted. *)
Definition bare_word (w : bytes) : Prop :=
  w ≠ [] ∧ Forall (λ c, is_delimiter c = false ∧ c ∉ quoted_marks) w.

Lemma bare_word_head w c rest : bare_word w → w = c :: rest → c ∉ quoted_marks.
Proof. intros [_ Hw] ->. by inversion Hw as [|? ? [_ Hc] _]. Qed.

Lemma read_word w rest : bare_word w → ends rest → read_token (w ++ rest) = Some (Word w, rest).
Proof.
  intros Hw Hrest. pose proof Hw as [Hne Hall]. destruct w as [|c w]; [done|]. cbn [app read_token].
  rewrite bool_decide_eq_false_2.
  - change (c :: w ++ rest) with ((c :: w) ++ rest). rewrite read_bare_app; [done| |done].
    eapply Forall_impl; [exact Hall|]. by intros ? [].
  - intros ->. apply (bare_word_head _ _ _ Hw eq_refl). set_solver.
Qed.

Lemma read_quote_string v rest : valid_string v →
  read_token (to_bytes (quote_string v) ++ rest) = Some (Quoted (to_bytes v), rest).
Proof.
  intros [Hok Hv]%chars_valid. unfold quote_string. rewrite to_of_bytes. cbn [app read_token].
  rewrite bool_decide_eq_true_2 by done. rewrite <- app_assoc. cbn [app].
  rewrite read_escapes by done. by rewrite Hv.
Qed.

Lemma needs_quotes_mark c : c ∈ quoted_marks → needs_quotes [c] = true.
Proof. intros Hc. unfold needs_quotes. by rewrite (bool_decide_eq_true_2 _ Hc), orb_true_r. Qed.

Lemma quoted_mark_ascii c : c ∈ quoted_marks → (code c < 128)%N.
Proof.
  intros Hc. assert (Hall : Forall (λ c, (code c < 128)%N) quoted_marks) by (repeat constructor).
  by eapply Forall_forall in Hall.
Qed.

(** A string that is written without quotes is a word, and not a literal. *)
Lemma render_toon_value_cases v : valid_string v →
  render_toon_value v = quote_string v ∨
  render_toon_value v = v ∧ bare_word (to_bytes v) ∧ is_toon_literal v = false.
Proof.
  intros Hv. unfold render_toon_value.
  destruct (str_is_empty v) eqn:He; [by left|]. destruct (is_toon_literal v) eqn:Hl; [by left|].
  destruct (existsb needs_quotes (chars v)) eqn:Hq; [by left|]. right. simpl. split_and!; [done| |done].
  split; [by destruct v|]. rewrite existsb_false in Hq. apply Forall_forall. intros c Hc.
  assert (Hmark : c ∉ quoted_marks).
  { intros Hm. pose proof (Hq [c] (byte_in_char v c Hv Hc (quoted_mark_ascii c Hm))) as Hf.
    by rewrite needs_quotes_mark in Hf. }
  split; [|done]. unfold is_delimiter. rewrite !bool_decide_eq_false_2; [done|..]; intros ->.
  - pose proof (Hq [line_feed] (byte_in_char v _ Hv Hc eq_refl)) as Hf. by vm_compute in Hf.
  - apply Hmark. set_solver.
  - apply Hmark. set_solver.
Qed.

Lemma read_rendered v rest : valid_string v → ends rest →
  ∃ t, read_token (to_bytes (render_toon_value v) ++ rest) = Some (t, rest) ∧ token_text t = v ∧
    ∀ w, t = Word w → is_toon_literal v = false ∧ bare_word w.
Proof.
  intros Hv Hrest. destruct (render_toon_value_cases v Hv) as [->|(-> & Hw & Hl)].
  - exists (Quoted (to_bytes v)). rewrite read_quote_string by done. split_and!; [done|apply of_to_bytes|done].
  - exists (Word (to_bytes v)). rewrite read_word by done. split_and!; [done|apply of_to_bytes|].
    intros w [= <-]. done.
Qed.

(** ** Numbers *)

Lemma parse_digits_value s acc n k :
  parse_digits acc s = Some n →
  forallb is_ascii_digit (to_bytes s) = true ∧ fst (fst (read_digits 10 (to_bytes s) acc k)) = n.
Proof.
  revert acc k. induction s as [|c s IH]; intros acc k; simpl; [by intros [= ->]|].
  destruct ((48 <=? code c) && (code c <=? 57))%N eqn:Hd; [|done].
  destruct (acc * 10 + (code c - 48) <=? usize_max)%N; [|done]. intros [Hs Hn]%(IH _ (S k)).
  unfold digit_value, hex_value, is_ascii_digit, in_range in *. rewrite Hd. simpl.
  rewrite (proj2 (N.ltb_lt _ _)) by lia. done.
Qed.

Lemma usize_text n : (n ≤ usize_max)%N →
  all_digits (to_bytes (usize_to_string n)) = true ∧ digits_value (to_bytes (usize_to_string n)) = n.
Proof.
  intros Hn. unfold usize_to_string, all_digits, digits_value.
  destruct (decimal_digits_head 20 n EmptyString) as (d & r & _ & Heq); [done|].
  assert (Hp : parse_digits 0 (decimal_digits 20 n EmptyString) = Some n).
  { rewrite parse_decimal_digits; [done| |done|done]. unfold usize_max, u64_max in Hn. lia. }
  destruct (parse_digits_value _ _ _ 0%nat Hp) as [Hall Hval]. rewrite Hall, Hval, Heq.
  split; [|done]. by rewrite bool_decide_eq_false_2.
Qed.

Lemma digit_bare c : is_ascii_digit c = true → is_delimiter c = false ∧ c ∉ quoted_marks.
Proof.
  unfold is_ascii_digit, in_range. intros Hc. split.
  - unfold is_delimiter. rewrite !bool_decide_eq_false_2; [done|..]; intros ->; by vm_compute in Hc.
  - intros Hm. assert (Hall : Forall (λ c, (48 <=? code c) && (code c <=? 57) = false)%N quoted_marks)
      by (repeat constructor). rewrite Forall_forall in Hall. by rewrite Hall in Hc.
Qed.

Lemma digits_bare l : all_digits l = true → bare_word l.
Proof.
  unfold all_digits. intros [Hne Hall]%andb_true_iff. apply negb_true_iff, bool_decide_eq_false in Hne.
  split; [done|]. rewrite forallb_forall in Hall. apply Forall_forall. intros c Hc.
  by apply digit_bare, Hall, list_elem_of_In.
Qed.

Lemma digits_head l c rest : all_digits l = true → l = c :: rest → is_ascii_digit c = true.
Proof.
  intros [_ Hall]%andb_true_iff ->. simpl in Hall. by apply andb_true_iff in Hall as [? _].
Qed.

Lemma split_sign_digits l : all_digits l = true → split_sign l = (false, l).
Proof.
  intros Hall. destruct l as [|c l]; [done|]. pose proof (digits_head _ _ _ Hall eq_refl) as Hc.
  simpl. rewrite !bool_decide_eq_false_2; [done|..]; intros ->; by vm_compute in Hc.
Qed.

Definition in_i64 (z : Z) : Prop := (i64_min ≤ z ≤ i64_max)%Z.

(** Integers are bare words that parse back. *)
Lemma i64_text z : in_i64 z →
  bare_word (to_bytes (i64_to_string z)) ∧ parse_i64 (i64_to_string z) = Some z.
Proof.
  intros Hz. unfold in_i64, i64_min, i64_max in Hz. unfold i64_to_string, parse_i64.
  destruct (Z.ltb_spec z 0) as [Hneg|Hpos].
  - destruct (usize_text (Z.abs_N z)) as [Hall Hval]; [unfold usize_max, u64_max; lia|].
    change (to_bytes (String minus_sign (usize_to_string (Z.abs_N z))))
      with (minus_sign :: to_bytes (usize_to_string (Z.abs_N z))).
    split.
    + destruct (digits_bare _ Hall) as [_ Hb]. split; [done|]. constructor; [|done].
      split; [done|]. by apply (bool_decide_eq_true_1 (minus_sign ∉ quoted_marks)).
    + cbn [split_sign]. rewrite bool_decide_eq_true_2 by done. rewrite Hall, Hval.
      replace (- Z.of_N (Z.abs_N z))%Z with z by lia. unfold i64_min, i64_max.
      by replace ((-9223372036854775808 <=? z) && (z <=? 9223372036854775807))%Z with true by lia.
  - destruct (usize_text (Z.to_N z)) as [Hall Hval]; [unfold usize_max, u64_max; lia|].
    split; [by apply digits_bare|]. rewrite split_sign_digits by done. rewrite Hall, Hval.
    replace (Z.of_N (Z.to_N z)) with z by lia. unfold i64_min, i64_max.
    by replace ((-9223372036854775808 <=? z) && (z <=? 9223372036854775807))%Z with true by lia.
Qed.

(** ** Structured values *)

Definition token_value (t : Token) : StructuredValue :=
  match t with
  | Quoted text => SvString (of_bytes text)
  | Word word =>
      let word := of_bytes word in
      if str_eqb word "null" then SvNull
      else if str_eqb word "true" then SvBool true
      else if str_eqb word "false" then SvBool false
      else match parse_i64 word with Some z => SvInteger z | None => SvString word end
  end.

(** The values of a list, up to its closing bracket; each round reads one. *)
Fixpoint read_list (fuel : nat) (l : bytes) : option (list string * bytes) :=
  match fuel with
  | O => None
  | S fuel =>
      match read_token l with
      | Some (t, c :: rest) =>
          if bool_decide (c = "]"%char) then Some ([token_text t], rest)
          else if bool_decide (c = comma) then
            match read_list fuel rest with
            | Some (values, rest) => Some (token_text t :: values, rest)
            | None => None
            end
          else None
      | _ => None
      end
  end.

Definition read_structured (l : bytes) : option (StructuredValue * bytes) :=
  match l with
  | c :: rest =>
      if bool_decide (c = "["%char) then
        match rest with
        | d :: rest' =>
            if bool_decide (d = "]"%char) then Some (SvStringList [], rest')
            else match read_list (length rest) rest with
                 | Some (values, rest) => Some (SvStringList values, rest)
                 | None => None
                 end
        | [] => None
        end
      else match read_token l with Some (t, rest) => Some (token_value t, rest) | None => None end
  | [] => None
  end.

Definition value_ok (v : StructuredValue) : Prop :=
  match v with
  | SvNull | SvBool _ => True
  | SvInteger z => in_i64 z
  | SvString s => valid_string s
  | SvStringList l => Forall valid_string l
  end.

Lemma render_toon_value_head v : valid_string v →
  ∃ c rest, to_bytes (render_toon_value v) = c :: rest ∧ c ≠ "["%char ∧ c ≠ "]"%char ∧ is_delimiter c = false.
Proof.
  intros Hv. destruct (render_toon_value_cases v Hv) as [->|(-> & [Hne Hw] & _)].
  - unfold quote_string. rewrite to_of_bytes. by do 2 eexists.
  - destruct (to_bytes v) as [|c rest]; [done|]. exists c, rest. inversion Hw as [|? ? [Hd Hm] _]; subst.
    split_and!; [done|intros ->; apply Hm; set_solver..|done].
Qed.

Lemma join_cons a b l : join "," (a :: b :: l) = a +:+ "," +:+ join "," (b :: l).
Proof. done. Qed.

Lemma read_list_render values rest fuel :
  Forall valid_string values → values ≠ [] → (length values ≤ fuel)%nat →
  read_list fuel (to_bytes (join "," (map render_toon_value values)) ++ "]"%char :: rest)
  = Some (values, rest).
Proof.
  intros Hok. revert fuel. induction Hok as [|v values Hv Hvs IH]; intros fuel Hne Hfuel; [done|].
  destruct fuel as [|fuel]; simpl in Hfuel; [lia|]. destruct values as [|v' values].
  - cbn [map join String.concat]. destruct (read_rendered v ("]"%char :: rest) Hv) as (t & Ht & <- & _); [done|].
    cbn [read_list]. rewrite Ht. by rewrite bool_decide_eq_true_2.
  - cbn [map]. rewrite join_cons, !to_bytes_app, <- !app_assoc.
    destruct (read_rendered v (to_bytes "," ++ to_bytes (join "," (map render_toon_value (v' :: values)))
                ++ "]"%char :: rest) Hv) as (t & Ht & <- & _); [done|].
    cbn [map] in Ht, IH. cbn [read_list]. rewrite Ht. cbn [app to_bytes String.list_ascii_of_string].
    rewrite bool_decide_eq_false_2 by done. rewrite bool_decide_eq_true_2 by done.
    rewrite IH; [done|done|simpl in *; lia].
Qed.

Lemma length_join_values values :
  (length values ≤ S (length (to_bytes (join "," (map render_toon_value values)))))%nat.
Proof.
  induction values as [|s [|s' l] IH]; [simpl; lia..|].
  cbn [map] in *. rewrite join_cons, !to_bytes_app, !length_app. simpl in *. lia.
Qed.

Lemma literal_value v : is_toon_literal v = false → token_value (Word (to_bytes v)) = SvString v.
Proof.
  unfold is_toon_literal, str_in, token_value. rewrite of_to_bytes. cbn [existsb].
  intros [[Hw Hi]%orb_false_iff _]%orb_false_iff. rewrite !orb_false_iff in Hw.
  destruct Hw as (-> & -> & -> & _). by destruct (parse_i64 v).
Qed.

Lemma read_structured_token l t rest :
  (∀ c l', l = c :: l' → c ≠ "["%char) → l ≠ [] → read_token l = Some (t, rest) →
  read_structured l = Some (token_value t, rest).
Proof.
  intros Hc Hne Ht. destruct l as [|c l]; [done|]. unfold read_structured.
  rewrite bool_decide_eq_false_2 by by eapply Hc. by rewrite Ht.
Qed.

Lemma read_structured_word w v rest :
  bare_word w → ends rest → token_value (Word w) = v → read_structured (w ++ rest) = Some (v, rest).
Proof.
  intros Hw Hrest <-. apply read_structured_token; [|by destruct w, Hw|by apply read_word].
  intros c l' Heq ->. destruct w as [|c w]; [by destruct Hw|]. injection Heq as -> _.
  apply (bare_word_head _ _ _ Hw eq_refl). set_solver.
Qed.

Lemma keyword_bare k : In k ["null"; "true"; "false"]%string → bare_word (to_bytes k).
Proof.
  intros [<-|[<-|[<-|[]]]]; (split; [done|]); repeat (constructor; [split; [done|]|]);
    try done; apply (bool_decide_eq_true_1 (_ ∉ quoted_marks)); reflexivity.
Qed.

(** The reader gets back every value, whatever follows it. *)
Lemma read_structured_render v rest : value_ok v → ends rest →
  read_structured (to_bytes (render_structured_value v) ++ rest) = Some (v, rest).
Proof.
  intros Hv Hrest. destruct v as [|b|z|s|l]; cbn [render_structured_value value_ok] in *.
  - apply read_structured_word; [apply keyword_bare; simpl; tauto|done|done].
  - apply read_structured_word; [apply keyword_bare; destruct b; simpl; tauto|done|by destruct b].
  - destruct (i64_text z Hv) as [Hw Hp]. apply read_structured_word; [done|done|].
    unfold token_value. rewrite of_to_bytes, Hp. unfold str_eqb.
    rewrite !bool_decide_eq_false_2; [done|..]; intros Heq; rewrite Heq in Hp; by vm_compute in Hp.
  - destruct (render_toon_value_cases s Hv) as [Heq|(-> & Hw & Hl)].
    + rewrite Heq. erewrite read_structured_token; [|..|by apply read_quote_string].
      * simpl. by rewrite of_to_bytes.
      * unfold quote_string. rewrite to_of_bytes. by intros c l' [= <- _].
      * unfold quote_string. by rewrite to_of_bytes.
    + apply read_structured_word; [done|done|]. by apply literal_value.
  - rewrite !to_bytes_app, <- !app_assoc. cbn [to_bytes String.list_ascii_of_string app].
    unfold read_structured. rewrite bool_decide_eq_true_2 by done. destruct l as [|s l]; [done|].
    pose proof (Forall_inv Hv) as Hs. destruct (render_toon_value_head s Hs) as (c & w & Hhead & _ & Hc & _).
    assert (Hj : ∃ w', to_bytes (join "," (map render_toon_value (s :: l))) = c :: w').
    { destruct l as [|s' l]; cbn [map]; [by eexists|]. rewrite join_cons, !to_bytes_app, Hhead. by eexists. }
    destruct Hj as [w' Hj]. pose proof (read_list_render (s :: l) rest) as Hread. rewrite Hj in *.
    cbn [app]. rewrite bool_decide_eq_false_2 by done. cbn [app] in Hread. rewrite Hread; [done|done|done|].
    pose proof (length_join_values (s :: l)) as Hlen.
    rewrite Hj in Hlen. cbn [length] in *. rewrite length_app. simpl. lia.
Qed.

(** The text of a value determines it: the string [null], the string [1] or a
    string with brackets is never taken for a literal, a number or a list. *)
Lemma render_structured_value_inj v w : value_ok v → value_ok w →
  render_structured_value v = render_structured_value w → v = w.
Proof.
  intros Hv Hw Heq. pose proof (read_structured_render v [] Hv I) as H1.
  pose proof (read_structured_render w [] Hw I) as H2. rewrite Heq in H1. congruence.
Qed.

(** * A TOON document determines the result it shows

    Rows are read column by column, sections by their headers, documents line by
    line; a document that was not cut therefore says everything about the result
    but the time of its creation. *)

(** ** Columns *)

Definition id_ok {k} (i : OpaqueId k) : Prop := bare_word (to_bytes (as_str i)).

Definition opt_string_ok (o : option string) : Prop :=
  match o with Some s => valid_string s | None => True end.

Lemma ends_comma l : ends (to_bytes "," ++ l).
Proof. done. Qed.

(** Two rows that agree up to a column agree in the column and after it. *)
Lemma column_inj a b t u x y :
  read_token (to_bytes a ++ to_bytes "," ++ x) = Some (t, to_bytes "," ++ x) →
  read_token (to_bytes b ++ to_bytes "," ++ y) = Some (u, to_bytes "," ++ y) →
  to_bytes a ++ to_bytes "," ++ x = to_bytes b ++ to_bytes "," ++ y → t = u ∧ x = y.
Proof. intros Ha Hb Heq. rewrite Heq, Hb in Ha. by injection Ha as -> ->. Qed.

Lemma value_column_inj v w x y :
  valid_string v → valid_string w →
  to_bytes (render_toon_value v) ++ to_bytes "," ++ x
  = to_bytes (render_toon_value w) ++ to_bytes "," ++ y → v = w ∧ x = y.
Proof.
  intros Hv Hw Heq. destruct (read_rendered v (to_bytes "," ++ x) Hv) as (t & Ht & <- & _); [done|].
  destruct (read_rendered w (to_bytes "," ++ y) Hw) as (u & Hu & <- & _); [done|].
  by destruct (column_inj _ _ _ _ _ _ Ht Hu Heq) as [-> ->].
Qed.

Lemma value_end_inj v w :
  valid_string v → valid_string w → render_toon_value v = render_toon_value w → v = w.
Proof.
  intros Hv Hw Heq. apply (value_column_inj v w [] [] Hv Hw). by rewrite Heq.
Qed.

Lemma id_column_inj {k} (i j : OpaqueId k) x y :
  id_ok i → id_ok j →
  to_bytes (as_str i) ++ to_bytes "," ++ x = to_bytes (as_str j) ++ to_bytes "," ++ y → i = j ∧ x = y.
Proof.
  intros Hi Hj Heq. pose proof (read_word _ _ Hi (ends_comma x)) as H1.
  pose proof (read_word _ _ Hj (ends_comma y)) as H2.
  destruct (column_inj _ _ _ _ _ _ H1 H2 Heq) as [[= Hw] ->].
  destruct i as [i], j as [j]. simpl in Hw. split; [|done]. f_equal.
  by rewrite <- (of_to_bytes i), <- (of_to_bytes j), Hw.
Qed.

(** An absent string is the word [null], a present one never is. *)
Definition token_option (t : Token) : option string :=
  match t with
  | Word word => if str_eqb (of_bytes word) "null" then None else Some (of_bytes word)
  | Quoted text => Some (of_bytes text)
  end.

Lemma read_optional o rest : opt_string_ok o → ends rest →
  ∃ t, read_token (to_bytes (render_optional_string o) ++ rest) = Some (t, rest) ∧ token_option t = o.
Proof.
  intros Ho Hrest. destruct o as [v|]; cbn [opt_string_ok render_optional_string] in *.
  - destruct (read_rendered v rest Ho Hrest) as (t & Ht & Htext & Hword). exists t. split; [done|].
    destruct t as [w|text]; simpl in *; [|by subst]. destruct (Hword w eq_refl) as [Hl _]. subst v.
    destruct (str_eqb (of_bytes w) "null") eqn:Hn; [|done]. apply str_eqb_eq in Hn. by rewrite Hn in Hl.
  - exists (Word (to_bytes "null")). split; [|done]. apply read_word; [|done].
    apply keyword_bare. simpl. tauto.
Qed.

Lemma optional_column_inj o p x y :
  opt_string_ok o → opt_string_ok p →
  to_bytes (render_optional_string o) ++ to_bytes "," ++ x
  = to_bytes (render_optional_string p) ++ to_bytes "," ++ y → o = p ∧ x = y.
Proof.
  intros Ho Hp Heq. destruct (read_optional o _ Ho (ends_comma x)) as (t & Ht & <-).
  destruct (read_optional p _ Hp (ends_comma y)) as (u & Hu & <-).
  by destruct (column_inj _ _ _ _ _ _ Ht Hu Heq) as [-> ->].
Qed.

Lemma optional_end_inj o p :
  opt_string_ok o → opt_string_ok p →
  to_bytes (render_optional_string o) = to_bytes (render_optional_string p) → o = p.
Proof.
  intros Ho Hp Heq. apply (optional_column_inj o p [] [] Ho Hp). by rewrite Heq.
Qed.

(** ** Rows *)

Definition field_ok (f : ToolResultField) : Prop :=
  valid_string (field_key f) ∧ value_ok (field_value f).
Definition artifact_ref_ok (r : ArtifactRef) : Prop :=
  id_ok (aref_id r) ∧ valid_string (aref_uri r) ∧ valid_string (aref_media_type r) ∧
  opt_string_ok (aref_label r) ∧ opt_string_ok (aref_digest r).
Definition output_ref_ok (r : OutputRef) : Prop :=
  id_ok (oref_id r) ∧ valid_string (oref_uri r) ∧ valid_string (oref_media_type r) ∧
  opt_string_ok (oref_label r) ∧ opt_string_ok (oref_digest r).
Definition redaction_ok (r : RedactionMarker) : Prop :=
  valid_string (red_field_path r) ∧ valid_string (red_reason r) ∧ in_i64 (red_redacted_at r).

Definition field_row (f : ToolResultField) : string :=
  "  " +:+ render_toon_value (field_key f) +:+ "," +:+ render_structured_value (field_value f).
Definition artifact_row (r : ArtifactRef) : string :=
  "  " +:+ as_str (aref_id r) +:+ "," +:+ render_toon_value (aref_uri r) +:+ ","
  +:+ render_toon_value (aref_media_type r) +:+ "," +:+ render_optional_string (aref_label r) +:+ ","
  +:+ render_optional_string (aref_digest r).
Definition output_row (r : OutputRef) : string :=
  "  " +:+ as_str (oref_id r) +:+ "," +:+ render_toon_value (oref_uri r) +:+ ","
  +:+ render_toon_value (oref_media_type r) +:+ "," +:+ render_optional_string (oref_label r) +:+ ","
  +:+ render_optional_string (oref_digest r).
Definition redaction_row (r : RedactionMarker) : string :=
  "  " +:+ render_toon_value (red_field_path r) +:+ "," +:+ render_toon_value (red_reason r) +:+ ","
  +:+ i64_to_string (red_redacted_at r).

(** Equal rows have equal bytes behind the indentation. *)
Lemma row_bytes (x y : string) : ("  " +:+ x)%string = "  " +:+ y → to_bytes x = to_bytes y.
Proof. by intros ->%(inj _). Qed.

Lemma i64_to_string_inj y z : in_i64 y → in_i64 z → i64_to_string y = i64_to_string z → y = z.
Proof.
  intros Hy Hz Heq. destruct (i64_text y Hy) as [_ H1], (i64_text z Hz) as [_ H2]. congruence.
Qed.

Lemma field_row_inj f g : field_ok f → field_ok g → field_row f = field_row g → f = g.
Proof.
  intros [Hf1 Hf2] [Hg1 Hg2] Heq%row_bytes. rewrite !to_bytes_app in Heq.
  apply value_column_inj in Heq as [Hk Hv]; [|done..]. destruct f, g; simpl in *. f_equal; [done|].
  apply render_structured_value_inj; [done..|].
  by rewrite <- (of_to_bytes (render_structured_value _)), Hv, of_to_bytes.
Qed.

Lemma artifact_row_inj r s : artifact_ref_ok r → artifact_ref_ok s → artifact_row r = artifact_row s → r = s.
Proof.
  intros (Hr1 & Hr2 & Hr3 & Hr4 & Hr5) (Hs1 & Hs2 & Hs3 & Hs4 & Hs5) Heq%row_bytes.
  rewrite !to_bytes_app in Heq. apply id_column_inj in Heq as [Hi Heq]; [|done..].
  apply value_column_inj in Heq as [Hu Heq]; [|done..].
  apply value_column_inj in Heq as [Hm Heq]; [|done..].
  apply optional_column_inj in Heq as [Hl Heq]; [|done..]. apply optional_end_inj in Heq; [|done..].
  destruct r, s; simpl in *; congruence.
Qed.

Lemma output_row_inj r s : output_ref_ok r → output_ref_ok s → output_row r = output_row s → r = s.
Proof.
  intros (Hr1 & Hr2 & Hr3 & Hr4 & Hr5) (Hs1 & Hs2 & Hs3 & Hs4 & Hs5) Heq%row_bytes.
  rewrite !to_bytes_app in Heq. apply id_column_inj in Heq as [Hi Heq]; [|done..].
  apply value_column_inj in Heq as [Hu Heq]; [|done..].
  apply value_column_inj in Heq as [Hm Heq]; [|done..].
  apply optional_column_inj in Heq as [Hl Heq]; [|done..]. apply optional_end_inj in Heq; [|done..].
  destruct r, s; simpl in *; congruence.
Qed.

Lemma redaction_row_inj r s : redaction_ok r → redaction_ok s → redaction_row r = redaction_row s → r = s.
Proof.
  intros (Hr1 & Hr2 & Hr3) (Hs1 & Hs2 & Hs3) Heq%row_bytes. rewrite !to_bytes_app in Heq.
  apply value_column_inj in Heq as [Hf Heq]; [|done..].
  apply value_column_inj in Heq as [Hm Heq]; [|done..].
  assert (Ht : red_redacted_at r = red_redacted_at s).
  { apply i64_to_string_inj; [done..|]. by rewrite <- (of_to_bytes (i64_to_string _)), Heq, of_to_bytes. }
  destruct r, s; simpl in *; congruence.
Qed.

(** ** Lines *)

(** A string that stays on its line. *)
Definition one_line (s : string) : Prop := line_feed ∉ to_bytes s.

Lemma one_line_app a b : one_line (a +:+ b) ↔ one_line a ∧ one_line b.
Proof. unfold one_line. rewrite to_bytes_app, elem_of_app. tauto. Qed.

Lemma bare_one_line s : bare_word (to_bytes s) → one_line s.
Proof.
  intros [_ Hw] Hin. pose proof (proj1 (Forall_forall _ _) Hw _ Hin) as [Hd _]. by vm_compute in Hd.
Qed.

Lemma escape_one_line ch : char_ok ch → line_feed ∉ escape_char ch.
Proof.
  intros Hok Hin. assert (Hctl : is_control ch = true → line_feed ∉ control_escape (char_u32 ch)).
  { intros Hc. destruct (encode_control ch Hok Hc) as [_ Hlt].
    assert (Hall : forallb (λ n, bool_decide (line_feed ∉ control_escape n)) (map N.of_nat (seq 0 160)) = true)
      by by vm_compute.
    rewrite forallb_forall in Hall. apply (bool_decide_eq_true_1 (_ ∉ _)), Hall, in_map_iff.
    exists (N.to_nat (char_u32 ch)). split; [lia|]. apply in_seq. lia. }
  destruct (char_ok_ascii ch Hok) as [(c & -> & Hc)|[Hlen Hbig]].
  - unfold escape_char in Hin. repeat case_bool_decide; subst;
      [by (apply (bool_decide_eq_true_2 (line_feed ∈ _)) in Hin; vm_compute in Hin)..|].
    destruct (is_control [c]) eqn:Hctrl; [by eapply Hctl|].
    apply list_elem_of_singleton in Hin. congruence.
  - destruct ch as [|a [|b ch]]; simpl in Hlen; [lia|lia|]. unfold escape_char in Hin.
    destruct (is_control (a :: b :: ch)) eqn:Hctrl; [by eapply Hctl|].
    pose proof (proj1 (Forall_forall _ _) Hbig _ Hin). by simpl in *.
Qed.

Lemma render_toon_value_one_line v : valid_string v → one_line (render_toon_value v).
Proof.
  intros Hv. destruct (render_toon_value_cases v Hv) as [->|(-> & Hw & _)]; [|by apply bare_one_line].
  unfold one_line, quote_string. rewrite to_of_bytes. intros Hin.
  apply elem_of_cons in Hin as [|[Hin|Hin]%elem_of_app]; [done| |by apply list_elem_of_singleton in Hin].
  apply list_elem_of_In, in_concat in Hin as (e & He & Hin). apply in_map_iff in He as (ch & <- & Hch).
  apply chars_valid in Hv as [Hok _]. apply list_elem_of_In in Hch, Hin.
  eapply escape_one_line; [|exact Hin]. by eapply Forall_forall in Hok.
Qed.

Lemma render_optional_one_line o : opt_string_ok o → one_line (render_optional_string o).
Proof.
  destruct o; [apply render_toon_value_one_line|]. intros _. by apply (bool_decide_eq_true_1 (_ ∉ _)).
Qed.

Lemma usize_one_line n : (n ≤ usize_max)%N → one_line (usize_to_string n).
Proof. intros Hn. apply bare_one_line, digits_bare, usize_text, Hn. Qed.

Lemma join_one_line l : Forall one_line l → one_line (join "," l).
Proof.
  induction 1 as [|s [|s' l] Hs Hl IH]; [by apply (bool_decide_eq_true_1 (_ ∉ _))|done|].
  rewrite join_cons, !one_line_app. split_and!; [done|by apply (bool_decide_eq_true_1 (_ ∉ _))|done].
Qed.

Lemma render_structured_one_line v : value_ok v → one_line (render_structured_value v).
Proof.
  intros Hv. destruct v as [|b|z|s|l]; cbn [render_structured_value value_ok] in *.
  - by apply (bool_decide_eq_true_1 (_ ∉ _)).
  - destruct b; by apply (bool_decide_eq_true_1 (_ ∉ _)).
  - by apply bare_one_line, i64_text.
  - by apply render_toon_value_one_line.
  - rewrite !one_line_app. split_and!; [by apply (bool_decide_eq_true_1 (_ ∉ _))| |by apply (bool_decide_eq_true_1 (_ ∉ _))].
    apply join_one_line, Forall_map. eapply Forall_impl; [exact Hv|]. apply render_toon_value_one_line.
Qed.

(** Splitting at line feeds undoes joining with them. *)
Lemma split_bytes_app l rest cur :
  line_feed ∉ l →
  split_bytes [line_feed] (l ++ rest) cur = split_bytes [line_feed] rest (rev l ++ cur).
Proof.
  revert cur. induction l as [|c l IH]; intros cur Hl; [done|]. cbn [app split_bytes].
  rewrite bool_decide_eq_false_2 by (rewrite list_elem_of_singleton; set_solver).
  rewrite IH by set_solver. simpl. by rewrite <- app_assoc.
Qed.

Lemma split_join lines :
  Forall one_line lines → lines ≠ [] →
  split_bytes [line_feed] (to_bytes (join line_feed_string lines)) [] = map to_bytes lines.
Proof.
  induction 1 as [|s [|s' lines] Hs Hl IH]; intros Hne; [done| |].
  - cbn [join String.concat map]. rewrite <- (app_nil_r (to_bytes s)), split_bytes_app by done.
    simpl. by rewrite !app_nil_r, rev_involutive.
  - change (join line_feed_string (s :: s' :: lines))
      with (s +:+ line_feed_string +:+ join line_feed_string (s' :: lines)).
    rewrite !to_bytes_app, split_bytes_app by done.
    change (map to_bytes (s :: s' :: lines)) with (to_bytes s :: map to_bytes (s' :: lines)).
    rewrite <- IH by done. simpl. by rewrite app_nil_r, rev_involutive.
Qed.

Lemma join_lines_inj l1 l2 :
  Forall one_line l1 → Forall one_line l2 → l1 ≠ [] → l2 ≠ [] →
  join line_feed_string l1 = join line_feed_string l2 → l1 = l2.
Proof.
  intros H1 H2 Hn1 Hn2 Heq. pose proof (split_join l1 H1 Hn1) as S1. rewrite Heq, split_join in S1 by done.
  apply (f_equal (map of_bytes)) in S1. rewrite !map_map in S1.
  rewrite !(map_ext (λ s, of_bytes (to_bytes s)) id) in S1 by apply of_to_bytes. by rewrite !map_id in S1.
Qed.

(** ** Sections *)

Definition indented (s : string) : bool := starts_with "  " s.

(** The lines of a section: none, or a header and indented rows. *)
Definition section_lines (header : string) (s : list string) : Prop :=
  s = [] ∨ ∃ h rows, s = h :: rows ∧ starts_with header h = true ∧ Forall (λ r, indented r = true) rows.
(** What comes after it starts with another header. *)
Definition section_ends (header : string) (r : list string) : Prop :=
  match r with [] => True | h :: _ => indented h = false ∧ starts_with header h = false end.

Lemma rows_split rows1 rows2 r1 r2 header :
  Forall (λ r, indented r = true) rows1 → Forall (λ r, indented r = true) rows2 →
  section_ends header r1 → section_ends header r2 → rows1 ++ r1 = rows2 ++ r2 → rows1 = rows2 ∧ r1 = r2.
Proof.
  intros H1. revert rows2. induction H1 as [|r rows1 Hr H1 IH]; intros rows2 H2 E1 E2 Heq.
  - destruct H2 as [|r rows2 Hr H2]; [done|]. simpl in Heq. subst r1. destruct E1. congruence.
  - destruct H2 as [|r' rows2 Hr' H2]; simpl in Heq.
    + subst r2. destruct E2. congruence.
    + injection Heq as -> Heq. by destruct (IH rows2 H2 E1 E2 Heq) as [-> ->].
Qed.

Lemma section_split header s1 s2 r1 r2 :
  section_lines header s1 → section_lines header s2 → section_ends header r1 → section_ends header r2 →
  s1 ++ r1 = s2 ++ r2 → s1 = s2 ∧ r1 = r2.
Proof.
  intros [->|(h1 & rows1 & -> & Hh1 & H1)] [->|(h2 & rows2 & -> & Hh2 & H2)] E1 E2 Heq; simpl in Heq.
  - done.
  - subst r1. destruct E1. congruence.
  - subst r2. destruct E2. congruence.
  - injection Heq as -> Heq. by destruct (rows_split _ _ _ _ header H1 H2 E1 E2 Heq) as [-> ->].
Qed.

(** ** Documents *)

Definition truncation_ok (t : TruncationMetadata) : Prop :=
  (trunc_original_bytes t ≤ u64_max)%N ∧ (trunc_retained_bytes t ≤ u64_max)%N ∧
  valid_string (trunc_reason t).

(** What the types of a [ToolResult] guarantee (strings are UTF-8, numbers have
    their width), and ids without delimiters, as [OpaqueId]s are. *)
Record result_ok (r : ToolResult) : Prop := {
  rok_id : id_ok (res_id r);
  rok_invocation : id_ok (res_invocation_id r);
  rok_schema_version : (res_schema_version r ≤ usize_max)%N;
  rok_tool_id : valid_string (res_tool_id r);
  rok_schema_ref : opt_string_ok (res_schema_ref r);
  rok_fields : Forall field_ok (res_fields r);
  rok_evidence : Forall artifact_ref_ok (res_evidence_refs r);
  rok_output : Forall output_ref_ok (res_output_refs r);
  rok_truncation : match res_truncation r with Some t => truncation_ok t | None => True end;
  rok_redactions : Forall redaction_ok (res_redactions r)
}.

Definition toon_document (r : ToolResult) : list string :=
  toon_prelude r None ++ concat (map sec_lines (toon_sections r)).

Lemma append_sections_complete max sections n lines l :
  append_sections max sections n lines = (l, None) → l = lines ++ concat (map sec_lines sections).
Proof.
  revert n lines. induction sections as [|s sections IH]; intros n lines; cbn [append_sections map concat].
  - intros [= ->]. by rewrite app_nil_r.
  - destruct (sec_lines s) as [|x xs]; [apply IH|]. case_match; [done|].
    intros ->%IH. by rewrite <- app_assoc.
Qed.

Lemma toon_lines_complete r max l : toon_lines r max None = (l, None) → l = toon_document r.
Proof.
  unfold toon_lines. destruct (exceeds _ _); [done|].
  destruct (append_sections _ _ _ _) as [lines reason] eqn:Happ. destruct reason as [reason|]; [done|].
  intros [= <-]. by apply append_sections_complete in Happ.
Qed.

Lemma digits_one_line fuel n s : one_line s → one_line (decimal_digits fuel n s).
Proof.
  revert n s. induction fuel as [|fuel IH]; intros n s Hs; [done|]. cbn [decimal_digits].
  assert (Hd : one_line (String (digit (n mod 10)) s)).
  { unfold one_line. change (line_feed ∉ digit (n mod 10) :: to_bytes s).
    rewrite elem_of_cons. intros [Heq|Hin]; [|done]. apply (f_equal code) in Heq.
    rewrite code_digit in Heq by (apply N.mod_lt; lia). change (code line_feed) with 10%N in Heq. lia. }
  destruct (n <? 10)%N; [done|]. by apply IH.
Qed.
Lemma number_one_line n : one_line (usize_to_string n).
Proof. apply digits_one_line. by apply not_elem_of_nil. Qed.

(** Decide that a literal stays on its line. *)
Ltac literal_line := by apply (bool_decide_eq_true_1 (line_feed ∉ _)).
Ltac solve_line :=
  repeat match goal with
  | |- one_line (_ +:+ _) => apply one_line_app; split
  | |- one_line (render_toon_value _) => apply render_toon_value_one_line; assumption
  | |- one_line (render_optional_string _) => apply render_optional_one_line; assumption
  | |- one_line (render_structured_value _) => apply render_structured_one_line; assumption
  | |- one_line (usize_to_string _) => apply number_one_line
  | |- one_line (count_text _) => apply number_one_line
  | |- one_line (i64_to_string _) => apply bare_one_line, i64_text; assumption
  | |- one_line (as_str _) => apply bare_one_line; assumption
  | |- one_line _ => literal_line
  end.

Lemma section_one_line {A} (ok : A → Prop) (row : A → string) header l :
  one_line header → (∀ x, ok x → one_line (row x)) → Forall ok l →
  Forall one_line (match l with [] => [] | _ => header :: map row l end).
Proof.
  intros Hh Hrow Hl. destruct l as [|x l]; [constructor|]. constructor; [done|].
  apply Forall_map. by eapply Forall_impl.
Qed.

Lemma fields_one_line l : Forall field_ok l → Forall one_line (build_fields_section l).
Proof.
  apply (section_one_line field_ok field_row); [solve_line|]. intros f [Hk Hv]. unfold field_row. solve_line.
Qed.
Lemma artifacts_one_line label l :
  one_line label → Forall artifact_ref_ok l → Forall one_line (build_artifact_refs_section label l).
Proof.
  intros Hl. apply (section_one_line artifact_ref_ok artifact_row); [solve_line; done|].
  intros r (H1 & H2 & H3 & H4 & H5). unfold artifact_row. solve_line.
Qed.
Lemma outputs_one_line l : Forall output_ref_ok l → Forall one_line (build_output_refs_section l).
Proof.
  apply (section_one_line output_ref_ok output_row); [solve_line|].
  intros r (H1 & H2 & H3 & H4 & H5). unfold output_row. solve_line.
Qed.
Lemma redactions_one_line l : Forall redaction_ok l → Forall one_line (build_redactions_section l).
Proof.
  apply (section_one_line redaction_ok redaction_row); [solve_line|].
  intros r (H1 & H2 & H3). unfold redaction_row. solve_line.
Qed.

Lemma prelude_one_line r : result_ok r → Forall one_line (toon_prelude r None).
Proof.
  intros [H1 H2 H3 H4 H5 _ _ _ _ _]. unfold toon_prelude, schema_version.
  repeat (apply Forall_cons; split); cycle 6.
  - destruct (res_schema_ref r); [|constructor]. repeat constructor. simpl in H5. solve_line.
  - destruct (res_status r); literal_line.
  - solve_line.
  - literal_line.
  - solve_line.
  - solve_line.
  - solve_line.
Qed.

Lemma sections_one_line r : result_ok r → Forall one_line (concat (map sec_lines (toon_sections r))).
Proof.
  intros [_ _ _ _ _ H1 H2 H3 H4 H5]. unfold toon_sections. rewrite !map_app, !concat_app.
  cbn [map concat sec_lines]. rewrite !Forall_app. split_and!.
  - by apply fields_one_line.
  - apply artifacts_one_line; [literal_line|done].
  - by apply outputs_one_line.
  - constructor.
  - destruct (res_truncation r) as [t|]; [|constructor]. destruct H4 as (H4a & H4b & H4c).
    cbn [map concat sec_lines]. rewrite app_nil_r. unfold build_truncation_section.
    repeat constructor; solve_line.
  - by apply redactions_one_line.
  - constructor.
Qed.

Lemma document_one_line r : result_ok r → Forall one_line (toon_document r).
Proof. intros Hr. apply Forall_app. split; [by apply prelude_one_line|by apply sections_one_line]. Qed.

(** ** A document determines its result *)

(** Two words that differ at some position are not prefixes of one text. *)
Fixpoint clash (p q : string) : bool :=
  match p, q with
  | String a p, String b q => negb (bool_decide (a = b)) || clash p q
  | _, _ => false
  end.

Lemma starts_with_clash p q s : clash p q = true → starts_with q s = true → starts_with p s = false.
Proof.
  unfold starts_with. revert q s. induction p as [|a p IH]; intros [|b q] [|c s] Hc Hq; try done.
  cbn [clash strip_prefix] in *. destruct (bool_decide_reflect (b = c)) as [->|]; [|done].
  destruct (bool_decide_reflect (a = c)) as [->|]; [|done]. simpl in Hc. by eapply IH.
Qed.

Lemma section_ends_app p q s r :
  section_lines q s → clash "  " q = true → clash p q = true → section_ends p r → section_ends p (s ++ r).
Proof.
  intros [->|(h & rows & -> & Hh & _)] Hi Hc Hr; [done|]. cbn [app section_ends]. split.
  - by apply (starts_with_clash _ q).
  - by apply (starts_with_clash _ q).
Qed.

Lemma section_lines_of {A} (row : A → string) (p rest : string) (l : list A) :
  (∀ x, indented (row x) = true) →
  section_lines p (match l with [] => [] | _ => (p +:+ rest) :: map row l end).
Proof.
  intros Hrow. destruct l as [|x l]; [by left|]. right. do 2 eexists. split; [done|]. split.
  - clear. unfold starts_with. induction p as [|c p IH]; [done|]. simpl. by rewrite bool_decide_eq_true_2.
  - apply Forall_map. by apply Forall_true.
Qed.

Lemma section_inj {A} (ok : A → Prop) (row : A → string) (h : list A → string) l l' :
  (∀ x y, ok x → ok y → row x = row y → x = y) → Forall ok l → Forall ok l' →
  match l with [] => [] | _ => h l :: map row l end = match l' with [] => [] | _ => h l' :: map row l' end →
  l = l'.
Proof.
  intros Hinj Hl Hl' Heq. assert (Hmap : map row l = map row l').
  { destruct l, l'; try done. exact (f_equal tail Heq). }
  clear Heq. revert l' Hl' Hmap. induction Hl as [|x l Hx _ IH]; intros [|y l'] Hl' Hmap; try done.
  inversion Hl' as [|? ? Hy Hl'']; subst. injection Hmap as Hxy Hmap. f_equal; [by apply Hinj|by apply IH].
Qed.

Lemma usize_to_string_inj m n :
  (m ≤ usize_max)%N → (n ≤ usize_max)%N → usize_to_string m = usize_to_string n → m = n.
Proof.
  intros Hm Hn Heq. pose proof (parse_usize_to_string m Hm) as H1. rewrite Heq in H1.
  rewrite parse_usize_to_string in H1 by done. congruence.
Qed.

(** The result without the time of its creation, which documents do not show. *)
Definition timeless (r : ToolResult) : ToolResult := {|
  res_id := res_id r; res_schema_version := res_schema_version r; res_created_at := 0;
  res_invocation_id := res_invocation_id r; res_tool_id := res_tool_id r; res_status := res_status r;
  res_schema_ref := res_schema_ref r; res_fields := res_fields r;
  res_evidence_refs := res_evidence_refs r; res_output_refs := res_output_refs r;
  res_truncation := res_truncation r; res_redactions := res_redactions r |}.

Lemma as_str_eq {k} (i j : OpaqueId k) : as_str i = as_str j → i = j.
Proof. destruct i, j. by intros [= ->]. Qed.

Definition schema_ref_lines (o : option string) : list string :=
  match o with Some schema_ref => ["schema_ref " +:+ render_toon_value schema_ref] | None => [] end.
Definition truncation_lines (o : option TruncationMetadata) : list string :=
  match o with Some t => build_truncation_section t | None => [] end.

(** The sections of a document one after the other. *)
Lemma document_sections r :
  toon_document r =
  ["status " +:+ status_name (res_status r); "schema_version " +:+ schema_version r;
   "format " +:+ format_name Toon; "tool_id " +:+ render_toon_value (res_tool_id r);
   "result_id " +:+ as_str (res_id r); "invocation_id " +:+ as_str (res_invocation_id r)] ++
  schema_ref_lines (res_schema_ref r) ++ build_fields_section (res_fields r) ++
  build_artifact_refs_section "evidence_refs" (res_evidence_refs r) ++
  build_output_refs_section (res_output_refs r) ++ truncation_lines (res_truncation r) ++
  build_redactions_section (res_redactions r) ++ [].
Proof.
  unfold toon_document, toon_prelude, toon_sections. rewrite !map_app, !concat_app, <- !app_assoc.
  cbn [map concat sec_lines]. rewrite <- !app_assoc. cbn [app].
  assert (Ht : concat (map sec_lines match res_truncation r with
             | Some truncation => [{| sec_label := "truncation"; sec_count := 1;
                                      sec_lines := build_truncation_section truncation |}]
             | None => [] end) = truncation_lines (res_truncation r)).
  { by destruct (res_truncation r). }
  by rewrite Ht.
Qed.

Lemma schema_ref_section o : section_lines "schema_ref " (schema_ref_lines o).
Proof. destruct o; [right|by left]. do 2 eexists. split; [done|]. split; [done|constructor]. Qed.
Lemma fields_section l : section_lines "fields[" (build_fields_section l).
Proof. by apply (section_lines_of field_row "fields["). Qed.
Lemma evidence_section l : section_lines "evidence_refs[" (build_artifact_refs_section "evidence_refs" l).
Proof. by apply (section_lines_of artifact_row "evidence_refs["). Qed.
Lemma output_section l : section_lines "output_refs[" (build_output_refs_section l).
Proof. by apply (section_lines_of output_row "output_refs["). Qed.
Lemma truncation_section o : section_lines "truncation" (truncation_lines o).
Proof. destruct o; [right|by left]. do 2 eexists. split; [done|]. split; [done|]. by repeat constructor. Qed.
Lemma redactions_section l : section_lines "redactions[" (build_redactions_section l).
Proof. by apply (section_lines_of redaction_row "redactions["). Qed.

Create HintDb toon.
#[local] Hint Resolve schema_ref_section fields_section evidence_section output_section
  truncation_section redactions_section : toon.
Ltac solve_ends :=
  repeat first [exact I | eapply section_ends_app; [eauto with toon|reflexivity|reflexivity|]].

(** Equal documents have equal sections. *)
Lemma document_split r s : toon_document r = toon_document s →
  (status_name (res_status r) = status_name (res_status s) ∧ schema_version r = schema_version s ∧
   render_toon_value (res_tool_id r) = render_toon_value (res_tool_id s) ∧ res_id r = res_id s ∧
   res_invocation_id r = res_invocation_id s) ∧
  schema_ref_lines (res_schema_ref r) = schema_ref_lines (res_schema_ref s) ∧
  build_fields_section (res_fields r) = build_fields_section (res_fields s) ∧
  build_artifact_refs_section "evidence_refs" (res_evidence_refs r)
  = build_artifact_refs_section "evidence_refs" (res_evidence_refs s) ∧
  build_output_refs_section (res_output_refs r) = build_output_refs_section (res_output_refs s) ∧
  truncation_lines (res_truncation r) = truncation_lines (res_truncation s) ∧
  build_redactions_section (res_redactions r) = build_redactions_section (res_redactions s).
Proof.
  rewrite !document_sections. intros Heq.
  apply app_inj_1 in Heq as [Hp Heq]; [|done].
  apply (section_split "schema_ref ") in Heq as [E1 Heq]; [|solve [eauto with toon|solve_ends]..].
  apply (section_split "fields[") in Heq as [E2 Heq]; [|solve [eauto with toon|solve_ends]..].
  apply (section_split "evidence_refs[") in Heq as [E3 Heq]; [|solve [eauto with toon|solve_ends]..].
  apply (section_split "output_refs[") in Heq as [E4 Heq]; [|solve [eauto with toon|solve_ends]..].
  apply (section_split "truncation") in Heq as [E5 Heq]; [|solve [eauto with toon|solve_ends]..].
  rewrite !app_nil_r in Heq. split_and!; try done.
  - apply (f_equal (λ l, nth 0 l "")) in Hp. by apply (inj (String.append "status ")) in Hp.
  - apply (f_equal (λ l, nth 1 l "")) in Hp. by apply (inj (String.append "schema_version ")) in Hp.
  - apply (f_equal (λ l, nth 3 l "")) in Hp. by apply (inj (String.append "tool_id ")) in Hp.
  - apply (f_equal (λ l, nth 4 l "")) in Hp. by apply (inj (String.append "result_id ")), as_str_eq in Hp.
  - apply (f_equal (λ l, nth 5 l "")) in Hp. by apply (inj (String.append "invocation_id ")), as_str_eq in Hp.
Qed.

Lemma status_name_inj a b : status_name a = status_name b → a = b.
Proof. by destruct a, b. Qed.

Lemma schema_version_inj r s : result_ok r → result_ok s →
  schema_version r = schema_version s → res_schema_version r = res_schema_version s.
Proof.
  intros Hr Hs Heq. apply usize_to_string_inj; [apply Hr|apply Hs|].
  unfold schema_version in Heq. by apply (inj (String.append "tool_result")), (inj (String.append ".v")) in Heq.
Qed.

Lemma schema_ref_inj o p : opt_string_ok o → opt_string_ok p → schema_ref_lines o = schema_ref_lines p → o = p.
Proof.
  destruct o as [x|], p as [y|]; try done. intros Hx Hy Heq. f_equal.
  apply (f_equal (λ l, nth 0 l "")), (inj (String.append "schema_ref ")) in Heq. by apply value_end_inj.
Qed.

Lemma truncation_inj (o p : option TruncationMetadata) :
  match o with Some t => truncation_ok t | None => True end →
  match p with Some t => truncation_ok t | None => True end →
  truncation_lines o = truncation_lines p → o = p.
Proof.
  destruct o as [[o1 o2 o3]|], p as [[p1 p2 p3]|]; try done. intros (H1 & H2 & H3) (H4 & H5 & H6) Heq.
  pose proof (f_equal (λ l, nth 2 l "") Heq) as E1.
  pose proof (f_equal (λ l, nth 3 l "") Heq) as E2. pose proof (f_equal (λ l, nth 4 l "") Heq) as E3.
  apply (inj (String.append "  original_bytes ")), usize_to_string_inj in E1; [|exact H1|exact H4].
  apply (inj (String.append "  retained_bytes ")), usize_to_string_inj in E2; [|exact H2|exact H5].
  apply (inj (String.append "  reason ")), value_end_inj in E3; [|exact H3|exact H6]. simpl in *. by subst.
Qed.

Lemma document_inj r s : result_ok r → result_ok s → toon_document r = toon_document s → timeless r = timeless s.
Proof.
  intros Hr Hs Heq%document_split. pose proof Hr as [R1 R2 R3 R4 R5 R6 R7 R8 R9 R10].
  pose proof Hs as [S1 S2 S3 S4 S5 S6 S7 S8 S9 S10].
  destruct Heq as ((E1%status_name_inj & E2%schema_version_inj & E3%value_end_inj & E4 & E5) & E6 & E7 & E8 & E9 & E10 & E11);
    [|done..].
  apply schema_ref_inj in E6; [|done..]. apply truncation_inj in E10; [|done..].
  apply (section_inj field_ok field_row (λ l, "fields[" +:+ count_text l +:+ "]{key,value}")
    _ _ field_row_inj R6 S6) in E7.
  apply (section_inj artifact_ref_ok artifact_row
    (λ l, "evidence_refs[" +:+ count_text l +:+ "]{id,uri,media_type,label,digest}") _ _ artifact_row_inj R7 S7) in E8.
  apply (section_inj output_ref_ok output_row
    (λ l, "output_refs[" +:+ count_text l +:+ "]{id,uri,media_type,label,digest}") _ _ output_row_inj R8 S8) in E9.
  apply (section_inj redaction_ok redaction_row
    (λ l, "redactions[" +:+ count_text l +:+ "]{field_path,reason,redacted_at_ms}") _ _ redaction_row_inj R10 S10) in E11.
  unfold timeless. congruence.
Qed.
