(* ===== verification/RenderLaws.v ===== *)
(** * RenderLaws: what the renderers guarantee

    The byte budget is kept and only shortens values; the rendered result is as
    well-formed as the original; nothing is left out without a reason; renderings
    have at most the lines allowed; and rendering fails exactly when the policy
    rejects a field (or [serde_json] does). *)
From S2P Require Import Prelude Text Domain StoreTypes Settings Truncation.
From S2P Require Import TruncationLaws Spill Runtime ToolOutput ToonLaws.

(** ** The byte budget *)

(** The renderer has its own copy of the function that cuts a string. *)
Lemma truncate_string_value_copy s max :
  ToolOutput.truncate_string_value s max = Truncation.truncate_string_value s max.
Proof. done. Qed.

(** The values of [out] are prefixes of some of the [values], in order. *)
Definition shortened (out values : list string) : Prop :=
  ∃ chosen, chosen `sublist_of` values ∧ Forall2 (λ o v, to_bytes o `prefix_of` to_bytes v) out chosen.

Lemma shortened_nil values : shortened [] values.
Proof. exists []. split; [apply sublist_nil_l|constructor]. Qed.
Lemma shortened_skip out v values : shortened out values → shortened out (v :: values).
Proof. intros (chosen & Hc & Hf). exists chosen. split; [by apply sublist_cons|done]. Qed.
Lemma shortened_cons o out v values :
  to_bytes o `prefix_of` to_bytes v → shortened out values → shortened (o :: out) (v :: values).
Proof.
  intros Ho (chosen & Hc & Hf). exists (v :: chosen). split; [by apply sublist_skip|by constructor].
Qed.

(** The candidate of a round: a whole value or its longest prefix that fits. *)
Lemma candidate_spec v remaining : valid_string v →
  ∃ t, or_else (ToolOutput.truncate_string_value v remaining)
         (if (str_len v <=? remaining)%N then Some v else None) = Some t ∧
       valid_string t ∧ to_bytes t `prefix_of` to_bytes v ∧ (string_bytes t ≤ remaining)%N.
Proof.
  intros Hv. rewrite truncate_string_value_copy. pose proof (truncate_string_longest_prefix v remaining Hv) as Hp.
  destruct (Truncation.truncate_string_value v remaining) as [t|].
  - destruct Hp as (_ & Ht & Hpre & Hlen & _). by exists t.
  - exists v. unfold str_len. unfold string_bytes in Hp. rewrite (proj2 (N.leb_le _ _) Hp). by simpl.
Qed.

Lemma truncate_values_spec max values kept out n :
  (max ≤ u64_max)%N → Forall valid_string values → Forall valid_string kept → (joined_len kept ≤ max)%N →
  truncate_values values max kept (joined_len kept) = (out, n) →
  n = joined_len out ∧ (joined_len out ≤ max)%N ∧ Forall valid_string out ∧
  ∃ added, out = kept ++ added ∧ shortened added values.
Proof.
  intros Hmax Hvs. revert kept. induction Hvs as [|v values Hv _ IH]; intros kept Hkept Hk.
  - intros [= <- <-]. split_and!; [done..|]. exists []. split; [by rewrite app_nil_r|apply shortened_nil].
  - cbn [truncate_values]. change (match kept with [] => 0%N | _ :: _ => 1%N end) with (separator_len kept).
    assert (Hstop : (out, n) = (kept, joined_len kept) →
      n = joined_len out ∧ (joined_len out ≤ max)%N ∧ Forall valid_string out ∧
      ∃ added, out = kept ++ added ∧ shortened added (v :: values)).
    { intros [= -> ->]. split_and!; [done..|]. exists []. split; [by rewrite app_nil_r|apply shortened_nil]. }
    destruct (_ =? 0)%N eqn:Hz; [by intros Heq; apply Hstop|].
    destruct (candidate_spec v (saturating_sub max (saturating_add_u64 (joined_len kept) (separator_len kept))) Hv)
      as (t & -> & Ht & Hpre & Hlen).
    destruct (str_is_empty t).
    + intros (Hn & Hle & Hok & added & -> & Hs)%IH; [|done..]. split_and!; [done..|].
      exists added. split; [done|by apply shortened_skip].
    + assert (Hbytes : saturating_add_u64 (joined_len kept) (separator_len kept + str_len t)
                       = joined_len (kept ++ [t])).
      { rewrite joined_len_snoc. unfold saturating_add_u64, saturating_sub, str_len in *.
        unfold string_bytes in *. lia. }
      rewrite Hbytes. intros (Hn & Hle & Hok & added & -> & Hs)%IH.
      * split_and!; [done..|]. exists (t :: added). split; [by rewrite <- app_assoc|by apply shortened_cons].
      * apply Forall_app. by split; [|constructor].
      * rewrite joined_len_snoc. unfold saturating_add_u64, saturating_sub in *. lia.
Qed.

Lemma list_bytes_joined v values :
  (foldr (λ value n, (str_len value + n)%N) 0%N (v :: values) + (nlen (v :: values) - 1))%N
  = joined_len (v :: values).
Proof.
  unfold nlen. cbn [joined_len foldr length]. change str_len with string_bytes.
  assert (Ht : (foldr (λ value n, (string_bytes value + n)%N) 0%N values + N.of_nat (length values))%N
               = tail_len values).
  { induction values as [|w values IH]; [done|]. cbn [foldr length tail_len]. lia. }
  lia.
Qed.

(** Both copies measure fields alike, up to sums beyond [usize]. *)
Definition value_bytes (v : StructuredValue) : option N :=
  match v with
  | SvString s => Some (string_bytes s)
  | SvStringList l => Some (joined_len l)
  | SvNull | SvBool _ | SvInteger _ => None
  end.
Lemma oversized_value f max : ToolOutput.oversized_field_bytes f max =
  match value_bytes (field_value f) with
  | Some n => if (max <? n)%N then Some n else None
  | None => None
  end.
Proof.
  unfold ToolOutput.oversized_field_bytes. destruct (field_value f) as [| | | |[|v l]]; try done.
  cbn [value_bytes]. by rewrite list_bytes_joined.
Qed.

(** What the budget does to a field. *)
Definition within_budget (max : N) (f f' : ToolResultField) : Prop :=
  field_key f' = field_key f ∧
  match field_value f, field_value f' with
  | SvString s, SvString s' => to_bytes s' `prefix_of` to_bytes s ∧ (string_bytes s' ≤ max)%N
  | SvStringList l, SvStringList l' => shortened l' l ∧ (joined_len l' ≤ max)%N
  | v, v' => v' = v
  end ∧
  (ToolOutput.oversized_field_bytes f max = None → f' = f).

Lemma shortened_refl l : shortened l l.
Proof. exists l. split; [done|]. induction l; by constructor. Qed.

Lemma budget_field_spec max totals f f' totals' :
  (max ≤ u64_max)%N → field_ok f → budget_field max totals f = (f', totals') →
  field_ok f' ∧ within_budget max f f' ∧
  (if is_some (ToolOutput.oversized_field_bytes f max) then bt_omitted_fields totals' = bt_omitted_fields totals + 1
   else totals' = totals)%N.
Proof.
  intros Hmax [Hk Hv]. unfold budget_field, within_budget, field_ok. rewrite oversized_value.
  destruct f as [k v]; cbn [field_key field_value] in *. destruct v as [|b|z|s|l]; cbn [value_bytes value_ok] in *.
  1-3: by intros [= <- <-].
  - destruct (N.ltb_spec max (string_bytes s)) as [Hlt|Hle].
    + rewrite truncate_string_value_copy. pose proof (truncate_string_longest_prefix s max Hv) as Hp.
      destruct (Truncation.truncate_string_value s max) as [t|]; [|lia].
      destruct Hp as (_ & Ht & Hpre & Hlen & _). by intros [= <- <-].
    + by intros [= <- <-].
  - destruct (N.ltb_spec max (joined_len l)) as [Hlt|Hle].
    + destruct (ToolOutput.truncate_string_list l max) as [out n] eqn:Hl. intros [= <- <-].
      destruct (truncate_values_spec max l [] out n Hmax Hv) as (_ & Hle & Hok & added & -> & Hs);
        [constructor|simpl; lia|done|]. by repeat split.
    + intros [= <- <-]. repeat split; try done. apply shortened_refl.
Qed.

Lemma budget_fields_spec max fields totals fields' totals' :
  (max ≤ u64_max)%N → Forall field_ok fields → budget_fields max totals fields = (fields', totals') →
  Forall field_ok fields' ∧ Forall2 (within_budget max) fields fields' ∧
  (bt_omitted_fields totals' = bt_omitted_fields totals + nlen (oversized_details fields max))%N.
Proof.
  intros Hmax Hok. revert totals fields' totals'.
  induction Hok as [|f fields Hf _ IH]; intros totals fields' totals'; cbn [budget_fields].
  - intros [= <- <-]. split_and!; [constructor..|]. simpl. unfold nlen. simpl. lia.
  - destruct (budget_field max totals f) as [f1 t1] eqn:H1.
    destruct (budget_fields max t1 fields) as [fs t2] eqn:H2. intros [= <- <-].
    destruct (budget_field_spec _ _ _ _ _ Hmax Hf H1) as (Hf1 & Hw & Hn).
    destruct (IH _ _ _ H2) as (Hfs & Hws & Hns). split_and!; [by constructor..|].
    rewrite Hns. unfold oversized_details, nlen in *. cbn [omap list_omap].
    destruct (ToolOutput.oversized_field_bytes f max); simpl in *; [|by subst t1].
    rewrite Hn. lia.
Qed.

(** The text is plain ASCII. *)
Definition plain (s : string) : bool := forallb (λ c, (code c <? 128)%N) (to_bytes s).

Lemma plain_app a b : plain (a +:+ b) = plain a && plain b.
Proof. unfold plain. by rewrite to_bytes_app, forallb_app. Qed.

Lemma plain_valid s : plain s = true → valid_string s.
Proof.
  unfold plain, valid_string. induction (to_bytes s) as [|c l IH]; [constructor|].
  simpl. intros [Hc Hl]%andb_true_iff. apply N.ltb_lt in Hc. apply (utf8_char c [] l); [| |constructor|auto].
  - unfold is_lead. lia.
  - unfold len_utf8. by rewrite (proj2 (N.ltb_lt _ _) Hc).
Qed.

Lemma plain_number n : plain (usize_to_string n) = true.
Proof.
  unfold usize_to_string, plain. assert (Hgen : ∀ fuel n s, forallb (λ c, (code c <? 128)%N) (to_bytes s) = true →
    forallb (λ c, (code c <? 128)%N) (to_bytes (decimal_digits fuel n s)) = true); [|by apply Hgen].
  induction fuel as [|fuel IH]; intros m s Hs; [done|]. cbn [decimal_digits].
  assert (Hd : forallb (λ c, (code c <? 128)%N) (to_bytes (String (digit (m mod 10)) s)) = true).
  { change (to_bytes (String (digit (m mod 10)) s)) with (digit (m mod 10) :: to_bytes s). cbn [forallb].
    pose proof (N.mod_lt m 10 ltac:(lia)). rewrite Hs, code_digit by lia. lia. }
  destruct (m <? 10)%N; [done|by apply IH].
Qed.

Lemma valid_app a b : valid_string a → valid_string b → valid_string (a +:+ b).
Proof. unfold valid_string. rewrite to_bytes_app. apply utf8_app. Qed.

Lemma merge_truncation_ok existing original retained reason :
  match existing with Some t => truncation_ok t | None => True end →
  (original ≤ u64_max)%N → (retained ≤ u64_max)%N → valid_string reason →
  truncation_ok (merge_runtime_truncation existing original retained reason).
Proof.
  intros He Ho Hr Hv. destruct existing as [t|]; simpl; [|done]. destruct He as (H1 & H2 & H3).
  unfold saturating_add_u64. repeat split; cbn [trunc_original_bytes trunc_retained_bytes trunc_reason].
  - unfold saturating_add_u64. lia.
  - unfold saturating_add_u64. lia.
  - apply valid_app; [done|]. apply valid_app; [by apply plain_valid|done].
Qed.

Lemma budget_totals_bounded max fields totals fields' totals' :
  budget_fields max totals fields = (fields', totals') →
  (bt_original_bytes totals ≤ u64_max)%N → (bt_retained_bytes totals ≤ u64_max)%N →
  (bt_original_bytes totals' ≤ u64_max)%N ∧ (bt_retained_bytes totals' ≤ u64_max)%N.
Proof.
  revert totals fields' totals'. induction fields as [|f fields IH]; intros totals fields' totals';
    cbn [budget_fields]; [by intros [= <- <-]|].
  destruct (budget_field max totals f) as [f1 t1] eqn:H1.
  destruct (budget_fields max t1 fields) as [fs t2] eqn:H2. intros [= <- <-] Ho Hr.
  apply (IH _ _ _ H2); unfold budget_field in H1;
    destruct (ToolOutput.oversized_field_bytes f max); [|by injection H1 as _ <-| |by injection H1 as _ <-].
  - destruct (match field_value f with SvString _ => _ | _ => _ end). injection H1 as _ <-.
    simpl. unfold saturating_add_u64. lia.
  - destruct (match field_value f with SvString _ => _ | _ => _ end). injection H1 as _ <-.
    simpl. unfold saturating_add_u64. lia.
Qed.

(** The policy would have to reject the result. *)
Definition over_budget (r : ToolResult) (p : ToolOutputRenderPolicy) : Prop :=
  match rpol_max_inline_bytes p with
  | Some max => oversized_details (res_fields r) (ToolOutput.max_inline_bytes_as_usize max) ≠ []
  | None => False
  end.

Lemma as_usize_bound max : (ToolOutput.max_inline_bytes_as_usize max ≤ u64_max)%N.
Proof. unfold ToolOutput.max_inline_bytes_as_usize, usize_max. case_match; lia. Qed.

Lemma details_nil fields max :
  oversized_details fields max = [] ↔ Forall (λ f, ToolOutput.oversized_field_bytes f max = None) fields.
Proof.
  unfold oversized_details. induction fields as [|f fields IH]; [split; [constructor|done]|].
  rewrite omap_cons_eq, Forall_cons, <- IH. destruct (ToolOutput.oversized_field_bytes f max); simpl; naive_solver.
Qed.

Lemma within_budget_same max f : ToolOutput.oversized_field_bytes f max = None → within_budget max f f.
Proof.
  rewrite oversized_value. unfold within_budget. intros Hf. split_and!; [done| |done].
  destruct (field_value f) as [| | |s|l]; try done; cbn [value_bytes] in Hf.
  - destruct (N.ltb_spec max (string_bytes s)); [done|]. by split.
  - destruct (N.ltb_spec max (joined_len l)); [done|]. split; [apply shortened_refl|done].
Qed.

Lemma result_ok_fields r fields : result_ok r → Forall field_ok fields → result_ok (res_set_fields r fields).
Proof. by intros [] Hf; constructor. Qed.
Lemma result_ok_truncation r t :
  result_ok r → match t with Some t => truncation_ok t | None => True end → result_ok (res_set_truncation r t).
Proof. by intros [] Ht; constructor. Qed.

(** A result within the budget is left alone; otherwise it is rejected or cut,
    and cutting is announced. *)
Lemma budget_spec r max policy :
  result_ok r →
  match apply_render_byte_budget r max policy with
  | Err e => policy = RejectOversize ∧
      oversized_details (res_fields r) (ToolOutput.max_inline_bytes_as_usize max) ≠ []
  | Ok (r', reason) =>
      result_ok r' ∧
      Forall2 (within_budget (ToolOutput.max_inline_bytes_as_usize max)) (res_fields r) (res_fields r') ∧
      res_evidence_refs r' = res_evidence_refs r ∧ res_output_refs r' = res_output_refs r ∧
      res_redactions r' = res_redactions r ∧ (reason = None → r' = r) ∧
      (policy = RejectOversize → r' = r)
  end.
Proof.
  intros Hr. unfold apply_render_byte_budget. pose proof (as_usize_bound max) as Hmax.
  set (m := ToolOutput.max_inline_bytes_as_usize max) in *.
  destruct (oversized_details (res_fields r) m) as [|d ds] eqn:Hd.
  { apply details_nil in Hd. split_and!; try done. apply Forall_Forall2_diag.
    eapply Forall_impl; [exact Hd|]. apply within_budget_same. }
  destruct policy; [..|done].
  all: destruct (budget_fields _ _ _) as [fields totals] eqn:Hb.
  all: pose proof (budget_fields_spec _ _ _ _ _ Hmax (rok_fields _ Hr) Hb) as (Hok & Hw & Hn).
  all: pose proof (budget_totals_bounded _ _ _ _ _ Hb ltac:(done) ltac:(done)) as [Ho Ht].
  all: rewrite Hd in Hn; unfold nlen in Hn; simpl in Hn.
  all: destruct (N.eqb_spec (bt_omitted_fields totals) 0); [lia|].
  all: split_and!; try done; apply result_ok_truncation; [by apply result_ok_fields|].
  all: apply merge_truncation_ok; [apply Hr|done..|].
  all: apply plain_valid; by rewrite plain_app, plain_number.
Qed.

Lemma budget_rejects r max :
  oversized_details (res_fields r) (ToolOutput.max_inline_bytes_as_usize max) ≠ [] →
  is_ok (apply_render_byte_budget r max RejectOversize) = false.
Proof. intros Hd. unfold apply_render_byte_budget. by destruct (oversized_details _ _). Qed.

(** ** What is rendered *)

Lemma takeN_sub {A} n (l : list A) : takeN n l `sublist_of` l.
Proof. apply sublist_take. Qed.
Lemma nlen_takeN {A} n (l : list A) : nlen (takeN n l) = N.min n (nlen l).
Proof. unfold takeN, nlen. rewrite length_take. lia. Qed.
Lemma takeN_all {A} n (l : list A) : (nlen l ≤ n)%N → takeN n l = l.
Proof. intros Hn. unfold takeN. apply take_ge. unfold nlen in *. lia. Qed.

Lemma Forall_filter_bool {A} (P : A → Prop) f l : Forall P l → Forall P (List.filter f l).
Proof. induction 1 as [|x l Hx _ IH]; simpl; [constructor|]. destruct (f x); auto. Qed.
Lemma length_filter_le {A} (f : A → bool) l : (length (List.filter f l) ≤ length l)%nat.
Proof. induction l as [|x l IH]; simpl; [lia|]. destruct (f x); simpl; lia. Qed.
Lemma filter_length_eq {A} (f : A → bool) l : length (List.filter f l) = length l → List.filter f l = l.
Proof.
  induction l as [|x l IH]; simpl; [done|]. pose proof (length_filter_le f l).
  destruct (f x); simpl; intros Hl; [f_equal; apply IH; lia|lia].
Qed.

Lemma prioritize_perm fields : prioritize_renderable_fields fields ≡ₚ fields.
Proof.
  unfold prioritize_renderable_fields. induction fields as [|f fields IH]; [done|]. simpl.
  destruct (is_summary f); simpl; [by rewrite IH|]. by rewrite <- Permutation_middle, IH.
Qed.

Lemma Forall_takeN {A} (P : A → Prop) n l : Forall P l → Forall P (takeN n l).
Proof. apply Forall_take. Qed.

Lemma select_ok r p : result_ok r → result_ok (select_renderable r p).
Proof.
  intros [H1 H2 H3 H4 H5 H6 H7 H8 H9 H10]. unfold select_renderable. constructor; simpl; try done.
  - apply (Forall_filter_bool _ (λ f, should_render_field (field_key f) (rpol_render_options p))) in H6.
    destruct (rpol_max_fields p); [|done]. apply Forall_takeN. by rewrite prioritize_perm.
  - by destruct (rpol_include_evidence_refs p).
  - by destruct (rpol_include_output_refs p).
  - by destruct (rpol_include_redactions p).
Qed.

(** Selection keeps a result that loses nothing, up to the order of its fields. *)
Lemma select_complete r p :
  render_policy_fallback_reason r (select_renderable r p) = None →
  ∃ fs, fs ≡ₚ res_fields r ∧ select_renderable r p = res_set_fields r fs.
Proof.
  unfold render_policy_fallback_reason, omitted, saturating_sub. intros Hnone.
  destruct (_ || _) eqn:Ho in Hnone; [done|]. rewrite !orb_false_iff, !N.ltb_ge in Ho.
  destruct Ho as (((Hf & He) & Hu) & Hr). exists (res_fields (select_renderable r p)). split.
  - clear He Hu Hr. unfold select_renderable in *. cbn [res_fields res_set_refs res_set_fields] in *.
    set (sel := List.filter _ (res_fields r)) in *.
    pose proof (length_filter_le (λ f, should_render_field (field_key f) (rpol_render_options p)) (res_fields r)) as Hle.
    assert (Hsel : length sel = length (res_fields r) → sel = res_fields r) by apply filter_length_eq.
    fold sel in Hle. destruct (rpol_max_fields p) as [n|].
    + rewrite nlen_takeN in Hf. assert (Hn : nlen (prioritize_renderable_fields sel) = nlen sel).
      { unfold nlen. by rewrite prioritize_perm. }
      rewrite takeN_all by (unfold nlen in *; lia). rewrite prioritize_perm.
      rewrite Hsel; [done|]. unfold nlen in *. lia.
    + rewrite Hsel; [done|]. unfold nlen in *. lia.
  - clear Hf. unfold select_renderable in *. cbn [res_evidence_refs res_output_refs res_redactions res_set_refs res_set_fields] in *.
    unfold nlen in *. unfold res_set_refs, res_set_fields. cbn [res_fields res_id res_schema_version res_created_at
      res_invocation_id res_tool_id res_status res_schema_ref res_truncation].
    f_equal; repeat case_match; try done; simpl in *; symmetry; apply length_zero_iff_nil; lia.
Qed.

Lemma combine_none a b : combine_fallback_reasons a b = None → a = None ∧ b = None.
Proof. by destruct a, b. Qed.

(** The rendered result: well-formed, within the budget, and the same result when
    no reason is given. *)
Lemma renderable_spec r p :
  result_ok r →
  match renderable_result r p with
  | Err e => rpol_oversize_policy p = RejectOversize ∧ over_budget (select_renderable r p) p
  | Ok (r', reason) =>
      result_ok r' ∧
      (reason = None → r' = select_renderable r p) ∧
      match rpol_max_inline_bytes p with
      | Some max => Forall2 (within_budget (ToolOutput.max_inline_bytes_as_usize max))
                      (res_fields (select_renderable r p)) (res_fields r')
      | None => r' = select_renderable r p
      end
  end.
Proof.
  intros Hr%(select_ok r p). unfold renderable_result, over_budget.
  destruct (rpol_max_inline_bytes p) as [max|]; [|done].
  pose proof (budget_spec _ max (rpol_oversize_policy p) Hr) as Hb.
  destruct (apply_render_byte_budget _ _ _) as [[r' reason]|e]; simpl; [|done].
  destruct Hb as (Hok & Hw & _ & _ & _ & Hsame & _). split_and!; [done| |done].
  intros Hn. apply Hsame. by destruct reason.
Qed.

Lemma renderable_rejects r p :
  rpol_oversize_policy p = RejectOversize → over_budget (select_renderable r p) p →
  is_ok (renderable_result r p) = false.
Proof.
  intros Hp Ho. unfold renderable_result, over_budget in *. destruct (rpol_max_inline_bytes p) as [max|]; [|done].
  rewrite Hp. pose proof (budget_rejects _ _ Ho) as Hrej.
  by destruct (apply_render_byte_budget _ _ _) as [[]|].
Qed.

(** No reason: the whole result is shown. *)
Lemma renderable_complete r p r' reason :
  result_ok r → renderable_result r p = Ok (r', reason) →
  combine_fallback_reasons reason (render_policy_fallback_reason r r') = None →
  ∃ fs, fs ≡ₚ res_fields r ∧ r' = res_set_fields r fs.
Proof.
  intros Hr Hren [-> Hnone]%combine_none. pose proof (renderable_spec r p Hr) as Hs. rewrite Hren in Hs.
  destruct Hs as (_ & Hsel & _). rewrite Hsel in * by done. by apply select_complete.
Qed.

(** ** Lines of a TOON rendering *)

Lemma append_sections_prefix max sections n lines l reason :
  append_sections max sections n lines = (l, reason) →
  (∃ k, l = lines ++ concat (map sec_lines (take k sections))) ∧
  match reason with
  | Some x => ∃ rest s, s ∈ sections ∧ x = rendering_truncation_reason rest max (sec_label s) None ∧ is_Some max
  | None => True
  end.
Proof.
  revert n lines. induction sections as [|s sections IH]; intros n lines; cbn [append_sections].
  - intros [= <- <-]. split; [|done]. exists 0%nat. by rewrite app_nil_r.
  - destruct (sec_lines s) as [|x xs] eqn:Hs.
    + intros [[k ->] Hr]%IH. split; [exists (S k); cbn [take map concat]; by rewrite Hs|].
      destruct reason; [|done]. destruct Hr as (rest & s' & Hin & Hr). exists rest, s'. split; [by right|done].
    + unfold exceeds. destruct max as [max|]; [destruct (max <? _)%N|].
      * intros [= <- <-]. split; [exists 0%nat; by rewrite app_nil_r|].
        exists (s :: sections), s. split; [by left|done].
      * intros [[k ->] Hr]%IH. split; [exists (S k); cbn [take map concat]; by rewrite Hs, <- app_assoc|].
        destruct reason; [|done]. destruct Hr as (rest & s' & Hin & Hr). exists rest, s'. split; [by right|done].
      * intros [[k ->] Hr]%IH. split; [exists (S k); cbn [take map concat]; by rewrite Hs, <- app_assoc|].
        destruct reason; [|done]. destruct Hr as (rest & s' & Hin & Hr). exists rest, s'. split; [by right|done].
Qed.

Lemma append_sections_bound max sections n lines l reason :
  append_sections (Some max) sections n lines = (l, reason) → n = nlen lines → (nlen lines ≤ max)%N →
  (nlen l ≤ max)%N.
Proof.
  revert n lines. induction sections as [|s sections IH]; intros n lines; cbn [append_sections].
  - by intros [= <- <-].
  - destruct (sec_lines s) as [|x xs]; [apply IH|]. cbn [exceeds].
    destruct (N.ltb_spec max (n + nlen (x :: xs))) as [|Hle]; [by intros [= <- <-]|].
    intros Happ -> Hn. apply (IH _ _ Happ); unfold nlen in *; rewrite length_app; lia.
Qed.

Lemma concat_take_one_line k sections :
  Forall one_line (concat (map sec_lines sections)) → Forall one_line (concat (map sec_lines (take k sections))).
Proof.
  rewrite <- (take_drop k sections) at 1. rewrite map_app, concat_app, Forall_app. tauto.
Qed.

Lemma section_labels_plain r s : s ∈ toon_sections r → plain (sec_label s) = true.
Proof.
  unfold toon_sections. rewrite !elem_of_app. intros [Hs|[Hs|Hs]].
  - by repeat (apply elem_of_cons in Hs as [->|Hs]; [done|]); apply not_elem_of_nil in Hs.
  - destruct (res_truncation r); [|by apply not_elem_of_nil in Hs]. by apply list_elem_of_singleton in Hs as ->.
  - by apply list_elem_of_singleton in Hs as ->.
Qed.

Lemma truncation_reason_plain sections max label o :
  plain label = true → plain (rendering_truncation_reason sections max label o) = true.
Proof.
  intros Hl. unfold rendering_truncation_reason, format_omitted_section_counts.
  rewrite !plain_app, !plain_number, Hl. destruct max, o; rewrite ?plain_app, ?plain_number; done.
Qed.

(** The lines before a notice is added, and why they were cut. *)
Lemma toon_body_spec r max lines cut :
  result_ok r →
  (if exceeds max (nlen (toon_prelude r None))
   then (toon_prelude r None,
         Some (rendering_truncation_reason (toon_sections r) max "tool output prelude"
                 (saturating_sub (nlen (toon_prelude r None)) <$> max)))
   else append_sections max (toon_sections r) (nlen (toon_prelude r None)) (toon_prelude r None)) = (lines, cut) →
  Forall one_line lines ∧ lines ≠ [] ∧
  match cut with
  | Some reason => plain reason = true ∧ is_Some max
  | None => match max with Some m => (nlen lines ≤ m)%N | None => True end
  end.
Proof.
  intros Hr. pose proof (prelude_one_line r Hr) as Hp. pose proof (sections_one_line r Hr) as Hs.
  destruct (exceeds max (nlen (toon_prelude r None))) eqn:Hex.
  - intros [= <- <-]. split_and!; [done|done|by apply truncation_reason_plain|]. by destruct max.
  - intros Hlines. pose proof (append_sections_prefix _ _ _ _ _ _ Hlines) as [[k ->] Hreason]. split_and!.
    + apply Forall_app. split; [done|by apply concat_take_one_line].
    + done.
    + destruct cut as [x|].
      * destruct Hreason as (rest & s & Hin & -> & Hm). split; [|done].
        apply truncation_reason_plain. by apply (section_labels_plain r).
      * destruct max as [m|]; [|done]. apply (append_sections_bound _ _ _ _ _ _ Hlines eq_refl).
        cbn [exceeds] in Hex. by apply N.ltb_ge in Hex.
Qed.

Lemma notice_spec reason remaining :
  plain reason = true →
  Forall one_line (build_rendering_truncation_notice reason remaining) ∧
  (nlen (build_rendering_truncation_notice reason remaining) = 1 ∨
   nlen (build_rendering_truncation_notice reason remaining) = 2 ∧ 2 ≤ remaining)%N.
Proof.
  intros Hx%plain_valid. unfold build_rendering_truncation_notice.
  destruct (N.leb_spec remaining 1); (split; [|unfold nlen; simpl; lia]); repeat constructor; solve_line.
Qed.

(** Cut or not, a rendering has the lines allowed, but never none. *)
Lemma toon_lines_spec r max l reason :
  result_ok r → toon_lines r max None = (l, reason) →
  Forall one_line l ∧ l ≠ [] ∧ match max with Some max => (nlen l ≤ N.max 1 max)%N | None => True end.
Proof.
  intros Hr. unfold toon_lines. destruct (if exceeds _ _ then _ else _) as [lines cut] eqn:Hlines.
  destruct (toon_body_spec r max lines cut Hr Hlines) as (Hl & Hne & Hc). destruct cut as [x|].
  - destruct Hc as [Hx [m ->]]. intros [= <- <-]. cbn [default].
    destruct (notice_spec x (saturating_sub m (nlen lines)) Hx) as [Hn1 Hn2].
    set (notice := build_rendering_truncation_notice _ _) in *. unfold saturating_sub in *. split_and!.
    + apply Forall_app. split; [by apply Forall_takeN|done].
    + intros [_ Heq]%app_eq_nil. rewrite Heq in Hn2. unfold nlen in Hn2. simpl in Hn2. lia.
    + pose proof (nlen_takeN (m - nlen notice) lines) as Ht. unfold nlen in *. rewrite length_app. lia.
  - intros [= <- <-]. split_and!; [done..|]. destruct max; [lia|done].
Qed.
