(* ===== verification/RenderGuarantees.v ===== *)
(** * RenderGuarantees: the renderers of tool output *)
From S2P Require Import Prelude Text Domain Policy StoreTypes Settings Truncation TruncationLaws.
From S2P Require Import Spill Store Backend Runtime RunJob RunStages ToolOutput ToonLaws.
From S2P Require Import RenderLaws.

(** * The properties of the renderers, alone and in a run *)

(** What the renderers rely on of [serde_json]: its compact form has no line
    breaks, those in strings being escaped, and serialising plain data does not
    fail. *)
Class ResultJsonLaws `{ResultJson} := {
  json_compact_line r body : json_compact r = Ok body → one_line body;
  json_serializes r : is_ok (json_compact r) = true ∧ is_ok (json_pretty r) = true
}.

(** ** Text *)

Lemma normalize_one_line s : one_line (normalize_text_output_value s).
Proof.
  unfold normalize_text_output_value, one_line. destruct (any_char _ s) eqn:Hany; simpl.
  - rewrite to_of_bytes. generalize (to_bytes s). clear.
    assert (Hgen : ∀ n l, (length l ≤ n)%nat → line_feed ∉ normalize_bytes l).
    { induction n as [|n IH]; intros [|c l] Hl; try (simpl in Hl; lia); try by apply not_elem_of_nil.
      simpl in Hl. cbn [normalize_bytes]. case_bool_decide as Hcr; [|case_bool_decide as Hlf].
      - apply not_elem_of_cons. split; [done|]. destruct l as [|d l]; [by apply not_elem_of_nil|].
        case_bool_decide; apply IH; simpl in *; lia.
      - apply not_elem_of_cons. split; [done|]. apply IH. lia.
      - apply not_elem_of_cons. split; [congruence|]. apply IH. lia. }
    intros l. by apply (Hgen (length l)).
  - unfold any_char in Hany. rewrite existsb_false in Hany. intros Hin. specialize (Hany _ Hin).
    by vm_compute in Hany.
Qed.

Lemma i64_one_line z : one_line (i64_to_string z).
Proof.
  unfold i64_to_string. destruct (z <? 0)%Z; [|apply number_one_line].
  change (String minus_sign (usize_to_string (Z.abs_N z))) with ("-" +:+ usize_to_string (Z.abs_N z)).
  apply one_line_app. split; [literal_line|apply number_one_line].
Qed.

Lemma status_one_line s : one_line (status_name s).
Proof. destruct s; literal_line. Qed.

Ltac solve_text :=
  repeat match goal with
  | |- one_line (_ +:+ _) => apply one_line_app; split
  | |- one_line (normalize_text_output_value _) => apply normalize_one_line
  | |- one_line (usize_to_string _) => apply number_one_line
  | |- one_line (count_text _) => apply number_one_line
  | |- one_line (i64_to_string _) => apply i64_one_line
  | |- one_line (status_name _) => apply status_one_line
  | |- one_line _ => literal_line
  end.

Lemma join_one_line_with sep l : one_line sep → Forall one_line l → one_line (join sep l).
Proof.
  intros Hsep. induction 1 as [|s [|s' l] Hs Hl IH]; [literal_line|done|].
  change (join sep (s :: s' :: l)) with (s +:+ sep +:+ join sep (s' :: l)). by rewrite !one_line_app.
Qed.

Lemma text_one_line r : one_line (join "; " (text_parts r)).
Proof.
  apply join_one_line_with; [literal_line|]. unfold text_parts. cbv zeta. rewrite !Forall_app. split_and!.
  - apply Forall_singleton. destruct (summary_field r); solve_text.
  - destruct (res_fields r); [constructor|]. apply Forall_singleton. solve_text.
  - destruct (res_evidence_refs r); [constructor|]. apply Forall_singleton. solve_text.
  - destruct (res_output_refs r); [constructor|]. apply Forall_singleton. solve_text.
  - destruct (res_truncation r); [|constructor]. apply Forall_singleton. solve_text.
  - destruct (res_redactions r) as [|d l]; [constructor|]. apply Forall_singleton. solve_text.
    apply join_one_line_with; [literal_line|]. apply Forall_map, Forall_true. intros x. unfold text_redaction.
    solve_text.
Qed.

(** ** Counting lines *)

Lemma lines_count_pieces s : (lines_count s ≤ length (split_bytes [line_feed] (to_bytes s) []))%nat.
Proof. unfold lines_count. repeat case_match; lia. Qed.

Lemma lines_count_one s : one_line s → (lines_count s ≤ 1)%nat.
Proof.
  intros Hs. etrans; [apply lines_count_pieces|]. change s with (join line_feed_string [s]).
  rewrite split_join; [done| |done]. by constructor.
Qed.

(** ** Renderings *)

Section Render.
Context `{ResultJson} `{!ResultJsonLaws}.

Lemma render_toon_lines r p body reason truncation max :
  result_ok r → render_toon r p None = Ok (body, reason, truncation) → rpol_max_inline_lines p = Some max →
  (N.of_nat (lines_count body) ≤ N.max 1 max)%N.
Proof.
  intros Hr Hbody Hmax. pose proof (renderable_spec r p Hr) as Hspec. unfold render_toon in Hbody.
  destruct (renderable_result r p) as [[r' pr]|]; [|done]. simpl in Hbody.
  destruct (toon_lines r' (rpol_max_inline_lines p) None) as [l cut] eqn:Hl. injection Hbody as <- _ _.
  destruct Hspec as [Hr' _]. destruct (toon_lines_spec _ _ _ _ Hr' Hl) as (Hone & Hne & Hlen).
  rewrite Hmax in Hlen. pose proof (lines_count_pieces (join line_feed_string l)) as Hc.
  rewrite split_join in Hc by done. rewrite length_map in Hc. unfold nlen in Hlen. lia.
Qed.

Lemma serialize_Ok x body : serialize x = Ok body → x = Ok body.
Proof. apply map_err_Ok. Qed.

Lemma render_json_lines r p body reason truncation max :
  render_json r p = Ok (body, reason, truncation) → rpol_max_inline_lines p = Some max →
  (N.of_nat (lines_count body) ≤ N.max 1 max)%N.
Proof.
  intros Hbody Hmax. unfold render_json in Hbody. destruct (renderable_result r p) as [[r' pr]|]; [|done].
  simpl in Hbody. rewrite Hmax in Hbody. apply bind_Ok in Hbody as (pretty & _ & Hbody).
  cbn [fits_lines] in Hbody. destruct (N.leb_spec (N.of_nat (lines_count pretty)) max).
  { injection Hbody as <- _ _. lia. }
  apply bind_Ok in Hbody as (compact & Hcompact%serialize_Ok%json_compact_line%lines_count_one & Hbody).
  destruct (N.leb_spec (N.of_nat (lines_count compact)) max).
  { injection Hbody as <- _ _. lia. }
  destruct (truncate_json_rendering r' max) as [r'' fallback].
  apply bind_Ok in Hbody as (final & Hfinal%serialize_Ok%json_compact_line%lines_count_one & Hbody).
  injection Hbody as <- _ _. lia.
Qed.

(** A rendering stays within the lines allowed, in every format: TOON is cut
    with a notice that counts against the limit, text is always a single line and
    JSON falls back to its compact form.  (A limit of zero still yields one
    line.) *)
Theorem renderings_fit_the_lines r p o max :
  result_ok r → ToolOutput.render_tool_result_with_policy r p = Ok o → rpol_max_inline_lines p = Some max →
  (N.of_nat (lines_count (ro_body o)) ≤ N.max 1 max)%N ∧ (ro_format o = Text → one_line (ro_body o)).
Proof.
  intros Hr Ho Hmax. unfold ToolOutput.render_tool_result_with_policy in Ho.
  apply bind_Ok in Ho as ([[body reason] truncation] & Hbody & Ho). injection Ho as <-. simpl.
  destruct (rend_format (rpol_render_options p)).
  - split; [|done]. by eapply render_toon_lines.
  - split; [|done]. by eapply render_json_lines.
  - unfold render_text in Hbody. apply bind_Ok in Hbody as ([r' pr] & _ & Hbody).
    assert (body = join "; " (text_parts r')) as -> by congruence.
    pose proof (text_one_line r') as Hone. pose proof (lines_count_one _ Hone). split; [lia|done].
Qed.

(** The results are equal but for their time and the order of their fields. *)
Definition same_content (r s : ToolResult) : Prop :=
  res_fields r ≡ₚ res_fields s ∧ timeless (res_set_fields r []) = timeless (res_set_fields s []).

(** Without a reason, the text is the document of the whole result. *)
Lemma toon_complete_document r p o :
  result_ok r → ToolOutput.render_tool_result_with_policy r p = Ok o →
  ro_format o = Toon → ro_fallback_reason o = None →
  ∃ fs, fs ≡ₚ res_fields r ∧ result_ok (res_set_fields r fs) ∧
    ro_body o = join line_feed_string (toon_document (res_set_fields r fs)).
Proof.
  intros Hr Ho Hf Hreason. unfold ToolOutput.render_tool_result_with_policy in Ho.
  apply bind_Ok in Ho as ([[body reason] truncation] & Hbody & Ho). injection Ho as <-. simpl in *.
  rewrite Hf in Hbody. unfold render_toon in Hbody. apply bind_Ok in Hbody as ([r' pr] & Hren & Hbody).
  destruct (toon_lines r' _ None) as [l cut] eqn:Hl. injection Hbody as <- Hreason' _. rewrite Hreason in Hreason'.
  apply combine_none in Hreason' as [Hpr ->]. destruct (renderable_complete _ _ _ _ Hr Hren Hpr) as (fs & Hfs & ->).
  exists fs. split; [done|]. split; [|by rewrite (toon_lines_complete _ _ _ Hl)].
  apply result_ok_fields; [done|]. rewrite Hfs. apply Hr.
Qed.

(** C36: TOON loses nothing that it does not confess.  If two results are rendered
    as TOON to the same text and no reason for a fallback is reported, whatever
    the policies were, then the results agree in everything but the time of
    their creation and the order of their fields: quoting never confuses
    strings with literals, numbers, lists or other columns. *)
Theorem toon_is_lossless r s p q o o' :
  result_ok r → result_ok s →
  ToolOutput.render_tool_result_with_policy r p = Ok o →
  ToolOutput.render_tool_result_with_policy s q = Ok o' →
  ro_format o = Toon → ro_format o' = Toon → ro_fallback_reason o = None → ro_fallback_reason o' = None →
  ro_body o = ro_body o' → same_content r s.
Proof.
  intros Hr Hs Ho Ho' Hf Hf' Hn Hn' Hbody.
  destruct (toon_complete_document _ _ _ Hr Ho Hf Hn) as (fs & Hfs & Hrok & Hb). destruct (toon_complete_document _ _ _ Hs Ho' Hf' Hn') as (gs & Hgs & Hsok & Hb').
  rewrite Hb, Hb' in Hbody. apply join_lines_inj in Hbody; [|by apply document_one_line..|done|done].
  apply document_inj in Hbody; [|done..]. unfold timeless in Hbody. simpl in Hbody. injection Hbody as E1 E2 E3 E4 E5 E6 Hfg E8 E9 E10 E11.
  split; [by rewrite <- Hfs, <- Hgs, Hfg|]. unfold timeless. simpl. congruence.
Qed.

(** The policy rejects the result: a field it would render is over the budget. *)
Definition rejects (r : ToolResult) (p : ToolOutputRenderPolicy) : Prop :=
  rpol_oversize_policy p = RejectOversize ∧ over_budget (select_renderable r p) p.

Lemma renderable_is_ok r p : is_ok (renderable_result r p) = true ↔ ¬ rejects r p.
Proof.
  unfold rejects. split.
  - intros Hok [Hp Ho]. by rewrite renderable_rejects in Hok.
  - intros Hno. unfold renderable_result, over_budget in *.
    destruct (rpol_max_inline_bytes p) as [max|]; [|done]. unfold apply_render_byte_budget in *.
    destruct (oversized_details _ _) as [|d ds]; [done|].
    destruct (rpol_oversize_policy p); [..|exfalso; by apply Hno].
    all: destruct (budget_fields _ _ _) as [fields totals]; by destruct (bt_omitted_fields totals =? 0)%N.
Qed.

(** Rendering fails exactly when the policy is to reject oversized output and
    a field that would be shown is over the byte budget; channels that are left
    out and fields beyond the field limit do not count. *)
Theorem rendering_fails_exactly r p :
  is_ok (ToolOutput.render_tool_result_with_policy r p) = true ↔ ¬ rejects r p.
Proof.
  rewrite <- renderable_is_ok. unfold ToolOutput.render_tool_result_with_policy.
  unfold render_toon, render_text, render_json.
  destruct (renderable_result r p) as [[r' reason]|e]; [|by destruct (rend_format _)].
  simpl. split; [done|]. intros _. destruct (rend_format (rpol_render_options p)).
  - by destruct (toon_lines _ _ _).
  - assert (Hc : ∀ x, ∃ body, serialize (json_compact x) = Ok body).
    { intros x. destruct (json_serializes x) as [Hx _]. destruct (json_compact x); [by eexists|done]. }
    destruct (json_serializes r') as [_ Hp]. destruct (json_pretty r') as [pretty|]; [|done]. simpl.
    destruct (fits_lines pretty _); [done|]. destruct (Hc r') as [compact ->]. simpl.
    destruct (fits_lines compact _); [done|].
    destruct (match rpol_max_inline_lines p with Some _ => _ | None => _ end) as [r'' fallback].
    by destruct (Hc r'') as [final ->].
  - done.
Qed.

(** Under the byte budget every rendered value fits, keys and order are kept,
    a string is cut to a prefix of it and a list to prefixes of some of its
    values in order; values within the budget are untouched. *)
Theorem rendered_values_fit r p r' reason max :
  result_ok r → renderable_result r p = Ok (r', reason) → rpol_max_inline_bytes p = Some max →
  Forall2 (within_budget (ToolOutput.max_inline_bytes_as_usize max))
    (res_fields (select_renderable r p)) (res_fields r') ∧
  Forall (λ f, ToolOutput.oversized_field_bytes f (ToolOutput.max_inline_bytes_as_usize max) = None)
    (res_fields r').
Proof.
  intros Hr Hren Hmax. pose proof (renderable_spec r p Hr) as Hs. rewrite Hren, Hmax in Hs.
  destruct Hs as (_ & _ & Hw). split; [done|]. apply Forall_lookup. intros i f' Hf'.
  destruct (Forall2_lookup_r _ _ _ _ _ Hw Hf') as (f & _ & _ & Hv & _). rewrite oversized_value.
  destruct (field_value f), (field_value f') as [| | |s'|l']; simpl in *; try done.
  all: destruct Hv as [_ Hv]; by rewrite (proj2 (N.ltb_ge _ _) Hv).
Qed.

End Render.

(** * The runner with the renderers of this program

    [tool_output_renderer] is the renderer the runner calls.  The size check that
    precedes it makes rendering succeed in every run whose results are not
    spilled explicitly under the rejecting policy. *)

(** ** The size checks agree *)

Lemma select_fields r p f : f ∈ res_fields (select_renderable r p) → f ∈ res_fields r.
Proof.
  unfold select_renderable. cbn [res_fields res_set_refs res_set_fields]. intros Hin.
  assert (Hf : f ∈ List.filter (λ field, should_render_field (field_key field) (rpol_render_options p)) (res_fields r)).
  { destruct (rpol_max_fields p); [|done]. rewrite <- prioritize_perm.
    eapply elem_of_sublist; [exact Hin|apply takeN_sub]. }
  by apply list_elem_of_In, filter_In in Hf as [?%list_elem_of_In _].
Qed.

(** A result the runtime does not reject is not rejected by the renderer. *)
Lemma accepted_sizes d r opts :
  (def_max_inline_bytes d < u64_max)%N → reject_oversized_tool_result r d = None →
  ¬ over_budget (select_renderable r (render_policy_with_render_options d opts))
      (render_policy_with_render_options d opts).
Proof.
  intros Hmax Hrej%reject_oversized_iff Hover. unfold over_budget in Hover.
  cbn [rpol_max_inline_bytes render_policy_with_render_options] in Hover.
  assert (Hm : ToolOutput.max_inline_bytes_as_usize (def_max_inline_bytes d) = def_max_inline_bytes d).
  { unfold ToolOutput.max_inline_bytes_as_usize, usize_max. destruct (N.leb_spec (def_max_inline_bytes d) u64_max); lia. }
  change (Truncation.max_inline_bytes_as_usize) with (ToolOutput.max_inline_bytes_as_usize) in Hrej.
  apply Hover. rewrite Hm in *. apply details_nil, Forall_forall. intros f Hin%select_fields.
  rewrite oversized_value. pose proof (λ size, oversized_nil_bound r (def_max_inline_bytes d) f size Hrej Hin) as Hb.
  destruct (field_value f) as [| | |s|l]; try done; cbn [field_bytes value_bytes] in *.
  - by rewrite (proj2 (N.ltb_ge _ _) (Hb _ eq_refl)).
  - specialize (Hb _ eq_refl). rewrite string_list_byte_len_eq in Hb.
    by rewrite (proj2 (N.ltb_ge _ _)) by lia.
Qed.

(** ** Runs *)

Section Runs.
Context `{UuidLib} `{RegistryPort} `{Entropy} `{ArtifactDefaults} `{ResultJson} `{!ResultJsonLaws}.
Context {S F : Type} `{!StoreBackend S} `{!ArtifactWriter string F}.
Context {P T : Type} `{!PolicyEngine P} `{!RuntimeTool T}.
#[local] Existing Instance tool_output_renderer.

Definition not_rendering (e : RuntimeError) : Prop := ∀ e', e ≠ RtToolOutputRender e'.
(** The computation never fails because of the renderer. *)
Definition renders {A} (m : M S F A) : Prop := ∀ w w' e, m w = (w', Err e) → not_rendering e.

Lemma renders_bind {A B} (m : M S F A) (k : A → M S F B) :
  renders m → (∀ w w' a, m w = (w', Ok a) → renders (k a)) →
  renders (λ w, match m w with (w, Ok x) => k x w | (w, Err e) => (w, Err e) end).
Proof.
  intros Hm Hk w w' e. destruct (m w) as [w1 [a|e']] eqn:E; [by eapply Hk|].
  intros [= <- <-]. by eapply Hm.
Qed.
Lemma renders_ret {A} (a : A) : renders (ret a).
Proof. intros w w' e [=]. Qed.
Lemma renders_fail {A} e : not_rendering e → renders (A:=A) (fail e).
Proof. by intros He w w' e' [= <- <-]. Qed.
Lemma renders_lift {A} (x : result RuntimeError A) : (∀ e, x = Err e → not_rendering e) → renders (lift x).
Proof. intros Hx w w' e [= _ ->]. by apply Hx. Qed.
Lemma renders_uuid : renders uuid_new.
Proof. intros w w' e [=]. Qed.
Lemma renders_now : renders timestamp_now.
Proof. intros w w' e [=]. Qed.
Lemma renders_mutate {R} (tx : Tx R) : renders (call_mutate tx).
Proof. intros w w' e. unfold call_mutate. destruct (backend_mutate _ _) as [? []]; [done|]. by intros [= <- <-]. Qed.
Lemma renders_publish {R} (tx : PubTx R) : renders (call_publish tx).
Proof. intros w w' e. unfold call_publish. destruct (backend_publish _ _) as [? []]; [done|]. by intros [= <- <-]. Qed.
Lemma renders_read {R} (f : InMemoryInner → StoreResult R) : renders (call_read f).
Proof. intros w w' e. unfold call_read. destruct (backend_read _ _) as [? []]; [done|]. by intros [= <- <-]. Qed.
Lemma renders_transition job next t : renders (transition job next t).
Proof. apply renders_lift. intros e. destruct (transition_status _ _ _); [done|]. by intros [= <-]. Qed.
Lemma renders_execute tool i request : renders (execute_tool (T:=T) tool i request).
Proof. intros w w' e. unfold execute_tool. by destruct (execute _ _ _ _). Qed.
Lemma renders_spill sp scope x : renders (spill sp scope x).
Proof. intros w w' e. unfold spill. by destruct (spill_large_tool_result_fields _ _ _ _ _) as [[]]. Qed.

Ltac solve_renders :=
  repeat first
    [ solve [auto using renders_ret, renders_uuid, renders_now, renders_mutate, renders_publish, renders_read,
               renders_transition, renders_execute, renders_spill]
    | apply renders_bind; [|intros ? ? ? _]
    | case_match ].

Lemma renders_job_event a b c d e : renders (job_event a b c d e).
Proof. unfold job_event. solve_renders. Qed.
Lemma renders_record job events event : renders (record_event job events event).
Proof. unfold record_event. solve_renders. Qed.
Lemma renders_failed job events m refs : renders (append_failed_job_event job events m refs).
Proof. unfold append_failed_job_event. solve_renders; auto using renders_job_event, renders_record. Qed.
Lemma renders_abandon {A} d i st m e : not_rendering e → renders (A:=A) (abandon d i st m e).
Proof. intros He. unfold abandon. apply renders_bind; [apply renders_failed|intros; by apply renders_fail]. Qed.

Lemma abandon_Ok {A} d i st m e (w w' : World S F) (a : A) : abandon d i st m e w ≠ (w', Ok a).
Proof. unfold abandon. by destruct (append_failed_job_event _ _ _ _ w) as [? []]. Qed.

Lemma reject_Ok_accepts d i st request x w w' :
  reject_if_oversized (S:=S) (F:=F) d i st request x w = (w', Ok tt) →
  reject_oversized_tool_result x (req_tool_output_defaults request) = None.
Proof. unfold reject_if_oversized. case_match; [|done]. by intros ?%abandon_Ok. Qed.

(** The requests for which rendering cannot fail: their limit is a real one, and
    results are not spilled under the rejecting policy. *)
Definition plainly_bounded (request : RuntimeJobRequest) : Prop :=
  (def_max_inline_bytes (req_tool_output_defaults request) < u64_max)%N ∧
  (req_artifact_spillover request = None ∨
   def_oversize_policy (req_tool_output_defaults request) ≠ RejectOversize).

Lemma renders_render d i st x p : ¬ rejects x p → renders (render_or_abandon (S:=S) (F:=F) d i st x p).
Proof.
  intros Hok%rendering_fails_exactly. unfold render_or_abandon, Runtime.render_tool_result_with_policy, tool_output_renderer.
  destruct (ToolOutput.render_tool_result_with_policy x p); [apply renders_ret|done].
Qed.

Lemma renders_reject d i st request x : renders (reject_if_oversized (S:=S) (F:=F) d i st request x).
Proof. unfold reject_if_oversized. case_match; [by apply renders_abandon|apply renders_ret]. Qed.

Lemma renders_bound d i st request scope x : renders (bound_output (S:=S) (F:=F) d i st request scope x).
Proof.
  unfold bound_output, spill_output.
  repeat first [apply renders_reject | by apply renders_abandon | apply renders_ret | apply renders_spill
               | apply renders_bind; [|intros ? ? ? _] | case_match].
Qed.

Lemma renders_process request repository d i st x :
  plainly_bounded request → renders (process_result (S:=S) (F:=F) request repository d i st x).
Proof.
  intros [Hmax _]. unfold process_result. apply renders_bind.
  { destruct (validate_runtime_tool_result i x) as [|e] eqn:Hv; [apply renders_ret|].
    apply renders_abandon. unfold validate_runtime_tool_result in Hv.
    repeat (case_match; [injection Hv as <-; done|]). done. }
  intros _ _ _ _. apply renders_bind; [case_bool_decide; [apply renders_reject|apply renders_ret]|].
  intros w w' [] Hrej. apply renders_bind.
  - apply renders_render. intros [Hp Ho]. cbn [rpol_oversize_policy render_policy_with_render_options] in Hp.
    rewrite bool_decide_eq_true_2 in Hrej by done. apply reject_Ok_accepts in Hrej. by eapply accepted_sizes.
  - intros _ _ out _. apply renders_bind; [apply renders_bound|]. intros _ _ [r b] _. apply renders_ret.
Qed.

(** Output is rendered again only when rendering cannot reject it. *)
Lemma process_rerender request repository d i st x w w' c :
  plainly_bounded request → process_result (S:=S) (F:=F) request repository d i st x w = (w', Ok c) →
  cmp_rerender c = true → def_oversize_policy (req_tool_output_defaults request) ≠ RejectOversize.
Proof.
  intros [_ [Hnone|]] Hrun Hre Hp; [|done]. unfold process_result, bound_output in Hrun.
  rewrite Hnone, Hp in Hrun. do 3 step_run Hrun. cbv beta in Hrun.
  destruct (reject_if_oversized d i st request x w2) as [w3 [u|e]]; [|done]. by injection Hrun as _ <-.
Qed.

Lemma renders_complete request capability fin st c :
  (cmp_rerender c = true → def_oversize_policy (req_tool_output_defaults request) ≠ RejectOversize) →
  renders (complete_job (S:=S) (F:=F) request capability fin st c).
Proof.
  intros Hre. unfold complete_job.
  repeat first [apply renders_job_event | apply renders_ret | apply renders_uuid | apply renders_now
               | apply renders_publish | apply renders_transition
               | solve [apply renders_render; intros [Hp _]; by apply Hre]
               | apply renders_bind; [|intros ? ? ? _]
               | case_match].
Qed.

(** The size check and the renderer fit together.  With the renderers of this
    program, a run whose request sets a real byte limit and does not combine
    explicit spilling with the rejecting policy never fails because of
    rendering, whatever the tool returns, whatever other clients do and however
    the disk fails. *)
Theorem runs_never_fail_to_render engine request tool fin w w' e :
  plainly_bounded request →
  run_tool_job_with_finalizer (P:=P) (T:=T) engine request tool fin w = (w', Err e) →
  ∀ error, e ≠ RtToolOutputRender error.
Proof.
  intros Hreq. revert w w' e. change (renders (run_tool_job_with_finalizer (P:=P) (T:=T) engine request tool fin)).
  unfold run_tool_job_with_finalizer. destruct (str_is_empty _); [by apply renders_fail|].
  apply renders_bind; [|intros _ _ _ _].
  { apply renders_lift. intros e. unfold validate_requested_capability_hints. repeat case_match; try done; by intros [= <-]. }
  apply renders_bind; [apply renders_read|intros _ _ repository _].
  apply renders_bind; [unfold submit_job; solve_renders; apply renders_job_event|intros _ _ st _].
  apply renders_bind; [unfold decide_policy; solve_renders; auto using renders_job_event, renders_record|].
  intros _ _ [decision st1] _. destruct (_ || _).
  { unfold stop_job. solve_renders; apply renders_job_event. }
  apply renders_bind; [unfold start_job; solve_renders; auto using renders_job_event, renders_record|].
  intros _ _ st2 _. apply renders_bind.
  { unfold record_invocation. solve_renders; auto using renders_job_event, renders_record. }
  intros _ _ [invocation st3] _. apply renders_bind; [apply renders_execute|intros _ _ result _].
  apply renders_bind; [by apply renders_process|]. intros w w' c Hrun. apply renders_complete.
  by eapply process_rerender.
Qed.
End Runs.
