(* ===== verification/RunSamples.v ===== *)
(** * RunSamples: the runner and the renderers evaluated *)
From S2P Require Import Prelude Text Domain DomainLaws Policy StoreTypes Settings Truncation.
From S2P Require Import TruncationLaws Spill StoreValidate StoreJobs.
From S2P Require Import Store StoreQuery StoreLoad Ledger StoreRefine StoreGuarantees.
From S2P Require Import StoreShell ShellLaws Backend Runtime RunJob RunStages RunGuarantees.
From S2P Require Import ToolOutput ToonLaws RenderLaws RenderGuarantees.

(** * The runner evaluated

    An echo job on a store with one trusted repository, shared with other
    clients; the witnesses of the runner's properties and the behaviour of the
    second rendering. *)

Module RunDemo.
#[local] Existing Instance sample_uuid_lib.
#[local] Existing Instance sample_registry.

(** The store is not durable, so no snapshot is written. *)
#[local] Instance no_codec : SnapshotCodec := {|
  to_vec_pretty _ := Err (msg "not durable"); from_str _ := Err (msg "not durable") |}.

#[local] Instance counting : Entropy := {|
  uuid_at n := usize_to_string (N.of_nat n); now_at n := (100 + Z.of_nat n)%Z |}.
#[local] Instance local_artifacts : ArtifactDefaults := {| default_local_root := "/artifacts" |}.
#[local] Instance no_artifacts : ArtifactWriter string unit := {|
  write_artifact_bytes _ _ _ _ _ f := (f, Err ArtifactIo);
  delete_artifact_bytes _ _ f := (f, Ok tt);
  update_spill_metadata _ _ _ _ _ f := (f, Ok tt);
  delete_artifact_record _ _ _ f := (f, Ok tt) |}.

Definition rendered (x : ToolResult) : RenderedToolOutput := {|
  ro_format := Text; ro_schema_version := "1"; ro_body := res_tool_id x;
  ro_fallback_reason := None; ro_truncation := res_truncation x |}.
(** A renderer that accepts everything, and one that refuses truncated results. *)
Definition total_renderer : Renderer := {| Runtime.render_tool_result_with_policy x _ := Ok (rendered x) |}.
Definition picky_renderer : Renderer := {|
  Runtime.render_tool_result_with_policy x _ :=
    match res_truncation x with
    | None => Ok (rendered x)
    | Some _ => Err (OversizeOutput (msg "truncation metadata does not fit"))
    end |}.

Definition setup : list StoreOp := [OpCreateRepository demo_repository].
Definition start_store : InMemoryInner :=
  match exec_ops setup inner_default with Ok (s, _) => s | Err _ => inner_default end.

Lemma start_store_wf : store_wf start_store.
Proof.
  apply (store_steps_wf inner_default); [apply inner_default_wf|].
  apply (exec_ops_steps setup _ _ []). vm_compute. reflexivity.
Defined.

Definition start_world (schedule : list (list (option IoFault * StoreOp) * option IoFault))
  : World SharedStore unit := {|
  w_store := {| sh_store := with_inner store_default start_store; sh_schedule := schedule |};
  w_files := tt; w_sources := {| src_uuids := 0; src_clock := 0 |}; w_executed := [] |}.

Lemma start_world_wf schedule : store_wf (view (start_world schedule)).
Proof. exact start_store_wf. Defined.

Definition echo_request : RuntimeJobRequest :=
  request_new demo_user (repo_id demo_repository) JkRead (Some "say hello").

Definition bind_receipt (r : RuntimeJobReceipt) : option (string * SubmitJobIdempotencyRecord) :=
  Some ("key-1"%string, {| idem_signature := "signature"; idem_receipt := r |}).

Definition echo_run :=
  @run_tool_job_with_finalizer _ _ counting total_renderer local_artifacts SharedStore unit _ _
    DefaultPolicyEngine EchoTool _ _ MkDefaultPolicyEngine echo_request MkEchoTool
    (Some bind_receipt) (start_world []).

Definition echo_receipt : RuntimeJobReceipt :=
  match echo_run.2 with
  | Ok rc => rc
  | Err _ => demo_receipt
  end.

Lemma echo_run_Ok : echo_run = (echo_run.1, Ok echo_receipt).
Proof. vm_compute. reflexivity. Defined.

Lemma echo_executed_once : length (w_executed echo_run.1) = 1%nat.
Proof. vm_compute. reflexivity. Defined.
Lemma echo_ran : w_executed echo_run.1 ≠ w_executed (start_world []).
Proof. intros E. pose proof echo_executed_once as H. rewrite E in H. discriminate H. Defined.

Lemma tool_runs_only_after_permission_witness :
  ∃ i s0 s repository d st, w_executed echo_run.1 = [(i, s)] ∧
    permitted MkDefaultPolicyEngine echo_request MkEchoTool s0 repository d i st ∧ rtc store_step s0 s.
Proof.
  destruct (@tool_runs_only_after_permission _ _ counting total_renderer local_artifacts SharedStore
              unit _ _ _ EchoTool _ DefaultPolicyEngine _ MkDefaultPolicyEngine echo_request
              MkEchoTool (Some bind_receipt) (start_world []) echo_run.1 (Ok echo_receipt)
              (start_world_wf []) echo_run_Ok)
    as [_ [He|(i & s0 & s & repository & d & st & He & _ & Hs & _ & Hp & _)]].
  - destruct (echo_ran He).
  - exists i, s0, s, repository, d, st. split; [exact He|split; [exact Hp|exact Hs]].
Defined.

Lemma default_engine_confines_tools_witness :
  ∃ repository, repositories (view echo_run.1) !! repo_id demo_repository = Some repository ∧
    repo_trust_state repository ≠ TrustBlocked.
Proof.
  destruct (@default_engine_confines_tools _ _ counting total_renderer local_artifacts SharedStore
              unit _ _ _ EchoTool _ echo_request MkEchoTool (Some bind_receipt) (start_world [])
              echo_run.1 (Ok echo_receipt) (start_world_wf []) echo_run_Ok echo_ran)
    as (repository & d & Hr & Ht & _).
  exists repository. split; [exact Hr|exact Ht].
Defined.

Lemma receipts_match_the_store_witness :
  stage_ok (view echo_run.1) (receipt_stage echo_receipt) ∧
  is_terminal (job_status (rcp_job echo_receipt)) = true.
Proof.
  destruct (@receipts_match_the_store _ _ counting total_renderer local_artifacts SharedStore
              unit _ _ _ EchoTool _ DefaultPolicyEngine _ MkDefaultPolicyEngine echo_request
              MkEchoTool (Some bind_receipt) (start_world []) echo_run.1 echo_receipt
              (start_world_wf []) echo_run_Ok) as (Hs & Ht & _).
  split; [exact Hs|exact Ht].
Defined.

Lemma idempotency_receipt_is_the_receipt_witness :
  idempotent_submit_jobs (view echo_run.1) !! "key-1"%string =
    Some {| idem_signature := "signature"; idem_receipt := echo_receipt |}.
Proof.
  apply (@idempotency_receipt_is_the_receipt _ _ counting total_renderer local_artifacts SharedStore
           unit _ _ _ EchoTool _ DefaultPolicyEngine _ MkDefaultPolicyEngine echo_request
           MkEchoTool "key-1" "signature" (start_world []) echo_run.1 echo_receipt
           (start_world_wf []) echo_run_Ok).
  vm_compute. reflexivity.
Defined.

(** ** Bounded output *)

(** Text of plain ASCII is valid. *)
Lemma echo_fields_valid i src :
  Forall valid_field (res_fields (echo_execute i echo_request src).2).
Proof.
  assert (E : Forall valid_field (echo_fields echo_request)).
  { unfold valid_field. vm_compute echo_fields.
    repeat constructor; apply utf8_decide; vm_compute; reflexivity. }
  exact E.
Defined.

Definition stored_result : ToolResult :=
  match rcp_tool_result echo_receipt with Some x => x | None => demo_result end.

Lemma stored_output_is_bounded_witness :
  tool_results (view echo_run.1) !! res_id stored_result = Some stored_result ∧
  rcp_tool_result echo_receipt = Some stored_result.
Proof.
  assert (Hr : rcp_tool_result echo_receipt = Some stored_result) by (vm_compute; reflexivity).
  split; [|exact Hr].
  exact (proj1 (@stored_output_is_bounded _ _ counting total_renderer local_artifacts SharedStore
           unit _ _ _ EchoTool _ DefaultPolicyEngine _ MkDefaultPolicyEngine echo_request
           MkEchoTool (Some bind_receipt) (start_world []) echo_run.1 echo_receipt stored_result
           (start_world_wf []) echo_fields_valid eq_refl ltac:(discriminate) echo_run_Ok Hr)).
Defined.

(** ** Cancellation *)

(** The queued job the other clients left. *)
Definition queued_world : World SharedStore unit :=
  start_world [([(None, OpCreateJob demo_job demo_submitted)], None)].
Definition cancelled :=
  @cancel_job _ _ counting SharedStore unit _ (job_id demo_job) "no longer needed" queued_world.
Definition cancel_receipt : CancelJobReceipt :=
  match cancelled.2 with
  | Ok rc => rc
  | Err _ => {| can_job := demo_job; can_events := [] |}
  end.

Lemma cancel_job_exact_witness :
  cancelled = (cancelled.1, Ok cancel_receipt) ∧
  jobs (view cancelled.1) !! job_id demo_job = Some (can_job cancel_receipt) ∧
  job_status (can_job cancel_receipt) = Canceled.
Proof.
  assert (E : cancelled = (cancelled.1, Ok cancel_receipt)) by (vm_compute; reflexivity).
  split; [exact E|].
  destruct (cancel_job_exact (job_id demo_job) "no longer needed" queued_world cancelled.1
              cancel_receipt (start_world_wf _) E) as (Hj & Hs & _).
  split; [exact Hj|exact Hs].
Defined.

(** ** Failing output *)

(** A limit of four bytes, which the echo exceeds, under the given policy. *)
Definition tight_request (policy : OversizeOutputPolicy) : RuntimeJobRequest := {|
  req_requester := demo_user; req_repository_id := repo_id demo_repository; req_kind := JkRead;
  req_goal := Some "say hello"; req_message := None;
  req_resource_scope := {| scope_kind := "repository"; scope_value := "." |};
  req_requested_capabilities := []; req_approval_available := true; req_render_options := None;
  req_tool_output_defaults := {|
    def_render_options := def_render_options defaults_default; def_max_inline_bytes := 4;
    def_max_inline_lines := def_max_inline_lines defaults_default;
    def_verbosity := def_verbosity defaults_default;
    def_granularity := def_granularity defaults_default; def_oversize_policy := policy |};
  req_artifact_spillover := None |}.

Definition tight_run (renderer : Renderer) (policy : OversizeOutputPolicy) :=
  @run_tool_job_with_finalizer _ _ counting renderer local_artifacts SharedStore unit _ _
    DefaultPolicyEngine EchoTool _ _ MkDefaultPolicyEngine (tight_request policy) MkEchoTool None
    (start_world []).

Definition rejected := tight_run total_renderer RejectOversize.
Definition rejected_error : RuntimeError :=
  match rejected.2 with Ok _ => RtArtifact ArtifactIo | Err e => e end.

Lemma tool_errors_fail_the_job_witness :
  rejected = (rejected.1, Err rejected_error) ∧
  ∃ i s, w_executed rejected.1 = [(i, s)] ∧ job_failed (view rejected.1) (inv_job_id i).
Proof.
  assert (E : rejected = (rejected.1, Err rejected_error)) by (vm_compute; reflexivity).
  assert (Hl : length (w_executed rejected.1) = 1%nat) by (vm_compute; reflexivity).
  assert (Hne : w_executed rejected.1 ≠ w_executed (start_world [])).
  { intros E'. rewrite E' in Hl. discriminate Hl. }
  split; [exact E|].
  destruct (@tool_errors_fail_the_job _ _ counting total_renderer local_artifacts SharedStore
              unit _ _ _ EchoTool _ DefaultPolicyEngine _ MkDefaultPolicyEngine
              (tight_request RejectOversize) MkEchoTool None (start_world []) rejected.1
              rejected_error (start_world_wf []) E Hne) as [Hi|(i & s & He & Hf)].
  - assert (Hn : ¬ infrastructure_error rejected_error) by (vm_compute; tauto). destruct (Hn Hi).
  - exists i, s. split; [exact He|exact Hf].
Defined.

(** When the result was cut and the second rendering fails, the run does
    not fail the job: it has already replaced the job's latest event by the
    audit event it has not stored yet, so the store refuses the failure as
    stale.  The caller gets a store conflict instead of the rendering error, and
    the job stays [Running]. *)
Theorem rerender_failure_leaves_job_running :
  let '(w, r) := tight_run picky_renderer TruncateWithMetadata in
  (∃ reason, r = Err (RtStore (Conflict "jobs" reason))) ∧
  map job_status (btree_values (jobs (view w))) = [Running].
Proof. vm_compute. split; [eexists; reflexivity|reflexivity]. Qed.
End RunDemo.

(** * The renderers evaluated

    A result full of strings that look like something else, the witnesses of the
    properties of the renderers, and two behaviours worth knowing. *)

Module RenderDemo.
(** A serializer with the promised shape: a line, or a line per part. *)
#[local] Instance sample_json : ResultJson := {|
  json_compact r := Ok (join "; " (text_parts r));
  json_pretty r := Ok (join line_feed_string (text_parts r)) |}.
#[local] Instance sample_json_laws : ResultJsonLaws.
Proof.
  split.
  - intros r body [= <-]. apply text_one_line.
  - intros r. split; reflexivity.
Defined.

Definition text_field (key value : string) : ToolResultField :=
  {| field_key := key; field_value := SvString value |}.
Definition e_acute : string := of_bytes [ascii_of_N 195; ascii_of_N 169].
Definition bell : string := String (ascii_of_N 7) EmptyString.

Definition tricky : ToolResult := {|
  res_id := id_new ToolResultIdKind "7"; res_schema_version := 1; res_created_at := 5;
  res_invocation_id := id_new ToolInvocationIdKind "8"; res_tool_id := "fs.read";
  res_status := TrSucceeded; res_schema_ref := Some "true";
  res_fields := [text_field "null" "1"; {| field_key := "n"; field_value := SvInteger (-1) |};
                 {| field_key := "l"; field_value := SvStringList ["a,b"; ""; "]"; e_acute] |};
                 text_field "summary" ("two" +:+ line_feed_string +:+ "lines" +:+ bell)];
  res_evidence_refs := [];
  res_output_refs := [{| oref_id := id_new OutputRefIdKind "9"; oref_uri := "/a b";
                         oref_media_type := "text/plain"; oref_label := None;
                         oref_digest := Some "null" |}];
  res_truncation := Some {| trunc_original_bytes := 9; trunc_retained_bytes := 4; trunc_reason := "cut" |};
  res_redactions := [{| red_field_path := "x"; red_reason := "secret: key"; red_redacted_at := -3 |}] |}.

(** Strings and words are decided by computation. *)
Definition bare_wordb (w : bytes) : bool :=
  negb (bool_decide (w = [])) && forallb (λ c, negb (is_delimiter c) && bool_decide (c ∉ quoted_marks)) w.
Lemma bare_wordb_sound w : bare_wordb w = true → bare_word w.
Proof.
  unfold bare_wordb. intros [Hne Hall]%andb_true_iff. apply negb_true_iff, bool_decide_eq_false in Hne.
  split; [done|]. rewrite forallb_forall in Hall. apply Forall_forall. intros c Hc.
  apply list_elem_of_In, Hall, andb_true_iff in Hc as [Hd Hm]. split; [by apply negb_true_iff|].
  by apply bool_decide_eq_true in Hm.
Qed.

(** The types of a value, decided. *)
Ltac ok :=
  first [apply bare_wordb_sound; reflexivity | apply utf8_decide; reflexivity | exact I
        | simpl; unfold in_i64, usize_max, u64_max, i64_min, i64_max; simpl; lia].
Lemma tricky_ok : result_ok tricky.
Proof.
  split.
  - ok.
  - ok.
  - ok.
  - ok.
  - ok.
  - repeat (apply Forall_cons; split; [split; [ok|]|]); [ok|ok| |ok|constructor].
    repeat (apply Forall_cons; split; [ok|]). constructor.
  - constructor.
  - apply Forall_singleton. split_and!; ok.
  - split_and!; ok.
  - apply Forall_singleton. split_and!; ok.
Qed.

Definition toon_policy (lines : option N) : ToolOutputRenderPolicy := {|
  rpol_render_options := {| rend_format := Toon; rend_include_policy := true;
                            rend_include_diagnostics := true; rend_include_cost := true |};
  rpol_max_fields := None; rpol_max_inline_lines := lines; rpol_max_inline_bytes := Some 8%N;
  rpol_oversize_policy := TruncateWithMetadata; rpol_include_evidence_refs := true;
  rpol_include_output_refs := true; rpol_include_redactions := true |}.
Definition full_policy : ToolOutputRenderPolicy :=
  from_render_options {| rend_format := Toon; rend_include_policy := true;
                         rend_include_diagnostics := true; rend_include_cost := true |}.

Definition rendering (p : ToolOutputRenderPolicy) : RenderedToolOutput :=
  match ToolOutput.render_tool_result_with_policy tricky p with
  | Ok o => o
  | Err _ => {| ro_format := Text; ro_schema_version := ""; ro_body := ""; ro_fallback_reason := None;
                ro_truncation := None |}
  end.

Definition quoted (s : string) : string := String quote_char s +:+ String quote_char EmptyString.

Example tricky_toon : split_at [line_feed] (ro_body (rendering full_policy)) =
  ["status succeeded"; "schema_version tool_result.v1"; "format toon"; "tool_id fs.read";
   "result_id res_7"; "invocation_id tool_8"; "schema_ref " +:+ quoted "true"; "fields[4]{key,value}";
   "  " +:+ quoted "null" +:+ "," +:+ quoted "1"; "  n,-1";
   "  l,[" +:+ quoted "a,b" +:+ "," +:+ quoted EmptyString +:+ "," +:+ quoted "]" +:+ "," +:+ e_acute +:+ "]";
   "  summary," +:+ quoted "two\nlines\u{7}"; "output_refs[1]{id,uri,media_type,label,digest}";
   "  out_9," +:+ quoted "/a b" +:+ ",text/plain,null," +:+ quoted "null"; "truncation"; "  truncated true";
   "  original_bytes 9"; "  retained_bytes 4"; "  reason cut";
   "redactions[1]{field_path,reason,redacted_at_ms}"; "  x," +:+ quoted "secret: key" +:+ ",-3"].
Proof. vm_compute. reflexivity. Qed.

(** ** Witnesses *)

Lemma renderings_fit_the_lines_witness :
  (N.of_nat (lines_count (ro_body (rendering (toon_policy (Some 12%N))))) ≤ N.max 1 12)%N.
Proof.
  exact (proj1 (renderings_fit_the_lines tricky (toon_policy (Some 12%N)) (rendering (toon_policy (Some 12%N)))
                  12%N tricky_ok ltac:(vm_compute; reflexivity) eq_refl)).
Defined.

Lemma toon_is_lossless_witness : same_content tricky tricky.
Proof.
  exact (toon_is_lossless tricky tricky full_policy full_policy (rendering full_policy) (rendering full_policy)
           tricky_ok tricky_ok ltac:(vm_compute; reflexivity) ltac:(vm_compute; reflexivity)
           eq_refl eq_refl ltac:(vm_compute; reflexivity) ltac:(vm_compute; reflexivity) eq_refl).
Defined.

Lemma rendering_fails_exactly_witness : ¬ rejects tricky full_policy.
Proof.
  apply (proj1 (rendering_fails_exactly tricky full_policy)). vm_compute. reflexivity.
Defined.

Definition budgeted : ToolResult :=
  match renderable_result tricky (toon_policy None) with Ok (r, _) => r | Err _ => tricky end.
Lemma rendered_values_fit_witness :
  Forall (λ f, ToolOutput.oversized_field_bytes f 8 = None) (res_fields budgeted).
Proof.
  exact (proj2 (rendered_values_fit tricky (toon_policy None) budgeted
                  match renderable_result tricky (toon_policy None) with Ok (_, x) => x | Err _ => None end
                  8%N tricky_ok ltac:(vm_compute; reflexivity) eq_refl)).
Defined.

(** ** Runs *)

#[local] Existing Instance sample_uuid_lib.
#[local] Existing Instance sample_registry.
#[local] Existing Instance RunDemo.counting.
#[local] Existing Instance RunDemo.local_artifacts.
#[local] Existing Instance RunDemo.no_codec.
#[local] Existing Instance RunDemo.no_artifacts.
#[local] Existing Instance tool_output_renderer.

(** The echo exceeds four bytes and is rejected before it is rendered. *)
Definition rejected_run :=
  run_tool_job_with_finalizer (S:=SharedStore) (F:=unit) MkDefaultPolicyEngine
    (RunDemo.tight_request RejectOversize) MkEchoTool None (RunDemo.start_world []).
Definition run_error : RuntimeError :=
  match rejected_run.2 with Ok _ => RtArtifact ArtifactIo | Err e => e end.

Lemma runs_never_fail_to_render_witness : run_error ≠ RtToolOutputRender (OversizeOutput (msg "too large")).
Proof.
  apply (runs_never_fail_to_render (S:=SharedStore) (F:=unit) MkDefaultPolicyEngine
           (RunDemo.tight_request RejectOversize) MkEchoTool None (RunDemo.start_world []) rejected_run.1 run_error).
  - split; [vm_compute; reflexivity|left; reflexivity].
  - vm_compute. reflexivity.
Defined.

(** An artifact store in a directory with a long name. *)
Definition long_name : string := of_bytes (repeat "a"%char 300).
Definition long_artifacts : ArtifactWriter string unit := {|
  write_artifact_bytes root _ _ _ _ f :=
    (f, Ok {| oref_id := id_new OutputRefIdKind "1"; oref_uri := root +:+ "/field.txt";
              oref_media_type := "text/plain"; oref_label := None; oref_digest := None |});
  delete_artifact_bytes _ _ f := (f, Ok tt);
  update_spill_metadata _ _ _ _ _ f := (f, Ok tt);
  delete_artifact_record _ _ _ f := (f, Ok tt) |}.

(** Output over ten bytes is spilled, output over 256 bytes rejected. *)
Definition spilling_request : RuntimeJobRequest :=
  let r := RunDemo.tight_request RejectOversize in {|
  req_requester := req_requester r; req_repository_id := req_repository_id r; req_kind := req_kind r;
  req_goal := req_goal r; req_message := req_message r; req_resource_scope := req_resource_scope r;
  req_requested_capabilities := []; req_approval_available := true; req_render_options := None;
  req_tool_output_defaults := {|
    def_render_options := def_render_options defaults_default; def_max_inline_bytes := 256;
    def_max_inline_lines := def_max_inline_lines defaults_default;
    def_verbosity := def_verbosity defaults_default;
    def_granularity := def_granularity defaults_default; def_oversize_policy := RejectOversize |};
  req_artifact_spillover :=
    Some {| spill_root_dir := "/" +:+ long_name; spill_options := spillover_options_new 10 |} |}.

(** When results are spilled under the rejecting policy, the reference that
    replaces a field may itself exceed the limit.  The second rendering then
    fails at a point where the run has already replaced the job's latest event by
    the audit event it has not stored, so the store refuses to mark the job as
    failed: the caller gets a store conflict instead of the rendering error, and
    the job stays [Running]. *)
Theorem rejected_rerender_leaves_job_running :
  let '(w, r) := run_tool_job_with_finalizer (S:=SharedStore) (F:=unit) (ArtifactWriter0:=long_artifacts)
                   MkDefaultPolicyEngine spilling_request MkEchoTool None (RunDemo.start_world []) in
  (∃ reason, r = Err (RtStore (Conflict "jobs" reason))) ∧
  map job_status (btree_values (jobs (view w))) = [Running].
Proof. vm_compute. split; [eexists; reflexivity|reflexivity]. Qed.

(** ** Lists *)

(** The renderer drops a value in the middle of a list and goes on with the next,
    where the runtime, under the same limit, stops. *)
Theorem rendered_lists_may_have_holes :
  let values := ["abc"%string; e_acute; "d"%string] in
  ToolOutput.truncate_string_list values 5 = (["abc"; "d"]%string, 5%N) ∧
  Truncation.truncate_string_list values 5 = (["abc"]%string, 3%N).
Proof. split; reflexivity. Qed.
End RenderDemo.
