(* ===== verification/StoreQueryLaws.v ===== *)
(** * StoreQueryLaws: replay and pagination are exact

    In a well-formed state a replay returns the events after the cursor, in
    sequence order, without gap; and following page tokens visits every
    matching record exactly once. *)
From S2P Require Import Prelude Text Domain DomainLaws Policy StoreTypes StoreValidate.
From S2P Require Import StoreJobs Store StoreQuery Ledger StoreRefine.
From S2P Require Import StoreGuarantees StoreShell ShellLaws.

(** ** Pages of a list *)

Lemma page_loop_spec {A} (l : list A) skipped start size (retained : list A) :
  (skipped <= start)%N → (N.of_nat (length retained) <= size)%N →
  page_loop l skipped start size retained =
  let l' := drop (N.to_nat (start - skipped)) l in
  let room := N.to_nat size - length retained in
  (retained ++ take room l', bool_decide (room < length l')).
Proof.
  revert skipped retained. induction l as [|x l IH]; intros skipped retained Hs Hr; cbn [page_loop].
  { simpl. by rewrite drop_nil, take_nil, app_nil_r. }
  destruct (N.ltb_spec skipped start) as [Hlt|Hge].
  - rewrite IH by lia. replace (N.to_nat (start - skipped)) with (S (N.to_nat (start - (skipped + 1)))) by lia.
    done.
  - replace (N.to_nat (start - skipped)) with 0 by lia. rewrite drop_0. cbv zeta.
    destruct (N.eqb_spec (N.of_nat (length retained)) size) as [Heq|Hne].
    + replace (N.to_nat size - length retained) with 0 by lia. rewrite take_0, app_nil_r. f_equal.
    + rewrite IH; [|lia|rewrite length_app; simpl; lia]. cbv zeta.
      replace (N.to_nat (start - skipped)) with 0 by lia. rewrite drop_0, length_app. simpl.
      replace (N.to_nat size - length retained) with (S (N.to_nat size - (length retained + 1))) by lia.
      simpl. rewrite <- app_assoc. f_equal. apply bool_decide_ext. simpl. lia.
Qed.

(** The page at [start], and the token when records remain. *)
Definition page_of {A} (l : list A) (start size : N) : list A * option string :=
  (take (N.to_nat size) (drop (N.to_nat start) l),
   if bool_decide (N.to_nat start + N.to_nat size < length l)
   then Some (usize_to_string (start + size)) else None).

Lemma page_token_spec {A} (l : list A) start size :
  (if bool_decide (N.to_nat size < length (drop (N.to_nat start) l))
   then Some (page_token_of start (length (take (N.to_nat size) (drop (N.to_nat start) l))))
   else None) = (page_of l start size).2.
Proof.
  unfold page_of, page_token_of. cbn [snd]. rewrite length_take, length_drop.
  case_bool_decide; case_bool_decide; [|exfalso; lia|exfalso; lia|reflexivity].
  replace (start + N.of_nat (N.to_nat size `min` (length l - N.to_nat start)))%N
    with (start + size)%N by lia. reflexivity.
Qed.

Lemma page_records_spec {A} (l : list A) start size :
  (0 < size)%N → page_records l start size = page_of l start size.
Proof.
  intros Hs. unfold page_records. destruct (N.eqb_spec size 0); [lia|].
  rewrite page_loop_spec by (simpl; lia). cbv zeta. rewrite app_nil_l, Nat.sub_0_r, N.sub_0_r.
  by rewrite page_token_spec.
Qed.

(** ** Following page tokens *)

(** A client that asks for the next page until no token comes back.  [None] is
    an error or running out of [fuel]. *)
Fixpoint follow_pages {E A} (fetch : option string → result E (list A * option string))
  (fuel : nat) (token : option string) : option (list A) :=
  match fuel with
  | 0 => None
  | S fuel =>
      match fetch token with
      | Ok (page, None) => Some page
      | Ok (page, Some token) =>
          match follow_pages fetch fuel (Some token) with
          | Some rest => Some (page ++ rest)
          | None => None
          end
      | Err _ => None
      end
  end.

(** Any fetch that serves the pages of [l] is read completely. *)
Lemma follow_pages_complete {E A} (fetch : option string → result E (list A * option string))
  (parse : option string → result E N) (l : list A) size :
  (0 < size)%N → (N.of_nat (length l) <= usize_max)%N →
  (∀ n, (n <= usize_max)%N → parse (Some (usize_to_string n)) = Ok n) →
  (∀ token start, parse token = Ok start → fetch token = Ok (page_of l start size)) →
  ∀ fuel start token, parse token = Ok start → length l - N.to_nat start < fuel →
  follow_pages fetch fuel token = Some (drop (N.to_nat start) l).
Proof.
  intros Hs Hl Hp Hf fuel. induction fuel as [|fuel IH]; intros start token Ht Hfuel; [lia|].
  cbn [follow_pages]. rewrite (Hf _ _ Ht). unfold page_of. case_bool_decide as Hlt.
  - rewrite (IH (start + size)%N (Some (usize_to_string (start + size)))).
    + f_equal. rewrite <- (take_drop (N.to_nat size) (drop (N.to_nat start) l)) at 2.
      rewrite drop_drop. do 2 f_equal. lia.
    + apply Hp. lia.
    + lia.
  - f_equal. apply take_ge. rewrite length_drop. lia.
Qed.

Lemma page_start_token c n :
  (n <= usize_max)%N → page_start (Some (usize_to_string n)) c = Ok n.
Proof. intros Hn. unfold page_start. by rewrite usize_to_string_nonempty, parse_usize_to_string. Qed.

(** ** Jobs *)

Section Jobs.
Context `{UuidLib} `{RegistryPort}.
Implicit Types s : InMemoryInner.

Definition with_job_token (q : JobQuery) (token : option string) : JobQuery := {|
  jq_repository_id := jq_repository_id q; jq_status := jq_status q;
  jq_requester := jq_requester q; jq_page_size := jq_page_size q; jq_page_token := token |}.

Definition fetch_jobs s (q : JobQuery) (token : option string)
  : StoreResult (list JobRecord * option string) :=
  let? page := query_jobs s (with_job_token q token) in
  Ok (jp_jobs page, jp_next_page_token page).

Definition matching_jobs s (q : JobQuery) : list JobRecord :=
  List.filter (job_matches_query q) (btree_values (jobs s)).

Lemma fetch_jobs_page s q size token start :
  jq_page_size q = Some size → (0 < size)%N → page_start token "jobs" = Ok start →
  fetch_jobs s q token = Ok (page_of (matching_jobs s q) start size).
Proof.
  intros Hq Hs Ht. unfold fetch_jobs, query_jobs. simpl. rewrite Ht, Hq. simpl.
  rewrite page_records_spec by done. done.
Qed.

Lemma btree_values_nodup s : keys_wf s → NoDup (btree_values (jobs s)).
Proof.
  intros Hk. unfold btree_values. pose proof (btree_to_list_nodup (jobs s)) as Hn.
  assert ((btree_to_list (jobs s)).*1 = job_id <$> (btree_to_list (jobs s)).*2) as Heq.
  { rewrite <- list_fmap_compose. apply list_fmap_ext. intros k [i j] Hin. simpl.
    symmetry. apply (kw_jobs _ Hk). apply elem_of_btree_to_list. eapply list_elem_of_lookup_2, Hin. }
  rewrite Heq in Hn. by eapply NoDup_fmap_1.
Qed.

(** Job pagination is complete.  Following the page tokens of [query_jobs]
    with any positive page size terminates and returns every job that matches
    the query exactly once, in job-id order. *)
Theorem job_pages_visit_every_match s q size :
  store_wf s → jq_page_size q = Some size → (0 < size)%N →
  (N.of_nat (length (matching_jobs s q)) <= usize_max)%N →
  follow_pages (fetch_jobs s q) (S (length (matching_jobs s q))) None = Some (matching_jobs s q) ∧
  NoDup (matching_jobs s q) ∧
  (∀ j, j ∈ matching_jobs s q ↔ job_matches_query q j = true ∧ ∃ i, jobs s !! i = Some j).
Proof.
  intros Hwf Hq Hs Hl. split_and!.
  - apply (follow_pages_complete (fetch_jobs s q) (λ t, page_start t "jobs") (matching_jobs s q) size Hs Hl)
      with (start := 0%N); [apply page_start_token|by eauto using fetch_jobs_page|done|simpl; lia].
  - apply NoDup_ListNoDup, List.NoDup_filter, NoDup_ListNoDup, btree_values_nodup. apply Hwf.
  - intros j. unfold matching_jobs. rewrite list_elem_of_In, filter_In, <- list_elem_of_In.
    rewrite elem_of_btree_values. tauto.
Qed.
End Jobs.

(** ** The ledger as a list *)

Lemma filter_from_keys {A} (l : list (N * A)) start b n :
  l.*1 = N.of_nat <$> seq start n →
  List.filter (λ p, (b <=? p.1)%N) l = drop (N.to_nat b - start) l.
Proof.
  revert start n. induction l as [|[k a] l IH]; intros start n Hl; [by rewrite drop_nil|].
  destruct n as [|n]; [done|]. simpl in Hl. injection Hl as -> Hl. cbn [List.filter fst].
  destruct (N.leb_spec b (N.of_nat start)).
  - rewrite (IH (S start) n Hl). replace (N.to_nat b - S start) with 0 by lia.
    replace (N.to_nat b - start) with 0 by lia. by rewrite !drop_0.
  - rewrite (IH (S start) n Hl).
    replace (N.to_nat b - start) with (S (N.to_nat b - S start)) by lia. done.
Qed.

Lemma seq_sorted start n : StronglySorted (λ x y, N.leb x y = true) (N.of_nat <$> seq start n).
Proof.
  revert start. induction n as [|n IH]; intros start; simpl; constructor; [apply IH|].
  apply Forall_fmap, Forall_seq. intros k Hk. simpl. lia.
Qed.

Section Ledger.
Context `{UuidLib} `{RegistryPort}.
Implicit Types s : InMemoryInner.

Definition ledger_events s : list JobEvent :=
  omap (λ p, job_events_by_id s !! p.2) (btree_to_list (job_events_by_sequence s)).
Definition events_after s (a : N) : list JobEvent := drop (N.to_nat a) (ledger_events s).

Lemma ledger_keys s :
  ledger_wf s →
  (btree_to_list (job_events_by_sequence s)).*1 = N.of_nat <$> seq 1 (N.to_nat (next_event_sequence s)).
Proof.
  intros Hwf. apply (StronglySorted_unique_strong (λ x y, N.leb x y = true)).
  - intros x y _ _ ??. lia.
  - pose proof (btree_to_list_sorted (job_events_by_sequence s)) as Hs. revert Hs. clear.
    induction 1 as [|p l Hs IH Hall]; simpl; constructor; [done|]. by apply Forall_fmap.
  - apply seq_sorted.
  - apply NoDup_Permutation; [apply btree_to_list_nodup| |].
    + apply NoDup_fmap_2; [intros ? ? ?; lia|apply NoDup_seq].
    + intros n. rewrite !list_elem_of_fmap. split.
      * intros ([n' i] & -> & Hin%elem_of_btree_to_list). exists (N.to_nat n'). simpl.
        pose proof (proj1 (lw_range _ Hwf n') (mk_is_Some _ _ Hin)). rewrite elem_of_seq. lia.
      * intros (k & -> & Hk%elem_of_seq).
        destruct (proj2 (lw_range _ Hwf (N.of_nat k))) as [i Hi]; [lia|].
        exists (N.of_nat k, i). split; [done|]. by apply elem_of_btree_to_list.
Qed.

(** The entries resolve, so the list of events mirrors the index. *)
Lemma try_map_resolves s (l : list (N * JobEventId)) :
  (∀ n i, (n, i) ∈ l → is_Some (job_events_by_id s !! i)) →
  try_map (event_of_id s) l.*2 = Ok (omap (λ p, job_events_by_id s !! p.2) l).
Proof.
  induction l as [|[n i] l IH]; intros Hl; [done|]. rewrite fmap_cons. cbn [try_map snd].
  destruct (Hl n i) as [e He]; [by left|]. unfold event_of_id at 1. rewrite He. simpl.
  rewrite IH; [|intros n' i' Hin; apply (Hl n' i'); by right]. by rewrite He.
Qed.

Lemma ledger_entry s n i :
  ledger_wf s → (n, i) ∈ btree_to_list (job_events_by_sequence s) → is_Some (job_events_by_id s !! i).
Proof.
  intros Hwf Hin%elem_of_btree_to_list. destruct (lw_sequence _ Hwf _ _ Hin) as (e & ? & _). eauto.
Qed.

Lemma omap_drop_total {A B} (f : A → option B) (l : list A) n :
  (∀ x, x ∈ l → is_Some (f x)) → omap f (drop n l) = drop n (omap f l).
Proof.
  revert n. induction l as [|x l IH]; intros [|n] Hl; [done..|].
  simpl. destruct (Hl x) as [y Hy]; [by left|]. rewrite Hy. simpl. apply IH.
  intros z Hz. apply Hl. by right.
Qed.

(** The range of the sequence index after [a] resolves to [events_after a]. *)
Lemma range_resolves s a :
  ledger_wf s →
  let range := btree_range_from (a + 1)%N (job_events_by_sequence s) in
  try_map (event_of_id s) range.*2 = Ok (events_after s a) ∧
  (∀ n i, (n, i) ∈ range → is_Some (job_events_by_id s !! i)).
Proof.
  intros Hwf range. assert (∀ n i, (n, i) ∈ range → is_Some (job_events_by_id s !! i)) as Hall.
  { intros n i Hin. unfold range, btree_range_from in Hin.
    apply list_elem_of_In, filter_In in Hin as [Hin%list_elem_of_In _]. by eapply ledger_entry. }
  split; [|done]. rewrite try_map_resolves by done. f_equal. unfold events_after, ledger_events.
  rewrite <- omap_drop_total.
  - f_equal. etrans; [eapply (filter_from_keys _ 1 (a + 1)); by apply ledger_keys|]. f_equal. lia.
  - intros [n i] Hin. by eapply ledger_entry.
Qed.

Lemma try_map_take {E A B} (f : A → result E B) l n r :
  try_map f l = Ok r → try_map f (take n l) = Ok (take n r).
Proof.
  revert n r. induction l as [|x l IH]; intros [|n] r; cbn [try_map take]; try by intros [= <-].
  { by destruct r. }
  destruct (f x); [|done]. destruct (try_map f l) as [ys|] eqn:Hl; [|done]. intros [= <-].
  by rewrite (IH n ys).
Qed.

Lemma ledger_events_length s : ledger_wf s → length (ledger_events s) = N.to_nat (next_event_sequence s).
Proof.
  intros Hwf. pose proof (f_equal length (ledger_keys s Hwf)) as Hk.
  rewrite !length_fmap, length_seq in Hk. rewrite <- Hk. unfold ledger_events.
  assert (∀ p, p ∈ btree_to_list (job_events_by_sequence s) → is_Some (job_events_by_id s !! p.2)) as Hall.
  { intros [n i]. by apply ledger_entry. }
  revert Hall. generalize (btree_to_list (job_events_by_sequence s)) as l.
  induction l as [|p l IH]; intros Hall; [done|]. simpl. destruct (Hall p) as [e ->]; [by left|].
  simpl. f_equal. apply IH. intros q Hq. apply Hall. by right.
Qed.

Lemma replay_spec s c limit :
  ledger_wf s →
  replay_job_events s c limit =
  let? a := event_cursor_sequence s c in Ok (take_limit limit (events_after s a)).
Proof.
  intros Hwf. unfold replay_job_events. destruct (event_cursor_sequence s c) as [a|]; [|done].
  destruct (checked_add_u64 a 1) as [b|] eqn:Hb.
  - apply checked_add_u64_Some in Hb as [-> _]. destruct (range_resolves s a Hwf) as [Hr _].
    destruct limit as [n|]; simpl; [by apply try_map_take|done].
  - apply checked_add_u64_None in Hb. unfold events_after.
    rewrite drop_ge; [by destruct limit as [n|]; simpl; rewrite ?take_nil|].
    rewrite ledger_events_length by done. pose proof (lw_bound _ Hwf). lia.
Qed.
End Ledger.

Lemma omap_lookup_total {A B} (f : A → option B) (l : list A) k :
  (∀ x, x ∈ l → is_Some (f x)) → omap f l !! k = l !! k ≫= f.
Proof.
  revert k. induction l as [|x l IH]; intros k Hl; [done|].
  simpl. destruct (Hl x) as [y Hy]; [by left|]. rewrite Hy. destruct k as [|k]; simpl; [done|].
  apply IH. intros z Hz. apply Hl. by right.
Qed.

Section Replay.
Context `{UuidLib} `{RegistryPort}.
Implicit Types s : InMemoryInner.

Lemma ledger_events_lookup s k e :
  ledger_wf s →
  ledger_events s !! k = Some e ↔
  job_events_by_id s !! evt_id e = Some e ∧ evt_sequence_number e = N.of_nat (S k).
Proof.
  intros Hwf. unfold ledger_events. rewrite omap_lookup_total.
  2: { intros [n i]. by apply ledger_entry. }
  pose proof (ledger_keys s Hwf) as Hkeys. split.
  - intros ([n i] & Hk & He)%bind_Some. simpl in He.
    assert (n = N.of_nat (S k)) as ->.
    { apply (f_equal (lookup k)) in Hkeys. rewrite !list_lookup_fmap, Hk in Hkeys. simpl in Hkeys.
      destruct (seq 1 _ !! k) eqn:Hs; [|done]. apply lookup_seq in Hs as [-> _]. by injection Hkeys. }
    apply list_elem_of_lookup_2, elem_of_btree_to_list in Hk.
    destruct (lw_sequence _ Hwf _ _ Hk) as (e' & He' & Hseq). simplify_eq.
    by destruct (lw_id _ Hwf _ _ He) as [-> _].
  - intros [He Hseq]. destruct (lw_id _ Hwf _ _ He) as [_ Hs].
    pose proof Hs as (k' & Hk')%elem_of_btree_to_list%list_elem_of_lookup.
    assert (k' = k) as ->.
    { apply (f_equal (lookup k')) in Hkeys. rewrite !list_lookup_fmap, Hk' in Hkeys. simpl in Hkeys.
      destruct (seq 1 _ !! k') eqn:Hs'; [|done]. apply lookup_seq in Hs' as [-> _].
      simpl in Hkeys. injection Hkeys as Hkeys. lia. }
    rewrite Hk'. done.
Qed.

Lemma ledger_events_unique s es :
  ledger_wf s → ledger_extends inner_default s es → ledger_events s = es.
Proof.
  intros Hwf [Hn _ Hes]. simpl in *. apply list_eq_same_length with (n := length es); [done| |].
  - rewrite ledger_events_length by done. lia.
  - intros k x y _ Hx%ledger_events_lookup Hy; [|done].
    destruct (Hes _ _ Hy) as (Hseq & _ & Hy'). destruct Hx as [Hx Hxs].
    destruct (lw_id _ Hwf _ _ Hx) as [_ H1], (lw_id _ Hwf _ _ Hy') as [_ H2].
    assert (evt_sequence_number x = evt_sequence_number y) as Heq by lia.
    rewrite Heq in H1. congruence.
Qed.

(** A replay returns exactly the ledger after its cursor: in a well-formed
    state it fails only on an unknown cursor event, and otherwise returns the
    stored events with sequence numbers after the cursor, consecutive and in
    order, up to the limit. *)
Theorem replay_is_exact s c limit :
  store_wf s →
  match event_cursor_sequence s c with
  | Err e => replay_job_events s c limit = Err e
  | Ok a => ∃ es, replay_job_events s c limit = Ok es ∧
      length es = match limit with
                  | Some n => N.to_nat n `min` (N.to_nat (next_event_sequence s) - N.to_nat a)
                  | None => N.to_nat (next_event_sequence s) - N.to_nat a
                  end ∧
      ∀ k e, es !! k = Some e →
        job_events_by_id s !! evt_id e = Some e ∧
        evt_sequence_number e = (a + N.of_nat k + 1)%N
  end.
Proof.
  intros [_ Hwf _ _ _]. rewrite replay_spec by done.
  destruct (event_cursor_sequence s c) as [a|]; [|done]. eexists. split; [done|].
  pose proof (ledger_events_length s Hwf) as Hlen. unfold events_after. split.
  - destruct limit as [n|]; simpl; rewrite ?length_take, length_drop, Hlen; lia.
  - intros k e Hk. assert (drop (N.to_nat a) (ledger_events s) !! k = Some e) as Hk'.
    { destruct limit as [n|]; simpl in Hk; [|done]. by apply lookup_take_Some in Hk as [? _]. }
    rewrite lookup_drop in Hk'. apply ledger_events_lookup in Hk' as [? Hseq]; [|done].
    split; [done|]. lia.
Qed.

(** A subscriber can resume.  If a client has seen the ledger up to some
    event, replaying after that event's id returns exactly what it missed: the
    events seen and the events replayed make up the whole ledger. *)
Theorem replay_resumes s seen e :
  store_wf s → replay_job_events s Beginning (Some (N.of_nat (length (seen ++ [e])))) = Ok (seen ++ [e]) →
  ∃ missed, replay_job_events s (AfterEventId (evt_id e)) None = Ok missed ∧
    replay_job_events s Beginning None = Ok (seen ++ [e] ++ missed).
Proof.
  intros [_ Hwf _ _ _]. rewrite !replay_spec by done. simpl.
  unfold events_after. simpl. rewrite drop_0, Nat2N.id. intros Hseen%Ok_inj.
  assert (ledger_events s !! length seen = Some e) as He.
  { rewrite <- (take_drop (length (seen ++ [e])) (ledger_events s)), Hseen.
    rewrite lookup_app_l by (rewrite length_app; simpl; lia). by rewrite lookup_app_r, Nat.sub_diag by done. }
  apply ledger_events_lookup in He as [He Hseq]; [|done]. rewrite He. simpl.
  eexists. split; [done|]. rewrite Hseq. f_equal.
  rewrite <- (take_drop (length (seen ++ [e])) (ledger_events s)) at 1. rewrite Hseen.
  rewrite <- app_assoc. simpl. do 3 f_equal. rewrite length_app. simpl. lia.
Qed.

(** ** Event queries *)

Definition with_event_token (q : EventQuery) (token : option string) : EventQuery := {|
  eq_repository_id := eq_repository_id q; eq_cursor := eq_cursor q;
  eq_subject_ids := eq_subject_ids q; eq_job_ids := eq_job_ids q;
  eq_min_severity := eq_min_severity q; eq_page_size := eq_page_size q; eq_page_token := token |}.

Definition fetch_events s (q : EventQuery) (token : option string)
  : StoreResult (list JobEvent * option string) :=
  let? page := query_job_events s (with_event_token q token) in
  Ok (ep_events page, ep_next_page_token page).

(** Does a stored event match?  Its repository is always known. *)
Definition event_matches s (q : EventQuery) (e : JobEvent) : bool :=
  match event_matches_query s e q with Ok b => b | Err _ => false end.
Definition matching_events s (q : EventQuery) (a : N) : list JobEvent :=
  List.filter (event_matches s q) (events_after s a).

Lemma event_matches_query_Ok s q e :
  store_wf s → job_events_by_id s !! evt_id e = Some e →
  event_matches_query s e q = Ok (event_matches s q e).
Proof.
  intros Hwf He. unfold event_matches, event_matches_query.
  destruct (eq_repository_id q); [|done].
  destruct (rw_events _ (sw_refs _ Hwf) _ _ He) as [r Hr].
  by rewrite (event_repository_id_complete s e r (sw_keys _ Hwf) Hr).
Qed.

(** The filtering loop is the paging loop over the filtered events. *)
Lemma collect_loop_spec s q l es skipped start size retained :
  store_wf s → try_map (event_of_id s) l = Ok es →
  (∀ e, e ∈ es → job_events_by_id s !! evt_id e = Some e) →
  collect_loop s q l skipped start size retained =
  Ok (page_loop (List.filter (event_matches s q) es) skipped start size retained).
Proof.
  intros Hwf. revert es skipped retained.
  induction l as [|i l IH]; intros es skipped retained Hes Hall; cbn [try_map collect_loop] in *.
  { by simplify_eq. }
  destruct (event_of_id s i) as [e|]; [|done]. destruct (try_map _ l) as [es'|]; [|done].
  apply Ok_inj in Hes as <-. rewrite event_matches_query_Ok; [|done|apply Hall; by left].
  cbn [List.filter]. assert (∀ e', e' ∈ es' → job_events_by_id s !! evt_id e' = Some e') as Hall'.
  { intros e' He'. apply Hall. by right. }
  destruct (event_matches s q e); cbn [page_loop]; [|by apply IH].
  destruct (skipped <? start)%N; [by apply IH|].
  destruct (N.of_nat (length retained) =? size)%N; [done|by apply IH].
Qed.

Lemma events_after_stored s a e :
  ledger_wf s → e ∈ events_after s a → job_events_by_id s !! evt_id e = Some e.
Proof.
  intros Hwf (k & Hk)%list_elem_of_lookup. unfold events_after in Hk. rewrite lookup_drop in Hk.
  by apply ledger_events_lookup in Hk as [? _].
Qed.

Lemma collect_paginated_spec s q a start size :
  store_wf s → event_cursor_sequence s (eq_cursor q) = Ok a → (0 < size)%N →
  collect_paginated_filtered_job_events s q start size =
  Ok (page_of (matching_events s q a) start size).
Proof.
  intros Hwf Ha Hs. pose proof (sw_ledger _ Hwf) as Hl.
  assert (∀ p, p = page_loop (matching_events s q a) 0 start size [] →
    (let '(retained, has_next) := p in
     Ok (retained, if has_next : bool then Some (page_token_of start (length retained)) else None))
    = @Ok StoreError _ (page_of (matching_events s q a) start size)) as Hpage.
  { intros p ->. rewrite page_loop_spec by (simpl; lia). cbv zeta.
    by rewrite app_nil_l, Nat.sub_0_r, N.sub_0_r, page_token_spec. }
  unfold collect_paginated_filtered_job_events. rewrite Ha.
  destruct (N.eqb_spec size 0) as [|_]; [lia|].
  destruct (checked_add_u64 a 1) as [b|] eqn:Hb.
  - apply checked_add_u64_Some in Hb as [-> _]. destruct (range_resolves s a Hl) as [Hr _].
    rewrite (collect_loop_spec s q _ _ 0 start size [] Hwf Hr);
      [|intros e; by apply events_after_stored].
    by apply Hpage.
  - apply checked_add_u64_None in Hb. apply (Hpage ([], false)). unfold matching_events, events_after.
    rewrite drop_ge; [done|]. rewrite ledger_events_length by done. pose proof (lw_bound _ Hl). lia.
Qed.

Lemma fetch_events_page s q a size token start :
  store_wf s → event_cursor_sequence s (eq_cursor q) = Ok a →
  eq_page_size q = Some size → (0 < size)%N → page_start token "job_events" = Ok start →
  fetch_events s q token = Ok (page_of (matching_events s q a) start size).
Proof.
  intros Hwf Ha Hq Hs Ht. unfold fetch_events, query_job_events.
  cbn [with_event_token eq_page_token eq_page_size eq_cursor]. rewrite Ht, Hq.
  assert (is_ok (resolve_event_cursor_sequence s (eq_cursor q)) = true) as Hres.
  { unfold resolve_event_cursor_sequence. destruct (eq_cursor q); try done. by rewrite Ha. }
  destruct (resolve_event_cursor_sequence s (eq_cursor q)); [|done].
  change (page_size_or_max (Some size)) with size.
  rewrite (collect_paginated_spec s (with_event_token q token) a) by done. reflexivity.
Qed.

(** Event pagination is complete.  From any resolvable cursor and with any
    positive page size, following the page tokens of [query_job_events]
    terminates and returns every event after the cursor that matches the
    filters, exactly once and in sequence order. *)
Theorem event_pages_visit_every_match s q a size :
  store_wf s → event_cursor_sequence s (eq_cursor q) = Ok a →
  eq_page_size q = Some size → (0 < size)%N →
  follow_pages (fetch_events s q) (S (length (matching_events s q a))) None
    = Some (matching_events s q a) ∧
  (∀ e, e ∈ matching_events s q a ↔
     event_matches s q e = true ∧ job_events_by_id s !! evt_id e = Some e ∧
     (a < evt_sequence_number e)%N).
Proof.
  intros Hwf Ha Hq Hs. pose proof (sw_ledger _ Hwf) as Hl. split.
  - eapply (follow_pages_complete (fetch_events s q) (λ t, page_start t "job_events")
              (matching_events s q a) size)
      with (start := 0%N); [done| |apply page_start_token|by eauto using fetch_events_page|done|simpl; lia].
    pose proof (filter_length_le (event_matches s q) (events_after s a)) as Hf.
    unfold matching_events, events_after in *. rewrite length_drop, ledger_events_length in Hf by done.
    pose proof (lw_bound _ Hl). unfold usize_max. lia.
  - intros e. unfold matching_events, events_after.
    rewrite list_elem_of_In, filter_In, <- list_elem_of_In, list_elem_of_lookup. split.
    + intros [(k & Hk) Hm]. rewrite lookup_drop in Hk.
      apply ledger_events_lookup in Hk as [? ?]; [|done]. split_and!; [done..|lia].
    + intros (Hm & He & Hseq). split; [|done].
      exists (N.to_nat (evt_sequence_number e) - N.to_nat a - 1). rewrite lookup_drop.
      apply ledger_events_lookup; [done|]. split; [done|]. lia.
Qed.
End Replay.

Section Broadcast.
Context `{UuidLib} `{RegistryPort} `{!SnapshotCodec}.

(** A replay from the beginning and a live subscription agree: after any
    sequence of store calls, with any I/O failures, the replayed ledger is
    exactly what the global channel carried. *)
Theorem replay_equals_broadcast l :
  replay_job_events (st_inner (run_ops l fresh_durable)) Beginning None =
  Ok (global_log (st_sent (run_ops l fresh_durable))).
Proof.
  destruct (run_ops_wf l) as [_ Hr _ Hg _]. pose proof (sw_ledger _ (reachable_wf _ Hr)) as Hl.
  rewrite replay_spec by done. simpl. unfold events_after. by rewrite drop_0, (ledger_events_unique _ _ Hl Hg).
Qed.
End Broadcast.

(** ** Witnesses on the demo run *)

Module QueryDemo.
Import Demo.
#[local] Existing Instance sample_uuid_lib.
#[local] Existing Instance sample_registry.

Lemma demo_wf : store_wf (demo_state 7).
Proof. apply reachable_wf. exact (exec_ops_steps _ _ _ _ demo_run). Qed.

Definition demo_job_query : JobQuery := {|
  jq_repository_id := Some (repo_id demo_repository); jq_status := Some Succeeded;
  jq_requester := None; jq_page_size := Some 1%N; jq_page_token := None |}.

Lemma job_pages_visit_every_match_witness :
  follow_pages (fetch_jobs (demo_state 7) demo_job_query) 2 None
    = Some [job_set_latest_event demo_job_done (Some (evt_id demo_succeeded))].
Proof.
  destruct (job_pages_visit_every_match (demo_state 7) demo_job_query 1) as [Hf _].
  - exact demo_wf.
  - reflexivity.
  - lia.
  - vm_compute. discriminate.
  - exact Hf.
Defined.

Lemma replay_is_exact_witness :
  ∃ es, replay_job_events (demo_state 7) (AfterEventId (evt_id demo_decided)) (Some 2%N) = Ok es ∧
    length es = 2.
Proof.
  pose proof (replay_is_exact (demo_state 7) (AfterEventId (evt_id demo_decided)) (Some 2%N) demo_wf)
    as Hr.
  assert (event_cursor_sequence (demo_state 7) (AfterEventId (evt_id demo_decided)) = Ok 2%N) as Hc
    by (vm_compute; reflexivity).
  rewrite Hc in Hr. destruct Hr as (es & Hes & Hlen & _). exists es. split; [exact Hes|].
  rewrite Hlen. vm_compute. reflexivity.
Defined.

Lemma replay_resumes_witness :
  ∃ missed, replay_job_events (demo_state 7) (AfterEventId (evt_id demo_started)) None = Ok missed ∧
    replay_job_events (demo_state 7) Beginning None =
      Ok (take 2 (demo_events 7) ++ [evt_set_sequence demo_started 3] ++ missed).
Proof.
  apply (replay_resumes (demo_state 7) (take 2 (demo_events 7)) (evt_set_sequence demo_started 3)).
  - exact demo_wf.
  - vm_compute. reflexivity.
Defined.

Definition demo_event_query : EventQuery := {|
  eq_repository_id := Some (repo_id demo_repository); eq_cursor := AfterSequence 1;
  eq_subject_ids := [as_str (job_id demo_job)]; eq_job_ids := []; eq_min_severity := Some SevInfo;
  eq_page_size := Some 1%N; eq_page_token := None |}.

Lemma event_pages_visit_every_match_witness :
  follow_pages (fetch_events (demo_state 7) demo_event_query) 3 None
    = Some [evt_set_sequence demo_started 3; evt_set_sequence demo_succeeded 6].
Proof.
  destruct (event_pages_visit_every_match (demo_state 7) demo_event_query 1 1) as [Hf _].
  - exact demo_wf.
  - reflexivity.
  - reflexivity.
  - lia.
  - exact Hf.
Defined.
End QueryDemo.
