(* ===== verification/ReceiptLaws.v ===== *)
(** * ReceiptLaws: a store can be loaded again *)
From S2P Require Import Prelude Text Domain DomainLaws Policy StoreTypes StoreValidate StoreJobs.
From S2P Require Import Store StoreQuery StoreLoad Ledger StoreRefine.
From S2P Require Import StoreGuarantees StoreShell ShellLaws StoreQueryLaws.

(** * A store accepts the snapshots it wrote

    Validation of an event is exact: it accepts precisely the fresh, well
    referenced events.  So the events of a ledger pass validation again when a
    snapshot is loaded, and so do its other records: [validate_loaded_store]
    accepts every state the store can reach, up to the idempotency receipts,
    which it checks against the whole event chain of their job. *)

(** ** Event validation is exact *)

Section Exact.
Context `{UuidLib} `{RegistryPort}.
Context (s : InMemoryInner) (e : JobEvent) (r : RepositoryId) (job policy : string).
Context (Hkeys : keys_wf s) (He : event_of s e r job policy).

(** An expectation the event can still meet. *)
Record fits (x : EventExpectation) : Prop := {
  fit_repository : exp_repository x = Some r;
  fit_job i : exp_job x = Some i → i = job;
  fit_policy i : exp_policy x = Some i → i = policy
}.

Lemma repository_complete x r' c :
  fits x → r' = r → ensure_event_repository_consistency (exp_repository x) r' c = Ok (Some r).
Proof. intros [-> _ _] ->. by apply ensure_event_repository_consistency_Ok. Qed.

Lemma job_complete x (i : JobId) c :
  fits x → as_str i = job → ensure_event_job_consistency (exp_job x) i c = Ok (Some job).
Proof.
  intros [_ Hj _] Hi. apply ensure_event_identity_consistency_Ok. rewrite Hi. split; [done|].
  intros a Ha. by apply Hj.
Qed.

Lemma policy_complete x (i : PolicyDecisionId) c :
  fits x → as_str i = policy → ensure_event_policy_consistency (exp_policy x) i c = Ok (Some policy).
Proof.
  intros [_ _ Hp] Hi. apply ensure_event_identity_consistency_Ok. rewrite Hi. split; [done|].
  intros a Ha. by apply Hp.
Qed.

Ltac subject_matches Hn :=
  rewrite (proj2 (ensure_subject_ref_matches_Ok _ _ _ _) Hn).
Ltac fitting Hx := eexists; split; [reflexivity|]; destruct Hx; split; simpl; naive_solver.

Lemma check_repository_ref_complete x : check_repository_ref s e x = Ok x.
Proof.
  unfold check_repository_ref. destruct (ref_repository_id (evt_refs e)) as [i|] eqn:Hi; [|done].
  destruct (ei_repository _ _ _ _ _ He i Hi) as (Hn & _ & Hs).
  subject_matches Hn. by rewrite (proj2 (contains_key_spec _ _) Hs).
Qed.

Lemma check_job_ref_complete x : fits x → ∃ y, check_job_ref s e None x = Ok y ∧ fits y.
Proof.
  intros Hx. unfold check_job_ref. destruct (ref_job_id (evt_refs e)) as [i|] eqn:Hi; [|eauto].
  destruct (ei_job _ _ _ _ _ He i Hi) as (Hij & j & Hj & Hr).
  subject_matches (eq_rect_r (names_same e SubjJob) (ei_subject_job _ _ _ _ _ He) Hij).
  rewrite Hj. simpl. rewrite (repository_complete x) by done.
  rewrite (job_complete x) by (done || by rewrite (kw_jobs _ Hkeys _ _ Hj)). fitting Hx.
Qed.

Lemma check_policy_ref_complete x : fits x → ∃ y, check_policy_ref s e x = Ok y ∧ fits y.
Proof.
  intros Hx. unfold check_policy_ref.
  destruct (ref_policy_decision_id (evt_refs e)) as [i|] eqn:Hi; [|eauto].
  destruct (ei_policy _ _ _ _ _ He i Hi) as (Hip & p & Hp & Hr).
  subject_matches (eq_rect_r (names_same e SubjPolicyDecision) (ei_subject_policy _ _ _ _ _ He) Hip).
  unfold get_ref. rewrite Hp. simpl. rewrite (repository_complete x) by done. fitting Hx.
Qed.

Lemma check_lock_ref_complete x : fits x → ∃ y, check_lock_ref s e x = Ok y ∧ fits y.
Proof.
  intros Hx. unfold check_lock_ref.
  destruct (ref_lock_decision_id (evt_refs e)) as [i|] eqn:Hi; [|eauto].
  destruct (ei_lock _ _ _ _ _ He i Hi) as (Hn & l & Hl & Hr & Hp). subject_matches Hn.
  unfold get_ref. rewrite Hl. simpl.
  rewrite (repository_complete x), (policy_complete x) by done. fitting Hx.
Qed.

Lemma check_invocation_ref_complete x : fits x → ∃ y, check_invocation_ref s e x = Ok y ∧ fits y.
Proof.
  intros Hx. unfold check_invocation_ref.
  destruct (ref_tool_invocation_id (evt_refs e)) as [i|] eqn:Hi; [|eauto].
  destruct (ei_invocation _ _ _ _ _ He i Hi) as (Hn & t & Ht & Hr & Hj & Hp). subject_matches Hn.
  unfold get_ref. rewrite Ht. simpl.
  rewrite (repository_complete x), (job_complete x), (policy_complete x) by done. fitting Hx.
Qed.

Lemma check_result_ref_complete x : fits x → ∃ y, check_result_ref s e None x = Ok y ∧ fits y.
Proof.
  intros Hx. unfold check_result_ref, find_tool_result.
  destruct (ref_tool_result_id (evt_refs e)) as [i|] eqn:Hi; [|eauto].
  destruct (ei_result _ _ _ _ _ He i Hi) as (Hn & y & t & Hy & Ht & Hr & Ha & Hj & Hp).
  subject_matches Hn. rewrite Hy. simpl. rewrite Ht. simpl.
  rewrite (repository_complete x), (proj2 (invocation_ref_differs_false _ _) Ha),
    (job_complete x), (policy_complete x) by done. fitting Hx.
Qed.

Lemma check_audit_ref_complete x : fits x → ∃ y, check_audit_ref s e None None x = Ok y.
Proof.
  intros Hx. unfold check_audit_ref, find_tool_result.
  destruct (ref_audit_record_id (evt_refs e)) as [i|] eqn:Hi; [|eauto].
  destruct (ei_audit _ _ _ _ _ He i Hi) as (Hn & a & Ha & Hr & Hp & Ht).
  subject_matches Hn. rewrite Ha. simpl. rewrite (repository_complete x), (policy_complete x) by done.
  destruct (aud_tool_invocation_id a) as [t|]; [|eauto].
  destruct (Ht t eq_refl) as (Hag & (inv & Hinv & Hj) & Hres). rewrite Hinv. simpl.
  rewrite (proj2 (invocation_ref_differs_false _ _) Hag), (job_complete x) by done.
  destruct (ref_tool_result_id (evt_refs e)) as [ri|]; [|eauto].
  destruct (Hres ri eq_refl) as (y & -> & Hy). simpl. rewrite (bool_decide_eq_true_2 _ Hy). eauto.
Qed.

Lemma initial_fits : fits (initial_expectation e (Some r)).
Proof.
  destruct He as [_ _ Hsj Hsp Hr Hj Hp _ _ _ _]. unfold names_same in *. split; simpl.
  - destruct (ref_repository_id (evt_refs e)) as [i|]; [|done].
    by destruct (Hr i eq_refl) as (_ & -> & _).
  - intros i. destruct (subject_type (evt_subject e)); [|intros [= <-]; by auto|..];
      (destruct (ref_job_id (evt_refs e)) as [k|]; [|done]);
      simpl; intros [= <-]; by destruct (Hj k eq_refl).
  - intros i. destruct (subject_type (evt_subject e)); [| |intros [= <-]; by auto|..];
      (destruct (ref_policy_decision_id (evt_refs e)) as [k|]; [|done]);
      simpl; intros [= <-]; by destruct (Hp k eq_refl).
Qed.

Lemma validate_event_refs_complete : validate_event_refs s e None None None (Some r) = Ok tt.
Proof.
  unfold validate_event_refs. rewrite check_repository_ref_complete.
  destruct (check_job_ref_complete _ initial_fits) as (x1 & -> & Hx1).
  destruct (check_policy_ref_complete _ Hx1) as (x2 & -> & Hx2).
  destruct (check_lock_ref_complete _ Hx2) as (x3 & -> & Hx3).
  destruct (check_invocation_ref_complete _ Hx3) as (x4 & -> & Hx4).
  destruct (check_result_ref_complete _ Hx4) as (x5 & -> & Hx5).
  by destruct (check_audit_ref_complete _ Hx5) as (x6 & ->).
Qed.

Lemma validate_new_job_event_complete :
  job_events_by_id s !! evt_id e = None → validate_new_job_event s e None = Ok tt.
Proof.
  intros Hfresh. unfold validate_new_job_event, validate_new_job_event_with_pending_records.
  rewrite (proj2 (contains_key_false _ _) Hfresh), (ei_valid _ _ _ _ _ He). simpl.
  unfold validate_event_subject.
  rewrite (subject_repository_id_complete _ _ _ Hkeys (ei_subject _ _ _ _ _ He)).
  assert (∀ i, ref_repository_id (evt_refs e) = Some i → i = r) as Hr.
  { intros i Hi. by destruct (ei_repository _ _ _ _ _ He i Hi) as (_ & ? & _). }
  destruct (ref_repository_id (evt_refs e)) as [i|]; [|apply validate_event_refs_complete].
  rewrite (Hr i eq_refl), (proj2 (ensure_same_repository_Ok _ _ r r) eq_refl).
  apply validate_event_refs_complete.
Qed.
End Exact.

(** ** Pairwise conditions on the records of a map *)

Lemma hash_values_pairwise `{Countable K} {V} (m : gmap K V) (R : V → V → Prop) :
  (∀ i j x y, m !! i = Some x → m !! j = Some y → i ≠ j → R x y) →
  StronglySorted R (hash_values m).
Proof.
  intros HR. unfold hash_values.
  assert (∀ i x, (i, x) ∈ map_to_list m → m !! i = Some x) as Hm
    by (intros i x; apply elem_of_map_to_list).
  pose proof (NoDup_fst_map_to_list m) as Hnd. revert Hm Hnd.
  induction (map_to_list m) as [|[i x] l IH]; intros Hm Hnd; simpl; constructor.
  - apply IH; [|by apply NoDup_cons in Hnd as [_ ?]]. intros j y Hin. apply Hm. by right.
  - apply Forall_forall. intros y ([j y'] & -> & Hin)%list_elem_of_fmap. simpl.
    eapply (HR i j); [apply Hm; by left|apply Hm; by right|].
    intros ->. apply NoDup_cons in Hnd as [Hnd _]. apply Hnd, list_elem_of_fmap. by exists (j, y').
Qed.

Lemma pairwise_filter {A} (R R' : A → A → Prop) (f : A → bool) l :
  StronglySorted R l → (∀ x y, f x = true → f y = true → R x y → R' x y) →
  StronglySorted R' (List.filter f l).
Proof.
  intros Hl Hf. induction Hl as [|x l Hl IH Hx]; simpl; [constructor|].
  destruct (f x) eqn:Hfx; [|done]. constructor; [done|].
  apply Forall_forall. intros y [Hy Hfy]%list_elem_of_In%List.filter_In.
  apply Hf; try done. rewrite Forall_forall in Hx. by apply Hx, list_elem_of_In.
Qed.

(** ** Loading *)

Section Reopen.
Context `{UuidLib} `{RegistryPort}.
Implicit Types s : InMemoryInner.

Lemma check_unique_roots_complete seen l :
  StronglySorted (λ x y, repo_root_path x ≠ repo_root_path y) l →
  (∀ x, x ∈ l → validate_repository_record x = Ok tt ∧ repo_root_path x ∉ seen) →
  check_unique_roots seen l = Ok tt.
Proof.
  intros Hl. revert seen. induction Hl as [|x l Hl IH Hx]; intros seen Hs; [done|]. simpl.
  destruct (Hs x) as [-> Hn]; [by left|]. rewrite (bool_decide_eq_false_2 _ Hn).
  apply IH. intros y Hy. destruct (Hs y) as [? ?]; [by right|]. split; [done|].
  rewrite Forall_forall in Hx. specialize (Hx y Hy). set_solver.
Qed.

Lemma check_blocked_overlaps_complete l :
  StronglySorted (λ x y, blocked_roots_conflict x y = false) l → check_blocked_overlaps l = Ok tt.
Proof.
  induction 1 as [|x l Hl IH Hx]; [done|]. simpl.
  rewrite (proj2 (for_each_Ok _ _)); [done|]. intros y Hy.
  rewrite Forall_forall in Hx. by rewrite (Hx y Hy).
Qed.

Lemma check_active_scopes_complete seen l :
  StronglySorted (λ x y, (lock_repository_id x, lock_locked_scope x)
                         ≠ (lock_repository_id y, lock_locked_scope y)) l →
  (∀ x, x ∈ l → (lock_repository_id x, lock_locked_scope x) ∉ seen) →
  check_active_scopes seen l = Ok tt.
Proof.
  intros Hl. revert seen. induction Hl as [|x l Hl IH Hx]; intros seen Hs; [done|]. simpl.
  rewrite bool_decide_eq_false_2 by (apply Hs; by left). apply IH. intros y Hy.
  rewrite Forall_forall in Hx. rewrite elem_of_cons. intros [Heq|Hin].
  - by apply (Hx y Hy).
  - apply (Hs y); [by right|done].
Qed.

Lemma check_tool_results_complete s seen l :
  StronglySorted (λ x y, res_invocation_id x ≠ res_invocation_id y) l →
  (∀ x, x ∈ l → result_ok s x ∧ res_invocation_id x ∉ seen) →
  check_tool_results s seen l = Ok tt.
Proof.
  intros Hl. revert seen. induction Hl as [|x l Hl IH Hx]; intros seen Hs; [done|]. simpl.
  destruct (Hs x) as [(t & Ht & Htool) Hn]; [by left|].
  unfold validate_loaded_tool_result_record, get_ref. rewrite Ht. simpl.
  rewrite (proj2 (str_eqb_true _ _) Htool). simpl. rewrite (bool_decide_eq_false_2 _ Hn).
  apply IH. intros y Hy. destruct (Hs y) as [? ?]; [by right|]. split; [done|].
  rewrite Forall_forall in Hx. specialize (Hx y Hy). set_solver.
Qed.

Lemma ensure_same c x r : ensure_same_repository c x r r = Ok tt.
Proof. by apply ensure_same_repository_Ok. Qed.
Lemma ensure_exists {k V} (m : gmap (OpaqueId k) V) i c x :
  is_Some (m !! i) → ensure_ref_exists (contains_key m i) c i x = Ok tt.
Proof. intros Hs. by apply ensure_ref_exists_Ok, contains_key_spec. Qed.

Lemma validate_loaded_job_record_complete s i j :
  keys_wf s → jobs s !! i = Some j → job_ok s i j → job_wf j →
  validate_loaded_job_record s j = Ok tt.
Proof.
  intros Hk Hj (Hr & l & e & Hl & He & Href) [Hc Hst Hco _ Hrun Hterm _ _].
  unfold validate_loaded_job_record. rewrite ensure_exists by done.
  replace (job_updated_at j <? job_created_at j)%Z with false by lia.
  rewrite Hl. unfold get_ref. rewrite He. simpl.
  rewrite (bool_decide_eq_true_2 (ref_job_id _ = _)) by (by rewrite (kw_jobs _ Hk _ _ Hj)).
  destruct (job_started_at j) as [a|]; [destruct (Hst a eq_refl); replace (a <? _)%Z with false by lia|];
  (destruct (job_completed_at j) as [b|];
    [destruct (Hco b eq_refl); replace (b <? _)%Z with false by lia|]); simpl;
  destruct (job_status j); simpl in *; try done;
    try (by destruct (proj1 Hterm eq_refl)); try (by destruct (Hrun eq_refl));
    (pose proof (proj2 Hterm (mk_is_Some _ _ eq_refl)); done).
Qed.

Lemma check_blocking_decision_complete s i p :
  store_wf s → policy_decisions s !! i = Some p → check_blocking_decision s p = Ok tt.
Proof.
  intros Hwf Hp. unfold check_blocking_decision.
  destruct (is_root_scoped_repository_block p) eqn:Hb; [|done]. simpl.
  destruct (rw_policies _ (sw_refs _ Hwf) _ _ Hp) as [r Hr]. rewrite Hr. simpl.
  apply for_each_Ok. intros r' (i' & Hi')%elem_of_hash_values.
  rewrite (kw_repositories _ (sw_keys _ Hwf) _ _ Hr), (kw_repositories _ (sw_keys _ Hwf) _ _ Hi').
  case_bool_decide as Hne; simpl; [done|].
  by rewrite (ow_policy _ (sw_roots _ Hwf) _ _ _ _ _ Hp Hb Hr Hi' Hne).
Qed.

Lemma check_lock_decision_complete s l : lock_ok s l → check_lock_decision s l = Ok tt.
Proof.
  intros (Ht & Hr & (p & Hp & Hpr) & Ho). unfold check_lock_decision.
  rewrite Ht, ensure_exists, Hp by done. simpl. rewrite Hpr, ensure_same.
  destruct (lock_owner l) as [j| |]; try done.
  destruct (Ho j eq_refl) as (j' & Hj & Hjr). unfold get_ref. rewrite Hj. simpl.
  by rewrite Hjr, ensure_same.
Qed.

Lemma validate_tool_invocation_refs_complete s t :
  invocation_ok s t → validate_tool_invocation_refs s t = Ok tt.
Proof.
  intros (Hr & (j & Hj & Hjr) & (p & Hp & Hpr)). unfold validate_tool_invocation_refs, get_ref.
  rewrite Hj. simpl. rewrite ensure_exists by done. rewrite Hjr, ensure_same, Hp. simpl.
  by rewrite Hpr, ensure_same.
Qed.

Lemma validate_audit_record_refs_complete s a : audit_ok s a → validate_audit_record_refs s a = Ok tt.
Proof.
  intros (Hr & (p & Hp & Hpr) & Ht).
  unfold validate_audit_record_refs, validate_audit_record_refs_with_pending_tool_result, get_ref.
  rewrite ensure_exists by done. rewrite Hp. simpl. rewrite Hpr, ensure_same.
  destruct (aud_tool_invocation_id a) as [i|]; [|done].
  destruct (Ht i eq_refl) as (t & Hi & Hir & Hip). rewrite Hi. simpl.
  by rewrite Hir, ensure_same, (bool_decide_eq_true_2 _ Hip).
Qed.

(** The loop over the sequence index.  [a], [b] and [c] are what is left of the
    event ledger in the clone the loop validates against. *)
Lemma event_sequence_loop_complete s entries k seen a b c :
  keys_wf s → ledger_wf s → refs_wf s →
  entries.*1 = N.of_nat <$> seq k (length entries) →
  (N.of_nat (k + length entries) <= u64_max)%N →
  NoDup entries.*2 → (∀ n i, (n, i) ∈ entries → job_events_by_sequence s !! n = Some i ∧ i ∉ seen) →
  event_sequence_loop s (set_ledger s a b c) (N.of_nat k) seen entries
  = Ok (N.of_nat (k + length entries), list_to_set entries.*2 ∪ seen).
Proof.
  intros Hk Hl Hr. revert k seen a b.
  induction entries as [|[n i] entries IH]; intros k seen a b Hseq Hmax Hnd Hin; simpl.
  { rewrite Nat.add_0_r. do 2 f_equal. set_solver. }
  simpl in Hseq, Hnd, Hmax. injection Hseq as -> Hseq. apply NoDup_cons in Hnd as [Hni Hnd].
  destruct (Hin (N.of_nat k) i) as [Hs Hi]; [by left|].
  destruct (lw_sequence _ Hl _ _ Hs) as (e & He & Hn). destruct (lw_id _ Hl _ _ He) as [Hid _].
  destruct (rw_events _ Hr _ _ He) as (r & job & policy & Hof).
  rewrite N.eqb_refl, (bool_decide_eq_false_2 _ Hi). unfold event_of_id. rewrite He. simpl.
  rewrite Hn, N.eqb_refl. simpl.
  rewrite (validate_new_job_event_complete _ e r job policy);
    [|by destruct Hk|by destruct Hof|by rewrite Hid; simpl; apply lookup_delete_eq].
  replace (saturating_add_u64 (N.of_nat k) 1) with (N.of_nat (S k))
    by (unfold saturating_add_u64; lia).
  refine (eq_trans (IH (S k) ({[i]} ∪ seen) (delete i a) (delete (N.of_nat k) b) Hseq _ Hnd _) _).
  - lia.
  - intros n' i' Hin'. destruct (Hin n' i') as [? ?]; [by right|]. split; [done|].
    assert (i' ≠ i) by (intros ->; apply Hni, list_elem_of_fmap; by exists (n', i)). set_solver.
  - do 2 f_equal; [f_equal; lia|set_solver].
Qed.

Lemma sequence_values_nodup s :
  ledger_wf s → NoDup (btree_to_list (job_events_by_sequence s)).*2.
Proof.
  intros Hl. apply NoDup_fmap_2_strong.
  - intros [n i] [n' i'] Hx%elem_of_btree_to_list Hy%elem_of_btree_to_list. simpl. intros ->.
    destruct (lw_sequence _ Hl _ _ Hx) as (e & He & <-), (lw_sequence _ Hl _ _ Hy) as (e' & He' & <-).
    by simplify_eq.
  - apply (NoDup_fmap_1 fst), btree_to_list_nodup.
Qed.

Lemma validate_loaded_job_event_sequence_complete s :
  keys_wf s → ledger_wf s → refs_wf s → (next_event_sequence s < u64_max)%N →
  validate_loaded_job_event_sequence s = Ok tt.
Proof.
  intros Hk Hl Hr Hmax. unfold validate_loaded_job_event_sequence.
  pose proof (ledger_keys s Hl) as Hseq. pose proof (f_equal length Hseq) as Hlen.
  rewrite !length_fmap, length_seq in Hlen.
  pose proof (event_sequence_loop_complete s (btree_to_list (job_events_by_sequence s)) 1 ∅
    (job_events_by_id s) (job_events_by_sequence s) (next_event_sequence s) Hk Hl Hr) as Hloop.
  replace (set_ledger s _ _ _) with s in Hloop by (by destruct s).
  rewrite Hlen in Hloop. change (N.of_nat 1) with 1%N in Hloop. rewrite Hloop.
  - replace (saturating_sub (N.of_nat (1 + N.to_nat (next_event_sequence s))) 1)
      with (next_event_sequence s) by (unfold saturating_sub; lia).
    rewrite N.eqb_refl. simpl.
    replace (list_to_set _ ∪ ∅) with (dom (job_events_by_id s) : gset JobEventId).
    + by rewrite size_dom, Nat.eqb_refl.
    + apply set_eq. intros i. rewrite elem_of_union, elem_of_list_to_set, elem_of_dom, list_elem_of_fmap.
      split.
      * intros [e He]. left. destruct (lw_id _ Hl _ _ He) as [_ Hi].
        exists (evt_sequence_number e, i). split; [done|]. by apply elem_of_btree_to_list.
      * intros [([n i'] & -> & Hin%elem_of_btree_to_list)|?]; [|set_solver].
        destruct (lw_sequence _ Hl _ _ Hin) as (e & ? & _). by exists e.
  - done.
  - lia.
  - by apply sequence_values_nodup.
  - intros n i Hin%elem_of_btree_to_list. set_solver.
Qed.
End Reopen.

(** * Idempotency receipts stay valid

    A receipt is bound to the complete event chain of its job.  It stays valid
    as long as no event is appended for a job that has succeeded; then a
    snapshot of the store always loads again. *)

Section Receipts.
Context `{UuidLib} `{RegistryPort}.
Implicit Types s : InMemoryInner.

Lemma get_ref_mono {k V} (m m' : gmap (OpaqueId k) V) i c x v :
  m ⊆ m' → get_ref m i c x = Ok v → get_ref m' i c x = Ok v.
Proof. intros Hm Hi%get_ref_Ok. apply get_ref_Ok. by eapply lookup_weaken. Qed.

(** Walks over the successful look-ups of a check made in [s] and repeats them
    in [s']. *)
Ltac keep_refs Hle Hok :=
  repeat match type of Hok with
    | context [get_ref (?f ?s) ?i ?c ?x] =>
        let v := fresh "v" in let E := fresh "Hget" in
        destruct (get_ref (f s) i c x) as [v|] eqn:E; [|discriminate Hok];
        first [ rewrite (get_ref_mono _ _ i c x v (le_invocations _ _ Hle) E)
              | rewrite (get_ref_mono _ _ i c x v (le_results _ _ Hle) E)
              | rewrite (get_ref_mono _ _ i c x v (le_audits _ _ Hle) E)
              | rewrite (get_ref_mono _ _ i c x v (le_policies _ _ Hle) E)
              | rewrite (get_ref_mono _ _ i c x v (le_events _ _ Hle) E) ]
    end.

(** Whether an event belongs to a job never changes. *)
Lemma belongs_mono s s' i e b :
  store_le s s' → submit_job_receipt_event_belongs_to_job s i e = Ok b →
  submit_job_receipt_event_belongs_to_job s' i e = Ok b.
Proof.
  intros Hle. unfold submit_job_receipt_event_belongs_to_job.
  destruct (match ref_job_id _ with Some _ => _ | None => _ end); [done|].
  destruct (_ && _); [done|]. intros Hok.
  destruct (ref_tool_invocation_id (evt_refs e)) as [t|]; keep_refs Hle Hok;
    [destruct (bool_decide _); [done|]|];
  (destruct (ref_tool_result_id (evt_refs e)) as [x|]; keep_refs Hle Hok;
    [destruct (bool_decide _); [done|]|]);
  (destruct (ref_audit_record_id (evt_refs e)) as [a|]; [|done]);
  keep_refs Hle Hok; (destruct (aud_tool_invocation_id _); [|done]); by keep_refs Hle Hok.
Qed.

(** Stored events can always be classified. *)
Lemma belongs_total s i e :
  store_wf s → event_ok s e → ∃ b, submit_job_receipt_event_belongs_to_job s i e = Ok b.
Proof.
  intros Hwf (r & job & policy & [_ _ _ _ _ _ _ _ Hinv Hres Haud]).
  unfold submit_job_receipt_event_belongs_to_job, get_ref.
  destruct (match ref_job_id _ with Some _ => _ | None => _ end); [eauto|].
  destruct (_ && _); [eauto|].
  destruct (ref_tool_invocation_id (evt_refs e)) as [t|];
    [destruct (Hinv t eq_refl) as (_ & inv & -> & _); simpl; destruct (bool_decide _); [by eauto|]|];
  (destruct (ref_tool_result_id (evt_refs e)) as [x|];
    [destruct (Hres x eq_refl) as (_ & y & inv' & -> & Hy & _); simpl; rewrite Hy; simpl;
     destruct (bool_decide _); [by eauto|]|]);
  (destruct (ref_audit_record_id (evt_refs e)) as [a|]; [|by eauto]);
  destruct (Haud a eq_refl) as (_ & a' & -> & _ & _ & Ht); simpl;
  (destruct (aud_tool_invocation_id a') as [t'|]; [|by eauto]);
  destruct (Ht t' eq_refl) as (_ & (inv'' & -> & _) & _); simpl; eauto.
Qed.

(** ** The event chain *)

Lemma expected_events_app s i latest ids ids' found acc :
  expected_events_loop s i latest (ids ++ ids') found acc =
  let? '(found, acc) := expected_events_loop s i latest ids found acc in
  expected_events_loop s i latest ids' found acc.
Proof.
  revert found acc. induction ids as [|k ids IH]; intros found acc; [done|]. simpl.
  destruct (event_of_id s k) as [e|]; [|done].
  destruct (submit_job_receipt_event_belongs_to_job s i e) as [[]|]; [destruct found|..]; done.
Qed.

Lemma expected_events_skip s i latest ids found acc :
  (∀ k, k ∈ ids → ∃ e, job_events_by_id s !! k = Some e ∧
     submit_job_receipt_event_belongs_to_job s i e = Ok false) →
  expected_events_loop s i latest ids found acc = Ok (found, acc).
Proof.
  induction ids as [|k ids IH]; intros Hids; [done|]. simpl.
  destruct (Hids k) as (e & He & Hb); [by left|]. unfold event_of_id. rewrite He. simpl.
  rewrite Hb. apply IH. intros k' Hk'. apply Hids. by right.
Qed.

Lemma expected_events_mono s s' i latest ids found acc x :
  store_le s s' → expected_events_loop s i latest ids found acc = Ok x →
  expected_events_loop s' i latest ids found acc = Ok x.
Proof.
  intros Hle. revert found acc. induction ids as [|k ids IH]; intros found acc Hok; [done|].
  simpl in Hok |- *. step_ok Hok. apply ok_or_Ok in Hok0.
  unfold event_of_id. rewrite (lookup_weaken _ _ _ _ Hok0 (le_events _ _ Hle)). simpl.
  step_ok Hok. rewrite (belongs_mono _ _ _ _ _ Hle Hok1).
  destruct a0; [destruct found; [done|]|]; by apply IH.
Qed.

(** The sequence index grows at its end. *)
Lemma sequence_index_prefix s s' :
  ledger_wf s → ledger_wf s' → store_le s s' →
  btree_to_list (job_events_by_sequence s)
  = take (N.to_nat (next_event_sequence s)) (btree_to_list (job_events_by_sequence s')).
Proof.
  intros Hl Hl' Hle. pose proof (ledger_keys s Hl) as Hk. pose proof (ledger_keys s' Hl') as Hk'.
  pose proof (le_next _ _ Hle) as Hn.
  set (l := btree_to_list (job_events_by_sequence s)) in *.
  set (l' := btree_to_list (job_events_by_sequence s')) in *.
  assert (l.*1 = (take (N.to_nat (next_event_sequence s)) l').*1) as Hfst.
  { rewrite Hk, fmap_take, Hk', <- fmap_take, take_seq. do 2 f_equal. lia. }
  apply list_eq_same_length with (n := length l); [|done|].
  { apply (f_equal length) in Hfst. by rewrite !length_fmap in Hfst. }
  intros k [n i] [n' i'] _ Hx Hy. pose proof (f_equal (.!! k) Hfst) as Hkk.
  rewrite !list_lookup_fmap, Hx, Hy in Hkk. simpl in Hkk. injection Hkk as ->.
  apply list_elem_of_lookup_2, elem_of_btree_to_list in Hx.
  apply list_elem_of_lookup_2, elem_of_take in Hy as (k' & Hy & _).
  apply list_elem_of_lookup_2, elem_of_btree_to_list in Hy.
  pose proof (lookup_weaken _ _ _ _ Hx (le_sequence _ _ Hle)). by simplify_eq.
Qed.

(** An entry past the old end of the index names an event with a later number. *)
Lemma sequence_index_new s s' k :
  ledger_wf s → ledger_wf s' → store_le s s' →
  k ∈ (drop (N.to_nat (next_event_sequence s)) (btree_to_list (job_events_by_sequence s'))).*2 →
  ∃ e, job_events_by_id s' !! k = Some e ∧ (next_event_sequence s < evt_sequence_number e)%N.
Proof.
  intros Hl Hl' Hle ([n i] & -> & (j & Hj)%list_elem_of_lookup)%list_elem_of_fmap. simpl.
  rewrite lookup_drop in Hj. pose proof (ledger_keys s' Hl') as Hk.
  pose proof (f_equal (.!! (N.to_nat (next_event_sequence s) + j)%nat) Hk) as Hkk.
  rewrite !list_lookup_fmap, Hj in Hkk. simpl in Hkk. symmetry in Hkk.
  apply fmap_Some in Hkk as (m & [-> _]%lookup_seq & Hm).
  apply list_elem_of_lookup_2, elem_of_btree_to_list in Hj.
  destruct (lw_sequence _ Hl' _ _ Hj) as (e & He & Hs). exists e. split; [done|]. lia.
Qed.

Lemma event_chain_mono s s' receipt :
  store_wf s → store_wf s' → store_le s s' →
  (∀ k e, job_events_by_id s' !! k = Some e → (next_event_sequence s < evt_sequence_number e)%N →
     submit_job_receipt_event_belongs_to_job s' (job_id (rcp_job receipt)) e = Ok false) →
  validate_loaded_submit_job_receipt_event_chain s receipt = Ok tt →
  validate_loaded_submit_job_receipt_event_chain s' receipt = Ok tt.
Proof.
  intros Hwf Hwf' Hle Hnew. pose proof (sw_ledger _ Hwf) as Hl. pose proof (sw_ledger _ Hwf') as Hl'.
  unfold validate_loaded_submit_job_receipt_event_chain, expected_submit_job_receipt_events.
  intros Hok. step_ok Hok. step_ok Hok0. step_ok Hok0.
  unfold btree_values in *.
  rewrite <- (take_drop (N.to_nat (next_event_sequence s))
    (btree_to_list (job_events_by_sequence s'))), fmap_app, expected_events_app,
    <- (sequence_index_prefix s s') by done.
  rewrite (expected_events_mono _ _ _ _ _ _ _ _ Hle Hok2). destruct a1 as [found es].
  rewrite expected_events_skip; [|intros k Hk].
  - by do 2 step_ok Hok0; subst es.
  - destruct (sequence_index_new s s' k Hl Hl' Hle Hk) as (e & He & Hs). eauto.
Qed.

(** ** The whole receipt *)

Lemma receipt_lineage_mono s s' receipt :
  store_le s s' → validate_loaded_submit_job_receipt_lineage s receipt = Ok tt →
  validate_loaded_submit_job_receipt_lineage s' receipt = Ok tt.
Proof.
  intros Hle. unfold validate_loaded_submit_job_receipt_lineage. intros Hok.
  do 4 (step_ok Hok). repeat match goal with u : () |- _ => destruct u end.
  apply for_each_Ok. intros e He. pose proof (proj1 (for_each_Ok _ _) Hok e He) as Hb.
  unfold validate_submit_job_receipt_event_lineage in *. step_ok Hb.
  by rewrite (belongs_mono _ _ _ _ _ Hle Hok4).
Qed.

Lemma receipt_tool_records_mono s s' receipt :
  store_le s s' → validate_receipt_tool_records s receipt = Ok tt →
  validate_receipt_tool_records s' receipt = Ok tt.
Proof.
  intros Hle. unfold validate_receipt_tool_records.
  destruct (rcp_tool_invocation receipt), (rcp_tool_result receipt), (rcp_rendered_output receipt),
    (rcp_audit_record receipt); try done. intros Hok.
  keep_refs Hle Hok. step_ok Hok. keep_refs Hle Hok. step_ok Hok. by keep_refs Hle Hok.
Qed.

Lemma receipt_mono s s' key r :
  store_wf s → store_wf s' → store_le s s' →
  jobs s' !! job_id (rcp_job (idem_receipt r)) = jobs s !! job_id (rcp_job (idem_receipt r)) →
  (∀ k e, job_events_by_id s' !! k = Some e → (next_event_sequence s < evt_sequence_number e)%N →
     submit_job_receipt_event_belongs_to_job s' (job_id (rcp_job (idem_receipt r))) e = Ok false) →
  validate_submit_job_idempotency_record s key r = Ok tt →
  validate_submit_job_idempotency_record s' key r = Ok tt.
Proof.
  intros Hwf Hwf' Hle Hjob Hnew. unfold validate_submit_job_idempotency_record. intros Hok.
  do 3 step_ok Hok. unfold validate_loaded_submit_job_receipt in *.
  unfold get_ref in Hok at 1 |- * at 1. rewrite Hjob.
  step_ok Hok. step_ok Hok. keep_refs Hle Hok. do 2 step_ok Hok. do 2 step_ok Hok. step_ok Hok.
  do 3 step_ok Hok. repeat match goal with u : () |- _ => destruct u end.
  rewrite (receipt_lineage_mono _ _ _ Hle Hok2), (receipt_tool_records_mono _ _ _ Hle Hok3).
  rewrite (event_chain_mono s s' _ Hwf Hwf' Hle Hnew Hok5).
  rewrite (proj2 (for_each_Ok _ _)); [done|]. intros e He.
  pose proof (proj1 (for_each_Ok _ _) Hok6 e He) as Hs. unfold validate_receipt_stored_event in *.
  by keep_refs Hle Hs.
Qed.

(** The job of a valid receipt has succeeded. *)
Lemma receipt_job_succeeded s key r :
  validate_submit_job_idempotency_record s key r = Ok tt →
  ∃ j, jobs s !! job_id (rcp_job (idem_receipt r)) = Some j ∧ job_status j = Succeeded.
Proof.
  unfold validate_submit_job_idempotency_record, validate_loaded_submit_job_receipt. intros Hok.
  do 5 step_ok Hok. apply get_ref_Ok in Hok0. apply negb_false_iff, bool_decide_eq_true in Hg1.
  exists a. split; [done|]. unfold validate_loaded_submit_job_receipt_job in Hok1.
  do 5 step_ok Hok1. apply negb_false_iff, bool_decide_eq_true in Hg3. by rewrite <- Hg3 in Hg1.
Qed.

(** ** Transactions *)

(** A job changes only with an event that names it. *)
Lemma ledger_step_job_event s s' i j :
  ledger_step s s' → jobs s !! i = Some j →
  jobs s' !! i = Some j ∨
  ∃ e, job_events_by_id s' !! evt_id e = Some e ∧ ref_job_id (evt_refs e) = Some i ∧
    (next_event_sequence s < evt_sequence_number e)%N.
Proof.
  intros Hstep Hj. destruct Hstep; simpl; auto.
  destruct (decide (job_id j0 = i)) as [<-|Hne]; [right|left; by rewrite lookup_insert_ne].
  exists (evt_set_sequence e (next_event_sequence s + 1)). simpl. rewrite lookup_insert_eq.
  split_and!; [done..|lia].
Qed.

Lemma job_unchanged s s' i j :
  store_wf s → rtc ledger_step s s' → jobs s !! i = Some j →
  (∀ k e, job_events_by_id s' !! k = Some e → (next_event_sequence s < evt_sequence_number e)%N →
     ref_job_id (evt_refs e) ≠ Some i) →
  jobs s' !! i = Some j.
Proof.
  intros Hwf Hsteps. revert Hwf. induction Hsteps as [s|s s1 s' Hstep Hsteps IH]; [done|].
  intros Hwf Hj Hnew. pose proof (ledger_step_wf _ _ Hwf Hstep) as Hwf1.
  pose proof (ledger_step_le _ _ (sw_ledger _ Hwf) Hstep) as Hle.
  pose proof (ledger_steps_le _ _ Hwf1 Hsteps) as Hle1.
  destruct (ledger_step_job_event _ _ _ _ Hstep Hj) as [Hj1|(e & He & Hr & Hs)].
  - apply IH; try done. intros k e He Hs. apply (Hnew k e He). pose proof (le_next _ _ Hle). lia.
  - by destruct (Hnew (evt_id e) e (lookup_weaken _ _ _ _ He (le_events _ _ Hle1)) Hs).
Qed.

(** The events with a new number are the ones the transaction published. *)
Lemma new_events_published s s' es k e :
  ledger_wf s' → ledger_extends s s' es →
  job_events_by_id s' !! k = Some e → (next_event_sequence s < evt_sequence_number e)%N → e ∈ es.
Proof.
  intros Hl [Hn _ Hnew] He Hs. destruct (lw_id _ Hl _ _ He) as [<- Hseq].
  pose proof (proj1 (lw_range _ Hl _) (mk_is_Some _ _ Hseq)) as Hr.
  destruct (lookup_lt_is_Some_2 es (N.to_nat (evt_sequence_number e - next_event_sequence s - 1)))
    as [e' Hk]; [lia|].
  destruct (Hnew _ _ Hk) as (Hs' & _ & He'). destruct (lw_id _ Hl _ _ He') as [_ Hseq'].
  replace (evt_sequence_number e') with (evt_sequence_number e) in Hseq' by lia.
  rewrite Hseq in Hseq'. injection Hseq' as Heq. rewrite <- Heq in He'.
  rewrite He in He'. injection He' as ->. by eapply list_elem_of_lookup_2.
Qed.

Definition receipts_valid s : Prop := ∀ key r,
  idempotent_submit_jobs s !! key = Some r → validate_submit_job_idempotency_record s key r = Ok tt.

(** Validation does not look at the other receipts. *)
Lemma expected_events_receipts s m i latest ids found acc :
  expected_events_loop (set_idempotent_submit_jobs s m) i latest ids found acc
  = expected_events_loop s i latest ids found acc.
Proof.
  revert found acc. induction ids as [|k ids IH]; intros found acc; [done|].
  cbn [expected_events_loop].
  change (event_of_id (set_idempotent_submit_jobs s m) k) with (event_of_id s k).
  destruct (event_of_id s k) as [e|]; [|done].
  change (submit_job_receipt_event_belongs_to_job (set_idempotent_submit_jobs s m) i e)
    with (submit_job_receipt_event_belongs_to_job s i e).
  destruct (submit_job_receipt_event_belongs_to_job s i e) as [[]|]; [destruct found|..];
    done || apply IH.
Qed.

Lemma validate_receipt_receipts s m key r :
  validate_submit_job_idempotency_record (set_idempotent_submit_jobs s m) key r
  = validate_submit_job_idempotency_record s key r.
Proof.
  unfold validate_submit_job_idempotency_record, validate_loaded_submit_job_receipt,
    validate_loaded_submit_job_receipt_event_chain, expected_submit_job_receipt_events.
  destruct (job_latest_event_id (rcp_job (idem_receipt r))) as [l|]; [|done]. cbn [ok_or].
  by rewrite expected_events_receipts.
Qed.

Lemma insert_receipt_new s key r s' key' r' :
  insert_submit_job_idempotency_locked s key r = Ok s' →
  idempotent_submit_jobs s' !! key' = Some r' →
  idempotent_submit_jobs s !! key' = Some r' ∨
  validate_submit_job_idempotency_record s' key' r' = Ok tt.
Proof.
  unfold insert_submit_job_idempotency_locked. intros Hok. step_ok Hok. destruct a.
  destruct (idempotent_submit_jobs s !! key) eqn:Hkey.
  - step_ok Hok. injection Hok as <-. auto.
  - injection Hok as <-. simpl. rewrite lookup_insert_Some. intros [[<- <-]|[_ ?]]; [right|by left].
    by rewrite validate_receipt_receipts.
Qed.

Ltac solve_same_receipts Hop :=
  repeat first
    [ step_ok Hop
    | match type of Hop with match ?x with _ => _ end = Ok _ => destruct x; try discriminate Hop end ];
  simplify_eq;
  repeat match goal with Hx : append_event_locked _ _ = Ok _ |- _ =>
    apply append_event_locked_Ok in Hx as (_ & -> & ->) end;
  by left.

(** A transaction keeps the receipts and adds only valid ones. *)
Lemma exec_op_receipts op s s' es key r :
  exec_op op s = Ok (s', es) → idempotent_submit_jobs s' !! key = Some r →
  idempotent_submit_jobs s !! key = Some r ∨
  validate_submit_job_idempotency_record s' key r = Ok tt.
Proof.
  intros Hop Hr. destruct op; cbn [exec_op] in Hop;
    first [apply quiet_Ok in Hop as [[v Hop] _]|apply publishing_Ok in Hop as [v Hop]].
  - unfold create_repository in Hop. solve_same_receipts Hop.
  - unfold create_job_with_initial_event in Hop. solve_same_receipts Hop.
  - unfold append_job_event in Hop. solve_same_receipts Hop.
  - unfold append_job_event_and_update_job in Hop. solve_same_receipts Hop.
  - unfold append_job_event_and_update_job_with_submit_job_idempotency in Hop.
    do 5 step_ok Hop. simplify_eq. apply append_event_locked_Ok in Hok1 as (_ & -> & ->).
    by eapply insert_receipt_new in Hok2.
  - unfold append_job_events_and_update_job in Hop. solve_same_receipts Hop.
  - unfold create_policy_decision in Hop. solve_same_receipts Hop.
  - unfold create_lock_decision in Hop. solve_same_receipts Hop.
  - unfold create_schema_migration in Hop. solve_same_receipts Hop.
  - unfold acquire_schema_migration_lock in Hop. solve_same_receipts Hop.
  - unfold get_schema_migration_lock in Hop. solve_same_receipts Hop.
  - unfold release_schema_migration_lock in Hop. solve_same_receipts Hop.
  - unfold create_tool_invocation in Hop. solve_same_receipts Hop.
  - unfold create_tool_result in Hop. solve_same_receipts Hop.
  - unfold create_audit_record in Hop. solve_same_receipts Hop.
  - unfold record_submit_job_idempotency in Hop. do 2 step_ok Hop. simplify_eq.
    by eapply insert_receipt_new in Hok.
  - unfold record_tool_result_and_audit_with_events in Hop. do 5 step_ok Hop. simplify_eq.
    apply commit_result_and_audit_Ok in Hok1 as (_ & _ & _ & -> & _). by left.
  - unfold record_tool_result_audit_terminal_with_submit_job_idempotency in Hop.
    destruct q as [j x re a ae te oid]; simpl in Hop. do 13 step_ok Hop. simplify_eq.
    repeat match goal with u : () |- _ => destruct u end.
    apply append_event_locked_Ok in Hok7 as (_ & -> & ->).
    apply commit_result_and_audit_Ok in Hok6 as (_ & _ & _ & -> & _).
    destruct oid as [[key' r']|]; [by eapply insert_receipt_new in Hok8|].
    simplify_eq. by left.
  - unfold set_extension_registry_snapshot in Hop. solve_same_receipts Hop.
Qed.

(** No event of the transaction belongs to a job that had succeeded. *)
Definition spares_succeeded s s' (es : list JobEvent) : Prop := ∀ e i j,
  e ∈ es → jobs s !! i = Some j → job_status j = Succeeded →
  submit_job_receipt_event_belongs_to_job s' i e ≠ Ok true.

Lemma spared_receipts_stay_valid op s s' es :
  store_wf s → exec_op op s = Ok (s', es) → receipts_valid s → spares_succeeded s s' es →
  receipts_valid s'.
Proof.
  intros Hwf Hop Hvalid Hspare key r Hr.
  destruct (exec_op_receipts _ _ _ _ _ _ Hop Hr) as [Hr0|?]; [|done].
  pose proof (exec_op_refines _ _ _ _ Hwf Hop) as Hsteps.
  pose proof (ledger_steps_wf _ _ Hwf Hsteps) as Hwf'.
  pose proof (Hvalid _ _ Hr0) as Hv.
  destruct (receipt_job_succeeded _ _ _ Hv) as (j & Hj & Hsucc).
  assert (∀ k e, job_events_by_id s' !! k = Some e →
    (next_event_sequence s < evt_sequence_number e)%N →
    submit_job_receipt_event_belongs_to_job s' (job_id (rcp_job (idem_receipt r))) e = Ok false)
    as Hnew.
  { intros k e He Hs.
    pose proof (new_events_published _ _ _ _ _ (sw_ledger _ Hwf') (exec_op_extends _ _ _ _ Hop) He Hs)
      as Hin.
    destruct (belongs_total s' (job_id (rcp_job (idem_receipt r))) e Hwf'
      (rw_events _ (sw_refs _ Hwf') _ _ He)) as [[] Hb]; [|done].
    by destruct (Hspare e _ j Hin Hj Hsucc). }
  apply (receipt_mono s); try done; [by eauto using ledger_steps_le|].
  rewrite Hj. apply (job_unchanged s); try done. intros k e He Hs Href.
  specialize (Hnew k e He Hs). unfold submit_job_receipt_event_belongs_to_job in Hnew.
  rewrite Href, bool_decide_eq_true_2 in Hnew by done. done.
Qed.
End Receipts.
