(* ===== verification/Manifest.v ===== *)
(** * Manifest: extension manifests ([crates/atelia-core/src/extensions.rs], data)

    The manifest of an extension, the policy it is validated against and the
    errors of the validation.  A [BTreeMap] is a [gmap]; its loops visit it in
    key order.  Constructors of Rust enums keep their names, with a suffix where
    another enum of the program has the same name. *)
From S2P Require Import Prelude Text Domain StoreTypes.

Definition EXTENSION_MANIFEST_SCHEMA : string := "atelia.extension.v1".
Definition EXTENSION_RPC_PROTOCOL : string := "atelia-extension-rpc.v1".
Definition EXTENSION_REGISTRY_AUDIT_SCHEMA_VERSION : N := 1.
Definition OFFICIAL_OBSERVATIONAL_MEMORY_PACKAGE_ID : string := "ai.atelia.observational-memory".

(** ** Enumerations *)

Inductive ExtensionKind :=
  | ToolKind | ServiceKind | HookProvider | WebhookReceiver | ToolOutputCustomizer | Workflow
  | Notification | ApprovalAgent | Review | ReviewAgent | AgentProvider | DelegatedAgent
  | MemoryProvider | MemoryStrategy | Integration | Presentation.
Inductive ExtensionRealm := BackendRealm | ClientRealm.
Inductive ExtensionRuntime := WasmRust | Wasm | Docker | ProcessRuntime | Remote | SwiftClient.
Inductive DegradeBehavior := DisableExtension | DisableFeature | ReturnUnavailable | RequireHuman.
Inductive RetryPolicy := NoRetry | Bounded.
Inductive ExtensionLineageRelationship := Remix | Fork | Derived.
Inductive ExtensionPublicationVisibility :=
  | PrivateRemix | UnlistedShare | PublicSearchable | OfficialVisibility.
Inductive ExtensionRegistrySubmission :=
  | NotSubmitted | AwaitingSubmission | Submitted | Accepted | Rejected.
Inductive ProvenanceSource := Github | RegistrySource | LocalSource.
Inductive ExtensionBoundary := OfficialBoundary | ThirdParty | LocalDevelopment.

#[export] Instance ExtensionKind_eq_dec : EqDecision ExtensionKind.
Proof. solve_decision. Defined.
#[export] Instance ExtensionRealm_eq_dec : EqDecision ExtensionRealm.
Proof. solve_decision. Defined.
#[export] Instance ExtensionRuntime_eq_dec : EqDecision ExtensionRuntime.
Proof. solve_decision. Defined.
#[export] Instance DegradeBehavior_eq_dec : EqDecision DegradeBehavior.
Proof. solve_decision. Defined.
#[export] Instance RetryPolicy_eq_dec : EqDecision RetryPolicy.
Proof. solve_decision. Defined.
#[export] Instance ExtensionLineageRelationship_eq_dec : EqDecision ExtensionLineageRelationship.
Proof. solve_decision. Defined.
#[export] Instance ExtensionPublicationVisibility_eq_dec :
  EqDecision ExtensionPublicationVisibility.
Proof. solve_decision. Defined.
#[export] Instance ExtensionRegistrySubmission_eq_dec : EqDecision ExtensionRegistrySubmission.
Proof. solve_decision. Defined.
#[export] Instance ProvenanceSource_eq_dec : EqDecision ProvenanceSource.
Proof. solve_decision. Defined.
#[export] Instance ExtensionBoundary_eq_dec : EqDecision ExtensionBoundary.
Proof. solve_decision. Defined.

(** ** Parts of a manifest *)

Record ExtensionPublisher := { publisher_name : string; publisher_url : option string }.

Record ExtensionCompatibility := {
  compat_atelia_protocol : string;
  compat_atelia_secretary : string
}.

Record ExtensionEntrypoints := {
  ep_realm : ExtensionRealm;
  ep_runtime : ExtensionRuntime;
  ep_command : option string;
  ep_image : option string;
  ep_wasm : option string;
  ep_protocol : string
}.

Record ExtensionPermission := { perm_description : string; perm_risk_tier : option string }.

Record ExtensionToolDefinition := {
  tool_def_id : string;
  tool_def_permissions : list string;
  tool_def_permissions_required : list string
}.

Record ExtensionServiceDefinition := {
  sdef_service : string;
  sdef_method : string;
  sdef_schema_version : string;
  sdef_required_permission : string
}.

Record ExtensionServiceDependency := {
  sdep_extension_id : string;
  sdep_service : string;
  sdep_method : string;
  sdep_schema_version : string;
  sdep_required_permission : string
}.

Record ExtensionServices := {
  svc_provides : list ExtensionServiceDefinition;
  svc_consumes : list ExtensionServiceDependency
}.

Record ExtensionToolOutputDefinition := {
  tod_tool_id : string;
  tod_format : option string;
  tod_verbosity : option string;
  tod_language_mode : option string;
  tod_fields : list string;
  tod_redactions : list string;
  tod_include_policy : option bool;
  tod_include_cost : option bool;
  tod_include_diagnostics : option bool
}.

Record ExtensionHookDefinition := {
  hook_id : string;
  hook_trigger : option string;
  hook_verification : option string;
  hook_required_capabilities : list string;
  hook_action : option string;
  hook_status : option string
}.

Record ExtensionWebhookDefinition := {
  webhook_id : string;
  webhook_source : option string;
  webhook_event : option string;
  webhook_endpoint : option string;
  webhook_verification : option string;
  webhook_required_capabilities : list string;
  webhook_status : option string
}.

Record ExtensionCompositionAttachment := {
  attach_extension_id : string;
  attach_required : option bool
}.
Record ExtensionComposition := { comp_attachments : list ExtensionCompositionAttachment }.
Record ExtensionMigration := { mig_from : list string; mig_notes : option string }.
Record ExtensionFailure := { fail_degrade : DegradeBehavior; fail_retry_policy : RetryPolicy }.
Record ExtensionBundleMembership := { bundle_id : string; bundle_required : bool }.

Record ExtensionLineage := {
  lin_parent_id : string;
  lin_parent_version : option string;
  lin_parent_manifest_digest : option string;
  lin_relationship : ExtensionLineageRelationship
}.

Record ExtensionPublication := {
  pub_visibility : ExtensionPublicationVisibility;
  pub_registry_submission : ExtensionRegistrySubmission
}.

Record ExtensionProvenance := {
  prov_source : ProvenanceSource;
  prov_repository : option string;
  prov_source_ref : option string;
  prov_manifest_path : option string;
  prov_commit : option string;
  prov_registry_identity : option string;
  prov_lineage : option ExtensionLineage;
  prov_publication : option ExtensionPublication;
  prov_artifact_digest : string;
  prov_manifest_digest : string;
  prov_signature : option string;
  prov_signer : option string
}.

Record ExtensionManifest := {
  man_schema : string;
  man_id : string;
  man_name : string;
  man_version : string;
  man_publisher : ExtensionPublisher;
  man_description : string;
  man_types : list ExtensionKind;
  man_compatibility : ExtensionCompatibility;
  man_entrypoints : ExtensionEntrypoints;
  man_permissions : gmap string ExtensionPermission;
  man_tools : list ExtensionToolDefinition;
  man_services : ExtensionServices;
  man_tool_output : list ExtensionToolOutputDefinition;
  man_hooks : list ExtensionHookDefinition;
  man_webhooks : list ExtensionWebhookDefinition;
  man_composition : ExtensionComposition;
  man_failure : ExtensionFailure;
  man_provenance : ExtensionProvenance;
  man_bundle : option ExtensionBundleMembership;
  man_migration : ExtensionMigration
}.

#[export] Instance ExtensionPublisher_eq_dec : EqDecision ExtensionPublisher.
Proof. solve_decision. Defined.
#[export] Instance ExtensionCompatibility_eq_dec : EqDecision ExtensionCompatibility.
Proof. solve_decision. Defined.
#[export] Instance ExtensionEntrypoints_eq_dec : EqDecision ExtensionEntrypoints.
Proof. solve_decision. Defined.
#[export] Instance ExtensionPermission_eq_dec : EqDecision ExtensionPermission.
Proof. solve_decision. Defined.
#[export] Instance ExtensionToolDefinition_eq_dec : EqDecision ExtensionToolDefinition.
Proof. solve_decision. Defined.
#[export] Instance ExtensionServiceDefinition_eq_dec : EqDecision ExtensionServiceDefinition.
Proof. solve_decision. Defined.
#[export] Instance ExtensionServiceDependency_eq_dec : EqDecision ExtensionServiceDependency.
Proof. solve_decision. Defined.
#[export] Instance ExtensionServices_eq_dec : EqDecision ExtensionServices.
Proof. solve_decision. Defined.
#[export] Instance ExtensionToolOutputDefinition_eq_dec : EqDecision ExtensionToolOutputDefinition.
Proof. solve_decision. Defined.
#[export] Instance ExtensionHookDefinition_eq_dec : EqDecision ExtensionHookDefinition.
Proof. solve_decision. Defined.
#[export] Instance ExtensionWebhookDefinition_eq_dec : EqDecision ExtensionWebhookDefinition.
Proof. solve_decision. Defined.
#[export] Instance ExtensionCompositionAttachment_eq_dec :
  EqDecision ExtensionCompositionAttachment.
Proof. solve_decision. Defined.
#[export] Instance ExtensionComposition_eq_dec : EqDecision ExtensionComposition.
Proof. solve_decision. Defined.
#[export] Instance ExtensionMigration_eq_dec : EqDecision ExtensionMigration.
Proof. solve_decision. Defined.
#[export] Instance ExtensionFailure_eq_dec : EqDecision ExtensionFailure.
Proof. solve_decision. Defined.
#[export] Instance ExtensionBundleMembership_eq_dec : EqDecision ExtensionBundleMembership.
Proof. solve_decision. Defined.
#[export] Instance ExtensionLineage_eq_dec : EqDecision ExtensionLineage.
Proof. solve_decision. Defined.
#[export] Instance ExtensionPublication_eq_dec : EqDecision ExtensionPublication.
Proof. solve_decision. Defined.
#[export] Instance ExtensionProvenance_eq_dec : EqDecision ExtensionProvenance.
Proof. solve_decision. Defined.
#[export] Instance ExtensionManifest_eq_dec : EqDecision ExtensionManifest.
Proof. solve_decision. Defined.

(** Assignments to fields of a manifest. *)
Definition prov_set_publication (p : ExtensionProvenance) (x : option ExtensionPublication)
  : ExtensionProvenance := {|
  prov_source := prov_source p; prov_repository := prov_repository p;
  prov_source_ref := prov_source_ref p; prov_manifest_path := prov_manifest_path p;
  prov_commit := prov_commit p; prov_registry_identity := prov_registry_identity p;
  prov_lineage := prov_lineage p; prov_publication := x;
  prov_artifact_digest := prov_artifact_digest p; prov_manifest_digest := prov_manifest_digest p;
  prov_signature := prov_signature p; prov_signer := prov_signer p |}.
Definition prov_set_registry_identity (p : ExtensionProvenance) (x : option string)
  : ExtensionProvenance := {|
  prov_source := prov_source p; prov_repository := prov_repository p;
  prov_source_ref := prov_source_ref p; prov_manifest_path := prov_manifest_path p;
  prov_commit := prov_commit p; prov_registry_identity := x;
  prov_lineage := prov_lineage p; prov_publication := prov_publication p;
  prov_artifact_digest := prov_artifact_digest p; prov_manifest_digest := prov_manifest_digest p;
  prov_signature := prov_signature p; prov_signer := prov_signer p |}.
Definition man_set_provenance (m : ExtensionManifest) (p : ExtensionProvenance)
  : ExtensionManifest := {|
  man_schema := man_schema m; man_id := man_id m; man_name := man_name m;
  man_version := man_version m; man_publisher := man_publisher m;
  man_description := man_description m; man_types := man_types m;
  man_compatibility := man_compatibility m; man_entrypoints := man_entrypoints m;
  man_permissions := man_permissions m; man_tools := man_tools m;
  man_services := man_services m; man_tool_output := man_tool_output m; man_hooks := man_hooks m;
  man_webhooks := man_webhooks m; man_composition := man_composition m;
  man_failure := man_failure m; man_provenance := p; man_bundle := man_bundle m;
  man_migration := man_migration m |}.
Definition man_set_publication (m : ExtensionManifest) (x : option ExtensionPublication) :=
  man_set_provenance m (prov_set_publication (man_provenance m) x).
Definition man_set_registry_identity (m : ExtensionManifest) (x : option string) :=
  man_set_provenance m (prov_set_registry_identity (man_provenance m) x).

Record ValidatedExtensionManifest := {
  validated_manifest : ExtensionManifest;
  validated_boundary : ExtensionBoundary
}.

(** ** The policy *)

Record ManifestValidationPolicy := {
  allow_local_unsigned : bool;
  allow_local_process_runtime : bool;
  official_id_prefix : string;
  local_id_prefix : string;
  official_registry_identity : string
}.
#[export] Instance ManifestValidationPolicy_eq_dec : EqDecision ManifestValidationPolicy.
Proof. solve_decision. Defined.

Definition set_allow_local_unsigned (p : ManifestValidationPolicy) (b : bool)
  : ManifestValidationPolicy := {|
  allow_local_unsigned := b; allow_local_process_runtime := allow_local_process_runtime p;
  official_id_prefix := official_id_prefix p; local_id_prefix := local_id_prefix p;
  official_registry_identity := official_registry_identity p |}.
Definition set_allow_local_process_runtime (p : ManifestValidationPolicy) (b : bool)
  : ManifestValidationPolicy := {|
  allow_local_unsigned := allow_local_unsigned p; allow_local_process_runtime := b;
  official_id_prefix := official_id_prefix p; local_id_prefix := local_id_prefix p;
  official_registry_identity := official_registry_identity p |}.
Definition with_local_unsigned (p : ManifestValidationPolicy) : ManifestValidationPolicy :=
  set_allow_local_unsigned p true.
Definition with_local_process_runtime (p : ManifestValidationPolicy) : ManifestValidationPolicy :=
  set_allow_local_process_runtime p true.

Definition validation_policy_default : ManifestValidationPolicy := {|
  allow_local_unsigned := false; allow_local_process_runtime := false;
  official_id_prefix := "ai.atelia."; local_id_prefix := "local.";
  official_registry_identity := "atelia-official" |}.

(** ** Errors *)

Inductive ExtensionValidationError :=
  | InvalidSchema (expected found : string)
  | MissingField (field : string)
  | InvalidField (field : string) (reason : Message)
  | UnsupportedRuntime (runtime : ExtensionRuntime) (reason : Message)
  | ProvenanceRequired (field : string) (reason : Message)
  | BoundaryViolation (reason : Message)
  | DuplicateServiceDeclaration (service method schema_version : string)
  | MissingServicePermission (service method permission : string)
  | MissingToolPermission (tool permission : string)
  | DuplicateToolDeclaration (tool : string)
  | DuplicateToolOutputDeclaration (tool_id : string)
  | DuplicateHookDeclaration (hook : string)
  | DuplicateWebhookDeclaration (webhook : string).

Abbreviation ExtensionValidationResult := (result ExtensionValidationError).

(** [{:?}] of field-less enums. *)
Definition runtime_debug (r : ExtensionRuntime) : string :=
  match r with
  | WasmRust => "WasmRust" | Wasm => "Wasm" | Docker => "Docker" | ProcessRuntime => "Process"
  | Remote => "Remote" | SwiftClient => "SwiftClient"
  end.
Definition boundary_debug (b : ExtensionBoundary) : string :=
  match b with
  | OfficialBoundary => "Official" | ThirdParty => "ThirdParty"
  | LocalDevelopment => "LocalDevelopment"
  end.

(** [Display] of the error. *)
Definition validation_error_display (e : ExtensionValidationError) : Message :=
  match e with
  | InvalidSchema expected found =>
      Fmt "extension manifest schema must be {expected}, found {found}" [AStr expected; AStr found]
  | MissingField field => Fmt "extension manifest field {field} is required" [AStr field]
  | InvalidField field reason =>
      Fmt "extension manifest field {field} is invalid: {reason}" [AStr field; AMsg reason]
  | UnsupportedRuntime runtime reason =>
      Fmt "extension runtime {runtime:?} is not supported: {reason}"
        [AStr (runtime_debug runtime); AMsg reason]
  | ProvenanceRequired field reason =>
      Fmt "extension provenance field {field} is required: {reason}" [AStr field; AMsg reason]
  | BoundaryViolation reason => Fmt "extension boundary violation: {reason}" [AMsg reason]
  | DuplicateServiceDeclaration service method schema_version =>
      Fmt "duplicate service declaration {service}.{method} schema {schema_version}"
        [AStr service; AStr method; AStr schema_version]
  | MissingServicePermission service method permission =>
      Fmt "service {service}.{method} requires undeclared permission {permission}"
        [AStr service; AStr method; AStr permission]
  | MissingToolPermission tool permission =>
      Fmt "tool {tool} requires undeclared permission {permission}" [AStr tool; AStr permission]
  | DuplicateToolDeclaration tool => Fmt "duplicate tool declaration {tool}" [AStr tool]
  | DuplicateToolOutputDeclaration tool_id =>
      Fmt "duplicate tool output declaration {tool_id}" [AStr tool_id]
  | DuplicateHookDeclaration hook => Fmt "duplicate hook declaration {hook_id}" [AStr hook]
  | DuplicateWebhookDeclaration webhook =>
      Fmt "duplicate webhook declaration {webhook_id}" [AStr webhook]
  end.

(** ** The built-in manifest *)

Definition repeat_char (c : ascii) (n : nat) : string := of_bytes (replicate n c).

Definition official_observational_memory_manifest : ExtensionManifest := {|
  man_schema := EXTENSION_MANIFEST_SCHEMA;
  man_id := OFFICIAL_OBSERVATIONAL_MEMORY_PACKAGE_ID;
  man_name := "Observational Memory";
  man_version := "1.0.0";
  man_publisher := {| publisher_name := "Atelia Labs"; publisher_url := None |};
  man_description := "Foundation fixture for the default memory strategy contract; not installable until artifact verification exists.";
  man_types := [MemoryStrategy];
  man_compatibility := {| compat_atelia_protocol := ">=0.1 <0.3";
                          compat_atelia_secretary := ">=0.1 <0.2" |};
  man_entrypoints := {| ep_realm := BackendRealm; ep_runtime := WasmRust; ep_command := None;
                        ep_image := None; ep_wasm := None; ep_protocol := EXTENSION_RPC_PROTOCOL |};
  man_permissions := ∅;
  man_tools := [];
  man_services := {| svc_provides := []; svc_consumes := [] |};
  man_tool_output := [];
  man_hooks := [];
  man_webhooks := [];
  man_composition := {| comp_attachments := [] |};
  man_failure := {| fail_degrade := ReturnUnavailable; fail_retry_policy := NoRetry |};
  man_provenance := {|
    prov_source := RegistrySource; prov_repository := None; prov_source_ref := None;
    prov_manifest_path := None; prov_commit := None;
    prov_registry_identity := Some "atelia-official"; prov_lineage := None;
    prov_publication := Some {| pub_visibility := OfficialVisibility;
                                pub_registry_submission := AwaitingSubmission |};
    prov_artifact_digest := "sha256:" +:+ repeat_char "a" 64;
    prov_manifest_digest := "sha256:" +:+ repeat_char "b" 64;
    prov_signature := Some "official-signature"; prov_signer := Some "atelia-official" |};
  man_bundle := None;
  man_migration := {| mig_from := []; mig_notes := None |} |}%string.

Definition manifest_default : ExtensionManifest := {|
  man_schema := ""; man_id := ""; man_name := ""; man_version := "";
  man_publisher := {| publisher_name := ""; publisher_url := None |};
  man_description := "";
  man_types := [];
  man_compatibility := {| compat_atelia_protocol := ""; compat_atelia_secretary := "" |};
  man_entrypoints := {| ep_realm := BackendRealm; ep_runtime := WasmRust; ep_command := None;
                        ep_image := None; ep_wasm := None; ep_protocol := "" |};
  man_permissions := ∅;
  man_tools := [];
  man_services := {| svc_provides := []; svc_consumes := [] |};
  man_tool_output := [];
  man_hooks := [];
  man_webhooks := [];
  man_composition := {| comp_attachments := [] |};
  man_failure := {| fail_degrade := ReturnUnavailable; fail_retry_policy := NoRetry |};
  man_provenance := {|
    prov_source := LocalSource; prov_repository := None; prov_source_ref := None;
    prov_manifest_path := None; prov_commit := None; prov_registry_identity := None;
    prov_lineage := None; prov_publication := None; prov_artifact_digest := "";
    prov_manifest_digest := ""; prov_signature := None; prov_signer := None |};
  man_bundle := None;
  man_migration := {| mig_from := []; mig_notes := None |} |}%string.
