(* ===== verification/ManifestCheck.v ===== *)
(** * ManifestCheck: validation of extension manifests ([extensions.rs])

    One function per validation function of the source, in the order of its
    checks; the first check that fails decides the error. *)
From S2P Require Import Prelude Text Domain StoreTypes Manifest.

(** ** Loops that collect what they have seen *)

(** A [for] loop that updates a variable and may return early. *)
Fixpoint for_each_from {E S A} (body : S → A → result E S) (st : S) (l : list A) : result E S :=
  match l with
  | [] => Ok st
  | x :: l => let? st := body st x in for_each_from body st l
  end.

(** [if !seen.insert(x) { return Err(e) }] on a [BTreeSet]. *)
Definition insert_new {E} (seen : gset string) (x : string) (e : E) : result E (gset string) :=
  reject? bool_decide (x ∈ seen) with e in Ok ({[x]} ∪ seen).

(** The elements of a [BTreeSet] in order. *)
Definition str_le_rel (a b : string) : Prop := str_le a b = true.
#[export] Instance str_le_rel_dec a b : Decision (str_le_rel a b).
Proof. unfold str_le_rel. apply _. Defined.
Definition btree_set_to_list (X : gset string) : list string := merge_sort str_le_rel (elements X).

Definition map_has {V} (m : gmap string V) (k : string) : bool := is_some (m !! k).

(** ** Single values *)

Definition require_non_empty (field value : string) : ExtensionValidationResult unit :=
  if is_blank value then Err (MissingField field) else Ok tt.

Definition require_trimmed_non_empty (field value : string) : ExtensionValidationResult unit :=
  let? _ := require_non_empty field value in
  reject? negb (str_eqb (trim value) value)
    with InvalidField field (msg "must not contain surrounding whitespace") in
  Ok tt.

Definition has_non_empty_trimmed (value : option string) : bool :=
  negb (is_blank (default ""%string value)).

Definition hyphen : ascii := "-".

Definition reverse_dns_segment (segment : string) : bool :=
  negb (str_is_empty segment)
  && all_chars (λ ch, is_ascii_lowercase ch || is_ascii_digit ch || bool_decide (ch = hyphen)) segment
  && match segment with String ch _ => is_ascii_lowercase ch | EmptyString => false end.

Definition require_reverse_dns_id (field value : string) : ExtensionValidationResult unit :=
  reject? starts_with_char dot value || ends_with_char dot value || negb (contains_char dot value)
    with InvalidField field (msg "must use a reverse-DNS-like dotted namespace") in
  for_each (λ segment,
    reject? negb (reverse_dns_segment segment)
      with InvalidField field (msg "segments must start with a lowercase ascii letter and contain lowercase ascii, digits, or hyphen") in
    Ok tt) (split_at [dot] value).

Definition require_semver (field value : string) : ExtensionValidationResult unit :=
  let parts := split_at [dot] value in
  reject? negb (length parts =? 3)%nat
          || existsb (λ part, str_is_empty part || any_char (λ ch, negb (is_ascii_digit ch)) part) parts
    with InvalidField field (msg "must be major.minor.patch numeric semver") in
  Ok tt.

Definition require_digest (field value : string) : ExtensionValidationResult unit :=
  match strip_prefix "sha256:" value with
  | None => Err (InvalidField field (msg "must start with sha256:"))
  | Some hex =>
      reject? negb (str_len hex =? 64)%N || any_char (λ ch, negb (is_ascii_hexdigit ch)) hex
        with InvalidField field (msg "must contain 64 hex characters after sha256:") in
      Ok tt
  end.

(** [if value.chars().any(char::is_whitespace) { return Err(..) }] *)
Definition reject_whitespace (field value : string) : ExtensionValidationResult unit :=
  reject? has_whitespace value with InvalidField field (msg "must not contain whitespace") in Ok tt.

Definition require_permission_name (value : string) : ExtensionValidationResult unit :=
  let? _ := require_non_empty "permission" value in
  let? _ := reject_whitespace "permission" value in
  reject? negb (contains_char dot value) && negb (contains_char colon value)
    with InvalidField "permission" (msg "must include a namespace separator") in
  Ok tt.

Definition validate_required_string (field : string) (value : option string)
  : ExtensionValidationResult unit :=
  match value with
  | None => Err (MissingField field)
  | Some value => let? _ := require_non_empty field value in reject_whitespace field value
  end.

Definition validate_optional_choice (field : string) (value : option string) (allowed : list string)
  : ExtensionValidationResult unit :=
  match value with
  | None => Ok tt
  | Some value =>
      let? _ := require_non_empty field value in
      let? _ := reject_whitespace field value in
      reject? negb (str_in value allowed)
        with InvalidField field (Fmt "must be one of: {}" [AStr (String.concat ", " allowed)]) in
      Ok tt
  end.

Definition validate_string_list (field : string) (values : list string)
  : ExtensionValidationResult unit :=
  for_each (λ value, let? _ := require_non_empty field value in reject_whitespace field value) values.

(** ** Endpoints of webhooks *)

Definition slash_question_hash : list ascii := ["/"; "?"; "#"]%char.
Definition at_sign : ascii := "@".
Definition open_bracket : ascii := "[".
Definition close_bracket : ascii := "]".

Definition validate_https_endpoint_authority (field value : string)
  : ExtensionValidationResult unit :=
  let invalid {A} (reason : string) : ExtensionValidationResult A :=
    Err (InvalidField field (msg reason)) in
  let authority := default ""%string (head (split_at slash_question_hash value)) in
  if str_is_empty authority then invalid "must include a host"
  else if contains_char at_sign authority then invalid "must not contain userinfo"
  else
    match authority with
    | String c stripped =>
        if bool_decide (c = open_bracket) then
          match split_once close_bracket stripped with
          | None => invalid "must contain a closing ] for IPv6 hosts"
          | Some (host, remainder) =>
              if str_is_empty host then invalid "must include a host"
              else if negb (ipv6_parses host)
              then invalid "must contain a valid IPv6 host inside brackets"
              else match remainder with
                   | EmptyString => Ok tt
                   | String c port =>
                       if negb (bool_decide (c = colon))
                       then invalid "must separate the host and path with /"
                       else if str_is_empty port || negb (all_chars is_ascii_digit port)
                       then invalid "port must be numeric"
                       else Ok tt
                   end
          end
        else
          let '(host, port) :=
            match rsplit_once colon authority with
            | Some (candidate_host, candidate_port) =>
                if negb (contains_char colon candidate_host) && negb (str_is_empty candidate_port)
                then (candidate_host, Some candidate_port)
                else (authority, None)
            | None => (authority, None)
            end in
          if str_is_empty host || starts_with_char dot host || ends_with_char dot host
          then invalid "must include a valid host"
          else if any_char (λ c, negb (is_ascii_alphanumeric c || bool_decide (c = hyphen)
                                       || bool_decide (c = dot))) host
          then invalid "host contains invalid characters"
          else match port with
               | Some port =>
                   if negb (all_chars is_ascii_digit port) then invalid "port must be numeric"
                   else Ok tt
               | None => Ok tt
               end
    | EmptyString => invalid "must include a host"
    end.

Definition validate_http_endpoint (field : string) (value : option string)
  : ExtensionValidationResult unit :=
  match value with
  | None => Err (MissingField field)
  | Some value =>
      let? _ := require_non_empty field value in
      let? _ := reject_whitespace field value in
      match strip_prefix "https://" value with
      | None => Err (InvalidField field (msg "must start with https://"))
      | Some rest => validate_https_endpoint_authority field rest
      end
  end.

(** ** Boundaries and entry points *)

Definition classify_boundary (manifest : ExtensionManifest) (policy : ManifestValidationPolicy)
  : ExtensionValidationResult ExtensionBoundary :=
  let is_official_id := starts_with (official_id_prefix policy) (man_id manifest) in
  let is_local_id := starts_with (local_id_prefix policy) (man_id manifest) in
  match prov_source (man_provenance manifest) with
  | LocalSource =>
      reject? negb is_local_id
        with BoundaryViolation (Fmt "local extensions must use the {} id namespace"
                                  [AStr (local_id_prefix policy)]) in
      Ok LocalDevelopment
  | RegistrySource | Github =>
      if is_official_id then
        reject? negb (bool_decide (prov_registry_identity (man_provenance manifest)
                                   = Some (official_registry_identity policy)))
          with BoundaryViolation
                 (msg "official extensions must be issued by the official registry identity") in
        Ok OfficialBoundary
      else
        reject? is_local_id
          with BoundaryViolation (msg "non-local extensions cannot use the local id namespace") in
        Ok ThirdParty
  end.

Definition is_local_development (b : ExtensionBoundary) : bool := bool_decide (b = LocalDevelopment).

Definition validate_entrypoint (manifest : ExtensionManifest) (boundary : ExtensionBoundary)
  (policy : ManifestValidationPolicy) : ExtensionValidationResult unit :=
  let ep := man_entrypoints manifest in
  reject? negb (bool_decide (ep_realm ep = BackendRealm))
    with UnsupportedRuntime (ep_runtime ep)
           (msg "this registry slice only accepts backend extensions") in
  reject? negb (str_eqb (ep_protocol ep) EXTENSION_RPC_PROTOCOL)
    with InvalidField "entrypoints.protocol"
           (Fmt "expected {EXTENSION_RPC_PROTOCOL}" [AStr EXTENSION_RPC_PROTOCOL]) in
  match ep_runtime ep with
  | WasmRust | Wasm =>
      reject? negb (has_non_empty_trimmed (ep_wasm ep)) with MissingField "entrypoints.wasm" in Ok tt
  | ProcessRuntime =>
      reject? negb (is_local_development boundary) || negb (allow_local_process_runtime policy)
        with UnsupportedRuntime ProcessRuntime
               (msg "process runtime is local-development only and must be explicitly enabled") in
      reject? negb (has_non_empty_trimmed (ep_command ep))
        with MissingField "entrypoints.command" in
      Ok tt
  | Docker | Remote | SwiftClient =>
      Err (UnsupportedRuntime (ep_runtime ep)
             (msg "first backend slice supports wasm-rust, wasm, and explicit local process development only"))
  end.

(** ** Provenance and publication *)

(** [matches!(submission, A | B)] *)
Definition submission_in (s : ExtensionRegistrySubmission) (l : list ExtensionRegistrySubmission)
  : bool := bool_decide (s ∈ l).

Definition validate_publication (manifest : ExtensionManifest) (boundary : ExtensionBoundary)
  (policy : ManifestValidationPolicy) : ExtensionValidationResult unit :=
  let identity := prov_registry_identity (man_provenance manifest) in
  let bad_submission (reason : string) :=
    InvalidField "provenance.publication.registry_submission" (msg reason) in
  match prov_publication (man_provenance manifest) with
  | None => Ok tt
  | Some publication =>
      let submission := pub_registry_submission publication in
      match pub_visibility publication with
      | PrivateRemix =>
          reject? negb (submission_in submission [NotSubmitted])
            with bad_submission "private remixes must not claim registry submission" in
          Ok tt
      | UnlistedShare =>
          reject? submission_in submission [Rejected]
            with bad_submission "unlisted shares cannot rely on rejected registry submission" in
          reject? submission_in submission [Submitted; Accepted]
                  && negb (has_non_empty_trimmed identity)
            with ProvenanceRequired "provenance.registry_identity"
                   (msg "registry-submitted unlisted shares must declare registry identity") in
          Ok tt
      | PublicSearchable =>
          reject? is_local_development boundary
            with BoundaryViolation
                   (msg "public searchable packages cannot use local-development package authority") in
          reject? negb (submission_in submission [AwaitingSubmission])
                  && negb (has_non_empty_trimmed identity)
            with ProvenanceRequired "provenance.registry_identity"
                   (msg "public packages must declare registry identity") in
          reject? submission_in submission [NotSubmitted; Rejected]
            with bad_submission "public packages must be submitted or accepted by the registry" in
          Ok tt
      | OfficialVisibility =>
          reject? negb (bool_decide (boundary = OfficialBoundary))
            with BoundaryViolation
                   (msg "official publication requires official package authority") in
          reject? negb (bool_decide (identity = Some (official_registry_identity policy)))
            with BoundaryViolation
                   (msg "official publication must use the official registry identity") in
          reject? negb (submission_in submission [Accepted])
            with bad_submission "official packages must be accepted by the registry" in
          Ok tt
      end
  end.

(** [if !has_non_empty_trimmed(value) { return Err(ProvenanceRequired { .. }) }] *)
Definition require_provenance (field : string) (value : option string) (reason : string)
  : ExtensionValidationResult unit :=
  reject? negb (has_non_empty_trimmed value) with ProvenanceRequired field (msg reason) in Ok tt.

Definition validate_signing (prov : ExtensionProvenance) (boundary : ExtensionBoundary)
  (policy : ManifestValidationPolicy) : ExtensionValidationResult unit :=
  match boundary with
  | LocalDevelopment =>
      reject? (negb (has_non_empty_trimmed (prov_signature prov))
               || negb (has_non_empty_trimmed (prov_signer prov)))
              && negb (allow_local_unsigned policy)
        with ProvenanceRequired "provenance.signature"
               (msg "local unsigned extensions require explicit dev-mode approval") in
      Ok tt
  | OfficialBoundary | ThirdParty =>
      let? _ := require_provenance "provenance.signature" (prov_signature prov)
                  "non-local extensions must be signed" in
      require_provenance "provenance.signer" (prov_signer prov)
        "non-local extensions must identify a signer"
  end.

Definition validate_source (prov : ExtensionProvenance) : ExtensionValidationResult unit :=
  match prov_source prov with
  | Github =>
      let? _ := require_provenance "provenance.repository" (prov_repository prov)
                  "github-sourced extensions must declare a repository" in
      let? _ := require_provenance "provenance.ref" (prov_source_ref prov)
                  "github-sourced extensions must declare a ref" in
      let? _ := require_provenance "provenance.manifest_path" (prov_manifest_path prov)
                  "github-sourced extensions must declare a manifest path" in
      require_provenance "provenance.commit" (prov_commit prov)
        "github-sourced extensions must declare a commit"
  | RegistrySource =>
      require_provenance "provenance.registry_identity" (prov_registry_identity prov)
        "registry-sourced extensions must declare registry identity"
  | LocalSource => Ok tt
  end.

Definition validate_lineage (lineage : option ExtensionLineage) : ExtensionValidationResult unit :=
  match lineage with
  | None => Ok tt
  | Some lineage =>
      let? _ := require_reverse_dns_id "provenance.lineage.parent_id" (lin_parent_id lineage) in
      let? _ := match lin_parent_version lineage with
                | Some version => require_semver "provenance.lineage.parent_version" version
                | None => Ok tt
                end in
      match lin_parent_manifest_digest lineage with
      | Some digest => require_digest "provenance.lineage.parent_manifest_digest" digest
      | None => Ok tt
      end
  end.

Definition validate_provenance (manifest : ExtensionManifest) (boundary : ExtensionBoundary)
  (policy : ManifestValidationPolicy) : ExtensionValidationResult unit :=
  let prov := man_provenance manifest in
  let? _ := require_digest "provenance.artifact_digest" (prov_artifact_digest prov) in
  let? _ := require_digest "provenance.manifest_digest" (prov_manifest_digest prov) in
  let? _ := validate_signing prov boundary policy in
  let? _ := validate_source prov in
  let? _ := validate_lineage (prov_lineage prov) in
  validate_publication manifest boundary policy.

(** ** Permissions, tools and services *)

Definition RISK_TIERS : list string := ["R0"; "R1"; "R2"; "R3"; "R4"].

Definition validate_permission (entry : string * ExtensionPermission)
  : ExtensionValidationResult unit :=
  let '(permission, metadata) := entry in
  let? _ := require_permission_name permission in
  let? _ := require_non_empty "permissions.description" (perm_description metadata) in
  match perm_risk_tier metadata with
  | Some risk_tier =>
      reject? negb (str_in risk_tier RISK_TIERS)
        with InvalidField "permissions.risk_tier"
               (Fmt "unsupported risk tier {risk_tier}" [AStr risk_tier]) in
      Ok tt
  | None => Ok tt
  end.
Definition validate_permissions (permissions : gmap string ExtensionPermission)
  : ExtensionValidationResult unit :=
  for_each validate_permission (btree_to_list permissions).

Definition declares_kind (manifest : ExtensionManifest) (k : ExtensionKind) : bool :=
  bool_decide (k ∈ man_types manifest).

Definition validate_tool (permissions : gmap string ExtensionPermission) (seen_tool_ids : gset string)
  (tool : ExtensionToolDefinition) : ExtensionValidationResult (gset string) :=
  let? _ := require_non_empty "tools.id" (tool_def_id tool) in
  let? seen_tool_ids :=
    insert_new seen_tool_ids (tool_def_id tool) (DuplicateToolDeclaration (tool_def_id tool)) in
  reject? bool_decide (tool_def_permissions tool = [])
          && bool_decide (tool_def_permissions_required tool = [])
    with MissingField "tools.permissions" in
  let required_permissions : gset string :=
    list_to_set (tool_def_permissions tool ++ tool_def_permissions_required tool) in
  let? _ := for_each (λ permission,
              let? _ := require_permission_name permission in
              reject? negb (map_has permissions permission)
                with MissingToolPermission (tool_def_id tool) permission in
              Ok tt) (btree_set_to_list required_permissions) in
  Ok seen_tool_ids.

Definition validate_tools (manifest : ExtensionManifest) : ExtensionValidationResult unit :=
  let has_tool_type := declares_kind manifest ToolKind in
  let has_tools := negb (bool_decide (man_tools manifest = [])) in
  reject? has_tools && negb has_tool_type
    with InvalidField "types" (msg "tool declarations require type tool") in
  reject? has_tool_type && negb has_tools with MissingField "tools" in
  let? _ := for_each_from (validate_tool (man_permissions manifest)) ∅ (man_tools manifest) in
  Ok tt.

Definition validate_service_parts (service method schema_version : string)
  : ExtensionValidationResult unit :=
  let? _ := require_non_empty "services.service" service in
  let? _ := require_non_empty "services.method" method in
  let? _ := require_non_empty "services.schema_version" schema_version in
  for_each (λ p, reject_whitespace p.1 p.2)
    [("services.service", service); ("services.method", method);
     ("services.schema_version", schema_version)]%string.

Definition require_declared_service_permission (permissions : gmap string ExtensionPermission)
  (service method permission : string) : ExtensionValidationResult unit :=
  if map_has permissions permission then Ok tt
  else Err (MissingServicePermission service method permission).

Definition service_key (service method schema_version : string) : string :=
  service +:+ ":" +:+ method +:+ ":" +:+ schema_version.

Definition validate_provided_service (permissions : gmap string ExtensionPermission)
  (provided : gset string) (service : ExtensionServiceDefinition)
  : ExtensionValidationResult (gset string) :=
  let? _ := validate_service_parts (sdef_service service) (sdef_method service)
              (sdef_schema_version service) in
  let? _ := require_permission_name (sdef_required_permission service) in
  let? _ := require_declared_service_permission permissions (sdef_service service)
              (sdef_method service) (sdef_required_permission service) in
  insert_new provided
    (service_key (sdef_service service) (sdef_method service) (sdef_schema_version service))
    (DuplicateServiceDeclaration (sdef_service service) (sdef_method service)
       (sdef_schema_version service)).

Definition validate_consumed_service (permissions : gmap string ExtensionPermission)
  (consumed : gset string) (dependency : ExtensionServiceDependency)
  : ExtensionValidationResult (gset string) :=
  let? _ := require_reverse_dns_id "services.consumes.extension_id" (sdep_extension_id dependency) in
  let? _ := validate_service_parts (sdep_service dependency) (sdep_method dependency)
              (sdep_schema_version dependency) in
  let? _ := require_permission_name (sdep_required_permission dependency) in
  let? _ := require_declared_service_permission permissions (sdep_service dependency)
              (sdep_method dependency) (sdep_required_permission dependency) in
  insert_new consumed
    (sdep_extension_id dependency +:+ ":" +:+
     service_key (sdep_service dependency) (sdep_method dependency) (sdep_schema_version dependency))
    (DuplicateServiceDeclaration (sdep_service dependency) (sdep_method dependency)
       (sdep_schema_version dependency)).

Definition validate_services (manifest : ExtensionManifest) : ExtensionValidationResult unit :=
  let has_service_kind := declares_kind manifest ServiceKind in
  let declares_services :=
    negb (bool_decide (svc_provides (man_services manifest) = []))
    || negb (bool_decide (svc_consumes (man_services manifest) = [])) in
  reject? declares_services && negb has_service_kind
    with InvalidField "types" (msg "service declarations require type service") in
  reject? has_service_kind && negb declares_services with MissingField "services" in
  let? _ := for_each_from (validate_provided_service (man_permissions manifest)) ∅
              (svc_provides (man_services manifest)) in
  let? _ := for_each_from (validate_consumed_service (man_permissions manifest)) ∅
              (svc_consumes (man_services manifest)) in
  Ok tt.

(** ** Tool output, hooks, webhooks, composition and migration *)

Definition validate_tool_output_definition (declared_tools : gset string)
  (seen : gset string) (d : ExtensionToolOutputDefinition)
  : ExtensionValidationResult (gset string) :=
  let? _ := require_trimmed_non_empty "tool_output.tool_id" (tod_tool_id d) in
  let? seen := insert_new seen (tod_tool_id d) (DuplicateToolOutputDeclaration (tod_tool_id d)) in
  let? _ := validate_optional_choice "tool_output.format" (tod_format d) ["toon"; "json"]%string in
  let? _ := validate_optional_choice "tool_output.verbosity" (tod_verbosity d)
              ["minimal"; "normal"; "expanded"; "debug"]%string in
  let? _ := validate_optional_choice "tool_output.language_mode" (tod_language_mode d)
              ["user"; "english_agent"; "mixed"]%string in
  let? _ := validate_string_list "tool_output.fields" (tod_fields d) in
  let? _ := validate_string_list "tool_output.redactions" (tod_redactions d) in
  reject? negb (bool_decide (tod_tool_id d ∈ declared_tools))
    with InvalidField "tool_output.tool_id"
           (Fmt "tool output customization targets undeclared tool {}" [AStr (tod_tool_id d)]) in
  Ok seen.

Definition validate_tool_output (manifest : ExtensionManifest) : ExtensionValidationResult unit :=
  let has_tool_output_kind := declares_kind manifest ToolOutputCustomizer in
  let declares_tool_output := negb (bool_decide (man_tool_output manifest = [])) in
  reject? declares_tool_output && negb has_tool_output_kind
    with InvalidField "types"
           (msg "tool output declarations require type tool_output_customizer") in
  let declared_tools : gset string := list_to_set (map tool_def_id (man_tools manifest)) in
  let? _ := for_each_from (validate_tool_output_definition declared_tools) ∅
              (man_tool_output manifest) in
  Ok tt.

Definition VERIFICATIONS : list string :=
  ["hmac"; "github_signature"; "oidc"; "none_for_local_only"].
Definition STATUSES : list string := ["enabled"; "disabled"; "blocked"; "needs_approval"].

(** The verification of hooks and webhooks: an optional choice, and
    [none_for_local_only] only for local development. *)
Definition validate_verification (field : string) (verification : option string)
  (boundary : ExtensionBoundary) : ExtensionValidationResult unit :=
  let? _ := validate_optional_choice field verification VERIFICATIONS in
  reject? bool_decide (verification = Some "none_for_local_only"%string)
          && negb (is_local_development boundary)
    with InvalidField field
           (msg "none_for_local_only is only allowed for local-development manifests") in
  Ok tt.

(** [validate_string_list] and [require_permission_name] on each. *)
Definition validate_capabilities (field : string) (capabilities : list string)
  : ExtensionValidationResult unit :=
  let? _ := validate_string_list field capabilities in
  for_each require_permission_name capabilities.

Definition validate_hook (boundary : ExtensionBoundary) (seen : gset string)
  (hook : ExtensionHookDefinition) : ExtensionValidationResult (gset string) :=
  let? _ := require_trimmed_non_empty "hooks.hook_id" (hook_id hook) in
  let? seen := insert_new seen (hook_id hook) (DuplicateHookDeclaration (hook_id hook)) in
  let? _ := validate_required_string "hooks.trigger" (hook_trigger hook) in
  let? _ := validate_verification "hooks.verification" (hook_verification hook) boundary in
  let? _ := validate_capabilities "hooks.required_capabilities" (hook_required_capabilities hook) in
  let? _ := validate_optional_choice "hooks.action" (hook_action hook)
              ["workflow"; "tool"; "notification"; "memory_update"; "extension_action"]%string in
  let? _ := validate_optional_choice "hooks.status" (hook_status hook) STATUSES in
  Ok seen.

Definition validate_hooks (manifest : ExtensionManifest) (boundary : ExtensionBoundary)
  : ExtensionValidationResult unit :=
  let has_hook_provider_kind := declares_kind manifest HookProvider in
  let declares_hooks := negb (bool_decide (man_hooks manifest = [])) in
  reject? declares_hooks && negb has_hook_provider_kind
    with InvalidField "types" (msg "hook declarations require type hook_provider") in
  let? _ := for_each_from (validate_hook boundary) ∅ (man_hooks manifest) in
  Ok tt.

Definition validate_webhook (boundary : ExtensionBoundary) (seen : gset string)
  (webhook : ExtensionWebhookDefinition) : ExtensionValidationResult (gset string) :=
  let? _ := require_trimmed_non_empty "webhooks.webhook_id" (webhook_id webhook) in
  let? seen := insert_new seen (webhook_id webhook) (DuplicateWebhookDeclaration (webhook_id webhook)) in
  let? _ := validate_optional_choice "webhooks.source" (webhook_source webhook)
              ["atelia"; "github"; "external"]%string in
  let? _ := validate_required_string "webhooks.event" (webhook_event webhook) in
  let? _ := validate_http_endpoint "webhooks.endpoint" (webhook_endpoint webhook) in
  let? _ := validate_verification "webhooks.verification" (webhook_verification webhook) boundary in
  let? _ := validate_capabilities "webhooks.required_capabilities"
              (webhook_required_capabilities webhook) in
  let? _ := validate_optional_choice "webhooks.status" (webhook_status webhook) STATUSES in
  Ok seen.

Definition validate_webhooks (manifest : ExtensionManifest) (boundary : ExtensionBoundary)
  : ExtensionValidationResult unit :=
  let has_webhook_receiver_kind := declares_kind manifest WebhookReceiver in
  let declares_webhooks := negb (bool_decide (man_webhooks manifest = [])) in
  reject? declares_webhooks && negb has_webhook_receiver_kind
    with InvalidField "types" (msg "webhook declarations require type webhook_receiver") in
  let? _ := for_each_from (validate_webhook boundary) ∅ (man_webhooks manifest) in
  Ok tt.

Definition validate_composition (manifest : ExtensionManifest) : ExtensionValidationResult unit :=
  for_each (λ a, require_reverse_dns_id "composition.attachments.extension_id" (attach_extension_id a))
    (comp_attachments (man_composition manifest)).

Definition validate_migration (manifest : ExtensionManifest) : ExtensionValidationResult unit :=
  for_each (require_semver "migration.from") (mig_from (man_migration manifest)).

(** ** The whole manifest *)

Definition validate_identity (manifest : ExtensionManifest) : ExtensionValidationResult unit :=
  reject? negb (str_eqb (man_schema manifest) EXTENSION_MANIFEST_SCHEMA)
    with InvalidSchema EXTENSION_MANIFEST_SCHEMA (man_schema manifest) in
  let? _ := require_non_empty "id" (man_id manifest) in
  let? _ := require_reverse_dns_id "id" (man_id manifest) in
  let? _ := require_non_empty "name" (man_name manifest) in
  let? _ := require_non_empty "version" (man_version manifest) in
  let? _ := require_semver "version" (man_version manifest) in
  let? _ := require_non_empty "publisher.name" (publisher_name (man_publisher manifest)) in
  let? _ := require_non_empty "description" (man_description manifest) in
  let? _ := require_non_empty "compatibility.atelia_protocol"
              (compat_atelia_protocol (man_compatibility manifest)) in
  let? _ := require_non_empty "compatibility.atelia_secretary"
              (compat_atelia_secretary (man_compatibility manifest)) in
  reject? bool_decide (man_types manifest = []) with MissingField "types" in
  Ok tt.

(** [validate_permissions(..)?; ..; validate_migration(..)?] *)
Definition validate_declarations (manifest : ExtensionManifest) (boundary : ExtensionBoundary)
  : ExtensionValidationResult unit :=
  let? _ := validate_permissions (man_permissions manifest) in
  let? _ := validate_tools manifest in
  let? _ := validate_services manifest in
  let? _ := validate_tool_output manifest in
  let? _ := validate_hooks manifest boundary in
  let? _ := validate_webhooks manifest boundary in
  let? _ := validate_composition manifest in
  validate_migration manifest.

Definition validate_manifest (manifest : ExtensionManifest) (policy : ManifestValidationPolicy)
  : ExtensionValidationResult ValidatedExtensionManifest :=
  let? _ := validate_identity manifest in
  let? boundary := classify_boundary manifest policy in
  let? _ := validate_entrypoint manifest boundary policy in
  let? _ := validate_provenance manifest boundary policy in
  let? _ := validate_declarations manifest boundary in
  Ok {| validated_manifest := manifest; validated_boundary := boundary |}.

Example observational_memory_is_not_installable :
  validate_manifest official_observational_memory_manifest validation_policy_default
  = Err (MissingField "entrypoints.wasm").
Proof. vm_compute. reflexivity. Qed.
