(* ===== verification/ManifestLaws.v ===== *)
(** * ManifestLaws: what an accepted manifest satisfies

    The validation as a conjunction of its checks, its monotonicity in the
    approvals of the policy, and the boundaries it enforces. *)
From S2P Require Import Prelude Text Domain StoreTypes Manifest ManifestCheck.

(** ** The checks of a manifest, boundary by boundary *)

Record accepted (m : ExtensionManifest) (p : ManifestValidationPolicy) (b : ExtensionBoundary)
  : Prop := {
  ac_identity : validate_identity m = Ok tt;
  ac_boundary : classify_boundary m p = Ok b;
  ac_entrypoint : validate_entrypoint m b p = Ok tt;
  ac_artifact : require_digest "provenance.artifact_digest"
                  (prov_artifact_digest (man_provenance m)) = Ok tt;
  ac_manifest : require_digest "provenance.manifest_digest"
                  (prov_manifest_digest (man_provenance m)) = Ok tt;
  ac_signing : validate_signing (man_provenance m) b p = Ok tt;
  ac_source : validate_source (man_provenance m) = Ok tt;
  ac_lineage : validate_lineage (prov_lineage (man_provenance m)) = Ok tt;
  ac_publication : validate_publication m b p = Ok tt;
  ac_declarations : validate_declarations m b = Ok tt
}.

Lemma validate_manifest_Ok m p v :
  validate_manifest m p = Ok v ↔
  validated_manifest v = m ∧ accepted m p (validated_boundary v).
Proof.
  unfold validate_manifest. rewrite then_Ok, bind_Ok. split.
  - intros (Hid & b & Hb & H). rewrite !then_Ok in H. destruct H as (He & Hp & Hd & [= <-]).
    unfold validate_provenance in Hp. rewrite !then_Ok in Hp.
    destruct Hp as (? & ? & ? & ? & ? & ?). split; [done|]. by split.
  - intros [<- [????????? Hd]]. split; [done|]. exists (validated_boundary v). split; [done|].
    rewrite !then_Ok. unfold validate_provenance. rewrite !then_Ok. destruct v; by split_and!.
Qed.

(** ** Approvals *)

(** Same namespaces, at least the approvals. *)
Record policy_le (p q : ManifestValidationPolicy) : Prop := {
  ple_unsigned : allow_local_unsigned p = true → allow_local_unsigned q = true;
  ple_process : allow_local_process_runtime p = true → allow_local_process_runtime q = true;
  ple_official : official_id_prefix q = official_id_prefix p;
  ple_local : local_id_prefix q = local_id_prefix p;
  ple_identity : official_registry_identity q = official_registry_identity p
}.
#[export] Instance policy_le_preorder : PreOrder policy_le.
Proof. split; [by split|]. intros p q r [] []. split; eauto; congruence. Qed.

Section Approvals.
Context {p q : ManifestValidationPolicy} (Hle : policy_le p q).

Lemma classify_boundary_mono m : classify_boundary m q = classify_boundary m p.
Proof. destruct Hle. unfold classify_boundary. by rewrite ple_official0, ple_local0, ple_identity0. Qed.

Lemma validate_publication_mono m b : validate_publication m b q = validate_publication m b p.
Proof. destruct Hle. unfold validate_publication. by rewrite ple_identity0. Qed.

Lemma validate_entrypoint_mono m b :
  validate_entrypoint m b p = Ok tt → validate_entrypoint m b q = Ok tt.
Proof.
  destruct Hle as [_ Hp _ _ _]. unfold validate_entrypoint. rewrite !reject_Ok.
  intros (-> & -> & Hr). split_and!; [done..|]. destruct (ep_runtime (man_entrypoints m)); try done.
  rewrite !reject_Ok, !orb_false_iff, !negb_false_iff in *.
  destruct Hr as [[Hl Ha] Hr]. split; [split; auto|exact Hr].
Qed.

Lemma validate_signing_mono prov b :
  validate_signing prov b p = Ok tt → validate_signing prov b q = Ok tt.
Proof.
  destruct Hle as [Hu _ _ _ _]. unfold validate_signing. destruct b; try done.
  rewrite !reject_Ok. intros [Hs _]. split; [|done].
  apply andb_false_iff in Hs as [Hs|Hs]; apply andb_false_iff; [by left|right].
  rewrite negb_false_iff in *. auto.
Qed.

Lemma accepted_mono m b : accepted m p b → accepted m q b.
Proof.
  intros []. split; try done.
  - by rewrite classify_boundary_mono.
  - by apply validate_entrypoint_mono.
  - by apply validate_signing_mono.
  - by rewrite validate_publication_mono.
Qed.
End Approvals.

(** ** Boundaries *)

Definition signed (prov : ExtensionProvenance) : Prop :=
  has_non_empty_trimmed (prov_signature prov) = true ∧ has_non_empty_trimmed (prov_signer prov) = true.

Lemma require_provenance_Ok f v r :
  require_provenance f v r = Ok tt ↔ has_non_empty_trimmed v = true.
Proof. unfold require_provenance. rewrite reject_Ok, negb_false_iff. by split; [intros []|]. Qed.

Lemma validate_signing_Ok prov b p :
  validate_signing prov b p = Ok tt ↔
  signed prov ∨ b = LocalDevelopment ∧ allow_local_unsigned p = true.
Proof.
  unfold validate_signing, signed. destruct b.
  1,2: rewrite then_Ok, !require_provenance_Ok; naive_solver.
  rewrite reject_Ok, andb_false_iff, orb_false_iff, !negb_false_iff. naive_solver.
Qed.

(** The boundary, from the source and the namespace of the id. *)
Definition in_boundary (m : ExtensionManifest) (p : ManifestValidationPolicy)
  (b : ExtensionBoundary) : Prop :=
  let prov := man_provenance m in
  let official := starts_with (official_id_prefix p) (man_id m) in
  let is_local := starts_with (local_id_prefix p) (man_id m) in
  match b with
  | LocalDevelopment => prov_source prov = LocalSource ∧ is_local = true
  | OfficialBoundary =>
      prov_source prov ≠ LocalSource ∧ official = true ∧
      prov_registry_identity prov = Some (official_registry_identity p)
  | ThirdParty => prov_source prov ≠ LocalSource ∧ official = false ∧ is_local = false
  end.

Lemma classify_boundary_Ok m p b : classify_boundary m p = Ok b ↔ in_boundary m p b.
Proof.
  unfold classify_boundary, in_boundary.
  destruct (prov_source (man_provenance m)), (starts_with (official_id_prefix p) (man_id m)),
    (starts_with (local_id_prefix p) (man_id m)); simpl; rewrite ?reject_Ok, ?negb_false_iff,
    ?bool_decide_eq_true; destruct b; (split; [|try done]); try done; intros H; 
    destruct_and?; congruence || split_and!; done.
Qed.

Lemma validate_entrypoint_runtime m b p :
  validate_entrypoint m b p = Ok tt →
  ep_runtime (man_entrypoints m) ∈ [WasmRust; Wasm; ProcessRuntime] ∧
  (ep_runtime (man_entrypoints m) = ProcessRuntime →
   b = LocalDevelopment ∧ allow_local_process_runtime p = true).
Proof.
  unfold validate_entrypoint. rewrite !reject_Ok. intros (_ & _ & He).
  destruct (ep_runtime (man_entrypoints m)); try done; (split; [set_solver|]); try done.
  rewrite !reject_Ok, orb_false_iff, !negb_false_iff in He. intros _.
  destruct He as [[Hl ?] _]. by apply bool_decide_eq_true in Hl.
Qed.

(** A manifest is accepted only inside its boundary.  Local sources have ids
    of the local namespace and are the only local-development packages; ids of
    the official namespace from elsewhere carry the identity of the official
    registry; everything that is not local development, and local development
    that was not approved unsigned, names a signature and a signer; native
    processes run only for local development, after approval, and no container,
    remote or client runtime is accepted. *)
Theorem accepted_manifests_respect_boundaries m p v :
  validate_manifest m p = Ok v →
  let prov := man_provenance m in
  let b := validated_boundary v in
  validated_manifest v = m ∧
  (b = LocalDevelopment ↔ prov_source prov = LocalSource) ∧
  (b = LocalDevelopment → starts_with (local_id_prefix p) (man_id m) = true) ∧
  (b = OfficialBoundary ↔
   prov_source prov ≠ LocalSource ∧ starts_with (official_id_prefix p) (man_id m) = true) ∧
  (b = OfficialBoundary → prov_registry_identity prov = Some (official_registry_identity p)) ∧
  (b = ThirdParty → starts_with (local_id_prefix p) (man_id m) = false) ∧
  (signed prov ∨ b = LocalDevelopment ∧ allow_local_unsigned p = true) ∧
  (ep_runtime (man_entrypoints m) = ProcessRuntime →
   b = LocalDevelopment ∧ allow_local_process_runtime p = true) ∧
  ep_runtime (man_entrypoints m) ∈ [WasmRust; Wasm; ProcessRuntime].
Proof.
  intros [Hm [_ Hb He _ _ Hs _ _ _ _]]%validate_manifest_Ok. simpl.
  apply validate_signing_Ok in Hs. apply classify_boundary_Ok in Hb.
  apply validate_entrypoint_runtime in He as [Hr Hp].
  unfold in_boundary in Hb. destruct (validated_boundary v); destruct_and? Hb; split_and!;
    first [done | split; [intros ?; split_and?; done | intros ?; destruct_and?; congruence] | intuition congruence].
Qed.

(** ** Declarations *)

(** A loop whose body checks an element and records its key. *)
Lemma for_each_from_seen {E A} (key : A → string) (P : A → Prop)
    (body : gset string → A → result E (gset string)) :
  (∀ seen x seen', body seen x = Ok seen' → key x ∉ seen ∧ seen' = {[key x]} ∪ seen ∧ P x) →
  ∀ l seen seen', for_each_from body seen l = Ok seen' →
  NoDup (map key l) ∧ (∀ x, x ∈ l → key x ∉ seen ∧ P x).
Proof.
  intros Hbody l. induction l as [|x l IH]; intros seen seen' Hl; simpl in *.
  - split; [apply NoDup_nil_2|]. by intros x ?%not_elem_of_nil.
  - apply bind_Ok in Hl as (seen1 & Hx & Hl). apply Hbody in Hx as (Hnew & -> & Px).
    apply IH in Hl as [Hnd Hall]. split.
    + apply NoDup_cons. split; [|done]. intros (y & Hy & Hin)%list_elem_of_In%in_map_iff.
      apply list_elem_of_In in Hin. apply Hall in Hin as [Hin _]. set_solver.
    + intros y [->|Hy]%elem_of_cons; [done|]. apply Hall in Hy as [Hy ?]. split; [set_solver|done].
Qed.

Lemma insert_new_Ok {E} seen x (e : E) seen' :
  insert_new seen x e = Ok seen' ↔ x ∉ seen ∧ seen' = {[x]} ∪ seen.
Proof.
  unfold insert_new. rewrite reject_Ok, bool_decide_eq_false.
  split; intros [? Hs]; (split; [done|congruence]).
Qed.

Definition declared (m : ExtensionManifest) (permission : string) : Prop :=
  is_Some (man_permissions m !! permission) ∧ require_permission_name permission = Ok tt.

Lemma map_has_true {V} (m : gmap string V) k : map_has m k = true ↔ is_Some (m !! k).
Proof. unfold map_has. destruct (m !! k); simpl; split; [eauto|done|done|by intros [? ?]]. Qed.

Lemma elem_of_btree_set_to_list x X : x ∈ btree_set_to_list X ↔ x ∈ X.
Proof. unfold btree_set_to_list. by rewrite merge_sort_Permutation, elem_of_elements. Qed.

Definition tool_closed (perms : gmap string ExtensionPermission) (t : ExtensionToolDefinition)
  : Prop :=
  tool_def_permissions t ++ tool_def_permissions_required t ≠ [] ∧
  ∀ x, x ∈ tool_def_permissions t ++ tool_def_permissions_required t →
       is_Some (perms !! x) ∧ require_permission_name x = Ok tt.

Lemma validate_tool_seen perms seen t seen' :
  validate_tool perms seen t = Ok seen' →
  tool_def_id t ∉ seen ∧ seen' = {[tool_def_id t]} ∪ seen ∧ tool_closed perms t.
Proof.
  unfold validate_tool. rewrite then_Ok, bind_Ok.
  intros (_ & seen1 & [Hnew ->]%insert_new_Ok & H).
  rewrite reject_Ok, then_Ok, for_each_Ok in H. destruct H as (Hne & Hall & [= <-]).
  split_and!; [done..|]. split.
  - apply andb_false_iff in Hne as [Hne|Hne]; apply bool_decide_eq_false in Hne;
      intros [??]%app_eq_nil; done.
  - intros x Hx. specialize (Hall x).
    rewrite elem_of_btree_set_to_list, elem_of_list_to_set, then_Ok, reject_Ok, negb_false_iff,
      map_has_true in Hall. destruct (Hall Hx) as (? & ? & _). done.
Qed.

Lemma validate_provided_service_seen perms seen s seen' :
  validate_provided_service perms seen s = Ok seen' →
  let key := service_key (sdef_service s) (sdef_method s) (sdef_schema_version s) in
  key ∉ seen ∧ seen' = {[key]} ∪ seen ∧
  is_Some (perms !! sdef_required_permission s) ∧
  require_permission_name (sdef_required_permission s) = Ok tt.
Proof.
  unfold validate_provided_service, require_declared_service_permission. rewrite !then_Ok, insert_new_Ok.
  intros (_ & Hp & Hd & Hnew & ->). simpl. split_and!; [done..| |done].
  destruct (map_has perms (sdef_required_permission s)) eqn:Hm; [|done]. by apply map_has_true.
Qed.

Lemma validate_consumed_service_seen perms seen d seen' :
  validate_consumed_service perms seen d = Ok seen' →
  let key := sdep_extension_id d +:+ ":" +:+
             service_key (sdep_service d) (sdep_method d) (sdep_schema_version d) in
  key ∉ seen ∧ seen' = {[key]} ∪ seen ∧
  is_Some (perms !! sdep_required_permission d) ∧
  require_permission_name (sdep_required_permission d) = Ok tt.
Proof.
  unfold validate_consumed_service, require_declared_service_permission. rewrite !then_Ok, insert_new_Ok.
  intros (_ & _ & Hp & Hd & Hnew & ->). simpl. split_and!; [done..| |done].
  destruct (map_has perms (sdep_required_permission d)) eqn:Hm; [|done]. by apply map_has_true.
Qed.

Lemma validate_tool_output_definition_seen tools seen d seen' :
  validate_tool_output_definition tools seen d = Ok seen' →
  tod_tool_id d ∉ seen ∧ seen' = {[tod_tool_id d]} ∪ seen ∧ tod_tool_id d ∈ tools.
Proof.
  unfold validate_tool_output_definition. rewrite then_Ok, bind_Ok.
  intros (_ & seen1 & [Hnew ->]%insert_new_Ok & H).
  rewrite !then_Ok, reject_Ok, negb_false_iff, bool_decide_eq_true in H.
  destruct H as (_ & _ & _ & _ & _ & Hin & [= <-]). done.
Qed.

(** Hooks and webhooks that nobody verifies are local. *)
Definition verified (verification : option string) (b : ExtensionBoundary) : Prop :=
  verification = Some "none_for_local_only"%string → b = LocalDevelopment.

Lemma validate_verification_verified f v b : validate_verification f v b = Ok tt → verified v b.
Proof.
  unfold validate_verification, verified. rewrite then_Ok, reject_Ok. intros (_ & Hv & _) ->.
  rewrite bool_decide_eq_true_2 in Hv by done. simpl in Hv.
  apply negb_false_iff, bool_decide_eq_true in Hv. done.
Qed.

(** The capabilities a hook or webhook asks for have well-formed names; the
    manifest need not declare them. *)
Definition well_named (capabilities : list string) : Prop :=
  ∀ c, c ∈ capabilities → require_permission_name c = Ok tt.

Lemma validate_capabilities_named f l : validate_capabilities f l = Ok tt → well_named l.
Proof. unfold validate_capabilities. rewrite then_Ok, for_each_Ok. by intros [_ ?]. Qed.

Lemma validate_hook_seen b seen h seen' :
  validate_hook b seen h = Ok seen' →
  hook_id h ∉ seen ∧ seen' = {[hook_id h]} ∪ seen ∧
  verified (hook_verification h) b ∧ well_named (hook_required_capabilities h).
Proof.
  unfold validate_hook. rewrite then_Ok, bind_Ok. intros (_ & seen1 & [Hnew ->]%insert_new_Ok & H).
  rewrite !then_Ok in H. destruct H as (_ & Hv%validate_verification_verified & Hc%validate_capabilities_named & _ & _ & [= <-]).
  done.
Qed.

Lemma validate_webhook_seen b seen w seen' :
  validate_webhook b seen w = Ok seen' →
  webhook_id w ∉ seen ∧ seen' = {[webhook_id w]} ∪ seen ∧
  verified (webhook_verification w) b ∧ well_named (webhook_required_capabilities w) ∧
  ∃ url rest, webhook_endpoint w = Some url ∧ strip_prefix "https://" url = Some rest.
Proof.
  unfold validate_webhook. rewrite then_Ok, bind_Ok. intros (_ & seen1 & [Hnew ->]%insert_new_Ok & H).
  rewrite !then_Ok in H.
  destruct H as (_ & _ & He & Hv%validate_verification_verified & Hc%validate_capabilities_named & _ & [= <-]).
  split_and!; [done..|]. unfold validate_http_endpoint in He.
  destruct (webhook_endpoint w) as [url|]; [|done]. rewrite !then_Ok in He. destruct He as (_ & _ & He).
  destruct (strip_prefix "https://" url) eqn:Hp; [eauto|done].
Qed.

(** The permissions that tools and services require are declared, and so are the
    tools whose output is customised; hooks and webhooks name their capabilities. *)
Record closed (m : ExtensionManifest) (b : ExtensionBoundary) : Prop := {
  cl_permissions k x : man_permissions m !! k = Some x → require_permission_name k = Ok tt;
  cl_tools t : t ∈ man_tools m → tool_closed (man_permissions m) t;
  cl_tool_ids : NoDup (map tool_def_id (man_tools m));
  cl_provides s : s ∈ svc_provides (man_services m) → declared m (sdef_required_permission s);
  cl_provided : NoDup (map (λ s, (sdef_service s, sdef_method s, sdef_schema_version s))
                         (svc_provides (man_services m)));
  cl_consumes d : d ∈ svc_consumes (man_services m) → declared m (sdep_required_permission d);
  cl_consumed : NoDup (map (λ d, (sdep_extension_id d, sdep_service d, sdep_method d,
                                  sdep_schema_version d)) (svc_consumes (man_services m)));
  cl_tool_output d : d ∈ man_tool_output m → tod_tool_id d ∈ map tool_def_id (man_tools m);
  cl_tool_outputs : NoDup (map tod_tool_id (man_tool_output m));
  cl_hooks h : h ∈ man_hooks m →
    verified (hook_verification h) b ∧ well_named (hook_required_capabilities h);
  cl_hook_ids : NoDup (map hook_id (man_hooks m));
  cl_webhooks w : w ∈ man_webhooks m →
    verified (webhook_verification w) b ∧ well_named (webhook_required_capabilities w) ∧
    ∃ url rest, webhook_endpoint w = Some url ∧ strip_prefix "https://" url = Some rest;
  cl_webhook_ids : NoDup (map webhook_id (man_webhooks m));
  cl_kinds : (man_tools m ≠ [] ↔ ToolKind ∈ man_types m) ∧
    (svc_provides (man_services m) ≠ [] ∨ svc_consumes (man_services m) ≠ [] ↔
     ServiceKind ∈ man_types m) ∧
    (man_hooks m ≠ [] → HookProvider ∈ man_types m) ∧
    (man_webhooks m ≠ [] → WebhookReceiver ∈ man_types m) ∧
    (man_tool_output m ≠ [] → ToolOutputCustomizer ∈ man_types m)
}.

Lemma NoDup_map_through {A B C} (f : A → B) (g : B → C) l :
  NoDup (map (λ x, g (f x)) l) → NoDup (map f l).
Proof. rewrite <- (map_map f g), !NoDup_ListNoDup. apply NoDup_map_inv. Qed.

(** The declarations of a kind need the kind among the types, and for tools and
    services the other way around. *)
Lemma needs_kind_Ok {E A B} (l : list A) (k : bool) (e : E) (rest : result E B) x :
  (if negb (bool_decide (l = [])) && negb k then Err e else rest) = Ok x ↔
  (l ≠ [] → k = true) ∧ rest = Ok x.
Proof.
  rewrite reject_Ok, andb_false_iff, !negb_false_iff, bool_decide_eq_true.
  by destruct l, k; intuition congruence.
Qed.

Lemma validate_tools_closed m :
  validate_tools m = Ok tt →
  NoDup (map tool_def_id (man_tools m)) ∧
  (∀ t, t ∈ man_tools m → tool_closed (man_permissions m) t) ∧
  (man_tools m ≠ [] ↔ ToolKind ∈ man_types m).
Proof.
  unfold validate_tools. rewrite needs_kind_Ok, reject_Ok, bind_Ok. unfold declares_kind.
  intros (Hk & Hk' & seen & Hl & _).
  destruct (for_each_from_seen tool_def_id _ _ (validate_tool_seen _) _ _ _ Hl) as [Hnd Hall].
  split_and!; [done|by intros t [_ ?]%Hall|]. rewrite bool_decide_eq_true in Hk.
  split; [done|]. intros Hin. rewrite bool_decide_eq_true_2 in Hk' by done. by destruct (man_tools m).
Qed.

Lemma validate_services_closed m :
  validate_services m = Ok tt →
  let p := svc_provides (man_services m) in
  let c := svc_consumes (man_services m) in
  NoDup (map (λ s, (sdef_service s, sdef_method s, sdef_schema_version s)) p) ∧
  (∀ s, s ∈ p → declared m (sdef_required_permission s)) ∧
  NoDup (map (λ d, (sdep_extension_id d, sdep_service d, sdep_method d, sdep_schema_version d)) c) ∧
  (∀ d, d ∈ c → declared m (sdep_required_permission d)) ∧
  (p ≠ [] ∨ c ≠ [] ↔ ServiceKind ∈ man_types m).
Proof.
  unfold validate_services. rewrite !reject_Ok, !bind_Ok. unfold declares_kind.
  intros (Hk & Hk' & seen & Hp & H). apply bind_Ok in H as (seen' & Hc & _).
  destruct (for_each_from_seen _ _ _ (validate_provided_service_seen _) _ _ _ Hp) as [Hpd Hpa].
  destruct (for_each_from_seen _ _ _ (validate_consumed_service_seen _) _ _ _ Hc) as [Hcd Hca].
  simpl. split_and!; [|by intros s [_ ?]%Hpa| |by intros d [_ ?]%Hca|].
  - by apply (NoDup_map_through _ (λ t : string * string * string, service_key t.1.1 t.1.2 t.2)).
  - by apply (NoDup_map_through _ (λ t : string * string * string * string,
      t.1.1.1 +:+ ":" +:+ service_key t.1.1.2 t.1.2 t.2)).
  - destruct (bool_decide_reflect (ServiceKind ∈ man_types m)),
      (svc_provides (man_services m)), (svc_consumes (man_services m)); simpl in *;
      split; auto; by intros [].
Qed.

Lemma validate_tool_output_closed m :
  validate_tool_output m = Ok tt →
  NoDup (map tod_tool_id (man_tool_output m)) ∧
  (∀ d, d ∈ man_tool_output m → tod_tool_id d ∈ map tool_def_id (man_tools m)) ∧
  (man_tool_output m ≠ [] → ToolOutputCustomizer ∈ man_types m).
Proof.
  unfold validate_tool_output. rewrite needs_kind_Ok, bind_Ok. unfold declares_kind.
  rewrite bool_decide_eq_true. intros (Hk & seen & Hl & _).
  destruct (for_each_from_seen _ _ _ (validate_tool_output_definition_seen _) _ _ _ Hl) as [Hnd Hall].
  split_and!; [done| |done]. intros d [_ Hd]%Hall. by apply elem_of_list_to_set in Hd.
Qed.

Lemma validate_hooks_closed m b :
  validate_hooks m b = Ok tt →
  NoDup (map hook_id (man_hooks m)) ∧
  (∀ h, h ∈ man_hooks m →
     verified (hook_verification h) b ∧ well_named (hook_required_capabilities h)) ∧
  (man_hooks m ≠ [] → HookProvider ∈ man_types m).
Proof.
  unfold validate_hooks. rewrite needs_kind_Ok, bind_Ok. unfold declares_kind.
  rewrite bool_decide_eq_true. intros (Hk & seen & Hl & _).
  destruct (for_each_from_seen _ _ _ (validate_hook_seen _) _ _ _ Hl) as [Hnd Hall].
  split_and!; [done| |done]. by intros h [_ ?]%Hall.
Qed.

Lemma validate_webhooks_closed m b :
  validate_webhooks m b = Ok tt →
  NoDup (map webhook_id (man_webhooks m)) ∧
  (∀ w, w ∈ man_webhooks m →
     verified (webhook_verification w) b ∧ well_named (webhook_required_capabilities w) ∧
     ∃ url rest, webhook_endpoint w = Some url ∧ strip_prefix "https://" url = Some rest) ∧
  (man_webhooks m ≠ [] → WebhookReceiver ∈ man_types m).
Proof.
  unfold validate_webhooks. rewrite needs_kind_Ok, bind_Ok. unfold declares_kind.
  rewrite bool_decide_eq_true. intros (Hk & seen & Hl & _).
  destruct (for_each_from_seen _ _ _ (validate_webhook_seen _) _ _ _ Hl) as [Hnd Hall].
  split_and!; [done| |done]. by intros w [_ ?]%Hall.
Qed.

(** C28: An accepted manifest is closed for its tools and services: every
    permission a tool or a service requires is declared under a well-formed name,
    every customised output belongs to a declared tool, ids and service keys are
    unique, and declarations come with their kind.  Hooks and webhooks are
    checked by themselves: the capabilities they require have well-formed names
    (validation does not ask that the manifest declares them), webhooks have https
    endpoints, and unverified hooks and webhooks are local. *)
Theorem accepted_manifests_are_closed m p v :
  validate_manifest m p = Ok v → closed m (validated_boundary v).
Proof.
  intros [_ [_ _ _ _ _ _ _ _ _ Hd]]%validate_manifest_Ok.
  unfold validate_declarations in Hd. rewrite !then_Ok in Hd.
  destruct Hd as (Hperm & Ht%validate_tools_closed & Hs%validate_services_closed &
    Ho%validate_tool_output_closed & Hh%validate_hooks_closed & Hw%validate_webhooks_closed & _).
  destruct Ht as (? & ? & ?), Hs as (? & ? & ? & ? & ?), Ho as (? & ? & ?), Hh as (? & ? & ?),
    Hw as (? & ? & ?).
  split; try done. intros k x Hk. unfold validate_permissions in Hperm. rewrite for_each_Ok in Hperm.
  specialize (Hperm (k, x)). rewrite elem_of_btree_to_list in Hperm. apply Hperm in Hk.
  unfold validate_permission in Hk. rewrite !then_Ok in Hk. by destruct Hk.
Qed.
