(* ===== verification/Registry.v ===== *)
(** * Registry: the extension registry ([crates/atelia-core/src/extensions.rs])

    The state of [ExtensionRegistry] and its operations.  An operation that
    takes [&mut self] returns the new registry; every one of them checks before
    it changes anything, so an error leaves the registry as it was. *)
From S2P Require Import Prelude Text Domain StoreTypes Manifest ManifestCheck.

(** ** Install records and the blocklist *)

Inductive ExtensionInstallStatus :=
  | Installed | Disabled | BlockedInstall | Updating | RollbackInProgress
  | InstalledPreviousVersion.
#[export] Instance ExtensionInstallStatus_eq_dec : EqDecision ExtensionInstallStatus.
Proof. solve_decision. Defined.

Record ExtensionSourceSnapshot := {
  src_source : ProvenanceSource;
  src_repository : option string;
  src_source_ref : option string;
  src_manifest_path : option string;
  src_commit : option string;
  src_registry_identity : option string;
  src_lineage : option ExtensionLineage;
  src_publication : option ExtensionPublication
}.
#[export] Instance ExtensionSourceSnapshot_eq_dec : EqDecision ExtensionSourceSnapshot.
Proof. solve_decision. Defined.

Record RollbackSnapshot := { rbs_manifest_digest : string; rbs_artifact_digest : string }.
#[export] Instance RollbackSnapshot_eq_dec : EqDecision RollbackSnapshot.
Proof. solve_decision. Defined.

Record ExtensionInstallRecord := {
  inst_id : string;
  inst_version : string;
  inst_manifest_digest : string;
  inst_artifact_digest : string;
  inst_source : ExtensionSourceSnapshot;
  inst_boundary : ExtensionBoundary;
  inst_status : ExtensionInstallStatus;
  inst_previous_version : option string;
  inst_approved_permissions : list string;
  inst_approved_local_unsigned : bool;
  inst_approved_local_process_runtime : bool;
  inst_rollback_snapshot : option RollbackSnapshot
}.
#[export] Instance ExtensionInstallRecord_eq_dec : EqDecision ExtensionInstallRecord.
Proof. solve_decision. Defined.

(** Assignments to fields of an install record. *)
Definition inst_set_status (r : ExtensionInstallRecord) (st : ExtensionInstallStatus)
  : ExtensionInstallRecord := {|
  inst_id := inst_id r; inst_version := inst_version r;
  inst_manifest_digest := inst_manifest_digest r; inst_artifact_digest := inst_artifact_digest r;
  inst_source := inst_source r; inst_boundary := inst_boundary r; inst_status := st;
  inst_previous_version := inst_previous_version r;
  inst_approved_permissions := inst_approved_permissions r;
  inst_approved_local_unsigned := inst_approved_local_unsigned r;
  inst_approved_local_process_runtime := inst_approved_local_process_runtime r;
  inst_rollback_snapshot := inst_rollback_snapshot r |}.
Definition inst_set_source (r : ExtensionInstallRecord) (src : ExtensionSourceSnapshot)
  : ExtensionInstallRecord := {|
  inst_id := inst_id r; inst_version := inst_version r;
  inst_manifest_digest := inst_manifest_digest r; inst_artifact_digest := inst_artifact_digest r;
  inst_source := src; inst_boundary := inst_boundary r; inst_status := inst_status r;
  inst_previous_version := inst_previous_version r;
  inst_approved_permissions := inst_approved_permissions r;
  inst_approved_local_unsigned := inst_approved_local_unsigned r;
  inst_approved_local_process_runtime := inst_approved_local_process_runtime r;
  inst_rollback_snapshot := inst_rollback_snapshot r |}.
Definition inst_clear_previous_version (r : ExtensionInstallRecord) : ExtensionInstallRecord := {|
  inst_id := inst_id r; inst_version := inst_version r;
  inst_manifest_digest := inst_manifest_digest r; inst_artifact_digest := inst_artifact_digest r;
  inst_source := inst_source r; inst_boundary := inst_boundary r; inst_status := inst_status r;
  inst_previous_version := None;
  inst_approved_permissions := inst_approved_permissions r;
  inst_approved_local_unsigned := inst_approved_local_unsigned r;
  inst_approved_local_process_runtime := inst_approved_local_process_runtime r;
  inst_rollback_snapshot := inst_rollback_snapshot r |}.
Definition src_set_publication (s : ExtensionSourceSnapshot) (p : option ExtensionPublication)
  : ExtensionSourceSnapshot := {|
  src_source := src_source s; src_repository := src_repository s;
  src_source_ref := src_source_ref s; src_manifest_path := src_manifest_path s;
  src_commit := src_commit s; src_registry_identity := src_registry_identity s;
  src_lineage := src_lineage s; src_publication := p |}.

(** [trim_optional_str], [trim_optional_string] *)
Definition trim_optional_string (value : option string) : option string :=
  opt_filter (λ trimmed, negb (str_is_empty trimmed)) (trim <$> value).

Definition from_provenance (p : ExtensionProvenance) : ExtensionSourceSnapshot := {|
  src_source := prov_source p;
  src_repository := trim_optional_string (prov_repository p);
  src_source_ref := trim_optional_string (prov_source_ref p);
  src_manifest_path := trim_optional_string (prov_manifest_path p);
  src_commit := prov_commit p;
  src_registry_identity := trim_optional_string (prov_registry_identity p);
  src_lineage := prov_lineage p;
  src_publication := prov_publication p |}.

Definition matches_authority (a b : ExtensionSourceSnapshot) : bool :=
  bool_decide (src_source a = src_source b)
  && bool_decide (trim_optional_string (src_repository a) = trim_optional_string (src_repository b))
  && bool_decide (trim_optional_string (src_source_ref a) = trim_optional_string (src_source_ref b))
  && bool_decide (trim_optional_string (src_manifest_path a)
                  = trim_optional_string (src_manifest_path b))
  && bool_decide (trim_optional_string (src_registry_identity a)
                  = trim_optional_string (src_registry_identity b))
  && bool_decide (src_lineage a = src_lineage b).

Inductive BlockKey :=
  | KeyExtensionId (id : string)
  | KeyVersion (id version : string)
  | KeyArtifactDigest (digest : string)
  | KeySigner (signer : string)
  | KeyPublisher (publisher : string)
  | KeySourceRepository (repository : string)
  | KeyPermissionPattern (pattern : string)
  | KeyVulnerabilityId (id : string).
Inductive BlockReason :=
  | Malware | ManifestMismatch | OverPermissioned | VulnerableVersion | CompromisedSigner
  | PolicyViolation | UserBlocked | RegistryRemoved.
#[export] Instance BlockKey_eq_dec : EqDecision BlockKey.
Proof. solve_decision. Defined.
#[export] Instance BlockReason_eq_dec : EqDecision BlockReason.
Proof. solve_decision. Defined.

Record BlocklistEntry := {
  block_key : BlockKey;
  block_reason : BlockReason;
  block_note : option string
}.
#[export] Instance BlocklistEntry_eq_dec : EqDecision BlocklistEntry.
Proof. solve_decision. Defined.

Definition star : ascii := "*".
Definition permission_matches (pattern permission : string) : bool :=
  match strip_suffix_char star pattern with
  | Some prefix => starts_with prefix permission
  | None => str_eqb pattern permission
  end.

(** [value.is_some_and(|v| v.trim() == other.trim())] *)
Definition trimmed_is (value : option string) (other : string) : bool :=
  match value with Some v => str_eqb (trim v) (trim other) | None => false end.

Definition matches_manifest (entry : BlocklistEntry) (manifest : ExtensionManifest) : bool :=
  match block_key entry with
  | KeyExtensionId id => str_eqb (man_id manifest) id
  | KeyVersion id version => str_eqb (man_id manifest) id && str_eqb (man_version manifest) version
  | KeyArtifactDigest digest => str_eqb (prov_artifact_digest (man_provenance manifest)) digest
  | KeySigner signer => trimmed_is (prov_signer (man_provenance manifest)) signer
  | KeyPublisher publisher => str_eqb (trim (publisher_name (man_publisher manifest))) (trim publisher)
  | KeySourceRepository repository =>
      trimmed_is (prov_repository (man_provenance manifest)) repository
  | KeyPermissionPattern pattern =>
      existsb (permission_matches pattern) (btree_to_list (man_permissions manifest)).*1
  | KeyVulnerabilityId _ => false
  end.

(** ** Errors *)

Inductive RegistryError :=
  | RegValidation (e : ExtensionValidationError)
  | UnsupportedBlocklistKey (key : BlockKey)
  | RegBlocked (extension_id : string) (reason : BlockReason) (key : BlockKey)
  | DigestConflict (extension_id version : string)
  | SourceChangeRequiresApproval (extension_id : string)
  | NotInstalled (extension_id : string)
  | RollbackUnavailable (extension_id : string)
  | ServiceDenied (reason : Message)
  | ServiceUnavailable (reason : Message).
Abbreviation RegistryResult := (result RegistryError).

(** [{:?}] of the reasons and keys of the blocklist. *)
Definition block_reason_debug (r : BlockReason) : string :=
  match r with
  | Malware => "Malware" | ManifestMismatch => "ManifestMismatch"
  | OverPermissioned => "OverPermissioned" | VulnerableVersion => "VulnerableVersion"
  | CompromisedSigner => "CompromisedSigner" | PolicyViolation => "PolicyViolation"
  | UserBlocked => "UserBlocked" | RegistryRemoved => "RegistryRemoved"
  end.
Definition block_key_debug (k : BlockKey) : Message :=
  match k with
  | KeyExtensionId id => Fmt "ExtensionId({:?})" [ADbgStr id]
  | KeyVersion id version => Fmt "Version { id: {:?}, version: {:?} }" [ADbgStr id; ADbgStr version]
  | KeyArtifactDigest d => Fmt "ArtifactDigest({:?})" [ADbgStr d]
  | KeySigner s => Fmt "Signer({:?})" [ADbgStr s]
  | KeyPublisher p => Fmt "Publisher({:?})" [ADbgStr p]
  | KeySourceRepository r => Fmt "SourceRepository({:?})" [ADbgStr r]
  | KeyPermissionPattern p => Fmt "PermissionPattern({:?})" [ADbgStr p]
  | KeyVulnerabilityId v => Fmt "VulnerabilityId({:?})" [ADbgStr v]
  end.

(** [Display] of the error. *)
Definition registry_error_display (e : RegistryError) : Message :=
  match e with
  | RegValidation error => validation_error_display error
  | UnsupportedBlocklistKey key =>
      Fmt "unsupported blocklist key: {key:?}" [AMsg (block_key_debug key)]
  | RegBlocked extension_id reason key =>
      Fmt "extension {extension_id} is blocklisted by {reason:?}: {key:?}"
        [AStr extension_id; AStr (block_reason_debug reason); AMsg (block_key_debug key)]
  | DigestConflict extension_id version =>
      Fmt "extension {extension_id} version {version} changed digest"
        [AStr extension_id; AStr version]
  | SourceChangeRequiresApproval extension_id =>
      Fmt "extension {extension_id} changed source provenance and requires explicit approval"
        [AStr extension_id]
  | NotInstalled extension_id => Fmt "extension {extension_id} is not installed" [AStr extension_id]
  | RollbackUnavailable extension_id =>
      Fmt "extension {extension_id} has no rollback target" [AStr extension_id]
  | ServiceDenied reason => Fmt "service call denied: {reason}" [AMsg reason]
  | ServiceUnavailable reason => Fmt "service unavailable: {reason}" [AMsg reason]
  end.

(** ** Audit records *)

Inductive ExtensionRegistryAuditKind :=
  | AuditInstall | AuditUpdate | AuditRollback | AuditDisable | AuditEnable | AuditRemove
  | AuditPublicationUpdate | AuditRegistrySubmissionUpdate | AuditBlocklistApply.

Record ExtensionRegistryAuditRecordRef := {
  ref_package_id : string;
  ref_version : string;
  ref_manifest_digest : string;
  ref_artifact_digest : string;
  ref_status : ExtensionInstallStatus
}.

Record ExtensionRegistryAuditProvenance := {
  ap_source : ProvenanceSource;
  ap_repository : option string;
  ap_source_ref : option string;
  ap_manifest_path : option string;
  ap_commit : option string;
  ap_registry_identity : option string;
  ap_publication : option ExtensionPublication
}.

Record ExtensionRegistryAuditRecord := {
  ra_id : AuditRecordId;
  ra_schema_version : N;
  ra_created_at : LedgerTimestamp;
  ra_kind : ExtensionRegistryAuditKind;
  ra_actor : Actor;
  ra_request_source : string;
  ra_reason : string;
  ra_policy_decision_id : option PolicyDecisionId;
  ra_package_id : option string;
  ra_previous_record : option ExtensionRegistryAuditRecordRef;
  ra_new_record : option ExtensionRegistryAuditRecordRef;
  ra_provenance : option ExtensionRegistryAuditProvenance;
  ra_blocklist_entry : option BlocklistEntry
}.

Definition ref_of_record (record : ExtensionInstallRecord) : ExtensionRegistryAuditRecordRef := {|
  ref_package_id := inst_id record; ref_version := inst_version record;
  ref_manifest_digest := inst_manifest_digest record;
  ref_artifact_digest := inst_artifact_digest record; ref_status := inst_status record |}.

Definition provenance_of_source (s : ExtensionSourceSnapshot) : ExtensionRegistryAuditProvenance := {|
  ap_source := src_source s; ap_repository := src_repository s; ap_source_ref := src_source_ref s;
  ap_manifest_path := src_manifest_path s; ap_commit := src_commit s;
  ap_registry_identity := src_registry_identity s; ap_publication := src_publication s |}.

(** ** The registry *)

(** [BTreeMap<String, BTreeMap<String, V>>]: by package id, then by version. *)
Abbreviation versions V := (gmap string (gmap string V)).
Definition get_version {V} (m : versions V) (id version : string) : option V :=
  match m !! id with Some vs => vs !! version | None => None end.
(** [entry(id).or_default().insert(version, v)] *)
Definition put_version {V} (m : versions V) (id version : string) (v : V) : versions V :=
  <[id := <[version := v]> (default ∅ (m !! id))]> m.

Record ExtensionRegistry := {
  reg_manifests : versions ExtensionManifest;
  reg_records : versions ExtensionInstallRecord;
  reg_active_versions : gmap string string;
  reg_blocklist : list BlocklistEntry;
  reg_audit_records : list ExtensionRegistryAuditRecord;
  reg_validation_policy : ManifestValidationPolicy
}.

Record ExtensionRegistrySnapshot := {
  snap_manifests : versions ExtensionManifest;
  snap_records : versions ExtensionInstallRecord;
  snap_active_versions : gmap string string;
  snap_blocklist : list BlocklistEntry;
  snap_audit_records : list ExtensionRegistryAuditRecord
}.

Definition snapshot_default : ExtensionRegistrySnapshot := {|
  snap_manifests := ∅; snap_records := ∅; snap_active_versions := ∅; snap_blocklist := [];
  snap_audit_records := [] |}.

(** Assignments to fields of the registry. *)
Definition reg_set_records (r : ExtensionRegistry) (records : versions ExtensionInstallRecord)
  : ExtensionRegistry := {|
  reg_manifests := reg_manifests r; reg_records := records;
  reg_active_versions := reg_active_versions r; reg_blocklist := reg_blocklist r;
  reg_audit_records := reg_audit_records r; reg_validation_policy := reg_validation_policy r |}.
Definition reg_set_manifests (r : ExtensionRegistry) (manifests : versions ExtensionManifest)
  : ExtensionRegistry := {|
  reg_manifests := manifests; reg_records := reg_records r;
  reg_active_versions := reg_active_versions r; reg_blocklist := reg_blocklist r;
  reg_audit_records := reg_audit_records r; reg_validation_policy := reg_validation_policy r |}.
Definition reg_set_active (r : ExtensionRegistry) (active : gmap string string)
  : ExtensionRegistry := {|
  reg_manifests := reg_manifests r; reg_records := reg_records r; reg_active_versions := active;
  reg_blocklist := reg_blocklist r; reg_audit_records := reg_audit_records r;
  reg_validation_policy := reg_validation_policy r |}.
Definition reg_push_blocklist (r : ExtensionRegistry) (entry : BlocklistEntry)
  : ExtensionRegistry := {|
  reg_manifests := reg_manifests r; reg_records := reg_records r;
  reg_active_versions := reg_active_versions r; reg_blocklist := reg_blocklist r ++ [entry];
  reg_audit_records := reg_audit_records r; reg_validation_policy := reg_validation_policy r |}.
Definition reg_push_audit_record (r : ExtensionRegistry) (record : ExtensionRegistryAuditRecord)
  : ExtensionRegistry := {|
  reg_manifests := reg_manifests r; reg_records := reg_records r;
  reg_active_versions := reg_active_versions r; reg_blocklist := reg_blocklist r;
  reg_audit_records := reg_audit_records r ++ [record];
  reg_validation_policy := reg_validation_policy r |}.

Definition registry_new (validation_policy : ManifestValidationPolicy) : ExtensionRegistry := {|
  reg_manifests := ∅; reg_records := ∅; reg_active_versions := ∅; reg_blocklist := [];
  reg_audit_records := []; reg_validation_policy := validation_policy |}.
Definition in_memory : ExtensionRegistry := registry_new validation_policy_default.

Definition snapshot (r : ExtensionRegistry) : ExtensionRegistrySnapshot := {|
  snap_manifests := reg_manifests r; snap_records := reg_records r;
  snap_active_versions := reg_active_versions r; snap_blocklist := reg_blocklist r;
  snap_audit_records := reg_audit_records r |}.

Definition with_record_approvals (policy : ManifestValidationPolicy)
  (record : ExtensionInstallRecord) : ManifestValidationPolicy :=
  let effective := if inst_approved_local_unsigned record then with_local_unsigned policy
                   else policy in
  if inst_approved_local_process_runtime record then with_local_process_runtime effective
  else effective.
