(* ===== verification/RegistryAudit.v ===== *)
(** * RegistryAudit: validation of registry snapshots and audit records
    ([crates/atelia-core/src/extensions.rs])

    What [append_audit_record] checks of a new audit record, and what
    [from_snapshot] and the store check of a whole snapshot. *)
From S2P Require Import Prelude Text Domain StoreTypes Manifest ManifestCheck Registry.

(** ** Audit records *)

Definition audit_kind_debug (k : ExtensionRegistryAuditKind) : string :=
  match k with
  | AuditInstall => "Install" | AuditUpdate => "Update" | AuditRollback => "Rollback"
  | AuditDisable => "Disable" | AuditEnable => "Enable" | AuditRemove => "Remove"
  | AuditPublicationUpdate => "PublicationUpdate"
  | AuditRegistrySubmissionUpdate => "RegistrySubmissionUpdate"
  | AuditBlocklistApply => "BlocklistApply"
  end.

(** [require_..(field, value).map_err(|err| err.to_string())] *)
Definition validate_audit_reverse_dns_id (field value : string) : result Message unit :=
  map_err validation_error_display (require_reverse_dns_id field value).
Definition validate_audit_semver (field value : string) : result Message unit :=
  map_err validation_error_display (require_semver field value).
Definition validate_audit_digest (field value : string) : result Message unit :=
  map_err validation_error_display (require_digest field value).

Definition validate_audit_optional_trimmed (field : string) (value : option string)
  : result Message unit :=
  match value with
  | Some value =>
      reject? is_blank value with Fmt "{field} must not be empty" [AStr field] in
      reject? negb (str_eqb (trim value) value)
        with Fmt "{field} must not contain surrounding whitespace" [AStr field] in
      Ok tt
  | None => Ok tt
  end.

Definition require_audit_optional_value (field : string) (value : option string)
  : result Message unit :=
  if is_some value then Ok tt else Err (Fmt "{field} must not be empty" [AStr field]).

Definition require_audit_package_id (record : ExtensionRegistryAuditRecord) : result Message unit :=
  reject? is_none (ra_package_id record)
    with Fmt "{:?} audits must include audit.package_id" [AStr (audit_kind_debug (ra_kind record))] in
  Ok tt.
Definition require_audit_previous_record (record : ExtensionRegistryAuditRecord)
  : result Message unit :=
  reject? is_none (ra_previous_record record)
    with Fmt "{:?} audits must include audit.previous_record"
           [AStr (audit_kind_debug (ra_kind record))] in
  Ok tt.
Definition require_audit_new_record (record : ExtensionRegistryAuditRecord) : result Message unit :=
  reject? is_none (ra_new_record record)
    with Fmt "{:?} audits must include audit.new_record" [AStr (audit_kind_debug (ra_kind record))] in
  Ok tt.
Definition require_audit_provenance (record : ExtensionRegistryAuditRecord) : result Message unit :=
  reject? is_none (ra_provenance record)
    with Fmt "{:?} audits must include audit.provenance" [AStr (audit_kind_debug (ra_kind record))] in
  Ok tt.

Definition validate_extension_registry_audit_record_ref (field : string)
  (record_ref : ExtensionRegistryAuditRecordRef) : result Message unit :=
  let? _ := validate_audit_reverse_dns_id field (ref_package_id record_ref) in
  let? _ := validate_audit_semver field (ref_version record_ref) in
  let? _ := validate_audit_digest field (ref_manifest_digest record_ref) in
  validate_audit_digest field (ref_artifact_digest record_ref).

Definition validate_extension_registry_audit_provenance (p : ExtensionRegistryAuditProvenance)
  : result Message unit :=
  let? _ := validate_audit_optional_trimmed "audit.provenance.repository" (ap_repository p) in
  let? _ := validate_audit_optional_trimmed "audit.provenance.ref" (ap_source_ref p) in
  let? _ := validate_audit_optional_trimmed "audit.provenance.manifest_path" (ap_manifest_path p) in
  let? _ := validate_audit_optional_trimmed "audit.provenance.commit" (ap_commit p) in
  let? _ := validate_audit_optional_trimmed "audit.provenance.registry_identity"
              (ap_registry_identity p) in
  match ap_source p with
  | Github =>
      let? _ := require_audit_optional_value "audit.provenance.repository" (ap_repository p) in
      let? _ := require_audit_optional_value "audit.provenance.ref" (ap_source_ref p) in
      let? _ := require_audit_optional_value "audit.provenance.manifest_path" (ap_manifest_path p) in
      require_audit_optional_value "audit.provenance.commit" (ap_commit p)
  | RegistrySource =>
      require_audit_optional_value "audit.provenance.registry_identity" (ap_registry_identity p)
  | LocalSource => Ok tt
  end.

Definition reject_unscoped_blocklist_audit_target (record : ExtensionRegistryAuditRecord)
  : result Message unit :=
  reject? is_some (ra_package_id record) || is_some (ra_previous_record record)
          || is_some (ra_new_record record) || is_some (ra_provenance record)
    with msg "blocklist apply audits for unscoped blocklist keys must not include package target refs" in
  Ok tt.

Definition validate_blocklist_audit_package_id (key_name : string)
  (record : ExtensionRegistryAuditRecord) (package_id : string) : result Message unit :=
  match ra_package_id record with
  | None => Err (Fmt "blocklist apply audits for {key_name} must include audit.package_id"
                   [AStr key_name])
  | Some audit_package_id =>
      reject? negb (str_eqb audit_package_id package_id)
        with Fmt "audit.package_id {audit_package_id} does not match audit.blocklist_entry extension id {package_id}"
               [AStr audit_package_id; AStr package_id] in
      Ok tt
  end.

Definition validate_blocklist_audit_record_ref_package (field : string)
  (record_ref : option ExtensionRegistryAuditRecordRef) (package_id : string)
  : result Message unit :=
  match record_ref with
  | Some record_ref =>
      reject? negb (str_eqb (ref_package_id record_ref) package_id)
        with Fmt "{field}.package_id {} does not match audit.blocklist_entry extension id {package_id}"
               [AStr field; AStr (ref_package_id record_ref); AStr package_id] in
      Ok tt
  | None => Ok tt
  end.

Definition validate_blocklist_audit_record_ref_version (field : string)
  (record_ref : option ExtensionRegistryAuditRecordRef) (package_id version : string)
  : result Message unit :=
  let? _ := validate_blocklist_audit_record_ref_package field record_ref package_id in
  match record_ref with
  | Some record_ref =>
      reject? negb (str_eqb (ref_version record_ref) version)
        with Fmt "{field}.version {} does not match audit.blocklist_entry version {version}"
               [AStr field; AStr (ref_version record_ref); AStr version] in
      Ok tt
  | None => Ok tt
  end.

Definition validate_blocklist_audit_payload (record : ExtensionRegistryAuditRecord)
  : result Message unit :=
  match ra_blocklist_entry record with
  | None => Err (msg "blocklist apply audits must include audit.blocklist_entry")
  | Some entry =>
      match block_key entry with
      | KeyExtensionId package_id =>
          let? _ := validate_blocklist_audit_package_id "extension ids" record package_id in
          let? _ := validate_blocklist_audit_record_ref_package "audit.previous_record"
                      (ra_previous_record record) package_id in
          validate_blocklist_audit_record_ref_package "audit.new_record" (ra_new_record record)
            package_id
      | KeyVersion id version =>
          let? _ := validate_blocklist_audit_package_id "versions" record id in
          let? _ := validate_blocklist_audit_record_ref_version "audit.previous_record"
                      (ra_previous_record record) id version in
          validate_blocklist_audit_record_ref_version "audit.new_record" (ra_new_record record)
            id version
      | KeyArtifactDigest _ | KeySigner _ | KeyPublisher _ | KeySourceRepository _
      | KeyPermissionPattern _ => reject_unscoped_blocklist_audit_target record
      | KeyVulnerabilityId _ =>
          Err (msg "blocklist apply audits must not use unsupported vulnerability_id keys")
      end
  end.

Definition validate_extension_registry_audit_kind_payload (record : ExtensionRegistryAuditRecord)
  : result Message unit :=
  match ra_kind record with
  | AuditInstall =>
      let? _ := require_audit_package_id record in
      let? _ := require_audit_new_record record in
      require_audit_provenance record
  | AuditUpdate | AuditRollback | AuditDisable | AuditEnable | AuditPublicationUpdate
  | AuditRegistrySubmissionUpdate =>
      let? _ := require_audit_package_id record in
      let? _ := require_audit_previous_record record in
      let? _ := require_audit_new_record record in
      require_audit_provenance record
  | AuditRemove =>
      let? _ := require_audit_package_id record in
      let? _ := require_audit_previous_record record in
      require_audit_provenance record
  | AuditBlocklistApply => validate_blocklist_audit_payload record
  end.

(** [if let Some(value) = &value { check(value)?; }] *)
Definition when_some {E A} (check : A → result E unit) (value : option A) : result E unit :=
  match value with Some a => check a | None => Ok tt end.

Definition validate_extension_registry_audit_record (record : ExtensionRegistryAuditRecord)
  (seen_ids : gset AuditRecordId) : result Message (gset AuditRecordId) :=
  reject? negb (ra_schema_version record =? EXTENSION_REGISTRY_AUDIT_SCHEMA_VERSION)%N
    with Fmt "unsupported audit schema_version {}" [ANum (Z.of_N (ra_schema_version record))] in
  reject? is_blank (ra_reason record) with msg "audit.reason must not be empty" in
  reject? is_blank (ra_request_source record) with msg "audit.request_source must not be empty" in
  reject? bool_decide (ra_id record ∈ seen_ids)
    with Fmt "duplicate audit id {}" [AId (ra_id record)] in
  let? _ := when_some (validate_audit_reverse_dns_id "audit.package_id") (ra_package_id record) in
  let? _ := when_some (validate_extension_registry_audit_record_ref "audit.previous_record")
              (ra_previous_record record) in
  let? _ := when_some (validate_extension_registry_audit_record_ref "audit.new_record")
              (ra_new_record record) in
  let? _ := when_some validate_extension_registry_audit_provenance (ra_provenance record) in
  let? _ := validate_extension_registry_audit_kind_payload record in
  Ok ({[ra_id record]} ∪ seen_ids).

Definition validate_audit_record_package_match (field package_id : string)
  (record_ref : ExtensionRegistryAuditRecordRef) : result Message unit :=
  reject? negb (str_eqb (ref_package_id record_ref) package_id)
    with Fmt "{field} {} does not match audit.package_id {package_id}"
           [AStr field; AStr (ref_package_id record_ref); AStr package_id] in
  Ok tt.

Definition validate_audit_record_target (field : string)
  (record_ref : ExtensionRegistryAuditRecordRef) (records : versions ExtensionInstallRecord)
  (enforce_current_status : bool) : result Message unit :=
  match records !! ref_package_id record_ref with
  | None => Err (Fmt "{field} references unknown package {}"
                   [AStr field; AStr (ref_package_id record_ref)])
  | Some record_versions =>
      match record_versions !! ref_version record_ref with
      | None => Err (Fmt "{field} references unknown version {} for package {}"
                       [AStr field; AStr (ref_version record_ref); AStr (ref_package_id record_ref)])
      | Some record =>
          reject? negb (str_eqb (inst_manifest_digest record) (ref_manifest_digest record_ref))
            with Fmt "{field} manifest digest does not match persisted record {}:{}"
                   [AStr field; AStr (ref_package_id record_ref); AStr (ref_version record_ref)] in
          reject? negb (str_eqb (inst_artifact_digest record) (ref_artifact_digest record_ref))
            with Fmt "{field} artifact digest does not match persisted record {}:{}"
                   [AStr field; AStr (ref_package_id record_ref); AStr (ref_version record_ref)] in
          reject? enforce_current_status
                  && negb (bool_decide (inst_status record = ref_status record_ref))
            with Fmt "{field} status does not match persisted record {}:{}"
                   [AStr field; AStr (ref_package_id record_ref); AStr (ref_version record_ref)] in
          Ok tt
      end
  end.

Definition validate_extension_registry_audit_targets (audit_record : ExtensionRegistryAuditRecord)
  (records : versions ExtensionInstallRecord) (enforce_current_status : bool)
  : result Message unit :=
  let? _ := match ra_package_id audit_record with
            | Some package_id =>
                let? _ := when_some (validate_audit_record_package_match
                                       "audit.previous_record.package_id" package_id)
                            (ra_previous_record audit_record) in
                when_some (validate_audit_record_package_match
                             "audit.new_record.package_id" package_id)
                  (ra_new_record audit_record)
            | None => Ok tt
            end in
  let? _ := when_some (λ r, validate_audit_record_target "audit.previous_record" r records false)
              (ra_previous_record audit_record) in
  when_some (λ r, validate_audit_record_target "audit.new_record" r records enforce_current_status)
    (ra_new_record audit_record).

(** ** Rollback chains *)

(** The loop of [detect_rollback_cycle]; the outer [None] is running out of
    fuel, which [detect_rollback_cycle_fuel] (in [RegistryLaws]) excludes. *)
Fixpoint rollback_cycle_loop (records : gmap string ExtensionInstallRecord) (fuel : nat)
  (visited : gset string) (current_version : string) : option (option string) :=
  match fuel with
  | O => None
  | S fuel =>
      match records !! current_version with
      | None => Some None
      | Some record =>
          if bool_decide (current_version ∈ visited) then Some (Some current_version)
          else match inst_previous_version record with
               | None => Some None
               | Some previous =>
                   rollback_cycle_loop records fuel ({[current_version]} ∪ visited) previous
               end
      end
  end.
(** Every iteration visits another installed version. *)
Definition detect_rollback_cycle (records : gmap string ExtensionInstallRecord)
  (start_version : string) : option string :=
  default None (rollback_cycle_loop records (S (size records)) ∅ start_version).

(** ** Snapshots *)

Definition validate_snapshot_record (manifests : versions ExtensionManifest) (extension_id : string)
  (records : gmap string ExtensionInstallRecord) (entry : string * ExtensionInstallRecord)
  : result Message unit :=
  let '(version, record) := entry in
  let id_version := [AStr extension_id; AStr version] in
  match manifests !! extension_id with
  | None => Err (Fmt "missing manifests map for extension {extension_id} in snapshot"
                   [AStr extension_id])
  | Some manifests =>
      match manifests !! version with
      | None => Err (Fmt "active manifest missing for extension {extension_id} version {version}"
                       id_version)
      | Some manifest =>
          reject? negb (str_eqb (inst_id record) extension_id)
            with Fmt "record id {} does not match extension map key {}"
                   [AStr (inst_id record); AStr extension_id] in
          reject? negb (str_eqb (inst_version record) version)
            with Fmt "record version {} does not match extension map key {}"
                   [AStr (inst_version record); AStr version] in
          let? _ := when_some (λ previous_version,
                      reject? str_eqb previous_version version
                        with Fmt "record {extension_id}:{version} has self-referential previous_version"
                               id_version in
                      reject? negb (map_has manifests previous_version)
                              || negb (map_has records previous_version)
                        with Fmt "record {extension_id}:{version} references missing previous_version {previous_version}"
                               (id_version ++ [AStr previous_version]) in
                      Ok tt) (inst_previous_version record) in
          let? _ := when_some (λ cycle_entry_version,
                      Err (Fmt "record {extension_id}:{version} has rollback-cycle previous_version chain involving {cycle_entry_version}"
                             (id_version ++ [AStr cycle_entry_version])))
                      (detect_rollback_cycle records version) in
          reject? negb (str_eqb (man_id manifest) extension_id)
            with Fmt "manifest id {} does not match extension map key {}"
                   [AStr (man_id manifest); AStr extension_id] in
          reject? negb (str_eqb (man_version manifest) version)
            with Fmt "manifest version {} does not match extension map key {}"
                   [AStr (man_version manifest); AStr version] in
          reject? negb (str_eqb (prov_artifact_digest (man_provenance manifest))
                          (inst_artifact_digest record))
            with Fmt "artifact digest mismatch for extension {extension_id} version {version}"
                   id_version in
          reject? negb (str_eqb (prov_manifest_digest (man_provenance manifest))
                          (inst_manifest_digest record))
            with Fmt "manifest digest mismatch for extension {extension_id} version {version}"
                   id_version in
          reject? negb (bool_decide (inst_source record = from_provenance (man_provenance manifest)))
            with Fmt "source snapshot mismatch for extension {extension_id} version {version}"
                   id_version in
          Ok tt
      end
  end.

Definition validate_snapshot_manifest (records : versions ExtensionInstallRecord)
  (extension_id : string) (entry : string * ExtensionManifest) : result Message unit :=
  let '(version, manifest) := entry in
  let id_version := [AStr extension_id; AStr version] in
  match records !! extension_id with
  | None => Err (Fmt "missing records map for extension {extension_id} in snapshot"
                   [AStr extension_id])
  | Some records =>
      match records !! version with
      | None => Err (Fmt "missing record for extension {extension_id} version {version}" id_version)
      | Some record =>
          reject? negb (str_eqb (man_id manifest) extension_id)
                  || negb (str_eqb (man_version manifest) version)
            with Fmt "manifest key {extension_id}:{version} does not match manifest body {}:{}"
                   (id_version ++ [AStr (man_id manifest); AStr (man_version manifest)]) in
          reject? negb (str_eqb (prov_artifact_digest (man_provenance manifest))
                          (inst_artifact_digest record))
            with Fmt "record artifact digest mismatch for extension {extension_id} version {version}"
                   id_version in
          reject? negb (str_eqb (prov_manifest_digest (man_provenance manifest))
                          (inst_manifest_digest record))
            with Fmt "record manifest digest mismatch for extension {extension_id} version {version}"
                   id_version in
          Ok tt
      end
  end.

Definition validate_snapshot_active (snapshot : ExtensionRegistrySnapshot) (entry : string * string)
  : result Message unit :=
  let '(extension_id, active_version) := entry in
  let id_version := [AStr extension_id; AStr active_version] in
  let? records := ok_or (snap_records snapshot !! extension_id)
    (Fmt "active extension {extension_id} has no record map" [AStr extension_id]) in
  let? _ := ok_or (records !! active_version)
    (Fmt "active extension {extension_id} references unknown version {active_version}" id_version) in
  let? manifests := ok_or (snap_manifests snapshot !! extension_id)
    (Fmt "active extension {extension_id} has no manifest map" [AStr extension_id]) in
  let? _ := ok_or (manifests !! active_version)
    (Fmt "active extension {extension_id} references unknown manifest version {active_version}"
       id_version) in
  Ok tt.

Definition is_vulnerability_key (k : BlockKey) : bool :=
  match k with KeyVulnerabilityId _ => true | _ => false end.

(** [for (id, versions) in map { for entry in versions { body(id, versions, entry)?; } }] *)
Definition for_each_version {E V} (body : string → gmap string V → string * V → result E unit)
  (m : versions V) : result E unit :=
  for_each (λ p, for_each (body p.1 p.2) (btree_to_list p.2)) (btree_to_list m).

Definition validate_extension_registry_snapshot (snapshot : ExtensionRegistrySnapshot)
  : result Message unit :=
  let? _ := for_each_from (λ audit_ids record, validate_extension_registry_audit_record record audit_ids)
              ∅ (snap_audit_records snapshot) in
  let? _ := for_each_version (validate_snapshot_record (snap_manifests snapshot))
              (snap_records snapshot) in
  let? _ := for_each_version (λ id _, validate_snapshot_manifest (snap_records snapshot) id)
              (snap_manifests snapshot) in
  let? _ := for_each (validate_snapshot_active snapshot)
              (btree_to_list (snap_active_versions snapshot)) in
  reject? existsb (λ entry, is_vulnerability_key (block_key entry)) (snap_blocklist snapshot)
    with msg "extension blocklist contains unsupported vulnerability_id key" in
  for_each (λ record, validate_extension_registry_audit_targets record (snap_records snapshot) false)
    (snap_audit_records snapshot).

Definition validate_snapshot_record_manifest (snapshot : ExtensionRegistrySnapshot)
  (policy : ManifestValidationPolicy) (extension_id : string)
  (_ : gmap string ExtensionInstallRecord) (entry : string * ExtensionInstallRecord)
  : result Message unit :=
  let '(version, record) := entry in
  let id_version := [AStr extension_id; AStr version] in
  let? manifest := ok_or (get_version (snap_manifests snapshot) extension_id version)
    (Fmt "manifest missing for extension {extension_id} version {version}" id_version) in
  let effective_policy := with_record_approvals policy record in
  let? validated := map_err (λ error,
      Fmt "manifest validation failed for extension {extension_id} version {version}: {error}"
        (id_version ++ [AMsg (validation_error_display error)]))
    (validate_manifest manifest effective_policy) in
  reject? negb (bool_decide (validated_boundary validated = inst_boundary record))
    with Fmt "boundary mismatch for extension {extension_id} version {version}: manifest validates as {:?}, record stores {:?}"
           (id_version ++ [AStr (boundary_debug (validated_boundary validated));
                           AStr (boundary_debug (inst_boundary record))]) in
  Ok tt.
Definition validate_extension_registry_snapshot_manifests (snapshot : ExtensionRegistrySnapshot)
  (policy : ManifestValidationPolicy) : result Message unit :=
  for_each_version (validate_snapshot_record_manifest snapshot policy) (snap_records snapshot).

Definition validate_with_policy (snapshot : ExtensionRegistrySnapshot)
  (policy : ManifestValidationPolicy) : result Message unit :=
  let? _ := validate_extension_registry_snapshot snapshot in
  validate_extension_registry_snapshot_manifests snapshot policy.

Definition from_snapshot (snapshot : ExtensionRegistrySnapshot)
  (validation_policy : ManifestValidationPolicy) : result Message ExtensionRegistry :=
  let? _ := validate_with_policy snapshot validation_policy in
  Ok {| reg_manifests := snap_manifests snapshot; reg_records := snap_records snapshot;
        reg_active_versions := snap_active_versions snapshot;
        reg_blocklist := snap_blocklist snapshot; reg_audit_records := snap_audit_records snapshot;
        reg_validation_policy := validation_policy |}.

(** ** Repair of a loaded snapshot ([store.rs]) *)

(** [values_mut()] over the records of each package: a version that is its own
    previous version forgets it.  The flag says whether any did. *)
Definition refers_to_itself (version : string) (record : ExtensionInstallRecord) : bool :=
  bool_decide (inst_previous_version record = Some version).
Definition repair_record (version : string) (record : ExtensionInstallRecord)
  : ExtensionInstallRecord :=
  if refers_to_itself version record then inst_clear_previous_version record else record.
Definition repair_records (records : gmap string ExtensionInstallRecord)
  : gmap string ExtensionInstallRecord := map_imap (λ v r, Some (repair_record v r)) records.
Definition repair_loaded_extension_registry_snapshot (snapshot : ExtensionRegistrySnapshot)
  : ExtensionRegistrySnapshot * bool :=
  ({| snap_manifests := snap_manifests snapshot;
      snap_records := repair_records <$> snap_records snapshot;
      snap_active_versions := snap_active_versions snapshot;
      snap_blocklist := snap_blocklist snapshot;
      snap_audit_records := snap_audit_records snapshot |},
   existsb (λ p, existsb (λ q, refers_to_itself q.1 q.2) (btree_to_list p.2))
     (btree_to_list (snap_records snapshot))).

(** The registry as the store sees it. *)
Definition registry_port : RegistryPort := {|
  registry_snapshot := ExtensionRegistrySnapshot;
  registry_default := snapshot_default;
  registry_validate s := validate_with_policy s validation_policy_default;
  registry_repair := repair_loaded_extension_registry_snapshot |}.
