(* ===== verification/RegistryOps.v ===== *)
(** * RegistryOps: the operations of the extension registry
    ([crates/atelia-core/src/extensions.rs], [impl ExtensionRegistry])

    The methods of [ExtensionRegistry]; [ExtensionRegistryService] wraps them
    one to one in request and response records, of which the options of
    [install] are modelled. *)
From S2P Require Import Prelude Text Domain StoreTypes Manifest ManifestCheck.
From S2P Require Import Registry RegistryAudit.

(** ** Options and results *)

Record InstallOptions := {
  io_approve_local_unsigned : option bool;
  io_allow_local_process_runtime : option bool;
  io_approve_source_change : option bool
}.
(** [InstallOptions::from(&request)]: a flag of the request that is not set
    leaves the decision to the policy of the registry. *)
Definition install_options_from (approve_local_unsigned allow_local_process_runtime
  approve_source_change : bool) : InstallOptions :=
  let flag (b : bool) := if b then Some true else None in
  {| io_approve_local_unsigned := flag approve_local_unsigned;
     io_allow_local_process_runtime := flag allow_local_process_runtime;
     io_approve_source_change := flag approve_source_change |}.

Record ExtensionBlocklistMatch := { blm_reason : BlockReason; blm_key : BlockKey }.
Record ExtensionStatusSnapshot := {
  ess_extension_id : string;
  ess_record : ExtensionInstallRecord;
  ess_block : option ExtensionBlocklistMatch
}.
Record ValidateExtensionManifestResponse := {
  vemr_manifest : ExtensionManifest;
  vemr_boundary : ExtensionBoundary
}.
Record ServiceCallRequest := {
  scr_caller_extension_id : string;
  scr_callee_extension_id : string;
  scr_service : string;
  scr_method : string;
  scr_schema_version : string;
  scr_required_permission : option string
}.
Record ServiceCallGrant := {
  scg_caller_extension_id : string;
  scg_caller_version : string;
  scg_callee_extension_id : string;
  scg_callee_version : string;
  scg_service : string;
  scg_method : string;
  scg_schema_version : string;
  scg_required_permission : string
}.

(** ** Reading the registry *)

Definition find_blocklist_hit (r : ExtensionRegistry) (manifest : ExtensionManifest)
  : option BlocklistEntry := find_bool (λ entry, matches_manifest entry manifest) (reg_blocklist r).

Definition ensure_not_blocked (r : ExtensionRegistry) (manifest : ExtensionManifest)
  : RegistryResult unit :=
  match find_blocklist_hit r manifest with
  | Some entry => Err (RegBlocked (man_id manifest) (block_reason entry) (block_key entry))
  | None => Ok tt
  end.

Definition active_record (r : ExtensionRegistry) (extension_id : string)
  : option ExtensionInstallRecord :=
  match reg_active_versions r !! extension_id with
  | Some version => get_version (reg_records r) extension_id version
  | None => None
  end.
Definition active_manifest (r : ExtensionRegistry) (extension_id : string)
  : option ExtensionManifest :=
  match reg_active_versions r !! extension_id with
  | Some version => get_version (reg_manifests r) extension_id version
  | None => None
  end.

Definition ensure_same_version_digest_is_stable (r : ExtensionRegistry)
  (manifest : ExtensionManifest) : RegistryResult unit :=
  match get_version (reg_records r) (man_id manifest) (man_version manifest) with
  | None => Ok tt
  | Some existing =>
      reject? negb (str_eqb (inst_manifest_digest existing)
                      (prov_manifest_digest (man_provenance manifest)))
              || negb (str_eqb (inst_artifact_digest existing)
                         (prov_artifact_digest (man_provenance manifest)))
        with DigestConflict (man_id manifest) (man_version manifest) in
      Ok tt
  end.

Definition ensure_source_change_is_approved (r : ExtensionRegistry) (manifest : ExtensionManifest)
  (options : InstallOptions) : RegistryResult unit :=
  match active_record r (man_id manifest) with
  | None => Ok tt
  | Some current =>
      let next := from_provenance (man_provenance manifest) in
      if matches_authority (inst_source current) next
         || bool_decide (io_approve_source_change options = Some true)
      then Ok tt
      else Err (SourceChangeRequiresApproval (man_id manifest))
  end.

Definition with_install_options (policy : ManifestValidationPolicy) (options : InstallOptions)
  : ManifestValidationPolicy :=
  let policy := match io_approve_local_unsigned options with
                | Some b => set_allow_local_unsigned policy b
                | None => policy
                end in
  match io_allow_local_process_runtime options with
  | Some b => set_allow_local_process_runtime policy b
  | None => policy
  end.

Definition run_validation_checks (r : ExtensionRegistry) (manifest : ExtensionManifest)
  (options : InstallOptions)
  : RegistryResult (ValidatedExtensionManifest * ManifestValidationPolicy) :=
  let validation_policy := with_install_options (reg_validation_policy r) options in
  let? validated := map_err RegValidation (validate_manifest manifest validation_policy) in
  let? _ := ensure_not_blocked r (validated_manifest validated) in
  let? _ := ensure_same_version_digest_is_stable r (validated_manifest validated) in
  let? _ := ensure_source_change_is_approved r (validated_manifest validated) options in
  Ok (validated, validation_policy).

(** [validate]: the checks of [install], without its effect. *)
Definition registry_check (r : ExtensionRegistry) (manifest : ExtensionManifest)
  (options : InstallOptions) : RegistryResult ValidateExtensionManifestResponse :=
  let? '(validated, _) := run_validation_checks r manifest options in
  Ok {| vemr_manifest := validated_manifest validated;
        vemr_boundary := validated_boundary validated |}.

(** ** Installing *)

(** The loop of [install_would_create_rollback_cycle]; [None] is running out of
    fuel. *)
Fixpoint would_cycle_loop (records : gmap string ExtensionInstallRecord) (version : string)
  (fuel : nat) (visited : gset string) (next_version : option string) : option bool :=
  match fuel with
  | O => None
  | S fuel =>
      match next_version with
      | None => Some false
      | Some current_version =>
          if str_eqb current_version version then Some true
          else if bool_decide (current_version ∈ visited) then Some false
          else would_cycle_loop records version fuel ({[current_version]} ∪ visited)
                 (match records !! current_version with
                  | Some record => inst_previous_version record
                  | None => None
                  end)
      end
  end.
(** Every iteration but the last two visits another installed version. *)
Definition install_would_create_rollback_cycle (r : ExtensionRegistry)
  (extension_id version : string) : bool :=
  let records := default ∅ (reg_records r !! extension_id) in
  default false (would_cycle_loop records version (S (S (S (size records)))) ∅
                   (reg_active_versions r !! extension_id)).

Definition install_previous_version (r : ExtensionRegistry) (id version : string) : option string :=
  match reg_active_versions r !! id with
  | Some active_version =>
      if str_eqb active_version version then
        match get_version (reg_records r) id active_version with
        | Some existing => inst_previous_version existing
        | None => None
        end
      else Some active_version
  | None => None
  end.

Definition install_record (r : ExtensionRegistry) (validated : ValidatedExtensionManifest)
  (validation_policy : ManifestValidationPolicy) : ExtensionInstallRecord :=
  let manifest := validated_manifest validated in
  let prov := man_provenance manifest in
  {| inst_id := man_id manifest; inst_version := man_version manifest;
     inst_manifest_digest := prov_manifest_digest prov;
     inst_artifact_digest := prov_artifact_digest prov;
     inst_source := from_provenance prov; inst_boundary := validated_boundary validated;
     inst_status := Installed;
     inst_previous_version := install_previous_version r (man_id manifest) (man_version manifest);
     inst_approved_permissions := (btree_to_list (man_permissions manifest)).*1;
     inst_rollback_snapshot := Some {| rbs_manifest_digest := prov_manifest_digest prov;
                                       rbs_artifact_digest := prov_artifact_digest prov |};
     inst_approved_local_unsigned := allow_local_unsigned validation_policy;
     inst_approved_local_process_runtime := allow_local_process_runtime validation_policy |}.

Definition install (r : ExtensionRegistry) (manifest : ExtensionManifest) (options : InstallOptions)
  : RegistryResult (ExtensionRegistry * ExtensionInstallRecord) :=
  let? '(validated, validation_policy) := run_validation_checks r manifest options in
  let manifest := validated_manifest validated in
  reject? is_some (get_version (reg_records r) (man_id manifest) (man_version manifest))
          && match reg_active_versions r !! man_id manifest with
             | Some active_version => negb (str_eqb active_version (man_version manifest))
             | None => false
             end
          && install_would_create_rollback_cycle r (man_id manifest) (man_version manifest)
    with RegValidation (InvalidField "version"
           (Fmt "version {} is already installed for {} but inactive"
              [AStr (man_version manifest); AStr (man_id manifest)])) in
  let record := install_record r validated validation_policy in
  let r := reg_set_manifests r
             (put_version (reg_manifests r) (inst_id record) (inst_version record) manifest) in
  let r := reg_set_records r
             (put_version (reg_records r) (inst_id record) (inst_version record) record) in
  Ok (reg_set_active r (<[inst_id record := inst_version record]> (reg_active_versions r)), record).

(** ** Lifecycle *)

Definition rollback (r : ExtensionRegistry) (extension_id : string)
  : RegistryResult (ExtensionRegistry * ExtensionInstallRecord) :=
  let? current := ok_or (active_record r extension_id) (NotInstalled extension_id) in
  let? previous_version :=
    ok_or (inst_previous_version current) (RollbackUnavailable extension_id) in
  let? previous_manifest :=
    ok_or (get_version (reg_manifests r) extension_id previous_version)
      (RollbackUnavailable extension_id) in
  let? _ := ensure_not_blocked r previous_manifest in
  let? previous_record :=
    ok_or (get_version (reg_records r) extension_id previous_version)
      (RollbackUnavailable extension_id) in
  let previous_record := inst_set_status previous_record InstalledPreviousVersion in
  let r := reg_set_active r (<[extension_id := previous_version]> (reg_active_versions r)) in
  Ok (reg_set_records r (put_version (reg_records r) extension_id previous_version previous_record),
      previous_record).

Definition disable (r : ExtensionRegistry) (extension_id : string)
  : RegistryResult (ExtensionRegistry * ExtensionInstallRecord) :=
  let? version := ok_or (reg_active_versions r !! extension_id) (NotInstalled extension_id) in
  let? record := ok_or (get_version (reg_records r) extension_id version)
                   (NotInstalled extension_id) in
  let record := inst_set_status record Disabled in
  Ok (reg_set_records r (put_version (reg_records r) extension_id version record), record).

Definition enable (r : ExtensionRegistry) (extension_id : string)
  : RegistryResult (ExtensionRegistry * ExtensionInstallRecord) :=
  let? version := ok_or (reg_active_versions r !! extension_id) (NotInstalled extension_id) in
  let? manifest := ok_or (get_version (reg_manifests r) extension_id version)
                     (NotInstalled extension_id) in
  let? _ := ensure_not_blocked r manifest in
  let? record := ok_or (get_version (reg_records r) extension_id version)
                   (NotInstalled extension_id) in
  let record := inst_set_status record Installed in
  Ok (reg_set_records r (put_version (reg_records r) extension_id version record), record).

Definition remove (r : ExtensionRegistry) (extension_id : string)
  : RegistryResult (ExtensionRegistry * ExtensionInstallRecord) :=
  let? version := ok_or (reg_active_versions r !! extension_id) (NotInstalled extension_id) in
  let? record := ok_or (get_version (reg_records r) extension_id version)
                   (NotInstalled extension_id) in
  let r := reg_set_active r (delete extension_id (reg_active_versions r)) in
  let record := inst_set_status record Disabled in
  Ok (reg_set_records r (put_version (reg_records r) extension_id version record), record).

(** ** Publication *)

(** A submission the registry has already decided on is kept. *)
Definition keep_submission (current : option ExtensionPublication) (p : ExtensionPublication)
  : ExtensionPublication :=
  match pub_registry_submission <$> current with
  | Some ((Submitted | Accepted | Rejected) as state) =>
      {| pub_visibility := pub_visibility p; pub_registry_submission := state |}
  | _ => p
  end.

Definition update_publication (r : ExtensionRegistry) (extension_id : string)
  (publication : ExtensionPublication)
  : RegistryResult (ExtensionRegistry * ExtensionInstallRecord) :=
  let? version := ok_or (reg_active_versions r !! extension_id) (NotInstalled extension_id) in
  let? manifest := ok_or (get_version (reg_manifests r) extension_id version)
                     (NotInstalled extension_id) in
  let? record := ok_or (get_version (reg_records r) extension_id version)
                   (NotInstalled extension_id) in
  let publication := keep_submission (src_publication (inst_source record)) publication in
  let manifest := man_set_publication manifest (Some publication) in
  let effective_policy := with_record_approvals (reg_validation_policy r) record in
  let? _ := map_err RegValidation (validate_manifest manifest effective_policy) in
  let? _ := ensure_not_blocked r manifest in
  let r := reg_set_manifests r (put_version (reg_manifests r) extension_id version manifest) in
  let record := inst_set_source record
                  (src_set_publication (inst_source record)
                     (prov_publication (man_provenance manifest))) in
  Ok (reg_set_records r (put_version (reg_records r) extension_id version record), record).

Definition update_registry_submission (r : ExtensionRegistry) (extension_id : string)
  (registry_submission : ExtensionRegistrySubmission) (registry_identity : option string)
  : RegistryResult (ExtensionRegistry * ExtensionInstallRecord) :=
  let? version := ok_or (reg_active_versions r !! extension_id) (NotInstalled extension_id) in
  let? record := ok_or (get_version (reg_records r) extension_id version)
                   (NotInstalled extension_id) in
  let? existing_publication := ok_or (src_publication (inst_source record))
    (RegValidation (MissingField "provenance.publication")) in
  let? manifest := ok_or (get_version (reg_manifests r) extension_id version)
                     (NotInstalled extension_id) in
  let existing_registry_identity :=
    trim_optional_string (prov_registry_identity (man_provenance manifest)) in
  let registry_identity := trim_optional_string registry_identity in
  reject? is_some existing_registry_identity && is_some registry_identity
          && negb (bool_decide (existing_registry_identity = registry_identity))
    with SourceChangeRequiresApproval extension_id in
  let manifest := if is_none existing_registry_identity
                  then man_set_registry_identity manifest registry_identity else manifest in
  let manifest := man_set_publication manifest
    (Some {| pub_visibility := pub_visibility existing_publication;
             pub_registry_submission := registry_submission |}) in
  let effective_policy := with_record_approvals (reg_validation_policy r) record in
  let? _ := map_err RegValidation (validate_manifest manifest effective_policy) in
  let? _ := ensure_not_blocked r manifest in
  let manifest := man_set_registry_identity manifest
    (trim_optional_string (prov_registry_identity (man_provenance manifest))) in
  let persisted_source := from_provenance (man_provenance manifest) in
  let r := reg_set_manifests r (put_version (reg_manifests r) extension_id version manifest) in
  let record := inst_set_source record persisted_source in
  Ok (reg_set_records r (put_version (reg_records r) extension_id version record), record).

(** ** Status, blocklist and audit trail *)

Definition extension_status (r : ExtensionRegistry) (extension_id : string)
  : RegistryResult ExtensionStatusSnapshot :=
  let? manifest := ok_or (active_manifest r extension_id) (NotInstalled extension_id) in
  let? record := ok_or (active_record r extension_id) (NotInstalled extension_id) in
  let block := (λ entry, {| blm_reason := block_reason entry; blm_key := block_key entry |})
                 <$> find_blocklist_hit r manifest in
  let record := if is_some block then inst_set_status record BlockedInstall else record in
  Ok {| ess_extension_id := extension_id; ess_record := record; ess_block := block |}.

Definition list_extension_statuses (r : ExtensionRegistry)
  : RegistryResult (list ExtensionStatusSnapshot) :=
  try_map (extension_status r) (btree_to_list (reg_active_versions r)).*1.

(** [ExtensionRegistryService::list_extensions] *)
Definition list_extensions (r : ExtensionRegistry) (include_blocked : bool)
  : RegistryResult (list ExtensionStatusSnapshot) :=
  let? extensions := list_extension_statuses r in
  Ok (if include_blocked then extensions
      else List.filter (λ s, is_none (ess_block s)) extensions).

Definition add_blocklist_entry (r : ExtensionRegistry) (entry : BlocklistEntry)
  : RegistryResult ExtensionRegistry :=
  reject? is_vulnerability_key (block_key entry) with UnsupportedBlocklistKey (block_key entry) in
  Ok (reg_push_blocklist r entry).

Definition append_audit_record (r : ExtensionRegistry) (record : ExtensionRegistryAuditRecord)
  : RegistryResult ExtensionRegistry :=
  let seen_ids : gset AuditRecordId := list_to_set (map ra_id (reg_audit_records r)) in
  let invalid (reason : Message) := RegValidation (InvalidField "audit.record" reason) in
  let? _ := map_err invalid (validate_extension_registry_audit_record record seen_ids) in
  let? _ := map_err invalid
              (validate_extension_registry_audit_targets record (reg_records r) true) in
  Ok (reg_push_audit_record r record).

Definition audit_records_window (r : ExtensionRegistry) (start limit : N)
  : list ExtensionRegistryAuditRecord :=
  take (N.to_nat limit) (drop (N.to_nat start) (reg_audit_records r)).

(** ** Service calls *)

Definition ensure_active_record_enabled (r : ExtensionRegistry) (extension_id role : string)
  : RegistryResult unit :=
  let? record := ok_or (active_record r extension_id) (NotInstalled extension_id) in
  let denied (template : string) :=
    Err (ServiceDenied (Fmt template [AStr role; AStr extension_id])) in
  match inst_status record with
  | Installed | InstalledPreviousVersion => Ok tt
  | Disabled => denied "{role} extension {extension_id} is disabled"
  | BlockedInstall => denied "{role} extension {extension_id} is blocked"
  | Updating | RollbackInProgress =>
      denied "{role} extension {extension_id} is not ready for service calls"
  end.

Definition consumes_call (request : ServiceCallRequest) (d : ExtensionServiceDependency) : bool :=
  str_eqb (sdep_extension_id d) (scr_callee_extension_id request)
  && str_eqb (sdep_service d) (scr_service request)
  && str_eqb (sdep_method d) (scr_method request)
  && str_eqb (sdep_schema_version d) (scr_schema_version request).
Definition provides_call (request : ServiceCallRequest) (d : ExtensionServiceDefinition) : bool :=
  str_eqb (sdef_service d) (scr_service request)
  && str_eqb (sdef_method d) (scr_method request)
  && str_eqb (sdef_schema_version d) (scr_schema_version request).

Definition authorize_service_call (r : ExtensionRegistry) (request : ServiceCallRequest)
  : RegistryResult ServiceCallGrant :=
  let caller := scr_caller_extension_id request in
  let callee := scr_callee_extension_id request in
  let denied (reason : string) := ServiceDenied (msg reason) in
  let? _ := ensure_active_record_enabled r caller "caller" in
  let? _ := ensure_active_record_enabled r callee "callee" in
  let? caller_manifest := ok_or (active_manifest r caller) (NotInstalled caller) in
  let? callee_manifest := ok_or (active_manifest r callee) (NotInstalled callee) in
  let? _ := ensure_not_blocked r caller_manifest in
  let? _ := ensure_not_blocked r callee_manifest in
  let? consume := ok_or
    (find_bool (consumes_call request) (svc_consumes (man_services caller_manifest)))
    (denied "caller did not declare services.consumes for this callee service") in
  let? provide := ok_or
    (find_bool (provides_call request) (svc_provides (man_services callee_manifest)))
    (ServiceUnavailable (msg "callee did not declare services.provides for this service")) in
  let required_permission :=
    default (sdef_required_permission provide) (scr_required_permission request) in
  reject? negb (str_eqb (sdep_required_permission consume) required_permission)
          || negb (str_eqb (sdef_required_permission provide) required_permission)
    with denied "caller consume permission, callee provide permission, and request permission must match" in
  let not_approved := ServiceDenied
    (Fmt "caller does not have approved permission {required_permission}"
       [AStr required_permission]) in
  reject? negb (map_has (man_permissions caller_manifest) required_permission)
    with not_approved in
  let? provider_permission := ok_or (man_permissions callee_manifest !! required_permission)
    (ServiceDenied (Fmt "callee permission metadata missing for {required_permission}"
                      [AStr required_permission])) in
  let? caller_permission := ok_or (man_permissions caller_manifest !! required_permission)
    not_approved in
  reject? negb (bool_decide (caller_permission = provider_permission))
    with denied "caller permission metadata does not match provider permission metadata" in
  Ok {| scg_caller_extension_id := caller;
        scg_caller_version := default ""%string (reg_active_versions r !! caller);
        scg_callee_extension_id := callee;
        scg_callee_version := default ""%string (reg_active_versions r !! callee);
        scg_service := scr_service request; scg_method := scr_method request;
        scg_schema_version := scr_schema_version request;
        scg_required_permission := required_permission |}.
