(* ===== verification/RegistryLaws.v ===== *)
(** * RegistryLaws: the extension registry and its invariant *)
From S2P Require Import Prelude Text Domain StoreTypes Manifest ManifestCheck ManifestLaws Registry.
From S2P Require Import RegistryAudit RegistryOps.

(** * Versions and rollback chains of the extension registry

    Lookups in the two-level maps, the relation "rolls back to", and the two
    loops of [extensions.rs] that walk it: both terminate, and they decide
    exactly what they are asked. *)

(** ** Two-level maps *)

Section Versions.
Context {V : Type}.
Implicit Types (m : versions V).

(** The versions of a package. *)
Definition versions_of m (id : string) : gmap string V := default ∅ (m !! id).

Lemma get_version_of m id v : get_version m id v = versions_of m id !! v.
Proof. unfold get_version, versions_of. by destruct (m !! id). Qed.

Lemma versions_of_put m id v x id' :
  versions_of (put_version m id v x) id' =
  if decide (id' = id) then <[v := x]> (versions_of m id) else versions_of m id'.
Proof.
  unfold versions_of, put_version. destruct (decide (id' = id)) as [->|Hne].
  - by rewrite lookup_insert_eq.
  - by rewrite lookup_insert_ne by done.
Qed.

Lemma get_put m id v x id' v' :
  get_version (put_version m id v x) id' v' =
  if decide (id' = id ∧ v' = v) then Some x else get_version m id' v'.
Proof.
  rewrite !get_version_of, versions_of_put. destruct (decide (id' = id)) as [->|Hne].
  - destruct (decide (v' = v)) as [->|Hv].
    + rewrite lookup_insert_eq, decide_True by done. done.
    + rewrite lookup_insert_ne, decide_False by naive_solver. done.
  - rewrite decide_False by naive_solver. done.
Qed.

Lemma get_put_eq m id v x : get_version (put_version m id v x) id v = Some x.
Proof. by rewrite get_put, decide_True. Qed.

Lemma get_put_mono m id v x id' v' :
  is_Some (get_version m id' v') → is_Some (get_version (put_version m id v x) id' v').
Proof. rewrite get_put. case_decide; [by eexists|done]. Qed.

(** Replacing the value of a bound version binds the same versions. *)
Lemma get_put_same m id v x id' v' :
  is_Some (get_version m id v) →
  is_Some (get_version (put_version m id v x) id' v') ↔ is_Some (get_version m id' v').
Proof.
  intros Hs. rewrite get_put. case_decide as Hd; [|done]. destruct Hd as [-> ->].
  split; [done|by eexists].
Qed.

Lemma for_each_version_Ok {E} (body : string → gmap string V → string * V → result E unit) m :
  for_each_version body m = Ok tt ↔
  ∀ id v x, get_version m id v = Some x → body id (versions_of m id) (v, x) = Ok tt.
Proof.
  unfold for_each_version. rewrite for_each_Ok. split.
  - intros H id v x Hget. unfold get_version, versions_of in *.
    destruct (m !! id) as [vs|] eqn:Hid; [|done]. simpl.
    specialize (H (id, vs)). rewrite elem_of_btree_to_list in H. specialize (H Hid).
    rewrite for_each_Ok in H. apply H. by apply elem_of_btree_to_list.
  - intros H [id vs] Hid%elem_of_btree_to_list. simpl. apply for_each_Ok.
    intros [v x] Hx%elem_of_btree_to_list. specialize (H id v x).
    unfold get_version, versions_of in H. rewrite Hid in H. by apply H.
Qed.
End Versions.

(** ** Rollback chains *)

Section Chains.
Context (records : gmap string ExtensionInstallRecord).

Definition previous (v : string) : option string :=
  match records !! v with Some record => inst_previous_version record | None => None end.

(** [w] is the version [v] rolls back to. *)
Definition rolls_back_to (w v : string) : Prop := previous v = Some w.
Definition acyclic : Prop := ∀ v, Acc rolls_back_to v.

(** [w] is on the rollback chain of [v]. *)
Inductive chain : string → string → Prop :=
  | chain_here v : chain v v
  | chain_next v w x : previous v = Some w → chain w x → chain v x.

Lemma chain_step v w x : chain v w → previous w = Some x → chain v x.
Proof. induction 1 as [v|v u w Hu _ IH]; intros Hx; eauto using chain_next, chain_here. Qed.

(** Following the chain from a successor never comes back. *)
Lemma acyclic_no_loop v w : acyclic → previous v = Some w → ¬ chain w v.
Proof.
  intros Hac. induction (Hac v) as [v _ IH] in w |- *. intros Hw Hc.
  inversion Hc as [|? u ? Hu Hcu]; subst.
  - by apply (IH v Hw v Hw), chain_here.
  - apply (IH w Hw u Hu). by apply (chain_step u v).
Qed.

(** Only bound versions are visited, so the loops end within their fuel. *)
Lemma visited_room (visited : gset string) v :
  visited ⊆ dom records → is_Some (records !! v) → v ∉ visited →
  {[v]} ∪ visited ⊆ dom records ∧ size visited < size ({[v]} ∪ visited) ≤ size records.
Proof.
  intros Hsub Hv Hnew.
  assert ({[v]} ∪ visited ⊆ dom records) as Hsub' by (apply elem_of_dom in Hv; set_solver).
  split; [done|]. rewrite size_union by set_solver. rewrite size_singleton.
  split; [lia|]. rewrite <- size_dom.
  pose proof (subseteq_size _ _ Hsub') as Hle. rewrite size_union in Hle by set_solver.
  rewrite size_singleton in Hle. lia.
Qed.

Lemma would_cycle_loop_fuel version fuel visited next :
  visited ⊆ dom records → size records + 3 ≤ fuel + size visited →
  is_Some (would_cycle_loop records version fuel visited next).
Proof.
  revert visited next. induction fuel as [|fuel IH]; intros visited next Hsub Hfuel.
  - pose proof (subseteq_size _ _ Hsub) as Hle. rewrite size_dom in Hle. lia.
  - simpl. destruct next as [c|]; [|by eexists].
    destruct (str_eqb c version); [by eexists|]. case_bool_decide as Hc; [by eexists|].
    destruct (records !! c) as [record|] eqn:Hr.
    + destruct (visited_room visited c Hsub (mk_is_Some _ _ Hr) Hc) as (? & ?). apply IH; [done|lia].
    + pose proof (subseteq_size _ _ Hsub) as Hle. rewrite size_dom in Hle.
      destruct fuel; [lia|]. by eexists.
Qed.

Lemma rollback_cycle_loop_fuel fuel visited current :
  visited ⊆ dom records → size records + 1 ≤ fuel + size visited →
  is_Some (rollback_cycle_loop records fuel visited current).
Proof.
  revert visited current. induction fuel as [|fuel IH]; intros visited current Hsub Hfuel.
  - pose proof (subseteq_size _ _ Hsub) as Hle. rewrite size_dom in Hle. lia.
  - simpl. destruct (records !! current) as [record|] eqn:Hr; [|by eexists].
    case_bool_decide as Hc; [by eexists|]. destruct (inst_previous_version record); [|by eexists].
    destruct (visited_room visited current Hsub (mk_is_Some _ _ Hr) Hc) as (? & ?).
    apply IH; [done|lia].
Qed.

Lemma would_cycle_loop_true version fuel visited next :
  would_cycle_loop records version fuel visited next = Some true →
  ∃ c, next = Some c ∧ chain c version.
Proof.
  revert visited next. induction fuel as [|fuel IH]; intros visited next; simpl; [done|].
  destruct next as [c|]; [|done]. destruct (str_eqb c version) eqn:Hcv.
  { apply str_eqb_eq in Hcv as ->. eauto using chain_here. }
  case_bool_decide; [done|]. intros (w & Hw & Hc)%IH. exists c. split; [done|].
  by apply (chain_next _ w).
Qed.

(** The versions seen so far are closed under rolling back, up to the next one. *)
Definition closed_upto (visited : gset string) (next : option string) : Prop :=
  ∀ x w, x ∈ visited → previous x = Some w → w ∈ visited ∨ next = Some w.

Lemma closed_chain visited x y :
  closed_upto visited None → x ∈ visited → chain x y → y ∈ visited.
Proof.
  intros Hcl Hx Hc. induction Hc as [|? ? ? Hw _ IH]; [done|].
  apply IH. by destruct (Hcl _ _ Hx Hw).
Qed.

Lemma would_cycle_loop_false version fuel visited next :
  would_cycle_loop records version fuel visited next = Some false →
  version ∉ visited → closed_upto visited next →
  ∀ x, x ∈ visited ∨ next = Some x → ¬ chain x version.
Proof.
  revert visited next. induction fuel as [|fuel IH]; intros visited next; simpl; [done|].
  destruct next as [c|]; [destruct (str_eqb c version) eqn:Hcv; [done|apply str_eqb_neq in Hcv]|].
  - case_bool_decide as Hc.
    + intros _ Hv Hcl x Hx Hch. apply Hv, (closed_chain visited x); [|set_solver|done].
      intros y w Hy Hw. destruct (Hcl y w Hy Hw); set_solver.
    + intros Hl Hv Hcl x Hx. eapply IH; [exact Hl|set_solver| |].
      * intros y w [->%elem_of_singleton|Hy]%elem_of_union Hw; [by right|].
        destruct (Hcl y w Hy Hw); set_solver.
      * left. set_solver.
  - intros _ Hv Hcl x [Hx|?] Hch; [|done]. by apply Hv, (closed_chain visited x).
Qed.

Lemma rollback_cycle_loop_acyclic fuel visited current :
  acyclic → (∀ x, x ∈ visited → ∃ w, previous x = Some w ∧ chain w current) →
  default None (rollback_cycle_loop records fuel visited current) = None.
Proof.
  intros Hac. revert visited current. induction fuel as [|fuel IH]; intros visited current Hvis;
    simpl; [done|].
  destruct (records !! current) as [record|] eqn:Hr; [|done]. case_bool_decide as Hc.
  - destruct (Hvis current Hc) as (w & Hw & Hch). by destruct (acyclic_no_loop _ _ Hac Hw).
  - destruct (inst_previous_version record) as [p|] eqn:Hp; [|done].
    assert (previous current = Some p) as Hprev by (unfold previous; by rewrite Hr).
    apply IH. intros x [->%elem_of_singleton|Hx]%elem_of_union.
    + eauto using chain_here.
    + destruct (Hvis x Hx) as (w & Hw & Hch). exists w. split; [done|]. by apply (chain_step w current).
Qed.

Lemma rollback_cycle_loop_Acc fuel visited current :
  rollback_cycle_loop records fuel visited current = Some None → Acc rolls_back_to current.
Proof.
  revert visited current. induction fuel as [|fuel IH]; intros visited current; simpl; [done|].
  destruct (records !! current) as [record|] eqn:Hr.
  - case_bool_decide; [done|]. destruct (inst_previous_version record) as [p|] eqn:Hp.
    + intros Hl%IH. constructor. intros w Hw. unfold rolls_back_to, previous in Hw.
      rewrite Hr in Hw. congruence.
    + intros _. constructor. intros w Hw. unfold rolls_back_to, previous in Hw.
      rewrite Hr in Hw. congruence.
  - intros _. constructor. intros w Hw. unfold rolls_back_to, previous in Hw. by rewrite Hr in Hw.
Qed.

Lemma detect_rollback_cycle_fuel v :
  is_Some (rollback_cycle_loop records (S (size records)) ∅ v).
Proof. apply rollback_cycle_loop_fuel; [set_solver|]. rewrite size_empty. lia. Qed.

(** The detector finds nothing for any version exactly when no chain loops. *)
Lemma detect_rollback_cycle_exact :
  (∀ v, is_Some (records !! v) → detect_rollback_cycle records v = None) ↔ acyclic.
Proof.
  split.
  - intros Hd v. destruct (records !! v) as [record|] eqn:Hr.
    + apply mk_is_Some, Hd in Hr. unfold detect_rollback_cycle in Hr.
      destruct (detect_rollback_cycle_fuel v) as [o Ho]. rewrite Ho in Hr. simpl in Hr. subst o.
      by eapply rollback_cycle_loop_Acc.
    + constructor. intros w Hw. unfold rolls_back_to, previous in Hw. by rewrite Hr in Hw.
  - intros Hac v _. apply rollback_cycle_loop_acyclic; [done|set_solver].
Qed.
End Chains.

(** Pointing a version at one whose chain avoids it keeps the chains finite. *)
Lemma acyclic_insert records v record :
  acyclic records →
  (∀ w, inst_previous_version record = Some w → ¬ chain records w v) →
  acyclic (<[v := record]> records).
Proof.
  intros Hac Hnew.
  assert (∀ x, ¬ chain records x v → Acc (rolls_back_to (<[v := record]> records)) x) as Havoid.
  { intros x. induction (Hac x) as [x _ IH]. intros Hx. constructor. intros w Hw.
    assert (x ≠ v) by (intros ->; apply Hx, chain_here).
    assert (previous records x = Some w) as Hw'.
    { unfold rolls_back_to, previous in *. by rewrite lookup_insert_ne in Hw by done. }
    apply IH; [done|]. intros Hc. by apply Hx, (chain_next _ _ w). }
  assert (Acc (rolls_back_to (<[v := record]> records)) v) as Hv.
  { constructor. intros w Hw. unfold rolls_back_to, previous in Hw. rewrite lookup_insert_eq in Hw.
    by apply Havoid, Hnew. }
  intros x. induction (Hac x) as [x _ IH]. destruct (decide (x = v)) as [->|Hne]; [done|].
  constructor. intros w Hw. apply IH. unfold rolls_back_to, previous in *.
  by rewrite lookup_insert_ne in Hw by done.
Qed.

(** A new record that rolls back where the old one did changes no chain. *)
Lemma acyclic_same records records' :
  (∀ v, previous records' v = previous records v) → acyclic records → acyclic records'.
Proof.
  intros Hsame Hac v. induction (Hac v) as [v _ IH]. constructor. intros w Hw. apply IH.
  unfold rolls_back_to in *. by rewrite <- Hsame.
Qed.

(** [install_would_create_rollback_cycle]: is [version] on the chain of the
    active version? *)
Lemma install_would_create_rollback_cycle_exact r id version :
  install_would_create_rollback_cycle r id version = true ↔
  ∃ active, reg_active_versions r !! id = Some active ∧
            chain (versions_of (reg_records r) id) active version.
Proof.
  unfold install_would_create_rollback_cycle. fold (versions_of (reg_records r) id).
  set (records := versions_of (reg_records r) id).
  destruct (would_cycle_loop_fuel records version (S (S (S (size records)))) ∅
    (reg_active_versions r !! id)) as [b Hb]; [set_solver|rewrite size_empty; lia|].
  rewrite Hb. simpl. split.
  - intros ->. by apply would_cycle_loop_true in Hb.
  - intros (a & Ha & Hc). destruct b; [done|]. exfalso.
    eapply would_cycle_loop_false; [exact Hb|set_solver|by intros ???|right; exact Ha|exact Hc].
Qed.

(** * The invariant of the extension registry

    [registry_wf] is what a registry promises about its packages; the snapshot
    validator of [extensions.rs] accepts exactly the snapshots that have it. *)

(** ** The invariant *)

(** The record of a version agrees with its manifest, which is acceptable under
    the approvals the record was made with. *)
Record linked (p : ManifestValidationPolicy) (id v : string) (record : ExtensionInstallRecord)
  (manifest : ExtensionManifest) : Prop := {
  lk_id : inst_id record = id;
  lk_version : inst_version record = v;
  lk_man_id : man_id manifest = id;
  lk_man_version : man_version manifest = v;
  lk_artifact : prov_artifact_digest (man_provenance manifest) = inst_artifact_digest record;
  lk_manifest : prov_manifest_digest (man_provenance manifest) = inst_manifest_digest record;
  lk_source : inst_source record = from_provenance (man_provenance manifest);
  lk_accepted : accepted manifest (with_record_approvals p record) (inst_boundary record)
}.

(** An audit record that is valid by itself. *)
Definition audit_valid (a : ExtensionRegistryAuditRecord) : Prop :=
  validate_extension_registry_audit_record a ∅ = Ok ({[ra_id a]} ∪ ∅).
(** The versions an audit record refers to are installed with its digests. *)
Definition targets_valid (records : versions ExtensionInstallRecord)
  (a : ExtensionRegistryAuditRecord) : Prop :=
  validate_extension_registry_audit_targets a records false = Ok tt.

Record registry_wf (p : ManifestValidationPolicy) (s : ExtensionRegistrySnapshot) : Prop := {
  rw_linked id v record : get_version (snap_records s) id v = Some record →
    ∃ manifest, get_version (snap_manifests s) id v = Some manifest ∧
                linked p id v record manifest;
  rw_manifests id v manifest : get_version (snap_manifests s) id v = Some manifest →
    is_Some (get_version (snap_records s) id v);
  rw_previous id v record w : get_version (snap_records s) id v = Some record →
    inst_previous_version record = Some w → is_Some (get_version (snap_records s) id w);
  rw_acyclic id : acyclic (versions_of (snap_records s) id);
  rw_active id v : snap_active_versions s !! id = Some v →
    is_Some (get_version (snap_records s) id v);
  rw_blocklist e : e ∈ snap_blocklist s → is_vulnerability_key (block_key e) = false;
  rw_audit_ids : NoDup (map ra_id (snap_audit_records s));
  rw_audits a : a ∈ snap_audit_records s → audit_valid a ∧ targets_valid (snap_records s) a
}.

(** ** The validator is exact *)

Lemma when_some_Ok {E A} (f : A → result E unit) o :
  when_some f o = Ok tt ↔ ∀ a, o = Some a → f a = Ok tt.
Proof. destruct o; simpl; split; [by intros ? ? [= <-]|auto|by intros|done]. Qed.

Lemma validate_audit_record_seen a seen seen' :
  validate_extension_registry_audit_record a seen = Ok seen' ↔
  ra_id a ∉ seen ∧ seen' = {[ra_id a]} ∪ seen ∧ audit_valid a.
Proof.
  unfold audit_valid, validate_extension_registry_audit_record.
  rewrite !reject_Ok, !then_Ok, !bool_decide_eq_false. split.
  - intros (? & ? & ? & ? & ? & ? & ? & ? & ? & [= <-]). split_and!; try done.
  - intros (? & -> & ? & ? & ? & ? & ? & ? & ? & ? & ? & _). by split_and!.
Qed.

Lemma audit_loop_Ok l seen :
  (∃ seen', for_each_from (λ ids a, validate_extension_registry_audit_record a ids) seen l = Ok seen')
  ↔ NoDup (map ra_id l) ∧ ∀ a, a ∈ l → ra_id a ∉ seen ∧ audit_valid a.
Proof.
  revert seen. induction l as [|a l IH]; intros seen; simpl.
  - split; [intros _; split; [apply NoDup_nil_2|by intros a ?%not_elem_of_nil]|eauto].
  - split.
    + intros (seen' & (seen1 & (Hn & -> & Ha)%validate_audit_record_seen & Hl)%bind_Ok).
      destruct (proj1 (IH _) (ex_intro _ _ Hl)) as [Hnd Hall]. split.
      * apply NoDup_cons. split; [|done]. intros (b & Hb & Hin)%list_elem_of_In%in_map_iff.
        apply list_elem_of_In, Hall in Hin as [Hin _]. set_solver.
      * intros b [->|Hb]%elem_of_cons; [done|]. apply Hall in Hb as [Hb ?]. split; [set_solver|done].
    + intros [[Hnotin Hnd]%NoDup_cons Hall].
      destruct (Hall a) as [Hn Ha]; [by left|].
      destruct (proj2 (IH ({[ra_id a]} ∪ seen))) as [seen' Hl].
      * split; [done|]. intros b Hb. destruct (Hall b) as [Hb' Hv]; [by right|]. split; [|exact Hv].
        assert (ra_id b ≠ ra_id a); [|set_solver]. intros Heq. apply Hnotin. rewrite <- Heq.
        apply list_elem_of_In, in_map, list_elem_of_In, Hb.
      * exists seen'. apply bind_Ok. exists ({[ra_id a]} ∪ seen). split; [|done].
        by apply validate_audit_record_seen.
Qed.

Lemma str_eqb_guard a b : negb (str_eqb a b) = false ↔ a = b.
Proof. rewrite negb_false_iff. apply str_eqb_eq. Qed.

Lemma unless_none {E} (f : string → E) o : when_some (λ a, Err (f a)) o = Ok tt ↔ o = None.
Proof. destruct o; simpl; by split. Qed.

(** What the loop over the records checks, read off its guards. *)
Lemma validate_snapshot_record_Ok manifests records id v record :
  validate_snapshot_record manifests id (versions_of records id) (v, record) = Ok tt ↔
  ∃ manifest, get_version manifests id v = Some manifest ∧
    inst_id record = id ∧ inst_version record = v ∧
    (∀ w, inst_previous_version record = Some w →
       w ≠ v ∧ is_Some (get_version manifests id w) ∧ is_Some (get_version records id w)) ∧
    detect_rollback_cycle (versions_of records id) v = None ∧
    man_id manifest = id ∧ man_version manifest = v ∧
    prov_artifact_digest (man_provenance manifest) = inst_artifact_digest record ∧
    prov_manifest_digest (man_provenance manifest) = inst_manifest_digest record ∧
    inst_source record = from_provenance (man_provenance manifest).
Proof.
  unfold validate_snapshot_record. setoid_rewrite get_version_of.
  generalize (versions_of records id). intros rs.
  unfold versions_of. destruct (manifests !! id) as [ms|]; simpl.
  2: { split; [done|]. intros (m & Hm & _). by rewrite lookup_empty in Hm. }
  destruct (ms !! v) as [m|]; [|split; [done|by intros (? & ? & _)]].
  rewrite !reject_Ok, !then_Ok, !reject_Ok, when_some_Ok, unless_none, !str_eqb_guard, negb_false_iff,
    bool_decide_eq_true.
  setoid_rewrite reject_Ok. setoid_rewrite reject_Ok. setoid_rewrite orb_false_iff.
  setoid_rewrite negb_false_iff. setoid_rewrite map_has_true. setoid_rewrite str_eqb_neq.
  split.
  - intros (? & ? & Hp & ? & ? & ? & ? & ? & ? & _). exists m. split_and!; try done.
    intros w Hw. by destruct (Hp w Hw) as (? & (? & ?) & _).
  - intros (m' & [= <-] & ? & ? & Hp & ? & ? & ? & ? & ? & ?). split_and!; try done.
    intros w Hw. by destruct (Hp w Hw) as (? & ? & ?).
Qed.

Lemma validate_snapshot_manifest_Ok records id v manifest :
  validate_snapshot_manifest records id (v, manifest) = Ok tt ↔
  ∃ record, get_version records id v = Some record ∧
    man_id manifest = id ∧ man_version manifest = v ∧
    prov_artifact_digest (man_provenance manifest) = inst_artifact_digest record ∧
    prov_manifest_digest (man_provenance manifest) = inst_manifest_digest record.
Proof.
  unfold validate_snapshot_manifest, get_version.
  destruct (records !! id) as [rs|]; [|split; [done|by intros (? & ? & _)]].
  destruct (rs !! v) as [record|]; [|split; [done|by intros (? & ? & _)]].
  rewrite !reject_Ok, orb_false_iff, !str_eqb_guard. split.
  - intros ((? & ?) & ? & ? & _). by exists record.
  - by intros (? & [= <-] & ? & ? & ? & ?).
Qed.

Lemma validate_snapshot_active_Ok s id v :
  validate_snapshot_active s (id, v) = Ok tt ↔
  is_Some (get_version (snap_records s) id v) ∧ is_Some (get_version (snap_manifests s) id v).
Proof.
  unfold validate_snapshot_active, get_version.
  destruct (snap_records s !! id) as [rs|]; simpl; [|split; [done|by intros [[??] _]]].
  destruct (rs !! v); simpl; [|split; [done|by intros [[??] _]]].
  destruct (snap_manifests s !! id) as [ms|]; simpl; [|split; [done|by intros [_ [??]]]].
  destruct (ms !! v); simpl; split; [by eauto|done|done|by intros [_ [??]]].
Qed.

Lemma validate_snapshot_record_manifest_Ok s p id rs v record manifest :
  get_version (snap_manifests s) id v = Some manifest →
  validate_snapshot_record_manifest s p id rs (v, record) = Ok tt ↔
  accepted manifest (with_record_approvals p record) (inst_boundary record).
Proof.
  intros Hm. unfold validate_snapshot_record_manifest. rewrite Hm. simpl. rewrite bind_Ok. split.
  - intros (val & [Hv1 Hv2]%map_err_Ok%validate_manifest_Ok & [Hb _]%reject_Ok).
    apply negb_false_iff, bool_decide_eq_true in Hb. by rewrite <- Hb.
  - intros Hacc. exists {| validated_manifest := manifest; validated_boundary := inst_boundary record |}.
    rewrite map_err_Ok, validate_manifest_Ok. simpl. split; [done|].
    by rewrite bool_decide_eq_true_2.
Qed.

Lemma validate_extension_registry_snapshot_Ok s :
  validate_extension_registry_snapshot s = Ok tt ↔
  NoDup (map ra_id (snap_audit_records s)) ∧
  (∀ a, a ∈ snap_audit_records s → audit_valid a ∧ targets_valid (snap_records s) a) ∧
  (∀ id v record, get_version (snap_records s) id v = Some record →
     validate_snapshot_record (snap_manifests s) id (versions_of (snap_records s) id) (v, record)
     = Ok tt) ∧
  (∀ id v manifest, get_version (snap_manifests s) id v = Some manifest →
     validate_snapshot_manifest (snap_records s) id (v, manifest) = Ok tt) ∧
  (∀ id v, snap_active_versions s !! id = Some v → validate_snapshot_active s (id, v) = Ok tt) ∧
  (∀ e, e ∈ snap_blocklist s → is_vulnerability_key (block_key e) = false).
Proof.
  unfold validate_extension_registry_snapshot. rewrite bind_Ok. split.
  - intros (ids & Hids & H). rewrite !then_Ok, reject_Ok, !for_each_version_Ok, !for_each_Ok,
      existsb_false in H. destruct H as (Hrec & Hman & Hact & Hblk & Htgt).
    destruct (proj1 (audit_loop_Ok _ _) (ex_intro _ _ Hids)) as [Hnd Haud].
    split_and!; try done.
    + intros a Ha. split; [by apply Haud|by apply Htgt].
    + intros id v Ha. by apply Hact, elem_of_btree_to_list.
  - intros (Hnd & Haud & Hrec & Hman & Hact & Hblk).
    destruct (proj2 (audit_loop_Ok (snap_audit_records s) ∅)) as [ids Hids].
    { split; [done|]. intros a Ha. split; [set_solver|by apply Haud]. }
    exists ids. split; [done|].
    rewrite !then_Ok, reject_Ok, !for_each_version_Ok, !for_each_Ok, existsb_false.
    split_and!; try done; [|by intros a [_ ?]%Haud]. intros [id v] Ha%elem_of_btree_to_list. by apply Hact.
Qed.

Lemma validate_with_policy_sound p s : validate_with_policy s p = Ok tt → registry_wf p s.
Proof.
  unfold validate_with_policy, validate_extension_registry_snapshot_manifests.
  rewrite then_Ok, validate_extension_registry_snapshot_Ok, for_each_version_Ok.
  intros [(Hnd & Haud & Hrec & Hman & Hact & Hblk) Hacc].
  setoid_rewrite validate_snapshot_record_Ok in Hrec.
  setoid_rewrite validate_snapshot_manifest_Ok in Hman.
  split; [| | | | |exact Hblk|exact Hnd|exact Haud].
  - intros id v record Hr. destruct (Hrec id v record Hr) as (m & Hm & ? & ? & _ & _ & ? & ? & ? & ? & ?).
    exists m. split; [done|]. split; try done.
    eapply validate_snapshot_record_manifest_Ok; [done|]. by apply Hacc.
  - intros id v m (record & ? & _)%Hman. by eexists.
  - intros id v record w Hr Hw. destruct (Hrec id v record Hr) as (_ & _ & _ & _ & Hp & _).
    by destruct (Hp w Hw) as (_ & _ & ?).
  - intros id. apply detect_rollback_cycle_exact. intros v [record Hr].
    rewrite <- get_version_of in Hr. by destruct (Hrec id v record Hr) as (? & _ & _ & _ & _ & ? & _).
  - by intros id v [? _]%Hact%validate_snapshot_active_Ok.
Qed.

Lemma validate_with_policy_complete p s : registry_wf p s → validate_with_policy s p = Ok tt.
Proof.
  intros [Hlink Hman Hprev Hac Hact Hblk Hnd Haud].
  assert (∀ id v, is_Some (get_version (snap_records s) id v) →
                  is_Some (get_version (snap_manifests s) id v)) as Hboth.
  { intros id v [record (m & Hm & _)%Hlink]. by eexists. }
  unfold validate_with_policy, validate_extension_registry_snapshot_manifests.
  rewrite then_Ok, validate_extension_registry_snapshot_Ok, for_each_version_Ok.
  split_and!; [exact Hnd|exact Haud| | | |exact Hblk|].
  - intros id v record Hr. apply validate_snapshot_record_Ok.
    destruct (Hlink id v record Hr) as (m & Hm & []). exists m. split_and!; try done.
    + intros w Hw. pose proof (Hprev id v record w Hr Hw) as Hs. split_and!; auto. intros ->.
      apply (acyclic_no_loop _ v v (Hac id)); [|apply chain_here].
      unfold previous. rewrite <- get_version_of, Hr. done.
    + apply detect_rollback_cycle_exact; [apply Hac|]. rewrite <- get_version_of. by eexists.
  - intros id v m Hm. apply validate_snapshot_manifest_Ok.
    destruct (Hman id v m Hm) as [record Hr]. exists record. split; [done|].
    destruct (Hlink id v record Hr) as (m' & Hm' & []). by simplify_eq.
  - intros id v Ha%Hact. apply validate_snapshot_active_Ok. auto.
  - intros id v record Hr. destruct (Hlink id v record Hr) as (m & Hm & []).
    by eapply validate_snapshot_record_manifest_Ok.
Qed.

(** The validator of registry snapshots is exact.  It accepts a snapshot if
    and only if records and manifests are in bijection and agree on ids,
    versions, digests and source, every manifest is acceptable under the
    approvals recorded with it and lies in the recorded boundary, rollback
    chains lead to installed versions and never loop, active versions are
    installed, no blocklist key is of an unsupported kind, and the audit trail
    has unique, well-formed records about installed versions. *)
Theorem snapshot_validation_exact p s : validate_with_policy s p = Ok tt ↔ registry_wf p s.
Proof. split; [apply validate_with_policy_sound|apply validate_with_policy_complete]. Qed.
