(* ===== verification/RegistryInvariant.v ===== *)
(** * RegistryInvariant: every operation of the registry keeps its invariant *)
From S2P Require Import Prelude Text Domain StoreTypes Manifest ManifestCheck.
From S2P Require Import ManifestLaws Registry RegistryAudit RegistryOps RegistryLaws.

(** ** Policies *)

(** The policy without its approvals: the least one with its namespaces. *)
Definition unapproved (p : ManifestValidationPolicy) : ManifestValidationPolicy :=
  set_allow_local_process_runtime (set_allow_local_unsigned p false) false.

Lemma unapproved_le p q :
  official_id_prefix q = official_id_prefix p → local_id_prefix q = local_id_prefix p →
  official_registry_identity q = official_registry_identity p → policy_le (unapproved p) q.
Proof. by split. Qed.

(** The identity of the official registry is written as it is compared. *)
Definition identity_trimmed (p : ManifestValidationPolicy) : Prop :=
  trim_optional_string (Some (official_registry_identity p)) = Some (official_registry_identity p).

Lemma with_record_approvals_le p q record :
  policy_le p q → policy_le (with_record_approvals p record) (with_record_approvals q record).
Proof.
  intros []. unfold with_record_approvals.
  destruct (inst_approved_local_unsigned record), (inst_approved_local_process_runtime record);
    by split.
Qed.

Lemma registry_wf_mono p q s : policy_le p q → registry_wf p s → registry_wf q s.
Proof.
  intros Hle [Hl ???????]. split; try assumption. intros id v record Hr.
  destruct (Hl id v record Hr) as (m & Hm & []). exists m. split; [done|]. split; try assumption.
  eapply accepted_mono; [|eassumption]. by apply with_record_approvals_le.
Qed.

(** ** Audit targets *)

Lemma validate_audit_record_target_Ok f ref records :
  validate_audit_record_target f ref records false = Ok tt ↔
  ∃ record, get_version records (ref_package_id ref) (ref_version ref) = Some record ∧
    inst_manifest_digest record = ref_manifest_digest ref ∧
    inst_artifact_digest record = ref_artifact_digest ref.
Proof.
  unfold validate_audit_record_target, get_version.
  destruct (records !! ref_package_id ref) as [vs|]; [|split; [done|by intros (? & ? & _)]].
  destruct (vs !! ref_version ref) as [record|]; [|split; [done|by intros (? & ? & _)]].
  rewrite !reject_Ok, !str_eqb_guard. split.
  - intros (? & ? & _). by exists record.
  - by intros (? & [= <-] & ? & ?).
Qed.

Lemma validate_audit_record_target_relax f ref records b :
  validate_audit_record_target f ref records b = Ok tt →
  validate_audit_record_target f ref records false = Ok tt.
Proof.
  unfold validate_audit_record_target. by repeat case_match.
Qed.

(** Versions stay, with their digests. *)
Definition keeps_versions (records records' : versions ExtensionInstallRecord) : Prop :=
  ∀ id v record, get_version records id v = Some record →
  ∃ record', get_version records' id v = Some record' ∧
    inst_manifest_digest record' = inst_manifest_digest record ∧
    inst_artifact_digest record' = inst_artifact_digest record.

#[export] Instance keeps_versions_preorder : PreOrder keeps_versions.
Proof.
  split.
  - intros x id v record Hr. by exists record.
  - intros x y z Hxy Hyz id v record (r1 & H1 & E1 & F1)%Hxy.
    destruct (Hyz id v r1 H1) as (r2 & H2 & E2 & F2). exists r2. by rewrite E2, F2.
Qed.

Lemma keeps_put records id v record' :
  (∀ record, get_version records id v = Some record →
     inst_manifest_digest record' = inst_manifest_digest record ∧
     inst_artifact_digest record' = inst_artifact_digest record) →
  keeps_versions records (put_version records id v record').
Proof.
  intros Hd i w record Hr. rewrite get_put. case_decide as He; [|by exists record].
  destruct He as [-> ->]. exists record'. by split; [|apply Hd].
Qed.

Lemma targets_valid_mono records records' a :
  keeps_versions records records' → targets_valid records a → targets_valid records' a.
Proof.
  intros Hk. unfold targets_valid, validate_extension_registry_audit_targets.
  assert (∀ f ref, validate_audit_record_target f ref records false = Ok tt →
                   validate_audit_record_target f ref records' false = Ok tt) as Hone.
  { intros f ref. rewrite !validate_audit_record_target_Ok. intros (r & Hr & Em & Ea).
    destruct (Hk _ _ _ Hr) as (r' & Hr' & Em' & Ea'). exists r'. by rewrite Em', Ea'. }
  rewrite !then_Ok, !when_some_Ok. intros (H1 & H2 & H3). split_and!; eauto.
Qed.

(** ** Putting a version *)

(** The one way operations change packages: a version gets a record and a
    manifest that agree, with the digests it had and a chain that stays finite. *)
Lemma registry_wf_put p s s' id v record manifest :
  registry_wf p s →
  snap_records s' = put_version (snap_records s) id v record →
  (∀ i w, get_version (snap_manifests s') i w =
          if decide (i = id ∧ w = v) then Some manifest else get_version (snap_manifests s) i w) →
  linked p id v record manifest →
  (∀ old, get_version (snap_records s) id v = Some old →
     inst_manifest_digest record = inst_manifest_digest old ∧
     inst_artifact_digest record = inst_artifact_digest old) →
  (∀ w, inst_previous_version record = Some w → is_Some (get_version (snap_records s) id w)) →
  acyclic (<[v := record]> (versions_of (snap_records s) id)) →
  (∀ i w, snap_active_versions s' !! i = Some w → is_Some (get_version (snap_records s') i w)) →
  snap_blocklist s' = snap_blocklist s → snap_audit_records s' = snap_audit_records s →
  registry_wf p s'.
Proof.
  intros [Hl Hm Hp Hac _ Hb Hi Ha] Hr Hms Hlk Hd Hprev Hac' Hact Hb' Ha'.
  split; [| | | | |rewrite Hb'; exact Hb|rewrite Ha'; exact Hi|].
  - intros i w x Hx. rewrite Hr, get_put in Hx. rewrite Hms. case_decide as He.
    + destruct He as [-> ->]. injection Hx as <-. by exists manifest.
    + by apply Hl.
  - intros i w x Hx. rewrite Hms in Hx. rewrite Hr, get_put. case_decide; [by eexists|eauto].
  - intros i w x y Hx Hy. rewrite Hr in Hx |- *. apply get_put_mono. rewrite get_put in Hx.
    case_decide as He; [|eauto]. destruct He as [-> ->]. injection Hx as <-. auto.
  - intros i. rewrite Hr, versions_of_put. case_decide as He; [by subst|apply Hac].
  - exact Hact.
  - intros a Hin. rewrite Ha' in Hin. apply Ha in Hin as [? Ht]. split; [done|].
    rewrite Hr. eapply targets_valid_mono, Ht. by apply keeps_put.
Qed.

(** A version whose record changes neither digests nor rollback target. *)
Lemma registry_wf_touch p s s' id v old record manifest :
  registry_wf p s → get_version (snap_records s) id v = Some old →
  snap_records s' = put_version (snap_records s) id v record →
  (∀ i w, get_version (snap_manifests s') i w =
          if decide (i = id ∧ w = v) then Some manifest else get_version (snap_manifests s) i w) →
  linked p id v record manifest →
  inst_manifest_digest record = inst_manifest_digest old →
  inst_artifact_digest record = inst_artifact_digest old →
  inst_previous_version record = inst_previous_version old →
  (∀ i w, snap_active_versions s' !! i = Some w → is_Some (get_version (snap_records s) i w)) →
  snap_blocklist s' = snap_blocklist s → snap_audit_records s' = snap_audit_records s →
  registry_wf p s'.
Proof.
  intros Hwf Hold Hr Hms Hlk Hd Hd' Hp Hact Hb Ha.
  eapply registry_wf_put; try eassumption.
  - intros x Hx. by simplify_eq.
  - intros w Hw. rewrite Hp in Hw. by eapply rw_previous.
  - eapply acyclic_same; [|by eapply (rw_acyclic p s Hwf id)]. intros w. unfold previous.
    destruct (decide (w = v)) as [->|Hne].
    + rewrite lookup_insert_eq, <- get_version_of, Hold. done.
    + by rewrite lookup_insert_ne by done.
  - intros i w Hw%Hact. rewrite Hr. by apply get_put_mono.
Qed.

(** ** The operations *)

Lemma ok_or_inv {E A} (o : option A) (e : E) a : ok_or o e = Ok a → o = Some a.
Proof. apply ok_or_Ok. Qed.

(** Walk an operation: each [let?] becomes its hypothesis. *)
Ltac walk_op H :=
  repeat match type of H with
    | match ok_or ?o _ with Ok _ => _ | Err _ => _ end = Ok _ =>
        let x := fresh "x" in let E := fresh "Ho" in
        destruct o as [x|] eqn:E; simpl in H; [|discriminate H]
    | match map_err _ ?o with Ok _ => _ | Err _ => _ end = Ok _ =>
        let E := fresh "Hv" in destruct o eqn:E; simpl in H; [|discriminate H]
    | match ?o with Ok _ => _ | Err _ => _ end = Ok _ =>
        let E := fresh "Hok" in destruct o eqn:E; [|discriminate H]
    | (if ?b then Err _ else _) = Ok _ =>
        let E := fresh "Hg" in destruct b eqn:E; [discriminate H|]
    end.

Lemma trim_optional_idem o : trim_optional_string (trim_optional_string o) = trim_optional_string o.
Proof.
  unfold trim_optional_string. destruct o as [s|]; simpl; [|done].
  destruct (str_is_empty (trim s)) eqn:Hs; simpl; [done|]. by rewrite trim_idempotent, Hs.
Qed.

Lemma has_non_empty_trim_optional o :
  has_non_empty_trimmed (trim_optional_string o) = has_non_empty_trimmed o.
Proof.
  unfold has_non_empty_trimmed, trim_optional_string. destruct o as [s|]; simpl; [|done].
  unfold is_blank. destruct (str_is_empty (trim s)) eqn:Hs; simpl; [done|].
  by rewrite trim_idempotent, Hs.
Qed.

(** A manifest with another publication or registry identity keeps what the
    approvals were needed for. *)
Lemma accepted_republish m m' p q b b' :
  policy_le p q → accepted m p b → accepted m' q b' →
  man_id m' = man_id m → man_entrypoints m' = man_entrypoints m →
  prov_source (man_provenance m') = prov_source (man_provenance m) →
  prov_signature (man_provenance m') = prov_signature (man_provenance m) →
  prov_signer (man_provenance m') = prov_signer (man_provenance m) →
  accepted m' p b.
Proof.
  intros Hle [_ Hb He _ _ Hs _ _ _ _] [? Hb' ? ? ? ? ? ? Hpub ?] Hid Hep Hsrc Hsig Hsgn.
  rewrite (classify_boundary_mono Hle) in Hb'. rewrite (validate_publication_mono Hle) in Hpub.
  assert (b' = b) as ->.
  { apply classify_boundary_Ok in Hb, Hb'. unfold in_boundary in *. rewrite Hid, Hsrc in Hb'.
    destruct b, b', Hb, Hb'; destruct_and?; try done; congruence. }
  split; try assumption.
  - unfold validate_entrypoint in *. by rewrite Hep.
  - apply validate_signing_Ok in Hs. apply validate_signing_Ok. unfold signed in *.
    by rewrite Hsig, Hsgn.
Qed.

(** Trimming the registry identity of an accepted manifest. *)
Lemma accepted_trim_identity m p b :
  identity_trimmed p → accepted m p b →
  accepted (man_set_registry_identity m
              (trim_optional_string (prov_registry_identity (man_provenance m)))) p b.
Proof.
  intros Ht [? Hb ? ? ? ? Hsrc ? Hpub ?].
  split; try assumption.
  - apply classify_boundary_Ok in Hb. apply classify_boundary_Ok. unfold in_boundary in *. simpl.
    destruct b; [|done..]. destruct Hb as (? & ? & ->). split_and!; [done..|]. apply Ht.
  - unfold validate_source in *. simpl. destruct (prov_source (man_provenance m)); try done.
    apply require_provenance_Ok. apply require_provenance_Ok in Hsrc.
    by rewrite has_non_empty_trim_optional.
  - unfold validate_publication in *. simpl in *. rewrite !has_non_empty_trim_optional.
    destruct (prov_publication (man_provenance m)) as [pub|]; [|done].
    destruct (pub_visibility pub); try done. rewrite !reject_Ok, !negb_false_iff in *.
    destruct Hpub as (? & Hi & ?). split; [done|]. split; [|done].
    apply bool_decide_eq_true in Hi. rewrite Hi. by apply bool_decide_eq_true.
Qed.

Section Operations.
Context (p q : ManifestValidationPolicy).
Context (Hlo : policy_le (unapproved p) q) (Hhi : policy_le q p) (Htrim : identity_trimmed p).

Definition reg_ok (r : ExtensionRegistry) : Prop :=
  reg_validation_policy r = p ∧ registry_wf q (snapshot r).

Lemma active_bound r id v :
  reg_ok r → reg_active_versions r !! id = Some v → is_Some (get_version (reg_records r) id v).
Proof. intros [_ Hwf]. apply (rw_active q _ Hwf). Qed.

Lemma set_status_ok r id v record st active :
  reg_ok r → get_version (reg_records r) id v = Some record →
  (∀ i w, active !! i = Some w → is_Some (get_version (reg_records r) i w)) →
  reg_ok (reg_set_records (reg_set_active r active)
            (put_version (reg_records r) id v (inst_set_status record st))).
Proof.
  intros [Hp Hwf] Hr Hact. split; [done|].
  destruct (rw_linked q _ Hwf _ _ _ Hr) as (m & Hm & Hl).
  eapply (registry_wf_touch q (snapshot r) _ id v record); try done.
  - intros i w. simpl. case_decide as He; [|done]. destruct He as [-> ->]. exact Hm.
  - destruct Hl. by split.
Qed.

Lemma disable_ok r id r' record : reg_ok r → disable r id = Ok (r', record) → reg_ok r'.
Proof.
  intros Hwf Hok. unfold disable in Hok. walk_op Hok. injection Hok as <- _.
  eapply (set_status_ok r id _ _ _ (reg_active_versions r)); [done..|]. intros i w. by apply active_bound.
Qed.

Lemma enable_ok r id r' record : reg_ok r → enable r id = Ok (r', record) → reg_ok r'.
Proof.
  intros Hwf Hok. unfold enable in Hok. walk_op Hok. injection Hok as <- _.
  eapply (set_status_ok r id _ _ _ (reg_active_versions r)); [done..|]. intros i w. by apply active_bound.
Qed.

Lemma remove_ok r id r' record : reg_ok r → remove r id = Ok (r', record) → reg_ok r'.
Proof.
  intros Hwf Hok. unfold remove in Hok. walk_op Hok. injection Hok as <- _.
  eapply set_status_ok; [done..|]. intros i w [_ Hi]%lookup_delete_Some. by eapply active_bound.
Qed.

Lemma rollback_ok r id r' record : reg_ok r → rollback r id = Ok (r', record) → reg_ok r'.
Proof.
  intros Hwf Hok. unfold rollback in Hok. walk_op Hok. injection Hok as <- _.
  eapply set_status_ok; [done..|].
  intros i w [[<- <-]|[_ Hi]]%lookup_insert_Some; [by eexists|by eapply active_bound].
Qed.

(** Replacing record and manifest of an installed version. *)
Lemma republish_ok r id v old record manifest :
  reg_ok r → get_version (reg_records r) id v = Some old →
  linked q id v record manifest →
  inst_manifest_digest record = inst_manifest_digest old →
  inst_artifact_digest record = inst_artifact_digest old →
  inst_previous_version record = inst_previous_version old →
  reg_ok (reg_set_records (reg_set_manifests r (put_version (reg_manifests r) id v manifest))
            (put_version (reg_records r) id v record)).
Proof.
  intros Hok Hold Hl Hd Hd' Hp. split; [by destruct Hok|].
  apply (registry_wf_touch q (snapshot r) _ id v old record manifest);
    [apply Hok|exact Hold|reflexivity| |exact Hl|exact Hd|exact Hd'|exact Hp| |reflexivity..].
  - intros i w. apply get_put.
  - intros i w. simpl. by apply active_bound.
Qed.

Lemma update_publication_ok r id pub r' record :
  reg_ok r → update_publication r id pub = Ok (r', record) → reg_ok r'.
Proof.
  intros Hr Hok. unfold update_publication in Hok. walk_op Hok. injection Hok as <- _.
  rename x into v, x0 into m, x1 into old. destruct Hr as [Hp Hwf].
  destruct (rw_linked q _ Hwf id v old) as (m' & Hm & Hl); [done|]. simpl in Hm. simplify_eq.
  eapply republish_ok; [by split|eassumption| |done..].
  apply validate_manifest_Ok in Hv as [_ Hacc]. destruct Hl as [? ? ? ? ? ? Hsrc Hold]. split; try done.
  - generalize (keep_submission (src_publication (inst_source old)) pub). intros x. simpl.
    by rewrite Hsrc.
  - eapply accepted_republish; [|exact Hold|exact Hacc|done..]. rewrite Hp.
    exact (with_record_approvals_le q p old Hhi).
Qed.

Lemma with_record_approvals_identity pol record :
  official_registry_identity (with_record_approvals pol record) = official_registry_identity pol.
Proof.
  unfold with_record_approvals.
  by destruct (inst_approved_local_unsigned record), (inst_approved_local_process_runtime record).
Qed.

Lemma update_registry_submission_ok r id sub ident r' record :
  reg_ok r → update_registry_submission r id sub ident = Ok (r', record) → reg_ok r'.
Proof.
  intros Hr Hok. unfold update_registry_submission in Hok. walk_op Hok. injection Hok as <- _.
  rename x into v, x0 into old, x1 into pub, x2 into m. destruct Hr as [Hp Hwf].
  destruct (rw_linked q _ Hwf id v old) as (m' & Hm & Hl); [done|]. simpl in Hm. simplify_eq.
  eapply republish_ok; [by split|eassumption| |done..].
  apply validate_manifest_Ok in Hv as [_ Hacc]. destruct Hl as [? ? ? ? ? ? Hsrc Hold].
  set (m1 := man_set_publication _ _) in *.
  assert (accepted m1 (with_record_approvals q old) (inst_boundary old)) as Hacc1.
  { eapply accepted_republish; [|exact Hold|exact Hacc|..];
      [rewrite Hp; exact (with_record_approvals_le q p old Hhi)|..]; unfold m1; by case_match. }
  split; try done; try (unfold m1; by case_match).
  apply (accepted_trim_identity m1 (with_record_approvals q old) (inst_boundary old)); [|exact Hacc1].
  unfold identity_trimmed.
  rewrite with_record_approvals_identity. destruct Hhi as [_ _ _ _ Hi]. by rewrite <- Hi.
Qed.

Lemma run_validation_checks_Ok r m o v pol :
  run_validation_checks r m o = Ok (v, pol) →
  pol = with_install_options (reg_validation_policy r) o ∧ validated_manifest v = m ∧
  accepted m pol (validated_boundary v) ∧ find_blocklist_hit r m = None ∧
  (∀ old, get_version (reg_records r) (man_id m) (man_version m) = Some old →
     inst_manifest_digest old = prov_manifest_digest (man_provenance m) ∧
     inst_artifact_digest old = prov_artifact_digest (man_provenance m)) ∧
  (∀ current, active_record r (man_id m) = Some current →
     matches_authority (inst_source current) (from_provenance (man_provenance m)) = true ∨
     io_approve_source_change o = Some true).
Proof.
  unfold run_validation_checks. intros H. walk_op H. injection H as -> <-.
  apply validate_manifest_Ok in Hv as [Hm Hacc]. rewrite Hm in *. split_and!; try done.
  - unfold ensure_not_blocked in Hok. by destruct (find_blocklist_hit r m).
  - intros old Hold. unfold ensure_same_version_digest_is_stable in Hok0. rewrite Hold in Hok0.
    rewrite reject_Ok, orb_false_iff, !str_eqb_guard in Hok0. by destruct Hok0 as [[? ?] _].
  - intros current Hc. unfold ensure_source_change_is_approved in Hok1. rewrite Hc in Hok1.
    destruct (matches_authority _ _); [by left|]. simpl in Hok1.
    case_bool_decide; [by right|done].
Qed.

Lemma install_approvals_le r v o :
  policy_le (with_install_options p o)
    (with_record_approvals q (install_record r v (with_install_options p o))).
Proof.
  destruct Hlo as [_ _ Ho Hl Hi]. simpl in *. unfold with_record_approvals, with_install_options.
  destruct o as [[[]|] [[]|] ?]; simpl; destruct (allow_local_unsigned p) eqn:?,
    (allow_local_process_runtime p) eqn:?; split; simpl; congruence.
Qed.

Lemma chain_bound r id v w :
  registry_wf q (snapshot r) → chain (versions_of (reg_records r) id) v w →
  is_Some (get_version (reg_records r) id v) → is_Some (get_version (reg_records r) id w).
Proof.
  intros Hwf Hc Hv. induction Hc as [v|v x w Hx _ IH]; [done|]. apply IH. unfold previous in Hx.
  rewrite <- get_version_of in Hx. destruct Hv as [y Hy]. rewrite Hy in Hx.
  by eapply (rw_previous q _ Hwf).
Qed.

(** The version a new install rolls back to is installed, and its chain does not
    lead back to the new version. *)
Lemma install_previous_free r id v w :
  registry_wf q (snapshot r) →
  is_some (get_version (reg_records r) id v)
    && match reg_active_versions r !! id with
       | Some active_version => negb (str_eqb active_version v)
       | None => false
       end
    && install_would_create_rollback_cycle r id v = false →
  install_previous_version r id v = Some w →
  is_Some (get_version (reg_records r) id w) ∧ ¬ chain (versions_of (reg_records r) id) w v.
Proof.
  intros Hwf Hg. unfold install_previous_version.
  destruct (reg_active_versions r !! id) as [a|] eqn:Ha; [|done].
  destruct (str_eqb a v) eqn:Hav.
  - apply str_eqb_eq in Hav. subst a. intros Hw.
    destruct (get_version (reg_records r) id v) as [x|] eqn:Hx; [|done].
    split; [by eapply (rw_previous q _ Hwf)|]. apply acyclic_no_loop; [apply (rw_acyclic q _ Hwf)|].
    unfold previous. by rewrite <- get_version_of, Hx.
  - intros [= <-]. split; [by apply (rw_active q _ Hwf)|]. intros Hc. simpl in Hg.
    rewrite (proj2 (install_would_create_rollback_cycle_exact r _ _)), !andb_true_r in Hg by eauto.
    assert (is_Some (get_version (reg_records r) id v)) as [x Hx].
    { by eapply chain_bound, (rw_active q _ Hwf). }
    by rewrite Hx in Hg.
Qed.

Lemma install_ok r m o r' record : reg_ok r → install r m o = Ok (r', record) → reg_ok r'.
Proof.
  intros [Hp Hwf] Hok. unfold install in Hok.
  destruct (run_validation_checks r m o) as [[v pol]|] eqn:Hrun; [|done].
  apply run_validation_checks_Ok in Hrun as (-> & <- & Hacc & _ & Hd & _).
  apply reject_Ok in Hok as [Hg [= <- _]]. rewrite Hp in *. split; [done|].
  set (m := validated_manifest v) in *.
  pose proof (λ w, install_previous_free r _ _ w Hwf Hg) as Hprev.
  eapply (registry_wf_put q (snapshot r) _ (man_id m) (man_version m));
    [exact Hwf|reflexivity| | | | | | |reflexivity..].
  - intros i w. apply get_put.
  - split; try done. eapply accepted_mono; [apply install_approvals_le|exact Hacc].
  - intros old Hold. by destruct (Hd old Hold) as [-> ->].
  - by intros w [? _]%Hprev.
  - apply acyclic_insert; [apply (rw_acyclic q _ Hwf)|by intros w [_ ?]%Hprev].
  - simpl. intros i w [[<- <-]|[_ Hi]]%lookup_insert_Some; [by rewrite get_put_eq|].
    apply get_put_mono. by apply (rw_active q _ Hwf).
Qed.

Lemma add_blocklist_entry_ok r e r' : reg_ok r → add_blocklist_entry r e = Ok r' → reg_ok r'.
Proof.
  intros [Hp [????? Hb ??]] Hok. unfold add_blocklist_entry in Hok.
  apply reject_Ok in Hok as [Hk [= <-]]. split; [done|]. split; try assumption.
  simpl. intros x [Hx| ->%list_elem_of_singleton]%elem_of_app; [by apply Hb|done].
Qed.

Lemma append_audit_record_ok r a r' : reg_ok r → append_audit_record r a = Ok r' → reg_ok r'.
Proof.
  intros [Hp [?????? Hi Ha]] Hok. unfold append_audit_record in Hok. walk_op Hok. injection Hok as <-.
  apply validate_audit_record_seen in Hv as (Hnew & _ & Hval).
  split; [done|]. split; try assumption; simpl in *.
  - rewrite map_app. apply NoDup_app. split_and!; [done| |apply NoDup_singleton].
    intros x Hx ->%list_elem_of_singleton. by apply Hnew, elem_of_list_to_set.
  - intros x [Hx| ->%list_elem_of_singleton]%elem_of_app; [by apply Ha|]. split; [done|].
    unfold targets_valid, validate_extension_registry_audit_targets in *.
    destruct a1. rewrite !then_Ok, !when_some_Ok in *. destruct Hv0 as (? & ? & Hnewr).
    split_and!; try done. intros ref Href. eapply validate_audit_record_target_relax, Hnewr, Href.
Qed.
End Operations.

(** ** Runs of the registry *)

Inductive RegistryOp :=
  | RInstall (manifest : ExtensionManifest) (options : InstallOptions)
  | RRollback (id : string)
  | RDisable (id : string)
  | REnable (id : string)
  | RRemove (id : string)
  | RUpdatePublication (id : string) (publication : ExtensionPublication)
  | RUpdateSubmission (id : string) (submission : ExtensionRegistrySubmission)
      (registry_identity : option string)
  | RBlock (entry : BlocklistEntry)
  | RAudit (record : ExtensionRegistryAuditRecord).

Definition forget {A} (res : RegistryResult (ExtensionRegistry * A)) : RegistryResult ExtensionRegistry :=
  match res with Ok (r, _) => Ok r | Err e => Err e end.

Definition registry_exec (op : RegistryOp) (r : ExtensionRegistry)
  : RegistryResult ExtensionRegistry :=
  match op with
  | RInstall m o => forget (install r m o)
  | RRollback id => forget (rollback r id)
  | RDisable id => forget (disable r id)
  | REnable id => forget (enable r id)
  | RRemove id => forget (remove r id)
  | RUpdatePublication id p => forget (update_publication r id p)
  | RUpdateSubmission id s i => forget (update_registry_submission r id s i)
  | RBlock e => add_blocklist_entry r e
  | RAudit a => append_audit_record r a
  end.

(** A run: operations that fail leave the registry as it was. *)
Fixpoint run_registry (r : ExtensionRegistry) (ops : list RegistryOp) : ExtensionRegistry :=
  match ops with
  | [] => r
  | op :: ops =>
      run_registry (match registry_exec op r with Ok r' => r' | Err _ => r end) ops
  end.

Lemma forget_Ok {A} (res : RegistryResult (ExtensionRegistry * A)) r :
  forget res = Ok r → ∃ a, res = Ok (r, a).
Proof. destruct res as [[r' a]|]; [|done]. intros [= <-]. by exists a. Qed.

Lemma registry_exec_ok p q op r r' :
  policy_le (unapproved p) q → policy_le q p → identity_trimmed p →
  reg_ok p q r → registry_exec op r = Ok r' → reg_ok p q r'.
Proof.
  intros Hlo Hhi Ht Hr. destruct op; simpl.
  1-7: intros [rec Hrec]%forget_Ok.
  - by eapply install_ok.
  - by eapply rollback_ok.
  - by eapply disable_ok.
  - by eapply enable_ok.
  - by eapply remove_ok.
  - by eapply update_publication_ok.
  - by eapply update_registry_submission_ok.
  - by apply add_blocklist_entry_ok.
  - by apply append_audit_record_ok.
Qed.

Lemma run_registry_ok p q ops r :
  policy_le (unapproved p) q → policy_le q p → identity_trimmed p →
  reg_ok p q r → reg_ok p q (run_registry r ops).
Proof.
  intros Hlo Hhi Ht. revert r. induction ops as [|op ops IH]; intros r Hr; [done|]. simpl. apply IH.
  destruct (registry_exec op r) eqn:He; [by eapply registry_exec_ok|done].
Qed.

Lemma acyclic_empty : acyclic ∅.
Proof. intros v. constructor. intros w Hw. unfold rolls_back_to, previous in Hw. by rewrite lookup_empty in Hw. Qed.

Lemma registry_new_ok p q : reg_ok p q (registry_new p).
Proof.
  split; [done|].
  assert (∀ V id v, get_version (∅ : versions V) id v = None) as Hnone.
  { intros V id v. unfold get_version. by rewrite lookup_empty. }
  split; simpl.
  - intros id v record Hr. by rewrite Hnone in Hr.
  - intros id v m Hm. by rewrite Hnone in Hm.
  - intros id v record w Hr. by rewrite Hnone in Hr.
  - intros id. unfold versions_of. rewrite lookup_empty. apply acyclic_empty.
  - intros id v Ha. by rewrite lookup_empty in Ha.
  - by intros e ?%not_elem_of_nil.
  - apply NoDup_nil_2.
  - by intros a ?%not_elem_of_nil.
Qed.
