(* ===== verification/RegistryGuarantees.v ===== *)
(** * RegistryGuarantees: what the registry of packages guarantees *)
From S2P Require Import Prelude Text Domain StoreTypes StoreValidate StoreJobs Store Manifest.
From S2P Require Import ManifestCheck ManifestLaws Registry RegistryAudit RegistryOps RegistryLaws.
From S2P Require Import RegistryInvariant.

(** * What the extension registry guarantees

    Restarts, rollbacks, the blocklist, the history and service calls, for
    every sequence of operations. *)

(** ** History *)

Definition extends {A} (l l' : list A) : Prop := ∃ k, l' = l ++ k.
#[export] Instance extends_preorder {A} : PreOrder (@extends A).
Proof.
  split; [intros l; exists []; by rewrite app_nil_r|].
  intros l1 l2 l3 [k ->] [k' ->]. exists (k ++ k'). by rewrite app_assoc.
Qed.

(** Nothing the registry recorded is lost or rewritten. *)
Record history_kept (r r' : ExtensionRegistry) : Prop := {
  hk_versions : keeps_versions (reg_records r) (reg_records r');
  hk_audit : extends (reg_audit_records r) (reg_audit_records r');
  hk_blocklist : extends (reg_blocklist r) (reg_blocklist r')
}.
#[export] Instance history_kept_preorder : PreOrder history_kept.
Proof. split; [by split|]. intros x y z [] []. split; by etrans. Qed.

Lemma keeps_put_same records id v old record :
  get_version records id v = Some old →
  inst_manifest_digest record = inst_manifest_digest old →
  inst_artifact_digest record = inst_artifact_digest old →
  keeps_versions records (put_version records id v record).
Proof. intros Hold ??. apply keeps_put. intros x Hx. by simplify_eq. Qed.

Lemma install_history r m o r' record : install r m o = Ok (r', record) → history_kept r r'.
Proof.
  intros Hok. unfold install in Hok.
  destruct (run_validation_checks r m o) as [[v pol]|] eqn:Hrun; [|done].
  apply run_validation_checks_Ok in Hrun as (_ & <- & _ & _ & Hd & _).
  apply reject_Ok in Hok as [_ [= <- _]]. split; simpl; [|done..].
  apply keeps_put. intros old Hold. by destruct (Hd old Hold) as [-> ->].
Qed.

Lemma registry_exec_history op r r' : registry_exec op r = Ok r' → history_kept r r'.
Proof.
  destruct op; simpl; intros Hok.
  1-7: apply forget_Ok in Hok as [rec Hok].
  - by eapply install_history.
  - unfold rollback in Hok. walk_op Hok. injection Hok as <- _. split; [|done..]. by eapply keeps_put_same.
  - unfold disable in Hok. walk_op Hok. injection Hok as <- _. split; [|done..]. by eapply keeps_put_same.
  - unfold enable in Hok. walk_op Hok. injection Hok as <- _. split; [|done..]. by eapply keeps_put_same.
  - unfold remove in Hok. walk_op Hok. injection Hok as <- _. split; [|done..]. by eapply keeps_put_same.
  - unfold update_publication in Hok. walk_op Hok. injection Hok as <- _. split; [|done..].
    by eapply keeps_put_same.
  - unfold update_registry_submission in Hok. walk_op Hok. injection Hok as <- _. split; [|done..].
    by eapply keeps_put_same.
  - unfold add_blocklist_entry in Hok. apply reject_Ok in Hok as [_ [= <-]]. split; [done..|by eexists].
  - unfold append_audit_record in Hok. walk_op Hok. injection Hok as <-. split; [done|by eexists|done].
Qed.

Lemma run_registry_history r ops : history_kept r (run_registry r ops).
Proof.
  revert r. induction ops as [|op ops IH]; intros r; simpl; [done|]. etrans; [|apply IH].
  destruct (registry_exec op r) eqn:He; [by eapply registry_exec_history|done].
Qed.

(** ** Restarts *)

Lemma reg_ok_start p r0 :
  r0 = registry_new p ∨ (∃ s, from_snapshot s p = Ok r0) → reg_ok p p r0.
Proof.
  intros [->|[s Hs]]; [apply registry_new_ok|]. unfold from_snapshot in Hs.
  apply then_Ok in Hs as [Hv [= <-]]. split; [done|]. apply validate_with_policy_sound.
  by destruct s.
Qed.

Lemma reg_ok_reload p q r : reg_ok p q r → policy_le q p → from_snapshot (snapshot r) p = Ok r.
Proof.
  intros [Hp Hwf] Hle. unfold from_snapshot. apply then_Ok.
  split; [by eapply validate_with_policy_complete, registry_wf_mono|]. destruct r. simpl in *. by subst.
Qed.

(** A registry survives a restart exactly: after any operations on a new or a
    loaded registry, its snapshot passes the validation that guards loading, and
    loading it gives back the same registry. *)
Theorem registry_survives_restart p r0 ops :
  identity_trimmed p → (r0 = registry_new p ∨ ∃ s, from_snapshot s p = Ok r0) →
  from_snapshot (snapshot (run_registry r0 ops)) p = Ok (run_registry r0 ops).
Proof.
  intros Ht Hs%reg_ok_start. eapply (reg_ok_reload p p); [|done].
  by apply run_registry_ok; [apply unapproved_le| | |].
Qed.

#[local] Existing Instance registry_port.

(** The store accepts every registry that the daemon can build.  Whatever
    approvals the policy of the registry gave, the approvals are kept with the
    install records, so the store, which validates with the default policy, takes
    the snapshot and changes nothing else. *)
Theorem store_accepts_registry p ops (s : InMemoryInner) :
  official_id_prefix p = "ai.atelia."%string → local_id_prefix p = "local."%string →
  official_registry_identity p = "atelia-official"%string →
  let r := run_registry (registry_new p) ops in
  set_extension_registry_snapshot (snapshot r) s = Ok (set_extension_snapshot s (snapshot r), tt).
Proof.
  intros Ho Hl Hi r. unfold set_extension_registry_snapshot. apply then_Ok. split; [|done].
  apply map_err_Ok, validate_with_policy_complete.
  apply (registry_wf_mono (unapproved p)); [by apply unapproved_le|].
  assert (identity_trimmed p) as Ht by (unfold identity_trimmed; by rewrite Hi).
  apply (run_registry_ok p (unapproved p)); [done|by split|done|apply registry_new_ok].
Qed.

(** The registry forgets nothing: versions stay installed with the digests
    they were installed with, and audit trail and blocklist only grow. *)
Theorem registry_history_is_kept r ops id v record :
  get_version (reg_records r) id v = Some record →
  let r' := run_registry r ops in
  (∃ record', get_version (reg_records r') id v = Some record' ∧
     inst_manifest_digest record' = inst_manifest_digest record ∧
     inst_artifact_digest record' = inst_artifact_digest record) ∧
  (∃ audits, reg_audit_records r' = reg_audit_records r ++ audits) ∧
  (∃ entries, reg_blocklist r' = reg_blocklist r ++ entries).
Proof. intros Hr r'. destruct (run_registry_history r ops) as [Hv Ha Hb]. split; [by apply Hv|done]. Qed.

(** ** Installing and rolling back *)

(** Install refuses a valid manifest exactly when activating it would close a
    loop of rollback targets, that is when the version is not active and is on
    the rollback chain of the active version; the search for it terminates. *)
Theorem install_refuses_exactly_loops q r m o v pol :
  registry_wf q (snapshot r) → run_validation_checks r m o = Ok (v, pol) →
  is_ok (install r m o) = false ↔
  ∃ a, reg_active_versions r !! man_id m = Some a ∧ a ≠ man_version m ∧
       chain (versions_of (reg_records r) (man_id m)) a (man_version m).
Proof.
  intros Hwf Hrun. unfold install. rewrite Hrun.
  apply run_validation_checks_Ok in Hrun as (_ & -> & _).
  destruct (reg_active_versions r !! man_id m) as [a|] eqn:Ha.
  2: { rewrite andb_false_r. simpl. split; [done|by intros (? & ? & _)]. }
  destruct (install_would_create_rollback_cycle r (man_id m) (man_version m)) eqn:Hcyc.
  - apply install_would_create_rollback_cycle_exact in Hcyc as (a' & Ha' & Hc). simplify_eq.
    destruct (chain_bound q r (man_id m) a (man_version m) Hwf Hc) as [x Hx];
      [by apply (rw_active q _ Hwf)|]. rewrite Hx. simpl.
    destruct (str_eqb a (man_version m)) eqn:Hav; simpl.
    + apply str_eqb_eq in Hav. split; [done|]. by intros (? & [= <-] & ? & _).
    + apply str_eqb_neq in Hav. split; [by exists a|done].
  - rewrite andb_false_r. simpl. split; [done|]. intros (a' & [= <-] & _ & Hc).
    assert (install_would_create_rollback_cycle r (man_id m) (man_version m) = true); [|congruence].
    apply install_would_create_rollback_cycle_exact. eauto.
Qed.

(** Rolling back right after an update restores the version that was active
    before, with its manifest, unless that version was blocked meanwhile; no
    other package is touched. *)
Theorem update_then_rollback_restores q r m o r1 record v0 m0 :
  registry_wf q (snapshot r) → install r m o = Ok (r1, record) →
  reg_active_versions r !! man_id m = Some v0 → v0 ≠ man_version m →
  active_manifest r (man_id m) = Some m0 → find_blocklist_hit r m0 = None →
  ∃ r2 record0, active_record r (man_id m) = Some record0 ∧
    rollback r1 (man_id m) = Ok (r2, inst_set_status record0 InstalledPreviousVersion) ∧
    reg_active_versions r2 = reg_active_versions r ∧
    active_manifest r2 (man_id m) = Some m0 ∧
    (∀ id v, id ≠ man_id m →
       get_version (reg_records r2) id v = get_version (reg_records r) id v ∧
       get_version (reg_manifests r2) id v = get_version (reg_manifests r) id v).
Proof.
  intros Hwf Hok Ha Hne Hm0 Hhit. unfold install in Hok.
  destruct (run_validation_checks r m o) as [[v pol]|] eqn:Hrun; [|done].
  apply run_validation_checks_Ok in Hrun as (_ & <- & _).
  apply reject_Ok in Hok as [_ [= <- <-]]. set (m := validated_manifest v) in *.
  destruct (rw_active q _ Hwf _ _ Ha) as [record0 Hr0]. simpl in Hr0.
  unfold active_manifest in Hm0. rewrite Ha in Hm0.
  unfold rollback, active_record, active_manifest, ensure_not_blocked, find_blocklist_hit. simpl.
  rewrite lookup_insert_eq, get_put_eq. simpl. unfold install_previous_version. fold m. rewrite Ha.
  rewrite (proj2 (str_eqb_neq v0 (man_version m))) by done. simpl.
  rewrite !get_put, !decide_False by (intros [_ ?]; congruence). rewrite Hm0, Hr0. simpl.
  unfold find_blocklist_hit in Hhit. rewrite Hhit. eexists _, record0. split_and!; [done..| | |]; simpl.
  - rewrite insert_insert_eq. by apply insert_id.
  - rewrite lookup_insert_eq, get_put, decide_False by (intros [_ ?]; congruence). done.
  - intros id w Hid. rewrite !get_put, !decide_False by (intros [? _]; congruence). done.
Qed.

(** ** The blocklist *)

Lemma blocked_stays r ops m :
  is_Some (find_blocklist_hit r m) → is_Some (find_blocklist_hit (run_registry r ops) m).
Proof.
  intros [e He]. apply find_bool_Some in He as [Hin Hm].
  destruct (run_registry_history r ops) as [_ _ [k Hk]].
  apply (find_bool_is_Some _ _ e); [|done]. rewrite Hk. set_solver.
Qed.

(** The refusal of a blocked manifest. *)
Definition refusal (m : ExtensionManifest) (e : RegistryError) : Prop :=
  ∃ reason key, e = RegBlocked (man_id m) reason key.

Lemma ensure_not_blocked_Err r m :
  is_Some (find_blocklist_hit r m) → ∃ e, ensure_not_blocked r m = Err e ∧ refusal m e.
Proof. intros [x Hx]. unfold ensure_not_blocked. rewrite Hx. eexists. split; [done|]. by eexists _, _. Qed.

Lemma install_blocked r m o :
  is_Some (find_blocklist_hit r m) → is_ok (install r m o) = false.
Proof.
  intros Hb. unfold install. destruct (run_validation_checks r m o) as [[v pol]|] eqn:Hrun; [|done].
  apply run_validation_checks_Ok in Hrun as (_ & _ & _ & Hn & _). rewrite Hn in Hb.
  by apply is_Some_None in Hb.
Qed.

Lemma authorize_blocked r request m :
  is_Some (find_blocklist_hit r m) →
  active_manifest r (scr_caller_extension_id request) = Some m ∨
  active_manifest r (scr_callee_extension_id request) = Some m →
  is_ok (authorize_service_call r request) = false.
Proof.
  intros Hb Hm. destruct (ensure_not_blocked_Err r m Hb) as (e & He & _).
  unfold authorize_service_call.
  destruct (ensure_active_record_enabled r (scr_caller_extension_id request) "caller"); [|done].
  destruct (ensure_active_record_enabled r (scr_callee_extension_id request) "callee"); [|done].
  destruct (active_manifest r (scr_caller_extension_id request)) as [mr|] eqn:Hcr; [|done]. simpl.
  destruct (active_manifest r (scr_callee_extension_id request)) as [me|] eqn:Hce; [|done]. simpl.
  destruct (ensure_not_blocked r mr) eqn:Hr; [|done].
  destruct (ensure_not_blocked r me) eqn:Hce'; [|done]. destruct Hm; simplify_eq; congruence.
Qed.

(** C27: Once the blocklist matches a manifest it is kept out for good: whatever
    happens to the registry afterwards, the manifest can be neither installed
    nor, while active, enabled or party to a service call; it is not rolled back
    to, and its status reads blocked. *)
Theorem blocked_packages_stay_out r m ops :
  is_Some (find_blocklist_hit r m) →
  let r' := run_registry r ops in
  (∀ o, is_ok (install r' m o) = false) ∧
  (∀ id, active_manifest r' id = Some m → ∃ e, enable r' id = Err e ∧ refusal m e) ∧
  (∀ id s, active_manifest r' id = Some m → extension_status r' id = Ok s →
     inst_status (ess_record s) = BlockedInstall ∧ is_Some (ess_block s)) ∧
  (∀ id record v, active_record r' id = Some record → inst_previous_version record = Some v →
     get_version (reg_manifests r') id v = Some m → ∃ e, rollback r' id = Err e ∧ refusal m e) ∧
  (∀ request, active_manifest r' (scr_caller_extension_id request) = Some m ∨
              active_manifest r' (scr_callee_extension_id request) = Some m →
              is_ok (authorize_service_call r' request) = false).
Proof.
  intros Hb r'. apply (blocked_stays r ops) in Hb. fold r' in Hb.
  destruct (ensure_not_blocked_Err r' m Hb) as (e & He & Href). split_and!.
  - intros o. by apply install_blocked.
  - intros id Hm. exists e. split; [|done]. unfold enable, active_manifest in *.
    destruct (reg_active_versions r' !! id); [|done]. simpl. rewrite Hm. simpl. by rewrite He.
  - intros id s Hm Hs. unfold extension_status in Hs. rewrite Hm in Hs. simpl in Hs.
    destruct (active_record r' id); [|done]. simpl in Hs. destruct Hb as [x Hx]. rewrite Hx in Hs.
    injection Hs as <-. split; [done|by eexists].
  - intros id record v Hr Hp Hm. exists e. split; [|done]. unfold rollback. rewrite Hr. simpl.
    rewrite Hp. simpl. rewrite Hm. simpl. by rewrite He.
  - intros request. by apply authorize_blocked.
Qed.

(** ** Service calls *)

(** A package that may take part in a service call. *)
Definition callable (r : ExtensionRegistry) (id : string) (m : ExtensionManifest) : Prop :=
  active_manifest r id = Some m ∧ find_blocklist_hit r m = None ∧
  ∃ record, active_record r id = Some record ∧
    inst_status record ∈ [Installed; InstalledPreviousVersion].

Lemma ensure_active_record_enabled_Ok r id role :
  ensure_active_record_enabled r id role = Ok tt ↔
  ∃ record, active_record r id = Some record ∧
    inst_status record ∈ [Installed; InstalledPreviousVersion].
Proof.
  unfold ensure_active_record_enabled. destruct (active_record r id) as [record|]; simpl.
  - destruct (inst_status record) eqn:Hs; split; try done; try (intros _; exists record; set_solver);
      intros (? & [= <-] & Hin); rewrite Hs in Hin; set_solver.
  - split; [done|]. by intros (? & ? & _).
Qed.

Lemma ensure_not_blocked_Ok r m : ensure_not_blocked r m = Ok tt ↔ find_blocklist_hit r m = None.
Proof. unfold ensure_not_blocked. by destruct (find_blocklist_hit r m). Qed.

(** The conditions of a grant: [x] is the permission asked for. *)
Definition grantable (r : ExtensionRegistry) (request : ServiceCallRequest) (x : string)
  (mr me : ExtensionManifest) : Prop :=
  callable r (scr_caller_extension_id request) mr ∧
  callable r (scr_callee_extension_id request) me ∧
  (∃ c, find_bool (consumes_call request) (svc_consumes (man_services mr)) = Some c ∧
        sdep_required_permission c = x) ∧
  (∃ d, find_bool (provides_call request) (svc_provides (man_services me)) = Some d ∧
        sdef_required_permission d = x) ∧
  default x (scr_required_permission request) = x ∧
  (∃ meta, man_permissions mr !! x = Some meta ∧ man_permissions me !! x = Some meta).

Definition grant_of (r : ExtensionRegistry) (request : ServiceCallRequest) (x : string)
  : ServiceCallGrant := {|
  scg_caller_extension_id := scr_caller_extension_id request;
  scg_caller_version := default ""%string (reg_active_versions r !! scr_caller_extension_id request);
  scg_callee_extension_id := scr_callee_extension_id request;
  scg_callee_version := default ""%string (reg_active_versions r !! scr_callee_extension_id request);
  scg_service := scr_service request; scg_method := scr_method request;
  scg_schema_version := scr_schema_version request; scg_required_permission := x |}.

Lemma ok_or_bind {E A B} (o : option A) (e : E) (k : A → result E B) b :
  match ok_or o e with Ok a => k a | Err e => Err e end = Ok b ↔ ∃ a, o = Some a ∧ k a = Ok b.
Proof. rewrite bind_Ok. by setoid_rewrite ok_or_Ok. Qed.

(** A service call is granted if and only if both packages are active, enabled
    and unblocked, the caller declares that it consumes the callee's service, the
    callee that it provides it, both under the permission the request names, and
    both manifests describe that permission identically; the grant names exactly
    the active versions and that permission. *)
Theorem service_calls_granted_exactly r request g :
  authorize_service_call r request = Ok g ↔
  ∃ x mr me, grantable r request x mr me ∧ g = grant_of r request x.
Proof.
  unfold authorize_service_call. rewrite !then_Ok, !ensure_active_record_enabled_Ok, ok_or_bind. split.
  - intros (Hcr & Hce & mr & Hmr & (me & Hme & H)%ok_or_bind).
    rewrite !then_Ok, !ensure_not_blocked_Ok, ok_or_bind in H.
    destruct H as (Hbr & Hbe & c & Hc & (d & Hd & H)%ok_or_bind).
    rewrite !reject_Ok, orb_false_iff, !str_eqb_guard, negb_false_iff, ok_or_bind in H.
    destruct H as ([Hxc Hxd] & _ & meta & Hmeta & (meta' & Hmeta' & H)%ok_or_bind).
    apply reject_Ok in H as [Heq [= <-]]. apply negb_false_iff, bool_decide_eq_true in Heq. subst meta'.
    exists (default (sdef_required_permission d) (scr_required_permission request)), mr, me.
    split; [|done]. unfold grantable, callable. split_and!; eauto.
    by destruct (scr_required_permission request).
  - intros (x & mr & me & ((Hmr & Hbr & Hcr) & (Hme & Hbe & Hce) & (c & Hc & Hxc) & (d & Hd & Hxd) &
      Hx & (meta & Hm1 & Hm2)) & ->).
    split; [done|]. split; [done|]. exists mr. split; [done|].
    rewrite Hme. simpl. rewrite !then_Ok, !ensure_not_blocked_Ok. split; [done|]. split; [done|].
    rewrite Hc. simpl. rewrite Hd. simpl. rewrite Hxd, Hx, Hxc, !(proj2 (str_eqb_eq x x) eq_refl).
    unfold map_has. rewrite Hm1, Hm2. simpl. by rewrite bool_decide_eq_true_2.
Qed.

(** * The theorems on concrete packages

    Two packages, a calendar that provides a service and a notebook that
    consumes it; the theorems of [ManifestLaws] and [RegistryGuarantees] are
    applied to them, and two surprising answers of the registry are recorded. *)

Module RegistryDemo.
#[local] Existing Instance registry_port.

Definition calendar_read : ExtensionPermission :=
  {| perm_description := "Read the calendar"; perm_risk_tier := Some "R1"%string |}.

Definition digest_of (c : ascii) : string := ("sha256:" +:+ repeat_char c 64)%string.

Definition demo_provenance (c : ascii) : ExtensionProvenance := {|
  prov_source := RegistrySource; prov_repository := None; prov_source_ref := None;
  prov_manifest_path := None; prov_commit := None;
  prov_registry_identity := Some "community"%string; prov_lineage := None; prov_publication := None;
  prov_artifact_digest := digest_of c; prov_manifest_digest := digest_of c;
  prov_signature := Some "signature"%string; prov_signer := Some "Example Inc."%string |}.

Definition demo_manifest (id version : string) (c : ascii) (services : ExtensionServices)
  : ExtensionManifest := {|
  man_schema := EXTENSION_MANIFEST_SCHEMA; man_id := id; man_name := "Demo"; man_version := version;
  man_publisher := {| publisher_name := "Example Inc."; publisher_url := None |};
  man_description := "A demo package"; man_types := [ServiceKind];
  man_compatibility := {| compat_atelia_protocol := ">=0.1"; compat_atelia_secretary := ">=0.1" |};
  man_entrypoints := {| ep_realm := BackendRealm; ep_runtime := Wasm; ep_command := None;
                        ep_image := None; ep_wasm := Some "demo.wasm"%string;
                        ep_protocol := EXTENSION_RPC_PROTOCOL |};
  man_permissions := {["calendar.read"%string := calendar_read]};
  man_tools := []; man_services := services; man_tool_output := []; man_hooks := [];
  man_webhooks := []; man_composition := {| comp_attachments := [] |};
  man_failure := {| fail_degrade := ReturnUnavailable; fail_retry_policy := NoRetry |};
  man_provenance := demo_provenance c; man_bundle := None;
  man_migration := {| mig_from := []; mig_notes := None |} |}%string.

Definition provided : ExtensionServiceDefinition := {|
  sdef_service := "calendar"; sdef_method := "list"; sdef_schema_version := "v1";
  sdef_required_permission := "calendar.read" |}%string.
Definition calendar (version : string) (c : ascii) : ExtensionManifest :=
  demo_manifest "com.example.calendar" version c {| svc_provides := [provided]; svc_consumes := [] |}.
Definition notebook : ExtensionManifest :=
  demo_manifest "com.example.notebook" "0.1.0" "c" {|
    svc_provides := [];
    svc_consumes := [{| sdep_extension_id := "com.example.calendar"; sdep_service := "calendar";
                        sdep_method := "list"; sdep_schema_version := "v1";
                        sdep_required_permission := "calendar.read" |}] |}%string.

Definition no_options : InstallOptions := install_options_from false false false.
Definition calendar1 : ExtensionManifest := calendar "1.0.0" "1".
Definition calendar2 : ExtensionManifest := calendar "2.0.0" "2".

(** Version 1 of the calendar and the notebook; then version 2 as well. *)
Definition demo_registry : ExtensionRegistry :=
  run_registry in_memory [RInstall calendar1 no_options; RInstall notebook no_options].
Definition updated_registry : ExtensionRegistry :=
  run_registry demo_registry [RInstall calendar2 no_options].

Lemma registries_wf :
  registry_wf validation_policy_default (snapshot demo_registry) ∧
  registry_wf validation_policy_default (snapshot updated_registry).
Proof. split; apply validate_with_policy_sound; vm_compute; reflexivity. Qed.

Definition demo_call : ServiceCallRequest := {|
  scr_caller_extension_id := "com.example.notebook"; scr_callee_extension_id := "com.example.calendar";
  scr_service := "calendar"; scr_method := "list"; scr_schema_version := "v1";
  scr_required_permission := None |}%string.

Example demo_call_granted : is_ok (authorize_service_call updated_registry demo_call) = true.
Proof. vm_compute. reflexivity. Qed.

Lemma accepted_manifests_respect_boundaries_witness :
  validate_manifest calendar1 validation_policy_default
  = Ok {| validated_manifest := calendar1; validated_boundary := ThirdParty |} ∧
  (signed (man_provenance calendar1) ∨
   ThirdParty = LocalDevelopment ∧ allow_local_unsigned validation_policy_default = true).
Proof.
  assert (validate_manifest calendar1 validation_policy_default
    = Ok {| validated_manifest := calendar1; validated_boundary := ThirdParty |}) as Hv
    by (vm_compute; reflexivity).
  split; [exact Hv|].
  exact (proj1 (proj2 (proj2 (proj2 (proj2 (proj2 (proj2
    (accepted_manifests_respect_boundaries _ _ _ Hv)))))))).
Defined.

Lemma accepted_manifests_are_closed_witness : closed notebook ThirdParty.
Proof.
  refine (accepted_manifests_are_closed notebook validation_policy_default
    {| validated_manifest := notebook; validated_boundary := ThirdParty |} _).
  vm_compute. reflexivity.
Defined.

(** The calendar with a webhook that asks for a capability the manifest does not
    declare. *)
Definition review_webhook : ExtensionWebhookDefinition := {|
  webhook_id := "wh_review"; webhook_source := Some "github"; webhook_event := Some "pull_request";
  webhook_endpoint := Some "https://example.com/webhook"; webhook_verification := Some "hmac";
  webhook_required_capabilities := ["workflow.run"]; webhook_status := Some "enabled" |}%string.
Definition calendar_with_webhook : ExtensionManifest := {|
  man_schema := man_schema calendar1; man_id := man_id calendar1; man_name := man_name calendar1;
  man_version := man_version calendar1; man_publisher := man_publisher calendar1;
  man_description := man_description calendar1; man_types := [ServiceKind; WebhookReceiver];
  man_compatibility := man_compatibility calendar1; man_entrypoints := man_entrypoints calendar1;
  man_permissions := man_permissions calendar1; man_tools := man_tools calendar1;
  man_services := man_services calendar1; man_tool_output := man_tool_output calendar1;
  man_hooks := man_hooks calendar1; man_webhooks := [review_webhook];
  man_composition := man_composition calendar1; man_failure := man_failure calendar1;
  man_provenance := man_provenance calendar1; man_bundle := man_bundle calendar1;
  man_migration := man_migration calendar1 |}.

(** Hooks and webhooks may require capabilities that the manifest does not
    declare; for tools and services that is an error. *)
Theorem undeclared_capability_is_accepted :
  is_ok (validate_manifest calendar_with_webhook validation_policy_default) = true ∧
  man_permissions calendar_with_webhook !! "workflow.run"%string = None.
Proof. split; vm_compute; reflexivity. Qed.

Lemma registry_survives_restart_witness :
  from_snapshot (snapshot (run_registry in_memory [RInstall calendar1 no_options]))
    validation_policy_default
  = Ok (run_registry in_memory [RInstall calendar1 no_options]).
Proof.
  apply (registry_survives_restart validation_policy_default in_memory [RInstall calendar1 no_options]).
  - vm_compute. reflexivity.
  - left. reflexivity.
Defined.

Lemma store_accepts_registry_witness :
  let p := with_local_unsigned validation_policy_default in
  let r := run_registry (registry_new p) [RInstall calendar1 no_options] in
  set_extension_registry_snapshot (snapshot r) inner_default
  = Ok (set_extension_snapshot inner_default (snapshot r), tt).
Proof.
  exact (store_accepts_registry (with_local_unsigned validation_policy_default)
    [RInstall calendar1 no_options] inner_default eq_refl eq_refl eq_refl).
Defined.

(** The record of version 1, read off the registry. *)
Definition record1 : ExtensionInstallRecord :=
  match active_record demo_registry "com.example.calendar" with
  | Some record => record
  | None => install_record in_memory {| validated_manifest := calendar1; validated_boundary := ThirdParty |}
              validation_policy_default
  end.

Lemma registry_history_is_kept_witness :
  ∃ record', get_version (reg_records (run_registry demo_registry [RRemove "com.example.calendar"]))
               "com.example.calendar" "1.0.0" = Some record' ∧
    inst_manifest_digest record' = inst_manifest_digest record1 ∧
    inst_artifact_digest record' = inst_artifact_digest record1.
Proof.
  refine (proj1 (registry_history_is_kept demo_registry [RRemove "com.example.calendar"%string]
    "com.example.calendar" "1.0.0" record1 _)).
  vm_compute. reflexivity.
Defined.

Lemma install_refuses_exactly_loops_witness :
  is_ok (install updated_registry calendar1 no_options) = false.
Proof.
  refine (proj2 (install_refuses_exactly_loops validation_policy_default updated_registry calendar1
    no_options {| validated_manifest := calendar1; validated_boundary := ThirdParty |}
    validation_policy_default (proj2 registries_wf) _) _).
  - vm_compute. reflexivity.
  - exists "2.0.0"%string. split_and!; [vm_compute; reflexivity|discriminate|].
    apply (chain_next _ _ "1.0.0"); [vm_compute; reflexivity|apply chain_here].
Defined.

Lemma update_then_rollback_restores_witness :
  ∃ r2 record0, active_record demo_registry "com.example.calendar" = Some record0 ∧
    rollback updated_registry "com.example.calendar"
    = Ok (r2, inst_set_status record0 InstalledPreviousVersion) ∧
    reg_active_versions r2 = reg_active_versions demo_registry.
Proof.
  destruct (install demo_registry calendar2 no_options) as [[r1 record]|e] eqn:Hi;
    [|vm_compute in Hi; discriminate Hi].
  destruct (update_then_rollback_restores validation_policy_default demo_registry calendar2 no_options
    r1 record "1.0.0" calendar1 (proj1 registries_wf) Hi) as (r2 & record0 & H1 & H2 & H3 & _).
  - vm_compute. reflexivity.
  - discriminate.
  - vm_compute. reflexivity.
  - vm_compute. reflexivity.
  - exists r2, record0. split; [exact H1|]. split; [|exact H3]. unfold updated_registry. cbn [run_registry].
    unfold registry_exec. rewrite Hi. exact H2.
Defined.

Definition block_calendar : BlocklistEntry :=
  {| block_key := KeyExtensionId "com.example.calendar"; block_reason := Malware; block_note := None |}.
Definition blocked_registry : ExtensionRegistry :=
  run_registry updated_registry [RBlock block_calendar].

Lemma blocked_packages_stay_out_witness :
  is_Some (find_blocklist_hit blocked_registry calendar2) ∧
  is_ok (install (run_registry blocked_registry [RRemove "com.example.calendar"%string]) calendar2
           no_options) = false.
Proof.
  assert (is_Some (find_blocklist_hit blocked_registry calendar2)) as Hb
    by (vm_compute; eexists; reflexivity).
  split; [exact Hb|].
  exact (proj1 (blocked_packages_stay_out blocked_registry calendar2
    [RRemove "com.example.calendar"%string] Hb) no_options).
Defined.

(** ** Two surprising answers *)

Definition lower_digest : string := digest_of "a".
Definition upper_digest : string := digest_of "A".
Definition block_digest : BlocklistEntry :=
  {| block_key := KeyArtifactDigest lower_digest; block_reason := Malware; block_note := None |}.

(** The same artifact escapes a block on its digest: digests are compared as
    text, but their hexadecimal digits are accepted in both cases, so writing a
    blocked digest in upper case installs the blocked artifact. *)
Theorem digest_block_depends_on_case :
  to_ascii_lowercase upper_digest = lower_digest ∧
  let r := run_registry in_memory [RBlock block_digest] in
  is_ok (install r (calendar "1.0.0" "a") no_options) = false ∧
  is_ok (install r (calendar "1.0.0" "A") no_options) = true.
Proof. vm_compute. auto. Qed.

Definition services_of (l : list (string * string)) : ExtensionServices := {|
  svc_provides := map (λ p, {| sdef_service := p.1; sdef_method := p.2; sdef_schema_version := "v1";
                               sdef_required_permission := "calendar.read" |}%string) l;
  svc_consumes := [] |}.

(** Different services may count as duplicates: the key of a service joins its
    parts with colons, which the parts may contain, so method [b:c] of service
    [a] and method [c] of service [a:b] cannot be declared together although
    each may be declared alone. *)
Theorem distinct_services_collide :
  let check l := is_ok (validate_manifest
    (demo_manifest "com.example.calendar" "1.0.0" "1" (services_of l)) validation_policy_default) in
  check [("a", "b:c")]%string = true ∧ check [("a:b", "c")]%string = true ∧
  validate_manifest (demo_manifest "com.example.calendar" "1.0.0" "1"
    (services_of [("a", "b:c"); ("a:b", "c")]%string)) validation_policy_default
  = Err (DuplicateServiceDeclaration "a:b" "c" "v1").
Proof. vm_compute. auto. Qed.
End RegistryDemo.
