(* ===== verification/Packages.v ===== *)
(** * Packages: the package handlers of the daemon ([crates/ateliad/src/service.rs])

    [SecretaryService] keeps the extension registry behind a mutex and its
    snapshot in the store.  Every mutation works on a draft loaded from the
    current snapshot, appends an audit record of what changed, persists the
    draft's snapshot in the store and only then installs the draft.

    A handler takes the I/O fault its store write meets, the audit id
    [AuditRecordId::new()] draws and the time [LedgerTimestamp::now()] reads. *)
From S2P Require Import Prelude Text Domain DomainLaws Policy StoreTypes.
From S2P Require Import Settings Truncation StoreValidate StoreJobs Store StoreQuery.
From S2P Require Import StoreLoad Ledger StoreRefine StoreGuarantees.
From S2P Require Import StoreShell Runtime Manifest ManifestCheck Registry RegistryAudit RegistryOps.

(** ** Errors *)

Inductive ServiceError :=
  | SvcConflict (reason : Message)
  | SvcStore (e : StoreError)
  | SvcRuntime (e : RuntimeError)
  | SvcExtensionRegistry (e : RegistryError)
  | SvcUnsupportedCapability (reason : Message)
  | SvcSettings (e : ToolOutputSettingsError)
  | SvcInvalidArgument (reason : Message)
  | SvcInternal (reason : Message).
Abbreviation ServiceResult := (result ServiceError).

(** ** Who, whence and why *)

(** The fields every package request has. *)
Record RequestOrigin := {
  ro_requester : option Actor;
  ro_request_source : option string;
  ro_reason : option string
}.

Definition PACKAGE_REGISTRY_REQUEST_SOURCE_MAX_CHARS : nat := 128.
Definition PACKAGE_REGISTRY_REASON_MAX_CHARS : nat := 1024.

Definition default_package_registry_actor : Actor := System "atelia-secretary".
Definition package_registry_actor (requester : option Actor) : Actor :=
  default default_package_registry_actor requester.

(** [chars().count()] and [chars().take(n)]: characters start at lead bytes. *)
Definition char_count (l : bytes) : nat := length (List.filter is_lead l).
Fixpoint take_chars (n : nat) (l : bytes) : bytes :=
  match l with
  | [] => []
  | c :: l =>
      if is_lead c then match n with O => [] | S n => c :: take_chars n l end
      else c :: take_chars n l
  end.
Definition truncate_audit_text (value : string) (max_chars : nat) : string :=
  if (char_count (to_bytes value) <=? max_chars)%nat then value
  else of_bytes (take_chars max_chars (to_bytes value)).

Definition package_registry_request_source (request_source : option string) : string :=
  truncate_audit_text (default "service"%string (trim_optional_string request_source))
    PACKAGE_REGISTRY_REQUEST_SOURCE_MAX_CHARS.
Definition package_registry_reason (reason : option string) (default_reason : string) : string :=
  truncate_audit_text (default default_reason (trim_optional_string reason))
    PACKAGE_REGISTRY_REASON_MAX_CHARS.

(** ** Audit records of mutations *)

Record ExtensionRegistryAuditContext := {
  ctx_package_id : option string;
  ctx_record_version : option string;
  ctx_actor : Actor;
  ctx_policy_decision_id : option PolicyDecisionId;
  ctx_blocklist_entry : option BlocklistEntry
}.

Definition snapshot_active_record (s : ExtensionRegistrySnapshot) (package_id : string)
  : option ExtensionInstallRecord :=
  match snap_active_versions s !! package_id with
  | Some version => get_version (snap_records s) package_id version
  | None => None
  end.
Definition active_extension_record_ref (s : ExtensionRegistrySnapshot) (package_id : string)
  : option ExtensionRegistryAuditRecordRef := ref_of_record <$> snapshot_active_record s package_id.
Definition extension_record_ref (s : ExtensionRegistrySnapshot) (package_id version : string)
  : option ExtensionRegistryAuditRecordRef :=
  ref_of_record <$> get_version (snap_records s) package_id version.
Definition active_extension_provenance (s : ExtensionRegistrySnapshot) (package_id : string)
  : option ExtensionRegistryAuditProvenance :=
  (λ record, provenance_of_source (inst_source record)) <$> snapshot_active_record s package_id.
Definition extension_provenance (s : ExtensionRegistrySnapshot) (package_id version : string)
  : option ExtensionRegistryAuditProvenance :=
  (λ record, provenance_of_source (inst_source record)) <$> get_version (snap_records s) package_id version.

Definition record_ref_in (s : ExtensionRegistrySnapshot) (context : ExtensionRegistryAuditContext)
  : option ExtensionRegistryAuditRecordRef :=
  match ctx_package_id context with
  | None => None
  | Some package_id =>
      match ctx_record_version context with
      | Some version => extension_record_ref s package_id version
      | None => active_extension_record_ref s package_id
      end
  end.

Definition extension_registry_audit_record (id : AuditRecordId) (now : LedgerTimestamp)
  (kind : ExtensionRegistryAuditKind) (request_source reason : string)
  (context : ExtensionRegistryAuditContext) (before after : ExtensionRegistrySnapshot)
  : ExtensionRegistryAuditRecord := {|
  ra_id := id;
  ra_schema_version := EXTENSION_REGISTRY_AUDIT_SCHEMA_VERSION;
  ra_created_at := now;
  ra_kind := kind;
  ra_actor := ctx_actor context;
  ra_request_source := request_source;
  ra_reason := reason;
  ra_policy_decision_id := ctx_policy_decision_id context;
  ra_package_id := ctx_package_id context;
  ra_previous_record := record_ref_in before context;
  ra_new_record := record_ref_in after context;
  ra_provenance :=
    match ctx_package_id context with
    | None => None
    | Some package_id =>
        match ctx_record_version context with
        | Some version => or_else (extension_provenance after package_id version)
                            (extension_provenance before package_id version)
        | None => or_else (active_extension_provenance after package_id)
                    (active_extension_provenance before package_id)
        end
    end;
  ra_blocklist_entry := ctx_blocklist_entry context |}.

(** ** The service *)

#[local] Existing Instance registry_port.

Section Service.
Context `{!SnapshotCodec}.

(** The fields of [SecretaryService] the package handlers use. *)
Record PackageService := {
  pks_registry : ExtensionRegistry;
  pks_poisoned : bool;
  pks_store : InMemoryStore
}.
Definition with_registry (s : PackageService) (r : ExtensionRegistry) : PackageService :=
  {| pks_registry := r; pks_poisoned := pks_poisoned s; pks_store := pks_store s |}.
Definition with_store (s : PackageService) (st : InMemoryStore) : PackageService :=
  {| pks_registry := pks_registry s; pks_poisoned := pks_poisoned s; pks_store := st |}.

Definition load_registry (s : ExtensionRegistrySnapshot) (p : ManifestValidationPolicy)
  : ServiceResult ExtensionRegistry :=
  map_err (λ reason, SvcStore (InvalidRecord "extension_registry" reason)) (from_snapshot s p).

Definition from_store (store : InMemoryStore) : ServiceResult PackageService :=
  let? inner := map_err SvcStore (lock store) in
  let? extension_registry :=
    load_registry (extension_registry_snapshot inner) validation_policy_default in
  Ok {| pks_registry := extension_registry; pks_poisoned := false; pks_store := store |}.

Definition lock_extension_registry (s : PackageService) : ServiceResult ExtensionRegistry :=
  if pks_poisoned s then Err (SvcInternal (msg "extension registry lock poisoned: {err}"))
  else Ok (pks_registry s).

Definition persist_extension_registry_snapshot (fault : option IoFault) (s : PackageService)
  (r : ExtensionRegistry) : PackageService * ServiceResult unit :=
  let '(st, res) := mutate fault (set_extension_registry_snapshot (snapshot r)) (pks_store s) in
  (with_store s st, map_err SvcStore res).

(** [mutate_extension_registry_with_audit]; the response comes with the id of the
    audit record. *)
Definition mutate_extension_registry_with_audit {R} (fault : option IoFault) (id : AuditRecordId)
  (now : LedgerTimestamp) (kind : ExtensionRegistryAuditKind) (request_source reason : string)
  (mutator : ExtensionRegistry → RegistryResult (ExtensionRegistry * R))
  (audit_context : R → ExtensionRegistryAuditContext) (s : PackageService)
  : PackageService * ServiceResult (R * AuditRecordId) :=
  match lock_extension_registry s with
  | Err e => (s, Err e)
  | Ok registry =>
      let before := snapshot registry in
      match load_registry before (reg_validation_policy registry) with
      | Err e => (s, Err e)
      | Ok draft =>
          match mutator draft with
          | Err e => (s, Err (SvcExtensionRegistry e))
          | Ok (draft, response) =>
              let context := audit_context response in
              let audit_record := extension_registry_audit_record id now kind request_source reason
                                    context before (snapshot draft) in
              match append_audit_record draft audit_record with
              | Err e => (s, Err (SvcExtensionRegistry e))
              | Ok draft =>
                  match persist_extension_registry_snapshot fault s draft with
                  | (s, Err e) => (s, Err e)
                  | (s, Ok _) => (with_registry s draft, Ok (response, id))
                  end
              end
          end
      end
  end.

(** ** The handlers *)

Definition record_context (origin : RequestOrigin) (record : ExtensionInstallRecord)
  : ExtensionRegistryAuditContext := {|
  ctx_package_id := Some (inst_id record); ctx_record_version := None;
  ctx_actor := package_registry_actor (ro_requester origin); ctx_policy_decision_id := None;
  ctx_blocklist_entry := None |}.

Definition blocklist_context (origin : RequestOrigin) (entry : BlocklistEntry)
  : ExtensionRegistryAuditContext := {|
  ctx_package_id := match block_key entry with
                    | KeyExtensionId package_id => Some package_id
                    | KeyVersion id _ => Some id
                    | _ => None
                    end;
  ctx_record_version := match block_key entry with KeyVersion _ version => Some version | _ => None end;
  ctx_actor := package_registry_actor (ro_requester origin); ctx_policy_decision_id := None;
  ctx_blocklist_entry := Some entry |}.

(** The call of a handler that answers with an install record. *)
Definition record_handler (kind : ExtensionRegistryAuditKind) (default_reason : string)
  (origin : RequestOrigin)
  (mutator : ExtensionRegistry → RegistryResult (ExtensionRegistry * ExtensionInstallRecord))
  (fault : option IoFault) (id : AuditRecordId) (now : LedgerTimestamp)
  : PackageService → PackageService * ServiceResult (ExtensionInstallRecord * AuditRecordId) :=
  mutate_extension_registry_with_audit fault id now kind
    (package_registry_request_source (ro_request_source origin))
    (package_registry_reason (ro_reason origin) default_reason) mutator (record_context origin).

Definition install_extension (origin : RequestOrigin) (manifest : ExtensionManifest)
  (options : InstallOptions) :=
  record_handler AuditInstall "install package" origin (λ r, install r manifest options).
Definition update_extension (origin : RequestOrigin) (manifest : ExtensionManifest)
  (options : InstallOptions) :=
  record_handler AuditUpdate "update package" origin (λ r, install r manifest options).
Definition rollback_extension (origin : RequestOrigin) (extension_id : string) :=
  record_handler AuditRollback "rollback package" origin (λ r, rollback r extension_id).
Definition disable_extension (origin : RequestOrigin) (extension_id : string) :=
  record_handler AuditDisable "disable package" origin (λ r, disable r extension_id).
Definition enable_extension (origin : RequestOrigin) (extension_id : string) :=
  record_handler AuditEnable "enable package" origin (λ r, enable r extension_id).
Definition remove_extension (origin : RequestOrigin) (extension_id : string) :=
  record_handler AuditRemove "remove package" origin (λ r, remove r extension_id).
Definition update_extension_publication (origin : RequestOrigin) (extension_id : string)
  (publication : ExtensionPublication) :=
  record_handler AuditPublicationUpdate "update package publication" origin
    (λ r, update_publication r extension_id publication).
Definition update_extension_registry_submission (origin : RequestOrigin) (extension_id : string)
  (submission : ExtensionRegistrySubmission) (registry_identity : option string) :=
  record_handler AuditRegistrySubmissionUpdate "update package registry submission" origin
    (λ r, update_registry_submission r extension_id submission registry_identity).

Definition apply_blocklist (origin : RequestOrigin) (entry : BlocklistEntry)
  (fault : option IoFault) (id : AuditRecordId) (now : LedgerTimestamp)
  : PackageService → PackageService * ServiceResult (BlocklistEntry * AuditRecordId) :=
  mutate_extension_registry_with_audit fault id now AuditBlocklistApply
    (package_registry_request_source (ro_request_source origin))
    (package_registry_reason (ro_reason origin) "apply package blocklist")
    (λ r, let? r := add_blocklist_entry r entry in Ok (r, entry)) (blocklist_context origin).

(** ** Reading *)

Definition validate_extension (manifest : ExtensionManifest) (options : InstallOptions)
  (s : PackageService) : ServiceResult ValidateExtensionManifestResponse :=
  let? registry := lock_extension_registry s in
  map_err SvcExtensionRegistry (registry_check registry manifest options).

Record PackageInspectResponse := {
  pir_extension : ExtensionStatusSnapshot;
  pir_manifest : ExtensionManifest;
  pir_block : option ExtensionBlocklistMatch;
  pir_permissions : list string;
  pir_services : ExtensionServices;
  pir_rollback_available : bool;
  pir_rollback_snapshot : option RollbackSnapshot;
  pir_source : ExtensionSourceSnapshot;
  pir_trust : option ExtensionPublication
}.

Definition package_inspect (extension_id : string) (s : PackageService)
  : ServiceResult PackageInspectResponse :=
  let? registry := lock_extension_registry s in
  let? extension := map_err SvcExtensionRegistry (extension_status registry extension_id) in
  let record := ess_record extension in
  let snapshot := snapshot registry in
  let? manifest := ok_or (get_version (snap_manifests snapshot) extension_id (inst_version record))
    (SvcStore (NotFound "extension_manifests" (Fmt "{}" [AStr extension_id]))) in
  let previous_manifest :=
    match inst_previous_version record with
    | Some previous_version => get_version (snap_manifests snapshot) extension_id previous_version
    | None => None
    end in
  let rollback_snapshot :=
    (λ m, {| rbs_manifest_digest := prov_manifest_digest (man_provenance m);
             rbs_artifact_digest := prov_artifact_digest (man_provenance m) |}) <$>
    opt_filter (λ m, negb (existsb (λ entry, matches_manifest entry m) (snap_blocklist snapshot)))
      previous_manifest in
  Ok {| pir_extension := extension; pir_manifest := manifest; pir_block := ess_block extension;
        pir_permissions := inst_approved_permissions record; pir_services := man_services manifest;
        pir_rollback_available := is_some rollback_snapshot;
        pir_rollback_snapshot := rollback_snapshot; pir_source := inst_source record;
        pir_trust := src_publication (inst_source record) |}.

Record PackageTrustIndexEntry := {
  pti_package_id : string;
  pti_version : option string;
  pti_status : option ExtensionInstallStatus;
  pti_boundary : option ExtensionBoundary;
  pti_manifest_digest : option string;
  pti_artifact_digest : option string;
  pti_source : option ExtensionSourceSnapshot;
  pti_block : option ExtensionBlocklistMatch
}.
Definition trust_index_entry (status : ExtensionStatusSnapshot) : PackageTrustIndexEntry :=
  let record := ess_record status in
  {| pti_package_id := ess_extension_id status; pti_version := Some (inst_version record);
     pti_status := Some (inst_status record); pti_boundary := Some (inst_boundary record);
     pti_manifest_digest := Some (inst_manifest_digest record);
     pti_artifact_digest := Some (inst_artifact_digest record);
     pti_source := Some (inst_source record);
     pti_block := ess_block status |}.

Definition discoverable (entry : PackageTrustIndexEntry) : bool :=
  negb (bool_decide (pti_boundary entry = Some LocalDevelopment)) && is_none (pti_block entry)
  && match pti_source entry ≫= src_publication with
     | Some publication =>
         bool_decide (pub_visibility publication = PublicSearchable)
         && bool_decide (pub_registry_submission publication = Accepted)
     | None => false
     end.

Definition list_package_trust_index (include_blocked discovery_only : bool) (s : PackageService)
  : ServiceResult (list PackageTrustIndexEntry) :=
  let? registry := lock_extension_registry s in
  let? extensions := map_err SvcExtensionRegistry (list_extensions registry include_blocked) in
  let packages := map trust_index_entry extensions in
  Ok (if discovery_only then List.filter discoverable packages else packages).

Definition MAX_HISTORY_PAGE : N := 1000.

Definition parse_page_token (page_token : option string) (collection : string) : ServiceResult N :=
  match page_token with
  | Some token =>
      if str_is_empty token then Ok 0%N
      else ok_or (parse_usize token)
             (SvcInvalidArgument (Fmt "{collection} page token is not a numeric offset"
                                    [AStr collection]))
  | None => Ok 0%N
  end.

Definition list_history_page_start (offset : option N) (cursor : option string) (collection : string)
  : ServiceResult N :=
  reject? is_some offset && is_some cursor
    with SvcInvalidArgument (msg "only one of offset or cursor may be set") in
  match cursor with
  | Some cursor => parse_page_token (Some cursor) collection
  | None => Ok (default 0%N offset)
  end.

Record AuditRecordsPage := {
  arp_records : list ExtensionRegistryAuditRecord;
  arp_next_page_token : option string
}.

(** [start + records.len()] is computed in [usize]; it is within the trail. *)
Definition list_extension_registry_audit_records (limit offset : option N) (cursor : option string)
  (s : PackageService) : ServiceResult AuditRecordsPage :=
  let limit := N.min (default MAX_HISTORY_PAGE limit) MAX_HISTORY_PAGE in
  let? start := list_history_page_start offset cursor "extension registry audit history" in
  if (limit =? 0)%N then Ok {| arp_records := []; arp_next_page_token := None |}
  else
    let? registry := lock_extension_registry s in
    let records := audit_records_window registry start (saturating_add_u64 limit 1) in
    let has_next := (limit <? N.of_nat (length records))%N in
    let records := if has_next then take (N.to_nat limit) records else records in
    Ok {| arp_records := records;
          arp_next_page_token :=
            if has_next then Some (usize_to_string (start + N.of_nat (length records))) else None |}.

Definition EXTENSION_EXECUTION_UNAVAILABLE_REASON : string :=
  "extension execution is not implemented in the Secretary beta; use extension install, status, and blocklist management APIs instead".
Definition execute_extension (extension_id : string) : ServiceResult unit :=
  Err (SvcUnsupportedCapability (msg EXTENSION_EXECUTION_UNAVAILABLE_REASON)).
End Service.
