(* ===== verification/PackageLaws.v ===== *)
(** * PackageLaws: the package handlers of the daemon *)
From S2P Require Import Prelude Text Domain DomainLaws Policy StoreTypes Settings Truncation.
From S2P Require Import StoreValidate StoreJobs Store StoreQuery StoreLoad Ledger StoreRefine.
From S2P Require Import StoreGuarantees StoreShell ShellLaws Backend Runtime Manifest.
From S2P Require Import ManifestCheck ManifestLaws Registry RegistryAudit RegistryOps RegistryLaws.
From S2P Require Import RegistryInvariant RegistryGuarantees Packages.

(** * The package handlers keep registry, store and audit trail in step *)

#[local] Existing Instance registry_port.

(** ** Texts *)

Lemma take_chars_prefix n l : ∃ q, l = take_chars n l ++ q.
Proof.
  revert n. induction l as [|c l IH]; intros n; simpl; [by exists []|].
  destruct (is_lead c); [destruct n as [|n]|].
  - by exists (c :: l).
  - destruct (IH n) as [q Hq]. exists q. simpl. by f_equal.
  - destruct (IH n) as [q Hq]. exists q. simpl. by f_equal.
Qed.

Lemma char_count_take_chars n l : char_count (take_chars n l) ≤ n.
Proof.
  unfold char_count. revert n. induction l as [|c l IH]; intros n; simpl; [lia|].
  destruct (is_lead c) eqn:Hc; [destruct n as [|n]|]; simpl; [lia| |]; rewrite Hc; simpl;
    [specialize (IH n)|specialize (IH n)]; lia.
Qed.

(** A text that audits keep: at most [n] characters, not blank. *)
Definition audit_text (n : nat) (s : string) : Prop :=
  char_count (to_bytes s) ≤ n ∧ is_blank s = false.

Lemma truncate_audit_text_ok n s :
  s ≠ ""%string → ws_head (to_bytes s) = 0 → audit_text (S n) (truncate_audit_text s (S n)).
Proof.
  intros Hne Hws. unfold truncate_audit_text, audit_text.
  destruct (Nat.leb_spec (char_count (to_bytes s)) (S n)) as [Hle|Hgt].
  - split; [done|]. rewrite <- (of_to_bytes s). apply not_blank; [|done]. by destruct s.
  - rewrite to_of_bytes. split; [apply char_count_take_chars|].
    destruct (take_chars_prefix (S n) (to_bytes s)) as [q Hq]. apply not_blank.
    + destruct s as [|c s]; [done|]. simpl. by destruct (is_lead c).
    + destruct (decide (ws_head (take_chars (S n) (to_bytes s)) = 0)) as [|Hw]; [done|].
      pose proof (ws_head_app _ q Hw) as Happ. rewrite <- Hq in Happ. congruence.
Qed.

Lemma trim_optional_head o t :
  trim_optional_string o = Some t → t ≠ ""%string ∧ ws_head (to_bytes t) = 0 ∧ trim t = t.
Proof.
  unfold trim_optional_string. destruct o as [s|]; simpl; [|done].
  destruct (str_is_empty (trim s)) eqn:He; simpl; [done|]. intros [= <-].
  split_and!; [by intros Ht; rewrite Ht in He|apply ws_head_trim|apply trim_idempotent].
Qed.

Lemma audit_texts_ok source reason default_reason :
  default_reason ≠ ""%string → ws_head (to_bytes default_reason) = 0 →
  audit_text 128 (package_registry_request_source source) ∧
  audit_text 1024 (package_registry_reason reason default_reason).
Proof.
  intros Hne Hws. unfold package_registry_request_source, package_registry_reason. split.
  - apply truncate_audit_text_ok; destruct (trim_optional_string source) eqn:Ht; simpl; try done;
      by apply trim_optional_head in Ht as (? & ? & _).
  - apply truncate_audit_text_ok; destruct (trim_optional_string reason) eqn:Ht; simpl; try done;
      by apply trim_optional_head in Ht as (? & ? & _).
Qed.

(** ** Requests *)

Inductive PackageRequest :=
  | PInstall (manifest : ExtensionManifest) (options : InstallOptions)
  | PUpdate (manifest : ExtensionManifest) (options : InstallOptions)
  | PRollback (id : string)
  | PDisable (id : string)
  | PEnable (id : string)
  | PRemove (id : string)
  | PUpdatePublication (id : string) (publication : ExtensionPublication)
  | PUpdateSubmission (id : string) (submission : ExtensionRegistrySubmission)
      (registry_identity : option string)
  | PApplyBlocklist (entry : BlocklistEntry).

(** What a request does to the registry, and how it is audited. *)
Definition request_op (q : PackageRequest) : RegistryOp :=
  match q with
  | PInstall m o | PUpdate m o => RInstall m o
  | PRollback id => RRollback id
  | PDisable id => RDisable id
  | PEnable id => REnable id
  | PRemove id => RRemove id
  | PUpdatePublication id p => RUpdatePublication id p
  | PUpdateSubmission id s i => RUpdateSubmission id s i
  | PApplyBlocklist e => RBlock e
  end.
Definition request_kind (q : PackageRequest) : ExtensionRegistryAuditKind :=
  match q with
  | PInstall _ _ => AuditInstall
  | PUpdate _ _ => AuditUpdate
  | PRollback _ => AuditRollback
  | PDisable _ => AuditDisable
  | PEnable _ => AuditEnable
  | PRemove _ => AuditRemove
  | PUpdatePublication _ _ => AuditPublicationUpdate
  | PUpdateSubmission _ _ _ => AuditRegistrySubmissionUpdate
  | PApplyBlocklist _ => AuditBlocklistApply
  end.

Section Laws.
Context `{UuidLib} `{!SnapshotCodec}.

Definition answered {A B} (p : PackageService * ServiceResult (A * B))
  : PackageService * ServiceResult unit :=
  (p.1, match p.2 with Ok _ => Ok tt | Err e => Err e end).

Definition package_call (fault : option IoFault) (id : AuditRecordId) (now : LedgerTimestamp)
  (origin : RequestOrigin) (q : PackageRequest) (s : PackageService)
  : PackageService * ServiceResult unit :=
  match q with
  | PInstall m o => answered (install_extension origin m o fault id now s)
  | PUpdate m o => answered (update_extension origin m o fault id now s)
  | PRollback x => answered (rollback_extension origin x fault id now s)
  | PDisable x => answered (disable_extension origin x fault id now s)
  | PEnable x => answered (enable_extension origin x fault id now s)
  | PRemove x => answered (remove_extension origin x fault id now s)
  | PUpdatePublication x p => answered (update_extension_publication origin x p fault id now s)
  | PUpdateSubmission x sub i =>
      answered (update_extension_registry_submission origin x sub i fault id now s)
  | PApplyBlocklist e => answered (apply_blocklist origin e fault id now s)
  end.

(** ** One mutation *)

Definition default_policy : ManifestValidationPolicy := validation_policy_default.

(** Registry and store agree, and the registry is well-formed. *)
Definition service_ok (s : PackageService) : Prop :=
  reg_ok default_policy default_policy (pks_registry s) ∧
  extension_registry_snapshot (st_inner (pks_store s)) = snapshot (pks_registry s).

Lemma default_policy_trimmed : identity_trimmed default_policy.
Proof. reflexivity. Qed.

Lemma load_registry_ok r :
  reg_ok default_policy default_policy r →
  load_registry (snapshot r) (reg_validation_policy r) = Ok r.
Proof.
  intros Hr. unfold load_registry. destruct Hr as [Hp Hwf]. rewrite Hp. apply map_err_Ok.
  by apply (reg_ok_reload _ default_policy).
Qed.

Lemma set_extension_registry_snapshot_Ok x s s' :
  set_extension_registry_snapshot x s = Ok (s', tt) → s' = set_extension_snapshot s x.
Proof. unfold set_extension_registry_snapshot. intros [_ [= <-]]%then_Ok. done. Qed.

(** A store whose registry snapshot is that of [r]. *)
Definition holding (s : PackageService) (r : ExtensionRegistry) : InMemoryInner :=
  set_extension_snapshot (st_inner (pks_store s)) (snapshot r).

(** The snapshot file after a call that meant to save the registry [r] and failed:
    as it was, unless the directory sync after the rename failed. *)
Definition file_spared (fault : option IoFault) (s s' : PackageService)
  (r : ExtensionRegistry) : Prop :=
  disk_file (st_disk (pks_store s')) = disk_file (st_disk (pks_store s)) ∨
  fault = Some SyncDirectoryFails ∧ persisted (st_disk (pks_store s')) (holding s r).

Lemma persist_spec fault s r s' res :
  persist_extension_registry_snapshot fault s r = (s', res) →
  pks_registry s' = pks_registry s ∧ pks_poisoned s' = pks_poisoned s ∧
  st_poisoned (pks_store s') = st_poisoned (pks_store s) ∧
  st_sent (pks_store s') = st_sent (pks_store s) ∧
  match res with
  | Ok _ => st_inner (pks_store s') = holding s r ∧
      (st_durable (pks_store s) = true → persisted (st_disk (pks_store s')) (holding s r))
  | Err _ => st_inner (pks_store s') = st_inner (pks_store s) ∧ file_spared fault s s' r
  end.
Proof.
  unfold persist_extension_registry_snapshot, mutate, lock, file_spared.
  destruct (st_poisoned (pks_store s)) eqn:Hp; [intros [= <- <-]; simpl; by auto 10|].
  destruct (set_extension_registry_snapshot _ _) as [[draft []]|] eqn:Htx;
    [|intros [= <- <-]; simpl; by auto 10].
  apply set_extension_registry_snapshot_Ok in Htx as ->.
  destruct (persist_if_durable _ _ _) as [st x] eqn:Hper.
  apply persist_if_durable_spec in Hper as (Hi & Hs & _ & Hpo & Hd).
  destruct x; intros [= <- <-]; simpl; split_and!; try done; congruence.
Qed.

(** What one mutation with audit does: it runs the mutator on the registry and
    appends the audit record of the difference; a call that fails changes nothing
    in memory, one that succeeds leaves the same snapshot in the store. *)
Lemma mutate_with_audit_spec {R} fault id now kind source reason
    (mutator : ExtensionRegistry → RegistryResult (ExtensionRegistry * R)) context s s' res :
  service_ok s →
  mutate_extension_registry_with_audit fault id now kind source reason mutator context s = (s', res) →
  let audited response draft after :=
    mutator (pks_registry s) = Ok (draft, response) ∧
    append_audit_record draft
      (extension_registry_audit_record id now kind source reason (context response)
         (snapshot (pks_registry s)) (snapshot draft)) = Ok after in
  pks_poisoned s' = pks_poisoned s ∧ st_poisoned (pks_store s') = st_poisoned (pks_store s) ∧
  st_sent (pks_store s') = st_sent (pks_store s) ∧
  match res with
  | Err _ => pks_registry s' = pks_registry s ∧ st_inner (pks_store s') = st_inner (pks_store s) ∧
      (disk_file (st_disk (pks_store s')) = disk_file (st_disk (pks_store s)) ∨
       ∃ response draft after, audited response draft after ∧ file_spared fault s s' after)
  | Ok (response, i) => i = id ∧ (∃ draft, audited response draft (pks_registry s')) ∧
      st_inner (pks_store s') = holding s (pks_registry s') ∧
      (st_durable (pks_store s) = true →
       persisted (st_disk (pks_store s')) (st_inner (pks_store s')))
  end.
Proof.
  intros [Hr _] Hm. unfold mutate_extension_registry_with_audit, lock_extension_registry in Hm.
  destruct (pks_poisoned s) eqn:Hpo; [injection Hm as <- <-; simpl; by auto 10|].
  rewrite (load_registry_ok _ Hr) in Hm.
  destruct (mutator (pks_registry s)) as [[draft response]|] eqn:Hmut;
    [|injection Hm as <- <-; simpl; by auto 10].
  destruct (append_audit_record draft _) as [after|] eqn:Happ;
    [|injection Hm as <- <-; simpl; by auto 10].
  destruct (persist_extension_registry_snapshot fault s after) as [s1 res1] eqn:Hper.
  apply persist_spec in Hper as (H1 & H2 & H3 & H4 & H5).
  destruct res1; injection Hm as <- <-; simpl; destruct H5 as [H5 H6]; rewrite ?Hpo in *;
    split_and!; try done.
  - eauto.
  - by rewrite H5.
  - right. by exists response, draft, after.
Qed.

(** ** What a request is about *)

Definition request_package (q : PackageRequest) : option string :=
  match q with
  | PInstall m _ | PUpdate m _ => Some (man_id m)
  | PRollback id | PDisable id | PEnable id | PRemove id
  | PUpdatePublication id _ | PUpdateSubmission id _ _ => Some id
  | PApplyBlocklist e =>
      match block_key e with KeyExtensionId id | KeyVersion id _ => Some id | _ => None end
  end.
Definition request_block (q : PackageRequest) : option BlocklistEntry :=
  match q with PApplyBlocklist e => Some e | _ => None end.

(** The record of the registry a request is about: that of the blocked version,
    or the active one of the package. *)
Definition request_record (r : ExtensionRegistry) (q : PackageRequest)
  : option ExtensionInstallRecord :=
  match request_package q, block_key <$> request_block q with
  | Some id, Some (KeyVersion _ v) => get_version (reg_records r) id v
  | Some id, _ => active_record r id
  | None, _ => None
  end.

(** The audit record of a call that takes the registry from [before] to [after]. *)
Record call_audit (id : AuditRecordId) (now : LedgerTimestamp) (origin : RequestOrigin)
  (q : PackageRequest) (before after : ExtensionRegistry) (a : ExtensionRegistryAuditRecord)
  : Prop := {
  ca_id : ra_id a = id;
  ca_time : ra_created_at a = now;
  ca_kind : ra_kind a = request_kind q;
  ca_actor : ra_actor a = package_registry_actor (ro_requester origin);
  ca_source : audit_text 128 (ra_request_source a);
  ca_source_given t : trim_optional_string (ro_request_source origin) = Some t →
    ra_request_source a = truncate_audit_text t 128;
  ca_reason : audit_text 1024 (ra_reason a);
  ca_reason_given t : trim_optional_string (ro_reason origin) = Some t →
    ra_reason a = truncate_audit_text t 1024;
  ca_package : ra_package_id a = request_package q;
  ca_previous : ra_previous_record a = ref_of_record <$> request_record before q;
  ca_new : ra_new_record a = ref_of_record <$> request_record after q;
  ca_provenance : ra_provenance a = (λ record, provenance_of_source (inst_source record)) <$>
    or_else (request_record after q) (request_record before q);
  ca_block : ra_blocklist_entry a = request_block q
}.

(** The registry a request asks for: the operation's result and its audit record. *)
Definition asked_registry (id : AuditRecordId) (now : LedgerTimestamp) (origin : RequestOrigin)
  (q : PackageRequest) (s : PackageService) (after : ExtensionRegistry) : Prop :=
  ∃ draft a, registry_exec (request_op q) (pks_registry s) = Ok draft ∧
    append_audit_record draft a = Ok after ∧
    call_audit id now origin q (pks_registry s) draft a.

(** The outcome of a package call. *)
Definition call_outcome (fault : option IoFault) (id : AuditRecordId) (now : LedgerTimestamp)
  (origin : RequestOrigin) (q : PackageRequest) (s s' : PackageService)
  (res : ServiceResult unit) : Prop :=
  st_sent (pks_store s') = st_sent (pks_store s) ∧
  match res with
  | Err _ => pks_registry s' = pks_registry s ∧ st_inner (pks_store s') = st_inner (pks_store s) ∧
      (disk_file (st_disk (pks_store s')) = disk_file (st_disk (pks_store s)) ∨
       fault = Some SyncDirectoryFails ∧ ∃ after, asked_registry id now origin q s after ∧
         persisted (st_disk (pks_store s')) (holding s after))
  | Ok _ => asked_registry id now origin q s (pks_registry s') ∧
      st_inner (pks_store s') = holding s (pks_registry s') ∧
      (st_durable (pks_store s) = true →
       persisted (st_disk (pks_store s')) (st_inner (pks_store s')))
  end.

(** From what a mutation does to the outcome of the call. *)
Lemma mutation_outcome {R} fault id now origin q kind source reason
    (mutator : ExtensionRegistry → RegistryResult (ExtensionRegistry * R)) context s s' res :
  service_ok s →
  (∀ draft response, mutator (pks_registry s) = Ok (draft, response) →
     registry_exec (request_op q) (pks_registry s) = Ok draft ∧
     call_audit id now origin q (pks_registry s) draft
       (extension_registry_audit_record id now kind source reason (context response)
          (snapshot (pks_registry s)) (snapshot draft))) →
  answered (mutate_extension_registry_with_audit fault id now kind source reason mutator context s)
  = (s', res) →
  pks_poisoned s' = pks_poisoned s ∧ st_poisoned (pks_store s') = st_poisoned (pks_store s) ∧
  call_outcome fault id now origin q s s' res.
Proof.
  intros Hs Hmut Hc. unfold answered in Hc.
  destruct (mutate_extension_registry_with_audit _ _ _ _ _ _ _ _ _) as [s1 res1] eqn:Hh.
  injection Hc as <- <-. simpl. apply mutate_with_audit_spec in Hh as (Hp & Hp' & Hse & Hres); [|done].
  split_and!; [done..|]. split; [done|].
  assert (∀ response draft after, mutator (pks_registry s) = Ok (draft, response) ∧
    append_audit_record draft (extension_registry_audit_record id now kind source reason
      (context response) (snapshot (pks_registry s)) (snapshot draft)) = Ok after →
    asked_registry id now origin q s after) as Hasked.
  { intros response draft after [[Hop Ha]%Hmut Happ]. eexists _, _. by split_and!. }
  destruct res1 as [[response i]|].
  - destruct Hres as (-> & [draft Hd] & Hi & Hdisk). split_and!; [by eapply Hasked|done..].
  - destruct Hres as (Hreg & Hi & Hd). split_and!; [done..|].
    destruct Hd as [?|(response & draft & after & Ha%Hasked & [?|[-> ?]])]; eauto.
Qed.

Lemma install_effect r m o draft record :
  install r m o = Ok (draft, record) →
  inst_id record = man_id m ∧ inst_version record = man_version m ∧
  active_record draft (man_id m) = Some record ∧
  get_version (reg_records draft) (man_id m) (man_version m) = Some record ∧
  inst_source record = from_provenance (man_provenance m) ∧
  validate_source (man_provenance m) = Ok tt ∧
  reg_audit_records draft = reg_audit_records r.
Proof.
  intros Hok. unfold install in Hok.
  destruct (run_validation_checks r m o) as [[v pol]|] eqn:Hrun; [|done].
  apply run_validation_checks_Ok in Hrun as (_ & <- & Hacc & _).
  apply reject_Ok in Hok as [_ [= <- <-]]. unfold active_record. simpl.
  rewrite lookup_insert_eq, !get_put_eq. by destruct Hacc.
Qed.

(** The record a lifecycle operation answers with is one of its package. *)
Lemma get_version_id p q r id v record :
  reg_ok p q r → get_version (reg_records r) id v = Some record → inst_id record = id.
Proof. intros [_ Hwf] Hg. by destruct (rw_linked _ _ Hwf _ _ _ Hg) as (m & _ & []). Qed.

Ltac answers_about Hr Hok :=
  walk_op Hok; injection Hok as _ <-; simpl;
  repeat case_match; eauto using get_version_id.

Definition request_mutator (q : PackageRequest) (r : ExtensionRegistry)
  : option (RegistryResult (ExtensionRegistry * ExtensionInstallRecord)) :=
  match q with
  | PInstall m o | PUpdate m o => Some (install r m o)
  | PRollback id => Some (rollback r id)
  | PDisable id => Some (disable r id)
  | PEnable id => Some (enable r id)
  | PRemove id => Some (remove r id)
  | PUpdatePublication id p => Some (update_publication r id p)
  | PUpdateSubmission id s i => Some (update_registry_submission r id s i)
  | PApplyBlocklist _ => None
  end.

Lemma request_answers_about q r draft record :
  reg_ok default_policy default_policy r → request_mutator q r = Some (Ok (draft, record)) →
  request_package q = Some (inst_id record).
Proof.
  intros Hr Hok. destruct q; try discriminate Hok; injection Hok as Hok; simpl; f_equal; symmetry.
  1,2: by apply install_effect in Hok as (? & _).
  - unfold rollback in Hok. answers_about Hr Hok.
  - unfold disable in Hok. answers_about Hr Hok.
  - unfold enable in Hok. answers_about Hr Hok.
  - unfold remove in Hok. answers_about Hr Hok.
  - unfold update_publication in Hok. answers_about Hr Hok.
  - unfold update_registry_submission in Hok. answers_about Hr Hok.
Qed.

Lemma text_given o d n t :
  trim_optional_string o = Some t →
  truncate_audit_text (default d (trim_optional_string o)) n = truncate_audit_text t n.
Proof. by intros ->. Qed.

Lemma or_else_fmap {A B} (f : A → B) o o' : or_else (f <$> o) (f <$> o') = f <$> or_else o o'.
Proof. by destruct o. Qed.

Lemma record_handler_spec kind def origin mutator fault id now q s s' res :
  service_ok s →
  (∀ r, request_mutator q r = Some (mutator r)) →
  (∀ r, forget (mutator r) = registry_exec (request_op q) r) → kind = request_kind q →
  def ≠ ""%string → ws_head (to_bytes def) = 0 →
  answered (record_handler kind def origin mutator fault id now s) = (s', res) →
  pks_poisoned s' = pks_poisoned s ∧ st_poisoned (pks_store s') = st_poisoned (pks_store s) ∧
  call_outcome fault id now origin q s s' res.
Proof.
  intros Hs Hq Hop -> Hne Hws.
  destruct (audit_texts_ok (ro_request_source origin) (ro_reason origin) def Hne Hws) as [Ht1 Ht2].
  apply mutation_outcome; [done|]. intros draft record Hmut. split; [by rewrite <- Hop, Hmut|].
  pose proof (request_answers_about q (pks_registry s) draft record (proj1 Hs)) as Hid.
  rewrite Hq, Hmut in Hid. specialize (Hid eq_refl).
  assert (request_block q = None) as Hb by (by destruct q; try specialize (Hq (pks_registry s))).
  assert (∀ r, request_record r q = active_record r (inst_id record)) as Hrec
    by (intros r; unfold request_record; by rewrite Hid, Hb).
  constructor; simpl; rewrite ?Hid, ?Hb, ?Hrec; try done; try apply text_given.
  apply or_else_fmap.
Qed.

Lemma blocklist_audit_ok id now origin e r draft :
  call_audit id now origin (PApplyBlocklist e) r draft
    (extension_registry_audit_record id now AuditBlocklistApply
       (package_registry_request_source (ro_request_source origin))
       (package_registry_reason (ro_reason origin) "apply package blocklist")
       (blocklist_context origin e) (snapshot r) (snapshot draft)).
Proof.
  destruct (audit_texts_ok (ro_request_source origin) (ro_reason origin) "apply package blocklist")
    as [Ht1 Ht2]; [done..|].
  constructor; simpl; try done; try apply text_given; unfold record_ref_in, request_record; simpl.
  - by destruct (block_key e).
  - by destruct (block_key e).
  - destruct (block_key e); try done; apply or_else_fmap.
Qed.

Lemma package_call_spec fault id now origin q s s' res :
  service_ok s → package_call fault id now origin q s = (s', res) →
  pks_poisoned s' = pks_poisoned s ∧ st_poisoned (pks_store s') = st_poisoned (pks_store s) ∧
  call_outcome fault id now origin q s s' res.
Proof.
  intros Hs Hc. destruct q as [m o|m o|x|x|x|x|x p|x sub i|e];
    try by (eapply record_handler_spec; [exact Hs| | |done| | |exact Hc]).
  revert Hc. apply mutation_outcome; [done|]. intros draft response Hmut. simpl in *.
  destruct (add_blocklist_entry (pks_registry s) e) as [r|] eqn:Hb; [|done].
  injection Hmut as -> ->. split; [done|]. apply blocklist_audit_ok.
Qed.

(** ** Runs of the daemon *)

Lemma append_audit_record_pushes r a r' :
  append_audit_record r a = Ok r' → r' = reg_push_audit_record r a.
Proof. unfold append_audit_record. intros Hok. walk_op Hok. by injection Hok as <-. Qed.

Lemma package_call_ok fault id now origin q s s' res :
  service_ok s → package_call fault id now origin q s = (s', res) → service_ok s'.
Proof.
  intros Hs Hc. pose proof (package_call_spec _ _ _ _ _ _ _ _ Hs Hc) as (_ & _ & Hout).
  destruct Hs as [Hr Hsnap], res as [u|e]; simpl in Hout.
  - destruct Hout as (_ & (draft & a & Hop & Happ & _) & Hst & _). split; [|by rewrite Hst].
    apply (append_audit_record_ok _ _ draft a); [|done].
    by apply (registry_exec_ok _ _ (request_op q) (pks_registry s)).
  - destruct Hout as (_ & Hreg & Hin & _). split; [by rewrite Hreg|by rewrite Hin, Hreg].
Qed.

(** The other clients of the store never write the registry snapshot. *)
Definition writes_registry (op : StoreOp) : bool :=
  match op with OpSetExtensions _ => true | _ => false end.

Lemma insert_receipt_extensions s key r s' :
  insert_submit_job_idempotency_locked s key r = Ok s' →
  extension_registry_snapshot s' = extension_registry_snapshot s.
Proof.
  unfold insert_submit_job_idempotency_locked. intros Hok. step_ok Hok.
  destruct (idempotent_submit_jobs s !! key); [step_ok Hok|]; by injection Hok as <-.
Qed.

Ltac same_extensions Hop :=
  repeat first
    [ step_ok Hop
    | match type of Hop with match ?x with _ => _ end = Ok _ => destruct x; try discriminate Hop end ];
  simplify_eq;
  repeat match goal with
    | Hx : append_event_locked _ _ = Ok _ |- _ => apply append_event_locked_Ok in Hx as (_ & -> & ->)
    | Hx : commit_result_and_audit _ _ _ _ _ _ = Ok _ |- _ =>
        apply commit_result_and_audit_Ok in Hx as (_ & _ & _ & -> & _)
    | Hx : insert_submit_job_idempotency_locked _ _ _ = Ok _ |- _ =>
        apply insert_receipt_extensions in Hx as ->
    end;
  reflexivity.

Lemma exec_op_extensions op s s' es :
  exec_op op s = Ok (s', es) → writes_registry op = false →
  extension_registry_snapshot s' = extension_registry_snapshot s.
Proof.
  intros Hop Hw. destruct op; cbn [exec_op] in Hop; try discriminate Hw;
    first [apply quiet_Ok in Hop as [[v Hop] _]|apply publishing_Ok in Hop as [v Hop]].
  - unfold create_repository in Hop. same_extensions Hop.
  - unfold create_job_with_initial_event in Hop. same_extensions Hop.
  - unfold append_job_event in Hop. same_extensions Hop.
  - unfold append_job_event_and_update_job in Hop. same_extensions Hop.
  - unfold append_job_event_and_update_job_with_submit_job_idempotency in Hop. same_extensions Hop.
  - unfold append_job_events_and_update_job in Hop. same_extensions Hop.
  - unfold create_policy_decision in Hop. same_extensions Hop.
  - unfold create_lock_decision in Hop. same_extensions Hop.
  - unfold create_schema_migration in Hop. same_extensions Hop.
  - unfold acquire_schema_migration_lock in Hop. same_extensions Hop.
  - unfold get_schema_migration_lock in Hop. same_extensions Hop.
  - unfold release_schema_migration_lock in Hop. same_extensions Hop.
  - unfold create_tool_invocation in Hop. same_extensions Hop.
  - unfold create_tool_result in Hop. same_extensions Hop.
  - unfold create_audit_record in Hop. same_extensions Hop.
  - unfold record_submit_job_idempotency in Hop. same_extensions Hop.
  - unfold record_tool_result_and_audit_with_events in Hop. same_extensions Hop.
  - unfold record_tool_result_audit_terminal_with_submit_job_idempotency in Hop.
    destruct q as [j x re a ae te [[key r]|]]; simpl in Hop; same_extensions Hop.
Qed.

(** What happens to the daemon: package requests, and store calls of the runtime. *)
Inductive ServiceEvent :=
  | PackageCall (fault : option IoFault) (id : AuditRecordId) (now : LedgerTimestamp)
      (origin : RequestOrigin) (q : PackageRequest)
  | StoreCall (fault : option IoFault) (op : StoreOp).

Definition service_step (s : PackageService) (e : ServiceEvent) : PackageService :=
  match e with
  | PackageCall fault id now origin q => (package_call fault id now origin q s).1
  | StoreCall fault op =>
      if writes_registry op then s else with_store s (run_op fault op (pks_store s)).1
  end.
Definition service_run (s : PackageService) (events : list ServiceEvent) : PackageService :=
  foldl service_step s events.

Lemma service_step_ok s e :
  service_ok s →
  service_ok (service_step s e) ∧ pks_poisoned (service_step s e) = pks_poisoned s ∧
  st_poisoned (pks_store (service_step s e)) = st_poisoned (pks_store s).
Proof.
  intros Hs. destruct e as [fault id now origin q|fault op]; simpl.
  - destruct (package_call fault id now origin q s) as [s' res] eqn:Hc. simpl.
    split; [by eapply package_call_ok|]. by apply package_call_spec in Hc as (? & ? & _).
  - destruct (writes_registry op) eqn:Hw; [done|]. split_and!; [|done|apply run_op_poisoned].
    destruct Hs as [Hr Hsnap]. split; [done|]. simpl. rewrite <- Hsnap.
    destruct (run_op fault op (pks_store s)) as [st res] eqn:Hop. simpl.
    apply run_op_sound in Hop. destruct Hop as [es Hexec|e Hi]; [|by rewrite Hi].
    by eapply exec_op_extensions.
Qed.

Lemma service_run_ok s events :
  service_ok s →
  service_ok (service_run s events) ∧ pks_poisoned (service_run s events) = pks_poisoned s ∧
  st_poisoned (pks_store (service_run s events)) = st_poisoned (pks_store s).
Proof.
  revert s. induction events as [|e events IH]; intros s Hs; simpl; [done|].
  destruct (service_step_ok s e Hs) as (H1 & H2 & H3). destruct (IH _ H1) as (? & ? & ?).
  split_and!; [done|congruence..].
Qed.

Lemma from_store_ok st s :
  from_store st = Ok s → service_ok s ∧ pks_poisoned s = false ∧ st_poisoned (pks_store s) = false.
Proof.
  unfold from_store. intros (inner & Hl%map_err_Ok & H1)%bind_Ok.
  apply bind_Ok in H1 as (r & Hr%map_err_Ok & [= <-]). unfold lock in Hl.
  destruct (st_poisoned st) eqn:Hp; [done|]. injection Hl as <-.
  split; [|split; [reflexivity|exact Hp]]. split.
  - apply reg_ok_start. eauto.
  - unfold from_snapshot in Hr. apply then_Ok in Hr as [_ [= <-]]. simpl.
    by destruct (extension_registry_snapshot (st_inner st)).
Qed.

(** C24: The daemon restarts with the packages it had.  However package requests
    (with I/O faults at any system call) and other store calls interleave, the
    snapshot in the store is the snapshot of the registry in memory, and a
    service opened on the store comes up with exactly that registry. *)
Theorem packages_survive_restart st s0 events :
  from_store st = Ok s0 →
  let s := service_run s0 events in
  extension_registry_snapshot (st_inner (pks_store s)) = snapshot (pks_registry s) ∧
  from_store (pks_store s) = Ok s.
Proof.
  intros (Hs & Hp & Hp')%from_store_ok s. destruct (service_run_ok s0 events Hs) as ([Hr Hsnap] & H2 & H3).
  fold s in Hr, Hsnap, H2, H3. split; [done|]. unfold from_store, lock. rewrite H3, Hp'. simpl.
  rewrite Hsnap. pose proof (reg_ok_reload _ default_policy _ Hr (reflexivity _)) as Hl.
  unfold load_registry. change validation_policy_default with default_policy. rewrite Hl. simpl.
  rewrite Hp in H2. destruct s. simpl in *. by rewrite H2.
Qed.

(** C25: A package request is all or nothing and audited.  If it fails, registry
    and ledger in memory are as before and nothing is sent; so is the snapshot
    file, unless what failed was the directory sync after the rename, which
    leaves the registry that was asked for in the file.  If it succeeds, the
    registry is the one the operation produces plus exactly one audit record.
    That record carries the id, time, actor and kind of the request; the source
    and reason that were given, bounded and not blank; the package the request
    names and the blocklist entry it applies; and references to the package's
    record (of the blocked version, else the active one) before and after, with
    its provenance.  The store holds the snapshot of that registry and changed in
    nothing else, and the file of a durable store is the snapshot of that store. *)
Theorem package_requests_are_audited st s0 events fault id now origin q s' res :
  from_store st = Ok s0 →
  let s := service_run s0 events in
  package_call fault id now origin q s = (s', res) →
  st_sent (pks_store s') = st_sent (pks_store s) ∧
  match res with
  | Err _ => pks_registry s' = pks_registry s ∧ st_inner (pks_store s') = st_inner (pks_store s) ∧
      (disk_file (st_disk (pks_store s')) = disk_file (st_disk (pks_store s)) ∨
       fault = Some SyncDirectoryFails ∧
       ∃ draft a, registry_exec (request_op q) (pks_registry s) = Ok draft ∧
         call_audit id now origin q (pks_registry s) draft a ∧
         persisted (st_disk (pks_store s')) (holding s (reg_push_audit_record draft a)))
  | Ok _ => ∃ draft a, registry_exec (request_op q) (pks_registry s) = Ok draft ∧
      pks_registry s' = reg_push_audit_record draft a ∧
      call_audit id now origin q (pks_registry s) draft a ∧
      st_inner (pks_store s') = holding s (pks_registry s') ∧
      (st_durable (pks_store s) = true →
       persisted (st_disk (pks_store s')) (st_inner (pks_store s')))
  end.
Proof.
  intros (Hs & _ & _)%from_store_ok s Hc. destruct (service_run_ok s0 events Hs) as (Hok & _ & _).
  pose proof (package_call_spec _ _ _ _ _ _ _ _ Hok Hc) as (_ & _ & Hse & Hout). split; [done|].
  destruct res as [u|].
  - destruct Hout as ((draft & a & Hop & Happ%append_audit_record_pushes & Ha) & Hst).
    by exists draft, a.
  - destruct Hout as (Hreg & Hi & Hd). split_and!; [done..|].
    destruct Hd as [?|(Hf & after & (draft & a & Hop & Happ%append_audit_record_pushes & Ha) & Hp)];
      [by left|right]. subst after. split; [done|]. by exists draft, a.
Qed.
End Laws.

(** * When an install is audited, and what inspection predicts *)

#[local] Existing Instance registry_port.

(** ** When an install can be audited *)

Lemma require_reverse_dns_id_field f g v :
  require_reverse_dns_id f v = Ok tt → require_reverse_dns_id g v = Ok tt.
Proof.
  unfold require_reverse_dns_id. rewrite !reject_Ok, !for_each_Ok. setoid_rewrite reject_Ok. done.
Qed.
Lemma require_semver_field f g v : require_semver f v = Ok tt → require_semver g v = Ok tt.
Proof. unfold require_semver. by rewrite !reject_Ok. Qed.
Lemma require_digest_field f g v : require_digest f v = Ok tt → require_digest g v = Ok tt.
Proof.
  unfold require_digest. destruct (strip_prefix "sha256:" v); [|done]. by rewrite !reject_Ok.
Qed.

Lemma linked_ref_valid p id v record manifest f :
  linked p id v record manifest →
  validate_extension_registry_audit_record_ref f (ref_of_record record) = Ok tt ∧
  validate_audit_reverse_dns_id f (inst_id record) = Ok tt.
Proof.
  intros [Hid Hv Hmid Hmv Ha Hm _ [Hi _ _ Hda Hdm _ _ _ _ _]].
  unfold validate_identity in Hi. rewrite reject_Ok, !then_Ok in Hi.
  destruct Hi as (_ & _ & Hdns & _ & _ & Hsem & _).
  unfold validate_extension_registry_audit_record_ref, validate_audit_reverse_dns_id,
    validate_audit_semver, validate_audit_digest. rewrite !then_Ok, !map_err_Ok. simpl.
  rewrite Hid, Hv, <- Ha, <- Hm, <- Hmid, <- Hmv.
  split_and!; eauto using require_reverse_dns_id_field, require_semver_field, require_digest_field.
Qed.

(** A commit the audit trail can hold. *)
Definition commit_ok (commit : option string) : Prop :=
  match commit with Some c => is_blank c = false ∧ trim c = c | None => True end.

Lemma validate_audit_optional_trimmed_Ok f o :
  validate_audit_optional_trimmed f o = Ok tt ↔ commit_ok o.
Proof.
  unfold validate_audit_optional_trimmed, commit_ok. destruct o as [c|]; [|done].
  rewrite !reject_Ok, str_eqb_guard. by split; [intros (? & ? & _)|intros [? ?]].
Qed.

Lemma trimmed_commit_ok o : commit_ok (trim_optional_string o).
Proof.
  unfold commit_ok. destruct (trim_optional_string o) as [t|] eqn:Ht; [|done].
  apply trim_optional_head in Ht as (Hne & _ & Ht). split; [|done].
  unfold is_blank. rewrite Ht. by destruct t.
Qed.

Lemma has_non_empty_some o : has_non_empty_trimmed o = true → is_some (trim_optional_string o) = true.
Proof.
  unfold has_non_empty_trimmed, trim_optional_string. destruct o as [s|]; simpl; [|done].
  unfold is_blank. by destruct (str_is_empty (trim s)).
Qed.

Lemma audit_provenance_valid prov :
  validate_source prov = Ok tt →
  validate_extension_registry_audit_provenance (provenance_of_source (from_provenance prov)) = Ok tt
  ↔ commit_ok (prov_commit prov).
Proof.
  intros Hsrc. unfold validate_extension_registry_audit_provenance.
  rewrite !then_Ok, !validate_audit_optional_trimmed_Ok. simpl.
  split; [by intros (_ & _ & _ & ? & _)|]. intros Hc. split_and!; try apply trimmed_commit_ok; [done|].
  unfold validate_source in Hsrc. unfold require_audit_optional_value.
  destruct (prov_source prov); rewrite ?then_Ok, ?require_provenance_Ok in Hsrc; [| |done].
  - destruct Hsrc as (H1%has_non_empty_some & H2%has_non_empty_some & H3%has_non_empty_some & H4).
    rewrite H1, H2, H3. by destruct (prov_commit prov).
  - by rewrite (has_non_empty_some _ Hsrc).
Qed.

Lemma targets_of_records records package_id previous new kind a :
  ra_package_id a = Some package_id → ra_kind a = kind →
  ra_previous_record a = ref_of_record <$> previous → ra_new_record a = ref_of_record <$> new →
  (∀ x, previous = Some x → inst_id x = package_id ∧
     validate_audit_record_target "audit.previous_record" (ref_of_record x) records false = Ok tt) →
  (∀ x, new = Some x → inst_id x = package_id ∧
     get_version records (inst_id x) (inst_version x) = Some x) →
  validate_extension_registry_audit_targets a records true = Ok tt.
Proof.
  intros Hp _ Hprev Hnew Hok Hok'. unfold validate_extension_registry_audit_targets.
  rewrite Hp, Hprev, Hnew, !then_Ok, !when_some_Ok. unfold validate_audit_record_package_match.
  split_and!.
  - intros ref. destruct previous as [x|]; [|done]. intros [= <-]. simpl.
    destruct (Hok x eq_refl) as [-> _]. by rewrite (proj2 (str_eqb_eq _ _) eq_refl).
  - intros ref. destruct new as [x|]; [|done]. intros [= <-]. simpl.
    destruct (Hok' x eq_refl) as [-> _]. by rewrite (proj2 (str_eqb_eq _ _) eq_refl).
  - intros ref. destruct previous as [x|]; [|done]. intros [= <-]. by destruct (Hok x eq_refl).
  - intros ref. destruct new as [x|]; [|done]. intros [= <-].
    destruct (Hok' x eq_refl) as [_ Hx]. unfold validate_audit_record_target, get_version in *. simpl.
    destruct (records !! inst_id x); [|done]. rewrite Hx.
    by rewrite !(proj2 (str_eqb_eq _ _) eq_refl), bool_decide_eq_true_2.
Qed.

(** The audit record of an install. *)
Definition install_audit (id : AuditRecordId) (now : LedgerTimestamp) (origin : RequestOrigin)
  (r draft : ExtensionRegistry) (record : ExtensionInstallRecord) : ExtensionRegistryAuditRecord :=
  extension_registry_audit_record id now AuditInstall
    (package_registry_request_source (ro_request_source origin))
    (package_registry_reason (ro_reason origin) "install package")
    (record_context origin record) (snapshot r) (snapshot draft).

Lemma install_audit_previous r m o draft record x :
  reg_ok default_policy default_policy r → install r m o = Ok (draft, record) →
  active_record r (man_id m) = Some x →
  inst_id x = man_id m ∧
  validate_audit_record_target "audit.previous_record" (ref_of_record x) (reg_records draft) false
  = Ok tt ∧
  validate_extension_registry_audit_record_ref "audit.previous_record" (ref_of_record x) = Ok tt.
Proof.
  intros [_ Hwf] Hok Hx. unfold active_record in Hx.
  destruct (reg_active_versions r !! man_id m) as [v|]; [|done].
  destruct (rw_linked _ _ Hwf _ _ _ Hx) as (mx & _ & Hl).
  split; [apply Hl|]. split; [|by apply (linked_ref_valid _ _ _ _ _ _ Hl)].
  apply validate_audit_record_target_Ok. simpl. rewrite (lk_id _ _ _ _ _ Hl), (lk_version _ _ _ _ _ Hl).
  by destruct (hk_versions _ _ (install_history _ _ _ _ _ Hok) _ _ _ Hx) as (y & ? & ? & ?); exists y.
Qed.

Lemma append_audit_record_is_ok r a :
  is_ok (append_audit_record r a) = true ↔
  ra_id a ∉ map ra_id (reg_audit_records r) ∧ audit_valid a ∧
  validate_extension_registry_audit_targets a (reg_records r) true = Ok tt.
Proof.
  unfold append_audit_record.
  destruct (validate_extension_registry_audit_record a _) as [seen|e] eqn:Hv; simpl.
  - apply validate_audit_record_seen in Hv as (Hn & _ & Hval). rewrite elem_of_list_to_set in Hn.
    destruct (validate_extension_registry_audit_targets _ _ _) as [[]|]; simpl; split; try done;
      by intros (_ & _ & ?).
  - split; [done|]. intros (Hn & Hval & _).
    assert (validate_extension_registry_audit_record a (list_to_set (map ra_id (reg_audit_records r)))
      = Ok ({[ra_id a]} ∪ list_to_set (map ra_id (reg_audit_records r)))) as Hok; [|congruence].
    apply validate_audit_record_seen. by rewrite elem_of_list_to_set.
Qed.

(** What the audit record of an install holds. *)
Lemma install_audit_fields id now origin r m o draft record :
  install r m o = Ok (draft, record) →
  let a := install_audit id now origin r draft record in
  ra_package_id a = Some (man_id m) ∧
  ra_previous_record a = ref_of_record <$> active_record r (man_id m) ∧
  ra_new_record a = Some (ref_of_record record) ∧
  ra_provenance a = Some (provenance_of_source (from_provenance (man_provenance m))).
Proof.
  intros (Hi & _ & Hact & _ & Hsrc & _)%install_effect. simpl.
  unfold record_ref_in, active_extension_record_ref, active_extension_provenance,
    snapshot_active_record. simpl. unfold active_record in *. rewrite Hi, Hact. simpl. by rewrite Hsrc.
Qed.

(** The record is valid once the provenance is. *)
Lemma install_audit_valid id now origin r m o draft record :
  reg_ok default_policy default_policy r → install r m o = Ok (draft, record) →
  audit_valid (install_audit id now origin r draft record) ↔ commit_ok (prov_commit (man_provenance m)).
Proof.
  intros Hr Hok. pose proof (install_effect _ _ _ _ _ Hok) as (Hi & Hv & _ & Hget & Hsrc & Hvs & _).
  pose proof (install_audit_fields id now origin _ _ _ _ _ Hok) as (Hk & Hp & Hn & Hpr).
  pose proof (λ x, install_audit_previous _ _ _ _ _ x Hr Hok) as Hprev.
  pose proof (install_ok default_policy default_policy ltac:(by apply unapproved_le)
    r m o draft record Hr Hok) as [_ Hwf].
  destruct (rw_linked _ _ Hwf _ _ _ Hget) as (mx & _ & Hl).
  destruct (audit_texts_ok (ro_request_source origin) (ro_reason origin) "install package")
    as [[_ Hs] [_ Hrs]]; [done..|].
  rewrite <- (audit_provenance_valid _ Hvs).
  unfold audit_valid, validate_extension_registry_audit_record.
  rewrite !reject_Ok, !then_Ok, Hk, Hp, Hn, Hpr. simpl.
  split; [by intros (_ & _ & _ & _ & _ & _ & _ & ? & _)|].
  intros Hprov. split_and!; try done.
  - rewrite <- Hi. by apply (linked_ref_valid _ _ _ _ _ "audit.package_id" Hl).
  - destruct (active_record r (man_id m)) as [x|]; [|done]. by apply Hprev.
  - by apply (linked_ref_valid _ _ _ _ _ "audit.new_record" Hl).
  - unfold validate_extension_registry_audit_kind_payload, require_audit_package_id,
      require_audit_new_record, require_audit_provenance. simpl ra_kind. by rewrite Hk, Hn, Hpr.
Qed.

(** An install that the registry accepts can be audited if and only if the
    commit of its source, which the registry records as it is, is not blank and
    has no white space around it (given a fresh audit id). *)
Theorem installs_are_audited_exactly r m o draft record id now origin :
  reg_ok default_policy default_policy r → install r m o = Ok (draft, record) →
  id ∉ map ra_id (reg_audit_records r) →
  is_ok (append_audit_record draft (install_audit id now origin r draft record)) = true ↔
  commit_ok (prov_commit (man_provenance m)).
Proof.
  intros Hr Hok Hid.
  pose proof (install_effect _ _ _ _ _ Hok) as (Hi & Hv & Hact & Hget & _ & _ & Haud).
  pose proof (install_audit_fields id now origin _ _ _ _ _ Hok) as (Hk & Hp & Hn & _).
  rewrite append_audit_record_is_ok, Haud, (install_audit_valid _ _ _ _ _ _ _ _ Hr Hok).
  split; [by intros (_ & ? & _)|]. intros Hc. split_and!; [done..|].
  apply (targets_of_records _ (man_id m) (active_record r (man_id m)) (Some record) AuditInstall);
    [done..| |].
  - intros x Hx. destruct (install_audit_previous _ _ _ _ _ x Hr Hok Hx) as (? & ? & _). done.
  - intros x [= <-]. split; [done|]. by rewrite Hi, Hv.
Qed.

(** ** Inspection *)

Lemma find_existsb {A} (f : A → bool) l : is_some (find_bool f l) = existsb f l.
Proof. induction l as [|x l IH]; simpl; [done|]. by destruct (f x). Qed.

Lemma extension_status_previous r id s :
  extension_status r id = Ok s →
  ∃ record, active_record r id = Some record ∧
    inst_previous_version (ess_record s) = inst_previous_version record.
Proof.
  unfold extension_status. intros Hs. walk_op Hs. injection Hs as <-. simpl. eexists. split; [done|].
  by destruct (find_blocklist_hit r x).
Qed.

(** Inspection predicts rollback: the detail view offers a rollback target
    exactly when rolling back succeeds, in every state of the service. *)
Theorem inspection_predicts_rollback `{UuidLib} `{!SnapshotCodec} s id resp :
  service_ok s → package_inspect id s = Ok resp →
  pir_rollback_available resp = is_ok (rollback (pks_registry s) id).
Proof.
  intros [[_ Hwf] _] Hi. unfold package_inspect, lock_extension_registry in Hi.
  destruct (pks_poisoned s); [done|]. walk_op Hi. injection Hi as <-. simpl.
  destruct (extension_status_previous _ _ _ Hv) as (record & Hrec & ->).
  unfold rollback. rewrite Hrec. simpl. destruct (inst_previous_version record) as [w|]; [|done]. simpl.
  destruct (get_version (reg_manifests (pks_registry s)) id w) as [m|] eqn:Hm; [|done]. simpl.
  destruct (rw_manifests _ _ Hwf _ _ _ Hm) as [old Hold]. simpl in Hold.
  unfold ensure_not_blocked, find_blocklist_hit. rewrite <- find_existsb.
  destruct (find_bool _ _); simpl; [done|]. by rewrite Hold.
Qed.

(** ** On the demo packages *)

Module PackageDemo.
Import RegistryDemo.
#[local] Existing Instance sample_uuid_lib.

(** The demo stores are in memory, so nothing is ever serialized. *)
Definition no_codec : SnapshotCodec := {|
  to_vec_pretty _ := Err (msg "not durable"); from_str _ := Err (msg "not durable") |}.
#[local] Existing Instance no_codec.

Definition demo_origin : RequestOrigin :=
  {| ro_requester := None; ro_request_source := None; ro_reason := None |}.
Definition audit_id (uuid : string) : AuditRecordId := id_new AuditRecordIdKind uuid.

Definition empty_service : PackageService :=
  {| pks_registry := in_memory; pks_poisoned := false; pks_store := store_default |}.
Lemma empty_service_opens : from_store store_default = Ok empty_service.
Proof. vm_compute. reflexivity. Qed.

Definition demo_events : list ServiceEvent :=
  [PackageCall None (audit_id "1") 0 demo_origin (PInstall calendar1 no_options);
   PackageCall None (audit_id "2") 1 demo_origin (PUpdate calendar2 no_options)].

Example demo_events_succeed :
  length (reg_audit_records (pks_registry (service_run empty_service demo_events))) = 2.
Proof. vm_compute. reflexivity. Qed.

Lemma packages_survive_restart_witness :
  from_store (pks_store (service_run empty_service demo_events))
  = Ok (service_run empty_service demo_events).
Proof. exact (proj2 (packages_survive_restart store_default empty_service demo_events empty_service_opens)). Defined.

Lemma package_requests_are_audited_witness :
  ∃ draft a, registry_exec (RRemove "com.example.calendar")
               (pks_registry (service_run empty_service demo_events)) = Ok draft ∧
    call_audit (audit_id "3") 2 demo_origin (PRemove "com.example.calendar")
      (pks_registry (service_run empty_service demo_events)) draft a.
Proof.
  destruct (package_call None (audit_id "3") 2 demo_origin (PRemove "com.example.calendar")
    (service_run empty_service demo_events)) as [s' res] eqn:Hc.
  pose proof (package_requests_are_audited store_default empty_service demo_events None (audit_id "3") 2
    demo_origin (PRemove "com.example.calendar") s' res empty_service_opens Hc) as Hout.
  destruct Hout as [_ Hout]. destruct res as [u|e].
  - destruct Hout as (draft & a & H1 & _ & H2 & _). exists draft, a. split; [exact H1|exact H2].
  - exfalso. apply (f_equal (λ p, is_ok p.2)) in Hc. vm_compute in Hc. discriminate Hc.
Defined.

Lemma in_memory_ok : reg_ok default_policy default_policy in_memory.
Proof. apply registry_new_ok. Qed.

Lemma installs_are_audited_exactly_witness :
  ∃ draft record,
    install in_memory calendar1 no_options = Ok (draft, record) ∧
    is_ok (append_audit_record draft
             (install_audit (audit_id "1") 0 demo_origin in_memory draft record)) = true.
Proof.
  destruct (install in_memory calendar1 no_options) as [[draft record]|e] eqn:Hi;
    [|vm_compute in Hi; discriminate Hi].
  exists draft, record. split; [reflexivity|].
  apply (installs_are_audited_exactly in_memory calendar1 no_options draft record (audit_id "1") 0
    demo_origin in_memory_ok Hi).
  - simpl. apply not_elem_of_nil.
  - exact I.
Defined.

Lemma inspection_predicts_rollback_witness :
  ∃ resp, package_inspect "com.example.calendar" (service_run empty_service demo_events) = Ok resp ∧
    pir_rollback_available resp
    = is_ok (rollback (pks_registry (service_run empty_service demo_events)) "com.example.calendar").
Proof.
  destruct (package_inspect "com.example.calendar" (service_run empty_service demo_events))
    as [resp|e] eqn:Hi; [|vm_compute in Hi; discriminate Hi].
  exists resp. split; [reflexivity|].
  apply (inspection_predicts_rollback (service_run empty_service demo_events) _ _); [|exact Hi].
  apply service_run_ok. exact (proj1 (from_store_ok _ _ empty_service_opens)).
Defined.

(** The calendar from a repository, at a commit with a blank at its end. *)
Definition spaced_commit : ExtensionManifest :=
  man_set_provenance calendar1 {|
    prov_source := Github; prov_repository := Some "example/calendar"%string;
    prov_source_ref := Some "main"%string; prov_manifest_path := Some "atelia.json"%string;
    prov_commit := Some "0123abcd "%string; prov_registry_identity := None; prov_lineage := None;
    prov_publication := None; prov_artifact_digest := digest_of "1";
    prov_manifest_digest := digest_of "1"; prov_signature := Some "signature"%string;
    prov_signer := Some "Example Inc."%string |}.

(** Validation accepts a manifest that installation refuses: the preflight check
    passes a commit with white space around it, and installing the same
    manifest with the same options then fails because its audit record is
    refused. *)
Theorem validated_manifest_fails_to_install :
  is_ok (validate_extension spaced_commit no_options empty_service) = true ∧
  (install_extension demo_origin spaced_commit no_options None (audit_id "1") 0 empty_service).2
  = Err (SvcExtensionRegistry (RegValidation (InvalidField "audit.record"
      (Fmt "{field} must not contain surrounding whitespace"
         [AStr "audit.provenance.commit"])))).
Proof. split; vm_compute; reflexivity. Qed.
End PackageDemo.
