(* ===== verification/StoreRestart.v ===== *)
(** * StoreRestart: loading a snapshot, and opening a store on it *)
From S2P Require Import Prelude Text Domain DomainLaws Policy StoreTypes StoreValidate StoreJobs.
From S2P Require Import Store StoreQuery StoreLoad Ledger StoreRefine StoreGuarantees.
From S2P Require Import StoreShell ShellLaws StoreQueryLaws ReceiptLaws.

(** * A snapshot of the store loads again

    [validate_loaded_store] accepts a reachable state exactly when its
    idempotency receipts are still valid, and they are as long as no event is
    appended for a job that has succeeded.  The last section evaluates what
    happens otherwise. *)

Section Restart.
Context `{UuidLib} `{RegistryPort}.
Implicit Types s : InMemoryInner.

(** ** The extension registry *)

Definition registry_ok s : Prop := registry_validate (extension_registry_snapshot s) = Ok tt.

Lemma ledger_step_registry s s' : ledger_step s s' → registry_ok s → registry_ok s'.
Proof. by destruct 1. Qed.

Lemma exec_op_registry op s s' es :
  store_wf s → exec_op op s = Ok (s', es) → registry_ok s → registry_ok s'.
Proof.
  intros Hwf Hop. pose proof (exec_op_refines _ _ _ _ Hwf Hop) as Hsteps.
  clear Hop Hwf. induction Hsteps; eauto using ledger_step_registry.
Qed.

Lemma exec_ops_registry ops s s' es :
  store_wf s → exec_ops ops s = Ok (s', es) → registry_ok s → registry_ok s'.
Proof.
  revert s es. induction ops as [|op ops IH]; simpl; intros s es Hwf Hok; [by simplify_eq|].
  destruct (exec_op op s) as [[s1 es1]|] eqn:Hop; [|done].
  destruct (exec_ops ops s1) as [[s2 es2]|] eqn:Hops; [|done]. simplify_eq.
  intros Hr. eapply IH; [|done|by eapply exec_op_registry].
  eapply store_step_wf; [done|by do 2 eexists].
Qed.

(** ** What the loader accepts *)

Lemma for_each_values {K V E} `{Countable K} (f : V → result E unit) (m : gmap K V) :
  (∀ i x, m !! i = Some x → f x = Ok tt) → for_each f (hash_values m) = Ok tt.
Proof. intros Hf. apply for_each_Ok. intros x (i & Hi)%elem_of_hash_values. eauto. Qed.

Lemma roots_accepted s :
  roots_wf s → check_unique_roots ∅ (hash_values (repositories s)) = Ok tt ∧
  check_blocked_overlaps (hash_values (repositories s)) = Ok tt.
Proof.
  intros Ho. split.
  - apply check_unique_roots_complete.
    + apply hash_values_pairwise. intros i j x y Hi Hj Hne Heq. by eapply Hne, (ow_unique _ Ho).
    + intros x (i & Hi)%elem_of_hash_values. split; [by eapply ow_record|set_solver].
  - apply check_blocked_overlaps_complete, hash_values_pairwise.
    intros i j x y Hi Hj Hne. by eapply (ow_blocked _ Ho i j).
Qed.

Lemma locks_accepted s :
  exclusive_wf s →
  check_active_scopes [] (List.filter (λ l, is_active_lock_status (lock_status l))
    (hash_values (lock_decisions s))) = Ok tt.
Proof.
  intros Hex. apply check_active_scopes_complete; [|intros x _; apply not_elem_of_nil].
  eapply pairwise_filter; [apply (hash_values_pairwise _ (λ x y,
    is_active_lock_status (lock_status x) = true → is_active_lock_status (lock_status y) = true →
    (lock_repository_id x, lock_locked_scope x) ≠ (lock_repository_id y, lock_locked_scope y)))
    |by auto].
  intros i j x y Hi Hj Hne Hax Hay [= Heq Heq']. by eapply Hne, (ew_locks _ Hex).
Qed.

Lemma results_accepted s :
  refs_wf s → exclusive_wf s → check_tool_results s ∅ (hash_values (tool_results s)) = Ok tt.
Proof.
  intros Hr Hex. apply check_tool_results_complete.
  - apply hash_values_pairwise. intros i j x y Hi Hj Hne Heq. by eapply Hne, (ew_results _ Hex).
  - intros x (i & Hi)%elem_of_hash_values. split; [by eapply rw_results|set_solver].
Qed.

Lemma validate_loaded_store_iff s :
  store_wf s → jobs_wf s → registry_ok s → (next_event_sequence s < u64_max)%N →
  validate_loaded_store s = Ok tt ↔ receipts_valid s.
Proof.
  intros Hwf Hj Hx Hmax. pose proof Hwf as [Hk Hl Hr Ho Hex].
  unfold validate_loaded_store, receipts_valid. destruct (roots_accepted s Ho) as [-> ->].
  rewrite (for_each_values (check_blocking_decision s))
    by eauto using check_blocking_decision_complete.
  rewrite (proj2 (for_each_Ok (validate_loaded_job_record s) _))
    by (intros j (i & Hi)%elem_of_btree_values;
        eapply validate_loaded_job_record_complete; eauto using rw_jobs).
  rewrite (for_each_values (λ p, ensure_ref_exists _ _ _ _))
    by (intros i p Hi; eapply ensure_exists, rw_policies; eauto).
  rewrite (for_each_values (check_lock_decision s)), (locks_accepted s)
    by eauto using check_lock_decision_complete, rw_locks.
  rewrite (for_each_values validate_schema_migration_record),
    (for_each_values (validate_tool_invocation_refs s)), (results_accepted s),
    (for_each_values (validate_audit_record_refs s))
    by eauto using ew_record, validate_tool_invocation_refs_complete, rw_invocations,
      validate_audit_record_refs_complete, rw_audits.
  split.
  - intros Hok key r Hkey. step_ok Hok. destruct a.
    exact (proj1 (for_each_Ok _ _) Hok0 (key, r) (proj2 (elem_of_map_to_list _ _ _) Hkey)).
  - intros Hv. rewrite (proj2 (for_each_Ok _ _)).
    + rewrite Hx. simpl. by apply validate_loaded_job_event_sequence_complete.
    + intros [key r] Hin%elem_of_map_to_list. by apply Hv.
Qed.

(** ** Disciplined use *)

(** States reached by transactions that create jobs with consistent timestamps
    and append no event for a job that has succeeded. *)
Inductive disciplined : InMemoryInner → Prop :=
  | disciplined_default : disciplined inner_default
  | disciplined_step s s' op es :
      disciplined s → exec_op op s = Ok (s', es) →
      (∀ j e, op = OpCreateJob j e → job_wf j) → spares_succeeded s s' es → disciplined s'.

Lemma disciplined_ok s :
  registry_validate registry_default = Ok tt → disciplined s →
  store_wf s ∧ jobs_wf s ∧ registry_ok s ∧ receipts_valid s.
Proof.
  intros Hreg. induction 1 as [|s s' op es _ (Hwf & Hj & Hx & Hv) Hop Hnew Hsp].
  - split_and!; [apply inner_default_wf|done|done|]. by intros key r Hr.
  - split_and!; eauto using exec_op_jobs_wf, exec_op_registry, spared_receipts_stay_valid.
    eapply store_step_wf; [done|]. by do 2 eexists.
Qed.

(** An event belongs to no job but the one it is about. *)
Lemma belongs_other s e r job policy i :
  event_of s e r job policy → as_str i ≠ job →
  submit_job_receipt_event_belongs_to_job s i e = Ok false.
Proof.
  intros [_ _ Hsub _ _ Hjob _ _ Hinv Hres Haud] Hne.
  assert (∀ a : JobId, as_str a = job → bool_decide (a = i) = false) as Hother.
  { intros a Ha. apply bool_decide_eq_false_2. by intros ->. }
  unfold submit_job_receipt_event_belongs_to_job, get_ref.
  replace (match ref_job_id _ with Some _ => _ | None => _ end) with false.
  2: { destruct (ref_job_id (evt_refs e)) as [a|]; [|done].
       destruct (Hjob a eq_refl) as [Ha _]. by rewrite (Hother a Ha). }
  replace (_ && _) with false.
  2: { symmetry. apply andb_false_iff. destruct (decide (subject_type (evt_subject e) = SubjJob)) as [Ht|Ht].
       - right. apply bool_decide_eq_false_2. rewrite (Hsub Ht). congruence.
       - left. by apply bool_decide_eq_false_2. }
  destruct (ref_tool_invocation_id (evt_refs e)) as [t|];
    [destruct (Hinv t eq_refl) as (_ & inv & -> & _ & Hj & _); simpl; rewrite (Hother _ Hj)|];
  (destruct (ref_tool_result_id (evt_refs e)) as [x|];
    [destruct (Hres x eq_refl) as (_ & y & inv' & -> & Hy & _ & _ & Hj' & _); simpl; rewrite Hy; simpl;
     rewrite (Hother _ Hj')|]);
  (destruct (ref_audit_record_id (evt_refs e)) as [a|]; [|done]);
  destruct (Haud a eq_refl) as (_ & a' & -> & _ & _ & Ht); simpl;
  (destruct (aud_tool_invocation_id a') as [t'|]; [|done]);
  destruct (Ht t' eq_refl) as (_ & (inv'' & -> & Hj'') & _); simpl; by rewrite (Hother _ Hj'').
Qed.

(** Events that all name one job leave every other job's receipts alone. *)
Lemma named_events_spare op s s' es i :
  store_wf s → exec_op op s = Ok (s', es) →
  (∀ e, e ∈ es → ref_job_id (evt_refs e) = Some i) →
  (∀ j, jobs s !! i = Some j → job_status j ≠ Succeeded) → spares_succeeded s s' es.
Proof.
  intros Hwf Hop Hname Hlive e i' j He Hj Hsucc Hb.
  pose proof (ledger_steps_wf _ _ Hwf (exec_op_refines _ _ _ _ Hwf Hop)) as Hwf'.
  assert (i ≠ i') as Hne by (intros ->; by eapply Hlive).
  pose proof (Hname e He) as Hi. apply list_elem_of_lookup in He as [k Hk].
  destruct (le_new_events _ _ _ (exec_op_extends _ _ _ _ Hop) _ _ Hk) as (_ & _ & Hstored).
  destruct (rw_events _ (sw_refs _ Hwf') _ _ Hstored) as (r & job & policy & Hof).
  destruct (ei_job _ _ _ _ _ Hof i Hi) as [<- _].
  rewrite (belongs_other _ _ _ _ _ i' Hof) in Hb; [done|]. by intros ->%(inj as_str).
Qed.

(** ** Properties *)

(** Event validation is exact.  In a state whose records are stored under
    their ids, [validate_new_job_event] accepts an event precisely when its id is
    new and everything it names exists in one repository and belongs to one job
    and one policy decision: it lets no dangling or mixed reference through, and
    refuses nothing else. *)
Theorem event_validation_exact s e :
  keys_wf s →
  validate_new_job_event s e None = Ok tt ↔ job_events_by_id s !! evt_id e = None ∧ event_ok s e.
Proof.
  intros Hk. split.
  - apply validate_new_job_event_sound; [done..|]. by split.
  - intros [Hid (r & job & policy & He)]. by eapply validate_new_job_event_complete.
Qed.

(** The loader accepts what the store wrote.  For a state produced by any
    transactions that create jobs with consistent timestamps, and short of the
    last sequence number, [validate_loaded_store] succeeds exactly when every
    idempotency receipt still matches the event chain of its job: no other
    record the store accepted can prevent a restart. *)
Theorem loader_accepts_exactly ops s es :
  registry_validate registry_default = Ok tt →
  exec_ops ops inner_default = Ok (s, es) →
  (∀ j e, OpCreateJob j e ∈ ops → job_wf j) → (next_event_sequence s < u64_max)%N →
  validate_loaded_store s = Ok tt ↔ receipts_valid s.
Proof.
  intros Hreg Hok Hnew Hmax. pose proof (reachable_wf _ (exec_ops_steps _ _ _ _ Hok)) as Hwf.
  apply validate_loaded_store_iff; [done| | |done].
  - by eapply exec_ops_jobs_wf; [apply inner_default_wf|..].
  - by eapply exec_ops_registry; [apply inner_default_wf|..].
Qed.

(** Disciplined use keeps the store restartable.  From the empty store, as
    long as jobs are created with consistent timestamps and no event is appended
    for a job that has succeeded, every snapshot passes [validate_loaded_store]. *)
Theorem disciplined_store_restarts s :
  registry_validate registry_default = Ok tt → disciplined s →
  (next_event_sequence s < u64_max)%N → validate_loaded_store s = Ok tt.
Proof.
  intros Hreg Hd Hmax. destruct (disciplined_ok s Hreg Hd) as (Hwf & Hj & Hx & Hv).
  by apply validate_loaded_store_iff.
Qed.
End Restart.

(** ** Evaluated on the demo run *)

Module RestartDemo.
Import Demo.
#[local] Existing Instance sample_uuid_lib.
#[local] Existing Instance sample_registry.

Lemma demo_states_wf n : store_wf (demo_state n).
Proof.
  unfold demo_state. destruct (exec_ops (take n demo_ops) inner_default) as [[s es]|] eqn:Hok.
  - exact (reachable_wf _ (exec_ops_steps _ _ _ _ Hok)).
  - apply inner_default_wf.
Qed.

Lemma event_validation_exact_witness :
  job_events_by_id (demo_state 1) !! evt_id demo_submitted = None ∧
  ~ event_ok (demo_state 1) demo_submitted ∧ event_ok (demo_state 3) demo_decided.
Proof.
  split; [vm_compute; reflexivity|]. split.
  - intros Hok.
    assert (validate_new_job_event (demo_state 1) demo_submitted None = Ok tt) as Hv.
    { apply (event_validation_exact (demo_state 1) demo_submitted); [apply demo_states_wf|].
      split; [vm_compute; reflexivity|exact Hok]. }
    vm_compute in Hv. discriminate Hv.
  - apply (event_validation_exact (demo_state 3) demo_decided); [apply demo_states_wf|].
    vm_compute. reflexivity.
Defined.

Lemma demo_jobs_wf j e : OpCreateJob j e ∈ demo_ops → job_wf j.
Proof.
  intros Hin. unfold demo_ops in Hin.
  repeat (apply elem_of_cons in Hin as [Hin|Hin]; [try discriminate Hin|]);
    [|by apply not_elem_of_nil in Hin].
  injection Hin as -> _. apply job_record_new_wf.
Qed.

(** The finished job's receipt is valid, so the demo ledger loads. *)
Lemma loader_accepts_exactly_witness :
  receipts_valid (demo_state 7) ∧ idempotent_submit_jobs (demo_state 7) ≠ ∅.
Proof.
  split; [|vm_compute; discriminate].
  apply (loader_accepts_exactly demo_ops (demo_state 7) (demo_events 7) eq_refl demo_run demo_jobs_wf).
  - vm_compute. reflexivity.
  - vm_compute. reflexivity.
Defined.

(** A message about the finished job. *)
Definition late_message : JobEvent :=
  demo_event "e7" 80 (subject_job (job_id demo_job)) MessageEvent demo_refs.
Definition late_state : InMemoryInner :=
  match append_job_event late_message (demo_state 7) with
  | Ok (s, _, _) => s
  | Err _ => demo_state 7
  end.

(** A message appended for a succeeded job prevents the restart.  The store
    accepts the event, but the job's idempotency receipt no longer covers the
    whole event chain, so the loader refuses the snapshot the store wrote. *)
Theorem late_event_prevents_restart :
  (∃ v es, append_job_event late_message (demo_state 7) = Ok (late_state, v, es)) ∧
  reachable late_state ∧ validate_loaded_store (demo_state 7) = Ok tt ∧
  is_ok (validate_loaded_store late_state) = false.
Proof.
  split; [eexists _, _; vm_compute; reflexivity|]. split.
  - eapply rtc_r; [exact (exec_ops_steps _ _ _ _ demo_run)|].
    exists (OpAppendEvent late_message). eexists. vm_compute. reflexivity.
  - split; vm_compute; reflexivity.
Qed.

(** A job that claims to have succeeded when it is submitted. *)
Definition inconsistent_job : JobRecord :=
  job_set_lifecycle demo_job Succeeded 20 None None.
Definition inconsistent_ops : list StoreOp :=
  [OpCreateRepository demo_repository; OpCreateJob inconsistent_job demo_submitted].

(** The store accepts a new job whose timestamps contradict its status, and
    the loader then refuses the snapshot. *)
Theorem inconsistent_job_prevents_restart :
  match exec_ops inconsistent_ops inner_default with
  | Ok (s, _) => is_ok (validate_loaded_store s) = false
  | Err _ => False
  end.
Proof. vm_compute. reflexivity. Qed.

Lemma demo_disciplined : disciplined (demo_state 2).
Proof.
  apply (disciplined_step (demo_state 1) _ (OpCreateJob demo_job demo_submitted)
           [evt_set_sequence demo_submitted 1]).
  - apply (disciplined_step inner_default _ (OpCreateRepository demo_repository) []);
      [constructor|vm_compute; reflexivity|done|].
    intros e i j He. by apply not_elem_of_nil in He.
  - vm_compute. reflexivity.
  - intros j e [= <- <-]. apply job_record_new_wf.
  - eapply (named_events_spare (OpCreateJob demo_job demo_submitted)); [apply demo_states_wf|vm_compute; reflexivity|..].
    + intros e [->|He]%elem_of_cons; [reflexivity|by apply not_elem_of_nil in He].
    + intros j Hj. vm_compute in Hj. discriminate Hj.
Qed.

Lemma disciplined_store_restarts_witness : validate_loaded_store (demo_state 2) = Ok tt.
Proof.
  apply (disciplined_store_restarts (demo_state 2) eq_refl demo_disciplined).
  vm_compute. reflexivity.
Defined.
End RestartDemo.

(** * Opening a durable store ([store.rs], [with_durable_snapshot_path])

    Opening loads the snapshot file if there is one, repairs the registry
    snapshot in it, validates the whole state and writes it back when the repair
    changed something. *)

From S2P Require Import Manifest ManifestCheck ManifestLaws Registry RegistryAudit RegistryOps.
From S2P Require Import RegistryLaws RegistryInvariant.

(** What the store relies on of the registry. *)
Class RegistryPortLaws `{RegistryPort} : Prop := {
  default_valid : registry_validate registry_default = Ok tt;
  repair_valid x : registry_validate x = Ok tt → registry_repair x = (x, false);
  repair_clean x : registry_repair (registry_repair x).1 = ((registry_repair x).1, false)
}.

Section Open.
Context `{UuidLib} `{RegistryPort} `{!SnapshotCodec}.

Definition opened_store (inner : InMemoryInner) (d : Disk) : InMemoryStore := {|
  st_inner := inner; st_poisoned := false; st_durable := true; st_disk := d;
  st_broadcasters := ∅; st_sent := [] |}.

(** [read_fails]: whether [read_to_string] fails on the file. *)
Definition with_durable_snapshot_path (read_fails : bool) (fault : option IoFault) (d : Disk)
  : Disk * StoreResult InMemoryStore :=
  let loaded_snapshot := is_some (disk_file d) in
  match (if loaded_snapshot then load_durable_snapshot (if read_fails then None else disk_file d)
         else Ok inner_default) with
  | Err e => (d, Err e)
  | Ok inner =>
      let '(snapshot, repaired) := registry_repair (extension_registry_snapshot inner) in
      let inner := set_extension_snapshot inner snapshot in
      match validate_loaded_store inner with
      | Err e => (d, Err e)
      | Ok _ =>
          let '(d, r) := if loaded_snapshot && repaired
                         then persist_durable_snapshot fault d inner else (d, Ok tt) in
          (d, let? _ := r in Ok (opened_store inner d))
      end
  end.

Lemma set_extension_snapshot_id s : set_extension_snapshot s (extension_registry_snapshot s) = s.
Proof. by destruct s. Qed.

Context `{!SnapshotCodecLaws} `{!RegistryPortLaws}.

Lemma load_persisted d s : persisted d s → load_durable_snapshot (disk_file d) = Ok s.
Proof.
  intros (bytes & Hb & Hd). rewrite Hd. unfold load_durable_snapshot. simpl.
  by rewrite (from_str_to_vec _ _ Hb).
Qed.

(** A file that holds a state the loader accepts opens to that state. *)
Lemma open_persisted fault d s :
  persisted d s → registry_repair (extension_registry_snapshot s) = (extension_registry_snapshot s, false) →
  validate_loaded_store s = Ok tt →
  with_durable_snapshot_path false fault d = (d, Ok (opened_store s d)).
Proof.
  intros Hp Hr Hv. unfold with_durable_snapshot_path. pose proof (load_persisted d s Hp) as Hl.
  destruct Hp as (bytes & _ & Hd). rewrite Hd in *. simpl. rewrite Hl, Hr. simpl.
  by rewrite set_extension_snapshot_id, Hv.
Qed.

(** C29: A daemon that stops restarts where it was: when the file holds a state
    that disciplined use of the store reached, opening it succeeds, yields
    exactly that state and writes nothing. *)
Theorem reopening_restores_the_store fault d s :
  disciplined s → (next_event_sequence s < u64_max)%N → persisted d s →
  with_durable_snapshot_path false fault d = (d, Ok (opened_store s d)).
Proof.
  intros Hd Hmax Hp. destruct (disciplined_ok s default_valid Hd) as (Hwf & Hj & Hx & Hv).
  apply open_persisted; [done|by apply repair_valid|by apply validate_loaded_store_iff].
Qed.

(** Opening is stable: whatever the file held, once opening succeeded (with a
    repair that was written back, or without one) the next opening reads the same
    state and has nothing to repair or write. *)
Theorem opening_is_stable read_fails fault fault' d d' st :
  with_durable_snapshot_path read_fails fault d = (d', Ok st) →
  with_durable_snapshot_path false fault' d' = (d', Ok st) ∧
  validate_loaded_store (st_inner st) = Ok tt.
Proof.
  unfold with_durable_snapshot_path at 1.
  destruct (disk_file d) as [raw|] eqn:Hfile; cbn [is_some andb].
  - destruct read_fails; [done|].
    destruct (load_durable_snapshot (Some raw)) as [inner|] eqn:Hload; [|done].
    pose proof (repair_clean (extension_registry_snapshot inner)) as Hclean.
    destruct (registry_repair (extension_registry_snapshot inner)) as [x repaired] eqn:Hrep.
    simpl in Hclean. destruct (validate_loaded_store _) as [[]|] eqn:Hv; [|done].
    destruct repaired.
    + destruct (persist_durable_snapshot fault d _) as [d1 r] eqn:Hp.
      apply persist_durable_snapshot_spec in Hp. destruct r; [|done]. intros [= <- <-]. simpl.
      split; [|done]. by apply open_persisted.
    + intros [= <- <-]. simpl. split; [|done]. unfold with_durable_snapshot_path.
      rewrite Hfile. simpl. by rewrite Hload, Hrep, Hv.
  - destruct (registry_repair (extension_registry_snapshot inner_default)) as [x repaired] eqn:Hrep.
    destruct (validate_loaded_store (set_extension_snapshot inner_default x)) as [[]|] eqn:Hv; [|done].
    intros [= <- <-]. simpl. split; [|done]. unfold with_durable_snapshot_path. rewrite Hfile.
    cbn [is_some andb]. by rewrite Hrep, Hv.
Qed.
End Open.

(** ** The registry keeps its side of the contract *)

Lemma repair_record_id v record : refers_to_itself v record = false → repair_record v record = record.
Proof. unfold repair_record. by intros ->. Qed.

Lemma repair_record_clean v record : refers_to_itself v (repair_record v record) = false.
Proof.
  unfold repair_record. destruct (refers_to_itself v record) eqn:Hr; [|done].
  by apply bool_decide_eq_false.
Qed.

Definition no_self_reference (s : ExtensionRegistrySnapshot) : Prop :=
  ∀ id vs v record, snap_records s !! id = Some vs → vs !! v = Some record →
  refers_to_itself v record = false.

Lemma repair_nothing s :
  no_self_reference s → repair_loaded_extension_registry_snapshot s = (s, false).
Proof.
  intros Hno. unfold repair_loaded_extension_registry_snapshot. f_equal.
  - destruct s as [ms rs av bl au]. simpl in *. f_equal. apply map_eq. intros id.
    rewrite lookup_fmap. destruct (rs !! id) as [vs|] eqn:Hid; simpl; [|done]. f_equal.
    apply map_eq. intros v. unfold repair_records. rewrite map_lookup_imap.
    destruct (vs !! v) as [record|] eqn:Hv; simpl; [|done].
    by rewrite (repair_record_id _ _ (Hno id vs v record Hid Hv)).
  - apply existsb_false. intros [id vs] Hid%elem_of_btree_to_list. simpl. apply existsb_false.
    intros [v record] Hv%elem_of_btree_to_list. by eapply Hno.
Qed.

Lemma repaired_no_self_reference s :
  no_self_reference (repair_loaded_extension_registry_snapshot s).1.
Proof.
  intros id vs v record Hid Hv. simpl in Hid. rewrite lookup_fmap in Hid.
  destruct (snap_records s !! id) as [vs'|]; [|done]. injection Hid as <-.
  unfold repair_records in Hv. rewrite map_lookup_imap in Hv.
  destruct (vs' !! v) as [record'|]; [|done]. injection Hv as <-. apply repair_record_clean.
Qed.

#[export] Instance registry_port_laws : @RegistryPortLaws registry_port.
Proof.
  split.
  - vm_compute. reflexivity.
  - intros x Hx. apply repair_nothing. intros id vs v record Hid Hv.
    apply validate_with_policy_sound in Hx. apply bool_decide_eq_false. intros Hself.
    apply (acyclic_no_loop _ v v (rw_acyclic _ _ Hx id)); [|apply chain_here].
    unfold previous, versions_of. rewrite Hid. simpl. by rewrite Hv.
  - intros x. apply repair_nothing, repaired_no_self_reference.
Qed.

(** ** On the demo run *)

Module OpenDemo.
Import Demo ShellDemo RestartDemo.
#[local] Existing Instance sample_uuid_lib.
#[local] Existing Instance sample_registry.
#[local] Existing Instance demo_codec.
#[local] Existing Instance demo_codec_laws.

#[local] Instance sample_registry_laws : RegistryPortLaws.
Proof. split; reflexivity. Qed.

Definition demo_disk (text : string) : Disk :=
  {| disk_file := Some text; disk_temporaries := [] |}.

Lemma reopening_restores_the_store_witness :
  with_durable_snapshot_path false None (demo_disk "2")
  = (demo_disk "2", Ok (opened_store (demo_state 2) (demo_disk "2"))).
Proof.
  apply (reopening_restores_the_store None (demo_disk "2") (demo_state 2) demo_disciplined).
  - vm_compute. reflexivity.
  - exists "2"%string. split; [vm_compute; reflexivity|reflexivity].
Defined.

Lemma opening_is_stable_witness :
  is_ok (with_durable_snapshot_path false None (demo_disk "7")).2 = true ∧
  validate_loaded_store (demo_state 7) = Ok tt.
Proof.
  assert (with_durable_snapshot_path false None (demo_disk "7")
          = (demo_disk "7", Ok (opened_store (demo_state 7) (demo_disk "7")))) as Ho
    by (vm_compute; reflexivity).
  split; [vm_compute; reflexivity|].
  exact (proj2 (opening_is_stable false None None _ _ _ Ho)).
Defined.
End OpenDemo.
