(* ===== verification/Paths.v ===== *)
(** * Paths: paths and the scope of a repository ([tools.rs], [service.rs]) *)
From S2P Require Import Prelude Text Domain StoreTypes Settings Runtime Packages.

(** * Rust paths, the file system and the repository scope

    The parts of [std::path] the daemon and its tools use, over the bytes of a
    path; the file system as an interface; and [canonicalize_within_scope] of
    [crates/atelia-core/src/tools.rs], the check that confines every path of a
    request to its repository. *)

(** ** [std::path] on Unix *)

Definition is_absolute (p : string) : bool :=
  match to_bytes p with c :: _ => bool_decide (c = slash) | [] => false end.

(** [Path::join], by [PathBuf::push]. *)
Definition path_join (base p : string) : string :=
  if is_absolute p then p
  else match List.rev (to_bytes base) with
       | [] => p
       | c :: _ => if bool_decide (c = slash) then base +:+ p else base +:+ "/" +:+ p
       end.

(** The prefixes of a path, shortest first. *)
Definition path_prefixes (p : string) : list string :=
  map (λ n, of_bytes (take n (to_bytes p))) (seq 0 (S (length (to_bytes p)))).

(** [Path::parent] is the part of the path that has all components but the
    last; the root and the empty path have none. *)
Definition path_parent (p : string) : option string :=
  match List.rev (path_components p) with
  | [] | [RootDir] => None
  | _ :: front =>
      find_bool (λ q, bool_decide (path_components q = List.rev front)) (path_prefixes p)
  end.

Definition path_file_name (p : string) : option string :=
  match List.rev (path_components p) with
  | Normal name :: _ => Some name
  | _ => None
  end.

Definition component_string (c : PathComponent) : string :=
  match c with RootDir => "/" | CurDir => "." | ParentDir => ".." | Normal name => name end.

(** [Path::strip_prefix]: the rest of the components, joined. *)
Definition join_components (l : list PathComponent) : string :=
  String.concat "/" (map component_string l).
Definition path_strip_prefix (p base : string) : option string :=
  if path_starts_with p base
  then Some (join_components (drop (length (path_components base)) (path_components p)))
  else None.

(** Paths are ordered by their components, a component by its kind and then its
    name. *)
Definition component_rank (c : PathComponent) : N :=
  match c with RootDir => 0 | CurDir => 1 | ParentDir => 2 | Normal _ => 3 end.
Definition component_le (a b : PathComponent) : bool :=
  match a, b with
  | Normal a, Normal b => str_le a b
  | _, _ => (component_rank a <=? component_rank b)%N
  end.
Fixpoint components_le (a b : list PathComponent) : bool :=
  match a, b with
  | [], _ => true
  | _ :: _, [] => false
  | x :: a, y :: b => if bool_decide (x = y) then components_le a b else component_le x y
  end.
Definition path_le (a b : string) : Prop :=
  components_le (path_components a) (path_components b) = true.
#[export] Instance path_le_dec a b : Decision (path_le a b).
Proof. unfold path_le. apply _. Defined.

(** [Vec::dedup]: of equal neighbours the first stays. *)
Fixpoint dedup_by {A} (same : A → A → bool) (l : list A) : list A :=
  match l with
  | [] => []
  | x :: tail => match dedup_by same tail with
                 | z :: rest => if same x z then x :: rest else x :: z :: rest
                 | [] => [x]
                 end
  end.
Definition sort_dedup_paths (l : list string) : list string :=
  dedup_by path_eqb (merge_sort path_le l).

(** ** [to_string_lossy] *)

Definition byte_in (lo hi : N) (c : ascii) : bool := ((lo <=? code c) && (code c <=? hi))%N.
Definition is_continuation : ascii → bool := byte_in 128 191.
(** The second byte a lead byte of a three or four byte character admits. *)
Definition second_byte_ok (lead second : ascii) : bool :=
  if (code lead =? 224)%N then byte_in 160 191 second
  else if (code lead =? 237)%N then byte_in 128 159 second
  else if (code lead =? 240)%N then byte_in 144 191 second
  else if (code lead =? 244)%N then byte_in 128 143 second
  else is_continuation second.
Definition char_width (lead : ascii) : nat :=
  if byte_in 0 127 lead then 1
  else if byte_in 194 223 lead then 2
  else if byte_in 224 239 lead then 3
  else if byte_in 240 244 lead then 4
  else 0.

(** How many bytes at the head form a character, or the longest start of one. *)
Definition scan_char (l : bytes) : bool * nat :=
  match l with
  | [] => (true, 0)
  | a :: l1 =>
      match char_width a, l1 with
      | 1, _ => (true, 1)
      | 2, b :: _ => if is_continuation b then (true, 2) else (false, 1)
      | 3, b :: l2 =>
          if second_byte_ok a b
          then match l2 with
               | c :: _ => if is_continuation c then (true, 3) else (false, 2)
               | [] => (false, 2)
               end
          else (false, 1)
      | 4, b :: l2 =>
          if second_byte_ok a b
          then match l2 with
               | c :: l3 =>
                   if is_continuation c
                   then match l3 with
                        | d :: _ => if is_continuation d then (true, 4) else (false, 3)
                        | [] => (false, 3)
                        end
                   else (false, 2)
               | [] => (false, 2)
               end
          else (false, 1)
      | _, _ => (false, 1)
      end
  end.

Definition replacement_char : bytes := [ascii_of_N 239; ascii_of_N 191; ascii_of_N 189].

(** [String::from_utf8_lossy]; every step takes at least a byte. *)
Fixpoint lossy (fuel : nat) (l : bytes) : bytes :=
  match fuel, l with
  | S fuel, _ :: _ =>
      let '(valid, n) := scan_char l in
      (if valid then take n l else replacement_char) ++ lossy fuel (drop n l)
  | _, _ => []
  end.
Definition to_string_lossy (p : string) : string :=
  of_bytes (lossy (length (to_bytes p)) (to_bytes p)).

(** ** The file system *)

Record IoError := { io_not_found : bool; io_text : Message }.

(** What the file system answers while a request is checked. *)
Record FileSystem := {
  fs_canonicalize : string → result IoError string;
  (** [symlink_metadata(path).file_type().is_symlink()] *)
  fs_is_symlink : string → result IoError bool;
  fs_is_dir : string → bool;
  fs_exists : string → bool
}.

(** What has a canonical form exists: its metadata can be read. *)
Record FileSystemLaws (fs : FileSystem) : Prop := {
  canonical_exists p q : fs_canonicalize fs p = Ok q → ∃ link, fs_is_symlink fs p = Ok link
}.

(** ** The repository scope *)

Record CanonicalPath := { cp_canonical : string; cp_root : string }.

Inductive PathResolutionError :=
  | RootNotFound
  | TargetNotFound (requested : string)
  | MetadataFailure (requested : string) (reason : Message)
  | SymlinkRejected (requested : string)
  | OutsideRepositoryScope (resolved root : string).

Definition path_error_message (e : PathResolutionError) : Message :=
  match e with
  | RootNotFound => msg "repository root not found"
  | TargetNotFound requested => Fmt "target path not found: {}" [AStr (to_string_lossy requested)]
  | MetadataFailure requested reason =>
      Fmt "target path metadata unavailable for {}: {}"
        [AStr (to_string_lossy requested); AMsg reason]
  | SymlinkRejected requested =>
      Fmt "target path is a symlink: {}" [AStr (to_string_lossy requested)]
  | OutsideRepositoryScope resolved root =>
      Fmt "resolved path {} is outside repository root {}"
        [AStr (to_string_lossy resolved); AStr (to_string_lossy root)]
  end.

Definition relative_to_root (c : CanonicalPath) : string :=
  default (cp_canonical c) (path_strip_prefix (cp_canonical c) (cp_root c)).
Definition display_path (c : CanonicalPath) : string :=
  let relative := relative_to_root c in
  if str_is_empty relative then "." else to_string_lossy relative.

Definition target_of (canonical_root relative_path : string) : string :=
  if is_absolute relative_path then relative_path else path_join canonical_root relative_path.

(** The last step of both resolutions. *)
Definition within_root (canonical_root canonical_target : string)
  : result PathResolutionError CanonicalPath :=
  reject? negb (path_starts_with canonical_target canonical_root)
    with OutsideRepositoryScope canonical_target canonical_root in
  Ok {| cp_canonical := canonical_target; cp_root := canonical_root |}.

Definition canonicalize_within_scope (fs : FileSystem) (repo_root relative_path : string)
  : result PathResolutionError CanonicalPath :=
  let? canonical_root := map_err (λ _, RootNotFound) (fs_canonicalize fs repo_root) in
  let target := target_of canonical_root relative_path in
  let? canonical_target := map_err (λ _, TargetNotFound target) (fs_canonicalize fs target) in
  within_root canonical_root canonical_target.

(** * The path checks of job submission ([crates/ateliad/src/service.rs])

    Before a file tool runs, the daemon resolves the path of the request and the
    second path of a diff or a move, and checks them against the repository's
    root and its allowed paths; a search is given the roots it may visit. *)

Definition invalid (reason : Message) : ServiceError := SvcInvalidArgument reason.

Section Scopes.
Context (fs : FileSystem).

(** [repository.allowed_path_scope.allowed_paths.iter().any(..)]; an allowed
    path that no longer resolves allows nothing. *)
Definition path_allowed (repository : RepositoryRecord) (requested : CanonicalPath) : bool :=
  existsb (λ allowed_path,
      match canonicalize_within_scope fs (repo_root_path repository) allowed_path with
      | Ok allowed => path_starts_with (cp_canonical requested) (cp_canonical allowed)
      | Err _ => false
      end)
    (ps_allowed_paths (repo_allowed_path_scope repository)).

Definition at_root (requested : CanonicalPath) : bool :=
  path_eqb (cp_canonical requested) (cp_root requested).

Definition validate_filesystem_path_scope (repository : RepositoryRecord)
  (resource_scope : ResourceScope) (require_concrete_path : bool) : ServiceResult unit :=
  let? requested :=
    map_err (λ err, invalid (Fmt "filesystem path is outside repository scope: {err}"
                               [AMsg (path_error_message err)]))
      (canonicalize_within_scope fs (repo_root_path repository) (scope_value resource_scope)) in
  reject? require_concrete_path && at_root requested
    with invalid (msg "filesystem operation requires a concrete path_scope/resource_scope path") in
  if path_allowed repository requested then Ok tt
  else Err (invalid (msg "filesystem operation path is outside allowed_path_scope")).

(** The walk over the ancestors of the target: those inside the repository must
    not be links.  An ancestor has fewer components than the path it is of, so
    as many steps as the target has components are enough. *)
Fixpoint check_ancestors (canonical_root : string) (fuel : nat) (ancestor : option string)
  : result PathResolutionError unit :=
  match ancestor, fuel with
  | Some path, S fuel =>
      if path_eqb path canonical_root then Ok tt
      else
        let? _ := (if path_starts_with path canonical_root
                   then match fs_is_symlink fs path with
                        | Ok true => Err (SymlinkRejected path)
                        | Ok false => Ok tt
                        | Err error => if io_not_found error then Ok tt
                                       else Err (MetadataFailure path (io_text error))
                        end
                   else Ok tt) in
        check_ancestors canonical_root fuel (path_parent path)
  | _, _ => Ok tt
  end.

(** The target does not exist: its directory must. *)
Definition resolve_new_target (repository_root canonical_root target : string)
  : result PathResolutionError CanonicalPath :=
  let? file_name := ok_or (path_file_name target) (TargetNotFound target) in
  reject? str_eqb file_name "." || str_eqb file_name ".." with TargetNotFound target in
  let? parent := ok_or (path_parent target) (TargetNotFound target) in
  let? canonical_parent := canonicalize_within_scope fs repository_root parent in
  within_root canonical_root (path_join (cp_canonical canonical_parent) file_name).

Definition resolve_filesystem_mutation_path (repository_root relative_path : string)
  : result PathResolutionError CanonicalPath :=
  let? canonical_root := map_err (λ _, RootNotFound) (fs_canonicalize fs repository_root) in
  let target := target_of canonical_root relative_path in
  let? _ := check_ancestors canonical_root (length (path_components target)) (path_parent target) in
  match fs_is_symlink fs target with
  | Ok true => Err (SymlinkRejected target)
  | Ok false =>
      let? canonical_target := map_err (λ _, TargetNotFound target) (fs_canonicalize fs target) in
      within_root canonical_root canonical_target
  | Err error =>
      if io_not_found error then resolve_new_target repository_root canonical_root target
      else Err (MetadataFailure target (io_text error))
  end.

Definition validate_filesystem_mutation_path_scope (repository : RepositoryRecord)
  (resource_scope : ResourceScope) : ServiceResult unit :=
  let? requested :=
    map_err (λ err, invalid (Fmt "filesystem path is outside repository scope: {err}"
                               [AMsg (path_error_message err)]))
      (resolve_filesystem_mutation_path (repo_root_path repository) (scope_value resource_scope)) in
  reject? at_root requested
    with invalid (msg "filesystem operation requires a concrete path_scope/resource_scope path") in
  if path_allowed repository requested then Ok tt
  else Err (invalid (msg "filesystem operation path is outside allowed_path_scope")).

(** What the two checks of a second path share, given its resolution. *)
Definition validate_secondary (repository : RepositoryRecord) (primary_scope : ResourceScope)
  (resolution : result PathResolutionError CanonicalPath) (secondary_path_name : string)
  : ServiceResult unit :=
  let? requested :=
    map_err (λ err, invalid (Fmt "{secondary_path_name} path is outside repository scope: {err}"
                               [AStr secondary_path_name; AMsg (path_error_message err)]))
      resolution in
  reject? at_root requested
    with invalid (Fmt "{secondary_path_name} path must be concrete" [AStr secondary_path_name]) in
  let? _ :=
    map_err (λ err, invalid (Fmt "primary path is outside repository scope: {err}"
                               [AMsg (path_error_message err)]))
      (canonicalize_within_scope fs (repo_root_path repository) (scope_value primary_scope)) in
  if path_allowed repository requested then Ok tt
  else Err (invalid (Fmt "{secondary_path_name} path is outside allowed_path_scope"
                       [AStr secondary_path_name])).

Definition validate_secondary_filesystem_path_scope (repository : RepositoryRecord)
  (primary_scope : ResourceScope) (secondary_path secondary_path_name : string)
  : ServiceResult unit :=
  validate_secondary repository primary_scope
    (canonicalize_within_scope fs (repo_root_path repository) secondary_path) secondary_path_name.

Definition validate_secondary_filesystem_mutation_path_scope (repository : RepositoryRecord)
  (primary_scope : ResourceScope) (secondary_path secondary_path_name : string)
  : ServiceResult unit :=
  validate_secondary repository primary_scope
    (resolve_filesystem_mutation_path (repo_root_path repository) secondary_path)
    secondary_path_name.

(** ** The roots of a search *)

Definition allowed_search_roots_for_repository (repository : RepositoryRecord)
  : ServiceResult (list string) :=
  let root := repo_root_path repository in
  let? allowed_roots :=
    map_err (λ err, SvcInternal (Fmt "allowed path scope is invalid during submit_job: {err}"
                                   [AMsg (path_error_message err)]))
      (try_map (λ path, let? resolved := canonicalize_within_scope fs root path in
                        Ok (cp_canonical resolved))
         (ps_allowed_paths (repo_allowed_path_scope repository))) in
  let? allowed_roots :=
    (if bool_decide (allowed_roots = [])
     then let? canonical :=
            map_err (λ err, SvcInternal (Fmt "repository root is no longer valid: {err}"
                                           [AMsg (io_text err)]))
              (fs_canonicalize fs root) in
          Ok (allowed_roots ++ [canonical])
     else Ok allowed_roots) in
  Ok (sort_dedup_paths allowed_roots).

(** The part of an allowed root that the request asks for. *)
Definition common_root (requested allowed : string) : option string :=
  if path_starts_with requested allowed then Some requested
  else if path_starts_with allowed requested then Some allowed
  else None.

Definition allowed_search_roots_for_request (repository : RepositoryRecord)
  (resource_scope : ResourceScope) : ServiceResult (list string) :=
  let? requested :=
    map_err (λ err, invalid (Fmt "filesystem path is outside repository scope: {err}"
                               [AMsg (path_error_message err)]))
      (canonicalize_within_scope fs (repo_root_path repository) (scope_value resource_scope)) in
  let? repository_roots := allowed_search_roots_for_repository repository in
  let allowed_roots := omap (common_root (cp_canonical requested)) repository_roots in
  reject? bool_decide (allowed_roots = [])
    with invalid (msg "filesystem operation path is outside allowed_path_scope") in
  Ok (sort_dedup_paths allowed_roots).
End Scopes.
