(* ===== verification/Tools.v ===== *)
(** * Tools: the file tools ([crates/atelia-core/src/tools.rs])

    What each tool is configured with, how it names itself and its effect, the
    summary of its arguments and the paths it resolves.  [resolve_mutation_target]
    is the tools' own resolution of a path they will change.  What a tool does to
    the disk is an interface, [ToolPort]. *)
From S2P Require Import Prelude Text Truncation Domain StoreTypes Settings Runtime.
From S2P Require Import Paths Packages.

Definition TOOLS_SCHEMA_VERSION : N := 1.
Definition DEFAULT_READ_MAX_LINES : N := 120.
Definition DEFAULT_READ_MAX_CHARS : N := 32 * 1024.
Definition DEFAULT_READ_MAX_SCAN_BYTES : N := 1024 * 1024.
Definition DEFAULT_SEARCH_MAX_RESULTS : N := 100.
Definition DEFAULT_SEARCH_MAX_FILE_BYTES : N := 64 * 1024.
Definition DEFAULT_DIFF_MAX_BYTES : N := 64 * 1024.
Definition DEFAULT_DIFF_MAX_CHARS : N := 32 * 1024.
Definition DEFAULT_WRITE_MAX_BYTES : N := 32 * 1024.

(** ** The tools *)

Record FsListTool := { list_root : string }.
Record FsStatTool := { stat_root : string }.

(** The daemon never gives the read tool an artifact store, so that field is
    [None] throughout and is left out. *)
Record FsReadTool := {
  read_root : string;
  read_start_line : N;
  read_max_lines : N;
  read_max_chars : N;
  read_max_bytes : option N;
  read_max_scan_bytes : N;
  read_max_file_bytes : option N;
  read_include_line_numbers : bool
}.
Definition fs_read_tool_new (repository_root : string) : FsReadTool := {|
  read_root := repository_root; read_start_line := 1; read_max_lines := DEFAULT_READ_MAX_LINES;
  read_max_chars := DEFAULT_READ_MAX_CHARS; read_max_bytes := None;
  read_max_scan_bytes := DEFAULT_READ_MAX_SCAN_BYTES; read_max_file_bytes := None;
  read_include_line_numbers := false |}.

Record FsDiffTool := {
  diff_root : string;
  diff_comparison_path : string;
  diff_max_bytes : N;
  diff_max_chars : N
}.
Definition fs_diff_tool_new (repository_root comparison_path : string) : FsDiffTool := {|
  diff_root := repository_root; diff_comparison_path := comparison_path;
  diff_max_bytes := DEFAULT_DIFF_MAX_BYTES; diff_max_chars := DEFAULT_DIFF_MAX_CHARS |}.
Definition diff_with_max_bytes (t : FsDiffTool) (max_bytes : N) : FsDiffTool := {|
  diff_root := diff_root t; diff_comparison_path := diff_comparison_path t;
  diff_max_bytes := max_bytes; diff_max_chars := diff_max_chars t |}.
Definition diff_with_max_chars (t : FsDiffTool) (max_chars : N) : FsDiffTool := {|
  diff_root := diff_root t; diff_comparison_path := diff_comparison_path t;
  diff_max_bytes := diff_max_bytes t; diff_max_chars := max_chars |}.

Record FsSearchTool := {
  search_root : string;
  search_pattern : string;
  search_max_results : N;
  search_max_file_bytes : N;
  search_allowed_roots : list string
}.
Definition fs_search_tool_new (repository_root pattern : string) : FsSearchTool := {|
  search_root := repository_root; search_pattern := pattern;
  search_max_results := DEFAULT_SEARCH_MAX_RESULTS;
  search_max_file_bytes := DEFAULT_SEARCH_MAX_FILE_BYTES; search_allowed_roots := [] |}.
Definition search_with_max_results (t : FsSearchTool) (max : N) : FsSearchTool := {|
  search_root := search_root t; search_pattern := search_pattern t; search_max_results := max;
  search_max_file_bytes := search_max_file_bytes t;
  search_allowed_roots := search_allowed_roots t |}.
Definition search_with_allowed_roots (t : FsSearchTool) (allowed_roots : list string)
  : FsSearchTool := {|
  search_root := search_root t; search_pattern := search_pattern t;
  search_max_results := search_max_results t; search_max_file_bytes := search_max_file_bytes t;
  search_allowed_roots := sort_dedup_paths allowed_roots |}.

Record FsWriteTool := {
  write_root : string;
  write_content : string;
  write_allow_create : bool;
  write_allow_overwrite : bool;
  write_max_bytes : N
}.
Definition fs_write_tool_new (repository_root content : string) : FsWriteTool := {|
  write_root := repository_root; write_content := content; write_allow_create := true;
  write_allow_overwrite := false; write_max_bytes := DEFAULT_WRITE_MAX_BYTES |}.
Definition write_with_allow_overwrite (t : FsWriteTool) (allow_overwrite : bool) : FsWriteTool := {|
  write_root := write_root t; write_content := write_content t;
  write_allow_create := write_allow_create t; write_allow_overwrite := allow_overwrite;
  write_max_bytes := write_max_bytes t |}.
Definition write_with_max_bytes (t : FsWriteTool) (max_bytes : N) : FsWriteTool := {|
  write_root := write_root t; write_content := write_content t;
  write_allow_create := write_allow_create t; write_allow_overwrite := write_allow_overwrite t;
  write_max_bytes := max_bytes |}.

Record FsDeleteTool := { delete_root : string; delete_allow_missing : bool }.
Definition fs_delete_tool_new (repository_root : string) : FsDeleteTool :=
  {| delete_root := repository_root; delete_allow_missing := false |}.

Record FsMoveTool := {
  move_root : string;
  move_destination_path : string;
  move_allow_overwrite : bool
}.
Definition fs_move_tool_new (repository_root destination_path : string) : FsMoveTool := {|
  move_root := repository_root; move_destination_path := destination_path;
  move_allow_overwrite := false |}.
Definition move_with_allow_overwrite (t : FsMoveTool) (allow_overwrite : bool) : FsMoveTool := {|
  move_root := move_root t; move_destination_path := move_destination_path t;
  move_allow_overwrite := allow_overwrite |}.

Record FsPatchTool := {
  patch_root : string;
  patch_find_text : string;
  patch_replacement_text : string;
  patch_max_bytes : N
}.
Definition fs_patch_tool_new (repository_root find_text replacement_text : string)
  : FsPatchTool := {|
  patch_root := repository_root; patch_find_text := find_text;
  patch_replacement_text := replacement_text; patch_max_bytes := DEFAULT_WRITE_MAX_BYTES |}.
Definition patch_with_max_bytes (t : FsPatchTool) (max_bytes : N) : FsPatchTool := {|
  patch_root := patch_root t; patch_find_text := patch_find_text t;
  patch_replacement_text := patch_replacement_text t; patch_max_bytes := max_bytes |}.

(** A tool the daemon may run. *)
Inductive BuiltinTool :=
  | EchoBuiltin
  | ListBuiltin (t : FsListTool)
  | StatBuiltin (t : FsStatTool)
  | ReadBuiltin (t : FsReadTool)
  | DiffBuiltin (t : FsDiffTool)
  | SearchBuiltin (t : FsSearchTool)
  | WriteBuiltin (t : FsWriteTool)
  | DeleteBuiltin (t : FsDeleteTool)
  | MoveBuiltin (t : FsMoveTool)
  | PatchBuiltin (t : FsPatchTool).

Definition builtin_tool_id (t : BuiltinTool) : string :=
  match t with
  | EchoBuiltin => "secretary.echo"
  | ListBuiltin _ => "fs.list" | StatBuiltin _ => "fs.stat" | ReadBuiltin _ => "fs.read"
  | DiffBuiltin _ => "fs.diff" | SearchBuiltin _ => "fs.search" | WriteBuiltin _ => "fs.write"
  | DeleteBuiltin _ => "fs.delete" | MoveBuiltin _ => "fs.move" | PatchBuiltin _ => "fs.patch"
  end.

Definition builtin_requested_capability (t : BuiltinTool) : string :=
  match t with
  | EchoBuiltin => "capability.discovery"
  | ListBuiltin _ => "filesystem.list" | StatBuiltin _ => "filesystem.stat"
  | ReadBuiltin _ => "filesystem.read" | DiffBuiltin _ => "filesystem.diff"
  | SearchBuiltin _ => "filesystem.search" | WriteBuiltin _ => "filesystem.write"
  | DeleteBuiltin _ => "filesystem.delete" | MoveBuiltin _ => "filesystem.move"
  | PatchBuiltin _ => "filesystem.patch"
  end.

Definition builtin_declared_effect (t : BuiltinTool) : string :=
  match t with
  | EchoBuiltin => "produce a deterministic contract result without external effects"
  | ListBuiltin _ => "list directory entries within the registered repository scope"
  | StatBuiltin _ => "read file or directory metadata within the registered repository scope"
  | ReadBuiltin _ => "read a bounded text window within the registered repository scope"
  | DiffBuiltin _ => "compare two bounded UTF-8 files within the registered repository scope"
  | SearchBuiltin _ => "search file contents for a pattern within the registered repository scope"
  | WriteBuiltin _ => "write UTF-8 text within the registered repository scope"
  | DeleteBuiltin _ => "delete one file within the registered repository scope"
  | MoveBuiltin _ => "move one file within the registered repository scope"
  | PatchBuiltin _ => "apply an exact-match text replacement within the registered repository scope"
  end.

(** ** Summaries of the arguments *)

(** [if condition { parts.push(part) }] *)
Definition part_if (condition : bool) (part : string) : list string :=
  if condition then [part] else [].
Definition num (n : N) : string := usize_to_string n.

Definition path_part (request : RuntimeJobRequest) : string :=
  "path=" +:+ scope_value (req_resource_scope request).

Definition read_args_summary (t : FsReadTool) (request : RuntimeJobRequest) : string :=
  join " "
    ([path_part request] ++
     part_if (negb (read_start_line t =? 1)%N || negb (read_max_lines t =? DEFAULT_READ_MAX_LINES)%N)
       ("window=" +:+ num (read_start_line t) +:+ ":" +:+ num (read_max_lines t)) ++
     part_if (negb (read_max_chars t =? DEFAULT_READ_MAX_CHARS)%N)
       ("chars=" +:+ num (read_max_chars t)) ++
     match read_max_bytes t with Some max_bytes => ["bytes=" +:+ num max_bytes] | None => [] end ++
     part_if (negb (read_max_scan_bytes t =? DEFAULT_READ_MAX_SCAN_BYTES)%N)
       ("scan=" +:+ num (read_max_scan_bytes t)) ++
     match read_max_file_bytes t with Some m => ["file=" +:+ num m] | None => [] end ++
     part_if (read_include_line_numbers t) "ln=true").

Definition diff_args_summary (t : FsDiffTool) (request : RuntimeJobRequest) : string :=
  join " "
    (["left=" +:+ scope_value (req_resource_scope request);
      "right=" +:+ to_string_lossy (diff_comparison_path t)] ++
     part_if (negb (diff_max_bytes t =? DEFAULT_DIFF_MAX_BYTES)%N)
       ("bytes=" +:+ num (diff_max_bytes t)) ++
     part_if (negb (diff_max_chars t =? DEFAULT_DIFF_MAX_CHARS)%N)
       ("chars=" +:+ num (diff_max_chars t))).

Definition search_args_summary (t : FsSearchTool) (request : RuntimeJobRequest) : string :=
  path_part request +:+ " pattern=" +:+ search_pattern t.

Definition write_args_summary (t : FsWriteTool) (request : RuntimeJobRequest) : string :=
  join " "
    ([path_part request; "bytes=" +:+ num (str_len (write_content t))] ++
     part_if (write_allow_create t) "create=true" ++
     part_if (write_allow_overwrite t) "overwrite=true" ++
     part_if (negb (write_max_bytes t =? DEFAULT_WRITE_MAX_BYTES)%N)
       ("limit=" +:+ num (write_max_bytes t))).

Definition delete_args_summary (t : FsDeleteTool) (request : RuntimeJobRequest) : string :=
  join " " ([path_part request] ++ part_if (delete_allow_missing t) "missing=ok").

Definition move_args_summary (t : FsMoveTool) (request : RuntimeJobRequest) : string :=
  join " "
    (["from=" +:+ scope_value (req_resource_scope request);
      "to=" +:+ to_string_lossy (move_destination_path t)] ++
     part_if (move_allow_overwrite t) "overwrite=true").

Definition patch_args_summary (t : FsPatchTool) (request : RuntimeJobRequest) : string :=
  join " "
    ([path_part request; "find=" +:+ num (str_len (patch_find_text t));
      "replace=" +:+ num (str_len (patch_replacement_text t))] ++
     part_if (negb (patch_max_bytes t =? DEFAULT_WRITE_MAX_BYTES)%N)
       ("limit=" +:+ num (patch_max_bytes t))).

Definition builtin_args_summary (t : BuiltinTool) (request : RuntimeJobRequest) : string :=
  match t with
  | EchoBuiltin => echo_args_summary request
  | ListBuiltin _ | StatBuiltin _ => path_part request
  | ReadBuiltin t => read_args_summary t request
  | DiffBuiltin t => diff_args_summary t request
  | SearchBuiltin t => search_args_summary t request
  | WriteBuiltin t => write_args_summary t request
  | DeleteBuiltin t => delete_args_summary t request
  | MoveBuiltin t => move_args_summary t request
  | PatchBuiltin t => patch_args_summary t request
  end.

(** ** The paths a tool resolves *)

Section Resolved.
Context (fs : FileSystem).

Definition target_from_request (request : RuntimeJobRequest) : string :=
  scope_value (req_resource_scope request).

Definition canonical_resolved_path (requested : string) (c : CanonicalPath) : ResolvedPath := {|
  rp_requested_path := requested; rp_resolved_path := to_string_lossy (cp_canonical c);
  rp_display_path := display_path c |}.

Definition resolved_path_for_request (repository_root : string) (request : RuntimeJobRequest)
  : list ResolvedPath :=
  match canonicalize_within_scope fs repository_root (target_from_request request) with
  | Ok canonical => [canonical_resolved_path (target_from_request request) canonical]
  | Err _ => []
  end.

(** Without an artifact store an artifact reference resolves to nothing; the
    retry of a path that was refused is refused again. *)
Definition read_resolved_paths (t : FsReadTool) (request : RuntimeJobRequest) : list ResolvedPath :=
  if str_in (scope_kind (req_resource_scope request)) ["artifact"; "artifact_ref"] then []
  else resolved_path_for_request (read_root t) request.

Definition resolve_diff_paths (t : FsDiffTool) (request : RuntimeJobRequest)
  : result Message (CanonicalPath * CanonicalPath) :=
  let? l := map_err path_error_message
              (canonicalize_within_scope fs (diff_root t) (target_from_request request)) in
  let? r := map_err path_error_message
              (canonicalize_within_scope fs (diff_root t) (diff_comparison_path t)) in
  Ok (l, r).

(** The canonical path and its display form; the descriptor the source also
    keeps belongs to the disk operations. *)
Record MutationTarget := { mt_canonical : string; mt_display_path : string }.

Definition mutation_target (c : CanonicalPath) : MutationTarget := {|
  mt_canonical := cp_canonical c;
  mt_display_path :=
    to_string_lossy (default (cp_canonical c) (path_strip_prefix (cp_canonical c) (cp_root c))) |}.

Definition resolve_mutation_target (repository_root relative_path : string)
  : result PathResolutionError MutationTarget :=
  let? canonical_root := map_err (λ _, RootNotFound) (fs_canonicalize fs repository_root) in
  let target := target_of canonical_root relative_path in
  let? _ := check_ancestors fs canonical_root (length (path_components target))
              (path_parent target) in
  match fs_is_symlink fs target with
  | Ok true => Err (SymlinkRejected target)
  | Ok false =>
      let? canonical_target := map_err (λ _, TargetNotFound target) (fs_canonicalize fs target) in
      let? resolved := within_root canonical_root canonical_target in
      Ok (mutation_target resolved)
  | Err error =>
      if io_not_found error
      then let? resolved := resolve_new_target fs repository_root canonical_root target in
           Ok (mutation_target resolved)
      else Err (MetadataFailure target (io_text error))
  end.

Definition mutation_resolved_path (repository_root requested : string) : list ResolvedPath :=
  match resolve_mutation_target repository_root requested with
  | Ok target => [{| rp_requested_path := requested;
                     rp_resolved_path := to_string_lossy (mt_canonical target);
                     rp_display_path := mt_display_path target |}]
  | Err _ => []
  end.

Definition lossy_requested (requested : string) (p : ResolvedPath) : ResolvedPath := {|
  rp_requested_path := to_string_lossy requested; rp_resolved_path := rp_resolved_path p;
  rp_display_path := rp_display_path p |}.

Definition builtin_resolved_paths (t : BuiltinTool) (request : RuntimeJobRequest)
  : list ResolvedPath :=
  let target := target_from_request request in
  match t with
  | EchoBuiltin => []
  | ListBuiltin t => resolved_path_for_request (list_root t) request
  | StatBuiltin t => resolved_path_for_request (stat_root t) request
  | ReadBuiltin t => read_resolved_paths t request
  | SearchBuiltin t => resolved_path_for_request (search_root t) request
  | DiffBuiltin t =>
      match resolve_diff_paths t request with
      | Ok (l, r) =>
          [canonical_resolved_path target l;
           canonical_resolved_path (to_string_lossy (diff_comparison_path t)) r]
      | Err _ => []
      end
  | WriteBuiltin t => mutation_resolved_path (write_root t) target
  | DeleteBuiltin t => mutation_resolved_path (delete_root t) target
  | PatchBuiltin t => mutation_resolved_path (patch_root t) target
  | MoveBuiltin t =>
      mutation_resolved_path (move_root t) target ++
      map (lossy_requested (move_destination_path t))
        (mutation_resolved_path (move_root t) (move_destination_path t))
  end.
End Resolved.

(** ** Running a tool *)

(** What running a file tool answers; the daemon only sees its result. *)
Class ToolPort := {
  port_execute : BuiltinTool → ToolInvocation → RuntimeJobRequest → Sources → Sources * ToolResult
}.

Definition builtin_tool `{Entropy} `{ToolPort} (fs : FileSystem)
  : RuntimeTool BuiltinTool := {|
  tool_id := builtin_tool_id;
  requested_capability := builtin_requested_capability;
  declared_effect := builtin_declared_effect;
  args_summary := builtin_args_summary;
  resolved_paths := builtin_resolved_paths fs;
  execute t := match t with EchoBuiltin => echo_execute | _ => port_execute t end |}.
