(* ===== verification/Submission.v ===== *)
(** * Submission: what a job submission asks for ([crates/ateliad/src/service.rs])

    The request of [submit_job] and the pure steps that interpret it: the
    capabilities it names, the tool they select, the tool's arguments, the
    goal, the signature that identifies a retry and the cache of receipts. *)
From S2P Require Import Prelude Text Domain Policy StoreTypes Settings Runtime RunJob.
From S2P Require Import Paths Packages Tools.

(** ** The request *)

Record SubmitJobToolArgs := {
  sta_pattern : option string;
  sta_max : option N;
  sta_content : option string;
  sta_comparison_path : option string;
  sta_max_bytes : option N;
  sta_destination_path : option string;
  sta_allow_overwrite : option bool;
  sta_replacement_text : option string;
  sta_max_chars : option N
}.

Record SubmitJobRequest := {
  sub_requester : Actor;
  sub_repository_id : RepositoryId;
  sub_kind : JobKind;
  sub_goal : option string;
  sub_message : option string;
  sub_model_route_key : option string;
  sub_permission_mode_route_key : option string;
  sub_resource_scope : option ResourceScope;
  sub_requested_capabilities : list string;
  sub_tool_args : option SubmitJobToolArgs;
  sub_idempotency_key : option string
}.

Record SubmitJobToolArgsSearch := { ssa_pattern : string; ssa_max_results : option N }.
Record SubmitJobToolArgsWrite := {
  swa_content : string; swa_allow_overwrite : bool; swa_max_bytes : option N }.
Record SubmitJobToolArgsPatch := {
  spa_find_text : string; spa_replacement_text : string; spa_max_bytes : option N }.
Record SubmitJobToolArgsMove := { sma_destination_path : string; sma_allow_overwrite : bool }.
Record SubmitJobToolArgsDiff := {
  sda_comparison_path : string; sda_max_bytes : option N; sda_max_chars : option N }.

Inductive SubmitJobToolArgsSpec :=
  | SpecSearch (args : SubmitJobToolArgsSearch)
  | SpecWrite (args : SubmitJobToolArgsWrite)
  | SpecPatch (args : SubmitJobToolArgsPatch)
  | SpecMove (args : SubmitJobToolArgsMove)
  | SpecDiff (args : SubmitJobToolArgsDiff)
  | SpecNone.

Inductive SubmitJobToolKind :=
  | KindEcho | KindFsRead | KindFsList | KindFsStat | KindFsDelete | KindFsWrite | KindFsPatch
  | KindFsMove | KindFsSearch | KindFsDiff.
#[export] Instance SubmitJobToolKind_eq_dec : EqDecision SubmitJobToolKind.
Proof. solve_decision. Defined.

Definition kind_tool_id (kind : SubmitJobToolKind) : string :=
  match kind with
  | KindEcho => "secretary.echo"
  | KindFsRead => "fs.read" | KindFsList => "fs.list" | KindFsStat => "fs.stat"
  | KindFsDelete => "fs.delete" | KindFsWrite => "fs.write" | KindFsPatch => "fs.patch"
  | KindFsMove => "fs.move" | KindFsSearch => "fs.search" | KindFsDiff => "fs.diff"
  end.

(** ** Capabilities *)

Definition FS_CAPABILITIES : list string :=
  ["filesystem.read"; "filesystem.list"; "filesystem.stat"; "filesystem.delete"; "filesystem.write";
   "filesystem.patch"; "filesystem.move"; "filesystem.search"; "filesystem.diff"].
Definition FS_MUTATING_CAPABILITIES : list string :=
  ["filesystem.delete"; "filesystem.write"; "filesystem.patch"; "filesystem.move"].

(** The short name of a file capability. *)
Definition FS_ALIASES : list (string * string) :=
  [("fs.list", "filesystem.list"); ("fs.read", "filesystem.read"); ("fs.stat", "filesystem.stat");
   ("fs.delete", "filesystem.delete"); ("fs.write", "filesystem.write");
   ("fs.patch", "filesystem.patch"); ("fs.move", "filesystem.move");
   ("fs.search", "filesystem.search"); ("fs.diff", "filesystem.diff")]%string.

Definition canonicalize_submit_requested_capability (name : string) : option string :=
  or_else (canonicalize_job_requested_capability name)
    (let normalized := normalize_capability name in
     if str_in normalized FS_CAPABILITIES then Some normalized
     else snd <$> find_bool (λ alias, str_eqb alias.1 normalized) FS_ALIASES).

(** One turn of the loop over the requested capabilities. *)
Definition push_capability (normalized : list string) (capability : string)
  : ServiceResult (list string) :=
  let trimmed := trim capability in
  reject? str_is_empty trimmed
    with invalid (msg "requested_capabilities must not contain empty entries") in
  let? canonical := ok_or (canonicalize_submit_requested_capability trimmed)
    (invalid (Fmt "requested_capabilities contains unsupported capability: {trimmed}"
                [AStr trimmed])) in
  Ok (if str_in canonical normalized then normalized else normalized ++ [canonical]).

Fixpoint push_capabilities (normalized requested : list string) : ServiceResult (list string) :=
  match requested with
  | [] => Ok normalized
  | capability :: requested =>
      let? normalized := push_capability normalized capability in
      push_capabilities normalized requested
  end.

Definition str_le_prop (a b : string) : Prop := str_le a b = true.
#[export] Instance str_le_prop_dec a b : Decision (str_le_prop a b).
Proof. unfold str_le_prop. apply _. Defined.

Definition normalize_requested_capabilities (requested_capabilities : list string)
  : ServiceResult (list string) :=
  let? normalized := push_capabilities [] requested_capabilities in
  let normalized :=
    if bool_decide (normalized = [])
    then normalized ++
         [default ""%string (canonicalize_job_requested_capability "capability.discovery")]
    else normalized in
  Ok (merge_sort str_le_prop normalized).

(** ** The tool *)

Definition kind_of_capability (capability : string) : SubmitJobToolKind :=
  if str_eqb capability "filesystem.list" then KindFsList
  else if str_eqb capability "filesystem.stat" then KindFsStat
  else if str_eqb capability "filesystem.delete" then KindFsDelete
  else if str_eqb capability "filesystem.write" then KindFsWrite
  else if str_eqb capability "filesystem.patch" then KindFsPatch
  else if str_eqb capability "filesystem.move" then KindFsMove
  else if str_eqb capability "filesystem.search" then KindFsSearch
  else if str_eqb capability "filesystem.diff" then KindFsDiff
  else KindFsRead.

Definition resolve_submit_job_tool_kind (request : SubmitJobRequest)
  (requested_capabilities : list string) : ServiceResult SubmitJobToolKind :=
  match requested_capabilities with
  | [capability] =>
      if str_eqb capability "capability.discovery" then Ok KindEcho
      else if str_in capability FS_CAPABILITIES then
        let? resource_scope := ok_or (sub_resource_scope request)
          (invalid (Fmt "{capability} requires a path_scope/resource_scope" [AStr capability])) in
        reject? str_in capability FS_MUTATING_CAPABILITIES
                && negb (bool_decide (sub_kind request = JkMutate))
          with invalid (msg "filesystem mutate operations require job kind mutate") in
        reject? str_in capability FS_MUTATING_CAPABILITIES
                && str_eqb (trim (scope_kind resource_scope)) "read_only"
          with invalid (msg "filesystem mutate operations require resource_scope.kind to be repository, explicit_paths, or path") in
        reject? negb (str_in (trim (scope_kind resource_scope))
                        ["repository"; "explicit_paths"; "read_only"; "path"])
          with invalid (Fmt "{capability} requires resource_scope.kind to be repository, explicit_paths, read_only, or path" [AStr capability]) in
        Ok (kind_of_capability capability)
      else Err (invalid (Fmt "requested_capabilities contains unsupported capability: {capability}"
                           [AStr capability]))
  | _ => Err (invalid (msg "requested_capabilities must resolve to exactly one supported capability"))
  end.

(** ** Its arguments *)

(** [usize::try_from] of a [u64]; on 64-bit targets every value fits. *)
Definition to_usize (reason : string) (value : option N) : ServiceResult (option N) :=
  match value with
  | Some n => reject? (usize_max <? n)%N with invalid (msg reason) in Ok (Some n)
  | None => Ok None
  end.

Definition required_text (value : option string) (reason : string) : ServiceResult string :=
  let? text := ok_or value (invalid (msg reason)) in
  reject? str_is_empty (trim text) with invalid (msg reason) in Ok text.

Definition resolve_search_args (args : SubmitJobToolArgs) : ServiceResult SubmitJobToolArgsSpec :=
  reject? is_some (sta_comparison_path args) || is_some (sta_max_bytes args)
          || is_some (sta_max_chars args) || is_some (sta_content args)
          || is_some (sta_destination_path args) || is_some (sta_allow_overwrite args)
          || is_some (sta_replacement_text args)
    with invalid (msg "search tool_args only supports pattern and max") in
  let? pattern := required_text (sta_pattern args)
                    "search requires non-empty pattern in tool_args" in
  let? max_results := to_usize "search max must fit in usize" (sta_max args) in
  Ok (SpecSearch {| ssa_pattern := pattern; ssa_max_results := max_results |}).

Definition resolve_write_args (args : SubmitJobToolArgs) : ServiceResult SubmitJobToolArgsSpec :=
  reject? is_some (sta_pattern args) || is_some (sta_max args)
          || is_some (sta_comparison_path args) || is_some (sta_replacement_text args)
          || is_some (sta_destination_path args) || is_some (sta_max_chars args)
    with invalid (msg "write tool_args only supports content, allow_overwrite, and max_bytes") in
  let? content := ok_or (sta_content args)
                    (invalid (msg "write requires content in tool_args")) in
  let? max_bytes := to_usize "max_bytes must fit in usize" (sta_max_bytes args) in
  Ok (SpecWrite {| swa_content := content;
                   swa_allow_overwrite := default false (sta_allow_overwrite args);
                   swa_max_bytes := max_bytes |}).

Definition resolve_patch_args (args : SubmitJobToolArgs) : ServiceResult SubmitJobToolArgsSpec :=
  reject? is_some (sta_max args) || is_some (sta_comparison_path args)
          || is_some (sta_content args) || is_some (sta_allow_overwrite args)
          || is_some (sta_destination_path args) || is_some (sta_max_chars args)
    with invalid (msg "patch tool_args only supports pattern, replacement_text, and max_bytes") in
  let? find_text := required_text (sta_pattern args)
                      "patch requires non-empty pattern in tool_args" in
  let? replacement_text := ok_or (sta_replacement_text args)
                             (invalid (msg "patch requires replacement_text in tool_args")) in
  let? max_bytes := to_usize "max_bytes must fit in usize" (sta_max_bytes args) in
  Ok (SpecPatch {| spa_find_text := find_text; spa_replacement_text := replacement_text;
                   spa_max_bytes := max_bytes |}).

Definition resolve_move_args (args : SubmitJobToolArgs) : ServiceResult SubmitJobToolArgsSpec :=
  reject? is_some (sta_pattern args) || is_some (sta_max args) || is_some (sta_content args)
          || is_some (sta_comparison_path args) || is_some (sta_replacement_text args)
          || is_some (sta_max_bytes args) || is_some (sta_max_chars args)
    with invalid (msg "move tool_args only supports destination_path and allow_overwrite") in
  let? destination_path := required_text (sta_destination_path args)
                             "move requires non-empty destination_path in tool_args" in
  Ok (SpecMove {| sma_destination_path := destination_path;
                  sma_allow_overwrite := default false (sta_allow_overwrite args) |}).

Definition resolve_diff_args (args : SubmitJobToolArgs) : ServiceResult SubmitJobToolArgsSpec :=
  reject? is_some (sta_pattern args) || is_some (sta_max args) || is_some (sta_content args)
          || is_some (sta_destination_path args) || is_some (sta_allow_overwrite args)
          || is_some (sta_replacement_text args)
    with invalid (msg "diff tool_args only supports comparison_path, max_bytes, and max_chars") in
  let? comparison_path := required_text (sta_comparison_path args)
                            "diff requires non-empty comparison_path in tool_args" in
  let? max_bytes := to_usize "max_bytes must fit in usize" (sta_max_bytes args) in
  let? max_chars := to_usize "max_chars must fit in usize" (sta_max_chars args) in
  Ok (SpecDiff {| sda_comparison_path := comparison_path; sda_max_bytes := max_bytes;
                  sda_max_chars := max_chars |}).

Definition resolve_submit_job_tool_args (tool_kind : SubmitJobToolKind)
  (tool_args : option SubmitJobToolArgs) : ServiceResult SubmitJobToolArgsSpec :=
  let required := ok_or tool_args (invalid (msg "tool_args is required for this capability")) in
  match tool_kind with
  | KindFsSearch => let? args := required in resolve_search_args args
  | KindFsWrite => let? args := required in resolve_write_args args
  | KindFsPatch => let? args := required in resolve_patch_args args
  | KindFsMove => let? args := required in resolve_move_args args
  | KindFsDiff => let? args := required in resolve_diff_args args
  | _ =>
      reject? is_some tool_args
        with invalid (msg "tool_args are only supported for filesystem.search, filesystem.diff, filesystem.write, filesystem.patch, and filesystem.move") in
      Ok SpecNone
  end.

(** ** Goal, key and signature *)

Definition normalize_submit_job_goal (goal : option string) : option string :=
  match goal with
  | Some goal => let trimmed := trim goal in
                 if str_is_empty trimmed then None else Some trimmed
  | None => None
  end.

Definition normalize_idempotency_key (key : option string) : ServiceResult (option string) :=
  match key with
  | Some key =>
      let trimmed := trim key in
      reject? str_is_empty trimmed with invalid (msg "idempotency_key must not be blank") in
      Ok (Some trimmed)
  | None => Ok None
  end.

Definition default_resource_scope : ResourceScope :=
  {| scope_kind := "repository"; scope_value := "." |}.

Record SubmitJobRequestSignature := {
  sig_actor : Actor;
  sig_repository_id : string;
  sig_kind : JobKind;
  sig_goal : option string;
  sig_message : option string;
  sig_model_route_key : option string;
  sig_permission_mode_route_key : option string;
  sig_resource_scope : ResourceScope;
  sig_requested_capabilities : list string;
  sig_tool_args : option SubmitJobToolArgs
}.

(** [serde_json::to_string] of a signature. *)
Class SignatureCodec := { signature_to_string : SubmitJobRequestSignature → string }.
(** JSON keeps every field, and an object is never blank. *)
Class SignatureCodecLaws `{SignatureCodec} : Prop := {
  signature_inj : Inj (=) (=) signature_to_string;
  signature_not_blank s : is_blank (signature_to_string s) = false
}.

Definition signature_of (request : SubmitJobRequest) (normalized_goal : option string)
  (requested_capabilities : list string) : SubmitJobRequestSignature := {|
  sig_actor := sub_requester request; sig_repository_id := as_str (sub_repository_id request);
  sig_kind := sub_kind request; sig_goal := normalized_goal; sig_message := sub_message request;
  sig_model_route_key := sub_model_route_key request;
  sig_permission_mode_route_key := sub_permission_mode_route_key request;
  sig_resource_scope := default default_resource_scope (sub_resource_scope request);
  sig_requested_capabilities := requested_capabilities; sig_tool_args := sub_tool_args request |}.

Definition submit_job_request_signature `{SignatureCodec} (request : SubmitJobRequest)
  (normalized_goal : option string) (requested_capabilities : list string) : string :=
  signature_to_string (signature_of request normalized_goal requested_capabilities).

(** ** The cache of receipts *)

Record IdempotentSubmitJob := { isj_signature : string; isj_receipt : RuntimeJobReceipt }.
Definition Cache : Type := list (string * IdempotentSubmitJob).
Definition IDEMPOTENT_SUBMISSION_CACHE_LIMIT : nat := 256.

(** [VecDeque::remove] at the first entry of the key. *)
Fixpoint remove_first (key : string) (cache : Cache) : Cache :=
  match cache with
  | [] => []
  | entry :: cache => if str_eqb entry.1 key then cache else entry :: remove_first key cache
  end.

Definition cache_idempotent_submission (cache : Cache) (idempotency_key : string)
  (submission : IdempotentSubmitJob) : Cache :=
  let cache := remove_first idempotency_key cache in
  let cache := if (IDEMPOTENT_SUBMISSION_CACHE_LIMIT <=? length cache)%nat
               then tail cache else cache in
  cache ++ [(idempotency_key, submission)].

(** [cache.iter().rev().find(..)] *)
Definition cache_lookup (cache : Cache) (key : string) : option IdempotentSubmitJob :=
  snd <$> find_bool (λ entry, str_eqb entry.1 key) (List.rev cache).

Definition make_submit_job_finalizer (idempotency_key request_signature : string) : Finalizer :=
  λ receipt,
    if bool_decide (job_status (rcp_job receipt) = Succeeded)
    then Some (idempotency_key, {| idem_signature := request_signature; idem_receipt := receipt |})
    else None.
