(* ===== verification/Service.v ===== *)
(** * Service: the job, policy, rendering and settings handlers
    ([crates/ateliad/src/service.rs])

    The fields of [SecretaryService] behind these handlers, and the handlers
    over them: [submit_job] with its idempotency keys, [check_policy],
    [render_tool_output], [cancel_job] and the settings. *)
From S2P Require Import Prelude Text Domain Policy StoreTypes Settings Truncation Spill.
From S2P Require Import StoreValidate StoreJobs Store StoreQuery StoreGuarantees Backend.
From S2P Require Import Runtime RunJob Paths Packages Tools Submission.

(** ** Mutexes *)

(** A [Mutex] refuses its users once a thread panicked while it held it. *)
Record Mutex (A : Type) := { mx_value : A; mx_poisoned : bool }.
Arguments mx_value {A}.
Arguments mx_poisoned {A}.
Arguments Build_Mutex {A}.
Definition mutex_new {A} (a : A) : Mutex A := {| mx_value := a; mx_poisoned := false |}.
Definition mutex_set {A} (m : Mutex A) (a : A) : Mutex A :=
  {| mx_value := a; mx_poisoned := mx_poisoned m |}.
Definition lock_mutex {A} (m : Mutex A) (reason : string) : ServiceResult A :=
  if mx_poisoned m then Err (SvcInternal (msg reason)) else Ok (mx_value m).

(** The lock of an idempotency key: how many threads hold a clone of its [Arc]
    beside the map, and whether it is poisoned. *)
Record KeyLock := { kl_users : nat; kl_poisoned : bool }.

Definition service_error_of_runtime (e : RuntimeError) : ServiceError :=
  match e with RtStore e => SvcStore e | e => SvcRuntime e end.

(** ** The request for the runtime *)

Definition runtime_request_of (request : SubmitJobRequest) (normalized_goal : option string)
  (requested_capabilities : list string) (tool_output_defaults : ToolOutputDefaults)
  (resource_scope : ResourceScope) : RuntimeJobRequest :=
  let base := request_new (sub_requester request) (sub_repository_id request) (sub_kind request)
                normalized_goal in
  {| req_requester := req_requester base; req_repository_id := req_repository_id base;
     req_kind := req_kind base; req_goal := req_goal base;
     req_message := sub_message request;
     req_resource_scope := {| scope_kind := scope_kind resource_scope;
                              scope_value := scope_value resource_scope |};
     req_requested_capabilities := requested_capabilities;
     req_approval_available := req_approval_available base;
     req_render_options := req_render_options base;
     req_tool_output_defaults := tool_output_defaults;
     req_artifact_spillover := req_artifact_spillover base |}.

(** The closure [validate_filesystem_scope] of [submit_job]. *)
Definition validate_filesystem_scope (fs : FileSystem) (repository : RepositoryRecord)
  (resource_scope : ResourceScope) (tool_kind : SubmitJobToolKind) (args : SubmitJobToolArgsSpec)
  : ServiceResult unit :=
  let? _ :=
    (match tool_kind with
     | KindEcho => Ok tt
     | KindFsWrite | KindFsPatch | KindFsMove =>
         validate_filesystem_mutation_path_scope fs repository resource_scope
     | KindFsRead | KindFsDelete | KindFsDiff =>
         validate_filesystem_path_scope fs repository resource_scope true
     | KindFsList | KindFsStat | KindFsSearch =>
         validate_filesystem_path_scope fs repository resource_scope false
     end) in
  match args with
  | SpecDiff diff =>
      validate_secondary_filesystem_path_scope fs repository resource_scope
        (sda_comparison_path diff) "comparison"
  | SpecMove move_tool =>
      validate_secondary_filesystem_mutation_path_scope fs repository resource_scope
        (sma_destination_path move_tool) "destination"
  | _ => Ok tt
  end.

Definition opt_apply {A B} (f : A → B → A) (a : A) (o : option B) : A :=
  match o with Some b => f a b | None => a end.

(** The tool of the [match tool_kind], before it runs. *)
Definition build_tool (fs : FileSystem) (repository : RepositoryRecord)
  (resource_scope : ResourceScope) (tool_kind : SubmitJobToolKind) (args : SubmitJobToolArgsSpec)
  : ServiceResult BuiltinTool :=
  let root := repo_root_path repository in
  let lost tool := Err (invalid (Fmt "internal tool_args resolution lost for {tool}" [AStr tool])) in
  match tool_kind with
  | KindEcho => Ok EchoBuiltin
  | KindFsRead => Ok (ReadBuiltin (fs_read_tool_new root))
  | KindFsList => Ok (ListBuiltin {| list_root := root |})
  | KindFsStat => Ok (StatBuiltin {| stat_root := root |})
  | KindFsDelete => Ok (DeleteBuiltin (fs_delete_tool_new root))
  | KindFsWrite =>
      match args with
      | SpecWrite write =>
          let tool := write_with_allow_overwrite (fs_write_tool_new root (swa_content write))
                        (swa_allow_overwrite write) in
          Ok (WriteBuiltin (opt_apply write_with_max_bytes tool (swa_max_bytes write)))
      | _ => lost "fs.write"%string
      end
  | KindFsPatch =>
      match args with
      | SpecPatch patch =>
          let tool := fs_patch_tool_new root (spa_find_text patch) (spa_replacement_text patch) in
          Ok (PatchBuiltin (opt_apply patch_with_max_bytes tool (spa_max_bytes patch)))
      | _ => lost "fs.patch"%string
      end
  | KindFsMove =>
      match args with
      | SpecMove move_tool =>
          Ok (MoveBuiltin (move_with_allow_overwrite
                             (fs_move_tool_new root (sma_destination_path move_tool))
                             (sma_allow_overwrite move_tool)))
      | _ => lost "fs.move"%string
      end
  | KindFsSearch =>
      match args with
      | SpecSearch search =>
          let? allowed_roots := allowed_search_roots_for_request fs repository resource_scope in
          let tool := search_with_allowed_roots (fs_search_tool_new root (ssa_pattern search))
                        allowed_roots in
          Ok (SearchBuiltin (opt_apply search_with_max_results tool (ssa_max_results search)))
      | _ => lost "fs.search"%string
      end
  | KindFsDiff =>
      match args with
      | SpecDiff diff =>
          let tool := opt_apply diff_with_max_bytes
                        (fs_diff_tool_new root (sda_comparison_path diff)) (sda_max_bytes diff) in
          Ok (DiffBuiltin (opt_apply diff_with_max_chars tool (sda_max_chars diff)))
      | _ => lost "fs.diff"%string
      end
  end.

(** ** The service *)

Section Service.
Context `{UuidLib} `{RegistryPort} `{Entropy} `{Renderer} `{ArtifactDefaults} `{ToolPort}.
Context `{SignatureCodec}.
Context {S F : Type} `{!StoreBackend S} `{!ArtifactWriter string F}.

(** [lifecycle] is the world of the runtime. *)
Record ServiceState := {
  sv_world : World S F;
  sv_settings : Mutex InMemoryToolOutputSettingsService;
  sv_cache : Mutex Cache;
  sv_locks : Mutex (gmap string KeyLock);
  sv_cancellation_requesters : gmap JobId Actor
}.
Definition with_world (s : ServiceState) (w : World S F) : ServiceState := {|
  sv_world := w; sv_settings := sv_settings s; sv_cache := sv_cache s; sv_locks := sv_locks s;
  sv_cancellation_requesters := sv_cancellation_requesters s |}.
Definition with_cache (s : ServiceState) (c : Cache) : ServiceState := {|
  sv_world := sv_world s; sv_settings := sv_settings s; sv_cache := mutex_set (sv_cache s) c;
  sv_locks := sv_locks s; sv_cancellation_requesters := sv_cancellation_requesters s |}.
Definition with_locks (s : ServiceState) (l : gmap string KeyLock) : ServiceState := {|
  sv_world := sv_world s; sv_settings := sv_settings s; sv_cache := sv_cache s;
  sv_locks := mutex_set (sv_locks s) l;
  sv_cancellation_requesters := sv_cancellation_requesters s |}.
Definition with_settings (s : ServiceState) (v : InMemoryToolOutputSettingsService)
  : ServiceState := {|
  sv_world := sv_world s; sv_settings := mutex_set (sv_settings s) v; sv_cache := sv_cache s;
  sv_locks := sv_locks s; sv_cancellation_requesters := sv_cancellation_requesters s |}.
Definition with_requesters (s : ServiceState) (r : gmap JobId Actor) : ServiceState := {|
  sv_world := sv_world s; sv_settings := sv_settings s; sv_cache := sv_cache s;
  sv_locks := sv_locks s; sv_cancellation_requesters := r |}.

Definition SM (A : Type) : Type := ServiceState → ServiceState * ServiceResult A.
Definition sret {A} (a : A) : SM A := λ s, (s, Ok a).
Definition slift {A} (r : ServiceResult A) : SM A := λ s, (s, r).

(** A call of the runtime, with the conversion of its errors. *)
Definition runtime {A} (m : M S F A) : SM A := λ s,
  let '(w, r) := m (sv_world s) in (with_world s w, map_err service_error_of_runtime r).
Definition read_store {R} (f : InMemoryInner → StoreResult R) : SM R := runtime (call_read f).

(** ** Settings *)

Definition settings_poisoned : string := "tool output settings lock poisoned: {err}".

Definition get_tool_output_defaults (scope : ToolOutputSettingsScope) : SM ToolOutputDefaults :=
  λ s, (s, let? settings := lock_mutex (sv_settings s) settings_poisoned in
           Ok (resolve_defaults settings scope)).

Definition update_tool_output_defaults (actor : Actor) (scope : ToolOutputSettingsScope)
  (update : ToolOutputOverrides) (reason : string) : SM ToolOutputSettingsChange := λ s,
  match lock_mutex (sv_settings s) settings_poisoned with
  | Err e => (s, Err e)
  | Ok settings =>
      match runtime timestamp_now s with
      | (s, Err e) => (s, Err e)
      | (s, Ok now) =>
          match apply_update settings actor scope update reason now with
          | Ok (settings, change) => (with_settings s settings, Ok change)
          | Err e => (s, Err (SvcSettings e))
          end
      end
  end.

(** ** Idempotency keys *)

Definition locks_poisoned : string := "idempotency lock map poisoned: {err}".
Definition key_poisoned : string := "idempotency key lock poisoned: {err}".
Definition cache_poisoned : string := "idempotency cache lock poisoned: {err}".

Definition add_user (l : KeyLock) : KeyLock :=
  {| kl_users := Datatypes.S (kl_users l); kl_poisoned := kl_poisoned l |}.
Definition drop_user (l : KeyLock) : KeyLock :=
  {| kl_users := pred (kl_users l); kl_poisoned := kl_poisoned l |}.
Definition key_lock_new : KeyLock := {| kl_users := 0; kl_poisoned := false |}.

(** Clone the key's lock out of the map, made on first use. *)
Definition acquire_key (key : string) : SM unit := λ s,
  match lock_mutex (sv_locks s) locks_poisoned with
  | Err e => (s, Err e)
  | Ok locks =>
      let l := default key_lock_new (locks !! key) in
      (with_locks s (<[key := add_user l]> locks), Ok tt)
  end.

(** [key_lock.lock()]; on a poisoned lock the clone is dropped and the map keeps
    its entry. *)
Definition enter_key (key : string) : SM unit := λ s,
  match mx_value (sv_locks s) !! key with
  | Some l =>
      if kl_poisoned l
      then (with_locks s (<[key := drop_user l]> (mx_value (sv_locks s))),
            Err (SvcInternal (msg key_poisoned)))
      else (s, Ok tt)
  | None => (s, Ok tt)
  end.

(** [drop(key_lock)], then the entry goes when nobody else holds the lock. *)
Definition release_key (key : string) : SM unit := λ s,
  let locks := mx_value (sv_locks s) in
  match locks !! key with
  | None => (s, let? _ := lock_mutex (sv_locks s) locks_poisoned in Ok tt)
  | Some l =>
      let l := drop_user l in
      let s := with_locks s (<[key := l]> locks) in
      match lock_mutex (sv_locks s) locks_poisoned with
      | Err e => (s, Err e)
      | Ok locks => (if (kl_users l =? 0)%nat then with_locks s (delete key locks) else s, Ok tt)
      end
  end.

Definition key_conflict : ServiceError :=
  SvcConflict (msg "idempotency_key was previously used for a different submit request").

(** What an earlier submission under the key means for this one. *)
Definition replay (signature : string) (earlier : string * RuntimeJobReceipt)
  : ServiceResult RuntimeJobReceipt :=
  if str_eqb earlier.1 signature then Ok earlier.2 else Err key_conflict.

Definition lookup_cache (key : string) : SM (option IdempotentSubmitJob) := λ s,
  (s, let? cache := lock_mutex (sv_cache s) cache_poisoned in Ok (cache_lookup cache key)).

Definition insert_cache (key : string) (submission : IdempotentSubmitJob) : SM unit := λ s,
  match lock_mutex (sv_cache s) cache_poisoned with
  | Err e => (s, Err e)
  | Ok cache => (with_cache s (cache_idempotent_submission cache key submission), Ok tt)
  end.

Definition get_submit_job_idempotency (key : string) (inner : InMemoryInner)
  : StoreResult (option SubmitJobIdempotencyRecord) := Ok (idempotent_submit_jobs inner !! key).

(** ** [submit_job] *)

(** What [submit_job] has worked out before it looks at the key. *)
Record Prepared := {
  pre_repository : RepositoryRecord;
  pre_kind : SubmitJobToolKind;
  pre_args : SubmitJobToolArgsSpec;
  pre_key : option string;
  pre_signature : string;
  pre_scope : ResourceScope;
  pre_request : RuntimeJobRequest
}.

Definition repository_tool_scope (i : RepositoryId) (tool : string) : ToolOutputSettingsScope :=
  for_tool {| scope_level := LvRepository i; scope_tool_id := None |} tool.

Definition prepare_submission (request : SubmitJobRequest) : SM Prepared :=
  let! requested_capabilities :=
    slift (normalize_requested_capabilities (sub_requested_capabilities request)) in
  let! tool_kind := slift (resolve_submit_job_tool_kind request requested_capabilities) in
  let! repository := read_store (get_repository (sub_repository_id request)) in
  let normalized_goal := normalize_submit_job_goal (sub_goal request) in
  let! args := slift (resolve_submit_job_tool_args tool_kind (sub_tool_args request)) in
  let! key := slift (normalize_idempotency_key (sub_idempotency_key request)) in
  let signature := submit_job_request_signature request normalized_goal requested_capabilities in
  let! tool_output_defaults :=
    get_tool_output_defaults (repository_tool_scope (repo_id repository)
                                (kind_tool_id tool_kind)) in
  let resource_scope := default default_resource_scope (sub_resource_scope request) in
  sret {| pre_repository := repository; pre_kind := tool_kind; pre_args := args; pre_key := key;
          pre_signature := signature; pre_scope := resource_scope;
          pre_request := runtime_request_of request normalized_goal requested_capabilities
                           tool_output_defaults resource_scope |}.

(** Checks the paths, builds the tool and runs it. *)
Definition run_submission (fs : FileSystem) (p : Prepared) (finalizer : option Finalizer)
  : SM RuntimeJobReceipt :=
  let! _ := slift (validate_filesystem_scope fs (pre_repository p) (pre_scope p) (pre_kind p)
                     (pre_args p)) in
  let! tool := slift (build_tool fs (pre_repository p) (pre_scope p) (pre_kind p) (pre_args p)) in
  let tools : RuntimeTool BuiltinTool := builtin_tool fs in
  runtime (run_tool_job_with_finalizer MkDefaultPolicyEngine (pre_request p) tool finalizer).

(** The closure run under the lock of the key. *)
Definition submit_under_key (fs : FileSystem) (p : Prepared) (key : string)
  : SM RuntimeJobReceipt :=
  let! cached := lookup_cache key in
  match cached with
  | Some cached => slift (replay (pre_signature p) (isj_signature cached, isj_receipt cached))
  | None =>
      let! stored := read_store (get_submit_job_idempotency key) in
      match stored with
      | Some stored =>
          let! receipt := slift (replay (pre_signature p)
                                   (idem_signature stored, idem_receipt stored)) in
          let! _ := insert_cache key {| isj_signature := idem_signature stored;
                                        isj_receipt := receipt |} in
          sret receipt
      | None =>
          let! receipt := run_submission fs p
                            (Some (make_submit_job_finalizer key (pre_signature p))) in
          if bool_decide (job_status (rcp_job receipt) = Succeeded)
          then let! _ := insert_cache key {| isj_signature := pre_signature p;
                                             isj_receipt := receipt |} in
               sret receipt
          else sret receipt
      end
  end.

Definition submit_job (fs : FileSystem) (request : SubmitJobRequest) : SM RuntimeJobReceipt :=
  let! p := prepare_submission request in
  match pre_key p with
  | Some key =>
      let! _ := acquire_key key in
      let! _ := enter_key key in
      λ s,
        let '(s, receipt_result) := submit_under_key fs p key s in
        match release_key key s with
        | (s, Ok _) => (s, receipt_result)
        | (s, Err e) => (s, Err e)
        end
  | None => run_submission fs p None
  end.

(** ** Policy, rendering and cancellation *)

Record CheckPolicyRequest := {
  cpr_repository_id : RepositoryId;
  cpr_requester : Actor;
  cpr_requested_capability : string;
  cpr_action : string;
  cpr_resource_scope : ResourceScope
}.

Definition check_policy (request : CheckPolicyRequest) : SM PolicyDecision :=
  let! _ := slift (reject? str_is_empty (trim (cpr_requested_capability request))
                     with invalid (msg "requested_capability must not be empty") in Ok tt) in
  let! _ := slift (reject? str_is_empty (trim (cpr_action request))
                     with invalid (msg "action must not be empty") in Ok tt) in
  let requested_capability := trim (cpr_requested_capability request) in
  let action := trim (cpr_action request) in
  let! repository := read_store (get_repository (cpr_repository_id request)) in
  let policy_input :=
    policy_input_new (cpr_requester request) (cpr_repository_id request) requested_capability
      (cpr_resource_scope request) action (repo_trust_state repository) true
      DEFAULT_POLICY_VERSION in
  let! uuid := runtime uuid_new in
  let! now := runtime timestamp_now in
  sret (engine_evaluate MkDefaultPolicyEngine uuid now policy_input).

Record CanonicalToolResultRef := {
  ctr_tool_result_id : ToolResultId;
  ctr_tool_invocation_id : ToolInvocationId;
  ctr_job_id : JobId;
  ctr_repository_id : RepositoryId;
  ctr_content_type : string
}.
Record RenderToolOutputResult := {
  rto_tool_result : CanonicalToolResultRef;
  rto_rendered_output : RenderedToolOutput;
  rto_truncation : option TruncationMetadata
}.

Definition with_format (o : RenderOptions) (format : OutputFormat) : RenderOptions := {|
  rend_format := format; rend_include_policy := rend_include_policy o;
  rend_include_diagnostics := rend_include_diagnostics o; rend_include_cost := rend_include_cost o |}.

(** [error.to_string()] of a rendering error. *)
Definition render_error_message (e : ToolOutputRenderError) : Message :=
  match e with
  | UnsupportedFormat format =>
      Fmt "tool output format {} is not supported" [AStr (match format with
                                                           | Toon => "toon" | Json => "json"
                                                           | Text => "text" end)]
  | JsonSerialize reason => Fmt "tool output json serialization failed: {reason}" [AMsg reason]
  | OversizeOutput reason => Fmt "tool output exceeds byte budget: {reason}" [AMsg reason]
  end.

(** The handler does not read the request's [repository_id]. *)
Definition render_tool_output (tool_result_id : ToolResultId) (format : OutputFormat)
  : SM RenderToolOutputResult :=
  let! tool_result := read_store (λ inner, get_record (tool_results inner) tool_result_id
                                             "tool_results") in
  let! tool_invocation := read_store (λ inner, get_record (tool_invocations inner)
                                        (res_invocation_id tool_result) "tool_invocations") in
  let! repository := read_store (get_repository (inv_repository_id tool_invocation)) in
  let! defaults := get_tool_output_defaults
                     (repository_tool_scope (repo_id repository) (res_tool_id tool_result)) in
  let render_options := with_format (def_render_options defaults) format in
  let render_policy := render_policy_with_render_options defaults (Some render_options) in
  let! rendered_output :=
    slift (map_err (λ error, SvcInternal (render_error_message error))
             (render_tool_result_with_policy tool_result render_policy)) in
  sret {| rto_tool_result := {|
            ctr_tool_result_id := res_id tool_result; ctr_tool_invocation_id := inv_id tool_invocation;
            ctr_job_id := inv_job_id tool_invocation; ctr_repository_id := repo_id repository;
            ctr_content_type := "application/json" |};
          rto_rendered_output := rendered_output;
          rto_truncation := ro_truncation rendered_output |}.

Definition cancel_job_request (i : JobId) (reason : string) (requester : option Actor)
  : SM CancelJobReceipt :=
  let! receipt := runtime (cancel_job i reason) in
  λ s, (match requester with
        | Some requester =>
            with_requesters s (<[i := requester]> (sv_cancellation_requesters s))
        | None => s
        end, Ok receipt).

Definition cancellation_requester (i : JobId) (s : ServiceState) : option Actor :=
  sv_cancellation_requesters s !! i.

(** ** Reading jobs and events *)

Definition list_jobs (query : JobQuery) : SM JobPage :=
  read_store (λ inner, query_jobs inner query).
Definition get_job_record (i : JobId) : SM JobRecord := read_store (RunJob.get_job i).

Definition list_events_page (query : EventQuery) : SM EventPage :=
  let! _ := slift (reject? bool_decide (eq_page_size query = Some 0%N)
                     with invalid (msg "page_size must be greater than 0") in Ok tt) in
  read_store (λ inner, query_job_events inner query).

Definition watch_events (cursor : EventCursor) (limit : option N) : SM (list JobEvent) :=
  read_store (λ inner, replay_job_events inner cursor limit).
End Service.
