(* ===== verification/ScopeGuarantees.v ===== *)
(** * ScopeGuarantees: paths and the scope of a repository *)
From S2P Require Import Prelude Text Domain Policy StoreTypes Settings Runtime RunJob Packages.
From S2P Require Import Paths Tools Submission Service.

(** * Paths ordered by prefix, and the paths the checks accept *)

(** ** Prefixes *)

Lemma list_prefixb_spec {A} `{EqDecision A} (p l : list A) :
  list_prefixb p l = true ↔ p `prefix_of` l.
Proof.
  revert l; induction p as [|x p IH]; intros l; simpl; [split; [intros _; apply prefix_nil|done]|].
  destruct l as [|y l]; [split; [done|by intros ?%prefix_nil_not]|].
  rewrite andb_true_iff, bool_decide_eq_true, IH. split.
  - intros [-> ?]. by apply prefix_cons.
  - intros Hp. by split; [eapply prefix_cons_inv_1|eapply prefix_cons_inv_2].
Qed.

(** [a] is below [b]. *)
Definition below (a b : string) : Prop := path_components b `prefix_of` path_components a.
Lemma starts_with_below a b : path_starts_with a b = true ↔ below a b.
Proof. apply list_prefixb_spec. Qed.
#[export] Instance below_preorder : PreOrder below.
Proof. split; [intros a; unfold below; done|intros a b c; unfold below; intros ??; by etrans]. Qed.
#[export] Instance below_dec a b : Decision (below a b).
Proof. unfold below. apply _. Defined.

(** Two directories above one path are one above the other. *)
Lemma below_comparable p a b : below p a → below p b → below a b ∨ below b a.
Proof. intros Ha Hb. destruct (prefix_weak_total _ _ _ Ha Hb); auto. Qed.

Definition same_path (a b : string) : Prop := path_components a = path_components b.
#[export] Instance same_path_equiv : Equivalence same_path.
Proof. unfold same_path. split; [by intros x|by intros x y|intros x y z; by etrans]. Qed.
Lemma path_eqb_same a b : path_eqb a b = true ↔ same_path a b.
Proof. apply bool_decide_eq_true. Qed.
#[export] Instance below_proper : Proper (same_path ==> same_path ==> iff) below.
Proof. unfold same_path, below. intros a a' Ha b b' Hb. by rewrite Ha, Hb. Qed.

(** ** The order of paths *)

Lemma component_le_total x y : component_le x y = true ∨ component_le y x = true.
Proof. destruct x, y; simpl; auto. apply str_le_total. Qed.
Lemma component_le_trans x y z :
  component_le x y = true → component_le y z = true → component_le x z = true.
Proof. destruct x, y, z; simpl; try done. apply str_le_trans. Qed.
Lemma component_le_antisym x y : component_le x y = true → component_le y x = true → x = y.
Proof. destruct x, y; simpl; try done. intros. f_equal. by apply str_le_antisym. Qed.

Lemma components_le_total a b : components_le a b = true ∨ components_le b a = true.
Proof.
  revert b; induction a as [|x a IH]; intros [|y b]; simpl; auto.
  destruct (decide (x = y)) as [->|Hne].
  - rewrite !bool_decide_eq_true_2 by done. apply IH.
  - rewrite !bool_decide_eq_false_2 by done. apply component_le_total.
Qed.
Lemma components_le_trans a b c :
  components_le a b = true → components_le b c = true → components_le a c = true.
Proof.
  revert b c; induction a as [|x a IH]; intros [|y b] [|z c]; simpl; try done.
  repeat case_bool_decide; subst; try done; eauto using component_le_trans.
  intros Hxy Hyx. by rewrite (component_le_antisym _ _ Hxy Hyx) in *.
Qed.
Lemma components_le_antisym a b : components_le a b = true → components_le b a = true → a = b.
Proof.
  revert b; induction a as [|x a IH]; intros [|y b]; simpl; try done.
  repeat case_bool_decide; subst; try done; intros H1 H2.
  - f_equal. by apply IH.
  - exfalso. by apply H, component_le_antisym.
Qed.

#[export] Instance path_le_total : Total path_le.
Proof. intros a b. apply components_le_total. Qed.
#[export] Instance path_le_trans : Transitive path_le.
Proof. intros a b c. apply components_le_trans. Qed.

(** ** Sorted paths without duplicates *)

Definition path_lt (a b : string) : Prop := path_le a b ∧ ¬ same_path a b.

Lemma dedup_head {A} (same : A → A → bool) x l : ∃ l', dedup_by same (x :: l) = x :: l'.
Proof. simpl. destruct (dedup_by same l) as [|z rest]; [|case_match]; by eexists. Qed.

Lemma dedup_elem l p : p ∈ dedup_by path_eqb l → p ∈ l.
Proof.
  induction l as [|x l IH]; simpl; [done|].
  destruct (dedup_by path_eqb l) as [|z rest]; [intros ->%list_elem_of_singleton; by left|].
  case_match; intros [->|Hp]%elem_of_cons; (by left) || right; apply IH; [by right|done].
Qed.
Lemma dedup_covers l p : p ∈ l → ∃ q, q ∈ dedup_by path_eqb l ∧ same_path p q.
Proof.
  induction l as [|x l IH]; simpl; [by intros ?%not_elem_of_nil|]. intros [->|Hp]%elem_of_cons.
  - exists x. split; [|done]. repeat case_match; by left.
  - apply IH in Hp as (q & Hq & Hs).
    destruct (dedup_by path_eqb l) as [|z rest]; [by apply not_elem_of_nil in Hq|].
    destruct (path_eqb x z) eqn:E; [|exists q; by split; [right|]].
    apply path_eqb_same in E. apply elem_of_cons in Hq as [->|Hq].
    + exists x. split; [by left|]. by rewrite Hs, E.
    + exists q. by split; [right|].
Qed.

Lemma dedup_sorted l : Sorted path_le l → Sorted path_lt (dedup_by path_eqb l).
Proof.
  induction l as [|x l IH]; intros Hs; simpl; [constructor|].
  apply Sorted_inv in Hs as [Hs Hx]. specialize (IH Hs).
  destruct l as [|y l]; [by repeat constructor|]. apply HdRel_inv in Hx.
  destruct (dedup_head path_eqb y l) as [rest Hrest]. rewrite Hrest in IH |- *.
  destruct (path_eqb x y) eqn:E.
  - apply Sorted_inv in IH as [Hr Hy]. constructor; [done|].
    destruct Hy as [|z rest' [Hyz Hne]]; constructor. apply path_eqb_same in E.
    split; [by trans y|]. intros Hxz. apply Hne. by rewrite <- E.
  - constructor; [done|]. constructor. split; [done|]. by rewrite <- path_eqb_same, E.
Qed.

Lemma sort_dedup_spec l :
  Sorted path_lt (sort_dedup_paths l) ∧
  (∀ p, p ∈ sort_dedup_paths l → p ∈ l) ∧
  (∀ p, p ∈ l → ∃ q, q ∈ sort_dedup_paths l ∧ same_path p q).
Proof.
  unfold sort_dedup_paths. split_and!.
  - apply dedup_sorted, Sorted_merge_sort. apply _.
  - intros p Hp%dedup_elem. by rewrite merge_sort_Permutation in Hp.
  - intros p Hp. apply dedup_covers. by rewrite merge_sort_Permutation.
Qed.

(** * A submitted tool stays in the repository's scope *)

(** ** Parents *)

Lemma path_parent_components p q :
  path_parent p = Some q → ∃ c, path_components p = path_components q ++ [c].
Proof.
  unfold path_parent. destruct (List.rev (path_components p)) as [|c front] eqn:E; [done|].
  intros Hf. assert (Hq : path_components q = List.rev front).
  { destruct c, front; try done; apply find_bool_Some in Hf as [_ Hf];
      by apply bool_decide_eq_true in Hf. }
  exists c. rewrite Hq, <- (rev_involutive (path_components p)), E. done.
Qed.
Lemma path_parent_below p q : path_parent p = Some q → below p q.
Proof. intros [c Hc]%path_parent_components. unfold below. rewrite Hc. by eexists. Qed.
Lemma path_parent_shorter p q :
  path_parent p = Some q → length (path_components p) = S (length (path_components q)).
Proof. intros [c ->]%path_parent_components. rewrite length_app. simpl. lia. Qed.

(** The directories a path is in, nearest first. *)
Inductive ancestor (p : string) : string → Prop :=
  | ancestor_parent q : path_parent p = Some q → ancestor p q
  | ancestor_up q r : path_parent p = Some q → ancestor q r → ancestor p r.
Lemma ancestor_below p q : ancestor p q → below p q.
Proof.
  induction 1 as [p q Hp|p q r Hp _ IH]; [by apply path_parent_below|].
  trans q; [by apply path_parent_below|done].
Qed.

Section Scope.
Context (fs : FileSystem).
Implicit Types (repository : RepositoryRecord) (scope : ResourceScope).

(** ** The walk over the ancestors *)

Definition fuel_for (ancestor : option string) : nat :=
  match ancestor with Some p => S (length (path_components p)) | None => 0 end.

Lemma fuel_for_parent p : fuel_for (path_parent p) ≤ length (path_components p).
Proof. unfold fuel_for. destruct (path_parent p) eqn:E; [|lia]. apply path_parent_shorter in E. lia. Qed.

(** More steps than the path has components change nothing. *)
Lemma check_ancestors_enough root a n m :
  fuel_for a ≤ n → n ≤ m → check_ancestors fs root m a = check_ancestors fs root n a.
Proof.
  revert a m; induction n as [|n IH]; intros [p|] [|m] Hn Hm; simpl in *; try done; try lia.
  case_match; [done|]. pose proof (fuel_for_parent p). repeat case_match; try done; apply IH; lia.
Qed.

Lemma check_ancestors_sound root n p q :
  check_ancestors fs root n (Some p) = Ok tt → fuel_for (Some p) ≤ n →
  p = q ∨ ancestor p q → below q root → ¬ same_path q root → fs_is_symlink fs q ≠ Ok true.
Proof.
  revert p; induction n as [|n IH]; intros p; cbn [fuel_for]; [lia|]. cbn [check_ancestors].
  intros E Hn Hq Hin Hne.
  assert (Hpq : below p q) by (destruct Hq as [->|?]; [done|by apply ancestor_below]).
  destruct (path_eqb p root) eqn:Hroot.
  { apply path_eqb_same in Hroot. rewrite Hroot in Hpq. destruct Hne.
    unfold same_path. by apply (anti_symm prefix). }
  assert (Hst : path_starts_with p root = true) by (apply starts_with_below; by trans q).
  rewrite Hst in E.
  assert (Hrec : check_ancestors fs root n (path_parent p) = Ok tt ∧ fs_is_symlink fs p ≠ Ok true).
  { destruct (fs_is_symlink fs p) as [[]|e]; [done|by split|]. by destruct (io_not_found e). }
  destruct Hq as [->|Ha]; [by apply Hrec|]. destruct Hrec as [Hrec _].
  destruct Ha as [q Hpar|q r Hpar Ha]; rewrite Hpar in Hrec;
    (eapply IH; [exact Hrec|apply path_parent_shorter in Hpar; simpl; lia|auto..]).
Qed.

(** ** What resolution promises *)

Lemma within_root_Ok root p c :
  within_root root p = Ok c ↔ c = {| cp_canonical := p; cp_root := root |} ∧ below p root.
Proof.
  unfold within_root. rewrite <- starts_with_below.
  destruct (path_starts_with p root); simpl; split;
    [by intros [= <-]|by intros [-> _]|done|by intros [_ ?]].
Qed.

Lemma canonicalize_Ok root p c :
  canonicalize_within_scope fs root p = Ok c ↔
  fs_canonicalize fs root = Ok (cp_root c) ∧
  fs_canonicalize fs (target_of (cp_root c) p) = Ok (cp_canonical c) ∧
  below (cp_canonical c) (cp_root c).
Proof.
  unfold canonicalize_within_scope.
  destruct (fs_canonicalize fs root) as [r|] eqn:Hr; simpl; [|by split; [|intros (? & _)]].
  destruct (fs_canonicalize fs (target_of r p)) as [t|] eqn:Ht; simpl.
  - rewrite within_root_Ok. destruct c as [t' r']. simpl. split.
    + intros ([= -> ->] & ?). by rewrite Ht.
    + intros ([= <-] & Ht' & ?). split; congruence.
  - split; [done|]. intros ([= <-] & Ht' & _). congruence.
Qed.

(** A path the tools may touch: below the canonical root of the repository and
    below one of its allowed paths. *)
Record confined repository (p : string) : Prop := {
  cf_root : ∃ root, fs_canonicalize fs (repo_root_path repository) = Ok root ∧ below p root;
  cf_allowed : ∃ allowed a, allowed ∈ ps_allowed_paths (repo_allowed_path_scope repository) ∧
    canonicalize_within_scope fs (repo_root_path repository) allowed = Ok a ∧
    below p (cp_canonical a)
}.

Lemma path_allowed_iff repository c :
  path_allowed fs repository c = true ↔
  ∃ allowed a, allowed ∈ ps_allowed_paths (repo_allowed_path_scope repository) ∧
    canonicalize_within_scope fs (repo_root_path repository) allowed = Ok a ∧
    below (cp_canonical c) (cp_canonical a).
Proof.
  unfold path_allowed. rewrite existsb_exists. setoid_rewrite <- list_elem_of_In. split.
  - intros (allowed & Hin & Ha). destruct (canonicalize_within_scope _ _ _) as [a|] eqn:E; [|done].
    exists allowed, a. by rewrite <- starts_with_below.
  - intros (allowed & a & Hin & E & Ha). exists allowed. split; [done|]. rewrite E.
    by apply starts_with_below.
Qed.

Lemma resolve_new_target_Ok repository_root root target c :
  resolve_new_target fs repository_root root target = Ok c → cp_root c = root ∧ below (cp_canonical c) root.
Proof. unfold resolve_new_target. intros E. run_ok E. apply within_root_Ok in E as [-> Hb]. done. Qed.

Lemma resolve_mutation_Ok root p c :
  resolve_filesystem_mutation_path fs root p = Ok c →
  fs_canonicalize fs root = Ok (cp_root c) ∧ below (cp_canonical c) (cp_root c) ∧
  (∀ q, ancestor (target_of (cp_root c) p) q → below q (cp_root c) → ¬ same_path q (cp_root c) →
     fs_is_symlink fs q ≠ Ok true) ∧
  fs_is_symlink fs (target_of (cp_root c) p) ≠ Ok true.
Proof.
  unfold resolve_filesystem_mutation_path.
  destruct (fs_canonicalize fs root) as [r|]; simpl; [|done].
  destruct (check_ancestors _ _ _ _) as [[]|] eqn:Hc; simpl; [|done]. intros E.
  assert (Hc' : cp_root c = r ∧ below (cp_canonical c) r ∧ fs_is_symlink fs (target_of r p) ≠ Ok true).
  { destruct (fs_is_symlink fs (target_of r p)) as [[]|e]; [done| |].
    - run_ok E. apply within_root_Ok in E as [-> ?]. done.
    - destruct (io_not_found e); [|done]. by apply resolve_new_target_Ok in E as [-> ?]. }
  destruct Hc' as (-> & Hb & Hs). split_and!; try done. intros q Hq Hin Hne.
  destruct (path_parent (target_of r p)) as [parent|] eqn:Hpar; [|by destruct Hq; simplify_eq].
  eapply check_ancestors_sound; [exact Hc| | |done..].
  - apply path_parent_shorter in Hpar. simpl. lia.
  - destruct Hq; simplify_eq; auto.
Qed.

Lemma at_root_false c : at_root c = false ↔ ¬ same_path (cp_canonical c) (cp_root c).
Proof. unfold at_root. rewrite <- path_eqb_same. by destruct (path_eqb _ _). Qed.

(** What each validator accepts. *)
Definition accepts repository (r : result PathResolutionError CanonicalPath) (concrete : bool) : Prop :=
  ∃ c, r = Ok c ∧ path_allowed fs repository c = true ∧ (concrete = true → at_root c = false).

Lemma validate_path_Ok repository scope concrete :
  validate_filesystem_path_scope fs repository scope concrete = Ok tt ↔
  accepts repository (canonicalize_within_scope fs (repo_root_path repository) (scope_value scope)) concrete.
Proof.
  unfold validate_filesystem_path_scope, accepts.
  destruct (canonicalize_within_scope _ _ _) as [c|]; simpl; [|by split; [|intros (? & ? & _)]].
  split.
  - intros E. exists c. split; [done|]. run_ok E. split; [done|]. by intros ->.
  - intros (? & [= <-] & -> & Hc). destruct concrete; [by rewrite Hc|done].
Qed.
Lemma validate_mutation_Ok repository scope :
  validate_filesystem_mutation_path_scope fs repository scope = Ok tt ↔
  accepts repository (resolve_filesystem_mutation_path fs (repo_root_path repository) (scope_value scope)) true.
Proof.
  unfold validate_filesystem_mutation_path_scope, accepts.
  destruct (resolve_filesystem_mutation_path _ _ _) as [c|]; simpl; [|by split; [|intros (? & ? & _)]].
  split.
  - intros E. exists c. split; [done|]. by run_ok E.
  - intros (? & [= <-] & -> & Hc). by rewrite Hc.
Qed.
Lemma validate_secondary_Ok repository scope r name :
  validate_secondary fs repository scope r name = Ok tt → accepts repository r true.
Proof.
  unfold validate_secondary, accepts. destruct r as [c|]; simpl; [|done].
  intros E. exists c. split; [done|]. by run_ok E.
Qed.

(** ** The tools' own resolution *)

Lemma resolve_mutation_target_agrees root p :
  resolve_mutation_target fs root p =
  let? c := resolve_filesystem_mutation_path fs root p in Ok (mutation_target c).
Proof.
  unfold resolve_mutation_target, resolve_filesystem_mutation_path.
  destruct (fs_canonicalize fs root); simpl; [|done]. destruct (check_ancestors _ _ _ _); [|done].
  repeat case_match; done.
Qed.

Lemma accepts_canonical repository p concrete :
  accepts repository (canonicalize_within_scope fs (repo_root_path repository) p) concrete →
  ∃ c, canonicalize_within_scope fs (repo_root_path repository) p = Ok c ∧
    confined repository (cp_canonical c).
Proof.
  intros (c & E & Ha & _). exists c. split; [done|]. split; [|by apply path_allowed_iff].
  apply canonicalize_Ok in E as (? & _ & ?). eauto.
Qed.
Lemma accepts_mutation repository p concrete :
  accepts repository (resolve_filesystem_mutation_path fs (repo_root_path repository) p) concrete →
  ∃ c, resolve_filesystem_mutation_path fs (repo_root_path repository) p = Ok c ∧
    confined repository (cp_canonical c).
Proof.
  intros (c & E & Ha & _). exists c. split; [done|]. split; [|by apply path_allowed_iff].
  apply resolve_mutation_Ok in E as (? & ? & _). eauto.
Qed.

(** A path that exists resolves to the same place for a reader and a writer. *)
Lemma resolutions_agree root p c c' :
  FileSystemLaws fs → canonicalize_within_scope fs root p = Ok c →
  resolve_filesystem_mutation_path fs root p = Ok c' → c' = c.
Proof.
  intros Hfs (Hr & Ht & Hb)%canonicalize_Ok. unfold resolve_filesystem_mutation_path.
  rewrite Hr. simpl. destruct (check_ancestors _ _ _ _); simpl; [|done].
  destruct (canonical_exists _ Hfs _ _ Ht) as [[] ->]; [done|]. rewrite Ht. simpl.
  intros [-> _]%within_root_Ok. by destruct c.
Qed.

Lemma canonical_paths_confined repository request p c :
  canonicalize_within_scope fs (repo_root_path repository) (target_from_request request) = Ok c →
  confined repository (cp_canonical c) →
  p ∈ resolved_path_for_request fs (repo_root_path repository) request →
  ∃ q, rp_resolved_path p = to_string_lossy q ∧ confined repository q.
Proof.
  intros E Hc. unfold resolved_path_for_request. rewrite E. intros ->%list_elem_of_singleton.
  simpl. eauto.
Qed.
Lemma mutation_paths_confined repository path p c :
  resolve_filesystem_mutation_path fs (repo_root_path repository) path = Ok c →
  confined repository (cp_canonical c) →
  p ∈ mutation_resolved_path fs (repo_root_path repository) path →
  ∃ q, rp_resolved_path p = to_string_lossy q ∧ confined repository q.
Proof.
  intros E Hc. unfold mutation_resolved_path. rewrite resolve_mutation_target_agrees, E.
  intros ->%list_elem_of_singleton. simpl. eauto.
Qed.

(** ** The roots of a search *)

Lemma try_map_Ok {E A B} (f : A → result E B) l ys :
  try_map f l = Ok ys → ∀ y, y ∈ ys ↔ ∃ x, x ∈ l ∧ f x = Ok y.
Proof.
  revert ys; induction l as [|x l IH]; intros ys H y; simpl in H.
  { injection H as <-. split; [by intros ?%not_elem_of_nil|by intros (? & ?%not_elem_of_nil & _)]. }
  destruct (f x) as [b|] eqn:Ef; [|done]. destruct (try_map f l) as [bs|] eqn:El; [|done].
  injection H as <-. rewrite elem_of_cons, (IH _ eq_refl). split.
  - intros [->|(x' & ? & ?)]; [exists x|exists x']; by split; [constructor|].
  - intros (x' & [->|Hx]%elem_of_cons & Hf); [left; congruence|right; eauto].
Qed.

Lemma below_common_root p requested allowed :
  (∃ r, common_root requested allowed = Some r ∧ below p r) ↔
  below p requested ∧ below p allowed.
Proof.
  unfold common_root. split.
  - intros (r & Hr & Hp). destruct (path_starts_with requested allowed) eqn:E1; simplify_eq.
    + split; [done|]. trans r; [done|]. by apply starts_with_below.
    + destruct (path_starts_with allowed requested) eqn:E2; simplify_eq.
      split; [|done]. trans r; [done|]. by apply starts_with_below.
  - intros [Hr Ha]. destruct (below_comparable _ _ _ Hr Ha) as [H|H]; apply starts_with_below in H.
    + rewrite H. eauto.
    + rewrite H. case_match; eauto.
Qed.

(** Below one of a list of directories. *)
Definition covered (l : list string) (p : string) : Prop := ∃ r, r ∈ l ∧ below p r.
Lemma covered_sort_dedup l p : covered (sort_dedup_paths l) p ↔ covered l p.
Proof.
  destruct (sort_dedup_spec l) as (_ & Hin & Hcov). split; intros (r & Hr & Hp).
  - exists r. eauto.
  - destruct (Hcov _ Hr) as (q & Hq & Hs). exists q. split; [done|]. by rewrite <- Hs.
Qed.
Lemma covered_omap requested l p :
  covered (omap (common_root requested) l) p ↔ below p requested ∧ covered l p.
Proof.
  unfold covered. split.
  - intros (r & (a & Ha & Hr)%list_elem_of_omap & Hp).
    destruct (proj1 (below_common_root p requested a)) as [? ?]; eauto.
  - intros (Hr & a & Ha & Hp). destruct (proj2 (below_common_root p requested a)) as (r & Hc & ?); [done|].
    exists r. split; [|done]. apply list_elem_of_omap. eauto.
Qed.
End Scope.

(** * The properties of the path checks *)

Section Guarantees.
Context (fs : FileSystem).
Implicit Types (repository : RepositoryRecord) (scope : ResourceScope).

Lemma repository_roots_covered repository roots p :
  allowed_search_roots_for_repository fs repository = Ok roots →
  covered roots p ↔
  (∃ allowed a, allowed ∈ ps_allowed_paths (repo_allowed_path_scope repository) ∧
     canonicalize_within_scope fs (repo_root_path repository) allowed = Ok a ∧
     below p (cp_canonical a)) ∨
  ps_allowed_paths (repo_allowed_path_scope repository) = [] ∧
  ∃ root, fs_canonicalize fs (repo_root_path repository) = Ok root ∧ below p root.
Proof.
  unfold allowed_search_roots_for_repository. intros E. run_ok E. subst roots.
  rewrite covered_sort_dedup. apply map_err_Ok in Hok. pose proof (try_map_Ok _ _ _ Hok) as Hin.
  assert (Hcov : covered a p ↔
    ∃ allowed c, allowed ∈ ps_allowed_paths (repo_allowed_path_scope repository) ∧
      canonicalize_within_scope fs (repo_root_path repository) allowed = Ok c ∧
      below p (cp_canonical c)).
  { unfold covered. setoid_rewrite Hin. split.
    - intros (r & (x & Hx & Hc) & Hp). step_ok Hc. injection Hc as <-. eauto.
    - intros (x & c & Hx & Hc & Hp). exists (cp_canonical c). split; [|done].
      exists x. by rewrite Hc. }
  case_bool_decide as Hempty.
  - run_ok Hok0. subst a0. apply map_err_Ok in Hok1. subst a.
    assert (Hnil : ps_allowed_paths (repo_allowed_path_scope repository) = []).
    { destruct (ps_allowed_paths _); [done|]. simpl in Hok. by run_ok Hok. }
    rewrite <- Hcov, Hnil. unfold covered. simpl. rewrite Hok1. split.
    + intros (r & ->%list_elem_of_singleton & Hp). right. eauto.
    + intros [(? & ?%not_elem_of_nil & _)|(_ & ? & [= <-] & Hp)]; [done|].
      eexists. split; [by apply list_elem_of_singleton|done].
  - injection Hok0 as <-. rewrite Hcov. split; [auto|]. intros [?|[Hnil _]]; [done|].
    rewrite Hnil in Hok. simpl in Hok. congruence.
Qed.

(** A search sees exactly what the request asks for and the repository
    allows.  The roots given to the search tool are sorted, distinct and not
    none, and a path lies below one of them exactly when it lies below the
    requested path and below an allowed path of the repository. *)
Theorem search_roots_exact repository scope roots :
  allowed_search_roots_for_request fs repository scope = Ok roots →
  ps_allowed_paths (repo_allowed_path_scope repository) ≠ [] →
  Sorted path_lt roots ∧ roots ≠ [] ∧
  ∃ requested, canonicalize_within_scope fs (repo_root_path repository) (scope_value scope)
                 = Ok requested ∧
  ∀ p, covered roots p ↔ below p (cp_canonical requested) ∧
    ∃ allowed a, allowed ∈ ps_allowed_paths (repo_allowed_path_scope repository) ∧
      canonicalize_within_scope fs (repo_root_path repository) allowed = Ok a ∧
      below p (cp_canonical a).
Proof.
  intros E Hne. unfold allowed_search_roots_for_request in E. run_ok E. subst roots.
  apply map_err_Ok in Hok. apply bool_decide_eq_false in Hg.
  set (l := omap (common_root (cp_canonical a)) a0) in *.
  split; [apply sort_dedup_spec|]. split.
  { destruct l as [|x l]; [done|]. intros Hnil.
    destruct (sort_dedup_spec (x :: l)) as (_ & _ & Hcov).
    destruct (Hcov x) as (q & Hq & _); [by left|]. rewrite Hnil in Hq. by apply not_elem_of_nil in Hq. }
  exists a. split; [done|]. intros p. unfold l.
  rewrite covered_sort_dedup, covered_omap, (repository_roots_covered repository a0) by done.
  split; [intros [? [?|[? _]]]; done|intros [? ?]; auto].
Qed.

(** The paths of an accepted request resolve to confined ones. *)
Lemma secondary_confined repository scope r name :
  validate_secondary fs repository scope r name = Ok tt →
  ∃ c, r = Ok c ∧ path_allowed fs repository c = true.
Proof. intros (c & ? & ? & _)%validate_secondary_Ok. eauto. Qed.

Lemma reader_confined repository scope concrete :
  validate_filesystem_path_scope fs repository scope concrete = Ok tt →
  ∃ c, canonicalize_within_scope fs (repo_root_path repository) (scope_value scope) = Ok c ∧
    confined fs repository (cp_canonical c).
Proof. rewrite validate_path_Ok. apply accepts_canonical. Qed.
Lemma writer_confined repository scope :
  validate_filesystem_mutation_path_scope fs repository scope = Ok tt →
  ∃ c, resolve_filesystem_mutation_path fs (repo_root_path repository) (scope_value scope) = Ok c ∧
    confined fs repository (cp_canonical c).
Proof. rewrite validate_mutation_Ok. apply accepts_mutation. Qed.

Lemma deleter_paths_confined repository request p :
  FileSystemLaws fs →
  validate_filesystem_path_scope fs repository (req_resource_scope request) true = Ok tt →
  p ∈ mutation_resolved_path fs (repo_root_path repository) (target_from_request request) →
  ∃ q, rp_resolved_path p = to_string_lossy q ∧ confined fs repository q.
Proof.
  intros Hfs (c & E & Hc)%reader_confined Hp. pose proof Hp as Hr.
  unfold mutation_resolved_path in Hr. rewrite resolve_mutation_target_agrees in Hr.
  destruct (resolve_filesystem_mutation_path _ _ _) as [c'|] eqn:Ec; [|by apply not_elem_of_nil in Hr].
  pose proof (resolutions_agree _ _ _ _ _ Hfs E Ec) as ->.
  by eapply mutation_paths_confined.
Qed.

(** The second path of a diff or a move. *)
Lemma comparison_confined repository scope path name :
  validate_secondary_filesystem_path_scope fs repository scope path name = Ok tt →
  ∃ c, canonicalize_within_scope fs (repo_root_path repository) path = Ok c ∧
    confined fs repository (cp_canonical c).
Proof. intros H%validate_secondary_Ok. by eapply accepts_canonical. Qed.
Lemma destination_confined repository scope path name :
  validate_secondary_filesystem_mutation_path_scope fs repository scope path name = Ok tt →
  ∃ c, resolve_filesystem_mutation_path fs (repo_root_path repository) path = Ok c ∧
    confined fs repository (cp_canonical c).
Proof. intros H%validate_secondary_Ok. by eapply accepts_mutation. Qed.

Lemma diff_paths_confined repository request t p c c' :
  diff_root t = repo_root_path repository →
  canonicalize_within_scope fs (repo_root_path repository) (target_from_request request) = Ok c →
  confined fs repository (cp_canonical c) →
  canonicalize_within_scope fs (repo_root_path repository) (diff_comparison_path t) = Ok c' →
  confined fs repository (cp_canonical c') →
  p ∈ builtin_resolved_paths fs (DiffBuiltin t) request →
  ∃ q, rp_resolved_path p = to_string_lossy q ∧ confined fs repository q.
Proof.
  intros Hr E Hc E' Hc'. simpl. unfold resolve_diff_paths. rewrite Hr, E, E'. simpl.
  intros [->| ->%list_elem_of_singleton]%elem_of_cons; simpl; eauto.
Qed.
Lemma move_paths_confined repository request t p c c' :
  move_root t = repo_root_path repository →
  resolve_filesystem_mutation_path fs (repo_root_path repository) (target_from_request request) = Ok c →
  confined fs repository (cp_canonical c) →
  resolve_filesystem_mutation_path fs (repo_root_path repository) (move_destination_path t) = Ok c' →
  confined fs repository (cp_canonical c') →
  p ∈ builtin_resolved_paths fs (MoveBuiltin t) request →
  ∃ q, rp_resolved_path p = to_string_lossy q ∧ confined fs repository q.
Proof.
  intros Hr E Hc E' Hc'. simpl. rewrite Hr. intros [Hp|Hp]%elem_of_app.
  - by apply (mutation_paths_confined _ _ _ _ c E Hc).
  - apply list_elem_of_fmap in Hp as (p' & -> & Hp). simpl.
    by apply (mutation_paths_confined _ _ _ p' c' E' Hc').
Qed.

Ltac drop_option := repeat match goal with
  | H : context [opt_apply _ _ ?o] |- _ => destruct o; cbn [opt_apply] in H
  end.
Ltac tool_paths :=
  eauto using canonical_paths_confined, mutation_paths_confined.

(** C39: a submitted tool stays in the repository's scope.  When the daemon
    accepts the paths of a request and builds its tool, every path the tool
    resolves for that request, the second path of a diff or a move included, lies
    below the canonical root of the repository and below one of its allowed
    paths. *)
Theorem submitted_tools_stay_in_scope repository request kind args tool p :
  FileSystemLaws fs →
  validate_filesystem_scope fs repository (req_resource_scope request) kind args = Ok tt →
  build_tool fs repository (req_resource_scope request) kind args = Ok tool →
  p ∈ builtin_resolved_paths fs tool request →
  ∃ q, rp_resolved_path p = to_string_lossy q ∧ confined fs repository q.
Proof.
  intros Hfs Hv Hb Hp. unfold validate_filesystem_scope in Hv. apply then_Ok in Hv as [Hv Hs].
  destruct kind; simpl in Hb; try (injection Hb as <-);
    try (destruct args; try discriminate Hb; run_ok Hb; subst tool; drop_option);
    try (apply comparison_confined in Hs as (c' & ? & ?));
    try (apply destination_confined in Hs as (c' & ? & ?));
    try (apply writer_confined in Hv as (c & ? & ?)); try (by tool_paths).
  { by apply not_elem_of_nil in Hp. }
  { simpl in Hp. unfold read_resolved_paths in Hp. case_match; [by apply not_elem_of_nil in Hp|].
    apply reader_confined in Hv as (c & ? & ?). tool_paths. }
  3: by eapply deleter_paths_confined.
  all: try (apply reader_confined in Hv as (c & ? & ?));
    first [ eapply diff_paths_confined; [| | | | |exact Hp]; (eassumption || reflexivity)
          | eapply move_paths_confined; [| | | | |exact Hp]; (eassumption || reflexivity)
          | by simpl in Hp; tool_paths ].
Qed.
End Guarantees.
