(* ===== verification/ServiceGuarantees.v ===== *)
(** * ServiceGuarantees: submitting jobs *)
From S2P Require Import Prelude Text Domain DomainLaws Policy StoreTypes Settings Truncation Spill.
From S2P Require Import StoreValidate StoreJobs Store StoreQuery Ledger StoreRefine.
From S2P Require Import StoreGuarantees Backend Runtime RunJob RunStages RunGuarantees.
From S2P Require Import Packages Paths Tools Submission Service.

(** * The idempotency keys of job submission

    The cache of receipts is bounded, has one entry per key and agrees with the
    durable receipts of the store; every handler keeps it so. *)

(** ** The cache *)

Record cache_ok (c : Cache) : Prop := {
  ck_keys : NoDup c.*1;
  ck_bound : length c ≤ IDEMPOTENT_SUBMISSION_CACHE_LIMIT
}.

Lemma cache_lookup_elem c key x : cache_lookup c key = Some x → (key, x) ∈ c.
Proof.
  unfold cache_lookup. destruct (find_bool _ _) as [[k y]|] eqn:E; simpl; [|done].
  intros [= ->]. apply find_bool_Some in E as [Hin Hk]. apply str_eqb_eq in Hk. simpl in Hk. subst.
  by rewrite list_elem_of_In, <- in_rev, <- list_elem_of_In in Hin.
Qed.

Lemma remove_first_spec c key :
  NoDup c.*1 → NoDup (remove_first key c).*1 ∧ (key ∉ (remove_first key c).*1) ∧
  (∀ e, e ∈ remove_first key c → e ∈ c) ∧ length (remove_first key c) ≤ length c.
Proof.
  induction c as [|[k x] c IH]; simpl; [intros _; split_and!; auto using NoDup_nil_2; apply not_elem_of_nil|].
  intros [Hk Hn]%NoDup_cons. specialize (IH Hn) as (Hn' & Hkey & Hin & Hlen).
  destruct (str_eqb k key) eqn:E.
  - apply str_eqb_eq in E. subst. split_and!; [done|done| |lia]. intros e He. by right.
  - apply str_eqb_neq in E. simpl. split_and!.
    + apply NoDup_cons. split; [|done]. intros ([k' x'] & Hk' & Hx')%list_elem_of_fmap.
      apply Hk. apply list_elem_of_fmap. eauto.
    + rewrite not_elem_of_cons. by split; [congruence|].
    + intros e [->|He]%elem_of_cons; [by left|right; auto].
    + lia.
Qed.

Lemma tail_elem {A} (l : list A) x : x ∈ tail l → x ∈ l.
Proof. destruct l; [done|]. by right. Qed.

Lemma cache_insert_elem c key x e :
  NoDup c.*1 → e ∈ cache_idempotent_submission c key x → e = (key, x) ∨ e ∈ c.
Proof.
  intros Hn. destruct (remove_first_spec c key Hn) as (_ & _ & Hin & _).
  unfold cache_idempotent_submission. rewrite elem_of_app, list_elem_of_singleton.
  intros [He| ->]; [right|by left]. case_match; auto using tail_elem.
Qed.

Lemma cache_insert_ok c key x : cache_ok c → cache_ok (cache_idempotent_submission c key x).
Proof.
  intros [Hn Hb]. destruct (remove_first_spec c key Hn) as (Hn' & Hkey & _ & Hlen).
  unfold cache_idempotent_submission. set (c1 := remove_first key c) in *.
  set (c2 := if (_ <=? _)%nat then tail c1 else c1).
  assert (H2 : NoDup c2.*1 ∧ (key ∉ c2.*1) ∧ length c2 < IDEMPOTENT_SUBMISSION_CACHE_LIMIT).
  { unfold c2. destruct (Nat.leb_spec IDEMPOTENT_SUBMISSION_CACHE_LIMIT (length c1)); [|done].
    destruct c1 as [|e c1]; simpl in *; [unfold IDEMPOTENT_SUBMISSION_CACHE_LIMIT in *; lia|].
    apply NoDup_cons in Hn' as [_ ?]. apply not_elem_of_cons in Hkey as [_ ?]. split_and!; [done..|lia]. }
  destruct H2 as (Hn2 & Hk2 & Hl2). split.
  - rewrite fmap_app. apply NoDup_app. simpl. split_and!; [done| |apply NoDup_singleton].
    intros k Hk ->%list_elem_of_singleton. done.
  - rewrite length_app. simpl. lia.
Qed.

Lemma cache_lookup_insert c key x : cache_lookup (cache_idempotent_submission c key x) key = Some x.
Proof.
  unfold cache_lookup, cache_idempotent_submission. rewrite rev_app_distr. simpl.
  unfold str_eqb. by rewrite bool_decide_eq_true_2.
Qed.

(** ** The runner behind the service *)

Section Runs.
Context `{UuidLib} `{RegistryPort} `{Entropy} `{Renderer} `{ArtifactDefaults}.
Context {S F : Type} `{!StoreBackend S} `{!StoreBackendLaws S} `{!ArtifactWriter string F}.
Context {T : Type} `{!RuntimeTool T} {P : Type} `{!PolicyEngine P}.
Implicit Types (w : World S F) (tool : T) (engine : P).

Lemma run_steps engine request tool fin w w' r :
  store_wf (view w) → run_tool_job_with_finalizer engine request tool fin w = (w', r) →
  rtc store_step (view w) (view w').
Proof.
  intros Hwf [[[Hs _] _]|(w1 & w2 & repository & d & i & st & x & [Hs1 _] & _ & Hx & Ha)]%run_cases;
    [done| |done].
  apply execute_tool_spec in Hx as [Hs2 _]. apply quiet_after in Ha as [Hs3 _].
  by repeat (etrans; [eassumption|]).
Qed.

Lemma run_binds_receipt engine request tool key signature w w' rc :
  store_wf (view w) →
  run_tool_job_with_finalizer engine request tool
    (Some (make_submit_job_finalizer key signature)) w = (w', Ok rc) →
  job_status (rcp_job rc) = Succeeded →
  idempotent_submit_jobs (view w') !! key =
    Some {| idem_signature := signature; idem_receipt := rc |}.
Proof.
  intros Hwf [[_ Hst]|(w1 & w2 & repository & d & i & st & x & Hev & Hp & Hx & Ha)]%run_cases Hsucc;
    [| |done].
  { destruct Hst as (_ & Hs & _). congruence. }
  destruct (evolves_le w w1 Hwf Hev) as [Hwf1 _]. apply execute_tool_spec in Hx as [Hs _].
  destruct (permitted_before _ _ _ _ _ _ _ _ _ Hwf1 Hp Hs) as (Hwf2 & _ & Hlog).
  apply after_execution_Ok in Ha as (c & _ & _ & _ & _ & _ & Hc); [|done..].
  eapply co_receipt; [exact Hc|done|done|]. intros r Hr. unfold make_submit_job_finalizer.
  by rewrite bool_decide_eq_true_2.
Qed.
End Runs.

(** ** The service *)

Section Service.
Context `{UuidLib} `{RegistryPort} `{Entropy} `{Renderer} `{ArtifactDefaults} `{ToolPort}.
Context `{SignatureCodec}.
Context {S F : Type} `{!StoreBackend S} `{!StoreBackendLaws S} `{!ArtifactWriter string F}.
Abbreviation ServiceState := (ServiceState (S := S) (F := F)).
Abbreviation SM := (SM (S := S) (F := F)).
Implicit Types (s : ServiceState) (fs : FileSystem) (p : Prepared).

Definition sview s : InMemoryInner := view (sv_world s).
Definition cached s : Cache := mx_value (sv_cache s).
Definition runs s : list (ToolInvocation * InMemoryInner) := w_executed (sv_world s).

Definition stored_as (c : IdempotentSubmitJob) : SubmitJobIdempotencyRecord :=
  {| idem_signature := isj_signature c; idem_receipt := isj_receipt c |}.

(** The store is well formed and every cached receipt is the durable one. *)
Record service_ok s : Prop := {
  so_store : store_wf (sview s);
  so_cache : cache_ok (cached s);
  so_coherent key c : (key, c) ∈ cached s →
    idempotent_submit_jobs (sview s) !! key = Some (stored_as c)
}.

(** ** Computations that leave the cache alone and run no tool *)

Definition calm {A} (m : SM A) : Prop := ∀ s s' r, m s = (s', r) →
  evolves (sv_world s) (sv_world s') ∧ cached s' = cached s.

Lemma calm_lift {A} (x : ServiceResult A) : calm (slift x).
Proof. intros s s' r [= <- <-]. split; [apply evolves_refl|done]. Qed.
Lemma calm_ret {A} (a : A) : calm (sret a).
Proof. intros s s' r [= <- <-]. split; [apply evolves_refl|done]. Qed.
Lemma calm_runtime {A} (m : M S F A) : quiet_run m → calm (runtime m).
Proof.
  intros Hm s s' r. unfold runtime. destruct (m (sv_world s)) as [w x] eqn:E.
  intros [= <- <-]. split; [|done]. by apply Hm in E.
Qed.
Lemma calm_read {R} (f : InMemoryInner → StoreResult R) : calm (read_store f).
Proof. apply calm_runtime, quiet_read. Qed.
Lemma calm_bind {A B} (m : SM A) (k : A → SM B) :
  calm m → (∀ a, calm (k a)) →
  calm (λ s, match m s with (s, Ok x) => k x s | (s, Err e) => (s, Err e) end).
Proof.
  intros Hm Hk s s' r. destruct (m s) as [s1 [a|e]] eqn:E; intros Hr.
  - apply Hm in E as [? ?]. apply Hk in Hr as [? ?]. split; [by eapply evolves_trans|congruence].
  - simplify_eq. by apply Hm in E.
Qed.
Lemma calm_defaults scope : calm (get_tool_output_defaults scope).
Proof. intros s s' r [= <- <-]. split; [apply evolves_refl|done]. Qed.
Lemma calm_prepare request : calm (prepare_submission request).
Proof.
  unfold prepare_submission.
  repeat first [apply calm_bind; [|intros ?] | apply calm_lift | apply calm_read
               | apply calm_defaults | apply calm_ret].
Qed.
Lemma calm_acquire key : calm (acquire_key key).
Proof. intros s s' r. unfold acquire_key. case_match; intros [= <- <-]; (split; [apply evolves_refl|done]). Qed.
Lemma calm_enter key : calm (enter_key key).
Proof. intros s s' r. unfold enter_key. repeat case_match; intros [= <- <-]; (split; [apply evolves_refl|done]). Qed.
Lemma calm_release key : calm (release_key key).
Proof. intros s s' r. unfold release_key. repeat case_match; intros [= <- <-]; (split; [apply evolves_refl|done]). Qed.
Lemma calm_lookup key : calm (lookup_cache key).
Proof. intros s s' r [= <- <-]. split; [apply evolves_refl|done]. Qed.
Lemma calm_settings actor scope update reason : calm (update_tool_output_defaults actor scope update reason).
Proof.
  intros s s' r. unfold update_tool_output_defaults. case_match; [|intros [= <- <-]; split; [apply evolves_refl|done]].
  destruct (runtime timestamp_now s) as [s1 [now|]] eqn:E; apply (calm_runtime _ quiet_now) in E as [He Hc].
  - case_match; [case_match|]; intros [= <- <-]; by split.
  - intros [= <- <-]. by split.
Qed.
Lemma calm_policy request : calm (check_policy request).
Proof.
  unfold check_policy.
  repeat first [apply calm_bind; [|intros ?] | apply calm_lift | apply calm_read | apply calm_ret
               | apply calm_runtime; [apply quiet_uuid || apply quiet_now]].
Qed.
Lemma calm_render i format : calm (render_tool_output i format).
Proof.
  unfold render_tool_output.
  repeat first [apply calm_bind; [|intros ?] | apply calm_lift | apply calm_read | apply calm_ret
               | apply calm_defaults].
Qed.
Lemma calm_cancel i reason requester : calm (cancel_job_request i reason requester).
Proof.
  unfold cancel_job_request. apply calm_bind; [apply calm_runtime, quiet_cancel|].
  intros a s s' r [= <- <-]. destruct requester; (split; [apply evolves_refl|done]).
Qed.

(** ** Computations that keep the service right *)

Definition keeps {A} (m : SM A) : Prop := ∀ s s' r, service_ok s → m s = (s', r) →
  service_ok s' ∧ rtc store_step (sview s) (sview s').

Lemma store_move_ok s s' :
  service_ok s → rtc store_step (sview s) (sview s') → cached s' = cached s → service_ok s'.
Proof.
  intros [Hwf Hc Hco] Hs Hcache. split.
  - by eapply store_steps_wf.
  - by rewrite Hcache.
  - intros key c. rewrite Hcache. intros Hin. eapply lookup_weaken; [by apply Hco|].
    by apply le_receipts, store_steps_le.
Qed.
Lemma calm_keeps {A} (m : SM A) : calm m → keeps m.
Proof. intros Hm s s' r Hok E. apply Hm in E as [[Hs _] Hc]. split; [by eapply store_move_ok|done]. Qed.
Lemma keeps_bind {A B} (m : SM A) (k : A → SM B) :
  keeps m → (∀ a, keeps (k a)) →
  keeps (λ s, match m s with (s, Ok x) => k x s | (s, Err e) => (s, Err e) end).
Proof.
  intros Hm Hk s s' r Hok. destruct (m s) as [s1 [a|e]] eqn:E; intros Hr;
    apply Hm in E as [Hok1 Hs1]; [|done|by simplify_eq|done].
  apply Hk in Hr as [Hok2 Hs2]; [|done]. split; [done|by etrans].
Qed.

Lemma keeps_run fs p fin : keeps (run_submission fs p fin).
Proof.
  unfold run_submission. repeat (apply keeps_bind; [apply calm_keeps, calm_lift|intros ?]).
  intros s s' r Hok. unfold runtime.
  destruct (run_tool_job_with_finalizer _ _ _ _ _) as [w x] eqn:E. intros [= <- <-].
  apply run_steps in E; [|apply Hok]. split; [|done]. by eapply store_move_ok.
Qed.

(** A binding of the store may enter the cache. *)
Lemma insert_cache_ok key c s s' r :
  service_ok s → idempotent_submit_jobs (sview s) !! key = Some (stored_as c) →
  insert_cache key c s = (s', r) →
  service_ok s' ∧ sv_world s' = sv_world s ∧
  match r with Ok _ => True | Err e => ∃ reason, e = SvcInternal reason end.
Proof.
  intros Hok Hk. unfold insert_cache, lock_mutex. destruct (mx_poisoned (sv_cache s)).
  { intros [= <- <-]. split_and!; [done|done|eauto]. }
  intros [= <- <-]. split_and!; [|done|done]. destruct Hok as [Hwf Hc Hco]. split; [done|by apply cache_insert_ok|].
  intros key' c' [[= -> ->]|Hin]%cache_insert_elem; [done|by apply Hco|apply Hc].
Qed.

(** ** Under the lock of a key *)

(** Errors that say nothing about the request: a poisoned lock, a failing store. *)
Definition infrastructure (e : ServiceError) : Prop :=
  match e with SvcInternal _ | SvcStore _ => True | _ => False end.

Lemma read_store_spec {R} (f : InMemoryInner → StoreResult R) s s' r :
  read_store f s = (s', r) →
  match r with Ok v => f (sview s') = Ok v | Err e => infrastructure e end.
Proof.
  unfold read_store, runtime. destruct (call_read f (sv_world s)) as [w x] eqn:E.
  intros [= <- <-]. assert (Hx : ∀ e, x = Err e → ∃ e', e = RtStore e').
  { unfold call_read in E. destruct (backend_read f _) as [b [|]]; simplify_eq/=; naive_solver. }
  apply call_read_spec in E as [_ Hr]. destruct x as [v|e]; simpl; [done|].
  by destruct (Hx e eq_refl) as [e' ->].
Qed.

Lemma replay_Ok signature earlier rc :
  replay signature earlier = Ok rc ↔ earlier = (signature, rc).
Proof.
  unfold replay. destruct earlier as [x y]. simpl. destruct (str_eqb x signature) eqn:E.
  - apply str_eqb_eq in E. subst. split; congruence.
  - apply str_eqb_neq in E. split; [done|]. congruence.
Qed.
Lemma replay_Err signature earlier e :
  replay signature earlier = Err e → e = key_conflict ∧ earlier.1 ≠ signature.
Proof. unfold replay. destruct (str_eqb _ _) eqn:E; [done|]. intros [= <-]. by apply str_eqb_neq in E. Qed.

(** What a submission under a key that is bound to [b] may answer. *)
Definition answers_from (b : SubmitJobIdempotencyRecord) (signature : string)
  (r : ServiceResult RuntimeJobReceipt) : Prop :=
  match r with
  | Ok rc => b = {| idem_signature := signature; idem_receipt := rc |}
  | Err e => infrastructure e ∨ e = key_conflict ∧ idem_signature b ≠ signature
  end.
Lemma replay_answers b signature :
  answers_from b signature (replay signature (idem_signature b, idem_receipt b)).
Proof.
  destruct (replay _ _) as [rc|e] eqn:E; simpl.
  - apply replay_Ok in E. destruct b. simpl in E. congruence.
  - apply replay_Err in E. auto.
Qed.

Lemma bound_key_replays fs p key b s s' r :
  service_ok s → idempotent_submit_jobs (sview s) !! key = Some b →
  submit_under_key fs p key s = (s', r) →
  runs s' = runs s ∧ answers_from b (pre_signature p) r.
Proof.
  intros Hok Hb. unfold submit_under_key, lookup_cache, lock_mutex.
  destruct (mx_poisoned (sv_cache s)); [intros [= <- <-]; split; [done|by left]|]. simpl.
  destruct (cache_lookup (mx_value (sv_cache s)) key) as [c|] eqn:Hc.
  { apply cache_lookup_elem, (so_coherent _ Hok) in Hc. rewrite Hc in Hb. injection Hb as <-.
    intros [= <- <-]. split; [done|]. apply (replay_answers (stored_as c)). }
  destruct (read_store _ s) as [s1 [o|e]] eqn:E1; pose proof (read_store_spec _ _ _ _ E1) as Hr;
    apply calm_read in E1 as [[Hs He] Hcache]; [|intros [= <- <-]; split; [done|by left]].
  injection Hr as <-.
  assert (Hok1 : service_ok s1) by (by eapply store_move_ok).
  assert (Hb1 : idempotent_submit_jobs (sview s1) !! key = Some b).
  { eapply lookup_weaken; [exact Hb|]. apply le_receipts, store_steps_le; [apply Hok|done]. }
  rewrite Hb1. unfold slift. pose proof (replay_answers b (pre_signature p)) as Ha.
  destruct (replay _ _) as [rc|e] eqn:Erep; [|intros [= <- <-]; by split].
  destruct (insert_cache _ _ s1) as [s2 r2] eqn:E2. apply insert_cache_ok in E2 as (_ & Hw & Hr2); [|done|].
  - unfold sret, runs. destruct r2 as [u|e]; intros [= <- <-]; rewrite Hw; (split; [done|]); [done|].
    left. by destruct Hr2 as [reason ->].
  - simpl in Ha. by subst b.
Qed.

Lemma run_submission_binds fs p key signature s s' rc :
  service_ok s →
  run_submission fs p (Some (make_submit_job_finalizer key signature)) s = (s', Ok rc) →
  job_status (rcp_job rc) = Succeeded →
  idempotent_submit_jobs (sview s') !! key =
    Some {| idem_signature := signature; idem_receipt := rc |}.
Proof.
  intros Hok. unfold run_submission, slift, runtime. do 2 (case_match; [|done]).
  destruct (run_tool_job_with_finalizer _ _ _ _ _) as [w x] eqn:E. intros [= <- Hx] Hsucc.
  apply map_err_Ok in Hx. subst x. apply run_binds_receipt in E; [exact E|apply Hok|done].
Qed.

(** What a submission under a key guarantees when it is over. *)
Definition settled p key s (s' : ServiceState) (r : ServiceResult RuntimeJobReceipt) : Prop :=
  service_ok s' ∧ rtc store_step (sview s) (sview s') ∧
  ∀ rc, r = Ok rc → job_status (rcp_job rc) = Succeeded →
    idempotent_submit_jobs (sview s') !! key =
      Some {| idem_signature := pre_signature p; idem_receipt := rc |}.

Lemma settled_error p key s s' e : service_ok s' → rtc store_step (sview s) (sview s') →
  settled p key s s' (Err e).
Proof. intros. unfold settled. by split_and!. Qed.

(** The receipt enters the cache last. *)
Lemma settled_insert p key c s1 s s' r :
  service_ok s → rtc store_step (sview s1) (sview s) → isj_signature c = pre_signature p →
  idempotent_submit_jobs (sview s) !! key = Some (stored_as c) →
  (let! _ := insert_cache key c in sret (isj_receipt c)) s = (s', r) → settled p key s1 s' r.
Proof.
  intros Hok Hs Hsig Hb. cbv beta. destruct (insert_cache key c s) as [s2 r2] eqn:E2.
  apply insert_cache_ok in E2 as (Hok2 & Hw & Hr2); [|done..]. unfold sret.
  assert (Hv : sview s2 = sview s) by (unfold sview; by rewrite Hw).
  unfold settled. destruct r2; intros [= <- <-]; (split_and!; [done|by rewrite Hv|]); [|done].
  intros rc [= <-] _. rewrite Hv, Hb. unfold stored_as. by rewrite Hsig.
Qed.

Lemma submit_under_key_settled fs p key s s' r :
  service_ok s → submit_under_key fs p key s = (s', r) → settled p key s s' r.
Proof.
  intros Hok. unfold submit_under_key, lookup_cache, lock_mutex.
  destruct (mx_poisoned (sv_cache s)); [intros [= <- <-]; by apply settled_error|]. simpl.
  destruct (cache_lookup (mx_value (sv_cache s)) key) as [c|] eqn:Hc.
  { intros [= <- <-]. unfold settled. split_and!; [done..|]. intros rc Hrc _. apply replay_Ok in Hrc.
    apply cache_lookup_elem, (so_coherent _ Hok) in Hc. rewrite Hc. unfold stored_as. congruence. }
  destruct (read_store _ s) as [s1 [o|e]] eqn:E1; pose proof (read_store_spec _ _ _ _ E1) as Hr;
    apply (calm_keeps _ (calm_read _)) in E1 as [Hok1 Hs1];
    [|done|intros [= <- <-]; by apply settled_error|done].
  injection Hr as <-. destruct (idempotent_submit_jobs (sview s1) !! key) as [b|] eqn:Hb.
  - unfold slift. destruct (replay _ _) as [rc|e] eqn:Erep; [|intros [= <- <-]; by apply settled_error].
    apply replay_Ok in Erep. destruct b as [sig rc']. simpl in Erep. simplify_eq/=.
    intros E. by eapply (settled_insert _ _ {| isj_signature := pre_signature p; isj_receipt := rc |}).
  - destruct (run_submission _ _ _ s1) as [s2 [rc|e]] eqn:E2; pose proof E2 as Hrun;
      apply keeps_run in E2 as [Hok2 Hs2]; [|done| |done];
      (assert (Hs : rtc store_step (sview s) (sview s2)) by (by etrans));
      [|intros [= <- <-]; by apply settled_error].
    case_bool_decide as Hsucc.
    + intros E. eapply (settled_insert _ _ {| isj_signature := pre_signature p; isj_receipt := rc |});
        [exact Hok2|exact Hs|done| |exact E].
      exact (run_submission_binds _ _ _ _ _ _ _ Hok1 Hrun Hsucc).
    + intros [= <- <-]. unfold settled. split_and!; [done|done|]. by intros rc' [= <-].
Qed.

(** ** The whole handler *)

Lemma prepare_Ok request s s' p :
  prepare_submission request s = (s', Ok p) →
  ∃ caps, normalize_requested_capabilities (sub_requested_capabilities request) = Ok caps ∧
    normalize_idempotency_key (sub_idempotency_key request) = Ok (pre_key p) ∧
    pre_signature p = submit_job_request_signature request
      (normalize_submit_job_goal (sub_goal request)) caps.
Proof.
  unfold prepare_submission, slift. destruct (normalize_requested_capabilities _) as [caps|]; [|done].
  destruct (resolve_submit_job_tool_kind _ _); [|done].
  destruct (read_store _ s) as [s1 [repository|]]; [|done].
  destruct (resolve_submit_job_tool_args _ _); [|done].
  destruct (normalize_idempotency_key _) as [key|]; [|done].
  destruct (get_tool_output_defaults _ s1) as [s2 [d|]]; [|done].
  intros [= <- <-]. exists caps. by split_and!.
Qed.
End Service.

(** * The properties of job submission *)

(** What identifies a request to its retries; [None] when it is not valid. *)
Definition request_identity (request : SubmitJobRequest) : option SubmitJobRequestSignature :=
  match normalize_requested_capabilities (sub_requested_capabilities request) with
  | Ok capabilities =>
      Some (signature_of request (normalize_submit_job_goal (sub_goal request)) capabilities)
  | Err _ => None
  end.

(** The key a request carries, trimmed. *)
Definition has_key (request : SubmitJobRequest) (key : string) : Prop :=
  normalize_idempotency_key (sub_idempotency_key request) = Ok (Some key).

Definition is_invalid_argument (e : ServiceError) : Prop :=
  match e with SvcInvalidArgument _ => True | _ => False end.

Lemma push_capabilities_Err l acc e : push_capabilities acc l = Err e → is_invalid_argument e.
Proof.
  revert acc; induction l as [|x l IH]; intros acc; simpl; [done|].
  destruct (push_capability acc x) as [acc'|e'] eqn:E; [apply IH|]. intros [= <-].
  unfold push_capability in E. repeat case_match; simplify_eq; try done.
  unfold ok_or in *. by case_match; simplify_eq.
Qed.
Lemma normalize_capabilities_Err l e : normalize_requested_capabilities l = Err e → is_invalid_argument e.
Proof.
  unfold normalize_requested_capabilities. destruct (push_capabilities [] l) as [|e'] eqn:E; [done|].
  intros [= <-]. by apply push_capabilities_Err in E.
Qed.
Lemma resolve_kind_Err request caps e : resolve_submit_job_tool_kind request caps = Err e → is_invalid_argument e.
Proof.
  unfold resolve_submit_job_tool_kind, ok_or. intros E. repeat case_match; by simplify_eq.
Qed.
Lemma required_text_Err o m e : required_text o m = Err e → is_invalid_argument e.
Proof. unfold required_text, ok_or. intros E. repeat case_match; by simplify_eq. Qed.
Lemma to_usize_Err m o e : to_usize m o = Err e → is_invalid_argument e.
Proof. unfold to_usize. intros E. repeat case_match; by simplify_eq. Qed.
Lemma resolve_args_Err kind args e : resolve_submit_job_tool_args kind args = Err e → is_invalid_argument e.
Proof.
  unfold resolve_submit_job_tool_args, resolve_search_args, resolve_write_args, resolve_patch_args,
    resolve_move_args, resolve_diff_args, ok_or.
  intros E. repeat case_match; simplify_eq; try done; by eauto using required_text_Err, to_usize_Err.
Qed.

Section Guarantees.
Context `{UuidLib} `{RegistryPort} `{Entropy} `{Renderer} `{ArtifactDefaults} `{ToolPort}.
Context `{SignatureCodec}.
Context {S F : Type} `{!StoreBackend S} `{!StoreBackendLaws S} `{!ArtifactWriter string F}.
Abbreviation ServiceState := (ServiceState (S := S) (F := F)).
Implicit Types (s : ServiceState) (fs : FileSystem).

Lemma prepare_Err request s s' e :
  prepare_submission request s = (s', Err e) → infrastructure e ∨ is_invalid_argument e.
Proof.
  unfold prepare_submission, slift.
  destruct (normalize_requested_capabilities _) eqn:E1;
    [|intros [= <- <-]; by apply normalize_capabilities_Err in E1; right].
  destruct (resolve_submit_job_tool_kind _ _) eqn:E2; [|intros [= <- <-]; right; by eapply resolve_kind_Err].
  destruct (read_store _ s) as [s1 [repository|]] eqn:E3; apply read_store_spec in E3;
    [|intros [= <- <-]; by left].
  destruct (resolve_submit_job_tool_args _ _) eqn:E4; [|intros [= <- <-]; right; by eapply resolve_args_Err].
  destruct (normalize_idempotency_key _) eqn:E5.
  - unfold get_tool_output_defaults, lock_mutex. destruct (mx_poisoned _); [|done]. intros [= <- <-]. by left.
  - intros [= <- <-]. right. unfold normalize_idempotency_key in E5. repeat case_match; by simplify_eq.
Qed.

(** With a key, the handler fails before the lock or is the submission under it. *)
Lemma submit_with_key fs request key s s' r :
  has_key request key → submit_job fs request s = (s', r) →
  (evolves (sv_world s) (sv_world s') ∧ cached s' = cached s ∧
   ∃ e, r = Err e ∧ (infrastructure e ∨ is_invalid_argument e)) ∨
  ∃ s1 s2 p r2 identity, evolves (sv_world s) (sv_world s1) ∧ cached s1 = cached s ∧
    request_identity request = Some identity ∧ pre_signature p = signature_to_string identity ∧
    submit_under_key fs p key s1 = (s2, r2) ∧ sv_world s' = sv_world s2 ∧ cached s' = cached s2 ∧
    (r = r2 ∨ ∃ reason, r = Err (SvcInternal reason)).
Proof.
  intros Hkey. unfold submit_job.
  destruct (prepare_submission request s) as [s1 [p|e]] eqn:E1; pose proof E1 as Hp;
    apply calm_prepare in E1 as [Hev1 Hc1].
  2: { intros [= <- <-]. left. apply prepare_Err in Hp. eauto. }
  apply prepare_Ok in Hp as (caps & Hcaps & Hk & Hsig). rewrite Hkey in Hk. injection Hk as <-.
  destruct (acquire_key key s1) as [s2 [[]|e]] eqn:E2; pose proof E2 as Ha;
    apply calm_acquire in E2 as [Hev2 Hc2].
  2: { intros [= <- <-]. left. split_and!; [by eapply evolves_trans|congruence|].
       unfold acquire_key, lock_mutex in Ha. exists e. split; [done|].
       repeat case_match; simplify_eq; by left. }
  destruct (enter_key key s2) as [s3 [[]|e]] eqn:E3; pose proof E3 as He;
    apply calm_enter in E3 as [Hev3 Hc3].
  2: { intros [= <- <-]. left. split_and!; [eauto using evolves_trans|congruence|].
       unfold enter_key in He. exists e. split; [done|]. repeat case_match; simplify_eq; by left. }
  destruct (submit_under_key fs p key s3) as [s4 r4] eqn:E4.
  destruct (release_key key s4) as [s5 r5] eqn:E5. pose proof E5 as Hr.
  assert (Hw : sv_world s5 = sv_world s4 ∧ (∀ e, r5 = Err e → ∃ reason, e = SvcInternal reason)).
  { unfold release_key, lock_mutex in Hr. repeat case_match; simplify_eq; (split; [done|]); naive_solver. }
  apply calm_release in E5 as [_ Hc5]. destruct Hw as [Hw Herr]. intros E. right.
  exists s3, s4, p, r4, (signature_of request (normalize_submit_job_goal (sub_goal request)) caps).
  unfold request_identity. rewrite Hcaps.
  split_and!; try done; [eauto using evolves_trans|congruence|..].
  - destruct r5; by injection E as <- <-.
  - destruct r5; injection E as <- <-; done.
  - destruct r5; injection E as <- <-; [by left|right]. destruct (Herr _ eq_refl) as [reason ->]. eauto.
Qed.

Lemma keeps_submit fs request : keeps (submit_job fs request).
Proof.
  intros s s' r Hok E.
  destruct (normalize_idempotency_key (sub_idempotency_key request)) as [[key|]|e] eqn:Hkey.
  - destruct (submit_with_key _ _ key _ _ _ Hkey E) as [((Hs & _) & Hc & _)|
      (s1 & s2 & p & r2 & identity & [Hs _] & Hc & _ & _ & E2 & Hw & Hc' & _)].
    { split; [by eapply store_move_ok|done]. }
    apply submit_under_key_settled in E2 as (Hok2 & Hs2 & _); [|by eapply store_move_ok].
    assert (Hv : sview s' = sview s2) by (unfold sview; by rewrite Hw).
    split; [eapply (store_move_ok s2); [done|by rewrite Hv|done]|rewrite Hv; by etrans].
  - unfold submit_job in E. destruct (prepare_submission request s) as [s1 [p|e]] eqn:E1; pose proof E1 as Hp;
      apply (calm_keeps _ (calm_prepare request)) in E1 as [Hok1 Hs1]; [|done|by injection E as <- <-|done].
    apply prepare_Ok in Hp as (caps & _ & Hk & _). rewrite Hkey in Hk. injection Hk as Hk.
    rewrite <- Hk in E. apply keeps_run in E as [Hok2 Hs2]; [|done]. split; [done|by etrans].
  - unfold submit_job in E. destruct (prepare_submission request s) as [s1 [p|e']] eqn:E1; pose proof E1 as Hp;
      apply (calm_keeps _ (calm_prepare request)) in E1 as [Hok1 Hs1]; [|done|by injection E as <- <-|done].
    apply prepare_Ok in Hp as (caps & _ & Hk & _). congruence.
Qed.

(** ** Everything that happens to a daemon's state *)

Inductive service_step : ServiceState → ServiceState → Prop :=
  | step_submit fs request s s' r : submit_job fs request s = (s', r) → service_step s s'
  | step_cancel i reason requester s s' r :
      cancel_job_request i reason requester s = (s', r) → service_step s s'
  | step_settings actor scope update reason s s' r :
      update_tool_output_defaults actor scope update reason s = (s', r) → service_step s s'
  | step_check_policy request s s' r : check_policy request s = (s', r) → service_step s s'
  | step_render i format s s' r : render_tool_output i format s = (s', r) → service_step s s'
  (** Other threads: their calls of the store. *)
  | step_others s w : rtc store_step (sview s) (view w) → service_step s (with_world s w)
  (** A restart on the same store: the memory of the process is gone. *)
  | step_restart s s' : sview s' = sview s → cached s' = [] → service_step s s'.

Lemma service_step_keeps s s' :
  service_ok s → service_step s s' → service_ok s' ∧ rtc store_step (sview s) (sview s').
Proof.
  intros Hok Hstep. revert Hok.
  destruct Hstep as [fs request ?? r E|i reason requester ?? r E|actor scope update reason ?? r E
    |request ?? r E|i format ?? r E|? w Hs|?? Hv Hc]; intros Hok.
  - exact (keeps_submit _ _ _ _ _ Hok E).
  - eapply calm_keeps; [apply calm_cancel|done|exact E].
  - eapply calm_keeps; [apply calm_settings|done|exact E].
  - eapply calm_keeps; [apply calm_policy|done|exact E].
  - eapply calm_keeps; [apply calm_render|done|exact E].
  - split; [by eapply store_move_ok|done].
  - rewrite Hv. split; [|done]. destruct Hok as [Hwf _ _]. split.
    + by rewrite Hv.
    + rewrite Hc. split; [apply NoDup_nil_2|simpl; lia].
    + rewrite Hc. by intros key c ?%not_elem_of_nil.
Qed.
Lemma service_steps_keep s s' :
  service_ok s → rtc service_step s s' → service_ok s' ∧ rtc store_step (sview s) (sview s').
Proof.
  intros Hok Hs. induction Hs as [|s1 s2 s3 H12 _ IH]; [done|].
  apply service_step_keeps in H12 as [Hok2 Hs2]; [|done].
  destruct (IH Hok2) as [Hok3 Hs3]. split; [done|by etrans].
Qed.

(** The cache of receipts is only ever a copy of the store.  Whatever
    requests, restarts and calls of other threads a daemon sees after its start,
    the cache holds at most 256 receipts, one per key, each of them the durable
    receipt of its key. *)
Theorem cached_receipts_are_durable s s' key c :
  store_wf (sview s) → cached s = [] → rtc service_step s s' →
  length (cached s') ≤ IDEMPOTENT_SUBMISSION_CACHE_LIMIT ∧ NoDup (cached s').*1 ∧
  (cache_lookup (cached s') key = Some c →
   idempotent_submit_jobs (sview s') !! key =
     Some {| idem_signature := isj_signature c; idem_receipt := isj_receipt c |}).
Proof.
  intros Hwf Hc Hs. apply service_steps_keep in Hs as [[_ [Hn Hb] Hco] _].
  - split_and!; [done..|]. intros Hl%cache_lookup_elem. by apply Hco.
  - split; [done|rewrite Hc; split; [apply NoDup_nil_2|simpl; lia]|].
    rewrite Hc. by intros ?? ?%not_elem_of_nil.
Qed.

(** C38: a submission is carried out once per key.  After a submission under a
    key has succeeded, and whatever happens to the daemon afterwards, restarts
    included, a submission under the same key runs no tool; it returns the very
    receipt of the first one, and then it is the same request; a different
    request is refused as a conflict, and no other refusal is possible but of an
    invalid request or by a failing lock or store. *)
Theorem submissions_run_once_per_key `{!SignatureCodecLaws} fs request key s s1 rc s2 fs' request' s3 r :
  service_ok s → has_key request key → has_key request' key →
  submit_job fs request s = (s1, Ok rc) → job_status (rcp_job rc) = Succeeded →
  rtc service_step s1 s2 → submit_job fs' request' s2 = (s3, r) →
  runs s3 = runs s2 ∧
  match r with
  | Ok rc' => rc' = rc ∧ request_identity request' = request_identity request
  | Err e => infrastructure e ∨ is_invalid_argument e ∨
      e = key_conflict ∧ request_identity request' ≠ request_identity request
  end.
Proof.
  intros Hok Hkey Hkey' E1 Hsucc Hsteps E2.
  destruct (keeps_submit _ _ _ _ _ Hok E1) as [Hok1 _].
  destruct (service_steps_keep _ _ Hok1 Hsteps) as [Hok2 Hs2].
  destruct (submit_with_key _ _ _ _ _ _ Hkey E1) as [(_ & _ & ? & ? & _)|
    (sa & sb & p & ra & identity & [Hsa _] & Hca & Hid & Hsig & Ea & Hwa & _ & Hra)]; [done|].
  destruct Hra as [<-|[? ?]]; [|done].
  apply submit_under_key_settled in Ea as (_ & _ & Hb); [|by eapply (store_move_ok s)].
  specialize (Hb rc eq_refl Hsucc).
  assert (Hb2 : idempotent_submit_jobs (sview s2) !! key =
            Some {| idem_signature := pre_signature p; idem_receipt := rc |}).
  { eapply lookup_weaken; [unfold sview in Hb |- *; rewrite <- Hwa in Hb; exact Hb|].
    apply le_receipts, store_steps_le; [apply Hok1|done]. }
  destruct (submit_with_key _ _ _ _ _ _ Hkey' E2) as [([_ Hx] & _ & e & -> & He)|
    (sc & sd & q & rd & identity' & [Hsc Hxc] & Hcc & Hid' & Hsig' & Ed & Hwd & _ & Hrd)].
  { split; [exact Hx|]. destruct He; auto. }
  apply (bound_key_replays _ _ _ {| idem_signature := pre_signature p; idem_receipt := rc |}) in Ed
    as [Hrun Ha]; [| |eapply lookup_weaken; [exact Hb2|]].
  - split; [unfold runs in *; rewrite Hwd; congruence|]. rewrite Hid, Hid', Hsig, Hsig' in *.
    destruct Hrd as [->|[reason ->]]; [|by left].
    destruct rd as [rc'|e]; simpl in Ha.
    + injection Ha as Ha <-. split; [done|]. f_equal. apply signature_inj. congruence.
    + destruct Ha as [?|[-> Hne]]; [by left|right; right]. split; [done|]. congruence.
  - by eapply (store_move_ok s2).
  - apply le_receipts, store_steps_le; [apply Hok2|done].
Qed.
End Guarantees.
