(* ===== verification/KeyLocks.v ===== *)
(** * KeyLocks: threads submitting under idempotency keys
    ([submit_job] of [crates/ateliad/src/service.rs])

    The handler clones the lock of its key out of a shared map, works under it,
    and removes the map's entry when its reference count shows no other user.
    Here the threads of the daemon take those steps in any order.  A lock is an
    object with an identity: after its entry is removed, a later request makes a
    new one, and the two do not exclude each other.  A thread may panic while it
    holds a guard: the lock is poisoned, and the handler then leaves early, without
    the clean-up.  The lock of the map itself is held only over one lookup, insertion
    or removal, which do not panic, so that it is never poisoned. *)
From S2P Require Import Prelude Text.
From stdpp Require Import fin_maps gmap fin_map_dom.

Definition Key := string.
Definition LockId := nat.
Definition ThreadId := nat.

(** Where a thread is in the handler. *)
Inductive Phase :=
  | Cloned (key : Key) (l : LockId)     (* has the [Arc], waits for the lock *)
  | Inside (key : Key) (l : LockId)     (* has the guard, looks for a receipt *)
  | Running (key : Key) (l : LockId)    (* found none, runs the tool *)
  | Released (key : Key) (l : LockId)   (* dropped the guard *)
  | Dropped (key : Key).                (* dropped the [Arc], cleans up *)

(** The [Arc] a thread holds, with its key. *)
Definition arc (p : Phase) : option (Key * LockId) :=
  match p with
  | Cloned key l | Inside key l | Running key l | Released key l => Some (key, l)
  | Dropped _ => None
  end.
(** The guard a thread holds. *)
Definition guard (p : Phase) : option (Key * LockId) :=
  match p with Inside key l | Running key l => Some (key, l) | _ => None end.

Record LockState := {
  ls_map : gmap Key LockId;
  ls_next : LockId;                  (* the next lock object *)
  ls_threads : gmap ThreadId Phase;
  ls_poisoned : gset LockId;         (* a thread panicked under them *)
  ls_bound : gset Key;               (* keys with a durable receipt *)
  ls_succeeded : list Key            (* the runs that succeeded, in order *)
}.
Definition set_thread (s : LockState) (t : ThreadId) (p : Phase) : LockState := {|
  ls_map := ls_map s; ls_next := ls_next s; ls_threads := <[t := p]> (ls_threads s);
  ls_poisoned := ls_poisoned s; ls_bound := ls_bound s; ls_succeeded := ls_succeeded s |}.

(** A thread is gone. *)
Definition leave (s : LockState) (t : ThreadId) : LockState := {|
  ls_map := ls_map s; ls_next := ls_next s; ls_threads := delete t (ls_threads s);
  ls_poisoned := ls_poisoned s; ls_bound := ls_bound s; ls_succeeded := ls_succeeded s |}.
Definition poison (s : LockState) (l : LockId) : LockState := {|
  ls_map := ls_map s; ls_next := ls_next s; ls_threads := ls_threads s;
  ls_poisoned := {[l]} ∪ ls_poisoned s; ls_bound := ls_bound s; ls_succeeded := ls_succeeded s |}.
(** A run has succeeded and its receipt is durable. *)
Definition succeed (s : LockState) (t : ThreadId) (key : Key) (l : LockId) : LockState := {|
  ls_map := ls_map s; ls_next := ls_next s; ls_threads := <[t := Released key l]> (ls_threads s);
  ls_poisoned := ls_poisoned s; ls_bound := {[key]} ∪ ls_bound s; ls_succeeded := ls_succeeded s ++ [key] |}.

(** [Arc::strong_count] of the map's lock: the map and the threads. *)
Definition holds (l : LockId) (p : Phase) : Prop := snd <$> arc p = Some l.
#[export] Instance holds_dec l p : Decision (holds l p).
Proof. unfold holds. apply _. Defined.
Definition strong_count (s : LockState) (l : LockId) : nat :=
  S (size (filter (λ tp, holds l tp.2) (ls_threads s))).

Inductive lock_step : LockState → LockState → Prop :=
  (** [locks.entry(key).or_insert_with(..).clone()]: the entry is there, or new. *)
  | step_clone s t key l :
      ls_threads s !! t = None → ls_map s !! key = Some l →
      lock_step s (set_thread s t (Cloned key l))
  | step_create s t key :
      ls_threads s !! t = None → ls_map s !! key = None →
      lock_step s {| ls_map := <[key := ls_next s]> (ls_map s); ls_next := S (ls_next s);
                     ls_threads := <[t := Cloned key (ls_next s)]> (ls_threads s);
                     ls_poisoned := ls_poisoned s; ls_bound := ls_bound s; ls_succeeded := ls_succeeded s |}
  (** [key_lock.lock()]: nobody holds a guard of that lock, and it is not poisoned. *)
  | step_enter s t key l :
      ls_threads s !! t = Some (Cloned key l) → l ∉ ls_poisoned s →
      (∀ t' p key', ls_threads s !! t' = Some p → guard p ≠ Some (key', l)) →
      lock_step s (set_thread s t (Inside key l))
  (** A poisoned lock: the handler returns at once and drops its [Arc]. *)
  | step_refuse s t key l :
      ls_threads s !! t = Some (Cloned key l) → l ∈ ls_poisoned s →
      lock_step s (leave s t)
  (** A panic unwinds: the guard poisons its lock, and the [Arc] is dropped.  The
      receipt of a run may be durable by then. *)
  | step_panic s t p key l :
      ls_threads s !! t = Some p → guard p = Some (key, l) →
      lock_step s (poison (leave s t) l)
  | step_panic_late s t key l :
      ls_threads s !! t = Some (Running key l) →
      lock_step s (poison (leave (succeed s t key l) t) l)
  (** The key has a receipt: it is replayed, or refused as a conflict. *)
  | step_replay s t key l :
      ls_threads s !! t = Some (Inside key l) → key ∈ ls_bound s →
      lock_step s (set_thread s t (Released key l))
  | step_run s t key l :
      ls_threads s !! t = Some (Inside key l) → key ∉ ls_bound s →
      lock_step s (set_thread s t (Running key l))
  (** The run succeeds and its receipt is durable, or it does not. *)
  | step_succeed s t key l :
      ls_threads s !! t = Some (Running key l) →
      lock_step s (succeed s t key l)
  | step_fail s t key l :
      ls_threads s !! t = Some (Running key l) →
      lock_step s (set_thread s t (Released key l))
  (** [drop(key_lock)] *)
  | step_drop s t key l :
      ls_threads s !! t = Some (Released key l) →
      lock_step s (set_thread s t (Dropped key))
  (** The clean-up: the entry goes when only the map has the lock. *)
  | step_clean s t key :
      ls_threads s !! t = Some (Dropped key) →
      lock_step s {| ls_map := match ls_map s !! key with
                               | Some l => if (strong_count s l =? 1)%nat
                                           then delete key (ls_map s) else ls_map s
                               | None => ls_map s
                               end;
                     ls_next := ls_next s; ls_threads := delete t (ls_threads s);
                     ls_poisoned := ls_poisoned s; ls_bound := ls_bound s; ls_succeeded := ls_succeeded s |}.

Definition no_threads (bound : gset Key) : LockState := {|
  ls_map := ∅; ls_next := 0; ls_threads := ∅; ls_poisoned := ∅; ls_bound := bound; ls_succeeded := [] |}.

(** ** Invariant *)

Record lock_inv (bound : gset Key) (s : LockState) : Prop := {
  (** A thread's lock is the one the map has for its key. *)
  li_arc t p key l : ls_threads s !! t = Some p → arc p = Some (key, l) →
    ls_map s !! key = Some l;
  (** Different keys have different locks, all of them made already. *)
  li_inj key key' l : ls_map s !! key = Some l → ls_map s !! key' = Some l → key = key';
  li_next key l : ls_map s !! key = Some l → l < ls_next s;
  (** A lock has one guard. *)
  li_guard t t' p p' key key' l : ls_threads s !! t = Some p → ls_threads s !! t' = Some p' →
    guard p = Some (key, l) → guard p' = Some (key', l) → t = t';
  (** A tool runs only under a key without a receipt. *)
  li_running t key l : ls_threads s !! t = Some (Running key l) → key ∉ ls_bound s;
  (** The keys bound since the start are those of the successful runs. *)
  li_bound : ls_bound s = bound ∪ list_to_set (ls_succeeded s);
  li_once : NoDup (ls_succeeded s);
  li_fresh key : key ∈ ls_succeeded s → key ∉ bound
}.

Lemma guard_arc p x : guard p = Some x → arc p = Some x.
Proof. by destruct p. Qed.

Lemma no_threads_inv bound : lock_inv bound (no_threads bound).
Proof.
  split; simpl; try (intros *; rewrite lookup_empty; done).
  - set_solver.
  - apply NoDup_nil_2.
  - by intros key ?%not_elem_of_nil.
Qed.

(** The last user is gone when the count is one. *)
Lemma strong_count_one s l t p :
  strong_count s l = 1 → ls_threads s !! t = Some p → ¬ holds l p.
Proof.
  unfold strong_count. intros [= Hsize]%eq_add_S Ht Hh.
  apply map_size_empty_inv in Hsize.
  assert (Hl : filter (λ tp, holds l tp.2) (ls_threads s) !! t = Some p)
    by (by apply map_lookup_filter_Some).
  by rewrite Hsize, lookup_empty in Hl.
Qed.

(** A thread moves on, within what the invariant allows it. *)
Lemma thread_inv bound s t p :
  lock_inv bound s →
  (∀ key l, arc p = Some (key, l) → ls_map s !! key = Some l) →
  (∀ key l, guard p = Some (key, l) →
     ∀ t' p' key', t' ≠ t → ls_threads s !! t' = Some p' → guard p' ≠ Some (key', l)) →
  (∀ key l, p = Running key l → key ∉ ls_bound s) →
  lock_inv bound (set_thread s t p).
Proof.
  intros [Harc Hinj Hnext Hguard Hrun Hbound Honce Hfresh] Hp Hg Hr. split; simpl; try done.
  - intros t' p' key l [[<- <-]|[Hne Ht]]%lookup_insert_Some; eauto.
  - intros t1 t2 p1 p2 key1 key2 l [[<- <-]|[Hne1 H1]]%lookup_insert_Some
      [[<- <-]|[Hne2 H2]]%lookup_insert_Some G1 G2; [done| | |by eapply Hguard].
    + by destruct (Hg _ _ G1 _ _ key2 (not_eq_sym Hne2) H2).
    + by destruct (Hg _ _ G2 _ _ key1 (not_eq_sym Hne1) H1).
  - intros t' key l [[<- ->]|[Hne Ht]]%lookup_insert_Some; eauto.
Qed.

(** The guard a thread keeps is its own. *)
Lemma own_guard bound s t p key l :
  lock_inv bound s → ls_threads s !! t = Some p → guard p = Some (key, l) →
  ∀ t' p' key', t' ≠ t → ls_threads s !! t' = Some p' → guard p' ≠ Some (key', l).
Proof. intros Hinv Ht G t' p' key' Hne Ht' G'. apply Hne. by eapply (li_guard _ _ Hinv). Qed.

Lemma create_inv bound s t key :
  lock_inv bound s → ls_threads s !! t = None → ls_map s !! key = None →
  lock_inv bound {| ls_map := <[key := ls_next s]> (ls_map s); ls_next := S (ls_next s);
                    ls_threads := <[t := Cloned key (ls_next s)]> (ls_threads s);
                    ls_poisoned := ls_poisoned s; ls_bound := ls_bound s; ls_succeeded := ls_succeeded s |}.
Proof.
  intros [Harc Hinj Hnext Hguard Hrun Hbound Honce Hfresh] Ht Hkey. split; simpl; try done.
  - intros t' p key' l [[<- <-]|[Hne Ht']]%lookup_insert_Some Ha.
    + injection Ha as <- <-. by rewrite lookup_insert_eq.
    + rewrite lookup_insert_ne; [by eapply Harc|]. intros <-.
      pose proof (Harc _ _ _ _ Ht' Ha). congruence.
  - intros k1 k2 l [[<- <-]|[Hne1 H1]]%lookup_insert_Some [[<- E]|[Hne2 H2]]%lookup_insert_Some;
      [done| | |by eapply Hinj].
    + apply Hnext in H2. lia.
    + apply Hnext in H1. lia.
  - intros k l [[<- <-]|[Hne H]]%lookup_insert_Some; [lia|]. apply Hnext in H. lia.
  - intros t1 t2 p1 p2 k1 k2 l [[<- <-]|[Hne1 H1]]%lookup_insert_Some
      [[<- <-]|[Hne2 H2]]%lookup_insert_Some G1 G2; try done. by eapply Hguard.
  - intros t' k l [[<- ?]|[Hne Ht']]%lookup_insert_Some; [done|by eapply Hrun].
Qed.

Lemma clean_inv bound s t key :
  lock_inv bound s → ls_threads s !! t = Some (Dropped key) →
  lock_inv bound {| ls_map := match ls_map s !! key with
                              | Some l => if (strong_count s l =? 1)%nat
                                          then delete key (ls_map s) else ls_map s
                              | None => ls_map s
                              end;
                    ls_next := ls_next s; ls_threads := delete t (ls_threads s);
                    ls_poisoned := ls_poisoned s; ls_bound := ls_bound s; ls_succeeded := ls_succeeded s |}.
Proof.
  intros [Harc Hinj Hnext Hguard Hrun Hbound Honce Hfresh] Ht.
  set (m := match _ with Some _ => _ | None => _ end).
  assert (Hsub : ∀ k l, m !! k = Some l → ls_map s !! k = Some l).
  { unfold m. intros k l. repeat case_match; try done. by intros [_ ?]%lookup_delete_Some. }
  split; simpl; try done; eauto.
  - intros t' p k l [_ Ht']%lookup_delete_Some Ha. pose proof (Harc _ _ _ _ Ht' Ha) as Hk.
    unfold m. destruct (ls_map s !! key) as [l'|] eqn:Hkey; [|done].
    destruct (Nat.eqb_spec (strong_count s l') 1) as [H1|]; [|done].
    rewrite lookup_delete_ne; [done|]. intros <-. simplify_eq.
    apply (strong_count_one _ _ _ _ H1 Ht'). unfold holds. by rewrite Ha.
  - intros t1 t2 p1 p2 k1 k2 l [_ H1]%lookup_delete_Some [_ H2]%lookup_delete_Some. by eapply Hguard.
  - intros t' k l [_ Ht']%lookup_delete_Some. by eapply Hrun.
Qed.

Lemma succeed_inv bound s t key l :
  lock_inv bound s → ls_threads s !! t = Some (Running key l) → lock_inv bound (succeed s t key l).
Proof.
  intros Hinv Ht. pose proof (li_arc _ _ Hinv _ _ _ _ Ht eq_refl) as Hkey.
  pose proof (li_running _ _ Hinv _ _ _ Ht) as Hnew.
  assert (Hinv' : lock_inv bound (set_thread s t (Released key l))).
  { apply thread_inv; try done. by intros ?? [= <- <-]. }
  destruct Hinv' as [Harc Hinj Hnext Hguard Hrun Hbound Honce Hfresh]. split; simpl in *; try done.
  - intros t' k l' Ht'. rewrite not_elem_of_union, not_elem_of_singleton. split; [|by eapply Hrun].
    intros ->. apply lookup_insert_Some in Ht' as [[_ ?]|[Hne Ht']]; [done|].
    pose proof (li_arc _ _ Hinv _ _ _ _ Ht' eq_refl) as Hkey'. simplify_eq.
    apply Hne. symmetry. by eapply (li_guard _ _ Hinv t' t).
  - rewrite Hbound, list_to_set_app_L. set_solver.
  - apply NoDup_app. split_and!; [done| |apply NoDup_singleton].
    intros k Hk ->%list_elem_of_singleton. apply Hnew. rewrite Hbound. set_solver.
  - intros k [Hk|Hk]%elem_of_app; [by apply Hfresh|]. apply list_elem_of_singleton in Hk as ->.
    rewrite Hbound in Hnew. set_solver.
Qed.

Lemma leave_inv bound s t : lock_inv bound s → lock_inv bound (leave s t).
Proof.
  intros [Harc Hinj Hnext Hguard Hrun Hbound Honce Hfresh]. split; simpl; try done.
  - intros t' p k l [_ Ht']%lookup_delete_Some. by eapply Harc.
  - intros t1 t2 p1 p2 k1 k2 l [_ H1]%lookup_delete_Some [_ H2]%lookup_delete_Some. by eapply Hguard.
  - intros t' k l [_ Ht']%lookup_delete_Some. by eapply Hrun.
Qed.
Lemma poison_inv bound s l : lock_inv bound s → lock_inv bound (poison s l).
Proof. by intros []. Qed.

Lemma lock_step_inv bound s s' : lock_inv bound s → lock_step s s' → lock_inv bound s'.
Proof.
  intros Hinv Hstep. revert Hinv.
  destruct Hstep as [s t key l Ht Hkey|s t key Ht Hkey|s t key l Ht Hok Hfree|s t key l Ht Hb|s t p key l Ht G
    |s t key l Ht|s t key l Ht Hb|s t key l Ht Hb|s t key l Ht|s t key l Ht|s t key l Ht|s t key Ht]; intros Hinv;
    eauto using create_inv, succeed_inv, clean_inv, leave_inv, poison_inv;
    apply thread_inv; try done;
    try (intros ?? [= <- <-]; first [done | by eapply (li_arc _ _ Hinv)]).
  - intros ?? [= <- <-] t' p' key' _ Ht'. by eapply Hfree.
  - intros ?? [= <- <-]. by eapply own_guard.
Qed.

Lemma lock_steps_inv bound s : rtc lock_step (no_threads bound) s → lock_inv bound s.
Proof.
  apply (rtc_ind_r (λ s, lock_inv bound s)); [apply no_threads_inv|].
  intros s1 s2 _ Hstep Hinv. by eapply lock_step_inv.
Qed.

(** ** Every entry of the map has a user, or a poisoned lock *)

Definition phase_key (p : Phase) : Key :=
  match p with
  | Cloned key _ | Inside key _ | Running key _ | Released key _ | Dropped key => key
  end.
Lemma arc_key p key l : arc p = Some (key, l) → phase_key p = key.
Proof. destruct p; simpl; congruence. Qed.

Definition used (s : LockState) : Prop := ∀ key l, ls_map s !! key = Some l →
  l ∈ ls_poisoned s ∨ ∃ t p, ls_threads s !! t = Some p ∧ phase_key p = key.

(** A thread that stays under its key keeps its entry in use. *)
Lemma used_insert s s' t p :
  used s → ls_poisoned s' = ls_poisoned s → ls_threads s' = <[t := p]> (ls_threads s) →
  (∀ p0, ls_threads s !! t = Some p0 → phase_key p0 = phase_key p) →
  (∀ key l, ls_map s' !! key = Some l → key = phase_key p ∨ ls_map s !! key = Some l) → used s'.
Proof.
  intros Hu Hp Hts Ht Hm key l Hkey. rewrite Hp, Hts. destruct (Hm _ _ Hkey) as [->|Hk].
  { right. exists t, p. by rewrite lookup_insert_eq. }
  destruct (Hu _ _ Hk) as [?|(t' & p' & Ht' & <-)]; [by left|right]. destruct (decide (t = t')) as [<-|Hne].
  - exists t, p. rewrite lookup_insert_eq. split; [done|]. symmetry. by apply Ht.
  - exists t', p'. by rewrite lookup_insert_ne.
Qed.
(** A thread that leaves without the clean-up leaves a poisoned lock. *)
Lemma used_leave s s' t p key l :
  used s → ls_threads s !! t = Some p → phase_key p = key → ls_map s !! key = Some l →
  ls_map s' = ls_map s → ls_threads s' = delete t (ls_threads s) → ls_poisoned s ⊆ ls_poisoned s' →
  l ∈ ls_poisoned s' → used s'.
Proof.
  intros Hu Ht Hp Hl Hm Hts Hsub Hin k l' Hk. rewrite Hm in Hk. destruct (decide (k = key)) as [->|Hne].
  { left. by simplify_eq. }
  destruct (Hu _ _ Hk) as [?|(t' & p' & Ht' & <-)]; [left; set_solver|right]. exists t', p'. split; [|done].
  rewrite Hts, lookup_delete_ne; [done|]. intros <-. by simplify_eq.
Qed.

Lemma used_clean bound s t key :
  lock_inv bound s → used s → ls_threads s !! t = Some (Dropped key) →
  ∀ k l, match ls_map s !! key with
         | Some l => if (strong_count s l =? 1)%nat then delete key (ls_map s) else ls_map s
         | None => ls_map s
         end !! k = Some l →
  l ∈ ls_poisoned s ∨ ∃ t' p', delete t (ls_threads s) !! t' = Some p' ∧ phase_key p' = k.
Proof.
  intros Hinv Hu Ht k l Hk.
  assert (Hother : ∀ k l, ls_map s !! k = Some l → k ≠ key →
            l ∈ ls_poisoned s ∨ ∃ t' p', delete t (ls_threads s) !! t' = Some p' ∧ phase_key p' = k).
  { intros k' l' [?|(t' & p' & Ht' & <-)]%Hu Hne; [by left|right]. exists t', p'.
    rewrite lookup_delete_ne; [done|]. intros <-. by simplify_eq. }
  destruct (ls_map s !! key) as [l0|] eqn:Hkey; [|eapply Hother; [exact Hk|congruence]].
  destruct (Nat.eqb_spec (strong_count s l0) 1) as [H1|H1].
  { apply lookup_delete_Some in Hk as [Hne Hk]. by eapply Hother. }
  destruct (decide (k = key)) as [->|Hne]; [|by eapply Hother]. right.
  unfold strong_count in H1.
  destruct (map_choose (filter (λ tp, holds l0 tp.2) (ls_threads s))) as (t' & p' & Hf).
  { intros E. by rewrite E, map_size_empty in H1. }
  apply map_lookup_filter_Some in Hf as [Ht' Hh]. unfold holds in Hh. simpl in Hh.
  destruct (arc p') as [[k' l']|] eqn:Ha; [|done]. simpl in Hh. injection Hh as ->.
  pose proof (li_arc _ _ Hinv _ _ _ _ Ht' Ha) as Hk'.
  pose proof (li_inj _ _ Hinv _ _ _ Hk' Hkey) as ->. exists t', p'.
  rewrite lookup_delete_ne; [by rewrite (arc_key _ _ _ Ha)|]. intros <-. by simplify_eq.
Qed.

Lemma used_step bound s s' : lock_inv bound s → used s → lock_step s s' → used s'.
Proof.
  intros Hinv Hu Hstep. revert Hinv Hu.
  destruct Hstep as [s t key l Ht Hkey|s t key Ht Hkey|s t key l Ht Hok Hfree|s t key l Ht Hb|s t p key l Ht G
    |s t key l Ht|s t key l Ht Hb|s t key l Ht Hb|s t key l Ht|s t key l Ht|s t key l Ht|s t key Ht]; intros Hinv Hu;
    try (eapply used_insert; [done|done|done|intros p0; rewrite Ht; by intros [= <-] || done|by auto]).
  - eapply used_insert; [done|done|done|by rewrite Ht|]. simpl.
    intros k l [[<- <-]|[_ Hk]]%lookup_insert_Some; [by left|by right].
  - by eapply used_leave; [done|done|done|eapply (li_arc _ _ Hinv)|..].
  - apply guard_arc in G. eapply used_leave; [done|done|by eapply arc_key|by eapply (li_arc _ _ Hinv)|..]; set_solver.
  - eapply used_leave; [done|done|done|by eapply (li_arc _ _ Hinv)|done| | |]; simpl; [|set_solver..].
    by rewrite delete_insert_eq.
  - intros k l. exact (used_clean bound s t key Hinv Hu Ht k l).
Qed.

Lemma used_steps bound s : rtc lock_step (no_threads bound) s → used s.
Proof.
  intros Hs. apply (rtc_ind_r (λ s, lock_inv bound s ∧ used s)) in Hs as [_ ?]; [done| |].
  - split; [apply no_threads_inv|]. by intros key l Hl.
  - intros s1 s2 _ Hstep [Hinv Hu]. split; [by eapply lock_step_inv|by eapply used_step].
Qed.

(** ** After a panic *)

(** The poisoned lock is the map's, and threads under the key wait for it. *)
Definition blocked (key : Key) (s : LockState) : Prop :=
  ∃ l, ls_map s !! key = Some l ∧ l ∈ ls_poisoned s ∧
       ∀ t p, ls_threads s !! t = Some p → phase_key p = key → p = Cloned key l.
Lemma blocked_step key s s' : blocked key s → lock_step s s' → blocked key s'.
Proof.
  intros (l & Hl & Hp & Ht) Hstep. revert Hl Hp Ht.
  destruct Hstep as [s t k i Hk Hi|s t k Hk Hi|s t k i Hk Hok Hfree|s t k i Hk Hb|s t p k i Hk G
    |s t k i Hk|s t k i Hk Hb|s t k i Hk Hb|s t k i Hk|s t k i Hk|s t k i Hk|s t k Hk]; intros Hl Hp Ht; exists l; simpl;
    try (split_and!; [done|set_solver|]; intros t' p' [[<- <-]|[_ H]]%lookup_insert_Some; simpl; [|by eauto];
         intros <-; specialize (Ht _ _ Hk eq_refl); congruence);
    try (split_and!; [done|set_solver|]; intros t' p'; rewrite ?lookup_delete_Some, ?delete_insert_eq; naive_solver).
  - split_and!; [done..|]. intros t' p' [[<- <-]|[_ H]]%lookup_insert_Some; simpl; [|by eauto]. intros ->. congruence.
  - rewrite lookup_insert_ne by congruence. split_and!; [done..|].
    intros t' p' [[<- <-]|[_ H]]%lookup_insert_Some; simpl; [|by eauto]. intros ->. congruence.
  - split_and!; [done|set_solver|]. rewrite delete_insert_eq. intros t' p' [_ H]%lookup_delete_Some. by eauto.
  - split_and!; [|done|intros t' p' [_ H]%lookup_delete_Some; by eauto].
    assert (k ≠ key) by (intros ->; by specialize (Ht _ _ Hk eq_refl)).
    repeat case_match; try done. by rewrite lookup_delete_ne.
Qed.
(** A panic under a key that no other thread uses blocks it until the daemon
    restarts: every later request under the key is refused. *)
Theorem panics_block_their_key key s s' :
  blocked key s → rtc lock_step s s' →
  ∀ t l, ls_threads s' !! t ≠ Some (Inside key l) ∧ ls_threads s' !! t ≠ Some (Running key l).
Proof.
  intros Hb Hs t l. assert (blocked key s') as (i & _ & _ & Ht) by (by induction Hs; eauto using blocked_step).
  by split; intros E; specialize (Ht _ _ E eq_refl).
Qed.

(** C40: the locks of the keys exclude and do not leak.  Whatever the threads of
    the daemon do, panics under a key included, two threads are never inside the
    handler under one key, though entries of the map are removed while other
    threads use it; a tool starts under a key only while the key has no durable
    receipt; over any schedule every key succeeds at most once; and when no
    thread is left in the handler the map holds only locks that a panic has
    poisoned (none, if no thread panicked). *)
Theorem keys_are_exclusive bound s :
  rtc lock_step (no_threads bound) s →
  (∀ t t' p p' key l l', ls_threads s !! t = Some p → ls_threads s !! t' = Some p' →
     guard p = Some (key, l) → guard p' = Some (key, l') → t = t') ∧
  (∀ t key l, ls_threads s !! t = Some (Running key l) → key ∉ ls_bound s) ∧
  NoDup (ls_succeeded s) ∧ (∀ key, key ∈ ls_succeeded s → key ∉ bound) ∧
  (ls_threads s = ∅ → ∀ key l, ls_map s !! key = Some l → l ∈ ls_poisoned s).
Proof.
  intros Hs. pose proof (lock_steps_inv _ _ Hs) as Hinv. split_and!; [|apply Hinv..|].
  - intros t t' p p' key l l' Ht Ht' G G'.
    pose proof (li_arc _ _ Hinv _ _ _ _ Ht (guard_arc _ _ G)) as Hl.
    pose proof (li_arc _ _ Hinv _ _ _ _ Ht' (guard_arc _ _ G')) as Hl'. simplify_eq.
    by eapply (li_guard _ _ Hinv).
  - intros Hnone key l Hl. destruct (used_steps _ _ Hs _ _ Hl) as [?|(t & p & Ht & _)]; [done|].
    by rewrite Hnone in Ht.
Qed.
