(* ===== verification/Repositories.v ===== *)
(** * Repositories: registering and listing repositories, the history of the
    settings and the repertoire ([crates/ateliad/src/service.rs]) *)
From S2P Require Import Prelude Text Domain DomainLaws Policy StoreTypes Settings Truncation.
From S2P Require Import Spill StoreValidate StoreJobs Store StoreQuery StoreGuarantees.
From S2P Require Import Backend Runtime RunJob Paths Packages Tools Submission Service.

(** ** Registration *)

Record RegisterRepositoryRequest := {
  rrr_display_name : string;
  rrr_root_path : string;
  rrr_trust_state : RepositoryTrustState;
  rrr_allowed_scope : option PathScope;
  rrr_requester : option Actor
}.

Definition missing_root : ServiceError :=
  invalid (msg "root_path must identify an existing repository directory").

Definition canonical_repository_root (fs : FileSystem) (root_path : string) : ServiceResult string :=
  let? canonical := map_err (λ _, missing_root) (fs_canonicalize fs (trim root_path)) in
  reject? negb (fs_is_dir fs canonical) with missing_root in
  reject? negb (fs_exists fs (path_join canonical ".git"))
    with invalid (msg "root_path must identify a repository root with .git metadata") in
  Ok (to_string_lossy canonical).

Definition validate_repository_allowed_scope (fs : FileSystem) (root_path : string)
  (allowed_scope : PathScope) : ServiceResult unit :=
  for_each (λ allowed_path,
      let? _ := map_err (λ err, invalid (Fmt "allowed_scope path {allowed_path:?} is invalid: {err}"
                                           [ADbgStr allowed_path; AMsg (path_error_message err)]))
                  (canonicalize_within_scope fs root_path allowed_path) in
      Ok tt)
    (ps_allowed_paths allowed_scope).

Definition is_repository_registration_block (d : PolicyDecision) : bool :=
  bool_decide (pol_outcome d = PolicyBlocked)
  && str_eqb (trim (pol_reason_code d)) REASON_REPOSITORY_BLOCKED
  && str_eqb (trim (scope_kind (pol_resource_scope d))) SCOPE_KIND_REPOSITORY
  && str_eqb (trim (scope_value (pol_resource_scope d))) SCOPE_VALUE_ROOT.

Definition roots_strictly_overlap (candidate_root blocked_root : string) : bool :=
  negb (path_eqb candidate_root blocked_root)
  && (path_starts_with candidate_root blocked_root || path_starts_with blocked_root candidate_root).

(** The scope a decision blocks, when its repository is known and it resolves. *)
Definition blocked_scope (fs : FileSystem) (repository_roots : gmap RepositoryId string)
  (d : PolicyDecision) : option string :=
  if is_repository_registration_block d then
    match repository_roots !! pol_repository_id d with
    | Some root =>
        match canonicalize_within_scope fs root (trim (scope_value (pol_resource_scope d))) with
        | Ok scope => Some (cp_canonical scope)
        | Err _ => None
        end
    | None => None
    end
  else None.

Definition blocking_policy_decision_for_candidate_root (fs : FileSystem) (candidate_root : string)
  (repository_roots : gmap RepositoryId string) (policy_decisions : list PolicyDecision)
  : option PolicyDecision :=
  find_bool (λ d, match blocked_scope fs repository_roots d with
                  | Some blocked => roots_strictly_overlap candidate_root blocked
                  | None => false
                  end) policy_decisions.

(** ** Pages *)

Definition paginate_records {A} (records : list A) (start page_size : N) : list A * option string :=
  if (page_size =? 0)%N then ([], None)
  else
    let '(retained, has_next) := page_loop records 0 start page_size [] in
    (retained, if has_next : bool
               then Some (usize_to_string (start + N.of_nat (length retained))) else None).

Definition by_id (a b : RepositoryRecord) : Prop := key_le (repo_id a) (repo_id b) = true.
#[export] Instance by_id_dec a b : Decision (by_id a b).
Proof. unfold by_id. apply _. Defined.

Record ListRepositoriesRequest := {
  lrr_trust_state : option RepositoryTrustState;
  lrr_page_size : option N;
  lrr_page_token : option string
}.
Record ListRepositoriesPage := {
  lrp_repositories : list RepositoryRecord;
  lrp_next_page_token : option string
}.

Definition trust_matches (request : ListRepositoriesRequest) (r : RepositoryRecord) : bool :=
  match lrr_trust_state request with
  | Some state => bool_decide (repo_trust_state r = state)
  | None => true
  end.

(** The page of a request over the listed records. *)
Definition repositories_page (request : ListRepositoriesRequest) (records : list RepositoryRecord)
  : ServiceResult ListRepositoriesPage :=
  let records := merge_sort by_id (List.filter (trust_matches request) records) in
  let page_size := default usize_max (lrr_page_size request) in
  let? start := parse_page_token (lrr_page_token request) "repositories" in
  let '(repositories, next_page_token) := paginate_records records start page_size in
  Ok {| lrp_repositories := repositories; lrp_next_page_token := next_page_token |}.

(** ** The repertoire *)

Record RepertoireEntry := {
  rep_tool_id : string;
  rep_name : string;
  rep_description : string;
  rep_provider_kind : string;
  rep_provider_id : string;
  rep_risk_tier : string;
  rep_default_result_format : string;
  rep_supported_result_formats : list string;
  rep_idempotency : string;
  rep_cancellable : bool;
  rep_streaming : bool;
  rep_timeout_ms : N
}.

Definition repertoire_entry (tool_id name description risk_tier idempotency : string)
  (cancellable : bool) (timeout_ms : N) : RepertoireEntry := {|
  rep_tool_id := tool_id; rep_name := name; rep_description := description;
  rep_provider_kind := "builtin"; rep_provider_id := "atelia-secretary";
  rep_risk_tier := risk_tier; rep_default_result_format := "toon";
  rep_supported_result_formats := ["toon"; "json"]; rep_idempotency := idempotency;
  rep_cancellable := cancellable; rep_streaming := false; rep_timeout_ms := timeout_ms |}.

Definition by_tool_id (a b : RepertoireEntry) : Prop := str_le (rep_tool_id a) (rep_tool_id b) = true.
#[export] Instance by_tool_id_dec a b : Decision (by_tool_id a b).
Proof. unfold by_tool_id. apply _. Defined.

Definition list_repertoire_entries : list RepertoireEntry :=
  merge_sort by_tool_id
    [repertoire_entry "fs.delete" "Filesystem Delete"
       "Delete one file from an allowed repository path." "R2" "non_idempotent" false 0;
     repertoire_entry "fs.write" "Filesystem Write"
       "Write UTF-8 content to an allowed repository path." "R2" "non_idempotent" false 0;
     repertoire_entry "fs.patch" "Filesystem Patch"
       "Apply an exact-match text replacement to an allowed repository file." "R2"
       "non_idempotent" false 0;
     repertoire_entry "fs.diff" "Filesystem Diff"
       "Compare a bounded diff between two files in the repository." "R1" "idempotent" false 0;
     repertoire_entry "fs.search" "Filesystem Search"
       "Search file contents for a literal pattern within an allowed repository scope." "R1"
       "idempotent" false 0;
     repertoire_entry "fs.list" "Filesystem List"
       "List directory entries within an allowed scope." "R1" "idempotent" false 0;
     repertoire_entry "fs.move" "Filesystem Move"
       "Move a file within an allowed repository path." "R2" "non_idempotent" false 0;
     repertoire_entry "fs.read" "Filesystem Read"
       "Read a file from an allowed repository scope." "R1" "idempotent" false 0;
     repertoire_entry "fs.stat" "Filesystem Stat"
       "Read metadata for a file or directory." "R1" "idempotent" false 0;
     repertoire_entry "secretary.echo" "Secretary Echo"
       "Echo input for daemon smoke tests and context probes." "R0" "idempotent" false 0].

(** ** Health *)

Inductive DaemonStatus := DmStarting | DmRunning | DmReady | DmDegraded | DmStopping.
Inductive StorageStatus := StReady | StMigrating | StReadOnly | StUnavailable.

Record BetaStateHint := {
  bsh_scope : string;
  bsh_durability : string;
  bsh_restart_semantics : string;
  bsh_limits : list string
}.
Definition in_memory_process_local : BetaStateHint := {|
  bsh_scope := "process_local"; bsh_durability := "in_memory";
  bsh_restart_semantics := "reset_on_restart";
  bsh_limits := ["state_is_limited_to_the_current_daemon_process";
                 "state_is_not_recovered_after_restart"] |}.
Definition durable_snapshot_replay : BetaStateHint := {|
  bsh_scope := "storage_backed"; bsh_durability := "durable_snapshot";
  bsh_restart_semantics := "restore_on_restart";
  bsh_limits := ["state_is_persisted_to_ledger_json"; "state_is_validated_on_startup";
                 "state_is_restored_after_restart"] |}.

Record DaemonHealth := {
  dh_daemon_status : DaemonStatus;
  dh_storage_status : StorageStatus;
  dh_beta_state : BetaStateHint;
  dh_daemon_version : string;
  dh_protocol_version : string;
  dh_storage_version : string;
  dh_capabilities : list string;
  dh_repository_count : nat;
  dh_started_at : LedgerTimestamp
}.
Definition DAEMON_VERSION : string := "0.1.0".
Definition PROTOCOL_VERSION : string := "1.0.0".
Definition STORAGE_VERSION : string := "0.1.0".
Definition DAEMON_CAPABILITIES : list string :=
  ["health.v1"; "repositories.v1"; "jobs.v1"; "events.v1"; "policy.v1"; "repertoire.v1";
   "extensions.registry.v1"; "extensions.authoring.v1"; "package_inspect.v1";
   "package_trust_index.v1"; "tool_output_settings.v1"; "tool_output_render.v1";
   "project_status.v1"].

(** The service's [ProjectStatusSnapshot]. *)
Record ProjectStatus := {
  prs_repository : RepositoryRecord;
  prs_recent_jobs : list JobRecord;
  prs_recent_policy_decisions : list PolicyDecision;
  prs_latest_event : option JobEvent;
  prs_daemon_status : DaemonStatus;
  prs_storage_status : StorageStatus
}.

(** ** The handlers *)

Section Handlers.
Context `{UuidLib} `{RegistryPort} `{Entropy} `{Renderer} `{ArtifactDefaults}.
Context {S F : Type} `{!StoreBackend S} `{!ArtifactWriter string F}.
Abbreviation SM := (SM (S := S) (F := F)).

Definition list_repositories_of (inner : InMemoryInner) : StoreResult (list RepositoryRecord) :=
  Ok (hash_values (repositories inner)).
Definition list_policy_decisions_of (inner : InMemoryInner) : StoreResult (list PolicyDecision) :=
  Ok (hash_values (policy_decisions inner)).

Definition blocked_repository_ancestor_for_root (root_path : string)
  : SM (option RepositoryRecord) :=
  let! repositories := read_store list_repositories_of in
  sret (find_bool (λ repository, bool_decide (repo_trust_state repository = TrustBlocked)
                                 && roots_strictly_overlap root_path (repo_root_path repository))
          repositories).

Definition blocking_policy_decision_for_root (fs : FileSystem) (root_path : string)
  : SM (option PolicyDecision) :=
  let! repositories := read_store list_repositories_of in
  let repository_roots : gmap RepositoryId string :=
    list_to_map (map (λ r, (repo_id r, repo_root_path r)) repositories) in
  let! decisions := read_store list_policy_decisions_of in
  sret (blocking_policy_decision_for_candidate_root fs root_path repository_roots decisions).

(** The error of [create_repository], as the client sees it. *)
Definition registration_error (e : ServiceError) : ServiceError :=
  match e with
  | SvcStore (DuplicateId collection _) =>
      if str_eqb collection "repositories"
      then SvcConflict (msg "root_path is already registered") else e
  | SvcStore (Conflict _ _) => SvcConflict (msg "repository root path conflicts")
  | e => e
  end.
Definition map_service_err {A} (f : ServiceError → ServiceError) (m : SM A) : SM A := λ s,
  let '(s, r) := m s in (s, map_err f r).

(** The record with the scope the request asks for. *)
Definition apply_requested_scope (fs : FileSystem) (record : RepositoryRecord)
  (allowed_scope : option PathScope) : ServiceResult RepositoryRecord :=
  match allowed_scope with
  | None => Ok record
  | Some requested_scope =>
      let allowed_paths := if bool_decide (ps_allowed_paths requested_scope = [])
                           then [repo_root_path record] else ps_allowed_paths requested_scope in
      let? _ := validate_repository_allowed_scope fs (repo_root_path record)
                  {| ps_root_path := ps_root_path requested_scope;
                     ps_allowed_paths := allowed_paths |} in
      Ok {| repo_id := repo_id record; repo_schema_version := repo_schema_version record;
            repo_created_at := repo_created_at record; repo_updated_at := repo_updated_at record;
            repo_display_name := repo_display_name record; repo_root_path := repo_root_path record;
            repo_allowed_path_scope := {| ps_root_path := repo_root_path record;
                                          ps_allowed_paths := allowed_paths |};
            repo_trust_state := repo_trust_state record; repo_owner_hint := repo_owner_hint record;
            repo_last_observed_metadata := repo_last_observed_metadata record;
            repo_redactions := repo_redactions record |}
  end.

Definition register_repository (fs : FileSystem) (request : RegisterRepositoryRequest)
  : SM RepositoryRecord :=
  let! _ := slift (reject? is_blank (rrr_display_name request)
                     with invalid (msg "display_name must not be empty") in Ok tt) in
  let! _ := slift (reject? is_blank (rrr_root_path request)
                     with invalid (msg "root_path must not be empty") in Ok tt) in
  let! root_path := slift (canonical_repository_root fs (rrr_root_path request)) in
  let! now := runtime timestamp_now in
  let! uuid := runtime uuid_new in
  let record := repository_record_new uuid (rrr_display_name request) root_path
                  (rrr_trust_state request) now in
  let! record := slift (apply_requested_scope fs record (rrr_allowed_scope request)) in
  let! blocked_repository := blocked_repository_ancestor_for_root (repo_root_path record) in
  match blocked_repository with
  | Some blocked_repository =>
      slift (Err (SvcConflict (Fmt "root_path is blocked by repository {}"
                                 [AStr (as_str (repo_id blocked_repository))])))
  | None =>
      let! blocked_policy_decision :=
        blocking_policy_decision_for_root fs (repo_root_path record) in
      match blocked_policy_decision with
      | Some d =>
          slift (Err (SvcConflict (Fmt "root_path is blocked by policy decision {}"
                                     [AStr (as_str (pol_id d))])))
      | None =>
          let! _ := map_service_err registration_error
                      (runtime (call_mutate (create_repository record))) in
          sret record
      end
  end.

Definition list_repositories_page (request : ListRepositoriesRequest) : SM ListRepositoriesPage :=
  let! records := read_store list_repositories_of in
  slift (repositories_page request records).

(** ** The history of the settings *)

Record SettingsHistoryPage := {
  shp_changes : list ToolOutputSettingsChange;
  shp_next_page_token : option string
}.

Definition list_tool_output_settings_history_page (scope : option ToolOutputSettingsScope)
  (limit offset : option N) (cursor : option string) : SM SettingsHistoryPage := λ s,
  (s,
   let limit := N.min (default MAX_HISTORY_PAGE limit) MAX_HISTORY_PAGE in
   let? start := list_history_page_start offset cursor "tool output settings history" in
   if (limit =? 0)%N then Ok {| shp_changes := []; shp_next_page_token := None |}
   else
     let? settings := lock_mutex (sv_settings s) settings_poisoned in
     let changes :=
       take (N.to_nat (saturating_add_u64 limit 1))
         (drop (N.to_nat start)
            (List.filter (λ change, match scope with
                                    | Some scope => bool_decide (chg_scope change = scope)
                                    | None => true
                                    end) (svc_changes settings))) in
     if (N.of_nat (length changes) <=? limit)%N
     then Ok {| shp_changes := changes; shp_next_page_token := None |}
     else Ok {| shp_changes := take (N.to_nat limit) changes;
                shp_next_page_token := Some (usize_to_string (start + limit)) |}).

(** ** Health and project status *)

(** The part of the service that the process sets: when it started, how far its
    start or its end is, and whether its store writes a snapshot. *)
Record DaemonRun := {
  run_status : DaemonStatus;
  run_started_at : LedgerTimestamp;
  run_durable : bool
}.
Definition with_status (d : DaemonRun) (status : DaemonStatus) : DaemonRun := {|
  run_status := status; run_started_at := run_started_at d; run_durable := run_durable d |}.
Definition set_running (d : DaemonRun) : DaemonRun := with_status d DmRunning.
Definition set_ready (d : DaemonRun) : DaemonRun := with_status d DmReady.
Definition set_stopping (d : DaemonRun) : DaemonRun := with_status d DmStopping.

Definition health (d : DaemonRun) : SM DaemonHealth := λ s,
  let '(s, repositories) := read_store list_repositories_of s in
  let '(repository_count, storage_status) :=
    match repositories with
    | Ok repos => (length repos, StReady)
    | Err _ => (0, StUnavailable)
    end in
  (s, Ok {| dh_daemon_status := run_status d; dh_storage_status := storage_status;
            dh_beta_state := if run_durable d then durable_snapshot_replay else in_memory_process_local;
            dh_daemon_version := DAEMON_VERSION; dh_protocol_version := PROTOCOL_VERSION;
            dh_storage_version := STORAGE_VERSION; dh_capabilities := DAEMON_CAPABILITIES;
            dh_repository_count := repository_count; dh_started_at := run_started_at d |}).

Definition PROJECT_STATUS_RECENT_LIMIT : nat := 5.

Definition get_project_status (d : DaemonRun) (repository_id : RepositoryId) : SM ProjectStatus :=
  let! repository := read_store (get_repository repository_id) in
  let! snapshot := read_store (λ inner, project_status_snapshot inner repository_id
                                          PROJECT_STATUS_RECENT_LIMIT
                                          PROJECT_STATUS_RECENT_LIMIT) in
  let! daemon := health d in
  sret {| prs_repository := repository; prs_recent_jobs := snap_recent_jobs snapshot;
          prs_recent_policy_decisions := snap_recent_policy_decisions snapshot;
          prs_latest_event := snap_latest_event snapshot; prs_daemon_status := run_status d;
          prs_storage_status := dh_storage_status daemon |}.
End Handlers.
