(* ===== verification/RequestLaws.v ===== *)
(** * RequestLaws: the requests of the daemon *)
From S2P Require Import Prelude Text Domain DomainLaws Policy StoreTypes Settings Truncation Spill.
From S2P Require Import StoreValidate StoreJobs Store StoreQuery Ledger StoreRefine.
From S2P Require Import StoreGuarantees StoreShell ShellLaws Backend Runtime RunJob RunStages.
From S2P Require Import StoreQueryLaws Packages Paths Tools Submission Service.
From S2P Require Import ScopeGuarantees ServiceGuarantees Repositories.

(** * From the requested capabilities to the tool *)

(** ** Normalised capabilities *)

#[export] Instance str_le_prop_total : Total str_le_prop.
Proof. intros a b. apply str_le_total. Qed.
#[export] Instance str_le_prop_trans : Transitive str_le_prop.
Proof. intros a b c. apply str_le_trans. Qed.
#[export] Instance str_le_prop_antisym : AntiSymm (=) str_le_prop.
Proof. intros a b. apply str_le_antisym. Qed.

(** What the names of a request stand for. *)
Definition named (requested : list string) (c : string) : Prop :=
  ∃ x, x ∈ requested ∧ canonicalize_submit_requested_capability (trim x) = Some c.

Lemma str_in_elem x l : str_in x l = true ↔ x ∈ l.
Proof.
  unfold str_in. rewrite existsb_exists. setoid_rewrite <- list_elem_of_In.
  setoid_rewrite str_eqb_eq. split; [by intros (? & ? & ->)|eauto].
Qed.

Lemma push_capability_Ok acc x acc' :
  push_capability acc x = Ok acc' → NoDup acc →
  ∃ c, canonicalize_submit_requested_capability (trim x) = Some c ∧
    NoDup acc' ∧ ∀ c', c' ∈ acc' ↔ c' ∈ acc ∨ c' = c.
Proof.
  unfold push_capability. intros E Hn. do 2 step_ok E. apply ok_or_Ok in Hok. injection E as <-.
  exists a. split; [done|]. destruct (str_in a acc) eqn:Hin.
  - apply str_in_elem in Hin. split; [done|]. intros c'. split; [auto|by intros [?| ->]].
  - assert (a ∉ acc) by (rewrite <- str_in_elem, Hin; done). split.
    + apply NoDup_app. split_and!; [done| |apply NoDup_singleton].
      by intros c Hc ->%list_elem_of_singleton.
    + intros c. by rewrite elem_of_app, list_elem_of_singleton.
Qed.

Lemma named_cons x l c :
  named (x :: l) c ↔ canonicalize_submit_requested_capability (trim x) = Some c ∨ named l c.
Proof.
  unfold named. split.
  - intros (y & [->|Hy]%elem_of_cons & E); [by left|right; eauto].
  - intros [E|(y & Hy & E)]; [exists x|exists y]; (split; [by constructor|done]).
Qed.
Lemma named_nil c : ¬ named [] c.
Proof. by intros (y & ?%not_elem_of_nil & _). Qed.

Lemma push_capabilities_Ok l acc acc' :
  push_capabilities acc l = Ok acc' → NoDup acc →
  NoDup acc' ∧ (∀ c, c ∈ acc' ↔ c ∈ acc ∨ named l c) ∧ (l ≠ [] → acc' ≠ []).
Proof.
  revert acc; induction l as [|x l IH]; intros acc; simpl.
  - intros [= <-] Hn. split_and!; [done| |done]. intros c. split; [auto|].
    intros [?|?%named_nil]; done.
  - intros E Hn. step_ok E. apply push_capability_Ok in Hok as (c0 & Hc0 & Hn1 & H1); [|done].
    apply IH in E as (Hn' & H' & _); [|done]. split_and!; [done| |].
    + intros c. rewrite H', H1, named_cons, Hc0. split.
      * intros [[?| ->]|?]; auto.
      * intros [?|[[= ->]|?]]; auto.
    + intros _ ->. apply (not_elem_of_nil c0), H'. left. apply H1. by right.
Qed.

(** What a list of names asks for; no name at all asks for discovery. *)
Definition asks (l : list string) (c : string) : Prop :=
  named l c ∨ l = [] ∧ c = "capability.discovery"%string.

Lemma normalize_spec l caps :
  normalize_requested_capabilities l = Ok caps →
  StronglySorted str_le_prop caps ∧ NoDup caps ∧
  ∀ c, c ∈ caps ↔ asks l c.
Proof.
  unfold asks, normalize_requested_capabilities. intros E. step_ok E. injection E as <-.
  apply push_capabilities_Ok in Hok as Hp; [|apply NoDup_nil_2]. destruct Hp as (Hn & Hin & Hne).
  split; [apply StronglySorted_merge_sort; apply _|]. rewrite merge_sort_Permutation.
  setoid_rewrite merge_sort_Permutation. case_bool_decide as Hempty.
  - assert (l = []) as -> by (destruct l; [done|by destruct Hne]). subst a.
    split; [apply NoDup_singleton|]. intros c. simpl. rewrite list_elem_of_singleton.
    change (default ""%string (canonicalize_job_requested_capability "capability.discovery"))
      with "capability.discovery"%string.
    split; [auto|]. intros [?%named_nil|[_ ->]]; done.
  - split; [done|]. intros c. rewrite Hin. split.
    + intros [?%not_elem_of_nil|?]; [done|auto].
    + intros [?|[-> _]]; [auto|]. simpl in Hok. congruence.
Qed.

(** ** Canonical names *)

Definition CANONICAL : list string := "capability.discovery"%string :: FS_CAPABILITIES.

Lemma canonical_fixed c :
  c ∈ CANONICAL → canonicalize_submit_requested_capability (trim c) = Some c ∧ str_is_empty (trim c) = false.
Proof.
  intros Hc. assert (Hall : forallb (λ c, bool_decide (canonicalize_submit_requested_capability (trim c) = Some c)
    && negb (str_is_empty (trim c))) CANONICAL = true) by (vm_compute; reflexivity).
  rewrite forallb_forall in Hall. apply list_elem_of_In, Hall, andb_true_iff in Hc as [H1 H2].
  apply bool_decide_eq_true in H1. by apply negb_true_iff in H2.
Qed.

Lemma alias_canonical n c : snd <$> find_bool (λ alias, str_eqb alias.1 n) FS_ALIASES = Some c → c ∈ FS_CAPABILITIES.
Proof.
  destruct (find_bool _ _) as [[a b]|] eqn:E; simpl; [|done]. intros [= <-].
  apply find_bool_Some in E as [Hin _]. apply (list_elem_of_fmap_2 snd) in Hin. simpl in Hin.
  apply str_in_elem. apply str_in_elem in Hin. revert Hin. unfold str_in. rewrite !existsb_exists.
  intros (x & Hx & Hb). exists x. split; [|done]. simpl in Hx |- *. tauto.
Qed.
Lemma canonicalize_canonical n c : canonicalize_submit_requested_capability n = Some c → c ∈ CANONICAL.
Proof.
  unfold canonicalize_submit_requested_capability, canonicalize_job_requested_capability.
  destruct (from_name n); cbn [or_else]; try (intros [= <-]; by left);
    (case_match eqn:Hin; [intros [= <-]; right; by apply str_in_elem|];
     intros H; right; by eapply alias_canonical).
Qed.
Lemma asks_canonical l c : asks l c → c ∈ CANONICAL.
Proof. intros [(x & _ & E)|[_ ->]]; [by eapply canonicalize_canonical|by left]. Qed.

Lemma push_canonical l acc : (∀ c, c ∈ l → c ∈ CANONICAL) → ∃ acc', push_capabilities acc l = Ok acc'.
Proof.
  revert acc; induction l as [|x l IH]; intros acc Hl; cbn [push_capabilities]; [eauto|].
  destruct (canonical_fixed x) as [E Hne]; [apply Hl; by left|].
  unfold push_capability. rewrite E, Hne. cbn [ok_or]. apply IH. intros c Hc. apply Hl. by right.
Qed.

(** Capability names normalise.  The capabilities of an accepted request are
    sorted, distinct, canonical and exactly what its names stand for, so two
    requests with the same meaning, whatever the spelling, order and repetition
    of the names, normalise to the same list, and a normalised list to itself. *)
Theorem capabilities_normalise l caps :
  normalize_requested_capabilities l = Ok caps →
  StronglySorted str_le_prop caps ∧ NoDup caps ∧ (∀ c, c ∈ caps ↔ asks l c) ∧
  (∀ c, c ∈ caps → c ∈ CANONICAL) ∧
  (∀ l' caps', normalize_requested_capabilities l' = Ok caps' →
     caps = caps' ↔ ∀ c, asks l c ↔ asks l' c) ∧
  normalize_requested_capabilities caps = Ok caps.
Proof.
  intros E. destruct (normalize_spec _ _ E) as (Hs & Hn & Hin).
  assert (Hcan : ∀ c, c ∈ caps → c ∈ CANONICAL) by (intros c Hc; eapply asks_canonical; by apply Hin).
  assert (Heq : ∀ l' caps', normalize_requested_capabilities l' = Ok caps' →
            caps = caps' ↔ ∀ c, asks l c ↔ asks l' c).
  { intros l' caps' (Hs' & Hn' & Hin')%normalize_spec. split.
    - intros <- c. by rewrite <- Hin, <- Hin'.
    - intros Hask. apply (StronglySorted_unique str_le_prop); [done..|].
      apply NoDup_Permutation; [done..|]. intros c. rewrite Hin, Hin'. apply Hask. }
  split_and!; try done. destruct (push_canonical caps []) as [acc Hacc]; [done|].
  assert (∃ caps', normalize_requested_capabilities caps = Ok caps') as [caps' E'].
  { unfold normalize_requested_capabilities. rewrite Hacc. eauto. }
  rewrite E'. f_equal. symmetry. apply (Heq _ _ E'). intros c.
  assert (Hne : caps ≠ []).
  { destruct l as [|x l]; intros ->; [by apply (not_elem_of_nil "capability.discovery"%string), Hin; right|].
    unfold normalize_requested_capabilities in E. step_ok E. injection E as E.
    apply push_capabilities_Ok in Hok as (_ & _ & Hne); [|apply NoDup_nil_2].
    apply (f_equal length) in E. rewrite merge_sort_Permutation in E. rewrite bool_decide_eq_false_2 in E by auto.
    destruct a; [by apply Hne|done]. }
  unfold asks at 2. rewrite <- Hin. split.
  - intros Hc. left. exists c. split; [done|]. by apply canonical_fixed, Hcan.
  - intros [(x & Hx & Ex)|[? _]]; [|done]. destruct (canonical_fixed x) as [Ex' _]; [by apply Hcan|].
    congruence.
Qed.

(** ** The tool of a capability *)

Definition kind_capability (kind : SubmitJobToolKind) : string :=
  match kind with
  | KindEcho => "capability.discovery"
  | KindFsRead => "filesystem.read" | KindFsList => "filesystem.list"
  | KindFsStat => "filesystem.stat" | KindFsDelete => "filesystem.delete"
  | KindFsWrite => "filesystem.write" | KindFsPatch => "filesystem.patch"
  | KindFsMove => "filesystem.move" | KindFsSearch => "filesystem.search"
  | KindFsDiff => "filesystem.diff"
  end.

Lemma kind_of_capability_inv c : c ∈ FS_CAPABILITIES → kind_capability (kind_of_capability c) = c.
Proof. intros Hc. repeat (apply elem_of_cons in Hc as [->|Hc]; [reflexivity|]). by apply not_elem_of_nil in Hc. Qed.

(** Changing files needs a job that says so and a scope that permits it. *)
Definition may_mutate (request : SubmitJobRequest) : Prop :=
  sub_kind request = JkMutate ∧
  ∃ scope, sub_resource_scope request = Some scope ∧ trim (scope_kind scope) ≠ "read_only"%string.

Lemma resolve_kind_Ok request caps kind :
  resolve_submit_job_tool_kind request caps = Ok kind →
  caps = [kind_capability kind] ∧
  (kind_capability kind ∈ FS_MUTATING_CAPABILITIES → may_mutate request).
Proof.
  destruct caps as [|c [|]]; try done. cbn [resolve_submit_job_tool_kind].
  destruct (str_eqb c "capability.discovery") eqn:E.
  { apply str_eqb_eq in E. intros [= <-]. subst. split; [done|]. intros Hc.
    by apply str_in_elem in Hc. }
  destruct (str_in c FS_CAPABILITIES) eqn:Hin; [|done]. apply str_in_elem in Hin.
  intros Hr. do 4 step_ok Hr. injection Hr as <-. rewrite kind_of_capability_inv by done.
  split; [done|]. intros Hm. apply str_in_elem in Hm. rewrite Hm in Hg, Hg0. simpl in Hg, Hg0.
  apply negb_false_iff, bool_decide_eq_true in Hg. apply str_eqb_neq in Hg0.
  apply ok_or_Ok in Hok. split; [done|]. eauto.
Qed.

Lemma build_tool_kind fs repository scope kind args tool :
  build_tool fs repository scope kind args = Ok tool →
  builtin_tool_id tool = kind_tool_id kind ∧ builtin_requested_capability tool = kind_capability kind.
Proof.
  unfold build_tool. intros E. destruct kind; try (by injection E as <-);
    destruct args; try done; [by injection E as <-..| |by injection E as <-].
  step_ok E. by injection E as <-.
Qed.

Lemma own_capability_hint kind :
  validate_requested_capability_hints [kind_capability kind]
    (normalized_requested_capability (kind_capability kind)) = Ok tt.
Proof. destruct kind; vm_compute; reflexivity. Qed.

Definition tier_name (t : RiskTier) : string :=
  match t with R0 => "R0" | R1 => "R1" | R2 => "R2" | R3 => "R3" | R4 => "R4" end.

(** The entry of a tool, with the tier its capability has in a trusted repository. *)
Definition advertises (entry : RepertoireEntry) (kind : SubmitJobToolKind) : Prop :=
  rep_tool_id entry = kind_tool_id kind ∧
  ∀ input, pin_requested_capability input = kind_capability kind →
    pin_current_trust_state input = Trusted → pin_registered_scope input = true →
    pin_broad_or_unbounded input = false →
    rep_risk_tier entry = tier_name (rule_risk_tier (evaluate_rule input)).

Lemma repertoire_entry_of kind : ∃ entry, entry ∈ list_repertoire_entries ∧ advertises entry kind.
Proof.
  destruct (find_bool (λ e, str_eqb (rep_tool_id e) (kind_tool_id kind)) list_repertoire_entries)
    as [entry|] eqn:E; [|by destruct kind; vm_compute in E].
  exists entry. split; [by apply find_bool_Some in E as [? _]|].
  split; [apply find_bool_Some in E as [_ E]; by apply str_eqb_eq in E|].
  intros input Hc Ht Hs Hb. unfold evaluate_rule. rewrite Hc, Ht, Hs, Hb.
  destruct kind; vm_compute in E; injection E as <-; vm_compute; reflexivity.
Qed.

(** A submission selects one tool.  Once a request's capabilities resolve,
    they are the single capability of the tool that runs, so the runtime never
    refuses them; a tool that changes files is only selected for a mutating job
    with a scope that is not read-only; and the repertoire advertises the tool
    with the risk tier the policy gives it in a trusted repository. *)
Theorem submissions_select_one_tool fs repository scope request caps kind args tool :
  resolve_submit_job_tool_kind request caps = Ok kind →
  build_tool fs repository scope kind args = Ok tool →
  caps = [builtin_requested_capability tool] ∧ builtin_tool_id tool = kind_tool_id kind ∧
  validate_requested_capability_hints caps
    (normalized_requested_capability (builtin_requested_capability tool)) = Ok tt ∧
  (is_repository_mutating (from_name (builtin_requested_capability tool)) = true →
     may_mutate request) ∧
  ∃ entry, entry ∈ list_repertoire_entries ∧ advertises entry kind.
Proof.
  intros [-> Hm]%resolve_kind_Ok [Hid Hcap]%build_tool_kind. rewrite Hcap.
  split_and!; [done|done|apply own_capability_hint| |apply repertoire_entry_of].
  intros Hmut. apply Hm. apply str_in_elem. revert Hmut. destruct kind; vm_compute; done.
Qed.

(** * Registration is sound and listings are complete *)

(** ** Pages *)

Lemma paginate_records_spec {A} (l : list A) start size :
  (0 < size)%N → paginate_records l start size = page_of l start size.
Proof. apply page_records_spec. Qed.

Lemma parse_page_token_start c n :
  (n <= usize_max)%N → parse_page_token (Some (usize_to_string n)) c = Ok n.
Proof. intros Hn. unfold parse_page_token. by rewrite usize_to_string_nonempty, parse_usize_to_string. Qed.

Definition fetch_repositories (trust : option RepositoryTrustState) (size : N)
  (records : list RepositoryRecord) (token : option string)
  : ServiceResult (list RepositoryRecord * option string) :=
  let? page := repositories_page {| lrr_trust_state := trust; lrr_page_size := Some size;
                                    lrr_page_token := token |} records in
  Ok (lrp_repositories page, lrp_next_page_token page).

#[export] Instance by_id_total : Total by_id.
Proof. intros a b. apply key_le_total. Qed.
#[export] Instance by_id_trans : Transitive by_id.
Proof. intros a b c. apply key_le_trans. Qed.

Definition trusted_as (trust : option RepositoryTrustState) (r : RepositoryRecord) : bool :=
  match trust with Some state => bool_decide (repo_trust_state r = state) | None => true end.

(** Repository listings are complete.  Following the page tokens of
    [list_repositories_page] over a listing of the store, with any positive page
    size, terminates and returns the repositories with the requested trust
    state, each of them once, in id order. *)
Theorem repository_pages_visit_every_match trust size records :
  (0 < size)%N → (N.of_nat (length records) <= usize_max)%N →
  ∃ found, follow_pages (fetch_repositories trust size records) (S (length records)) None = Some found ∧
    StronglySorted by_id found ∧
    found ≡ₚ List.filter (trusted_as trust) records.
Proof.
  intros Hsize Hlen. set (l := merge_sort by_id (List.filter (trusted_as trust) records)).
  assert (Hl : length l ≤ length records).
  { unfold l. rewrite merge_sort_Permutation. apply List.filter_length_le. }
  exists l. split_and!.
  - apply (follow_pages_complete (fetch_repositories trust size records)
             (λ t, parse_page_token t "repositories") l size) with (start := 0%N);
      [done|lia|intros n; apply parse_page_token_start| |done|simpl; lia].
    intros token start Ht. unfold fetch_repositories, repositories_page. cbn [lrr_page_token lrr_page_size].
    rewrite Ht. cbn [default]. rewrite paginate_records_spec by done. reflexivity.
  - apply StronglySorted_merge_sort; apply _.
  - apply merge_sort_Permutation.
Qed.

(** ** The history of the settings *)

Section History.
Context `{UuidLib} `{RegistryPort}.
Context {S F : Type} `{!StoreBackend S}.
Implicit Types s : ServiceState (S := S) (F := F).

Definition fetch_history (scope : option ToolOutputSettingsScope) (limit : N) s
  (token : option string) : ServiceResult (list ToolOutputSettingsChange * option string) :=
  let? page := (list_tool_output_settings_history_page scope (Some limit) None token s).2 in
  Ok (shp_changes page, shp_next_page_token page).

Definition scoped_as (scope : option ToolOutputSettingsScope) (c : ToolOutputSettingsChange) : bool :=
  match scope with Some scope => bool_decide (chg_scope c = scope) | None => true end.

Lemma history_page {A} (l : list A) start limit :
  (0 < limit)%N →
  let changes := take (N.to_nat (limit + 1)) (drop (N.to_nat start) l) in
  page_of l start limit =
  if (N.of_nat (length changes) <=? limit)%N then (changes, None)
  else (take (N.to_nat limit) changes, Some (usize_to_string (start + limit))).
Proof.
  intros Hlimit changes. unfold page_of.
  assert (Hc : length changes = (N.to_nat (limit + 1)) `min` (length l - N.to_nat start)).
  { unfold changes. by rewrite length_take, length_drop. }
  destruct (N.leb_spec (N.of_nat (length changes)) limit) as [Hle|Hgt].
  - rewrite bool_decide_eq_false_2 by lia. unfold changes. rewrite !take_ge; [done|..];
      rewrite length_drop; lia.
  - rewrite bool_decide_eq_true_2 by lia. unfold changes. rewrite take_take. do 2 f_equal. lia.
Qed.

(** The history of the settings is complete.  Following the cursors of the
    settings history, with any positive limit up to the maximum, terminates and
    returns every change of the scope in the order they were made. *)
Theorem settings_history_pages_visit_every_change scope limit s :
  (0 < limit)%N → (limit <= MAX_HISTORY_PAGE)%N → mx_poisoned (sv_settings s) = false →
  let changes := List.filter (scoped_as scope) (svc_changes (mx_value (sv_settings s))) in
  (N.of_nat (length changes) <= usize_max)%N →
  follow_pages (fetch_history scope limit s) (Datatypes.S (length changes)) None = Some changes.
Proof.
  intros Hlimit Hmax Hp changes Hlen.
  apply (follow_pages_complete (fetch_history scope limit s)
           (λ t, parse_page_token t "tool output settings history") changes limit) with (start := 0%N);
    [done|done|intros n; apply parse_page_token_start| |done|simpl; lia].
  intros token start Ht. unfold fetch_history, list_tool_output_settings_history_page, lock_mutex.
  rewrite Hp. cbn [snd from_option id]. rewrite N.min_l by done.
  assert (Hstart : list_history_page_start None token "tool output settings history" = Ok start).
  { unfold list_history_page_start. destruct token; [by rewrite Ht|]. injection Ht as <-. done. }
  rewrite Hstart. destruct (N.eqb_spec limit 0); [lia|].
  replace (saturating_add_u64 limit 1) with (limit + 1)%N
    by (unfold saturating_add_u64, u64_max, MAX_HISTORY_PAGE in *; lia).
  rewrite history_page by done. cbv zeta.
  change (List.filter _ (svc_changes (mx_value (sv_settings s)))) with changes.
  by destruct (N.of_nat (length (take _ _)) <=? limit)%N.
Qed.
End History.

(** ** Registration *)

Section Registration.
Context `{UuidLib} `{RegistryPort} `{Entropy} `{Renderer} `{ArtifactDefaults}.
Context {S F : Type} `{!StoreBackend S} `{!StoreBackendLaws S} `{!ArtifactWriter string F}.
Implicit Types s : ServiceState (S := S) (F := F).
Abbreviation calm := (calm (S := S) (F := F)).

Lemma canonical_root_Ok fs p root :
  canonical_repository_root fs p = Ok root →
  ∃ canonical, fs_canonicalize fs (trim p) = Ok canonical ∧ fs_is_dir fs canonical = true ∧
    fs_exists fs (path_join canonical ".git") = true ∧ root = to_string_lossy canonical.
Proof.
  unfold canonical_repository_root. intros E. step_ok E. apply map_err_Ok in Hok. do 2 step_ok E.
  injection E as <-. exists a. by rewrite <- negb_false_iff, <- (negb_false_iff (fs_exists _ _)).
Qed.

(** The record a request asks for, before it is stored. *)
Record requested fs (request : RegisterRepositoryRequest) (record : RepositoryRecord) : Prop := {
  rq_name : repo_display_name record = rrr_display_name request;
  rq_trust : repo_trust_state record = rrr_trust_state request;
  rq_scope_root : ps_root_path (repo_allowed_path_scope record) = repo_root_path record;
  rq_scope : ps_allowed_paths (repo_allowed_path_scope record) ≠ [];
  rq_resolves allowed : is_Some (rrr_allowed_scope request) →
    allowed ∈ ps_allowed_paths (repo_allowed_path_scope record) →
    ∃ c, canonicalize_within_scope fs (repo_root_path record) allowed = Ok c
}.

Lemma apply_requested_scope_Ok fs request uuid root now record :
  apply_requested_scope fs (repository_record_new uuid (rrr_display_name request) root
    (rrr_trust_state request) now) (rrr_allowed_scope request) = Ok record →
  requested fs request record ∧ repo_root_path record = root.
Proof.
  unfold apply_requested_scope. destruct (rrr_allowed_scope request) as [scope|] eqn:Hs.
  - set (paths := if bool_decide _ then _ else _). intros E. step_ok E. injection E as <-.
    split; [|done]. split; try done; simpl.
    + unfold paths. by case_bool_decide.
    + intros allowed _ Hin. unfold validate_repository_allowed_scope in Hok. simpl in Hok. destruct a.
      apply for_each_Ok with (x := allowed) in Hok; [|done]. step_ok Hok.
      apply map_err_Ok in Hok0. eauto.
  - intros [= <-]. split; [|done]. split; try done. simpl. intros allowed [? ?]. congruence.
Qed.

Lemma read_evolves {R} (f : InMemoryInner → StoreResult R) s s' r :
  read_store f s = (s', r) → rtc store_step (sview s) (sview s').
Proof. by intros [[? _] _]%calm_read. Qed.

Lemma create_stores record s s' u :
  map_service_err registration_error (runtime (call_mutate (create_repository record))) s = (s', Ok u) →
  rtc store_step (sview s) (sview s') ∧ repositories (sview s') !! repo_id record = Some record.
Proof.
  unfold map_service_err, runtime. destruct (call_mutate _ _) as [w r] eqn:E. intros [= <- Hr].
  apply map_err_Ok, map_err_Ok in Hr. subst r. apply call_mutate_spec in E as (_ & s1 & Hs & Htx).
  split.
  - eapply rtc_r; [exact Hs|]. exists (OpCreateRepository record), []. cbn [exec_op]. by rewrite Htx.
  - unfold create_repository in Htx. do 2 step_ok Htx. destruct (find_bool _ _); [done|].
    step_ok Htx. destruct a0 as [[]|]; [done|]. step_ok Htx. unfold insert_record in Hok1.
    step_ok Hok1. injection Hok1 as <-. injection Htx as Hv. unfold sview. cbn [with_world sv_world].
    rewrite <- Hv. apply lookup_insert_eq.
Qed.

Definition steps_to s s' : Prop := rtc store_step (sview s) (sview s').

Lemma calm_steps {A} (m : SM A) s s' r : calm m → m s = (s', r) → steps_to s s'.
Proof. by intros Hm [[? _] _]%Hm. Qed.
Lemma calm_blocked_repository root : calm (blocked_repository_ancestor_for_root root).
Proof. apply calm_bind; [apply calm_read|intros ?; apply calm_ret]. Qed.
Lemma calm_blocking_decision fs root : calm (blocking_policy_decision_for_root fs root).
Proof.
  apply calm_bind; [apply calm_read|intros l]. cbv zeta.
  apply calm_bind; [apply calm_read|intros ?; apply calm_ret].
Qed.
Lemma calm_now : calm (runtime timestamp_now).
Proof. apply calm_runtime, quiet_now. Qed.
Lemma calm_uuid : calm (runtime uuid_new).
Proof. apply calm_runtime, quiet_uuid. Qed.
Hint Resolve calm_blocked_repository calm_blocking_decision calm_lift calm_now calm_uuid : secretary.

Lemma slift_Ok {A} (x : ServiceResult A) s s' a : slift x s = (s', Ok a) → s' = s ∧ x = Ok a.
Proof. by intros [= <- <-]. Qed.

Lemma register_stores fs request s s' record :
  register_repository fs request s = (s', Ok record) →
  steps_to s s' ∧ repositories (sview s') !! repo_id record = Some record ∧
  is_blank (rrr_display_name request) = false ∧ requested fs request record ∧
  ∃ canonical, fs_canonicalize fs (trim (rrr_root_path request)) = Ok canonical ∧
    fs_is_dir fs canonical = true ∧ fs_exists fs (path_join canonical ".git") = true ∧
    repo_root_path record = to_string_lossy canonical.
Proof.
  unfold register_repository. intros E. do 6 step_run E. step_run E.
  destruct a5; [done|]. step_run E. destruct a5; [done|]. step_run E. injection E as <- <-.
  apply create_stores in Hrun7 as [Hs Hstored].
  apply slift_Ok in Hrun as [-> Hname], Hrun0 as [-> _], Hrun1 as [-> Hroot], Hrun4 as [-> Hscope].
  split_and!.
  - unfold steps_to. transitivity (sview w6); [|exact Hs].
    apply calm_steps in Hrun2, Hrun3, Hrun5, Hrun6; auto with secretary.
    unfold steps_to in *. by do 3 (etrans; [eassumption|]).
  - done.
  - by destruct (is_blank _).
  - by eapply apply_requested_scope_Ok.
  - apply canonical_root_Ok in Hroot as (canonical & ? & ? & ? & ->).
    apply apply_requested_scope_Ok in Hscope as [_ ->]. eauto.
Qed.

(** A registration is sound.  When a repository is registered its name is
    not blank, its root is the canonical path of an existing directory with a
    [.git] entry, every requested scope resolves inside that root, and the
    record returned is the one stored.  No other registered repository has the
    same root, none of the roots that overlap with it is blocked by its trust
    state (nor is the new one, when another lies above or below it), and no
    root-scoped block decision of another repository covers it. *)
Theorem registrations_are_sound fs request s s' record :
  store_wf (sview s) →
  register_repository fs request s = (s', Ok record) →
  (is_blank (rrr_display_name request) = false ∧ requested fs request record ∧
   ∃ canonical, fs_canonicalize fs (trim (rrr_root_path request)) = Ok canonical ∧
     fs_is_dir fs canonical = true ∧ fs_exists fs (path_join canonical ".git") = true ∧
     repo_root_path record = to_string_lossy canonical) ∧
  repositories (sview s') !! repo_id record = Some record ∧
  (∀ i other, repositories (sview s') !! i = Some other → i ≠ repo_id record →
     repo_root_path other ≠ repo_root_path record ∧ blocked_roots_conflict record other = false) ∧
  (∀ i d blocked, policy_decisions (sview s') !! i = Some d →
     is_root_scoped_repository_block d = true → pol_repository_id d ≠ repo_id record →
     repositories (sview s') !! pol_repository_id d = Some blocked →
     repository_roots_strictly_overlap (repo_root_path blocked) (repo_root_path record) = false).
Proof.
  intros Hwf (Hs & Hstored & Hname & Hreq & Hroot)%register_stores.
  destruct (sw_roots _ (store_steps_wf _ _ Hwf Hs)) as [_ Hunique Hblocked Hpolicy].
  split; [done|]. split; [done|]. split.
  - intros i other Hi Hne. split; [|by eapply Hblocked].
    intros Heq. apply Hne. by eapply Hunique.
  - intros i d blocked Hd Hb Hne Hr. by eapply Hpolicy.
Qed.
End Registration.
