(* ===== verification/ServiceSamples.v ===== *)
(** * ServiceSamples: the daemon's handlers evaluated

    A small file tree, a daemon on a store with one trusted repository, a codec
    for signatures that meets its laws, and the witnesses of the properties of
    paths, submissions and repositories. *)
From S2P Require Import Prelude Text Domain DomainLaws Policy StoreTypes Settings Truncation.
From S2P Require Import TruncationLaws Spill StoreValidate StoreJobs Store.
From S2P Require Import StoreQuery StoreLoad Ledger StoreRefine StoreGuarantees.
From S2P Require Import StoreShell ShellLaws StoreQueryLaws Backend Runtime RunJob RunStages.
From S2P Require Import RunGuarantees RunSamples Paths ScopeGuarantees Packages.
From S2P Require Import Tools Submission Service ServiceGuarantees.
From S2P Require Import KeyLocks Repositories RequestLaws.

Module ServiceDemo.
Import RunDemo.
#[local] Existing Instance sample_uuid_lib.
#[local] Existing Instance sample_registry.
#[local] Existing Instance no_codec.
#[local] Existing Instance counting.
#[local] Existing Instance local_artifacts.
#[local] Existing Instance no_artifacts.
#[local] Existing Instance total_renderer.

(** ** A file tree without links *)

Definition directories : list string :=
  ["/srv"; "/srv/demo"; "/srv/demo/.git"; "/srv/demo/src"; "/srv/other"; "/srv/other/.git"]%string.
Definition files : list string := ["/srv/demo/readme"; "/srv/demo/src/main"]%string.
(** The canonical form of a path without [.] or [..]. *)
Definition canonical_name (p : string) : result IoError string :=
  match find_bool (path_eqb p) (directories ++ files) with
  | Some q => Ok q
  | None => Err {| io_not_found := true; io_text := msg "no such file" |}
  end.
Definition tree : FileSystem := {|
  fs_canonicalize := canonical_name;
  fs_is_symlink p := let? _ := canonical_name p in Ok false;
  fs_is_dir p := str_in p directories;
  fs_exists p := match canonical_name p with Ok _ => true | Err _ => false end |}.

Lemma tree_laws : FileSystemLaws tree.
Proof. split. intros p q H. exists false. simpl in *. rewrite H. reflexivity. Defined.

Definition scope_of (path : string) : ResourceScope := {| scope_kind := "path"; scope_value := path |}.
Definition src_repository : RepositoryRecord := {|
  repo_id := repo_id demo_repository; repo_schema_version := 1; repo_created_at := 10;
  repo_updated_at := 10; repo_display_name := "demo"; repo_root_path := "/srv/demo";
  repo_allowed_path_scope := {| ps_root_path := "/srv/demo"; ps_allowed_paths := ["src"; "readme"] |};
  repo_trust_state := Trusted; repo_owner_hint := None; repo_last_observed_metadata := None;
  repo_redactions := [] |}.

Lemma search_roots_exact_witness :
  allowed_search_roots_for_request tree src_repository (scope_of ".") =
    Ok ["/srv/demo/readme"; "/srv/demo/src"] ∧
  Sorted path_lt ["/srv/demo/readme"; "/srv/demo/src"]%string.
Proof.
  assert (E : allowed_search_roots_for_request tree src_repository (scope_of ".") =
                Ok ["/srv/demo/readme"; "/srv/demo/src"]) by (vm_compute; reflexivity).
  split; [exact E|].
  exact (proj1 (search_roots_exact tree _ _ _ E ltac:(discriminate))).
Defined.

Definition move_spec : SubmitJobToolArgsSpec :=
  SpecMove {| sma_destination_path := "src/new"; sma_allow_overwrite := false |}.
Definition move_request : RuntimeJobRequest := {|
  req_requester := demo_user; req_repository_id := repo_id demo_repository; req_kind := JkMutate;
  req_goal := None; req_message := None; req_resource_scope := scope_of "src/main";
  req_requested_capabilities := []; req_approval_available := true; req_render_options := None;
  req_tool_output_defaults := defaults_default; req_artifact_spillover := None |}.
Definition move_tool : BuiltinTool :=
  MoveBuiltin (move_with_allow_overwrite (fs_move_tool_new "/srv/demo" "src/new") false).

Lemma submitted_tools_stay_in_scope_witness :
  ∃ q, "/srv/demo/src/new"%string = to_string_lossy q ∧ confined tree src_repository q.
Proof.
  exact (submitted_tools_stay_in_scope tree src_repository move_request KindFsMove move_spec move_tool
           {| rp_requested_path := "src/new"; rp_resolved_path := "/srv/demo/src/new";
              rp_display_path := "src/new" |}
           tree_laws ltac:(vm_compute; reflexivity) ltac:(vm_compute; reflexivity)
           ltac:(vm_compute; right; left)).
Defined.

(** ** A codec of signatures *)

Fixpoint bits (p : positive) : string :=
  match p with
  | xH => "."
  | xO p => String "0" (bits p)
  | xI p => String "1" (bits p)
  end.
#[local] Instance bits_inj : Inj (=) (=) bits.
Proof.
  intros p. induction p as [p IH|p IH|]; intros [q|q|] [=]; try discriminate; try reflexivity;
    f_equal; by apply IH.
Qed.

Definition optional {A} (print : A → string) (o : option A) : string :=
  match o with Some a => String "+" (print a) | None => "" end.
Definition print_N (n : N) : string := bits (N.succ_pos n).
Definition print_bool (b : bool) : string := if b then "t" else "f".
Definition actor_code (a : Actor) : list string :=
  match a with
  | User i name => ["u"; i; optional id name]
  | Agent i name => ["a"; i; optional id name]
  | Extension i => ["e"; i; ""]
  | System i => ["s"; i; ""]
  end.
Definition job_kind_code (k : JobKind) : string :=
  match k with
  | JkRead => "r" | JkMutate => "m" | JkProcess => "p" | JkMaintenance => "x"
  | JkOther name => String "o" name
  end.
Definition tool_args_code (a : option SubmitJobToolArgs) : list string :=
  match a with
  | None => ["n"; ""; ""; ""; ""; ""; ""; ""; ""; ""]
  | Some a =>
      ["s"; optional id (sta_pattern a); optional print_N (sta_max a); optional id (sta_content a);
       optional id (sta_comparison_path a); optional print_N (sta_max_bytes a);
       optional id (sta_destination_path a); optional print_bool (sta_allow_overwrite a);
       optional id (sta_replacement_text a); optional print_N (sta_max_chars a)]
  end.
Definition signature_code (s : SubmitJobRequestSignature) : list string :=
  actor_code (sig_actor s) ++ tool_args_code (sig_tool_args s) ++
  [sig_repository_id s; job_kind_code (sig_kind s); optional id (sig_goal s);
   optional id (sig_message s); optional id (sig_model_route_key s);
   optional id (sig_permission_mode_route_key s);
   scope_kind (sig_resource_scope s); scope_value (sig_resource_scope s)] ++
  sig_requested_capabilities s.

#[local] Instance optional_inj {A} (print : A → string) : Inj (=) (=) print → Inj (=) (=) (optional print).
Proof. intros Hp [x|] [y|] [=]; [|reflexivity]. f_equal. by apply Hp. Qed.
#[local] Instance print_N_inj : Inj (=) (=) print_N.
Proof. intros x y H%(inj bits). lia. Qed.
#[local] Instance print_bool_inj : Inj (=) (=) print_bool.
Proof. by intros [] []. Qed.
#[local] Instance actor_code_inj : Inj (=) (=) actor_code.
Proof. intros [] [] H; simplify_eq/=; try discriminate; try reflexivity; by apply (inj (optional id)) in H1 as ->. Qed.
#[local] Instance job_kind_code_inj : Inj (=) (=) job_kind_code.
Proof. by intros [] [] [=]; subst. Qed.
#[local] Instance tool_args_code_inj : Inj (=) (=) tool_args_code.
Proof.
  intros [[]|] [[]|] H; unfold tool_args_code in H; try discriminate H; [|reflexivity]. simpl in H.
  injection H. intros.
  repeat match goal with H : optional _ _ = optional _ _ |- _ => apply (inj _) in H end.
  congruence.
Qed.
Lemma length_actor_code a : length (actor_code a) = 3.
Proof. by destruct a. Qed.
Lemma length_tool_args_code a : length (tool_args_code a) = 10.
Proof. by destruct a. Qed.
#[local] Instance signature_code_inj : Inj (=) (=) signature_code.
Proof.
  intros [a1 r1 k1 g1 m1 o1 p1 [] c1 t1] [a2 r2 k2 g2 m2 o2 p2 [] c2 t2] H.
  unfold signature_code in H. cbn [sig_actor sig_tool_args] in H.
  apply app_inj_1 in H as [Ha H]; [|by rewrite !length_actor_code].
  apply app_inj_1 in H as [Ht H]; [|by rewrite !length_tool_args_code].
  cbn in H. injection H. intros.
  repeat match goal with H : optional _ _ = optional _ _ |- _ => apply (inj _) in H end.
  apply (inj actor_code) in Ha. apply (inj tool_args_code) in Ht.
  assert (k1 = k2) by by apply (inj job_kind_code). congruence.
Qed.

#[local] Instance bit_codec : SignatureCodec := {|
  signature_to_string s := bits (encode (signature_code s)) |}.
#[local] Instance bit_codec_laws : SignatureCodecLaws.
Proof.
  split.
  - intros x y Hxy. by apply (inj bits), (inj encode), (inj signature_code) in Hxy.
  - intros s. simpl. generalize (encode (signature_code s)). intros p.
    rewrite <- (of_to_bytes (bits p)). apply not_blank; [by destruct p|].
    destruct p as [[p|p|]|[p|p|]|]; try reflexivity; simpl; by destruct (to_bytes (bits p)).
Qed.

(** ** A daemon with one trusted repository *)

#[local] Instance silent_port : ToolPort := {|
  port_execute _ i _ src := (src, demo_result) |}.

Definition daemon : ServiceState (S := SharedStore) (F := unit) := {|
  sv_world := start_world []; sv_settings := mutex_new (service_new 0);
  sv_cache := mutex_new []; sv_locks := mutex_new ∅; sv_cancellation_requesters := ∅ |}.
Lemma daemon_ok : service_ok daemon.
Proof.
  split; [exact start_store_wf|split; [apply NoDup_nil_2|simpl; lia]|].
  intros key c H. inversion H.
Defined.

Definition hello (goal : string) : SubmitJobRequest := {|
  sub_requester := demo_user; sub_repository_id := repo_id demo_repository; sub_kind := JkRead;
  sub_goal := Some goal; sub_message := None; sub_model_route_key := None;
  sub_permission_mode_route_key := None; sub_resource_scope := None;
  sub_requested_capabilities := []; sub_tool_args := None;
  sub_idempotency_key := Some " key-1 "%string |}.
Definition first : ServiceState (S := SharedStore) (F := unit) * ServiceResult RuntimeJobReceipt :=
  submit_job tree (hello "hi") daemon.
Definition receipt_of (r : ServiceResult RuntimeJobReceipt) : RuntimeJobReceipt :=
  match r with Ok rc => rc | Err _ => demo_receipt end.
Definition first_receipt : RuntimeJobReceipt := receipt_of (snd first).
Lemma first_Ok : first = (first.1, Ok first_receipt).
Proof. vm_compute. reflexivity. Defined.

Lemma cached_receipts_are_durable_witness :
  ∃ c, cache_lookup (cached first.1) "key-1" = Some c ∧
    idempotent_submit_jobs (sview first.1) !! "key-1"%string =
      Some {| idem_signature := isj_signature c; idem_receipt := isj_receipt c |}.
Proof.
  destruct (cache_lookup (cached first.1) "key-1") as [c|] eqn:E; [|vm_compute in E; discriminate E].
  exists c. split; [reflexivity|].
  apply (cached_receipts_are_durable daemon first.1 "key-1" c (so_store _ daemon_ok) eq_refl); [|exact E].
  apply rtc_once. exact (step_submit tree (hello "hi") daemon first.1 _ first_Ok).
Defined.

(** The daemon restarts; the same request is replayed and another one refused. *)
Definition restart (s : ServiceState (S := SharedStore) (F := unit))
  : ServiceState (S := SharedStore) (F := unit) := {|
  sv_world := sv_world s; sv_settings := mutex_new (service_new 0);
  sv_cache := mutex_new []; sv_locks := mutex_new ∅; sv_cancellation_requesters := ∅ |}.
Lemma restart_steps s : rtc service_step s (restart s).
Proof. apply rtc_once. apply step_restart; reflexivity. Defined.
Definition restarted : ServiceState (S := SharedStore) (F := unit) := restart first.1.

Lemma submissions_run_once_per_key_witness :
  runs (submit_job tree (hello "hi") restarted).1 = runs restarted ∧
  (submit_job tree (hello "hi") restarted).2 = Ok first_receipt ∧
  (submit_job tree (hello "bye") restarted).2 = Err key_conflict.
Proof.
  assert (E : (submit_job tree (hello "hi") restarted).2 = Ok first_receipt)
    by (vm_compute; reflexivity).
  split; [|split; [exact E|vm_compute; reflexivity]].
  refine (proj1 (submissions_run_once_per_key tree (hello "hi") "key-1" daemon first.1 first_receipt
           restarted tree (hello "hi") (submit_job tree (hello "hi") restarted).1 (Ok first_receipt)
           daemon_ok _ _ first_Ok _ (restart_steps first.1) _)).
  - vm_compute. reflexivity.
  - vm_compute. reflexivity.
  - vm_compute. reflexivity.
  - rewrite <- E. apply surjective_pairing.
Defined.

(** ** Locks, capabilities and listings *)

(** Two threads with the lock of a key: one succeeds, then the other enters. *)
Definition lock_state (phases : gmap ThreadId Phase) (succeeded : list Key) : LockState := {|
  ls_map := <["k"%string := 0]> ∅; ls_next := 1; ls_threads := phases; ls_poisoned := ∅;
  ls_bound := list_to_set succeeded; ls_succeeded := succeeded |}.
Definition second_inside : LockState :=
  lock_state (<[8 := Inside "k" 0]> (<[7 := Released "k" 0]> ∅)) ["k"%string].

Lemma second_reached : rtc lock_step (no_threads ∅) second_inside.
Proof.
  eapply rtc_l; [exact (step_create (no_threads ∅) 7 "k" eq_refl eq_refl)|].
  eapply rtc_l; [apply (step_clone _ 8 "k" 0); reflexivity|].
  eapply rtc_l; [apply (step_enter _ 7 "k" 0); [reflexivity|set_solver|]|].
  { intros t p key'. simpl. rewrite !lookup_insert_Some, lookup_empty. naive_solver. }
  eapply rtc_l; [apply (step_run _ 7 "k" 0); [reflexivity|set_solver]|].
  eapply rtc_l; [apply (step_succeed _ 7 "k" 0); reflexivity|].
  eapply rtc_l; [apply (step_enter _ 8 "k" 0); [reflexivity|set_solver|]|].
  { intros t p key'. simpl. rewrite !lookup_insert_Some, lookup_empty. naive_solver. }
  match goal with |- rtc _ ?a ?b => assert (a = b) as -> by (vm_compute; reflexivity) end. apply rtc_refl.
Qed.
Lemma keys_are_exclusive_witness :
  ls_threads second_inside !! 8 = Some (Inside "k" 0) ∧
  (∀ t p l, ls_threads second_inside !! t = Some p → guard p = Some ("k"%string, l) → 8 = t) ∧
  "k"%string ∉ (∅ : gset Key).
Proof.
  assert (Ht : ls_threads second_inside !! 8 = Some (Inside "k" 0)) by (vm_compute; reflexivity).
  pose proof (keys_are_exclusive ∅ second_inside second_reached) as (Hone & _ & _ & Hfresh & _).
  split; [exact Ht|]. split.
  - intros t p l Hp G. exact (Hone 8 t _ p "k"%string 0 l Ht Hp eq_refl G).
  - apply Hfresh. left.
Defined.
Lemma capabilities_normalise_witness :
  normalize_requested_capabilities ["fs.stat"; " fs.read "; "FILESYSTEM.STAT"]%string =
    Ok ["filesystem.read"; "filesystem.stat"]%string ∧
  normalize_requested_capabilities ["filesystem.read"; "filesystem.stat"]%string =
    Ok ["filesystem.read"; "filesystem.stat"]%string.
Proof.
  assert (E : normalize_requested_capabilities ["fs.stat"; " fs.read "; "FILESYSTEM.STAT"]%string =
                Ok ["filesystem.read"; "filesystem.stat"]%string) by (vm_compute; reflexivity).
  split; [exact E|]. apply (capabilities_normalise _ _ E).
Defined.

Definition move_submission : SubmitJobRequest := {|
  sub_requester := demo_user; sub_repository_id := repo_id demo_repository; sub_kind := JkMutate;
  sub_goal := None; sub_message := None; sub_model_route_key := None;
  sub_permission_mode_route_key := None; sub_resource_scope := Some (scope_of "src/main");
  sub_requested_capabilities := ["fs.move"]; sub_tool_args := None; sub_idempotency_key := None |}.

Lemma submissions_select_one_tool_witness :
  resolve_submit_job_tool_kind move_submission ["filesystem.move"] = Ok KindFsMove ∧
  may_mutate move_submission.
Proof.
  assert (E : resolve_submit_job_tool_kind move_submission ["filesystem.move"] = Ok KindFsMove)
    by (vm_compute; reflexivity).
  split; [exact E|].
  destruct (submissions_select_one_tool tree src_repository (scope_of "src/main") move_submission _ _
              move_spec move_tool E eq_refl) as (_ & _ & _ & H & _).
  apply H. vm_compute. reflexivity.
Defined.

Lemma repository_pages_visit_every_match_witness :
  ∃ found, follow_pages (fetch_repositories (Some Trusted) 1 [src_repository]) 2 None = Some found ∧
    found ≡ₚ [src_repository].
Proof.
  destruct (repository_pages_visit_every_match (Some Trusted) 1 [src_repository] ltac:(lia)
              ltac:(vm_compute; discriminate)) as (found & Hf & _ & Hp).
  exists found. split; [exact Hf|exact Hp].
Defined.

Lemma settings_history_pages_visit_every_change_witness :
  follow_pages (fetch_history None 2 daemon) 1 None = Some [].
Proof.
  exact (settings_history_pages_visit_every_change None 2 daemon ltac:(lia)
           ltac:(vm_compute; discriminate) eq_refl ltac:(vm_compute; discriminate)).
Defined.

(** ** A second repository *)

Definition other_repository : RegisterRepositoryRequest := {|
  rrr_display_name := "other"; rrr_root_path := " /srv/other "; rrr_trust_state := Trusted;
  rrr_allowed_scope := Some {| ps_root_path := "/"; ps_allowed_paths := [".git"] |};
  rrr_requester := None |}.
Definition registered
  : ServiceState (S := SharedStore) (F := unit) * ServiceResult RepositoryRecord :=
  register_repository tree other_repository daemon.
Definition record_of (r : ServiceResult RepositoryRecord) : RepositoryRecord :=
  match r with Ok record => record | Err _ => demo_repository end.
Definition other_record : RepositoryRecord := record_of (snd registered).

Lemma registrations_are_sound_witness :
  registered = (registered.1, Ok other_record) ∧ requested tree other_repository other_record ∧
  repositories (sview registered.1) !! repo_id other_record = Some other_record.
Proof.
  assert (E : registered = (registered.1, Ok other_record)) by (vm_compute; reflexivity).
  split; [exact E|].
  destruct (registrations_are_sound tree other_repository daemon registered.1 other_record
              (so_store _ daemon_ok) E) as ((_ & Hr & _) & Hs & _).
  split; [exact Hr|exact Hs].
Defined.
End ServiceDemo.
