(* ===== verification/Rpc.v ===== *)
(** * Rpc: messages of the RPC boundary and their conversion ([crates/ateliad/src/rpc.rs])

    The data a client sends and receives, the conversions between it and the
    records of the core, and the errors.  Types that the core has too keep their
    name here; the core's are written with their file. *)
From S2P Require Import Prelude Text Domain DomainLaws Policy StoreTypes Settings Truncation.
From S2P Require Import Spill StoreValidate StoreJobs Store StoreQuery.
From S2P Require Import Backend Runtime RunJob Paths Manifest ManifestCheck Registry RegistryAudit RegistryOps.
From S2P Require Import Packages Tools Submission Service Repositories.

(** ** Errors *)

Inductive RpcErrorCode :=
  | RcInvalidArgument | RcNotFound | RcCursorExpired | RcConflict | RcUnsupportedCapability | RcInternal.
#[export] Instance RpcErrorCode_eq_dec : EqDecision RpcErrorCode.
Proof. solve_decision. Defined.

(** [to_string()] of an error of the core, unrendered. *)
Inductive Reason :=
  | Said (m : Message)
  | OfStore (e : StoreError)
  | OfRuntime (e : RuntimeError)
  | OfRegistry (e : RegistryError)
  | OfValidation (e : ExtensionValidationError)
  | OfSettings (e : ToolOutputSettingsError).
Record RpcError := { re_code : RpcErrorCode; re_reason : Reason }.
Abbreviation RpcResult := (result RpcError).

Definition invalid_argument (reason : Message) : RpcError :=
  {| re_code := RcInvalidArgument; re_reason := Said reason |}.

Definition store_error_to_rpc (error : StoreError) : RpcError :=
  let code :=
    match error with
    | NotFound _ _ => RcNotFound
    | DuplicateId _ _ | Conflict _ _ => RcConflict
    | InvalidReference _ _ | InvalidCursor _ | InvalidRecord _ _ => RcInvalidArgument
    | CursorExpired _ => RcCursorExpired
    | SequenceOverflow => RcInternal
    end in
  {| re_code := code; re_reason := OfStore error |}.

Definition registry_error_to_rpc (error : RegistryError) : RpcError :=
  match error with
  | RegValidation e => {| re_code := RcInvalidArgument; re_reason := OfValidation e |}
  | UnsupportedBlocklistKey key =>
      invalid_argument (Fmt "unsupported blocklist key: {key:?}" [AMsg (block_key_debug key)])
  | RegBlocked _ _ _ | DigestConflict _ _ | SourceChangeRequiresApproval _ | RollbackUnavailable _ =>
      {| re_code := RcConflict; re_reason := OfRegistry error |}
  | ServiceDenied _ => {| re_code := RcInvalidArgument; re_reason := OfRegistry error |}
  | NotInstalled _ => {| re_code := RcNotFound; re_reason := OfRegistry error |}
  | ServiceUnavailable _ => {| re_code := RcInternal; re_reason := OfRegistry error |}
  end.

(** [From<ServiceError>] *)
Definition rpc_error_of (error : ServiceError) : RpcError :=
  match error with
  | SvcInvalidArgument reason => invalid_argument reason
  | SvcConflict reason => {| re_code := RcConflict; re_reason := Said reason |}
  | SvcSettings err => {| re_code := RcInvalidArgument; re_reason := OfSettings err |}
  | SvcUnsupportedCapability reason => {| re_code := RcUnsupportedCapability; re_reason := Said reason |}
  | SvcStore error => store_error_to_rpc error
  | SvcRuntime error => {| re_code := RcInternal; re_reason := OfRuntime error |}
  | SvcExtensionRegistry error => registry_error_to_rpc error
  | SvcInternal reason => {| re_code := RcInternal; re_reason := Said reason |}
  end.

(** [.map(f).transpose()?] *)
Definition try_opt {E A B} (f : A → result E B) (o : option A) : result E (option B) :=
  match o with Some a => let? b := f a in Ok (Some b) | None => Ok None end.

(** ** Metadata, health and labels *)

Record ProtocolMetadata := {
  pm_protocol_version : string;
  pm_daemon_version : string;
  pm_storage_version : string;
  pm_capabilities : list string
}.
Definition metadata : ProtocolMetadata := {|
  pm_protocol_version := PROTOCOL_VERSION; pm_daemon_version := DAEMON_VERSION;
  pm_storage_version := STORAGE_VERSION; pm_capabilities := DAEMON_CAPABILITIES |}.

Definition daemon_status_label (status : DaemonStatus) : string :=
  match status with
  | DmStarting => "starting" | DmRunning => "running" | DmReady => "ready"
  | DmDegraded => "degraded" | DmStopping => "stopping"
  end.
Definition storage_status_label (status : StorageStatus) : string :=
  match status with
  | StReady => "ready" | StMigrating => "migrating" | StReadOnly => "read_only"
  | StUnavailable => "unavailable"
  end.
Definition health_status_label (daemon_status : DaemonStatus) (storage_status : StorageStatus) : string :=
  match storage_status, daemon_status with
  | StUnavailable, _ => "unavailable"
  | (StMigrating | StReadOnly), _ => "degraded"
  | _, DmDegraded => "degraded"
  | _, _ => daemon_status_label daemon_status
  end.
Definition job_kind_label (kind : JobKind) : string :=
  match kind with
  | JkRead => "read" | JkMutate => "mutate" | JkProcess => "process" | JkMaintenance => "maintenance"
  | JkOther name => name
  end.
Definition job_status_label (status : JobStatus) : string :=
  match status with
  | Queued => "queued" | Running => "running" | Succeeded => "succeeded" | Failed => "failed"
  | Blocked => "blocked" | Canceled => "canceled"
  end.
Definition cancellation_state_label (state : CancellationState) : string :=
  match state with
  | NotRequested => "not_requested" | Requested => "requested" | CooperativeStop => "cooperative_stop"
  | ForceStop => "force_stop" | CancelCompleted => "completed"
  end.
Definition policy_outcome_label (outcome : PolicyOutcome) : string :=
  match outcome with
  | Allowed => "allowed" | Audited => "audited" | NeedsApproval => "needs_approval"
  | PolicyBlocked => "blocked"
  end.
Definition risk_tier_label (risk_tier : RiskTier) : string :=
  match risk_tier with R0 => "r0" | R1 => "r1" | R2 => "r2" | R3 => "r3" | R4 => "r4" end.
Definition rpc_event_kind_label (kind : JobEventKind) : string :=
  match kind with
  | JobSubmitted => "job_submitted"
  | JobStatusChanged _ _ => "job_status_changed"
  | PolicyDecided _ => "policy_decided"
  | LockHeldEvent => "lock_held"
  | LockReleasedEvent => "lock_released"
  | LockReclaimedEvent => "lock_reclaimed"
  | ToolInvoked _ => "tool_invoked"
  | ToolResultRecorded _ => "tool_result_recorded"
  | AuditRecorded => "audit_recorded"
  | CancellationRequested => "cancellation_requested"
  | RecoveryActionRecorded => "recovery_action_recorded"
  | MessageEvent => "message"
  end.

Record HealthResponse := {
  hr_status : string;
  hr_daemon_version : string;
  hr_protocol_version : string;
  hr_storage_version : string;
  hr_storage_status : string;
  hr_daemon_status : string;
  hr_beta_state : option BetaStateHint;
  hr_capabilities : list string
}.
Definition health_response (health : DaemonHealth) : HealthResponse := {|
  hr_status := health_status_label (dh_daemon_status health) (dh_storage_status health);
  hr_daemon_version := dh_daemon_version health;
  hr_protocol_version := dh_protocol_version health;
  hr_storage_version := dh_storage_version health;
  hr_storage_status := storage_status_label (dh_storage_status health);
  hr_daemon_status := daemon_status_label (dh_daemon_status health);
  hr_beta_state := Some (dh_beta_state health); hr_capabilities := dh_capabilities health |}.

(** ** Actors *)

Inductive RpcActorDto :=
  | RpcUser (id : string) (display_name : option string)
  | RpcAgent (id : string) (display_name : option string)
  | RpcExtension (id : string)
  | RpcSystem (id : string).
Definition actor_dto (actor : Actor) : RpcActorDto :=
  match actor with
  | User id display_name => RpcUser id display_name
  | Agent id display_name => RpcAgent id display_name
  | Extension id => RpcExtension id
  | System id => RpcSystem id
  end.
Definition empty_actor_id : RpcError := invalid_argument (msg "actor.id must not be empty").
Definition actor_of (value : RpcActorDto) : RpcResult Actor :=
  match value with
  | RpcUser id display_name =>
      reject? str_is_empty (trim id) with empty_actor_id in Ok (User id display_name)
  | RpcAgent id display_name =>
      reject? str_is_empty (trim id) with empty_actor_id in Ok (Agent id display_name)
  | RpcExtension id => reject? str_is_empty (trim id) with empty_actor_id in Ok (Extension id)
  | RpcSystem id => reject? str_is_empty (trim id) with empty_actor_id in Ok (System id)
  end.

(** ** Output settings *)

Inductive RpcOutputFormat := RpcToon | RpcJson | RpcText.
Definition format_dto (format : OutputFormat) : RpcOutputFormat :=
  match format with Toon => RpcToon | Json => RpcJson | Text => RpcText end.
Definition format_of (value : RpcOutputFormat) : RpcResult OutputFormat :=
  Ok (match value with RpcToon => Toon | RpcJson => Json | RpcText => Text end).
Inductive RpcToolOutputVerbosity := RpcMinimal | RpcNormal | RpcExpanded | RpcDebugVerbosity.
Definition verbosity_dto (verbosity : ToolOutputVerbosity) : RpcToolOutputVerbosity :=
  match verbosity with
  | Minimal => RpcMinimal | NormalVerbosity => RpcNormal | Expanded => RpcExpanded
  | DebugVerbosity => RpcDebugVerbosity
  end.
Definition verbosity_of (value : RpcToolOutputVerbosity) : RpcResult ToolOutputVerbosity :=
  Ok (match value with
      | RpcMinimal => Minimal | RpcNormal => NormalVerbosity | RpcExpanded => Expanded
      | RpcDebugVerbosity => DebugVerbosity
      end).
Inductive RpcToolOutputGranularity := RpcSummary | RpcKeyFields | RpcFull.
Definition granularity_dto (granularity : ToolOutputGranularity) : RpcToolOutputGranularity :=
  match granularity with Summary => RpcSummary | KeyFields => RpcKeyFields | Full => RpcFull end.
Definition granularity_of (value : RpcToolOutputGranularity) : RpcResult ToolOutputGranularity :=
  Ok (match value with RpcSummary => Summary | RpcKeyFields => KeyFields | RpcFull => Full end).
Inductive RpcOversizeOutputPolicy := RpcTruncateWithMetadata | RpcSpillToArtifactRef | RpcRejectOversize.
Definition oversize_dto (policy : OversizeOutputPolicy) : RpcOversizeOutputPolicy :=
  match policy with
  | TruncateWithMetadata => RpcTruncateWithMetadata | SpillToArtifactRef => RpcSpillToArtifactRef
  | RejectOversize => RpcRejectOversize
  end.
Definition oversize_of (value : RpcOversizeOutputPolicy) : RpcResult OversizeOutputPolicy :=
  Ok (match value with
      | RpcTruncateWithMetadata => TruncateWithMetadata | RpcSpillToArtifactRef => SpillToArtifactRef
      | RpcRejectOversize => RejectOversize
      end).

Record RpcToolOutputRenderOptions := {
  rro_format : RpcOutputFormat;
  rro_include_policy : bool;
  rro_include_diagnostics : bool;
  rro_include_cost : bool
}.
Definition render_options_dto (options : RenderOptions) : RpcToolOutputRenderOptions := {|
  rro_format := format_dto (rend_format options); rro_include_policy := rend_include_policy options;
  rro_include_diagnostics := rend_include_diagnostics options;
  rro_include_cost := rend_include_cost options |}.
Record RpcToolOutputDefaults := {
  rd_render_options : RpcToolOutputRenderOptions;
  rd_max_inline_bytes : N;
  rd_max_inline_lines : N;
  rd_verbosity : RpcToolOutputVerbosity;
  rd_granularity : RpcToolOutputGranularity;
  rd_oversize_policy : RpcOversizeOutputPolicy
}.
Definition defaults_dto (defaults : ToolOutputDefaults) : RpcToolOutputDefaults := {|
  rd_render_options := render_options_dto (def_render_options defaults);
  rd_max_inline_bytes := def_max_inline_bytes defaults;
  rd_max_inline_lines := def_max_inline_lines defaults;
  rd_verbosity := verbosity_dto (def_verbosity defaults);
  rd_granularity := granularity_dto (def_granularity defaults);
  rd_oversize_policy := oversize_dto (def_oversize_policy defaults) |}.
Record RpcToolOutputOverrides := {
  rov_format : option RpcOutputFormat;
  rov_include_policy : option bool;
  rov_include_diagnostics : option bool;
  rov_include_cost : option bool;
  rov_max_inline_bytes : option N;
  rov_max_inline_lines : option N;
  rov_verbosity : option RpcToolOutputVerbosity;
  rov_granularity : option RpcToolOutputGranularity;
  rov_oversize_policy : option RpcOversizeOutputPolicy
}.
Definition parse_tool_output_overrides (request : RpcToolOutputOverrides) : RpcResult ToolOutputOverrides :=
  let? format := try_opt format_of (rov_format request) in
  let? verbosity := try_opt verbosity_of (rov_verbosity request) in
  let? granularity := try_opt granularity_of (rov_granularity request) in
  let? oversize_policy := try_opt oversize_of (rov_oversize_policy request) in
  Ok {| ov_format := format; ov_include_policy := rov_include_policy request;
        ov_include_diagnostics := rov_include_diagnostics request;
        ov_include_cost := rov_include_cost request;
        ov_max_inline_bytes := rov_max_inline_bytes request;
        ov_max_inline_lines := rov_max_inline_lines request; ov_verbosity := verbosity;
        ov_granularity := granularity; ov_oversize_policy := oversize_policy |}.

Inductive RpcToolOutputScopeLevel :=
  | RlWorkspace
  | RlRepository (repository_id : string)
  | RlProject (project_id : string)
  | RlSession (session_id : string)
  | RlAgentProfile (agent_id : string).
Record RpcToolOutputScope := { rs_level : RpcToolOutputScopeLevel; rs_tool_id : option string }.

(** [serde_json] on a [ProjectId], a UUID: what it reads between two quotes, as
    the text it writes. *)
Class ProjectIdLib := { project_from_str : string → option string }.

Section Ids.
Context `{UuidLib}.

Definition parse_repository_id (value : string) : RpcResult RepositoryId :=
  map_err (λ _, invalid_argument (msg "repository_id must be a valid repository id"))
    (try_from_string RepositoryIdKind value).
Definition parse_job_id (value : string) : RpcResult JobId :=
  map_err (λ _, invalid_argument (msg "job_id must be a valid job id")) (try_from_string JobIdKind value).
Definition parse_event_id (value : string) : RpcResult JobEventId :=
  map_err (λ _, invalid_argument (msg "event_id must be a valid event id"))
    (try_from_string JobEventIdKind value).
Definition parse_tool_result_id (value : string) : RpcResult ToolResultId :=
  map_err (λ _, invalid_argument (msg "tool_result.tool_result_id must be a valid tool result id"))
    (try_from_string ToolResultIdKind value).

Definition parse_non_empty_field (field_name value : string) : RpcResult string :=
  let normalized := trim value in
  reject? str_is_empty normalized
    with invalid_argument (Fmt "{field_name} must not be empty" [AStr field_name]) in
  Ok normalized.

Section Scopes.
Context `{ProjectIdLib}.

Definition parse_project_id (value : string) : RpcResult string :=
  let trimmed := trim value in
  reject? str_is_empty trimmed
    with invalid_argument (msg "tool_output project scope requires a non-empty project_id") in
  ok_or (project_from_str trimmed) (invalid_argument (msg "tool_output project_id must be a valid UUID")).

Definition non_blank (value reason : string) : RpcResult string :=
  let trimmed := trim value in
  reject? str_is_empty trimmed with invalid_argument (msg reason) in Ok trimmed.

Definition parse_tool_output_scope (request : RpcToolOutputScope) : RpcResult ToolOutputSettingsScope :=
  let tool_id := try_opt (λ id, non_blank id "tool_output scope.tool_id must not be empty when provided")
                   (rs_tool_id request) in
  let? level :=
    match rs_level request with
    | RlWorkspace => Ok LvWorkspace
    | RlRepository repository_id =>
        let? repository_id := parse_repository_id (trim repository_id) in Ok (LvRepository repository_id)
    | RlProject project_id =>
        let? project_id := parse_project_id project_id in Ok (LvProject project_id)
    | RlSession session_id =>
        let? session_id :=
          non_blank session_id "tool_output session scope requires a non-empty session_id" in
        Ok (LvSession session_id)
    | RlAgentProfile agent_id =>
        let? agent_id :=
          non_blank agent_id "tool_output agent_profile scope requires a non-empty agent_id" in
        Ok (LvAgentProfile agent_id)
    end in
  let scope := {| scope_level := level; scope_tool_id := None |} in
  let? tool_id := tool_id in
  Ok (match tool_id with Some tool_id => for_tool scope tool_id | None => scope end).

(** [TryFrom<ToolOutputSettingsScope>]; a UUID always serialises to a string. *)
Definition scope_dto (scope : ToolOutputSettingsScope) : RpcResult RpcToolOutputScope :=
  Ok {| rs_level :=
          match scope_level scope with
          | LvWorkspace => RlWorkspace
          | LvRepository repository_id => RlRepository (as_str repository_id)
          | LvProject project_id => RlProject project_id
          | LvSession session_id => RlSession session_id
          | LvAgentProfile agent_id => RlAgentProfile agent_id
          end;
        rs_tool_id := scope_tool_id scope |}.
End Scopes.

Record RpcToolOutputSettingsChange := {
  rch_schema_version : N;
  rch_actor : RpcActorDto;
  rch_scope : RpcToolOutputScope;
  rch_old_defaults : RpcToolOutputDefaults;
  rch_new_defaults : RpcToolOutputDefaults;
  rch_reason : string;
  rch_changed_at_unix_ms : Z
}.
Definition change_dto (change : ToolOutputSettingsChange) : RpcResult RpcToolOutputSettingsChange :=
  let? scope := scope_dto (chg_scope change) in
  Ok {| rch_schema_version := chg_schema_version change; rch_actor := actor_dto (chg_actor change);
        rch_scope := scope; rch_old_defaults := defaults_dto (chg_old_defaults change);
        rch_new_defaults := defaults_dto (chg_new_defaults change); rch_reason := chg_reason change;
        rch_changed_at_unix_ms := chg_changed_at change |}.

(** ** Repositories and paths *)

Inductive RpcPathScopeKind := PkUnspecified | PkRepository | PkExplicitPaths | PkReadOnly.
Record RpcPathScope := {
  rps_kind : RpcPathScopeKind;
  rps_roots : list string;
  rps_include_patterns : list string;
  rps_exclude_patterns : list string
}.

Definition infer_repository_trust_state (allowed_scope : option RpcPathScope) : RepositoryTrustState :=
  match option_map rps_kind allowed_scope with Some PkReadOnly => ReadOnly | _ => Trusted end.

Definition parse_repository_allowed_scope (value : RpcPathScope) (repository_root : string)
  : RpcResult PathScope :=
  reject? negb (bool_decide (rps_include_patterns value = [])) || negb (bool_decide (rps_exclude_patterns value = []))
    with invalid_argument (msg "repository allowed_scope include_patterns/exclude_patterns are not yet supported") in
  reject? (1 <? length (rps_roots value))%nat
    with invalid_argument (msg "repository allowed_scope currently supports only one root entry") in
  let first_root := default "." (head (rps_roots value)) in
  Ok {| ps_root_path := repository_root; ps_allowed_paths := [first_root] |}.

Definition rpc_path_scope_kind (allowed_scope : PathScope) (trust_state : RepositoryTrustState)
  : RpcPathScopeKind :=
  match trust_state with
  | ReadOnly => PkReadOnly
  | _ =>
      match ps_allowed_paths allowed_scope with
      | [] => PkRepository
      | [path] => if str_eqb path "." || str_eqb path (ps_root_path allowed_scope) then PkRepository
                  else PkExplicitPaths
      | _ => PkExplicitPaths
      end
  end.
Definition rpc_path_scope_from_record (allowed_scope : PathScope) (trust_state : RepositoryTrustState)
  : RpcPathScope := {|
  rps_kind := rpc_path_scope_kind allowed_scope trust_state;
  rps_roots := if bool_decide (ps_allowed_paths allowed_scope = []) then [ps_root_path allowed_scope]
               else ps_allowed_paths allowed_scope;
  rps_include_patterns := []; rps_exclude_patterns := [] |}.

Definition default_resource_scope : ResourceScope := {| scope_kind := "repository"; scope_value := "." |}.
Definition parse_path_scope (value : RpcPathScope) : RpcResult (option ResourceScope) :=
  if bool_decide (rps_include_patterns value = []) && bool_decide (rps_exclude_patterns value = []) then
    let at_root scope_kind :=
      reject? (1 <? length (rps_roots value))%nat
        with invalid_argument (msg "path_scope currently supports only one root entry") in
      Ok (Some {| scope_kind := scope_kind; scope_value := default "." (head (rps_roots value)) |}) in
    match rps_kind value with
    | PkUnspecified =>
        if bool_decide (rps_roots value = []) then Ok None
        else Err (invalid_argument (msg "path_scope kind is required when roots are provided"))
    | PkRepository => at_root "repository"
    | PkExplicitPaths => at_root "explicit_paths"
    | PkReadOnly => at_root "read_only"
    end
  else Err (invalid_argument (msg "path_scope include_patterns and exclude_patterns are not supported yet")).

Inductive RpcRepositoryTrustState := RtUnspecified | RtTrusted | RtReadOnly | RtBlocked.
Definition trust_state_dto (value : RepositoryTrustState) : RpcRepositoryTrustState :=
  match value with Trusted => RtTrusted | ReadOnly => RtReadOnly | TrustBlocked => RtBlocked end.
Definition trust_state_of (value : RpcRepositoryTrustState) : RpcResult RepositoryTrustState :=
  match value with
  | RtUnspecified => Err (invalid_argument (msg "trust_state is required"))
  | RtTrusted => Ok Trusted | RtReadOnly => Ok ReadOnly | RtBlocked => Ok TrustBlocked
  end.

Record Repository := {
  rp_repository_id : string;
  rp_display_name : string;
  rp_root_path : string;
  rp_allowed_scope : RpcPathScope;
  rp_trust_state : RpcRepositoryTrustState;
  rp_created_at_unix_ms : Z;
  rp_updated_at_unix_ms : Z
}.
Definition repository_dto (record : RepositoryRecord) : Repository := {|
  rp_repository_id := as_str (repo_id record); rp_display_name := repo_display_name record;
  rp_root_path := repo_root_path record;
  rp_allowed_scope := rpc_path_scope_from_record (repo_allowed_path_scope record) (repo_trust_state record);
  rp_trust_state := trust_state_dto (repo_trust_state record);
  rp_created_at_unix_ms := repo_created_at record; rp_updated_at_unix_ms := repo_updated_at record |}.

Record RegisterRepositoryRequest := {
  rr_display_name : string;
  rr_root_path : string;
  rr_allowed_scope : option RpcPathScope;
  rr_requester : option RpcActorDto
}.
Record ListRepositoriesRequest := {
  lr_trust_state : option RpcRepositoryTrustState;
  lr_page_size : option N;
  lr_page_token : option string
}.
Definition parse_list_repositories_request (request : ListRepositoriesRequest)
  : RpcResult Repositories.ListRepositoriesRequest :=
  let? trust_state :=
    match lr_trust_state request with
    | Some RtUnspecified | None => Ok None
    | Some state => let? state := trust_state_of state in Ok (Some state)
    end in
  Ok {| lrr_trust_state := trust_state; lrr_page_size := lr_page_size request;
        lrr_page_token := lr_page_token request |}.

(** ** Jobs *)

Definition parse_job_kind (value : string) : RpcResult JobKind :=
  let trimmed := trim value in
  reject? str_is_empty trimmed with invalid_argument (msg "kind must not be empty") in
  let lower := to_ascii_lowercase trimmed in
  Ok (if str_eqb lower "read" then JkRead
      else if str_eqb lower "mutate" then JkMutate
      else if str_eqb lower "process" then JkProcess
      else if str_eqb lower "maintenance" then JkMaintenance
      else JkOther trimmed).

Inductive RpcJobStatus :=
  | RsUnspecified | RsQueued | RsRunning | RsSucceeded | RsFailed | RsBlocked | RsCanceled.
Definition job_status_of (value : RpcJobStatus) : RpcResult JobStatus :=
  match value with
  | RsUnspecified => Err (invalid_argument (msg "status is required"))
  | RsQueued => Ok Queued | RsRunning => Ok Running | RsSucceeded => Ok Succeeded
  | RsFailed => Ok Failed | RsBlocked => Ok Blocked | RsCanceled => Ok Canceled
  end.
Definition job_status_from_rpc (status : RpcJobStatus) : RpcResult (option JobStatus) :=
  match status with
  | RsUnspecified => Ok None
  | status => let? s := job_status_of status in Ok (Some s)
  end.

Record JobCancellation := {
  jc_state : string;
  jc_requested_by : option RpcActorDto;
  jc_reason : option string;
  jc_requested_at_unix_ms : option Z;
  jc_completed_at_unix_ms : option Z
}.
Record PolicySummary := {
  rpsum_decision_id : option string;
  rpsum_outcome : string;
  rpsum_risk_tier : string;
  rpsum_reason_code : string
}.
Definition policy_summary_dto (summary : Domain.PolicySummary) : PolicySummary := {|
  rpsum_decision_id := option_map as_str (ps_decision_id summary);
  rpsum_outcome := policy_outcome_label (ps_outcome summary);
  rpsum_risk_tier := risk_tier_label (ps_risk_tier summary);
  rpsum_reason_code := ps_reason_code summary |}.
Record Job := {
  rj_job_id : string;
  rj_repository_id : string;
  rj_requester : RpcActorDto;
  rj_kind : string;
  rj_goal : option string;
  rj_status : string;
  rj_policy_summary : option PolicySummary;
  rj_created_at_unix_ms : Z;
  rj_started_at_unix_ms : option Z;
  rj_completed_at_unix_ms : option Z;
  rj_latest_event_id : option string;
  rj_cancellation : JobCancellation
}.
Definition job_cancellation_from_record (record : JobRecord) (requested_by : option Actor)
  : JobCancellation := {|
  jc_state := cancellation_state_label (job_cancellation_state record);
  jc_requested_by := option_map actor_dto requested_by; jc_reason := None;
  jc_requested_at_unix_ms := None;
  jc_completed_at_unix_ms :=
    match job_cancellation_state record with CancelCompleted => job_completed_at record | _ => None end |}.
Definition from_with_cancellation_requester (record : JobRecord) (cancellation_requester : option Actor)
  : Job := {|
  rj_job_id := as_str (job_id record); rj_repository_id := as_str (job_repository_id record);
  rj_requester := actor_dto (job_requester record); rj_kind := job_kind_label (job_kind record);
  rj_goal := job_goal record; rj_status := job_status_label (job_status record);
  rj_policy_summary := option_map policy_summary_dto (job_policy_summary record);
  rj_created_at_unix_ms := job_created_at record; rj_started_at_unix_ms := job_started_at record;
  rj_completed_at_unix_ms := job_completed_at record;
  rj_latest_event_id := option_map as_str (job_latest_event_id record);
  rj_cancellation := job_cancellation_from_record record cancellation_requester |}.
Definition job_dto (record : JobRecord) : Job := from_with_cancellation_requester record None.

Definition is_cancellation_requested (event : JobEvent) : bool :=
  match evt_kind event with CancellationRequested => true | _ => false end.
Definition job_cancellation_from_receipt (receipt : CancelJobReceipt) (requested_by : option Actor)
  : JobCancellation :=
  let requested_event := find_bool is_cancellation_requested (can_events receipt) in
  {| jc_state := cancellation_state_label (job_cancellation_state (can_job receipt));
     jc_requested_by := option_map actor_dto requested_by;
     jc_reason := option_map evt_public_message requested_event;
     jc_requested_at_unix_ms := option_map evt_created_at requested_event;
     jc_completed_at_unix_ms := job_completed_at (can_job receipt) |}.
Definition with_cancellation (job : Job) (c : JobCancellation) : Job := {|
  rj_job_id := rj_job_id job; rj_repository_id := rj_repository_id job; rj_requester := rj_requester job;
  rj_kind := rj_kind job; rj_goal := rj_goal job; rj_status := rj_status job;
  rj_policy_summary := rj_policy_summary job; rj_created_at_unix_ms := rj_created_at_unix_ms job;
  rj_started_at_unix_ms := rj_started_at_unix_ms job;
  rj_completed_at_unix_ms := rj_completed_at_unix_ms job;
  rj_latest_event_id := rj_latest_event_id job; rj_cancellation := c |}.
Definition job_from_cancel_receipt (receipt : CancelJobReceipt) (cancellation_requester : option Actor)
  : Job * JobCancellation :=
  let cancellation := job_cancellation_from_receipt receipt cancellation_requester in
  let job := from_with_cancellation_requester (can_job receipt) cancellation_requester in
  (with_cancellation job cancellation, cancellation).

Record PolicyDecision := {
  rpd_decision_id : string;
  rpd_outcome : string;
  rpd_risk_tier : string;
  rpd_requested_capability : string;
  rpd_reason_code : string;
  rpd_reason : string;
  rpd_approval_request_ref : option string;
  rpd_audit_ref : option string
}.
Definition policy_decision_to_rpc (decision : Domain.PolicyDecision) : PolicyDecision := {|
  rpd_decision_id := as_str (pol_id decision);
  rpd_outcome := policy_outcome_label (pol_outcome decision);
  rpd_risk_tier := risk_tier_label (pol_risk_tier decision);
  rpd_requested_capability := pol_requested_capability decision;
  rpd_reason_code := pol_reason_code decision; rpd_reason := pol_user_reason decision;
  rpd_approval_request_ref := option_map (λ r, as_str (oref_id r)) (pol_approval_request_ref decision);
  rpd_audit_ref := option_map as_str (pol_audit_ref decision) |}.

Record SubmitJobRequest := {
  sj_repository_id : string;
  sj_requester : RpcActorDto;
  sj_kind : string;
  sj_goal : option string;
  sj_message : option string;
  sj_model_route_key : option string;
  sj_permission_mode_route_key : option string;
  sj_path_scope : option RpcPathScope;
  sj_requested_capabilities : list string;
  sj_tool_args : option SubmitJobToolArgs;
  sj_idempotency_key : option string
}.
Record ListJobsRequest := {
  lj_repository_id : option string;
  lj_status : option RpcJobStatus;
  lj_requester : option RpcActorDto;
  lj_page_size : option N;
  lj_page_token : option string
}.
Record CancelJobRequest := { cj_job_id : string; cj_requester : RpcActorDto; cj_reason : string }.

(** ** Tool results *)

Record ToolResultRef := {
  trr_tool_result_id : string;
  trr_tool_invocation_id : string;
  trr_job_id : string;
  trr_repository_id : string;
  trr_content_type : string
}.
Record ParsedToolResultRef := {
  ptr_tool_result_id : ToolResultId;
  ptr_tool_invocation_id : ToolInvocationId;
  ptr_job_id : JobId;
  ptr_repository_id : RepositoryId;
  ptr_content_type : string
}.
Definition parse_tool_result_ref (tool_result : ToolResultRef) : RpcResult ParsedToolResultRef :=
  let? text := parse_non_empty_field "tool_result.tool_result_id" (trr_tool_result_id tool_result) in
  let? tool_result_id := parse_tool_result_id text in
  let? text := parse_non_empty_field "tool_result.tool_invocation_id" (trr_tool_invocation_id tool_result) in
  let? tool_invocation_id :=
    map_err (λ _, invalid_argument (msg "tool_result.tool_invocation_id must be a valid tool invocation id"))
      (try_from_string ToolInvocationIdKind text) in
  let? text := parse_non_empty_field "tool_result.job_id" (trr_job_id tool_result) in
  let? job_id := parse_job_id text in
  let? text := parse_non_empty_field "tool_result.repository_id" (trr_repository_id tool_result) in
  let? repository_id := parse_repository_id text in
  let? content_type := parse_non_empty_field "tool_result.content_type" (trr_content_type tool_result) in
  Ok {| ptr_tool_result_id := tool_result_id; ptr_tool_invocation_id := tool_invocation_id;
        ptr_job_id := job_id; ptr_repository_id := repository_id; ptr_content_type := content_type |}.
Definition tool_result_ref_from_canonical (tool_result : CanonicalToolResultRef) : ToolResultRef := {|
  trr_tool_result_id := as_str (ctr_tool_result_id tool_result);
  trr_tool_invocation_id := as_str (ctr_tool_invocation_id tool_result);
  trr_job_id := as_str (ctr_job_id tool_result); trr_repository_id := as_str (ctr_repository_id tool_result);
  trr_content_type := ctr_content_type tool_result |}.
Record RenderToolOutputRequest := { rtr_tool_result : ToolResultRef; rtr_format : RpcOutputFormat }.
Definition parse_render_tool_output_request (request : RenderToolOutputRequest)
  : RpcResult (ToolResultId * OutputFormat) :=
  let? tool_result := parse_tool_result_ref (rtr_tool_result request) in
  let? format := format_of (rtr_format request) in
  Ok (ptr_tool_result_id tool_result, format).
Record RenderedToolOutputMetadata := {
  rom_degraded : bool;
  rom_fallback_reason : option string;
  rom_truncation : option TruncationMetadata
}.
Definition rendered_metadata (result : RenderToolOutputResult) : RenderedToolOutputMetadata :=
  let fallback_reason := ro_fallback_reason (rto_rendered_output result) in
  let truncation := rto_truncation result in
  {| rom_degraded := is_some fallback_reason || is_some truncation;
     rom_fallback_reason := fallback_reason; rom_truncation := truncation |}.
End Ids.

(** ** Events *)

Inductive RpcEventSeverity := RevDebug | RevInfo | RevWarning | RevError.
#[export] Instance RpcEventSeverity_eq_dec : EqDecision RpcEventSeverity.
Proof. solve_decision. Defined.
Definition severity_dto (value : EventSeverity) : RpcEventSeverity :=
  match value with
  | SevDebug => RevDebug | SevInfo => RevInfo | SevWarning => RevWarning | SevError => RevError
  end.
Definition parse_event_severity (value : RpcEventSeverity) : EventSeverity :=
  match value with
  | RevDebug => SevDebug | RevInfo => SevInfo | RevWarning => SevWarning | RevError => SevError
  end.
Definition rpc_event_severity_rank (value : RpcEventSeverity) : N :=
  match value with RevDebug => 0 | RevInfo => 1 | RevWarning => 2 | RevError => 3 end.
Inductive RpcEventSubjectType :=
  | RstUnspecified | RstDaemon | RstRepository | RstJob | RstPolicyDecision | RstLockDecision
  | RstToolInvocation | RstToolResult | RstAuditRecord.
Definition subject_type_dto (value : EventSubjectType) : RpcEventSubjectType :=
  match value with
  | SubjRepository => RstRepository | SubjJob => RstJob | SubjPolicyDecision => RstPolicyDecision
  | SubjLockDecision => RstLockDecision | SubjToolInvocation => RstToolInvocation
  | SubjToolResult => RstToolResult | SubjAuditRecord => RstAuditRecord
  end.
Record RpcEventSubject := { res_subject_type : RpcEventSubjectType; res_subject_id : string }.
Definition subject_dto (subject : EventSubject) : RpcEventSubject :=
  {| res_subject_type := subject_type_dto (subject_type subject); res_subject_id := subject_id subject |}.
Record RpcEventRefs := {
  rer_repository_id : option string;
  rer_job_id : option string;
  rer_policy_decision_id : option string;
  rer_lock_decision_id : option string;
  rer_tool_invocation_id : option string;
  rer_tool_result_id : option string;
  rer_content_type : option string;
  rer_audit_ref : option string
}.
Definition refs_dto (refs : EventRefs) : RpcEventRefs := {|
  rer_repository_id := option_map as_str (ref_repository_id refs);
  rer_job_id := option_map as_str (ref_job_id refs);
  rer_policy_decision_id := option_map as_str (ref_policy_decision_id refs);
  rer_lock_decision_id := option_map as_str (ref_lock_decision_id refs);
  rer_tool_invocation_id := option_map as_str (ref_tool_invocation_id refs);
  rer_tool_result_id := option_map as_str (ref_tool_result_id refs);
  rer_content_type := ref_content_type refs;
  rer_audit_ref := option_map as_str (ref_audit_record_id refs) |}.
Record RpcEvent := {
  rev_event_id : string;
  rev_sequence : N;
  rev_occurred_at_unix_ms : Z;
  rev_subject : RpcEventSubject;
  rev_kind : string;
  rev_severity : RpcEventSeverity;
  rev_message : string;
  rev_refs : RpcEventRefs
}.
Definition event_dto (event : JobEvent) : RpcEvent := {|
  rev_event_id := as_str (evt_id event); rev_sequence := evt_sequence_number event;
  rev_occurred_at_unix_ms := evt_created_at event; rev_subject := subject_dto (evt_subject event);
  rev_kind := rpc_event_kind_label (evt_kind event); rev_severity := severity_dto (evt_severity event);
  rev_message := evt_public_message event; rev_refs := refs_dto (evt_refs event) |}.

Record EventCursor := { ec_sequence : N; ec_event_id : string }.
Definition event_cursor_from_job_event (event : JobEvent) : EventCursor :=
  {| ec_sequence := evt_sequence_number event; ec_event_id := as_str (evt_id event) |}.

Inductive EventCursorRequest :=
  | FromBeginning
  | FromSequence (sequence : N)
  | FromEventId (event_id : string).
Definition MAX_WATCH_EVENTS_PAGE : N := 1000.

Section EventQueries.
Context `{UuidLib}.
Definition parse_event_cursor (cursor : EventCursorRequest) : RpcResult StoreTypes.EventCursor :=
  match cursor with
  | FromBeginning => Ok Beginning
  | FromSequence sequence => Ok (AfterSequence sequence)
  | FromEventId event_id => let? i := parse_event_id event_id in Ok (AfterEventId i)
  end.

Record ListEventsRequest := {
  le_repository_id : option string;
  le_cursor : option EventCursorRequest;
  le_subject_ids : list string;
  le_job_ids : list string;
  le_min_severity : option RpcEventSeverity;
  le_page_size : option N;
  le_page_token : option string
}.
Definition parse_event_query (request : ListEventsRequest) : RpcResult EventQuery :=
  let? page_size :=
    match le_page_size request with
    | Some page_size =>
        if (page_size =? 0)%N then Err (invalid_argument (msg "page_size must be greater than 0"))
        else Ok (Some (N.min page_size MAX_WATCH_EVENTS_PAGE))
    | None => Ok (Some MAX_WATCH_EVENTS_PAGE)
    end in
  let? repository_id := try_opt parse_repository_id (le_repository_id request) in
  let? cursor := parse_event_cursor (default FromBeginning (le_cursor request)) in
  let? job_ids := try_map parse_job_id (le_job_ids request) in
  Ok {| eq_repository_id := repository_id; eq_cursor := cursor;
        eq_subject_ids := le_subject_ids request; eq_job_ids := job_ids;
        eq_min_severity := option_map parse_event_severity (le_min_severity request);
        eq_page_size := page_size; eq_page_token := le_page_token request |}.

Record WatchEventsRequest := {
  we_repository_id : string;
  we_cursor : option EventCursorRequest;
  we_subject_ids : list string;
  we_min_severity : option RpcEventSeverity;
  we_limit : option N
}.
Definition parse_watch_events_limit (limit : option N) : RpcResult N :=
  match limit with
  | Some limit =>
      if (limit =? 0)%N then Err (invalid_argument (msg "limit must be greater than 0"))
      else Ok (N.min limit MAX_WATCH_EVENTS_PAGE)
  | None => Ok MAX_WATCH_EVENTS_PAGE
  end.
Definition build_watch_event_query_from_request (request : WatchEventsRequest)
  : RpcResult (EventQuery * EventCursorRequest) :=
  let incoming_cursor := default FromBeginning (we_cursor request) in
  let? repository_id := parse_repository_id (we_repository_id request) in
  let? cursor := parse_event_cursor incoming_cursor in
  let? limit := parse_watch_events_limit (we_limit request) in
  Ok ({| eq_repository_id := Some repository_id; eq_cursor := cursor;
         eq_subject_ids := we_subject_ids request; eq_job_ids := [];
         eq_min_severity := option_map parse_event_severity (we_min_severity request);
         eq_page_size := Some limit; eq_page_token := None |}, incoming_cursor).
End EventQueries.

Definition watch_event_matches_request (event : RpcEvent) (request : WatchEventsRequest) : bool :=
  if negb (str_eqb (we_repository_id request) (default EmptyString (rer_repository_id (rev_refs event)))) then false
  else if negb (bool_decide (we_subject_ids request = []))
          && negb (existsb (λ id, str_eqb id (res_subject_id (rev_subject event))) (we_subject_ids request))
  then false
  else match we_min_severity request with
       | Some min_severity =>
           (rpc_event_severity_rank min_severity <=? rpc_event_severity_rank (rev_severity event))%N
       | None => true
       end.

Definition watch_events_last_sequence (events : list RpcEvent)
  (replay_max_sequence resolved_cursor_sequence : option N) : option N :=
  match last events with
  | Some event => Some (rev_sequence event)
  | None =>
      match resolved_cursor_sequence, replay_max_sequence with
      | Some resolved, Some replay_max => Some (N.max resolved replay_max)
      | Some resolved, None => Some resolved
      | None, Some replay_max => Some replay_max
      | None, None => None
      end
  end.
