(* ===== verification/RpcPackages.v ===== *)
(** * RpcPackages: the package methods of the RPC server ([crates/ateliad/src/rpc.rs])

    The authoring flow a client is shown, and the methods of
    [SecretaryRpcServer] over the package handlers.  As there, a method that
    mutates takes the fault of its write, the audit id and the time. *)
From S2P Require Import Prelude Text Domain StoreTypes StoreShell Manifest ManifestCheck Registry.
From S2P Require Import RegistryAudit RegistryOps Packages Rpc.

(** ** The authoring flow *)

Inductive PackageSourceClass :=
  | HostShippedBuiltIn | WorkspaceLocal | UserSelected | VerifiedRegistry | BundledOfficial | Development.
Inductive PackageAuthoringStage :=
  | StageInstall | StageInspect | StageValidate | StageRemix | StagePublish | StageRegistrySearch.
#[export] Instance PackageAuthoringStage_eq_dec : EqDecision PackageAuthoringStage.
Proof. solve_decision. Defined.
Inductive PackageAuthoringStepState :=
  | StepAvailable | StepBlocked | StepRequiresValidation | StepRequiresConsent | StepInProgress
  | StepComplete.
Inductive PackageGitHubPublicationAction :=
  | CreateRepository | ForkRepository | CreateBranch | CommitChanges | OpenPullRequest
  | PrepareReleaseMetadata | SubmitRegistryMetadata.
#[export] Instance PackageGitHubPublicationAction_eq_dec : EqDecision PackageGitHubPublicationAction.
Proof. solve_decision. Defined.
Inductive PackagePublicationVisibility := PvPrivateRemix | PvUnlistedShare | PvPublicSearchable | PvOfficial.
Inductive PackageRegistrySubmissionState :=
  | PrsNotSubmitted | PrsAwaitingSubmission | PrsSubmitted | PrsAccepted | PrsRejected.

Definition visibility_of (value : PackagePublicationVisibility) : ExtensionPublicationVisibility :=
  match value with
  | PvPrivateRemix => PrivateRemix | PvUnlistedShare => UnlistedShare
  | PvPublicSearchable => PublicSearchable | PvOfficial => OfficialVisibility
  end.
Definition submission_of (value : PackageRegistrySubmissionState) : ExtensionRegistrySubmission :=
  match value with
  | PrsNotSubmitted => NotSubmitted | PrsAwaitingSubmission => AwaitingSubmission
  | PrsSubmitted => Submitted | PrsAccepted => Accepted | PrsRejected => Rejected
  end.
Definition submission_dto (value : ExtensionRegistrySubmission) : PackageRegistrySubmissionState :=
  match value with
  | NotSubmitted => PrsNotSubmitted | AwaitingSubmission => PrsAwaitingSubmission
  | Submitted => PrsSubmitted | Accepted => PrsAccepted | Rejected => PrsRejected
  end.

Record PackageGitHubSourceReference := {
  gsr_repository : string;
  gsr_source_ref : option string;
  gsr_manifest_path : string;
  gsr_manifest_digest : option string;
  gsr_artifact_digests : list string
}.
Record PackagePublicationPlan := {
  plan_visibility : PackagePublicationVisibility;
  plan_source_class : PackageSourceClass;
  plan_source : option PackageGitHubSourceReference;
  plan_github_actions : list PackageGitHubPublicationAction;
  plan_requires_registry_submission : bool;
  plan_production_installable : bool
}.
Record PackageAuthoringFlowStep := {
  step_id : PackageAuthoringStage;
  step_title : string;
  step_state : PackageAuthoringStepState;
  step_requires_explicit_consent : bool;
  step_policy_notes : list Message
}.
Record PackageAuthoringFlow := {
  flow_package_id : string;
  flow_source_class : PackageSourceClass;
  flow_source : option PackageGitHubSourceReference;
  flow_steps : list PackageAuthoringFlowStep;
  flow_publication_plan : option PackagePublicationPlan
}.

(** [ExtensionStatusResponse] of the core *)
Record ExtensionStatusResponse := {
  esr_extension_id : string;
  esr_record : option ExtensionInstallRecord;
  esr_block : option ExtensionBlocklistMatch
}.
Definition status_response (s : ExtensionStatusSnapshot) : ExtensionStatusResponse := {|
  esr_extension_id := ess_extension_id s; esr_record := Some (ess_record s); esr_block := ess_block s |}.

Definition package_authoring_step (id : PackageAuthoringStage) (title : string)
  (state : PackageAuthoringStepState) (requires_explicit_consent : bool) (policy_notes : list Message)
  : PackageAuthoringFlowStep := {|
  step_id := id; step_title := title; step_state := state;
  step_requires_explicit_consent := requires_explicit_consent; step_policy_notes := policy_notes |}.

Definition step_set_state (step : PackageAuthoringFlowStep) (state : PackageAuthoringStepState)
  : PackageAuthoringFlowStep :=
  package_authoring_step (step_id step) (step_title step) state (step_requires_explicit_consent step)
    (step_policy_notes step).
(** [iter_mut().find(..)]: the first step of the stage. *)
Fixpoint mark_first (stage : PackageAuthoringStage) (state : PackageAuthoringStepState)
  (steps : list PackageAuthoringFlowStep) : list PackageAuthoringFlowStep :=
  match steps with
  | [] => []
  | step :: steps =>
      if bool_decide (step_id step = stage) then step_set_state step state :: steps
      else step :: mark_first stage state steps
  end.
Definition mark_package_authoring_step (flow : PackageAuthoringFlow) (stage : PackageAuthoringStage)
  (state : PackageAuthoringStepState) : PackageAuthoringFlow := {|
  flow_package_id := flow_package_id flow; flow_source_class := flow_source_class flow;
  flow_source := flow_source flow; flow_steps := mark_first stage state (flow_steps flow);
  flow_publication_plan := flow_publication_plan flow |}.

Definition package_registry_search_state (publication : ExtensionPublication) : PackageAuthoringStepState :=
  match pub_visibility publication, pub_registry_submission publication with
  | PrivateRemix, NotSubmitted => StepComplete
  | UnlistedShare, NotSubmitted => StepComplete
  | _, AwaitingSubmission => StepRequiresConsent
  | _, NotSubmitted => StepRequiresConsent
  | _, Submitted => StepInProgress
  | _, Accepted => StepComplete
  | _, Rejected => StepBlocked
  end.

Definition package_publication_visibility_requires_registry_submission
  (visibility : PackagePublicationVisibility) : bool :=
  match visibility with PvPublicSearchable | PvOfficial => true | _ => false end.

Definition package_source_class_from_record (record : ExtensionInstallRecord) : PackageSourceClass :=
  match inst_boundary record with
  | OfficialBoundary => BundledOfficial
  | LocalDevelopment => Development
  | ThirdParty =>
      match src_source (inst_source record) with
      | RegistrySource => VerifiedRegistry | Github => UserSelected | LocalSource => WorkspaceLocal
      end
  end.

Definition package_source_reference_from_record (record : ExtensionInstallRecord)
  : option PackageGitHubSourceReference :=
  match src_repository (inst_source record), src_manifest_path (inst_source record) with
  | Some repository, Some manifest_path =>
      Some {| gsr_repository := repository; gsr_source_ref := src_source_ref (inst_source record);
              gsr_manifest_path := manifest_path;
              gsr_manifest_digest := Some (inst_manifest_digest record);
              gsr_artifact_digests := [inst_artifact_digest record] |}
  | _, _ => None
  end.

Definition default_package_publication_actions : list PackageGitHubPublicationAction :=
  [CreateRepository; CreateBranch; CommitChanges; OpenPullRequest; PrepareReleaseMetadata;
   SubmitRegistryMetadata].

Definition package_publication_plan_from_record (record : ExtensionInstallRecord)
  (publication : ExtensionPublication) : PackagePublicationPlan :=
  let requires_registry_submission :=
    match pub_registry_submission publication with NotSubmitted => false | _ => true end in
  let github_actions :=
    if requires_registry_submission then default_package_publication_actions
    else List.filter (λ action, negb (bool_decide (action = SubmitRegistryMetadata)))
           default_package_publication_actions in
  {| plan_visibility :=
       match pub_visibility publication with
       | PrivateRemix => PvPrivateRemix | UnlistedShare => PvUnlistedShare
       | PublicSearchable => PvPublicSearchable | OfficialVisibility => PvOfficial
       end;
     plan_source_class := package_source_class_from_record record;
     plan_source := package_source_reference_from_record record;
     plan_github_actions := github_actions;
     plan_requires_registry_submission := requires_registry_submission;
     plan_production_installable :=
       match pub_registry_submission publication with Accepted => true | _ => false end |}.

Definition is_private_step (step : PackageAuthoringFlowStep) : bool :=
  match step_id step with StageRemix | StagePublish => true | _ => false end.

Definition package_authoring_flow_from_status (status : ExtensionStatusResponse)
  (include_private_steps : bool) : RpcResult PackageAuthoringFlow :=
  let? record := ok_or (esr_record status)
    {| re_code := RcNotFound;
       re_reason := Said (Fmt "package {} is not installed" [AStr (esr_extension_id status)]) |} in
  let publication := src_publication (inst_source record) in
  let publication_plan := option_map (package_publication_plan_from_record record) publication in
  let blocked := is_some (esr_block status)
                 || match inst_status record with BlockedInstall => true | _ => false end in
  let validation_state := if blocked then StepBlocked else StepComplete in
  let registry_state := default StepAvailable (option_map package_registry_search_state publication) in
  let steps :=
    [ package_authoring_step StageInstall "Install" StepComplete false [];
      package_authoring_step StageInspect "Inspect" StepComplete false [];
      package_authoring_step StageValidate "Validate" validation_state false
        (match esr_block status with
         | Some block => [Fmt "Package is blocked by {:?}" [AStr (block_reason_debug (blm_reason block))]]
         | None => []
         end);
      package_authoring_step StageRemix "Remix" StepAvailable true [];
      package_authoring_step StagePublish "Publish"
        (if is_some publication_plan then StepComplete else StepAvailable) true [];
      package_authoring_step StageRegistrySearch "Registry Search" registry_state true [] ] in
  Ok {| flow_package_id := esr_extension_id status;
        flow_source_class := package_source_class_from_record record;
        flow_source := package_source_reference_from_record record;
        flow_steps := if include_private_steps then steps
                      else List.filter (λ step, negb (is_private_step step)) steps;
        flow_publication_plan := publication_plan |}.

(** ** The registry's own verdicts *)

Definition is_verdict (submission : ExtensionRegistrySubmission) : bool :=
  match submission with Accepted | Rejected => true | _ => false end.
Definition needs_authority : RpcError :=
  invalid_argument (msg "registry accepted and rejected states require registry authority").

Definition reject_client_writable_registry_verdict (manifest : ExtensionManifest) : RpcResult unit :=
  reject? match prov_publication (man_provenance manifest) with
          | Some publication => is_verdict (pub_registry_submission publication)
          | None => false
          end
    with needs_authority in
  Ok tt.

(** ** The methods *)

#[local] Existing Instance registry_port.

Section Server.
Context `{!SnapshotCodec}.

Definition PM (A : Type) : Type := PackageService → PackageService * RpcResult A.
(** The call of a handler that changes the registry, and what is made of its
    answer. *)
Definition after {A B} (handler : PackageService → PackageService * ServiceResult A)
  (k : A → RpcResult B) : PM B := λ s,
  let '(s, r) := handler s in
  (s, match r with Ok a => k a | Err e => Err (rpc_error_of e) end).
(** A method that only reads. *)
Definition reading {A} (f : PackageService → RpcResult A) : PM A := λ s, (s, f s).

Record RecordResponse := {
  rr_metadata : ProtocolMetadata;
  rr_record : ExtensionInstallRecord;
  rr_audit_record_id : option string
}.
Definition record_response (r : ExtensionInstallRecord * AuditRecordId) : RpcResult RecordResponse :=
  Ok {| rr_metadata := metadata; rr_record := r.1; rr_audit_record_id := Some (as_str r.2) |}.

Definition rpc_install_extension (origin : RequestOrigin) (manifest : ExtensionManifest)
  (options : InstallOptions) (fault : option IoFault) (id : AuditRecordId) (now : LedgerTimestamp)
  : PM RecordResponse := λ s,
  match reject_client_writable_registry_verdict manifest with
  | Err e => (s, Err e)
  | Ok _ => after (install_extension origin manifest options fault id now) record_response s
  end.
Definition rpc_update_extension (origin : RequestOrigin) (manifest : ExtensionManifest)
  (options : InstallOptions) (fault : option IoFault) (id : AuditRecordId) (now : LedgerTimestamp)
  : PM RecordResponse := λ s,
  match reject_client_writable_registry_verdict manifest with
  | Err e => (s, Err e)
  | Ok _ => after (update_extension origin manifest options fault id now) record_response s
  end.
Definition rpc_rollback_extension (origin : RequestOrigin) (extension_id : string)
  (fault : option IoFault) (id : AuditRecordId) (now : LedgerTimestamp) : PM RecordResponse :=
  after (rollback_extension origin extension_id fault id now) record_response.
Definition rpc_disable_extension (origin : RequestOrigin) (extension_id : string)
  (fault : option IoFault) (id : AuditRecordId) (now : LedgerTimestamp) : PM RecordResponse :=
  after (disable_extension origin extension_id fault id now) record_response.
Definition rpc_enable_extension (origin : RequestOrigin) (extension_id : string)
  (fault : option IoFault) (id : AuditRecordId) (now : LedgerTimestamp) : PM RecordResponse :=
  after (enable_extension origin extension_id fault id now) record_response.
Definition rpc_remove_extension (origin : RequestOrigin) (extension_id : string)
  (fault : option IoFault) (id : AuditRecordId) (now : LedgerTimestamp) : PM RecordResponse :=
  after (remove_extension origin extension_id fault id now) record_response.
Definition rpc_apply_blocklist (origin : RequestOrigin) (entry : BlocklistEntry)
  (fault : option IoFault) (id : AuditRecordId) (now : LedgerTimestamp)
  : PM (BlocklistEntry * option string) :=
  after (apply_blocklist origin entry fault id now) (λ r, Ok (r.1, Some (as_str r.2))).

Definition rpc_validate_extension (manifest : ExtensionManifest) (options : InstallOptions)
  : PM ValidateExtensionManifestResponse := reading (λ s,
  let? _ := reject_client_writable_registry_verdict manifest in
  map_err rpc_error_of (validate_extension manifest options s)).

Definition service_extension_status (extension_id : string) (s : PackageService)
  : ServiceResult ExtensionStatusResponse :=
  let? registry := lock_extension_registry s in
  let? status := map_err SvcExtensionRegistry (extension_status registry extension_id) in
  Ok (status_response status).
Definition rpc_extension_status (extension_id : string) : PM ExtensionStatusResponse :=
  reading (λ s, map_err rpc_error_of (service_extension_status extension_id s)).
Definition rpc_package_inspect (extension_id : string) : PM PackageInspectResponse :=
  reading (λ s, map_err rpc_error_of (package_inspect extension_id s)).
Definition rpc_list_extensions (include_blocked : bool) : PM (list ExtensionStatusSnapshot) :=
  reading (λ s, let? registry := map_err rpc_error_of (lock_extension_registry s) in
                map_err (λ e, rpc_error_of (SvcExtensionRegistry e)) (list_extensions registry include_blocked)).
Definition rpc_list_package_trust_index (include_blocked discovery_only : bool)
  : PM (list PackageTrustIndexEntry) :=
  reading (λ s, map_err rpc_error_of (list_package_trust_index include_blocked discovery_only s)).
Definition rpc_list_blocklist : PM (list BlocklistEntry) :=
  reading (λ s, let? registry := map_err rpc_error_of (lock_extension_registry s) in
                Ok (reg_blocklist registry)).
Definition rpc_list_extension_registry_audit_records (limit offset : option N) (cursor : option string)
  : PM AuditRecordsPage :=
  reading (λ s, map_err rpc_error_of (list_extension_registry_audit_records limit offset cursor s)).
Definition rpc_execute_extension (extension_id : string) : PM unit :=
  reading (λ _, map_err rpc_error_of (execute_extension extension_id)).

(** ** The authoring methods *)

Definition package_authoring_flow (package_id : string) (include_private_steps : bool)
  : PM PackageAuthoringFlow := reading (λ s,
  let? extension := map_err rpc_error_of (service_extension_status package_id s) in
  package_authoring_flow_from_status extension include_private_steps).

Definition plan_set_source (plan : PackagePublicationPlan) (source_class : PackageSourceClass)
  (source : option PackageGitHubSourceReference) : PackagePublicationPlan := {|
  plan_visibility := plan_visibility plan; plan_source_class := source_class; plan_source := source;
  plan_github_actions := plan_github_actions plan;
  plan_requires_registry_submission := plan_requires_registry_submission plan;
  plan_production_installable := plan_production_installable plan |}.
Definition remix_package (package_id : string) (source_class : PackageSourceClass)
  (source : option PackageGitHubSourceReference) : PM PackageAuthoringFlow := reading (λ s,
  let? extension := map_err rpc_error_of (service_extension_status package_id s) in
  let? flow := package_authoring_flow_from_status extension true in
  let source := or_else source (flow_source flow) in
  let flow := {| flow_package_id := flow_package_id flow; flow_source_class := source_class;
                 flow_source := source; flow_steps := flow_steps flow;
                 flow_publication_plan :=
                   option_map (λ plan, plan_set_source plan source_class source)
                     (flow_publication_plan flow) |} in
  let flow := mark_package_authoring_step flow StageRemix StepComplete in
  Ok (mark_package_authoring_step flow StagePublish StepAvailable)).

Record PackagePublicationRequest := {
  ppr_package_id : string;
  ppr_visibility : PackagePublicationVisibility;
  ppr_requires_registry_submission : bool;
  ppr_requester : option RpcActorDto;
  ppr_request_source : option string;
  ppr_reason : option string
}.
Definition updated_status (package_id : string) (record : ExtensionInstallRecord)
  : ExtensionStatusResponse :=
  {| esr_extension_id := package_id; esr_record := Some record; esr_block := None |}.
Definition prepare_package_publication (request : PackagePublicationRequest) (fault : option IoFault)
  (id : AuditRecordId) (now : LedgerTimestamp) : PM (PackageAuthoringFlow * option string) := λ s,
  let requires_registry_submission :=
    package_publication_visibility_requires_registry_submission (ppr_visibility request) in
  if negb (Bool.eqb (ppr_requires_registry_submission request) requires_registry_submission)
  then (s, Err (invalid_argument (msg "requires_registry_submission must match the selected visibility")))
  else match try_opt actor_of (ppr_requester request) with
  | Err e => (s, Err e)
  | Ok requester =>
      let publication := {| pub_visibility := visibility_of (ppr_visibility request);
                            pub_registry_submission := if requires_registry_submission
                                                       then AwaitingSubmission else NotSubmitted |} in
      let origin := {| ro_requester := requester; ro_request_source := ppr_request_source request;
                       ro_reason := ppr_reason request |} in
      after (update_extension_publication origin (ppr_package_id request) publication fault id now)
        (λ r, let? flow := package_authoring_flow_from_status
                             (updated_status (ppr_package_id request) r.1) true in
              Ok (flow, Some (as_str r.2))) s
  end.

Record PackageRegistrySubmissionRequest := {
  prq_package_id : string;
  prq_state : PackageRegistrySubmissionState;
  prq_registry_identity : option string;
  prq_requester : option RpcActorDto;
  prq_request_source : option string;
  prq_reason : option string
}.
Record PackageRegistrySubmissionResponse := {
  pra_package_id : string;
  pra_state : PackageRegistrySubmissionState;
  pra_flow : option PackageAuthoringFlow;
  pra_audit_record_id : option string
}.
Definition submission_response (package_id : string) (r : ExtensionInstallRecord * AuditRecordId)
  : RpcResult PackageRegistrySubmissionResponse :=
  let? state := ok_or (option_map (λ p, submission_dto (pub_registry_submission p))
                         (src_publication (inst_source r.1)))
    {| re_code := RcInternal;
       re_reason := Said (msg "registry submission update did not persist publication state") |} in
  let? flow := package_authoring_flow_from_status (updated_status package_id r.1) true in
  Ok {| pra_package_id := package_id; pra_state := state; pra_flow := Some flow;
        pra_audit_record_id := Some (as_str r.2) |}.
Definition submit_package_registry_submission (request : PackageRegistrySubmissionRequest)
  (fault : option IoFault) (id : AuditRecordId) (now : LedgerTimestamp)
  : PM PackageRegistrySubmissionResponse := λ s,
  match prq_state request with
  | PrsAccepted | PrsRejected => (s, Err needs_authority)
  | state =>
      match try_opt actor_of (prq_requester request) with
      | Err e => (s, Err e)
      | Ok requester =>
          let origin := {| ro_requester := requester; ro_request_source := prq_request_source request;
                           ro_reason := prq_reason request |} in
          after (update_extension_registry_submission origin (prq_package_id request)
                   (submission_of state) (prq_registry_identity request) fault id now)
            (submission_response (prq_package_id request)) s
      end
  end.
End Server.
