(* ===== verification/RpcServer.v ===== *)
(** * RpcServer: the methods of the RPC server ([crates/ateliad/src/rpc.rs],
    [impl SecretaryRpcServer])

    Each method parses its request, calls the service and converts the answer.
    A method runs on the state of the service; an error of the service is
    converted on the way out. *)
From S2P Require Import Prelude Text Domain DomainLaws Policy StoreTypes Settings Truncation.
From S2P Require Import Spill StoreValidate StoreJobs Store StoreQuery.
From S2P Require Import Backend Runtime RunJob Paths Manifest ManifestCheck Registry RegistryAudit RegistryOps.
From S2P Require Import Packages Tools Submission Service Repositories Rpc.

Section Server.
Context `{UuidLib} `{RegistryPort} `{Entropy} `{Renderer} `{ArtifactDefaults} `{ToolPort}.
Context `{SignatureCodec} `{ProjectIdLib}.
Context {S F : Type} `{!StoreBackend S} `{!ArtifactWriter string F}.
Abbreviation State := (ServiceState (S := S) (F := F)).

Definition RM (A : Type) : Type := State → State * RpcResult A.
Definition rret {A} (a : A) : RM A := λ s, (s, Ok a).
Definition rlift {A} (r : RpcResult A) : RM A := λ s, (s, r).
(** A call of the service, with [?]. *)
Definition service {A} (m : SM A) : RM A := λ s, let '(s, r) := m s in (s, map_err rpc_error_of r).

(** ** Health, repositories and the repertoire *)

Definition rpc_health (d : DaemonRun) : RM HealthResponse :=
  let! h := service (health d) in rret (health_response h).

Record RegisterRepositoryResponse := {
  rrs_metadata : ProtocolMetadata;
  rrs_repository : Repository;
  rrs_policy : option PolicyDecision
}.
Definition rpc_register_repository (fs : FileSystem) (request : RegisterRepositoryRequest)
  : RM RegisterRepositoryResponse :=
  let trust_state := infer_repository_trust_state (rr_allowed_scope request) in
  let! requested_scope :=
    rlift (try_opt (λ scope, parse_repository_allowed_scope scope (rr_root_path request))
             (rr_allowed_scope request)) in
  let! requester := rlift (try_opt actor_of (rr_requester request)) in
  let! repository := service (register_repository fs {|
    rrr_display_name := rr_display_name request; rrr_root_path := rr_root_path request;
    rrr_trust_state := trust_state; rrr_allowed_scope := requested_scope;
    rrr_requester := requester |}) in
  rret {| rrs_metadata := metadata; rrs_repository := repository_dto repository; rrs_policy := None |}.

Definition rpc_list_repositories (request : ListRepositoriesRequest)
  : RM (list Repository * option string) :=
  let! request := rlift (parse_list_repositories_request request) in
  let! page := service (list_repositories_page request) in
  rret (map repository_dto (lrp_repositories page), lrp_next_page_token page).

Definition rpc_list_repertoire : RM (list RepertoireEntry) := rret list_repertoire_entries.

Record GetProjectStatusResponse := {
  gps_metadata : ProtocolMetadata;
  gps_repository : Repository;
  gps_recent_jobs : list Job;
  gps_recent_policy_decisions : list PolicyDecision;
  gps_latest_cursor : option EventCursor;
  gps_daemon_status : string;
  gps_storage_status : string
}.
Definition rpc_get_project_status (d : DaemonRun) (repository_id : string) : RM GetProjectStatusResponse :=
  let! repository_id := rlift (parse_repository_id repository_id) in
  let! snapshot := service (get_project_status d repository_id) in
  rret {| gps_metadata := metadata; gps_repository := repository_dto (prs_repository snapshot);
          gps_recent_jobs := map job_dto (prs_recent_jobs snapshot);
          gps_recent_policy_decisions := map policy_decision_to_rpc (prs_recent_policy_decisions snapshot);
          gps_latest_cursor := option_map event_cursor_from_job_event (prs_latest_event snapshot);
          gps_daemon_status := daemon_status_label (prs_daemon_status snapshot);
          gps_storage_status := storage_status_label (prs_storage_status snapshot) |}.

(** ** Jobs *)

Record SubmitJobResponse := {
  sjr_metadata : ProtocolMetadata;
  sjr_job : Job;
  sjr_policy : PolicyDecision
}.
Definition opt_flatten {A} (o : option (option A)) : option A :=
  match o with Some o => o | None => None end.
Definition parse_submit_job_request (request : SubmitJobRequest) : RpcResult Submission.SubmitJobRequest :=
  let? repository_id := parse_repository_id (sj_repository_id request) in
  let? path_scope := try_opt parse_path_scope (sj_path_scope request) in
  let? requester := actor_of (sj_requester request) in
  let? kind := parse_job_kind (sj_kind request) in
  Ok {| sub_requester := requester; sub_repository_id := repository_id; sub_kind := kind;
        sub_goal := sj_goal request; sub_message := sj_message request;
        sub_model_route_key := sj_model_route_key request;
        sub_permission_mode_route_key := sj_permission_mode_route_key request;
        sub_resource_scope := opt_flatten path_scope;
        sub_requested_capabilities := sj_requested_capabilities request;
        sub_tool_args := sj_tool_args request; sub_idempotency_key := sj_idempotency_key request |}.
Definition rpc_submit_job (fs : FileSystem) (request : SubmitJobRequest) : RM SubmitJobResponse :=
  let! request := rlift (parse_submit_job_request request) in
  let! receipt := service (submit_job fs request) in
  rret {| sjr_metadata := metadata; sjr_job := job_dto (rcp_job receipt);
          sjr_policy := policy_decision_to_rpc (rcp_policy_decision receipt) |}.

Definition rpc_get_job (job_id : string) : RM Job :=
  let! job_id := rlift (parse_job_id job_id) in
  let! job := service (get_job_record job_id) in
  λ s, (s, Ok (from_with_cancellation_requester job (cancellation_requester job_id s))).

Definition rpc_list_jobs (request : ListJobsRequest) : RM (list Job * option string) :=
  let! repository_id := rlift (try_opt parse_repository_id (lj_repository_id request)) in
  let! status := rlift (match lj_status request with
                        | None => Ok None
                        | Some status => job_status_from_rpc status
                        end) in
  let! requester := rlift (try_opt actor_of (lj_requester request)) in
  let! page := service (list_jobs {| jq_repository_id := repository_id; jq_status := status;
                                     jq_requester := requester; jq_page_size := lj_page_size request;
                                     jq_page_token := lj_page_token request |}) in
  λ s, (s, Ok (map (λ job, from_with_cancellation_requester job (cancellation_requester (job_id job) s))
                 (jp_jobs page), jp_next_page_token page)).

Definition rpc_cancel_job (request : CancelJobRequest) : RM (Job * JobCancellation) :=
  let! job_id := rlift (parse_job_id (cj_job_id request)) in
  let! requester := rlift (actor_of (cj_requester request)) in
  let! receipt := service (cancel_job_request job_id (cj_reason request) (Some requester)) in
  rret (job_from_cancel_receipt receipt (Some requester)).

(** ** Policy *)

Record CheckPolicyRequest := {
  cp_repository_id : string;
  cp_requester : RpcActorDto;
  cp_requested_capability : string;
  cp_action : string;
  cp_path_scope : option RpcPathScope;
  cp_tool_result : option ToolResultRef
}.
Definition parse_check_policy_request (request : CheckPolicyRequest)
  : RpcResult Service.CheckPolicyRequest :=
  reject? is_some (cp_tool_result request)
    with invalid_argument (msg "tool_result is not supported for policy-check previews") in
  let? repository_id := parse_repository_id (cp_repository_id request) in
  let? requester := actor_of (cp_requester request) in
  let? requested_capability := parse_non_empty_field "requested_capability" (cp_requested_capability request) in
  let? action := parse_non_empty_field "action" (cp_action request) in
  let? resource_scope :=
    match cp_path_scope request with
    | Some path_scope =>
        let? scope := parse_path_scope path_scope in Ok (default Rpc.default_resource_scope scope)
    | None => Ok Rpc.default_resource_scope
    end in
  Ok {| cpr_repository_id := repository_id; cpr_requester := requester;
        cpr_requested_capability := requested_capability; cpr_action := action;
        cpr_resource_scope := resource_scope |}.
Definition rpc_check_policy (request : CheckPolicyRequest) : RM PolicyDecision :=
  let! request := rlift (parse_check_policy_request request) in
  let! decision := service (check_policy request) in
  rret (policy_decision_to_rpc decision).

(** ** Events *)

Definition rpc_list_events (request : ListEventsRequest) : RM (list RpcEvent * option string) :=
  let! query := rlift (parse_event_query request) in
  let! page := service (list_events_page query) in
  rret (map event_dto (ep_events page), ep_next_page_token page).

Record WatchEventsReplayResponse := {
  wer_metadata : ProtocolMetadata;
  wer_events : list RpcEvent;
  wer_cursor : option EventCursorRequest
}.
(** Where the client continues after a page of replayed events. *)
Definition replay_cursor (events : list RpcEvent) (incoming_cursor : EventCursorRequest)
  (resolved_cursor_sequence : option N) : option EventCursorRequest :=
  match last events with
  | Some event => Some (FromSequence (rev_sequence event))
  | None =>
      match incoming_cursor with
      | FromEventId _ => option_map FromSequence resolved_cursor_sequence
      | _ => Some incoming_cursor
      end
  end.
Definition rpc_watch_events (request : WatchEventsRequest) : RM WatchEventsReplayResponse :=
  let! query := rlift (build_watch_event_query_from_request request) in
  let! page := service (list_events_page query.1) in
  let events := map event_dto (ep_events page) in
  rret {| wer_metadata := metadata; wer_events := events;
          wer_cursor := replay_cursor events query.2 (ep_resolved_cursor_sequence page) |}.

(** ** Tool output *)

Record RenderToolOutputResponse := {
  rtx_metadata : ProtocolMetadata;
  rtx_tool_result : ToolResultRef;
  rtx_format : RpcOutputFormat;
  rtx_rendered_output : string;
  rtx_rendered_output_metadata : RenderedToolOutputMetadata
}.
Definition rpc_render_tool_output (request : RenderToolOutputRequest) : RM RenderToolOutputResponse :=
  let! request := rlift (parse_render_tool_output_request request) in
  let! rendered := service (render_tool_output request.1 request.2) in
  rret {| rtx_metadata := metadata;
          rtx_tool_result := tool_result_ref_from_canonical (rto_tool_result rendered);
          rtx_format := format_dto (ro_format (rto_rendered_output rendered));
          rtx_rendered_output := ro_body (rto_rendered_output rendered);
          rtx_rendered_output_metadata := rendered_metadata rendered |}.

Definition rpc_get_tool_output_defaults (scope : RpcToolOutputScope)
  : RM (RpcToolOutputScope * RpcToolOutputDefaults) :=
  let! core_scope := rlift (parse_tool_output_scope scope) in
  let! scope := rlift (scope_dto core_scope) in
  let! defaults := service (get_tool_output_defaults core_scope) in
  rret (scope, defaults_dto defaults).

Record UpdateToolOutputDefaultsRequest := {
  utd_scope : RpcToolOutputScope;
  utd_overrides : RpcToolOutputOverrides;
  utd_actor : RpcActorDto;
  utd_reason : string
}.
Definition rpc_update_tool_output_defaults (request : UpdateToolOutputDefaultsRequest)
  : RM RpcToolOutputSettingsChange :=
  let! scope := rlift (parse_tool_output_scope (utd_scope request)) in
  let! rpc_scope := rlift (scope_dto scope) in
  let! actor := rlift (actor_of (utd_actor request)) in
  let! overrides := rlift (parse_tool_output_overrides (utd_overrides request)) in
  let! change := service (update_tool_output_defaults actor scope overrides (utd_reason request)) in
  rret {| rch_schema_version := chg_schema_version change; rch_actor := actor_dto (chg_actor change);
          rch_scope := rpc_scope; rch_old_defaults := defaults_dto (chg_old_defaults change);
          rch_new_defaults := defaults_dto (chg_new_defaults change); rch_reason := chg_reason change;
          rch_changed_at_unix_ms := chg_changed_at change |}.

Definition rpc_list_tool_output_settings_history (scope : option RpcToolOutputScope)
  (limit offset : option N) (cursor : option string)
  : RM (list RpcToolOutputSettingsChange * option string) :=
  let! scope := rlift (try_opt parse_tool_output_scope scope) in
  let! page := service (list_tool_output_settings_history_page scope limit offset cursor) in
  let! changes := rlift (try_map change_dto (shp_changes page)) in
  rret (changes, shp_next_page_token page).
End Server.
