(* ===== verification/LiveWatch.v ===== *)
(** * LiveWatch: the live event stream ([store.rs], [watch_job_events_live] and
    [forward_filtered_job_events]; [rpc.rs], [watch_events_live];
    [transport.rs], [watch_events_stream_body])

    Opening a watch subscribes to a broadcast channel, reads the retained events
    in batches, and starts a task that forwards the channel's later events
    through a bounded queue to the response body.  Other threads use the store
    all the while: [Gap] is what they do between two acquisitions of its lock,
    and after the opening the stream is a machine whose steps a schedule
    interleaves. *)
From S2P Require Import Prelude Text Domain Policy StoreTypes Settings StoreValidate StoreJobs.
From S2P Require Import Store StoreQuery StoreGuarantees StoreShell ShellLaws Packages Service Rpc.

Definition LIVE_WATCH_SNAPSHOT_SCAN_BATCH : nat := 256.
Definition MAX_LIVE_WATCH_SNAPSHOT : nat := 1000.
Definition FILTERED_WATCH_EVENT_BUFFER : nat := 1024.
(** [broadcast::channel(1024)] *)
Definition BROADCAST_CAPACITY : nat := 1024.

Definition cursor_expired_live_snapshot : StoreError :=
  CursorExpired (msg "live watch snapshot exceeds {MAX_LIVE_WATCH_SNAPSHOT} retained events; use replay before opening a live watch").
Definition cursor_expired_lagged_live_filter (skipped : nat) : StoreError :=
  CursorExpired (Fmt "watch_events live filter fell behind and missed {skipped} events"
    [AStr (usize_to_string (N.of_nat skipped))]).

Section Watch.
Context `{UuidLib} `{RegistryPort} `{!SnapshotCodec}.
Implicit Types st : InMemoryStore.

Definition Gap : Type := list (option IoFault * StoreOp).

(** ** Channels *)

Record Receiver := { rx_channel : option RepositoryId; rx_position : nat }.
Definition channel_log (c : option RepositoryId) st : list JobEvent :=
  match c with None => global_log (st_sent st) | Some r => repository_log r (st_sent st) end.
(** A new receiver sees what is sent from now on. *)
Definition subscribe (c : option RepositoryId) st : Receiver :=
  {| rx_channel := c; rx_position := length (channel_log c st) |}.

Inductive Received := RecvEvent (e : JobEvent) | RecvLagged (skipped : nat) | RecvEmpty.
(** [recv()]: the channel keeps the last [BROADCAST_CAPACITY] messages. *)
Definition receive (rx : Receiver) st : Received :=
  let log := channel_log (rx_channel rx) st in
  let behind := length log - rx_position rx in
  if (BROADCAST_CAPACITY <? behind)%nat then RecvLagged (behind - BROADCAST_CAPACITY)
  else match log !! rx_position rx with Some e => RecvEvent e | None => RecvEmpty end.

(** ** Opening *)

Definition open_receiver (gap : Gap) (query : EventQuery) st : InMemoryStore * StoreResult Receiver :=
  match eq_repository_id query with
  | Some repository_id =>
      match subscribe_repository_job_events repository_id st with
      | (st, Err e) => (st, Err e)
      | (st, Ok _) => let st := run_ops gap st in (st, Ok (subscribe (Some repository_id) st))
      end
  | None => (st, Ok (subscribe None st))
  end.

Record EventQueryCandidate := { cand_event : JobEvent; cand_repository_id : option RepositoryId }.
Definition event_candidate_matches_query (candidate : EventQueryCandidate) (query : EventQuery) : bool :=
  matches_event_query (cand_event candidate) query
    (option_map (λ r, (r, cand_repository_id candidate)) (eq_repository_id query)).

(** [range(start..=cutoff).take(BATCH)] *)
Definition live_batch inner (start cutoff : N) : list (N * JobEventId) :=
  take LIVE_WATCH_SNAPSHOT_SCAN_BATCH
    (List.filter (λ p, (p.1 <=? cutoff)%N) (btree_range_from start (job_events_by_sequence inner))).
Definition live_candidate inner (query : EventQuery) (entry : N * JobEventId)
  : StoreResult EventQueryCandidate :=
  let? event := event_of_id inner entry.2 in
  let? repository_id :=
    if is_some (eq_repository_id query) then event_repository_id inner event else Ok None in
  Ok {| cand_event := event; cand_repository_id := repository_id |}.

(** The [for] over the candidates of a batch. *)
Fixpoint push_candidates (query : EventQuery) (candidates : list EventQueryCandidate)
  (events : list JobEvent) : StoreResult (list JobEvent) :=
  match candidates with
  | [] => Ok events
  | candidate :: candidates =>
      if event_candidate_matches_query candidate query then
        let events := events ++ [cand_event candidate] in
        reject? (MAX_LIVE_WATCH_SNAPSHOT <? length events)%nat with cursor_expired_live_snapshot in
        push_candidates query candidates events
      else push_candidates query candidates events
  end.

(** The [while] over the batches; [gaps] is what happens before each lock.
    [None] is running out of fuel. *)
Fixpoint scan_live (fuel : nat) (gaps : nat → Gap) (query : EventQuery) (start cutoff : N)
  (events : list JobEvent) st : option (InMemoryStore * StoreResult (list JobEvent)) :=
  if negb (start <=? cutoff)%N then Some (st, Ok events) else
  match fuel with
  | O => None
  | S fuel =>
      let st := run_ops (gaps fuel) st in
      match lock st with
      | Err e => Some (st, Err e)
      | Ok inner =>
          let batch := live_batch inner start cutoff in
          match (let? candidates := try_map (live_candidate inner query) batch in
                 push_candidates query candidates events) with
          | Err e => Some (st, Err e)
          | Ok events =>
              match last batch with
              | None => Some (st, Ok events)
              | Some (sequence, _) =>
                  match checked_add_u64 sequence 1 with
                  | Some start =>
                      if (start <=? cutoff)%N then scan_live fuel gaps query start cutoff events st
                      else Some (st, Ok events)
                  | None => Some (st, Ok events)
                  end
              end
          end
      end
  end.

Record LiveWatch := {
  lv_events : list JobEvent;
  lv_receiver : Receiver;
  lv_query : EventQuery;
  lv_cutoff : N;
  lv_resolved_cursor_sequence : option N
}.

(** [watch_job_events_live]: [lv_receiver], [lv_query] and [lv_cutoff] are what
    the forwarding task starts with.  Every batch but the last is not empty, so
    one more turn than there are events is enough. *)
Definition watch_job_events_live (gap1 gap2 : Gap) (gaps : nat → Gap) (query : EventQuery) st
  : option (InMemoryStore * StoreResult LiveWatch) :=
  match open_receiver gap1 query st with
  | (st, Err e) => Some (st, Err e)
  | (st, Ok receiver) =>
      let st := run_ops gap2 st in
      match (let? inner := lock st in
             let? resolved := resolve_live_event_cursor_sequence inner (eq_cursor query) in
             Ok (inner, resolved)) with
      | Err e => Some (st, Err e)
      | Ok (inner, resolved) =>
          let cutoff := N.max (default 0%N resolved) (next_event_sequence inner) in
          match (match checked_add_u64 (default 0%N resolved) 1 with
                 | Some start =>
                     scan_live (S (N.to_nat (next_event_sequence inner))) gaps query start cutoff [] st
                 | None => Some (st, Ok [])
                 end) with
          | None => None
          | Some (st, Err e) => Some (st, Err e)
          | Some (st, Ok events) =>
              Some (st, Ok {| lv_events := events; lv_receiver := receiver; lv_query := query;
                              lv_cutoff := cutoff; lv_resolved_cursor_sequence := resolved |})
          end
      end
  end.

(** [SecretaryService::watch_events_live] *)
Definition watch_events_live (gap1 gap2 : Gap) (gaps : nat → Gap) (query : EventQuery) st
  : option (InMemoryStore * ServiceResult (LiveWatch * option N)) :=
  if bool_decide (eq_page_size query = Some 0%N)
  then Some (st, Err (SvcInvalidArgument (msg "page_size must be greater than 0")))
  else match watch_job_events_live gap1 gap2 gaps query st with
       | None => None
       | Some (st, Err e) => Some (st, Err (SvcStore e))
       | Some (st, Ok live) =>
           Some (st, Ok (live, option_map evt_sequence_number (last (lv_events live))))
       end.

Record WatchEventsLiveResponse := {
  wl_events : list RpcEvent;
  wl_cursor : option EventCursorRequest;
  wl_live : LiveWatch;
  wl_replay_max_sequence : option N;
  wl_resolved_cursor_sequence : option N;
  wl_last_sequence : option N
}.
Definition live_last_sequence (events : list RpcEvent) (incoming_cursor : EventCursorRequest)
  (replay_max_sequence resolved_cursor_sequence : option N) : option N :=
  let last_sequence := watch_events_last_sequence events replay_max_sequence resolved_cursor_sequence in
  match events, incoming_cursor with
  | [], FromSequence sequence =>
      Some (match last_sequence with None => sequence | Some last => N.max last sequence end)
  | _, _ => last_sequence
  end.
(** [SecretaryRpcServer::watch_events_live] *)
Definition rpc_watch_events_live (gap1 gap2 : Gap) (gaps : nat → Gap) (request : WatchEventsRequest) st
  : option (InMemoryStore * RpcResult WatchEventsLiveResponse) :=
  match build_watch_event_query_from_request request with
  | Err e => Some (st, Err e)
  | Ok (query, incoming_cursor) =>
      match watch_events_live gap1 gap2 gaps query st with
      | None => None
      | Some (st, Err e) => Some (st, Err (rpc_error_of e))
      | Some (st, Ok (live, replay_max_sequence)) =>
          let events := map event_dto (lv_events live) in
          let resolved := lv_resolved_cursor_sequence live in
          let last_sequence := live_last_sequence events incoming_cursor replay_max_sequence resolved in
          Some (st, Ok {|
            wl_events := events;
            wl_cursor := match last events with
                         | Some event => Some (FromSequence (rev_sequence event))
                         | None => match last_sequence with
                                   | Some last_sequence => Some (FromSequence last_sequence)
                                   | None => Some incoming_cursor
                                   end
                         end;
            wl_live := live; wl_replay_max_sequence := replay_max_sequence;
            wl_resolved_cursor_sequence := or_else last_sequence resolved;
            wl_last_sequence := last_sequence |})
      end
  end.

(** ** The stream *)

Inductive Frame :=
  | EventFrame (e : RpcEvent)
  | RecoveryFrame (reason : Message)
  | BrokenFrame (e : StoreError).

(** The store, the forwarding task, the queue between it and the body, and what
    the body has sent after the snapshot. *)
Record Stream := {
  sm_store : InMemoryStore;
  sm_receiver : Receiver;
  sm_query : EventQuery;
  sm_cutoff : N;
  sm_pending : option (StoreResult JobEvent);
  sm_forwarding : bool;
  sm_queue : list (StoreResult JobEvent);
  sm_request : WatchEventsRequest;
  sm_replay_max : option N;
  sm_frames : list Frame;
  sm_open : bool
}.

Definition stream_start (request : WatchEventsRequest) (response : WatchEventsLiveResponse) st
  : Stream := {|
  sm_store := st; sm_receiver := lv_receiver (wl_live response); sm_query := lv_query (wl_live response);
  sm_cutoff := lv_cutoff (wl_live response); sm_pending := None; sm_forwarding := true; sm_queue := [];
  sm_request := request;
  sm_replay_max := or_else (wl_replay_max_sequence response) (wl_resolved_cursor_sequence response);
  sm_frames := []; sm_open := true |}.

Inductive StreamStep :=
  | Others (fault : option IoFault) (op : StoreOp)
  | Receive
  | Forward
  | Read.

Definition with_sm_store (m : Stream) st : Stream := {|
  sm_store := st; sm_receiver := sm_receiver m; sm_query := sm_query m; sm_cutoff := sm_cutoff m;
  sm_pending := sm_pending m; sm_forwarding := sm_forwarding m; sm_queue := sm_queue m;
  sm_request := sm_request m; sm_replay_max := sm_replay_max m; sm_frames := sm_frames m;
  sm_open := sm_open m |}.
(** The task, after it took a message: what it waits to send, and whether it goes on. *)
Definition with_task (m : Stream) (rx : Receiver) (pending : option (StoreResult JobEvent))
  (forwarding : bool) : Stream := {|
  sm_store := sm_store m; sm_receiver := rx; sm_query := sm_query m; sm_cutoff := sm_cutoff m;
  sm_pending := pending; sm_forwarding := forwarding; sm_queue := sm_queue m;
  sm_request := sm_request m; sm_replay_max := sm_replay_max m; sm_frames := sm_frames m;
  sm_open := sm_open m |}.
Definition with_queue (m : Stream) (pending : option (StoreResult JobEvent))
  (queue : list (StoreResult JobEvent)) : Stream := {|
  sm_store := sm_store m; sm_receiver := sm_receiver m; sm_query := sm_query m;
  sm_cutoff := sm_cutoff m; sm_pending := pending; sm_forwarding := sm_forwarding m;
  sm_queue := queue; sm_request := sm_request m; sm_replay_max := sm_replay_max m;
  sm_frames := sm_frames m; sm_open := sm_open m |}.
Definition with_body (m : Stream) (replay_max : option N) (frames : list Frame) (is_open : bool)
  : Stream := {|
  sm_store := sm_store m; sm_receiver := sm_receiver m; sm_query := sm_query m;
  sm_cutoff := sm_cutoff m; sm_pending := sm_pending m; sm_forwarding := sm_forwarding m;
  sm_queue := sm_queue m; sm_request := sm_request m; sm_replay_max := replay_max;
  sm_frames := frames; sm_open := is_open |}.

Definition next_position (rx : Receiver) : Receiver :=
  {| rx_channel := rx_channel rx; rx_position := S (rx_position rx) |}.

(** One turn of [forward_filtered_job_events], up to its [send]. *)
Definition receive_step (m : Stream) : Stream :=
  match sm_forwarding m, sm_pending m with
  | true, None =>
      match receive (sm_receiver m) (sm_store m) with
      | RecvEmpty => m
      | RecvLagged skipped =>
          with_task m (sm_receiver m) (Some (Err (cursor_expired_lagged_live_filter skipped))) false
      | RecvEvent event =>
          let rx := next_position (sm_receiver m) in
          if (evt_sequence_number event <=? sm_cutoff m)%N then with_task m rx None true
          else match (let? inner := lock (sm_store m) in event_matches_query inner event (sm_query m)) with
               | Ok should_forward =>
                   with_task m rx (if should_forward : bool then Some (Ok event) else None) true
               | Err e => with_task m rx (Some (Err e)) false
               end
      end
  | _, _ => m
  end.

(** The [send] completes when the queue has room. *)
Definition forward_step (m : Stream) : Stream :=
  match sm_pending m with
  | Some message =>
      if (length (sm_queue m) <? FILTERED_WATCH_EVENT_BUFFER)%nat
      then with_queue m None (sm_queue m ++ [message]) else m
  | None => m
  end.

(** One turn of the loop of [watch_events_stream_body]; the queue closes when
    the task has ended. *)
Definition read_step (m : Stream) : Stream :=
  if negb (sm_open m) then m else
  match sm_queue m with
  | [] =>
      match sm_pending m with
      | None => if sm_forwarding m then m else with_body m (sm_replay_max m) (sm_frames m) false
      | Some _ => m
      end
  | message :: queue =>
      let m := with_queue m (sm_pending m) queue in
      match message with
      | Ok event =>
          if match sm_replay_max m with
             | Some max => (evt_sequence_number event <=? max)%N
             | None => false
             end
          then m
          else
            let rpc_event := event_dto event in
            if watch_event_matches_request rpc_event (sm_request m)
            then with_body m (Some (rev_sequence rpc_event)) (sm_frames m ++ [EventFrame rpc_event]) true
            else m
      | Err (CursorExpired reason) =>
          with_body m (sm_replay_max m) (sm_frames m ++ [RecoveryFrame reason]) false
      | Err e => with_body m (sm_replay_max m) (sm_frames m ++ [BrokenFrame e]) false
      end
  end.

Definition stream_step (m : Stream) (step : StreamStep) : Stream :=
  match step with
  | Others fault op => with_sm_store m (run_op fault op (sm_store m)).1
  | Receive => receive_step m
  | Forward => forward_step m
  | Read => read_step m
  end.
Definition stream_run (schedule : list StreamStep) (m : Stream) : Stream :=
  foldl stream_step m schedule.
End Watch.
