(* ===== verification/LiveWatchLaws.v ===== *)
(** * LiveWatchLaws: a live watch delivers every event exactly once

    However other threads use the store while a watch opens and streams, what
    the client gets is a prefix of the matching events after its cursor, in
    order, and all of them once the stream has caught up. *)
From S2P Require Import Prelude Text Domain DomainLaws Policy StoreTypes Settings StoreValidate StoreJobs.
From S2P Require Import Store StoreQuery StoreLoad Ledger StoreRefine StoreGuarantees.
From S2P Require Import StoreShell ShellLaws StoreQueryLaws Packages Service Rpc LiveWatch.

(** ** Lists *)

Lemma filter_up_to_keys {A} (l : list (N * A)) start b n :
  l.*1 = N.of_nat <$> seq start n →
  List.filter (λ p, (p.1 <=? b)%N) l = take (S (N.to_nat b) - start) l.
Proof.
  revert start n. induction l as [|[k a] l IH]; intros start n Hl; [by rewrite take_nil|].
  destruct n as [|n]; [done|]. simpl in Hl. injection Hl as -> Hl. cbn [List.filter fst].
  rewrite (IH (S start) n Hl). destruct (N.leb_spec (N.of_nat start) b).
  - by replace (S (N.to_nat b) - start) with (S (S (N.to_nat b) - S start)) by lia.
  - replace (S (N.to_nat b) - S start) with 0 by lia. by replace (S (N.to_nat b) - start) with 0 by lia.
Qed.

Lemma filter_andb {A} (f g : A → bool) l :
  List.filter f (List.filter g l) = List.filter (λ x, g x && f x) l.
Proof.
  induction l as [|x l IH]; [done|]. simpl. destruct (g x); simpl; [|done].
  destruct (f x); by rewrite IH.
Qed.

Lemma filter_none {A} (f : A → bool) l : (∀ x, x ∈ l → f x = false) → List.filter f l = [].
Proof.
  induction l as [|x l IH]; intros Hl; [done|]. simpl. rewrite (Hl x) by (by left).
  apply IH. intros y Hy. apply Hl. by right.
Qed.

Lemma filter_all {A} (f : A → bool) l : (∀ x, x ∈ l → f x = true) → List.filter f l = l.
Proof.
  induction l as [|x l IH]; intros Hl; [done|]. simpl. rewrite (Hl x) by (by left).
  f_equal. apply IH. intros y Hy. apply Hl. by right.
Qed.

Lemma elem_of_filter_bool {A} (f : A → bool) l x : x ∈ List.filter f l ↔ x ∈ l ∧ f x = true.
Proof. by rewrite list_elem_of_In, filter_In, <- list_elem_of_In. Qed.

Lemma filter_prefix {A} (f : A → bool) l l' : l `prefix_of` l' → List.filter f l `prefix_of` List.filter f l'.
Proof. intros [k ->]. rewrite List.filter_app. by apply prefix_app_r. Qed.

Lemma omap_take_total {A B} (f : A → option B) (l : list A) n :
  (∀ x, x ∈ l → is_Some (f x)) → omap f (take n l) = take n (omap f l).
Proof.
  revert n. induction l as [|x l IH]; intros [|n] Hl; [done..|].
  simpl. destruct (Hl x) as [y Hy]; [by left|]. rewrite Hy. simpl. f_equal. apply IH.
  intros z Hz. apply Hl. by right.
Qed.

Lemma elem_of_take_1 {A} (x : A) n l : x ∈ take n l → x ∈ l.
Proof. rewrite <- (take_drop n l) at 2. set_solver. Qed.
Lemma elem_of_drop_1 {A} (x : A) n l : x ∈ drop n l → x ∈ l.
Proof. rewrite <- (take_drop n l) at 2. set_solver. Qed.

Lemma consecutive_sorted {A} (f : A → N) l base :
  (∀ i x, l !! i = Some x → f x = (base + N.of_nat i)%N) → StronglySorted (λ x y, (f x < f y)%N) l.
Proof.
  revert base. induction l as [|x l IH]; intros base Hl; constructor.
  - apply (IH (base + 1)%N). intros i y Hy. rewrite (Hl (S i) y Hy). lia.
  - apply Forall_lookup. intros i y Hy. rewrite (Hl 0 x eq_refl), (Hl (S i) y Hy). lia.
Qed.

Lemma StronglySorted_filter {A} (R : relation A) (f : A → bool) l :
  StronglySorted R l → StronglySorted R (List.filter f l).
Proof.
  induction 1 as [|x l _ IH Hx]; simpl; [constructor|]. destruct (f x); [|done]. constructor; [done|].
  rewrite Forall_forall in *. intros y [Hy _]%elem_of_filter_bool. by apply Hx.
Qed.

Lemma StronglySorted_prefix {A} (R : relation A) l l' : StronglySorted R (l ++ l') → StronglySorted R l.
Proof.
  induction l as [|x l IH]; simpl; [constructor|]. inversion_clear 1 as [|? ? Hs Hx].
  constructor; [by apply IH|]. by apply Forall_app in Hx as [? _].
Qed.

Lemma StronglySorted_middle {A} (R : relation A) l x l' y :
  StronglySorted R (l ++ x :: l') → y ∈ l → R y x.
Proof.
  induction l as [|z l IH]; simpl; [by intros _ ?%not_elem_of_nil|]. inversion_clear 1 as [|? ? Hs Hx].
  intros [->|Hy]%elem_of_cons; [|by apply IH]. rewrite Forall_forall in Hx. apply Hx. set_solver.
Qed.

(** ** How a store grows *)

Section Growth.
Context `{UuidLib} `{RegistryPort} `{!SnapshotCodec}.
Implicit Types s : InMemoryInner.
Implicit Types st : InMemoryStore.

(** [st'] is [st] after other calls, which appended the events [es]. *)
Record grows st st' (es : list JobEvent) : Prop := {
  gr_steps : rtc store_step (st_inner st) (st_inner st');
  gr_ledger : ledger_extends (st_inner st) (st_inner st') es;
  gr_global : global_log (st_sent st') = global_log (st_sent st) ++ es;
  gr_channel r : repository_log r (st_sent st') =
    repository_log r (st_sent st) ++ List.filter (routed_to (st_inner st') r) es;
  gr_poisoned : st_poisoned st' = st_poisoned st
}.

Lemma grows_wf st st' es : store_wf (st_inner st) → grows st st' es → store_wf (st_inner st').
Proof. intros Hwf [Hs _ _ _ _]. by eapply store_steps_wf. Qed.

Lemma routed_to_steps s s' r e :
  store_wf s → rtc store_step s s' → job_events_by_id s !! evt_id e = Some e →
  routed_to s' r e = routed_to s r e.
Proof.
  intros Hwf Hs. revert Hwf. induction Hs as [|s1 s2 s3 Hstep _ IH]; intros Hwf He; [done|].
  rewrite IH; [by apply routed_to_stable|by eapply store_step_wf|].
  destruct Hstep as (op & es & Hop). pose proof (exec_op_extends _ _ _ _ Hop) as Hle.
  by eapply lookup_weaken, le_old_events.
Qed.

Lemma grows_refl st : grows st st [].
Proof.
  split; [apply rtc_refl|by apply ledger_extends_same|by rewrite app_nil_r|intros; by rewrite app_nil_r|done].
Qed.

Lemma grows_trans st1 st2 st3 es es' :
  store_wf (st_inner st1) → grows st1 st2 es → grows st2 st3 es' → grows st1 st3 (es ++ es').
Proof.
  intros Hwf G1 G2. pose proof (grows_wf _ _ _ Hwf G1) as Hwf2.
  destruct G1 as [Hs1 Hl1 Hg1 Hc1 Hp1], G2 as [Hs2 Hl2 Hg2 Hc2 Hp2]. split.
  - by etrans.
  - by eapply ledger_extends_trans.
  - by rewrite Hg2, Hg1, app_assoc.
  - intros r. rewrite Hc2, Hc1, List.filter_app, <- app_assoc. do 2 f_equal. apply filter_ext_elem.
    intros e (k & Hk)%list_elem_of_lookup. symmetry. apply routed_to_steps; [done|done|].
    by destruct (le_new_events _ _ _ Hl1 _ _ Hk) as (_ & _ & ?).
  - congruence.
Qed.

Lemma run_op_grows fault op st : ∃ es, grows st (run_op fault op st).1 es.
Proof.
  pose proof (run_op_poisoned fault op st) as Hpo.
  destruct (run_op fault op st) as [st' r] eqn:Hop. simpl in *.
  apply run_op_sound in Hop as [es Hex Hg Hc _ _|e Hi Hsent _ _].
  - exists es. split; [|by eapply exec_op_extends|done|done|done]. apply rtc_once. by do 2 eexists.
  - exists []. split; rewrite ?Hi, ?Hsent; [apply rtc_refl|by apply ledger_extends_same|..|done].
    + by rewrite app_nil_r.
    + intros r0. by rewrite app_nil_r.
Qed.

Lemma run_ops_grows gap st : store_wf (st_inner st) → ∃ es, grows st (run_ops gap st) es.
Proof.
  revert st. induction gap as [|[fault op] gap IH]; intros st Hwf; [exists []; apply grows_refl|].
  destruct (run_op_grows fault op st) as [es Hes].
  destruct (IH (run_op fault op st).1) as [es' Hes']; [by eapply grows_wf|].
  exists (es ++ es'). by eapply grows_trans.
Qed.

(** The ledger grows at its end. *)
Lemma ledger_events_grow s s' es :
  ledger_wf s → ledger_wf s' → ledger_extends s s' es → ledger_events s' = ledger_events s ++ es.
Proof.
  intros Hwf Hwf' [Hn Ho He]. pose proof (ledger_events_length s Hwf) as Hlen.
  apply list_eq_same_length with (n := length (ledger_events s ++ es)); [done| |].
  - rewrite ledger_events_length, length_app, Hlen by done. lia.
  - intros k x y _ Hx%ledger_events_lookup Hy; [|done]. destruct Hx as [Hx Hxs].
    assert (job_events_by_id s' !! evt_id y = Some y ∧ evt_sequence_number y = N.of_nat (S k)) as [Hy' Hys].
    { apply lookup_app_Some in Hy as [Hy|[Hk Hy]].
      - apply ledger_events_lookup in Hy as [Hy ?]; [|done]. split; [|done]. by eapply lookup_weaken.
      - destruct (He _ _ Hy) as (Hseq & _ & ?). split; [done|]. lia. }
    destruct (lw_id _ Hwf' _ _ Hx) as [_ Hi], (lw_id _ Hwf' _ _ Hy') as [_ Hj].
    rewrite Hxs in Hi. rewrite Hys in Hj. congruence.
Qed.

Lemma grows_events st st' es :
  store_wf (st_inner st) → grows st st' es →
  ledger_events (st_inner st') = ledger_events (st_inner st) ++ es.
Proof.
  intros Hwf Hg. apply ledger_events_grow; [apply Hwf|by eapply sw_ledger, grows_wf|apply Hg].
Qed.

Lemma ledger_event_stored s e :
  ledger_wf s → e ∈ ledger_events s → job_events_by_id s !! evt_id e = Some e ∧
  (evt_sequence_number e <= next_event_sequence s)%N.
Proof.
  intros Hwf (k & Hk)%list_elem_of_lookup. pose proof (lookup_lt_Some _ _ _ Hk) as Hlt.
  rewrite ledger_events_length in Hlt by done.
  apply ledger_events_lookup in Hk as [? ?]; [|done]. split; [done|lia].
Qed.

(** ** What matches stays matching *)

Lemma event_matches_routed s q e r :
  eq_repository_id q = Some r → event_matches s q e = true → routed_to s r e = true.
Proof.
  unfold event_matches, event_matches_query, routed_to. intros ->.
  destruct (event_repository_id s e) as [[r'|]|]; [..|done]; unfold matches_event_query; simpl.
  - intros Hm. case_bool_decide as Hr; [|done]. apply bool_decide_eq_true. congruence.
  - done.
Qed.

Lemma event_matches_steps s s' q e :
  store_wf s → rtc store_step s s' → job_events_by_id s !! evt_id e = Some e →
  event_matches s' q e = event_matches s q e.
Proof.
  intros Hwf Hs He. destruct (rw_events _ (sw_refs _ Hwf) _ _ He) as [r0 Hr].
  pose proof (store_steps_wf _ _ Hwf Hs) as Hwf'.
  assert (event_in s' e r0) as Hr' by eauto using event_in_mono, store_steps_le.
  unfold event_matches, event_matches_query. destruct (eq_repository_id q); [|done].
  by rewrite (event_repository_id_complete s e r0), (event_repository_id_complete s' e r0) by (done || apply sw_keys; done).
Qed.

Lemma matching_steps s s' q l :
  store_wf s → rtc store_step s s' → (∀ e, e ∈ l → job_events_by_id s !! evt_id e = Some e) →
  List.filter (event_matches s' q) l = List.filter (event_matches s q) l.
Proof. intros Hwf Hs Hl. apply filter_ext_elem. eauto using event_matches_steps. Qed.

Definition on_channel s (c : option RepositoryId) (e : JobEvent) : bool :=
  match c with None => true | Some r => routed_to s r e end.

Lemma channel_log_grows st st' es c :
  grows st st' es →
  channel_log c st' = channel_log c st ++ List.filter (on_channel (st_inner st') c) es.
Proof.
  intros Hg. destruct c as [r|]; simpl; [apply Hg|]. rewrite filter_all by done. apply Hg.
Qed.

Lemma event_matches_on_channel s q e :
  event_matches s q e = true → on_channel s (eq_repository_id q) e = true.
Proof.
  destruct (eq_repository_id q) as [r|] eqn:Hr; [|done]. by apply event_matches_routed.
Qed.
End Growth.

(** ** Reading the retained events *)

Section Opening.
Context `{UuidLib} `{RegistryPort} `{!SnapshotCodec}.
Implicit Types s : InMemoryInner.
Implicit Types st : InMemoryStore.

(** The part of the ledger after [a] up to [c]. *)
Definition events_between s (a c : N) : list JobEvent :=
  drop (N.to_nat a) (take (N.to_nat c) (ledger_events s)).

Lemma live_batch_keys s a c :
  ledger_wf s →
  let b := live_batch s (a + 1) c in
  b.*1 = N.of_nat <$> seq (S (N.to_nat a)) (length b) ∧
  (∀ n i, (n, i) ∈ b → (n, i) ∈ btree_to_list (job_events_by_sequence s)) ∧
  omap (λ p, job_events_by_id s !! p.2) b = take LIVE_WATCH_SNAPSHOT_SCAN_BATCH (events_between s a c).
Proof.
  intros Hwf b. pose proof (ledger_keys s Hwf) as Hkeys.
  set (E := btree_to_list (job_events_by_sequence s)) in *.
  assert (b = take LIVE_WATCH_SNAPSHOT_SCAN_BATCH (drop (N.to_nat a) (take (N.to_nat c) E))) as Hb.
  { unfold b, live_batch. f_equal. unfold btree_range_from. fold E.
    replace (List.filter _ E) with (drop (N.to_nat a) E).
    2: { symmetry. etrans; [eapply (filter_from_keys _ 1 (a + 1)), Hkeys|]. f_equal. lia. }
    rewrite (filter_up_to_keys _ (S (N.to_nat a)) c (N.to_nat (next_event_sequence s) - N.to_nat a)).
    - rewrite skipn_firstn_comm. f_equal; lia.
    - rewrite fmap_drop, Hkeys, <- fmap_drop. f_equal. rewrite skipn_seq. done. }
  split_and!.
  - apply list_eq. intros k. rewrite !list_lookup_fmap. destruct (decide (k < length b)) as [Hk|Hk].
    + rewrite lookup_seq_lt by done. simpl. destruct (lookup_lt_is_Some_2 b k Hk) as [[n i] Hn].
      rewrite Hn. simpl. f_equal. rewrite Hb in Hn. apply lookup_take_Some in Hn as [Hn _].
      rewrite lookup_drop in Hn. apply lookup_take_Some in Hn as [Hn _].
      apply (f_equal (lookup (N.to_nat a + k))) in Hkeys. rewrite !list_lookup_fmap, Hn in Hkeys.
      destruct (seq 1 _ !! _) eqn:Hs; [|done]. apply lookup_seq in Hs as [-> _].
      injection Hkeys as ->. lia.
    + rewrite (lookup_ge_None_2 b k), lookup_seq_ge by lia. done.
  - intros n i Hin. rewrite Hb in Hin.
    by apply elem_of_take_1, elem_of_drop_1, elem_of_take_1 in Hin.
  - rewrite Hb. unfold events_between, ledger_events. fold E.
    assert (∀ p, p ∈ E → is_Some (job_events_by_id s !! p.2)) as Hall.
    { intros [n i] Hin. by eapply ledger_entry. }
    rewrite omap_take_total, omap_drop_total, omap_take_total; [done|..]; intros p Hp; apply Hall.
    + done.
    + by apply elem_of_take_1 in Hp.
    + by apply elem_of_drop_1, elem_of_take_1 in Hp.
Qed.

Lemma live_candidates s q (b : list (N * JobEventId)) :
  store_wf s → (∀ n i, (n, i) ∈ b → (n, i) ∈ btree_to_list (job_events_by_sequence s)) →
  ∃ cs, try_map (live_candidate s q) b = Ok cs ∧
    map cand_event cs = omap (λ p, job_events_by_id s !! p.2) b ∧
    ∀ c, c ∈ cs → event_candidate_matches_query c q = event_matches s q (cand_event c).
Proof.
  intros Hwf. pose proof (sw_ledger _ Hwf) as Hl.
  induction b as [|[n i] b IH]; intros Hb; [exists []; set_solver|].
  destruct IH as (cs & Hcs & Hmap & Hall); [intros n' i' Hin; apply Hb; by right|].
  destruct (ledger_entry s n i Hl) as [e He]; [apply Hb; by left|].
  destruct (lw_id _ Hl _ _ He) as [Hid _]. rewrite <- Hid in He.
  pose proof (event_matches_query_Ok s q e Hwf He) as Hq. rewrite Hid in He.
  destruct (rw_events _ (sw_refs _ Hwf) i e He) as [r Hr].
  pose proof (event_repository_id_complete s e r (sw_keys _ Hwf) Hr) as Hrep.
  exists ({| cand_event := e; cand_repository_id := if is_some (eq_repository_id q) then Some r else None |} :: cs).
  split_and!.
  - cbn [try_map]. unfold live_candidate at 1, event_of_id. cbn [snd]. rewrite He. cbn [ok_or].
    rewrite Hcs. destruct (eq_repository_id q); simpl; [by rewrite Hrep|done].
  - cbn [omap list_omap snd]. rewrite He. cbn [map cand_event]. by rewrite Hmap.
  - intros c [->|Hc]%elem_of_cons; [|by apply Hall]. cbn [cand_event].
    unfold event_candidate_matches_query, event_matches_query in *. cbn [cand_event cand_repository_id].
    destruct (eq_repository_id q); simpl in *; [rewrite Hrep in Hq|]; by apply Ok_inj in Hq.
Qed.

Lemma push_candidates_spec s q cs events events' :
  (∀ c, c ∈ cs → event_candidate_matches_query c q = event_matches s q (cand_event c)) →
  push_candidates q cs events = Ok events' →
  events' = events ++ List.filter (event_matches s q) (map cand_event cs).
Proof.
  revert events. induction cs as [|c cs IH]; intros events Hall; cbn [push_candidates map List.filter].
  { intros [= <-]. by rewrite app_nil_r. }
  rewrite (Hall c) by (by left). destruct (event_matches s q (cand_event c)).
  - intros [_ Hp]%reject_Ok. apply IH in Hp as ->; [|intros c' Hc'; apply Hall; by right].
    by rewrite <- app_assoc.
  - apply IH. intros c' Hc'. apply Hall. by right.
Qed.

(** One batch. *)
Lemma scan_batch s q a c events events' :
  store_wf s →
  (let? cs := try_map (live_candidate s q) (live_batch s (a + 1) c) in push_candidates q cs events)
    = Ok events' →
  events' = events ++ List.filter (event_matches s q)
    (take LIVE_WATCH_SNAPSHOT_SCAN_BATCH (events_between s a c)).
Proof.
  intros Hwf. destruct (live_batch_keys s a c (sw_ledger _ Hwf)) as (_ & Hin & <-).
  destruct (live_candidates s q _ Hwf Hin) as (cs & -> & <- & Hall). by apply push_candidates_spec.
Qed.

Lemma live_batch_last s a c :
  ledger_wf s → (a < c)%N → (c <= next_event_sequence s)%N →
  ∃ k i, last (live_batch s (a + 1) c) = Some ((a + N.of_nat k)%N, i) ∧ 0 < k ∧
    k = length (take LIVE_WATCH_SNAPSHOT_SCAN_BATCH (events_between s a c)).
Proof.
  intros Hwf Hac Hc. destruct (live_batch_keys s a c Hwf) as (Hkeys & Hin & Hev).
  set (b := live_batch s (a + 1) c) in *.
  assert (length b = length (take LIVE_WATCH_SNAPSHOT_SCAN_BATCH (events_between s a c))) as Hlen.
  { rewrite <- Hev. clear -Hin Hwf. induction b as [|[n i] b IH]; [done|]. cbn [omap list_omap snd].
    destruct (ledger_entry s n i Hwf) as [e ->]; [apply Hin; by left|]. simpl. f_equal. apply IH.
    intros n' i' Hin'. apply Hin. by right. }
  assert (0 < length b) as Hpos.
  { rewrite Hlen. unfold events_between. rewrite length_take, length_drop, length_take.
    rewrite ledger_events_length by done. unfold LIVE_WATCH_SNAPSHOT_SCAN_BATCH. lia. }
  destruct (last b) as [[n i]|] eqn:Hlast; [|apply last_None in Hlast; rewrite Hlast in Hpos; simpl in Hpos; lia].
  exists (length b), i. split_and!; [|done|done]. do 2 f_equal. rewrite last_lookup in Hlast.
  apply (f_equal (lookup (pred (length b)))) in Hkeys.
  rewrite !list_lookup_fmap, Hlast, lookup_seq_lt in Hkeys by lia. injection Hkeys as ->. lia.
Qed.

Lemma events_between_grow st st' es a c :
  store_wf (st_inner st) → grows st st' es → (c <= next_event_sequence (st_inner st))%N →
  events_between (st_inner st') a c = events_between (st_inner st) a c.
Proof.
  intros Hwf Hg Hc. unfold events_between. rewrite (grows_events _ _ _ Hwf Hg), take_app_le; [done|].
  rewrite ledger_events_length by apply Hwf. lia.
Qed.

Lemma events_between_elem s a c e :
  ledger_wf s → e ∈ events_between s a c → job_events_by_id s !! evt_id e = Some e.
Proof. intros Hwf He%elem_of_drop_1%elem_of_take_1. by apply ledger_event_stored. Qed.

Lemma events_between_empty s a c : (c <= a)%N → events_between s a c = [].
Proof. intros Hle. apply drop_ge. rewrite length_take. lia. Qed.

(** The first [k] of a segment, and the rest. *)
Lemma events_between_split s a c k :
  k = length (take LIVE_WATCH_SNAPSHOT_SCAN_BATCH (events_between s a c)) →
  events_between s a c
  = take LIVE_WATCH_SNAPSHOT_SCAN_BATCH (events_between s a c) ++ events_between s (a + N.of_nat k) c.
Proof.
  intros Hk. rewrite <- (take_drop LIVE_WATCH_SNAPSHOT_SCAN_BATCH (events_between s a c)) at 1. f_equal.
  unfold events_between in *. rewrite drop_drop. rewrite length_take, length_drop, length_take in Hk.
  destruct (decide (length (take (N.to_nat c) (ledger_events s)) <= N.to_nat a + LIVE_WATCH_SNAPSHOT_SCAN_BATCH)).
  - rewrite !drop_ge; [done|..]; rewrite length_take in *; lia.
  - rewrite length_take in *. f_equal. lia.
Qed.

(** A batch read in [st1] and the rest read later make up the segment. *)
Lemma scan_join st1 st2 es2 q a c k :
  store_wf (st_inner st1) → (c <= next_event_sequence (st_inner st1))%N → grows st1 st2 es2 →
  k = length (take LIVE_WATCH_SNAPSHOT_SCAN_BATCH (events_between (st_inner st1) a c)) →
  List.filter (event_matches (st_inner st1) q)
    (take LIVE_WATCH_SNAPSHOT_SCAN_BATCH (events_between (st_inner st1) a c))
  ++ List.filter (event_matches (st_inner st2) q) (events_between (st_inner st2) (a + N.of_nat k) c)
  = List.filter (event_matches (st_inner st2) q) (events_between (st_inner st2) a c).
Proof.
  intros Hwf Hc Hg Hk. rewrite !(events_between_grow st1 st2 es2) by done.
  rewrite (events_between_split _ a c k Hk) at 2. rewrite List.filter_app. f_equal. symmetry.
  apply matching_steps; [done|apply Hg|]. intros e He%elem_of_take_1.
  by eapply events_between_elem, He; apply sw_ledger.
Qed.

(** The [while] ends, and has read the segment. *)
Lemma scan_live_spec fuel gaps q a c events st :
  store_wf (st_inner st) → (c <= next_event_sequence (st_inner st))%N → N.to_nat c - N.to_nat a <= fuel →
  ∃ st' r es, scan_live fuel gaps q (a + 1) c events st = Some (st', r) ∧ grows st st' es ∧
    ∀ events', r = Ok events' →
      events' = events ++ List.filter (event_matches (st_inner st') q) (events_between (st_inner st') a c).
Proof.
  revert a events st. induction fuel as [|fuel IH]; intros a events st Hwf Hc Hfuel; cbn [scan_live];
    (destruct (N.leb_spec (a + 1) c) as [Hle|Hgt]; cbn [negb];
     [|exists st, (Ok events), []; split_and!; [done|apply grows_refl|];
       intros ? [= <-]; rewrite events_between_empty by lia; by rewrite app_nil_r]); [lia|].
  destruct (run_ops_grows (gaps fuel) st Hwf) as [es Hg]. set (st1 := run_ops (gaps fuel) st) in *.
  pose proof (grows_wf _ _ _ Hwf Hg) as Hwf1. unfold lock.
  destruct (st_poisoned st1); [by exists st1, (Err (store_conflict "in-memory store lock was poisoned")), es|].
  assert (c <= next_event_sequence (st_inner st1))%N as Hc1.
  { rewrite (le_next_sequence _ _ _ (gr_ledger _ _ _ Hg)). lia. }
  destruct (live_batch_last _ a c (sw_ledger _ Hwf1)) as (k & i & Hlast & Hk & Hlen); [lia|done|].
  destruct (let? cs := _ in _) as [events1|err] eqn:Hpush; [|by exists st1, (Err err), es].
  apply scan_batch in Hpush as ->; [|done]. rewrite Hlast.
  pose proof (λ es2 st2 Hg2, scan_join st1 st2 es2 q a c k Hwf1 Hc1 Hg2 Hlen) as Hjoin.
  assert (k <= N.to_nat c - N.to_nat a) as Hkc.
  { rewrite Hlen. unfold events_between. rewrite length_take, length_drop, length_take. lia. }
  pose proof (Hjoin [] st1 (grows_refl _)) as Hdone.
  destruct (checked_add_u64 _ 1) as [start|] eqn:Hadd.
  - apply checked_add_u64_Some in Hadd as [-> _]. destruct (N.leb_spec (a + N.of_nat k + 1) c) as [Hgo|Hstop].
    + edestruct (IH (a + N.of_nat k)%N) as (st2 & r & es2 & Hscan & Hg2 & Hr); [exact Hwf1|done|lia|].
      exists st2, r, (es ++ es2). split_and!; [exact Hscan|by eapply grows_trans|].
      intros events' Hok. rewrite (Hr _ Hok), <- app_assoc. f_equal. by eapply Hjoin.
    + eexists st1, _, es. split_and!; [done|done|]. intros events' [= <-].
      rewrite (events_between_empty _ (a + N.of_nat k)), app_nil_r in Hdone by lia. by rewrite Hdone.
  - apply checked_add_u64_None in Hadd. eexists st1, _, es. split_and!; [done|done|]. intros events' [= <-].
    pose proof (lw_bound _ (sw_ledger _ Hwf1)).
    rewrite (events_between_empty _ (a + N.of_nat k)), app_nil_r in Hdone by lia. by rewrite Hdone.
Qed.
End Opening.

(** ** Opening a watch *)

Section Opened.
Context `{UuidLib} `{RegistryPort} `{!SnapshotCodec}.
Implicit Types s : InMemoryInner.
Implicit Types st : InMemoryStore.

(** The watch was opened by subscribing in [rx_st]; [st] is the store now and
    [es] the events appended in between. *)
Record opened (q : EventQuery) (live : LiveWatch) (rx_st st : InMemoryStore) (es : list JobEvent) : Prop := {
  op_wf : store_wf (st_inner rx_st);
  op_lock : st_poisoned st = false;
  op_receiver : lv_receiver live = subscribe (eq_repository_id q) rx_st;
  op_query : lv_query live = q;
  op_grows : grows rx_st st es;
  op_cursor : event_cursor_sequence (st_inner st) (eq_cursor q)
              = Ok (default 0%N (lv_resolved_cursor_sequence live));
  op_subscribed : (next_event_sequence (st_inner rx_st) <= lv_cutoff live)%N;
  op_after : (default 0%N (lv_resolved_cursor_sequence live) <= lv_cutoff live)%N;
  op_cutoff : (lv_cutoff live <= N.max (default 0%N (lv_resolved_cursor_sequence live))
                                   (next_event_sequence (st_inner st)))%N;
  op_events : lv_events live = List.filter (event_matches (st_inner st) q)
    (events_between (st_inner st) (default 0%N (lv_resolved_cursor_sequence live)) (lv_cutoff live))
}.

Lemma cursor_sequence_grows st st' es c a :
  grows st st' es → event_cursor_sequence (st_inner st) c = Ok a →
  event_cursor_sequence (st_inner st') c = Ok a.
Proof.
  intros Hg. destruct c as [|n|i]; simpl; [done..|].
  destruct (job_events_by_id (st_inner st) !! i) as [e|] eqn:He; [|done].
  by rewrite (lookup_weaken _ _ _ _ He (le_old_events _ _ _ (gr_ledger _ _ _ Hg))).
Qed.

Lemma resolve_live_cursor s c resolved :
  resolve_live_event_cursor_sequence s c = Ok resolved →
  event_cursor_sequence s c = Ok (default 0%N resolved).
Proof.
  destruct c as [|n|i]; simpl; [by intros [= <-]..|].
  destruct (job_events_by_id s !! i); [by intros [= <-]|done].
Qed.

Lemma between_grows st st' es q a c :
  store_wf (st_inner st) → grows st st' es → (c <= N.max a (next_event_sequence (st_inner st)))%N →
  List.filter (event_matches (st_inner st') q) (events_between (st_inner st') a c) =
  List.filter (event_matches (st_inner st) q) (events_between (st_inner st) a c).
Proof.
  intros Hwf Hg Hc. destruct (N.le_gt_cases c a) as [Hca|Hca]; [by rewrite !events_between_empty|].
  rewrite (events_between_grow st st' es) by (done || lia).
  apply matching_steps; [done|apply Hg|]. intros e. by apply events_between_elem, Hwf.
Qed.

(** Whatever happens later, the watch stays what it was when it was opened. *)
Lemma opened_grows q live rx_st st es st' es' :
  opened q live rx_st st es → grows st st' es' → opened q live rx_st st' (es ++ es').
Proof.
  intros [Hwf Hlock Hrx Hq Hg Hcur Hsub Haft Hcut Hev] Hg'. pose proof (grows_wf _ _ _ Hwf Hg) as Hwf'.
  split; try done.
  - by rewrite (gr_poisoned _ _ _ Hg').
  - by eapply grows_trans.
  - by eapply cursor_sequence_grows.
  - rewrite (le_next_sequence _ _ _ (gr_ledger _ _ _ Hg')). lia.
  - rewrite Hev. symmetry. by eapply between_grows.
Qed.

Lemma open_receiver_spec gap q st :
  store_wf (st_inner st) →
  ∃ es, grows st (open_receiver gap q st).1 es ∧
    ∀ rx, (open_receiver gap q st).2 = Ok rx →
      rx = subscribe (eq_repository_id q) (open_receiver gap q st).1.
Proof.
  intros Hwf. unfold open_receiver. destruct (eq_repository_id q) as [r|].
  - unfold subscribe_repository_job_events. destruct (lock st); [|exists []; split; [apply grows_refl|done]].
    destruct (get_record _ _ _); [|exists []; split; [apply grows_refl|done]].
    set (st1 := with_broadcasters st _). assert (grows st st1 []) as Hg.
    { destruct (grows_refl st) as [? ? ? ? ?]. by split. }
    destruct (run_ops_grows gap st1 Hwf) as [es Hes]. exists es. split; [|by intros rx [= <-]].
    by eapply (grows_trans st st1 _ [] es).
  - exists []. split; [apply grows_refl|by intros rx [= <-]].
Qed.

(** Opening ends; if it succeeds, the watch is opened. *)
Lemma watch_job_events_live_spec gap1 gap2 gaps q st :
  store_wf (st_inner st) →
  ∃ st' r, watch_job_events_live gap1 gap2 gaps q st = Some (st', r) ∧
    ∀ live, r = Ok live → ∃ rx_st es, opened q live rx_st st' es.
Proof.
  intros Hwf. unfold watch_job_events_live. destruct (open_receiver_spec gap1 q st Hwf) as (es0 & Hg0 & Hrx).
  destruct (open_receiver gap1 q st) as [rx_st [rx|e]]; cbn [fst snd] in *; [|by exists rx_st, (Err e)].
  specialize (Hrx rx eq_refl) as ->. pose proof (grows_wf _ _ _ Hwf Hg0) as Hwf0.
  destruct (run_ops_grows gap2 rx_st Hwf0) as [es1 Hg1]. set (st1 := run_ops gap2 rx_st) in *.
  pose proof (grows_wf _ _ _ Hwf0 Hg1) as Hwf1. unfold lock.
  destruct (st_poisoned st1) eqn:Hlock; [by eexists _, (Err _)|].
  destruct (resolve_live_event_cursor_sequence _ _) as [resolved|e] eqn:Hres; [|by eexists _, (Err e)].
  cbv beta iota zeta.
  apply resolve_live_cursor in Hres. set (a := default 0%N resolved) in *.
  set (C := N.max a (next_event_sequence (st_inner st1))).
  set (live events := {| lv_events := events; lv_receiver := subscribe (eq_repository_id q) rx_st; lv_query := q;
                         lv_cutoff := C; lv_resolved_cursor_sequence := resolved |}).
  assert (∀ events, events = List.filter (event_matches (st_inner st1) q) (events_between (st_inner st1) a C) →
    opened q (live events) rx_st st1 es1) as Hopen.
  { intros events Hev. pose proof (le_next_sequence _ _ _ (gr_ledger _ _ _ Hg1)).
    split; simpl; fold a; unfold C; try done; lia. }
  assert ((C <= a)%N → ∀ events, events = [] → opened q (live events) rx_st st1 es1) as Hnone.
  { intros Hle events ->. apply Hopen. by rewrite events_between_empty. }
  destruct (checked_add_u64 a 1) as [start|] eqn:Hadd.
  - apply checked_add_u64_Some in Hadd as [-> _].
    destruct (N.le_gt_cases C a) as [Hle|Hgt].
    + cbn [scan_live]. destruct (N.leb_spec (a + 1) C); [lia|]. simpl. eexists st1, _. split; [done|].
      intros ? [= <-]. exists rx_st, es1. by apply Hnone.
    + destruct (scan_live_spec (S (N.to_nat (next_event_sequence (st_inner st1)))) gaps q a C [] st1)
        as (st2 & r & es2 & -> & Hg2 & Hr); [done|lia|lia|].
      destruct r as [events|e]; [|by eexists _, (Err e)]. eexists st2, _. split; [done|].
      intros ? [= <-]. exists rx_st, (es1 ++ es2). apply (opened_grows q _ rx_st st1); [|done].
      apply Hopen. rewrite (Hr events eq_refl). simpl. eapply between_grows; [done|exact Hg2|lia].
  - apply checked_add_u64_None in Hadd. eexists st1, _. split; [done|]. intros ? [= <-].
    exists rx_st, es1. apply Hnone; [|done]. pose proof (lw_bound _ (sw_ledger _ Hwf1)). lia.
Qed.
End Opened.

(** ** Streaming *)

Section Streaming.
Context `{UuidLib} `{RegistryPort} `{!SnapshotCodec}.
Implicit Types s : InMemoryInner.
Implicit Types st : InMemoryStore.

(** The events that the body lets through. *)
Definition visible (request : WatchEventsRequest) (e : JobEvent) : bool :=
  watch_event_matches_request (event_dto e) request.
Definition wanted s (q : EventQuery) (cutoff : N) (request : WatchEventsRequest) (e : JobEvent) : bool :=
  (cutoff <? evt_sequence_number e)%N && event_matches s q e && visible request e.

(** The events a list of frames shows. *)
Definition shown (frames : list Frame) : list RpcEvent :=
  omap (λ f, match f with EventFrame e => Some e | _ => None end) frames.

(** What the task has taken from its channel. *)
Definition received_since (rx_st : InMemoryStore) (m : Stream) : list JobEvent :=
  let c := rx_channel (sm_receiver m) in
  let base := length (channel_log c rx_st) in
  take (rx_position (sm_receiver m) - base) (drop base (channel_log c (sm_store m))).

Record streaming (q : EventQuery) (live : LiveWatch) (request : WatchEventsRequest)
    (rx_st : InMemoryStore) (m : Stream) (es X Y : list JobEvent) (err : list StoreError) : Prop := {
  so_opened : opened q live rx_st (sm_store m) es;
  so_channel : rx_channel (sm_receiver m) = eq_repository_id q;
  so_query : sm_query m = q;
  so_cutoff : sm_cutoff m = lv_cutoff live;
  so_request : sm_request m = request;
  so_position : length (channel_log (eq_repository_id q) rx_st) <= rx_position (sm_receiver m)
    <= length (channel_log (eq_repository_id q) (sm_store m));
  so_flight : sm_queue m ++ option_list (sm_pending m) = map Ok X ++ map Err err;
  so_task : err = [] ∨ sm_forwarding m = false;
  so_open : sm_open m = true ∨ sm_forwarding m = false;
  so_frames : ∃ broken, sm_frames m = map (λ e, EventFrame (event_dto e)) Y ++ broken ∧
    shown broken = [] ∧ (broken = [] ∨ sm_open m = false);
  so_delivered : Y ++ List.filter (visible request) X
    = List.filter (wanted (st_inner (sm_store m)) q (lv_cutoff live) request) (received_since rx_st m);
  so_max max : sm_replay_max m = Some max →
    (max <= lv_cutoff live)%N ∨ ∃ y, last Y = Some y ∧ max = evt_sequence_number y
}.

(** The events of a channel since the subscription are stored, in order. *)
Lemma opened_channel q live rx_st st es :
  opened q live rx_st st es →
  let base := length (channel_log (eq_repository_id q) rx_st) in
  drop base (channel_log (eq_repository_id q) st)
    = List.filter (on_channel (st_inner st) (eq_repository_id q)) es ∧
  StronglySorted (λ x y, (evt_sequence_number x < evt_sequence_number y)%N) es ∧
  ∀ e, e ∈ es → job_events_by_id (st_inner st) !! evt_id e = Some e.
Proof.
  intros Hop base. pose proof (op_grows _ _ _ _ _ Hop) as Hg. split_and!.
  - rewrite (channel_log_grows _ _ _ _ Hg). unfold base. by rewrite drop_app_length.
  - apply (consecutive_sorted _ _ (next_event_sequence (st_inner rx_st) + 1)). intros i e He.
    destruct (le_new_events _ _ _ (gr_ledger _ _ _ Hg) _ _ He) as (-> & _). lia.
  - intros e (k & Hk)%list_elem_of_lookup.
    by destruct (le_new_events _ _ _ (gr_ledger _ _ _ Hg) _ _ Hk) as (_ & _ & ?).
Qed.

Lemma received_stored q live request rx_st m es X Y err e :
  streaming q live request rx_st m es X Y err → e ∈ received_since rx_st m →
  job_events_by_id (st_inner (sm_store m)) !! evt_id e = Some e.
Proof.
  intros Hst He. unfold received_since in He. rewrite (so_channel _ _ _ _ _ _ _ _ _ Hst) in He.
  destruct (opened_channel _ _ _ _ _ (so_opened _ _ _ _ _ _ _ _ _ Hst)) as (Hd & _ & Hall).
  apply elem_of_take_1 in He. rewrite Hd in He. apply elem_of_filter_bool in He as [? _]. by apply Hall.
Qed.

Lemma others_streaming q live request rx_st m es X Y err fault op :
  streaming q live request rx_st m es X Y err →
  ∃ es', streaming q live request rx_st (stream_step m (Others fault op)) es' X Y err.
Proof.
  intros Hst. destruct (run_op_grows fault op (sm_store m)) as [es' Hg].
  exists (es ++ es'). pose proof (λ e, received_stored _ _ _ _ _ _ _ _ _ e Hst) as Hstored.
  destruct Hst as [Hop Hch Hq Hc Hr Hpos Hfl Htask Hop' Hfr Hdel Hmax].
  pose proof (op_grows _ _ _ _ _ Hop) as Hg0. pose proof (grows_wf _ _ _ (op_wf _ _ _ _ _ Hop) Hg0) as Hwf.
  pose proof (channel_log_grows _ _ _ (eq_repository_id q) Hg) as Hlog.
  split; simpl; try done.
  - by eapply opened_grows.
  - rewrite Hlog, length_app. lia.
  - rewrite Hdel. unfold received_since in *. cbn [sm_receiver sm_store with_sm_store]. rewrite Hch in *.
    set (base := length _) in *. rewrite Hlog, drop_app_le, take_app_le by (rewrite ?length_drop; lia).
    apply filter_ext_elem. intros e He. unfold wanted. do 2 f_equal. symmetry.
    apply event_matches_steps; [done|apply Hg|]. by apply Hstored.
Qed.

(** The task takes one more message. *)
Lemma receive_event rx_st m q e :
  rx_channel (sm_receiver m) = eq_repository_id q →
  length (channel_log (eq_repository_id q) rx_st) <= rx_position (sm_receiver m) →
  receive (sm_receiver m) (sm_store m) = RecvEvent e →
  rx_position (sm_receiver m) < length (channel_log (eq_repository_id q) (sm_store m)) ∧
  ∀ pending forwarding,
    received_since rx_st (with_task m (next_position (sm_receiver m)) pending forwarding)
    = received_since rx_st m ++ [e].
Proof.
  intros Hch Hpos. unfold receive. rewrite Hch. destruct (_ <? _)%nat; [done|].
  destruct (channel_log _ _ !! _) as [e'|] eqn:He; [|done]. intros [= ->].
  split; [by eapply lookup_lt_Some|]. intros pending forwarding. unfold received_since.
  cbn [sm_receiver sm_store with_task next_position rx_position rx_channel]. rewrite Hch.
  set (base := length _) in *. rewrite Nat.sub_succ_l by done. apply take_S_r.
  rewrite lookup_drop. rewrite <- He. f_equal. lia.
Qed.

Lemma receive_stored q live request rx_st m es X Y err e :
  streaming q live request rx_st m es X Y err → receive (sm_receiver m) (sm_store m) = RecvEvent e →
  job_events_by_id (st_inner (sm_store m)) !! evt_id e = Some e.
Proof.
  intros [Hop Hch _ _ _ Hpos _ _ _ _ _ _] Hrecv.
  destruct (receive_event rx_st m q e Hch (proj1 Hpos) Hrecv) as [_ Hsince].
  destruct (opened_channel _ _ _ _ _ Hop) as (Hd & _ & Hall).
  assert (e ∈ received_since rx_st (with_task m (next_position (sm_receiver m)) None true)) as Hin.
  { rewrite Hsince. apply elem_of_app. right. by left. }
  unfold received_since in Hin. cbn [sm_receiver sm_store with_task next_position rx_channel] in Hin.
  rewrite Hch in Hin. apply elem_of_take_1 in Hin. rewrite Hd in Hin.
  apply elem_of_filter_bool in Hin as [? _]. by apply Hall.
Qed.

Lemma received_filter s q cutoff request l e :
  List.filter (wanted s q cutoff request) (l ++ [e])
  = List.filter (wanted s q cutoff request) l ++ (if wanted s q cutoff request e then [e] else []).
Proof. rewrite List.filter_app. simpl. by destruct (wanted s q cutoff request e). Qed.

Lemma receive_streaming q live request rx_st m es X Y err :
  streaming q live request rx_st m es X Y err →
  ∃ X' err', streaming q live request rx_st (stream_step m Receive) es X' Y err'.
Proof.
  intros Hst. cbn [stream_step]. unfold receive_step.
  destruct (sm_forwarding m) eqn:Hfw; [|by eauto]. destruct (sm_pending m) eqn:Hpe; [by eauto|].
  assert (err = []) as -> by (destruct (so_task _ _ _ _ _ _ _ _ _ Hst); [done|congruence]).
  destruct (receive (sm_receiver m) (sm_store m)) as [e|skipped|] eqn:Hrecv; [| |by eauto].
  2: { exists X, [cursor_expired_lagged_live_filter skipped].
       destruct Hst as [? ? ? ? ? ? Hfl ? ? ? ? ?]. split; simpl; try done; [|by right..].
       rewrite Hpe, app_nil_r in Hfl. simpl in Hfl. rewrite app_nil_r in Hfl. by rewrite Hfl. }
  pose proof Hst as [Hop Hch Hq Hc Hr Hpos Hfl Htask Hop' Hfr Hdel Hmax].
  destruct (receive_event rx_st m q e Hch (proj1 Hpos) Hrecv) as [Hlt Hsince].
  pose proof (receive_stored _ _ _ _ _ _ _ _ _ _ Hst Hrecv) as He.
  pose proof (grows_wf _ _ _ (op_wf _ _ _ _ _ Hop) (op_grows _ _ _ _ _ Hop)) as Hwf.
  assert (∀ pending, length (channel_log (eq_repository_id q) rx_st) <= S (rx_position (sm_receiver m)) →
    let b := (lv_cutoff live <? evt_sequence_number e)%N && event_matches (st_inner (sm_store m)) q e in
    pending = (if b then Some (Ok e) else None) →
    ∃ X' err', streaming q live request rx_st
      (with_task m (next_position (sm_receiver m)) pending true) es X' Y err') as Hgo.
  { intros pending Hp b ->. exists (X ++ if b then [e] else []), []. split; try done.
    - simpl in *. rewrite Hpe, !app_nil_r in Hfl. rewrite map_app, Hfl, app_nil_r. f_equal. by destruct b.
    - by left.
    - destruct Hop'; [by left|congruence].
    - cbn [sm_store with_task]. rewrite Hsince, received_filter, List.filter_app, app_assoc, Hdel. f_equal.
      unfold wanted. fold b. destruct b; simpl; [|done]. by destruct (visible request e). }
  rewrite Hc. destruct (N.leb_spec (evt_sequence_number e) (lv_cutoff live)) as [Hle|Hgt].
  - apply Hgo; [lia|]. by destruct (N.ltb_spec (lv_cutoff live) (evt_sequence_number e)); [lia|].
  - unfold lock. rewrite (op_lock _ _ _ _ _ Hop), Hq. cbv beta iota.
    rewrite (event_matches_query_Ok _ q e Hwf He). apply Hgo; [lia|].
    destruct (N.ltb_spec (lv_cutoff live) (evt_sequence_number e)); [|lia]. simpl.
    by destruct (event_matches _ q e).
Qed.

Lemma forward_streaming q live request rx_st m es X Y err :
  streaming q live request rx_st m es X Y err →
  streaming q live request rx_st (stream_step m Forward) es X Y err.
Proof.
  intros Hst. cbn [stream_step]. unfold forward_step. destruct (sm_pending m) as [msg|] eqn:Hpe; [|done].
  destruct (_ <? _)%nat; [|done]. destruct Hst as [? ? ? ? ? ? Hfl ? ? ? ? ?]. split; try done.
  simpl. rewrite Hpe in Hfl. by rewrite app_nil_r.
Qed.

(** An event that the body would show comes after what it has shown. *)
Lemma visible_is_new q live request rx_st m es e X Y err max :
  streaming q live request rx_st m es (e :: X) Y err → visible request e = true →
  sm_replay_max m = Some max → (max < evt_sequence_number e)%N.
Proof.
  intros [Hop Hch _ _ _ _ _ _ _ _ Hdel Hmax] Hv Hm. simpl in Hdel. rewrite Hv in Hdel.
  assert (StronglySorted (λ x y, (evt_sequence_number x < evt_sequence_number y)%N)
    (Y ++ e :: List.filter (visible request) X)) as Hsort.
  { rewrite Hdel. apply StronglySorted_filter. unfold received_since. rewrite Hch.
    destruct (opened_channel _ _ _ _ _ Hop) as (-> & Hes & _).
    eapply StronglySorted_prefix. rewrite take_drop. by apply StronglySorted_filter. }
  destruct (Hmax _ Hm) as [Hle|(y & Hy & ->)].
  - assert (e ∈ Y ++ e :: List.filter (visible request) X) as Hin.
    { apply elem_of_app. right. by left. }
    rewrite Hdel in Hin. apply elem_of_filter_bool in Hin as [_ Hw]. unfold wanted in Hw.
    apply andb_true_iff in Hw as [[Hw _]%andb_true_iff _]. apply N.ltb_lt in Hw. lia.
  - rewrite last_lookup in Hy. apply list_elem_of_lookup_2 in Hy.
    exact (StronglySorted_middle _ _ _ _ _ Hsort Hy).
Qed.

(** The head of the queue is the oldest message in flight. *)
Lemma flight_head {E A} (msg : result E A) rest X err :
  msg :: rest = map Ok X ++ map Err err →
  (∃ e X', msg = Ok e ∧ X = e :: X' ∧ rest = map Ok X' ++ map Err err) ∨
  (∃ e err', msg = Err e ∧ X = [] ∧ err = e :: err' ∧ rest = map Ok [] ++ map Err err').
Proof. destruct X as [|e X]; [destruct err as [|e err]|]; simpl; intros [= -> ->]; eauto 10. Qed.

Lemma read_streaming q live request rx_st m es X Y err :
  streaming q live request rx_st m es X Y err →
  ∃ X' Y' err', streaming q live request rx_st (stream_step m Read) es X' Y' err'.
Proof.
  intros Hst. cbn [stream_step]. unfold read_step.
  destruct (sm_open m) eqn:Hopen; cbn [negb]; [|by eauto].
  destruct (sm_queue m) as [|msg rest] eqn:Hqueue.
  { destruct (sm_pending m); [by eauto|]. destruct (sm_forwarding m) eqn:Hfw; [by eauto|].
    exists X, Y, err. destruct Hst as [? ? ? ? ? ? ? ? ? (broken & Hfr & Hsh & _) ? ?].
    split; try done; [by right|]. eauto 10. }
  pose proof Hst as [Hop Hch Hq Hc Hr Hpos Hfl Htask Hop' (broken & Hfr & Hsh & Hbr) Hdel Hmax].
  destruct Hbr as [->|?]; [|congruence]. rewrite app_nil_r in Hfr. rewrite Hqueue in Hfl.
  destruct (flight_head _ _ _ _ Hfl) as [(e & X' & -> & -> & Hrest)|(e & err' & -> & -> & -> & Hrest)].
  - assert (visible request e = false → streaming q live request rx_st
      (with_queue m (sm_pending m) rest) es X' Y err) as Hdrop.
    { intros Hv. split; try done; [|simpl in Hdel; by rewrite Hv in Hdel].
      exists []. rewrite app_nil_r. eauto. }
    cbv beta iota zeta. match goal with |- context [if ?old then _ else _] => destruct old eqn:Hold end.
    { exists X', Y, err. apply Hdrop. cbn [sm_replay_max with_queue] in Hold.
      destruct (sm_replay_max m) as [max|] eqn:Hm; [|done]. apply not_true_is_false. intros Hv.
      apply N.leb_le in Hold. pose proof (visible_is_new _ _ _ _ _ _ _ _ _ _ _ Hst Hv Hm). lia. }
    cbn [sm_request with_queue]. rewrite Hr. fold (visible request e).
    destruct (visible request e) eqn:Hv; [|by eauto]. exists X', (Y ++ [e]), err. split; try done.
    + by left.
    + exists []. simpl. rewrite Hfr, map_app, app_nil_r. auto.
    + simpl in Hdel. rewrite Hv in Hdel. by rewrite <- app_assoc.
    + intros max [= <-]. right. exists e. by rewrite last_snoc.
  - assert (sm_forwarding m = false) as Hfw by (by destruct Htask).
    assert (∀ frame, shown [frame] = [] → streaming q live request rx_st
      (with_body (with_queue m (sm_pending m) rest) (sm_replay_max m) (sm_frames m ++ [frame]) false)
      es [] Y err') as Hend.
    { intros frame Hf. split; try done; [by right..|]. exists [frame]. simpl. rewrite Hfr. auto. }
    destruct e; eauto.
Qed.

Lemma stream_run_ok q live request rx_st schedule m es X Y err :
  streaming q live request rx_st m es X Y err →
  ∃ es' X' Y' err', streaming q live request rx_st (stream_run schedule m) es' X' Y' err'.
Proof.
  revert m es X Y err. induction schedule as [|step schedule IH]; intros m es X Y err Hst; [by eauto 10|].
  destruct step; simpl.
  - destruct (others_streaming _ _ _ _ _ _ _ _ _ fault op Hst) as (? & ?). by eapply IH.
  - destruct (receive_streaming _ _ _ _ _ _ _ _ _ Hst) as (? & ? & ?). by eapply IH.
  - eapply IH. by apply forward_streaming.
  - destruct (read_streaming _ _ _ _ _ _ _ _ _ Hst) as (? & ? & ? & ?). by eapply IH.
Qed.
End Streaming.

(** ** From the opening to the end *)

Lemma filter_after {A} (f : A → N) l base c :
  (∀ i x, l !! i = Some x → f x = (base + N.of_nat i + 1)%N) →
  List.filter (λ x, (c <? f x)%N) l = drop (N.to_nat c - N.to_nat base) l.
Proof.
  revert base. induction l as [|x l IH]; intros base Hl; [by rewrite drop_nil|]. cbn [List.filter].
  rewrite (IH (base + 1)%N) by (intros i y Hy; rewrite (Hl (S i) y Hy); lia).
  rewrite (Hl 0 x eq_refl). destruct (N.ltb_spec c (base + N.of_nat 0 + 1)).
  - replace (N.to_nat c - N.to_nat (base + 1)) with 0 by lia.
    by replace (N.to_nat c - N.to_nat base) with 0 by lia.
  - by replace (N.to_nat c - N.to_nat base) with (S (N.to_nat c - N.to_nat (base + 1))) by lia.
Qed.

Section Exact.
Context `{UuidLib} `{RegistryPort} `{!SnapshotCodec}.
Implicit Types s : InMemoryInner.
Implicit Types st : InMemoryStore.

(** Every event names its repository. *)
Definition names_repository s : Prop :=
  ∀ e, e ∈ ledger_events s → is_some (ref_repository_id (evt_refs e)) = true.

Lemma parse_repository_id_str value r : parse_repository_id value = Ok r → as_str r = value.
Proof.
  unfold parse_repository_id, try_from_string. intros Hok%map_err_Ok.
  apply bind_Ok in Hok as (u & _ & [_ [= <-]]%reject_Ok). done.
Qed.

(** The filter of the body agrees with the filter of the store on events that
    name their repository. *)
Lemma matching_is_visible s request q inc e :
  build_watch_event_query_from_request request = Ok (q, inc) →
  is_some (ref_repository_id (evt_refs e)) = true → event_matches s q e = true → visible request e = true.
Proof.
  intros (r & Hr%parse_repository_id_str & Hb)%bind_Ok Href.
  apply bind_Ok in Hb as (cur & _ & (limit & _ & [= <- _])%bind_Ok).
  unfold event_matches, event_matches_query, event_repository_id, matches_event_query. simpl.
  destruct (ref_repository_id (evt_refs e)) as [r'|] eqn:Hre; [|done]. simpl. case_bool_decide as Heq; [|done].
  injection Heq as ->. unfold visible, watch_event_matches_request. simpl. rewrite Hre. simpl.
  rewrite <- Hr, (proj2 (str_eqb_eq _ _) eq_refl). cbn [negb]. rewrite !andb_true_iff. intros [[Hsub _] Hsev].
  assert (negb (bool_decide (we_subject_ids request = []))
          && negb (existsb (λ id, str_eqb id (subject_id (evt_subject e))) (we_subject_ids request)) = false) as ->.
  { destruct (bool_decide (we_subject_ids request = [])); [done|]. simpl in *.
    unfold str_in in Hsub. rewrite existsb_exists in Hsub. destruct Hsub as (x & Hx & Hsx).
    apply negb_false_iff, existsb_exists. exists x. split; [done|].
    apply str_eqb_eq. symmetry. by apply str_eqb_eq. }
  destruct (we_min_severity request) as [v|]; [|done]. simpl in Hsev. by destruct v, (evt_severity e).
Qed.

(** What follows the snapshot is what the channel carries. *)
Lemma after_cutoff q live rx_st st es request inc :
  opened q live rx_st st es → build_watch_event_query_from_request request = Ok (q, inc) →
  names_repository (st_inner st) →
  List.filter (event_matches (st_inner st) q) (drop (N.to_nat (lv_cutoff live)) (ledger_events (st_inner st)))
  = List.filter (wanted (st_inner st) q (lv_cutoff live) request)
      (List.filter (on_channel (st_inner st) (eq_repository_id q)) es).
Proof.
  intros Hop Hb Hn. pose proof (op_wf _ _ _ _ _ Hop) as Hwf. pose proof (op_grows _ _ _ _ _ Hop) as Hg.
  pose proof (sw_ledger _ (grows_wf _ _ _ Hwf Hg)) as Hl. set (s := st_inner st) in *.
  pose proof (grows_events _ _ _ Hwf Hg) as Hev. fold s in Hev.
  replace (N.to_nat (lv_cutoff live)) with (N.to_nat (lv_cutoff live) - N.to_nat 0) by lia.
  rewrite <- (filter_after evt_sequence_number).
  2: { intros i e He. apply ledger_events_lookup in He as [_ ->]; [lia|done]. }
  rewrite filter_andb, Hev, List.filter_app, (filter_none _ (ledger_events (st_inner rx_st))).
  2: { intros e He%ledger_event_stored; [|apply Hwf]. pose proof (op_subscribed _ _ _ _ _ Hop).
       apply andb_false_iff. left. apply N.ltb_ge. lia. }
  simpl. rewrite filter_andb. apply filter_ext_elem. intros e He. unfold wanted.
  destruct (event_matches s q e) eqn:Hm; [|by rewrite !andb_false_r].
  rewrite (event_matches_on_channel s q e Hm), (matching_is_visible s request q inc e), !andb_true_r; try done.
  apply Hn. rewrite Hev. set_solver.
Qed.

Lemma events_between_seq s a c e :
  ledger_wf s → e ∈ events_between s a c → (evt_sequence_number e <= c)%N.
Proof.
  intros Hwf (k & Hk)%elem_of_drop_1%list_elem_of_lookup. apply lookup_take_Some in Hk as [Hk Hlt].
  apply ledger_events_lookup in Hk as [_ ->]; [|done]. lia.
Qed.

(** Nothing the stream remembers from the opening is after the cutoff. *)
Lemma start_max q live rx_st st es request inc max :
  opened q live rx_st st es → build_watch_event_query_from_request request = Ok (q, inc) →
  let replay_max := option_map evt_sequence_number (last (lv_events live)) in
  let resolved := lv_resolved_cursor_sequence live in
  or_else replay_max
    (or_else (live_last_sequence (map event_dto (lv_events live)) inc replay_max resolved) resolved)
    = Some max →
  (max <= lv_cutoff live)%N.
Proof.
  intros Hop (r & _ & Hb)%bind_Ok. apply bind_Ok in Hb as (cur & Hcur & (limit & _ & [= Hq Hi])%bind_Ok).
  pose proof (grows_wf _ _ _ (op_wf _ _ _ _ _ Hop) (op_grows _ _ _ _ _ Hop)) as Hwf.
  pose proof (op_after _ _ _ _ _ Hop) as Haft.
  destruct (last (lv_events live)) as [e|] eqn:Hlast; simpl.
  - intros [= <-]. rewrite last_lookup in Hlast. apply list_elem_of_lookup_2 in Hlast.
    rewrite (op_events _ _ _ _ _ Hop) in Hlast. apply elem_of_filter_bool in Hlast as [Hin _].
    by eapply events_between_seq, Hin; apply sw_ledger.
  - apply last_None in Hlast. rewrite Hlast. simpl. pose proof (op_cursor _ _ _ _ _ Hop) as Hc. subst q.
    simpl in Hc. destruct (we_cursor request) as [[|n|i]|]; simpl in *; subst inc;
      destruct (lv_resolved_cursor_sequence live); simpl in *; intros [= <-]; try done.
    + injection Hcur as <-. simpl in Hc. injection Hc as ->. lia.
    + injection Hcur as <-. simpl in Hc. injection Hc as ->. lia.
Qed.

(** A watch that opened starts to stream. *)
Lemma live_response_streaming gap1 gap2 gaps request st st1 response :
  store_wf (st_inner st) → rpc_watch_events_live gap1 gap2 gaps request st = Some (st1, Ok response) →
  ∃ q inc rx_st es, build_watch_event_query_from_request request = Ok (q, inc) ∧
    wl_events response = map event_dto (lv_events (wl_live response)) ∧
    streaming q (wl_live response) request rx_st (stream_start request response st1) es [] [] [].
Proof.
  intros Hwf. unfold rpc_watch_events_live.
  destruct (build_watch_event_query_from_request request) as [[q inc]|] eqn:Hb; [|done].
  unfold watch_events_live. case_bool_decide; [done|].
  destruct (watch_job_events_live_spec gap1 gap2 gaps q st Hwf) as (st' & r & -> & Hr).
  destruct r as [live|e]; [|done]. intros [= <- <-].
  destruct (Hr live eq_refl) as (rx_st & es & Hop). exists q, inc, rx_st, es. split_and!; [done|done|].
  simpl. pose proof (op_receiver _ _ _ _ _ Hop) as Hrx. split; simpl; rewrite ?Hrx; try done.
  - apply (op_query _ _ _ _ _ Hop).
  - simpl. rewrite (channel_log_grows _ _ _ _ (op_grows _ _ _ _ _ Hop)), length_app. lia.
  - by left.
  - by left.
  - exists []. auto.
  - unfold received_since. simpl. rewrite Hrx. simpl. by rewrite Nat.sub_diag.
  - intros max Hmax. left. by eapply start_max.
Qed.

(** The task waits for new events and nothing is on its way. *)
Definition caught_up (m : Stream) : Prop :=
  sm_forwarding m = true ∧ sm_pending m = None ∧ sm_queue m = [] ∧
  rx_position (sm_receiver m) = length (channel_log (rx_channel (sm_receiver m)) (sm_store m)).

Lemma streaming_shown q live request rx_st m es X Y err inc :
  streaming q live request rx_st m es X Y err → build_watch_event_query_from_request request = Ok (q, inc) →
  names_repository (st_inner (sm_store m)) →
  let s := st_inner (sm_store m) in
  let a := default 0%N (lv_resolved_cursor_sequence live) in
  shown (sm_frames m) = map event_dto Y ∧
  lv_events live ++ Y `prefix_of` matching_events s q a ∧
  (caught_up m → lv_events live ++ Y = matching_events s q a).
Proof.
  intros Hst Hb Hn s a. pose proof Hst as [Hop Hch _ _ _ Hpos Hfl _ _ (broken & Hfr & Hsh & _) Hdel _].
  assert (matching_events s q a = lv_events live
    ++ List.filter (wanted s q (lv_cutoff live) request)
         (drop (length (channel_log (eq_repository_id q) rx_st)) (channel_log (eq_repository_id q) (sm_store m)))) as ->.
  { destruct (opened_channel _ _ _ _ _ Hop) as (-> & _ & _). unfold s.
    rewrite <- (after_cutoff q live rx_st (sm_store m) es request inc Hop Hb Hn), (op_events _ _ _ _ _ Hop).
    rewrite <- List.filter_app. unfold matching_events, events_after, events_between. f_equal.
    rewrite drop_take_drop; [done|]. pose proof (op_after _ _ _ _ _ Hop). lia. }
  unfold received_since in Hdel. rewrite Hch in Hdel. split_and!.
  - rewrite Hfr. unfold shown in *. rewrite omap_app, Hsh, app_nil_r. clear. by induction Y as [|y Y IH]; simpl; [|f_equal].
  - apply prefix_app. etrans; [by apply prefix_app_r|]. rewrite Hdel. apply filter_prefix.
    eexists. symmetry. apply take_drop.
  - intros (_ & Hpe & Hqu & Heq). rewrite Hqu, Hpe in Hfl. f_equal.
    destruct X; [|done]. rewrite app_nil_r in Hdel. rewrite Hdel. f_equal. apply take_ge.
    rewrite length_drop, Heq, Hch. lia.
Qed.

(** C9: A live watch neither loses nor repeats an event.  However other threads
    use the store while the watch opens and while it streams, and wherever the
    schedule stops, what the client was shown (the snapshot and then the stream)
    is a beginning of the list of all matching events after its cursor, in
    ledger order; and it is the whole list when the stream has caught up.  It is
    assumed that every event of the ledger names its repository: one that does
    not is never streamed ([unnamed_event_is_not_streamed]). *)
Theorem live_watch_is_exact gap1 gap2 gaps request st st1 response schedule :
  store_wf (st_inner st) → rpc_watch_events_live gap1 gap2 gaps request st = Some (st1, Ok response) →
  let m := stream_run schedule (stream_start request response st1) in
  let s := st_inner (sm_store m) in
  names_repository s →
  ∃ q inc a, build_watch_event_query_from_request request = Ok (q, inc) ∧
    event_cursor_sequence s (eq_cursor q) = Ok a ∧
    wl_events response ++ shown (sm_frames m) `prefix_of` map event_dto (matching_events s q a) ∧
    (caught_up m → wl_events response ++ shown (sm_frames m) = map event_dto (matching_events s q a)).
Proof.
  intros Hwf Hw m s Hn.
  destruct (live_response_streaming _ _ _ _ _ _ _ Hwf Hw) as (q & inc & rx_st & es & Hb & Hev & Hst).
  destruct (stream_run_ok _ _ _ _ schedule _ _ _ _ _ Hst) as (es' & X & Y & err & Hst'). fold m in Hst'.
  destruct (streaming_shown _ _ _ _ _ _ _ _ _ _ Hst' Hb Hn) as (Hsh & Hpre & Hall).
  exists q, inc, (default 0%N (lv_resolved_cursor_sequence (wl_live response))).
  rewrite Hsh, Hev, <- map_app. split_and!; [done|apply Hst'| |].
  - destruct Hpre as [k Hk]. exists (map event_dto k). by rewrite <- map_app, <- Hk.
  - intros Hc. by rewrite (Hall Hc).
Qed.

(** ** Catching up *)

Definition backlog (m : Stream) : nat :=
  length (channel_log (rx_channel (sm_receiver m)) (sm_store m)) - rx_position (sm_receiver m).
(** The task runs and has not fallen behind what the channel keeps. *)
Definition healthy (m : Stream) : Prop := sm_forwarding m = true ∧ backlog m <= BROADCAST_CAPACITY.
(** What is left to do, in steps. *)
Definition remaining (m : Stream) : nat :=
  3 * backlog m + 2 * length (option_list (sm_pending m)) + length (sm_queue m).

(** A step with no call of another thread: the work left does not grow. *)
Record advances (m m' : Stream) : Prop := {
  ad_healthy : healthy m';
  ad_store : sm_store m' = sm_store m;
  ad_less : remaining m' <= remaining m
}.

Lemma advances_refl m : healthy m → advances m m.
Proof. by split. Qed.

Lemma read_advances q live request rx_st m es X Y err :
  streaming q live request rx_st m es X Y err → healthy m →
  advances m (read_step m) ∧ (sm_queue m ≠ [] → remaining (read_step m) < remaining m) ∧
  (sm_queue m = [] → read_step m = m).
Proof.
  intros [_ _ _ _ _ _ Hfl Htask Hop _ _ _] Hh. pose proof Hh as [Hfw Hb]. unfold read_step.
  assert (sm_open m = true) as -> by (destruct Hop; [done|congruence]). cbn [negb].
  assert (err = []) as -> by (destruct Htask; [done|congruence]).
  destruct (sm_queue m) as [|msg rest] eqn:Hq.
  { rewrite Hfw. destruct (sm_pending m); split; eauto using advances_refl; done. }
  destruct (flight_head _ _ _ _ Hfl) as [(e & X' & -> & _ & _)|(e & err' & _ & _ & ? & _)]; [|done].
  assert (∀ max frames, advances m (with_body (with_queue m (sm_pending m) rest) max frames true) ∧
    (Ok e :: rest ≠ [] → remaining (with_body (with_queue m (sm_pending m) rest) max frames true) < remaining m)
    ∧ (Ok e :: rest = [] → with_body (with_queue m (sm_pending m) rest) max frames true = m)) as Hgo.
  { intros max frames. split_and!; [split; [done|done|]| |done]; unfold remaining, backlog; simpl; rewrite Hq; simpl; lia. }
  assert (advances m (with_queue m (sm_pending m) rest) ∧
    (Ok e :: rest ≠ [] → remaining (with_queue m (sm_pending m) rest) < remaining m) ∧
    (Ok e :: rest = [] → with_queue m (sm_pending m) rest = m)) as Hdrop.
  { split_and!; [split; [done|done|]| |done]; unfold remaining, backlog; simpl; rewrite Hq; simpl; lia. }
  cbv beta iota zeta. match goal with |- context [if ?old then _ else _] => destruct old end; [done|].
  destruct (watch_event_matches_request _ _); [apply Hgo|done].
Qed.

Lemma forward_advances m :
  healthy m → advances m (forward_step m) ∧
  (sm_queue m = [] → sm_pending m ≠ None → remaining (forward_step m) < remaining m) ∧
  (sm_pending m = None → forward_step m = m).
Proof.
  intros Hh. unfold forward_step. destruct (sm_pending m) as [msg|] eqn:Hp; [|by eauto using advances_refl].
  destruct (_ <? _)%nat eqn:Hroom.
  - split_and!; [split; [done|done|]|intros _ _|done]; unfold remaining, backlog; simpl; rewrite Hp, length_app; simpl; lia.
  - split_and!; [by apply advances_refl| |done]. intros Hq. by rewrite Hq in Hroom.
Qed.

Lemma receive_advances q live request rx_st m es X Y err :
  streaming q live request rx_st m es X Y err → healthy m →
  advances m (receive_step m) ∧
  (sm_pending m = None → 0 < backlog m → remaining (receive_step m) < remaining m).
Proof.
  intros Hst Hh. pose proof Hh as [Hfw Hb]. unfold receive_step. rewrite Hfw.
  destruct (sm_pending m) as [msg|] eqn:Hp; [by eauto using advances_refl|].
  destruct (receive (sm_receiver m) (sm_store m)) as [e|k|] eqn:Hr.
  - pose proof (receive_stored _ _ _ _ _ _ _ _ _ _ Hst Hr) as He. pose proof (so_opened _ _ _ _ _ _ _ _ _ Hst) as Hop.
    pose proof (grows_wf _ _ _ (op_wf _ _ _ _ _ Hop) (op_grows _ _ _ _ _ Hop)) as Hwf.
    destruct (receive_event rx_st m q e (so_channel _ _ _ _ _ _ _ _ _ Hst)
      (proj1 (so_position _ _ _ _ _ _ _ _ _ Hst)) Hr) as [Hlt _]. rewrite <- (so_channel _ _ _ _ _ _ _ _ _ Hst) in Hlt.
    assert (∀ pending, advances m (with_task m (next_position (sm_receiver m)) pending true) ∧
      (@None (StoreResult JobEvent) = None → 0 < backlog m →
       remaining (with_task m (next_position (sm_receiver m)) pending true) < remaining m)) as Hgo.
    { intros pending. split; [split; [split; [done|]|done|]|intros _ _]; unfold remaining, backlog in *;
        cbn [with_task sm_receiver sm_store sm_pending sm_queue next_position rx_channel rx_position];
        rewrite ?Hp; try destruct pending; simpl; lia. }
    destruct (_ <=? _)%N; [apply Hgo|]. unfold lock. rewrite (op_lock _ _ _ _ _ Hop). cbv beta iota.
    rewrite (event_matches_query_Ok _ _ e Hwf He). apply Hgo.
  - unfold receive in Hr. fold (backlog m) in Hr. destruct (Nat.ltb_spec BROADCAST_CAPACITY (backlog m)); [lia|].
    by destruct (_ !! _).
  - split; [by apply advances_refl|]. intros _ Hpos. unfold receive in Hr. fold (backlog m) in Hr.
    destruct (_ <? _)%nat; [done|]. destruct (_ !! _) eqn:Hnone; [done|]. apply lookup_ge_None in Hnone.
    unfold backlog in Hpos. lia.
Qed.

(** The body, the queue and the task take one turn each. *)
Definition turn : list StreamStep := [Read; Forward; Receive].
Fixpoint turns (n : nat) : list StreamStep :=
  match n with O => [] | S n => turn ++ turns n end.

Lemma advances_trans m1 m2 m3 : advances m1 m2 → advances m2 m3 → advances m1 m3.
Proof. intros [_ Hs1 Hl1] [Hh Hs2 Hl2]. split; [done|congruence|lia]. Qed.

Lemma turn_advances q live request rx_st m es X Y err :
  streaming q live request rx_st m es X Y err → healthy m →
  advances m (stream_run turn m) ∧ (0 < remaining m → remaining (stream_run turn m) < remaining m).
Proof.
  intros Hst Hh. destruct (read_advances _ _ _ _ _ _ _ _ _ Hst Hh) as (A1 & L1 & E1).
  destruct (read_streaming _ _ _ _ _ _ _ _ _ Hst) as (X1 & Y1 & err1 & Hst1). cbn [stream_step] in Hst1.
  destruct (forward_advances _ (ad_healthy _ _ A1)) as (A2 & L2 & E2).
  pose proof (forward_streaming _ _ _ _ _ _ _ _ _ Hst1) as Hst2. cbn [stream_step] in Hst2.
  destruct (receive_advances _ _ _ _ _ _ _ _ _ Hst2 (ad_healthy _ _ A2)) as (A3 & L3).
  change (stream_run turn m) with (receive_step (forward_step (read_step m))).
  split; [eauto using advances_trans|]. intros Hpos. pose proof (ad_less _ _ A1). pose proof (ad_less _ _ A2).
  pose proof (ad_less _ _ A3). destruct (decide (sm_queue m = [])) as [Hq|Hq]; [|specialize (L1 Hq); lia].
  rewrite (E1 Hq) in *. destruct (sm_pending m) as [msg|] eqn:Hp; [specialize (L2 Hq ltac:(done)); lia|].
  rewrite (E2 eq_refl) in *. assert (0 < backlog m) as Hb.
  { unfold remaining in Hpos. rewrite Hq, Hp in Hpos. simpl in Hpos. lia. }
  specialize (L3 Hp Hb). lia.
Qed.

Lemma turns_catch_up q live request rx_st n m es X Y err :
  streaming q live request rx_st m es X Y err → healthy m → remaining m <= n →
  caught_up (stream_run (turns n) m) ∧ sm_store (stream_run (turns n) m) = sm_store m ∧
  ∃ es' X' Y' err', streaming q live request rx_st (stream_run (turns n) m) es' X' Y' err'.
Proof.
  revert m es X Y err. induction n as [|n IH]; intros m es X Y err Hst Hh Hn.
  - change (stream_run (turns 0) m) with m. split_and!; [|done|by eauto 10]. unfold remaining in Hn. destruct Hh as [Hfw _].
    split_and!; [done|destruct (sm_pending m); [simpl in Hn; lia|done]|
      destruct (sm_queue m); [done|simpl in Hn; lia]|].
    pose proof (so_position _ _ _ _ _ _ _ _ _ Hst). rewrite <- (so_channel _ _ _ _ _ _ _ _ _ Hst) in *.
    unfold backlog in Hn. simpl. lia.
  - destruct (turn_advances _ _ _ _ _ _ _ _ _ Hst Hh) as [[Hh' Hs Hle] Hlt].
    destruct (stream_run_ok _ _ _ _ turn _ _ _ _ _ Hst) as (es' & X' & Y' & err' & Hst').
    change (stream_run (turns (S n)) m) with (stream_run (turns n) (stream_run turn m)).
    rewrite <- Hs. apply (IH _ es' X' Y' err'); [done|done|]. destruct (decide (0 < remaining m)); lia.
Qed.

(** C10: A live watch catches up.  From any point of any schedule at which the
    forwarding task has not fallen further behind than the channel keeps events,
    finitely many turns of the task, the queue and the body suffice for the
    client to have been shown every matching event after its cursor, in order.  As
    above, it is assumed that every event of the ledger names its repository. *)
Theorem live_watch_catches_up gap1 gap2 gaps request st st1 response schedule :
  store_wf (st_inner st) → rpc_watch_events_live gap1 gap2 gaps request st = Some (st1, Ok response) →
  let m := stream_run schedule (stream_start request response st1) in
  let s := st_inner (sm_store m) in
  names_repository s → healthy m →
  ∃ q inc a, build_watch_event_query_from_request request = Ok (q, inc) ∧
    event_cursor_sequence s (eq_cursor q) = Ok a ∧
    wl_events response ++ shown (sm_frames (stream_run (turns (remaining m)) m))
    = map event_dto (matching_events s q a).
Proof.
  intros Hwf Hw m s Hn Hh.
  destruct (live_response_streaming _ _ _ _ _ _ _ Hwf Hw) as (q & inc & rx_st & es & Hb & Hev & Hst).
  destruct (stream_run_ok _ _ _ _ schedule _ _ _ _ _ Hst) as (es' & X & Y & err & Hst'). fold m in Hst'.
  destruct (turns_catch_up _ _ _ _ (remaining m) _ _ _ _ _ Hst' Hh) as (Hc & Hstore & es2 & X2 & Y2 & err2 & Hst2);
    [done|].
  assert (names_repository (st_inner (sm_store (stream_run (turns (remaining m)) m)))) as Hn2 by (by rewrite Hstore).
  destruct (streaming_shown _ _ _ _ _ _ _ _ _ _ Hst2 Hb Hn2) as (Hsh & _ & Hall).
  exists q, inc, (default 0%N (lv_resolved_cursor_sequence (wl_live response))).
  rewrite Hsh, Hev, <- map_app, (Hall Hc), Hstore. split_and!; [done|apply Hst'|done].
Qed.

(** Opening a watch ends. *)
Lemma live_watch_opens gap1 gap2 gaps request st :
  store_wf (st_inner st) → ∃ st1 r, rpc_watch_events_live gap1 gap2 gaps request st = Some (st1, r).
Proof.
  intros Hwf. unfold rpc_watch_events_live, watch_events_live.
  destruct (build_watch_event_query_from_request request) as [[q inc]|]; [|by eauto].
  case_bool_decide; [by eauto|].
  destruct (watch_job_events_live_spec gap1 gap2 gaps q st Hwf) as (st' & [live|e] & -> & _); by eauto.
Qed.
End Exact.

(** ** A watch on the demo run *)

Module LiveDemo.
Import Demo ShellDemo.
#[local] Existing Instance sample_uuid_lib.
#[local] Existing Instance sample_registry.
#[local] Existing Instance demo_codec.

Definition quiet_op (op : StoreOp) : option IoFault * StoreOp := (None, op).
Definition demo_store (n : nat) : InMemoryStore := run_ops (map quiet_op (take n demo_ops)) store_default.

Definition demo_watch : WatchEventsRequest := {|
  we_repository_id := as_str (repo_id demo_repository); we_cursor := Some (FromSequence 1);
  we_subject_ids := []; we_min_severity := Some RevInfo; we_limit := None |}.

(** The policy decision and its event come while the watch opens, the start of
    the job between two batches, and its end while the stream runs. *)
Definition demo_gap1 : Gap := map quiet_op (take 1 (drop 2 demo_ops)).
Definition demo_gap2 : Gap := map quiet_op (take 1 (drop 3 demo_ops)).
Definition demo_gaps (_ : nat) : Gap := [].
Abbreviation demo_opening :=
  (rpc_watch_events_live demo_gap1 demo_gap2 demo_gaps demo_watch (demo_store 2)).
Definition demo_opened : InMemoryStore * RpcResult WatchEventsLiveResponse :=
  default (store_default, Err (invalid_argument (msg ""))) demo_opening.
Definition demo_response : WatchEventsLiveResponse :=
  match demo_opened.2 with
  | Ok r => r
  | Err _ => {| wl_events := []; wl_cursor := None;
                wl_live := {| lv_events := []; lv_receiver := {| rx_channel := None; rx_position := 0 |};
                              lv_query := {| eq_repository_id := None; eq_cursor := Beginning;
                                             eq_subject_ids := []; eq_job_ids := []; eq_min_severity := None;
                                             eq_page_size := None; eq_page_token := None |};
                              lv_cutoff := 0; lv_resolved_cursor_sequence := None |};
                wl_replay_max_sequence := None; wl_resolved_cursor_sequence := None;
                wl_last_sequence := None |}
  end.
Definition demo_schedule : list StreamStep :=
  map (Others None) (take 1 (drop 4 demo_ops)) ++ [Receive; Receive] ++
  map (Others None) (drop 5 demo_ops) ++ [Forward; Read].
Abbreviation demo_stream :=
  (stream_run demo_schedule (stream_start demo_watch demo_response demo_opened.1)).

Lemma demo_store2_wf : store_wf (st_inner (demo_store 2)).
Proof.
  apply (store_steps_wf inner_default); [apply inner_default_wf|].
  apply (exec_ops_steps (take 2 demo_ops) _ _ (demo_events 2)). vm_compute. reflexivity.
Qed.

Lemma demo_opens : demo_opening = Some (demo_opened.1, Ok demo_response).
Proof. vm_compute. reflexivity. Qed.

Lemma demo_names : names_repository (st_inner (sm_store demo_stream)).
Proof.
  intros e. assert (ledger_events (st_inner (sm_store demo_stream)) = demo_events 7) as -> by (vm_compute; reflexivity).
  intros (k & Hk)%list_elem_of_lookup. do 7 (destruct k as [|k]; [vm_compute in Hk; by simplify_eq|]).
  vm_compute in Hk. by destruct k.
Qed.

(** The second event is in the snapshot; of the four that follow, the stream has
    shown the first. *)
Lemma live_watch_is_exact_witness :
  map rev_sequence (wl_events demo_response) = [2%N] ∧
  map rev_sequence (shown (sm_frames demo_stream)) = [3%N] ∧
  ∃ q inc a, build_watch_event_query_from_request demo_watch = Ok (q, inc) ∧
    wl_events demo_response ++ shown (sm_frames demo_stream)
    `prefix_of` map event_dto (matching_events (st_inner (sm_store demo_stream)) q a).
Proof.
  split; [vm_compute; reflexivity|]. split; [vm_compute; reflexivity|].
  pose proof (live_watch_is_exact demo_gap1 demo_gap2 demo_gaps demo_watch (demo_store 2)
    demo_opened.1 demo_response demo_schedule) as Hex. cbv zeta in Hex.
  destruct (Hex demo_store2_wf demo_opens demo_names) as (q & inc & a & Hb & _ & Hp & _).
  exists q, inc, a. split; [exact Hb|exact Hp].
Defined.

Lemma demo_healthy : healthy demo_stream.
Proof. split; [vm_compute; reflexivity|]. vm_compute. lia. Qed.

Lemma live_watch_catches_up_witness :
  map rev_sequence (shown (sm_frames (stream_run (turns (remaining demo_stream)) demo_stream)))
    = [3; 4; 5; 6]%N ∧
  ∃ q inc a, build_watch_event_query_from_request demo_watch = Ok (q, inc) ∧
    wl_events demo_response ++ shown (sm_frames (stream_run (turns (remaining demo_stream)) demo_stream))
    = map event_dto (matching_events (st_inner (sm_store demo_stream)) q a).
Proof.
  split; [vm_compute; reflexivity|].
  pose proof (live_watch_catches_up demo_gap1 demo_gap2 demo_gaps demo_watch (demo_store 2)
    demo_opened.1 demo_response demo_schedule) as Hex. cbv zeta in Hex.
  destruct (Hex demo_store2_wf demo_opens demo_names demo_healthy) as (q & inc & a & Hb & _ & Hall).
  exists q, inc, a. split; [exact Hb|exact Hall].
Defined.

(** ** Events that do not name their repository *)

Definition unnamed_event : JobEvent :=
  demo_event "e9" 90 (subject_job (job_id demo_job)) MessageEvent
    {| ref_repository_id := None; ref_job_id := Some (job_id demo_job); ref_policy_decision_id := None;
       ref_lock_decision_id := None; ref_tool_invocation_id := None; ref_tool_result_id := None;
       ref_content_type := None; ref_audit_record_id := None; ref_output_refs := [];
       ref_artifact_refs := [] |}.
Definition unnamed_stream : Stream :=
  stream_run ([Others None (OpAppendEvent unnamed_event)] ++ turns 9)
    (stream_start demo_watch demo_response demo_opened.1).

(** The store accepts an event that names its job but not its repository, and a
    replay of the repository's events returns it; the live stream, which
    compares the reference of the event, drops it. *)
Theorem unnamed_event_is_not_streamed :
  shown (sm_frames unnamed_stream) = [] ∧ caught_up unnamed_stream ∧
  ∃ page, query_job_events (st_inner (sm_store unnamed_stream)) (lv_query (wl_live demo_response)) = Ok page ∧
    map evt_id (ep_events page) = [evt_id demo_decided; evt_id unnamed_event].
Proof.
  split; [vm_compute; reflexivity|]. split; [vm_compute; by split_and!|].
  eexists. split; [vm_compute; reflexivity|]. vm_compute. reflexivity.
Qed.
End LiveDemo.
