(* ===== verification/VerdictLaws.v ===== *)
(** * VerdictLaws: a client cannot speak for the registry

    Whether a package submission was accepted or rejected is the registry's
    word.  The RPC methods refuse every request that carries such a verdict, and
    no other request produces one. *)
From S2P Require Import Prelude Text Domain DomainLaws StoreTypes StoreShell ShellLaws Manifest ManifestCheck ManifestLaws Registry.
From S2P Require Import RegistryAudit RegistryOps RegistryLaws RegistryInvariant Packages PackageLaws Rpc RpcPackages.
From S2P Require Import StoreGuarantees RegistryGuarantees ScopeGuarantees.

(** ** What an operation does to the verdicts *)

Definition registry_said (submission : ExtensionRegistrySubmission) : bool :=
  match submission with Accepted | Rejected => true | _ => false end.
Definition verdict_of (p : option ExtensionPublication) : option ExtensionRegistrySubmission :=
  match p with
  | Some p => if registry_said (pub_registry_submission p) then Some (pub_registry_submission p) else None
  | None => None
  end.
Definition record_verdict (r : ExtensionRegistry) (id version : string) : option ExtensionRegistrySubmission :=
  match get_version (reg_records r) id version with
  | Some record => verdict_of (src_publication (inst_source record))
  | None => None
  end.

(** Every verdict in [r'] is in [r]. *)
Definition no_new_verdict (r r' : ExtensionRegistry) : Prop :=
  ∀ id version verdict, record_verdict r' id version = Some verdict → record_verdict r id version = Some verdict.

#[export] Instance no_new_verdict_preorder : PreOrder no_new_verdict.
Proof. split; [by intros r id v x|]. intros r1 r2 r3 H12 H23 id v x Hx. by apply H12, H23. Qed.

Lemma put_record_verdict r r' id v record :
  reg_records r' = put_version (reg_records r) id v record →
  (∀ x, verdict_of (src_publication (inst_source record)) = Some x → record_verdict r id v = Some x) →
  no_new_verdict r r'.
Proof.
  intros Hr Hnew id' v' x. unfold record_verdict at 1. rewrite Hr, get_put.
  case_decide as Hd; [destruct Hd as [-> ->]; apply Hnew|done].
Qed.

Lemma same_record_verdict r r' : reg_records r' = reg_records r → no_new_verdict r r'.
Proof. intros Hr id v x. unfold record_verdict. by rewrite Hr. Qed.

(** The operation carries no verdict of its own. *)
Definition unjudging (op : RegistryOp) : Prop :=
  match op with
  | RInstall m _ => verdict_of (prov_publication (man_provenance m)) = None
  | RUpdatePublication _ p => registry_said (pub_registry_submission p) = false
  | RUpdateSubmission _ s _ => registry_said s = false
  | _ => True
  end.

Lemma keep_submission_verdict current p x :
  registry_said (pub_registry_submission p) = false →
  verdict_of (Some (keep_submission current p)) = Some x → verdict_of current = Some x.
Proof.
  destruct current as [c|]; unfold keep_submission; simpl; [|by intros ->].
  destruct (pub_registry_submission c); simpl; try done; by intros ->.
Qed.

Lemma registry_exec_verdict op r r' : unjudging op → registry_exec op r = Ok r' → no_new_verdict r r'.
Proof.
  intros Hu Hop. destruct op; cbn [registry_exec] in Hop.
  1-7: apply forget_Ok in Hop as [record Hop].
  - unfold install in Hop. apply bind_Ok in Hop as ([v pol] & Hrun & Hop).
    apply run_validation_checks_Ok in Hrun as (_ & Hm & _). walk_op Hop. injection Hop as <- <-.
    eapply put_record_verdict; [reflexivity|]. simpl. rewrite Hm. simpl in Hu. by rewrite Hu.
  - unfold rollback in Hop. walk_op Hop. injection Hop as <- <-.
    eapply put_record_verdict; [reflexivity|]. unfold record_verdict. by rewrite Ho2.
  - unfold disable in Hop. walk_op Hop. injection Hop as <- <-.
    eapply put_record_verdict; [reflexivity|]. unfold record_verdict. by rewrite Ho0.
  - unfold enable in Hop. walk_op Hop. injection Hop as <- <-.
    eapply put_record_verdict; [reflexivity|]. unfold record_verdict. by rewrite Ho1.
  - unfold remove in Hop. walk_op Hop. injection Hop as <- <-.
    eapply put_record_verdict; [reflexivity|]. unfold record_verdict. by rewrite Ho0.
  - unfold update_publication in Hop. walk_op Hop. injection Hop as <- <-.
    eapply put_record_verdict; [reflexivity|]. unfold record_verdict. rewrite Ho1. intros y.
    by apply keep_submission_verdict.
  - unfold update_registry_submission in Hop. walk_op Hop. injection Hop as <- <-.
    eapply put_record_verdict; [reflexivity|]. simpl in *. by rewrite Hu.
  - unfold add_blocklist_entry in Hop. walk_op Hop. injection Hop as <-. by apply same_record_verdict.
  - apply append_audit_record_pushes in Hop as ->. by apply same_record_verdict.
Qed.

(** ** The requests of a client *)

#[local] Existing Instance registry_port.

(** The RPC methods that change the registry. *)
Inductive RpcPackageRequest :=
  | QInstall (origin : RequestOrigin) (manifest : ExtensionManifest) (options : InstallOptions)
  | QUpdate (origin : RequestOrigin) (manifest : ExtensionManifest) (options : InstallOptions)
  | QRollback (origin : RequestOrigin) (extension_id : string)
  | QDisable (origin : RequestOrigin) (extension_id : string)
  | QEnable (origin : RequestOrigin) (extension_id : string)
  | QRemove (origin : RequestOrigin) (extension_id : string)
  | QApplyBlocklist (origin : RequestOrigin) (entry : BlocklistEntry)
  | QPublish (request : PackagePublicationRequest)
  | QSubmit (request : PackageRegistrySubmissionRequest).

Section Clients.
Context `{UuidLib} `{!SnapshotCodec}.

(** The service after the request. *)
Definition rpc_package_step (fault : option IoFault) (id : AuditRecordId) (now : LedgerTimestamp)
  (q : RpcPackageRequest) (s : PackageService) : PackageService :=
  match q with
  | QInstall o m opts => (rpc_install_extension o m opts fault id now s).1
  | QUpdate o m opts => (rpc_update_extension o m opts fault id now s).1
  | QRollback o x => (rpc_rollback_extension o x fault id now s).1
  | QDisable o x => (rpc_disable_extension o x fault id now s).1
  | QEnable o x => (rpc_enable_extension o x fault id now s).1
  | QRemove o x => (rpc_remove_extension o x fault id now s).1
  | QApplyBlocklist o e => (rpc_apply_blocklist o e fault id now s).1
  | QPublish request => (prepare_package_publication request fault id now s).1
  | QSubmit request => (submit_package_registry_submission request fault id now s).1
  end.

(** A run of the daemon: requests of clients, and store calls of the runtime. *)
Inductive ClientEvent :=
  | ClientCall (fault : option IoFault) (id : AuditRecordId) (now : LedgerTimestamp) (q : RpcPackageRequest)
  | RuntimeCall (fault : option IoFault) (op : StoreOp).
Definition client_step (s : PackageService) (e : ClientEvent) : PackageService :=
  match e with
  | ClientCall fault id now q => rpc_package_step fault id now q s
  | RuntimeCall fault op => service_step s (StoreCall fault op)
  end.
Definition client_run (s : PackageService) (events : list ClientEvent) : PackageService :=
  foldl client_step s events.

Lemma after_state {A B} (h : PackageService → PackageService * ServiceResult A) (k : A → RpcResult B) s :
  (after h k s).1 = (h s).1.
Proof. unfold after. by destruct (h s) as [s' r]. Qed.

Lemma no_client_verdict m : reject_client_writable_registry_verdict m = Ok tt →
  verdict_of (prov_publication (man_provenance m)) = None.
Proof.
  unfold reject_client_writable_registry_verdict, verdict_of. intros [Hv _]%reject_Ok.
  destruct (prov_publication (man_provenance m)) as [p|]; [|done]. change (registry_said (pub_registry_submission p) = false) in Hv. by rewrite Hv.
Qed.

(** A request of a client is refused, or it is one package call without a
    verdict. *)
Lemma rpc_package_step_call fault id now q s :
  rpc_package_step fault id now q s = s ∨
  ∃ origin p, unjudging (request_op p) ∧
    rpc_package_step fault id now q s = (package_call fault id now origin p s).1.
Proof.
  destruct q; simpl.
  - unfold rpc_install_extension. destruct (reject_client_writable_registry_verdict manifest) as [[]|] eqn:Hr; [|by left].
    right. exists origin, (PInstall manifest options). rewrite after_state. split; [by apply no_client_verdict|done].
  - unfold rpc_update_extension. destruct (reject_client_writable_registry_verdict manifest) as [[]|] eqn:Hr; [|by left].
    right. exists origin, (PUpdate manifest options). rewrite after_state. split; [by apply no_client_verdict|done].
  - right. exists origin, (PRollback extension_id). split; [done|]. etrans; [apply after_state|reflexivity].
  - right. exists origin, (PDisable extension_id). split; [done|]. etrans; [apply after_state|reflexivity].
  - right. exists origin, (PEnable extension_id). split; [done|]. etrans; [apply after_state|reflexivity].
  - right. exists origin, (PRemove extension_id). split; [done|]. etrans; [apply after_state|reflexivity].
  - right. exists origin, (PApplyBlocklist entry). split; [done|]. etrans; [apply after_state|reflexivity].
  - unfold prepare_package_publication. destruct (negb _); [by left|].
    destruct (try_opt actor_of (ppr_requester request)) as [a|]; [|by left]. right.
    eexists {| ro_requester := a; ro_request_source := _; ro_reason := _ |}, (PUpdatePublication _ _).
    rewrite after_state. split; [|reflexivity]. simpl. by destruct (ppr_visibility request).
  - unfold submit_package_registry_submission.
    destruct (prq_state request) eqn:Hs; try (by left);
      (destruct (try_opt actor_of (prq_requester request)) as [a|]; [|by left]; right;
       eexists {| ro_requester := a; ro_request_source := _; ro_reason := _ |}, (PUpdateSubmission _ _ _);
       rewrite after_state; split; [|reflexivity]; done).
Qed.

Lemma client_step_ok s e :
  service_ok s → service_ok (client_step s e) ∧ no_new_verdict (pks_registry s) (pks_registry (client_step s e)).
Proof.
  intros Hs. destruct e as [fault id now q|fault op]; cbn [client_step].
  - destruct (rpc_package_step_call fault id now q s) as [->|(origin & p & Hu & ->)]; [by split|].
    destruct (package_call fault id now origin p s) as [s' res] eqn:Hc. simpl.
    split; [by eapply package_call_ok|]. apply package_call_spec in Hc as (_ & _ & Hout); [|done].
    destruct res as [u|e]; simpl in Hout; [|by destruct Hout as (_ & -> & _)].
    destruct Hout as (_ & (draft & a & Hop & Happ & _) & _). trans draft; [by eapply registry_exec_verdict|].
    apply append_audit_record_pushes in Happ as ->. by apply same_record_verdict.
  - split; [by apply service_step_ok|]. simpl. by destruct (writes_registry op).
Qed.

Lemma client_run_ok s events :
  service_ok s → service_ok (client_run s events) ∧
  no_new_verdict (pks_registry s) (pks_registry (client_run s events)).
Proof.
  revert s. induction events as [|e events IH]; intros s Hs; [by split|].
  destruct (client_step_ok s e Hs) as [Hs' Hv]. destruct (IH _ Hs') as [Hs2 Hv2]. split; [done|]. by etrans.
Qed.

(** A listed package is the active version of its record. *)
Lemma trust_index_accepted include_blocked s packages p :
  list_package_trust_index include_blocked true s = Ok packages → p ∈ packages →
  ∃ version, pti_version p = Some version ∧
    ∃ v', reg_active_versions (pks_registry s) !! pti_package_id p = Some v' ∧
      record_verdict (pks_registry s) (pti_package_id p) v' = Some Accepted.
Proof.
  unfold list_package_trust_index, lock_extension_registry. destruct (pks_poisoned s); [done|]. simpl.
  intros (extensions & Hl%map_err_Ok & [= <-])%bind_Ok (Hin & Hd)%list_elem_of_In%filter_In.
  apply in_map_iff in Hin as (x & <- & Hx). unfold list_extensions in Hl.
  apply bind_Ok in Hl as (all & Hall & [= <-]).
  assert (x ∈ all) as Hxa by (destruct include_blocked; [by apply list_elem_of_In|];
    apply filter_In in Hx as [? _]; by apply list_elem_of_In).
  unfold list_extension_statuses in Hall. apply (try_map_Ok _ _ _ Hall) in Hxa as (id & _ & Hst).
  unfold extension_status, active_record in Hst. walk_op Hst. injection Hst as <-. simpl in *.
  destruct (reg_active_versions (pks_registry s) !! id) as [v'|] eqn:Hact; [|done].
  eexists. split; [done|]. exists v'. split; [done|]. unfold record_verdict. rewrite Ho0.
  unfold discoverable in Hd. simpl in Hd. rewrite !andb_true_iff in Hd. destruct Hd as [_ Hpub].
  destruct (find_blocklist_hit (pks_registry s) x0); simpl in Hpub;
    (destruct (src_publication (inst_source x1)) as [pub|]; [|done]; simpl in *;
     apply andb_true_iff in Hpub as [_ Hacc%bool_decide_eq_true]; by rewrite Hacc).
Qed.

(** C26: No client can speak for the registry.  Whatever RPC requests clients
    send, with I/O faults at any system call and interleaved with the store
    calls of the runtime, a package version that is recorded as accepted or
    rejected was recorded so when the daemon started, and what discovery lists
    was accepted then. *)
Theorem clients_cannot_forge_verdicts st s0 events :
  from_store st = Ok s0 →
  let s := client_run s0 events in
  (∀ id version verdict, record_verdict (pks_registry s) id version = Some verdict →
     record_verdict (pks_registry s0) id version = Some verdict) ∧
  ∀ include_blocked packages p, list_package_trust_index include_blocked true s = Ok packages → p ∈ packages →
    ∃ version, record_verdict (pks_registry s0) (pti_package_id p) version = Some Accepted.
Proof.
  intros (Hs & _ & _)%from_store_ok s. destruct (client_run_ok s0 events Hs) as [_ Hv]. fold s in Hv.
  split; [exact Hv|]. intros b packages p Hl Hp.
  destruct (trust_index_accepted _ _ _ _ Hl Hp) as (_ & _ & v' & _ & Hacc). exists v'. by apply Hv.
Qed.
End Clients.

(** ** On the demo packages *)

Module VerdictDemo.
Import RegistryDemo PackageDemo.
#[local] Existing Instance sample_uuid_lib.
#[local] Existing Instance no_codec.

Definition accepted_publication : ExtensionPublication :=
  {| pub_visibility := PublicSearchable; pub_registry_submission := Accepted |}.
(** A client installs a package, claims it was accepted, publishes it and
    submits it; only the claim is refused. *)
Definition demo_client : list ClientEvent :=
  [ClientCall None (audit_id "1") 0 (QInstall demo_origin calendar1 no_options);
   ClientCall None (audit_id "2") 1 (QUpdate demo_origin (man_set_publication calendar2 (Some accepted_publication)) no_options);
   ClientCall None (audit_id "3") 2 (QPublish {|
     ppr_package_id := "com.example.calendar"; ppr_visibility := PvUnlistedShare;
     ppr_requires_registry_submission := false; ppr_requester := None; ppr_request_source := None;
     ppr_reason := None |})].

Lemma clients_cannot_forge_verdicts_witness :
  map ra_kind (reg_audit_records (pks_registry (client_run empty_service demo_client)))
    = [AuditInstall; AuditPublicationUpdate] ∧
  ∀ id version verdict,
    record_verdict (pks_registry (client_run empty_service demo_client)) id version = Some verdict →
    record_verdict in_memory id version = Some verdict.
Proof.
  split; [vm_compute; reflexivity|].
  exact (proj1 (clients_cannot_forge_verdicts store_default empty_service demo_client empty_service_opens)).
Defined.
End VerdictDemo.
