(* ===== verification/RpcLaws.v ===== *)
(** * RpcLaws: polling for events, and what the conversions keep

    A client that polls from the cursor of the last response sees every matching
    event once; what the daemon returns parses to what it accepted. *)
From S2P Require Import Prelude Text Domain DomainLaws Policy StoreTypes Settings Truncation Spill StoreValidate StoreJobs Store StoreQuery.
From S2P Require Import StoreLoad Ledger StoreRefine StoreGuarantees StoreShell ShellLaws StoreQueryLaws.
From S2P Require Import Backend Runtime RunJob RunStages Paths Packages Tools Submission Service ServiceGuarantees Repositories RequestLaws.
From S2P Require Import RunSamples ServiceSamples Rpc RpcServer LiveWatch LiveWatchLaws.

(** ** A client that polls *)

Section Polling.
Context `{UuidLib} `{RegistryPort} `{Entropy} `{Renderer} `{ArtifactDefaults} `{ToolPort}.
Context `{SignatureCodec}.
Context {S F : Type} `{!StoreBackend S} `{!StoreBackendLaws S} `{!ArtifactWriter string F}.
Implicit Types s : InMemoryInner.
Abbreviation State := (ServiceState (S := S) (F := F)).

Definition with_cursor (request : WatchEventsRequest) (cursor : option EventCursorRequest)
  : WatchEventsRequest := {|
  we_repository_id := we_repository_id request; we_cursor := cursor;
  we_subject_ids := we_subject_ids request; we_min_severity := we_min_severity request;
  we_limit := we_limit request |}.

(** [n] calls of [watch_events], each from the cursor the last one returned. *)
Fixpoint poll (n : nat) (request : WatchEventsRequest)
  : RM (S := S) (F := F) (list RpcEvent * WatchEventsRequest) :=
  match n with
  | O => rret ([], request)
  | Datatypes.S n =>
      let! response := rpc_watch_events (S := S) (F := F) request in
      let! rest := poll n (with_cursor request (wer_cursor response)) in
      rret (wer_events response ++ rest.1, rest.2)
  end.

Lemma matching_sorted s q a :
  ledger_wf s →
  StronglySorted (λ x y, (evt_sequence_number x < evt_sequence_number y)%N) (matching_events s q a).
Proof.
  intros Hwf. apply StronglySorted_filter. unfold events_after.
  apply (consecutive_sorted _ _ (a + 1)). intros i e He. rewrite lookup_drop in He.
  apply ledger_events_lookup in He as [_ ->]; [|done]. lia.
Qed.

(** After a page that ends at [e], the events after [e] are the rest. *)
Lemma sorted_rest {A} (f : A → N) l l1 e l2 :
  StronglySorted (λ x y, (f x < f y)%N) l → l = l1 ++ e :: l2 →
  List.filter (λ x, (f e <? f x)%N) l = l2.
Proof.
  intros Hs ->. assert (∀ x, x ∈ l1 → (f x < f e)%N) as Hl1.
  { intros x Hx. exact (StronglySorted_middle _ _ _ _ _ Hs Hx). }
  rewrite List.filter_app, (filter_none _ l1).
  2: { intros x Hx. apply N.ltb_ge. specialize (Hl1 x Hx). lia. }
  simpl. rewrite N.ltb_irrefl. apply filter_all. intros x Hx. apply N.ltb_lt.
  clear Hl1. induction l1 as [|y l1 IH]; simpl in Hs; inversion_clear Hs as [|? ? Hsort Hall].
  - rewrite Forall_forall in Hall. by apply Hall.
  - by apply IH.
Qed.

Lemma matching_filter s q a :
  ledger_wf s →
  matching_events s q a = List.filter (λ e, (a <? evt_sequence_number e)%N && event_matches s q e) (ledger_events s).
Proof.
  intros Hwf. unfold matching_events, events_after. rewrite <- filter_andb. f_equal.
  rewrite (filter_after evt_sequence_number _ 0 a); [by rewrite Nat.sub_0_r|].
  intros i e He. apply ledger_events_lookup in He as [_ ->]; [|done]. lia.
Qed.

Lemma matching_rest s q a l1 e l2 :
  ledger_wf s → matching_events s q a = l1 ++ e :: l2 → matching_events s q (evt_sequence_number e) = l2.
Proof.
  intros Hwf Heq. rewrite <- (sorted_rest evt_sequence_number _ l1 e l2 (matching_sorted s q a Hwf) Heq).
  assert (e ∈ matching_events s q a) as He by (rewrite Heq; apply elem_of_app; right; by left).
  rewrite (matching_filter s q a) in * by done. apply elem_of_filter_bool in He as [_ [Ha _]%andb_true_iff].
  apply N.ltb_lt in Ha. rewrite matching_filter, filter_andb by done. apply filter_ext_elem. intros x _.
  destruct (N.ltb_spec (evt_sequence_number e) (evt_sequence_number x)); simpl; [|by rewrite andb_false_r].
  rewrite andb_true_r. by destruct (N.ltb_spec a (evt_sequence_number x)); [|lia].
Qed.

(** The filters of a query do not depend on its cursor. *)
Lemma build_with_cursor request q inc c cur :
  build_watch_event_query_from_request request = Ok (q, inc) → parse_event_cursor c = Ok cur →
  ∃ q', build_watch_event_query_from_request (with_cursor request (Some c)) = Ok (q', c) ∧
    eq_cursor q' = cur ∧ ∀ s a, matching_events s q' a = matching_events s q a.
Proof.
  unfold build_watch_event_query_from_request. intros (r & Hr & Hb)%bind_Ok Hc.
  apply bind_Ok in Hb as (cur0 & _ & (limit & Hl & [= <- _])%bind_Ok). simpl. rewrite Hr, Hc, Hl. simpl.
  eexists. split; [done|]. split; [done|]. intros s a. unfold matching_events. apply filter_ext_elem.
  intros e _. reflexivity.
Qed.

Lemma steps_extend s s' : rtc store_step s s' → ∃ es, ledger_extends s s' es.
Proof.
  induction 1 as [s|s1 s2 s3 (op & es1 & Hop) _ [es2 IH]]; [exists []; by apply ledger_extends_same|].
  exists (es1 ++ es2). eauto using ledger_extends_trans, exec_op_extends.
Qed.

Lemma matching_grow s s' q a :
  store_wf s → rtc store_step s s' → (a <= next_event_sequence s)%N →
  ∃ new, matching_events s' q a = matching_events s q a ++ new.
Proof.
  intros Hwf Hs Ha. pose proof (store_steps_wf _ _ Hwf Hs) as Hwf'. destruct (steps_extend s s' Hs) as [es He].
  exists (List.filter (event_matches s' q) es). unfold matching_events, events_after.
  rewrite (ledger_events_grow s s' es) by (apply Hwf || apply Hwf' || done).
  rewrite drop_app_le, List.filter_app by (rewrite ledger_events_length by apply Hwf; lia). f_equal.
  apply matching_steps; [done|done|]. intros e Hin%elem_of_drop_1. by apply ledger_event_stored; [apply Hwf|].
Qed.

(** One page of a query from a cursor. *)
Lemma query_page s q a limit page :
  store_wf s → event_cursor_sequence s (eq_cursor q) = Ok a → eq_page_size q = Some limit → (0 < limit)%N →
  eq_page_token q = None → query_job_events s q = Ok page →
  ep_events page = take (N.to_nat limit) (matching_events s q a) ∧
  resolve_event_cursor_sequence s (eq_cursor q) = Ok (ep_resolved_cursor_sequence page).
Proof.
  intros Hwf Ha Hl Hpos Htok. unfold query_job_events. rewrite Htok, Hl. simpl.
  destruct (resolve_event_cursor_sequence s (eq_cursor q)) as [resolved|]; [|done].
  rewrite (collect_paginated_spec s q a 0 limit) by done. intros [= <-]. by simpl.
Qed.

Lemma watch_limit_positive l n : parse_watch_events_limit l = Ok n → (0 < n)%N.
Proof.
  unfold parse_watch_events_limit, MAX_WATCH_EVENTS_PAGE. destruct l as [l|]; [|by intros [= <-]].
  destruct (N.eqb_spec l 0); [done|]. intros [= <-]. lia.
Qed.

Lemma cursor_sequence_steps s s' c a :
  rtc store_step s s' → event_cursor_sequence s c = Ok a → event_cursor_sequence s' c = Ok a.
Proof.
  intros (es & He)%steps_extend. destruct c as [|n|i]; simpl; [done..|].
  destruct (job_events_by_id s !! i) as [e|] eqn:Hi; [|done].
  by rewrite (lookup_weaken _ _ _ _ Hi (le_old_events _ _ _ He)).
Qed.

(** After a page that ends at [e], now and later. *)
Lemma page_rest s s' q a n l e :
  store_wf s → rtc store_step s s' → take n (matching_events s q a) = l ++ [e] →
  matching_events s' q a = (l ++ [e]) ++ matching_events s' q (evt_sequence_number e).
Proof.
  intros Hwf Hs Htake. assert (e ∈ matching_events s q a) as He.
  { apply (elem_of_take_1 _ n). rewrite Htake. apply elem_of_app. right. by left. }
  assert (a <= next_event_sequence s)%N as Hle.
  { rewrite matching_filter in He by apply Hwf. apply elem_of_filter_bool in He as [Hin [Hlt _]%andb_true_iff].
    apply ledger_event_stored in Hin as [_ ?]; [|apply Hwf]. apply N.ltb_lt in Hlt. lia. }
  destruct (matching_grow s s' q a Hwf Hs Hle) as [new Hnew].
  assert (matching_events s' q a = l ++ e :: (drop n (matching_events s q a) ++ new)) as Hall.
  { rewrite Hnew, <- (take_drop n (matching_events s q a)) at 1. by rewrite Htake, <- !app_assoc. }
  pose proof (sw_ledger _ (store_steps_wf _ _ Hwf Hs)) as Hl.
  by rewrite (matching_rest s' q a _ _ _ Hl Hall), Hall, <- app_assoc.
Qed.

(** The cursor of a response resolves, and what was ahead of the request is the
    page and what is ahead of that cursor. *)
Lemma replay_cursor_ahead s q inc a limit page :
  store_wf s → parse_event_cursor inc = Ok (eq_cursor q) → event_cursor_sequence s (eq_cursor q) = Ok a →
  ep_events page = take (N.to_nat limit) (matching_events s q a) →
  resolve_event_cursor_sequence s (eq_cursor q) = Ok (ep_resolved_cursor_sequence page) →
  ∃ c cur a', replay_cursor (map event_dto (ep_events page)) inc (ep_resolved_cursor_sequence page) = Some c ∧
    parse_event_cursor c = Ok cur ∧ event_cursor_sequence s cur = Ok a' ∧
    ∀ s', rtc store_step s s' → matching_events s' q a = ep_events page ++ matching_events s' q a'.
Proof.
  intros Hwf Hinc Ha Hev Hres. destruct (ep_events page) as [|e l _] eqn:Hp using rev_ind.
  - simpl. unfold replay_cursor. simpl. destruct inc as [|n|i]; [by eauto 10..|].
    apply bind_Ok in Hinc as (j & _ & [= Hj]). rewrite <- Hj in *. simpl in *.
    destruct (job_events_by_id s !! j) as [e|]; [|done]. injection Ha as <-. injection Hres as <-.
    eexists _, _, _. split_and!; [done..|]. by intros.
  - exists (FromSequence (evt_sequence_number e)), (AfterSequence (evt_sequence_number e)), (evt_sequence_number e).
    split_and!; [|done|done|].
    + unfold replay_cursor. rewrite map_app. simpl. by rewrite last_snoc.
    + intros s' Hs. by eapply page_rest.
Qed.

(** What one call returns. *)
Lemma watch_step request (st st' : State) response q inc a :
  store_wf (sview st) → rpc_watch_events request st = (st', Ok response) →
  build_watch_event_query_from_request request = Ok (q, inc) →
  event_cursor_sequence (sview st) (eq_cursor q) = Ok a →
  rtc store_step (sview st) (sview st') ∧
  ∃ evs c cur a', wer_events response = map event_dto evs ∧ wer_cursor response = Some c ∧
    parse_event_cursor c = Ok cur ∧ event_cursor_sequence (sview st') cur = Ok a' ∧
    ∀ s, rtc store_step (sview st') s → matching_events s q a = evs ++ matching_events s q a'.
Proof.
  intros Hwf. unfold rpc_watch_events, rlift, service, list_events_page, slift, rret. intros Hw Hb Ha.
  rewrite Hb in Hw. cbn [fst snd] in Hw. pose proof Hb as (r & _ & Hb')%bind_Ok.
  apply bind_Ok in Hb' as (cur & Hcur & (limit & Hlim%watch_limit_positive & [= Hq Hi])%bind_Ok).
  assert (eq_page_size q = Some limit ∧ eq_page_token q = None ∧ eq_cursor q = cur) as (Hps & Hpt & Hqc)
    by (by subst q).
  rewrite Hps, bool_decide_eq_false_2 in Hw by (intros [= ->]; lia).
  destruct (read_store _ st) as [st1 r1] eqn:Hread. pose proof (read_evolves _ _ _ _ Hread) as Hs.
  apply read_store_spec in Hread. destruct r1 as [page|]; [|done]. simpl in Hw. injection Hw as <- <-.
  split; [done|]. pose proof (store_steps_wf _ _ Hwf Hs) as Hwf1.
  pose proof (cursor_sequence_steps _ _ _ _ Hs Ha) as Ha1.
  destruct (query_page _ q a limit page Hwf1 Ha1 Hps Hlim Hpt Hread) as [Hev Hres].
  rewrite <- Hqc, Hi in Hcur.
  destruct (replay_cursor_ahead _ q inc a limit page Hwf1 Hcur Ha1 Hev Hres) as (c & cur' & a' & ? & ? & ? & ?).
  by exists (ep_events page), c, cur', a'.
Qed.

(** C30: A polling client misses nothing and sees nothing twice.  However often
    it calls [watch_events] from the cursor of the last response, with whatever
    page limit, and whatever other threads append in between, the events it was
    given, in order, followed by the matching events that are still ahead of its
    cursor are exactly the matching events after the cursor it began with. *)
Theorem polling_is_exact n request (st st' : State) events request' q inc a :
  store_wf (sview st) → build_watch_event_query_from_request request = Ok (q, inc) →
  event_cursor_sequence (sview st) (eq_cursor q) = Ok a →
  poll n request st = (st', Ok (events, request')) →
  ∃ q' inc' a', build_watch_event_query_from_request request' = Ok (q', inc') ∧
    event_cursor_sequence (sview st') (eq_cursor q') = Ok a' ∧
    map event_dto (matching_events (sview st') q a)
    = events ++ map event_dto (matching_events (sview st') q' a').
Proof.
  intros Hwf Hb Ha Hp. enough (rtc store_step (sview st) (sview st') ∧ ∃ q' inc' a',
    build_watch_event_query_from_request request' = Ok (q', inc') ∧
    event_cursor_sequence (sview st') (eq_cursor q') = Ok a' ∧
    map event_dto (matching_events (sview st') q a) = events ++ map event_dto (matching_events (sview st') q' a'))
    as [_ ?] by done.
  revert request st events q inc a Hwf Hb Ha Hp. induction n as [|n IH]; intros request st events q inc a Hwf Hb Ha Hp.
  { injection Hp as <- <- <-. split; [done|]. by exists q, inc, a. }
  cbn [poll] in Hp. destruct (rpc_watch_events request st) as [st1 [response|]] eqn:Hw; [|done].
  destruct (watch_step _ _ _ _ _ _ _ Hwf Hw Hb Ha) as (Hs1 & evs & c & cur & a1 & Hevs & Hc & Hcur & Ha1 & Hrest).
  rewrite Hc in Hp. destruct (build_with_cursor _ _ _ _ _ Hb Hcur) as (q1 & Hb1 & Hqc1 & Hm1).
  destruct (poll n _ st1) as [st2 [[rest request2]|]] eqn:Hpoll; [|done]. injection Hp as <- <- <-.
  rewrite <- Hqc1 in Ha1.
  destruct (IH _ _ _ _ _ _ (store_steps_wf _ _ Hwf Hs1) Hb1 Ha1 Hpoll) as (Hs2 & q' & inc' & a' & Hb' & Ha' & Hall).
  split; [by etrans|]. exists q', inc', a'. split_and!; [done..|].
  rewrite (Hrest _ Hs2), map_app, <- Hm1, Hall, Hevs. simpl. by rewrite app_assoc.
Qed.
End Polling.

(** ** Values a client gets back *)

(** [ProjectId] is a UUID: [serde_json] writes it in the canonical form, without
    blanks, and reads that form as the same id. *)
Class ProjectIdLaws `{ProjectIdLib} : Prop := {
  project_canonical text project : project_from_str text = Some project →
    trim project = project ∧ str_is_empty project = false ∧ project_from_str project = Some project
}.

Section RoundTrips.
Context `{UuidLib} `{ProjectIdLib} `{!ProjectIdLaws}.

Lemma non_blank_again value reason x reason' :
  non_blank value reason = Ok x → non_blank x reason' = Ok x.
Proof.
  unfold non_blank. intros [Hne [= <-]]%reject_Ok. by rewrite trim_idempotent, Hne.
Qed.

Lemma actor_round_trip dto actor : actor_of dto = Ok actor → actor_dto actor = dto.
Proof. destruct dto; simpl; intros [_ [= <-]]%reject_Ok; done. Qed.

Lemma job_kind_again text kind : parse_job_kind text = Ok kind → parse_job_kind (job_kind_label kind) = Ok kind.
Proof.
  unfold parse_job_kind at 1. intros [Hne [= <-]]%reject_Ok.
  destruct (str_eqb _ "read") eqn:E1; [reflexivity|]. destruct (str_eqb _ "mutate") eqn:E2; [reflexivity|].
  destruct (str_eqb _ "process") eqn:E3; [reflexivity|]. destruct (str_eqb _ "maintenance") eqn:E4; [reflexivity|].
  unfold parse_job_kind. cbn [job_kind_label]. by rewrite trim_idempotent, Hne, E1, E2, E3, E4.
Qed.

Lemma scope_again request scope :
  parse_tool_output_scope request = Ok scope →
  ∃ dto, scope_dto scope = Ok dto ∧ parse_tool_output_scope dto = Ok scope.
Proof.
  unfold parse_tool_output_scope. intros (level & Hl & Hb)%bind_Ok. apply bind_Ok in Hb as (tool & Ht & [= <-]).
  assert (∀ lvl t, scope_dto (match t with Some t => for_tool {| scope_level := lvl; scope_tool_id := None |} t
                             | None => {| scope_level := lvl; scope_tool_id := None |} end)
    = scope_dto {| scope_level := lvl; scope_tool_id := t |}) as Hsc by (by intros ? [?|]).
  rewrite Hsc. clear Hsc. eexists. split; [reflexivity|]. cbn [rs_level rs_tool_id scope_level scope_tool_id].
  assert (try_opt (λ id, non_blank id "tool_output scope.tool_id must not be empty when provided") tool = Ok tool) as ->.
  { destruct (rs_tool_id request) as [id|]; simpl in Ht; [|by injection Ht as <-].
    apply bind_Ok in Ht as (x & Hx & [= <-]). simpl. by rewrite (non_blank_again _ _ _ _ Hx). }
  destruct (rs_level request) as [|r|p|se|ag]; simpl in Hl.
  - by injection Hl as <-.
  - apply bind_Ok in Hl as (r' & Hr & [= <-]). simpl.
    pose proof (parse_repository_id_str _ _ Hr) as Hs. rewrite Hs, trim_idempotent, Hr. done.
  - apply bind_Ok in Hl as (p' & Hp & [= <-]). simpl. unfold parse_project_id in *.
    apply reject_Ok in Hp as [_ Hp]. destruct (project_from_str _) as [p0|] eqn:Hf in Hp; [|done]. injection Hp as ->.
    rename Hf into Hp.
    destruct (project_canonical _ _ Hp) as (-> & -> & ->). done.
  - apply bind_Ok in Hl as (x & Hx & [= <-]). simpl. by rewrite (non_blank_again _ _ _ _ Hx).
  - apply bind_Ok in Hl as (x & Hx & [= <-]). simpl. by rewrite (non_blank_again _ _ _ _ Hx).
Qed.

(** C31: What the daemon hands back means what the client sent.  An actor the
    daemon accepts is returned unchanged; the label of the kind of a job, and the
    scope of output settings in the form the daemon returns it, parse to the
    same kind and the same scope again. *)
Theorem returned_values_parse_again dto actor text kind request scope :
  actor_of dto = Ok actor → parse_job_kind text = Ok kind → parse_tool_output_scope request = Ok scope →
  actor_dto actor = dto ∧ parse_job_kind (job_kind_label kind) = Ok kind ∧
  ∃ dto', scope_dto scope = Ok dto' ∧ parse_tool_output_scope dto' = Ok scope.
Proof. intros Ha Hk Hs. split_and!; eauto using actor_round_trip, job_kind_again, scope_again. Qed.
End RoundTrips.

(** ** Samples *)

Module RpcDemo.
Import Demo RunDemo ServiceDemo.
#[local] Existing Instance sample_uuid_lib.
#[local] Existing Instance sample_registry.
#[local] Existing Instance no_codec.
#[local] Existing Instance counting.
#[local] Existing Instance local_artifacts.
#[local] Existing Instance no_artifacts.
#[local] Existing Instance total_renderer.

(** The first job arrives before the first poll, the rest between the polls. *)
Definition before_polls : list (list (option IoFault * StoreOp) * option IoFault) :=
  [(map (λ op, (None, op)) (take 3 (drop 1 demo_ops)), None);
   (map (λ op, (None, op)) (drop 4 demo_ops), None)].
Definition polled_daemon : ServiceState (S := SharedStore) (F := unit) := {|
  sv_world := start_world before_polls; sv_settings := mutex_new (service_new 0);
  sv_cache := mutex_new []; sv_locks := mutex_new ∅; sv_cancellation_requesters := ∅ |}.
Definition poll_request : WatchEventsRequest := {|
  we_repository_id := as_str (repo_id demo_repository); we_cursor := None; we_subject_ids := [];
  we_min_severity := None; we_limit := Some 2%N |}.
Abbreviation polled := (poll 3 poll_request polled_daemon).
Definition polled_events : list RpcEvent := match polled.2 with Ok x => x.1 | Err _ => [] end.
Definition polled_request : WatchEventsRequest :=
  match polled.2 with Ok x => x.2 | Err _ => poll_request end.

(** Three polls of at most two events return the six events of the ledger. *)
Lemma polling_is_exact_witness :
  map rev_sequence polled_events = [1; 2; 3; 4; 5; 6]%N ∧
  ∃ q inc, build_watch_event_query_from_request poll_request = Ok (q, inc) ∧
  ∃ q' inc' a', build_watch_event_query_from_request polled_request = Ok (q', inc') ∧
    map event_dto (matching_events (sview polled.1) q 0)
    = polled_events ++ map event_dto (matching_events (sview polled.1) q' a').
Proof.
  split; [vm_compute; reflexivity|].
  destruct (build_watch_event_query_from_request poll_request) as [[q inc]|e] eqn:Hb; [|vm_compute in Hb; discriminate Hb].
  exists q, inc. split; [reflexivity|].
  assert (event_cursor_sequence (sview polled_daemon) (eq_cursor q) = Ok 0%N) as Ha.
  { vm_compute in Hb. injection Hb as <- _. reflexivity. }
  assert (polled = (polled.1, Ok (polled_events, polled_request))) as Hp by (vm_compute; reflexivity).
  destruct (polling_is_exact 3 poll_request polled_daemon polled.1 polled_events polled_request q inc 0
    (start_world_wf _) Hb Ha Hp) as (q' & inc' & a' & Hb' & _ & Hall).
  exists q', inc', a'. split; [exact Hb'|exact Hall].
Defined.

(** A library whose only project is named "p". *)
Definition one_project : ProjectIdLib := {|
  project_from_str s := if str_eqb s "p" then Some "p"%string else None |}.
Lemma one_project_laws : @ProjectIdLaws one_project.
Proof. split. intros text project. simpl. destruct (str_eqb text "p"); [|done]. intros [= <-]. done. Qed.

Lemma returned_values_parse_again_witness :
  let scope := {| scope_level := LvProject "p"; scope_tool_id := Some "fs.read"%string |} in
  actor_dto (User "u1" None) = RpcUser "u1" None ∧ parse_job_kind (job_kind_label JkRead) = Ok JkRead ∧
  ∃ dto', scope_dto scope = Ok dto' ∧ @parse_tool_output_scope _ one_project dto' = Ok scope.
Proof.
  apply (@returned_values_parse_again _ one_project one_project_laws (RpcUser "u1" None) (User "u1" None)
    " READ " JkRead {| rs_level := RlProject " p "; rs_tool_id := Some "fs.read "%string |}
    {| scope_level := LvProject "p"; scope_tool_id := Some "fs.read"%string |}); vm_compute; reflexivity.
Defined.
End RpcDemo.
