(* ===== verification/ToolText.v ===== *)
(** * ToolText: the text algorithms of the file tools
    ([crates/atelia-core/src/tools.rs])

    Exact-match replacement, the line diff, cutting by characters and bytes, the
    read window and the search for a literal in lines.  Texts are their bytes. *)
From S2P Require Import Prelude Text Domain StoreTypes Settings Truncation Paths.

(** ** UTF-8 validation *)

(** [Utf8Error]: the bytes that are valid, and the length of what is not; none
    when the text ends inside a character. *)
Record Utf8Error := { ue_valid_up_to : nat; ue_error_len : option nat }.

Definition incomplete_char (l : bytes) : bool :=
  let '(valid, n) := scan_char l in
  negb valid && (n =? length l)%nat
  && match l with lead :: _ => (n <? char_width lead)%nat | [] => false end.

(** Every round takes a whole character, so the length is fuel enough. *)
Fixpoint utf8_error (fuel : nat) (offset : nat) (l : bytes) : option Utf8Error :=
  match fuel, l with
  | S fuel, _ :: _ =>
      let '(valid, n) := scan_char l in
      if valid then utf8_error fuel (offset + n) (drop n l)
      else Some {| ue_valid_up_to := offset;
                   ue_error_len := if incomplete_char l then None else Some n |}
  | _, _ => None
  end.
Definition from_utf8 (l : bytes) : result Utf8Error string :=
  match utf8_error (length l) 0 l with
  | None => Ok (of_bytes l)
  | Some e => Err e
  end.

(** ** Lines *)

Definition is_lf (c : ascii) : bool := bool_decide (c = line_feed).

(** [split_inclusive('\n')]; the current piece is kept reversed. *)
Fixpoint split_inclusive (l cur : bytes) : list bytes :=
  match l with
  | [] => if bool_decide (cur = []) then [] else [rev cur]
  | c :: l => if is_lf c then rev (c :: cur) :: split_inclusive l [] else split_inclusive l (c :: cur)
  end.

Definition strip_last (c : ascii) (l : bytes) : option bytes :=
  if bool_decide (last l = Some c) then Some (removelast l) else None.
(** The line of a piece, and the bytes its ending took. *)
Definition line_of (piece : bytes) : bytes * N :=
  match strip_last line_feed piece with
  | None => (piece, 0%N)
  | Some l => match strip_last carriage_return l with
              | None => (l, 1%N)
              | Some l => (l, 2%N)
              end
  end.
(** [str::lines] and [BufRead::lines] *)
Definition lines (l : bytes) : list bytes := map (fst ∘ line_of) (split_inclusive l []).

(** ** Occurrences of a text *)

Definition starts_with_bytes (needle l : bytes) : bool := list_prefixb needle l.

(** The [while] loop over the positions. *)
Fixpoint count_from (needle l : bytes) : nat :=
  match l with
  | [] => 0
  | _ :: tail => (if starts_with_bytes needle l then 1 else 0) + count_from needle tail
  end.
Definition count_overlapping_matches (haystack needle : bytes) : nat :=
  if bool_decide (needle = []) then 0
  else if (length haystack <? length needle)%nat then 0
  else count_from needle haystack.

(** [str::contains] and [str::replacen(from, to, 1)] for a non-empty text. *)
Fixpoint contains (needle l : bytes) : bool :=
  starts_with_bytes needle l || match l with [] => false | _ :: l => contains needle l end.
Fixpoint replace_first (from to l : bytes) : bytes :=
  if starts_with_bytes from l then to ++ drop (length from) l
  else match l with [] => [] | c :: l => c :: replace_first from to l end.

(** ** The line diff *)

Definition space_char : ascii := " ".
Definition minus_char : ascii := "-".
Definition plus_char : ascii := "+".
Definition diff_line (mark : ascii) (line : bytes) : bytes := mark :: line ++ [line_feed].

(** The loop over the index, until both texts end. *)
Fixpoint diff_lines (left_lines right_lines : list bytes) : bytes :=
  match left_lines, right_lines with
  | x :: left_lines, y :: right_lines =>
      (if bool_decide (x = y) then diff_line space_char x
       else diff_line minus_char x ++ diff_line plus_char y) ++ diff_lines left_lines right_lines
  | x :: left_lines, [] => diff_line minus_char x ++ diff_lines left_lines []
  | [], right_lines => concat (map (diff_line plus_char) right_lines)
  end.

Definition render_line_diff (left_path right_path : string) (left_text right_text : bytes) : bytes :=
  if bool_decide (left_text = right_text) then []
  else to_bytes "--- " ++ to_bytes left_path ++ [line_feed] ++
       to_bytes "+++ " ++ to_bytes right_path ++ [line_feed] ++
       diff_lines (lines left_text) (lines right_text).

(** ** Cutting *)

(** [char_indices().enumerate()] until the count is reached: the byte where the
    character number [max_chars] starts, if there is one. *)
Fixpoint char_start (chars : list bytes) (max_chars : N) (index : nat) : option nat :=
  match chars with
  | [] => None
  | ch :: chars => if (max_chars =? 0)%N then Some index
                   else char_start chars (max_chars - 1) (index + length ch)
  end.

Definition truncate_utf8_by_chars (value : string) (max_chars : N) : string * N * bool :=
  if ((max_chars =? 0)%N && negb (str_is_empty value))%bool then (EmptyString, 0%N, true)
  else
    let '(end_, truncated) :=
      match char_start (chars value) max_chars 0 with
      | Some index => (index, true)
      | None => (length (to_bytes value), false)
      end in
    let retained := of_bytes (take end_ (to_bytes value)) in
    (retained, string_bytes retained, truncated).

Definition truncate_utf8_to_byte_boundary (input : string) (byte_limit : N) : string :=
  let l := to_bytes input in
  if (N.of_nat (length l) <=? byte_limit)%N then input
  else of_bytes (take (back_to_boundary l (N.to_nat byte_limit)) l).

Definition truncate_utf8_by_chars_and_bytes (value : string) (max_chars max_bytes : N)
  : string * N * bool :=
  let '(char_limited, _, char_truncated) := truncate_utf8_by_chars value max_chars in
  if (string_bytes char_limited <=? max_bytes)%N
  then (char_limited, string_bytes char_limited, char_truncated)
  else
    let byte_limited := truncate_utf8_to_byte_boundary char_limited max_bytes in
    (byte_limited, string_bytes byte_limited, true).

(** ** The read window *)

(** The bytes up to and with the next line feed, at most [limit], and the rest
    ([take(limit).read_until]). *)
Fixpoint read_until (limit : N) (rest : bytes) : bytes * bytes :=
  match rest with
  | [] => ([], [])
  | c :: tail =>
      if (limit =? 0)%N then ([], rest)
      else if is_lf c then ([c], tail)
      else let '(line, rest) := read_until (limit - 1) tail in (c :: line, rest)
  end.

Record ReadWindow := {
  win_content : string;
  win_end_line : N;
  win_line_count : N;
  win_retained_source_bytes : N;
  win_truncated_by_lines : bool;
  win_truncated_by_chars : bool;
  win_truncated_by_bytes : bool;
  win_truncated_by_scan : bool
}.

Inductive WindowError := ContainsNul | NotUtf8 (error : Utf8Error).

(** The configuration of a window. *)
Record WindowLimits := {
  lim_start_line : N;
  lim_max_lines : N;
  lim_max_chars : N;
  lim_max_bytes : option N;
  lim_max_scan_bytes : N;
  lim_line_numbers : bool
}.

(** The variables of the loop. *)
Record WindowState := {
  ws_window : ReadWindow;
  ws_used_chars : N;
  ws_used_bytes : N;
  ws_scanned_bytes : N;
  ws_previous_newline_bytes : N;
  ws_current_line : N
}.

Definition num_chars (s : string) : N := N.of_nat (length (chars s)).
Definition line_prefix (current_line : N) : string := usize_to_string current_line +:+ ": ".

Definition retained_source_bytes_for_rendered_chars (line : string) (current_line : N)
  (include_line_numbers : bool) (rendered_char_count : N) : N :=
  let source_char_count :=
    if include_line_numbers
    then saturating_sub rendered_char_count (num_chars (line_prefix current_line))
    else rendered_char_count in
  N.of_nat (length (concat (take (N.to_nat source_char_count) (chars line)))).

Definition retained_source_bytes_for_rendered_bytes (line : string) (current_line : N)
  (include_line_numbers : bool) (rendered_byte_count : N) : N :=
  if (rendered_byte_count =? 0)%N then 0%N
  else
    let prefix_bytes := if include_line_numbers then string_bytes (line_prefix current_line) else 0%N in
    N.min (saturating_sub rendered_byte_count prefix_bytes) (string_bytes line).

Definition is_nonempty (l : bytes) : bool := negb (bool_decide (l = [])).
Definition nul : ascii := ascii_of_N 0.

Inductive Round :=
  | Continue (st : WindowState) (rest : bytes)
  | Stop (w : ReadWindow)
  | Refuse (e : WindowError).

(** Which limit ends the loop at its top, when the window has begun; [more] tells
    whether the file goes on. *)
Definition window_full (lim : WindowLimits) (st : WindowState) (more : bool) : option ReadWindow :=
  let w := ws_window st in
  let full lines chars bytes scan := Some {|
    win_content := win_content w; win_end_line := win_end_line w;
    win_line_count := win_line_count w;
    win_retained_source_bytes := win_retained_source_bytes w;
    win_truncated_by_lines := lines; win_truncated_by_chars := chars;
    win_truncated_by_bytes := bytes; win_truncated_by_scan := scan |} in
  let begun := (lim_start_line lim <=? ws_current_line st)%N in
  if begun && (lim_max_lines lim <=? win_line_count w)%N then full more false false false
  else if begun && (lim_max_chars lim <=? ws_used_chars st)%N then full false more false false
  else if begun && match lim_max_bytes lim with
                   | Some limit => (limit <=? ws_used_bytes st)%N
                   | None => false
                   end then full false false more false
  else if (lim_max_scan_bytes lim <=? ws_scanned_bytes st)%N then full false false false more
  else None.

(** The text of a line; the start of a character that the scan limit cut off is
    dropped. *)
Definition line_text (truncated_by_scan : bool) (line_bytes : bytes) : result WindowError string :=
  reject? bool_decide (nul ∈ line_bytes) with ContainsNul in
  match from_utf8 line_bytes with
  | Ok line => Ok line
  | Err error =>
      if truncated_by_scan && bool_decide (ue_error_len error = None)
      then map_err NotUtf8 (from_utf8 (take (ue_valid_up_to error) line_bytes))
      else Err (NotUtf8 error)
  end.

(** The window with a piece of line [current_line] appended. *)
Definition window_push (w : ReadWindow) (text : string) (source_bytes current_line : N)
  (by_chars by_bytes by_scan : bool) : ReadWindow := {|
  win_content := win_content w +:+ text; win_end_line := current_line;
  win_line_count := win_line_count w + 1;
  win_retained_source_bytes := win_retained_source_bytes w + source_bytes;
  win_truncated_by_lines := false; win_truncated_by_chars := by_chars;
  win_truncated_by_bytes := by_bytes; win_truncated_by_scan := by_scan |}.
Definition window_flags (w : ReadWindow) (by_chars by_bytes by_scan : bool) : ReadWindow := {|
  win_content := win_content w; win_end_line := win_end_line w; win_line_count := win_line_count w;
  win_retained_source_bytes := win_retained_source_bytes w;
  win_truncated_by_lines := false; win_truncated_by_chars := by_chars;
  win_truncated_by_bytes := by_bytes; win_truncated_by_scan := by_scan |}.

Definition over_bytes (lim : WindowLimits) (bytes : N) : bool :=
  match lim_max_bytes lim with Some limit => (limit <? bytes)%N | None => false end.

(** What the round does with the text of a selected line. *)
Definition append_line (lim : WindowLimits) (st : WindowState) (by_scan : bool) (line : string)
  (newline_bytes : N) (rest : bytes) : Round :=
  let w := ws_window st in
  let current_line := ws_current_line st in
  let rendered := if lim_line_numbers lim then line_prefix current_line +:+ line else line in
  let separator := (if str_is_empty (win_content w) then 0 else 1)%N in
  if (lim_max_chars lim <=? ws_used_chars st + separator)%N
  then Stop (window_flags w true false by_scan)
  else if over_bytes lim (ws_used_bytes st + separator)
  then Stop (window_flags w false true by_scan)
  else
    let used_chars := (ws_used_chars st + separator)%N in
    let used_bytes := (ws_used_bytes st + separator)%N in
    let retained := (win_retained_source_bytes w
                     + if (separator =? 1)%N then ws_previous_newline_bytes st else 0)%N in
    let w := {|
      win_content := win_content w +:+ (if (separator =? 1)%N then String line_feed EmptyString
                                        else EmptyString);
      win_end_line := win_end_line w; win_line_count := win_line_count w;
      win_retained_source_bytes := retained; win_truncated_by_lines := false;
      win_truncated_by_chars := false; win_truncated_by_bytes := false;
      win_truncated_by_scan := by_scan |} in
    let remaining_chars := (lim_max_chars lim - used_chars)%N in
    if (remaining_chars <? num_chars rendered)%N then
      Stop (window_push w (of_bytes (concat (take (N.to_nat remaining_chars) (chars rendered))))
              (retained_source_bytes_for_rendered_chars line current_line (lim_line_numbers lim)
                 remaining_chars) current_line true false by_scan)
    else
      let rendered_bytes := string_bytes rendered in
      if over_bytes lim (used_bytes + rendered_bytes) then
        let available_bytes := saturating_sub (default 0%N (lim_max_bytes lim)) used_bytes in
        let cut := truncate_utf8_to_byte_boundary rendered available_bytes in
        if (0 <? string_bytes cut)%N
        then Stop (window_push w cut
                     (retained_source_bytes_for_rendered_bytes line current_line
                        (lim_line_numbers lim) (string_bytes cut)) current_line false true by_scan)
        else Stop (window_flags w false true by_scan)
      else
        let w := window_push w rendered (string_bytes line) current_line false false by_scan in
        if by_scan then Stop w
        else Continue {| ws_window := w; ws_used_chars := used_chars + num_chars rendered;
                         ws_used_bytes := used_bytes + rendered_bytes;
                         ws_scanned_bytes := ws_scanned_bytes st;
                         ws_previous_newline_bytes := newline_bytes;
                         ws_current_line := current_line |} rest.

(** Whether what was read reaches the scan limit without a line feed. *)
Definition scan_cut (lim : WindowLimits) (st : WindowState) (piece : bytes) : bool :=
  ((line_of piece).2 =? 0)%N
  && (lim_max_scan_bytes lim <=? ws_scanned_bytes st + N.of_nat (length piece))%N.

(** The rest of a round, when something was read. *)
Definition window_line (lim : WindowLimits) (st : WindowState) (piece : bytes) (more : bool)
  (rest : bytes) : Round :=
  let scanned_bytes := (ws_scanned_bytes st + N.of_nat (length piece))%N in
  let current_line := (ws_current_line st + 1)%N in
  let '(line_bytes, newline_bytes) := line_of piece in
  let by_scan := scan_cut lim st piece && more in
  let st := {| ws_window := ws_window st; ws_used_chars := ws_used_chars st;
               ws_used_bytes := ws_used_bytes st; ws_scanned_bytes := scanned_bytes;
               ws_previous_newline_bytes := ws_previous_newline_bytes st;
               ws_current_line := current_line |} in
  if (current_line <? lim_start_line lim)%N then
    if by_scan then Stop (window_flags (ws_window st) false false true) else Continue st rest
  else
    match line_text by_scan line_bytes with
    | Err e => Refuse e
    | Ok line => append_line lim st by_scan line newline_bytes rest
    end.

(** One round of the loop, on the bytes that are left of the file. *)
Definition window_round (lim : WindowLimits) (st : WindowState) (rest : bytes) : Round :=
  match window_full lim st (is_nonempty rest) with
  | Some w => Stop w
  | None =>
      let '(piece, rest) := read_until (lim_max_scan_bytes lim - ws_scanned_bytes st) rest in
      if bool_decide (piece = []) then Stop (ws_window st)
      else window_line lim st piece (is_nonempty rest) rest
  end.

Definition window_start : WindowState := {|
  ws_window := {| win_content := EmptyString; win_end_line := 0; win_line_count := 0;
                  win_retained_source_bytes := 0; win_truncated_by_lines := false;
                  win_truncated_by_chars := false; win_truncated_by_bytes := false;
                  win_truncated_by_scan := false |};
  ws_used_chars := 0; ws_used_bytes := 0; ws_scanned_bytes := 0; ws_previous_newline_bytes := 0;
  ws_current_line := 0 |}.

(** The loop; every round that goes on has read a byte. *)
Fixpoint window_loop (fuel : nat) (lim : WindowLimits) (st : WindowState) (rest : bytes)
  : option (result WindowError ReadWindow) :=
  match fuel with
  | O => None
  | S fuel =>
      match window_round lim st rest with
      | Stop w => Some (Ok w)
      | Refuse e => Some (Err e)
      | Continue st rest => window_loop fuel lim st rest
      end
  end.

(** The window starts at a line of at least one. *)
Definition from_first_line (lim : WindowLimits) : WindowLimits := {|
  lim_start_line := N.max (lim_start_line lim) 1; lim_max_lines := lim_max_lines lim;
  lim_max_chars := lim_max_chars lim; lim_max_bytes := lim_max_bytes lim;
  lim_max_scan_bytes := lim_max_scan_bytes lim; lim_line_numbers := lim_line_numbers lim |}.
Definition read_text_window (file : bytes) (lim : WindowLimits)
  : option (result WindowError ReadWindow) :=
  window_loop (S (length file)) (from_first_line lim) window_start file.
