(* ===== verification/LocalAuth.v ===== *)
(** * LocalAuth: the token a daemon asks of its clients ([crates/ateliad/src/transport.rs])

    Where the token comes from, the checks at the start of the daemon, and the
    check of every request.  Several daemons may start on one storage directory
    at the same time: [load_or_create_session_token] is a machine that makes one
    system call per turn, and a schedule interleaves the machines. *)
From S2P Require Import Prelude Text Domain StoreTypes Settings Truncation Paths ToolText.

(** ** Tokens *)

(** [anyhow::Error] *)
Record Failure := { fl_message : Message }.
Definition anyhow (s : string) : Failure := {| fl_message := msg s |}.

Inductive LocalAuthConfig :=
  | BearerToken (token : string)
  | AuthDisabled.
#[export] Instance LocalAuthConfig_eq_dec : EqDecision LocalAuthConfig.
Proof. solve_decision. Defined.

Definition is_token_char (c : ascii) : bool :=
  is_ascii_alphanumeric c || bool_decide (c ∈ to_bytes "-_").
Definition local_auth_token_is_strong (token : string) : bool :=
  (str_len token =? 64)%N && all_chars is_ascii_hexdigit token
  || (43 <=? str_len token)%N && all_chars is_token_char token.

Definition HEX : bytes := to_bytes "0123456789abcdef".
(** The index of a nibble is in range. *)
Definition hex_digit (n : N) : ascii := default (digit 0) (HEX !! N.to_nat n).
(** [encode_session_token]: two digits per byte. *)
Definition encode_session_token (random : list N) : string :=
  of_bytes (concat (map (λ byte, [hex_digit (N.shiftr byte 4); hex_digit (N.land byte 15)]) random)).

(** What [validate_and_restrict_session_token] accepts. *)
Definition is_session_token (token : string) : bool :=
  (str_len token =? 64)%N && all_chars is_ascii_hexdigit token.

(** ** The token file *)

Inductive FileKind := RegularFile | SymbolicLink | OtherFile.
Record TokenFile := {
  tf_kind : FileKind;
  tf_uid : N;
  tf_mode : N;
  tf_content : bytes
}.
Record StorageDir := { sd_uid : N; sd_mode : N }.
Record Disk := { dk_dir : option StorageDir; dk_token : option TokenFile }.
(** [0o700] and [0o600] *)
Definition OWNER_DIR : N := 448.
Definition OWNER_FILE : N := 384.

Definition with_mode (f : TokenFile) (mode : N) : TokenFile :=
  {| tf_kind := tf_kind f; tf_uid := tf_uid f; tf_mode := mode; tf_content := tf_content f |}.
Definition append (f : TokenFile) (l : bytes) : TokenFile :=
  {| tf_kind := tf_kind f; tf_uid := tf_uid f; tf_mode := tf_mode f; tf_content := tf_content f ++ l |}.
Definition with_token (k : Disk) (t : option TokenFile) : Disk := {| dk_dir := dk_dir k; dk_token := t |}.
Definition with_dir (k : Disk) (d : StorageDir) : Disk := {| dk_dir := Some d; dk_token := dk_token k |}.
(** [set_restrictive_permissions] *)
Definition set_restrictive_permissions (k : Disk) : Disk :=
  with_token k (option_map (λ f, with_mode f OWNER_FILE) (dk_token k)).

Definition SESSION_TOKEN_READ_ATTEMPTS : nat := 10.

(** Where a daemon is between two system calls.  [Writing] has written that many
    bytes of its token; [Reading] and [Checking] have read those bytes. *)
Inductive Phase :=
  | Preparing
  | Looking
  | Creating (token : string)
  | Writing (token : string) (written : nat)
  | Restricting (token : string)
  | Opening (attempt : nat)
  | Reading (attempt : nat) (got : bytes)
  | Checking (attempt : nat) (got : bytes)
  | Finished (r : result Failure string).

(** The effective user, and what [getrandom] gives. *)
Record Daemon := { dm_euid : N; dm_random : option (list N); dm_phase : Phase }.
Definition at_phase (d : Daemon) (p : Phase) : Daemon :=
  {| dm_euid := dm_euid d; dm_random := dm_random d; dm_phase := p |}.

(** A system call fails, or does its work; a read or a write moves up to that
    many bytes, and at least one. *)
Inductive Turn := Fails | Moves (n : nat).
Definition moved (n : nat) : nat := Nat.max 1 n.

(** The end of an attempt of [read_and_validate_session_token_with_retry]. *)
Definition retry (attempt : nat) (error : Failure) : Phase :=
  if (attempt + 1 <? SESSION_TOKEN_READ_ATTEMPTS)%nat then Opening (attempt + 1)
  else Finished (Err error).

Definition not_regular : Failure := anyhow "session token file {token_path:?} must be a regular file".
Definition not_permitted : Failure := anyhow "failed to set restrictive permissions on {path:?}".

(** [create_auth_storage_dir] *)
Definition prepare_step (turn : Turn) (euid : N) (k : Disk) : Phase * Disk :=
  match turn with
  | Fails => (Finished (Err (anyhow "failed to create auth storage dir {storage_dir:?}")), k)
  | Moves _ =>
      let dir := default {| sd_uid := euid; sd_mode := OWNER_DIR |} (dk_dir k) in
      if negb (sd_uid dir =? euid)%N
      then (Finished (Err (anyhow "auth storage dir {storage_dir:?} must be owned by the current user")), k)
      else (Looking, with_dir k {| sd_uid := sd_uid dir; sd_mode := OWNER_DIR |})
  end.

(** [load_or_create_session_token], from [symlink_metadata] on *)
Definition look_step (turn : Turn) (random : option (list N)) (k : Disk) : Phase :=
  match turn with
  | Fails => Finished (Err (anyhow "failed to read session token file {token_path:?}"))
  | Moves _ =>
      match dk_token k, random with
      | Some _, _ => Opening 0
      | None, None => Finished (Err (anyhow "failed to obtain secure randomness for local auth token generation"))
      | None, Some random => Creating (encode_session_token random)
      end
  end.

(** [write_or_reuse_session_token]: the file is created only where there is none. *)
Definition create_step (turn : Turn) (euid : N) (token : string) (k : Disk) : Phase * Disk :=
  match turn, dk_token k with
  | Fails, _ => (Finished (Err (anyhow "failed to create session token file {token_path:?}")), k)
  | Moves _, Some _ => (Opening 0, k)
  | Moves _, None =>
      (Writing token 0,
       with_token k (Some {| tf_kind := RegularFile; tf_uid := euid; tf_mode := OWNER_FILE;
                             tf_content := [] |}))
  end.

(** [write_session_token]: [write_all], then the permissions. *)
Definition write_step (turn : Turn) (token : string) (written : nat) (k : Disk) : Phase * Disk :=
  match turn with
  | Fails => (Finished (Err (anyhow "failed to write session token file {token_path:?}")), k)
  | Moves n =>
      let piece := take (moved n) (drop written (to_bytes token)) in
      let written := written + length piece in
      (if (length (to_bytes token) <=? written)%nat then Restricting token else Writing token written,
       with_token k (option_map (λ f, append f piece) (dk_token k)))
  end.
Definition restrict_step (turn : Turn) (token : string) (k : Disk) : Phase * Disk :=
  match turn with
  | Fails => (Finished (Err not_permitted), k)
  | Moves _ => (Finished (Ok token), set_restrictive_permissions k)
  end.

(** [open_existing_session_token_file] and [validate_existing_session_token_file] *)
Definition open_step (turn : Turn) (euid : N) (attempt : nat) (k : Disk) : Phase :=
  match turn, dk_token k with
  | Fails, _ | Moves _, None => retry attempt (anyhow "failed to open session token file {token_path:?}")
  | Moves _, Some f =>
      match tf_kind f with
      | SymbolicLink | OtherFile => retry attempt not_regular
      | RegularFile =>
          let storage_owner := option_map sd_uid (dk_dir k) in
          if negb (bool_decide (storage_owner = Some euid)) || negb (tf_uid f =? euid)%N
          then retry attempt (anyhow "session token file {token_path:?} must be owned by the current user and the auth storage dir owner")
          else Reading attempt []
      end
  end.

(** [read_to_string] *)
Definition read_step (turn : Turn) (attempt : nat) (got : bytes) (k : Disk) : Phase :=
  let failed := retry attempt (anyhow "failed to read session token file {token_path:?}") in
  match turn, dk_token k with
  | Fails, _ | Moves _, None => failed
  | Moves n, Some f =>
      match take (moved n) (drop (length got) (tf_content f)) with
      | [] => if is_ok (from_utf8 got) then Checking attempt got else failed
      | piece => Reading attempt (got ++ piece)
      end
  end.
(** [validate_and_restrict_session_token] *)
Definition check_step (turn : Turn) (attempt : nat) (got : bytes) (k : Disk) : Phase * Disk :=
  match turn with
  | Fails => (retry attempt not_permitted, k)
  | Moves _ =>
      let token := of_bytes got in
      (if negb (str_len token =? 64)%N || negb (all_chars is_ascii_hexdigit token)
       then retry attempt (anyhow "session token file {token_path:?} must contain exactly 64 hexadecimal characters; delete it and restart to regenerate")
       else Finished (Ok token),
       set_restrictive_permissions k)
  end.

Definition start_step (turn : Turn) (d : Daemon) (k : Disk) : Daemon * Disk :=
  let '(phase, k) :=
    match dm_phase d with
    | Preparing => prepare_step turn (dm_euid d) k
    | Looking => (look_step turn (dm_random d) k, k)
    | Creating token => create_step turn (dm_euid d) token k
    | Writing token written => write_step turn token written k
    | Restricting token => restrict_step turn token k
    | Opening attempt => (open_step turn (dm_euid d) attempt k, k)
    | Reading attempt got => (read_step turn attempt got k, k)
    | Checking attempt got => check_step turn attempt got k
    | Finished r => (Finished r, k)
    end in
  (at_phase d phase, k).

(** Several daemons on one directory. *)
Definition Machines : Type := list Daemon * Disk.
Definition turn_of (m : Machines) (t : nat * Turn) : Machines :=
  match m.1 !! t.1 with
  | Some d => let '(d, k) := start_step t.2 d m.2 in (<[t.1 := d]> m.1, k)
  | None => m
  end.
Definition turns (schedule : list (nat * Turn)) (m : Machines) : Machines := foldl turn_of m schedule.

(** ** The start of the daemon *)

(** [std::env::var_os] and [std::env::var(..).ok()] *)
Definition Env : Type := string → option bytes.
Definition env_var (env : Env) (name : string) : option string :=
  match env name with
  | Some raw => match from_utf8 raw with Ok value => Some value | Err _ => None end
  | None => None
  end.
Definition env_var_is_truthy (env : Env) (name : string) : bool :=
  match opt_filter (λ value, negb (str_is_empty value)) (option_map trim (env_var env name)) with
  | Some value => str_in (to_ascii_lowercase value) ["1"; "true"; "yes"; "on"]
  | None => false
  end.

Definition DEFAULT_LISTEN_ADDR : string := "127.0.0.1:8080".
Definition LISTEN_ADDR_ENV : string := "ATELIA_DAEMON_LISTEN_ADDR".
Definition UNSAFE_ALLOW_NON_LOOPBACK_LISTEN_ENV : string :=
  "ATELIA_DAEMON_UNSAFE_ALLOW_NON_LOOPBACK_LISTEN".
Definition AUTH_DISABLED_ENV : string := "ATELIA_DAEMON_AUTH_DISABLED".
Definition AUTH_TOKEN_ENV : string := "ATELIA_DAEMON_AUTH_TOKEN".

Definition is_visible_ascii : ascii → bool := in_range 32 126.
Definition first_is_whitespace (token : string) : bool := negb (ws_head (to_bytes token) =? 0)%nat.
Definition last_is_whitespace (token : string) : bool := negb (ws_last (rev (to_bytes token)) =? 0)%nat.

(** [loaded] is what [load_or_create_session_token] returns. *)
Definition resolve_local_auth (env : Env) (loaded : result Failure string)
  : result Failure LocalAuthConfig :=
  let auth_disabled := env_var_is_truthy env AUTH_DISABLED_ENV in
  let auth_token := env AUTH_TOKEN_ENV in
  reject? auth_disabled && is_some auth_token
    with anyhow "{AUTH_DISABLED_ENV} and {AUTH_TOKEN_ENV} are mutually exclusive" in
  if auth_disabled then Ok AuthDisabled else
  match auth_token with
  | Some raw_token =>
      let? token := map_err (λ _, anyhow "{AUTH_TOKEN_ENV} must contain valid UTF-8") (from_utf8 raw_token) in
      reject? str_is_empty token with anyhow "{AUTH_TOKEN_ENV} must not be empty" in
      reject? first_is_whitespace token || last_is_whitespace token
        with anyhow "{AUTH_TOKEN_ENV} must not have leading or trailing whitespace" in
      reject? has_whitespace token with anyhow "{AUTH_TOKEN_ENV} must not contain internal whitespace" in
      reject? negb (all_chars is_visible_ascii token)
        with anyhow "{AUTH_TOKEN_ENV} must contain only visible ASCII characters" in
      reject? negb (local_auth_token_is_strong token)
        with anyhow "{AUTH_TOKEN_ENV} must be either exactly 64 hexadecimal characters or at least 43 base64url characters using only ASCII alphanumeric, '-' or '_'" in
      Ok (BearerToken token)
  | None => let? token := loaded in Ok (BearerToken token)
  end.

Inductive IpAddr := V4 (octets : N * N * N * N) | V6 (address : N).
Record SocketAddr := { sa_ip : IpAddr; sa_port : N }.
Definition is_loopback (addr : SocketAddr) : bool :=
  match sa_ip addr with
  | V4 (a, _, _, _) => (a =? 127)%N
  | V6 address => (address =? 1)%N
  end.

(** [resolve] is [to_socket_addrs], which asks the resolver of the system. *)
Definition parse_socket_addr (resolve : string → result Failure (list SocketAddr)) (raw : string)
  : result Failure SocketAddr :=
  let? addrs := map_err (λ _, anyhow "invalid listen address {raw}") (resolve raw) in
  ok_or (head addrs) (anyhow "no socket addresses resolved for {raw}").
Definition listen_addr (env : Env) (resolve : string → result Failure (list SocketAddr))
  : result Failure (SocketAddr * bool) :=
  let raw_addr := opt_filter (λ value, negb (str_is_empty value))
                    (option_map trim (env_var env LISTEN_ADDR_ENV)) in
  let? addr := parse_socket_addr resolve (default DEFAULT_LISTEN_ADDR raw_addr) in
  Ok (addr, is_some raw_addr).
Definition unsafe_allow_non_loopback_listen (env : Env) : bool :=
  env_var_is_truthy env UNSAFE_ALLOW_NON_LOOPBACK_LISTEN_ENV.
Definition validate_listen_addr (env : Env) (addr : SocketAddr) (explicit_addr : bool)
  : result Failure unit :=
  if is_loopback addr then Ok tt
  else if unsafe_allow_non_loopback_listen env then Ok tt
  else if explicit_addr
  then Err (anyhow "refusing explicit non-loopback listener address {listen_addr}; set {UNSAFE_ALLOW_NON_LOOPBACK_LISTEN_ENV}=1 to allow this during beta")
  else Err (anyhow "refusing default non-loopback listener address {listen_addr}; set {UNSAFE_ALLOW_NON_LOOPBACK_LISTEN_ENV}=1 to allow this during beta").
Definition validate_local_auth_binding (local_auth : LocalAuthConfig) (addr : SocketAddr)
  : result Failure unit :=
  if bool_decide (local_auth = AuthDisabled) && negb (is_loopback addr)
  then Err (anyhow "refusing to combine {AUTH_DISABLED_ENV}=1 with non-loopback listener address {listen_addr}; keep auth enabled or bind to loopback only")
  else Ok tt.

(** [main] up to [run_listener]: [bind] opens the listener and gives the address
    it is bound to. *)
Definition boot (env : Env) (resolve : string → result Failure (list SocketAddr))
  (bind : SocketAddr → result Failure SocketAddr) (loaded : result Failure string)
  : result Failure (LocalAuthConfig * SocketAddr) :=
  let? local_auth := resolve_local_auth env loaded in
  let? '(addr, explicit_addr) := listen_addr env resolve in
  let? _ := validate_listen_addr env addr explicit_addr in
  let? _ := validate_local_auth_binding local_auth addr in
  let? local_addr := bind addr in
  let? _ := validate_local_auth_binding local_auth local_addr in
  Ok (local_auth, local_addr).

(** ** Bearer tokens *)

(** [split_whitespace]; the current word is kept reversed. *)
Definition flush (cur : bytes) : list string :=
  if bool_decide (cur = []) then [] else [of_bytes (rev cur)].
Fixpoint split_words (fuel : nat) (l cur : bytes) : list string :=
  match fuel with
  | O => flush cur
  | S fuel =>
      match l with
      | [] => flush cur
      | c :: rest =>
          match ws_head l with
          | O => split_words fuel rest (c :: cur)
          | n => flush cur ++ split_words fuel (drop n l) []
          end
      end
  end.
Definition split_whitespace (value : string) : list string :=
  split_words (length (to_bytes value)) (to_bytes value) [].
Definition eq_ignore_ascii_case (a b : string) : bool :=
  str_eqb (to_ascii_lowercase a) (to_ascii_lowercase b).

Definition parse_bearer_token (value : string) : option string :=
  match split_whitespace value with
  | [scheme; token] =>
      if eq_ignore_ascii_case scheme "bearer" && negb (str_is_empty token) then Some token else None
  | _ => None
  end.
(** [ct_eq] compares the bytes. *)
Definition bearer_token_matches (expected provided : string) : bool :=
  bool_decide (to_bytes expected = to_bytes provided).

(** [HeaderValue::to_str]: visible ASCII and tabs. *)
Definition header_to_str (value : bytes) : option string :=
  if forallb (λ c, is_visible_ascii c || (code c =? 9)%N) value then Some (of_bytes value) else None.
(** What [local_auth_middleware] lets through. *)
Definition authorized (auth : LocalAuthConfig) (header : option bytes) : bool :=
  match auth with
  | AuthDisabled => true
  | BearerToken token =>
      match header with
      | None => false
      | Some value =>
          match header_to_str value with
          | None => false
          | Some value =>
              match parse_bearer_token value with
              | Some provided => bearer_token_matches token provided
              | None => false
              end
          end
      end
  end.

(** * What the token guarantees *)

(** ** Generated tokens *)

Lemma hex_digit_is_hex n : is_ascii_hexdigit (hex_digit n) = true.
Proof.
  unfold hex_digit. destruct (HEX !! N.to_nat n) as [c|] eqn:E; [|done]. simpl.
  apply list_elem_of_lookup_2 in E.
  assert (Forall (λ c, is_ascii_hexdigit c = true) HEX) as Hall by (repeat constructor).
  by apply (proj1 (Forall_forall _ _) Hall).
Qed.

Lemma hex_pairs random :
  let l := concat (map (λ byte, [hex_digit (N.shiftr byte 4); hex_digit (N.land byte 15)]) random) in
  length l = 2 * length random ∧ forallb is_ascii_hexdigit l = true.
Proof.
  induction random as [|b random [IHl IHh]]; [done|]. cbn [map concat app length forallb] in *.
  rewrite !hex_digit_is_hex, IHh. split; [lia|done].
Qed.

Lemma encode_is_session_token random :
  length random = 32 → is_session_token (encode_session_token random) = true.
Proof.
  intros Hlen. destruct (hex_pairs random) as [Hl Hh].
  unfold is_session_token, encode_session_token, str_len, all_chars. rewrite to_of_bytes, Hl, Hlen.
  by rewrite Hh.
Qed.

Lemma is_session_token_length t : is_session_token t = true → length (to_bytes t) = 64.
Proof. unfold is_session_token, str_len. intros [Hl _]%andb_true_iff. lia. Qed.

Lemma session_token_is_strong t : is_session_token t = true → local_auth_token_is_strong t = true.
Proof. unfold local_auth_token_is_strong, is_session_token. by intros ->. Qed.

(** ** Daemons that start together *)

Definition dir_ok (d : Daemon) (k : Disk) : Prop :=
  dk_dir k = Some {| sd_uid := dm_euid d; sd_mode := OWNER_DIR |}.
(** The daemon's own regular file, with that content. *)
Definition own_file (d : Daemon) (k : Disk) (P : TokenFile → Prop) : Prop :=
  ∃ f, dk_token k = Some f ∧ tf_kind f = RegularFile ∧ tf_uid f = dm_euid d ∧ P f.

Definition phase_ok (k : Disk) (d : Daemon) : Prop :=
  match dm_phase d with
  | Preparing | Finished (Err _) => True
  | Looking | Opening _ => dir_ok d k
  | Creating t => dir_ok d k ∧ is_session_token t = true
  | Writing t n => dir_ok d k ∧ is_session_token t = true ∧ n < 64 ∧
      own_file d k (λ f, tf_content f = take n (to_bytes t))
  | Restricting t => dir_ok d k ∧ is_session_token t = true ∧
      own_file d k (λ f, tf_content f = to_bytes t)
  | Reading _ got => dir_ok d k ∧ own_file d k (λ f, got `prefix_of` tf_content f)
  | Checking _ got => dir_ok d k ∧
      own_file d k (λ f, got `prefix_of` tf_content f ∧ (length got = 64 → tf_content f = got))
  | Finished (Ok t) => dir_ok d k ∧ is_session_token t = true ∧
      own_file d k (λ f, tf_content f = to_bytes t ∧ tf_mode f = OWNER_FILE)
  end.
Definition is_writing (d : Daemon) : bool := match dm_phase d with Writing _ _ => true | _ => false end.

Record starts_ok (m : Machines) : Prop := {
  so_phases d : d ∈ m.1 → phase_ok m.2 d;
  so_random d random : d ∈ m.1 → dm_random d = Some random → length random = 32;
  so_one_writer i j di dj : m.1 !! i = Some di → m.1 !! j = Some dj →
    is_writing di = true → is_writing dj = true → i = j
}.

(** What a daemon's turn may do to the disk of the others. *)
Record disk_step (k k' : Disk) : Prop := {
  ds_dir dir : dk_dir k = Some dir →
    ∃ dir', dk_dir k' = Some dir' ∧ sd_uid dir' = sd_uid dir ∧
      (sd_mode dir' = sd_mode dir ∨ sd_mode dir' = OWNER_DIR);
  ds_token f : dk_token k = Some f →
    ∃ f', dk_token k' = Some f' ∧ tf_kind f' = tf_kind f ∧ tf_uid f' = tf_uid f ∧
      tf_content f `prefix_of` tf_content f' ∧ (tf_mode f' = tf_mode f ∨ tf_mode f' = OWNER_FILE)
}.
Definition same_content (k k' : Disk) : Prop :=
  ∀ f f', dk_token k = Some f → dk_token k' = Some f' → tf_content f' = tf_content f.

Lemma disk_step_refl k : disk_step k k.
Proof. split; intros x Hx; exists x; split_and!; auto. Qed.
Lemma same_content_refl k : same_content k k.
Proof. intros f f' H1 H2. congruence. Qed.
#[local] Hint Resolve disk_step_refl same_content_refl : core.

Lemma restrictive_step k : disk_step k (set_restrictive_permissions k) ∧ same_content k (set_restrictive_permissions k).
Proof.
  split; [split|]; simpl.
  - intros dir Hd. exists dir. auto.
  - intros f Hf. rewrite Hf. simpl. eexists. split; [done|]. simpl. auto.
  - intros f f' Hf. simpl. rewrite Hf. simpl. by intros [= <-].
Qed.

Lemma start_step_disk turn d k d' k' :
  start_step turn d k = (d', k') →
  disk_step k k' ∧ (is_writing d = true ∨ same_content k k') ∧ dm_euid d' = dm_euid d ∧ dm_random d' = dm_random d.
Proof.
  unfold start_step. destruct (dm_phase d) as [| |t|t n|t|a|a got|a got|r] eqn:Ep;
    unfold prepare_step, create_step, write_step, restrict_step, check_step;
    try (intros [= <- <-]; by auto 6).
  - destruct turn as [|n]; [intros [= <- <-]; by auto 6|].
    destruct (negb _); intros [= <- <-]; [by auto 6|]. split; [split; simpl|split; [right|done]].
    + intros dir Hd. rewrite Hd. eexists. by auto.
    + intros f Hf. exists f. split_and!; auto.
    + intros f f' Hf Hf'. simpl in Hf'. congruence.
  - destruct turn as [|n]; [intros [= <- <-]; by auto 6|].
    destruct (dk_token k) as [f|] eqn:Ef; intros [= <- <-]; [by auto 6|]. split; [split; simpl|].
    + intros dir Hd. exists dir. auto.
    + congruence.
    + split; [|done]. right. intros f f' Hf. congruence.
  - destruct turn as [|m]; intros [= <- <-]; [by auto 6|]. split; [split; simpl|].
    + intros dir Hd. exists dir. auto.
    + intros f Hf. rewrite Hf. simpl. eexists. split; [done|]. simpl.
      split_and!; auto. by apply prefix_app_r.
    + split; [|done]. left. unfold is_writing. by rewrite Ep.
  - destruct turn as [|m]; intros [= <- <-]; [by auto 6|]. destruct (restrictive_step k); auto.
  - destruct turn as [|m]; intros [= <- <-]; [by auto 6|]. destruct (restrictive_step k); auto.
Qed.

Lemma dir_ok_step k k' d : disk_step k k' → dir_ok d k → dir_ok d k'.
Proof.
  unfold dir_ok. intros Hs Hd. destruct (ds_dir _ _ Hs _ Hd) as ([uid mode] & -> & Hu & Hm).
  simpl in *. destruct Hm; by subst.
Qed.

Lemma own_file_step k k' d (P Q : TokenFile → Prop) :
  disk_step k k' → own_file d k P →
  (∀ f f', dk_token k = Some f → dk_token k' = Some f' → tf_content f `prefix_of` tf_content f' →
     tf_mode f' = tf_mode f ∨ tf_mode f' = OWNER_FILE → P f → Q f') →
  own_file d k' Q.
Proof.
  intros Hs (f & Hf & Hk & Hu & HP) HQ.
  destruct (ds_token _ _ Hs _ Hf) as (f' & Hf' & Hk' & Hu' & Hp & Hm).
  exists f'. split_and!; [done|congruence..|eauto].
Qed.

(** While somebody else writes, the file is too short to be a token. *)
Lemma phase_ok_step k k' d :
  disk_step k k' →
  same_content k k' ∨
    (is_writing d = false ∧ ∀ f, dk_token k = Some f → length (tf_content f) < 64) →
  phase_ok k d → phase_ok k' d.
Proof.
  intros Hs Hc. pose proof (dir_ok_step k k' d Hs) as Hdir.
  assert (∀ f f' (l : bytes), dk_token k = Some f → dk_token k' = Some f' → length l = 64 →
            tf_content f = l → tf_content f' = l) as Hfull.
  { intros f f' l Hf Hf' Hl <-. destruct Hc as [Hc|[_ Hc]]; [by eapply Hc|]. apply Hc in Hf. lia. }
  unfold phase_ok. destruct (dm_phase d) as [| |t|t n|t|a|a got|a got|[t|e]] eqn:Ep; auto.
  - intros [? ?]. auto.
  - intros (? & ? & ? & Hf). split_and!; auto. destruct Hc as [Hc|[Hw _]].
    + eapply own_file_step; [done..|]. intros f f' E1 E2 _ _ E3. by rewrite (Hc f f').
    + unfold is_writing in Hw. by rewrite Ep in Hw.
  - intros (? & Ht & Hf). split_and!; auto. eapply own_file_step; [done..|].
    intros f f' E1 E2 _ _ E3. eapply Hfull; eauto. by apply is_session_token_length.
  - intros [? Hf]. split; auto. eapply own_file_step; [done..|]. intros f f' _ _ Hp _ E3. by apply (transitivity E3 Hp).
  - intros [? Hf]. split; auto. eapply own_file_step; [done..|]. intros f f' E1 E2 Hp _ [E3 E4].
    split; [by apply (transitivity E3 Hp)|]. intros Hl. eapply Hfull; eauto.
  - intros (? & Ht & Hf). split_and!; auto. eapply own_file_step; [done..|].
    intros f f' E1 E2 _ Hm [E3 E4]. split; [|by destruct Hm; congruence].
    eapply Hfull; eauto. by apply is_session_token_length.
Qed.

Lemma retry_ok k d attempt e : dir_ok d k → phase_ok k (at_phase d (retry attempt e)).
Proof. intros Hd. unfold retry, phase_ok. by destruct (_ <? _)%nat. Qed.

Lemma take_all_prefix {A} (got l : list A) n :
  got `prefix_of` l → take (moved n) (drop (length got) l) = [] → l = got.
Proof.
  intros [rest ->]. rewrite drop_app_length. destruct rest as [|x rest]; [by rewrite app_nil_r|].
  unfold moved. by destruct n.
Qed.

Lemma write_step_ok turn d t n k :
  dm_phase d = Writing t n → phase_ok k d →
  let '(p, k') := write_step turn t n k in phase_ok k' (at_phase d p).
Proof.
  intros Ep Hok. unfold phase_ok in Hok. rewrite Ep in Hok.
  destruct Hok as (Hdir & Ht & Hn & f & Hf & Hk & Hu & Hc). pose proof (is_session_token_length t Ht) as Hlen.
  destruct turn as [|m]; [done|]. unfold write_step. set (piece := take (moved m) (drop n (to_bytes t))).
  assert (length piece = Nat.min (moved m) (64 - n)) as Hp.
  { unfold piece. by rewrite length_take, length_drop, Hlen. }
  assert (take (n + length piece) (to_bytes t) = take n (to_bytes t) ++ piece) as Happ.
  { rewrite Hp. unfold piece. rewrite take_take_drop.
    destruct (Nat.le_gt_cases (moved m) (64 - n)); [f_equal; lia|]. rewrite !take_ge by lia. done. }
  rewrite Hf, Hlen. cbn [option_map].
  destruct (Nat.leb_spec 64 (n + length piece)); cbn; split_and!; try done; try lia.
  - eexists. split_and!; [done..|]. cbn. rewrite Hc, <- Happ, take_ge by lia. done.
  - eexists. split_and!; [done..|]. cbn. by rewrite Hc, <- Happ.
Qed.

Lemma read_step_ok turn d a got k :
  dm_phase d = Reading a got → phase_ok k d → phase_ok k (at_phase d (read_step turn a got k)).
Proof.
  intros Ep Hok. unfold phase_ok in Hok. rewrite Ep in Hok.
  destruct Hok as (Hdir & f & Hf & Hk & Hu & Hc). unfold read_step. rewrite Hf.
  destruct turn as [|n]; [by apply retry_ok|].
  destruct (take (moved n) (drop (length got) (tf_content f))) as [|c piece] eqn:Epc.
  - apply take_all_prefix in Epc; [|done]. destruct (is_ok _); [|by apply retry_ok].
    split; [done|]. exists f. by rewrite Epc.
  - split; [done|]. exists f. split_and!; [done..|]. destruct Hc as [rest Hrest]. rewrite Hrest in *.
    rewrite drop_app_length in Epc. rewrite <- Epc. apply prefix_app. exists (drop (moved n) rest).
    symmetry. apply take_drop.
Qed.

Lemma check_step_ok turn d a got k :
  dm_phase d = Checking a got → phase_ok k d →
  let '(p, k') := check_step turn a got k in phase_ok k' (at_phase d p).
Proof.
  intros Ep Hok. unfold phase_ok in Hok. rewrite Ep in Hok.
  destruct Hok as (Hdir & f & Hf & Hk & Hu & Hp & Hc). destruct turn as [|n]; [by apply retry_ok|].
  unfold check_step. destruct (negb _ || negb _) eqn:Ev; [by apply retry_ok|].
  apply orb_false_iff in Ev as [Hl%negb_false_iff Hh%negb_false_iff].
  assert (length got = 64) as Hlen by (unfold str_len in Hl; rewrite to_of_bytes in Hl; lia).
  split; [done|]. split; [unfold is_session_token; by rewrite Hl, Hh|].
  exists (with_mode f OWNER_FILE). unfold set_restrictive_permissions. rewrite Hf, to_of_bytes. cbn. split_and!; auto.
Qed.

Lemma start_step_ok turn d k d' k' :
  (∀ random, dm_random d = Some random → length random = 32) →
  phase_ok k d → start_step turn d k = (d', k') → phase_ok k' d'.
Proof.
  intros Hr Hok. unfold start_step. pose proof Hok as Hall. unfold phase_ok in Hok.
  destruct (dm_phase d) as [| |t|t n|t|a|a got|a got|r] eqn:Ep.
  - unfold prepare_step. destruct turn as [|n]; [by intros [= <- <-]|].
    destruct (N.eqb_spec (sd_uid (default {| sd_uid := dm_euid d; sd_mode := OWNER_DIR |} (dk_dir k))) (dm_euid d))
      as [He|]; intros [= <- <-]; [|done]. unfold phase_ok, dir_ok. cbn. by rewrite He.
  - unfold look_step. destruct turn as [|n]; [by intros [= <- <-]|].
    destruct (dk_token k); [by intros [= <- <-]|]. destruct (dm_random d) as [random|] eqn:Er; intros [= <- <-]; [|done].
    split; [done|]. apply encode_is_session_token. by apply Hr.
  - unfold create_step. destruct turn as [|n]; [by intros [= <- <-]|]. destruct Hok as [Hdir Ht].
    destruct (dk_token k); intros [= <- <-]; [done|]. unfold phase_ok. cbn. split_and!; [done|done|lia|].
    eexists. split; [done|]. by rewrite take_0.
  - pose proof (write_step_ok turn d t n k Ep Hall). destruct (write_step turn t n k). by intros [= <- <-].
  - unfold restrict_step. destruct turn as [|n]; [by intros [= <- <-]|].
    destruct Hok as (Hdir & Ht & f & Hf & Hk & Hu & Hc). intros [= <- <-]. unfold phase_ok. cbn.
    split_and!; [done..|]. exists (with_mode f OWNER_FILE). unfold set_restrictive_permissions.
    rewrite Hf. split_and!; auto.
  - intros [= <- <-]. unfold open_step. destruct turn as [|n]; [by apply retry_ok|].
    destruct (dk_token k) as [f|] eqn:Ef; [|by apply retry_ok].
    destruct (tf_kind f) eqn:Ek; [|by apply retry_ok..].
    destruct (negb _ || negb _) eqn:Eo; [by apply retry_ok|].
    apply orb_false_iff in Eo as [_ Hu%negb_false_iff%N.eqb_eq]. split; [done|]. exists f.
    split_and!; auto. apply prefix_nil.
  - intros [= <- <-]. by apply read_step_ok.
  - pose proof (check_step_ok turn d a got k Ep Hall). destruct (check_step turn a got k). by intros [= <- <-].
  - intros [= <- <-]. unfold phase_ok. by cbn.
Qed.

Lemma start_step_writing turn d k d' k' :
  start_step turn d k = (d', k') → is_writing d' = true → is_writing d = true ∨ dk_token k = None.
Proof.
  unfold start_step, is_writing. destruct (dm_phase d) as [| |t|t n|t|a|a got|a got|r]; auto;
    unfold prepare_step, look_step, create_step, restrict_step, open_step, read_step, check_step, retry;
    intros E; repeat case_match; simplify_eq/=; try done; auto.
Qed.

Lemma turn_of_ok m t : starts_ok m → starts_ok (turn_of m t).
Proof.
  intros [Hph Hr Hone]. unfold turn_of. destruct (m.1 !! t.1) as [d|] eqn:Ed; [|done].
  destruct (start_step t.2 d m.2) as [d' k'] eqn:Es. pose proof (list_elem_of_lookup_2 _ _ _ Ed) as Hin.
  pose proof (start_step_disk _ _ _ _ _ Es) as (Hdisk & Hcont & He & Hrand).
  assert (∀ j dj, m.1 !! j = Some dj → j ≠ t.1 → phase_ok k' dj) as Hothers.
  { intros j dj Hj Hne. pose proof (Hph dj (list_elem_of_lookup_2 _ _ _ Hj)) as Hok.
    apply (phase_ok_step m.2); [done| |done]. destruct Hcont as [Hw|Hc]; [right|by left]. split.
    - destruct (is_writing dj) eqn:Hwj; [|done]. by pose proof (Hone _ _ _ _ Hj Ed Hwj Hw).
    - intros f Hf. pose proof (Hph d Hin) as Hd. unfold phase_ok in Hd. unfold is_writing in Hw.
      destruct (dm_phase d); try done. destruct Hd as (_ & _ & Hn & f' & Hf' & _ & _ & Hc).
      rewrite Hf in Hf'. injection Hf' as <-. rewrite Hc, length_take. lia. }
  assert (∀ j dj, <[t.1:=d']> m.1 !! j = Some dj → (j = t.1 ∧ dj = d') ∨ (j ≠ t.1 ∧ m.1 !! j = Some dj)) as Hlook.
  { intros j dj. destruct (decide (j = t.1)) as [->|]; [|rewrite list_lookup_insert_ne by done; auto].
    rewrite list_lookup_insert_eq by (by eapply lookup_lt_Some). intros [= <-]. auto. }
  split; simpl.
  - intros dj [j Hj]%list_elem_of_lookup. destruct (Hlook _ _ Hj) as [[-> ->]|[Hne Hj']]; [|eauto].
    by eapply start_step_ok; [intros; eapply Hr|apply Hph|].
  - intros dj random [j Hj]%list_elem_of_lookup.
    destruct (Hlook _ _ Hj) as [[-> ->]|[Hne Hj']]; [rewrite Hrand; by apply Hr|].
    apply Hr. by eapply list_elem_of_lookup_2.
  - assert (∀ j dj, j ≠ t.1 → m.1 !! j = Some dj → is_writing dj = true → is_writing d' = true → False) as Hnot.
    { intros j dj Hne Hj Hw Hw'. destruct (start_step_writing _ _ _ _ _ Es Hw') as [Hd|Hnone].
      - by pose proof (Hone _ _ _ _ Hj Ed Hw Hd).
      - pose proof (Hph dj (list_elem_of_lookup_2 _ _ _ Hj)) as Hd. unfold phase_ok in Hd.
        unfold is_writing in Hw. destruct (dm_phase dj); try done.
        destruct Hd as (_ & _ & _ & f & Hf & _). congruence. }
    intros i j di dj Hi Hj Hwi Hwj.
    destruct (Hlook _ _ Hi) as [[-> ->]|[Hni Hi']], (Hlook _ _ Hj) as [[-> ->]|[Hnj Hj']]; eauto; exfalso; eauto.
Qed.

Lemma turns_ok schedule m : starts_ok m → starts_ok (turns schedule m).
Proof. revert m. induction schedule as [|t l IH]; intros m Hm; [done|]. by apply IH, turn_of_ok. Qed.

Definition fresh_daemon (euid : N) (random : option (list N)) : Daemon :=
  {| dm_euid := euid; dm_random := random; dm_phase := Preparing |}.
Lemma fresh_ok ds k :
  (∀ d, d ∈ ds → dm_phase d = Preparing ∧ ∀ random, dm_random d = Some random → length random = 32) →
  starts_ok (ds, k).
Proof.
  intros Hf. split; simpl.
  - intros d Hd. unfold phase_ok. by rewrite (proj1 (Hf d Hd)).
  - intros d random Hd. by apply (Hf d Hd).
  - intros i j di dj Hi _ Hw. unfold is_writing in Hw.
    by rewrite (proj1 (Hf di (list_elem_of_lookup_2 _ _ _ Hi))) in Hw.
Qed.

(** C14: Any number of daemons may start on one storage directory at once, run as
    any users, meet any I/O failures, and be interleaved call by call in any
    way: those that get a session token all get the same one.  It is the content
    of the token file, 64 hexadecimal digits, and the file and its directory
    belong to their user and are closed to everybody else. *)
Theorem daemons_agree_on_the_token (ds : list Daemon) (disk : Disk) (schedule : list (nat * Turn))
  (i j : nat) (di dj : Daemon) (t u : string)
  (Hstart : ∀ d, d ∈ ds → dm_phase d = Preparing ∧ ∀ random, dm_random d = Some random → length random = 32)
  (Hi : (turns schedule (ds, disk)).1 !! i = Some di) (Hj : (turns schedule (ds, disk)).1 !! j = Some dj)
  (Ht : dm_phase di = Finished (Ok t)) (Hu : dm_phase dj = Finished (Ok u)) :
  t = u ∧ is_session_token t = true ∧
  ∃ f, (turns schedule (ds, disk)).2 = {| dk_dir := Some {| sd_uid := dm_euid di; sd_mode := OWNER_DIR |};
                                          dk_token := Some f |} ∧
       f = {| tf_kind := RegularFile; tf_uid := dm_euid di; tf_mode := OWNER_FILE; tf_content := to_bytes t |}.
Proof.
  pose proof (turns_ok schedule _ (fresh_ok ds disk Hstart)) as [Hph _ _].
  destruct (turns schedule (ds, disk)) as [ms k]. simpl in *.
  pose proof (Hph di (list_elem_of_lookup_2 _ _ _ Hi)) as Hdi.
  pose proof (Hph dj (list_elem_of_lookup_2 _ _ _ Hj)) as Hdj. unfold phase_ok in *. rewrite Ht in Hdi. rewrite Hu in Hdj.
  destruct Hdi as (Hdir & Htok & f & Hf & Hk & Hown & Hc & Hm), Hdj as (_ & _ & g & Hg & _ & _ & Hcg & _).
  rewrite Hf in Hg. injection Hg as <-. split_and!; [|done|].
  - rewrite <- (of_to_bytes t), <- (of_to_bytes u). congruence.
  - exists f. split; [|by destruct f; simpl in *; subst]. destruct k as [dir tok]. unfold dir_ok in Hdir.
    simpl in *. by subst.
Qed.

(** ** Starting ends *)

(** What is left of an attempt to read, and of the attempts. *)
Definition attempt_cost (cap : nat) : nat := cap + 3.
Definition attempts_left (cap attempt : nat) : nat := (SESSION_TOKEN_READ_ATTEMPTS - attempt) * attempt_cost cap.
Definition phase_cost (cap : nat) (p : Phase) : nat :=
  match p with
  | Preparing => attempts_left cap 0 + 70
  | Looking => attempts_left cap 0 + 69
  | Creating _ => attempts_left cap 0 + 68
  | Writing t n => 66 - n
  | Restricting _ => 1
  | Opening a => attempts_left cap a
  | Reading a got => attempts_left cap (a + 1) + (cap - length got) + 2
  | Checking a _ => attempts_left cap (a + 1) + 1
  | Finished _ => 0
  end.
(** No file gets longer than it was, or than a token. *)
Definition cap_of (k : Disk) : nat :=
  Nat.max 64 (match dk_token k with Some f => length (tf_content f) | None => 0 end).

Definition attempt_ok (d : Daemon) : Prop :=
  match dm_phase d with
  | Opening a | Reading a _ | Checking a _ => a < SESSION_TOKEN_READ_ATTEMPTS
  | _ => True
  end.

Lemma retry_cost cap attempt e n :
  attempt < SESSION_TOKEN_READ_ATTEMPTS → 0 < n →
  phase_cost cap (retry attempt e) < attempts_left cap (attempt + 1) + n.
Proof.
  intros Ha Hn. unfold retry. destruct (Nat.ltb_spec (attempt + 1) SESSION_TOKEN_READ_ATTEMPTS); simpl; lia.
Qed.
Lemma retry_attempt d attempt e :
  attempt < SESSION_TOKEN_READ_ATTEMPTS → attempt_ok (at_phase d (retry attempt e)).
Proof. intros Ha. unfold retry, attempt_ok. by destruct (Nat.ltb_spec (attempt + 1) SESSION_TOKEN_READ_ATTEMPTS). Qed.
Lemma opening_cost cap attempt :
  attempt < SESSION_TOKEN_READ_ATTEMPTS →
  attempts_left cap attempt = attempts_left cap (attempt + 1) + attempt_cost cap.
Proof. unfold attempts_left. intros Ha. replace (_ - attempt) with (S (SESSION_TOKEN_READ_ATTEMPTS - (attempt + 1))) by lia. lia. Qed.

Lemma start_step_cap turn d k d' k' :
  phase_ok k d → start_step turn d k = (d', k') → cap_of k' = cap_of k.
Proof.
  intros Hok. unfold start_step, phase_ok in *. destruct (dm_phase d) as [| |t|t n|t|a|a got|a got|r];
    try (by intros [= <- <-]).
  - unfold prepare_step. destruct turn; [by intros [= <- <-]|]. by destruct (negb _); intros [= <- <-].
  - unfold create_step, cap_of. destruct turn; [by intros [= <- <-]|].
    destruct (dk_token k) eqn:E; intros [= <- <-]; simpl; by rewrite ?E.
  - destruct Hok as (_ & Ht%is_session_token_length & Hn & f & Hf & _ & _ & Hc).
    unfold write_step, cap_of. destruct turn as [|m]; intros [= <- <-]; [done|]. cbn. rewrite Hf. cbn.
    rewrite length_app, Hc, !length_take, length_drop, Ht. lia.
  - unfold restrict_step, cap_of. destruct turn; intros [= <- <-]; [done|]. cbn. by destruct (dk_token k).
  - unfold check_step, cap_of. destruct turn; intros [= <- <-]; [done|]. cbn. by destruct (dk_token k).
Qed.

Lemma read_step_cost turn d a got k :
  dm_phase d = Reading a got → phase_ok k d → a < SESSION_TOKEN_READ_ATTEMPTS →
  attempt_ok (at_phase d (read_step turn a got k)) ∧
  phase_cost (cap_of k) (read_step turn a got k) < phase_cost (cap_of k) (Reading a got).
Proof.
  intros Ep Hok Ha. unfold phase_ok in Hok. rewrite Ep in Hok. destruct Hok as (_ & f & Hf & _ & _ & Hp).
  assert (∀ e, attempt_ok (at_phase d (retry a e)) ∧ phase_cost (cap_of k) (retry a e) < phase_cost (cap_of k) (Reading a got)) as Hretry.
  { intros e. split; [by apply retry_attempt|]. pose proof (retry_cost (cap_of k) a e 1 Ha). simpl. lia. }
  unfold read_step. rewrite Hf. destruct turn as [|n]; [apply Hretry|].
  destruct (take _ _) as [|c piece] eqn:Epc; [destruct (is_ok _); [|apply Hretry]; by split; [|simpl; lia]|].
  split; [done|]. cbn [phase_cost]. rewrite length_app. cbn [length].
  assert (length got < cap_of k); [|lia]. unfold cap_of. rewrite Hf. destruct Hp as [rest Hrest].
  rewrite Hrest, drop_app_length in Epc. rewrite Hrest, length_app.
  destruct rest; [by rewrite take_nil in Epc|simpl; lia].
Qed.

Lemma start_step_cost turn d k d' k' :
  phase_ok k d → attempt_ok d → start_step turn d k = (d', k') →
  attempt_ok d' ∧ (phase_cost (cap_of k) (dm_phase d') < phase_cost (cap_of k) (dm_phase d) ∨
                   phase_cost (cap_of k) (dm_phase d') = 0).
Proof.
  intros Hok Hat. unfold start_step. pose proof Hok as Hall. unfold phase_ok, attempt_ok in Hok, Hat.
  destruct (dm_phase d) as [| |t|t n|t|a|a got|a got|r] eqn:Ep.
  - unfold prepare_step. destruct turn; [intros [= <- <-]; by auto|].
    destruct (negb _); intros [= <- <-]; simpl; split; auto; left; lia.
  - intros [= <- <-]. unfold look_step. destruct turn; [by auto|]. destruct (dk_token k), (dm_random d);
      simpl; split; auto; try (left; lia); unfold attempt_ok; simpl; unfold SESSION_TOKEN_READ_ATTEMPTS; lia.
  - unfold create_step. destruct turn; [intros [= <- <-]; by auto|].
    destruct (dk_token k); intros [= <- <-]; simpl; split; try done; try (left; lia).
    unfold attempt_ok. simpl. unfold SESSION_TOKEN_READ_ATTEMPTS. lia.
  - destruct Hok as (_ & Ht%is_session_token_length & Hn & _). unfold write_step.
    destruct turn as [|m]; intros [= <- <-]; [by auto|]. rewrite length_take, length_drop, Ht. unfold moved.
    destruct (Nat.leb_spec 64 (n + Nat.min (Nat.max 1 m) (64 - n))); simpl; split; try done; left; lia.
  - unfold restrict_step. destruct turn; intros [= <- <-]; by auto.
  - intros [= <- <-]. cbn [dm_phase at_phase].
    assert (∀ e, attempt_ok (at_phase d (retry a e)) ∧ phase_cost (cap_of k) (retry a e) < phase_cost (cap_of k) (Opening a)) as Hr.
    { intros e. split; [by apply retry_attempt|]. simpl. rewrite (opening_cost _ a) by done.
      apply retry_cost; [done|]. unfold attempt_cost. lia. }
    unfold open_step. destruct turn, (dk_token k) as [f|]; try (split; [apply Hr|left; apply Hr]).
    destruct (tf_kind f); try (split; [apply Hr|left; apply Hr]).
    destruct (_ || _); [split; [apply Hr|left; apply Hr]|]. split; [done|left]. cbn [phase_cost length].
    rewrite (opening_cost _ a) by done. unfold attempt_cost. lia.
  - intros [= <- <-]. destruct (read_step_cost turn d a got k Ep Hall Hat). auto.
  - unfold check_step. destruct turn; [intros [= <- <-]; split; [by apply retry_attempt|left; by apply retry_cost; [|lia]]|].
    destruct (_ || _); intros [= <- <-]; [|split; [done|by right]].
    split; [by apply retry_attempt|left; by apply retry_cost; [|lia]].
  - intros [= <- <-]. auto.
Qed.

Lemma cost_zero k d :
  phase_ok k d → attempt_ok d → phase_cost (cap_of k) (dm_phase d) = 0 → ∃ r, dm_phase d = Finished r.
Proof.
  unfold phase_ok, attempt_ok. intros Hok Ha Hz.
  destruct (dm_phase d) as [| |t|t n|t|a|a got|a got|r]; cbn [phase_cost] in Hz; try lia; [..|by eauto].
  rewrite opening_cost in Hz by done. unfold attempt_cost in Hz. lia.
Qed.

Definition own_turns (i : nat) (schedule : list (nat * Turn)) : nat :=
  length (List.filter (λ t, (t.1 =? i)%nat) schedule).

Lemma turn_of_cost m t i d :
  starts_ok m → (∀ d, d ∈ m.1 → attempt_ok d) → m.1 !! i = Some d →
  cap_of (turn_of m t).2 = cap_of m.2 ∧ (∀ d, d ∈ (turn_of m t).1 → attempt_ok d) ∧
  ∃ d', (turn_of m t).1 !! i = Some d' ∧
    phase_cost (cap_of m.2) (dm_phase d') ≤ phase_cost (cap_of m.2) (dm_phase d) - own_turns i [t].
Proof.
  intros [Hph _ _] Hat Hi. unfold turn_of, own_turns. cbn [List.filter].
  destruct (m.1 !! t.1) as [e|] eqn:Ee.
  - destruct (start_step t.2 e m.2) as [e' k'] eqn:Es. pose proof (list_elem_of_lookup_2 _ _ _ Ee) as Hin.
    destruct (start_step_cost _ _ _ _ _ (Hph e Hin) (Hat e Hin) Es) as [Hae Hcost].
    split_and!; simpl; [by eapply start_step_cap; [apply Hph|]| |].
    + intros x [j Hj]%list_elem_of_lookup. destruct (decide (j = t.1)) as [->|].
      * rewrite list_lookup_insert_eq in Hj by (by eapply lookup_lt_Some). by injection Hj as <-.
      * rewrite list_lookup_insert_ne in Hj by done. apply Hat. by eapply list_elem_of_lookup_2.
    + destruct (Nat.eqb_spec t.1 i) as [Heq|Hne]; simpl.
      * rewrite Heq in *. exists e'. rewrite list_lookup_insert_eq by (by eapply lookup_lt_Some). simplify_eq. split; [done|lia].
      * exists d. rewrite list_lookup_insert_ne by done. split; [done|lia].
  - destruct (Nat.eqb_spec t.1 i) as [<-|]; [congruence|]. simpl. split_and!; [done..|].
    exists d. split; [done|lia].
Qed.

Lemma turns_cost schedule m i d :
  starts_ok m → (∀ d, d ∈ m.1 → attempt_ok d) → m.1 !! i = Some d →
  cap_of (turns schedule m).2 = cap_of m.2 ∧
  ∃ d', (turns schedule m).1 !! i = Some d' ∧ attempt_ok d' ∧
    phase_cost (cap_of m.2) (dm_phase d') ≤ phase_cost (cap_of m.2) (dm_phase d) - own_turns i schedule.
Proof.
  revert m d. induction schedule as [|t l IH]; intros m d Hm Hat Hi.
  - split; [done|]. exists d. unfold own_turns. simpl. split_and!; [done|apply Hat; by eapply list_elem_of_lookup_2|lia].
  - destruct (turn_of_cost m t i d Hm Hat Hi) as (Hcap & Hat' & d1 & Hd1 & Hle).
    destruct (IH (turn_of m t) d1 (turn_of_ok m t Hm) Hat' Hd1) as (Hcap' & d2 & Hd2 & Ha2 & Hle2).
    change (turns (t :: l) m) with (turns l (turn_of m t)). rewrite Hcap in *.
    split; [done|]. exists d2. split_and!; [done..|]. unfold own_turns in *. cbn [List.filter] in *.
    destruct (t.1 =? i)%nat; simpl in *; lia.
Qed.

(** The turns that are always enough: ten attempts at reading a file of that
    size, and what comes before them. *)
Definition START_TURNS (disk : Disk) : nat := 10 * (cap_of disk + 3) + 70.

(** C16: Starting always ends: whatever the other daemons and the file system do,
    a daemon that gets [START_TURNS] turns has a token or reports a failure. *)
Theorem daemon_start_ends (ds : list Daemon) (disk : Disk) (schedule : list (nat * Turn)) (i : nat)
  (Hstart : ∀ d, d ∈ ds → dm_phase d = Preparing ∧ ∀ random, dm_random d = Some random → length random = 32)
  (Hi : i < length ds) (Hturns : START_TURNS disk ≤ own_turns i schedule) :
  ∃ d r, (turns schedule (ds, disk)).1 !! i = Some d ∧ dm_phase d = Finished r.
Proof.
  apply lookup_lt_is_Some_2 in Hi as [d Hd]. pose proof (fresh_ok ds disk Hstart) as Hok.
  destruct (turns_cost schedule (ds, disk) i d Hok) as (Hcap & d' & Hd' & Ha & Hcost); [|done|].
  { intros x Hx. unfold attempt_ok. by rewrite (proj1 (Hstart x Hx)). }
  exists d'. pose proof (so_phases _ (turns_ok schedule _ Hok) d' (list_elem_of_lookup_2 _ _ _ Hd')) as Hp.
  destruct (cost_zero _ d' Hp Ha) as [r Hr]; [|by exists r].
  rewrite Hcap. rewrite (proj1 (Hstart d (list_elem_of_lookup_2 _ _ _ Hd))) in Hcost.
  unfold START_TURNS in Hturns. cbn [snd phase_cost] in *. unfold attempts_left, attempt_cost, SESSION_TOKEN_READ_ATTEMPTS in Hcost.
  lia.
Qed.

(** ** Requests *)

Lemma strong_token_chars t :
  local_auth_token_is_strong t = true → 43 ≤ length (to_bytes t) ∧ forallb is_token_char (to_bytes t) = true.
Proof.
  unfold local_auth_token_is_strong, str_len, all_chars.
  intros [[Hl Hc]%andb_true_iff|[Hl Hc]%andb_true_iff]%orb_true_iff; (split; [lia|]); [|done].
  apply forallb_forall. intros c Hin. rewrite forallb_forall in Hc. specialize (Hc c Hin).
  unfold is_ascii_hexdigit, is_token_char, is_ascii_alphanumeric, is_ascii_lowercase, is_ascii_uppercase, in_range in *.
  lia.
Qed.

Lemma token_char_code c : is_token_char c = true → (33 <= code c <= 126)%N.
Proof.
  unfold is_token_char, is_ascii_alphanumeric, is_ascii_digit, is_ascii_lowercase, is_ascii_uppercase, in_range.
  intros [Hc|Hc%bool_decide_eq_true]%orb_true_iff; [lia|].
  apply list_elem_of_In in Hc as [<-|[<-|[]]]; done.
Qed.

Lemma token_char_not_ws c l : is_token_char c = true → ws_head (c :: l) = 0.
Proof.
  intros Hc%token_char_code. unfold ws_head, ws1, ws2, ws3.
  replace ((9 <=? code c) && (code c <=? 13) || (code c =? 32))%N with false by lia.
  destruct l as [|a [|b l]]; [done|..];
    replace (code c =? 194)%N with false by lia; [done|]. simpl.
  replace (code c =? 225)%N with false by lia. replace (code c =? 226)%N with false by lia.
  replace (code c =? 227)%N with false by lia. done.
Qed.

Lemma split_word fuel l cur :
  length l ≤ fuel → forallb is_token_char l = true → split_words fuel l cur = flush (rev l ++ cur).
Proof.
  revert l cur. induction fuel as [|fuel IH]; intros [|c l] cur Hl Hc; try done; [simpl in Hl; lia|].
  simpl in Hc. apply andb_true_iff in Hc as [Hc Hcs]. cbn [split_words]. rewrite (token_char_not_ws c l Hc).
  rewrite IH by (simpl in *; done || lia). simpl. by rewrite <- app_assoc.
Qed.

Lemma split_word_space fuel w rest cur :
  forallb is_token_char w = true → w ++ cur ≠ [] →
  split_words (length w + S fuel) (w ++ " "%char :: rest) cur
  = of_bytes (rev (rev w ++ cur)) :: split_words fuel rest [].
Proof.
  revert cur. induction w as [|c w IH]; intros cur Hc Hne.
  - cbn [length app Nat.add split_words ws_head]. change (ws1 (code " ")) with true. cbn [drop rev app].
    unfold flush. by rewrite bool_decide_eq_false_2.
  - simpl in Hc. apply andb_true_iff in Hc as [Hc Hcs]. cbn [length app Nat.add split_words].
    rewrite (token_char_not_ws c _ Hc), (IH (c :: cur) Hcs) by (by destruct w).
    cbn [rev]. by rewrite <- app_assoc.
Qed.

Lemma bearer_header t :
  local_auth_token_is_strong t = true → parse_bearer_token ("Bearer " +:+ t) = Some t.
Proof.
  intros [Hl Hc]%strong_token_chars. unfold parse_bearer_token, split_whitespace. rewrite to_bytes_app.
  change (to_bytes "Bearer ") with (to_bytes "Bearer" ++ [" "%char]).
  rewrite <- app_assoc. cbn [app]. rewrite length_app. change (length (" "%char :: ?l)) with (S (length l)).
  cbn [length]. rewrite split_word_space by done. rewrite split_word by done.
  unfold flush. rewrite !app_nil_r, !rev_involutive, !of_to_bytes.
  rewrite bool_decide_eq_false_2
    by (intros E%(f_equal length); rewrite length_rev in E; simpl in E; lia).
  destruct t; [simpl in Hl; lia|]. by vm_compute (eq_ignore_ascii_case _ _).
Qed.

Lemma strong_header_to_str t :
  local_auth_token_is_strong t = true → header_to_str (to_bytes ("Bearer " +:+ t)) = Some ("Bearer " +:+ t).
Proof.
  intros [_ Hc]%strong_token_chars. unfold header_to_str. rewrite of_to_bytes.
  assert (forallb (λ c, is_visible_ascii c || (code c =? 9)%N) (to_bytes ("Bearer " +:+ t)) = true) as ->; [|done].
  rewrite to_bytes_app, forallb_app. apply andb_true_iff. split; [done|].
  apply forallb_forall. intros c Hin. rewrite forallb_forall in Hc. specialize (Hc c Hin).
  apply token_char_code in Hc. unfold is_visible_ascii, in_range. lia.
Qed.

Lemma authorized_exactly t header :
  authorized (BearerToken t) header = true ↔
  ∃ value, header = Some (to_bytes value) ∧ header_to_str (to_bytes value) = Some value ∧
           parse_bearer_token value = Some t.
Proof.
  unfold authorized, bearer_token_matches. split.
  - destruct header as [raw|]; [|done]. destruct (header_to_str raw) as [value|] eqn:Eh; [|done].
    destruct (parse_bearer_token value) as [provided|] eqn:Ep; [|done].
    intros Hm%bool_decide_eq_true. apply (f_equal of_bytes) in Hm. rewrite !of_to_bytes in Hm. subst provided.
    assert (raw = to_bytes value) as ->.
    { unfold header_to_str in Eh. destruct (forallb _ _); [|done]. injection Eh as <-. by rewrite to_of_bytes. }
    by exists value.
  - intros (value & -> & -> & ->). by apply bool_decide_eq_true.
Qed.

Lemma resolve_local_auth_strong env loaded t :
  (∀ t, loaded = Ok t → is_session_token t = true) →
  resolve_local_auth env loaded = Ok (BearerToken t) → local_auth_token_is_strong t = true.
Proof.
  intros Hl. unfold resolve_local_auth. destruct (_ && _); [done|]. destruct (env_var_is_truthy _ _); [done|].
  destruct (env AUTH_TOKEN_ENV) as [raw|].
  - destruct (from_utf8 raw) as [token|]; [|done]. cbn [map_err].
    destruct (str_is_empty token); [done|]. destruct (_ || _); [done|]. destruct (has_whitespace token); [done|].
    destruct (negb (all_chars _ _)); [done|].
    destruct (local_auth_token_is_strong token) eqn:E; [|done]. intros [= <-]. done.
  - destruct loaded as [token|]; [|done]. intros [= <-]. by apply session_token_is_strong, Hl.
Qed.

(** C15: A daemon that has started asks for a token, or listens on a loopback
    address only; an address beyond the host is used only where the operator
    allowed it, and always with a token.  The token is one of the two strong
    forms, the header [Authorization: Bearer <token>] is let through, and without
    a header whose two words are the scheme and exactly that token no request
    is. *)
Theorem started_daemon_is_guarded (env : Env) (resolve : string → result Failure (list SocketAddr))
  (bind : SocketAddr → result Failure SocketAddr) (loaded : result Failure string)
  (auth : LocalAuthConfig) (addr : SocketAddr)
  (Hbind : ∀ a b, bind a = Ok b → sa_ip b = sa_ip a)
  (Hloaded : ∀ t, loaded = Ok t → is_session_token t = true)
  (Hboot : boot env resolve bind loaded = Ok (auth, addr)) :
  match auth with
  | AuthDisabled => is_loopback addr = true
  | BearerToken t =>
      (is_loopback addr = true ∨ unsafe_allow_non_loopback_listen env = true) ∧
      local_auth_token_is_strong t = true ∧
      authorized auth (Some (to_bytes ("Bearer " +:+ t))) = true ∧
      ∀ header, authorized auth header = true →
        ∃ value, header = Some (to_bytes value) ∧ parse_bearer_token value = Some t
  end.
Proof.
  unfold boot in Hboot. destruct (resolve_local_auth env loaded) as [a|] eqn:Ea; [|done].
  destruct (listen_addr env resolve) as [[want explicit]|]; [|done].
  destruct (validate_listen_addr env want explicit) as [[]|] eqn:Ev; [|done].
  destruct (validate_local_auth_binding a want); [|done]. destruct (bind want) as [got|] eqn:Eb; [|done].
  destruct (validate_local_auth_binding a got) as [[]|] eqn:Eg; [|done]. injection Hboot as -> ->.
  destruct auth as [t|].
  - pose proof (resolve_local_auth_strong env loaded t Hloaded Ea) as Ht. split_and!; [|done|..].
    + unfold validate_listen_addr in Ev. destruct (is_loopback want) eqn:El.
      * left. unfold is_loopback in *. by rewrite (Hbind _ _ Eb).
      * right. destruct (unsafe_allow_non_loopback_listen env); [done|]. by destruct explicit.
    + apply authorized_exactly. eexists. split_and!; [done|by apply strong_header_to_str|by apply bearer_header].
    + intros header (value & -> & _ & Hp)%authorized_exactly. by exists value.
  - unfold validate_local_auth_binding in Eg. by destruct (is_loopback addr).
Qed.

(** ** Two daemons *)

Module StartDemo.

Definition first_random : list N := map N.of_nat (seq 1 32).
Definition second_random : list N := map N.of_nat (seq 101 32).
Definition two : list Daemon := [fresh_daemon 1000 (Some first_random); fresh_daemon 1000 (Some second_random)].
Definition no_disk : Disk := {| dk_dir := None; dk_token := None |}.

(** Both look before either creates the file; the second creates it, and the
    first reads half a token before it reads it all. *)
Definition race : list (nat * Turn) :=
  [(0, Moves 1); (1, Moves 1); (0, Moves 1); (1, Moves 1); (1, Moves 1); (1, Moves 30); (0, Moves 1);
   (0, Moves 1); (0, Moves 64); (0, Moves 1); (0, Moves 1); (1, Moves 64); (0, Moves 1); (1, Moves 1);
   (0, Moves 64); (0, Moves 1); (0, Moves 1)].
Definition race_token : string := encode_session_token second_random.

Lemma two_fresh d :
  d ∈ two → dm_phase d = Preparing ∧ ∀ random, dm_random d = Some random → length random = 32.
Proof. intros [<-|[<-|[]]]%list_elem_of_In; by split; [|intros random [= <-]]. Qed.

Example daemons_agree_on_the_token_witness :
  race_token = race_token ∧ is_session_token race_token = true ∧
  ∃ f, (turns race (two, no_disk)).2
       = {| dk_dir := Some {| sd_uid := 1000; sd_mode := OWNER_DIR |}; dk_token := Some f |} ∧
       f = {| tf_kind := RegularFile; tf_uid := 1000; tf_mode := OWNER_FILE; tf_content := to_bytes race_token |}.
Proof.
  apply (daemons_agree_on_the_token two no_disk race 0 1
           (at_phase (fresh_daemon 1000 (Some first_random)) (Finished (Ok race_token)))
           (at_phase (fresh_daemon 1000 (Some second_random)) (Finished (Ok race_token))) race_token race_token two_fresh);
    vm_compute; reflexivity.
Defined.

Definition alone : list (nat * Turn) := repeat (0, Moves 1) (START_TURNS no_disk).
Example daemon_start_ends_witness :
  ∃ d r, (turns alone (two, no_disk)).1 !! 0 = Some d ∧ dm_phase d = Finished r.
Proof.
  apply (daemon_start_ends two no_disk alone 0 two_fresh); [simpl; lia|].
  apply Nat.leb_le. vm_compute. reflexivity.
Defined.

Definition open_env : Env := λ name,
  if str_eqb name UNSAFE_ALLOW_NON_LOOPBACK_LISTEN_ENV then Some (to_bytes " Yes ")
  else if str_eqb name LISTEN_ADDR_ENV then Some (to_bytes "0.0.0.0:8080") else None.
Definition any_address : SocketAddr := {| sa_ip := V4 (0, 0, 0, 0)%N; sa_port := 8080 |}.
Definition demo_resolve (raw : string) : result Failure (list SocketAddr) :=
  if str_eqb raw "0.0.0.0:8080" then Ok [any_address] else Ok [].
Definition demo_bind (a : SocketAddr) : result Failure SocketAddr := Ok a.

Example started_daemon_is_guarded_witness :
  (is_loopback any_address = true ∨ unsafe_allow_non_loopback_listen open_env = true) ∧
  local_auth_token_is_strong race_token = true ∧
  authorized (BearerToken race_token) (Some (to_bytes ("Bearer " +:+ race_token))) = true ∧
  ∀ header, authorized (BearerToken race_token) header = true →
    ∃ value, header = Some (to_bytes value) ∧ parse_bearer_token value = Some race_token.
Proof.
  apply (started_daemon_is_guarded open_env demo_resolve demo_bind (Ok race_token)
           (BearerToken race_token) any_address).
  - by intros a b [= ->].
  - intros t [= <-]. vm_compute. reflexivity.
  - vm_compute. reflexivity.
Defined.

(** The token given in the environment must have no blanks, even around it. *)
Example padded_token_is_refused :
  resolve_local_auth (λ name, if str_eqb name AUTH_TOKEN_ENV then Some (to_bytes (race_token +:+ " ")) else None)
    (Ok race_token)
  = Err (anyhow "{AUTH_TOKEN_ENV} must not have leading or trailing whitespace").
Proof. vm_compute. reflexivity. Qed.
End StartDemo.
