(* ===== verification/Transport.v ===== *)
(** * Transport: the HTTP interface of the daemon ([crates/ateliad/src/transport.rs])

    Routes, request bodies and their checks, the handler of every route, and the
    service that puts the middleware before them.  Request bodies are JSON: what
    [serde_json] makes of the bytes of one is a [Deserialize] instance per payload
    type.  A successful answer carries the typed response; the JSON text it is
    written as is not modelled. *)
From S2P Require Import Prelude Text Domain DomainLaws Policy StoreTypes Settings Truncation.
From S2P Require Import Spill StoreValidate StoreJobs Store StoreQuery StoreShell ShellLaws StoreGuarantees.
From S2P Require Import Backend Runtime RunJob Paths Manifest ManifestCheck Registry RegistryAudit RegistryOps.
From S2P Require Import Packages Tools ToolText Submission Service Repositories Rpc RpcPackages RpcServer LiveWatch LocalAuth.

(** ** Routes *)

Inductive Route :=
  | RouteHealth
  | RouteSubmitJob
  | RouteGetJob (job_id : string)
  | RouteListJobs
  | RouteListJobEvents (job_id : string)
  | RouteCancelJob (job_id : string)
  | RouteListRepositories
  | RouteRegisterRepository
  | RouteListRepertoire
  | RouteListEvents
  | RouteWatchEvents
  | RouteReplayEvents
  | RouteGetToolOutputDefaults
  | RouteUpdateToolOutputDefaults
  | RouteListToolOutputSettingsHistory
  | RouteInstallExtension
  | RouteValidateExtension
  | RouteUpdateExtension
  | RouteListExtensions
  | RouteListPackageTrustIndex
  | RoutePackageAuthoringFlow (extension_id : string)
  | RoutePackageRemix (extension_id : string)
  | RoutePackagePublication (extension_id : string)
  | RoutePackageRegistrySubmission (extension_id : string)
  | RoutePackageInspect (extension_id : string)
  | RouteExtensionExecution (extension_id : string)
  | RouteExtensionStatus (extension_id : string)
  | RouteRollbackExtension (extension_id : string)
  | RouteDisableExtension (extension_id : string)
  | RouteEnableExtension (extension_id : string)
  | RouteRemoveExtension (extension_id : string)
  | RouteApplyBlocklist
  | RouteListBlocklist
  | RouteListExtensionRegistryAuditRecords
  | RouteRenderToolOutput
  | RouteProjectStatus
  | RouteUnsupported.
#[export] Instance Route_eq_dec : EqDecision Route.
Proof. solve_decision. Defined.

(** [str::strip_suffix] *)
Definition str_rev (s : string) : string := of_bytes (rev (to_bytes s)).
Definition strip_suffix (suffix s : string) : option string :=
  option_map str_rev (strip_prefix (str_rev suffix) (str_rev s)).

Definition valid_path_id (id : string) : option string :=
  if str_is_empty id || contains_char slash id then None else Some id.
Definition valid_extension_id (extension_id : string) : option string := valid_path_id extension_id.

(** The actions of [/v1/packages/<id>/..] and the fixed paths. *)
Definition PACKAGE_ACTIONS : list (string * (string → Route)) :=
  [("/authoring-flow", RoutePackageAuthoringFlow); ("/remix", RoutePackageRemix);
   ("/publication", RoutePackagePublication); ("/registry-submission", RoutePackageRegistrySubmission);
   ("/status", RouteExtensionStatus); ("/inspect", RoutePackageInspect);
   ("/rollback", RouteRollbackExtension); ("/disable", RouteDisableExtension);
   ("/enable", RouteEnableExtension); ("/remove", RouteRemoveExtension);
   ("/execute", RouteExtensionExecution)]%string.
Definition FIXED_ROUTES : list (string * Route) :=
  [("/v1/health", RouteHealth); ("/v1/jobs/submit", RouteSubmitJob); ("/v1/jobs/list", RouteListJobs);
   ("/v1/repositories:list", RouteListRepositories);
   ("/v1/repositories:register", RouteRegisterRepository); ("/v1/repertoire:list", RouteListRepertoire);
   ("/v1/events/list", RouteListEvents); ("/v1/events/watch", RouteWatchEvents);
   ("/v1/events/replay", RouteReplayEvents);
   ("/v1/tool-output/settings/get", RouteGetToolOutputDefaults);
   ("/v1/tool-output/settings/update", RouteUpdateToolOutputDefaults);
   ("/v1/tool-output/settings/history:list", RouteListToolOutputSettingsHistory);
   ("/v1/packages/install", RouteInstallExtension); ("/v1/packages/validate", RouteValidateExtension);
   ("/v1/packages/update", RouteUpdateExtension); ("/v1/packages/list", RouteListExtensions);
   ("/v1/package-trust-index:list", RouteListPackageTrustIndex);
   ("/v1/packages/blocklist/apply", RouteApplyBlocklist);
   ("/v1/packages/blocklist/list", RouteListBlocklist);
   ("/v1/packages/audit:list", RouteListExtensionRegistryAuditRecords);
   ("/v1/tool-results:render", RouteRenderToolOutput);
   ("/v1/project-status:get", RouteProjectStatus)]%string.

Section Routes.
Context `{UuidLib}.

Definition valid_job_id (job_id : string) : option string :=
  if is_ok (try_from_string JobIdKind job_id) then Some job_id else None.

(** [path.strip_prefix(..).and_then(|path| path.strip_suffix(..)).and_then(valid)] *)
Definition id_in_path (prefix suffix : string) (valid : string → option string) (path : string)
  : option string :=
  match strip_prefix prefix path with
  | Some path => match strip_suffix suffix path with Some id => valid id | None => None end
  | None => None
  end.

(** The [if let] of the package actions, in their order. *)
Fixpoint package_route (actions : list (string * (string → Route))) (path : string) : option Route :=
  match actions with
  | [] => None
  | (suffix, route) :: actions =>
      match id_in_path "/v1/packages/" suffix valid_extension_id path with
      | Some extension_id => Some (route extension_id)
      | None => package_route actions path
      end
  end.

Definition route_for_path (path : string) : Route :=
  match id_in_path "/v1/jobs/" "/cancel" valid_job_id path with
  | Some job_id => RouteCancelJob job_id
  | None =>
  match id_in_path "/v1/jobs/" "/events" valid_job_id path with
  | Some job_id => RouteListJobEvents job_id
  | None =>
  match id_in_path "/v1/jobs/" "" valid_job_id path with
  | Some job_id => RouteGetJob job_id
  | None =>
  match package_route PACKAGE_ACTIONS path with
  | Some route => route
  | None => default RouteUnsupported (snd <$> find_bool (λ r, str_eqb r.1 path) FIXED_ROUTES)
  end end end end.
End Routes.

(** The paths [build_router] registers; [{*path}] matches one character or more. *)
Definition ROUTER_PATHS : list string :=
  ["/v1/health"; "/v1/jobs/submit"; "/v1/jobs/list"; "/v1/repositories:list"; "/v1/repositories:register";
   "/v1/repertoire:list"; "/v1/events/list"; "/v1/events/watch"; "/v1/events/replay";
   "/v1/tool-output/settings/get"; "/v1/tool-output/settings/update";
   "/v1/tool-output/settings/history:list"; "/v1/packages/install"; "/v1/packages/validate";
   "/v1/packages/update"; "/v1/packages/list"; "/v1/package-trust-index:list";
   "/v1/packages/blocklist/apply"; "/v1/packages/blocklist/list"; "/v1/tool-results:render";
   "/v1/project-status:get"]%string.
Definition under (prefix path : string) : bool :=
  match strip_prefix prefix path with Some rest => negb (str_is_empty rest) | None => false end.
Definition is_registered (path : string) : bool :=
  str_in path ROUTER_PATHS || under "/v1/jobs/" path || under "/v1/packages/" path.

(** ** Capabilities and tool arguments of a submission *)

Definition normalize_capability_name (capability : string) : string :=
  replace_chars (to_bytes "_-:/") dot (to_ascii_lowercase (trim capability)).

Definition PATH_OPERATIONS : list string :=
  ["filesystem.read"; "filesystem.list"; "filesystem.stat"; "filesystem.delete"; "filesystem.write";
   "filesystem.patch"; "filesystem.move"; "fs.read"; "fs.list"; "fs.stat"; "fs.delete"; "fs.write";
   "fs.patch"; "fs.move"; "filesystem.search"; "filesystem.diff"; "fs.search"; "fs.diff"].
Definition requests_filesystem_path_operation (capabilities : list string) : bool :=
  existsb (λ capability, str_in (normalize_capability_name capability) PATH_OPERATIONS) capabilities.
Definition CONCRETE_PATH_OPERATIONS : list string :=
  ["filesystem.read"; "fs.read"; "filesystem.delete"; "fs.delete"; "filesystem.diff"; "fs.diff";
   "filesystem.write"; "fs.write"; "filesystem.patch"; "fs.patch"; "filesystem.move"; "fs.move"].
Definition requests_filesystem_concrete_path_operation (capabilities : list string) : bool :=
  existsb (λ capability, str_in (normalize_capability_name capability) CONCRETE_PATH_OPERATIONS)
    capabilities.

Definition canonical_filesystem_capability (capability : string) : option string :=
  let normalized := normalize_capability_name capability in
  snd <$> find_bool (λ names, str_in normalized names.1)
    [(["filesystem.read"; "fs.read"], "filesystem.read"); (["filesystem.list"; "fs.list"], "filesystem.list");
     (["filesystem.stat"; "fs.stat"], "filesystem.stat"); (["filesystem.delete"; "fs.delete"], "filesystem.delete");
     (["filesystem.write"; "fs.write"], "filesystem.write"); (["filesystem.patch"; "fs.patch"], "filesystem.patch");
     (["filesystem.move"; "fs.move"], "filesystem.move"); (["filesystem.search"; "fs.search"], "filesystem.search");
     (["filesystem.diff"; "fs.diff"], "filesystem.diff")]%string.

Fixpoint push_filesystem_capabilities (normalized capabilities : list string) : list string :=
  match capabilities with
  | [] => normalized
  | capability :: capabilities =>
      push_filesystem_capabilities
        (match canonical_filesystem_capability capability with
         | Some canonical => if str_in canonical normalized then normalized else normalized ++ [canonical]
         | None => normalized
         end) capabilities
  end.
Definition requested_filesystem_capabilities (capabilities : list string) : list string :=
  push_filesystem_capabilities [] capabilities.

(** [value.as_deref().is_none_or(|value| value.trim().is_empty())] *)
Definition is_none_or_blank (value : option string) : bool :=
  match value with Some value => str_is_empty (trim value) | None => true end.

Definition validate_tool_args (capability : string) (args : SubmitJobToolArgs) : result Message unit :=
  if str_eqb capability "filesystem.search" then
    reject? is_some (sta_comparison_path args) || is_some (sta_max_bytes args)
            || is_some (sta_max_chars args) || is_some (sta_content args)
            || is_some (sta_destination_path args) || is_some (sta_allow_overwrite args)
            || is_some (sta_replacement_text args)
      with msg "search tool_args only supports pattern and max" in
    reject? is_none_or_blank (sta_pattern args)
      with msg "search requires non-empty pattern in tool_args" in Ok tt
  else if str_eqb capability "filesystem.write" then
    reject? is_some (sta_pattern args) || is_some (sta_max args) || is_some (sta_comparison_path args)
            || is_some (sta_replacement_text args) || is_some (sta_destination_path args)
            || is_some (sta_max_chars args)
      with msg "write tool_args only supports content, allow_overwrite, and max_bytes" in
    reject? is_none (sta_content args) with msg "write requires content in tool_args" in Ok tt
  else if str_eqb capability "filesystem.patch" then
    reject? is_some (sta_max args) || is_some (sta_comparison_path args) || is_some (sta_content args)
            || is_some (sta_allow_overwrite args) || is_some (sta_destination_path args)
            || is_some (sta_max_chars args)
      with msg "patch tool_args only supports pattern, replacement_text, and max_bytes" in
    reject? is_none_or_blank (sta_pattern args)
      with msg "patch requires non-empty pattern in tool_args" in
    reject? is_none (sta_replacement_text args)
      with msg "patch requires replacement_text in tool_args" in Ok tt
  else if str_eqb capability "filesystem.move" then
    reject? is_some (sta_pattern args) || is_some (sta_max args) || is_some (sta_content args)
            || is_some (sta_comparison_path args) || is_some (sta_replacement_text args)
            || is_some (sta_max_bytes args) || is_some (sta_max_chars args)
      with msg "move tool_args only supports destination_path and allow_overwrite" in
    reject? is_none_or_blank (sta_destination_path args)
      with msg "move requires non-empty destination_path in tool_args" in Ok tt
  else if str_eqb capability "filesystem.diff" then
    reject? is_some (sta_pattern args) || is_some (sta_max args) || is_some (sta_content args)
            || is_some (sta_destination_path args) || is_some (sta_allow_overwrite args)
            || is_some (sta_replacement_text args)
      with msg "diff tool_args only supports comparison_path, max_bytes, and max_chars" in
    reject? is_none_or_blank (sta_comparison_path args)
      with msg "diff requires non-empty comparison_path in tool_args" in Ok tt
  else Err (msg "tool_args are only supported for filesystem.search, filesystem.diff, filesystem.write, filesystem.patch, and filesystem.move").

Definition validate_submit_job_tool_args_for_capabilities (tool_args : option SubmitJobToolArgs)
  (requested_capabilities : list string) : result Message unit :=
  match head (requested_filesystem_capabilities requested_capabilities) with
  | None =>
      reject? is_some tool_args
        with msg "tool_args are only supported when a filesystem capability is requested" in Ok tt
  | Some capability =>
      match tool_args with
      | None =>
          reject? str_in capability ["filesystem.search"; "filesystem.diff"; "filesystem.write";
                                     "filesystem.patch"; "filesystem.move"]
            with Fmt "tool_args is required for {capability}" [AStr capability] in Ok tt
      | Some args => validate_tool_args capability args
      end
  end.

(** ** Payloads *)

Inductive ActorPayload :=
  | UserPayload (id : string) (display_name : option string)
  | AgentPayload (id : string) (display_name : option string)
  | ExtensionPayload (id : string)
  | SystemPayload (id : string).
Definition parse_actor_payload (payload : ActorPayload) : RpcActorDto :=
  match payload with
  | UserPayload id display_name => RpcUser id display_name
  | AgentPayload id display_name => RpcAgent id display_name
  | ExtensionPayload id => RpcExtension id
  | SystemPayload id => RpcSystem id
  end.
Definition parse_optional_rpc_actor (payload : option ActorPayload) : option RpcActorDto :=
  option_map parse_actor_payload payload.
Definition parse_optional_core_actor (payload : option ActorPayload) : RpcResult (option Actor) :=
  try_opt actor_of (option_map parse_actor_payload payload).
Definition package_http_request_source (request_source : option string) : option string :=
  or_else (opt_filter (λ value, negb (str_is_empty value)) (option_map trim request_source))
    (Some "secretary.http").

Definition package_id_from_path_and_payload (path_extension_id : string)
  (payload_package_id : option string) : result Message string :=
  match payload_package_id with
  | Some package_id =>
      if str_eqb package_id path_extension_id then Ok package_id
      else Err (Fmt "package_id {package_id} does not match path package id {path_extension_id}"
                  [AStr package_id; AStr path_extension_id])
  | None => Ok path_extension_id
  end.

(** *** Paths and repositories *)

Record PathScopePayload := {
  psp_kind : option string;
  psp_roots : option (list string);
  psp_include_patterns : option (list string);
  psp_exclude_patterns : option (list string)
}.
Definition parse_path_scope_kind (value : option string) : result Message RpcPathScopeKind :=
  match value with
  | None => Ok PkRepository
  | Some value =>
      let value := to_ascii_lowercase (trim value) in
      if str_is_empty value then Err (msg "path_scope.kind must not be empty")
      else if str_eqb value "repository" then Ok PkRepository
      else if str_in value ["explicit_paths"; "explicit"] then Ok PkExplicitPaths
      else if str_in value ["read_only"; "readonly"] then Ok PkReadOnly
      else if str_eqb value "unspecified" then Ok PkUnspecified
      else Err (Fmt "unknown path_scope.kind '{unknown}'" [AStr value])
  end.
Definition parse_path_scope_payload (payload : PathScopePayload) : result Message RpcPathScope :=
  let roots := default [] (psp_roots payload) in
  let include_patterns := default [] (psp_include_patterns payload) in
  let exclude_patterns := default [] (psp_exclude_patterns payload) in
  reject? is_none (psp_kind payload)
          && (negb (bool_decide (roots = [])) || negb (bool_decide (include_patterns = []))
              || negb (bool_decide (exclude_patterns = [])))
    with msg "path_scope.kind is required when roots or include/exclude patterns are provided" in
  let? kind := parse_path_scope_kind (psp_kind payload) in
  Ok {| rps_kind := kind; rps_roots := roots; rps_include_patterns := include_patterns;
        rps_exclude_patterns := exclude_patterns |}.

Record RegisterRepositoryRequestPayload := {
  rrp_display_name : string;
  rrp_root_path : string;
  rrp_allowed_scope : option PathScopePayload;
  rrp_requester : option ActorPayload
}.
Definition parse_register_repository_payload (payload : RegisterRepositoryRequestPayload)
  : result Message Rpc.RegisterRepositoryRequest :=
  let? allowed_scope := try_opt parse_path_scope_payload (rrp_allowed_scope payload) in
  Ok {| rr_display_name := rrp_display_name payload; rr_root_path := rrp_root_path payload;
        rr_allowed_scope := allowed_scope; rr_requester := parse_optional_rpc_actor (rrp_requester payload) |}.

Record ListRepositoriesRequestPayload := {
  lrq_trust_state : option string;
  lrq_page_size : option N;
  lrq_page_token : option string
}.
Definition parse_trust_state (value : option string) : result Message (option RpcRepositoryTrustState) :=
  match value with
  | None => Ok None
  | Some value =>
      if str_eqb value "trusted" then Ok (Some RtTrusted)
      else if str_in value ["readonly"; "read_only"] then Ok (Some RtReadOnly)
      else if str_eqb value "blocked" then Ok (Some RtBlocked)
      else Err (Fmt "unknown trust_state '{unknown}'" [AStr value])
  end.
Definition parse_list_repositories_payload (payload : ListRepositoriesRequestPayload)
  : result Message Rpc.ListRepositoriesRequest :=
  let? trust_state := parse_trust_state (lrq_trust_state payload) in
  Ok {| lr_trust_state := trust_state; lr_page_size := lrq_page_size payload;
        lr_page_token := lrq_page_token payload |}.
Inductive ListRepertoireRequestPayload := AnyRepertoire.
Record GetProjectStatusRequestPayload := { gpp_repository_id : string }.

(** *** Jobs *)

Record SubmitJobToolArgsPayload := {
  sap_pattern : option string;
  sap_max : option N;
  sap_content : option string;
  sap_destination_path : option string;
  sap_allow_overwrite : option bool;
  sap_replacement_text : option string;
  sap_comparison_path : option string;
  sap_max_bytes : option N;
  sap_max_chars : option N
}.
Record SubmitJobRequestPayload := {
  sjp_repository_id : string;
  sjp_requester : ActorPayload;
  sjp_kind : string;
  sjp_goal : option string;
  sjp_message : option string;
  sjp_model_route_key : option string;
  sjp_permission_mode_route_key : option string;
  sjp_path_scope : option PathScopePayload;
  sjp_requested_capabilities : option (list string);
  sjp_tool_args : option SubmitJobToolArgsPayload;
  sjp_idempotency_key : option string
}.
Definition tool_args_of_payload (payload : SubmitJobToolArgsPayload) : SubmitJobToolArgs := {|
  sta_pattern := sap_pattern payload; sta_max := sap_max payload; sta_content := sap_content payload;
  sta_comparison_path := sap_comparison_path payload; sta_max_bytes := sap_max_bytes payload;
  sta_destination_path := sap_destination_path payload;
  sta_allow_overwrite := sap_allow_overwrite payload;
  sta_replacement_text := sap_replacement_text payload; sta_max_chars := sap_max_chars payload |}.
Definition one_concrete_path : Message :=
  msg "filesystem operation requires path_scope.roots to contain exactly one concrete path".
(** [roots.len() != 1 || roots[0].trim().is_empty()], then the root itself *)
Definition single_root (path_scope : option RpcPathScope) : result Message string :=
  let? roots := ok_or (option_map rps_roots path_scope) one_concrete_path in
  match roots with
  | [root] => reject? str_is_empty (trim root) with one_concrete_path in Ok root
  | _ => Err one_concrete_path
  end.
Definition validate_submit_job_roots (path_scope : option RpcPathScope)
  (requested_capabilities : list string) : result Message unit :=
  if requests_filesystem_path_operation requested_capabilities then
    let? root := single_root path_scope in
    reject? requests_filesystem_concrete_path_operation requested_capabilities && str_eqb (trim root) "."
      with one_concrete_path in Ok tt
  else Ok tt.
Definition parse_submit_job_payload (payload : SubmitJobRequestPayload)
  : result Message Rpc.SubmitJobRequest :=
  let requested_capabilities := default [] (sjp_requested_capabilities payload) in
  let? path_scope := try_opt parse_path_scope_payload (sjp_path_scope payload) in
  let tool_args := option_map tool_args_of_payload (sjp_tool_args payload) in
  let? _ := validate_submit_job_roots path_scope requested_capabilities in
  let? _ := validate_submit_job_tool_args_for_capabilities tool_args requested_capabilities in
  Ok {| sj_repository_id := sjp_repository_id payload;
        sj_requester := parse_actor_payload (sjp_requester payload); sj_kind := sjp_kind payload;
        sj_goal := sjp_goal payload; sj_message := sjp_message payload;
        sj_model_route_key := sjp_model_route_key payload;
        sj_permission_mode_route_key := sjp_permission_mode_route_key payload;
        sj_path_scope := path_scope; sj_requested_capabilities := requested_capabilities;
        sj_tool_args := tool_args; sj_idempotency_key := sjp_idempotency_key payload |}.

Definition parse_job_status (value : option string) : result Message (option RpcJobStatus) :=
  match value with
  | None => Ok None
  | Some value =>
      let value := to_ascii_lowercase (trim value) in
      if str_in value [""; "unspecified"] then Ok None
      else if str_eqb value "queued" then Ok (Some RsQueued)
      else if str_eqb value "running" then Ok (Some RsRunning)
      else if str_eqb value "succeeded" then Ok (Some RsSucceeded)
      else if str_eqb value "failed" then Ok (Some RsFailed)
      else if str_eqb value "blocked" then Ok (Some RsBlocked)
      else if str_in value ["canceled"; "cancelled"] then Ok (Some RsCanceled)
      else Err (Fmt "unknown job status '{unknown}'" [AStr value])
  end.
Record ListJobsRequestPayload := {
  ljp_repository_id : option string;
  ljp_status : option string;
  ljp_requester : option ActorPayload;
  ljp_page_size : option N;
  ljp_page_token : option string
}.
Definition parse_list_jobs_payload (payload : ListJobsRequestPayload)
  : result Message Rpc.ListJobsRequest :=
  let? status := parse_job_status (ljp_status payload) in
  Ok {| lj_repository_id := ljp_repository_id payload; lj_status := status;
        lj_requester := option_map parse_actor_payload (ljp_requester payload);
        lj_page_size := ljp_page_size payload; lj_page_token := ljp_page_token payload |}.
Record CancelJobRequestPayload := { cjp_requester : ActorPayload; cjp_reason : string }.

(** *** Tool results and events *)

Definition parse_output_format (value : string) : result Message RpcOutputFormat :=
  let value := to_ascii_lowercase (trim value) in
  if str_eqb value "toon" then Ok RpcToon
  else if str_eqb value "json" then Ok RpcJson
  else if str_eqb value "text" then Ok RpcText
  else Err (Fmt "unknown render format '{unknown}'" [AStr value]).
Record ToolResultRefPayload := {
  trp_tool_result_id : string;
  trp_tool_invocation_id : string;
  trp_job_id : string;
  trp_repository_id : string;
  trp_content_type : string
}.
Record RenderToolOutputRequestPayload := { rtp_tool_result : ToolResultRefPayload; rtp_format : string }.
Definition parse_tool_result_ref_payload (payload : ToolResultRefPayload) : ToolResultRef := {|
  trr_tool_result_id := trp_tool_result_id payload;
  trr_tool_invocation_id := trp_tool_invocation_id payload; trr_job_id := trp_job_id payload;
  trr_repository_id := trp_repository_id payload; trr_content_type := trp_content_type payload |}.
Definition parse_render_tool_output_payload (payload : RenderToolOutputRequestPayload)
  : result Message RenderToolOutputRequest :=
  let? format := parse_output_format (rtp_format payload) in
  Ok {| rtr_tool_result := parse_tool_result_ref_payload (rtp_tool_result payload); rtr_format := format |}.

Inductive EventCursorPayload :=
  | BeginningPayload
  | AfterSequencePayload (sequence_number : N)
  | AfterEventIdPayload (event_id : string).
Definition parse_event_cursor_payload (payload : EventCursorPayload) : result Message EventCursorRequest :=
  Ok (match payload with
      | BeginningPayload => FromBeginning
      | AfterSequencePayload sequence_number => FromSequence sequence_number
      | AfterEventIdPayload event_id => FromEventId event_id
      end).
Definition parse_event_severity (value : option string) : result Message (option RpcEventSeverity) :=
  match value with
  | None => Ok None
  | Some value =>
      let normalized := to_ascii_lowercase (trim value) in
      if str_eqb normalized "debug" then Ok (Some RevDebug)
      else if str_eqb normalized "info" then Ok (Some RevInfo)
      else if str_in normalized ["warning"; "warn"] then Ok (Some RevWarning)
      else if str_eqb normalized "error" then Ok (Some RevError)
      else Err (Fmt "unknown min_severity '{value}'" [AStr value])
  end.
Record ListEventsRequestPayload := {
  lep_repository_id : option string;
  lep_cursor : option EventCursorPayload;
  lep_subject_ids : option (list string);
  lep_job_ids : option (list string);
  lep_min_severity : option string;
  lep_page_size : option N;
  lep_page_token : option string
}.
Definition parse_list_events_payload (payload : ListEventsRequestPayload)
  : result Message ListEventsRequest :=
  let? cursor := try_opt parse_event_cursor_payload (lep_cursor payload) in
  let? min_severity := parse_event_severity (lep_min_severity payload) in
  Ok {| le_repository_id := lep_repository_id payload; le_cursor := cursor;
        le_subject_ids := default [] (lep_subject_ids payload);
        le_job_ids := default [] (lep_job_ids payload); le_min_severity := min_severity;
        le_page_size := lep_page_size payload; le_page_token := lep_page_token payload |}.
Record ListJobEventsRequestPayload := {
  jep_repository_id : option string;
  jep_cursor : option EventCursorPayload;
  jep_min_severity : option string;
  jep_page_size : option N;
  jep_page_token : option string
}.
Definition parse_list_job_events_payload (job_id : string) (payload : ListJobEventsRequestPayload)
  : result Message ListEventsRequest :=
  let? cursor := try_opt parse_event_cursor_payload (jep_cursor payload) in
  let? min_severity := parse_event_severity (jep_min_severity payload) in
  Ok {| le_repository_id := jep_repository_id payload; le_cursor := cursor; le_subject_ids := [];
        le_job_ids := [job_id]; le_min_severity := min_severity; le_page_size := jep_page_size payload;
        le_page_token := jep_page_token payload |}.
Record ReplayEventsRequestPayload := {
  rep_repository_id : string;
  rep_cursor : option EventCursorPayload;
  rep_subject_ids : option (list string);
  rep_min_severity : option string;
  rep_limit : option N
}.
Definition parse_replay_events_payload (payload : ReplayEventsRequestPayload)
  : result Message WatchEventsRequest :=
  let? cursor := try_opt parse_event_cursor_payload (rep_cursor payload) in
  let? min_severity := parse_event_severity (rep_min_severity payload) in
  Ok {| we_repository_id := rep_repository_id payload; we_cursor := cursor;
        we_subject_ids := default [] (rep_subject_ids payload); we_min_severity := min_severity;
        we_limit := rep_limit payload |}.
Definition parse_watch_events_payload (payload : ReplayEventsRequestPayload)
  : result Message WatchEventsRequest := parse_replay_events_payload payload.

(** *** Settings *)

Record GetToolOutputDefaultsRequestPayload := { gdp_scope : ToolOutputSettingsScope }.
Record UpdateToolOutputDefaultsRequestPayload := {
  udp_scope : ToolOutputSettingsScope;
  udp_actor : Actor;
  udp_reason : string;
  udp_overrides : ToolOutputOverrides
}.
Record ListToolOutputSettingsHistoryRequestPayload := {
  lhp_scope : option ToolOutputSettingsScope;
  lhp_limit : option N;
  lhp_offset : option N;
  lhp_cursor : option string
}.
(** A project id always serialises to a string. *)
Definition core_tool_output_scope_to_rpc (scope : ToolOutputSettingsScope) : result Failure RpcToolOutputScope :=
  Ok {| rs_level :=
          match scope_level scope with
          | LvWorkspace => RlWorkspace
          | LvRepository repository_id => RlRepository (as_str repository_id)
          | LvProject project_id => RlProject project_id
          | LvSession session_id => RlSession session_id
          | LvAgentProfile agent_id => RlAgentProfile agent_id
          end;
        rs_tool_id := scope_tool_id scope |}.
Definition core_tool_output_overrides_to_rpc (overrides : ToolOutputOverrides) : RpcToolOutputOverrides := {|
  rov_format := option_map format_dto (ov_format overrides);
  rov_include_policy := ov_include_policy overrides;
  rov_include_diagnostics := ov_include_diagnostics overrides;
  rov_include_cost := ov_include_cost overrides;
  rov_max_inline_bytes := ov_max_inline_bytes overrides;
  rov_max_inline_lines := ov_max_inline_lines overrides;
  rov_verbosity := option_map verbosity_dto (ov_verbosity overrides);
  rov_granularity := option_map granularity_dto (ov_granularity overrides);
  rov_oversize_policy := option_map oversize_dto (ov_oversize_policy overrides) |}.

Definition rpc_output_format_to_core (format : RpcOutputFormat) : OutputFormat :=
  match format with RpcToon => Toon | RpcJson => Json | RpcText => Text end.
Definition rpc_tool_output_verbosity_to_core (verbosity : RpcToolOutputVerbosity) : ToolOutputVerbosity :=
  match verbosity with
  | RpcMinimal => Minimal | RpcNormal => NormalVerbosity | RpcExpanded => Expanded
  | RpcDebugVerbosity => DebugVerbosity
  end.
Definition rpc_tool_output_granularity_to_core (granularity : RpcToolOutputGranularity)
  : ToolOutputGranularity :=
  match granularity with RpcSummary => Summary | RpcKeyFields => KeyFields | RpcFull => Full end.
Definition rpc_oversize_policy_to_core (policy : RpcOversizeOutputPolicy) : OversizeOutputPolicy :=
  match policy with
  | RpcTruncateWithMetadata => TruncateWithMetadata | RpcSpillToArtifactRef => SpillToArtifactRef
  | RpcRejectOversize => RejectOversize
  end.
Definition rpc_render_options_to_core (o : RpcToolOutputRenderOptions) : RenderOptions := {|
  rend_format := rpc_output_format_to_core (rro_format o); rend_include_policy := rro_include_policy o;
  rend_include_diagnostics := rro_include_diagnostics o; rend_include_cost := rro_include_cost o |}.
Definition rpc_defaults_to_core (defaults : RpcToolOutputDefaults) : ToolOutputDefaults := {|
  def_render_options := rpc_render_options_to_core (rd_render_options defaults);
  def_max_inline_bytes := rd_max_inline_bytes defaults;
  def_max_inline_lines := rd_max_inline_lines defaults;
  def_verbosity := rpc_tool_output_verbosity_to_core (rd_verbosity defaults);
  def_granularity := rpc_tool_output_granularity_to_core (rd_granularity defaults);
  def_oversize_policy := rpc_oversize_policy_to_core (rd_oversize_policy defaults) |}.
Definition rpc_actor_to_core (actor : RpcActorDto) : Actor :=
  match actor with
  | RpcUser id display_name => User id display_name
  | RpcAgent id display_name => Agent id display_name
  | RpcExtension id => Extension id
  | RpcSystem id => System id
  end.

(** [serde_json::from_str::<RepositoryId>] of the text between two quotes *)
Class RepositoryIdJson := { repository_from_str : string → option RepositoryId }.

Section SettingsToCore.
Context `{ProjectIdLib} `{RepositoryIdJson}.

Definition rpc_tool_output_scope_to_core (scope : RpcToolOutputScope)
  : result Failure ToolOutputSettingsScope :=
  let? level :=
    match rs_level scope with
    | RlWorkspace => Ok LvWorkspace
    | RlRepository repository_id =>
        let? repository_id := ok_or (repository_from_str repository_id)
          (anyhow "invalid repository_id in tool output scope: {repository_id}") in
        Ok (LvRepository repository_id)
    | RlProject project_id =>
        let? project_id := ok_or (project_from_str project_id)
          (anyhow "invalid project_id in tool output scope: {project_id}") in
        Ok (LvProject project_id)
    | RlSession session_id => Ok (LvSession session_id)
    | RlAgentProfile agent_id => Ok (LvAgentProfile agent_id)
    end in
  Ok {| scope_level := level; scope_tool_id := rs_tool_id scope |}.
Definition rpc_change_to_core (change : RpcToolOutputSettingsChange)
  : result Failure ToolOutputSettingsChange :=
  let? scope := rpc_tool_output_scope_to_core (rch_scope change) in
  Ok {| chg_schema_version := rch_schema_version change; chg_actor := rpc_actor_to_core (rch_actor change);
        chg_scope := scope; chg_old_defaults := rpc_defaults_to_core (rch_old_defaults change);
        chg_new_defaults := rpc_defaults_to_core (rch_new_defaults change);
        chg_reason := rch_reason change; chg_changed_at := rch_changed_at_unix_ms change |}.
End SettingsToCore.

(** *** Packages *)

(** [InstallExtensionRequestPayload] and [UpdateExtensionRequestPayload] *)
Record ManifestRequestPayload := {
  mrp_manifest : ExtensionManifest;
  mrp_approve_local_unsigned : bool;
  mrp_allow_local_process_runtime : bool;
  mrp_approve_source_change : bool;
  mrp_requester : option ActorPayload;
  mrp_request_source : option string;
  mrp_reason : option string
}.
Record ValidateExtensionManifestRequest := {
  vem_manifest : ExtensionManifest;
  vem_approve_local_unsigned : bool;
  vem_allow_local_process_runtime : bool;
  vem_approve_source_change : bool
}.
Record ApplyBlocklistRequestPayload := {
  abp_entry : BlocklistEntry;
  abp_requester : option ActorPayload;
  abp_request_source : option string;
  abp_reason : option string
}.
Record PackageMutationAuditPayload := {
  pma_requester : option ActorPayload;
  pma_request_source : option string;
  pma_reason : option string
}.
Record ListPackageAuditRequestPayload := {
  lpa_limit : option N;
  lpa_offset : option N;
  lpa_cursor : option string
}.
Record PackageAuthoringFlowRequestPayload := {
  pfp_package_id : option string;
  pfp_include_private_steps : option bool
}.
Record PackageRemixRequestPayload := {
  prx_package_id : option string;
  prx_source_class : option PackageSourceClass;
  prx_source : option PackageGitHubSourceReference
}.
Record PackagePublicationRequestPayload := {
  ppp_package_id : option string;
  ppp_visibility : PackagePublicationVisibility;
  ppp_requires_registry_submission : bool;
  ppp_requester : option ActorPayload;
  ppp_request_source : option string;
  ppp_reason : option string
}.
Record PackageRegistrySubmissionRequestPayload := {
  psq_package_id : option string;
  psq_state : option PackageRegistrySubmissionState;
  psq_registry_identity : option string;
  psq_requester : option ActorPayload;
  psq_request_source : option string;
  psq_reason : option string
}.
Record ListExtensionsRequest := { ler_include_blocked : bool }.
Record ListPackageTrustIndexRequest := { lti_include_blocked : bool; lti_discovery_only : bool }.
Inductive ListBlocklistRequest := AnyBlocklist.
Inductive EmptyRequestPayload := NoFields.
(** Any JSON value. *)
Inductive JsonValue := SomeJson.

#[export] Instance PackageSourceClass_eq_dec : EqDecision PackageSourceClass.
Proof. solve_decision. Defined.

(** The checks of [dispatch_package_remix] on its payload. *)
Definition check_remix_source (payload : PackageRemixRequestPayload) : result Message unit :=
  reject? is_some (prx_source payload) && is_none (prx_source_class payload)
    with msg "source_class is required when source is provided" in
  reject? is_some (prx_source payload) && is_some (prx_source_class payload)
          && negb (bool_decide (prx_source_class payload = Some UserSelected))
    with msg "github source cannot be paired with a non-user-selected source_class" in
  reject? bool_decide (prx_source_class payload = Some UserSelected) && is_none (prx_source payload)
    with msg "github source is required when source_class is user-selected" in
  Ok tt.
(** The check of [dispatch_package_registry_submission] on the identity. *)
Definition check_registry_identity (registry_identity : option string) : result Message unit :=
  match registry_identity with
  | Some registry_identity =>
      let trimmed := trim registry_identity in
      reject? str_is_empty trimmed with msg "registry_identity must not be blank" in
      reject? negb (str_eqb trimmed registry_identity)
        with msg "registry_identity must not have leading or trailing whitespace" in
      Ok tt
  | None => Ok tt
  end.

(** ** Answers *)

Inductive StatusCode :=
  | OK | BAD_REQUEST | UNAUTHORIZED | NOT_FOUND | METHOD_NOT_ALLOWED | CONFLICT | GONE
  | PAYLOAD_TOO_LARGE | INTERNAL_SERVER_ERROR | NOT_IMPLEMENTED | GATEWAY_TIMEOUT.
#[export] Instance StatusCode_eq_dec : EqDecision StatusCode.
Proof. solve_decision. Defined.

Record ErrorBody := {
  eb_code : string;
  eb_reason : Reason;
  eb_recoverable : bool;
  eb_next_state : string
}.

#[local] Existing Instance registry_port.

Section Answers.
Context `{!SnapshotCodec}.

(** The response of each RPC method. *)
Inductive Data :=
  | HealthData (r : HealthResponse)
  | SubmitJobData (r : SubmitJobResponse)
  | JobData (r : Job)
  | JobsData (r : list Job * option string)
  | CancelJobData (r : Job * JobCancellation)
  | RepositoriesData (r : list Repository * option string)
  | RegisterRepositoryData (r : RegisterRepositoryResponse)
  | RepertoireData (r : list RepertoireEntry)
  | EventsData (r : list RpcEvent * option string)
  | ReplayEventsData (r : WatchEventsReplayResponse)
  | DefaultsData (scope : ToolOutputSettingsScope) (defaults : ToolOutputDefaults)
  | ChangeData (change : ToolOutputSettingsChange)
  | HistoryData (changes : list ToolOutputSettingsChange) (next_page_token : option string)
  | RenderData (r : RenderToolOutputResponse)
  | ProjectStatusData (r : GetProjectStatusResponse)
  | RecordData (r : RecordResponse)
  | ValidateData (r : ValidateExtensionManifestResponse)
  | ExtensionsData (r : list ExtensionStatusSnapshot)
  | TrustIndexData (r : list PackageTrustIndexEntry)
  | FlowData (r : PackageAuthoringFlow)
  | PublicationData (r : PackageAuthoringFlow * option string)
  | SubmissionData (r : PackageRegistrySubmissionResponse)
  | StatusData (r : RpcPackages.ExtensionStatusResponse)
  | InspectData (r : PackageInspectResponse)
  | ExecutionData (r : unit)
  | BlockData (r : BlocklistEntry * option string)
  | BlocklistData (r : list BlocklistEntry)
  | AuditRecordsData (r : AuditRecordsPage).

Inductive Method := GET | POST | OtherMethod (name : string).
#[export] Instance Method_eq_dec : EqDecision Method.
Proof. solve_decision. Defined.
Definition method_name (method : Method) : string :=
  match method with GET => "GET" | POST => "POST" | OtherMethod name => name end.

Inductive Answer :=
  | OkAnswer (data : Data)
  | ErrorAnswer (error : ErrorBody)
  | EventStream (response : WatchEventsLiveResponse) (request : WatchEventsRequest)
  | RecoveryAnswer (reason : Reason).
(** [rs_allow] is the [Allow] header, [rs_authenticate] says whether there is a
    [WWW-Authenticate] header. *)
Record Response := {
  rs_status : StatusCode;
  rs_allow : option Method;
  rs_authenticate : bool;
  rs_answer : Answer
}.
Definition ok_response (data : Data) : Response :=
  {| rs_status := OK; rs_allow := None; rs_authenticate := false; rs_answer := OkAnswer data |}.
Definition make_error_response (status : StatusCode) (code : string) (reason : Reason)
  (recoverable : bool) (next_state : string) : Response := {|
  rs_status := status; rs_allow := None; rs_authenticate := false;
  rs_answer := ErrorAnswer {| eb_code := code; eb_reason := reason; eb_recoverable := recoverable;
                              eb_next_state := next_state |} |}.
Definition unauthorized_response (reason : string) : Response :=
  let r := make_error_response UNAUTHORIZED "unauthorized" (Said (msg reason)) false
             "authentication_required" in
  {| rs_status := rs_status r; rs_allow := rs_allow r; rs_authenticate := true; rs_answer := rs_answer r |}.
Definition transport_error_response (next_state : string) (reason : Failure) : Response :=
  make_error_response INTERNAL_SERVER_ERROR "transport_error" (Said (fl_message reason)) false next_state.
Definition rpc_error_status (code : RpcErrorCode) : StatusCode * bool :=
  match code with
  | RcInvalidArgument => (BAD_REQUEST, false)
  | RcNotFound => (NOT_FOUND, false)
  | RcCursorExpired => (GONE, true)
  | RcConflict => (CONFLICT, true)
  | RcUnsupportedCapability => (NOT_IMPLEMENTED, true)
  | RcInternal => (INTERNAL_SERVER_ERROR, false)
  end.
Definition error_response (code : string) (next_state : string) (error : RpcError) : Response :=
  let '(status, recoverable) := rpc_error_status (re_code error) in
  make_error_response status code (re_reason error) recoverable next_state.
Definition rpc_error_response (next_state : string) (error : RpcError) : Response :=
  error_response "rpc_error" next_state error.
Definition watch_events_cursor_expired_response (reason : Reason) : Response :=
  {| rs_status := GONE; rs_allow := None; rs_authenticate := false; rs_answer := RecoveryAnswer reason |}.

(** ** Request bodies *)

(** [serde_json::from_slice] at a type *)
Class Deserialize (T : Type) := { from_slice : bytes → result string T }.

Definition MAX_REQUEST_BODY_BYTES : N := 1048576.
Inductive BodyParseError := TooLarge | InvalidJson (reason : string).
Definition body_error_response (e : BodyParseError) (next_state : string) : Response :=
  match e with
  | TooLarge =>
      make_error_response PAYLOAD_TOO_LARGE "request_too_large"
        (Said (msg "request body exceeded {MAX_REQUEST_BODY_BYTES} byte limit")) false next_state
  | InvalidJson reason =>
      make_error_response BAD_REQUEST "invalid_json" (Said (msg reason)) false next_state
  end.
(** The words have only ASCII letters, and no other letter becomes one of them in
    lower case. *)
Definition is_body_size_error (message : string) : bool :=
  let lower := to_bytes (to_ascii_lowercase message) in
  contains (to_bytes "too large") lower || contains (to_bytes "exceeded") lower
  || contains (to_bytes "limit") lower.

(** [body] is what [to_bytes(request.into_body(), MAX_REQUEST_BODY_BYTES + 1)]
    gives: the bytes of the body, or the text of an error. *)
Definition body_or_empty_json (T : Type) `{!Deserialize T} (body : result string bytes)
  : result BodyParseError T :=
  let? payload :=
    map_err (λ message, if is_body_size_error message then TooLarge
                        else InvalidJson ("invalid JSON: " +:+ message)) body in
  reject? (MAX_REQUEST_BODY_BYTES <? N.of_nat (length payload))%N with TooLarge in
  let raw := if bool_decide (payload = []) then to_bytes "{}" else payload in
  map_err (λ err, InvalidJson ("invalid JSON: " +:+ err)) (from_slice raw).
End Answers.

(** ** The handlers *)

Section Server.
Context `{UuidLib} `{Entropy} `{Renderer} `{ArtifactDefaults} `{ToolPort} `{SignatureCodec}.
Context `{ProjectIdLib} `{RepositoryIdJson} `{!SnapshotCodec}.
Context {F : Type} `{!ArtifactWriter string F}.
Context `{!Deserialize SubmitJobRequestPayload} `{!Deserialize ListJobsRequestPayload}.
Context `{!Deserialize CancelJobRequestPayload} `{!Deserialize ListRepositoriesRequestPayload}.
Context `{!Deserialize RegisterRepositoryRequestPayload} `{!Deserialize ListRepertoireRequestPayload}.
Context `{!Deserialize ListEventsRequestPayload} `{!Deserialize ListJobEventsRequestPayload}.
Context `{!Deserialize ReplayEventsRequestPayload} `{!Deserialize GetToolOutputDefaultsRequestPayload}.
Context `{!Deserialize UpdateToolOutputDefaultsRequestPayload}.
Context `{!Deserialize ListToolOutputSettingsHistoryRequestPayload}.
Context `{!Deserialize RenderToolOutputRequestPayload} `{!Deserialize GetProjectStatusRequestPayload}.
Context `{!Deserialize ManifestRequestPayload} `{!Deserialize ValidateExtensionManifestRequest}.
Context `{!Deserialize ListExtensionsRequest} `{!Deserialize ListPackageTrustIndexRequest}.
Context `{!Deserialize PackageAuthoringFlowRequestPayload} `{!Deserialize PackageRemixRequestPayload}.
Context `{!Deserialize PackagePublicationRequestPayload}.
Context `{!Deserialize PackageRegistrySubmissionRequestPayload} `{!Deserialize JsonValue}.
Context `{!Deserialize EmptyRequestPayload} `{!Deserialize PackageMutationAuditPayload}.
Context `{!Deserialize ApplyBlocklistRequestPayload} `{!Deserialize ListBlocklistRequest}.
Context `{!Deserialize ListPackageAuditRequestPayload}.

(** [SecretaryService]: its jobs and its packages share one store. *)
Record Server := {
  srv_service : ServiceState (S := SharedStore) (F := F);
  srv_registry : ExtensionRegistry;
  srv_registry_poisoned : bool;
  srv_run : DaemonRun
}.
Definition srv_store (s : Server) : InMemoryStore := sh_store (w_store (sv_world (srv_service s))).
Definition with_srv_service (s : Server) (v : ServiceState (S := SharedStore) (F := F)) : Server := {|
  srv_service := v; srv_registry := srv_registry s; srv_registry_poisoned := srv_registry_poisoned s;
  srv_run := srv_run s |}.
Definition with_srv_store (s : Server) (st : InMemoryStore) : Server :=
  let w := sv_world (srv_service s) in
  with_srv_service s (with_world (srv_service s)
    {| w_store := {| sh_store := st; sh_schedule := sh_schedule (w_store w) |}; w_files := w_files w;
       w_sources := w_sources w; w_executed := w_executed w |}).
Definition package_service (s : Server) : PackageService := {|
  pks_registry := srv_registry s; pks_poisoned := srv_registry_poisoned s; pks_store := srv_store s |}.
Definition with_packages (s : Server) (p : PackageService) : Server :=
  let s := with_srv_store s (pks_store p) in
  {| srv_service := srv_service s; srv_registry := pks_registry p; srv_registry_poisoned := pks_poisoned p;
     srv_run := srv_run s |}.

Definition HM (A : Type) : Type := Server → Server * A.
Definition on_service {A} (m : RM (S := SharedStore) (F := F) A) : HM (RpcResult A) := λ s,
  let '(v, r) := m (srv_service s) in (with_srv_service s v, r).
Definition on_packages {A} (m : PM A) : HM (RpcResult A) := λ s,
  let '(p, r) := m (package_service s) in (with_packages s p, r).

Definition rpc_next_state : HM string := λ s,
  let '(s, r) := on_service (rpc_health (srv_run s)) s in
  (s, match r with Ok health => hr_daemon_status health | Err _ => EmptyString end).

(** The early return of a handler. *)
Definition refuse (status : StatusCode) (code : string) (reason : Reason) : HM Response := λ s,
  let '(s, next_state) := rpc_next_state s in
  (s, make_error_response status code reason false next_state).
Definition with_body {T} `{!Deserialize T} (body : result string bytes) (k : T → HM Response)
  : HM Response :=
  match body_or_empty_json T body with
  | Ok payload => k payload
  | Err e => λ s, let '(s, next_state) := rpc_next_state s in (s, body_error_response e next_state)
  end.
Definition with_parsed {T} (parsed : result Message T) (k : T → HM Response) : HM Response :=
  match parsed with
  | Ok request => k request
  | Err reason => refuse BAD_REQUEST "invalid_argument" (Said reason)
  end.
(** The call of a method; [serialize] may fail, which is an error of the transport. *)
Definition calling_with {A} (code : RpcErrorCode → string) (m : HM (RpcResult A))
  (serialize : A → result Failure Data) : HM Response := λ s,
  let '(s, next_state) := rpc_next_state s in
  let '(s, r) := m s in
  (s, match r with
      | Ok a => match serialize a with
                | Ok data => ok_response data
                | Err e => transport_error_response next_state e
                end
      | Err e => error_response (code (re_code e)) next_state e
      end).
Definition calling {A} (m : HM (RpcResult A)) (serialize : A → Data) : HM Response :=
  calling_with (λ _, "rpc_error") m (λ a, Ok (serialize a)).
(** A value the handler computes once it has the server, or its error. *)
Definition needing {A E} (r : result E A) (respond : string → E → Response) (k : A → HM Response)
  : HM Response := λ s,
  match r with
  | Ok a => k a s
  | Err e => let '(s, next_state) := rpc_next_state s in (s, respond next_state e)
  end.

(** What the system gives while a request is served: the file system, the fault
    of a write of the registry, the id and the time of an audit record, and what
    other threads do while a watch opens. *)
Record Ambient := {
  am_fs : FileSystem;
  am_fault : option IoFault;
  am_audit_id : AuditRecordId;
  am_now : LedgerTimestamp;
  am_gap1 : Gap;
  am_gap2 : Gap;
  am_gaps : nat → Gap
}.
Context (am : Ambient).

Definition dispatch_health : HM Response := λ s,
  let '(s, r) := on_service (rpc_health (srv_run s)) s in
  (s, match r with Ok h => ok_response (HealthData h) | Err e => rpc_error_response EmptyString e end).
Definition dispatch_submit_job (body : result string bytes) : HM Response :=
  with_body (T := SubmitJobRequestPayload) body (λ payload,
  with_parsed (parse_submit_job_payload payload) (λ parsed,
  calling (on_service (rpc_submit_job (am_fs am) parsed)) SubmitJobData)).
Definition dispatch_get_job (job_id : string) : HM Response :=
  calling (on_service (rpc_get_job job_id)) JobData.
Definition dispatch_list_jobs (body : result string bytes) : HM Response :=
  with_body (T := ListJobsRequestPayload) body (λ payload,
  with_parsed (parse_list_jobs_payload payload) (λ parsed,
  calling (on_service (rpc_list_jobs parsed)) JobsData)).
Definition dispatch_cancel_job (job_id : string) (body : result string bytes) : HM Response :=
  with_body (T := CancelJobRequestPayload) body (λ payload,
  calling (on_service (rpc_cancel_job {| cj_job_id := job_id;
                                         cj_requester := parse_actor_payload (cjp_requester payload);
                                         cj_reason := cjp_reason payload |})) CancelJobData).
Definition dispatch_list_repositories (body : result string bytes) : HM Response :=
  with_body (T := ListRepositoriesRequestPayload) body (λ payload,
  with_parsed (parse_list_repositories_payload payload) (λ parsed,
  calling (on_service (rpc_list_repositories parsed)) RepositoriesData)).
Definition dispatch_register_repository (body : result string bytes) : HM Response :=
  with_body (T := RegisterRepositoryRequestPayload) body (λ payload,
  with_parsed (parse_register_repository_payload payload) (λ parsed,
  calling (on_service (rpc_register_repository (am_fs am) parsed)) RegisterRepositoryData)).
Definition dispatch_list_repertoire (body : result string bytes) : HM Response :=
  with_body (T := ListRepertoireRequestPayload) body (λ _,
  calling (on_service rpc_list_repertoire) RepertoireData).
Definition dispatch_list_events (body : result string bytes) : HM Response :=
  with_body (T := ListEventsRequestPayload) body (λ payload,
  with_parsed (parse_list_events_payload payload) (λ parsed,
  calling (on_service (rpc_list_events parsed)) EventsData)).
Definition dispatch_list_job_events (job_id : string) (body : result string bytes) : HM Response :=
  with_body (T := ListJobEventsRequestPayload) body (λ payload,
  with_parsed (parse_list_job_events_payload job_id payload) (λ parsed,
  calling (on_service (rpc_list_events parsed)) EventsData)).
Definition dispatch_replay_events (body : result string bytes) : HM Response :=
  with_body (T := ReplayEventsRequestPayload) body (λ payload,
  with_parsed (parse_replay_events_payload payload) (λ parsed,
  calling_with (λ code, if bool_decide (code = RcCursorExpired) then "cursor_expired" else "rpc_error")
    (on_service (rpc_watch_events parsed)) (λ r, Ok (ReplayEventsData r)))).
Definition dispatch_project_status (body : result string bytes) : HM Response :=
  with_body (T := GetProjectStatusRequestPayload) body (λ payload, λ s,
  calling (on_service (rpc_get_project_status (srv_run s) (gpp_repository_id payload))) ProjectStatusData s).
Definition dispatch_render_tool_output (body : result string bytes) : HM Response :=
  with_body (T := RenderToolOutputRequestPayload) body (λ payload,
  with_parsed (parse_render_tool_output_payload payload) (λ parsed,
  calling (on_service (rpc_render_tool_output parsed)) RenderData)).

(** *** Live events *)

(** [None] is the opening of the watch running out of fuel, which it never does. *)
Definition dispatch_watch_events (body : result string bytes) (s : Server) : option (Server * Response) :=
  match body_or_empty_json ReplayEventsRequestPayload body with
  | Err e => let '(s, next_state) := rpc_next_state s in Some (s, body_error_response e next_state)
  | Ok payload =>
      match parse_watch_events_payload payload with
      | Err reason => Some (refuse BAD_REQUEST "invalid_argument" (Said reason) s)
      | Ok parsed =>
          let '(s, next_state) := rpc_next_state s in
          match rpc_watch_events_live (am_gap1 am) (am_gap2 am) (am_gaps am) parsed (srv_store s) with
          | None => None
          | Some (st, r) =>
              Some (with_srv_store s st,
                match r with
                | Ok response =>
                    {| rs_status := OK; rs_allow := None; rs_authenticate := false;
                       rs_answer := EventStream response parsed |}
                | Err e =>
                    if bool_decide (re_code e = RcCursorExpired)
                    then watch_events_cursor_expired_response (re_reason e)
                    else rpc_error_response next_state e
                end)
          end
      end
  end.

(** *** Settings *)

Definition dispatch_get_tool_output_defaults (body : result string bytes) : HM Response :=
  with_body (T := GetToolOutputDefaultsRequestPayload) body (λ payload,
  needing (core_tool_output_scope_to_rpc (gdp_scope payload)) transport_error_response (λ scope,
  calling_with (λ _, "rpc_error") (on_service (rpc_get_tool_output_defaults scope)) (λ r,
    let? scope := rpc_tool_output_scope_to_core r.1 in
    Ok (DefaultsData scope (rpc_defaults_to_core r.2))))).
Definition dispatch_update_tool_output_defaults (body : result string bytes) : HM Response :=
  with_body (T := UpdateToolOutputDefaultsRequestPayload) body (λ payload,
  needing (core_tool_output_scope_to_rpc (udp_scope payload)) transport_error_response (λ scope,
  calling_with (λ _, "rpc_error")
    (on_service (rpc_update_tool_output_defaults {|
       utd_scope := scope; utd_overrides := core_tool_output_overrides_to_rpc (udp_overrides payload);
       utd_actor := actor_dto (udp_actor payload); utd_reason := udp_reason payload |}))
    (λ change, let? change := rpc_change_to_core change in Ok (ChangeData change)))).
Definition dispatch_list_tool_output_settings_history (body : result string bytes) : HM Response :=
  with_body (T := ListToolOutputSettingsHistoryRequestPayload) body (λ payload,
  needing (try_opt core_tool_output_scope_to_rpc (lhp_scope payload)) transport_error_response (λ scope,
  calling_with (λ _, "rpc_error")
    (on_service (rpc_list_tool_output_settings_history scope (lhp_limit payload) (lhp_offset payload)
                   (lhp_cursor payload)))
    (λ r, let? changes := try_map rpc_change_to_core r.1 in Ok (HistoryData changes r.2)))).

(** *** Packages *)

Definition origin_of (requester : option Actor) (request_source reason : option string) : RequestOrigin := {|
  ro_requester := requester; ro_request_source := package_http_request_source request_source;
  ro_reason := reason |}.
Definition dispatch_install_extension (body : result string bytes) : HM Response :=
  with_body (T := ManifestRequestPayload) body (λ payload,
  needing (parse_optional_core_actor (mrp_requester payload)) rpc_error_response (λ requester,
  calling (on_packages (rpc_install_extension
    (origin_of requester (mrp_request_source payload) (mrp_reason payload)) (mrp_manifest payload)
    (install_options_from (mrp_approve_local_unsigned payload) (mrp_allow_local_process_runtime payload)
       (mrp_approve_source_change payload))
    (am_fault am) (am_audit_id am) (am_now am))) RecordData)).
Definition dispatch_update_extension (body : result string bytes) : HM Response :=
  with_body (T := ManifestRequestPayload) body (λ payload,
  needing (parse_optional_core_actor (mrp_requester payload)) rpc_error_response (λ requester,
  calling (on_packages (rpc_update_extension
    (origin_of requester (mrp_request_source payload) (mrp_reason payload)) (mrp_manifest payload)
    (install_options_from (mrp_approve_local_unsigned payload) (mrp_allow_local_process_runtime payload)
       (mrp_approve_source_change payload))
    (am_fault am) (am_audit_id am) (am_now am))) RecordData)).
Definition dispatch_validate_extension (body : result string bytes) : HM Response :=
  with_body (T := ValidateExtensionManifestRequest) body (λ payload,
  calling (on_packages (rpc_validate_extension (vem_manifest payload)
    (install_options_from (vem_approve_local_unsigned payload) (vem_allow_local_process_runtime payload)
       (vem_approve_source_change payload)))) ValidateData).

Definition dispatch_mutation
  (method : RequestOrigin → string → option IoFault → AuditRecordId → LedgerTimestamp → PM RecordResponse)
  (extension_id : string) (body : result string bytes) : HM Response :=
  with_body (T := PackageMutationAuditPayload) body (λ payload,
  needing (parse_optional_core_actor (pma_requester payload)) rpc_error_response (λ requester,
  calling (on_packages (method (origin_of requester (pma_request_source payload) (pma_reason payload))
    extension_id (am_fault am) (am_audit_id am) (am_now am))) RecordData)).
Definition dispatch_rollback_extension := dispatch_mutation rpc_rollback_extension.
Definition dispatch_disable_extension := dispatch_mutation rpc_disable_extension.
Definition dispatch_enable_extension := dispatch_mutation rpc_enable_extension.
Definition dispatch_remove_extension := dispatch_mutation rpc_remove_extension.
Definition dispatch_apply_blocklist (body : result string bytes) : HM Response :=
  with_body (T := ApplyBlocklistRequestPayload) body (λ payload,
  needing (parse_optional_core_actor (abp_requester payload)) rpc_error_response (λ requester,
  calling (on_packages (rpc_apply_blocklist
    (origin_of requester (abp_request_source payload) (abp_reason payload)) (abp_entry payload)
    (am_fault am) (am_audit_id am) (am_now am))) BlockData)).

Definition dispatch_list_extensions (body : result string bytes) : HM Response :=
  with_body (T := ListExtensionsRequest) body (λ payload,
  calling (on_packages (rpc_list_extensions (ler_include_blocked payload))) ExtensionsData).
Definition dispatch_list_package_trust_index (body : result string bytes) : HM Response :=
  with_body (T := ListPackageTrustIndexRequest) body (λ payload,
  calling (on_packages (rpc_list_package_trust_index (lti_include_blocked payload)
                          (lti_discovery_only payload))) TrustIndexData).
Definition dispatch_list_blocklist (body : result string bytes) : HM Response :=
  with_body (T := ListBlocklistRequest) body (λ _,
  calling (on_packages rpc_list_blocklist) BlocklistData).
Definition dispatch_list_extension_registry_audit_records (body : result string bytes) : HM Response :=
  with_body (T := ListPackageAuditRequestPayload) body (λ payload,
  calling (on_packages (rpc_list_extension_registry_audit_records (lpa_limit payload)
                          (lpa_offset payload) (lpa_cursor payload))) AuditRecordsData).
Definition dispatch_extension_status (extension_id : string) (body : result string bytes) : HM Response :=
  with_body (T := JsonValue) body (λ _,
  calling (on_packages (rpc_extension_status extension_id)) StatusData).
Definition dispatch_package_inspect (extension_id : string) (body : result string bytes) : HM Response :=
  with_body (T := EmptyRequestPayload) body (λ _,
  calling (on_packages (rpc_package_inspect extension_id)) InspectData).
Definition dispatch_execute_extension (extension_id : string) : HM Response :=
  calling (on_packages (rpc_execute_extension extension_id)) ExecutionData.

Definition dispatch_package_authoring_flow (extension_id : string) (body : result string bytes)
  : HM Response :=
  with_body (T := PackageAuthoringFlowRequestPayload) body (λ payload,
  with_parsed (package_id_from_path_and_payload extension_id (pfp_package_id payload)) (λ package_id,
  calling (on_packages (package_authoring_flow package_id
                          (default false (pfp_include_private_steps payload)))) FlowData)).
Definition dispatch_package_remix (extension_id : string) (body : result string bytes) : HM Response :=
  with_body (T := PackageRemixRequestPayload) body (λ payload,
  with_parsed (package_id_from_path_and_payload extension_id (prx_package_id payload)) (λ package_id,
  with_parsed (check_remix_source payload) (λ _,
  calling (on_packages (remix_package package_id (default WorkspaceLocal (prx_source_class payload))
                          (prx_source payload))) FlowData))).
Definition dispatch_package_publication (extension_id : string) (body : result string bytes)
  : HM Response :=
  with_body (T := PackagePublicationRequestPayload) body (λ payload,
  with_parsed (package_id_from_path_and_payload extension_id (ppp_package_id payload)) (λ package_id,
  calling (on_packages (prepare_package_publication {|
      ppr_package_id := package_id; ppr_visibility := ppp_visibility payload;
      ppr_requires_registry_submission := ppp_requires_registry_submission payload;
      ppr_requester := parse_optional_rpc_actor (ppp_requester payload);
      ppr_request_source := package_http_request_source (ppp_request_source payload);
      ppr_reason := ppp_reason payload |} (am_fault am) (am_audit_id am) (am_now am))) PublicationData)).
Definition dispatch_package_registry_submission (extension_id : string) (body : result string bytes)
  : HM Response :=
  with_body (T := PackageRegistrySubmissionRequestPayload) body (λ payload,
  with_parsed (package_id_from_path_and_payload extension_id (psq_package_id payload)) (λ package_id,
  with_parsed (check_registry_identity (psq_registry_identity payload)) (λ _,
  calling (on_packages (submit_package_registry_submission {|
      prq_package_id := package_id; prq_state := default PrsSubmitted (psq_state payload);
      prq_registry_identity := psq_registry_identity payload;
      prq_requester := parse_optional_rpc_actor (psq_requester payload);
      prq_request_source := package_http_request_source (psq_request_source payload);
      prq_reason := psq_reason payload |} (am_fault am) (am_audit_id am) (am_now am))) SubmissionData))).

(** ** The service *)

(** [rq_body] is the body as [to_bytes] gives it; [rq_late] says that the time of
    the request is over before its body has arrived and the server is free. *)
Record Request := {
  rq_method : Method;
  rq_path : string;
  rq_authorization : option bytes;
  rq_body : result string bytes;
  rq_late : bool
}.

Definition allowed_method (route : Route) : Method :=
  match route with RouteHealth | RouteGetJob _ => GET | _ => POST end.
Definition method_not_allowed (method allowed : Method) (path : string) : HM Response := λ s,
  let '(s, r) := refuse METHOD_NOT_ALLOWED "method_not_allowed"
    (Said (Fmt "{} is not supported on {path}" [AStr (method_name method); AStr path])) s in
  (s, {| rs_status := rs_status r; rs_allow := Some allowed; rs_authenticate := rs_authenticate r;
         rs_answer := rs_answer r |}).
Definition unsupported_endpoint (path : string) : HM Response :=
  refuse NOT_FOUND "unsupported_endpoint" (Said (Fmt "{path} is not a supported endpoint" [AStr path])).

Definition dispatch_to (route : Route) (path : string) (body : result string bytes) (s : Server)
  : option (Server * Response) :=
  match route with
  | RouteHealth => Some (dispatch_health s)
  | RouteSubmitJob => Some (dispatch_submit_job body s)
  | RouteListJobs => Some (dispatch_list_jobs body s)
  | RouteGetJob job_id => Some (dispatch_get_job job_id s)
  | RouteListJobEvents job_id => Some (dispatch_list_job_events job_id body s)
  | RouteCancelJob job_id => Some (dispatch_cancel_job job_id body s)
  | RouteListRepositories => Some (dispatch_list_repositories body s)
  | RouteRegisterRepository => Some (dispatch_register_repository body s)
  | RouteListRepertoire => Some (dispatch_list_repertoire body s)
  | RouteListEvents => Some (dispatch_list_events body s)
  | RouteWatchEvents => dispatch_watch_events body s
  | RouteReplayEvents => Some (dispatch_replay_events body s)
  | RouteGetToolOutputDefaults => Some (dispatch_get_tool_output_defaults body s)
  | RouteUpdateToolOutputDefaults => Some (dispatch_update_tool_output_defaults body s)
  | RouteListToolOutputSettingsHistory => Some (dispatch_list_tool_output_settings_history body s)
  | RouteInstallExtension => Some (dispatch_install_extension body s)
  | RouteValidateExtension => Some (dispatch_validate_extension body s)
  | RouteUpdateExtension => Some (dispatch_update_extension body s)
  | RouteListExtensions => Some (dispatch_list_extensions body s)
  | RouteListPackageTrustIndex => Some (dispatch_list_package_trust_index body s)
  | RoutePackageAuthoringFlow id => Some (dispatch_package_authoring_flow id body s)
  | RoutePackageRemix id => Some (dispatch_package_remix id body s)
  | RoutePackagePublication id => Some (dispatch_package_publication id body s)
  | RoutePackageRegistrySubmission id => Some (dispatch_package_registry_submission id body s)
  | RouteExtensionExecution id => Some (dispatch_execute_extension id s)
  | RouteRenderToolOutput => Some (dispatch_render_tool_output body s)
  | RouteExtensionStatus id => Some (dispatch_extension_status id body s)
  | RoutePackageInspect id => Some (dispatch_package_inspect id body s)
  | RouteRollbackExtension id => Some (dispatch_rollback_extension id body s)
  | RouteDisableExtension id => Some (dispatch_disable_extension id body s)
  | RouteEnableExtension id => Some (dispatch_enable_extension id body s)
  | RouteRemoveExtension id => Some (dispatch_remove_extension id body s)
  | RouteApplyBlocklist => Some (dispatch_apply_blocklist body s)
  | RouteListBlocklist => Some (dispatch_list_blocklist body s)
  | RouteListExtensionRegistryAuditRecords => Some (dispatch_list_extension_registry_audit_records body s)
  | RouteProjectStatus => Some (dispatch_project_status body s)
  | RouteUnsupported => Some (unsupported_endpoint path s)
  end.

(** A handler waits only for its body and for the server, before it calls its
    method: a request that times out has not been carried out. *)
Definition with_request_timeout (late : bool) (path : string)
  (future : Server → option (Server * Response)) (s : Server) : option (Server * Response) :=
  if late then
    let '(s, next_state) := rpc_next_state s in
    Some (s, make_error_response GATEWAY_TIMEOUT "request_timeout"
               (Said (Fmt "request to {path} exceeded {request_timeout:?}" [AStr path])) true next_state)
  else future s.
Definition dispatch_route (request : Request) : Server → option (Server * Response) :=
  with_request_timeout (rq_late request) (rq_path request) (λ s,
    let route := route_for_path (rq_path request) in
    if bool_decide (route ≠ RouteUnsupported) && negb (bool_decide (rq_method request = allowed_method route))
    then Some (method_not_allowed (rq_method request) (allowed_method route) (rq_path request) s)
    else dispatch_to route (rq_path request) (rq_body request) s).
Definition fallback_route (request : Request) : Server → option (Server * Response) :=
  with_request_timeout (rq_late request) (rq_path request) (λ s,
    Some (unsupported_endpoint (rq_path request) s)).

(** [build_router], the middleware before the routes. *)
Definition router (request : Request) : Server → option (Server * Response) :=
  if is_registered (rq_path request) then dispatch_route request else fallback_route request.
Definition local_auth_middleware (auth : LocalAuthConfig) (request : Request)
  (next : Request → Server → option (Server * Response)) (s : Server) : option (Server * Response) :=
  if authorized auth (rq_authorization request) then next request s
  else Some (s, unauthorized_response "missing or invalid Authorization header").
Definition serve (auth : LocalAuthConfig) (request : Request) : Server → option (Server * Response) :=
  local_auth_middleware auth request router.
End Server.
