(* ===== verification/TransportLaws.v ===== *)
(** * TransportLaws: what the HTTP interface guarantees

    Routes and paths correspond; a request is carried out only with the token,
    on a path the daemon has, with the method of the route and a body within the
    limit; every request is answered; the checks on tool arguments agree with
    those of the service. *)
From S2P Require Import Prelude Text Domain DomainLaws Policy StoreTypes Settings SettingsLaws Truncation.
From S2P Require Import Spill StoreValidate StoreJobs Store StoreQuery StoreLoad Ledger StoreRefine StoreShell ShellLaws StoreGuarantees.
From S2P Require Import Backend Runtime RunJob Paths Manifest ManifestCheck Registry RegistryAudit RegistryOps.
From S2P Require Import PackageLaws RunSamples ServiceSamples.
From S2P Require Import Packages Tools ToolText Submission Service Repositories ScopeGuarantees ServiceGuarantees RequestLaws Rpc RpcPackages RpcServer LiveWatch LiveWatchLaws RpcLaws LocalAuth Transport.

(** ** Routes *)

(** [Uuid::parse_str] reads hexadecimal digits, hyphens, braces and [urn:uuid:]. *)
Class UuidText `{UuidLib} : Prop := {
  uuid_no_slash s : uuid_parse_str s = true → contains_char slash s = false
}.

(** The path of a route. *)
Definition path_of (r : Route) : string :=
  match r with
  | RouteHealth => "/v1/health"
  | RouteSubmitJob => "/v1/jobs/submit"
  | RouteGetJob job_id => "/v1/jobs/" +:+ job_id
  | RouteListJobs => "/v1/jobs/list"
  | RouteListJobEvents job_id => "/v1/jobs/" +:+ job_id +:+ "/events"
  | RouteCancelJob job_id => "/v1/jobs/" +:+ job_id +:+ "/cancel"
  | RouteListRepositories => "/v1/repositories:list"
  | RouteRegisterRepository => "/v1/repositories:register"
  | RouteListRepertoire => "/v1/repertoire:list"
  | RouteListEvents => "/v1/events/list"
  | RouteWatchEvents => "/v1/events/watch"
  | RouteReplayEvents => "/v1/events/replay"
  | RouteGetToolOutputDefaults => "/v1/tool-output/settings/get"
  | RouteUpdateToolOutputDefaults => "/v1/tool-output/settings/update"
  | RouteListToolOutputSettingsHistory => "/v1/tool-output/settings/history:list"
  | RouteInstallExtension => "/v1/packages/install"
  | RouteValidateExtension => "/v1/packages/validate"
  | RouteUpdateExtension => "/v1/packages/update"
  | RouteListExtensions => "/v1/packages/list"
  | RouteListPackageTrustIndex => "/v1/package-trust-index:list"
  | RoutePackageAuthoringFlow id => "/v1/packages/" +:+ id +:+ "/authoring-flow"
  | RoutePackageRemix id => "/v1/packages/" +:+ id +:+ "/remix"
  | RoutePackagePublication id => "/v1/packages/" +:+ id +:+ "/publication"
  | RoutePackageRegistrySubmission id => "/v1/packages/" +:+ id +:+ "/registry-submission"
  | RoutePackageInspect id => "/v1/packages/" +:+ id +:+ "/inspect"
  | RouteExtensionExecution id => "/v1/packages/" +:+ id +:+ "/execute"
  | RouteExtensionStatus id => "/v1/packages/" +:+ id +:+ "/status"
  | RouteRollbackExtension id => "/v1/packages/" +:+ id +:+ "/rollback"
  | RouteDisableExtension id => "/v1/packages/" +:+ id +:+ "/disable"
  | RouteEnableExtension id => "/v1/packages/" +:+ id +:+ "/enable"
  | RouteRemoveExtension id => "/v1/packages/" +:+ id +:+ "/remove"
  | RouteApplyBlocklist => "/v1/packages/blocklist/apply"
  | RouteListBlocklist => "/v1/packages/blocklist/list"
  | RouteListExtensionRegistryAuditRecords => "/v1/packages/audit:list"
  | RouteRenderToolOutput => "/v1/tool-results:render"
  | RouteProjectStatus => "/v1/project-status:get"
  | RouteUnsupported => ""
  end.

Lemma to_bytes_inj a b : to_bytes a = to_bytes b → a = b.
Proof. intros E. by rewrite <- (of_to_bytes a), E, of_to_bytes. Qed.
Lemma str_rev_rev s : str_rev (str_rev s) = s.
Proof. apply to_bytes_inj. unfold str_rev. by rewrite !to_of_bytes, rev_involutive. Qed.
Lemma str_rev_app a b : str_rev (a +:+ b) = str_rev b +:+ str_rev a.
Proof. apply to_bytes_inj. unfold str_rev. by rewrite !to_bytes_app, !to_of_bytes, ?to_bytes_app, rev_app_distr. Qed.
Lemma strip_suffix_app x suffix : strip_suffix suffix (x +:+ suffix) = Some x.
Proof. unfold strip_suffix. rewrite str_rev_app, strip_prefix_app. simpl. by rewrite str_rev_rev. Qed.
Lemma strip_suffix_Some suffix s x : strip_suffix suffix s = Some x → s = x +:+ suffix.
Proof.
  unfold strip_suffix. destruct (strip_prefix _ _) as [r|] eqn:E; [|done]. intros [= <-].
  apply strip_prefix_Some in E. apply (f_equal str_rev) in E. by rewrite str_rev_rev, str_rev_app, str_rev_rev in E.
Qed.
(** A path that ends in other letters. *)
Lemma strip_suffix_other s suffix suffix' :
  (∀ x, strip_prefix (str_rev suffix) (str_rev suffix' +:+ x) = None) →
  strip_suffix suffix (s +:+ suffix') = None.
Proof. intros E. unfold strip_suffix. by rewrite str_rev_app, E. Qed.

Lemma contains_char_app c a b : contains_char c (a +:+ b) = contains_char c a || contains_char c b.
Proof. unfold contains_char, any_char. by rewrite to_bytes_app, existsb_app. Qed.

Lemma str_app_nil s : s +:+ "" = s.
Proof. apply to_bytes_inj. by rewrite to_bytes_app, app_nil_r. Qed.

Lemma split_bytes_char c seps l cur :
  c ∉ seps → c ∈ l ∨ c ∈ cur → ∃ piece, piece ∈ split_bytes seps l cur ∧ c ∈ piece.
Proof.
  intros Hc. revert cur. induction l as [|x l IH]; intros cur [Hin|Hin]; cbn [split_bytes].
  - by apply elem_of_nil in Hin.
  - exists (rev cur). split; [by left|]. by rewrite list_elem_of_In, <- in_rev, <- list_elem_of_In.
  - case_bool_decide as Hx.
    + assert (c ∈ l) as Hl by (apply elem_of_cons in Hin as [->|]; done).
      destruct (IH [] (or_introl Hl)) as (piece & ? & ?). exists piece. split; [by right|done].
    + apply IH. apply elem_of_cons in Hin as [->|]; [right; by left|by left].
  - case_bool_decide as Hx; [|apply IH; right; by right].
    exists (rev cur). split; [by left|]. by rewrite list_elem_of_In, <- in_rev, <- list_elem_of_In.
Qed.

(** A package id has letters, digits, hyphens and dots. *)
Lemma reverse_dns_no_slash field id : require_reverse_dns_id field id = Ok tt → contains_char slash id = false.
Proof.
  unfold require_reverse_dns_id. rewrite reject_Ok, for_each_Ok. intros [_ Hall].
  destruct (contains_char slash id) eqn:E; [|done]. exfalso.
  unfold contains_char, any_char in E. apply existsb_exists in E as (c & Hin & Hc%bool_decide_eq_true). subst c.
  destruct (split_bytes_char slash [dot] (to_bytes id) []) as (piece & Hp & Hs).
  { by rewrite list_elem_of_In; intros [|[]]. } { left. by apply list_elem_of_In. }
  assert (of_bytes piece ∈ split_at [dot] id) as Hseg by (apply list_elem_of_In, in_map, list_elem_of_In, Hp).
  specialize (Hall _ Hseg). apply reject_Ok in Hall as [Hok%negb_false_iff _].
  unfold reverse_dns_segment in Hok. rewrite !andb_true_iff in Hok. destruct Hok as [[_ Hok] _].
  unfold all_chars in Hok. rewrite to_of_bytes, forallb_forall in Hok.
  apply list_elem_of_In in Hs. by specialize (Hok _ Hs).
Qed.

Lemma valid_path_id_Some id x : valid_path_id id = Some x → x = id.
Proof. unfold valid_path_id. destruct (_ || _); [done|]. by intros [= <-]. Qed.

Section Routes.
Context `{UuidText}.

Definition route_valid (r : Route) : Prop :=
  match r with
  | RouteGetJob i | RouteListJobEvents i | RouteCancelJob i => is_ok (try_from_string JobIdKind i) = true
  | RoutePackageAuthoringFlow i | RoutePackageRemix i | RoutePackagePublication i
  | RoutePackageRegistrySubmission i | RoutePackageInspect i | RouteExtensionExecution i
  | RouteExtensionStatus i | RouteRollbackExtension i | RouteDisableExtension i
  | RouteEnableExtension i | RouteRemoveExtension i => valid_path_id i = Some i
  | RouteUnsupported => False
  | _ => True
  end.

Lemma id_in_path_Some prefix suffix valid path i :
  (∀ x y, valid x = Some y → y = x) →
  id_in_path prefix suffix valid path = Some i → path = prefix +:+ i +:+ suffix ∧ valid i = Some i.
Proof.
  intros Hv. unfold id_in_path. destruct (strip_prefix prefix path) as [rest|] eqn:Ep; [|done].
  destruct (strip_suffix suffix rest) as [x|] eqn:Es; [|done]. intros Hi. pose proof (Hv _ _ Hi) as ->.
  apply strip_prefix_Some in Ep as ->. apply strip_suffix_Some in Es as ->. done.
Qed.
Lemma id_in_path_app prefix suffix valid i :
  valid i = Some i → id_in_path prefix suffix valid (prefix +:+ i +:+ suffix) = Some i.
Proof. intros Hi. unfold id_in_path. by rewrite strip_prefix_app, strip_suffix_app. Qed.
Lemma id_in_path_other prefix suffix suffix' valid i :
  (∀ x, strip_prefix (str_rev suffix) (str_rev suffix' +:+ x) = None) →
  id_in_path prefix suffix valid (prefix +:+ i +:+ suffix') = None.
Proof. intros E. unfold id_in_path. by rewrite strip_prefix_app, strip_suffix_other. Qed.

Lemma valid_job_id_Some i x : valid_job_id i = Some x → x = i.
Proof. unfold valid_job_id. by destruct (is_ok _); [intros [= <-]|]. Qed.
Lemma valid_job_id_ok i : is_ok (try_from_string JobIdKind i) = true ↔ valid_job_id i = Some i.
Proof. unfold valid_job_id. by destruct (is_ok _). Qed.
Lemma job_id_no_slash i : is_ok (try_from_string JobIdKind i) = true → contains_char slash i = false.
Proof.
  destruct (try_from_string JobIdKind i) as [x|] eqn:E; [|done]. intros _.
  apply try_from_string_Ok in E as (_ & u & -> & _ & Hu%uuid_no_slash).
  rewrite contains_char_app, Hu. by vm_compute.
Qed.
Lemma job_path_plain suffix valid i :
  is_ok (try_from_string JobIdKind i) = true → contains_char slash suffix = true →
  id_in_path "/v1/jobs/" suffix valid ("/v1/jobs/" +:+ i) = None.
Proof.
  intros Hi%job_id_no_slash Hs. unfold id_in_path. rewrite strip_prefix_app.
  destruct (strip_suffix suffix i) as [x|] eqn:E; [|done]. apply strip_suffix_Some in E as ->.
  rewrite contains_char_app, Hs, orb_true_r in Hi. done.
Qed.

Lemma package_route_Some actions path r :
  package_route actions path = Some r →
  ∃ suffix route i, In (suffix, route) actions ∧ r = route i ∧
    path = "/v1/packages/" +:+ i +:+ suffix ∧ valid_path_id i = Some i.
Proof.
  induction actions as [|[suffix route] actions IH]; [done|]. cbn [package_route].
  destruct (id_in_path _ _ _ _) as [i|] eqn:E.
  - intros [= <-]. apply id_in_path_Some in E as [-> Hi]; [|apply valid_path_id_Some].
    exists suffix, route, i. split_and!; [by left|done..].
  - intros (s & rt & i & Hin & Hr & Hp)%IH. exists s, rt, i. split; [by right|done].
Qed.

Lemma package_path_not_job suffix valid i s :
  id_in_path "/v1/jobs/" suffix valid ("/v1/packages/" +:+ i +:+ s) = None.
Proof. done. Qed.

(** The actions have different endings. *)
Ltac other_actions :=
  cbn [package_route PACKAGE_ACTIONS];
  repeat (rewrite (id_in_path_other "/v1/packages/"); [|by intros x; vm_compute]);
  rewrite id_in_path_app by done; reflexivity.

Lemma route_of_path r : route_valid r → route_for_path (path_of r) = r.
Proof.
  intros Hv. unfold route_for_path. destruct r; cbn [path_of]; try done;
    cbn [route_valid] in Hv; rewrite ?package_path_not_job; try other_actions.
  - rewrite !job_path_plain by done. rewrite <- (str_app_nil job_id) at 1.
    rewrite id_in_path_app by (by apply valid_job_id_ok). done.
  - rewrite (id_in_path_other "/v1/jobs/" "/cancel") by (by intros x; vm_compute).
    rewrite id_in_path_app by (by apply valid_job_id_ok). done.
  - rewrite id_in_path_app by (by apply valid_job_id_ok). done.
Qed.

Lemma path_of_route path r :
  route_for_path path = r → r ≠ RouteUnsupported → path = path_of r ∧ route_valid r.
Proof.
  unfold route_for_path. intros <- Hr.
  destruct (id_in_path "/v1/jobs/" "/cancel" valid_job_id path) as [i|] eqn:E1.
  { apply id_in_path_Some in E1 as [-> Hi%valid_job_id_ok]; [done|apply valid_job_id_Some]. }
  destruct (id_in_path "/v1/jobs/" "/events" valid_job_id path) as [i|] eqn:E2.
  { apply id_in_path_Some in E2 as [-> Hi%valid_job_id_ok]; [done|apply valid_job_id_Some]. }
  destruct (id_in_path "/v1/jobs/" "" valid_job_id path) as [i|] eqn:E3.
  { apply id_in_path_Some in E3 as [-> Hi%valid_job_id_ok]; [|apply valid_job_id_Some].
    simpl. by rewrite str_app_nil. }
  destruct (package_route PACKAGE_ACTIONS path) as [r|] eqn:E4.
  { apply package_route_Some in E4 as (suffix & route & i & Hin & -> & -> & Hi).
    repeat (destruct Hin as [[= <- <-]|Hin]; [done|]). destruct Hin. }
  destruct (find_bool _ FIXED_ROUTES) as [[p r]|] eqn:E5; [|done]. cbn in Hr |- *.
  apply find_some in E5 as [Hin Hp%bool_decide_eq_true]. simpl in Hp. subst p.
  repeat (destruct Hin as [[= <- <-]|Hin]; [done|]). destruct Hin.
Qed.

(** A path with a route is registered with the router, so the router sends every
    request where [route_for_path] says. *)
Lemma route_registered path : route_for_path path ≠ RouteUnsupported → is_registered path = true.
Proof.
  intros Hr. destruct (path_of_route path _ eq_refl Hr) as [Hp Hv].
  destruct (route_for_path path) as [| |i| |i|i| | | | | | | | | | | | | | |i|i|i|i|i|i|i|i|i|i|i| | | | | |];
    subst path; try done; unfold is_registered, under; cbn [path_of].
  all: try (rewrite strip_prefix_app, ?orb_true_iff; right; by destruct i).
  all: rewrite strip_prefix_app, !orb_true_iff; left; right; destruct i; try done.
Qed.

(** C32: Routes and paths correspond exactly: the path of every route leads to it,
    with the id in it, and a path leads to a route only when it is the path of
    that route and the id in it is one the route may have; so no id, however it
    is chosen, makes a request reach another handler.  Every such path is one
    the router passes on, and every package id the registry accepts is one a path
    may have. *)
Theorem routes_are_exact (path : string) (r : Route) (Hr : r ≠ RouteUnsupported) :
  (route_for_path path = r ↔ path = path_of r ∧ route_valid r) ∧
  (route_for_path path = r → is_registered path = true) ∧
  (∀ field id, require_reverse_dns_id field id = Ok tt → valid_path_id id = Some id).
Proof.
  split_and!.
  - split; [intros E; by apply path_of_route|]. intros [-> Hv]. by apply route_of_path.
  - intros <-. by apply route_registered.
  - intros field id Hid. unfold valid_path_id. rewrite (reverse_dns_no_slash field id Hid).
    by destruct (str_is_empty id) eqn:E; [destruct id|].
Qed.
End Routes.

(** ** Settings *)

(** A JSON string without escapes is read as itself. *)
Class RepositoryIdJsonLaws `{UuidLib} `{RepositoryIdJson} : Prop := {
  repository_json s i : try_from_string RepositoryIdKind s = Ok i → repository_from_str s = Some i
}.

Lemma format_round f : rpc_output_format_to_core (format_dto f) = f.
Proof. by destruct f. Qed.
Lemma defaults_round d : rpc_defaults_to_core (defaults_dto d) = d.
Proof.
  destruct d as [[f ? ? ?] ? ? v g o]. unfold rpc_defaults_to_core, rpc_render_options_to_core. simpl.
  by destruct f, v, g, o.
Qed.
Lemma actor_round a : rpc_actor_to_core (actor_dto a) = a.
Proof. by destruct a. Qed.
Lemma overrides_round o : parse_tool_output_overrides (core_tool_output_overrides_to_rpc o) = Ok o.
Proof. destruct o as [[[]|] ? ? ? ? ? [[]|] [[]|] [[]|]]; done. Qed.

Section SettingsScopes.
Context `{UuidLib} `{ProjectIdLib} `{!ProjectIdLaws} `{RepositoryIdJson} `{!RepositoryIdJsonLaws}.

Lemma scope_to_core request scope dto :
  parse_tool_output_scope request = Ok scope → scope_dto scope = Ok dto →
  rpc_tool_output_scope_to_core dto = Ok scope.
Proof.
  unfold parse_tool_output_scope. intros (level & Hl & (tool & _ & [= <-])%bind_Ok)%bind_Ok [= <-].
  assert (∀ t, scope_level (match t with Some t => for_tool {| scope_level := level; scope_tool_id := None |} t
                            | None => {| scope_level := level; scope_tool_id := None |} end) = level) as Hlv by (by intros []).
  unfold rpc_tool_output_scope_to_core. cbn [rs_level rs_tool_id]. rewrite Hlv.
  assert (match level with
          | LvRepository i => repository_from_str (as_str i) = Some i
          | LvProject p => project_from_str p = Some p
          | _ => True
          end) as Hok.
  { destruct (rs_level request); [by injection Hl as <-|..];
      apply bind_Ok in Hl as (x & Hx & [= <-]); try done.
    - apply repository_json. apply map_err_Ok in Hx. pose proof Hx as Hs. by apply try_from_string_Ok in Hs as [-> _].
    - unfold parse_project_id in Hx. apply reject_Ok in Hx as [_ Hx].
      destruct (project_from_str _) as [p|] eqn:Hf in Hx; [|done]. injection Hx as ->.
      by destruct (project_canonical _ _ Hf) as (_ & _ & ->). }
  by destruct level, tool; simpl; rewrite ?Hok.
Qed.
End SettingsScopes.

(** ** Requests *)

Lemma some_pair {A B} (p : A * B) : ∃ a b, Some p = Some (a, b).
Proof. destruct p. by eauto. Qed.

#[local] Existing Instance registry_port.

Section Server.
Context `{UuidLib} `{Entropy} `{Renderer} `{ArtifactDefaults} `{ToolPort} `{SignatureCodec}.
Context `{ProjectIdLib} `{RepositoryIdJson} `{!SnapshotCodec}.
Context {F : Type} `{!ArtifactWriter string F}.
Context `{!Deserialize SubmitJobRequestPayload} `{!Deserialize ListJobsRequestPayload}.
Context `{!Deserialize CancelJobRequestPayload} `{!Deserialize ListRepositoriesRequestPayload}.
Context `{!Deserialize RegisterRepositoryRequestPayload} `{!Deserialize ListRepertoireRequestPayload}.
Context `{!Deserialize ListEventsRequestPayload} `{!Deserialize ListJobEventsRequestPayload}.
Context `{!Deserialize ReplayEventsRequestPayload} `{!Deserialize GetToolOutputDefaultsRequestPayload}.
Context `{!Deserialize UpdateToolOutputDefaultsRequestPayload}.
Context `{!Deserialize ListToolOutputSettingsHistoryRequestPayload}.
Context `{!Deserialize RenderToolOutputRequestPayload} `{!Deserialize GetProjectStatusRequestPayload}.
Context `{!Deserialize ManifestRequestPayload} `{!Deserialize ValidateExtensionManifestRequest}.
Context `{!Deserialize ListExtensionsRequest} `{!Deserialize ListPackageTrustIndexRequest}.
Context `{!Deserialize PackageAuthoringFlowRequestPayload} `{!Deserialize PackageRemixRequestPayload}.
Context `{!Deserialize PackagePublicationRequestPayload}.
Context `{!Deserialize PackageRegistrySubmissionRequestPayload} `{!Deserialize JsonValue}.
Context `{!Deserialize EmptyRequestPayload} `{!Deserialize PackageMutationAuditPayload}.
Context `{!Deserialize ApplyBlocklistRequestPayload} `{!Deserialize ListBlocklistRequest}.
Context `{!Deserialize ListPackageAuditRequestPayload}.
Implicit Types s : Server (F := F).
Context (am : Ambient).

Definition reads_body (r : Route) : bool :=
  match r with RouteHealth | RouteGetJob _ | RouteExtensionExecution _ => false | _ => true end.
Definition body_within (body : result string bytes) : Prop :=
  ∃ b, body = Ok b ∧ (N.of_nat (length b) <= MAX_REQUEST_BODY_BYTES)%N.

Lemma body_or_empty_json_within T `{!Deserialize T} body p :
  body_or_empty_json T body = Ok p → body_within body.
Proof.
  unfold body_or_empty_json. destruct body as [b|e]; [|done]. cbn [map_err].
  destruct (N.ltb_spec MAX_REQUEST_BODY_BYTES (N.of_nat (length b))); [done|]. intros _. by exists b.
Qed.

(** The answer to a body the handler cannot read. *)
Definition refused s s' (r : Response) : Prop := s' = (rpc_next_state s).1 ∧ rs_status r ≠ OK.

Lemma body_error_refused e n : rs_status (body_error_response e n) ≠ OK.
Proof. by destruct e. Qed.
Lemma with_body_guard {T} `{!Deserialize T} body (k : T → HM Response) s s' r :
  with_body body k s = (s', r) → refused s s' r ∨ body_within body.
Proof.
  unfold with_body. destruct (body_or_empty_json T body) as [p|e] eqn:E.
  - intros _. right. by eapply body_or_empty_json_within.
  - unfold refused. destruct (rpc_next_state s) as [s1 n]. intros [= <- <-]. left.
    split; [done|apply body_error_refused].
Qed.

Lemma dispatch_to_guard route path body s s' r :
  dispatch_to am route path body s = Some (s', r) →
  refused s s' r ∨ (route ≠ RouteUnsupported ∧ (reads_body route = true → body_within body)).
Proof.
  destruct route; cbn [dispatch_to reads_body]; try (by intros; right; split);
    try (intros E; injection E as E; apply with_body_guard in E as [?|?]; [by left|by right]).
  - unfold dispatch_watch_events. destruct (body_or_empty_json _ body) as [p|e] eqn:E.
    + intros _. right. split; [done|]. intros _. exact (body_or_empty_json_within _ _ _ E).
    + unfold refused. destruct (rpc_next_state s) as [s1 n]. intros [= <- <-]. left.
      split; [done|apply body_error_refused].
  - unfold unsupported_endpoint, refuse, refused. destruct (rpc_next_state s) as [s1 n].
    intros [= <- <-]. by left.
Qed.

Lemma timeout_guard late path future s s' r :
  with_request_timeout late path future s = Some (s', r) →
  refused s s' r ∨ (late = false ∧ future s = Some (s', r)).
Proof.
  unfold with_request_timeout, refused. destruct late; [|by right].
  destruct (rpc_next_state s) as [s1 n]. intros [= <- <-]. by left.
Qed.

(** C13: A request is carried out only when it has the token of the daemon, is on
    a path the daemon has, uses the method of that route, comes in time, and has
    a body of at most 1 MiB where the route reads one.  Every other request is
    answered with an error and leaves the daemon as it was; without the token not
    even its status is read. *)
Theorem requests_are_guarded (auth : LocalAuthConfig) (request : Request) s s' (r : Response)
  (Hserve : serve am auth request s = Some (s', r)) :
  let route := route_for_path (rq_path request) in
  (authorized auth (rq_authorization request) = false ∧ s' = s ∧ rs_status r = UNAUTHORIZED) ∨
  refused s s' r ∨
  (authorized auth (rq_authorization request) = true ∧ rq_late request = false ∧
   route ≠ RouteUnsupported ∧ rq_method request = allowed_method route ∧
   (reads_body route = true → body_within (rq_body request))).
Proof.
  intros route. unfold serve, local_auth_middleware in Hserve.
  destruct (authorized auth (rq_authorization request)); [right|injection Hserve as <- <-; by left].
  unfold router in Hserve. destruct (is_registered (rq_path request)).
  - apply timeout_guard in Hserve as [|[Hlate Hd]]; [by left|]. cbv beta zeta in Hd. fold route in Hd.
    destruct (bool_decide (route ≠ RouteUnsupported) && negb (bool_decide (rq_method request = allowed_method route)))
      eqn:Em.
    + left. unfold method_not_allowed, refuse, refused in *. destruct (rpc_next_state s) as [s1 n].
      by injection Hd as <- <-.
    + apply dispatch_to_guard in Hd as [|[Hr Hb]]; [by left|]. right. split_and!; auto.
      rewrite bool_decide_eq_true_2 in Em by done. by apply negb_false_iff, bool_decide_eq_true in Em.
  - apply timeout_guard in Hserve as [|[_ Hd]]; [by left|]. left.
    unfold unsupported_endpoint, refuse, refused in *. destruct (rpc_next_state s) as [s1 n].
    by injection Hd as <- <-.
Qed.

Lemma next_state_wf s :
  store_wf (st_inner (srv_store s)) → store_wf (st_inner (srv_store (rpc_next_state s).1)).
Proof.
  intros Hwf. unfold rpc_next_state, on_service, rpc_health, service, health, read_store, runtime, call_read.
  cbn. destruct (interleave (w_store (sv_world (srv_service s)))) as [[st fault] schedule] eqn:E.
  apply interleave_steps in E. cbn. eapply store_steps_wf; [exact Hwf|].
  destruct (map_err _ _) as [repos|e]; exact E.
Qed.

(** C33: The daemon answers every request, whatever it is: opening a live watch,
    the one handler that loops, ends, because each turn of its loop passes over
    events that the store has retained. *)
Theorem every_request_is_answered (auth : LocalAuthConfig) (request : Request) s
  (Hwf : store_wf (st_inner (srv_store s))) :
  ∃ s' r, serve am auth request s = Some (s', r).
Proof.
  assert (∀ body, ∃ s' r, dispatch_watch_events am body s = Some (s', r)) as Hwatch.
  { intros body. unfold dispatch_watch_events. pose proof (next_state_wf s Hwf) as Hn.
    destruct (body_or_empty_json _ body) as [p|e]; [|destruct (rpc_next_state s); by eauto].
    destruct (parse_watch_events_payload p) as [parsed|]; [|destruct (refuse _ _ _ s); by eauto].
    destruct (rpc_next_state s) as [s1 n].
    destruct (live_watch_opens (am_gap1 am) (am_gap2 am) (am_gaps am) parsed (srv_store s1) Hn) as (st & r & ->).
    by eauto. }
  assert (∀ path body route, ∃ s' r, dispatch_to am route path body s = Some (s', r)) as Hdispatch.
  { intros path body route. destruct route; cbn [dispatch_to]; try apply Hwatch; apply some_pair. }
  unfold serve, local_auth_middleware, router, dispatch_route, fallback_route, with_request_timeout.
  destruct (authorized _ _); [|by eauto].
  destruct (is_registered _), (rq_late request); try (destruct (rpc_next_state s); by eauto); [|apply some_pair].
  cbv zeta. destruct (_ && _); [apply some_pair|apply Hdispatch].
Qed.

Context `{!ProjectIdLaws} `{!RepositoryIdJsonLaws}.

Lemma update_change_scope (actor : Actor) scope update reason (v v' : ServiceState (S := SharedStore) (F := F)) change :
  update_tool_output_defaults actor scope update reason v = (v', Ok change) → chg_scope change = scope.
Proof.
  unfold update_tool_output_defaults. destruct (lock_mutex _ _) as [settings|]; [|done].
  destruct (runtime timestamp_now v) as [v1 [now|]]; [|done].
  destruct (apply_update settings actor scope update reason now) as [[l c]|] eqn:E; [|done].
  intros [= _ <-]. apply apply_update_Ok in E as (before & x & x' & after & _ & Hx & _ & Hu & _).
  apply settings_apply_update_Ok in Hu. destruct Hu as (_ & _ & _ & _ & _ & _ & -> & _). done.
Qed.

(** An update of output settings over HTTP is the core's update.  For a body
    that decodes, with a scope and an actor that are accepted, the handler makes
    exactly one call of the service, with the actor, the overrides and the reason
    of the body; when the change is made the answer is a success that carries the
    core's own record of the change, and otherwise the error of the core: a change
    that was made is never reported as a failure. *)
Theorem http_update_is_the_core_update (body : result string bytes)
  (payload : UpdateToolOutputDefaultsRequestPayload) (dto : RpcToolOutputScope)
  (scope : ToolOutputSettingsScope) s
  (Hbody : body_or_empty_json UpdateToolOutputDefaultsRequestPayload body = Ok payload)
  (Hdto : core_tool_output_scope_to_rpc (udp_scope payload) = Ok dto)
  (Hscope : parse_tool_output_scope dto = Ok scope)
  (Hactor : actor_of (actor_dto (udp_actor payload)) = Ok (udp_actor payload)) :
  dispatch_update_tool_output_defaults body s =
  let '(s1, next_state) := rpc_next_state s in
  let '(v, result) := update_tool_output_defaults (udp_actor payload) scope (udp_overrides payload)
                        (udp_reason payload) (srv_service s1) in
  (with_srv_service s1 v, match result with
                          | Ok change => ok_response (ChangeData change)
                          | Err e => rpc_error_response next_state (rpc_error_of e)
                          end).
Proof.
  unfold dispatch_update_tool_output_defaults, with_body, needing. rewrite Hbody, Hdto.
  unfold calling_with. destruct (rpc_next_state s) as [s1 n].
  unfold on_service, rpc_update_tool_output_defaults, rlift, service, rret.
  cbn [utd_scope utd_overrides utd_actor utd_reason]. rewrite Hscope. cbn [scope_dto]. rewrite Hactor.
  rewrite overrides_round.
  destruct (update_tool_output_defaults _ _ _ _ (srv_service s1)) as [v [change|e]] eqn:E; [|done]. cbn [map_err].
  unfold rpc_change_to_core. cbn [rch_scope rch_schema_version rch_actor rch_old_defaults rch_new_defaults rch_reason rch_changed_at_unix_ms].
  rewrite (scope_to_core dto scope _ Hscope eq_refl). rewrite actor_round, !defaults_round.
  apply update_change_scope in E. by destruct change; simpl in *; subst.
Qed.
End Server.

(** ** Tool arguments *)

(** The capability the service resolves a name to, by its normalised form. *)
Lemma canonical_agrees n c :
  or_else (match classify n with Informational => Some "capability.discovery"%string | _ => None end)
    (if str_in n FS_CAPABILITIES then Some n
     else snd <$> find_bool (λ alias, str_eqb alias.1 n) FS_ALIASES) = Some c →
  snd <$> find_bool (λ names, str_in n names.1)
    [(["filesystem.read"; "fs.read"], "filesystem.read"); (["filesystem.list"; "fs.list"], "filesystem.list");
     (["filesystem.stat"; "fs.stat"], "filesystem.stat"); (["filesystem.delete"; "fs.delete"], "filesystem.delete");
     (["filesystem.write"; "fs.write"], "filesystem.write"); (["filesystem.patch"; "fs.patch"], "filesystem.patch");
     (["filesystem.move"; "fs.move"], "filesystem.move"); (["filesystem.search"; "fs.search"], "filesystem.search");
     (["filesystem.diff"; "fs.diff"], "filesystem.diff")]%string
  = if str_in c FS_CAPABILITIES then Some c else None.
Proof.
  intros Hc.
  assert (∀ l : list string, str_in n l = true → n ∈ l) as Hin.
  { intros l (x & Hx & E%bool_decide_eq_true)%existsb_exists. subst x. by apply list_elem_of_In. }
  destruct (classify n) eqn:Ecl; cbn [or_else] in Hc.
  1: { injection Hc as <-. unfold classify in Ecl.
       destruct (str_in n _) eqn:E in Ecl; [|by repeat (destruct (str_in n _) in Ecl; try done)].
       apply Hin, list_elem_of_In in E.
       repeat (destruct E as [<-|E]; [by vm_compute|]). destruct E. }
  all: destruct (str_in n FS_CAPABILITIES) eqn:E;
    [injection Hc as <-; apply Hin, list_elem_of_In in E;
     repeat (destruct E as [<-|E]; [by vm_compute|]); destruct E|].
  all: destruct (find_bool _ FS_ALIASES) as [[a b]|] eqn:Ef; [|done]; injection Hc as <-;
    apply find_some in Ef as [Ha Hn%bool_decide_eq_true]; cbn [fst snd] in *; subst a;
    repeat (destruct Ha as [[= <- <-]|Ha]; [by vm_compute|]); destruct Ha.
Qed.

Lemma normalize_name x : normalize_capability (trim x) = normalize_capability_name x.
Proof. unfold normalize_capability, normalize_capability_name. by rewrite trim_idempotent. Qed.

Lemma canonical_filesystem x c :
  canonicalize_submit_requested_capability (trim x) = Some c →
  canonical_filesystem_capability x = if str_in c FS_CAPABILITIES then Some c else None.
Proof.
  unfold canonicalize_submit_requested_capability, canonicalize_job_requested_capability, from_name,
    canonical_filesystem_capability. rewrite normalize_name. apply canonical_agrees.
Qed.

Lemma push_capabilities_named l acc acc' x :
  push_capabilities acc l = Ok acc' → x ∈ l →
  ∃ c, canonicalize_submit_requested_capability (trim x) = Some c.
Proof.
  revert acc. induction l as [|y l IH]; intros acc E Hx; [by apply elem_of_nil in Hx|]. simpl in E.
  destruct (push_capability acc y) as [acc1|] eqn:Ep; [|done].
  apply elem_of_cons in Hx as [->|Hx]; [|by eapply IH].
  unfold push_capability in Ep. destruct (str_is_empty _); [done|].
  destruct (canonicalize_submit_requested_capability (trim y)) as [c|]; [by exists c|done].
Qed.

Lemma push_filesystem_same l acc c :
  (∀ x, x ∈ l → canonical_filesystem_capability x = Some c) →
  head acc = Some c → c ∈ acc → push_filesystem_capabilities acc l = acc.
Proof.
  intros Hl Hh Hin. induction l as [|x l IH]; [done|]. simpl. rewrite (Hl x) by (by left).
  rewrite (proj2 (str_in_elem c acc)) by done. apply IH. intros y Hy. apply Hl. by right.
Qed.

(** When all names stand for one capability, the transport finds that one. *)
Lemma requested_filesystem l c :
  normalize_requested_capabilities l = Ok [c] →
  head (requested_filesystem_capabilities l) = if str_in c FS_CAPABILITIES then Some c else None.
Proof.
  intros E. destruct (normalize_spec _ _ E) as (_ & _ & Hin).
  assert (∀ x, x ∈ l → canonical_filesystem_capability x = if str_in c FS_CAPABILITIES then Some c else None) as Hl.
  { intros x Hx. unfold normalize_requested_capabilities in E.
    destruct (push_capabilities [] l) as [acc|] eqn:Ep; [|done].
    destruct (push_capabilities_named _ _ _ x Ep Hx) as [c' Hc']. apply canonical_filesystem.
    assert (c' ∈ [c]) as ->%list_elem_of_singleton by (apply Hin; left; by exists x). done. }
  destruct l as [|x l].
  - assert (asks [] c) as [(y & ?%elem_of_nil & _)|[_ ->]] by (apply Hin; by left); done.
  - unfold requested_filesystem_capabilities. cbn [push_filesystem_capabilities].
    rewrite (Hl x) by (by left). destruct (str_in c FS_CAPABILITIES) eqn:Ec.
    + cbn [str_in existsb app]. rewrite (push_filesystem_same l [c] c); [done| |done|by left].
      intros y Hy. apply Hl. by right.
    + assert (∀ acc, push_filesystem_capabilities acc l = acc) as ->; [|done]. intros acc.
      assert (∀ y, y ∈ l → canonical_filesystem_capability y = None) as Hl' by (intros y Hy; apply Hl; by right).
      clear -Hl'. induction l as [|y l IH]; [done|]. simpl. rewrite (Hl' y) by (by left).
      apply IH. intros z Hz. apply Hl'. by right.
Qed.

(** The numbers of a request are [u64]. *)
Definition args_u64 (args : SubmitJobToolArgs) : Prop :=
  ∀ n, sta_max args = Some n ∨ sta_max_bytes args = Some n ∨ sta_max_chars args = Some n → (n <= u64_max)%N.

Lemma to_usize_u64 reason v : (∀ n, v = Some n → (n <= u64_max)%N) → to_usize reason v = Ok v.
Proof.
  intros Hv. destruct v as [n|]; [|done]. simpl. specialize (Hv n eq_refl).
  by destruct (N.ltb_spec usize_max n) as [Hlt|]; [unfold usize_max in Hlt; lia|].
Qed.
Lemma required_text_blank v reason :
  is_none_or_blank v = false → ∃ text, v = Some text ∧ required_text v reason = Ok text.
Proof. destruct v as [text|]; [|done]. simpl. unfold required_text. simpl. intros ->. by eauto. Qed.
Lemma required_text_missing v reason :
  is_none_or_blank v = true → required_text v reason = Err (invalid (msg reason)).
Proof. destruct v as [text|]; [|done]. simpl. unfold required_text. simpl. by intros ->. Qed.

Ltac eval_eqb :=
  repeat match goal with
    | |- context [str_eqb ?a ?b] => let r := eval vm_compute in (str_eqb a b) in change (str_eqb a b) with r
    end.

Lemma validate_tool_args_agrees c args :
  c ∈ FS_CAPABILITIES → args_u64 args →
  is_ok (validate_tool_args c args) = is_ok (resolve_submit_job_tool_args (kind_of_capability c) (Some args)).
Proof.
  intros Hc Hu. apply list_elem_of_In in Hc.
  assert (∀ r, to_usize r (sta_max args) = Ok (sta_max args)) as E1 by (intros r; apply to_usize_u64; eauto).
  assert (∀ r, to_usize r (sta_max_bytes args) = Ok (sta_max_bytes args)) as E2 by (intros r; apply to_usize_u64; eauto).
  assert (∀ r, to_usize r (sta_max_chars args) = Ok (sta_max_chars args)) as E3 by (intros r; apply to_usize_u64; eauto).
  repeat (destruct Hc as [<-|Hc];
    [unfold validate_tool_args, kind_of_capability, resolve_submit_job_tool_args; eval_eqb; cbn [ok_or is_some];
     (reflexivity ||
      (unfold resolve_write_args, resolve_patch_args, resolve_move_args, resolve_search_args, resolve_diff_args;
       destruct (_ || _); [reflexivity|]))|]).
  - rewrite E2. by destruct (sta_content args).
  - destruct (is_none_or_blank (sta_pattern args)) eqn:Eb.
    + by rewrite (required_text_missing _ _ Eb).
    + destruct (required_text_blank _ "patch requires non-empty pattern in tool_args" Eb) as (t & _ & ->).
      rewrite E2. by destruct (sta_replacement_text args).
  - destruct (is_none_or_blank (sta_destination_path args)) eqn:Eb.
    + by rewrite (required_text_missing _ _ Eb).
    + by destruct (required_text_blank _ "move requires non-empty destination_path in tool_args" Eb) as (t & _ & ->).
  - destruct (is_none_or_blank (sta_pattern args)) eqn:Eb.
    + by rewrite (required_text_missing _ _ Eb).
    + destruct (required_text_blank _ "search requires non-empty pattern in tool_args" Eb) as (t & _ & ->). by rewrite E1.
  - destruct (is_none_or_blank (sta_comparison_path args)) eqn:Eb.
    + by rewrite (required_text_missing _ _ Eb).
    + destruct (required_text_blank _ "diff requires non-empty comparison_path in tool_args" Eb) as (t & _ & ->).
      by rewrite E2, E3.
  - destruct Hc.
Qed.

(** C34: The check of tool arguments that a submission meets at the HTTP interface
    agrees with the service's: for a request whose capabilities the service
    resolves to a tool, however they are spelled, repeated or abbreviated, the
    interface lets the arguments through exactly when the service accepts them
    for that tool. *)
Theorem http_tool_args_check_agrees (request : Submission.SubmitJobRequest) (resolved : list string)
  (kind : SubmitJobToolKind)
  (Hcaps : normalize_requested_capabilities (sub_requested_capabilities request) = Ok resolved)
  (Hkind : resolve_submit_job_tool_kind request resolved = Ok kind)
  (Hu64 : ∀ args, sub_tool_args request = Some args → args_u64 args) :
  is_ok (validate_submit_job_tool_args_for_capabilities (sub_tool_args request)
           (sub_requested_capabilities request))
  = is_ok (resolve_submit_job_tool_args kind (sub_tool_args request)).
Proof.
  destruct resolved as [|c [|c' l]]; [done| |done].
  unfold validate_submit_job_tool_args_for_capabilities. rewrite (requested_filesystem _ _ Hcaps).
  unfold resolve_submit_job_tool_kind in Hkind. destruct (str_in c FS_CAPABILITIES) eqn:Ec.
  - apply str_in_elem in Ec. assert (kind = kind_of_capability c) as ->.
    { apply list_elem_of_In in Ec. revert Hkind.
      repeat (destruct Ec as [<-|Ec]; [eval_eqb; repeat case_match; by intros [= <-]|]). destruct Ec. }
    destruct (sub_tool_args request) as [args|]; [by apply validate_tool_args_agrees; auto|].
    apply list_elem_of_In in Ec. repeat (destruct Ec as [<-|Ec]; [by vm_compute|]). destruct Ec.
  - destruct (str_eqb c "capability.discovery"); [|done]. injection Hkind as <-. simpl.
    by destruct (sub_tool_args request).
Qed.

(** ** On a daemon with one repository *)

Module HttpDemo.
Import RunDemo.
Definition demo_uuids : UuidLib := {|
  uuid_parse_str s := negb (str_is_empty s) && negb (contains_char slash s) |}.
#[local] Existing Instance demo_uuids.
#[local] Instance demo_uuid_text : UuidText.
Proof. split. simpl. intros s [_ Hs%negb_true_iff]%andb_true_iff. exact Hs. Defined.
#[local] Existing Instance counting.
#[local] Existing Instance local_artifacts.
#[local] Existing Instance no_artifacts.
#[local] Existing Instance total_renderer.
#[local] Existing Instance RpcDemo.one_project.
#[local] Existing Instance RpcDemo.one_project_laws.
#[local] Existing Instance PackageDemo.no_codec.
#[local] Instance no_tools : ToolPort := {| port_execute _ i _ src := (src, demo_result) |}.
#[local] Instance no_signatures : SignatureCodec := {| signature_to_string _ := "{}"%string |}.
#[local] Instance plain_ids : RepositoryIdJson := {|
  repository_from_str s := match try_from_string RepositoryIdKind s with Ok i => Some i | Err _ => None end |}.
#[local] Instance plain_ids_laws : RepositoryIdJsonLaws.
Proof. split. simpl. intros s i Hi. rewrite Hi. reflexivity. Defined.

Definition repository : string := as_str (repo_id demo_repository).
Definition one_repository : InMemoryStore := (run_op None (OpCreateRepository demo_repository) store_default).1.
Lemma one_repository_wf : store_wf (st_inner one_repository).
Proof.
  apply (store_steps_wf (st_inner store_default)); [exact inner_default_wf|].
  exact (run_op_steps None (OpCreateRepository demo_repository) store_default).
Qed.
Definition quieter : UpdateToolOutputDefaultsRequestPayload := {|
  udp_scope := workspace; udp_actor := User "u1" None; udp_reason := "less noise";
  udp_overrides := {| ov_format := None; ov_include_policy := None; ov_include_diagnostics := None;
                      ov_include_cost := None; ov_max_inline_bytes := None; ov_max_inline_lines := None;
                      ov_verbosity := Some Minimal; ov_granularity := None; ov_oversize_policy := None |} |}.
(** Bodies of two routes decode, those of the others do not. *)
#[local] Instance no_json T : Deserialize T | 10 := {| from_slice _ := Err "missing field"%string |}.
#[local] Instance watch_json : Deserialize ReplayEventsRequestPayload := {|
  from_slice _ := Ok {| rep_repository_id := repository; rep_cursor := Some BeginningPayload;
                        rep_subject_ids := None; rep_min_severity := Some " WARN "%string; rep_limit := None |} |}.
#[local] Instance update_json : Deserialize UpdateToolOutputDefaultsRequestPayload := {|
  from_slice _ := Ok quieter |}.

Definition empty_tree : FileSystem := {|
  fs_canonicalize _ := Err {| io_not_found := true; io_text := msg "no such file" |};
  fs_is_symlink _ := Err {| io_not_found := true; io_text := msg "no such file" |};
  fs_is_dir _ := false; fs_exists _ := false |}.
Definition calm : Ambient := {|
  am_fs := empty_tree; am_fault := None; am_audit_id := id_new AuditRecordIdKind "1"; am_now := 0;
  am_gap1 := []; am_gap2 := []; am_gaps _ := [] |}.
Definition demo_server : Server (F := unit) := {|
  srv_service := {|
    sv_world := {| w_store := {| sh_store := one_repository; sh_schedule := [] |}; w_files := tt;
                   w_sources := {| src_uuids := 0; src_clock := 0 |}; w_executed := [] |};
    sv_settings := mutex_new (service_new 0); sv_cache := mutex_new []; sv_locks := mutex_new ∅;
    sv_cancellation_requesters := ∅ |};
  srv_registry := in_memory; srv_registry_poisoned := false;
  srv_run := {| run_status := DmRunning; run_started_at := 0; run_durable := false |} |}.

Definition token : string := encode_session_token (repeat 171%N 32).
Definition request (method : Method) (path : string) : Request := {|
  rq_method := method; rq_path := path; rq_authorization := Some (to_bytes ("bearer " +:+ token));
  rq_body := Ok []; rq_late := false |}.

Lemma routes_are_exact_witness :
  route_for_path "/v1/packages/com.example.calendar/status" = RouteExtensionStatus "com.example.calendar" ∧
  is_registered "/v1/packages/com.example.calendar/status" = true.
Proof.
  destruct (routes_are_exact "/v1/packages/com.example.calendar/status"
              (RouteExtensionStatus "com.example.calendar") ltac:(discriminate)) as (Hiff & Hreg & _).
  assert (route_for_path "/v1/packages/com.example.calendar/status" = RouteExtensionStatus "com.example.calendar") as E
    by (apply Hiff; split; reflexivity).
  exact (conj E (Hreg E)).
Defined.

(** An authorised request that is carried out, and one with a wrong method. *)
Abbreviation served := (dispatch_health demo_server).
Lemma requests_are_guarded_witness :
  rs_status served.2 = OK ∧
  ((authorized (BearerToken token) (rq_authorization (request GET "/v1/health")) = false ∧
    served.1 = demo_server ∧ rs_status served.2 = UNAUTHORIZED) ∨
   refused demo_server served.1 served.2 ∨
   (authorized (BearerToken token) (rq_authorization (request GET "/v1/health")) = true ∧ false = false ∧
    route_for_path "/v1/health" ≠ RouteUnsupported ∧ GET = allowed_method (route_for_path "/v1/health") ∧
    (reads_body (route_for_path "/v1/health") = true → body_within (Ok [])))).
Proof.
  split; [vm_compute; reflexivity|].
  apply (requests_are_guarded calm (BearerToken token) (request GET "/v1/health") demo_server served.1 served.2).
  vm_compute. reflexivity.
Defined.

Lemma every_request_is_answered_witness :
  ∃ s' r, serve calm (BearerToken token) (request POST "/v1/events/watch") demo_server = Some (s', r).
Proof.
  apply (every_request_is_answered calm (BearerToken token) (request POST "/v1/events/watch") demo_server).
  exact one_repository_wf.
Defined.
(** It is the stream of an empty snapshot. *)
Example watch_is_streamed :
  match serve calm (BearerToken token) (request POST "/v1/events/watch") demo_server with
  | Some (_, {| rs_status := OK; rs_answer := EventStream response _ |}) => wl_events response = []
  | _ => False
  end.
Proof. vm_compute. reflexivity. Qed.

Lemma http_update_is_the_core_update_witness :
  dispatch_update_tool_output_defaults (Ok []) demo_server =
  let '(s1, next_state) := rpc_next_state demo_server in
  let '(v, result) := update_tool_output_defaults (User "u1" None) workspace (udp_overrides quieter)
                        "less noise" (srv_service s1) in
  (with_srv_service s1 v, match result with
                          | Ok change => ok_response (ChangeData change)
                          | Err e => rpc_error_response next_state (rpc_error_of e)
                          end).
Proof.
  apply (http_update_is_the_core_update (Ok []) quieter {| rs_level := RlWorkspace; rs_tool_id := None |}
           workspace demo_server); vm_compute; reflexivity.
Defined.

Definition search_args : SubmitJobToolArgs := {|
  sta_pattern := Some "todo"%string; sta_max := Some 5%N; sta_content := None; sta_comparison_path := None;
  sta_max_bytes := None; sta_destination_path := None; sta_allow_overwrite := None;
  sta_replacement_text := None; sta_max_chars := None |}.
Definition search_request : Submission.SubmitJobRequest := {|
  sub_requester := User "u1" None; sub_repository_id := id_new RepositoryIdKind "1"; sub_kind := JkRead;
  sub_goal := None; sub_message := None; sub_model_route_key := None; sub_permission_mode_route_key := None;
  sub_resource_scope := Some {| scope_kind := "repository"; scope_value := "." |};
  sub_requested_capabilities := [" FS_Search "; "filesystem/search"]%string;
  sub_tool_args := Some search_args; sub_idempotency_key := None |}.

Lemma http_tool_args_check_agrees_witness :
  is_ok (validate_submit_job_tool_args_for_capabilities (Some search_args)
           [" FS_Search "; "filesystem/search"]%string)
  = is_ok (resolve_submit_job_tool_args KindFsSearch (Some search_args)) ∧
  is_ok (resolve_submit_job_tool_args KindFsSearch (Some search_args)) = true.
Proof.
  split; [|vm_compute; reflexivity].
  apply (http_tool_args_check_agrees search_request ["filesystem.search"%string] KindFsSearch).
  - vm_compute. reflexivity.
  - vm_compute. reflexivity.
  - intros args [= <-] n [Hn|[Hn|Hn]]; simpl in Hn; try discriminate. injection Hn as <-. unfold u64_max. lia.
Defined.
End HttpDemo.
