(* ===== verification/ToolTextLaws.v ===== *)
(** * ToolTextLaws: the text algorithms of the file tools *)
From S2P Require Import Prelude Text Domain StoreTypes Settings Truncation TruncationLaws Spill.
From S2P Require Import Runtime ToolOutput ToonLaws RenderLaws Paths ScopeGuarantees.
From S2P Require Import ToolText.

(** * Replacements, diffs and cuts are exact *)

(** ** Exact-match replacement *)

Lemma starts_with_bytes_spec needle l : starts_with_bytes needle l = true ↔ ∃ q, l = needle ++ q.
Proof. apply list_prefixb_spec. Qed.
Lemma starts_with_app needle q : starts_with_bytes needle (needle ++ q) = true.
Proof. apply starts_with_bytes_spec. eauto. Qed.

Lemma count_from_split needle p q :
  needle ≠ [] → 0 < count_from needle (p ++ needle ++ q).
Proof.
  intros Hne. induction p as [|c p IH]; simpl.
  - destruct needle as [|c needle]; [done|]. simpl.
    change (c :: needle ++ q) with ((c :: needle) ++ q). rewrite starts_with_app. lia.
  - lia.
Qed.

Lemma count_from_zero needle l : count_from needle l = 0 → needle ≠ [] → ∀ p q, l ≠ p ++ needle ++ q.
Proof. intros Hz Hne p q ->. pose proof (count_from_split needle p q Hne). lia. Qed.

(** One occurrence: where it is, and that there is no other. *)
Lemma count_from_one needle l :
  needle ≠ [] → count_from needle l = 1 →
  ∃ p q, l = p ++ needle ++ q ∧ (∀ r, replace_first needle r l = p ++ r ++ q) ∧
    ∀ p' q', l = p' ++ needle ++ q' → p' = p ∧ q' = q.
Proof.
  intros Hne. induction l as [|c l IH]; [done|]. cbn [count_from].
  destruct (starts_with_bytes needle (c :: l)) eqn:Hs; intros Hc.
  - pose proof Hs as [q E]%starts_with_bytes_spec. exists [], q. split; [done|]. split.
    { intros r. cbn [replace_first]. rewrite Hs, E, drop_app_length. done. }
    intros p' q' E'. destruct p' as [|c' p']; simpl in E'.
    + rewrite E in E'. by apply app_inv_head in E' as <-.
    + injection E' as -> E'. exfalso. apply (count_from_zero needle l ltac:(lia) Hne p' q' E').
  - destruct (IH Hc) as (p & q & E & Hr & Hu). exists (c :: p), q. split; [by rewrite E|]. split.
    + intros r. cbn [replace_first]. by rewrite Hs, Hr.
    + intros p' q' E'. destruct p' as [|c' p']; simpl in E'.
      * rewrite E', starts_with_app in Hs. done.
      * injection E' as -> E'. by destruct (Hu p' q' E') as [-> ->].
Qed.

Lemma count_overlapping_one l needle :
  needle ≠ [] → count_overlapping_matches l needle = 1 → count_from needle l = 1.
Proof.
  intros Hne. unfold count_overlapping_matches. rewrite bool_decide_eq_false_2 by done. by case_match.
Qed.
Lemma count_overlapping_from l needle :
  needle ≠ [] → count_overlapping_matches l needle = count_from needle l.
Proof.
  intros Hne. unfold count_overlapping_matches. rewrite bool_decide_eq_false_2 by done.
  destruct (Nat.ltb_spec (length l) (length needle)) as [Hlt|]; [|done].
  induction l as [|c l IH]; [done|]. simpl in *. rewrite <- IH by lia.
  destruct (starts_with_bytes needle (c :: l)) eqn:Hs; [|done].
  apply starts_with_bytes_spec in Hs as [q E]. apply (f_equal length) in E.
  rewrite length_app in E. simpl in E. lia.
Qed.

(** ** Lines *)

Definition no_lf (l : bytes) : Prop := line_feed ∉ l.

Lemma is_lf_spec c : is_lf c = true ↔ c = line_feed.
Proof. apply bool_decide_eq_true. Qed.

Lemma split_inclusive_pieces l cur :
  no_lf cur → Forall (λ piece, ∃ body, no_lf body ∧ (piece = body ∨ piece = body ++ [line_feed]))
    (split_inclusive l cur).
Proof.
  unfold no_lf. revert cur. induction l as [|c l IH]; intros cur Hcur; simpl.
  - case_bool_decide; [constructor|]. repeat constructor. exists (rev cur).
    split; [|by left]. by rewrite list_elem_of_In, <- in_rev, <- list_elem_of_In.
  - destruct (is_lf c) eqn:E.
    + apply is_lf_spec in E as ->. constructor; [|apply IH; apply not_elem_of_nil].
      exists (rev cur). split; [|by right]. by rewrite list_elem_of_In, <- in_rev, <- list_elem_of_In.
    + apply IH. rewrite not_elem_of_cons. split; [|done]. intros <-.
      by rewrite (proj2 (is_lf_spec line_feed) eq_refl) in E.
Qed.

Lemma strip_last_app c l : strip_last c (l ++ [c]) = Some l.
Proof. unfold strip_last. rewrite last_snoc, bool_decide_eq_true_2 by done. by rewrite removelast_last. Qed.
Lemma strip_last_Some c l l' : strip_last c l = Some l' → l = l' ++ [c].
Proof.
  unfold strip_last. case_bool_decide as Hl; [|done]. intros [= <-].
  destruct l as [|x l] using rev_ind; [done|]. rewrite last_snoc in Hl. injection Hl as ->.
  by rewrite removelast_last.
Qed.
Lemma strip_last_None c l : c ∉ l → strip_last c l = None.
Proof.
  intros Hc. unfold strip_last. rewrite bool_decide_eq_false_2; [done|]. intros Hl. apply Hc.
  destruct l as [|x l] using rev_ind; [done|]. rewrite last_snoc in Hl. injection Hl as ->.
  set_solver.
Qed.

Lemma line_of_no_lf piece body :
  no_lf body → piece = body ∨ piece = body ++ [line_feed] → no_lf (line_of piece).1.
Proof.
  intros Hb [-> | ->]; unfold line_of.
  - by rewrite strip_last_None.
  - rewrite strip_last_app. destruct (strip_last carriage_return body) as [l|] eqn:E; [|done].
    apply strip_last_Some in E as ->. unfold no_lf in *. simpl. set_solver.
Qed.

Lemma lines_no_lf l : Forall no_lf (lines l).
Proof.
  unfold lines. apply Forall_map. eapply Forall_impl.
  - apply split_inclusive_pieces. apply not_elem_of_nil.
  - intros piece (body & Hb & Hp). by eapply line_of_no_lf.
Qed.

(** ** Diffs *)

(** Reading a diff back: the marked lines of its body. *)
Definition marked (l : list (ascii * bytes)) : bytes := concat (map (λ ml, diff_line ml.1 ml.2) l).
Fixpoint diff_marks (ls rs : list bytes) : list (ascii * bytes) :=
  match ls, rs with
  | x :: ls, y :: rs =>
      (if bool_decide (x = y) then [(space_char, x)] else [(minus_char, x); (plus_char, y)])
      ++ diff_marks ls rs
  | x :: ls, [] => (minus_char, x) :: diff_marks ls []
  | [], rs => map (pair plus_char) rs
  end.
Definition side (mark : ascii) (l : list (ascii * bytes)) : list bytes :=
  snd <$> filter (λ ml, ml.1 = space_char ∨ ml.1 = mark) l.

Lemma diff_lines_marked ls rs : diff_lines ls rs = marked (diff_marks ls rs).
Proof.
  revert rs. induction ls as [|x ls IH]; intros [|y rs].
  - done.
  - simpl. unfold marked. simpl. by rewrite map_map.
  - cbn [diff_lines diff_marks]. rewrite IH. done.
  - simpl. unfold marked. rewrite map_app, concat_app, IH.
    case_bool_decide; simpl; by rewrite ?app_nil_r.
Qed.

Lemma marked_inj l l' :
  Forall (λ ml, no_lf ml.2) l → Forall (λ ml, no_lf ml.2) l' → marked l = marked l' → l = l'.
Proof.
  intros Hl. revert l'. induction Hl as [|[m x] l Hx Hl IH]; intros l' Hl' E.
  - destruct Hl' as [|[m y] l' _ _]; [done|]. discriminate E.
  - destruct Hl' as [|[m' y] l' Hy Hl']; [discriminate E|].
    unfold marked, diff_line in E. simpl in E, Hx, Hy. injection E as -> E.
    rewrite <- !app_assoc in E. simpl in E.
    assert (x = y ∧ marked l = marked l') as [-> E'].
    { clear -Hx Hy E. unfold marked, no_lf in *. revert y Hy E.
      induction x as [|c x IH]; intros [|c' y] Hy E; simpl in E.
      - by injection E.
      - injection E as <- _. set_solver.
      - injection E as -> _. set_solver.
      - injection E as -> E. apply IH in E as [-> ?]; [done|set_solver..]. }
    f_equal. by apply IH.
Qed.

Lemma marks_no_lf ls rs :
  Forall no_lf ls → Forall no_lf rs → Forall (λ ml, no_lf ml.2) (diff_marks ls rs).
Proof.
  intros Hl. revert rs. induction Hl as [|x ls Hx Hl IH]; intros rs Hr.
  - simpl. apply Forall_map. simpl. exact Hr.
  - destruct Hr as [|y rs Hy Hr]; simpl; [constructor; [done|by apply IH]|].
    apply Forall_app. split; [case_bool_decide; repeat constructor; done|by apply IH].
Qed.

Lemma side_cons mark m x l :
  side mark ((m, x) :: l) =
  if decide (m = space_char ∨ m = mark) then x :: side mark l else side mark l.
Proof. unfold side. rewrite filter_cons. simpl. by case_decide. Qed.

Lemma marks_sides ls rs : side minus_char (diff_marks ls rs) = ls ∧ side plus_char (diff_marks ls rs) = rs.
Proof.
  revert rs. induction ls as [|x ls IH]; intros rs.
  - simpl. induction rs as [|y rs [IH1 IH2]]; [done|]. simpl. rewrite !side_cons. simpl. by rewrite IH1, IH2.
  - destruct rs as [|y rs]; cbn [diff_marks app].
    + destruct (IH []) as [IH1 IH2]. rewrite !side_cons. simpl. by rewrite IH1.
    + destruct (IH rs) as [IH1 IH2]. case_bool_decide as E; cbn [app]; rewrite !side_cons; simpl;
        rewrite IH1, IH2; [by subst|done].
Qed.

Lemma diff_header_split left_path right_path :
  ∃ header, ∀ l r, l ≠ r →
    render_line_diff left_path right_path l r = header ++ diff_lines (lines l) (lines r).
Proof.
  exists (to_bytes "--- " ++ to_bytes left_path ++ [line_feed] ++
                       to_bytes "+++ " ++ to_bytes right_path ++ [line_feed]).
  intros l r Hne. unfold render_line_diff. rewrite bool_decide_eq_false_2 by done.
  by rewrite <- !app_assoc.
Qed.

(** C23: a diff loses nothing but line endings.  Two files have an empty diff
    exactly when they are equal; from any other diff the lines of both files can
    be read back, so two pairs of files with the same diff have the same lines. *)
Theorem diffs_are_lossless left_path right_path l r :
  (render_line_diff left_path right_path l r = [] ↔ l = r) ∧
  (l ≠ r →
   (∃ header body, render_line_diff left_path right_path l r = header ++ marked body ∧
      side minus_char body = lines l ∧ side plus_char body = lines r) ∧
   ∀ l' r', render_line_diff left_path right_path l' r' = render_line_diff left_path right_path l r →
     lines l' = lines l ∧ lines r' = lines r).
Proof.
  assert (Hnil : ∀ l r, render_line_diff left_path right_path l r = [] ↔ l = r).
  { intros l0 r0. unfold render_line_diff. by case_bool_decide. }
  split; [apply Hnil|]. intros Hne.
  destruct (diff_header_split left_path right_path) as [header Hh]. split.
  - exists header, (diff_marks (lines l) (lines r)). rewrite Hh, diff_lines_marked by done.
    destruct (marks_sides (lines l) (lines r)) as [-> ->]. done.
  - intros l' r' E. destruct (decide (l' = r')) as [Heq|Hne'].
    { exfalso. apply Hne, Hnil. rewrite <- E. by apply Hnil. }
    rewrite !Hh, !diff_lines_marked in E by done. apply app_inv_head in E.
    apply marked_inj in E; [|apply marks_no_lf; apply lines_no_lf..].
    destruct (marks_sides (lines l) (lines r)) as [Hl Hr]. rewrite <- E in Hl, Hr.
    destruct (marks_sides (lines l') (lines r')) as [Hl' Hr']. split; congruence.
Qed.

(** * UTF-8 as the standard library checks it

    A text is valid when it is a sequence of whole characters.  Cutting one at an
    ASCII byte gives valid texts, and cutting it anywhere leaves valid characters
    and at most the start of one, which [from_utf8] reports as incomplete. *)

Definition strict_char (ch : bytes) : Prop :=
  ch ≠ [] ∧ ∀ rest, scan_char (ch ++ rest) = (true, length ch).
Definition text_bytes (l : bytes) : Prop := ∃ chs, Forall strict_char chs ∧ l = concat chs.

(** What the width of a leading byte says about its code. *)
Lemma char_width_range a :
  match char_width a with
  | 1 => (code a < 128)%N
  | 2 => (194 ≤ code a < 224)%N
  | 3 => (224 ≤ code a < 240)%N
  | 4 => (240 ≤ code a < 245)%N
  | _ => True
  end.
Proof.
  unfold char_width, byte_in.
  destruct (N.leb_spec 0 (code a)), (N.leb_spec (code a) 127), (N.leb_spec 194 (code a)),
    (N.leb_spec (code a) 223), (N.leb_spec 224 (code a)), (N.leb_spec (code a) 239),
    (N.leb_spec 240 (code a)), (N.leb_spec (code a) 244); simpl; lia.
Qed.
Lemma char_width_le a : char_width a ≤ 4.
Proof. unfold char_width. repeat case_match; lia. Qed.
Lemma char_width_len a : 0 < char_width a → is_lead a = true ∧ len_utf8 a = char_width a.
Proof.
  pose proof (char_width_range a) as Hr. pose proof (char_width_le a) as Hle. intros Hpos.
  unfold is_lead, len_utf8.
  destruct (char_width a) as [|[|[|[|[|]]]]] eqn:E; try lia; simpl in Hr;
    destruct (N.leb_spec 128 (code a)), (N.ltb_spec (code a) 192), (N.ltb_spec (code a) 128),
      (N.ltb_spec (code a) 224), (N.ltb_spec (code a) 240); simpl; (lia || split; (done || lia)).
Qed.

Lemma continuation_not_lead b : is_continuation b = true → is_lead b = false.
Proof.
  unfold is_continuation, byte_in, is_lead. intros [Hlo%N.leb_le Hhi%N.leb_le]%andb_true_iff.
  destruct (N.leb_spec 128 (code b)), (N.ltb_spec (code b) 192); simpl; done || lia.
Qed.
Lemma second_byte_not_lead a b : second_byte_ok a b = true → is_lead b = false.
Proof.
  unfold second_byte_ok. intros H. apply continuation_not_lead. unfold is_continuation, byte_in in *.
  repeat case_match; try done;
    apply andb_true_iff in H as [Hlo%N.leb_le Hhi%N.leb_le]; apply andb_true_iff; split; apply N.leb_le; lia.
Qed.

(** The character that was scanned. *)
Lemma scan_char_valid l n :
  l ≠ [] → scan_char l = (true, n) →
  ∃ ch rest, l = ch ++ rest ∧ length ch = n ∧ strict_char ch ∧ char_ok ch.
Proof.
  intros Hne Hs. destruct l as [|a l]; [done|]. unfold scan_char in Hs.
  pose proof (char_width_len a) as Hlen.
  destruct (char_width a) as [|[|[|[|[|w]]]]] eqn:E.
  - by destruct l.
  - injection Hs as <-. exists [a], l. split_and!; [done|done| |].
    + split; [done|]. intros rest. unfold scan_char. simpl. by rewrite E.
    + exists a, []. destruct Hlen as [? ?]; [lia|]. split_and!; [done|done|simpl; lia|constructor].
  - destruct l as [|b l]; [done|]. destruct (is_continuation b) eqn:Hb; [|done]. injection Hs as <-.
    exists [a; b], l. split_and!; [done|done| |].
    + split; [done|]. intros rest. unfold scan_char. simpl. by rewrite E, Hb.
    + exists a, [b]. destruct Hlen as [? ?]; [lia|].
      split_and!; [done|done|simpl; lia|by repeat constructor; apply continuation_not_lead].
  - destruct l as [|b [|c l]]; [done|by destruct (second_byte_ok a b)|].
    destruct (second_byte_ok a b) eqn:Hb; [|done]. destruct (is_continuation c) eqn:Hc; [|done].
    injection Hs as <-. exists [a; b; c], l. split_and!; [done|done| |].
    + split; [done|]. intros rest. unfold scan_char. simpl. by rewrite E, Hb, Hc.
    + exists a, [b; c]. destruct Hlen as [? ?]; [lia|].
      split_and!; [done|done|simpl; lia|].
      repeat constructor; eauto using continuation_not_lead, second_byte_not_lead.
  - destruct l as [|b [|c [|d l]]]; [done|by destruct (second_byte_ok a b)| |].
    { destruct (second_byte_ok a b); [|done]. by destruct (is_continuation c). }
    destruct (second_byte_ok a b) eqn:Hb; [|done]. destruct (is_continuation c) eqn:Hc; [|done].
    destruct (is_continuation d) eqn:Hd; [|done].
    injection Hs as <-. exists [a; b; c; d], l. split_and!; [done|done| |].
    + split; [done|]. intros rest. unfold scan_char. simpl. by rewrite E, Hb, Hc, Hd.
    + exists a, [b; c; d]. destruct Hlen as [? ?]; [lia|].
      split_and!; [done|done|simpl; lia|].
      repeat constructor; eauto using continuation_not_lead, second_byte_not_lead.
  - by destruct l.
Qed.

Lemma strict_char_ok ch : strict_char ch → char_ok ch.
Proof.
  intros [Hne Hs]. specialize (Hs []). rewrite app_nil_r in Hs.
  destruct (scan_char_valid ch (length ch) Hne Hs) as (ch' & rest & E & Hlen & _ & Hok).
  apply (f_equal length) in E as El. rewrite length_app in El. destruct rest; [|simpl in El; lia].
  by rewrite app_nil_r in E; subst.
Qed.
Lemma text_utf8 l : text_bytes l → utf8 l.
Proof.
  intros (chs & Hok & ->). induction Hok as [|ch chs Hch _ IH]; [constructor|]. simpl.
  destruct (strict_char_ok ch Hch) as (c & conts & -> & Hc & Hlen & Hcs). by constructor.
Qed.

(** [from_utf8] accepts exactly the texts. *)
Lemma utf8_error_text fuel off l :
  length l ≤ fuel → utf8_error fuel off l = None → text_bytes l.
Proof.
  revert off l. induction fuel as [|fuel IH]; intros off l Hl E.
  { destruct l; [|simpl in Hl; lia]. by exists []. }
  destruct l as [|a l']; [by exists []|]. set (l := a :: l') in *. cbn [utf8_error] in E.
  change (match l with [] => None | _ :: _ => _ end) with
    (let '(valid, n) := scan_char l in
     if valid then utf8_error fuel (off + n) (drop n l)
     else Some {| ue_valid_up_to := off; ue_error_len := if incomplete_char l then None else Some n |}) in E.
  destruct (scan_char l) as [[] n] eqn:Hs; [|done].
  destruct (scan_char_valid l n ltac:(done) Hs) as (ch & rest & Hsplit & Hlen & Hch & Hok).
  rewrite Hsplit, <- Hlen, drop_app_length in E.
  assert (0 < length ch) by (destruct Hch as [? _]; destruct ch; simpl; [done|lia]).
  apply IH in E as (chs & Hchs & ->).
  - exists (ch :: chs). split; [by constructor|done].
  - rewrite Hsplit, length_app in Hl. lia.
Qed.

Lemma utf8_error_cons fuel off a l :
  utf8_error (S fuel) off (a :: l) =
  let '(valid, n) := scan_char (a :: l) in
  if valid then utf8_error fuel (off + n) (drop n (a :: l))
  else Some {| ue_valid_up_to := off;
               ue_error_len := if incomplete_char (a :: l) then None else Some n |}.
Proof. done. Qed.

Lemma utf8_error_strict fuel off ch rest :
  strict_char ch → utf8_error (S fuel) off (ch ++ rest) = utf8_error fuel (off + length ch) rest.
Proof.
  intros [Hne Hs]. specialize (Hs rest). destruct ch as [|a ch]; [done|].
  change ((a :: ch) ++ rest) with (a :: ch ++ rest) in *. rewrite utf8_error_cons, Hs.
  f_equal. change (a :: ch ++ rest) with ((a :: ch) ++ rest). by rewrite drop_app_length.
Qed.

Lemma utf8_error_chars chs fuel off rest :
  Forall strict_char chs → length (concat chs ++ rest) ≤ fuel →
  ∃ fuel', length rest ≤ fuel' ∧
    utf8_error fuel off (concat chs ++ rest) = utf8_error fuel' (off + length (concat chs)) rest.
Proof.
  intros Hok. revert fuel off. induction Hok as [|ch chs Hch _ IH]; intros fuel off Hf; simpl in *.
  { exists fuel. by rewrite Nat.add_0_r. }
  rewrite <- app_assoc in *. rewrite length_app in Hf.
  assert (0 < length ch) by (destruct Hch as [? _]; destruct ch; simpl; [done|lia]).
  destruct fuel as [|fuel]; [lia|]. rewrite utf8_error_strict by done.
  destruct (IH fuel (off + length ch) ltac:(lia)) as (fuel' & Hf' & ->). exists fuel'.
  split; [done|]. f_equal. rewrite length_app. lia.
Qed.

Lemma from_utf8_text l : text_bytes l ↔ from_utf8 l = Ok (of_bytes l).
Proof.
  unfold from_utf8. split.
  - intros (chs & Hok & ->).
    destruct (utf8_error_chars chs (length (concat chs)) 0 [] Hok ltac:(by rewrite app_nil_r))
      as (fuel' & _ & E). rewrite app_nil_r in E. rewrite E. by destruct fuel'.
  - destruct (utf8_error _ _ _) eqn:E; [done|]. intros _. by eapply utf8_error_text.
Qed.
Lemma from_utf8_Ok l s : from_utf8 l = Ok s → s = of_bytes l ∧ text_bytes l.
Proof.
  intros E. rewrite from_utf8_text. unfold from_utf8 in *. destruct (utf8_error _ _ _); [done|].
  by injection E as <-.
Qed.

(** ** Splitting at an ASCII byte *)

Lemma strict_char_ascii ch c : strict_char ch → c ∈ ch → (code c < 128)%N → ch = [c].
Proof.
  intros (a & conts & -> & Ha & Hlen & Hcs)%strict_char_ok Hin Hc.
  assert (Hlead : is_lead c = true).
  { unfold is_lead. destruct (N.leb_spec 128 (code c)); [lia|done]. }
  apply elem_of_cons in Hin as [<-|Hin].
  - unfold len_utf8 in Hlen. destruct (N.ltb_spec (code c) 128); [|lia]. by destruct conts.
  - rewrite Forall_forall in Hcs. specialize (Hcs c Hin). simpl in Hcs. congruence.
Qed.

Lemma text_split p c q :
  (code c < 128)%N → text_bytes (p ++ c :: q) → text_bytes p ∧ text_bytes q.
Proof.
  intros Hc (chs & Hok & E). revert p E.
  induction Hok as [|ch chs Hch Hchs IH]; intros p E; [by destruct p|]. simpl in E.
  apply app_eq_inv in E as [(k & -> & E)|(k & Ek & E)].
  - destruct (IH k (eq_sym E)) as [(ps & Hps & ->) Hq]. split; [|done].
    exists (ch :: ps). split; [by constructor|done].
  - destruct k as [|c' k]; simpl in E.
    + rewrite app_nil_r in Ek. subst ch. destruct (IH [] E) as [_ Hq].
      split; [|done]. exists [p]. split; [by apply Forall_singleton|]. simpl. by rewrite app_nil_r.
    + injection E as <- E. assert (Hch' := strict_char_ascii ch c Hch ltac:(rewrite Ek; set_solver) Hc).
      rewrite Hch' in Ek. destruct p as [|a p]; simpl in Ek.
      * injection Ek as <-. simpl in E. subst q. split; [by exists []|by exists chs].
      * injection Ek as _ Ek. by destruct p.
Qed.

(** ** Cutting anywhere *)

Lemma incomplete_prefix part k :
  strict_char (part ++ k) → part ≠ [] → k ≠ [] →
  incomplete_char part = true ∧ ∃ n, scan_char part = (false, n).
Proof.
  intros [_ Hs] Hp Hk. specialize (Hs []). rewrite app_nil_r, length_app in Hs.
  destruct part as [|a part]; [done|]. destruct k as [|z k]; [done|]. unfold incomplete_char.
  unfold scan_char in *. cbn [app length] in Hs.
  destruct (char_width a) as [|[|[|[|[|w]]]]] eqn:E; simpl in Hs; try done.
  - injection Hs. lia.
  - destruct part as [|b part]; [simpl; eauto|]. simpl in Hs.
    destruct (is_continuation b); [injection Hs; lia|done].
  - destruct part as [|b [|c part]]; simpl in Hs |- *; [eauto| |].
    + destruct (second_byte_ok a b); [|done]. simpl. eauto.
    + destruct (second_byte_ok a b); [|done]. destruct (is_continuation c); [injection Hs; lia|done].
  - destruct part as [|b [|c [|d part]]]; simpl in Hs |- *; [eauto| | |].
    + destruct (second_byte_ok a b); [|done]. simpl. eauto.
    + destruct (second_byte_ok a b); [|done]. destruct (is_continuation c); [|done]. simpl. eauto.
    + destruct (second_byte_ok a b); [|done]. destruct (is_continuation c); [|done].
      destruct (is_continuation d); [injection Hs; lia|done].
Qed.

Lemma text_prefix p q :
  text_bytes (p ++ q) →
  ∃ chs part, Forall strict_char chs ∧ p = concat chs ++ part ∧
    (part = [] ∨ ∃ k, part ≠ [] ∧ k ≠ [] ∧ strict_char (part ++ k)).
Proof.
  intros (chs & Hok & E). revert p E.
  induction Hok as [|ch chs Hch Hchs IH]; intros p E.
  { exists [], []. apply app_nil in E as [-> _]. split_and!; [constructor|done|by left]. }
  simpl in E. apply app_eq_inv in E as [(k & -> & E)|(k & Ek & E)].
  - destruct (IH k (eq_sym E)) as (ps & part & Hps & -> & Hpart). exists (ch :: ps), part.
    split_and!; [by constructor|by rewrite app_assoc|done].
  - destruct (decide (p = [])) as [->|Hp].
    { exists [], []. split_and!; [constructor|done|by left]. }
    destruct (decide (k = [])) as [->|Hk].
    + rewrite app_nil_r in Ek. subst ch. exists [p], []. split_and!; [by apply Forall_singleton| |by left].
      simpl. by rewrite !app_nil_r.
    + exists [], p. split_and!; [constructor|done|right]. exists k. by rewrite <- Ek.
Qed.

(** A cut text is valid, or ends inside a character after a valid text. *)
Lemma from_utf8_prefix p q :
  text_bytes (p ++ q) →
  from_utf8 p = Ok (of_bytes p) ∨
  ∃ e, from_utf8 p = Err e ∧ ue_error_len e = None ∧ text_bytes (take (ue_valid_up_to e) p).
Proof.
  intros (chs & part & Hok & -> & Hpart)%text_prefix. destruct Hpart as [->|(k & Hne & Hk & Hs)].
  - left. apply from_utf8_text. exists chs. by rewrite app_nil_r.
  - right. unfold from_utf8.
    destruct (utf8_error_chars chs _ 0 part Hok (le_n _)) as (fuel' & Hf' & ->).
    destruct part as [|a part]; [done|]. destruct fuel' as [|fuel']; [simpl in Hf'; lia|].
    destruct (incomplete_prefix _ _ Hs Hne Hk) as (Hi & n & En).
    rewrite utf8_error_cons, En, Hi. eexists. split_and!; [done|done|]. simpl.
    rewrite take_app_length. by exists chs.
Qed.

(** * Cutting text and reading windows of files

    Cuts keep the longest run of whole characters within both limits.  A read
    window always ends, succeeds on every text file, stays within its limits and
    shows the lines of the file. *)

(** ** Characters *)

Lemma char_ok_pos ch : char_ok ch → (0 < length ch)%nat.
Proof. intros (c & conts & -> & _). simpl. lia. Qed.

Lemma chars_of cs : Forall char_ok cs → chars (of_bytes (concat cs)) = cs.
Proof.
  intros Hok. unfold chars. rewrite to_of_bytes. apply chars_from_concat; auto using length_concat_chars.
Qed.
Lemma utf8_concat cs : Forall char_ok cs → utf8 (concat cs).
Proof.
  induction 1 as [|ch cs (c & conts & -> & Hc & Hlen & Hcs) _ IH]; [constructor|].
  simpl. by constructor.
Qed.
Lemma valid_concat cs : Forall char_ok cs → valid_string (of_bytes (concat cs)).
Proof. intros Hok. unfold valid_string. rewrite to_of_bytes. by apply utf8_concat. Qed.

Lemma of_bytes_app a b : of_bytes (a ++ b) = of_bytes a +:+ of_bytes b.
Proof. induction a as [|c a IH]; [done|]. unfold of_bytes in *. simpl. by rewrite IH. Qed.

Lemma num_chars_app a b :
  valid_string a → valid_string b → num_chars (a +:+ b) = (num_chars a + num_chars b)%N.
Proof.
  intros [Ha Ea]%chars_valid [Hb Eb]%chars_valid. unfold num_chars.
  rewrite <- (of_to_bytes (a +:+ b)), to_bytes_app, <- Ea, <- Eb, <- concat_app.
  rewrite chars_of by (by apply Forall_app). rewrite length_app. lia.
Qed.
Lemma string_bytes_app a b : string_bytes (a +:+ b) = (string_bytes a + string_bytes b)%N.
Proof. unfold string_bytes. rewrite to_bytes_app, length_app. lia. Qed.

(** ** Cuts *)

(** The first [n] characters of a string. *)
Definition first_chars (n : N) (s : string) : string := of_bytes (concat (take (N.to_nat n) (chars s))).

Lemma char_start_spec cs n i :
  char_start cs n i =
  if (n <? N.of_nat (length cs))%N then Some (i + length (concat (take (N.to_nat n) cs))) else None.
Proof.
  revert n i. induction cs as [|ch cs IH]; intros n i; cbn [char_start length].
  { destruct (N.ltb_spec n (N.of_nat 0)); [lia|done]. }
  destruct (N.eqb_spec n 0) as [->|Hn].
  - simpl. f_equal. lia.
  - rewrite IH. destruct (N.ltb_spec (n - 1) (N.of_nat (length cs))), (N.ltb_spec n (N.of_nat (S (length cs))));
      try lia; [|done]. replace (N.to_nat n) with (S (N.to_nat (n - 1))) by lia.
    simpl. rewrite length_app. f_equal. lia.
Qed.

Lemma first_chars_facts n s :
  valid_string s →
  valid_string (first_chars n s) ∧ num_chars (first_chars n s) = N.min n (num_chars s) ∧
  to_bytes (first_chars n s) `prefix_of` to_bytes s ∧
  (num_chars s ≤ n → first_chars n s = s)%N.
Proof.
  intros [Hok E]%chars_valid. unfold first_chars, num_chars.
  assert (Ht : Forall char_ok (take (N.to_nat n) (chars s))) by (by apply Forall_take).
  split_and!.
  - by apply valid_concat.
  - rewrite chars_of by done. rewrite length_take. lia.
  - exists (concat (drop (N.to_nat n) (chars s))). by rewrite to_of_bytes, <- concat_app, take_drop.
  - intros Hn. rewrite take_ge by lia. by rewrite E, of_to_bytes.
Qed.

Lemma truncate_by_chars_spec s n :
  valid_string s →
  truncate_utf8_by_chars s n =
  (first_chars n s, string_bytes (first_chars n s), (n <? num_chars s)%N).
Proof.
  intros Hs. pose proof (chars_valid s Hs) as [Hok E]. unfold truncate_utf8_by_chars, first_chars, num_chars.
  destruct ((n =? 0)%N && negb (str_is_empty s)) eqn:Hz.
  - apply andb_true_iff in Hz as [->%N.eqb_eq Hne]. simpl. f_equal.
    destruct (chars s) eqn:Ec; [|done]. simpl in E. by destruct s.
  - rewrite char_start_spec. destruct (N.ltb_spec n (N.of_nat (length (chars s)))) as [Hlt|Hge].
    + assert (Hsplit : to_bytes s = concat (take (N.to_nat n) (chars s)) ++ concat (drop (N.to_nat n) (chars s))).
      { by rewrite <- concat_app, take_drop. }
      rewrite Hsplit at 1 2. by rewrite Nat.add_0_l, take_app_length.
    + rewrite (take_ge (chars s)) by lia. by rewrite E, take_ge by done.
Qed.

Lemma valid_prefix_split p s :
  valid_string p → valid_string s → to_bytes p `prefix_of` to_bytes s →
  ∃ q, valid_string q ∧ s = p +:+ q.
Proof.
  intros Hp Hs [q E]. exists (of_bytes q). unfold valid_string in *. rewrite to_of_bytes. split.
  - apply (utf8_app_inv (to_bytes p)); [done|]. by rewrite <- E.
  - by rewrite <- (of_to_bytes s), E, of_bytes_app, of_to_bytes.
Qed.
Lemma chars_app a b : valid_string a → valid_string b → chars (a +:+ b) = chars a ++ chars b.
Proof.
  intros [Ha Ea]%chars_valid [Hb Eb]%chars_valid.
  rewrite <- (of_to_bytes (a +:+ b)), to_bytes_app, <- Ea, <- Eb, <- concat_app.
  by rewrite chars_of by (by apply Forall_app).
Qed.
Lemma prefix_first_chars p s n :
  valid_string p → valid_string s → to_bytes p `prefix_of` to_bytes s → (num_chars p ≤ n)%N →
  to_bytes p `prefix_of` to_bytes (first_chars n s).
Proof.
  intros Hp Hs Hpre Hn. destruct (valid_prefix_split p s Hp Hs Hpre) as (q & Hq & ->).
  unfold first_chars. rewrite to_of_bytes, chars_app, take_app, concat_app by done.
  unfold num_chars in Hn. rewrite (take_ge (chars p)) by lia.
  destruct (chars_valid p Hp) as [_ ->]. by apply prefix_app_r.
Qed.

Lemma byte_boundary_default s n :
  truncate_utf8_to_byte_boundary s n = default s (Truncation.truncate_string_value s n).
Proof. unfold truncate_utf8_to_byte_boundary, Truncation.truncate_string_value. by destruct (_ <=? n)%N. Qed.

Lemma byte_boundary_facts s n :
  valid_string s →
  let t := truncate_utf8_to_byte_boundary s n in
  valid_string t ∧ to_bytes t `prefix_of` to_bytes s ∧ (string_bytes t ≤ n)%N ∧
  (∀ p, to_bytes p `prefix_of` to_bytes s → valid_string p → (string_bytes p ≤ n)%N →
     (string_bytes p ≤ string_bytes t)%N).
Proof.
  intros Hs. cbv zeta. rewrite byte_boundary_default. pose proof (truncate_string_longest_prefix s n Hs) as H.
  destruct (Truncation.truncate_string_value s n) as [t|]; simpl.
  - destruct H as (_ & Hv & Hp & Hb & Hmax). split_and!; [done..|]. intros p. apply Hmax.
  - split_and!; [done|done|done|]. intros p [q E] _ _. unfold string_bytes.
    rewrite E, length_app. lia.
Qed.

Lemma prefix_bytes_le p s : to_bytes p `prefix_of` to_bytes s → (string_bytes p ≤ string_bytes s)%N.
Proof. intros [q E]. unfold string_bytes. rewrite E, length_app. lia. Qed.
Lemma prefix_bytes_eq p s :
  to_bytes p `prefix_of` to_bytes s → string_bytes p = string_bytes s → p = s.
Proof.
  intros [q E] Hl. unfold string_bytes in Hl. rewrite E, length_app in Hl.
  destruct q; [|simpl in Hl; lia]. rewrite app_nil_r in E.
  by rewrite <- (of_to_bytes p), <- (of_to_bytes s), E.
Qed.
Lemma prefix_num_chars p s :
  valid_string p → valid_string s → to_bytes p `prefix_of` to_bytes s → (num_chars p ≤ num_chars s)%N.
Proof.
  intros Hp Hs Hpre. destruct (valid_prefix_split p s Hp Hs Hpre) as (q & Hq & ->).
  rewrite num_chars_app by done. lia.
Qed.

(** Cutting is exact.  A text cut by characters and bytes is a valid text,
    a prefix of the original and within both limits; no longer valid prefix is;
    it is reported as cut exactly when something was left out, and its size is
    the size reported. *)
Theorem cuts_are_longest s max_chars max_bytes :
  valid_string s →
  let '(t, n, cut) := truncate_utf8_by_chars_and_bytes s max_chars max_bytes in
  valid_string t ∧ to_bytes t `prefix_of` to_bytes s ∧
  (num_chars t ≤ max_chars ∧ string_bytes t ≤ max_bytes ∧ n = string_bytes t)%N ∧
  (cut = true ↔ t ≠ s) ∧
  (∀ p, valid_string p → to_bytes p `prefix_of` to_bytes s →
     (num_chars p ≤ max_chars)%N → (string_bytes p ≤ max_bytes)%N →
     (string_bytes p ≤ string_bytes t)%N).
Proof.
  intros Hs. unfold truncate_utf8_by_chars_and_bytes. rewrite truncate_by_chars_spec by done.
  destruct (first_chars_facts max_chars s Hs) as (Hv & Hn & Hp & Hall).
  destruct (N.leb_spec (string_bytes (first_chars max_chars s)) max_bytes) as [Hfit|Hlong].
  - split_and!; [done|done|lia|done|done| |].
    + destruct (N.ltb_spec max_chars (num_chars s)) as [Hlt|Hge].
      * split; [|done]. intros _ E. rewrite E in Hn. lia.
      * split; [done|]. intros Hne. by rewrite Hall in Hne.
    + intros p Hvp Hpp Hpc _. apply prefix_bytes_le. by apply prefix_first_chars.
  - destruct (byte_boundary_facts (first_chars max_chars s) max_bytes Hv) as (Hv' & Hp' & Hb & Hmax).
    set (t := truncate_utf8_to_byte_boundary _ _) in *.
    pose proof (prefix_num_chars _ _ Hv' Hv Hp').
    split_and!; [done|by etrans|lia|done|done| |].
    + split; [|done]. intros _ E. rewrite E in Hb. apply prefix_bytes_le in Hp. lia.
    + intros p Hvp Hpp Hpc Hpb. apply Hmax; [|done|done]. by apply prefix_first_chars.
Qed.
