(* ===== verification/WindowLaws.v ===== *)
(** * WindowLaws: the window [fs.read] shows of a file *)
From S2P Require Import Prelude Text Domain StoreTypes Settings Truncation.
From S2P Require Import TruncationLaws Spill Runtime ToolOutput ToonLaws RenderLaws.
From S2P Require Import Paths ScopeGuarantees ToolText ToolTextLaws.

(** ** What a window should show *)

Definition rendered_line (lim : WindowLimits) (n : N) (line : string) : string :=
  if lim_line_numbers lim then line_prefix n +:+ line else line.
(** The lines from number [n] on that the window selects, rendered. *)
Fixpoint shown (lim : WindowLimits) (n : N) (ls : list bytes) : list string :=
  match ls with
  | [] => []
  | l :: ls => (if (n <? lim_start_line lim)%N then [] else [rendered_line lim n (of_bytes l)])
               ++ shown lim (n + 1) ls
  end.

Definition separator (content : string) : string :=
  if str_is_empty content then EmptyString else String line_feed EmptyString.
(** A line appended to the content; there is no separator before the first text. *)
Definition glue (content line : string) : string := content +:+ separator content +:+ line.
Definition glued (content : string) (ls : list string) : string := foldl glue content ls.

Definition byte_prefix (a b : string) : Prop := to_bytes a `prefix_of` to_bytes b.
#[export] Instance byte_prefix_preorder : PreOrder byte_prefix.
Proof. unfold byte_prefix. split; [intros a; reflexivity|intros a b c ? ?; by etrans]. Qed.
Lemma str_app_assoc a b c : (a +:+ b) +:+ c = a +:+ b +:+ c.
Proof.
  rewrite <- (of_to_bytes ((a +:+ b) +:+ c)), <- (of_to_bytes (a +:+ b +:+ c)), !to_bytes_app.
  by rewrite app_assoc.
Qed.
Lemma byte_prefix_app a b : byte_prefix a (a +:+ b).
Proof. unfold byte_prefix. rewrite to_bytes_app. by apply prefix_app_r. Qed.
Lemma byte_prefix_app_l a b c : byte_prefix b c → byte_prefix (a +:+ b) (a +:+ c).
Proof. unfold byte_prefix. rewrite !to_bytes_app. apply prefix_app. Qed.
Lemma glued_prefix content ls : byte_prefix content (glued content ls).
Proof.
  revert content. induction ls as [|l ls IH]; intros content; [done|]. simpl.
  etrans; [|apply IH]. apply byte_prefix_app.
Qed.

(** ** Limits *)

Record within (lim : WindowLimits) (w : ReadWindow) : Prop := {
  wi_valid : valid_string (win_content w);
  wi_chars : (num_chars (win_content w) ≤ lim_max_chars lim)%N;
  wi_bytes : win_truncated_by_chars w = false → over_bytes lim (string_bytes (win_content w)) = false;
  wi_lines : (win_line_count w ≤ N.max 1 (lim_max_lines lim))%N
}.
Definition complete (w : ReadWindow) : Prop :=
  win_truncated_by_lines w = false ∧ win_truncated_by_chars w = false ∧
  win_truncated_by_bytes w = false ∧ win_truncated_by_scan w = false.

Record loop_ok (lim : WindowLimits) (st : WindowState) : Prop := {
  lo_within : within lim (ws_window st);
  lo_chars : ws_used_chars st = num_chars (win_content (ws_window st));
  lo_bytes : ws_used_bytes st = string_bytes (win_content (ws_window st));
  lo_complete : complete (ws_window st);
  lo_begin : (ws_current_line st < lim_start_line lim)%N → win_line_count (ws_window st) = 0%N
}.

Lemma separator_valid content : valid_string (separator content).
Proof. unfold separator. case_match; apply plain_valid; done. Qed.
Lemma separator_size content :
  num_chars (separator content) = (if str_is_empty content then 0 else 1)%N ∧
  string_bytes (separator content) = (if str_is_empty content then 0 else 1)%N.
Proof. unfold separator. by case_match. Qed.
Lemma line_prefix_valid n : valid_string (line_prefix n).
Proof. apply plain_valid. unfold line_prefix. by rewrite plain_app, plain_number. Qed.
Lemma rendered_valid lim n line : valid_string line → valid_string (rendered_line lim n line).
Proof. intros Hl. unfold rendered_line. case_match; [|done]. by apply valid_app; [apply line_prefix_valid|]. Qed.

Lemma over_bytes_le lim a b : (a ≤ b)%N → over_bytes lim b = false → over_bytes lim a = false.
Proof. unfold over_bytes. destruct (lim_max_bytes lim); [|done]. intros. apply N.ltb_ge. apply N.ltb_ge in H0. lia. Qed.

(** ** Appending a line *)

Definition appended (lim : WindowLimits) (st : WindowState) (by_scan : bool) (line : string)
  (rest : bytes) (r : Round) : Prop :=
  let w := ws_window st in
  let goal := glue (win_content w) (rendered_line lim (ws_current_line st) line) in
  match r with
  | Stop w' =>
      within lim w' ∧ byte_prefix (win_content w') goal ∧ win_truncated_by_scan w' = by_scan ∧
      (by_scan = false → win_truncated_by_chars w' = true ∨ win_truncated_by_bytes w' = true)
  | Continue st' rest' =>
      rest' = rest ∧ by_scan = false ∧ loop_ok lim st' ∧ win_content (ws_window st') = goal ∧
      win_line_count (ws_window st') = (win_line_count w + 1)%N ∧
      ws_current_line st' = ws_current_line st ∧ ws_scanned_bytes st' = ws_scanned_bytes st
  | Refuse _ => False
  end.

(** The content with the separator of the next line. *)
Definition headed (content : string) : string := content +:+ separator content.
Lemma headed_facts content :
  valid_string content →
  let sep := (if str_is_empty content then 0 else 1)%N in
  valid_string (headed content) ∧ num_chars (headed content) = (num_chars content + sep)%N ∧
  string_bytes (headed content) = (string_bytes content + sep)%N.
Proof.
  intros Hv sep. destruct (separator_size content) as [Hsc Hsb]. unfold headed. split_and!.
  - apply valid_app; [done|apply separator_valid].
  - rewrite num_chars_app by auto using separator_valid. by rewrite Hsc.
  - by rewrite string_bytes_app, Hsb.
Qed.
Lemma headed_prefix content p r : byte_prefix p r → byte_prefix (headed content +:+ p) (glue content r).
Proof. intros Hp. unfold glue, headed. rewrite str_app_assoc. by do 2 apply byte_prefix_app_l. Qed.
Lemma headed_start content r : byte_prefix (headed content) (glue content r).
Proof. unfold glue, headed. rewrite <- str_app_assoc. apply byte_prefix_app. Qed.

(** Part of a line added within the limits. *)
Lemma added_within lim content p r :
  valid_string content → valid_string r → valid_string p → byte_prefix p r →
  (num_chars (headed content) < lim_max_chars lim)%N →
  (num_chars r ≤ lim_max_chars lim - num_chars (headed content))%N →
  over_bytes lim (string_bytes (headed content) + string_bytes p) = false →
  valid_string (headed content +:+ p) ∧ (num_chars (headed content +:+ p) ≤ lim_max_chars lim)%N ∧
  over_bytes lim (string_bytes (headed content +:+ p)) = false.
Proof.
  intros Hv Hr Hp Hpre Hroom Hfits Hob. destruct (headed_facts content Hv) as (Hvh & _).
  split_and!; [by apply valid_app| |by rewrite string_bytes_app].
  rewrite num_chars_app by done. pose proof (prefix_num_chars p r Hp Hr Hpre). lia.
Qed.
(** The bytes the limit leaves. *)
Lemma byte_cut_fits lim used r :
  valid_string r → over_bytes lim used = false →
  let available := saturating_sub (default 0%N (lim_max_bytes lim)) used in
  over_bytes lim (used + string_bytes (truncate_utf8_to_byte_boundary r available)) = false.
Proof.
  intros Hr Hover available. destruct (byte_boundary_facts r available Hr) as (_ & _ & Hb & _).
  unfold over_bytes, available, saturating_sub in *. destruct (lim_max_bytes lim) as [limit|]; [|done].
  apply N.ltb_ge. apply N.ltb_ge in Hover. simpl in *. lia.
Qed.

Lemma append_line_spec lim st by_scan line newline_bytes rest :
  loop_ok lim st → valid_string line →
  (lim_start_line lim ≤ ws_current_line st)%N →
  (win_line_count (ws_window st) = 0 ∨ win_line_count (ws_window st) < lim_max_lines lim)%N →
  appended lim st by_scan line rest (append_line lim st by_scan line newline_bytes rest).
Proof.
  intros [[Hv Hc Hb Hl] Hchars Hbytes Hflags Hbegin] Hline Hstart Hcount.
  specialize (Hb (proj1 (proj2 Hflags))).
  unfold append_line, appended. rewrite Hchars, Hbytes. set (w := ws_window st) in *.
  set (content := win_content w) in *. destruct (headed_facts content Hv) as (Hvh & Hnh & Hbh).
  fold (rendered_line lim (ws_current_line st) line).
  set (r := rendered_line lim (ws_current_line st) line).
  assert (Hr : valid_string r) by by apply rendered_valid.
  replace (content +:+ _) with (headed content) by (unfold headed, separator; by destruct (str_is_empty content)).
  rewrite <- Hnh, <- Hbh.
  destruct (N.leb_spec (lim_max_chars lim) (num_chars (headed content))) as [Hfull|Hroom].
  { split_and!; [by split|apply byte_prefix_app|done|by left]. }
  destruct (over_bytes lim (string_bytes (headed content))) eqn:Hover.
  { split_and!; [by split|apply byte_prefix_app|done|by right]. }
  assert (Hcount' : (win_line_count w + 1 ≤ N.max 1 (lim_max_lines lim))%N) by (destruct Hcount; lia).
  destruct (N.ltb_spec (lim_max_chars lim - num_chars (headed content)) (num_chars r)) as [Hcut|Hfits].
  { fold (first_chars (lim_max_chars lim - num_chars (headed content)) r).
    destruct (first_chars_facts (lim_max_chars lim - num_chars (headed content)) r Hr) as (Hv1 & Hn1 & Hp1 & _).
    split_and!; [|by apply headed_prefix|done|by left].
    split; cbn [window_push win_content win_truncated_by_chars win_line_count]; [by apply valid_app| |done|done].
    rewrite num_chars_app by done. lia. }
  destruct (over_bytes lim (string_bytes (headed content) + string_bytes r)) eqn:Hover'.
  - pose proof (byte_cut_fits lim _ r Hr Hover) as Hob. cbv zeta in Hob. set (available := saturating_sub _ _) in *.
    destruct (byte_boundary_facts r available Hr) as (Hv1 & Hp1 & _).
    destruct (added_within lim content _ r Hv Hr Hv1 Hp1 Hroom Hfits Hob) as (? & ? & ?).
    destruct (0 <? string_bytes _)%N; [split_and!; [by split|by apply headed_prefix|done|by right]|].
    split_and!; [split; [done|cbn; lia|done|done]|apply headed_start|done|by right].
  - destruct (added_within lim content r r Hv Hr Hr ltac:(done) Hroom Hfits Hover') as (? & ? & ?).
    destruct by_scan; [split_and!; [by split|by apply headed_prefix|done|done]|].
    split_and!; try done; [|cbn; unfold glue, headed; by rewrite str_app_assoc].
    split; [by split| | |done|]; cbn; [by rewrite num_chars_app|by rewrite string_bytes_app|lia].
Qed.

(** ** Reading a line *)

Lemma read_until_spec limit rest piece rest' :
  read_until limit rest = (piece, rest') →
  rest = piece ++ rest' ∧
  ((∃ body, no_lf body ∧ piece = body ++ [line_feed]) ∨
   no_lf piece ∧ (rest' = [] ∨ N.of_nat (length piece) = limit)).
Proof.
  revert limit piece rest'. induction rest as [|c rest IH]; intros limit piece rest'; simpl.
  { intros [= <- <-]. split; [done|right]. split; [apply not_elem_of_nil|by left]. }
  destruct (N.eqb_spec limit 0) as [->|Hl].
  { intros [= <- <-]. split; [done|right]. split; [apply not_elem_of_nil|by right]. }
  destruct (is_lf c) eqn:Hc.
  { apply is_lf_spec in Hc as ->. intros [= <- <-]. split; [done|left]. exists []. split; [apply not_elem_of_nil|done]. }
  assert (Hne : c ≠ line_feed) by (intros ->; by rewrite (proj2 (is_lf_spec _) eq_refl) in Hc).
  destruct (read_until (limit - 1) rest) as [p r] eqn:E. intros [= <- <-].
  destruct (IH _ _ _ E) as [-> Hcase]. split; [done|]. destruct Hcase as [(body & Hb & ->)|[Hb Hor]].
  - left. exists (c :: body). split; [|done]. unfold no_lf in *. rewrite not_elem_of_cons. split; congruence.
  - right. split; [unfold no_lf in *; rewrite not_elem_of_cons; split; congruence|].
    destruct Hor as [->|Hlen]; [by left|right]. simpl. lia.
Qed.

Lemma split_inclusive_body body cur q :
  no_lf body → split_inclusive (body ++ q) cur = split_inclusive q (rev body ++ cur).
Proof.
  unfold no_lf. revert cur. induction body as [|c body IH]; intros cur Hb; [done|].
  apply not_elem_of_cons in Hb as [Hc Hb]. simpl. unfold is_lf. rewrite bool_decide_eq_false_2 by congruence.
  rewrite IH by done. by rewrite <- app_assoc.
Qed.
Lemma lines_ended body q :
  no_lf body → lines (body ++ [line_feed] ++ q) = (line_of (body ++ [line_feed])).1 :: lines q.
Proof.
  intros Hb. unfold lines. rewrite split_inclusive_body by done.
  cbn [app split_inclusive]. rewrite (proj2 (is_lf_spec line_feed) eq_refl), app_nil_r.
  cbn [rev map]. by rewrite rev_involutive.
Qed.
Lemma lines_last piece : no_lf piece → piece ≠ [] → lines piece = [piece].
Proof.
  intros Hp Hne. unfold lines. rewrite <- (app_nil_r piece) at 1. rewrite split_inclusive_body by done.
  simpl. rewrite app_nil_r, bool_decide_eq_false_2 by (intros E; apply Hne; by rewrite <- (rev_involutive piece), E).
  simpl. rewrite rev_involutive. unfold line_of. by rewrite strip_last_None.
Qed.
Lemma line_of_ended body : (line_of (body ++ [line_feed])).2 ≠ 0%N.
Proof. unfold line_of. rewrite strip_last_app. by case_match. Qed.
Lemma line_of_open piece : no_lf piece → line_of piece = (piece, 0%N).
Proof. intros Hp. unfold line_of. by rewrite strip_last_None. Qed.

(** The line of a whole piece of a text is a text. *)
Lemma ended_line_text body q :
  text_bytes (body ++ line_feed :: q) → text_bytes (line_of (body ++ [line_feed])).1 ∧ text_bytes q.
Proof.
  intros [Hb Hq]%text_split; [|done]. split; [|done]. unfold line_of. rewrite strip_last_app.
  destruct (strip_last carriage_return body) as [l|] eqn:E; [|done].
  apply strip_last_Some in E as ->. by apply text_split in Hb as [? _].
Qed.

Definition plain_text (l : bytes) : Prop := text_bytes l ∧ nul ∉ l.

Lemma line_of_elem piece c : c ∈ (line_of piece).1 → c ∈ piece.
Proof.
  unfold line_of. destruct (strip_last line_feed piece) as [l|] eqn:E; [|done].
  apply strip_last_Some in E as ->. destruct (strip_last carriage_return l) as [l'|] eqn:E'; simpl; [|set_solver].
  apply strip_last_Some in E' as ->. set_solver.
Qed.

Lemma line_text_Ok by_scan l line :
  line_text by_scan l = Ok line → valid_string line ∧ (by_scan = false → line = of_bytes l).
Proof.
  unfold line_text. case_bool_decide; [done|]. destruct (from_utf8 l) as [s|e] eqn:E.
  - intros [= <-]. apply from_utf8_Ok in E as [-> Ht]. split; [|done].
    unfold valid_string. rewrite to_of_bytes. by apply text_utf8.
  - destruct (by_scan && _) eqn:Hs; [|done]. intros [-> Ht]%map_err_Ok%from_utf8_Ok.
    apply andb_true_iff in Hs as [-> _]. split; [|done].
    unfold valid_string. rewrite to_of_bytes. by apply text_utf8.
Qed.
Lemma line_text_plain by_scan l :
  nul ∉ l → text_bytes l ∨ by_scan = true ∧ (∃ q, text_bytes (l ++ q)) → ∃ line, line_text by_scan l = Ok line.
Proof.
  intros Hn Hor. unfold line_text. rewrite bool_decide_eq_false_2 by done.
  destruct Hor as [Ht|[-> [q Ht]]].
  - apply from_utf8_text in Ht as ->. eauto.
  - destruct (from_utf8_prefix l q Ht) as [->|(e & -> & He & Hp)]; [eauto|].
    rewrite bool_decide_eq_true_2 by done. apply from_utf8_text in Hp as ->. simpl. eauto.
Qed.

(** ** The loop *)

(** What is left to show from a state of the loop on. *)
Definition remaining (lim : WindowLimits) (st : WindowState) (rest : bytes) : list string :=
  shown lim (ws_current_line st + 1) (lines rest).

Definition promise (lim : WindowLimits) (st : WindowState) (rest : bytes)
  (r : result WindowError ReadWindow) : Prop :=
  match r with
  | Ok w =>
      within lim w ∧
      (win_truncated_by_scan w = false →
         byte_prefix (win_content w) (glued (win_content (ws_window st)) (remaining lim st rest))) ∧
      (complete w →
         win_content w = glued (win_content (ws_window st)) (remaining lim st rest) ∧
         win_line_count w =
           (win_line_count (ws_window st) + N.of_nat (length (remaining lim st rest)))%N)
  | Err _ => ¬ plain_text rest
  end.

(** The window as it stands, with other flags. *)
Lemma same_content_promise lim st rest w :
  loop_ok lim st → win_content w = win_content (ws_window st) →
  win_line_count w = win_line_count (ws_window st) → (complete w → rest = []) →
  promise lim st rest (Ok w).
Proof.
  intros [[Hv Hc Hb Hl] _ _ Hflags _] Ec El Hend. specialize (Hb (proj1 (proj2 Hflags))).
  simpl. rewrite Ec, El. split_and!.
  - by split; rewrite ?Ec, ?El.
  - intros _. apply glued_prefix.
  - intros ->%Hend. unfold remaining. simpl. by rewrite N.add_0_r.
Qed.

Lemma window_full_Some lim st rest w :
  loop_ok lim st → window_full lim st (is_nonempty rest) = Some w → promise lim st rest (Ok w).
Proof.
  intros Hok. unfold window_full.
  assert (Hmore : is_nonempty rest = false → rest = []).
  { unfold is_nonempty. intros E. by apply negb_false_iff, bool_decide_eq_true in E. }
  repeat case_match; try done; intros [= <-]; apply same_content_promise; try done;
    intros (? & ? & ? & ?); auto.
Qed.
Lemma window_full_None lim st more :
  window_full lim st more = None →
  (ws_scanned_bytes st < lim_max_scan_bytes lim)%N ∧
  ((lim_start_line lim ≤ ws_current_line st)%N →
   (win_line_count (ws_window st) < lim_max_lines lim)%N).
Proof.
  unfold window_full. intros E.
  do 4 match type of E with (if ?b then _ else _) = _ => destruct b eqn:?; [done|] end.
  split; [by apply N.leb_gt|]. intros Hb%N.leb_le. rewrite Hb in Heqb. by apply N.leb_gt.
Qed.

(** A state after a line that the window does not show. *)
Lemma skip_line_ok lim st scanned :
  loop_ok lim st → (ws_current_line st + 1 < lim_start_line lim)%N →
  loop_ok lim {| ws_window := ws_window st; ws_used_chars := ws_used_chars st;
                 ws_used_bytes := ws_used_bytes st; ws_scanned_bytes := scanned;
                 ws_previous_newline_bytes := ws_previous_newline_bytes st;
                 ws_current_line := ws_current_line st + 1 |}.
Proof. intros [Hw Hc Hb Hf Hbegin] Hlt. split; simpl; [done..|]. intros _. apply Hbegin. lia. Qed.

(** What a round has read: a whole line, or the start of one at the scan limit. *)
Lemma round_piece lim scanned piece rest' newline_bytes line_bytes :
  piece ≠ [] → line_of piece = (line_bytes, newline_bytes) →
  (scanned < lim_max_scan_bytes lim)%N →
  (∃ body, no_lf body ∧ piece = body ++ [line_feed]) ∨
    no_lf piece ∧ (rest' = [] ∨ N.of_nat (length piece) = (lim_max_scan_bytes lim - scanned)%N) →
  let by_scan := (newline_bytes =? 0)%N
                 && (lim_max_scan_bytes lim <=? scanned + N.of_nat (length piece))%N && is_nonempty rest' in
  if by_scan then line_bytes = piece
  else lines (piece ++ rest') = line_bytes :: lines rest' ∧
       (text_bytes (piece ++ rest') → text_bytes line_bytes ∧ text_bytes rest').
Proof.
  intros Hne El Hs Hcase. destruct Hcase as [(body & Hb & ->)|[Hp Hor]].
  - pose proof (line_of_ended body) as Hn. rewrite El in Hn. simpl in Hn.
    apply N.eqb_neq in Hn. rewrite Hn. simpl. rewrite <- app_assoc, lines_ended, El by done.
    split; [done|]. intros Ht. apply ended_line_text in Ht. by rewrite El in Ht.
  - rewrite line_of_open in El by done. injection El as <- <-. simpl.
    destruct Hor as [->|Hlen].
    + unfold is_nonempty. rewrite bool_decide_eq_true_2 by done. rewrite andb_false_r.
      rewrite app_nil_r, lines_last by done. split; [done|]. intros Ht. split; [done|by exists []].
    + destruct (N.leb_spec (lim_max_scan_bytes lim) (scanned + N.of_nat (length piece))); [|lia]. simpl.
      unfold is_nonempty. case_bool_decide as Hr; [|done]. subst rest'. simpl.
      rewrite app_nil_r, lines_last by done. split; [done|]. intros Ht. split; [done|by exists []].
Qed.

(** A line that is shown becomes the end of the content. *)
Lemma promise_select lim st st' rest rest' line r :
  win_content (ws_window st') = glue (win_content (ws_window st))
    (rendered_line lim (ws_current_line st + 1) (of_bytes line)) →
  win_line_count (ws_window st') = (win_line_count (ws_window st) + 1)%N →
  ws_current_line st' = (ws_current_line st + 1)%N →
  (lim_start_line lim ≤ ws_current_line st + 1)%N → lines rest = line :: lines rest' →
  (plain_text rest → plain_text rest') →
  promise lim st' rest' r → promise lim st rest r.
Proof.
  intros Hw Hn Hc Hsel Hl Hp. unfold promise, remaining. rewrite Hw, Hn, Hc, Hl. cbn [shown].
  rewrite (proj2 (N.ltb_ge _ _) Hsel). cbn [app glued foldl length].
  destruct r; [|tauto]. intros (? & ? & Hcomplete). split_and!; [done..|]. intros Hx.
  destruct (Hcomplete Hx) as [? ->]. split; [done|lia].
Qed.
Lemma promise_stop lim st rest rest' line w :
  within lim w →
  (win_truncated_by_scan w = false →
   lines rest = line :: lines rest' ∧
   byte_prefix (win_content w) (glue (win_content (ws_window st))
     (rendered_line lim (ws_current_line st + 1) (of_bytes line)))) →
  (lim_start_line lim ≤ ws_current_line st + 1)%N → ¬ complete w →
  promise lim st rest (Ok w).
Proof.
  intros Hw Hpre Hsel Hc. unfold promise, remaining. split_and!; [done| |done]. intros Hs.
  destruct (Hpre Hs) as [Hl Hb]. rewrite Hl. cbn [shown]. rewrite (proj2 (N.ltb_ge _ _) Hsel).
  cbn [app glued foldl]. etrans; [exact Hb|apply glued_prefix].
Qed.

(** A line that is not shown changes nothing. *)
Lemma promise_skip lim st st' rest rest' line r :
  ws_window st' = ws_window st → ws_current_line st' = (ws_current_line st + 1)%N →
  (ws_current_line st + 1 < lim_start_line lim)%N → lines rest = line :: lines rest' →
  (plain_text rest → plain_text rest') →
  promise lim st' rest' r → promise lim st rest r.
Proof.
  intros Hw Hc Hskip Hl Hp. unfold promise, remaining. rewrite Hw, Hc, Hl. cbn [shown].
  rewrite (proj2 (N.ltb_lt _ _) Hskip). cbn [app]. destruct r; [done|]. tauto.
Qed.

(** What a round promises about the rest of the loop. *)
Definition round_promise (lim : WindowLimits) (st : WindowState) (rest : bytes) (r : Round) : Prop :=
  match r with
  | Stop w => promise lim st rest (Ok w)
  | Refuse e => promise lim st rest (Err e)
  | Continue st' rest' =>
      length rest' < length rest ∧ loop_ok lim st' ∧
      ∀ res, promise lim st' rest' res → promise lim st rest res
  end.

(** The state once a line is read. *)
Definition line_read (st : WindowState) (scanned : N) : WindowState := {|
  ws_window := ws_window st; ws_used_chars := ws_used_chars st; ws_used_bytes := ws_used_bytes st;
  ws_scanned_bytes := scanned; ws_previous_newline_bytes := ws_previous_newline_bytes st;
  ws_current_line := ws_current_line st + 1 |}.

(** A line of the text, read whole or cut by the scan limit. *)
Record read_line (by_scan : bool) (rest rest' line_bytes : bytes) : Prop := {
  rl_shorter : length rest' < length rest;
  rl_nul : nul ∉ rest → (nul ∉ line_bytes) ∧ (nul ∉ rest');
  rl_whole : by_scan = false → lines rest = line_bytes :: lines rest' ∧
    (text_bytes rest → text_bytes line_bytes ∧ text_bytes rest');
  rl_cut : by_scan = true → rest = line_bytes ++ rest'
}.
Lemma read_line_plain rest rest' l : read_line false rest rest' l → plain_text rest → plain_text rest'.
Proof.
  intros [_ Hn Hw _] [Ht Hnul]. destruct (Hw eq_refl) as [_ Hw']. destruct (Hw' Ht), (Hn Hnul). by split.
Qed.

Lemma skip_round lim st rest rest' l by_scan scanned :
  loop_ok lim st → read_line by_scan rest rest' l →
  (ws_current_line st + 1 < lim_start_line lim)%N →
  round_promise lim st rest
    (if by_scan then Stop (window_flags (ws_window st) false false true)
     else Continue (line_read st scanned) rest').
Proof.
  intros Hok Hread Hskip. destruct by_scan.
  - apply same_content_promise; [done..|]. by intros (_ & _ & _ & ?).
  - split_and!; [by destruct Hread|by apply skip_line_ok|]. intros res.
    destruct (rl_whole _ _ _ _ Hread eq_refl) as [Hl _].
    eapply promise_skip; [done|done|done|exact Hl|by eapply read_line_plain].
Qed.

Lemma select_round lim st rest rest' l by_scan scanned newline_bytes :
  loop_ok lim st → read_line by_scan rest rest' l →
  (lim_start_line lim ≤ ws_current_line st + 1)%N →
  ((lim_start_line lim ≤ ws_current_line st)%N →
   (win_line_count (ws_window st) < lim_max_lines lim)%N) →
  round_promise lim st rest
    (match line_text by_scan l with
     | Ok line => append_line lim (line_read st scanned) by_scan line newline_bytes rest'
     | Err e => Refuse e
     end).
Proof.
  intros Hok Hread Hsel Hroom.
  assert (Hok' : loop_ok lim (line_read st scanned)) by (destruct Hok; split; simpl; [done..|intros ?; lia]).
  assert (Hcount : (win_line_count (ws_window st) = 0 ∨ win_line_count (ws_window st) < lim_max_lines lim)%N).
  { destruct (N.le_gt_cases (lim_start_line lim) (ws_current_line st)); [by right; apply Hroom|].
    left. by apply (lo_begin _ _ Hok). }
  destruct (line_text by_scan l) as [line|e] eqn:Ht.
  - apply line_text_Ok in Ht as [Hv Heq].
    pose proof (append_line_spec lim _ by_scan line newline_bytes rest' Hok' Hv Hsel Hcount) as Happ.
    destruct (append_line _ _ _ _ _ _) as [st2 rest2|w|e]; [| |done].
    + destruct Happ as (-> & -> & Hok2 & Hcontent & Hn & Hcur & _). rewrite (Heq eq_refl) in Hcontent.
      destruct (rl_whole _ _ _ _ Hread eq_refl) as [Hl _]. split_and!; [by destruct Hread|done|].
      intros res. eapply promise_select; eauto using read_line_plain.
    + destruct Happ as (Hw & Hpre & Hs & Hflag). apply (promise_stop lim st rest rest' l); [done| |done|].
      * intros Hsf. rewrite Hsf in Hs. subst by_scan. destruct (rl_whole _ _ _ _ Hread eq_refl) as [Hl _].
        split; [done|]. by rewrite (Heq eq_refl) in Hpre.
      * intros (_ & Hc & Hb & Hsf). rewrite Hsf in Hs. destruct (Hflag (eq_sym Hs)); congruence.
  - intros [Htext Hn]. destruct Hread as [_ Hnul Hwhole Hcut]. destruct (Hnul Hn) as [Hnl _].
    destruct (line_text_plain by_scan l Hnl) as [line Hline]; [|congruence].
    destruct by_scan; [right|left].
    + split; [done|]. exists rest'. by rewrite <- Hcut.
    + by destruct (Hwhole eq_refl) as [_ [? _]].
Qed.

Lemma window_round_spec lim st rest :
  loop_ok lim st → round_promise lim st rest (window_round lim st rest).
Proof.
  intros Hok. unfold window_round.
  destruct (window_full lim st _) as [w|] eqn:Hfull; [by apply window_full_Some|].
  apply window_full_None in Hfull as [Hscan Hroom].
  destruct (read_until _ rest) as [piece rest'] eqn:Er. apply read_until_spec in Er as [Hrest Hcase].
  case_bool_decide as Hpiece.
  { apply same_content_promise; [done..|]. intros _. subst piece. simpl in Hrest.
    destruct Hcase as [(body & _ & E)|[_ [->|E]]]; [by destruct body|done|simpl in E; lia]. }
  unfold window_line, scan_cut. destruct (line_of piece) as [l newline_bytes] eqn:El. cbn [fst snd].
  pose proof (round_piece lim _ piece rest' _ _ Hpiece El Hscan Hcase) as Hround. cbv zeta in Hround.
  set (by_scan := _ && _ && is_nonempty rest') in *.
  assert (Hread : read_line by_scan rest rest' l).
  { rewrite <- Hrest in Hround. split.
    - rewrite Hrest, length_app. destruct piece; [done|simpl; lia].
    - intros Hn. rewrite Hrest in Hn. apply not_elem_of_app in Hn as [Hn ?]. split; [|done].
      intros Hin. apply Hn, line_of_elem. by rewrite El.
    - intros Hs. by rewrite Hs in Hround.
    - intros Hs. rewrite Hs in Hround. by subst l. }
  destruct (N.ltb_spec (ws_current_line st + 1) (lim_start_line lim)) as [Hskip|Hsel].
  - by apply (skip_round lim st rest rest' l).
  - by apply (select_round lim st rest rest' l).
Qed.

Lemma window_loop_spec lim fuel st rest :
  length rest < fuel → loop_ok lim st →
  ∃ r, window_loop fuel lim st rest = Some r ∧ promise lim st rest r.
Proof.
  revert st rest. induction fuel as [|fuel IH]; intros st rest Hf Hok; [lia|]. cbn [window_loop].
  pose proof (window_round_spec lim st rest Hok) as Hr.
  destruct (window_round lim st rest) as [st' rest'|w|e]; [|by eexists..].
  destruct Hr as (Hlen & Hok' & Hp). destruct (IH st' rest' ltac:(lia) Hok') as (r & -> & Hres). eauto.
Qed.

Lemma window_start_ok lim : loop_ok (from_first_line lim) window_start.
Proof.
  split; [split|done..]; simpl; [by apply plain_valid|by apply N.le_0_l| |lia]. intros _.
  unfold over_bytes. simpl. destruct (lim_max_bytes lim); [|done]. apply N.ltb_ge, N.le_0_l.
Qed.
Lemma read_text_window_ends file lim : is_Some (read_text_window file lim).
Proof.
  destruct (window_loop_spec (from_first_line lim) (S (length file)) window_start file ltac:(lia)
              (window_start_ok lim)) as (r & Hr & _). by exists r.
Qed.

(** A read window is faithful.  Reading a window always ends.  A file that is
    UTF-8 without NUL is never refused.  The content of a window is valid UTF-8
    with at most the characters and lines allowed (one line is always shown), and
    at most the bytes allowed unless the character limit cut it.  Unless the scan
    limit was hit it is a prefix of the selected lines, rendered and joined by
    line feeds (with none before the first text), and when nothing is reported as
    cut it is all of them. *)
Theorem read_windows_are_faithful file lim :
  let all := shown (from_first_line lim) 1 (lines file) in
  ∃ r, read_text_window file lim = Some r ∧
  match r with
  | Err _ => ¬ plain_text file
  | Ok w =>
      valid_string (win_content w) ∧ (num_chars (win_content w) ≤ lim_max_chars lim)%N ∧
      (win_line_count w ≤ N.max 1 (lim_max_lines lim))%N ∧
      (win_truncated_by_chars w = false → over_bytes lim (string_bytes (win_content w)) = false) ∧
      (win_truncated_by_scan w = false → byte_prefix (win_content w) (glued EmptyString all)) ∧
      (complete w → win_content w = glued EmptyString all ∧
         win_line_count w = N.of_nat (length all))
  end.
Proof.
  intros all. set (lim' := from_first_line lim).
  pose proof (window_start_ok lim : loop_ok lim' window_start) as Hok.
  destruct (window_loop_spec lim' (S (length file)) window_start file ltac:(lia) Hok) as (r & Hr & Hp).
  exists r. split; [exact Hr|]. destruct r as [w|e]; [|exact Hp].
  destruct Hp as ([Hv Hc Hb Hl] & Hpre & Hall). split_and!; [done|exact Hc|exact Hl|exact Hb|exact Hpre|].
  intros Hx. exact (Hall Hx).
Qed.
