(* ===== verification/FileOps.v ===== *)
(** * FileOps: programs over the operating system, and the file operations of [tools.rs] *)
From S2P Require Import Prelude Text Domain StoreTypes Settings Truncation Runtime Paths Tools.
From S2P Require Import ToolText.

(** * Programs over the operating system

    The file tools of [crates/atelia-core/src/tools.rs] are programs that call
    the operating system.  A program is a tree of calls ([Prog]); what a call
    does is given by a step relation over a view of the disk ([World]), which the
    development takes as a parameter and about which it assumes [posix], the
    documented behaviour of each call.  [wp] is the rely-guarantee logic for such
    programs: other processes may act before every call. *)

(** ** Errors, metadata and calls *)

(** The kinds of [io::ErrorKind] the tools produce or look at. *)
Inductive ErrorKind :=
  | KNotFound | KAlreadyExists | KPermissionDenied | KInvalidInput | KInvalidData
  | KFileTooLarge | KUnsupported | KOther.
#[export] Instance error_kind_eq_dec : EqDecision ErrorKind.
Proof. solve_decision. Defined.
Record OsError := { oe_kind : ErrorKind; oe_text : string }.
Abbreviation io := (result OsError).
Definition is_kind (k : ErrorKind) (e : OsError) : bool := bool_decide (oe_kind e = k).

Inductive FileType := TFile | TDir | TSymlink | TOther.
#[export] Instance file_type_eq_dec : EqDecision FileType.
Proof. solve_decision. Defined.

Abbreviation Fd := N (only parsing).
(** A file is known by its device and its number there. *)
Definition Inode : Type := N * N.

Record Metadata := {
  md_inode : Inode;
  md_type : FileType;
  md_len : N;
  md_nlink : N;
  md_mode : N;
  (** Milliseconds since the epoch, where the platform knows them. *)
  md_modified_ms : option Z
}.
Definition is_file (m : Metadata) : bool := bool_decide (md_type m = TFile).
Definition is_dir (m : Metadata) : bool := bool_decide (md_type m = TDir).

Record DirEntry := {
  de_name : string;
  de_file_type : io FileType;
  de_metadata : io Metadata
}.

(** The flags of [openat]; none of them follows a link. *)
Inductive OpenFlags :=
  | ODirectory   (* O_RDONLY | O_DIRECTORY *)
  | ORead        (* O_RDONLY *)
  | OPath        (* O_PATH *)
  | OCreateNew   (* O_WRONLY | O_CREAT | O_EXCL *)
  | OCreate.     (* O_RDWR | O_CREAT *)

Inductive Sys : Type → Type :=
  (* by path *)
  | Canonicalize (p : string) : Sys (io string)
  | SymlinkMetadata (p : string) : Sys (io Metadata)
  | PathMetadata (p : string) : Sys (io Metadata)
  | PathExists (p : string) : Sys bool
  | ReadDir (p : string) : Sys (io (list (io DirEntry)))
  | OpenFile (p : string) (no_follow : bool) : Sys (io Fd)
  | CreateDirAll (p : string) : Sys (io unit)
  | TempDir : Sys string
  (* by descriptor *)
  | OpenRoot : Sys (io Fd)
  | OpenCwd : Sys (io Fd)
  | OpenAt (dir : Fd) (name : string) (flags : OpenFlags) : Sys (io Fd)
  | Fstat (fd : Fd) : Sys (io Metadata)
  | FstatAt (dir : Fd) (name : string) : Sys (io Metadata)
  | FdPath (fd : Fd) : Sys (io string)
  | ReadSome (fd : Fd) (limit : N) : Sys (io bytes)
  | WriteAll (fd : Fd) (data : bytes) : Sys (io unit)
  | SetPermissions (fd : Fd) (mode : N) : Sys (io unit)
  | SyncAll (fd : Fd) : Sys (io unit)
  | RenameAt (src_dir : Fd) (src : string) (dst_dir : Fd) (dst : string) (no_replace : bool)
      : Sys (io unit)
  | UnlinkAt (dir : Fd) (name : string) : Sys (io unit)
  | Flock (fd : Fd) : Sys (io unit)
  | CloseLock (fd : Fd) : Sys unit
  (* the counter of temporary names *)
  | FetchAddCounter : Sys N.

(** ** Programs *)

Inductive Prog (A : Type) : Type :=
  | Done (a : A)
  | Call {R : Type} (c : Sys R) (k : R → Prog A).
Arguments Done {A} a.
Arguments Call {A R} c k.

Fixpoint prog_bind {A B} (p : Prog A) (f : A → Prog B) : Prog B :=
  match p with
  | Done a => f a
  | Call c k => Call c (λ r, prog_bind (k r) f)
  end.
Definition call {R} (c : Sys R) : Prog R := Call c Done.

Notation "'let!' x := p 'in' k" := (prog_bind p (λ x, k))
  (at level 10, x name, p at level 200, k at level 200) : secretary_scope.
(** [?] on a program that may fail. *)
Definition try_bind {A B} (p : Prog (io A)) (f : A → Prog (io B)) : Prog (io B) :=
  prog_bind p (λ r, match r with Ok a => f a | Err e => Done (Err e) end).
Notation "'try!' x := p 'in' k" := (try_bind p (λ x, k))
  (at level 10, x name, p at level 200, k at level 200) : secretary_scope.
Notation "'try!' ' x := p 'in' k" := (try_bind p (λ '(x), k))
  (at level 10, x pattern, p at level 200, k at level 200) : secretary_scope.

(** A program whose calls all satisfy [P], whatever they answer. *)
Fixpoint only {A} (P : ∀ R, Sys R → Prop) (p : Prog A) : Prop :=
  match p with
  | Done _ => True
  | Call c k => P _ c ∧ ∀ r, only P (k r)
  end.

(** ** The disk *)

Record Node := { n_type : FileType; n_data : bytes; n_mode : N; n_synced : bool }.
Record Handle := { h_inode : Inode; h_offset : nat }.

Record World := {
  w_root : Inode;
  (** directory entries: a directory and a name in it *)
  w_names : gmap (Inode * string) Inode;
  w_nodes : gmap Inode Node;
  (** the descriptors of this run, and the files it created *)
  w_handles : gmap Fd Handle;
  w_created : gset Inode;
  (** directories with entries that a crash may lose *)
  w_unsynced : gset Inode;
  (** who holds the lock of a file *)
  w_locks : gmap Inode Fd
}.

Definition with_names (w : World) (names : gmap (Inode * string) Inode) (dirs : list Inode) : World := {|
  w_root := w_root w; w_names := names; w_nodes := w_nodes w; w_handles := w_handles w; w_created := w_created w;
  w_unsynced := w_unsynced w ∪ list_to_set dirs; w_locks := w_locks w |}.
Definition with_node (w : World) (i : Inode) (n : Node) : World := {|
  w_root := w_root w; w_names := w_names w; w_nodes := <[i := n]> (w_nodes w); w_handles := w_handles w;
  w_created := w_created w; w_unsynced := w_unsynced w; w_locks := w_locks w |}.
Definition with_handle (w : World) (fd : Fd) (h : Handle) : World := {|
  w_root := w_root w; w_names := w_names w; w_nodes := w_nodes w; w_handles := <[fd := h]> (w_handles w);
  w_created := w_created w; w_unsynced := w_unsynced w; w_locks := w_locks w |}.
Definition with_created (w : World) (i : Inode) : World := {|
  w_root := w_root w; w_names := w_names w; w_nodes := w_nodes w; w_handles := w_handles w;
  w_created := w_created w ∪ {[i]}; w_unsynced := w_unsynced w; w_locks := w_locks w |}.
Definition with_locks (w : World) (locks : gmap Inode Fd) : World := {|
  w_root := w_root w; w_names := w_names w; w_nodes := w_nodes w; w_handles := w_handles w; w_created := w_created w;
  w_unsynced := w_unsynced w; w_locks := locks |}.
Definition with_synced (w : World) (i : Inode) : World := {|
  w_root := w_root w; w_names := w_names w; w_nodes := w_nodes w; w_handles := w_handles w; w_created := w_created w;
  w_unsynced := w_unsynced w ∖ {[i]}; w_locks := w_locks w |}.

(** A file just created; the mode it was asked for loses the bits of the umask. *)
Definition empty_file (mode : N) : Node := {| n_type := TFile; n_data := []; n_mode := mode; n_synced := false |}.
(** How many entries name a file. *)
Definition links (w : World) (i : Inode) : N :=
  N.of_nat (size (filter (λ kv : (Inode * string) * Inode, kv.2 = i) (w_names w))).
Definition opened (w : World) (fd : Fd) (i : Inode) : Prop :=
  ∃ h, w_handles w !! fd = Some h ∧ h_inode h = i.
(** What [stat] says of a file. *)
Definition describes (w : World) (m : Metadata) (i : Inode) : Prop :=
  ∃ n, w_nodes w !! i = Some n ∧ md_inode m = i ∧ md_type m = n_type n ∧
       md_len m = N.of_nat (length (n_data n)) ∧ md_nlink m = links w i ∧ md_mode m = n_mode n.
(** A fresh descriptor for a file. *)
Definition opens (w : World) (fd : Fd) (i : Inode) (w' : World) : Prop :=
  w_handles w !! fd = None ∧ w' = with_handle w fd {| h_inode := i; h_offset := 0 |}.
(** A new empty file under a new name. *)
Definition creates (w : World) (dir : Inode) (name : string) (i : Inode) (w' : World) : Prop :=
  w_names w !! (dir, name) = None ∧ w_nodes w !! i = None ∧ (∀ k, w_names w !! k ≠ Some i) ∧
  ∃ mode, w' = with_created (with_node (with_names w (<[(dir, name) := i]> (w_names w)) [dir]) i (empty_file mode)) i.

Definition write_at (off : nat) (new old : bytes) : bytes :=
  take off old ++ new ++ drop (off + length new) old.

(** Only new entries, for new directories. *)
Record grows (w w' : World) : Prop := {
  grow_names k i : w_names w !! k = Some i → w_names w' !! k = Some i;
  grow_nodes i n : w_nodes w !! i = Some n → w_nodes w' !! i = Some n;
  grow_fresh k i : w_names w !! k = None → w_names w' !! k = Some i → w_nodes w !! i = None;
  grow_dirs k i : w_names w !! k = None → w_names w' !! k = Some i →
    ∃ n, w_nodes w' !! i = Some n ∧ n_type n = TDir ∧ n_data n = [];
  grow_root : w_root w' = w_root w;
  grow_handles : w_handles w' = w_handles w;
  grow_created : w_created w' = w_created w;
  grow_locks : w_locks w' = w_locks w;
  grow_unsynced : w_unsynced w ⊆ w_unsynced w'
}.

(** A call that fails changes nothing. *)
Definition if_ok {A} (r : io A) (w w' : World) (P : A → Prop) : Prop :=
  match r with Ok a => P a | Err _ => w' = w end.

(** *** The documented behaviour of the calls *)
Definition posix {R} (c : Sys R) : World → R → World → Prop :=
  match c in Sys R return World → R → World → Prop with
  | Canonicalize _ => λ w r w', w' = w ∧ if_ok r w w' (λ p, is_absolute p = true)
  | SymlinkMetadata _ => λ w r w', w' = w ∧ if_ok r w w' (λ m, ∃ i, describes w m i)
  | PathMetadata _ => λ w r w', w' = w ∧ if_ok r w w' (λ m, ∃ i, describes w m i)
  | PathExists _ => λ w _ w', w' = w
  | ReadDir _ => λ w _ w', w' = w
  | OpenFile _ _ => λ w r w', if_ok r w w' (λ fd, ∃ i, is_Some (w_nodes w !! i) ∧ opens w fd i w')
  | CreateDirAll _ => λ w _ w', grows w w'
  | TempDir => λ w _ w', w' = w
  | OpenRoot => λ w r w', if_ok r w w' (λ fd, opens w fd (w_root w) w')
  | OpenCwd => λ w r w', if_ok r w w' (λ fd, ∃ i, opens w fd i w')
  | OpenAt dir name flags => λ w r w', if_ok r w w' (λ fd, ∃ d i, opened w dir d ∧
      match flags with
      | OCreateNew => ∃ w1, creates w d name i w1 ∧ opens w1 fd i w'
      | OCreate => w_names w !! (d, name) = Some i ∧ opens w fd i w' ∨
                   ∃ w1, creates w d name i w1 ∧ opens w1 fd i w'
      | _ => ∃ n, w_names w !! (d, name) = Some i ∧ w_nodes w !! i = Some n ∧ opens w fd i w' ∧
                  match flags with ODirectory => n_type n = TDir
                                 | ORead => n_type n ≠ TSymlink | _ => True end
      end)
  | Fstat fd => λ w r w', w' = w ∧ if_ok r w w' (λ m, ∃ i, opened w fd i ∧ describes w m i)
  | FstatAt dir name => λ w r w', w' = w ∧
      match r with
      | Ok m => ∃ d i, opened w dir d ∧ w_names w !! (d, name) = Some i ∧ describes w m i
      | Err e => is_kind KNotFound e = true → ∀ d, opened w dir d → w_names w !! (d, name) = None
      end
  | FdPath _ => λ w _ w', w' = w
  | ReadSome fd limit => λ w r w', if_ok r w w' (λ data, ∃ h n,
      w_handles w !! fd = Some h ∧ w_nodes w !! h_inode h = Some n ∧
      (N.of_nat (length data) ≤ limit)%N ∧ data `prefix_of` drop (h_offset h) (n_data n) ∧
      ((0 < limit)%N → data = [] → drop (h_offset h) (n_data n) = []) ∧
      w' = with_handle w fd {| h_inode := h_inode h; h_offset := h_offset h + length data |})
  | WriteAll fd data => λ w r w',
      (w' = w ∧ ∃ e, r = Err e) ∨
      ∃ h n written,
        w_handles w !! fd = Some h ∧ w_nodes w !! h_inode h = Some n ∧
        match r with Ok _ => written = data | Err _ => written `prefix_of` data end ∧
        w' = with_handle
               (with_node w (h_inode h) {| n_type := n_type n; n_mode := n_mode n; n_synced := false;
                  n_data := write_at (h_offset h) written (n_data n) |})
               fd {| h_inode := h_inode h; h_offset := h_offset h + length written |}
  | SetPermissions fd mode => λ w r w', if_ok r w w' (λ _, ∃ i n, opened w fd i ∧
      w_nodes w !! i = Some n ∧
      w' = with_node w i {| n_type := n_type n; n_data := n_data n; n_mode := mode; n_synced := false |})
  | SyncAll fd => λ w r w', if_ok r w w' (λ _, ∃ i n, opened w fd i ∧ w_nodes w !! i = Some n ∧
      w' = with_synced (with_node w i {| n_type := n_type n; n_data := n_data n; n_mode := n_mode n;
                                         n_synced := true |}) i)
  | RenameAt src_dir src dst_dir dst no_replace => λ w r w', if_ok r w w' (λ _, ∃ s d i,
      opened w src_dir s ∧ opened w dst_dir d ∧ w_names w !! (s, src) = Some i ∧
      (no_replace = true → w_names w !! (d, dst) = None) ∧
      w' = if decide (w_names w !! (d, dst) = Some i) then w
           else with_names w (<[(d, dst) := i]> (delete (s, src) (w_names w))) [s; d])
  | UnlinkAt dir name => λ w r w', if_ok r w w' (λ _, ∃ d i,
      opened w dir d ∧ w_names w !! (d, name) = Some i ∧
      w' = with_names w (delete (d, name) (w_names w)) [d])
  | Flock fd => λ w r w', if_ok r w w' (λ _, ∃ i, opened w fd i ∧
      (w_locks w !! i = None ∨ w_locks w !! i = Some fd) ∧ w' = with_locks w (<[i := fd]> (w_locks w)))
  | CloseLock fd => λ w _ w', w' = with_locks w (filter (λ kv, kv.2 ≠ fd) (w_locks w))
  | FetchAddCounter => λ w _ w', w' = w
  end.

(** An operating system, and that it behaves as documented. *)
Class Os := os_step : ∀ R, Sys R → World → R → World → Prop.
Arguments os_step {_ R} c w r w'.
Class PosixLaws (os : Os) : Prop :=
  documented : ∀ R (c : Sys R) w r w', os_step c w r w' → posix c w r w'.
Arguments documented {_ _ R} c w r w' _.

(** ** Running a program beside other processes *)

Section Logic.
Context {os : Os} (others : World → World → Prop).

(** One call: others act, then the system answers. *)
Definition step {A} (ρ : World * Prog A) (w1 : World) (ρ' : World * Prog A) : Prop :=
  match ρ.2 with
  | Done _ => False
  | Call c k => ∃ r, others ρ.1 w1 ∧ os_step c w1 r ρ'.1 ∧ ρ'.2 = k r
  end.
Definition steps {A} : relation (World * Prog A) := rtc (λ ρ ρ', ∃ w, step ρ w ρ').

(** [G] holds of every call and [Q] of the result. *)
Fixpoint wp {A} (G : World → World → Prop) (p : Prog A) (Q : A → World → Prop) (w : World) : Prop :=
  match p with
  | Done a => Q a w
  | Call c k => ∀ w1 r w2, others w w1 → os_step c w1 r w2 → G w1 w2 ∧ wp G (k r) Q w2
  end.

Lemma wp_mono {A} G (p : Prog A) (Q Q' : A → World → Prop) w :
  (∀ a w, Q a w → Q' a w) → wp G p Q w → wp G p Q' w.
Proof.
  intros HQ. revert w. induction p as [a|R c k IH]; intros w; simpl; [apply HQ|].
  intros H w1 r w2 Ho Hs. destruct (H w1 r w2 Ho Hs). split; [done|by apply IH].
Qed.
Lemma wp_bind {A B} G (p : Prog A) (f : A → Prog B) Q w :
  wp G p (λ a w', wp G (f a) Q w') w → wp G (prog_bind p f) Q w.
Proof.
  revert w. induction p as [a|R c k IH]; intros w; simpl; [done|].
  intros H w1 r w2 Ho Hs. destruct (H w1 r w2 Ho Hs). split; [done|by apply IH].
Qed.
Lemma wp_try {A B} G (p : Prog (io A)) (f : A → Prog (io B)) Q w :
  wp G p (λ r w', match r with Ok a => wp G (f a) Q w' | Err e => Q (Err e) w' end) w →
  wp G (try_bind p f) Q w.
Proof. intros H. apply wp_bind. eapply wp_mono; [|exact H]. by intros [a|e] w'. Qed.
Lemma wp_call {R} G (c : Sys R) Q w :
  (∀ w1 r w2, others w w1 → os_step c w1 r w2 → G w1 w2 ∧ Q r w2) → wp G (call c) Q w.
Proof. done. Qed.
Lemma wp_weaken {A} (G G' : World → World → Prop) (p : Prog A) Q w :
  (∀ w w', G w w' → G' w w') → wp G p Q w → wp G' p Q w.
Proof.
  intros HG. revert w. induction p as [a|R c k IH]; intros w; simpl; [done|].
  intros H w1 r w2 Ho Hs. destruct (H w1 r w2 Ho Hs). split; [by apply HG|by apply IH].
Qed.

(** What [wp] promises holds of every run, complete or not. *)
Lemma wp_adequate {A} G (p : Prog A) Q w :
  wp G p Q w → ∀ w' p', steps (w, p) (w', p') →
  (∀ w1 ρ, step (w', p') w1 ρ → G w1 ρ.1) ∧ (∀ a, p' = Done a → Q a w').
Proof.
  intros Hwp w' p' Hs. assert (Hwp' : wp G p' Q w').
  { change (wp G (w', p').2 Q (w', p').1). change (wp G (w, p).2 Q (w, p).1) in Hwp.
    induction Hs as [ρ|ρ ρ1 ρ2 [w1 Hstep] _ IH]; [done|apply IH]. clear IH.
    destruct ρ as [v [a|R c k]]; [done|]. destruct Hstep as (r & Ho & Hos & ->). by destruct (Hwp w1 r _ Ho Hos). }
  split.
  - intros w1 ρ Hstep. destruct p' as [a|R c k]; [done|]. destruct Hstep as (r & Ho & Hos & _).
    by destruct (Hwp' w1 r _ Ho Hos).
  - intros a ->. exact Hwp'.
Qed.
End Logic.

(** ** The history of a run *)

(** A call and its answer; a history has the latest first. *)
Inductive Event : Type :=
  | Ev {R : Type} (c : Sys R) (r : R).
Definition answered (h : list Event) (R : Type) (c : Sys R) (r : R) : Prop := Ev c r ∈ h.

(** A run that carries its history. *)
Inductive recorded {os : Os} (others : World → World → Prop) {A} (ρ : World * Prog A)
  : list Event → World * Prog A → Prop :=
  | recorded_start : recorded others ρ [] ρ
  | recorded_call h w {R} (c : Sys R) k w1 r w2 :
      recorded others ρ h (w, Call c k) → others w w1 → os_step c w1 r w2 →
      recorded others ρ (Ev c r :: h) (w2, k r).

(** The system as a run saw it: it gives no answer but those of the history.  What
    is proved of every system then speaks of the answers of this very run. *)
Definition observed (os : Os) (h : list Event) : Os :=
  λ R c w r w', os_step c w r w' ∧ answered h R c r.
#[export] Instance observed_lawful os h : PosixLaws os → PosixLaws (observed os h).
Proof. intros Hos R c w r w' [Hs _]. by apply documented. Qed.
Lemma recorded_observed {os : Os} others {A} (ρ ρ' : World * Prog A) h h' :
  recorded others ρ h ρ' → h ⊆ h' → @steps (observed os h') others A ρ ρ'.
Proof.
  induction 1 as [|h w R c k w1 r w2 _ IH Ho Hs]; intros Hh; [done|].
  eapply rtc_r; [apply IH; etrans; [by apply list_subseteq_cons|exact Hh]|].
  exists w1, r. split_and!; [done| |done]. split; [done|]. apply Hh. by left.
Qed.
(** What [wp] promises of the system as the run saw it. *)
Lemma recorded_adequate {os : Os} others {A} (p : Prog A) Q w h w' a :
  wp (os := observed os h) others (λ _ _, True) p Q w → recorded others (w, p) h (w', Done a) → Q a w'.
Proof. intros Hwp Hr. eapply (wp_adequate (os := observed os h)); [exact Hwp|by eapply recorded_observed|done]. Qed.
Lemma recorded_call_adequate {os : Os} others {A} G (p : Prog A) Q w h w' {R} (c : Sys R) k w1 r w2 :
  wp (os := observed os (Ev c r :: h)) others G p Q w →
  recorded others (w, p) h (w', Call c k) → others w' w1 → os_step c w1 r w2 → G w1 w2.
Proof.
  intros Hwp Hr Ho Hs. apply (wp_adequate (os := observed os (Ev c r :: h))) with (w' := w') (p' := Call c k) in Hwp.
  - destruct Hwp as [HG _]. apply (HG w1 (w2, k r)). exists r. split_and!; [done| |done]. split; [done|]. by left.
  - eapply recorded_observed; [done|]. by apply list_subseteq_cons.
Qed.

(** * The file operations of the tools ([crates/atelia-core/src/tools.rs])

    Descriptors opened without following links, the names and the locking of
    write locks, atomic replacement through a temporary file, and the validated
    unlink and rename, as programs over system calls.  The Unix and Linux variants
    of the source are modelled. *)

Definition io_error (kind : ErrorKind) (text : string) : OsError := {| oe_kind := kind; oe_text := text |}.
Definition fails {A} (kind : ErrorKind) (text : string) : Prog (io A) := Done (Err (io_error kind text)).

Definition WRITE_FILE_TMP_PREFIX : string := "atelia-write-tmp".
Definition WRITE_FILE_LOCK_PREFIX : string := "atelia-write-lock".

(** ** Opening *)

(** [CString::new], then a call with the name. *)
Definition with_c_name {A} (name : string) (p : string → Prog (io A)) : Prog (io A) :=
  if bool_decide (nul ∈ to_bytes name) then fails KInvalidInput "path contains NUL byte" else p name.

Fixpoint open_segments (dir : Fd) (cs : list PathComponent) : Prog (io Fd) :=
  match cs with
  | [] => Done (Ok dir)
  | (RootDir | CurDir) :: cs => open_segments dir cs
  | Normal segment :: cs =>
      try! dir := with_c_name segment (λ s, call (OpenAt dir s ODirectory)) in open_segments dir cs
  | ParentDir :: _ => fails KInvalidInput "unsupported path component for write operations"
  end.
Definition open_parent_no_follow (path : string) : Prog (io Fd) :=
  try! dir := (if is_absolute path then call OpenRoot else call OpenCwd) in
  open_segments dir (path_components path).

Definition open_at (flags : OpenFlags) (parent : Fd) (name : string) : Prog (io Fd) :=
  with_c_name name (λ name, call (OpenAt parent name flags)).
(** With [create_new]; the tools never open an existing file for writing. *)
Definition open_no_follow_in_parent_dir : Fd → string → Prog (io Fd) := open_at OCreateNew.
Definition open_read_no_follow_in_parent_dir : Fd → string → Prog (io Fd) := open_at ORead.
Definition open_path_no_follow_in_parent_dir : Fd → string → Prog (io Fd) := open_at OPath.
Definition open_or_create_no_follow_in_parent_dir : Fd → string → Prog (io Fd) := open_at OCreate.

(** The file a resolved path names must still be inside the root when opened. *)
Definition open_canonical_file_within_scope (c : CanonicalPath) : Prog (io Fd) :=
  try! file := call (OpenFile (cp_canonical c) true) in
  try! opened_path := call (FdPath file) in
  if path_starts_with opened_path (cp_root c) then Done (Ok file)
  else fails KPermissionDenied "opened file escaped repository root".

(** ** Write locks *)

Definition u64 (n : N) : N := (n mod 2 ^ 64)%N.
Definition rotate_left_27 (n : N) : N := N.lor (u64 (N.shiftl n 27)) (N.shiftr n 37).
Definition lock_digest_byte (digest : N) (byte : ascii) : N :=
  let digest := N.lxor digest (code byte) in
  let digest := u64 (rotate_left_27 digest * 5) in
  N.lxor digest (N.shiftr digest 32).
Definition stable_lock_suffix (l : bytes) : string :=
  of_bytes (hex_digits 16 (foldl lock_digest_byte 14695981039346655577%N l) []).
Definition write_lock_file_name_for_path (path : string) : string :=
  WRITE_FILE_LOCK_PREFIX +:+ "-" +:+ stable_lock_suffix (to_bytes path) +:+ ".lock".

Definition write_lock_directory : Prog (io string) :=
  let! temp_dir := call TempDir in
  try! _ := call (CreateDirAll temp_dir) in
  try! temp_dir := call (Canonicalize temp_dir) in
  let lock_directory := path_join (path_join temp_dir "atelia-secretary") "locks" in
  try! _ := call (CreateDirAll lock_directory) in
  call (Canonicalize lock_directory).

Definition acquire_write_lock (path : string) : Prog (io Fd) :=
  try! lock_directory := write_lock_directory in
  try! lock_parent := open_parent_no_follow lock_directory in
  try! lock_file :=
    open_or_create_no_follow_in_parent_dir lock_parent (write_lock_file_name_for_path path) in
  try! _ := call (Flock lock_file) in
  Done (Ok lock_file).

Definition parent_or_error (path : string) : io string :=
  ok_or (path_parent path) (io_error KInvalidInput "path has no parent directory").
Definition name_or_error (path : string) : io string :=
  ok_or (path_file_name path) (io_error KInvalidInput "path has no file name").

Definition lock_target_for_patch (path : string) : Prog (io (Fd * Fd)) :=
  try! parent := Done (parent_or_error path) in
  try! parent_dir := open_parent_no_follow parent in
  try! destination_lock := acquire_write_lock path in
  Done (Ok (parent_dir, destination_lock)).

(** Two paths are locked in the order of their bytes; a path once. *)
Definition acquire_ordered_write_locks (first_path second_path : string) : Prog (io (list Fd)) :=
  if path_eqb first_path second_path
  then try! a := acquire_write_lock first_path in Done (Ok [a])
  else
    let '(one, two) := if str_le first_path second_path then (first_path, second_path)
                       else (second_path, first_path) in
    try! a := acquire_write_lock one in
    try! b := acquire_write_lock two in
    Done (Ok [a; b]).

(** The locks of a scope are released when it ends. *)
Fixpoint release (locks : list Fd) : Prog unit :=
  match locks with
  | [] => Done tt
  | l :: locks => let! _ := call (CloseLock l) in release locks
  end.
Definition holding {A} (locks : list Fd) (p : Prog A) : Prog A :=
  let! r := p in let! _ := release locks in Done r.

(** ** Reading a whole file *)

Definition READ_BUFFER : N := 8192.
(** Every turn reads a byte or ends, and no more than the limit is kept. *)
Fixpoint read_loop (fuel : nat) (file : Fd) (max_bytes : N) (content : bytes) : Prog (io bytes) :=
  match fuel with
  | O => fails KFileTooLarge "file exceeds configured byte limit"
  | S fuel =>
      try! data := call (ReadSome file READ_BUFFER) in
      if bool_decide (data = []) then Done (Ok content)
      else
        let content := content ++ data in
        if (max_bytes <? N.of_nat (length content))%N
        then fails KFileTooLarge "file exceeds configured byte limit"
        else read_loop fuel file max_bytes content
  end.
(** The text of a UTF-8 error: its place, and the length of what is wrong. *)
Definition utf8_error_text (e : Utf8Error) : string :=
  match ue_error_len e with
  | Some n => "invalid utf-8 sequence of " +:+ num (N.of_nat n) +:+ " bytes from index " +:+ num (N.of_nat (ue_valid_up_to e))
  | None => "incomplete utf-8 byte sequence from index " +:+ num (N.of_nat (ue_valid_up_to e))
  end.
Definition read_entire_text_file_from_open_file (file : Fd) (max_bytes : N) : Prog (io string) :=
  try! content := read_loop (S (S (N.to_nat max_bytes))) file max_bytes [] in
  Done (map_err (λ e, io_error KInvalidData ("invalid UTF-8 content: " +:+ utf8_error_text e))
          (from_utf8 content)).

(** ** Replacing a file *)

Definition temporary_write_file_name (file_name : string) (attempt : N) : Prog string :=
  let! counter := call FetchAddCounter in
  Done (WRITE_FILE_TMP_PREFIX +:+ "-" +:+ to_string_lossy file_name +:+ "-" +:+ num (counter + attempt)).

(** [attempts] more names are tried. *)
Fixpoint create_temporary (attempts : nat) (parent : Fd) (file_name : string) (attempt : N)
  : Prog (io (string * Fd)) :=
  match attempts with
  | O => fails KAlreadyExists "failed to create temporary write file"
  | S attempts =>
      let! temp_name := temporary_write_file_name file_name attempt in
      let! r := open_no_follow_in_parent_dir parent temp_name in
      match r with
      | Ok file => Done (Ok (temp_name, file))
      | Err error => if is_kind KAlreadyExists error
                     then create_temporary attempts parent file_name (attempt + 1)
                     else Done (Err error)
      end
  end.
Definition create_temporary_file_in_parent_dir (parent : Fd) (file_name : string)
  : Prog (io (string * Fd)) := create_temporary 128 parent file_name 0.

(** On Linux a rename that must not replace is [renameat2]; a file system
    without it refuses. *)
Definition rename_between_parent_dirs (source_parent : Fd) (source : string)
  (destination_parent : Fd) (destination : string) (create_new : bool) : Prog (io unit) :=
  with_c_name source (λ source,
    with_c_name destination (λ destination,
      let! r := call (RenameAt source_parent source destination_parent destination create_new) in
      match r with
      | Ok _ => Done (Ok tt)
      | Err error =>
          if create_new && (is_kind KUnsupported error || is_kind KInvalidInput error)
          then fails KUnsupported "filesystem does not support atomic create_new renames"
          else Done (Err error)
      end)).
Definition rename_in_parent_dir (parent : Fd) (source destination : string) (create_new : bool)
  : Prog (io unit) := rename_between_parent_dirs parent source parent destination create_new.
Definition unlink_in_parent_dir (parent : Fd) (name : string) : Prog (io unit) :=
  with_c_name name (λ name, call (UnlinkAt parent name)).

(** What is written before the new content takes the name; flushing a [File]
    does nothing. *)
Definition write_temporary (parent_dir temp_file : Fd) (temp_name file_name : string) (data : bytes)
  (existing_permissions : option N) (create_new fail_after_write : bool) : Prog (io unit) :=
  try! _ := call (WriteAll temp_file data) in
  try! _ := (match existing_permissions with
             | Some mode => call (SetPermissions temp_file mode)
             | None => Done (Ok tt)
             end) in
  try! _ := call (SyncAll temp_file) in
  if fail_after_write then fails KOther "simulated write failure"
  else rename_in_parent_dir parent_dir temp_name file_name create_new.

Definition replace_file_atomically (parent_dir : Fd) (file_name : string) (data : bytes)
  (create_new fail_after_write : bool) : Prog (io unit) :=
  try! existing_permissions :=
    (if create_new then Done (Ok None)
     else try! existing_file := open_read_no_follow_in_parent_dir parent_dir file_name in
          try! existing_metadata := call (Fstat existing_file) in
          Done (Ok (Some (md_mode existing_metadata)))) in
  try! '(temp_name, temp_file) := create_temporary_file_in_parent_dir parent_dir file_name in
  let! write_result := write_temporary parent_dir temp_file temp_name file_name data
                         existing_permissions create_new fail_after_write in
  match write_result with
  | Err error => let! _ := unlink_in_parent_dir parent_dir temp_name in Done (Err error)
  | Ok _ => try! _ := call (SyncAll parent_dir) in Done (Ok tt)
  end.
(** The lock of the target is held until the function returns. *)
Definition write_file_bytes_atomically_inner_locked (parent_dir : Fd) (file_name : string)
  (data : bytes) (create_new fail_after_write : bool) (destination_lock : Fd) : Prog (io unit) :=
  holding [destination_lock]
    (replace_file_atomically parent_dir file_name data create_new fail_after_write).

Definition write_file_bytes_atomically_inner (path : string) (data : bytes)
  (create_new fail_after_write : bool) : Prog (io unit) :=
  try! parent := Done (parent_or_error path) in
  try! file_name := Done (name_or_error path) in
  try! parent_dir := open_parent_no_follow parent in
  try! destination_lock := acquire_write_lock path in
  write_file_bytes_atomically_inner_locked parent_dir file_name data create_new fail_after_write
    destination_lock.
Definition write_file_bytes_atomically (path : string) (data : bytes) (create_new : bool)
  : Prog (io unit) := write_file_bytes_atomically_inner path data create_new false.

(** ** Validated unlink and rename *)

Definition same_inode (a b : Metadata) : bool := bool_decide (md_inode a = md_inode b).
Definition ensure_opened_metadata_matches (expected opened : Metadata) (context : string) : io unit :=
  if same_inode opened expected then Ok tt else Err (io_error KPermissionDenied context).
Definition ensure_named_entry_matches (parent : Fd) (name : string) (expected : Metadata)
  (context : string) : Prog (io unit) :=
  try! stat := with_c_name name (λ name, call (FstatAt parent name)) in
  Done (ensure_opened_metadata_matches expected stat context).
Definition named_entry_matches_metadata (parent : Fd) (name : string) (expected : Metadata)
  : Prog (io bool) :=
  with_c_name name (λ name,
    let! r := call (FstatAt parent name) in
    Done (match r with
          | Ok stat => Ok (same_inode stat expected)
          | Err error => if is_kind KNotFound error then Ok false else Err error
          end)).
Definition ensure_named_entry_no_longer_matches (parent : Fd) (name : string) (expected : Metadata)
  (context : string) : Prog (io unit) :=
  try! still := named_entry_matches_metadata parent name expected in
  if (still : bool) then fails KPermissionDenied context else Done (Ok tt).
Definition ensure_opened_link_count_decreased (file : Fd) (before : Metadata) (context : string)
  : Prog (io unit) :=
  try! after := call (Fstat file) in
  if negb (same_inode after before)
  then fails KPermissionDenied "opened file identity changed after mutation"
  else if (md_nlink before <=? md_nlink after)%N then fails KPermissionDenied context
  else Done (Ok tt).

Definition unlink_validated_file_in_parent_dir (parent : Fd) (name : string)
  (expected_metadata : Metadata) (resolved_fd : option Fd) : Prog (io unit) :=
  try! fd := Done (ok_or resolved_fd
                     (io_error KPermissionDenied "race-safe delete requires a resolved file descriptor")) in
  try! opened_metadata := call (Fstat fd) in
  if negb (is_file opened_metadata) then fails KInvalidInput "target is not a file"
  else if negb (md_nlink opened_metadata =? 1)%N
  then fails KInvalidInput "race-safe delete requires single-link target"
  else
    try! _ := Done (ensure_opened_metadata_matches expected_metadata opened_metadata
                      "opened delete target did not match resolved record") in
    try! _ := ensure_named_entry_matches parent name opened_metadata
                "delete target changed before unlink" in
    try! _ := unlink_in_parent_dir parent name in
    ensure_opened_link_count_decreased fd opened_metadata
      "delete target link count did not decrease after unlink".

Definition rename_validated_file_between_parent_dirs (source_parent : Fd) (source : string)
  (destination_parent : Fd) (destination : string) (create_new : bool)
  (expected_metadata : Metadata) (resolved_fd : option Fd) : Prog (io unit) :=
  try! fd := Done (ok_or resolved_fd
                     (io_error KPermissionDenied "race-safe move requires a resolved file descriptor")) in
  try! opened_metadata := call (Fstat fd) in
  if negb (is_file opened_metadata) then fails KInvalidInput "source is not a file"
  else
    try! _ := Done (ensure_opened_metadata_matches expected_metadata opened_metadata
                      "opened move source did not match resolved record") in
    try! _ := ensure_named_entry_matches source_parent source opened_metadata
                "move source changed before rename" in
    try! _ := rename_between_parent_dirs source_parent source destination_parent destination
                create_new in
    try! _ := ensure_named_entry_no_longer_matches source_parent source opened_metadata
                "move source still referenced validated file after rename" in
    ensure_named_entry_matches destination_parent destination opened_metadata
      "move destination did not reference validated file after rename".
