(* ===== verification/MutationTools.v ===== *)
(** * MutationTools: writing, patching, deleting and moving ([tools.rs])

    The tools that change files, from their arguments to the result they report:
    the resolution of the target against the file system as it answers call by
    call, and [execute] of [fs.write], [fs.delete], [fs.move] and [fs.patch]. *)
From S2P Require Import Prelude Text Truncation Domain StoreTypes Settings Runtime.
From S2P Require Import Paths Packages Tools ToolText FileOps.

(** ** Results *)

(** The arguments of [make_tool_result]; no tool reports redactions. *)
Record Report := {
  report_status : ToolResultStatus;
  report_schema_ref : string;
  report_fields : list ToolResultField;
  report_truncation : option TruncationMetadata
}.
Definition make_tool_result `{Entropy} (invocation : ToolInvocation) (r : Report) (s : Sources)
  : Sources * ToolResult :=
  let '(s, uuid) := draw_uuid s in
  let '(s, now) := draw_now s in
  (s, {| res_id := id_new ToolResultIdKind uuid; res_schema_version := TOOLS_SCHEMA_VERSION;
         res_created_at := now; res_invocation_id := inv_id invocation;
         res_tool_id := inv_tool_id invocation; res_status := report_status r;
         res_schema_ref := Some (report_schema_ref r); res_fields := report_fields r;
         res_evidence_refs := []; res_output_refs := []; res_truncation := report_truncation r;
         res_redactions := [] |}).

Definition succeeded (schema_ref : string) (fields : list ToolResultField) : Report := {|
  report_status := TrSucceeded; report_schema_ref := schema_ref; report_fields := fields;
  report_truncation := None |}.
Definition failed_result (schema_ref summary error_detail : string) : Report := {|
  report_status := TrFailed; report_schema_ref := schema_ref;
  report_fields := [string_field "summary" summary; string_field "error" error_detail];
  report_truncation := None |}.
(** [n as i64] of an unsigned 64-bit number. *)
Definition as_i64 (n : N) : Z :=
  if (n <? 2 ^ 63)%N then Z.of_N n else (Z.of_N n - 2 ^ 64)%Z.
Definition integer_field (key : string) (n : N) : ToolResultField :=
  {| field_key := key; field_value := SvInteger (as_i64 n) |}.
Definition bool_field (key : string) (b : bool) : ToolResultField :=
  {| field_key := key; field_value := SvBool b |}.

(** [err.to_string()]; the text of an error of the system has no arguments. *)
Definition path_error_text (e : PathResolutionError) : string :=
  match e with
  | RootNotFound => "repository root not found"
  | TargetNotFound requested => "target path not found: " +:+ to_string_lossy requested
  | MetadataFailure requested (Fmt reason _) =>
      "target path metadata unavailable for " +:+ to_string_lossy requested +:+ ": " +:+ reason
  | SymlinkRejected requested => "target path is a symlink: " +:+ to_string_lossy requested
  | OutsideRepositoryScope resolved root =>
      "resolved path " +:+ to_string_lossy resolved +:+ " is outside repository root "
      +:+ to_string_lossy root
  end.

(** ** Resolving a path, call by call *)

Definition resolving A : Type := Prog (result PathResolutionError A).
Definition pbind {A B} (p : resolving A) (f : A → resolving B) : resolving B :=
  prog_bind p (λ r, match r with Ok a => f a | Err e => Done (Err e) end).
Notation "'res!' x := p 'in' k" := (pbind p (λ x, k))
  (at level 10, x name, p at level 200, k at level 200) : secretary_scope.
Definition canonicalize_or (e : PathResolutionError) (p : string) : resolving string :=
  let! r := call (Canonicalize p) in Done (map_err (λ _, e) r).

Definition canonicalize_within_scope_io (repo_root relative_path : string) : resolving CanonicalPath :=
  res! canonical_root := canonicalize_or RootNotFound repo_root in
  let target := target_of canonical_root relative_path in
  res! canonical_target := canonicalize_or (TargetNotFound target) target in
  Done (within_root canonical_root canonical_target).

Fixpoint check_ancestors_io (canonical_root : string) (fuel : nat) (ancestor : option string)
  : resolving unit :=
  match ancestor, fuel with
  | Some path, S fuel =>
      if path_eqb path canonical_root then Done (Ok tt)
      else
        res! _ := (if path_starts_with path canonical_root
                   then let! r := call (SymlinkMetadata path) in
                        Done (match r with
                              | Ok metadata => if bool_decide (md_type metadata = TSymlink)
                                               then Err (SymlinkRejected path) else Ok tt
                              | Err error => if is_kind KNotFound error then Ok tt
                                             else Err (MetadataFailure path (msg (oe_text error)))
                              end)
                   else Done (Ok tt)) in
        check_ancestors_io canonical_root fuel (path_parent path)
  | _, _ => Done (Ok tt)
  end.

Definition resolve_new_target_io (repository_root canonical_root target : string)
  : resolving CanonicalPath :=
  res! file_name := Done (ok_or (path_file_name target) (TargetNotFound target)) in
  if str_eqb file_name "." || str_eqb file_name ".." then Done (Err (TargetNotFound target))
  else
    res! parent := Done (ok_or (path_parent target) (TargetNotFound target)) in
    res! canonical_parent := canonicalize_within_scope_io repository_root parent in
    Done (within_root canonical_root (path_join (cp_canonical canonical_parent) file_name)).

(** The descriptor of the target as it was resolved; failures only lose it. *)
Definition resolved_fd (canonical_target : string) : Prog (option Fd) :=
  match path_parent canonical_target, path_file_name canonical_target with
  | Some parent, Some name =>
      let! r := (try! dir := open_parent_no_follow parent in
                 open_path_no_follow_in_parent_dir dir name) in
      Done (match r with Ok fd => Some fd | Err _ => None end)
  | _, _ => Done None
  end.

(** A target, and its descriptor if it exists. *)
Definition resolve_mutation_target_io (repository_root relative_path : string)
  : resolving (MutationTarget * option Fd) :=
  res! canonical_root := canonicalize_or RootNotFound repository_root in
  let target := target_of canonical_root relative_path in
  res! _ := check_ancestors_io canonical_root (length (path_components target)) (path_parent target) in
  let! r := call (SymlinkMetadata target) in
  match r with
  | Ok metadata =>
      if bool_decide (md_type metadata = TSymlink) then Done (Err (SymlinkRejected target))
      else
        res! canonical_target := canonicalize_or (TargetNotFound target) target in
        res! resolved := Done (within_root canonical_root canonical_target) in
        let! fd := resolved_fd canonical_target in
        Done (Ok (mutation_target resolved, fd))
  | Err error =>
      if is_kind KNotFound error
      then res! resolved := resolve_new_target_io repository_root canonical_root target in
           Done (Ok (mutation_target resolved, None))
      else Done (Err (MetadataFailure target (msg (oe_text error))))
  end.

(** ** [fs.write] *)

Definition write_schema : string := "tool_result.fs.write.v1".
Definition failure_at (schema_ref summary : string) (target : MutationTarget) (err : OsError) : Report :=
  failed_result schema_ref summary (mt_display_path target +:+ ": " +:+ oe_text err).

Definition write_report (t : FsWriteTool) (target : MutationTarget) (exists_ : bool) : Report :=
  let bytes := str_len (write_content t) in
  let summary :=
    if exists_ then "overwrote " +:+ num bytes +:+ " bytes in " +:+ mt_display_path target
    else "created " +:+ num bytes +:+ " bytes at " +:+ mt_display_path target in
  succeeded write_schema
    [string_field "summary" summary; string_field "path" (mt_display_path target);
     integer_field "bytes_written" bytes; bool_field "created" (negb exists_);
     bool_field "overwritten" exists_].

Definition write_resolved (t : FsWriteTool) (target : MutationTarget) : Prog Report :=
  let path := mt_canonical target in
  let! exists_ := call (PathExists path) in
  if exists_ && negb (write_allow_overwrite t)
  then Done (failed_result write_schema "write failed: overwrite disabled"
               (mt_display_path target +:+ ": overwrite disabled"))
  else if negb exists_ && negb (write_allow_create t)
  then Done (failed_result write_schema "write failed: create disabled"
               (mt_display_path target +:+ ": create disabled"))
  else
    let! refused :=
      (if exists_
       then let! r := call (SymlinkMetadata path) in
            Done (match r with
                  | Err err => Some (failure_at write_schema
                                       "write failed: cannot read target metadata" target err)
                  | Ok metadata =>
                      if is_file metadata then None
                      else Some (failed_result write_schema "write failed: target is not a file"
                                   (mt_display_path target))
                  end)
       else Done None) in
    match refused with
    | Some report => Done report
    | None =>
        let! r := write_file_bytes_atomically path (to_bytes (write_content t)) (negb exists_) in
        Done (match r with
              | Err err => failure_at write_schema "write failed: cannot write UTF-8 text" target err
              | Ok _ => write_report t target exists_
              end)
    end.

Definition write_execute (t : FsWriteTool) (request : RuntimeJobRequest) : Prog Report :=
  let bytes := str_len (write_content t) in
  if (write_max_bytes t <? bytes)%N
  then Done (failed_result write_schema "write failed: content exceeds configured byte limit"
               ("content is " +:+ num bytes +:+ " bytes; limit is " +:+ num (write_max_bytes t)
                +:+ " bytes"))
  else
    let! r := resolve_mutation_target_io (write_root t) (target_from_request request) in
    match r with
    | Err err => Done (failed_result write_schema "write failed: path rejected" (path_error_text err))
    | Ok (target, _) => write_resolved t target
    end.

(** ** [fs.delete] *)

Definition delete_schema : string := "tool_result.fs.delete.v1".
Definition delete_skipped (shown : string) : Report :=
  succeeded delete_schema
    [string_field "summary" ("delete skipped; " +:+ shown +:+ " was already missing");
     string_field "path" shown; bool_field "deleted" false; bool_field "missing" true].
Definition mutation_platform_safety_label : string := "unix-validated".
Definition delete_report (target : MutationTarget) : Report :=
  succeeded delete_schema
    [string_field "summary" ("deleted " +:+ mt_display_path target);
     string_field "platform_safety" mutation_platform_safety_label;
     string_field "path" (mt_display_path target); bool_field "deleted" true;
     bool_field "missing" false].

(** The parent is opened and the lock taken even when the other failed; the lock
    is held until the removal is on disk. *)
Definition delete_validated (path : string) (metadata : Metadata) (fd : option Fd) : Prog (io unit) :=
  try! parent := Done (parent_or_error path) in
  try! file_name := Done (name_or_error path) in
  let! parent_dir := open_parent_no_follow parent in
  let! destination_lock := acquire_write_lock path in
  match parent_dir, destination_lock with
  | Ok parent_dir, Ok lock =>
      holding [lock]
        (try! _ := unlink_validated_file_in_parent_dir parent_dir file_name metadata fd in
         call (SyncAll parent_dir))
  | Err error, Ok lock => holding [lock] (Done (Err error))
  | Err error, Err _ | Ok _, Err error => Done (Err error)
  end.

Definition delete_resolved (t : FsDeleteTool) (target : MutationTarget) (fd : option Fd) : Prog Report :=
  let path := mt_canonical target in
  let skipped err := is_kind KNotFound err && delete_allow_missing t in
  let! r := call (SymlinkMetadata path) in
  match r with
  | Err err =>
      Done (if skipped err then delete_skipped (mt_display_path target)
            else failure_at delete_schema "delete failed: cannot read target metadata" target err)
  | Ok metadata =>
      if negb (is_file metadata)
      then Done (failed_result delete_schema "delete failed: target is not a file"
                   (mt_display_path target))
      else
        let! r := delete_validated path metadata fd in
        Done (match r with
              | Ok _ => delete_report target
              | Err err =>
                  if skipped err then delete_skipped (mt_display_path target)
                  else failure_at delete_schema "delete failed: cannot remove file" target err
              end)
  end.

Definition delete_execute (t : FsDeleteTool) (request : RuntimeJobRequest) : Prog Report :=
  let! r := resolve_mutation_target_io (delete_root t) (target_from_request request) in
  match r with
  | Err (TargetNotFound requested) =>
      Done (if delete_allow_missing t then delete_skipped (target_from_request request)
            else failed_result delete_schema "delete failed: path rejected"
                   (path_error_text (TargetNotFound requested)))
  | Err err => Done (failed_result delete_schema "delete failed: path rejected" (path_error_text err))
  | Ok (target, fd) => delete_resolved t target fd
  end.

(** ** [fs.move] *)

Definition move_schema : string := "tool_result.fs.move.v1".
Definition move_report (source destination : MutationTarget) (overwritten : bool) : Report :=
  succeeded move_schema
    [string_field "summary" ("moved " +:+ mt_display_path source +:+ " to "
                             +:+ mt_display_path destination);
     string_field "platform_safety" mutation_platform_safety_label;
     string_field "source_path" (mt_display_path source);
     string_field "destination_path" (mt_display_path destination);
     bool_field "overwritten" overwritten].
Definition move_failed (source destination : MutationTarget) (err : OsError) : Report :=
  failed_result move_schema "move failed: cannot rename file"
    (mt_display_path source +:+ " -> " +:+ mt_display_path destination +:+ ": " +:+ oe_text err).

(** Under the locks: what the destination is, and the rename. *)
Definition move_locked (t : FsMoveTool) (source destination : MutationTarget) (source_name
  destination_name : string) (source_metadata : Metadata) (fd : option Fd)
  (source_parent_dir destination_parent_dir : Fd) : Prog Report :=
  let shown := mt_display_path destination in
  let! r := call (SymlinkMetadata (mt_canonical destination)) in
  let destination_exists :=
    match r with
    | Ok metadata =>
        if is_file metadata
        then if same_inode metadata source_metadata
             then Err (failed_result move_schema "move failed: source and destination are the same"
                         (mt_display_path source +:+ " and " +:+ shown +:+ " reference the same file"))
             else Ok true
        else Err (failed_result move_schema "move failed: destination is not a file" shown)
    | Err error =>
        if is_kind KNotFound error then Ok false
        else Err (failure_at move_schema "move failed: cannot read destination metadata"
                    destination error)
    end in
  match destination_exists with
  | Err report => Done report
  | Ok destination_exists =>
      if destination_exists && negb (move_allow_overwrite t)
      then Done (failed_result move_schema "move failed: overwrite disabled"
                   (shown +:+ ": overwrite disabled"))
      else
        let! r := (try! _ := rename_validated_file_between_parent_dirs source_parent_dir source_name
                               destination_parent_dir destination_name
                               (negb (move_allow_overwrite t)) source_metadata fd in
                   try! _ := call (SyncAll source_parent_dir) in
                   call (SyncAll destination_parent_dir)) in
        Done (match r with
              | Ok _ => move_report source destination destination_exists
              | Err err => move_failed source destination err
              end)
  end.

(** The parents and names of both paths, checked in the order of the match. *)
Definition move_parts (source destination : string) : io (string * string * string * string) :=
  let? source_parent :=
    ok_or (path_parent source) (io_error KInvalidInput "source path has no parent directory") in
  let? destination_parent :=
    ok_or (path_parent destination)
      (io_error KInvalidInput "destination path has no parent directory") in
  let? source_name :=
    ok_or (path_file_name source) (io_error KInvalidInput "source path has no file name") in
  let? destination_name :=
    ok_or (path_file_name destination)
      (io_error KInvalidInput "destination path has no file name") in
  Ok (source_parent, destination_parent, source_name, destination_name).

Definition move_checked (t : FsMoveTool) (source destination : MutationTarget)
  (source_metadata : Metadata) (fd : option Fd) : Prog Report :=
  match move_parts (mt_canonical source) (mt_canonical destination) with
  | Err err => Done (move_failed source destination err)
  | Ok (source_parent, destination_parent, source_name, destination_name) =>
      let! locks := acquire_ordered_write_locks (mt_canonical source) (mt_canonical destination) in
      let! source_parent_dir := open_parent_no_follow source_parent in
      let! destination_parent_dir := open_parent_no_follow destination_parent in
      holding (match locks with Ok locks => locks | Err _ => [] end)
        match locks, source_parent_dir, destination_parent_dir with
        | Ok _, Ok source_parent_dir, Ok destination_parent_dir =>
            move_locked t source destination source_name destination_name source_metadata fd
              source_parent_dir destination_parent_dir
        | Err err, _, _ | Ok _, Err err, _ | Ok _, Ok _, Err err =>
            Done (move_failed source destination err)
        end
  end.

Definition move_execute (t : FsMoveTool) (request : RuntimeJobRequest) : Prog Report :=
  let! r := resolve_mutation_target_io (move_root t) (target_from_request request) in
  match r with
  | Err err =>
      Done (failed_result move_schema "move failed: source path rejected" (path_error_text err))
  | Ok (source, fd) =>
      let! r := resolve_mutation_target_io (move_root t) (move_destination_path t) in
      match r with
      | Err err =>
          Done (failed_result move_schema "move failed: destination path rejected"
                  (path_error_text err))
      | Ok (destination, _) =>
          if path_eqb (mt_canonical source) (mt_canonical destination)
          then Done (failed_result move_schema "move failed: source and destination are the same"
                       (mt_display_path source))
          else
            let! r := call (SymlinkMetadata (mt_canonical source)) in
            match r with
            | Err err => Done (failure_at move_schema "move failed: cannot read source metadata"
                                 source err)
            | Ok source_metadata =>
                if negb (is_file source_metadata)
                then Done (failed_result move_schema "move failed: source is not a file"
                             (mt_display_path source))
                else move_checked t source destination source_metadata fd
            end
      end
  end.

(** ** [fs.patch] *)

Section Patch.
(** The debug form of a string, by the standard library. *)
Context (debug_str : string → string).

Definition patch_schema : string := "tool_result.fs.patch.v1".

(** The new content, or why there is none. *)
Definition patched (t : FsPatchTool) (target : MutationTarget) (content : string)
  : result Report string :=
  let needle := "needle " +:+ debug_str (patch_find_text t) in
  let match_count := count_overlapping_matches (to_bytes content) (to_bytes (patch_find_text t)) in
  if (match_count =? 0)%nat
  then Err (failed_result patch_schema "patch failed: exact text not found"
              (needle +:+ " was not found in " +:+ mt_display_path target))
  else if (1 <? match_count)%nat
  then Err (failed_result patch_schema "patch failed: exact text matched multiple times"
              (needle +:+ " matched " +:+ num (N.of_nat match_count) +:+ " times in "
               +:+ mt_display_path target))
  else
    let updated := of_bytes (replace_first (to_bytes (patch_find_text t))
                               (to_bytes (patch_replacement_text t)) (to_bytes content)) in
    if (patch_max_bytes t <? str_len updated)%N
    then Err (failed_result patch_schema "patch failed: result exceeds configured byte limit"
                ("patched content is " +:+ num (str_len updated) +:+ " bytes; limit is "
                 +:+ num (patch_max_bytes t) +:+ " bytes"))
    else Ok updated.

Definition patch_report (target : MutationTarget) (content updated : string) : Report :=
  let changed := negb (str_eqb updated content) in
  succeeded patch_schema
    [string_field "summary"
       ("patched " +:+ mt_display_path target +:+
        if changed then " with one exact replacement" else " with no net content change");
     string_field "path" (mt_display_path target); integer_field "matches" 1;
     integer_field "before_bytes" (str_len content); integer_field "after_bytes" (str_len updated);
     bool_field "changed" changed].

(** Reading, replacing and writing under the lock of the target. *)
Definition patch_locked (t : FsPatchTool) (target : MutationTarget) (file_name : string)
  (parent_dir destination_lock : Fd) : Prog Report :=
  let unread err := failure_at patch_schema "patch failed: cannot read UTF-8 text" target err in
  let refuse report := holding [destination_lock] (Done report) in
  let! r := open_read_no_follow_in_parent_dir parent_dir file_name in
  match r with
  | Err err => refuse (unread err)
  | Ok file =>
      let! r := call (Fstat file) in
      match r with
      | Err err => refuse (unread err)
      | Ok metadata =>
          if (patch_max_bytes t <? md_len metadata)%N
          then refuse (failed_result patch_schema "patch failed: file exceeds configured byte limit"
                         (mt_display_path target +:+ " is " +:+ num (md_len metadata) +:+
                          " bytes; limit is " +:+ num (patch_max_bytes t) +:+ " bytes"))
          else
            let! r := read_entire_text_file_from_open_file file (patch_max_bytes t) in
            match r with
            | Err err =>
                refuse (if is_kind KFileTooLarge err
                        then failed_result patch_schema
                               "patch failed: file exceeds configured byte limit"
                               (mt_display_path target +:+ " is larger than "
                                +:+ num (patch_max_bytes t) +:+ " bytes")
                        else unread err)
            | Ok content =>
                match patched t target content with
                | Err report => refuse report
                | Ok updated =>
                    let! r := write_file_bytes_atomically_inner_locked parent_dir file_name
                                (to_bytes updated) false false destination_lock in
                    Done (match r with
                          | Err err => failure_at patch_schema
                                         "patch failed: cannot write UTF-8 text" target err
                          | Ok _ => patch_report target content updated
                          end)
                end
            end
      end
  end.

(** A target without a file name has a parent only by [..]; the source expects a
    name, and a resolved path has one. *)
Definition patch_resolved (t : FsPatchTool) (target : MutationTarget) : Prog Report :=
  let path := mt_canonical target in
  let! r := call (SymlinkMetadata path) in
  match r with
  | Err err => Done (failure_at patch_schema "patch failed: cannot read target metadata" target err)
  | Ok metadata =>
      if negb (is_file metadata)
      then Done (failed_result patch_schema "patch failed: target is not a file"
                   (mt_display_path target))
      else
        let! r := lock_target_for_patch path in
        match r with
        | Err err =>
            Done (failure_at patch_schema "patch failed: cannot write UTF-8 text" target err)
        | Ok (parent_dir, destination_lock) =>
            patch_locked t target (default EmptyString (path_file_name path)) parent_dir
              destination_lock
        end
  end.

Definition patch_execute (t : FsPatchTool) (request : RuntimeJobRequest) : Prog Report :=
  if str_is_empty (patch_find_text t)
  then Done (failed_result patch_schema "patch failed: empty match text"
               "exact-match replacement requires a non-empty find string")
  else
    let! r := resolve_mutation_target_io (patch_root t) (target_from_request request) in
    match r with
    | Err err => Done (failed_result patch_schema "patch failed: path rejected" (path_error_text err))
    | Ok (target, _) => patch_resolved t target
    end.
End Patch.
