(* ===== verification/MutationLaws.v ===== *)
(** * MutationLaws: the file operations and the mutating tools beside other processes *)
From S2P Require Import Prelude Text Domain StoreTypes Settings Truncation Runtime Packages.
From S2P Require Import Paths Tools ScopeGuarantees ToolText ToolTextLaws FileOps.
From S2P Require Import MutationTools.

(** * The file operations beside other processes *)

(** * Files are replaced atomically, beside any other process *)

(** ** What others do *)

Definition is_temp_name (n : string) : Prop := to_bytes WRITE_FILE_TMP_PREFIX `prefix_of` to_bytes n.
Definition is_lock_name (n : string) : Prop := to_bytes WRITE_FILE_LOCK_PREFIX `prefix_of` to_bytes n.
Lemma lock_file_is_lock_name path : is_lock_name (write_lock_file_name_for_path path).
Proof. unfold is_lock_name, write_lock_file_name_for_path. rewrite to_bytes_app. by apply prefix_app_r. Qed.

(** Other processes may do anything but take away the descriptors and locks of
    this run or touch a temporary file that it created; a file that is open keeps
    its number. *)
Record rely (w w' : World) : Prop := {
  rely_root : w_root w' = w_root w;
  rely_handles : w_handles w' = w_handles w;
  rely_created : w_created w' = w_created w;
  rely_temp d n i : is_temp_name n → i ∈ w_created w → w_names w !! (d, n) = Some i →
    w_names w' !! (d, n) = Some i ∧ w_nodes w' !! i = w_nodes w !! i;
  rely_open fd i n : opened w fd i → w_nodes w !! i = Some n →
    ∃ n', w_nodes w' !! i = Some n' ∧ n_type n' = n_type n;
  rely_locks i fd : is_Some (w_handles w !! fd) → w_locks w !! i = Some fd → w_locks w' !! i = Some fd
}.
#[export] Instance rely_refl : Reflexive rely.
Proof. intros w. split; eauto. Qed.
Lemma rely_opened w w' fd i : rely w w' → opened w fd i → opened w' fd i.
Proof. intros Hr (h & ? & ?). exists h. by rewrite (rely_handles _ _ Hr). Qed.

(** ** Calls that change no file *)

Definition same_file (n n' : Node) : Prop :=
  n_type n' = n_type n ∧ n_data n' = n_data n ∧ n_mode n' = n_mode n ∧
  (n_synced n = true → n_synced n' = true).
#[export] Instance same_file_preorder : PreOrder same_file.
Proof.
  split; [by intros n; split_and!|]. intros a b c (? & ? & ? & Hs) (? & ? & ? & Hs').
  split_and!; [congruence..|]. auto.
Qed.

(** Names stay, and are only added for empty directories and lock files. *)
Record calm (w w' : World) : Prop := {
  calm_root : w_root w' = w_root w;
  calm_names k i : w_names w !! k = Some i → w_names w' !! k = Some i;
  calm_fresh k i : w_names w !! k = None → w_names w' !! k = Some i → w_nodes w !! i = None ∧
    ∃ n, w_nodes w' !! i = Some n ∧ n_data n = [] ∧ (n_type n = TDir ∨ is_lock_name k.2);
  calm_nodes i n : w_nodes w !! i = Some n → w_nodes w' !! i = Some n;
  calm_opened fd i : opened w fd i → opened w' fd i;
  calm_created : w_created w ⊆ w_created w'
}.
#[export] Instance calm_refl : Reflexive calm.
Proof. intros w. split; done || congruence. Qed.
#[export] Instance calm_trans : Transitive calm.
Proof.
  intros a b c [? Hn Hf Hd Ho Hc] [? Hn' Hf' Hd' Ho' Hc'].
  split; [congruence|eauto| |eauto|eauto|by etrans].
  intros k i Ha Hcki. destruct (w_names b !! k) as [j|] eqn:Hb.
  - pose proof (Hn' _ _ Hb). simplify_eq. destruct (Hf _ _ Ha Hb) as (? & n & ? & ?). eauto.
  - destruct (Hf' _ _ Hb Hcki) as [Hno ?]. split; [|done].
    destruct (w_nodes a !! i) eqn:E; [|done]. apply Hd in E. by rewrite Hno in E.
Qed.

Definition gentle (R : Type) (c : Sys R) : Prop :=
  match c with
  | WriteAll _ _ | SetPermissions _ _ | SyncAll _ | RenameAt _ _ _ _ _ | UnlinkAt _ _ => False
  | OpenAt _ _ OCreateNew => False
  | OpenAt _ name OCreate => is_lock_name name
  | _ => True
  end.

Lemma opened_with_handle w fd h fd' i :
  (fd' = fd → h_inode h = i) → opened w fd' i → opened (with_handle w fd h) fd' i.
Proof.
  intros He (h' & Hh & <-). destruct (decide (fd' = fd)) as [->|Hne].
  - exists h. simpl. rewrite lookup_insert_eq. auto.
  - exists h'. simpl. by rewrite lookup_insert_ne.
Qed.
Lemma opens_calm w fd i w' : opens w fd i w' → calm w w'.
Proof.
  intros [Hf ->]. split; simpl; try done; [congruence|].
  intros fd' j Ho. apply opened_with_handle; [|done]. intros ->. destruct Ho as (h & ? & ?). congruence.
Qed.
Lemma creates_calm w d n i w' : is_lock_name n → creates w d n i w' → calm w w'.
Proof.
  intros Hl (Hn & Hi & _ & mode & ->). split; simpl; try done.
  - intros k j Hk. rewrite lookup_insert_ne; [done|]. intros <-. congruence.
  - intros k j Hk. destruct (decide (k = (d, n))) as [->|Hne].
    + rewrite lookup_insert_eq. intros [= <-]. split; [done|]. eexists. rewrite lookup_insert_eq. eauto.
    + rewrite lookup_insert_ne by done. congruence.
  - intros j m Hj. rewrite lookup_insert_ne; [done|]. intros <-. congruence.
  - set_solver.
Qed.
Lemma grows_calm w w' : grows w w' → calm w w'.
Proof.
  intros [Hn Hd Hf Hdir Hr Hh Hc _ _]. split; try done; [| |by rewrite Hc].
  - intros k i Hk Hi. split; [eauto|]. destruct (Hdir _ _ Hk Hi) as (n & ? & ? & ?). eauto.
  - intros fd i (h & ? & ?). exists h. by rewrite Hh.
Qed.
Lemma opened_calm w w' fd i : opens w fd i w' → opened w' fd i.
Proof. intros [_ ->]. eexists. simpl. by rewrite lookup_insert_eq. Qed.

Lemma with_locks_calm w locks : calm w (with_locks w locks).
Proof. split; simpl; done || congruence. Qed.

Ltac posix_cases :=
  repeat match goal with
  | H : _ ∧ _ |- _ => destruct H
  | H : ∃ _, _ |- _ => destruct H
  | H : _ ∨ _ |- _ => destruct H
  | H : if_ok ?r _ _ _ |- _ => destruct r; simpl in H
  | H : match ?r with _ => _ end |- _ => destruct r; simpl in H
  end; subst.

Lemma posix_gentle R (c : Sys R) w r w' : gentle R c → posix c w r w' → calm w w'.
Proof.
  intros Hg Hp. destruct c; simpl in Hg, Hp; try done; try (destruct flags; try done); posix_cases;
    eauto using opens_calm, creates_calm, grows_calm, calm_trans; try reflexivity.
  - split; simpl; try done; [congruence|]. intros fd' j Ho.
    apply opened_with_handle; [|done]. intros ->. destruct Ho as (h' & ? & ?). simpl. congruence.
  - apply with_locks_calm.
  - apply with_locks_calm.
  - apply with_locks_calm.
Qed.

(** No call takes a descriptor away. *)
Lemma posix_opened R (c : Sys R) w r w' fd i : posix c w r w' → opened w fd i → opened w' fd i.
Proof.
  assert (Hc : ∀ w d n j mode, opened w fd i →
    opened (with_created (with_node (with_names w (<[(d, n) := j]> (w_names w)) [d]) j (empty_file mode)) j) fd i)
    by done.
  assert (Ho : ∀ w f j w', opens w f j w' → opened w fd i → opened w' fd i) by (intros * H; apply (calm_opened _ _ (opens_calm _ _ _ _ H))).
  destruct c; intros Hp Hi;
    try (by eapply calm_opened; [eapply posix_gentle; [|exact Hp]; exact I|exact Hi]); simpl in Hp.
  - destruct r as [f|e]; simpl in Hp; [|by subst]. destruct Hp as (d & j & _ & Hp).
    destruct flags; posix_cases; eauto; destruct H as (_ & _ & _ & mode & ->); eauto.
  - posix_cases; try done; apply opened_with_handle; try done; intros ->; destruct Hi as (h & ? & <-); by simplify_eq.
  - posix_cases; done.
  - posix_cases; done.
  - posix_cases; try done. by case_decide.
  - posix_cases; done.
Qed.

(** A program of such calls keeps what others and they keep. *)
Section Gentle.
Context {os : Os} `{!PosixLaws os}.

Definition stable (I : World → Prop) : Prop :=
  (∀ w w', rely w w' → I w → I w') ∧ (∀ w w', calm w w' → I w → I w').

Lemma wp_gentle {A} (p : Prog A) G (I : World → Prop) w :
  only gentle p → (∀ w w', calm w w' → G w w') → stable I → I w → wp rely G p (λ _, I) w.
Proof.
  intros Hp HG [Hr Hc]. revert w. induction p as [a|R c k IH]; intros w HI; simpl; [done|].
  destruct Hp as [Hc1 Hk]. intros w1 r w2 Ho Hs. apply documented, posix_gentle in Hs; [|done].
  split; [auto|]. apply IH; eauto.
Qed.

Lemma wp_documented {R} (c : Sys R) H Q w :
  (∀ w1 r w2, rely w w1 → posix c w1 r w2 → H w1 w2 ∧ Q r w2) → wp rely H (call c) Q w.
Proof. intros HQ. apply wp_call. intros w1 r w2 Ho Hs. by apply HQ; [|apply documented]. Qed.
(** A descriptor of this run stays open at every call. *)
Lemma wp_opened {A} (p : Prog A) G Q fd i w :
  opened w fd i → wp rely G p Q w →
  wp rely (λ w w', opened w fd i ∧ G w w') p (λ a w', opened w' fd i ∧ Q a w') w.
Proof.
  revert w. induction p as [a|R c k IH]; intros w Hi; simpl; [done|]. intros H w1 r w2 Hr Hs.
  destruct (H _ _ _ Hr Hs). pose proof (rely_opened _ _ _ _ Hr Hi) as Hi1. split; [done|]. apply IH; [|done].
  by eapply posix_opened; [by apply documented|].
Qed.
Lemma wp_still_open {A} (p : Prog A) G Q fd i w :
  opened w fd i → wp rely G p Q w → wp rely G p (λ a w', opened w' fd i ∧ Q a w') w.
Proof. intros Hi Hp. eapply wp_weaken; [|by apply wp_opened]. by intros w1 w2 [_ ?]. Qed.
Lemma wp_with_c_name {A} name (p : string → Prog (io A)) H Q w :
  Q (Err (io_error KInvalidInput "path contains NUL byte")) w → wp rely H (p name) Q w →
  wp rely H (with_c_name name p) Q w.
Proof. intros HQ Hp. unfold with_c_name. by case_bool_decide. Qed.
End Gentle.

Lemma only_bind {A B} P (p : Prog A) (f : A → Prog B) :
  only P p → (∀ a, only P (f a)) → only P (prog_bind p f).
Proof. intros Hp Hf. induction p as [a|R c k IH]; simpl; [done|]. destruct Hp. split; eauto. Qed.
Lemma only_try {A B} P (p : Prog (io A)) (f : A → Prog (io B)) :
  only P p → (∀ a, only P (f a)) → only P (try_bind p f).
Proof. intros Hp Hf. apply only_bind; [done|]. by intros [a|e]. Qed.
Lemma only_with_c_name {A} P name (p : string → Prog (io A)) :
  only P (p name) → only P (with_c_name name p).
Proof. unfold with_c_name. intros Hp. by case_bool_decide. Qed.
Create HintDb gentle.
#[export] Hint Resolve only_bind only_try only_with_c_name : gentle.
#[export] Hint Extern 1 (only _ (call _)) => split; [exact I|done] : gentle.
#[export] Hint Extern 1 (only _ (Done _)) => exact I : gentle.

Lemma open_segments_gentle dir cs : only gentle (open_segments dir cs).
Proof. revert dir. induction cs as [|[] cs IH]; intros dir; simpl; eauto with gentle. Qed.
#[export] Hint Resolve open_segments_gentle : gentle.
Lemma open_parent_gentle path : only gentle (open_parent_no_follow path).
Proof. unfold open_parent_no_follow. apply only_try; [case_match|]; eauto with gentle. Qed.
#[export] Hint Resolve open_parent_gentle : gentle.
Lemma lock_directory_gentle : only gentle write_lock_directory.
Proof. unfold write_lock_directory. eauto 10 with gentle. Qed.
#[export] Hint Resolve lock_directory_gentle : gentle.
Lemma acquire_gentle path : only gentle (acquire_write_lock path).
Proof.
  unfold acquire_write_lock, open_or_create_no_follow_in_parent_dir, open_at.
  apply only_try; [eauto with gentle|]. intros dir. apply only_try; [eauto with gentle|]. intros parent.
  apply only_try; [|eauto with gentle]. apply only_with_c_name. split; [apply lock_file_is_lock_name|done].
Qed.
#[export] Hint Resolve acquire_gentle : gentle.
Lemma release_gentle locks : only gentle (release locks).
Proof. induction locks; simpl; eauto with gentle. Qed.
#[export] Hint Resolve release_gentle : gentle.

(** ** Temporary names *)

Lemma scan_char_invalid l n : scan_char l = (false, n) → 1 ≤ n ≤ 3.
Proof. unfold scan_char. repeat case_match; intros [= <-]; lia. Qed.
Lemma scan_char_valid_length l n : scan_char l = (true, n) → n ≤ length l.
Proof. unfold scan_char. repeat case_match; intros [= <-]; simpl; lia. Qed.
Lemma lossy_length fuel l : length l ≤ fuel → length l ≤ length (lossy fuel l).
Proof.
  revert l. induction fuel as [|fuel IH]; intros l Hf; [lia|].
  destruct l as [|c l]; [done|]. cbn [lossy]. destruct (scan_char (c :: l)) as [valid n] eqn:E.
  rewrite length_app. assert (1 ≤ n) as Hn.
  { destruct valid; [|apply scan_char_invalid in E; lia]. unfold scan_char in E. repeat case_match; simplify_eq; lia. }
  assert (length (drop n (c :: l)) ≤ length (lossy fuel (drop n (c :: l)))) as Hd.
  { apply IH. rewrite length_drop. simpl in *. lia. }
  rewrite length_drop in Hd. destruct valid.
  - apply scan_char_valid_length in E. rewrite length_take. lia.
  - apply scan_char_invalid in E. change (length replacement_char) with 3. lia.
Qed.

Definition temporary_name (file_name : string) (n : N) : string :=
  WRITE_FILE_TMP_PREFIX +:+ "-" +:+ to_string_lossy file_name +:+ "-" +:+ num n.
Lemma temporary_name_temp f n : is_temp_name (temporary_name f n).
Proof. unfold is_temp_name, temporary_name. rewrite to_bytes_app. by apply prefix_app_r. Qed.
Lemma temporary_name_ne f n : temporary_name f n ≠ f.
Proof.
  intros E. apply (f_equal (λ s, length (to_bytes s))) in E. unfold temporary_name in E.
  rewrite !to_bytes_app, !length_app in E. unfold to_string_lossy in E. rewrite to_of_bytes in E.
  pose proof (lossy_length (length (to_bytes f)) (to_bytes f) ltac:(lia)). simpl in E. lia.
Qed.

(** * How a file is replaced

    The guarantee of [replace_file_atomically] to every other process and to
    every crash: at each call an existing file keeps its content, and a name
    changes only to a complete file that is on disk. *)

(** ** The guarantee *)

(** A name of a file with the whole content, written to disk. *)
Definition names_complete (w : World) (k : Inode * string) (content : bytes) : Prop :=
  ∃ i n, w_names w !! k = Some i ∧ w_nodes w !! i = Some n ∧
         n_type n = TFile ∧ n_data n = content ∧ n_synced n = true.
(** A new empty directory or lock file. *)
Definition new_name (w w' : World) (k : Inode * string) : Prop :=
  w_names w !! k = None ∧ ∃ i n, w_names w' !! k = Some i ∧ w_nodes w !! i = None ∧
    w_nodes w' !! i = Some n ∧ n_data n = [] ∧ (n_type n = TDir ∨ is_lock_name k.2).
Definition own_name_made (w w' : World) (k : Inode * string) : Prop :=
  w_names w !! k = None ∧ ∃ i, w_names w' !! k = Some i ∧ w_nodes w !! i = None.
Definition own_name_gone (w w' : World) (k : Inode * string) : Prop :=
  w_names w' !! k = None ∧ ∃ i, w_names w !! k = Some i ∧ i ∈ w_created w.

(** A temporary name beside a name. *)
Definition staging (k k' : Inode * string) : Prop := ∃ n, k' = (k.1, temporary_name k.2 n).

Record replaces (content : bytes) (no_replace : bool) (k : Inode * string) (w w' : World) : Prop := {
  rep_nodes i n : w_nodes w !! i = Some n → i ∉ w_created w →
    ∃ n', w_nodes w' !! i = Some n' ∧ same_file n n';
  rep_names k' : w_names w' !! k' ≠ w_names w !! k' →
    new_name w w' k' ∨ staging k k' ∧ (own_name_made w w' k' ∨ own_name_gone w w' k') ∨
    (k' = k ∧ (no_replace = true → w_names w !! k = None) ∧ names_complete w' k content)
}.

Lemma calm_new_name w w' k : calm w w' → w_names w' !! k ≠ w_names w !! k → new_name w w' k.
Proof.
  intros [_ Hn Hf _ _ _] Hne. destruct (w_names w !! k) as [i|] eqn:E; [by rewrite (Hn _ _ E) in Hne|].
  destruct (w_names w' !! k) as [i|] eqn:E'; [|done]. split; [done|].
  destruct (Hf _ _ E E') as (? & n & ? & ? & ?). by exists i, n.
Qed.
Lemma calm_same_nodes w w' : calm w w' →
  ∀ i n, w_nodes w !! i = Some n → ∃ n', w_nodes w' !! i = Some n' ∧ same_file n n'.
Proof. intros Hc i n Hi. exists n. split; [by apply (calm_nodes _ _ Hc)|reflexivity]. Qed.
Lemma calm_replaces content no_replace k w w' : calm w w' → replaces content no_replace k w w'.
Proof.
  intros Hc. split; [intros i n ? _; by apply (calm_same_nodes w)|]. intros k' Hne. left. by apply calm_new_name.
Qed.
(** Names that stay, and a changed node of a file this run created. *)
Lemma node_replaces content no_replace k w w' :
  w_names w' = w_names w →
  (∀ i n, w_nodes w !! i = Some n → i ∉ w_created w → ∃ n', w_nodes w' !! i = Some n' ∧ same_file n n') →
  replaces content no_replace k w w'.
Proof. intros Hn Hd. split; [done|]. intros k'. by rewrite Hn. Qed.
Lemma own_node_replaces content no_replace k w i n :
  i ∈ w_created w → replaces content no_replace k w (with_node w i n).
Proof.
  intros Hi. apply node_replaces; [done|]. intros j m Hj Hne. exists m. split; [|reflexivity].
  simpl. rewrite lookup_insert_ne; [done|]. by intros ->.
Qed.

(** ** A temporary file of this run *)

Section Replace.
Context {os : Os} `{!PosixLaws os}.
Context (parent : Fd) (d : Inode) (file_name : string) (content : bytes) (no_replace : bool).
Let G := replaces content no_replace (d, file_name).

Definition at_parent (w : World) : Prop := opened w parent d.
Lemma at_parent_stable : stable at_parent.
Proof. split; intros w w' H ?; [by eapply rely_opened|by eapply calm_opened]. Qed.

Record temporary (tn : string) (tf : Fd) (n : Node) (w : World) : Prop := {
  tmp_parent : at_parent w;
  tmp_name : ∃ n, tn = temporary_name file_name n;
  tmp_file : ∃ i, w_names w !! (d, tn) = Some i ∧ i ∈ w_created w ∧ w_nodes w !! i = Some n ∧
             w_handles w !! tf = Some {| h_inode := i; h_offset := length (n_data n) |}
}.
Lemma temporary_rely tn tf n w w' : rely w w' → temporary tn tf n w → temporary tn tf n w'.
Proof.
  intros Hr [Hp [m ->] (i & Hn & Hc & Hi & Hh)]. split; [by eapply rely_opened|by eexists|].
  pose proof (temporary_name_temp file_name m) as Ht. exists i. destruct (rely_temp _ _ Hr _ _ _ Ht Hc Hn) as [-> ->].
  by rewrite (rely_created _ _ Hr), (rely_handles _ _ Hr).
Qed.

(** A file with more content, not yet on disk. *)
Definition extended (n : Node) (written : bytes) : Node := {|
  n_type := n_type n; n_mode := n_mode n; n_synced := false; n_data := n_data n ++ written |}.
Lemma posix_write_temporary tn tf n w data r w' :
  temporary tn tf n w → posix (WriteAll tf data) w r w' → G w w' ∧
  match r with Ok _ => temporary tn tf (extended n data) w' | Err _ => ∃ m, temporary tn tf m w' end.
Proof.
  intros [Hp Ht (i & Hn & Hc & Hi & Hh)] [[-> [e ->]]|(h & m & written & Hh' & Hm & Hr & ->)].
  { split; [apply calm_replaces; reflexivity|]. exists n. split; eauto. }
  rewrite Hh in Hh'. injection Hh' as <-. cbn [h_inode h_offset] in *. rewrite Hi in Hm. injection Hm as <-. split.
  { eapply node_replaces; [done|]. intros j k Hj Hne. exists k. split; [|reflexivity].
    simpl. rewrite lookup_insert_ne; [done|]. by intros ->. }
  set (w2 := with_handle _ _ _). assert (temporary tn tf (extended n written) w2).
  { split; [|done|].
    - destruct Hp as (h & ? & ?). apply opened_with_handle; [|by exists h].
      simpl. intros ->. simplify_eq. done.
    - exists i. cbn. rewrite !lookup_insert_eq. split_and!; [done..| |].
      + do 2 f_equal. unfold write_at. simpl. rewrite take_ge, drop_ge by lia. by rewrite app_nil_r.
      + by rewrite length_app. }
  destruct r as [u|e]; [by subst|eauto].
Qed.

Lemma temporary_node tn tf n n' w i :
  temporary tn tf n w → opened w tf i → n_data n' = n_data n →
  i ∈ w_created w ∧ temporary tn tf n' (with_node w i n').
Proof.
  intros [Hp Ht (j & Hn & Hc & Hi & Hh)] (h & Hh' & <-) Hd. simplify_eq. simpl in *.
  split; [done|]. split; [done|done|]. exists j. simpl. rewrite lookup_insert_eq, Hd. done.
Qed.
Lemma temporary_is tn tf n w i m :
  temporary tn tf n w → opened w tf i → w_nodes w !! i = Some m → m = n.
Proof. intros [_ _ (j & _ & _ & Hi & Hh)] (h & Hh' & <-) ?. simplify_eq. simpl in *. congruence. Qed.

Lemma posix_permissions_temporary tn tf n w mode r w' :
  temporary tn tf n w → posix (SetPermissions tf mode) w r w' → G w w' ∧
  ∃ m, temporary tn tf m w' ∧ n_type m = n_type n ∧ n_data m = n_data n.
Proof.
  intros Ht Hp. simpl in Hp. destruct r as [[]|e]; simpl in Hp.
  - destruct Hp as (i & m & Ho & Hm & ->). pose proof (temporary_is _ _ _ _ _ _ Ht Ho Hm) as ->.
    destruct (temporary_node tn tf n {| n_type := n_type n; n_data := n_data n; n_mode := mode;
      n_synced := false |} w i Ht Ho eq_refl) as [Hc Ht'].
    split; [by apply own_node_replaces|]. eexists. by split.
  - subst. split; [apply calm_replaces; reflexivity|eauto].
Qed.
Lemma posix_sync_temporary tn tf n w r w' :
  temporary tn tf n w → posix (SyncAll tf) w r w' → G w w' ∧
  ∃ m, temporary tn tf m w' ∧ n_type m = n_type n ∧ n_data m = n_data n ∧
       (r = Ok tt → n_synced m = true).
Proof.
  intros Ht Hp. simpl in Hp. destruct r as [[]|e]; simpl in Hp.
  - destruct Hp as (i & m & Ho & Hm & ->). pose proof (temporary_is _ _ _ _ _ _ Ht Ho Hm) as ->.
    destruct (temporary_node tn tf n {| n_type := n_type n; n_data := n_data n; n_mode := n_mode n;
      n_synced := true |} w i Ht Ho eq_refl) as [Hc Ht']. split.
    + destruct (own_node_replaces content no_replace (d, file_name) w i {| n_type := n_type n;
        n_data := n_data n; n_mode := n_mode n; n_synced := true |} Hc) as [Hnodes Hnames].
      by split.
    + eexists. split; [destruct Ht' as [? ? ?]; by split|done].
  - subst. split; [apply calm_replaces; reflexivity|]. by exists n.
Qed.

(** The new content takes the name. *)
Lemma posix_publish tn tf n w r w' :
  temporary tn tf n w → n_type n = TFile → n_data n = content → n_synced n = true →
  posix (RenameAt parent tn parent file_name no_replace) w r w' → G w w' ∧ at_parent w' ∧
  (∀ e, r = Err e → temporary tn tf n w').
Proof.
  intros [Hp [c ->] (i & Hn & Hc & Hi & Hh)] Hty Hd Hs Hr. set (tn := temporary_name file_name c) in *.
  assert (Hne : tn ≠ file_name) by apply temporary_name_ne. simpl in Hr.
  destruct r as [[]|e]; simpl in Hr.
  2:{ subst. split_and!; [apply calm_replaces; reflexivity|done|]. intros _ _. split; [done|by exists c|eauto]. }
  destruct Hr as (s & d' & j & Hs' & Hd' & Hj & Hnr & ->).
  assert (s = d ∧ d' = d) as [-> ->].
  { destruct Hp as (? & ? & <-), Hs' as (? & ? & <-), Hd' as (? & ? & <-). by simplify_eq. }
  simplify_eq. case_decide as Hsame; [split_and!; [apply calm_replaces; reflexivity|done|done]|].
  split_and!; [|done|done]. split.
  - intros k m Hk _. exists m. by split.
  - simpl. intros k' Hk'. destruct (decide (k' = (d, file_name))) as [->|Hk].
    + right; right. split_and!; [done|done|]. exists i, n. simpl. by rewrite lookup_insert_eq.
    + rewrite lookup_insert_ne in Hk' by done. destruct (decide (k' = (d, tn))) as [->|Hk2].
      * right; left. split; [by exists c|right]. split; [simpl|by exists i].
        rewrite lookup_insert_ne by (intros [=]; congruence). apply lookup_delete_eq.
      * by rewrite lookup_delete_ne in Hk'.
Qed.
Lemma posix_unlink_temporary tn tf n w r w' :
  temporary tn tf n w → posix (UnlinkAt parent tn) w r w' → G w w' ∧ at_parent w'.
Proof.
  intros [Hp Ht (i & Hn & Hc & Hi & Hh)] Hr. simpl in Hr. destruct r as [[]|e]; simpl in Hr.
  2:{ subst. split; [apply calm_replaces; reflexivity|done]. }
  destruct Hr as (d' & j & Hd' & Hj & ->).
  assert (d' = d) as -> by (destruct Hp as (? & ? & <-), Hd' as (? & ? & <-); by simplify_eq).
  simplify_eq. split; [|done]. split; [intros k m Hk _; exists m; by split|].
  simpl. intros k' Hk'. destruct (decide (k' = (d, tn))) as [->|Hne].
  - right; left. destruct Ht as [c ->]. split; [by exists c|right]. split; [simpl; apply lookup_delete_eq|by exists i].
  - by rewrite lookup_delete_ne in Hk'.
Qed.
Lemma posix_sync_parent w r w' :
  at_parent w → posix (SyncAll parent) w r w' → G w w' ∧ at_parent w'.
Proof.
  intros Hp Hr. simpl in Hr. destruct r as [[]|e]; simpl in Hr.
  2:{ subst. split; [apply calm_replaces; reflexivity|done]. }
  destruct Hr as (i & m & Ho & Hm & ->). split; [|done]. apply node_replaces; [done|].
  intros j n Hj _. simpl. destruct (decide (j = i)) as [->|Hne].
  - rewrite lookup_insert_eq. simplify_eq. eexists. split; [done|]. by split_and!.
  - rewrite lookup_insert_ne by done. exists n. by split.
Qed.

(** *** The program *)

Lemma wp_calm {A} (p : Prog A) I w :
  only gentle p → stable I → I w → wp rely G p (λ _, I) w.
Proof. intros Hp HI Hw. apply wp_gentle; try done. apply calm_replaces. Qed.

(** A new temporary file. *)
Lemma create_replaces n w i w1 fd w2 :
  creates w d (temporary_name file_name n) i w1 → opens w1 fd i w2 → G w w2.
Proof.
  intros (Hn & Hi & _ & mode & ->) [_ ->]. split; simpl.
  - intros j m Hj _. exists m. split; [|reflexivity]. rewrite lookup_insert_ne; [done|]. intros <-. congruence.
  - intros k' Hk'. right; left. destruct (decide (k' = (d, temporary_name file_name n))) as [->|Hne].
    + split; [by exists n|left]. split; [done|]. exists i. simpl. by rewrite lookup_insert_eq.
    + by rewrite lookup_insert_ne in Hk'.
Qed.
Lemma created_temporary n w i w1 fd w2 :
  at_parent w → creates w d (temporary_name file_name n) i w1 → opens w1 fd i w2 →
  ∃ mode, temporary (temporary_name file_name n) fd (empty_file mode) w2.
Proof.
  intros Hp (Hn & Hi & _ & mode & ->) [Hfresh ->]. exists mode. split; [|by exists n|].
  - destruct Hp as (h & Hh & ?). apply opened_with_handle; [|by exists h]. intros <-. simpl in Hfresh. congruence.
  - exists i. cbn. rewrite !lookup_insert_eq. split_and!; [done|by apply elem_of_union_r, elem_of_singleton_2|done|done].
Qed.

Lemma create_temporary_wp attempts attempt w :
  at_parent w →
  wp rely G (create_temporary attempts parent file_name attempt)
    (λ r w', match r with
             | Ok (tn, tf) => ∃ mode, temporary tn tf (empty_file mode) w'
             | Err _ => at_parent w'
             end) w.
Proof.
  revert attempt w. induction attempts as [|n IH]; intros attempt w Hp; [done|]. cbn [create_temporary].
  apply wp_bind, wp_bind, wp_documented. intros w1 counter w2 Hr ->.
  split; [apply calm_replaces; reflexivity|]. cbn [wp].
  assert (Hp1 : at_parent w1) by by eapply rely_opened.
  apply wp_bind, wp_with_c_name; [exact Hp1|]. fold (temporary_name file_name (counter + attempt)).
  set (tn := temporary_name _ _). apply wp_documented. intros w3 r w4 Hr3 Ho.
  assert (Hp3 : at_parent w3) by by eapply rely_opened.
  destruct r as [tf|e]; simpl in Ho.
  2:{ subst. split; [apply calm_replaces; reflexivity|]. by case_match; [apply IH|]. }
  destruct Ho as (d' & i & Hd' & w5 & Hcr & Hop).
  assert (d' = d) as -> by (destruct Hp3 as (? & ? & <-), Hd' as (? & ? & <-); by simplify_eq).
  split; [by eapply (create_replaces (counter + attempt))|].
  by eapply created_temporary.
Qed.

Lemma write_temporary_wp tn tf perms fail mode0 w :
  temporary tn tf (empty_file mode0) w →
  wp rely G (write_temporary parent tf tn file_name content perms no_replace fail)
    (λ r w', match r with Ok _ => at_parent w' | Err _ => ∃ n, temporary tn tf n w' end) w.
Proof.
  intros Ht. unfold write_temporary. apply wp_try, wp_documented. intros w1 r w2 Hr Hw.
  eapply posix_write_temporary in Hw as [HG Ht2]; [|by eapply temporary_rely].
  split; [done|]. destruct r as [[]|e]; [|done]. clear w w1 HG Hr Ht.
  set (n := extended _ _) in Ht2.
  assert (Hn : n_type n = TFile ∧ n_data n = content) by done. clearbody n. apply wp_try.
  assert (Hperm : wp rely G match perms with Some mode => call (SetPermissions tf mode) | None => Done (Ok tt) end
    (λ r w', ∃ m, temporary tn tf m w' ∧ n_type m = TFile ∧ n_data m = content) w2).
  { destruct perms as [mode|]; [|exists n; by split]. apply wp_documented. intros w1 r w3 Hr Hw.
    eapply posix_permissions_temporary in Hw as (HG & m & ? & ? & ?); [|by eapply temporary_rely].
    split; [done|]. exists m. destruct Hn. split_and!; [done|congruence..]. }
  eapply wp_mono; [|exact Hperm]. clear w2 n Ht2 Hn Hperm. intros r w (n & Ht & Hty & Hd). destruct r as [[]|e]; [|by exists n].
  apply wp_try, wp_documented. intros w1 r w2 Hr Hw.
  eapply posix_sync_temporary in Hw as (HG & m & Ht2 & Hty2 & Hd2 & Hs); [|by eapply temporary_rely].
  rewrite Hty in Hty2. rewrite Hd in Hd2.
  split; [done|]. destruct r as [[]|e]; [|by exists m]. specialize (Hs eq_refl).
  destruct fail; [by exists m|]. unfold rename_in_parent_dir, rename_between_parent_dirs.
  apply wp_with_c_name; [by exists m|]. apply wp_with_c_name; [by exists m|].
  apply wp_bind, wp_documented. intros w3 r w4 Hr3 Hw.
  eapply posix_publish in Hw as (HG' & Hp & Herr); [|by eapply temporary_rely|done..].
  split; [done|]. destruct r as [[]|e]; [done|]. specialize (Herr e eq_refl). case_match; by exists m.
Qed.

Lemma replace_file_wp fail w :
  at_parent w →
  wp rely G (replace_file_atomically parent file_name content no_replace fail) (λ _, at_parent) w.
Proof.
  intros Hp. unfold replace_file_atomically. apply wp_try. eapply wp_mono; [|apply (wp_calm _ at_parent)].
  2:{ case_match; [done|]. unfold open_read_no_follow_in_parent_dir, open_at. eauto 10 with gentle. }
  2:{ apply at_parent_stable. }
  2:{ done. }
  intros [perms|e] w1 Hp1; [|done]. apply wp_try. eapply wp_mono; [|by apply create_temporary_wp].
  intros [[tn tf]|e] w2 Ht; [|done]. destruct Ht as [mode Ht]. apply wp_bind.
  eapply wp_mono; [|by eapply write_temporary_wp].
  intros [u|e] w3 Ht3.
  - apply wp_try, wp_documented. intros w4 r w5 Hr Hs.
    eapply posix_sync_parent in Hs as [HG Hp5]; [|by eapply rely_opened].
    split; [done|]. by destruct r.
  - destruct Ht3 as [n Ht3]. apply wp_bind, wp_with_c_name; [by destruct Ht3|].
    apply wp_documented. intros w4 r w5 Hr Hs.
    eapply posix_unlink_temporary in Hs as [HG Hp5]; [|by eapply temporary_rely]. by split.
Qed.

Lemma replace_locked_wp fail lock w :
  at_parent w →
  wp rely G (write_file_bytes_atomically_inner_locked parent file_name content no_replace fail lock)
    (λ _, at_parent) w.
Proof.
  intros Hp. apply wp_bind. eapply wp_mono; [|by apply replace_file_wp]. intros r w1 Hp1.
  apply wp_bind. eapply wp_mono; [|apply (wp_calm _ at_parent); eauto using at_parent_stable with gentle]. done.
Qed.
End Replace.

(** * Writing and patching are atomic *)

(** ** Resolution changes nothing and stays inside the root *)

Lemma only_res {A B} P (p : resolving A) (f : A → resolving B) :
  only P p → (∀ a, only P (f a)) → only P (pbind p f).
Proof. intros Hp Hf. apply only_bind; [done|]. by intros [a|e]. Qed.
#[export] Hint Resolve only_res : gentle.
Lemma canonicalize_or_gentle e p : only gentle (canonicalize_or e p).
Proof. unfold canonicalize_or. eauto with gentle. Qed.
#[export] Hint Resolve canonicalize_or_gentle : gentle.
Lemma within_scope_gentle r p : only gentle (canonicalize_within_scope_io r p).
Proof. unfold canonicalize_within_scope_io. eauto with gentle. Qed.
#[export] Hint Resolve within_scope_gentle : gentle.
Lemma check_ancestors_gentle root fuel a : only gentle (check_ancestors_io root fuel a).
Proof.
  revert a. induction fuel as [|fuel IH]; intros [a|]; simpl; try done.
  destruct (path_eqb a root); [done|]. apply only_res; [|done]. by case_match.
Qed.
#[export] Hint Resolve check_ancestors_gentle : gentle.
Lemma new_target_gentle r root p : only gentle (resolve_new_target_io r root p).
Proof. unfold resolve_new_target_io. apply only_res; [done|]. intros n. case_match; eauto 10 with gentle. Qed.
#[export] Hint Resolve new_target_gentle : gentle.
Lemma resolved_fd_gentle p : only gentle (resolved_fd p).
Proof.
  unfold resolved_fd, open_path_no_follow_in_parent_dir, open_at.
  repeat case_match; eauto 10 with gentle.
Qed.
#[export] Hint Resolve resolved_fd_gentle : gentle.
Lemma resolve_target_gentle r p : only gentle (resolve_mutation_target_io r p).
Proof.
  unfold resolve_mutation_target_io. apply only_res; [eauto with gentle|]. intros root.
  apply only_res; [eauto with gentle|]. intros _. apply only_bind; [eauto with gentle|].
  intros [m|e]; case_match; eauto 10 with gentle.
Qed.
#[export] Hint Resolve resolve_target_gentle : gentle.

(** ** Absolute paths *)

Lemma component_of_not_root l : component_of l ≠ Some RootDir.
Proof. unfold component_of. by repeat case_bool_decide. Qed.
Lemma body_not_root pieces cs : omap component_of pieces ≠ RootDir :: cs.
Proof.
  induction pieces as [|p pieces IH]; [done|]. simpl. destruct (component_of p) as [c|] eqn:E; [|done].
  intros [= -> _]. by apply component_of_not_root in E.
Qed.
Lemma absolute_components p : is_absolute p = true ↔ ∃ cs, path_components p = RootDir :: cs.
Proof.
  unfold is_absolute, path_components. destruct (to_bytes p) as [|c l]; [split; [done|by intros [cs E%body_not_root]]|].
  case_bool_decide; split; try done; [eauto|]. intros [cs E]. exfalso. revert E.
  case_match; [apply body_not_root|]. case_bool_decide; [done|apply body_not_root].
Qed.
Lemma absolute_parent p q : is_absolute p = true → path_parent p = Some q → is_absolute q = true.
Proof.
  intros [cs Hp]%absolute_components Hq. apply absolute_components.
  destruct (path_parent_components _ _ Hq) as [c Hc]. rewrite Hp in Hc.
  destruct (path_components q) as [|c' cs'] eqn:E; simplify_list_eq; [|eauto].
  unfold path_parent in Hq. by rewrite Hp in Hq.
Qed.

(** ** Where a request leads *)

(** The answers a system gave. *)
Definition Answers : Type := ∀ R, Sys R → R → Prop.

Section Places.
Context (said : Answers).

(** The path a request resolves to: below the root the system answered for the
    repository, and either what the system answered for the joined path or, for a
    path that does not exist, its name in the directory the system answered for
    its parent, itself below the root. *)
Definition resolves (repository_root relative_path path : string) : Prop :=
  ∃ root, said _ (Canonicalize repository_root) (Ok root) ∧ below path root ∧
    let target := target_of root relative_path in
    (said _ (Canonicalize target) (Ok path) ∨
     ∃ parent name root' directory,
       path_parent target = Some parent ∧ path_file_name target = Some name ∧
       said _ (Canonicalize repository_root) (Ok root') ∧
       said _ (Canonicalize (target_of root' parent)) (Ok directory) ∧ below directory root' ∧
       path = path_join directory name).

(** A descriptor reached from another by opening one directory after the other,
    none of them through a link. *)
Fixpoint reaches (dir : Fd) (cs : list PathComponent) (fd : Fd) : Prop :=
  match cs with
  | [] => fd = dir
  | (RootDir | CurDir) :: cs => reaches dir cs fd
  | Normal name :: cs => ∃ next, said _ (OpenAt dir name ODirectory) (Ok next) ∧ reaches next cs fd
  | ParentDir :: _ => False
  end.
Definition directory_of (path : string) (fd : Fd) : Prop :=
  ∃ start, said _ (if is_absolute path then OpenRoot else OpenCwd) (Ok start) ∧ reaches start (path_components path) fd.

(** The entry of a path: the directory its parent leads to, and its last name. *)
Definition entry_at (w : World) (path : string) (k : Inode * string) : Prop :=
  ∃ parent fd, path_parent path = Some parent ∧ directory_of parent fd ∧ opened w fd k.1 ∧
               k.2 = default EmptyString (path_file_name path).
(** The entry a request is about. *)
Definition place (repository_root relative_path : string) (w : World) (k : Inode * string) : Prop :=
  ∃ path, resolves repository_root relative_path path ∧ entry_at w path k.
End Places.

Lemma below_absolute path root : below path root → is_absolute root = true → is_absolute path = true.
Proof.
  intros [l Hl] [cs Hroot]%absolute_components. apply absolute_components. rewrite Hroot in Hl. simpl in Hl. eauto.
Qed.
Lemma within_root_below root p c : within_root root p = Ok c → below (cp_canonical c) root ∧ cp_canonical c = p.
Proof.
  unfold within_root. destruct (path_starts_with p root) eqn:E; [|done]. intros [= <-].
  split; [by apply starts_with_below|done].
Qed.

Section Tools.
Context {os : Os} `{!PosixLaws os} {said : Answers}.
Context (Hsaid : ∀ R (c : Sys R) w r w', os_step c w r w' → said R c r).

Lemma wp_res {A B} (p : resolving A) (f : A → resolving B) others G Q w :
  wp others G p (λ r w', match r with Ok a => wp others G (f a) Q w' | Err e => Q (Err e) w' end) w →
  wp others G (pbind p f) Q w.
Proof. intros H. apply wp_bind. eapply wp_mono; [|exact H]. by intros [a|e] w'. Qed.
Lemma wp_canonicalize_or e p (G : World → World → Prop) Q w :
  (∀ w w', calm w w' → G w w') →
  (∀ w', Q (Err e) w' ∧ ∀ c, said _ (Canonicalize p) (Ok c) → is_absolute c = true → Q (Ok c) w') →
  wp rely G (canonicalize_or e p) Q w.
Proof.
  intros HG HQ. apply wp_bind, wp_call. intros w1 r w2 _ Hs. pose proof (documented _ _ _ _ Hs) as Hd. split.
  - apply HG. by eapply (posix_gentle _ (Canonicalize p)).
  - apply Hsaid in Hs. destruct r as [c|e']; [|exact (proj1 (HQ w2))]. apply HQ; [done|]. by destruct Hd.
Qed.

Lemma resolve_new_wp repository_root root relative_path (G : World → World → Prop) w :
  (∀ w w', calm w w' → G w w') → said _ (Canonicalize repository_root) (Ok root) →
  wp rely G (resolve_new_target_io repository_root root (target_of root relative_path))
    (λ r _, ∀ c, r = Ok c → resolves said repository_root relative_path (cp_canonical c) ∧
                            below (cp_canonical c) root) w.
Proof.
  intros HG Hroot. unfold resolve_new_target_io. apply wp_res.
  destruct (path_file_name _) as [name|] eqn:En; [|done]. cbn [ok_or wp]. case_match; [done|]. apply wp_res.
  destruct (path_parent _) as [parent|] eqn:Ep; [|done]. cbn [ok_or wp]. apply wp_res.
  unfold canonicalize_within_scope_io. apply wp_res, wp_canonicalize_or; [done|]. intros w1. split; [done|].
  intros root' Hroot' _. apply wp_res, wp_canonicalize_or; [done|]. intros w2. split; [done|]. intros directory Hdir _.
  cbn [wp]. destruct (within_root root' directory) as [c'|] eqn:Ec; [|done].
  apply within_root_below in Ec as [Hb <-]. destruct (within_root root _) as [c|] eqn:E; [|done].
  apply within_root_below in E as [Hc E]. intros ? [= <-]. split; [|done]. exists root. split_and!; [done..|]. right.
  by exists parent, name, root', (cp_canonical c').
Qed.

Lemma resolve_target_wp repository_root p (G : World → World → Prop) w :
  (∀ w w', calm w w' → G w w') →
  wp rely G (resolve_mutation_target_io repository_root p)
    (λ r _, ∀ t fd, r = Ok (t, fd) →
       resolves said repository_root p (mt_canonical t) ∧ is_absolute (mt_canonical t) = true) w.
Proof.
  intros HG. apply wp_res, wp_canonicalize_or; [done|]. intros w1. split; [done|]. intros root Hroot Ha.
  assert (Htrue : stable (λ _, True)) by done.
  apply wp_res. eapply wp_mono; [|apply (wp_gentle _ _ (λ _, True)); eauto with gentle].
  intros [u|e] w3 _; [|done]. apply wp_bind.
  eapply wp_mono; [|apply (wp_gentle _ _ (λ _, True)); eauto with gentle]. intros [m|e] w4 _; case_match; try done.
  - apply wp_res, wp_canonicalize_or; [done|]. intros w5. split; [done|]. intros c Hc _.
    apply wp_res. destruct (within_root root c) as [r|e] eqn:E; [|done]. apply within_root_below in E as [Hb <-].
    cbn [wp]. apply wp_bind. eapply wp_mono; [|apply (wp_gentle _ _ (λ _, True)); eauto with gentle].
    intros fd w6 _ t fd' [= <- <-]. split; [|by eapply below_absolute]. exists root. split_and!; [done..|]. by left.
  - apply wp_res. eapply wp_mono; [|by apply resolve_new_wp]. intros [c|e'] w5 Hr; [|done]. cbn [wp].
    intros t fd [= <- <-]. destruct (Hr _ eq_refl). split; [done|by eapply below_absolute].
Qed.

(** A directory is opened by opening those on the way to it. *)
Definition opens_at (path : string) (r : io Fd) (w : World) : Prop :=
  ∀ fd, r = Ok fd → directory_of said path fd ∧ ∃ d, opened w fd d.
Lemma open_segments_wp (G : World → World → Prop) dir cs w :
  (∀ w w', calm w w' → G w w') → (∃ d, opened w dir d) →
  wp rely G (open_segments dir cs) (λ r w', ∀ fd, r = Ok fd → reaches said dir cs fd ∧ ∃ d, opened w' fd d) w.
Proof.
  intros HG. revert dir w. induction cs as [|[] cs IH]; intros dir w Ho; simpl; [by intros ? [= <-]|by apply IH..|done|].
  apply wp_try, wp_with_c_name; [done|]. apply wp_call. intros w1 r w2 Hr Hs. pose proof (documented _ _ _ _ Hs) as Hp.
  apply Hsaid in Hs. split; [by apply HG; eapply (posix_gentle _ (OpenAt dir name ODirectory)); [|exact Hp]|].
  destruct r as [fd|e]; [|done]. destruct Hp as (d & i & _ & n & _ & _ & Hop & _).
  eapply wp_mono; [|apply IH; exists i; by eapply opened_calm]. intros r w3 H fd' ->.
  destruct (H fd' eq_refl). split; [by exists fd|done].
Qed.
Lemma open_parent_wp (G : World → World → Prop) path w :
  (∀ w w', calm w w' → G w w') → wp rely G (open_parent_no_follow path) (opens_at path) w.
Proof.
  intros HG. unfold open_parent_no_follow. apply wp_try.
  assert (Hstart : wp rely G (if is_absolute path then call OpenRoot else call OpenCwd) (λ r w', ∀ fd, r = Ok fd →
    said _ (if is_absolute path then OpenRoot else OpenCwd) (Ok fd) ∧ ∃ d, opened w' fd d) w).
  { destruct (is_absolute path); apply wp_call; intros w1 r w2 Hr Hs; pose proof (documented _ _ _ _ Hs) as Hp;
      apply Hsaid in Hs; (split; [by apply HG; eapply posix_gentle; [|exact Hp]|]); intros fd ->; (split; [done|]);
      simpl in Hp; posix_cases; eauto using opened_calm. }
  eapply wp_mono; [|exact Hstart]. intros [dir|e] w1 H; [|done]. destruct (H dir eq_refl) as [Hd Ho].
  eapply wp_mono; [|by apply open_segments_wp]. intros r w2 H2 fd ->. destruct (H2 fd eq_refl). split; [|done].
  by exists dir.
Qed.

(** ** [fs.write] *)

(** A call replaces, if anything, the file the request names. *)
Definition replaces_in (said : Answers) (repository_root relative_path : string) (content : bytes)
  (no_replace : bool) (w w' : World) : Prop :=
  ∃ k, place said repository_root relative_path w k ∧ replaces content no_replace k w w'.
(** Either nothing is replaced or it is replaced as allowed. *)
Definition atomic_in (said : Answers) (repository_root relative_path : string) (content : bytes)
  (no_replace : bool) (w w' : World) : Prop :=
  calm w w' ∨ replaces_in said repository_root relative_path content no_replace w w'.

Lemma replaces_weaken content b k w w' : replaces content true k w w' → replaces content b k w w'.
Proof.
  intros [Hn Hk]. split; [done|]. intros k' H. destruct (Hk k' H) as [?|[?|(? & Hn' & ?)]]; [auto..|].
  right; right. split_and!; [done| |done]. intros _. by apply Hn'.
Qed.
(** Replacing by the descriptor of the directory of a resolved path. *)
Lemma replace_at_wp repository_root relative_path path parent dir d content no_replace fail lock w :
  resolves said repository_root relative_path path → path_parent path = Some parent →
  directory_of said parent dir → opened w dir d →
  wp rely (replaces_in said repository_root relative_path content no_replace)
    (write_file_bytes_atomically_inner_locked dir (default EmptyString (path_file_name path)) content no_replace fail lock)
    (λ _ _, True) w.
Proof.
  intros Hr Hp Hd Ho. eapply wp_mono; [|eapply wp_weaken; [|apply wp_opened; [exact Ho|]; by apply (replace_locked_wp dir d)]]; [done|].
  intros w1 w2 [Ho1 Hrep]. eexists. split; [|exact Hrep]. exists path. split; [done|]. by exists parent, dir.
Qed.

Lemma write_path_wp repository_root relative_path path content no_replace fail w :
  resolves said repository_root relative_path path →
  wp rely (atomic_in said repository_root relative_path content no_replace)
    (write_file_bytes_atomically_inner path content no_replace fail) (λ _ _, True) w.
Proof.
  intros Hin. unfold write_file_bytes_atomically_inner.
  apply wp_try. unfold parent_or_error. destruct (path_parent path) as [parent|] eqn:Ep; [|done]. cbn [ok_or wp].
  apply wp_try. unfold name_or_error. destruct (path_file_name path) as [name|] eqn:En; [|done]. cbn [ok_or wp].
  assert (HG : ∀ w w', calm w w' → atomic_in said repository_root relative_path content no_replace w w') by by left.
  apply wp_try. eapply wp_mono; [|by apply open_parent_wp]. intros [dir|e] w1 Hd; [|done].
  destruct (Hd dir eq_refl) as [Hdir [d Ho]]. apply wp_try.
  eapply wp_mono; [|apply (wp_gentle _ _ (at_parent dir d)); eauto using at_parent_stable with gentle].
  intros [lock|e] w2 Hp; [|done]. eapply wp_weaken; [by right|].
  replace name with (default EmptyString (path_file_name path)) by by rewrite En. by eapply replace_at_wp.
Qed.

Definition write_guarantee (t : FsWriteTool) (request : RuntimeJobRequest) : World → World → Prop :=
  atomic_in said (write_root t) (target_from_request request) (to_bytes (write_content t))
    (negb (write_allow_overwrite t)).

Lemma wp_calm_call {R} (c : Sys R) (G : World → World → Prop) Q w :
  gentle R c → (∀ w w', calm w w' → G w w') → (∀ r w', Q r w') → wp rely G (call c) Q w.
Proof.
  intros Hc HG HQ. apply wp_documented. intros w1 r w2 _ Hp. split; [|done]. apply HG. by eapply posix_gentle.
Qed.

Lemma write_resolved_wp t request target w :
  resolves said (write_root t) (target_from_request request) (mt_canonical target) →
  wp rely (write_guarantee t request) (write_resolved t target) (λ _ _, True) w.
Proof.
  intros Hin. assert (HG : ∀ w w', calm w w' → write_guarantee t request w w') by by left.
  unfold write_resolved. apply wp_bind, wp_calm_call; [done..|]. intros exists_ w1.
  destruct (exists_ && negb (write_allow_overwrite t)) eqn:Ho; [done|].
  destruct (negb exists_ && negb (write_allow_create t)); [done|]. apply wp_bind.
  eapply wp_mono; [|apply (wp_gentle _ _ (λ _, True)); [|done..]].
  2:{ destruct exists_; eauto with gentle. }
  intros [report|] w2 _; [done|]. apply wp_bind. eapply wp_mono; [|eapply wp_weaken; [|by apply write_path_wp]]; [done|].
  intros w3 w4 [Hc|(k & ? & Hr)]; [by left|right]. exists k. split; [done|].
  destruct exists_; [|by apply replaces_weaken]. simpl in Ho. apply negb_false_iff in Ho. by rewrite Ho.
Qed.
Lemma write_execute_wp t request w :
  wp rely (write_guarantee t request) (write_execute t request) (λ _ _, True) w.
Proof.
  unfold write_execute. case_match; [done|]. apply wp_bind.
  eapply wp_mono; [|apply resolve_target_wp; by left]. intros [[target fd]|e] w1 Hin; [|done].
  apply write_resolved_wp. by eapply Hin.
Qed.

(** ** [fs.patch] *)

(** The result of the only exact replacement in some text, within the limit. *)
Definition one_replacement (t : FsPatchTool) (old new : bytes) : Prop :=
  ∃ before after, old = before ++ to_bytes (patch_find_text t) ++ after ∧
    new = before ++ to_bytes (patch_replacement_text t) ++ after ∧
    (∀ b a, old = b ++ to_bytes (patch_find_text t) ++ a → b = before ∧ a = after) ∧
    (N.of_nat (length new) ≤ patch_max_bytes t)%N.
Definition patch_guarantee (t : FsPatchTool) (request : RuntimeJobRequest) (w w' : World) : Prop :=
  calm w w' ∨ ∃ old new, one_replacement t old new ∧
    replaces_in said (patch_root t) (target_from_request request) new false w w'.

Context (debug_str : string → string).
Lemma patched_Ok t target content updated :
  patch_find_text t ≠ EmptyString → patched debug_str t target content = Ok updated →
  one_replacement t (to_bytes content) (to_bytes updated).
Proof.
  intros Hf. unfold patched. set (needle := to_bytes (patch_find_text t)).
  assert (Hne : needle ≠ []).
  { intros E. apply Hf. by rewrite <- (of_to_bytes (patch_find_text t)), <- (of_to_bytes EmptyString); f_equal. }
  destruct (Nat.eqb_spec (count_overlapping_matches (to_bytes content) needle) 0) as [|H0]; [done|].
  destruct (Nat.ltb_spec 1 (count_overlapping_matches (to_bytes content) needle)) as [|H1]; [done|].
  destruct (count_from_one needle (to_bytes content)) as (p & q & Hc & Hr & Hu); [done| |].
  { apply count_overlapping_one; [done|lia]. }
  rewrite Hr. destruct (N.ltb_spec (patch_max_bytes t) (str_len (of_bytes
    (p ++ to_bytes (patch_replacement_text t) ++ q)))) as [|Hlen]; [done|]. intros [= <-].
  rewrite to_of_bytes. exists p, q. split_and!; [done|done|done|].
  unfold str_len in Hlen. by rewrite to_of_bytes in Hlen.
Qed.

Lemma wp_holding {A} (p : Prog A) locks G Q w :
  (∀ w w', calm w w' → G w w') → wp rely G p Q w →
  wp rely G (holding locks p) (λ _ _, True) w.
Proof.
  intros HG Hp. apply wp_bind. eapply wp_mono; [|exact Hp]. intros a w1 _. apply wp_bind.
  eapply wp_mono; [|apply (wp_gentle _ _ (λ _, True)); [apply release_gentle|done..]]. done.
Qed.
Lemma read_loop_gentle fuel file max content : only gentle (read_loop fuel file max content).
Proof.
  revert content. induction fuel as [|fuel IH]; intros content; simpl; [done|]. split; [done|].
  intros [data|e]; simpl; repeat case_match; done.
Qed.
Lemma read_entire_gentle file max : only gentle (read_entire_text_file_from_open_file file max).
Proof. unfold read_entire_text_file_from_open_file. eauto using read_loop_gentle with gentle. Qed.

Lemma patch_locked_wp t request target parent dir d lock w :
  patch_find_text t ≠ EmptyString →
  resolves said (patch_root t) (target_from_request request) (mt_canonical target) →
  path_parent (mt_canonical target) = Some parent → directory_of said parent dir → at_parent dir d w →
  wp rely (patch_guarantee t request)
    (patch_locked debug_str t target (default EmptyString (path_file_name (mt_canonical target))) dir lock)
    (λ _ _, True) w.
Proof.
  intros Hf Hin Hpar Hdir Hp. assert (HG : ∀ w w', calm w w' → patch_guarantee t request w w') by by left.
  assert (Hrefuse : ∀ (report : Report) w,
    wp rely (patch_guarantee t request) (holding [lock] (Done report)) (λ _ _, True) w)
    by (intros; by apply (wp_holding _ _ _ (λ _ _, True))).
  assert (Hgentle : ∀ A (p : Prog A) w, only gentle p → at_parent dir d w →
    wp rely (patch_guarantee t request) p (λ _, at_parent dir d) w)
    by (intros; apply wp_gentle; eauto using at_parent_stable).
  unfold patch_locked. apply wp_bind. eapply wp_mono; [|apply Hgentle; [|done]].
  2:{ unfold open_read_no_follow_in_parent_dir, open_at. eauto with gentle. }
  intros [file|e] w1 Hp1; [|apply Hrefuse]. apply wp_bind. eapply wp_mono; [|apply Hgentle; [by split|done]].
  intros [m|e] w2 Hp2; [|apply Hrefuse]. case_match; [apply Hrefuse|]. apply wp_bind.
  eapply wp_mono; [|apply Hgentle; [apply read_entire_gentle|done]]. intros [content|e] w3 Hp3; [|apply Hrefuse].
  destruct (patched debug_str t target content) as [updated|report] eqn:E; [|apply Hrefuse]. apply patched_Ok in E; [|done].
  apply wp_bind. eapply wp_mono; [|eapply wp_weaken; [|by eapply replace_at_wp]]; [done|].
  intros w4 w5 Hr. right. by exists (to_bytes content), (to_bytes updated).
Qed.

Lemma patch_execute_wp t request w :
  wp rely (patch_guarantee t request) (patch_execute debug_str t request) (λ _ _, True) w.
Proof.
  unfold patch_execute. destruct (str_is_empty (patch_find_text t)) eqn:Hf; [done|].
  assert (HG : ∀ w w', calm w w' → patch_guarantee t request w w') by by left.
  apply wp_bind. eapply wp_mono; [|by apply resolve_target_wp]. intros [[target fd]|e] w1 Hin; [|done].
  destruct (Hin _ _ eq_refl) as [Hres _]. unfold patch_resolved. apply wp_bind, wp_calm_call; [done..|].
  intros [m|e] w2; [|done]. case_match; [done|]. apply wp_bind. unfold lock_target_for_patch, parent_or_error.
  apply wp_try. destruct (path_parent _) as [parent|] eqn:Ep; [|done]. cbn [ok_or wp].
  apply wp_try. eapply wp_mono; [|by apply open_parent_wp]. intros [dir|e] w3 Hd; [|done].
  destruct (Hd dir eq_refl) as [Hdir [d Ho]]. apply wp_try.
  eapply wp_mono; [|apply (wp_gentle _ _ (at_parent dir d)); eauto using at_parent_stable with gentle].
  intros [lock|e] w4 Hp; [|done]. cbn [wp]. apply (patch_locked_wp _ _ _ parent _ d); [|done..].
  intros E. by rewrite E in Hf.
Qed.
End Tools.

(** C5: files are replaced atomically, and only those the request names.  Other
    processes may do anything between the calls but touch the descriptors, the
    locks and the temporary files of this run ([rely]).  Then every call of a run
    of [fs.write] or [fs.patch], wherever the run stops, either changes no file
    and no name, adding at most empty directories and lock files, or acts on one
    entry: the last name of the path the request resolved to (by the answers of
    this run, below the root they gave for the repository), in the directory that
    the run reached by opening the directories of that path one after the other.
    At such a call existing files keep their content (nothing is written in
    place), names beside the entry come and go only for the temporary files of
    this run, and the entry is only ever given to a complete file that is already
    on disk.  [fs.write] does not replace an existing name unless overwriting was
    allowed; what [fs.patch] writes is some text with the only occurrence of the
    search text replaced, within the byte limit. *)
Theorem replacements_are_atomic (os : Os) (Hos : PosixLaws os) debug_str request :
  (∀ t w h w' R (c : Sys R) k w1 r w2,
     recorded rely (w, write_execute t request) h (w', Call c k) → rely w' w1 → os_step c w1 r w2 →
     atomic_in (answered (Ev c r :: h)) (write_root t) (target_from_request request)
       (to_bytes (write_content t)) (negb (write_allow_overwrite t)) w1 w2) ∧
  (∀ t w h w' R (c : Sys R) k w1 r w2,
     recorded rely (w, patch_execute debug_str t request) h (w', Call c k) → rely w' w1 → os_step c w1 r w2 →
     calm w1 w2 ∨
     ∃ old new, one_replacement t old new ∧
       replaces_in (answered (Ev c r :: h)) (patch_root t) (target_from_request request) new false w1 w2).
Proof.
  split; intros t w h w' R c k w1 r w2 Hrec Hr Hs.
  - eapply recorded_call_adequate; [|done..]. apply (write_execute_wp (os := observed os _)). by intros * [].
  - eapply (recorded_call_adequate _ (patch_guarantee (said := answered (Ev c r :: h)) t request)); [|done..].
    apply (patch_execute_wp (os := observed os _)). by intros * [].
Qed.
