(* ===== verification/WriteLaws.v ===== *)
(** * WriteLaws: [fs.write] and [fs.patch] do what they report *)
From S2P Require Import Prelude Text Domain StoreTypes Settings Truncation Runtime Packages.
From S2P Require Import Paths Tools ScopeGuarantees ToolText ToolTextLaws FileOps.
From S2P Require Import MutationTools MutationLaws.

(** * What writing and patching achieve

    When no other process interferes, a run that reports success has put exactly
    the new content in the place of the file its path named, kept its
    permissions, and changed nothing else. *)

(** ** Paths as the directories they go through *)

(** The directory reached by real directories from another. *)
Fixpoint walk (w : World) (dir : Inode) (cs : list PathComponent) : option Inode :=
  match cs with
  | [] => Some dir
  | (RootDir | CurDir) :: cs => walk w dir cs
  | Normal name :: cs => match w_names w !! (dir, name) with Some d => walk w d cs | None => None end
  | ParentDir :: _ => None
  end.

(** Calls that change neither names nor files. *)
Record still (w w' : World) : Prop := {
  still_root : w_root w' = w_root w;
  still_names : w_names w' = w_names w;
  still_nodes : w_nodes w' = w_nodes w;
  still_opened fd i : opened w fd i → opened w' fd i;
  still_created : w_created w ⊆ w_created w'
}.
#[export] Instance still_preorder : PreOrder still.
Proof.
  split; [by intros w; split|]. intros a b c [? ? ? Ho Hc] [? ? ? Ho' Hc']. split; [congruence..|eauto|by etrans].
Qed.
Lemma still_walk w w' dir cs : still w w' → walk w' dir cs = walk w dir cs.
Proof.
  intros Hs. revert dir. induction cs as [|[] cs IH]; intros dir; simpl; try done.
  rewrite (still_names _ _ Hs). case_match; [apply IH|done].
Qed.

Definition reading (R : Type) (c : Sys R) : Prop :=
  match c with
  | OpenAt _ _ (OCreateNew | OCreate) | CreateDirAll _ => False
  | _ => gentle R c
  end.
Lemma opens_still w fd i w' : opens w fd i w' → still w w'.
Proof. intros H. split; [by destruct H as [_ ->]..| |by destruct H as [_ ->]]. by apply opens_calm in H as []. Qed.
Lemma posix_reading R (c : Sys R) w r w' : reading R c → posix c w r w' → still w w'.
Proof.
  intros Hg Hp. destruct c; simpl in Hg, Hp; try done; try (destruct flags; try done); posix_cases;
    eauto using opens_still; try reflexivity; try (by split).
  split; simpl; try done. intros fd' j Ho.
  apply opened_with_handle; [|done]. intros ->. destruct Ho as (h' & ? & ?). simpl. congruence.
Qed.

Section Quiet.
Context {os : Os} `{!PosixLaws os}.
Definition anything (_ _ : World) : Prop := True.
(** No one else acts. *)
Definition alone {A} (p : Prog A) (Q : A → World → Prop) (w : World) : Prop := wp eq anything p Q w.

Lemma alone_call {R} (c : Sys R) (Q : R → World → Prop) w :
  (∀ r w', posix c w r w' → Q r w') → alone (call c) Q w.
Proof. intros HQ. apply wp_call. intros w1 r w2 <- Hs. split; [done|]. by apply HQ, documented. Qed.
Lemma alone_only {A} P (S : World → World → Prop) `{!PreOrder S} (p : Prog A) w :
  (∀ R (c : Sys R) w r w', P R c → posix c w r w' → S w w') → only P p → alone p (λ _, S w) w.
Proof.
  intros HS Hp. assert (∀ w', S w w' → alone p (λ _, S w) w') as H; [|by apply H].
  induction p as [a|R c k IH]; intros w' Hw; simpl; [done|]. destruct Hp as [Hc Hk].
  intros w1 r w2 <- Hs. apply documented in Hs. split; [done|]. apply IH; [done|]. etrans; [done|by eapply HS].
Qed.
Lemma alone_reading {A} (p : Prog A) w : only reading p → alone p (λ _, still w) w.
Proof. apply alone_only; [apply _|]. apply posix_reading. Qed.
Lemma alone_gentle {A} (p : Prog A) w : only gentle p → alone p (λ _, calm w) w.
Proof. apply alone_only; [split; apply _|]. apply posix_gentle. Qed.
Lemma alone_c_name {A} name (p : string → Prog (io A)) (Q : io A → World → Prop) w :
  (∀ e, Q (Err e) w) → alone (p name) Q w → alone (with_c_name name p) Q w.
Proof. intros HQ Hp. unfold with_c_name. case_bool_decide; [apply HQ|done]. Qed.

(** A parent is opened by walking to it. *)
Lemma alone_open_segments dir d cs w :
  opened w dir d →
  alone (open_segments dir cs)
    (λ r w', still w w' ∧ ∀ fd, r = Ok fd → ∃ e, walk w d cs = Some e ∧ opened w' fd e) w.
Proof.
  revert dir d w. induction cs as [|[] cs IH]; intros dir d w Ho; simpl.
  - split; [done|]. intros fd [= <-]. by exists d.
  - by apply IH.
  - by apply IH.
  - by split.
  - apply wp_try, alone_c_name; [by intros; split|]. apply alone_call. intros [fd|e] w' Hp; simpl in Hp.
    + destruct Hp as (d' & i & Hd' & n & Hn & Hi & Hop & _).
      assert (d' = d) as -> by (destruct Ho as (? & ? & <-), Hd' as (? & ? & <-); by simplify_eq).
      pose proof (opens_still _ _ _ _ Hop) as Hs. eapply wp_mono; [|apply (IH _ i); by eapply opened_calm].
      intros r w2 [Hs2 Hr]. split; [by etrans|]. rewrite Hn. intros fd' ->.
      destruct (Hr fd' eq_refl) as (e & Hw & ?). exists e. by rewrite <- (still_walk w w').
    + subst. by split.
Qed.
Lemma alone_open_parent path w :
  is_absolute path = true →
  alone (open_parent_no_follow path)
    (λ r w', still w w' ∧
       ∀ fd, r = Ok fd → ∃ d, walk w (w_root w) (path_components path) = Some d ∧ opened w' fd d) w.
Proof.
  intros Ha. unfold open_parent_no_follow. rewrite Ha. apply wp_try, alone_call.
  intros [dir|e] w1 Hp; simpl in Hp; [|subst; by split]. pose proof (opens_still _ _ _ _ Hp) as Hs.
  eapply wp_mono; [|apply (alone_open_segments _ (w_root w)); by eapply opened_calm].
  intros r w2 [Hs2 Hr]. split; [by etrans|]. intros fd ->. destruct (Hr fd eq_refl) as (d & Hw & ?).
  exists d. by rewrite <- (still_walk w w1).
Qed.

(** ** A file staged under a temporary name *)

Context (parent : Fd) (d : Inode) (file_name : string) (content : bytes).

(** Beside the temporary file everything is as it was. *)
Record staged (w0 : World) (tn : string) (tf : Fd) (n : Node) (w : World) : Prop := {
  st_temporary : temporary parent d file_name tn tf n w;
  st_base : ∃ i, w_names w = <[(d, tn) := i]> (w_names w0) ∧ w_names w0 !! (d, tn) = None ∧
    w_nodes w0 !! i = None ∧ (∀ k, w_names w0 !! k ≠ Some i) ∧
    ∀ j m, w_nodes w0 !! j = Some m → w_nodes w !! j = Some m
}.
Lemma staged_node w0 tn tf n n' w i :
  staged w0 tn tf n w → opened w tf i → n_data n' = n_data n → staged w0 tn tf n' (with_node w i n').
Proof.
  intros [Ht (j & Hn & Hf & Hj & Hun & Hk)] Ho Hd. split; [by eapply temporary_node|]. exists j. split_and!; [done..|].
  intros k m Hm. simpl. rewrite lookup_insert_ne; [auto|]. intros <-.
  destruct Ht as [_ _ (i' & Hn' & _ & _ & Hh)], Ho as (h & Hh' & <-). simplify_eq. simpl in *.
  rewrite Hn, lookup_insert_eq in Hn'. simplify_eq.
Qed.

Lemma alone_create_temporary attempts attempt w0 :
  at_parent parent d w0 →
  alone (create_temporary attempts parent file_name attempt)
    (λ r w, match r with
            | Ok (tn, tf) => ∃ mode, staged w0 tn tf (empty_file mode) w
            | Err _ => still w0 w
            end) w0.
Proof.
  intros Hp. revert attempt. induction attempts as [|n IH]; intros attempt; [by split|]. cbn [create_temporary].
  apply wp_bind, wp_bind, alone_call. intros counter w ->. cbn [wp].
  fold (temporary_name file_name (counter + attempt)). set (tn := temporary_name _ _).
  apply wp_bind. unfold open_no_follow_in_parent_dir, open_at, with_c_name. case_bool_decide; [by split|].
  apply alone_call. intros [tf|e] w Ho; simpl in Ho; [|subst; case_match; [apply IH|by split]].
  destruct Ho as (d' & i & Hd' & w1 & Hcr & Hop).
  assert (d' = d) as -> by (destruct Hp as (? & ? & <-), Hd' as (? & ? & <-); by simplify_eq).
  edestruct created_temporary as [mode Ht]; [exact Hp|exact Hcr|exact Hop|]. exists mode. split; [done|].
  destruct Hcr as (Hn & Hi & Hun & mode' & ->), Hop as [_ ->].
  exists i. split_and!; [done..|]. intros j m Hj. simpl. rewrite lookup_insert_ne; [done|]. congruence.
Qed.

(** The file is in place, and nothing else changed. *)
Record placed (w0 : World) (no_replace : bool) (perms : option N) (synced : bool) (w : World) : Prop := {
  pl_names : ∃ i n, w_names w = <[(d, file_name) := i]> (w_names w0) ∧ w_nodes w !! i = Some n ∧
    w_nodes w0 !! i = None ∧ n_type n = TFile ∧ n_data n = content ∧ n_synced n = true ∧
    ∀ mode, perms = Some mode → n_mode n = mode;
  pl_nodes j m : w_nodes w0 !! j = Some m → ∃ m', w_nodes w !! j = Some m' ∧ same_file m m';
  pl_free : no_replace = true → w_names w0 !! (d, file_name) = None;
  pl_parent : at_parent parent d w;
  pl_synced : synced = true → d ∉ w_unsynced w
}.

Lemma staged_write w0 tn tf n w data r w' :
  staged w0 tn tf n w → posix (WriteAll tf data) w r w' →
  match r with Ok _ => staged w0 tn tf (extended n data) w' | Err _ => ∃ m, staged w0 tn tf m w' end.
Proof.
  intros [Ht Hb] Hp. pose proof Hp as Hp'. eapply (posix_write_temporary _ _ _ [] false) in Hp' as [_ Ht']; [|done].
  assert (Hbase : ∃ i, w_names w' = <[(d, tn) := i]> (w_names w0) ∧ w_names w0 !! (d, tn) = None ∧
    w_nodes w0 !! i = None ∧ (∀ k, w_names w0 !! k ≠ Some i) ∧
    ∀ j m, w_nodes w0 !! j = Some m → w_nodes w' !! j = Some m).
  { destruct Hp as [[-> _]|(h & m & wr & Hh & Hm & _ & ->)]; [done|].
    destruct Hb as (i & Hn & Hf & Hi & Hun & Hk). exists i. split_and!; [done..|].
    intros j k Hj. simpl. rewrite lookup_insert_ne; [auto|]. intros <-.
    destruct Ht as [_ _ (i' & Hn' & _ & _ & Hh')]. simplify_eq. simpl in *.
    rewrite Hn, lookup_insert_eq in Hn'. simplify_eq. }
  destruct r as [u|e]; [by split|]. destruct Ht' as [m Ht']. exists m. by split.
Qed.
Lemma staged_publish w0 tn tf n w no_replace perms r w' :
  staged w0 tn tf n w → n_type n = TFile → n_data n = content → n_synced n = true →
  (∀ mode, perms = Some mode → n_mode n = mode) →
  posix (RenameAt parent tn parent file_name no_replace) w r w' →
  match r with Ok _ => placed w0 no_replace perms false w' | Err _ => w' = w end.
Proof.
  intros [[Hp [c Htn] (i & Hn & Hc & Hi & Hh)] (j & Hj & Hf & Hj0 & Hun & Hk)] Hty Hd Hs Hm Hr. simpl in Hr.
  assert (Hne : tn ≠ file_name) by (rewrite Htn; apply temporary_name_ne).
  destruct r as [[]|e]; simpl in Hr; [|done]. destruct Hr as (s & d' & k & Hs' & Hd' & Hks & Hnr & ->).
  assert (s = d ∧ d' = d) as [-> ->].
  { destruct Hp as (? & ? & <-), Hs' as (? & ? & <-), Hd' as (? & ? & <-). by simplify_eq. }
  rewrite Hn in Hks. simplify_eq. rewrite Hj, lookup_insert_eq in Hn. simplify_eq.
  rewrite Hj, lookup_insert_ne in Hnr |- * by congruence.
  assert (Hfree : no_replace = true → w_names w0 !! (d, file_name) = None) by done.
  assert (Hnodes : ∀ j m, w_nodes w0 !! j = Some m → ∃ m', w_nodes w !! j = Some m' ∧ same_file m m').
  { intros j m Hjm. exists m. split; [auto|reflexivity]. }
  case_decide as Hsame; [by apply Hun in Hsame|]. split; [|done|done|done|done].
  exists k, n. simpl. by rewrite delete_insert_id.
Qed.

Lemma staged_is w0 tn tf n w i m :
  staged w0 tn tf n w → opened w tf i → w_nodes w !! i = Some m → m = n.
Proof. intros [Ht _]. by apply (temporary_is _ _ _ _ _ _ _ _ _ Ht). Qed.

Lemma alone_write_temporary w0 tn tf perms no_replace fail mode0 w :
  staged w0 tn tf (empty_file mode0) w →
  alone (write_temporary parent tf tn file_name content perms no_replace fail)
    (λ r w', match r with Ok _ => placed w0 no_replace perms false w' | Err _ => ∃ n, staged w0 tn tf n w' end) w.
Proof.
  intros Hst. unfold write_temporary. apply wp_try, alone_call. intros r w1 Hp.
  pose proof (staged_write _ _ _ _ _ _ _ _ Hst Hp) as Hst1. clear Hst Hp w.
  destruct r as [[]|e]; [|done]. set (n := extended _ _) in Hst1. assert (Hn : n_type n = TFile ∧ n_data n = content) by done.
  clearbody n. apply wp_try.
  assert (Hperm : alone match perms with Some mode => call (SetPermissions tf mode) | None => Done (Ok tt) end
    (λ r w', ∃ m, staged w0 tn tf m w' ∧ n_type m = TFile ∧ n_data m = content ∧
                  (r = Ok tt → ∀ mode, perms = Some mode → n_mode m = mode)) w1).
  { destruct perms as [mode|]; [|exists n; destruct Hn; by split_and!]. apply alone_call. intros r w2 Hp.
    destruct Hn. destruct r as [[]|e]; simpl in Hp; [|subst; by exists n].
    destruct Hp as (i & m & Ho & Hm & ->). pose proof (staged_is _ _ _ _ _ _ _ Hst1 Ho Hm) as ->.
    eexists. split; [by eapply staged_node|]. split_and!; [done..|]. by intros _ ? [= <-]. }
  eapply wp_mono; [|exact Hperm]. clear n Hst1 Hn Hperm w1. intros r w (n & Hst & Hty & Hd & Hm).
  destruct r as [[]|e]; [specialize (Hm eq_refl)|by exists n].
  apply wp_try, alone_call. intros r w1 Hp. destruct r as [[]|e]; simpl in Hp; [|subst; by exists n].
  destruct Hp as (i & m & Ho & Hi & ->). pose proof (staged_is _ _ _ _ _ _ _ Hst Ho Hi) as ->.
  set (n' := Build_Node _ _ _ _). assert (Hst' : staged w0 tn tf n' (with_synced (with_node w i n') i)).
  { apply (staged_node _ _ _ _ n' _ _ Hst) in Ho; [|done]. destruct Ho as [[? ? ?] ?]. by split. }
  destruct fail; [by exists n'|]. unfold rename_in_parent_dir, rename_between_parent_dirs.
  apply alone_c_name; [by exists n'|]. apply alone_c_name; [by exists n'|].
  apply wp_bind, alone_call. intros r w2 Hp.
  eapply staged_publish in Hp; [|exact Hst'|done|done|done|exact Hm].
  destruct r as [[]|e]; [done|]. subst. case_match; by exists n'.
Qed.

(** What is named stays named, except that the target may have the new content,
    if it may be replaced. *)
Record kept (no_replace : bool) (w0 w : World) : Prop := {
  kept_names k j : w_names w0 !! k = Some j →
    w_names w !! k = Some j ∨ k = (d, file_name) ∧ no_replace = false ∧ names_complete w k content;
  kept_nodes j m : w_nodes w0 !! j = Some m → ∃ m', w_nodes w !! j = Some m' ∧ same_file m m'
}.
Lemma calm_kept b w0 w : calm w0 w → kept b w0 w.
Proof. intros [_ Hn _ Hd _ _]. split; [eauto|]. intros j m Hj. exists m. split; [auto|reflexivity]. Qed.
Lemma still_calm w w' : still w w' → calm w w'.
Proof. intros [? Hn Hd ? ?]. split; rewrite ?Hn, ?Hd; try done. congruence. Qed.
Lemma still_kept b w w' : still w w' → kept b w w'.
Proof. intros H. by apply calm_kept, still_calm. Qed.
Lemma staged_kept b w0 tn tf n w : staged w0 tn tf n w → kept b w0 w.
Proof.
  intros [_ (i & Hn & Hf & Hi & Hun & Hk)]. split.
  - intros k j Hkj. left. rewrite Hn, lookup_insert_ne; [done|]. intros <-. congruence.
  - intros j m Hj. exists m. split; [auto|reflexivity].
Qed.
Lemma staged_unlinked b w0 tn tf n w w' :
  staged w0 tn tf n w → w_names w' = delete (d, tn) (w_names w) → w_nodes w' = w_nodes w → kept b w0 w'.
Proof.
  intros [_ (i & Hn & Hf & Hi & Hun & Hk)] E E'. split.
  - intros k j Hkj. left. rewrite E, Hn, delete_insert_id by done. done.
  - intros j m Hj. rewrite E'. exists m. split; [auto|reflexivity].
Qed.
Lemma placed_kept w0 no_replace perms synced w : placed w0 no_replace perms synced w → kept no_replace w0 w.
Proof.
  intros [(i & n & Hn & Hi & _ & Hty & Hd & Hs & _) Hk Hf _ _]. split; [|done].
  intros k j Hkj. destruct (decide (k = (d, file_name))) as [->|Hne].
  - right. split_and!; [done| |exists i, n; by rewrite Hn, lookup_insert_eq].
    destruct no_replace; [|done]. by rewrite Hf in Hkj.
  - left. by rewrite Hn, lookup_insert_ne.
Qed.
Lemma placed_sync w0 no_replace perms w w' r :
  placed w0 no_replace perms false w → posix (SyncAll parent) w r w' →
  placed w0 no_replace perms (match r with Ok _ => true | Err _ => false end) w'.
Proof.
  intros Hpl Hp. destruct r as [[]|e]; simpl in Hp; [|by subst].
  destruct Hp as (d' & m & Ho & Hm & ->). destruct Hpl as [(i & n & Hn & Hi & H0 & Hty & Hd & Hs & Hmode) Hk Hf Hp _].
  assert (d' = d) as -> by (destruct Hp as (? & ? & <-), Ho as (? & ? & <-); by simplify_eq).
  set (m' := Build_Node _ _ _ true).
  assert (Hnode : ∀ j x, w_nodes w !! j = Some x → ∃ x', <[d := m']> (w_nodes w) !! j = Some x' ∧ same_file x x').
  { intros j x Hj. destruct (decide (j = d)) as [->|Hne].
    - rewrite lookup_insert_eq. simplify_eq. exists m'. split; [done|]. by split_and!.
    - rewrite lookup_insert_ne by done. exists x. split; [done|reflexivity]. }
  split; [| |done|done|set_solver].
  - destruct (Hnode _ _ Hi) as (n' & Hn' & Hty' & Hd' & Hm' & Hs'). exists i, n'. cbn.
    split_and!; [done|done|done|congruence|congruence|auto|]. intros mode E. rewrite Hm'. auto.
  - intros j x Hj. destruct (Hk _ _ Hj) as (x1 & Hx1 & ?). destruct (Hnode _ _ Hx1) as (x2 & ? & ?).
    exists x2. split; [done|by etrans].
Qed.

(** The permissions of the file that is replaced. *)
Definition had_mode (w0 : World) (no_replace : bool) (perms : option N) : Prop :=
  no_replace = false →
  ∃ j m, w_names w0 !! (d, file_name) = Some j ∧ w_nodes w0 !! j = Some m ∧ perms = Some (n_mode m).
Lemma placed_still w0 w1 no_replace perms synced w :
  still w0 w1 → placed w1 no_replace perms synced w → placed w0 no_replace perms synced w.
Proof. intros [_ Hn Hd _ _] [? ? ? ? ?]. by split; rewrite <- ?Hn, <- ?Hd. Qed.
Lemma kept_still b w0 w1 w : still w0 w1 → kept b w1 w → kept b w0 w.
Proof. intros [_ Hn Hd _ _] [? ?]. by split; rewrite <- ?Hn, <- ?Hd. Qed.

Lemma alone_permissions (no_replace : bool) w0 :
  at_parent parent d w0 →
  alone (if no_replace then Done (Ok (None : option N))
         else try! existing_file := open_read_no_follow_in_parent_dir parent file_name in
              try! existing_metadata := call (Fstat existing_file) in
              Done (Ok (Some (md_mode existing_metadata))))
    (λ r w, still w0 w ∧ at_parent parent d w ∧ ∀ perms, r = Ok perms → had_mode w0 no_replace perms) w0.
Proof.
  intros Hp. destruct no_replace; [by split_and!|]. apply wp_try. apply alone_c_name; [by intros e; split_and!|].
  apply alone_call. intros [fd|e] w Ho; simpl in Ho; [|by subst; split_and!].
  destruct Ho as (d' & i & Hd' & n & Hn & Hi & Hop & _).
  assert (d' = d) as -> by (destruct Hp as (? & ? & <-), Hd' as (? & ? & <-); by simplify_eq).
  pose proof (opens_still _ _ _ _ Hop) as Hs. assert (Hp' : at_parent parent d w) by by eapply still_opened.
  apply wp_try, alone_call. intros [m|e] w2 [-> Hm]; simpl in Hm; [|by split_and!]. split_and!; [done..|].
  intros perms [= <-] _. destruct Hm as (i' & Ho' & n' & Hn' & _ & _ & _ & _ & ->).
  exists i, n'. assert (i' = i) as ->.
  { apply opened_calm in Hop as (? & ? & <-). destruct Ho' as (? & ? & <-). by simplify_eq. }
  by rewrite (still_nodes _ _ Hs) in Hn'.
Qed.

Lemma alone_replace no_replace fail w0 :
  at_parent parent d w0 →
  alone (replace_file_atomically parent file_name content no_replace fail)
    (λ r w, kept no_replace w0 w ∧
       (r = Ok tt → ∃ perms, had_mode w0 no_replace perms ∧ placed w0 no_replace perms true w)) w0.
Proof.
  intros Hp. unfold replace_file_atomically. apply wp_try. eapply wp_mono; [|by apply alone_permissions].
  intros r w1 (Hs & Hp1 & Hm). destruct r as [perms|e]; [|split; [by apply still_kept|done]].
  specialize (Hm perms eq_refl). apply wp_try. eapply wp_mono; [|by apply alone_create_temporary].
  intros [[tn tf]|e] w2 Hst.
  2:{ split; [|done]. apply still_kept. by etrans. }
  destruct Hst as [mode Hst].
  apply wp_bind. eapply wp_mono; [|by eapply (alone_write_temporary w1)]. intros [u|e] w3 Hw.
  - apply wp_try, alone_call. intros r w4 Hsync. apply (placed_sync _ _ _ _ _ _ Hw) in Hsync.
    apply (placed_still w0) in Hsync; [|done]. pose proof (placed_kept _ _ _ _ _ Hsync) as Hk.
    destruct r as [[]|e]; split; try done. intros _. by exists perms.
  - destruct Hw as [n Hw]. apply wp_bind.
    apply alone_c_name; [split; [|done]; eapply kept_still, staged_kept; done|]. apply alone_call.
    intros [[]|e'] w4 Hu; simpl in Hu.
    + destruct Hu as (d' & i & Hd' & Hi & ->). split; [|done]. eapply kept_still; [done|].
      assert (d' = d) as -> by (destruct (st_temporary _ _ _ _ _ Hw) as [(? & ? & <-) _ _], Hd' as (? & ? & <-); by simplify_eq).
      by eapply staged_unlinked.
    + subst. split; [|done]. by eapply kept_still, staged_kept.
Qed.
End Quiet.

(** * A write or patch that reports success did exactly that *)

(** ** What a run achieved *)

(** The file a path names: its directory, reached by real directories, and its
    name there. *)
Definition entry_of (w : World) (path : string) (k : Inode * string) : Prop :=
  ∃ parent, path_parent path = Some parent ∧ k.2 = default EmptyString (path_file_name path) ∧
            walk w (w_root w) (path_components parent) = Some k.1.
(** The entry of the path a request resolved to. *)
Definition entry_for (said : Answers) (repository_root relative_path : string) (w : World) (k : Inode * string) : Prop :=
  ∃ path, resolves said repository_root relative_path path ∧ entry_of w path k.

(** Every name still names its file, except that the entry of the request may, if
    overwriting is allowed, name a complete file with the new content; every file
    still has its content. *)
Record unharmed (here : Inode * string → Prop) (overwrite : bool) (content : option bytes → bytes → Prop)
  (w0 w : World) : Prop := {
  unharmed_names k j : w_names w0 !! k = Some j →
    w_names w !! k = Some j ∨
    here k ∧ overwrite = true ∧ ∃ new, names_complete w k new ∧
      ∀ m, w_nodes w0 !! j = Some m → content (Some (n_data m)) new;
  unharmed_nodes j m : w_nodes w0 !! j = Some m → ∃ m', w_nodes w !! j = Some m' ∧ same_file m m'
}.
Lemma calm_unharmed here b P w0 w : calm w0 w → unharmed here b P w0 w.
Proof. intros [_ Hn _ Hd _ _]. split; [eauto|]. intros j m Hj. exists m. split; [auto|reflexivity]. Qed.
Lemma still_unharmed here b P w0 w : still w0 w → unharmed here b P w0 w.
Proof. intros H. by apply calm_unharmed, still_calm. Qed.

(** A new file with the content, on disk, under the name of the path; it has the
    permissions of the file it replaced. *)
Definition written (w0 w : World) (path : string) (overwrite : bool)
  (content : option bytes → bytes → Prop) : Prop :=
  ∃ k i n, entry_of w0 path k ∧ w_names w !! k = Some i ∧ w_nodes w !! i = Some n ∧
    w_nodes w0 !! i = None ∧ n_type n = TFile ∧ n_synced n = true ∧ (k.1 ∉ w_unsynced w) ∧
    match w_names w0 !! k with
    | None => content None (n_data n)
    | Some j => overwrite = true ∧
        ∀ m, w_nodes w0 !! j = Some m → content (Some (n_data m)) (n_data n) ∧ n_mode n = n_mode m
    end.

Section Write.
Context {os : Os} `{!PosixLaws os} {said : Answers}.
Context (Hsaid : ∀ R (c : Sys R) w r w', os_step c w r w' → said R c r).

Lemma wp_alone {A} G (p : Prog A) Q w : wp rely G p Q w → alone p Q w.
Proof.
  revert w. induction p as [a|R c k IH]; intros w; simpl; [done|].
  intros H w1 r w2 <- Hs. split; [done|]. apply IH, (H w); [reflexivity|done].
Qed.
Lemma alone_and {A} (p : Prog A) Q Q' w : alone p Q w → alone p Q' w → alone p (λ a w', Q a w' ∧ Q' a w') w.
Proof.
  revert w. induction p as [a|R c k IH]; intros w; simpl; [done|].
  intros H H' w1 r w2 Ho Hs. destruct (H _ _ _ Ho Hs), (H' _ _ _ Ho Hs). split; [done|by apply IH].
Qed.

(** *** Resolution *)

#[local] Hint Extern 1 (only reading (call _)) => split; [exact I|done] : gentle.
Lemma open_parent_reading path : only reading (open_parent_no_follow path).
Proof.
  unfold open_parent_no_follow. apply only_try; [case_match; by split|]. intros dir.
  generalize (path_components path) as cs. intros cs. revert dir.
  induction cs as [|[] cs IH]; intros dir; simpl; eauto with gentle.
Qed.
Lemma check_ancestors_reading root fuel a : only reading (check_ancestors_io root fuel a).
Proof.
  revert a. induction fuel as [|fuel IH]; intros [a|]; simpl; try done.
  destruct (path_eqb a root); [done|]. apply only_res; [|done]. by case_match.
Qed.
Lemma resolve_target_reading r p : only reading (resolve_mutation_target_io r p).
Proof.
  assert (Hc : ∀ e p, only reading (canonicalize_or e p)) by by split.
  unfold resolve_mutation_target_io. apply only_res; [done|]. intros root.
  apply only_res; [apply check_ancestors_reading|]. intros _. split; [done|].
  intros [m|e]; cbn [prog_bind]; case_match; try done.
  - apply only_res; [done|]. intros c. apply only_res; [done|]. intros rs. apply only_bind; [|done].
    unfold resolved_fd, open_path_no_follow_in_parent_dir, open_at. repeat case_match; try done.
    apply only_bind; [|done]. apply only_try; [apply open_parent_reading|]. eauto with gentle.
  - apply only_res; [|done]. unfold resolve_new_target_io. apply only_res; [done|]. intros n. case_match; [done|].
    apply only_res; [done|]. intros q. apply only_res; [|done]. unfold canonicalize_within_scope_io.
    apply only_res; [done|]. intros c. by apply only_res.
Qed.

Lemma alone_resolve repository_root p w :
  alone (resolve_mutation_target_io repository_root p)
    (λ r w', still w w' ∧ ∀ t fd, r = Ok (t, fd) →
       resolves said repository_root p (mt_canonical t) ∧ is_absolute (mt_canonical t) = true) w.
Proof.
  apply alone_and; [apply alone_reading, resolve_target_reading|].
  by eapply wp_alone, (resolve_target_wp Hsaid _ _ anything).
Qed.

(** *** The lock is only released *)
Lemma alone_holding {A} (p : Prog A) (Q : A → World → Prop) lock w :
  (∀ a w l, Q a w → Q a (with_locks w l)) → alone p Q w → alone (holding [lock] p) Q w.
Proof.
  intros HQ Hp. apply wp_bind. eapply wp_mono; [|exact Hp]. intros a w1 Ha.
  apply wp_bind, wp_bind, alone_call. intros u w2 ->. by apply HQ.
Qed.

(** *** Writing by descriptor *)

(** What [alone_replace] says, seen from before the lock was taken. *)
Lemma replaced_written dir d w0 w1 w path name content no_replace perms (P : option bytes → bytes → Prop) :
  calm w0 w1 → entry_of w0 path (d, name) → had_mode d name w1 no_replace perms →
  placed dir d name content w1 no_replace perms true w →
  match w_names w0 !! (d, name) with
  | None => P None content
  | Some j => ∀ m, w_nodes w0 !! j = Some m → P (Some (n_data m)) content
  end →
  written w0 w path (negb no_replace) P.
Proof.
  intros Hc He Hm [(i & n & Hn & Hi & Hi0 & Hty & Hd & Hs & Hmode) Hk Hf _ Hsync] HP.
  exists (d, name), i, n. rewrite Hn, lookup_insert_eq. split_and!; [done..| |done|done|by apply Hsync|].
  { destruct (w_nodes w0 !! i) eqn:E; [|done]. apply (calm_nodes _ _ Hc) in E. congruence. }
  pose proof (calm_names _ _ Hc (d, name)) as E1. revert HP E1.
  destruct (w_names w0 !! (d, name)) as [j|]; intros HP E1; [|by rewrite Hd]. specialize (E1 _ eq_refl). destruct no_replace; [by rewrite Hf in E1|].
  split; [done|]. intros m Hj. destruct (Hm eq_refl) as (j' & m' & Hj' & Hm' & Hp). simplify_eq.
  pose proof (calm_nodes _ _ Hc _ _ Hj). simplify_eq. split; [by apply HP|by apply Hmode].
Qed.

Lemma kept_unharmed d name content no_replace (here : Inode * string → Prop) (P : option bytes → bytes → Prop) w0 w1 w :
  calm w0 w1 → here (d, name) →
  (∀ j m, w_names w0 !! (d, name) = Some j → w_nodes w0 !! j = Some m → P (Some (n_data m)) content) →
  kept d name content no_replace w1 w → unharmed here (negb no_replace) P w0 w.
Proof.
  intros Hc Hh HP [Hn Hd]. split.
  - intros k j Hk. destruct (Hn k j (calm_names _ _ Hc _ _ Hk)) as [?|(-> & -> & ?)]; [by left|]. right.
    split_and!; [done..|]. exists content. eauto.
  - intros j m Hj. by apply Hd, (calm_nodes _ _ Hc).
Qed.

Lemma unharmed_locks here b P w0 w l : unharmed here b P w0 w → unharmed here b P w0 (with_locks w l).
Proof. by intros [? ?]. Qed.

Lemma alone_write_path (here : Inode * string → Prop) path content no_replace w0 :
  is_absolute path = true → (∀ k, entry_of w0 path k → here k) →
  alone (write_file_bytes_atomically path content no_replace)
    (λ r w, unharmed here (negb no_replace) (λ _, eq content) w0 w ∧
       (r = Ok tt → written w0 w path (negb no_replace) (λ _, eq content))) w0.
Proof.
  intros Ha Hhere. unfold write_file_bytes_atomically, write_file_bytes_atomically_inner, parent_or_error, name_or_error.
  assert (Hself : unharmed here (negb no_replace) (λ _, eq content) w0 w0) by (apply still_unharmed; reflexivity).
  apply wp_try. destruct (path_parent path) as [parent|] eqn:Epar; [|by split]. cbn [ok_or wp].
  apply wp_try. destruct (path_file_name path) as [name|] eqn:Ename; [|by split]. cbn [ok_or wp].
  apply wp_try. eapply wp_mono; [|eapply alone_open_parent, absolute_parent; eauto].
  intros [dir|e] w1 [Hs1 Hdir]; [|split; [by apply still_unharmed|done]].
  destruct (Hdir dir eq_refl) as (d & Hwalk & Hopen). apply wp_try.
  assert (He : entry_of w0 path (d, name)) by (exists parent; by rewrite Ename).
  eapply wp_mono; [|apply alone_gentle, acquire_gentle]. intros [lock|e] w2 Hc.
  { assert (Hc2 : calm w0 w2) by (etrans; [by apply still_calm|done]).
    apply alone_holding; [intros a w l [? H]; split; [by apply unharmed_locks|exact H]|].
    eapply wp_mono; [|apply (alone_replace dir d); exact (calm_opened _ _ Hc _ _ Hopen)].
    intros r w3 [Hk Hr]. split; [eapply kept_unharmed; eauto|]. intros ->.
    destruct (Hr eq_refl) as (perms & Hm & Hpl). eapply (replaced_written dir d w0 w2); [done..|]. by case_match. }
  split; [|done]. apply calm_unharmed. etrans; [by apply still_calm|done].
Qed.

(** *** [fs.write] *)

Lemma still_entry w0 w1 path k : still w0 w1 → entry_of w1 path k → entry_of w0 path k.
Proof.
  intros Hs (parent & Hp & Hn & Hw). exists parent. split_and!; [done..|].
  by rewrite <- (still_root _ _ Hs), <- (still_walk w0 w1).
Qed.
Lemma still_written w0 w1 w path b P : still w0 w1 → written w1 w path b P → written w0 w path b P.
Proof.
  intros Hs (k & i & n & (parent & Hp & Hn & Hw) & Hrest). exists k, i, n.
  rewrite (still_names _ _ Hs), (still_nodes _ _ Hs) in Hrest. split; [|done].
  exists parent. split_and!; [done..|]. by rewrite <- (still_root _ _ Hs), <- (still_walk w0 w1).
Qed.
Lemma still_first here b P w0 w1 w : still w0 w1 → unharmed here b P w1 w → unharmed here b P w0 w.
Proof. intros [_ Hn Hd _ _] [? ?]. by split; rewrite <- ?Hn, <- ?Hd. Qed.

Lemma unharmed_overwrite here b b' P w0 w :
  (b = true → b' = true) → unharmed here b P w0 w → unharmed here b' P w0 w.
Proof.
  intros Hb [Hn Hd]. split; [|done]. intros k j Hk. destruct (Hn k j Hk) as [?|(? & ? & ?)]; [by left|right]. auto.
Qed.
Lemma alone_write_resolved t here target w0 :
  is_absolute (mt_canonical target) = true → (∀ k, entry_of w0 (mt_canonical target) k → here k) →
  alone (write_resolved t target)
    (λ report w, unharmed here (write_allow_overwrite t) (λ _, eq (to_bytes (write_content t))) w0 w ∧
       (report_status report = TrSucceeded →
        written w0 w (mt_canonical target) (write_allow_overwrite t) (λ _, eq (to_bytes (write_content t))))) w0.
Proof.
  intros Ha Hhere. unfold write_resolved. set (c := to_bytes (write_content t)).
  assert (Hself : unharmed here (write_allow_overwrite t) (λ _, eq c) w0 w0) by (apply still_unharmed; reflexivity).
  apply wp_bind, alone_call. intros exists_ w ->.
  destruct (exists_ && negb (write_allow_overwrite t)) eqn:Ho; [by split|].
  destruct (negb exists_ && negb (write_allow_create t)); [by split|]. apply wp_bind.
  assert (Hcheck : alone (if exists_ then
    let! r := call (SymlinkMetadata (mt_canonical target)) in
    Done match r with
         | Err err => Some (failure_at write_schema "write failed: cannot read target metadata" target err)
         | Ok metadata => if is_file metadata then None
             else Some (failed_result write_schema "write failed: target is not a file" (mt_display_path target))
         end else Done None)
    (λ r w, w = w0 ∧ ∀ report, r = Some report → report_status report = TrFailed) w0).
  { destruct exists_; [|by split]. apply wp_bind, alone_call. intros r w [-> _]. split; [done|].
    intros report. repeat case_match; by intros [= <-]. }
  eapply wp_mono; [|exact Hcheck]. intros refused w [-> Href]. destruct refused as [report|].
  { split; [done|]. by rewrite (Href _ eq_refl). }
  apply wp_bind. eapply wp_mono; [|by eapply alone_write_path]. intros r w1 [Hu Hw].
  apply (unharmed_overwrite _ _ (write_allow_overwrite t)) in Hu.
  2:{ by destruct exists_, (write_allow_overwrite t). }
  destruct r as [[]|e]; [|by split]. split; [done|]. intros _. specialize (Hw eq_refl).
  rewrite negb_involutive in Hw. destruct Hw as (k & i & n & He & Hn & Hi & H0 & Hty & Hs & Hd & Hm).
  exists k, i, n. split_and!; [done..|]. destruct (w_names w0 !! k); [|done]. destruct Hm as [-> Hm].
  by destruct (write_allow_overwrite t).
Qed.

(** *** [fs.patch] *)

Lemma alone_read_loop fuel fd i n off max content w :
  w_handles w !! fd = Some {| h_inode := i; h_offset := off |} → w_nodes w !! i = Some n →
  off ≤ length (n_data n) → content = take off (n_data n) →
  alone (read_loop fuel fd max content)
    (λ r w', still w w' ∧ ∀ c, r = Ok c → c = n_data n) w.
Proof.
  revert off content w. induction fuel as [|fuel IH]; intros off content w Hh Hn Hoff ->; [by split|].
  cbn [read_loop]. apply wp_try, alone_call. intros [data|e] w1 Hp; simpl in Hp; [|by subst; split].
  destruct Hp as (h & m & Hh' & Hm & _ & [rest Hrest] & Heof & Hw1). simplify_eq. cbn [h_inode h_offset] in *.
  rewrite Hn in Hm. simplify_eq.
  assert (Hs : still w (with_handle w fd {| h_inode := i; h_offset := off + length data |})).
  { split; simpl; try done. intros fd' j Ho. apply opened_with_handle; [|done]. intros ->.
    destruct Ho as (h' & ? & <-). by simplify_eq. }
  case_bool_decide as Hdata.
  { split; [done|]. intros c [= <-]. specialize (Heof ltac:(done) Hdata).
    rewrite <- (take_drop off (n_data m)) at 2. by rewrite Heof, app_nil_r. }
  case_match; [by split|]. eapply wp_mono; [|eapply (IH (off + length data))].
  - intros r w2 [Hs2 Hr]. split; [by etrans|done].
  - simpl. by rewrite lookup_insert_eq.
  - done.
  - apply (f_equal length) in Hrest. rewrite length_drop, length_app in Hrest. lia.
  - by rewrite <- take_take_drop, Hrest, take_app_length.
Qed.

Lemma alone_read_entire fd i n max w :
  w_handles w !! fd = Some {| h_inode := i; h_offset := 0 |} → w_nodes w !! i = Some n →
  alone (read_entire_text_file_from_open_file fd max)
    (λ r w', still w w' ∧ ∀ s, r = Ok s → to_bytes s = n_data n) w.
Proof.
  intros Hh Hn. unfold read_entire_text_file_from_open_file. apply wp_try.
  eapply wp_mono; [|apply (alone_read_loop _ _ i n 0); [done..|lia|done]].
  intros [c|e] w1 [Hs Hc]; [|by split]. split; [done|]. rewrite (Hc c eq_refl).
  intros s [-> _]%map_err_Ok%from_utf8_Ok. apply to_of_bytes.
Qed.

Context (debug_str : string → string).
(** What a patch makes of the file it found. *)
Definition patches (t : FsPatchTool) (old : option bytes) (new : bytes) : Prop :=
  ∃ o, old = Some o ∧ one_replacement t o new.
Lemma one_replacement_nonempty t old new :
  patch_find_text t ≠ EmptyString → one_replacement t old new → old ≠ [].
Proof.
  intros Hf (before & after & -> & _) E. apply app_eq_nil in E as [_ [E _]%app_eq_nil]. apply Hf.
  by rewrite <- (of_to_bytes (patch_find_text t)), E.
Qed.
(** The file found under the lock is the one that was there before: a new one
    would be empty. *)
Lemma found_before t w0 w1 k j n new :
  calm w0 w1 → patch_find_text t ≠ EmptyString → w_names w1 !! k = Some j → w_nodes w1 !! j = Some n →
  one_replacement t (n_data n) new →
  w_names w0 !! k = Some j ∧ ∀ m, w_nodes w0 !! j = Some m → m = n.
Proof.
  intros Hc Hf Hk Hn Hr. destruct (w_names w0 !! k) as [j0|] eqn:E.
  - pose proof (calm_names _ _ Hc _ _ E). simplify_eq. split; [done|]. intros m Hm.
    apply (calm_nodes _ _ Hc) in Hm. congruence.
  - destruct (calm_fresh _ _ Hc _ _ E Hk) as (_ & n' & Hn' & Hd & _). simplify_eq.
    by apply one_replacement_nonempty in Hr.
Qed.

Lemma alone_patch_locked t here target dir d name lock w0 w1 :
  patch_find_text t ≠ EmptyString → calm w0 w1 → opened w1 dir d →
  entry_of w0 (mt_canonical target) (d, name) → here (d, name) →
  alone (patch_locked debug_str t target name dir lock)
    (λ report w, unharmed here true (patches t) w0 w ∧
       (report_status report = TrSucceeded → written w0 w (mt_canonical target) true (patches t))) w1.
Proof.
  intros Hf Hc Ho He Hhere.
  assert (Hrefuse : ∀ report w, report_status report = TrFailed → calm w0 w →
    alone (holding [lock] (Done report)) (λ report w, unharmed here true (patches t) w0 w ∧
      (report_status report = TrSucceeded → written w0 w (mt_canonical target) true (patches t))) w).
  { intros report w Hst Hcw. apply alone_holding.
    - intros a w' l [? H]; split; [by apply unharmed_locks|exact H].
    - split; [by apply calm_unharmed|]. by rewrite Hst. }
  unfold patch_locked. apply wp_bind. apply alone_c_name; [intros; by apply Hrefuse|].
  apply alone_call. intros [file|e] w2 Hp; simpl in Hp; [|subst; by apply Hrefuse].
  destruct Hp as (d' & j & Hd' & n & Hn & Hj & Hop & _).
  assert (d' = d) as -> by (destruct Ho as (? & ? & <-), Hd' as (? & ? & <-); by simplify_eq).
  pose proof (opens_still _ _ _ _ Hop) as Hs2. pose proof (opens_calm _ _ _ _ Hop) as Hc2.
  apply wp_bind, alone_call. intros [m|e] w3 [-> _]; [|apply Hrefuse; [done|by etrans]].
  case_match; [apply Hrefuse; [done|by etrans]|]. apply wp_bind.
  eapply wp_mono; [|apply (alone_read_entire _ j n)].
  2:{ destruct Hop as [_ ->]. simpl. by rewrite lookup_insert_eq. }
  2:{ by rewrite (still_nodes _ _ Hs2). }
  intros r w4 [Hs4 Hr]. assert (Hc4 : calm w0 w4) by (etrans; [done|]; etrans; [done|by apply still_calm]).
  destruct r as [content|e]; [|apply Hrefuse; [by case_match|done]]. specialize (Hr _ eq_refl).
  destruct (patched debug_str t target content) as [updated|report] eqn:E.
  2:{ apply Hrefuse; [|done]. unfold patched in E. repeat case_match; by simplify_eq. }
  apply patched_Ok in E; [|done]. rewrite Hr in E. destruct (found_before _ _ _ _ _ _ _ Hc Hf Hn Hj E) as [E0 Hm0].
  apply wp_bind, alone_holding.
  { intros a w' l [HQ1 HQ2]. split; [by apply unharmed_locks|exact HQ2]. }
  eapply wp_mono; [|apply (alone_replace dir d); apply (still_opened _ _ Hs4), (still_opened _ _ Hs2), Ho].
  assert (HP : ∀ m, w_nodes w0 !! j = Some m → patches t (Some (n_data m)) (to_bytes updated))
    by (intros m0 Hm; apply Hm0 in Hm; subst; by eexists).
  intros r w5 [Hk Hok]. assert (Hu : unharmed here true (patches t) w0 w5).
  { eapply (kept_unharmed d name _ false); [done..| |done]. intros j0 m0 Hj0. rewrite E0 in Hj0. simplify_eq. apply HP. }
  destruct r as [[]|e]; [|by split]. split; [done|]. intros _.
  destruct (Hok eq_refl) as (perms & Hm & Hpl).
  eapply (replaced_written dir d w0 w4 w5 _ name _ false); [done..|]. by rewrite E0.
Qed.

Lemma alone_write_execute t request w0 :
  let here := entry_for said (write_root t) (target_from_request request) w0 in
  alone (write_execute t request)
    (λ report w, unharmed here (write_allow_overwrite t) (λ _, eq (to_bytes (write_content t))) w0 w ∧
       (report_status report = TrSucceeded →
        (str_len (write_content t) ≤ write_max_bytes t)%N ∧
        ∃ path, resolves said (write_root t) (target_from_request request) path ∧
          written w0 w path (write_allow_overwrite t) (λ _, eq (to_bytes (write_content t))))) w0.
Proof.
  intros here. unfold write_execute. destruct (N.ltb_spec (write_max_bytes t) (str_len (write_content t))) as [|Hlen].
  { split; [|done]. apply still_unharmed. reflexivity. }
  apply wp_bind. eapply wp_mono; [|apply alone_resolve]. intros [[target fd]|e] w1 [Hs Hin].
  2:{ split; [by apply still_unharmed|done]. }
  destruct (Hin _ _ eq_refl) as [Hres Ha]. eapply wp_mono; [|apply (alone_write_resolved t here); [done|]].
  - intros report w [Hu Hw]. split; [by eapply still_first|]. intros Hst. split; [done|].
    exists (mt_canonical target). split; [done|]. eapply still_written; [done|auto].
  - intros k Hk. exists (mt_canonical target). split; [done|]. by eapply still_entry.
Qed.

Lemma alone_patch_execute t request w0 :
  let here := entry_for said (patch_root t) (target_from_request request) w0 in
  alone (patch_execute debug_str t request)
    (λ report w, unharmed here true (patches t) w0 w ∧
       (report_status report = TrSucceeded →
        ∃ path, resolves said (patch_root t) (target_from_request request) path ∧
          written w0 w path true (patches t))) w0.
Proof.
  intros here. unfold patch_execute. destruct (str_is_empty (patch_find_text t)) eqn:Hf.
  { split; [|done]. apply still_unharmed. reflexivity. }
  apply wp_bind. eapply wp_mono; [|apply alone_resolve]. intros [[target fd]|e] w1 [Hs Hin].
  2:{ split; [by apply still_unharmed|done]. }
  destruct (Hin _ _ eq_refl) as [Hres Ha]. unfold patch_resolved.
  apply wp_bind, alone_call. intros [m|e] w2 [-> _]; [|split; [by apply still_unharmed|done]].
  case_match; [split; [by apply still_unharmed|done]|]. apply wp_bind.
  unfold lock_target_for_patch, parent_or_error. apply wp_try.
  destruct (path_parent (mt_canonical target)) as [parent|] eqn:Epar; [|split; [by apply still_unharmed|done]].
  cbn [ok_or wp]. apply wp_try.
  eapply wp_mono; [|eapply alone_open_parent, absolute_parent; eauto].
  intros [dir|e] w3 [Hs3 Hdir]; [|split; [apply still_unharmed; by etrans|done]].
  destruct (Hdir dir eq_refl) as (d & Hwalk & Hopen). apply wp_try.
  assert (Hs03 : still w0 w3) by by etrans.
  eapply wp_mono; [|apply alone_gentle, acquire_gentle]. intros [lock|e] w4 Hc.
  2:{ split; [|done]. apply calm_unharmed. etrans; [by apply still_calm|done]. }
  assert (He : entry_of w0 (mt_canonical target) (d, default EmptyString (path_file_name (mt_canonical target)))).
  { exists parent. split_and!; [done..|]. by rewrite <- (still_root _ _ Hs), <- (still_walk w0 w1). }
  cbn [wp]. eapply wp_mono; [|apply (alone_patch_locked _ here _ _ d _ _ w0); [by intros E; rewrite E in Hf| | |done|]].
  - intros report w [Hu Hw]. split; [done|]. intros Hst. exists (mt_canonical target). split; [done|auto].
  - etrans; [by apply still_calm|done].
  - exact (calm_opened _ _ Hc _ _ Hopen).
  - by exists (mt_canonical target).
Qed.
End Write.

(** ** The tools *)

(** C17: [fs.write] does what it reports.  When no other process interferes, every
    file keeps its content and permissions, and every name keeps naming its file,
    except that, if overwriting was allowed, the entry of the path the request
    resolved to (below the root the system answered for the repository, in the
    directory the path reaches through real directories) may name a complete file
    with the new content.  If the run reports success, the content is within the
    limit and a new file with exactly that content is on disk under that entry,
    with the permissions of the file it replaced; a file was replaced only if
    overwriting was allowed. *)
Theorem fs_write_exact (os : Os) (Hos : PosixLaws os) t request w0 h w report :
  recorded eq (w0, write_execute t request) h (w, Done report) →
  unharmed (entry_for (answered h) (write_root t) (target_from_request request) w0)
    (write_allow_overwrite t) (λ _, eq (to_bytes (write_content t))) w0 w ∧
  (report_status report = TrSucceeded →
   (str_len (write_content t) ≤ write_max_bytes t)%N ∧
   ∃ path, resolves (answered h) (write_root t) (target_from_request request) path ∧
     written w0 w path (write_allow_overwrite t) (λ _, eq (to_bytes (write_content t)))).
Proof.
  intros Hr. refine (recorded_adequate _ _ _ _ _ _ _ (alone_write_execute (os := observed os h) _ t request w0) Hr).
  by intros * [].
Qed.

(** C18: [fs.patch] replaces one occurrence.  When no other process interferes,
    every file keeps its content and permissions, and every name keeps naming its
    file, except that the entry of the path the request resolved to may name a
    complete file whose content is the old content with its only occurrence of
    the search text replaced, within the byte limit.  If the run reports success,
    the path named a file before, and that entry now names such a new file, on
    disk and with the same permissions. *)
Theorem fs_patch_exact (os : Os) (Hos : PosixLaws os) debug_str t request w0 h w report :
  recorded eq (w0, patch_execute debug_str t request) h (w, Done report) →
  unharmed (entry_for (answered h) (patch_root t) (target_from_request request) w0) true (patches t) w0 w ∧
  (report_status report = TrSucceeded →
   ∃ path, resolves (answered h) (patch_root t) (target_from_request request) path ∧
     written w0 w path true (patches t)).
Proof.
  intros Hr.
  refine (recorded_adequate _ _ _ _ _ _ _ (alone_patch_execute (os := observed os h) _ debug_str t request w0) Hr).
  by intros * [].
Qed.
