(* ===== verification/MoveLaws.v ===== *)
(** * MoveLaws: [fs.delete] and [fs.move] *)
From S2P Require Import Prelude Text Domain StoreTypes Settings Truncation Runtime Packages.
From S2P Require Import Paths Tools ScopeGuarantees ToolText ToolTextLaws FileOps.
From S2P Require Import MutationTools MutationLaws WriteLaws.

(** * Deleting and moving files *)

(** ** Every call, beside any other process *)

(** No file changes; at most the name of an entry [here] is lost. *)
Record removes (here : World → Inode * string → Prop) (w w' : World) : Prop := {
  rm_nodes i n : w_nodes w !! i = Some n → ∃ n', w_nodes w' !! i = Some n' ∧ same_file n n';
  rm_names k : w_names w' !! k ≠ w_names w !! k →
    new_name w w' k ∨ w_names w' !! k = None ∧ here w k
}.
(** No file changes; at most one entry [from] is renamed to an entry [to], which
    named a file only if overwriting is allowed. *)
Record moves (from to : World → Inode * string → Prop) (overwrite : bool) (w w' : World) : Prop := {
  mv_nodes i n : w_nodes w !! i = Some n → ∃ n', w_nodes w' !! i = Some n' ∧ same_file n n';
  mv_names : w_names w' = w_names w ∨ calm w w' ∨
    ∃ ks kd i, from w ks ∧ to w kd ∧ w_names w !! ks = Some i ∧
      w_names w' = <[kd := i]> (delete ks (w_names w)) ∧ (overwrite = false → w_names w !! kd = None)
}.

Lemma opened_same w fd i j : opened w fd i → opened w fd j → i = j.
Proof. intros (h & ? & <-) (h' & ? & <-). congruence. Qed.

Lemma sync_same_nodes fd w r w' : posix (SyncAll fd) w r w' →
  w_names w' = w_names w ∧ ∀ i n, w_nodes w !! i = Some n → ∃ n', w_nodes w' !! i = Some n' ∧ same_file n n'.
Proof.
  intros Hp. destruct r as [[]|e]; simpl in Hp.
  2:{ subst. split; [done|]. intros i n Hi. exists n. by split. }
  destruct Hp as (d & m & _ & Hm & ->). split; [done|]. intros i n Hi. simpl.
  destruct (decide (i = d)) as [->|Hne].
  - rewrite lookup_insert_eq. simplify_eq. eexists. split; [done|]. by split_and!.
  - rewrite lookup_insert_ne by done. exists n. by split.
Qed.

Section Steps.
Context {os : Os} `{!PosixLaws os} {said : Answers}.
Context (Hsaid : ∀ R (c : Sys R) w r w', os_step c w r w' → said R c r).

Lemma calm_removes here w w' : calm w w' → removes here w w'.
Proof. intros Hc. split; [by apply calm_same_nodes|]. intros k Hk. left. by apply calm_new_name. Qed.
Lemma calm_moves from to b w w' : calm w w' → moves from to b w w'.
Proof. intros Hc. split; [by apply calm_same_nodes|auto]. Qed.

(** A program of calm calls, and any result. *)
Lemma wp_mild {A} (p : Prog A) (G : World → World → Prop) (Q : A → World → Prop) w :
  only gentle p → (∀ w w', calm w w' → G w w') → (∀ a w', Q a w') → wp rely G p Q w.
Proof.
  intros Hp HG HQ. eapply wp_mono; [|by apply (wp_gentle _ _ (λ _, True))]. intros a w' _. apply HQ.
Qed.

Lemma named_entry_gentle parent name m context : only gentle (ensure_named_entry_matches parent name m context).
Proof. unfold ensure_named_entry_matches. eauto with gentle. Qed.
Lemma no_longer_gentle parent name m context :
  only gentle (ensure_named_entry_no_longer_matches parent name m context).
Proof.
  unfold ensure_named_entry_no_longer_matches, named_entry_matches_metadata. apply only_try; [eauto with gentle|].
  by intros [].
Qed.

(** The unlink by descriptor, and the sync after it. *)
Lemma wp_unlink here parent d name Q w :
  opened w parent d → (∀ w, opened w parent d → here w (d, name)) → (∀ r w', Q r w') →
  wp rely (removes here) (unlink_in_parent_dir parent name) Q w.
Proof.
  intros Ho Hh HQ. apply wp_with_c_name; [done|]. apply wp_documented. intros w1 [[]|e] w2 Hr Hp; (split; [|done]).
  - destruct Hp as (d' & i & Hd' & _ & ->). pose proof (rely_opened _ _ _ _ Hr Ho) as Ho1.
    pose proof (opened_same _ _ _ _ Ho1 Hd') as <-. split; [intros j n Hj; exists n; by split|]. intros k Hk. right.
    simpl in *. destruct (decide (k = (d, name))) as [->|Hne]; [|by rewrite lookup_delete_ne in Hk].
    rewrite lookup_delete_eq. auto.
  - simpl in Hp. subst. apply calm_removes. reflexivity.
Qed.
Lemma sync_removes here fd w r w' : posix (SyncAll fd) w r w' → removes here w w'.
Proof. intros [Hn Hd]%sync_same_nodes. split; [done|]. intros k. by rewrite Hn. Qed.

Lemma unlink_validated_wp here parent d name metadata fd w :
  opened w parent d → (∀ w, opened w parent d → here w (d, name)) →
  wp rely (removes here) (unlink_validated_file_in_parent_dir parent name metadata fd) (λ _ _, True) w.
Proof.
  intros Ho Hh. assert (HG : ∀ w w', calm w w' → removes here w w') by apply calm_removes.
  unfold unlink_validated_file_in_parent_dir. apply wp_try. destruct (ok_or fd _) as [f|]; [|done]. cbn [wp].
  apply wp_try. eapply wp_mono; [|apply (wp_gentle _ _ (at_parent parent d)); [by split|done|apply at_parent_stable|done]].
  intros [m|e] w3 Ho3; [|done]. case_match; [done|]. case_match; [done|].
  apply wp_try. destruct (ensure_opened_metadata_matches _ _ _) as [u|e]; [|done]. cbn [wp].
  apply wp_try. eapply wp_mono; [|apply (wp_gentle _ _ (at_parent parent d)); [apply named_entry_gentle|done|apply at_parent_stable|done]].
  intros [u'|e] w4 Ho4; [|done]. apply wp_try, (wp_unlink _ _ d); [done..|].
  intros [[]|e] w5; [|done]. apply wp_mild; [|done..].
  unfold ensure_opened_link_count_decreased. apply only_try; [by split|]. intros after. by repeat case_match.
Qed.

Lemma delete_validated_wp root rel path metadata fd w :
  resolves said root rel path →
  wp rely (removes (place said root rel)) (delete_validated path metadata fd) (λ _ _, True) w.
Proof.
  intros Hin. assert (HG : ∀ w w', calm w w' → removes (place said root rel) w w') by apply calm_removes.
  unfold delete_validated, parent_or_error, name_or_error.
  apply wp_try. destruct (path_parent path) as [parent|] eqn:Ep; [|done]. cbn [ok_or wp].
  apply wp_try. destruct (path_file_name path) as [name|] eqn:En; [|done]. cbn [ok_or wp].
  apply wp_bind. eapply wp_mono; [|by apply (open_parent_wp Hsaid)]. intros dir w1 Hdir.
  assert (Hend : ∀ e l w, wp rely (removes (place said root rel)) (holding [l] (Done (Err e : io unit))) (λ _ _, True) w)
    by (intros; by apply (wp_holding _ _ _ (λ _ _, True))).
  destruct dir as [dir|e].
  2:{ apply wp_bind, wp_mild; [eauto with gentle|done|]. intros lock w2. destruct lock; [apply Hend|done]. }
  destruct (Hdir dir eq_refl) as [Hd [d Ho]]. apply wp_bind.
  eapply wp_mono; [|apply (wp_gentle _ _ (at_parent dir d)); eauto using at_parent_stable with gentle].
  intros [lock|e'] w2 Ho2; [|done]. apply (wp_holding _ _ _ (λ _ _, True)); [done|]. apply wp_try.
  eapply wp_mono; [|apply (unlink_validated_wp _ dir d); [done|]].
  - intros [[]|e] w3 _; [|done]. apply wp_documented. intros w4 r w5 _ Hp. split; [by eapply sync_removes|done].
  - intros w3 Ho3. exists path. split; [done|]. exists parent, dir. by rewrite En.
Qed.

Lemma delete_execute_wp t request w :
  wp rely (removes (place said (delete_root t) (target_from_request request))) (delete_execute t request) (λ _ _, True) w.
Proof.
  assert (HG : ∀ w w', calm w w' → removes (place said (delete_root t) (target_from_request request)) w w')
    by apply calm_removes.
  unfold delete_execute. apply wp_bind. eapply wp_mono; [|by apply (resolve_target_wp Hsaid)].
  intros [[target fd]|e] w1 Hin; [|by case_match]. destruct (Hin _ _ eq_refl) as [Hres _].
  unfold delete_resolved. apply wp_bind, wp_mild; [by split|done|]. intros [m|e] w2; [|done].
  case_match; [done|]. apply wp_bind. eapply wp_mono; [|by apply delete_validated_wp]. done.
Qed.

(** *** Moving *)

Section Rename.
Context (from to : World → Inode * string → Prop) (b : bool).
Context (sd dd : Fd) (s d : Inode) (src dst : string).
Context (Hfrom : ∀ w, opened w sd s → from w (s, src)) (Hto : ∀ w, opened w dd d → to w (d, dst)).
Let both (w : World) : Prop := opened w sd s ∧ opened w dd d.
Lemma both_stable : stable both.
Proof. split; intros w w' H [? ?]; split; eauto using rely_opened, calm_opened. Qed.

Lemma wp_rename Q w :
  both w → (∀ r w', Q r w') → wp rely (moves from to b) (rename_between_parent_dirs sd src dd dst (negb b)) Q w.
Proof.
  intros [Hs Hd] HQ. unfold rename_between_parent_dirs. do 2 (apply wp_with_c_name; [done|]). apply wp_bind, wp_documented.
  intros w1 r w2 Hr Hp. split; [|repeat case_match; apply HQ]. destruct r as [[]|e]; simpl in Hp.
  2:{ subst. apply calm_moves. reflexivity. }
  destruct Hp as (s' & d' & i & Hs' & Hd' & Hi & Hnr & ->). case_decide; [apply calm_moves; reflexivity|].
  pose proof (rely_opened _ _ _ _ Hr Hs) as Hs1. pose proof (rely_opened _ _ _ _ Hr Hd) as Hd1.
  pose proof (opened_same _ _ _ _ Hs1 Hs') as <-. pose proof (opened_same _ _ _ _ Hd1 Hd') as <-.
  split; [intros j n Hj; exists n; by split|]. right; right. exists (s, src), (d, dst), i.
  split_and!; [auto..|]. intros ->. by apply Hnr.
Qed.

Lemma rename_validated_wp m fd Q w :
  both w → (∀ r w', Q r w') →
  wp rely (moves from to b) (rename_validated_file_between_parent_dirs sd src dd dst (negb b) m fd) Q w.
Proof.
  intros Hw HQ. assert (HG : ∀ w w', calm w w' → moves from to b w w') by apply calm_moves.
  assert (Hgentle : ∀ A (p : Prog A) w, only gentle p → both w → wp rely (moves from to b) p (λ _, both) w)
    by (intros; apply wp_gentle; auto using both_stable).
  unfold rename_validated_file_between_parent_dirs.
  apply wp_try. destruct (ok_or fd _) as [f|]; [|apply HQ]. cbn [wp].
  apply wp_try. eapply wp_mono; [|apply Hgentle; [by split|done]]. intros [m'|e] w1 Hw1; [|apply HQ].
  case_match; [apply HQ|].
  apply wp_try. destruct (ensure_opened_metadata_matches _ _ _) as [u|e]; [|apply HQ]. cbn [wp].
  apply wp_try. eapply wp_mono; [|apply Hgentle; [apply named_entry_gentle|done]]. intros [u'|e] w2 Hw2; [|apply HQ].
  apply wp_try, wp_rename; [done|]. intros [u''|e] w3; [|apply HQ].
  apply wp_try, wp_mild; [apply no_longer_gentle|done|]. intros [u3|e] w4; [|apply HQ].
  apply wp_mild; [apply named_entry_gentle|done..].
Qed.

Lemma sync_moves fd w r w' : posix (SyncAll fd) w r w' → moves from to b w w'.
Proof. intros [Hn Hd]%sync_same_nodes. split; [done|by left]. Qed.
Lemma move_locked_wp t source destination m fd w :
  move_allow_overwrite t = b → both w →
  wp rely (moves from to b) (move_locked t source destination src dst m fd sd dd) (λ _ _, True) w.
Proof.
  intros Hb Hw. assert (HG : ∀ w w', calm w w' → moves from to b w w') by apply calm_moves.
  unfold move_locked. apply wp_bind. eapply wp_mono; [|apply (wp_gentle _ _ both); [by split|done|apply both_stable|done]].
  intros r w1 Hw1.
  match goal with |- wp _ _ (match ?x with _ => _ end) _ _ => destruct x as [existed|report] end; [|done].
  rewrite Hb. case_match; [done|]. apply wp_bind, wp_try, rename_validated_wp; [done..|]. intros [u|e] w2; [|done].
  apply wp_try, wp_documented. intros w3 r1 w4 _ Hp. split; [by eapply sync_moves|]. destruct r1 as [u'|e]; [|done].
  apply wp_documented. intros w5 r2 w6 _ Hp2. split; [by eapply sync_moves|done].
Qed.
End Rename.
Lemma ordered_gentle a b : only gentle (acquire_ordered_write_locks a b).
Proof. unfold acquire_ordered_write_locks. repeat case_match; eauto 10 with gentle. Qed.

Lemma move_parts_Ok src dst sp dp sn dn :
  move_parts src dst = Ok (sp, dp, sn, dn) →
  path_parent src = Some sp ∧ path_parent dst = Some dp ∧ path_file_name src = Some sn ∧ path_file_name dst = Some dn.
Proof.
  unfold move_parts. destruct (path_parent src), (path_parent dst), (path_file_name src), (path_file_name dst); try done.
  by intros [= <- <- <- <-].
Qed.
Lemma move_checked_wp t root rel rel' source destination m fd w :
  resolves said root rel (mt_canonical source) → resolves said root rel' (mt_canonical destination) →
  wp rely (moves (place said root rel) (place said root rel') (move_allow_overwrite t))
    (move_checked t source destination m fd) (λ _ _, True) w.
Proof.
  intros Hsrc Hdst. set (G := moves _ _ _). assert (HG : ∀ w w', calm w w' → G w w') by apply calm_moves.
  unfold move_checked. destruct (move_parts _ _) as [[[[sp dp] sn] dn]|e] eqn:Hparts; [|done].
  apply move_parts_Ok in Hparts as (Hsp & Hdp & Hsn & Hdn).
  apply wp_bind, wp_mild; [apply ordered_gentle|done|]. intros locks w4.
  apply wp_bind. eapply wp_mono; [|by apply (open_parent_wp Hsaid)]. intros sd w5 Hsd.
  assert (Hend : ∀ locks e w, wp rely G (holding locks (Done (move_failed source destination e))) (λ _ _, True) w)
    by (intros; by apply (wp_holding _ _ _ (λ _ _, True))).
  destruct sd as [sd|e].
  2:{ apply wp_bind, wp_mild; [eauto with gentle|done|]. intros dd w6. destruct locks; apply Hend. }
  destruct (Hsd sd eq_refl) as [Hsdir [s Hs]].
  apply wp_bind. eapply wp_mono; [|eapply wp_still_open; [exact Hs|by apply (open_parent_wp Hsaid)]].
  intros [dd|e] w6 [Hs6 Hdd]; [|destruct locks; apply Hend]. destruct (Hdd dd eq_refl) as [Hddir [d Hd]].
  destruct locks as [locks|e]; [|apply Hend]. apply (wp_holding _ _ _ (λ _ _, True)); [done|].
  apply (move_locked_wp _ _ _ sd dd s d); [| |done|done]; intros w7 Ho7;
    (eexists; split; [done|]); eexists _, _; by rewrite ?Hsn, ?Hdn.
Qed.
Lemma move_execute_wp t request w :
  wp rely (moves (place said (move_root t) (target_from_request request))
                 (place said (move_root t) (move_destination_path t)) (move_allow_overwrite t))
    (move_execute t request) (λ _ _, True) w.
Proof.
  set (G := moves _ _ _). assert (HG : ∀ w w', calm w w' → G w w') by apply calm_moves.
  unfold move_execute. apply wp_bind. eapply wp_mono; [|by apply (resolve_target_wp Hsaid)].
  intros [[source fd]|e] w1 Hsrc; [|done]. destruct (Hsrc _ _ eq_refl) as [Hs _].
  apply wp_bind. eapply wp_mono; [|by apply (resolve_target_wp Hsaid)].
  intros [[destination fd']|e] w2 Hdst; [|done]. destruct (Hdst _ _ eq_refl) as [Hd _].
  case_match; [done|]. apply wp_bind, wp_mild; [by split|done|]. intros [m|e] w3; [|done]. case_match; [done|].
  by apply move_checked_wp.
Qed.
End Steps.

(** C19: deleting and moving are confined.  Other processes may do anything between
    the calls but touch the descriptors and locks of this run ([rely]).  Then no
    call of a run of [fs.delete] or [fs.move], wherever the run stops, changes the
    content of a file, and names are added only for empty directories and lock
    files.  A call of [fs.delete] takes away at most one name: the last name of the
    path the request resolved to (by the answers of this run, below the root they
    gave for the repository), in the directory that the run reached by opening the
    directories of that path one after the other.  A call of [fs.move] at most
    renames that entry to the entry of the destination, resolved in the same way,
    and replaces a file only if overwriting was allowed. *)
Theorem removals_are_confined (os : Os) (Hos : PosixLaws os) request :
  (∀ t w h w' R (c : Sys R) k w1 r w2,
     recorded rely (w, delete_execute t request) h (w', Call c k) → rely w' w1 → os_step c w1 r w2 →
     removes (place (answered (Ev c r :: h)) (delete_root t) (target_from_request request)) w1 w2) ∧
  (∀ t w h w' R (c : Sys R) k w1 r w2,
     recorded rely (w, move_execute t request) h (w', Call c k) → rely w' w1 → os_step c w1 r w2 →
     moves (place (answered (Ev c r :: h)) (move_root t) (target_from_request request))
       (place (answered (Ev c r :: h)) (move_root t) (move_destination_path t)) (move_allow_overwrite t) w1 w2).
Proof.
  split; intros t w h w' R c k w1 r w2 Hrec Hr Hs; (eapply recorded_call_adequate; [|done..]).
  - apply (delete_execute_wp (os := observed os _)). by intros * [].
  - apply (move_execute_wp (os := observed os _)). by intros * [].
Qed.

(** * A deletion or move that reports success did exactly that *)

Lemma links_zero w i : links w i = 0%N → ∀ k, w_names w !! k ≠ Some i.
Proof.
  unfold links. intros H k Hk. apply (N2Nat.inj_iff _ 0) in H. rewrite Nat2N.id in H. simpl in H.
  apply map_size_empty_inv in H.
  assert (filter (λ kv : (Inode * string) * Inode, kv.2 = i) (w_names w) !! k = Some i) as E.
  { by apply map_lookup_filter_Some. }
  by rewrite H, lookup_empty in E.
Qed.
Section Validated.
Context {os : Os} `{!PosixLaws os} {said : Answers}.
Context (Hsaid : ∀ R (c : Sys R) w r w', os_step c w r w' → said R c r).

(** *** The descriptor of a resolved target *)

Definition on_file (w : World) (fd : option Fd) : Prop :=
  ∀ f, fd = Some f → ∃ i, opened w f i ∧ is_Some (w_nodes w !! i).
Lemma alone_resolved_fd path w :
  is_absolute path = true → alone (resolved_fd path) (λ fd w', on_file w' fd) w.
Proof.
  intros Ha. unfold resolved_fd. destruct (path_parent path) as [parent|] eqn:Ep; [|done].
  destruct (path_file_name path) as [name|]; [|done]. apply wp_bind, wp_try.
  eapply wp_mono; [|by eapply alone_open_parent, absolute_parent].
  intros [dir|e] w1 [_ Hd]; [|done]. apply alone_c_name; [done|].
  apply alone_call. intros [fd|e] w2 Ho; simpl in Ho; [|done]. intros f [= <-].
  destruct Ho as (d & i & _ & n & _ & Hi & Hop & _). exists i. split; [by eapply opened_calm|].
  rewrite (still_nodes _ _ (opens_still _ _ _ _ Hop)). eauto.
Qed.
Lemma alone_res {A B} (p : resolving A) (f : A → resolving B) Q w :
  alone p (λ r w', match r with Ok a => alone (f a) Q w' | Err e => Q (Err e) w' end) w →
  alone (pbind p f) Q w.
Proof. intros H. apply wp_bind. eapply wp_mono; [|exact H]. by intros [a|e] w'. Qed.
Lemma alone_true {A} (p : Prog A) (Q : A → World → Prop) w : (∀ a w', Q a w') → alone p Q w.
Proof.
  intros HQ. revert w. induction p as [a|R c k IH]; intros w; simpl; [apply HQ|].
  intros w1 r w2 _ _. split; [done|apply IH].
Qed.

Lemma alone_resolve_fd repository_root p w :
  alone (resolve_mutation_target_io repository_root p)
    (λ r w', ∀ t fd, r = Ok (t, fd) → on_file w' fd) w.
Proof.
  apply alone_res, alone_true. intros [root|e] w1; [|done]. apply alone_res, alone_true. intros [u|e] w2; [|done].
  apply wp_bind, alone_true. intros [m|e] w3; case_match; try done.
  - apply alone_res. unfold canonicalize_or. apply wp_bind, alone_call. intros [c|e] w4 Hc; simpl; [|done].
    destruct Hc as [-> Ha]. apply alone_res. destruct (within_root root c) as [r|e] eqn:E; [|done]. cbn [wp alone].
    apply wp_bind. eapply wp_mono; [|by apply alone_resolved_fd]. intros fd w5 Hfd t fd' [= <- <-]. done.
  - apply alone_res, alone_true. intros [r|e'] w4; [|done]. intros t fd [= <- <-]. done.
Qed.
Lemma alone_resolve_target repository_root p w :
  alone (resolve_mutation_target_io repository_root p)
    (λ r w', still w w' ∧ ∀ t fd, r = Ok (t, fd) →
       resolves said repository_root p (mt_canonical t) ∧ is_absolute (mt_canonical t) = true ∧ on_file w' fd) w.
Proof.
  eapply wp_mono; [|apply alone_and; [by apply (alone_resolve Hsaid)|apply alone_resolve_fd]].
  intros r w' [[Hs Hin] Hfd]. split; [done|]. intros t fd E. destruct (Hin _ _ E). eauto.
Qed.

(** *** Unlinking *)

(** The name is gone, or nothing happened. *)
Record cut (k : Inode * string) (i : Inode) (w w' : World) : Prop := {
  cut_nodes j m : w_nodes w !! j = Some m → ∃ m', w_nodes w' !! j = Some m' ∧ same_file m m';
  cut_names : w_names w' = w_names w ∨ w_names w !! k = Some i ∧ w_names w' = delete k (w_names w)
}.
Definition removed (k : Inode * string) (i : Inode) (w w' : World) : Prop :=
  w_names w !! k = Some i ∧ w_names w' = delete k (w_names w) ∧
  (∃ n, w_nodes w !! i = Some n ∧ n_type n = TFile) ∧ ∀ k', w_names w' !! k' ≠ Some i.
Lemma cut_refl k i w : cut k i w w.
Proof. split; [|by left]. intros j m Hj. exists m. by split. Qed.

Lemma alone_unlink parent d name md fd i w :
  opened w parent d → opened w fd i →
  alone (unlink_validated_file_in_parent_dir parent name md (Some fd))
    (λ r w', opened w' parent d ∧ cut (d, name) i w w' ∧ (r = Ok tt → removed (d, name) i w w')) w.
Proof.
  intros Hp Hf. unfold unlink_validated_file_in_parent_dir. apply wp_try. cbn [ok_or wp]. apply wp_try, alone_call.
  intros r w1 [-> Hm]. assert (Hstay : ∀ e : OsError, opened w parent d ∧ cut (d, name) i w w ∧
    (@Err OsError unit e = Ok tt → removed (d, name) i w w)) by (intros; split_and!; [done|apply cut_refl|done]).
  destruct r as [m|e]; [|apply Hstay]. destruct Hm as (i' & Hi' & Hdesc).
  pose proof (opened_same _ _ _ _ Hf Hi') as <-. destruct Hdesc as (n & Hn & Hino & Hty & _ & Hlinks & _).
  destruct (is_file m) eqn:Hfile; [|apply Hstay]. apply bool_decide_eq_true in Hfile.
  destruct (N.eqb_spec (md_nlink m) 1) as [H1|]; [|apply Hstay]. cbn [negb].
  apply wp_try. destruct (ensure_opened_metadata_matches md m _); [|apply Hstay]. cbn [wp].
  apply wp_try. unfold ensure_named_entry_matches. apply wp_try, alone_c_name; [intros; apply Hstay|].
  apply alone_call. intros r w1 [-> Hs]. destruct r as [stat|e]; [|apply Hstay].
  destruct Hs as (d' & j & Hd' & Hj & n' & _ & Hstat & _). pose proof (opened_same _ _ _ _ Hp Hd') as <-.
  cbn [wp]. unfold ensure_opened_metadata_matches, same_inode. case_bool_decide as Hsame; [|apply Hstay].
  assert (j = i) as -> by congruence. apply wp_try. apply alone_c_name; [intros; apply Hstay|].
  apply alone_call. intros [[]|e] w1 Hu; simpl in Hu; [|subst; apply Hstay].
  destruct Hu as (d' & j & Hd'' & _ & ->). pose proof (opened_same _ _ _ _ Hp Hd'') as <-.
  set (w' := with_names _ _ _). assert (Hcut : cut (d, name) i w w').
  { split; [intros j' m' Hj'; exists m'; by split|]. by right. }
  apply wp_try, alone_call. intros r w1 [-> Ha]. destruct r as [after|e]; [|by split_and!].
  destruct Ha as (i' & Ho' & n2 & _ & _ & _ & _ & Hl & _).
  assert (i' = i) as -> by exact (opened_same _ _ _ _ Ho' Hf).
  case_match; [by split_and!|]. destruct (N.leb_spec (md_nlink m) (md_nlink after)) as [|Hlt]; [by split_and!|].
  split_and!; [done..|]. intros _. split_and!; [done|done|exists n; split; [done|congruence]|].
  apply links_zero. lia.
Qed.

(** *** [fs.delete] *)

(** Files keep their content, and every name but that of the path its file. *)
Record spared (path : string) (w0 w : World) : Prop := {
  spared_nodes j m : w_nodes w0 !! j = Some m → ∃ m', w_nodes w !! j = Some m' ∧ same_file m m';
  spared_names k j : w_names w0 !! k = Some j → w_names w !! k = Some j ∨ entry_of w0 path k
}.
(** Every file and every name as it was. *)
Definition intact (w0 w : World) : Prop :=
  (∀ j m, w_nodes w0 !! j = Some m → w_nodes w !! j = Some m) ∧
  (∀ k j, w_names w0 !! k = Some j → w_names w !! k = Some j).
Lemma calm_intact w0 w : calm w0 w → intact w0 w.
Proof. intros [? ? ? ? ? ?]. by split. Qed.
(** The file the path named, a regular file, has no name any more. *)
Definition deleted (path : string) (w0 w : World) : Prop :=
  ∃ k i n, entry_of w0 path k ∧ w_names w0 !! k = Some i ∧ w_nodes w0 !! i = Some n ∧ n_type n = TFile ∧
    w_names w !! k = None ∧ (∀ k', w_names w !! k' ≠ Some i) ∧
    (∀ k' j, w_names w0 !! k' = Some j → k' ≠ k → w_names w !! k' = Some j) ∧ (k.1 ∉ w_unsynced w).

Lemma calm_spared path w0 w : calm w0 w → spared path w0 w.
Proof. intros Hc. split; [by apply calm_same_nodes|]. intros k j Hk. left. by apply (calm_names _ _ Hc). Qed.
Lemma cut_spared path k i w0 w1 w :
  calm w0 w1 → entry_of w0 path k → cut k i w1 w → spared path w0 w.
Proof.
  intros Hc He [Hd Hn]. split; [intros j m Hj; by apply Hd, (calm_nodes _ _ Hc)|].
  intros k' j Hk'. apply (calm_names _ _ Hc) in Hk'. destruct Hn as [->|[_ ->]]; [by left|].
  destruct (decide (k' = k)) as [->|Hne]; [by right|left]. by rewrite lookup_delete_ne.
Qed.
(** An old file that has a name after a lock was taken had it before. *)
Lemma calm_old_name w0 w1 k i :
  calm w0 w1 → is_Some (w_nodes w0 !! i) → w_names w1 !! k = Some i → w_names w0 !! k = Some i.
Proof.
  intros Hc [n Hn] Hk. destruct (w_names w0 !! k) as [j|] eqn:E.
  - apply (calm_names _ _ Hc) in E. congruence.
  - destruct (calm_fresh _ _ Hc _ _ E Hk) as [Hno _]. by rewrite Hno in Hn.
Qed.

Lemma removed_deleted path k i w0 w1 w w' dir :
  calm w0 w1 → entry_of w0 path k → is_Some (w_nodes w0 !! i) → removed k i w1 w →
  opened w dir k.1 → posix (SyncAll dir) w (Ok tt) w' → deleted path w0 w'.
Proof.
  intros Hc He Hi (Hk & Hn & (n & Hni & Hty) & Hno) Hop Hsync.
  pose proof (sync_same_nodes _ _ _ _ Hsync) as [Hnames _]. destruct Hi as [n0 Hn0].
  pose proof (calm_nodes _ _ Hc _ _ Hn0). simplify_eq.
  exists k, i, n. rewrite Hnames, Hn. split_and!; [done|by eapply calm_old_name|done|done| | | |].
  - apply lookup_delete_eq.
  - intros k'. rewrite <- Hn. apply Hno.
  - intros k' j Hk' Hne. rewrite lookup_delete_ne by done. by apply (calm_names _ _ Hc).
  - destruct Hsync as (d & m & Hd & _ & ->). rewrite (opened_same _ _ _ _ Hop Hd). set_solver.
Qed.

Lemma spared_locks path w0 w l : spared path w0 w → spared path w0 (with_locks w l).
Proof. by intros [? ?]. Qed.
Lemma spared_sync path w0 w dir r w' : spared path w0 w → posix (SyncAll dir) w r w' → spared path w0 w'.
Proof.
  intros [Hd Hn] [Hn' Hd']%sync_same_nodes. split; [|by rewrite Hn'].
  intros j m Hj. destruct (Hd _ _ Hj) as (m1 & Hm1 & ?). destruct (Hd' _ _ Hm1) as (m2 & ? & ?).
  exists m2. split; [done|by etrans].
Qed.

Lemma alone_delete_validated path md fd w0 :
  is_absolute path = true → on_file w0 fd →
  alone (delete_validated path md fd)
    (λ r w, spared path w0 w ∧ (r = Ok tt → deleted path w0 w)) w0.
Proof.
  intros Ha Hfd. unfold delete_validated, parent_or_error, name_or_error.
  assert (Hself : spared path w0 w0) by (apply calm_spared; reflexivity).
  apply wp_try. destruct (path_parent path) as [parent|] eqn:Ep; [|by split]. cbn [ok_or wp].
  apply wp_try. destruct (path_file_name path) as [name|] eqn:En; [|by split]. cbn [ok_or wp].
  apply wp_bind. eapply wp_mono; [|by eapply alone_open_parent, absolute_parent]. intros dir w1 [Hs Hdir].
  apply wp_bind. eapply wp_mono; [|apply alone_gentle, acquire_gentle]. intros lock w2 Hc12.
  assert (Hc : calm w0 w2) by (etrans; [by apply still_calm|done]).
  assert (Hstay : spared path w0 w2) by by apply calm_spared.
  destruct dir as [dir|e], lock as [lock|e']; [|by split| |by split].
  2:{ apply alone_holding; [intros a w l [? H]; split; [by apply spared_locks|done]|by split]. }
  destruct (Hdir dir eq_refl) as (d & Hwalk & Hopen).
  assert (He : entry_of w0 path (d, name)) by (exists parent; by rewrite En).
  apply alone_holding; [intros a w l [? H]; split; [by apply spared_locks|exact H]|]. apply wp_try.
  destruct fd as [fd|]; [|by split]. destruct (Hfd fd eq_refl) as (i & Hi & Hin).
  eapply wp_mono; [|apply (alone_unlink dir d name md fd i w2)].
  - intros r w3 (Hp3 & Hcut & Hok). pose proof (cut_spared _ _ _ _ _ _ Hc He Hcut) as Hsp.
    destruct r as [[]|e]; [|by split]. apply alone_call. intros r w4 Hsync.
    split; [by eapply spared_sync|]. intros ->. eapply (removed_deleted _ (d, name)); eauto.
  - exact (calm_opened _ _ Hc12 _ _ Hopen).
  - exact (calm_opened _ _ Hc _ _ Hi).
Qed.

Definition reports_deleted (r : Report) : Prop :=
  report_status r = TrSucceeded ∧ bool_field "deleted" true ∈ report_fields r.
Lemma skipped_not_deleted shown : ¬ reports_deleted (delete_skipped shown).
Proof. intros [_ H]. unfold delete_skipped, succeeded, string_field, bool_field in H. cbn in H. set_solver. Qed.

Lemma still_deleted path w0 w1 w : still w0 w1 → deleted path w1 w → deleted path w0 w.
Proof.
  intros Hs (k & i & n & (parent & Hp & Hn & Hw) & Hrest). exists k, i, n.
  rewrite (still_names _ _ Hs), (still_nodes _ _ Hs) in Hrest. split; [|done].
  exists parent. split_and!; [done..|]. by rewrite <- (still_root _ _ Hs), <- (still_walk w0 w1).
Qed.
Lemma still_spared path w0 w1 w : still w0 w1 → spared path w1 w → spared path w0 w.
Proof.
  intros Hs [Hd Hn]. rewrite (still_names _ _ Hs), (still_nodes _ _ Hs) in *. split; [done|].
  intros k j Hk. destruct (Hn k j Hk) as [?|He]; [by left|right]. by eapply still_entry.
Qed.

Lemma alone_delete_execute t request w0 :
  alone (delete_execute t request)
    (λ report w,
       (intact w0 w ∨ ∃ path, resolves said (delete_root t) (target_from_request request) path ∧ spared path w0 w) ∧
       (reports_deleted report →
        ∃ path, resolves said (delete_root t) (target_from_request request) path ∧ deleted path w0 w)) w0.
Proof.
  unfold delete_execute. apply wp_bind. eapply wp_mono; [|apply alone_resolve_target].
  intros r w1 [Hs Hr]. assert (Hno : ∀ report, ¬ reports_deleted report →
    (intact w0 w1 ∨ ∃ path, resolves said (delete_root t) (target_from_request request) path ∧ spared path w0 w1) ∧ (reports_deleted report → ∃ path, resolves said (delete_root t) (target_from_request request) path ∧ deleted path w0 w1)).
  { intros report Hn. split; [|done]. left. by apply calm_intact, still_calm. }
  assert (Hfail : ∀ s1 s2, ¬ reports_deleted (failed_result delete_schema s1 s2)) by by intros s1 s2 [? _].
  destruct r as [[target fd]|e]; [|destruct e; apply Hno; eauto; case_match; eauto using skipped_not_deleted].
  destruct (Hr _ _ eq_refl) as (Hin & Ha & Hfd). unfold delete_resolved. apply wp_bind, alone_call.
  intros [m|e] w2 [-> _]; [|apply Hno; case_match; eauto using skipped_not_deleted].
  case_match; [apply Hno; eauto|]. apply wp_bind.
  eapply wp_mono; [|by apply alone_delete_validated].
  intros r w3 [Hsp Hok]. split; [right; exists (mt_canonical target); split; [done|by eapply still_spared]|].
  intros Hdel. exists (mt_canonical target). split; [done|]. destruct r as [[]|e].
  - eapply still_deleted; [done|by apply Hok].
  - exfalso. revert Hdel. case_match; [apply skipped_not_deleted|apply Hfail].
Qed.

(** *** Renaming *)

Record renames (ks kd : Inode * string) (i : Inode) (no_replace : bool) (w w' : World) : Prop := {
  ren_nodes j m : w_nodes w !! j = Some m → ∃ m', w_nodes w' !! j = Some m' ∧ same_file m m';
  ren_names : w_names w' = w_names w ∨
    w_names w !! ks = Some i ∧ w_names w' = <[kd := i]> (delete ks (w_names w)) ∧
    (no_replace = true → w_names w !! kd = None)
}.
Definition renamed (ks kd : Inode * string) (i : Inode) (no_replace : bool) (w w' : World) : Prop :=
  w_names w !! ks = Some i ∧ ks ≠ kd ∧ w_names w' = <[kd := i]> (delete ks (w_names w)) ∧
  (no_replace = true → w_names w !! kd = None) ∧ ∃ n, w_nodes w !! i = Some n ∧ n_type n = TFile.
Lemma renames_refl ks kd i b w : renames ks kd i b w w.
Proof. split; [|by left]. intros j m Hj. exists m. by split. Qed.

(** The check before the rename: the name is that of the open file. *)
Lemma alone_named parent d name m context w :
  opened w parent d →
  alone (ensure_named_entry_matches parent name m context)
    (λ r w', w' = w ∧ (r = Ok tt → w_names w !! (d, name) = Some (md_inode m))) w.
Proof.
  intros Hp. unfold ensure_named_entry_matches. apply wp_try, alone_c_name; [done|]. apply alone_call.
  intros [stat|e] w1 [-> Hs]; [|done]. split; [done|]. cbn [wp].
  destruct Hs as (d' & j & Hd' & Hj & n & _ & Hino & _). rewrite (opened_same _ _ _ _ Hp Hd').
  unfold ensure_opened_metadata_matches, same_inode. case_bool_decide; [|done]. intros _. congruence.
Qed.
Lemma alone_no_longer parent d name m context w :
  opened w parent d →
  alone (ensure_named_entry_no_longer_matches parent name m context)
    (λ r w', w' = w ∧ (r = Ok tt → w_names w !! (d, name) ≠ Some (md_inode m))) w.
Proof.
  intros Hp. unfold ensure_named_entry_no_longer_matches, named_entry_matches_metadata.
  apply wp_try, alone_c_name; [done|]. apply wp_bind, alone_call. intros [stat|e] w1 [-> Hs]; cbn [wp].
  - destruct Hs as (d' & j & Hd' & Hj & n & _ & Hino & _). rewrite (opened_same _ _ _ _ Hp Hd'), Hj.
    unfold same_inode. case_bool_decide; [done|]. split; [done|]. intros _. congruence.
  - destruct (is_kind KNotFound e) eqn:E; [|done]. split; [done|]. intros _. by rewrite (Hs eq_refl d Hp).
Qed.

Lemma alone_rename sd s sn dd d dn b md fd i w :
  opened w sd s → opened w dd d → opened w fd i →
  alone (rename_validated_file_between_parent_dirs sd sn dd dn b md (Some fd))
    (λ r w', (opened w' sd s ∧ opened w' dd d) ∧ renames (s, sn) (d, dn) i b w w' ∧
       (r = Ok tt → renamed (s, sn) (d, dn) i b w w')) w.
Proof.
  intros Hs Hd Hf. unfold rename_validated_file_between_parent_dirs. apply wp_try. cbn [ok_or wp].
  apply wp_try, alone_call. intros r w1 [-> Hm].
  assert (Hstay : ∀ e : OsError, (opened w sd s ∧ opened w dd d) ∧ renames (s, sn) (d, dn) i b w w ∧
    (@Err OsError unit e = Ok tt → renamed (s, sn) (d, dn) i b w w)) by (intros; split_and!; [done..|apply renames_refl|done]).
  destruct r as [m|e]; [|apply Hstay]. destruct Hm as (i' & Hi' & n & Hn & Hino & Hty & _).
  pose proof (opened_same _ _ _ _ Hf Hi') as <-.
  destruct (is_file m) eqn:Hfile; [|apply Hstay]. apply bool_decide_eq_true in Hfile. cbn [negb].
  apply wp_try. destruct (ensure_opened_metadata_matches md m _); [|apply Hstay]. cbn [wp].
  apply wp_try. eapply wp_mono; [|by apply (alone_named _ s)]. intros r w1 [-> Hname]. destruct r as [[]|e]; [|apply Hstay].
  specialize (Hname eq_refl). rewrite Hino in Hname.
  apply wp_try. unfold rename_between_parent_dirs. do 2 (apply alone_c_name; [intros; apply Hstay|]).
  apply wp_bind, alone_call. intros [[]|e] w1 Hr; simpl in Hr; [|subst; case_match; apply Hstay].
  destruct Hr as (s' & d' & j & Hs' & Hd' & Hj & Hnr & Hw1).
  pose proof (opened_same _ _ _ _ Hs Hs') as <-. pose proof (opened_same _ _ _ _ Hd Hd') as <-.
  rewrite Hname in Hj. injection Hj as <-. cbn [wp].
  assert (Hren : (opened w1 sd s ∧ opened w1 dd d) ∧ renames (s, sn) (d, dn) i b w w1 ∧
    (w_names w1 !! (s, sn) ≠ Some i → renamed (s, sn) (d, dn) i b w w1)).
  { subst w1. case_decide as Hsame; [split_and!; [done..|apply renames_refl|done]|]. split_and!; [done..| |].
    - split; [intros j m' Hj; exists m'; by split|]. by right.
    - simpl. intros Hgone. split_and!; [done| |done|done|exists n; split; congruence].
      intros [= <- <-]. apply Hgone. apply lookup_insert_eq. }
  destruct Hren as ([Hs1 Hd1] & Hren & Hok). apply wp_try.
  eapply wp_mono; [|by apply (alone_no_longer _ s)]. intros r w2 [-> Hgone].
  destruct r as [[]|e]; [|by split_and!]. specialize (Hgone eq_refl). rewrite Hino in Hgone.
  eapply wp_mono; [|by apply (alone_named _ d)]. intros r w2 [-> _]. split_and!; [done..|]. intros _. by apply Hok.
Qed.
End Validated.

(** * The guarantees of [fs.delete] and [fs.move] *)

(** Files keep their content, and every name but those of the two paths its file;
    [w1] is the disk once the lock files exist. *)
Definition rearranged (src dst : string) (w0 w : World) : Prop :=
  (∀ j m, w_nodes w0 !! j = Some m → ∃ m', w_nodes w !! j = Some m' ∧ same_file m m') ∧
  ∃ w1, calm w0 w1 ∧ ∀ k j, w_names w0 !! k = Some j →
    w_names w !! k = Some j ∨ entry_of w1 src k ∨ entry_of w1 dst k.
(** The file the first path named, a regular file, now has the second name only
    in place of the first, and both directories are on disk. *)
Definition moved (src dst : string) (overwrite : bool) (w0 w : World) : Prop :=
  ∃ w1 ks kd i n, calm w0 w1 ∧ entry_of w1 src ks ∧ entry_of w1 dst kd ∧
    w_names w0 !! ks = Some i ∧ w_nodes w0 !! i = Some n ∧ n_type n = TFile ∧
    w_names w !! ks = None ∧ w_names w !! kd = Some i ∧
    (is_Some (w_names w0 !! kd) → overwrite = true) ∧
    (∀ k j, w_names w0 !! k = Some j → k ≠ ks → k ≠ kd → w_names w !! k = Some j) ∧
    (ks.1 ∉ w_unsynced w) ∧ (kd.1 ∉ w_unsynced w).

Section Move.
Context {os : Os} `{!PosixLaws os} {said : Answers}.
Context (Hsaid : ∀ R (c : Sys R) w r w', os_step c w r w' → said R c r).

Lemma calm_rearranged src dst w0 w : calm w0 w → rearranged src dst w0 w.
Proof.
  intros Hc. split; [by apply calm_same_nodes|]. exists w. split; [done|]. intros k j Hk. left.
  by apply (calm_names _ _ Hc).
Qed.
Lemma renames_rearranged src dst ks kd i b w0 w1 w :
  calm w0 w1 → entry_of w1 src ks → entry_of w1 dst kd → renames ks kd i b w1 w → rearranged src dst w0 w.
Proof.
  intros Hc Hs Hd [Hnodes Hnames]. split; [intros j m Hj; by apply Hnodes, (calm_nodes _ _ Hc)|].
  exists w1. split; [done|]. intros k j Hk. apply (calm_names _ _ Hc) in Hk.
  destruct Hnames as [->|(_ & -> & _)]; [by left|].
  destruct (decide (k = kd)) as [->|Hk1]; [by right; right|]. rewrite lookup_insert_ne by done.
  destruct (decide (k = ks)) as [->|Hk2]; [by right; left|]. rewrite lookup_delete_ne by done. by left.
Qed.
Lemma rearranged_sync src dst w0 w dir r w' :
  rearranged src dst w0 w → posix (SyncAll dir) w r w' → rearranged src dst w0 w'.
Proof.
  intros [Hd Hn] [Hn' Hd']%sync_same_nodes. split; [|by rewrite Hn'].
  intros j m Hj. destruct (Hd _ _ Hj) as (m1 & Hm1 & ?). destruct (Hd' _ _ Hm1) as (m2 & ? & ?).
  exists m2. split; [done|by etrans].
Qed.
Lemma sync_unsynced dir d w w' :
  opened w dir d → posix (SyncAll dir) w (Ok tt) w' →
  (d ∉ w_unsynced w') ∧ w_unsynced w' ⊆ w_unsynced w ∧ ∀ fd i, opened w fd i → opened w' fd i.
Proof.
  intros Ho (d' & m & Hd & _ & ->). rewrite (opened_same _ _ _ _ Ho Hd). simpl. split_and!; [set_solver..|done].
Qed.

Lemma renamed_moved src dst ks kd i b w0 w1 w2 w3 w4 sd dd :
  calm w0 w1 → entry_of w1 src ks → entry_of w1 dst kd → is_Some (w_nodes w0 !! i) →
  renamed ks kd i (negb b) w1 w2 → opened w2 sd ks.1 → opened w2 dd kd.1 →
  posix (SyncAll sd) w2 (Ok tt) w3 → posix (SyncAll dd) w3 (Ok tt) w4 → moved src dst b w0 w4.
Proof.
  intros Hc Hs Hd Hi (Hks & Hne & Hn & Hnr & n & Hni & Hty) Hos Hod Hsync1 Hsync2.
  destruct (sync_same_nodes _ _ _ _ Hsync1) as [Hn3 _]. destruct (sync_same_nodes _ _ _ _ Hsync2) as [Hn4 _].
  destruct (sync_unsynced _ _ _ _ Hos Hsync1) as (Hu1 & _ & Ho3).
  destruct (sync_unsynced _ _ _ _ (Ho3 _ _ Hod) Hsync2) as (Hu2 & Hsub & _).
  destruct Hi as [n0 Hn0]. pose proof (calm_nodes _ _ Hc _ _ Hn0). simplify_eq.
  exists w1, ks, kd, i, n. rewrite Hn4, Hn3, Hn. split_and!; [done..| |done|done| | | | |set_solver|done].
  - eapply calm_old_name; eauto.
  - rewrite lookup_insert_ne by done. apply lookup_delete_eq.
  - apply lookup_insert_eq.
  - intros [j Hj]. destruct b; [done|]. apply (calm_names _ _ Hc) in Hj. by rewrite Hnr in Hj.
  - intros k j Hk Hk1 Hk2. rewrite lookup_insert_ne, lookup_delete_ne by done. by apply (calm_names _ _ Hc).
Qed.

Lemma alone_move_locked t source destination sn dn md fd sd s dd d w0 w1 :
  calm w0 w1 → opened w1 sd s → opened w1 dd d → on_file w0 fd →
  entry_of w1 (mt_canonical source) (s, sn) → entry_of w1 (mt_canonical destination) (d, dn) →
  alone (move_locked t source destination sn dn md fd sd dd)
    (λ report w, rearranged (mt_canonical source) (mt_canonical destination) w0 w ∧
       (report_status report = TrSucceeded →
        moved (mt_canonical source) (mt_canonical destination) (move_allow_overwrite t) w0 w)) w1.
Proof.
  intros Hc Hs Hd Hfd Hes Hed. unfold move_locked. apply wp_bind, alone_call. intros r w2 [-> _].
  assert (Hstay : rearranged (mt_canonical source) (mt_canonical destination) w0 w1) by by apply calm_rearranged.
  match goal with |- wp _ _ (match ?x with _ => _ end) _ _ => destruct x as [existed|report] eqn:E end.
  2:{ split; [done|]. assert (report_status report = TrFailed) as ->; [|done].
      destruct r; repeat case_match; by simplify_eq. }
  destruct (existed && _); [by split|]. apply wp_bind, wp_try.
  destruct fd as [fd|]; [|by split]. destruct (Hfd fd eq_refl) as (i & Hi & Hin).
  eapply wp_mono; [|apply (alone_rename sd s sn dd d dn _ _ fd i w1); [done..|exact (calm_opened _ _ Hc _ _ Hi)]].
  intros r1 w2 ([Hs2 Hd2] & Hren & Hok).
  pose proof (renames_rearranged _ _ _ _ _ _ _ _ _ Hc Hes Hed Hren) as Hre.
  destruct r1 as [[]|e]; [specialize (Hok eq_refl)|by split]. apply wp_try, alone_call. intros r1 w3 Hp3.
  pose proof (rearranged_sync _ _ _ _ _ _ _ Hre Hp3) as Hre3. destruct r1 as [[]|e]; [|by split].
  apply alone_call. intros r1 w4 Hp4. split; [by eapply rearranged_sync|].
  destruct r1 as [[]|e]; [|done]. intros _.
  by eapply (renamed_moved _ _ (s, sn) (d, dn) i _ w0 w1 w2 w3 w4 sd dd).
Qed.

Lemma still_rearranged src dst w0 w1 w : still w0 w1 → rearranged src dst w1 w → rearranged src dst w0 w.
Proof.
  intros Hs [Hd (w2 & Hc & Hn)]. rewrite (still_names _ _ Hs) in Hn. rewrite (still_nodes _ _ Hs) in Hd.
  split; [done|]. exists w2. split; [|done]. etrans; [by apply still_calm|done].
Qed.
Lemma still_moved src dst b w0 w1 w : still w0 w1 → moved src dst b w1 w → moved src dst b w0 w.
Proof.
  intros Hs (w2 & ks & kd & i & n & Hc & Hrest). rewrite (still_names _ _ Hs), (still_nodes _ _ Hs) in Hrest.
  exists w2, ks, kd, i, n. split; [|done]. etrans; [by apply still_calm|done].
Qed.

Lemma alone_holding_all {A} (p : Prog A) (Q : A → World → Prop) locks w :
  (∀ a w l, Q a w → Q a (with_locks w l)) → alone p Q w → alone (holding locks p) Q w.
Proof.
  intros HQ Hp. apply wp_bind. eapply wp_mono; [|exact Hp]. intros a w1 Ha. apply wp_bind.
  revert w1 Ha. induction locks as [|l locks IH]; intros w1 Ha; [done|].
  apply wp_bind, alone_call. intros u w2 ->. apply IH. by apply HQ.
Qed.

Lemma alone_move_checked t source destination md fd w0 :
  is_absolute (mt_canonical source) = true → is_absolute (mt_canonical destination) = true → on_file w0 fd →
  alone (move_checked t source destination md fd)
    (λ report w, rearranged (mt_canonical source) (mt_canonical destination) w0 w ∧
       (report_status report = TrSucceeded →
        moved (mt_canonical source) (mt_canonical destination) (move_allow_overwrite t) w0 w)) w0.
Proof.
  intros Has Had Hfd. unfold move_checked.
  destruct (move_parts _ _) as [[[[sp dp] sn] dn]|e] eqn:Hparts.
  2:{ split; [apply calm_rearranged; reflexivity|done]. }
  apply move_parts_Ok in Hparts as (Hsp & Hdp & Hsn & Hdn). apply wp_bind.
  eapply wp_mono; [|apply alone_gentle, ordered_gentle]. intros locks w1 Hc.
  apply wp_bind. eapply wp_mono; [|by eapply alone_open_parent, (absolute_parent (mt_canonical source))].
  intros sd w2 [Hs2 Hsd]. apply wp_bind.
  eapply wp_mono; [|by eapply alone_open_parent, (absolute_parent (mt_canonical destination))].
  intros dd w3 [Hs3 Hdd]. assert (Hc3 : calm w0 w3).
  { exact (transitivity Hc (transitivity (still_calm _ _ Hs2) (still_calm _ _ Hs3))). }
  apply alone_holding_all.
  { intros a w l [H1 H2]. split; [exact H1|exact H2]. }
  assert (Hstay : ∀ e, rearranged (mt_canonical source) (mt_canonical destination) w0 w3 ∧
    (report_status (move_failed source destination e) = TrSucceeded →
     moved (mt_canonical source) (mt_canonical destination) (move_allow_overwrite t) w0 w3))
    by (intros e; split; [by apply calm_rearranged|done]).
  destruct locks as [locks|e]; [|apply Hstay]. destruct sd as [sd|e]; [|apply Hstay].
  destruct dd as [dd|e]; [|apply Hstay].
  destruct (Hsd sd eq_refl) as (s & Hws & Hos), (Hdd dd eq_refl) as (d & Hwd & Hod).
  apply (alone_move_locked _ _ _ _ _ _ _ _ s _ d); [done| |done|done| |].
  - exact (still_opened _ _ Hs3 _ _ Hos).
  - exists sp. rewrite Hsn. split_and!; [done..|]. rewrite (still_walk w2 w3), (still_walk w1 w2) by done.
    by rewrite (still_root _ _ Hs3), (still_root _ _ Hs2).
  - exists dp. rewrite Hdn. split_and!; [done..|]. rewrite (still_walk w2 w3) by done. by rewrite (still_root _ _ Hs3).
Qed.

Lemma on_file_still w w' fd : still w w' → on_file w fd → on_file w' fd.
Proof.
  intros Hs Hf f E. destruct (Hf f E) as (i & Ho & Hn). exists i. rewrite (still_nodes _ _ Hs).
  split; [exact (still_opened _ _ Hs _ _ Ho)|done].
Qed.
Lemma alone_move_execute t request w0 :
  alone (move_execute t request)
    (λ report w,
       (intact w0 w ∨ ∃ src dst, resolves said (move_root t) (target_from_request request) src ∧ resolves said (move_root t) (move_destination_path t) dst ∧
                                 rearranged src dst w0 w) ∧
       (report_status report = TrSucceeded →
        ∃ src dst, resolves said (move_root t) (target_from_request request) src ∧ resolves said (move_root t) (move_destination_path t) dst ∧
          moved src dst (move_allow_overwrite t) w0 w)) w0.
Proof.
  assert (Hno : ∀ w report, still w0 w → report_status report = TrFailed →
    (intact w0 w ∨ ∃ src dst, resolves said (move_root t) (target_from_request request) src ∧ resolves said (move_root t) (move_destination_path t) dst ∧
                              rearranged src dst w0 w) ∧ (report_status report = TrSucceeded →
      ∃ src dst, resolves said (move_root t) (target_from_request request) src ∧ resolves said (move_root t) (move_destination_path t) dst ∧
        moved src dst (move_allow_overwrite t) w0 w)).
  { intros w report Hs ->. split; [|done]. left. by apply calm_intact, still_calm. }
  unfold move_execute. apply wp_bind. eapply wp_mono; [|by apply (alone_resolve_target Hsaid)].
  intros [[source fd]|e] w1 [Hs1 Hr1]; [|by apply Hno]. destruct (Hr1 _ _ eq_refl) as (Hin1 & Ha1 & Hfd).
  apply wp_bind. eapply wp_mono; [|by apply (alone_resolve_target Hsaid)].
  intros r2 w2 [Hs2 Hr2]. assert (Hs02 : still w0 w2) by by etrans.
  destruct r2 as [[destination fd']|e]; [|by apply Hno]. destruct (Hr2 _ _ eq_refl) as (Hin2 & Ha2 & _).
  case_match; [by apply Hno|]. apply wp_bind, alone_call. intros [m|e] w3 [-> _]; [|by apply Hno].
  case_match; [by apply Hno|].
  eapply wp_mono; [|apply alone_move_checked; eauto using on_file_still].
  intros report w [Hre Hok]. split.
  - right. exists (mt_canonical source), (mt_canonical destination). split_and!; [done..|by eapply still_rearranged].
  - intros Hst. exists (mt_canonical source), (mt_canonical destination). split_and!; [done..|].
    eapply still_moved; [done|auto].
Qed.
End Move.

(** [fs.delete] does what it reports.  When no other process interferes, a run of
    [fs.delete] leaves every file with its content and every name but that of the
    path the request resolved to naming its file.  If it reports a deletion, the
    regular file that this path named, in the directory it reaches through real
    directories, has no name left anywhere; every other name still names its file,
    and the removal is on disk. *)
Theorem fs_delete_exact (os : Os) (Hos : PosixLaws os) t request w0 h w report :
  recorded eq (w0, delete_execute t request) h (w, Done report) →
  (intact w0 w ∨ ∃ path, resolves (answered h) (delete_root t) (target_from_request request) path ∧ spared path w0 w) ∧
  (reports_deleted report →
   ∃ path, resolves (answered h) (delete_root t) (target_from_request request) path ∧ deleted path w0 w).
Proof.
  intros Hr. refine (recorded_adequate _ _ _ _ _ _ _ (alone_delete_execute (os := observed os h) _ t request w0) Hr).
  by intros * [].
Qed.

(** [fs.move] does what it reports.  When no other process interferes, a run of
    [fs.move] leaves every file with its content and every name but those of the
    two paths the request resolved to naming its file.  If it reports success, the
    regular file that the first path named has the name of the second path and no
    longer the first; a file that had the second name was replaced only if
    overwriting was allowed; every other name still names its file, and both
    directories are on disk. *)
Theorem fs_move_exact (os : Os) (Hos : PosixLaws os) t request w0 h w report :
  recorded eq (w0, move_execute t request) h (w, Done report) →
  (intact w0 w ∨ ∃ src dst, resolves (answered h) (move_root t) (target_from_request request) src ∧
     resolves (answered h) (move_root t) (move_destination_path t) dst ∧ rearranged src dst w0 w) ∧
  (report_status report = TrSucceeded →
   ∃ src dst, resolves (answered h) (move_root t) (target_from_request request) src ∧
     resolves (answered h) (move_root t) (move_destination_path t) dst ∧ moved src dst (move_allow_overwrite t) w0 w).
Proof.
  intros Hr. refine (recorded_adequate _ _ _ _ _ _ _ (alone_move_execute (os := observed os h) _ t request w0) Hr).
  by intros * [].
Qed.
