(* ===== verification/ReadTools.v ===== *)
(** * ReadTools: listing, inspecting, reading, comparing and searching ([tools.rs])

    [execute] of [fs.list], [fs.stat], [fs.read], [fs.diff] and [fs.search], as
    programs over system calls: files are read through a buffer, as [BufReader]
    does, and a search walks the directories it meets. *)
From S2P Require Import Prelude Text Truncation Domain StoreTypes Settings Runtime.
From S2P Require Import Paths Tools ManifestCheck ToolText FileOps MutationTools.

(** ** Buffered reading *)

(** A [BufReader]: its descriptor and what it has read ahead. *)
Definition BUFFER : N := 8192.
Definition fill_buf (file : Fd) (buffer : bytes) : Prog (io bytes) :=
  if is_nonempty buffer then Done (Ok buffer) else call (ReadSome file BUFFER).

Definition ended_with_newline (piece : bytes) : bool := bool_decide (last piece = Some line_feed).
(** What fuel ran out means; the theorems give bounds that are enough. *)
Definition out_of_fuel {A} : Prog (io A) := fails KOther "the loop has not ended".

(** [take(limit).read_until(b'\n')], or without [take] for a limit of [None]:
    the line read so far grows until a line feed, the limit or the end. *)
Fixpoint read_until_io (fuel : nat) (file : Fd) (limit : option N) (line buffer : bytes)
  : Prog (io (bytes * bytes)) :=
  match fuel with
  | O => out_of_fuel
  | S fuel =>
      if bool_decide (limit = Some 0%N) then Done (Ok (line, buffer))
      else
        try! buffer := fill_buf file buffer in
        let '(piece, rest) := read_until (default (N.of_nat (length buffer)) limit) buffer in
        if negb (is_nonempty piece) || ended_with_newline piece then Done (Ok (line ++ piece, rest))
        else read_until_io fuel file (option_map (λ n, n - N.of_nat (length piece))%N limit)
               (line ++ piece) rest
  end.

(** ** The read window of an open file *)

Definition window_error (e : WindowError) : OsError :=
  match e with
  | ContainsNul => io_error KInvalidData "binary file rejected (contains NUL byte)"
  | NotUtf8 e => io_error KInvalidData (utf8_error_text e)
  end.

(** One round of the loop: the buffer is only filled where the source asks for
    more. *)
Definition window_round_io (fuel : nat) (lim : WindowLimits) (file : Fd) (st : WindowState)
  (buffer : bytes) : Prog (io Round) :=
  match window_full lim st true with
  | Some _ =>
      try! buffer := fill_buf file buffer in
      Done (Ok (Stop (default (ws_window st) (window_full lim st (is_nonempty buffer)))))
  | None =>
      try! '(piece, buffer) :=
        read_until_io fuel file (Some (lim_max_scan_bytes lim - ws_scanned_bytes st)%N) [] buffer in
      if bool_decide (piece = []) then Done (Ok (Stop (ws_window st)))
      else if scan_cut lim st piece
      then try! buffer := fill_buf file buffer in
           Done (Ok (window_line lim st piece (is_nonempty buffer) buffer))
      else Done (Ok (window_line lim st piece false buffer))
  end.
Fixpoint window_loop_io (fuel : nat) (lim : WindowLimits) (file : Fd) (st : WindowState)
  (buffer : bytes) : Prog (io ReadWindow) :=
  match fuel with
  | O => out_of_fuel
  | S fuel' =>
      try! round := window_round_io fuel lim file st buffer in
      match round with
      | Stop w => Done (Ok w)
      | Refuse e => Done (Err (window_error e))
      | Continue st buffer => window_loop_io fuel' lim file st buffer
      end
  end.
(** No more than [max_scan_bytes] bytes are read, one at least per turn. *)
Definition read_text_window_io (file : Fd) (lim : WindowLimits) : Prog (io ReadWindow) :=
  window_loop_io (S (S (N.to_nat (lim_max_scan_bytes lim)))) (from_first_line lim) file window_start [].

(** ** [fs.list] *)

Definition list_schema : string := "tool_result.fs.list.v1".
Record Listing := { ls_names : list string; ls_files : N; ls_dirs : N; ls_unknown : N }.
Definition list_entry (acc : Listing) (entry : DirEntry) : Listing :=
  let kind := match de_file_type entry with
              | Ok ft => Some ft
              | Err _ => match de_metadata entry with Ok m => Some (md_type m) | Err _ => None end
              end in
  let of_type t := bool_decide (kind = Some t) in
  {| ls_names := ls_names acc ++ [to_string_lossy (de_name entry)];
     ls_files := ls_files acc + (if of_type TFile then 1 else 0);
     ls_dirs := ls_dirs acc + (if of_type TDir then 1 else 0);
     ls_unknown := ls_unknown acc + (if of_type TFile || of_type TDir then 0 else 1) |}%N.
(** [entries.flatten()] skips the entries that cannot be read. *)
Definition flatten_entries (entries : list (io DirEntry)) : list DirEntry :=
  omap (λ e, match e with Ok entry => Some entry | Err _ => None end) entries.
Definition list_entries (entries : list (io DirEntry)) : Listing :=
  foldl list_entry {| ls_names := []; ls_files := 0; ls_dirs := 0; ls_unknown := 0 |}
    (flatten_entries entries).

Definition list_report (canonical : CanonicalPath) (l : Listing) : Report :=
  let names := merge_sort str_le_rel (ls_names l) in
  let count := N.of_nat (length names) in
  succeeded list_schema
    [string_field "summary"
       (num count +:+ " entries in " +:+ display_path canonical +:+ " (" +:+ num (ls_files l) +:+ " files, "
        +:+ num (ls_dirs l) +:+ " dirs"
        +:+ (if (0 <? ls_unknown l)%N then ", " +:+ num (ls_unknown l) +:+ " other" else EmptyString) +:+ ")");
     string_field "path" (display_path canonical); integer_field "entry_count" count;
     {| field_key := "entries"; field_value := SvStringList names |};
     integer_field "file_count" (ls_files l); integer_field "dir_count" (ls_dirs l);
     integer_field "unknown_count" (ls_unknown l)].

Definition failed_at (schema_ref summary shown : string) (err : OsError) : Report :=
  failed_result schema_ref summary (shown +:+ ": " +:+ oe_text err).

Definition list_execute (t : FsListTool) (request : RuntimeJobRequest) : Prog Report :=
  let! r := canonicalize_within_scope_io (list_root t) (target_from_request request) in
  match r with
  | Err err => Done (failed_result list_schema "list failed: path rejected" (path_error_text err))
  | Ok canonical =>
      let! r := call (ReadDir (cp_canonical canonical)) in
      Done (match r with
            | Err err =>
                failed_at list_schema "list failed: cannot read directory" (display_path canonical) err
            | Ok entries => list_report canonical (list_entries entries)
            end)
  end.

(** ** [fs.stat] *)

Definition stat_schema : string := "tool_result.fs.stat.v1".
(** No write bit is set. *)
Definition readonly (m : Metadata) : bool := (N.land (md_mode m) 146 =? 0)%N.
(** [as_millis() as i64]; 0 before the epoch or where the time is unknown. *)
Definition modified_ms (m : Metadata) : Z :=
  match md_modified_ms m with
  | Some ms => if (ms <? 0)%Z then 0%Z else as_i64 (Z.to_N ms mod 2 ^ 64)
  | None => 0%Z
  end.
Definition stat_report (canonical : CanonicalPath) (m : Metadata) : Report :=
  let file_type := if is_file m then "file" else if is_dir m then "directory" else "other" in
  succeeded stat_schema
    [string_field "summary"
       (file_type +:+ " " +:+ display_path canonical +:+ " (" +:+ num (md_len m) +:+ " bytes"
        +:+ (if readonly m then ", readonly" else EmptyString) +:+ ")");
     string_field "path" (display_path canonical); string_field "file_type" file_type;
     integer_field "size_bytes" (md_len m); bool_field "readonly" (readonly m);
     {| field_key := "modified_ms"; field_value := SvInteger (modified_ms m) |}].

Definition stat_execute (t : FsStatTool) (request : RuntimeJobRequest) : Prog Report :=
  let! r := canonicalize_within_scope_io (stat_root t) (target_from_request request) in
  match r with
  | Err err => Done (failed_result stat_schema "stat failed: path rejected" (path_error_text err))
  | Ok canonical =>
      let! r := call (SymlinkMetadata (cp_canonical canonical)) in
      Done (match r with
            | Err err =>
                failed_at stat_schema "stat failed: cannot read metadata" (display_path canonical) err
            | Ok m => stat_report canonical m
            end)
  end.

(** ** [fs.read] *)

Definition read_schema : string := "tool_result.fs.read.v1".
Inductive ReadTarget :=
  | RepositoryTarget (canonical : CanonicalPath)
  | ArtifactTarget (path : string).
Definition read_target_path (target : ReadTarget) : string :=
  match target with RepositoryTarget c => cp_canonical c | ArtifactTarget path => path end.
Definition read_target_display_path (target : ReadTarget) : string :=
  match target with RepositoryTarget c => display_path c | ArtifactTarget path => to_string_lossy path end.

Inductive ArtifactLookupDenyReason := ProjectOrJobContextRequired | RepositoryScopeOrIdentityMismatch.
(** [ArtifactLookupResult], with the path of the record found. *)
Inductive ArtifactLookupResult :=
  | ArtifactFound (path : string)
  | ArtifactDenied (reason : ArtifactLookupDenyReason)
  | ArtifactNotFound.

Definition opened_elsewhere (text : string) : OsError := io_error KPermissionDenied text.
(** The file of a record must be the one that was resolved when it is open. *)
Definition open_artifact_file_within_scope (path : string) : Prog (io Fd) :=
  try! expected_metadata := call (PathMetadata path) in
  try! expected_path := call (Canonicalize path) in
  try! file := call (OpenFile path true) in
  try! opened_metadata := call (Fstat file) in
  if negb (same_inode opened_metadata expected_metadata)
  then Done (Err (opened_elsewhere "opened artifact file did not match resolved record"))
  else
    try! opened_path := call (FdPath file) in
    if path_eqb opened_path expected_path then Done (Ok file)
    else Done (Err (opened_elsewhere "opened artifact file path changed after record resolution")).

Section Read.
(** The artifact store, if one is configured: what it answers for a reference
    and a repository. *)
Context `{UuidLib} (artifact_store : option (OutputRefId → string → result string ArtifactLookupResult)).

Definition invalid_id_text (e : InvalidIdError) : string :=
  iie_type_name e +:+ " must be a prefixed opaque id starting with " +:+ iie_expected_prefix e
  +:+ " followed by a UUID".

Definition resolve_artifact_target_from_store (request : RuntimeJobRequest) : result string string :=
  let? output_ref_id := map_err invalid_id_text
                          (try_from_string OutputRefIdKind (target_from_request request)) in
  let? store := ok_or artifact_store "artifact store is not configured" in
  let? found := store output_ref_id (as_str (req_repository_id request)) in
  match found with
  | ArtifactFound path => Ok path
  | ArtifactNotFound => Err "artifact not found"
  | ArtifactDenied ProjectOrJobContextRequired =>
      Err "artifact requires project/job context, but this request does not include one"
  | ArtifactDenied RepositoryScopeOrIdentityMismatch =>
      Err "artifact is not accessible from this repository context"
  end.

Definition is_artifact_scope (request : RuntimeJobRequest) : bool :=
  str_in (scope_kind (req_resource_scope request)) ["artifact"; "artifact_ref"].
(** The path an invocation recorded for the reference. *)
Definition recorded_path (request : RuntimeJobRequest) (invocation : ToolInvocation) : option string :=
  option_map rp_resolved_path
    (List.find (λ p, str_eqb (rp_requested_path p) (target_from_request request)
                     && negb (str_eqb (rp_resolved_path p) (target_from_request request)))
       (inv_resolved_paths invocation)).

Definition resolve_target_for_request (t : FsReadTool) (request : RuntimeJobRequest)
  (invocation : option ToolInvocation) : Prog (result string ReadTarget) :=
  if is_artifact_scope request
  then
    let recorded := match invocation with Some i => recorded_path request i | None => None end in
    let confirmed :=
      match recorded, resolve_artifact_target_from_store request with
      | Some resolved_path, Ok store_path =>
          if path_eqb store_path resolved_path then Some resolved_path else None
      | _, _ => None
      end in
    Done (match confirmed with
          | Some resolved_path => Ok (ArtifactTarget resolved_path)
          | None => let? path := resolve_artifact_target_from_store request in Ok (ArtifactTarget path)
          end)
  else
    let! r := canonicalize_within_scope_io (read_root t) (target_from_request request) in
    Done (match r with Ok c => Ok (RepositoryTarget c) | Err e => Err (path_error_text e) end).

Definition open_read_target (target : ReadTarget) : Prog (io Fd) :=
  match target with
  | RepositoryTarget canonical => open_canonical_file_within_scope canonical
  | ArtifactTarget path => open_artifact_file_within_scope path
  end.

Definition read_limits (t : FsReadTool) : WindowLimits := {|
  lim_start_line := read_start_line t; lim_max_lines := read_max_lines t;
  lim_max_chars := read_max_chars t; lim_max_bytes := read_max_bytes t;
  lim_max_scan_bytes := read_max_scan_bytes t; lim_line_numbers := read_include_line_numbers t |}.

Definition read_truncation (t : FsReadTool) (metadata : Metadata) (window : ReadWindow)
  : option TruncationMetadata :=
  let reasons :=
    part_if (1 <? read_start_line t)%N ("window starts at line " +:+ num (read_start_line t)) ++
    part_if (win_truncated_by_lines window) ("line limit " +:+ num (read_max_lines t)) ++
    part_if (win_truncated_by_chars window) ("character limit " +:+ num (read_max_chars t)) ++
    part_if (win_truncated_by_bytes window) ("byte limit " +:+ num (default 0%N (read_max_bytes t))) ++
    part_if (win_truncated_by_scan window) ("scan byte limit " +:+ num (read_max_scan_bytes t)) in
  if bool_decide (reasons = []) then None
  else Some {| trunc_original_bytes := md_len metadata;
               trunc_retained_bytes := win_retained_source_bytes window;
               trunc_reason := join "; " reasons |}.

Definition read_report (t : FsReadTool) (target : ReadTarget) (metadata : Metadata)
  (window : ReadWindow) : Report := {|
  report_status := TrSucceeded; report_schema_ref := read_schema;
  report_fields :=
    [string_field "summary" ("read " +:+ num (win_line_count window) +:+ " line(s) from "
                             +:+ read_target_display_path target);
     string_field "path" (read_target_display_path target);
     string_field "content" (win_content window);
     integer_field "start_line" (read_start_line t); integer_field "end_line" (win_end_line window);
     integer_field "line_count" (win_line_count window);
     integer_field "file_size_bytes" (md_len metadata)];
  report_truncation := read_truncation t metadata window |}.

Definition read_opened (t : FsReadTool) (target : ReadTarget) (file : Fd) : Prog Report :=
  let shown := read_target_display_path target in
  let! r := call (Fstat file) in
  match r with
  | Err err => Done (failed_at read_schema "read failed: cannot read file metadata" shown err)
  | Ok metadata =>
      if negb (is_file metadata)
      then Done (failed_result read_schema "read failed: target is not a file" shown)
      else
        let too_large :=
          match read_max_file_bytes t with
          | Some limit =>
              if (limit <? md_len metadata)%N
              then Some (failed_result read_schema "read failed: file exceeds configured byte limit"
                           (shown +:+ " is " +:+ num (md_len metadata) +:+ " bytes; limit is "
                            +:+ num limit +:+ " bytes"))
              else None
          | None => None
          end in
        match too_large with
        | Some report => Done report
        | None =>
            let! r := read_text_window_io file (read_limits t) in
            Done (match r with
                  | Err err => failed_at read_schema "read failed: cannot read UTF-8 text" shown err
                  | Ok window => read_report t target metadata window
                  end)
        end
  end.

Definition read_execute (t : FsReadTool) (invocation : ToolInvocation) (request : RuntimeJobRequest)
  : Prog Report :=
  let! r := resolve_target_for_request t request (Some invocation) in
  match r with
  | Err err => Done (failed_result read_schema "read failed: invalid read target" err)
  | Ok target =>
      let! r := open_read_target target in
      match r with
      | Err err => Done (failed_at read_schema "read failed: cannot open scoped file"
                           (read_target_display_path target) err)
      | Ok file => read_opened t target file
      end
  end.
End Read.

(** ** [fs.diff] *)

Definition diff_schema : string := "tool_result.fs.diff.v1".
Definition resolve_diff_paths_io (t : FsDiffTool) (request : RuntimeJobRequest)
  : resolving (CanonicalPath * CanonicalPath) :=
  res! left := canonicalize_within_scope_io (diff_root t) (target_from_request request) in
  res! right := canonicalize_within_scope_io (diff_root t) (diff_comparison_path t) in
  Done (Ok (left, right)).

Definition read_canonical_text_file (canonical : CanonicalPath) (max_bytes : N) : Prog (io string) :=
  try! file := open_canonical_file_within_scope canonical in
  try! metadata := call (Fstat file) in
  if negb (is_file metadata) then fails KInvalidInput "target is not a file"
  else read_entire_text_file_from_open_file file max_bytes.

Definition diff_report (t : FsDiffTool) (left right : CanonicalPath) (left_content right_content : string)
  : Report :=
  let l := display_path left in
  let r := display_path right in
  let raw_diff := of_bytes (render_line_diff l r (to_bytes left_content) (to_bytes right_content)) in
  let '(diff, retained_bytes, truncated) :=
    truncate_utf8_by_chars_and_bytes raw_diff (diff_max_chars t) (diff_max_bytes t) in
  let changed := negb (str_eqb left_content right_content) in
  {| report_status := TrSucceeded; report_schema_ref := diff_schema;
     report_fields :=
       [string_field "summary"
          (if changed then "diffed " +:+ l +:+ " against " +:+ r
           else l +:+ " and " +:+ r +:+ " have identical UTF-8 content");
        string_field "left_path" l; string_field "right_path" r; string_field "diff" diff;
        bool_field "changed" changed; integer_field "left_bytes" (str_len left_content);
        integer_field "right_bytes" (str_len right_content)];
     report_truncation :=
       if (truncated : bool)
       then Some {| trunc_original_bytes := str_len raw_diff; trunc_retained_bytes := retained_bytes;
                    trunc_reason := "diff output truncated at " +:+ num (diff_max_chars t)
                                    +:+ " characters or " +:+ num (diff_max_bytes t) +:+ " bytes" |}
       else None |}.

Definition diff_execute (t : FsDiffTool) (request : RuntimeJobRequest) : Prog Report :=
  let! r := resolve_diff_paths_io t request in
  match r with
  | Err err => Done (failed_result diff_schema "diff failed: path rejected" (path_error_text err))
  | Ok (left_, right_) =>
      let! r := read_canonical_text_file left_ (diff_max_bytes t) in
      match r with
      | Err err =>
          Done (failed_at diff_schema "diff failed: cannot read left file" (display_path left_) err)
      | Ok left_content =>
          let! r := read_canonical_text_file right_ (diff_max_bytes t) in
          Done (match r with
                | Err err =>
                    failed_at diff_schema "diff failed: cannot read right file" (display_path right_) err
                | Ok right_content => diff_report t left_ right_ left_content right_content
                end)
      end
  end.

(** ** [fs.search] *)

Definition search_schema : string := "tool_result.fs.search.v1".

(** What a search has found: the variables [search_recursive] updates. *)
Record SearchState := {
  sr_matches : list string;
  sr_files_searched : N;
  sr_files_skipped : N;
  sr_truncated : bool;
  sr_total_bytes : N;
  sr_retained_bytes : N;
  sr_visited_dirs : list string
}.
Definition search_start (visited_dirs : list string) : SearchState := {|
  sr_matches := []; sr_files_searched := 0; sr_files_skipped := 0; sr_truncated := false;
  sr_total_bytes := 0; sr_retained_bytes := 0; sr_visited_dirs := visited_dirs |}.
Definition search_match (max_results : N) (st : SearchState) (match_ref : string) : SearchState :=
  let room := (N.of_nat (length (sr_matches st)) <? max_results)%N in
  {| sr_matches := if room then sr_matches st ++ [match_ref] else sr_matches st;
     sr_files_searched := sr_files_searched st; sr_files_skipped := sr_files_skipped st;
     sr_truncated := if room then sr_truncated st else true;
     sr_total_bytes := sr_total_bytes st + str_len match_ref;
     sr_retained_bytes := if room then sr_retained_bytes st + str_len match_ref else sr_retained_bytes st;
     sr_visited_dirs := sr_visited_dirs st |}.
Definition search_counted (st : SearchState) (searched skipped : N) : SearchState := {|
  sr_matches := sr_matches st; sr_files_searched := sr_files_searched st + searched;
  sr_files_skipped := sr_files_skipped st + skipped; sr_truncated := sr_truncated st;
  sr_total_bytes := sr_total_bytes st; sr_retained_bytes := sr_retained_bytes st;
  sr_visited_dirs := sr_visited_dirs st |}.
Definition search_visit (st : SearchState) (dir : string) : SearchState := {|
  sr_matches := sr_matches st; sr_files_searched := sr_files_searched st;
  sr_files_skipped := sr_files_skipped st; sr_truncated := sr_truncated st;
  sr_total_bytes := sr_total_bytes st; sr_retained_bytes := sr_retained_bytes st;
  sr_visited_dirs := dir :: sr_visited_dirs st |}.

Definition is_within_allowed_roots (path : string) (allowed_roots : list string) : bool :=
  existsb (λ root, path_starts_with path root) allowed_roots.
Definition is_within_or_ancestor_of_allowed_root (path : string) (allowed_roots : list string) : bool :=
  existsb (λ root, path_starts_with path root || path_starts_with root path) allowed_roots.

Section Search.
(** How many turns the loops may take. *)
Context (fuel : nat) (root pattern : string) (max_results : N).

Definition relative_name (path : string) : string :=
  to_string_lossy (default path (path_strip_prefix path root)).
Definition match_ref (path : string) (line_num : N) : string :=
  relative_name path +:+ ":" +:+ num (line_num + 1).

(** [reader.lines()]: a line that is not UTF-8 ends the file with an error. *)
Fixpoint search_lines (turns : nat) (file : Fd) (path : string) (line_num : N) (buffer : bytes)
  (st : SearchState) : Prog (io SearchState) :=
  match turns with
  | O => out_of_fuel
  | S turns =>
      try! '(piece, buffer) := read_until_io fuel file None [] buffer in
      if bool_decide (piece = []) then Done (Ok st)
      else
        try! _ := Done (map_err (λ _, io_error KInvalidData "stream did not contain valid UTF-8")
                          (from_utf8 piece)) in
        search_lines turns file path (line_num + 1) buffer
          (if contains (to_bytes pattern) (line_of piece).1
           then search_match max_results st (match_ref path line_num) else st)
  end.
Definition search_file (path : string) (st : SearchState) : Prog (io SearchState) :=
  try! file := call (OpenFile path false) in
  search_lines fuel file path 0 [] st.

Context (allowed_roots : list string) (max_file_bytes : N).

(** One entry of a directory; [recurse] searches a directory. *)
Definition search_entry (recurse : string → SearchState → Prog (io SearchState)) (path : string)
  (st : SearchState) : Prog (io SearchState) :=
  let! r := call (Canonicalize path) in
  match r with
  | Err _ => Done (Ok st)
  | Ok canonical =>
      if negb (path_starts_with canonical root) then Done (Ok st)
      else
        try! metadata := call (PathMetadata canonical) in
        if is_dir metadata then
          if negb (is_within_or_ancestor_of_allowed_root canonical allowed_roots) then Done (Ok st)
          else if existsb (path_eqb canonical) (sr_visited_dirs st) then Done (Ok st)
          else recurse canonical (search_visit st canonical)
        else if is_file metadata then
          if negb (is_within_allowed_roots canonical allowed_roots) then Done (Ok st)
          else if (max_file_bytes <? md_len metadata)%N then Done (Ok (search_counted st 0 1))
          else
            let! r := search_file canonical (search_counted st 1 0) in
            Done (Ok (match r with Ok st => st | Err _ => search_counted st 0 1 end))
        else Done (Ok st)
  end.
Fixpoint search_entries (recurse : string → SearchState → Prog (io SearchState)) (dir : string)
  (entries : list (io DirEntry)) (st : SearchState) : Prog (io SearchState) :=
  match entries with
  | [] => Done (Ok st)
  | Err error :: _ => Done (Err error)
  | Ok entry :: entries =>
      try! st := search_entry recurse (path_join dir (de_name entry)) st in
      search_entries recurse dir entries st
  end.
Fixpoint search_recursive (turns : nat) (dir : string) (st : SearchState) : Prog (io SearchState) :=
  match turns with
  | O => out_of_fuel
  | S turns =>
      try! entries := call (ReadDir dir) in
      search_entries (search_recursive turns) dir entries st
  end.
End Search.

Definition search_report (t : FsSearchTool) (canonical : CanonicalPath) (st : SearchState) : Report :=
  let count := N.of_nat (length (sr_matches st)) in
  {| report_status := TrSucceeded; report_schema_ref := search_schema;
     report_fields :=
       [string_field "summary" (num count +:+ " match(es) in " +:+ num (sr_files_searched st)
                                +:+ " file(s) under " +:+ display_path canonical);
        string_field "path" (display_path canonical); string_field "pattern" (search_pattern t);
        {| field_key := "matches"; field_value := SvStringList (sr_matches st) |};
        integer_field "match_count" count; integer_field "files_searched" (sr_files_searched st);
        integer_field "files_skipped" (sr_files_skipped st)];
     report_truncation :=
       if sr_truncated st
       then Some {| trunc_original_bytes := sr_total_bytes st; trunc_retained_bytes := sr_retained_bytes st;
                    trunc_reason := "search results truncated at " +:+ num (search_max_results t)
                                    +:+ " matches" |}
       else None |}.

(** [path.is_file()] and [path.is_dir()] *)
Definition path_type (path : string) : Prog (option FileType) :=
  let! r := call (PathMetadata path) in
  Done (match r with Ok m => Some (md_type m) | Err _ => None end).

Definition search_single (fuel : nat) (t : FsSearchTool) (canonical : CanonicalPath)
  (allowed_roots : list string) : Prog Report :=
  let path := cp_canonical canonical in
  let shown := display_path canonical in
  if negb (is_within_allowed_roots path allowed_roots)
  then Done (failed_result search_schema "search failed: path rejected"
               (shown +:+ ": path outside allowed search scope"))
  else
    let! r := call (PathMetadata path) in
    match r with
    | Err err => Done (failed_at search_schema "search failed: cannot read file metadata" shown err)
    | Ok metadata =>
        if (search_max_file_bytes t <? md_len metadata)%N
        then Done (search_report t canonical (search_counted (search_start []) 0 1))
        else
          let! r := search_file fuel (cp_root canonical) (search_pattern t) (search_max_results t) path
                      (search_start []) in
          Done (match r with
                | Err err => failed_at search_schema "search failed: cannot read file" shown err
                | Ok st => search_report t canonical (search_counted st 1 0)
                end)
    end.

Definition search_execute (fuel : nat) (t : FsSearchTool) (request : RuntimeJobRequest) : Prog Report :=
  let! r := canonicalize_within_scope_io (search_root t) (target_from_request request) in
  match r with
  | Err err => Done (failed_result search_schema "search failed: path rejected" (path_error_text err))
  | Ok canonical =>
      let path := cp_canonical canonical in
      let allowed_roots := if bool_decide (search_allowed_roots t = []) then [cp_root canonical]
                           else search_allowed_roots t in
      let! kind := path_type path in
      if bool_decide (kind = Some TFile) then search_single fuel t canonical allowed_roots
      else
        let! kind := path_type path in
        if bool_decide (kind = Some TDir)
        then
          let! r := search_recursive fuel (cp_root canonical) (search_pattern t) (search_max_results t)
                      allowed_roots (search_max_file_bytes t) fuel path (search_start [path]) in
          Done (match r with
                | Err err => failed_at search_schema "search failed: cannot traverse directory"
                               (display_path canonical) err
                | Ok st => search_report t canonical st
                end)
        else Done (search_report t canonical (search_start []))
  end.
