(* ===== verification/ReadToolLaws.v ===== *)
(** * ReadToolLaws: buffered reading, and what [fs.list], [fs.stat], [fs.read] and [fs.diff] report *)
From S2P Require Import Prelude Text Domain StoreTypes Settings Truncation Runtime.
From S2P Require Import ManifestCheck Packages Paths Tools ScopeGuarantees ToolText ToolTextLaws.
From S2P Require Import WindowLaws FileOps MutationTools MutationLaws.
From S2P Require Import WriteLaws ReadTools.

(** * Reading through a buffer is reading the file

    On a disk that no one else changes, the buffered loops of [ReadTools] answer
    what the algorithms of [ToolText] answer on the bytes of the file, and their
    bounds are enough. *)

(** ** Reading a line in pieces *)

Lemma read_until_parts n l p r : read_until n l = (p, r) → l = p ++ r.
Proof. intros E. by apply read_until_spec in E as [-> _]. Qed.
Lemma read_until_length n l p r : read_until n l = (p, r) → (N.of_nat (length p) ≤ n)%N.
Proof.
  revert n p r. induction l as [|c l IH]; intros n p r; simpl; [intros [= <- <-]; simpl; lia|].
  destruct (N.eqb_spec n 0); [intros [= <- <-]; simpl; lia|]. destruct (is_lf c); [intros [= <- <-]; simpl; lia|].
  destruct (read_until (n - 1) l) as [p' r'] eqn:E. intros [= <- <-]. apply IH in E. simpl. lia.
Qed.
Lemma read_until_zero l : read_until 0 l = ([], l).
Proof. by destruct l. Qed.
(** A line that goes on in the next buffer. *)
Lemma read_until_app n b d p r :
  read_until n b = (p, r) →
  read_until n (b ++ d) =
    if ended_with_newline p then (p, r ++ d)
    else let '(p', r') := read_until (n - N.of_nat (length p)) (r ++ d) in (p ++ p', r').
Proof.
  revert n p r. induction b as [|c b IH]; intros n p r; simpl.
  - intros [= <- <-]. simpl. rewrite N.sub_0_r. by destruct (read_until n d).
  - destruct (N.eqb_spec n 0) as [->|Hn].
    + intros [= <- <-]. reflexivity.
    + destruct (is_lf c) eqn:Hc; [intros [= <- <-]|].
      * unfold is_lf in Hc. apply bool_decide_eq_true in Hc as ->. reflexivity.
      * destruct (read_until (n - 1) b) as [p' r'] eqn:E. intros [= <- <-]. rewrite (IH _ _ _ E). clear IH E.
        assert (He : ended_with_newline (c :: p') = ended_with_newline p').
        { unfold ended_with_newline. destruct p'; [|done]. simpl. apply bool_decide_eq_false.
          intros [= ->]. unfold is_lf in Hc. by rewrite bool_decide_eq_false in Hc. }
        rewrite He. destruct (ended_with_newline p'); [done|]. simpl length.
        replace (n - N.of_nat (S (length p')))%N with (n - 1 - N.of_nat (length p'))%N by lia.
        by destruct (read_until _ (r' ++ d)).
Qed.
Lemma read_until_enough n l : (N.of_nat (length l) ≤ n)%N → read_until n l = read_until (N.of_nat (length l)) l.
Proof.
  revert n. induction l as [|c l IH]; intros n Hn; [done|]. cbn [read_until length] in *.
  destruct (N.eqb_spec n 0); [lia|]. destruct (N.eqb_spec (N.of_nat (S (length l))) 0); [lia|].
  destruct (is_lf c); [done|]. replace (N.of_nat (S (length l)) - 1)%N with (N.of_nat (length l)) by lia.
  by rewrite (IH (n - 1)%N) by lia.
Qed.

Definition line_limit (limit : option N) (rest : bytes) : N := default (N.of_nat (length rest)) limit.

(** ** A round only passes on the bytes that are left *)

Definition passing (rest : bytes) (r : Round) : Round :=
  match r with Continue st _ => Continue st rest | _ => r end.
Lemma append_line_rest lim st by_scan line newline_bytes rest rest' :
  append_line lim st by_scan line newline_bytes rest' = passing rest' (append_line lim st by_scan line newline_bytes rest).
Proof. unfold append_line. cbv zeta. by repeat case_match. Qed.
Lemma window_line_rest lim st piece more rest rest' :
  window_line lim st piece more rest' = passing rest' (window_line lim st piece more rest).
Proof.
  unfold window_line. destruct (line_of piece) as [l n]. case_match; [by case_match|].
  destruct (line_text _ l); [|done]. apply append_line_rest.
Qed.
Lemma passing_twice rest rest' r : passing rest (passing rest' r) = passing rest r.
Proof. by destruct r. Qed.
Lemma append_line_scanned lim st by_scan line newline_bytes rest st' rest' :
  append_line lim st by_scan line newline_bytes rest = Continue st' rest' →
  ws_scanned_bytes st' = ws_scanned_bytes st.
Proof. unfold append_line. cbv zeta. by repeat case_match; try done; intros [= <- _]. Qed.
Lemma window_line_scanned lim st piece more rest st' rest' :
  window_line lim st piece more rest = Continue st' rest' →
  ws_scanned_bytes st' = (ws_scanned_bytes st + N.of_nat (length piece))%N.
Proof.
  unfold window_line. destruct (line_of piece) as [l n]. case_match.
  - case_match; [done|]. by intros [= <- _].
  - destruct (line_text _ l); [|done]. by intros ->%append_line_scanned.
Qed.
Lemma window_full_more lim st more more' w :
  window_full lim st more = Some w → is_Some (window_full lim st more').
Proof. unfold window_full. repeat case_match; done || by eexists. Qed.
Lemma scan_cut_false lim st piece more rest :
  scan_cut lim st piece = false → window_line lim st piece more rest = window_line lim st piece false rest.
Proof. intros E. unfold window_line. by rewrite E. Qed.

Section Reader.
Context {os : Os} `{!PosixLaws os}.

(** The bytes of the file that are still to come. *)
Definition reader (w : World) (fd : Fd) (rest buffer : bytes) : Prop :=
  ∃ h n, w_handles w !! fd = Some h ∧ w_nodes w !! h_inode h = Some n ∧
         rest = buffer ++ drop (h_offset h) (n_data n).
(** Reading from an open file does not fail. *)
Definition reads_succeed (w0 : World) : Prop :=
  ∀ w fd h n limit e w', still w0 w → w_handles w !! fd = Some h → w_nodes w !! h_inode h = Some n →
    ¬ os_step (ReadSome fd limit) w (Err e) w'.

Context (w0 : World) (Hreads : reads_succeed w0).

Lemma fill_buf_spec fd rest buffer w :
  still w0 w → reader w fd rest buffer →
  alone (fill_buf fd buffer)
    (λ r w', still w0 w' ∧ ∃ b, r = Ok b ∧ reader w' fd rest b ∧ is_nonempty b = is_nonempty rest) w.
Proof.
  intros Hw Hr. unfold fill_buf. destruct (is_nonempty buffer) eqn:Hb.
  { split; [done|]. exists buffer. split_and!; [done..|]. rewrite Hb. destruct Hr as (? & ? & _ & _ & ->).
    unfold is_nonempty in *. apply negb_true_iff, bool_decide_eq_false in Hb. symmetry.
    apply negb_true_iff, bool_decide_eq_false. by destruct buffer. }
  destruct Hr as (h & n & Hh & Hn & ->). unfold is_nonempty in Hb.
  apply negb_false_iff, bool_decide_eq_true in Hb as ->. simpl app.
  apply wp_call. intros w1 r w2 <- Hs. split; [done|].
  destruct r as [data|e]; [|by eapply Hreads in Hs].
  pose proof (posix_reading _ _ _ _ _ (I : reading _ (ReadSome fd BUFFER)) (documented _ _ _ _ Hs)) as Hst.
  apply documented in Hs. simpl in Hs. destruct Hs as (h' & n' & Hh' & Hn' & _ & [tail Hd] & Heof & ->).
  simplify_eq. split; [by etrans|]. exists data. split; [done|]. split.
  - eexists _, n. simpl. rewrite lookup_insert_eq. split_and!; [done..|]. simpl.
    rewrite <- drop_drop, Hd. by rewrite drop_app_length.
  - rewrite Hd. unfold is_nonempty. f_equal. apply bool_decide_ext. rewrite Hd in Heof. split; [|by destruct data].
    intros ->. by apply Heof.
Qed.

Lemma read_until_io_spec fuel fd limit line rest buffer w p r :
  still w0 w → reader w fd rest buffer →
  match limit with Some n => N.to_nat n < fuel | None => length rest < fuel end →
  read_until (line_limit limit rest) rest = (p, r) →
  alone (read_until_io fuel fd limit line buffer)
    (λ res w', still w0 w' ∧ ∃ b, res = Ok (line ++ p, b) ∧ reader w' fd r b) w.
Proof.
  revert limit line rest buffer w p r. induction fuel as [|fuel IH]; intros limit line rest buffer w p r Hw Hr Hf E;
    [by destruct limit; lia|]. cbn [read_until_io]. case_bool_decide as Hz.
  { subst limit. unfold line_limit in E. simpl in E. rewrite read_until_zero in E. simplify_eq.
    rewrite app_nil_r. split; [done|]. by exists buffer. }
  apply wp_try. eapply wp_mono; [|by apply fill_buf_spec]. intros res w1 (Hw1 & b & -> & Hr1 & Hne).
  destruct Hr1 as (h & n & Hh & Hn & ->). set (d := drop _ _) in *.
  destruct (read_until (default _ limit) b) as [p1 r1] eqn:Eb.
  assert (Eb' : read_until (line_limit limit (b ++ d)) b = (p1, r1)).
  { destruct limit as [m|]; [done|]. unfold line_limit. simpl in *.
    rewrite read_until_enough; [done|]. rewrite length_app. lia. }
  pose proof (read_until_app _ b d _ _ Eb') as Happ. rewrite E in Happ. clear E.
  assert (Hreader : reader w1 fd (r1 ++ d) r1) by by exists h, n.
  destruct (ended_with_newline p1) eqn:Hend.
  { rewrite orb_true_r. injection Happ as -> ->. split; [done|]. by exists r1. }
  destruct (read_until _ (r1 ++ d)) as [p' r'] eqn:E'. injection Happ as -> ->. rewrite orb_false_r.
  pose proof (read_until_parts _ _ _ _ Eb) as Hparts. pose proof (read_until_length _ _ _ _ Eb') as Hlen.
  destruct (is_nonempty p1) eqn:Hp1; simpl negb.
  - cbn [negb]. assert (p1 ≠ []) as Hp1' by by intros ->.
    assert (1 ≤ length p1) by (destruct p1; [done|simpl; lia]).
    eapply wp_mono; [|eapply (IH _ _ (r1 ++ d)); [done|exact Hreader| |]].
    + intros res w2 (? & b2 & -> & ?). split; [done|]. exists b2. by rewrite <- (assoc_L (++)).
    + destruct limit as [m|]; simpl in *; [lia|]. subst b. rewrite !length_app in *. lia.
    + destruct limit as [m|]; [exact E'|]. unfold line_limit in *. simpl in *. subst b.
      rewrite <- E'. symmetry. apply read_until_enough. rewrite !length_app. lia.
  - assert (p1 = []) as -> by (unfold is_nonempty in Hp1; by apply negb_false_iff, bool_decide_eq_true in Hp1).
    assert (b = []) as ->.
    { destruct b as [|c b]; [done|]. simpl in Eb. destruct (N.eqb_spec (default (N.of_nat (S (length b))) limit) 0) as [H0|_].
      - destruct limit as [m|]; simpl in H0; [by subst|lia].
      - destruct (is_lf c); [done|]. by destruct (read_until _ b). }
    assert (d = []) as Hd by (destruct d; [done|done]). simpl in Eb. injection Eb as <-.
    rewrite Hd in *. simpl in E'. injection E' as <- <-. split; [done|]. by exists [].
Qed.
(** ** The read window *)

(** What a round answers, with the bytes that are left in the buffer. *)
Definition round_of (fd : Fd) (pure : Round) (res : io Round) (w : World) : Prop :=
  match pure with
  | Continue st rest => ∃ b, res = Ok (Continue st b) ∧ reader w fd rest b
  | _ => res = Ok pure
  end.

Lemma window_round_io_spec fuel lim fd st rest buffer w :
  still w0 w → reader w fd rest buffer →
  N.to_nat (lim_max_scan_bytes lim - ws_scanned_bytes st) < fuel →
  alone (window_round_io fuel lim fd st buffer)
    (λ res w', still w0 w' ∧ round_of fd (window_round lim st rest) res w') w.
Proof.
  intros Hw Hr Hf. unfold window_round_io, window_round. destruct (window_full lim st true) as [x|] eqn:Hfull.
  { destruct (window_full_more _ _ _ (is_nonempty rest) _ Hfull) as [w1 Hw1]. rewrite Hw1.
    apply wp_try. eapply wp_mono; [|by apply fill_buf_spec]. intros res w2 (? & b & -> & _ & ->).
    split; [done|]. by rewrite Hw1. }
  destruct (window_full lim st (is_nonempty rest)) as [x|] eqn:Hfull'.
  { by destruct (window_full_more _ _ _ true _ Hfull') as [? ?]; congruence. }
  destruct (read_until _ rest) as [piece rest'] eqn:E. apply wp_try.
  eapply wp_mono; [|by apply (read_until_io_spec _ _ (Some _) [] rest)].
  intros res w1 (Hw1 & b & -> & Hr1). simpl app. case_bool_decide; [done|].
  destruct (scan_cut lim st piece) eqn:Hcut.
  - apply wp_try. eapply wp_mono; [|by apply fill_buf_spec]. intros res w2 (? & b2 & -> & Hr2 & ->).
    split; [done|]. rewrite (window_line_rest _ _ _ _ rest' b2), (window_line_rest _ _ _ _ rest' rest').
    destruct (window_line lim st piece _ rest'); simpl; [by exists b2|done..].
  - split; [done|]. rewrite (scan_cut_false _ _ _ (is_nonempty rest')) by done.
    rewrite (window_line_rest _ _ _ _ rest' b), (window_line_rest _ _ _ _ rest' rest').
    destruct (window_line lim st piece _ rest'); simpl; [by exists b|done..].
Qed.

Lemma window_round_progress lim st rest st' rest' :
  window_round lim st rest = Continue st' rest' →
  (ws_scanned_bytes st < lim_max_scan_bytes lim ∧ ws_scanned_bytes st < ws_scanned_bytes st')%N.
Proof.
  unfold window_round. destruct (window_full _ _ _) eqn:Hfull; [done|]. apply window_full_None in Hfull as [? _].
  destruct (read_until _ rest) as [piece r]. case_bool_decide as Hp; [done|]. intros E%window_line_scanned.
  destruct piece; [done|]. rewrite E. simpl. lia.
Qed.

Lemma window_loop_io_spec fuel lim fd st rest buffer w pfuel answer :
  still w0 w → reader w fd rest buffer →
  N.to_nat (lim_max_scan_bytes lim - ws_scanned_bytes st) < fuel →
  window_loop pfuel lim st rest = Some answer →
  alone (window_loop_io fuel lim fd st buffer)
    (λ res w', still w0 w' ∧ res = map_err window_error answer) w.
Proof.
  revert st rest buffer w pfuel. induction fuel as [|fuel IH]; intros st rest buffer w pfuel Hw Hr Hf E; [lia|].
  cbn [window_loop_io]. destruct pfuel as [|pfuel]; [done|]. cbn [window_loop] in E. apply wp_try.
  eapply wp_mono; [|by apply window_round_io_spec]. intros res w1 [Hw1 Hres].
  destruct (window_round lim st rest) as [st' rest'|win|e] eqn:Hround; simpl in Hres.
  - destruct Hres as (b & -> & Hb). apply window_round_progress in Hround. eapply IH; [done..| |done]. lia.
  - subst res. by injection E as <-.
  - subst res. by injection E as <-.
Qed.

Lemma read_text_window_io_spec lim fd rest w :
  still w0 w → reader w fd rest [] →
  alone (read_text_window_io fd lim)
    (λ res w', still w0 w' ∧ ∃ answer, read_text_window rest lim = Some answer ∧ res = map_err window_error answer) w.
Proof.
  intros Hw Hr. destruct (read_text_window rest lim) as [answer|] eqn:E.
  2:{ by destruct (read_text_window_ends rest lim); congruence. }
  eapply wp_mono; [|eapply window_loop_io_spec; [done..| |exact E]]; [|simpl; lia].
  intros res w1 [? ->]. eauto.
Qed.
End Reader.

(** * What [fs.list], [fs.stat], [fs.read] and [fs.diff] report *)

(** ** A disk at rest *)

(** What the calls by path answer while nothing changes on the disk. *)
Record Tree := {
  tr_canonicalize : string → io string;
  tr_metadata : string → io Metadata;
  tr_symlink_metadata : string → io Metadata;
  tr_entries : string → io (list (io DirEntry));
  (** the file that opens, without following a last link if so asked *)
  tr_open : string → bool → io Inode;
  tr_fd_path : Inode → io string
}.
(** The system answers as the tree does in every state with the names and files
    of [w0], and does not fail on open files. *)
Record shows (os : Os) (w0 : World) (tr : Tree) : Prop := {
  shows_canonicalize w p r w' : still w0 w → os_step (Canonicalize p) w r w' → r = tr_canonicalize tr p;
  shows_metadata w p r w' : still w0 w → os_step (PathMetadata p) w r w' → r = tr_metadata tr p;
  shows_symlink_metadata w p r w' :
    still w0 w → os_step (SymlinkMetadata p) w r w' → r = tr_symlink_metadata tr p;
  shows_entries w p r w' : still w0 w → os_step (ReadDir p) w r w' → r = tr_entries tr p;
  shows_open w p nf r w' : still w0 w → os_step (OpenFile p nf) w r w' →
    match tr_open tr p nf with
    | Ok i => ∃ fd, r = Ok fd ∧ opens w fd i w'
    | Err e => r = Err e
    end;
  shows_fd_path w fd i r w' : still w0 w → opened w fd i → os_step (FdPath fd) w r w' → r = tr_fd_path tr i;
  shows_reads : reads_succeed (os := os) w0;
  shows_stats w fd i n e w' :
    still w0 w → opened w fd i → w_nodes w !! i = Some n → ¬ os_step (Fstat fd) w (Err e) w'
}.
(** The answers the daemon checks a request with. *)
Definition tree_fs (tr : Tree) : FileSystem := {|
  fs_canonicalize p := map_err (λ e, {| io_not_found := is_kind KNotFound e; io_text := msg (oe_text e) |})
                         (tr_canonicalize tr p);
  fs_is_symlink p :=
    match tr_symlink_metadata tr p with
    | Ok m => Ok (bool_decide (md_type m = TSymlink))
    | Err e => Err {| io_not_found := is_kind KNotFound e; io_text := msg (oe_text e) |}
    end;
  fs_is_dir p := match tr_metadata tr p with Ok m => is_dir m | Err _ => false end;
  fs_exists p := match tr_metadata tr p with Ok _ => true | Err _ => false end |}.

(** The text of a whole file, if it is within the limit. *)
Definition whole_text (data : bytes) (max_bytes : N) : io string :=
  if (max_bytes <? N.of_nat (length data))%N
  then Err (io_error KFileTooLarge "file exceeds configured byte limit")
  else map_err (λ e, io_error KInvalidData ("invalid UTF-8 content: " +:+ utf8_error_text e)) (from_utf8 data).

Section Rest.
Context {os : Os} `{!PosixLaws os} (w0 : World) (tr : Tree) (Hshows : shows os w0 tr).

Lemma rest_call {R} (c : Sys R) (Q : R → World → Prop) w :
  still w0 w → reading R c → (∀ r w', os_step c w r w' → still w0 w' → Q r w') → alone (call c) Q w.
Proof.
  intros Hw Hc HQ. apply wp_call. intros w1 r w2 <- Hs. split; [done|]. apply HQ; [done|].
  etrans; [done|]. eapply posix_reading; [done|by apply documented].
Qed.

Ltac at_rest := apply rest_call; [assumption|exact I|].

Lemma rest_resolve root rel w :
  still w0 w →
  alone (canonicalize_within_scope_io root rel)
    (λ r w', still w0 w' ∧ r = canonicalize_within_scope (tree_fs tr) root rel) w.
Proof.
  intros Hw. unfold canonicalize_within_scope_io, canonicalize_within_scope, canonicalize_or, pbind.
  apply wp_bind, wp_bind. at_rest. intros r w1 Hs Hw1.
  apply (shows_canonicalize _ _ _ Hshows _ _ _ _ Hw) in Hs as ->. cbn [wp].
  unfold tree_fs at 1. cbn [fs_canonicalize]. destruct (tr_canonicalize tr root) as [cr|e]; cbn [map_err]; [|done].
  apply wp_bind, wp_bind. at_rest. intros r w2 Hs Hw2.
  apply (shows_canonicalize _ _ _ Hshows _ _ _ _ Hw1) in Hs as ->.
  cbn [wp]. unfold tree_fs. cbn [fs_canonicalize]. by destruct (tr_canonicalize tr (target_of cr rel)).
Qed.

(** ** Opening and reading *)

(** The regular file a resolved path opens, checked to be inside the root. *)
Definition opens_in_scope (c : CanonicalPath) (n : Node) : Prop :=
  ∃ i q, tr_open tr (cp_canonical c) true = Ok i ∧ tr_fd_path tr i = Ok q ∧
         path_starts_with q (cp_root c) = true ∧ w_nodes w0 !! i = Some n.

Definition at_start (w : World) (fd : Fd) (i : Inode) : Prop :=
  w_handles w !! fd = Some {| h_inode := i; h_offset := 0 |}.
Lemma opens_at_start w fd i w' : opens w fd i w' → at_start w' fd i.
Proof. intros [_ ->]. unfold at_start. simpl. by rewrite lookup_insert_eq. Qed.
Lemma opens_unique c n n' : opens_in_scope c n → opens_in_scope c n' → n = n'.
Proof. intros (i & ? & ? & ? & ? & ?) (j & ? & ? & ? & ? & ?). assert (j = i) as -> by congruence. congruence. Qed.

Lemma rest_open c w :
  still w0 w →
  alone (open_canonical_file_within_scope c)
    (λ r w', still w0 w' ∧
       match r with
       | Ok fd => ∃ i n, at_start w' fd i ∧ w_nodes w' !! i = Some n ∧ opens_in_scope c n
       | Err _ => ∀ n, ¬ opens_in_scope c n
       end) w.
Proof.
  intros Hw. unfold open_canonical_file_within_scope. apply wp_try. at_rest. intros r w1 Hs Hw1.
  pose proof (shows_open _ _ _ Hshows _ _ _ _ _ Hw Hs) as Ho. apply documented in Hs. simpl in Hs.
  destruct (tr_open tr (cp_canonical c) true) as [i|e] eqn:Eo.
  2:{ subst r. split; [done|]. intros n (? & ? & ? & _). congruence. }
  destruct Ho as (fd & -> & Ho). destruct Hs as (i' & [n Hn] & Ho').
  assert (i' = i) as -> by (apply opens_at_start in Ho, Ho'; unfold at_start in *; congruence).
  apply wp_try. at_rest. intros r w2 Hs Hw2. pose proof Hs as Hp. apply documented in Hp. simpl in Hp. subst w2.
  apply (shows_fd_path _ _ _ Hshows _ _ i _ _ Hw1) in Hs as ->; [|by eapply opened_calm].
  assert (Hn0 : w_nodes w0 !! i = Some n) by (by rewrite <- (still_nodes _ _ Hw)).
  destruct (tr_fd_path tr i) as [q|e] eqn:Eq.
  2:{ split; [done|]. intros m (? & ? & ? & ? & _). congruence. }
  destruct (path_starts_with q (cp_root c)) eqn:Eroot; split; try done.
  - exists i, n. split_and!; [by eapply opens_at_start|by rewrite (still_nodes _ _ Hw1)|]. by exists i, q.
  - intros m (? & ? & ? & ? & ? & _). congruence.
Qed.

Lemma rest_read_loop fuel fd i n off max content w :
  still w0 w → w_handles w !! fd = Some {| h_inode := i; h_offset := off |} → w_nodes w !! i = Some n →
  off ≤ length (n_data n) → content = take off (n_data n) → off ≤ N.to_nat max → N.to_nat max - off + 1 < fuel →
  alone (read_loop fuel fd max content)
    (λ r w', still w0 w' ∧
       r = if (max <? N.of_nat (length (n_data n)))%N
           then Err (io_error KFileTooLarge "file exceeds configured byte limit") else Ok (n_data n)) w.
Proof.
  revert off content w. induction fuel as [|fuel IH]; intros off content w Hw Hh Hn Hoff -> Hmax Hf; [lia|].
  cbn [read_loop]. apply wp_try. at_rest. intros [data|e] w1 Hs Hw1.
  2:{ by eapply (shows_reads _ _ _ Hshows) in Hs. }
  apply documented in Hs. simpl in Hs. destruct Hs as (h & m & Hh' & Hm & _ & [rest Hrest] & Heof & ->).
  rewrite Hh in Hh'. injection Hh' as <-. cbn [h_inode h_offset] in *. rewrite Hn in Hm. injection Hm as <-.
  assert (Hlen : off + length data ≤ length (n_data n)).
  { apply (f_equal length) in Hrest. rewrite length_drop, length_app in Hrest. lia. }
  case_bool_decide as Hdata.
  { specialize (Heof ltac:(done) Hdata). assert (length (n_data n) ≤ off) by by apply drop_nil_inv.
    split; [done|]. destruct (N.ltb_spec max (N.of_nat (length (n_data n)))); [lia|].
    by rewrite take_ge. }
  assert (1 ≤ length data) by (destruct data; [done|simpl; lia]).
  rewrite length_app, length_take, Nat.min_l by done.
  destruct (N.ltb_spec max (N.of_nat (off + length data))).
  { split; [done|]. destruct (N.ltb_spec max (N.of_nat (length (n_data n)))); [done|lia]. }
  eapply (IH (off + length data)); [done| |done|lia| |lia|lia].
  - simpl. by rewrite lookup_insert_eq.
  - by rewrite <- take_take_drop, Hrest, take_app_length.
Qed.
Lemma rest_read_entire fd i n max w :
  still w0 w → at_start w fd i → w_nodes w !! i = Some n →
  alone (read_entire_text_file_from_open_file fd max) (λ r w', still w0 w' ∧ r = whole_text (n_data n) max) w.
Proof.
  intros Hw Hh Hn. unfold read_entire_text_file_from_open_file, whole_text. apply wp_try.
  eapply wp_mono; [|eapply (rest_read_loop _ _ i n 0); [done..|lia|done|lia|lia]].
  intros r w1 [Hw1 ->]. destruct (N.ltb _ _); by split.
Qed.
Lemma rest_stat fd i n w (Q : io Metadata → World → Prop) :
  still w0 w → at_start w fd i → w_nodes w !! i = Some n →
  (∀ m, is_file m = bool_decide (n_type n = TFile) → md_len m = N.of_nat (length (n_data n)) → Q (Ok m) w) →
  alone (call (Fstat fd)) Q w.
Proof.
  intros Hw Hh Hn HQ. assert (Ho : opened w fd i) by by eexists.
  at_rest. intros r w1 Hs _. destruct r as [m|e].
  2:{ by eapply (shows_stats _ _ _ Hshows _ _ i) in Hs. }
  apply documented in Hs. destruct Hs as [-> (j & Hj & n' & Hn' & _ & Ht & Hl & _)].
  assert (j = i) as -> by (destruct Hj as (? & ? & <-); unfold at_start in Hh; by simplify_eq).
  simplify_eq. apply HQ; [|done]. unfold is_file. by rewrite Ht.
Qed.
(** ** [fs.read] *)

(** What a read of a resolved path shows. *)
Definition read_from (t : FsReadTool) (c : CanonicalPath) (n : Node) (win : ReadWindow) : Prop :=
  opens_in_scope c n ∧ n_type n = TFile ∧
  (∀ limit, read_max_file_bytes t = Some limit → (N.of_nat (length (n_data n)) ≤ limit)%N) ∧
  read_text_window (n_data n) (read_limits t) = Some (Ok win).

Lemma rest_read_opened t c fd i n w :
  still w0 w → at_start w fd i → w_nodes w !! i = Some n → opens_in_scope c n →
  alone (read_opened t (RepositoryTarget c) fd)
    (λ report w', still w0 w' ∧
       ((∃ m win, read_from t c n win ∧ md_len m = N.of_nat (length (n_data n)) ∧
                  report = read_report t (RepositoryTarget c) m win) ∨
        (report_status report = TrFailed ∧ ∀ win, ¬ read_from t c n win))) w.
Proof.
  intros Hw Hh Hn Hc. unfold read_opened. apply wp_bind. eapply rest_stat; [done..|]. intros m Hf Hl. rewrite Hf, Hl.
  case_bool_decide as Hty; cbn [negb].
  2:{ split; [done|]. right. split; [done|]. by intros win (_ & ? & _). }
  destruct (match read_max_file_bytes t with Some _ => _ | None => None end) as [report|] eqn:Hlarge.
  { split; [done|]. right. destruct (read_max_file_bytes t) as [limit|] eqn:El; [|done].
    destruct (N.ltb_spec limit (N.of_nat (length (n_data n)))); [|done]. injection Hlarge as <-. split; [done|].
    intros win (_ & _ & Hle & _). specialize (Hle limit El). lia. }
  assert (Hle : ∀ limit, read_max_file_bytes t = Some limit → (N.of_nat (length (n_data n)) ≤ limit)%N).
  { intros limit El. rewrite El in Hlarge. by destruct (N.ltb_spec limit (N.of_nat (length (n_data n)))). }
  apply wp_bind. eapply wp_mono; [|apply (read_text_window_io_spec w0 (shows_reads _ _ _ Hshows) _ _ (n_data n)); [done|]].
  2:{ eexists _, n. split_and!; [exact Hh|done|]. cbn [h_offset]. by rewrite drop_0. }
  intros r w1 (Hw1 & answer & Ha & ->). split; [done|]. destruct answer as [win|e]; cbn [map_err].
  - left. exists m, win. by split_and!.
  - right. split; [done|]. intros win (_ & _ & _ & E). congruence.
Qed.

Lemma rest_read_execute `{UuidLib} store t invocation request w :
  still w0 w → is_artifact_scope request = false →
  alone (read_execute store t invocation request)
    (λ report w', still w0 w' ∧
       let resolved := canonicalize_within_scope (tree_fs tr) (read_root t) (target_from_request request) in
       ((∃ c n m win, resolved = Ok c ∧ read_from t c n win ∧ md_len m = N.of_nat (length (n_data n)) ∧
                      report = read_report t (RepositoryTarget c) m win) ∨
        (report_status report = TrFailed ∧ ∀ c n win, resolved = Ok c → ¬ read_from t c n win))) w.
Proof.
  intros Hw Ha. unfold read_execute, resolve_target_for_request. rewrite Ha.
  apply wp_bind, wp_bind. eapply wp_mono; [|by apply rest_resolve]. intros r w1 [Hw1 ->]. cbn [wp].
  destruct (canonicalize_within_scope _ _ _) as [c|e] eqn:Er; cbn [wp].
  2:{ split; [done|]. right. by split. }
  apply wp_bind. cbn [open_read_target]. eapply wp_mono; [|by apply rest_open]. intros [fd|e] w2 [Hw2 Ho].
  - destruct Ho as (i & n & Hh & Hn & Hc). eapply wp_mono; [|by apply (rest_read_opened t c fd i n)].
    intros report w3 [Hw3 [(m & win & Hr & Hm & ->)|[Hs Hno]]]; (split; [done|]).
    + left. by exists c, n, m, win.
    + right. split; [done|]. intros c' n' win [= <-] Hr. assert (n' = n) as -> by (eapply opens_unique; [apply Hr|done]).
      by eapply Hno.
  - split; [done|]. right. split; [done|]. intros c' n win [= <-] (Hc & _). by eapply Ho.
Qed.

(** ** [fs.diff] *)

Definition text_of (t : FsDiffTool) (c : CanonicalPath) (s : string) : Prop :=
  ∃ n, opens_in_scope c n ∧ n_type n = TFile ∧ whole_text (n_data n) (diff_max_bytes t) = Ok s.
Lemma text_of_unique t c s s' : text_of t c s → text_of t c s' → s = s'.
Proof. intros (n & Hc & _ & ?) (n' & Hc' & _ & ?). rewrite (opens_unique c n n') in * by done. congruence. Qed.

Lemma rest_read_text t c w :
  still w0 w →
  alone (read_canonical_text_file c (diff_max_bytes t))
    (λ r w', still w0 w' ∧ match r with Ok s => text_of t c s | Err _ => ∀ s, ¬ text_of t c s end) w.
Proof.
  intros Hw. unfold read_canonical_text_file. apply wp_try. eapply wp_mono; [|by apply rest_open].
  intros [fd|e] w1 [Hw1 Ho].
  2:{ split; [done|]. intros s (n & Hc & _). by eapply Ho. }
  destruct Ho as (i & n & Hh & Hn & Hc). apply wp_try. eapply rest_stat; [done..|]. intros m Hf _. rewrite Hf.
  case_bool_decide as Hty; cbn [negb].
  2:{ split; [done|]. intros s (n' & Hc' & ? & _). by rewrite (opens_unique c n n') in Hty. }
  eapply wp_mono; [|by eapply rest_read_entire]. intros r w2 [Hw2 ->]. split; [done|].
  destruct (whole_text _ _) as [s|e] eqn:E; [by exists n|]. intros s (n' & Hc' & _ & Hs).
  rewrite (opens_unique c n n') in E by done. congruence.
Qed.

Lemma rest_diff_execute t request w :
  still w0 w →
  alone (diff_execute t request)
    (λ report w', still w0 w' ∧
       let resolve := canonicalize_within_scope (tree_fs tr) (diff_root t) in
       let compares c c' s s' := resolve (target_from_request request) = Ok c ∧
         resolve (diff_comparison_path t) = Ok c' ∧ text_of t c s ∧ text_of t c' s' in
       ((∃ c c' s s', compares c c' s s' ∧ report = diff_report t c c' s s') ∨
        (report_status report = TrFailed ∧ ∀ c c' s s', ¬ compares c c' s s'))) w.
Proof.
  intros Hw. unfold diff_execute, resolve_diff_paths_io, pbind. apply wp_bind, wp_bind.
  eapply wp_mono; [|by apply rest_resolve]. intros r w1 [Hw1 ->].
  destruct (canonicalize_within_scope _ _ (target_from_request _)) as [c|e] eqn:Ec; cbn [wp].
  2:{ split; [done|]. right. split; [done|]. by intros ? ? ? ? (? & _). }
  apply wp_bind. eapply wp_mono; [|by apply rest_resolve]. intros r w2 [Hw2 ->].
  destruct (canonicalize_within_scope _ _ (diff_comparison_path t)) as [c'|e] eqn:Ec'; cbn [wp].
  2:{ split; [done|]. right. split; [done|]. by intros ? ? ? ? (? & ? & _). }
  apply wp_bind. eapply wp_mono; [|by apply rest_read_text]. intros [s|e] w3 [Hw3 Hs].
  2:{ split; [done|]. right. split; [done|]. intros ? ? ? ? ([= <-] & ? & ? & _). by eapply Hs. }
  apply wp_bind. eapply wp_mono; [|by apply rest_read_text]. intros [s'|e] w4 [Hw4 Hs']; (split; [done|]).
  - left. by exists c, c', s, s'.
  - right. split; [done|]. intros ? ? ? ? (_ & [= <-] & _ & ?). by eapply Hs'.
Qed.
End Rest.

(** ** [fs.list] *)

(** What is known of the kind of an entry. *)
Definition entry_kind (entry : DirEntry) : option FileType :=
  match de_file_type entry with
  | Ok ft => Some ft
  | Err _ => match de_metadata entry with Ok m => Some (md_type m) | Err _ => None end
  end.
Definition count_kind (k : FileType) (entries : list DirEntry) : N :=
  N.of_nat (length (List.filter (λ e, bool_decide (entry_kind e = Some k)) entries)).
Lemma list_entry_foldl entries acc :
  let l := foldl list_entry acc entries in
  ls_names l = ls_names acc ++ map (to_string_lossy ∘ de_name) entries ∧
  ls_files l = (ls_files acc + count_kind TFile entries)%N ∧ ls_dirs l = (ls_dirs acc + count_kind TDir entries)%N ∧
  (ls_files l + ls_dirs l + ls_unknown l =
   ls_files acc + ls_dirs acc + ls_unknown acc + N.of_nat (length entries))%N.
Proof.
  revert acc. induction entries as [|e entries IH]; intros acc.
  { unfold count_kind. simpl. rewrite app_nil_r. split_and!; [done|lia..]. }
  cbv zeta in IH |- *. cbn [foldl map]. destruct (IH (list_entry acc e)) as (-> & -> & -> & Hsum).
  unfold count_kind in *. cbn [List.filter length].
  unfold list_entry in *. fold (entry_kind e) in *. cbn [ls_names ls_files ls_dirs ls_unknown] in *.
  split; [by rewrite <- (assoc_L (++))|].
  destruct (entry_kind e) as [[]|]; simpl in *; split_and!; lia.
Qed.

Section Tools.
Context {os : Os} `{!PosixLaws os} (w0 : World) (tr : Tree) (Hshows : shows os w0 tr).
Lemma rest_list_execute t request w :
  still w0 w →
  alone (list_execute t request)
    (λ report w', still w0 w' ∧
       ((∃ c entries, canonicalize_within_scope (tree_fs tr) (list_root t) (target_from_request request) = Ok c ∧
           tr_entries tr (cp_canonical c) = Ok entries ∧ report = list_report c (list_entries entries)) ∨
        (report_status report = TrFailed ∧ ∀ c entries,
           canonicalize_within_scope (tree_fs tr) (list_root t) (target_from_request request) = Ok c →
           tr_entries tr (cp_canonical c) ≠ Ok entries))) w.
Proof.
  intros Hw. unfold list_execute. apply wp_bind. eapply wp_mono; [|by apply (rest_resolve w0 tr Hshows)].
  intros r w1 [Hw1 ->]. destruct (canonicalize_within_scope _ _ _) as [c|e] eqn:Ec.
  2:{ split; [done|]. right. by split. }
  apply wp_bind. apply (rest_call w0); [done|exact I|]. intros r w2 Hs Hw2.
  apply (shows_entries _ _ _ Hshows _ _ _ _ Hw1) in Hs as ->. split; [done|].
  destruct (tr_entries tr _) as [entries|e] eqn:Ee; [left; eauto|]. right. split; [done|].
  intros c' entries [= <-]. congruence.
Qed.
End Tools.

(** C22: [fs.read] shows the file.  On a disk at rest a run of [fs.read] on a path
    of the repository changes nothing.  It succeeds exactly when the path resolves
    inside the root, the file that opens is a regular file that the kernel still
    places inside the root, within the size limit, and the window of its bytes is
    text; it then reports that window, as [read_text_window] computes it on the
    bytes of the file, with the size of the file. *)
Theorem fs_read_exact (os : Os) (Hos : PosixLaws os) w0 tr `{UuidLib} store t invocation request w report :
  shows os w0 tr → is_artifact_scope request = false →
  steps eq (w0, read_execute store t invocation request) (w, Done report) →
  let resolved := canonicalize_within_scope (tree_fs tr) (read_root t) (target_from_request request) in
  still w0 w ∧
  ((∃ c n m win, resolved = Ok c ∧ read_from w0 tr t c n win ∧ md_len m = N.of_nat (length (n_data n)) ∧
                 report = read_report t (RepositoryTarget c) m win) ∨
   (report_status report = TrFailed ∧ ∀ c n win, resolved = Ok c → ¬ read_from w0 tr t c n win)).
Proof.
  intros Hsh Ha Hs. refine (proj2 (wp_adequate _ _ _ _ _ (rest_read_execute w0 tr Hsh store t invocation request w0 _ Ha)
    _ _ Hs) _ eq_refl). reflexivity.
Qed.

(** [fs.diff] compares the two files.  On a disk at rest a run of [fs.diff]
    changes nothing; it succeeds exactly when both paths resolve inside the root
    and open regular UTF-8 files inside it within the byte limit, and then reports
    the diff of their texts, cut to the limits. *)
Theorem fs_diff_exact (os : Os) (Hos : PosixLaws os) w0 tr t request w report :
  shows os w0 tr → steps eq (w0, diff_execute t request) (w, Done report) →
  let resolve := canonicalize_within_scope (tree_fs tr) (diff_root t) in
  let compares c c' s s' := resolve (target_from_request request) = Ok c ∧
    resolve (diff_comparison_path t) = Ok c' ∧ text_of w0 tr t c s ∧ text_of w0 tr t c' s' in
  still w0 w ∧
  ((∃ c c' s s', compares c c' s s' ∧ report = diff_report t c c' s s') ∨
   (report_status report = TrFailed ∧ ∀ c c' s s', ¬ compares c c' s s')).
Proof.
  intros Hsh Hs. refine (proj2 (wp_adequate _ _ _ _ _ (rest_diff_execute w0 tr Hsh t request w0 _) _ _ Hs) _ eq_refl).
  reflexivity.
Qed.

(** [fs.list] lists the directory.  On a disk at rest a run of [fs.list] changes
    nothing; it succeeds exactly when the path resolves inside the root to a
    directory that can be listed, and then reports the names of its entries in the
    order of their bytes, and how many of them are files, directories and neither. *)
Theorem fs_list_exact (os : Os) (Hos : PosixLaws os) w0 tr t request w report :
  shows os w0 tr → steps eq (w0, list_execute t request) (w, Done report) →
  let resolved := canonicalize_within_scope (tree_fs tr) (list_root t) (target_from_request request) in
  still w0 w ∧
  ((∃ c entries l, resolved = Ok c ∧ tr_entries tr (cp_canonical c) = Ok entries ∧ report = list_report c l ∧
      ls_names l = map (to_string_lossy ∘ de_name) (flatten_entries entries) ∧
      ls_files l = count_kind TFile (flatten_entries entries) ∧
      ls_dirs l = count_kind TDir (flatten_entries entries) ∧
      (ls_files l + ls_dirs l + ls_unknown l = N.of_nat (length (flatten_entries entries)))%N) ∨
   (report_status report = TrFailed ∧
    ∀ c entries, resolved = Ok c → tr_entries tr (cp_canonical c) ≠ Ok entries)).
Proof.
  intros Hsh Hs resolved.
  destruct (proj2 (wp_adequate _ _ _ _ _ (rest_list_execute w0 tr Hsh t request w0 (reflexivity _)) _ _ Hs) _ eq_refl)
    as [Hw [(c & entries & Hc & He & ->)|Hno]]; (split; [exact Hw|]); [left|right; exact Hno].
  destruct (list_entry_foldl (flatten_entries entries)
    {| ls_names := []; ls_files := 0; ls_dirs := 0; ls_unknown := 0 |}) as (Hn & Hf & Hd & Hsum).
  exists c, entries, (list_entries entries). by split_and!.
Qed.

(** ** Where the reading tools look *)

(** What a run has been told: the canonical roots of the repository, the
    descriptors that the kernel places below one of them, and the path each file
    was opened by. *)
Record Told := { told_roots : list string; told_inside : list Fd; told_files : list (Fd * string) }.
Definition below (roots : list string) (p : string) : Prop :=
  ∃ root, root ∈ roots ∧ path_starts_with p root = true.
Definition is_below (roots : list string) (p : string) : bool :=
  existsb (λ root, path_starts_with p root) roots.
Definition told (repository_root : string) (s : Told) {R} (c : Sys R) : R → Told :=
  match c in Sys R return R → Told with
  | Canonicalize p => λ r,
      match r with
      | Ok q => if bool_decide (p = repository_root)
                then {| told_roots := q :: told_roots s; told_inside := told_inside s; told_files := told_files s |}
                else s
      | Err _ => s
      end
  | OpenFile p _ => λ r,
      match r with
      | Ok fd => {| told_roots := told_roots s;
                    told_inside := List.filter (λ x, negb (x =? fd)%N) (told_inside s);
                    told_files := (fd, p) :: List.filter (λ x, negb (x.1 =? fd)%N) (told_files s) |}
      | Err _ => s
      end
  | FdPath fd => λ r,
      match r with
      | Ok q => if is_below (told_roots s) q
                then {| told_roots := told_roots s; told_inside := fd :: told_inside s; told_files := told_files s |}
                else s
      | Err _ => s
      end
  | _ => λ _, s
  end.

(** Every call of a program satisfies [P] of what the run was told before, and the
    result [Q]. *)
Fixpoint tracked {A} (root : string) (P : Told → ∀ R, Sys R → Prop) (p : Prog A) (Q : A → Told → Prop)
  (s : Told) : Prop :=
  match p with
  | Done a => Q a s
  | Call c k => P s _ c ∧ ∀ r, tracked root P (k r) Q (told root s c r)
  end.

(** What a run is about: the root of the repository, the paths it was asked for,
    the files it may open by path alone, and the path of an artifact it was asked
    for. *)
Record Scope := {
  sc_root : string;
  sc_asked : list string;
  sc_opens : string → Prop;
  sc_artifact : string → Prop
}.
(** A descriptor that was checked to be below the root, or was opened by a path
    that may be opened. *)
Definition readable (sc : Scope) (s : Told) (fd : Fd) : Prop :=
  fd ∈ told_inside s ∨ ∃ p, (fd, p) ∈ told_files s ∧ (sc_opens sc p ∨ sc_artifact sc p).
(** What a reading tool may call.  It resolves the root, the requested paths joined
    to a root it was told, and the entries of directories below one; it asks about
    paths below such a root and about the artifact, opens and reads only those. *)
Definition looks_below (sc : Scope) (s : Told) (R : Type) (c : Sys R) : Prop :=
  match c with
  | Canonicalize p =>
      p = sc_root sc ∨ sc_artifact sc p ∨
      (∃ root rel, root ∈ told_roots s ∧ rel ∈ sc_asked sc ∧ p = target_of root rel) ∨
      (∃ d name, below (told_roots s) d ∧ p = path_join d name)
  | Fstat _ | FdPath _ => True
  | SymlinkMetadata p | PathMetadata p | ReadDir p => below (told_roots s) p ∨ sc_artifact sc p
  | OpenFile p no_follow =>
      (below (told_roots s) p ∨ sc_artifact sc p) ∧ (no_follow = true ∨ sc_opens sc p)
  | ReadSome fd _ => readable sc s fd
  | _ => False
  end.

Section Tracked.
Context (root : string) (P : Told → ∀ R, Sys R → Prop).
Lemma tracked_mono {A} (p : Prog A) (Q Q' : A → Told → Prop) s :
  (∀ a s, Q a s → Q' a s) → tracked root P p Q s → tracked root P p Q' s.
Proof.
  intros HQ. revert s. induction p as [a|R c k IH]; intros s; simpl; [apply HQ|]. intros [? H]. split; [done|]. auto.
Qed.
Lemma tracked_bind {A B} (p : Prog A) (f : A → Prog B) Q s :
  tracked root P p (λ a s', tracked root P (f a) Q s') s → tracked root P (prog_bind p f) Q s.
Proof. revert s. induction p as [a|R c k IH]; intros s; simpl; [done|]. intros [? H]. split; [done|]. auto. Qed.
Lemma tracked_try {A B} (p : Prog (io A)) (f : A → Prog (io B)) Q s :
  tracked root P p (λ r s', match r with Ok a => tracked root P (f a) Q s' | Err e => Q (Err e) s' end) s →
  tracked root P (try_bind p f) Q s.
Proof. intros H. apply tracked_bind. eapply tracked_mono; [|exact H]. by intros [a|e]. Qed.
Lemma tracked_call {R} (c : Sys R) (Q : R → Told → Prop) s :
  P s R c → (∀ r, Q r (told root s c r)) → tracked root P (call c) Q s.
Proof. done. Qed.
(** Calls that tell nothing new. *)
Lemma tracked_only {A} (C : ∀ R, Sys R → Prop) (p : Prog A) (Q : A → Told → Prop) s :
  (∀ R (c : Sys R), C R c → P s R c ∧ ∀ r, told root s c r = s) → only C p → (∀ a, Q a s) → tracked root P p Q s.
Proof.
  intros HC. induction p as [a|R c k IH]; simpl; [auto|]. intros [Hc Hk] HQ. destruct (HC _ _ Hc) as [HP Ht].
  split; [done|]. intros r. rewrite Ht. auto.
Qed.
End Tracked.

Definition reads_fd (fd : Fd) (R : Type) (c : Sys R) : Prop :=
  match c with ReadSome fd' _ => fd' = fd | Fstat _ => True | _ => False end.
Lemma fill_buf_only fd buffer : only (reads_fd fd) (fill_buf fd buffer).
Proof. unfold fill_buf. case_match; [done|]. by split. Qed.
Lemma read_until_io_only fuel fd limit line buffer : only (reads_fd fd) (read_until_io fuel fd limit line buffer).
Proof.
  revert limit line buffer. induction fuel as [|fuel IH]; intros limit line buffer; [done|]. cbn [read_until_io].
  case_match; [done|]. apply only_try; [apply fill_buf_only|]. intros b. destruct (read_until _ b). by case_match.
Qed.
Lemma window_loop_io_only fuel lim fd st buffer : only (reads_fd fd) (window_loop_io fuel lim fd st buffer).
Proof.
  revert st buffer. induction fuel as [|fuel IH]; intros st buffer; [done|]. cbn [window_loop_io].
  apply only_try; [|by intros [| |]]. unfold window_round_io. case_match; [by apply only_try; [apply fill_buf_only|]|].
  apply only_try; [apply read_until_io_only|]. intros [piece b]. case_match; [done|]. case_match; [|done].
  by apply only_try; [apply fill_buf_only|].
Qed.
Lemma read_entire_only fd max : only (reads_fd fd) (read_entire_text_file_from_open_file fd max).
Proof.
  unfold read_entire_text_file_from_open_file. apply only_try; [|done]. generalize (S (S (N.to_nat max))) as fuel.
  intros fuel. generalize ([] : bytes) as content. induction fuel as [|fuel IH]; intros content; [done|].
  cbn [read_loop]. apply only_try; [by split|]. intros data. case_match; [done|]. by case_match.
Qed.

Section Looks.
Context (sc : Scope).
Abbreviation looks := (tracked (sc_root sc) (looks_below sc)).

(** A resolved path lies below a root that the run was told. *)
Definition resolved_below (r : result PathResolutionError CanonicalPath) (s : Told) : Prop :=
  ∀ c, r = Ok c → cp_root c ∈ told_roots s ∧ path_starts_with (cp_canonical c) (cp_root c) = true.
Definition grown (s s' : Told) : Prop := told_roots s ⊆ told_roots s' ∧ told_inside s' = told_inside s.
Lemma looks_resolve rel s :
  rel ∈ sc_asked sc →
  looks (canonicalize_within_scope_io (sc_root sc) rel) (λ r s', resolved_below r s' ∧ grown s s') s.
Proof.
  intros Hrel. unfold canonicalize_within_scope_io, canonicalize_or, pbind. apply tracked_bind, tracked_bind.
  apply tracked_call; [by left|]. intros [cr|e]; cbn [tracked map_err].
  2:{ split; [by intros c|]. split; [done|done]. }
  simpl told. rewrite bool_decide_eq_true_2 by done. set (s1 := Build_Told _ _ _).
  apply tracked_bind, tracked_bind, tracked_call.
  { right; right; left. exists cr, rel. split_and!; [by left|done|done]. }
  intros r. cbn [tracked].
  set (s2 := told _ _ _ _). assert (Hs2 : told_roots s1 ⊆ told_roots s2 ∧ told_inside s2 = told_inside s).
  { subst s2. simpl. destruct r; [|done]. case_bool_decide; [|done]. simpl. set_solver. }
  assert (Hg : grown s s2) by (split; [set_solver|apply Hs2]).
  destruct r as [ct|e]; cbn [map_err tracked]; (split; [|done]); [|done].
  unfold within_root. intros c. destruct (path_starts_with ct cr) eqn:E; [|done]. intros [= <-]. split; [|done].
  apply Hs2. by left.
Qed.
Lemma looks_path c s : resolved_below (Ok c) s → below (told_roots s) (cp_canonical c).
Proof. intros H. destruct (H c eq_refl). by eexists. Qed.

Lemma looks_open c s :
  resolved_below (Ok c) s →
  looks (open_canonical_file_within_scope c)
    (λ r s', told_roots s' = told_roots s ∧ ∀ fd, r = Ok fd → readable sc s' fd) s.
Proof.
  intros Hc. unfold open_canonical_file_within_scope. apply tracked_try, tracked_call.
  { split; [left; by apply looks_path|by left]. }
  intros [fd|e]; [|done]. apply tracked_try, tracked_call; [done|]. intros [q|e]; [|done]. cbn [told].
  destruct (path_starts_with q (cp_root c)) eqn:E; [|by cbn; case_match].
  assert (is_below (told_roots s) q = true) as Hb.
  { apply existsb_exists. exists (cp_root c). split; [|done]. apply list_elem_of_In. by apply (Hc c eq_refl). }
  cbn [told_roots]. rewrite Hb. cbn. split; [done|]. intros fd' [= <-]. left. by left.
Qed.
(** The file of an artifact is read by the descriptor opened for its path. *)
Lemma looks_open_artifact p s :
  sc_artifact sc p →
  looks (open_artifact_file_within_scope p) (λ r s', ∀ fd, r = Ok fd → readable sc s' fd) s.
Proof.
  intros Hp. unfold open_artifact_file_within_scope. apply tracked_try, tracked_call; [by right|].
  intros [m|e]; [|done]. cbn [told]. apply tracked_try, tracked_call; [by right; left|]. intros r.
  set (s1 := told _ _ _ _). clearbody s1. destruct r as [q|e]; [|done].
  apply tracked_try, tracked_call; [split; [by right|by left]|]. intros [fd|e]; [|done].
  apply tracked_try, tracked_call; [done|]. intros [m'|e]; [|done]. case_match; [done|].
  apply tracked_try, tracked_call; [done|]. intros [q'|e]; [|done]. destruct (path_eqb q' q); [|done].
  intros fd' [= <-]. right. exists p. split; [|by right]. cbn. case_match; by left.
Qed.
Lemma looks_reads {A} fd (p : Prog A) (Q : A → Told → Prop) s :
  readable sc s fd → only (reads_fd fd) p → (∀ a, Q a s) → looks p Q s.
Proof. intros Hfd. apply tracked_only. intros R [] Hc; simpl in Hc; try done; subst; simpl; auto. Qed.

Lemma looks_read_text c max s :
  resolved_below (Ok c) s →
  looks (read_canonical_text_file c max) (λ _ s', told_roots s' = told_roots s) s.
Proof.
  intros Hc. unfold read_canonical_text_file. apply tracked_try. eapply tracked_mono; [|by apply looks_open].
  intros [fd|e] s1 [Hs Hfd]; [|done]. specialize (Hfd fd eq_refl). apply tracked_try, tracked_call; [done|].
  intros [m|e]; [|done]. cbn [told]. case_match; [done|]. by apply (looks_reads fd); [|apply read_entire_only|].
Qed.

Lemma looks_list t request s :
  list_root t = sc_root sc → target_from_request request ∈ sc_asked sc →
  looks (list_execute t request) (λ _ _, True) s.
Proof.
  intros Hr Hrel. unfold list_execute. rewrite Hr. apply tracked_bind. eapply tracked_mono; [|by apply looks_resolve].
  intros [c|e] s1 [Hc _]; [|done]. by apply tracked_bind, tracked_call; [left; apply looks_path|].
Qed.
Lemma looks_stat t request s :
  stat_root t = sc_root sc → target_from_request request ∈ sc_asked sc →
  looks (stat_execute t request) (λ _ _, True) s.
Proof.
  intros Hr Hrel. unfold stat_execute. rewrite Hr. apply tracked_bind. eapply tracked_mono; [|by apply looks_resolve].
  intros [c|e] s1 [Hc _]; [|done]. by apply tracked_bind, tracked_call; [left; apply looks_path|].
Qed.
Lemma looks_read_opened t target fd s : readable sc s fd → looks (read_opened t target fd) (λ _ _, True) s.
Proof.
  intros Hfd. unfold read_opened. apply tracked_bind, tracked_call; [done|]. intros [m|e]; [|done].
  cbn [told]. case_match; [done|]. cbv zeta. destruct (match read_max_file_bytes t with Some _ => _ | None => _ end); [exact I|].
  apply tracked_bind. apply (looks_reads fd); [done|apply window_loop_io_only|done].
Qed.
Lemma looks_diff t request s :
  diff_root t = sc_root sc → target_from_request request ∈ sc_asked sc → diff_comparison_path t ∈ sc_asked sc →
  looks (diff_execute t request) (λ _ _, True) s.
Proof.
  intros Hr Hrel Hrel'. unfold diff_execute, resolve_diff_paths_io, pbind. rewrite Hr. apply tracked_bind, tracked_bind.
  eapply tracked_mono; [|by apply looks_resolve]. intros [c|e] s1 [Hc _]; [|exact I]. apply tracked_bind.
  eapply tracked_mono; [|by apply looks_resolve]. intros [c'|e] s2 [Hc' [Hsub _]]; [|exact I]. cbn [tracked].
  assert (Hc2 : resolved_below (Ok c) s2).
  { intros x [= <-]. destruct (Hc c eq_refl). split; [by apply Hsub|done]. }
  apply tracked_bind. eapply tracked_mono; [|by apply looks_read_text]. intros [l|e] s3 Hs3; [|exact I].
  apply tracked_bind. eapply tracked_mono; [|apply looks_read_text]; [by intros ? ? _|].
  intros x [= <-]. rewrite Hs3. by apply Hc'.
Qed.
End Looks.

(** The path of an artifact: what the artifact store answered for the reference of
    the request, or the same path as the invocation recorded it. *)
Definition artifact_path `{UuidLib} (store : option (OutputRefId → string → result string ArtifactLookupResult))
  (request : RuntimeJobRequest) (p : string) : Prop :=
  is_artifact_scope request = true ∧
  ∃ q, resolve_artifact_target_from_store store request = Ok q ∧ path_eqb q p = true.
Lemma resolved_artifact `{UuidLib} store t request invocation :
  is_artifact_scope request = true →
  ∃ r, resolve_target_for_request store t request invocation = Done r ∧
       ∀ target, r = Ok target → ∃ p, target = ArtifactTarget p ∧ artifact_path store request p.
Proof.
  intros Ha. unfold resolve_target_for_request. rewrite Ha. eexists. split; [done|]. intros target.
  destruct (resolve_artifact_target_from_store store request) as [q|e] eqn:Eq.
  - assert (Hq : artifact_path store request q) by (split; [done|exists q; split; [done|by apply path_eqb_same]]).
    destruct (match invocation with Some i => recorded_path request i | None => None end) as [rp|].
    + destruct (path_eqb q rp) eqn:E; intros [= <-]; [|by exists q]. exists rp. split; [done|]. split; [done|by exists q].
    + intros [= <-]. by exists q.
  - by destruct (match invocation with Some i => recorded_path request i | None => None end).
Qed.
Lemma looks_read `{UuidLib} sc store t invocation request s :
  read_root t = sc_root sc → target_from_request request ∈ sc_asked sc →
  (∀ p, artifact_path store request p → sc_artifact sc p) →
  tracked (sc_root sc) (looks_below sc) (read_execute store t invocation request) (λ _ _, True) s.
Proof.
  intros Hr Hrel Hart. unfold read_execute. destruct (is_artifact_scope request) eqn:Ha.
  - destruct (resolved_artifact store t request (Some invocation) Ha) as (r & -> & Hp). cbn [prog_bind].
    destruct r as [target|e]; [|done]. destruct (Hp _ eq_refl) as (p & -> & Hpath). cbn [open_read_target].
    apply tracked_bind. eapply tracked_mono; [|by apply looks_open_artifact, Hart].
    intros [fd|e] s1 Hfd; [|done]. by apply looks_read_opened, Hfd.
  - unfold resolve_target_for_request. rewrite Ha, Hr. apply tracked_bind, tracked_bind.
    eapply tracked_mono; [|by apply looks_resolve]. intros [c|e] s1 [Hc _]; [|done]. cbn [tracked open_read_target].
    apply tracked_bind. eapply tracked_mono; [|by apply looks_open]. intros [fd|e] s2 [_ Hfd]; [|done].
    by apply looks_read_opened, Hfd.
Qed.
