(* ===== verification/SearchLaws.v ===== *)
(** * SearchLaws: a search finds exactly the matches it should, and ends

    On a disk at rest a search of a directory visits every directory it can reach
    and may visit once, searches every file in them that lies in the allowed
    roots, is small enough and is text, and reports the first matches in the
    order it finds them. *)
From S2P Require Import Prelude Text Domain StoreTypes Settings Truncation Runtime Packages.
From S2P Require Import Paths Tools ManifestCheck ScopeGuarantees ToolText ToolTextLaws WindowLaws.
From S2P Require Import FileOps MutationTools MutationLaws WriteLaws ReadTools ReadToolLaws.

(** ** Texts and their lines *)

Lemma text_app p q : text_bytes p → text_bytes q → text_bytes (p ++ q).
Proof. intros (cs & Hc & ->) (ds & Hd & ->). exists (cs ++ ds). split; [by apply Forall_app|]. by rewrite concat_app. Qed.
Lemma text_lf : text_bytes [line_feed].
Proof. exists [[line_feed]]. split; [|done]. constructor; [done|constructor]. Qed.
Lemma text_piece body rest :
  text_bytes ((body ++ [line_feed]) ++ rest) ↔ text_bytes (body ++ [line_feed]) ∧ text_bytes rest.
Proof.
  split; [|by intros [? ?]; apply text_app]. rewrite <- app_assoc. simpl. intros [Hb Hr]%text_split; [|done].
  split; [|done]. by apply text_app, text_lf.
Qed.

(** ** The matches of a file *)

Section Matches.
Context (root pattern : string) (max_results : N).

(** The references of the lines that contain the pattern, from line [k] on. *)
Fixpoint line_refs (path : string) (k : N) (ls : list bytes) : list string :=
  match ls with
  | [] => []
  | l :: ls => (if contains (to_bytes pattern) l then [match_ref root path k] else [])
               ++ line_refs path (k + 1) ls
  end.
Definition file_refs (path : string) (data : bytes) : list string := line_refs path 0 (lines data).
Lemma elem_of_line_refs path k ls r :
  r ∈ line_refs path k ls ↔
  ∃ i l, ls !! i = Some l ∧ contains (to_bytes pattern) l = true ∧ r = match_ref root path (k + N.of_nat i).
Proof.
  revert k. induction ls as [|l ls IH]; intros k; simpl.
  { split; [by intros ?%elem_of_nil|]. by intros (i & l & ? & _). }
  rewrite elem_of_app, IH. split.
  - intros [Hr|(i & l' & Hi & Hc & ->)].
    + destruct (contains _ l) eqn:Hc; [|by apply elem_of_nil in Hr]. apply list_elem_of_singleton in Hr as ->.
      exists 0, l. split_and!; [done..|]. f_equal. lia.
    + exists (S i), l'. split_and!; [done..|]. f_equal. lia.
  - intros ([|i] & l' & Hi & Hc & ->); simpl in Hi.
    + injection Hi as <-. left. rewrite Hc, N.add_0_r. by left.
    + right. exists i, l'. split_and!; [done..|]. f_equal. lia.
Qed.

Definition add_refs (st : SearchState) (refs : list string) : SearchState :=
  foldl (search_match max_results) st refs.
End Matches.

Section Search.
Context {os : Os} `{!PosixLaws os} (w0 : World) (tr : Tree) (Hshows : shows os w0 tr).
Context (fuel : nat) (root pattern : string) (max_results : N).

Lemma rest_search_lines turns fd path k rest buffer st w :
  still w0 w → reader w fd rest buffer → length rest < turns → length rest < fuel →
  alone (search_lines fuel root pattern max_results turns fd path k buffer st)
    (λ r w', still w0 w' ∧
       match r with
       | Ok st' => text_bytes rest ∧ st' = add_refs max_results st (line_refs root pattern path k (lines rest))
       | Err _ => ¬ text_bytes rest
       end) w.
Proof.
  revert k rest buffer st w. induction turns as [|turns IH]; intros k rest buffer st w Hw Hr Ht Hf; [lia|].
  cbn [search_lines]. destruct (read_until (line_limit None rest) rest) as [piece rest'] eqn:E.
  apply wp_try. eapply wp_mono; [|eapply (read_until_io_spec w0 (shows_reads _ _ _ Hshows) _ _ None [] rest); [done|done|exact Hf|exact E]].
  intros res w1 (Hw1 & b & -> & Hb). simpl app. apply read_until_spec in E as [Hrest Hcase].
  case_bool_decide as Hp.
  { subst piece. split; [done|]. assert (rest = []) as ->.
    { destruct Hcase as [(body & _ & E)|[_ [->|E]]]; [by destruct body|done|]. unfold line_limit in E. simpl in E. by destruct rest. }
    split; [|done]. by exists []. }
  assert (Hlen : length rest' < length rest) by (rewrite Hrest, length_app; destruct piece; [done|simpl; lia]).
  assert (Hlines : lines rest = (line_of piece).1 :: lines rest' ∧
    (text_bytes rest ↔ text_bytes piece ∧ text_bytes rest')).
  { rewrite Hrest. destruct Hcase as [(body & Hb' & ->)|[Hb' Hend]].
    - rewrite <- app_assoc. split; [by apply lines_ended|]. rewrite app_assoc. apply text_piece.
    - assert (rest' = []) as ->.
      { destruct Hend as [->|Hl]; [done|]. unfold line_limit in Hl. simpl in Hl. apply Nat2N.inj in Hl.
        destruct rest' as [|c r]; [done|]. rewrite Hrest, length_app in Hl. simpl in Hl. lia. }
      rewrite app_nil_r, lines_last, line_of_open by done. split; [done|]. split; [|by intros [? _]].
      intros ?. split; [done|]. by exists []. }
  destruct Hlines as [Hl Htext]. apply wp_try. destruct (from_utf8 piece) as [s|e] eqn:Eu; cbn [map_err wp].
  - apply from_utf8_Ok in Eu as [_ Hpt]. eapply wp_mono; [|apply (IH _ rest'); [done|done|lia|lia]].
    intros r w2 [Hw2 Hres]. split; [done|]. destruct r as [st'|e].
    + destruct Hres as [Ht' ->]. split; [by apply Htext|]. rewrite Hl. cbn [line_refs]. unfold add_refs.
      rewrite foldl_app. by destruct (contains _ _).
    + by intros [_ ?]%Htext.
  - split; [done|]. intros [Hpt _]%Htext. apply from_utf8_text in Hpt. congruence.
Qed.

(** The text of a file that a search opens. *)
Definition searchable (path : string) (data : bytes) : Prop :=
  ∃ i n, tr_open tr path false = Ok i ∧ w_nodes w0 !! i = Some n ∧ n_data n = data ∧ text_bytes data.
Lemma searchable_unique path data data' : searchable path data → searchable path data' → data = data'.
Proof. intros (i & n & ? & ? & <- & _) (j & m & ? & ? & <- & _). assert (j = i) as -> by congruence. congruence. Qed.

Context (Hfuel : ∀ i n, w_nodes w0 !! i = Some n → length (n_data n) < fuel).

Lemma rest_search_file path st w :
  still w0 w →
  alone (search_file fuel root pattern max_results path st)
    (λ r w', still w0 w' ∧
       match r with
       | Ok st' => ∃ data, searchable path data ∧ st' = add_refs max_results st (file_refs root pattern path data)
       | Err _ => ∀ data, ¬ searchable path data
       end) w.
Proof.
  intros Hw. unfold search_file. apply wp_try. apply (rest_call w0); [done|exact I|]. intros r w1 Hs Hw1.
  pose proof (shows_open _ _ _ Hshows _ _ _ _ _ Hw Hs) as Ho. apply documented in Hs. simpl in Hs.
  destruct (tr_open tr path false) as [i|e] eqn:Eo.
  2:{ subst r. split; [done|]. intros data (? & ? & ? & _). congruence. }
  destruct Ho as (fd & -> & Ho). destruct Hs as (i' & [n Hn] & Ho').
  assert (i' = i) as -> by (apply opens_at_start in Ho, Ho'; unfold at_start in *; congruence).
  rewrite (still_nodes _ _ Hw) in Hn. pose proof (Hfuel _ _ Hn) as Hlen.
  eapply wp_mono; [|apply (rest_search_lines _ _ _ _ (n_data n)); [done| |done|done]].
  2:{ apply opens_at_start in Ho. eexists _, n. split_and!; [exact Ho|by rewrite (still_nodes _ _ Hw1)|].
      cbn [h_offset]. by rewrite drop_0. }
  intros r w2 [Hw2 Hr]. split; [done|]. destruct r as [st'|e].
  - destruct Hr as [Ht ->]. exists (n_data n). split; [|done]. by exists i, n.
  - intros data (? & m & ? & Hm & <- & Ht). assert (m = n) as -> by congruence. done.
Qed.
End Search.

(** ** What a walk may find *)

(** What has been done with a file. *)
Inductive Found := Searched (path : string) (data : bytes) | Skipped (path : string).

Section Walk.
Context (w0 : World) (tr : Tree) (root pattern : string) (max_results max_file_bytes : N).
Context (allowed_roots : list string).

(** An entry of a directory leads to a path inside the root. *)
Definition leads (path c : string) : Prop :=
  tr_canonicalize tr path = Ok c ∧ path_starts_with c root = true.
Definition meets (d c : string) : Prop :=
  ∃ entries entry, tr_entries tr d = Ok entries ∧ Ok entry ∈ entries ∧ leads (path_join d (de_name entry)) c.
Definition visits (c : string) : Prop :=
  ∃ m, tr_metadata tr c = Ok m ∧ is_dir m = true ∧
       is_within_or_ancestor_of_allowed_root c allowed_roots = true.
Inductive reached (start : string) : string → Prop :=
  | reached_start : reached start start
  | reached_step d c : reached start d → meets d c → visits c → reached start c.

(** What should become of a file in the allowed roots. *)
Definition becomes (c : string) (f : Found) : Prop :=
  ∃ m, tr_metadata tr c = Ok m ∧ is_dir m = false ∧ is_file m = true ∧
    is_within_allowed_roots c allowed_roots = true ∧
    match f with
    | Searched p data => p = c ∧ (md_len m ≤ max_file_bytes)%N ∧ searchable w0 tr c data
    | Skipped p => p = c ∧ ((md_len m ≤ max_file_bytes)%N → ∀ data, ¬ searchable w0 tr c data)
    end.
Lemma becomes_unique c f f' : becomes c f → becomes c f' → f = f'.
Proof.
  intros (m & Hm & _ & _ & _ & Hf) (m' & Hm' & _ & _ & _ & Hf'). assert (m' = m) as -> by congruence.
  destruct f, f'; destruct Hf as [-> Hf], Hf' as [-> Hf']; try done.
  - destruct Hf as [_ H], Hf' as [_ H']. by rewrite (searchable_unique _ _ _ _ _ H H').
  - destruct Hf as [Hl H]. by destruct (Hf' Hl _ H).
  - destruct Hf' as [Hl H]. by destruct (Hf Hl _ H).
Qed.

(** Nothing an entry leads to is left undone. *)
Definition entry_done (path : string) (visited : list string) (found : list Found) : Prop :=
  ∀ c, leads path c → (∃ m, tr_metadata tr c = Ok m) ∧ (visits c → c ∈ visited) ∧ ∀ f, becomes c f → f ∈ found.
(** What one entry, and the entries of one directory, lead to: each file once. *)
Definition entry_finds (path : string) (fs : list Found) : Prop :=
  (∃ c f, leads path c ∧ becomes c f ∧ fs = [f]) ∨ (fs = [] ∧ ∀ c f, leads path c → ¬ becomes c f).
Definition entries_find (d : string) (entries : list (io DirEntry)) (fs : list Found) : Prop :=
  ∃ parts, Forall2 (λ e part, ∃ entry, e = Ok entry ∧ entry_finds (path_join d (de_name entry)) part) entries parts ∧
           fs = concat parts.
Definition dir_finds (d : string) (fs : list Found) : Prop :=
  ∃ entries, tr_entries tr d = Ok entries ∧ entries_find d entries fs.
Definition dir_done (d : string) (visited : list string) (found : list Found) : Prop :=
  ∃ entries, tr_entries tr d = Ok entries ∧
    ∀ e, e ∈ entries → ∃ entry, e = Ok entry ∧ entry_done (path_join d (de_name entry)) visited found.
Lemma entry_done_mono path v v' f f' : v ⊆ v' → f ⊆ f' → entry_done path v f → entry_done path v' f'.
Proof.
  intros Hv Hf H c Hc. destruct (H c Hc) as (H0 & H1 & H2). split_and!; [done|auto|]. intros x Hx. by apply Hf, H2.
Qed.
Lemma dir_done_mono d v v' f f' : v ⊆ v' → f ⊆ f' → dir_done d v f → dir_done d v' f'.
Proof.
  intros Hv Hf (entries & He & H). exists entries. split; [done|]. intros e Hin.
  destruct (H e Hin) as (entry & -> & ?). eauto using entry_done_mono.
Qed.

(** What stops a search. *)
Definition broken (start : string) (e : OsError) : Prop :=
  ∃ d, reached start d ∧
    (tr_entries tr d = Err e ∨
     (∃ entries, tr_entries tr d = Ok entries ∧ Err e ∈ entries) ∨
     ∃ c, meets d c ∧ tr_metadata tr c = Err e).

(** *** The state after some files *)

Definition set_visited (st : SearchState) (visited : list string) : SearchState := {|
  sr_matches := sr_matches st; sr_files_searched := sr_files_searched st;
  sr_files_skipped := sr_files_skipped st; sr_truncated := sr_truncated st;
  sr_total_bytes := sr_total_bytes st; sr_retained_bytes := sr_retained_bytes st;
  sr_visited_dirs := visited |}.
Definition replay_found (st : SearchState) (f : Found) : SearchState :=
  match f with
  | Searched path data => add_refs max_results (search_counted st 1 0) (file_refs root pattern path data)
  | Skipped _ => search_counted st 0 1
  end.
Definition replay_all (st : SearchState) (found : list Found) : SearchState := foldl replay_found st found.
Lemma add_refs_visited st v refs :
  add_refs max_results (set_visited st v) refs = set_visited (add_refs max_results st refs) v.
Proof. unfold add_refs. revert st. induction refs as [|r refs IH]; intros st; [done|]. simpl. by rewrite <- IH. Qed.
Lemma replay_visited st v found : replay_all (set_visited st v) found = set_visited (replay_all st found) v.
Proof.
  unfold replay_all. revert st. induction found as [|f found IH]; intros st; [done|]. simpl. rewrite <- IH. f_equal.
  destruct f; [|done]. simpl. by rewrite <- add_refs_visited.
Qed.
Lemma set_visited_twice st v v' : set_visited (set_visited st v) v' = set_visited st v'.
Proof. done. Qed.
Lemma set_visited_id st : set_visited st (sr_visited_dirs st) = st.
Proof. by destruct st. Qed.
Lemma replay_app st f g : replay_all st (f ++ g) = replay_all (replay_all st f) g.
Proof. apply foldl_app. Qed.

(** A part of the walk: new directories, each visited once and done, what was found
    in the directory at hand and what was found in all. *)
Record explored (start : string) (visited new : list string) (own found : list Found) : Prop := {
  ex_once : NoDup new ∧ new ## visited;
  ex_reached d : d ∈ new → reached start d;
  ex_done d : d ∈ new → dir_done d (new ++ visited) found;
  ex_found f : f ∈ found → ∃ d c, reached start d ∧ meets d c ∧ becomes c f;
  ex_parts : ∃ parts, Forall2 dir_finds new parts ∧ found ≡ₚ own ++ concat parts
}.
Definition walked (start : string) (st : SearchState) (P : list string → list Found → list Found → Prop)
  (r : io SearchState) : Prop :=
  match r with
  | Ok st' => ∃ new own found, st' = set_visited (replay_all st found) (new ++ sr_visited_dirs st) ∧
      explored start (sr_visited_dirs st) new own found ∧ P (new ++ sr_visited_dirs st) own found
  | Err e => broken start e
  end.
Lemma walked_nothing start st (P : list string → list Found → list Found → Prop) :
  P (sr_visited_dirs st) [] [] → walked start st P (Ok st).
Proof.
  intros HP. exists [], [], []. split; [by rewrite set_visited_id|]. split; [|done].
  split; [|by intros ? ?%elem_of_nil..|by exists []]. split; [constructor|]. by intros ? ?%elem_of_nil.
Qed.
Lemma walked_one start st d c f (P : list string → list Found → list Found → Prop) :
  reached start d → meets d c → becomes c f → P (sr_visited_dirs st) [f] [f] →
  walked start st P (Ok (set_visited (replay_found st f) (sr_visited_dirs st))).
Proof.
  intros Hd Hm Hb HP. exists [], [f], [f]. split; [done|]. split; [|done].
  split; [|by intros ? ?%elem_of_nil..| |by exists []].
  - split; [constructor|]. by intros ? ?%elem_of_nil.
  - intros f' ->%list_elem_of_singleton. eauto.
Qed.
(** Two parts, one after the other. *)
Lemma explored_app start visited new new' own own' found found' :
  explored start visited new own found → explored start (new ++ visited) new' own' found' →
  explored start visited (new' ++ new) (own ++ own') (found ++ found').
Proof.
  intros [[Hn Hdis] Hr Hd Hf (parts & Hp & Hperm)] [[Hn' Hdis'] Hr' Hd' Hf' (parts' & Hp' & Hperm')]. split.
  - split; [apply NoDup_app; split_and!; [done| |done]|]; set_solver.
  - intros d [?|?]%elem_of_app; auto.
  - rewrite <- app_assoc. intros d [Hin|Hin]%elem_of_app.
    + eapply dir_done_mono; [done| |by apply Hd']. set_solver.
    + eapply dir_done_mono; [| |by apply Hd]; set_solver.
  - intros f [?|?]%elem_of_app; auto.
  - exists (parts' ++ parts). split; [by apply Forall2_app|]. rewrite Hperm, Hperm', concat_app. solve_Permutation.
Qed.
End Walk.

(** ** The walk *)

(** Canonical paths: finitely many, and each written in one way. *)
Record canonical_names (tr : Tree) (names : list string) : Prop := {
  cn_finite p q : tr_canonicalize tr p = Ok q → q ∈ names;
  cn_unique q q' : q ∈ names → q' ∈ names → path_eqb q q' = true → q = q'
}.
Definition unvisited (names visited : list string) : nat :=
  length (List.filter (λ n, negb (bool_decide (n ∈ visited))) names).
Lemma unvisited_mono names v v' : v ⊆ v' → unvisited names v' ≤ unvisited names v.
Proof.
  intros Hv. unfold unvisited. induction names as [|n names IH]; [done|]. simpl.
  destruct (bool_decide_reflect (n ∈ v')), (bool_decide_reflect (n ∈ v)); simpl; try lia. set_solver.
Qed.
Lemma unvisited_cons names v c : c ∈ names → c ∉ v → unvisited names (c :: v) < unvisited names v.
Proof.
  intros Hc Hv. unfold unvisited. induction names as [|n names IH]; [by apply elem_of_nil in Hc|]. simpl.
  assert (Hle := unvisited_mono names v (c :: v) ltac:(set_solver)). unfold unvisited in Hle.
  destruct (decide (n = c)) as [->|Hne].
  - rewrite (bool_decide_eq_true_2 (c ∈ c :: v)), (bool_decide_eq_false_2 (c ∈ v)) by set_solver. simpl. lia.
  - assert (c ∈ names) as Hin by set_solver. specialize (IH Hin).
    rewrite (bool_decide_ext (n ∈ c :: v) (n ∈ v)) by set_solver. destruct (bool_decide (n ∈ v)); simpl; lia.
Qed.

Section Recursion.
Context {os : Os} `{!PosixLaws os} (w0 : World) (tr : Tree) (Hshows : shows os w0 tr).
Context (fuel : nat) (root pattern : string) (max_results max_file_bytes : N) (allowed_roots : list string).
Context (Hfuel : ∀ i n, w_nodes w0 !! i = Some n → length (n_data n) < fuel).
Context (names : list string) (Hnames : canonical_names tr names) (start : string) (Hstart : start ∈ names).

Abbreviation reached' := (reached tr root allowed_roots).
Abbreviation walked' := (walked w0 tr root pattern max_results max_file_bytes allowed_roots start).
Abbreviation entry_done' := (entry_done w0 tr root max_file_bytes allowed_roots).
Abbreviation dir_done' := (dir_done w0 tr root max_file_bytes allowed_roots).
Abbreviation becomes' := (becomes w0 tr max_file_bytes allowed_roots).
Abbreviation entry_finds' := (entry_finds w0 tr root max_file_bytes allowed_roots).
Abbreviation entries_find' := (entries_find w0 tr root max_file_bytes allowed_roots).
Abbreviation dir_finds' := (dir_finds w0 tr root max_file_bytes allowed_roots).

Lemma reached_names d : reached' start d → d ∈ names.
Proof. destruct 1 as [|d c _ (? & ? & _ & _ & Hc & _)]; [done|]. by eapply cn_finite. Qed.
Lemma already_visited c v :
  c ∈ names → v ⊆ names → existsb (path_eqb c) v = bool_decide (c ∈ v).
Proof.
  intros Hc Hv. apply eq_true_iff_eq. rewrite existsb_exists, bool_decide_eq_true. split.
  - intros (x & Hx%list_elem_of_In & E). by rewrite (cn_unique _ _ Hnames c x Hc (Hv _ Hx) E).
  - intros Hin. exists c. split; [by apply list_elem_of_In|]. by apply bool_decide_eq_true.
Qed.

(** A file that an entry leads to. *)
Lemma entry_file_done path c m f :
  leads tr root path c → tr_metadata tr c = Ok m → is_dir m = false → becomes' c f →
  ∀ v, entry_done' path v [f].
Proof.
  intros [Hl _] Hm Hd Hf v c' [Hl' _]. assert (c' = c) as -> by congruence. split_and!; [by exists m| |].
  - intros (m' & ? & ? & _). congruence.
  - intros f' Hf'. rewrite (becomes_unique _ _ _ _ _ _ _ Hf' Hf). by left.
Qed.
(** Anything else needs nothing. *)
Definition entry_walked (path : string) (v : list string) (own found : list Found) : Prop :=
  entry_done' path v found ∧ entry_finds' path own.
Lemma entry_nothing path v :
  (∀ c, leads tr root path c → (∃ m, tr_metadata tr c = Ok m) ∧ (visits tr allowed_roots c → c ∈ v) ∧
        ∀ f, ¬ becomes' c f) → entry_walked path v [] [].
Proof.
  intros H. split; [|right; split; [done|]; intros c f Hc; by apply H]. intros c Hc.
  destruct (H c Hc) as (H0 & H1 & H2). split_and!; [done..|]. intros f Hf. by destruct (H2 f).
Qed.

(** What a walk into a directory promises. *)
Definition enters (turns : nat) (recurse : string → SearchState → Prog (io SearchState)) : Prop :=
  ∀ c st w, still w0 w → reached' start c → sr_visited_dirs st ⊆ names →
    unvisited names (sr_visited_dirs st) < turns →
    alone (recurse c st) (λ r w', still w0 w' ∧
      walked' st (λ v own found, dir_done' c v found ∧ dir_finds' c own) r) w.

(** An entry that is a directory which may be visited. *)
Lemma rest_entry_dir recurse turns path c st w :
  still w0 w → leads tr root path c → visits tr allowed_roots c → reached' start c →
  sr_visited_dirs st ⊆ names → unvisited names (sr_visited_dirs st) < S turns → enters turns recurse →
  alone (if existsb (path_eqb c) (sr_visited_dirs st) then Done (Ok st) else recurse c (search_visit st c))
    (λ r w', still w0 w' ∧ walked' st (entry_walked path) r) w.
Proof.
  intros Hw Hl Hvisits Hrc Hv Hturns Hrec. pose proof (reached_names _ Hrc) as Hc.
  assert (Hother : ∀ c', leads tr root path c' → c' = c) by (destruct Hl; intros c' [? _]; congruence).
  assert (Hnf : ∀ f, ¬ becomes' c f).
  { destruct Hvisits as (m & ? & ? & _). intros f (m' & ? & ? & _). congruence. }
  rewrite already_visited by done. case_bool_decide as Hseen.
  { split; [done|]. apply walked_nothing, entry_nothing. intros c' ->%Hother. split_and!; [|done|done].
    destruct Hvisits as (m & ? & _). by exists m. }
  eapply wp_mono; [|apply Hrec; [done|done| |]].
  - intros r w3 [Hw3 Hwalk]. split; [done|]. destruct r as [st'|e]; [|done].
    destruct Hwalk as (new & own & found & -> & [[Hn Hdis] Hr Hdone Hf (parts & Hp & Hperm)] & Hcd & Hcf).
    cbn [search_visit sr_visited_dirs] in *.
    exists (new ++ [c]), [], found. rewrite <- app_assoc. simpl. split_and!.
    + change (search_visit st c) with (set_visited st (c :: sr_visited_dirs st)).
      by rewrite replay_visited, set_visited_twice.
    + split; [| | |done|].
      * split; [apply NoDup_app; split_and!; [done| |apply NoDup_singleton]|]; set_solver.
      * intros x [?| ->%list_elem_of_singleton]%elem_of_app; auto.
      * rewrite <- app_assoc. intros x [?| ->%list_elem_of_singleton]%elem_of_app; [by apply Hdone|done].
      * exists (parts ++ [own]). split; [apply Forall2_app; [done|]; by constructor|].
        rewrite Hperm, concat_app. simpl. rewrite app_nil_r. solve_Permutation.
    + split.
      * intros c' ->%Hother. split_and!; [destruct Hvisits as (m & ? & _); by exists m|set_solver|].
        intros f Hf'. by destruct (Hnf f).
      * right. split; [done|]. intros c' f ->%Hother. apply Hnf.
  - cbn. set_solver.
  - cbn. pose proof (unvisited_cons _ _ _ Hc Hseen). lia.
Qed.

(** An entry that is a file in the allowed roots. *)
Lemma rest_entry_file path d c m st w :
  still w0 w → reached' start d → meets tr root d c → leads tr root path c → tr_metadata tr c = Ok m →
  is_dir m = false → is_file m = true → is_within_allowed_roots c allowed_roots = true →
  alone (if (max_file_bytes <? md_len m)%N then Done (Ok (search_counted st 0 1))
         else let! r := search_file fuel root pattern max_results c (search_counted st 1 0) in
              Done (Ok (match r with Ok st => st | Err _ => search_counted st 0 1 end)))
    (λ r w', still w0 w' ∧ walked' st (entry_walked path) r) w.
Proof.
  intros Hw Hd Hm Hl Em Hdir Hfile Hall.
  assert (Hone : ∀ f w, still w0 w → becomes' c f → still w0 w ∧
    walked' st (entry_walked path) (Ok (set_visited (replay_found root pattern max_results st f) (sr_visited_dirs st)))).
  { intros f w' Hw' Hf. split; [done|]. eapply walked_one; [done..|]. split; [by eapply entry_file_done|].
    left. by exists c, f. }
  destruct (N.ltb_spec max_file_bytes (md_len m)) as [Hlarge|Hsmall].
  { apply (Hone (Skipped c)); [done|]. exists m. split_and!; [done..|]. lia. }
  apply wp_bind. eapply wp_mono; [|by apply (rest_search_file w0 tr Hshows)]. intros [st'|e] w3 [Hw3 Hres].
  - destruct Hres as (data & Hdata & ->).
    assert (Hf : becomes' c (Searched c data)) by (exists m; by split_and!).
    destruct (Hone _ w3 Hw3 Hf) as [_ H]. split; [done|]. simpl in H.
    change (search_counted st 1 0) with (set_visited (search_counted st 1 0) (sr_visited_dirs st)).
    by rewrite add_refs_visited.
  - apply (Hone (Skipped c)); [done|]. exists m. by split_and!.
Qed.

Lemma rest_search_entry recurse turns d entries entry st w :
  still w0 w → reached' start d → tr_entries tr d = Ok entries → Ok entry ∈ entries →
  sr_visited_dirs st ⊆ names → unvisited names (sr_visited_dirs st) < S turns → enters turns recurse →
  let path := path_join d (de_name entry) in
  alone (search_entry fuel root pattern max_results allowed_roots max_file_bytes recurse path st)
    (λ r w', still w0 w' ∧ walked' st (entry_walked path) r) w.
Proof.
  intros Hw Hd He Hin Hv Hturns Hrec path. unfold search_entry. apply wp_bind.
  apply (rest_call w0); [done|exact I|]. intros r w1 Hs Hw1.
  apply (shows_canonicalize _ _ _ Hshows _ _ _ _ Hw) in Hs as ->. destruct (tr_canonicalize tr path) as [c|e] eqn:Ec.
  2:{ split; [done|]. apply walked_nothing, entry_nothing. intros c [? _]. congruence. }
  destruct (path_starts_with c root) eqn:Hroot; cbn [negb].
  2:{ split; [done|]. apply walked_nothing, entry_nothing. intros c' [? ?]. congruence. }
  assert (Hl : leads tr root path c) by done.
  assert (Hm : meets tr root d c) by (by exists entries, entry).
  assert (Hnone : ∀ m w, tr_metadata tr c = Ok m → still w0 w → ¬ visits tr allowed_roots c → (∀ f, ¬ becomes' c f) →
    still w0 w ∧ walked' st (entry_walked path) (Ok st)).
  { intros m w' Hmeta Hw' Hno Hnf. split; [done|]. apply walked_nothing, entry_nothing. intros c' [? _].
    assert (c' = c) as -> by congruence. by split; [exists m|]. }
  apply wp_try, (rest_call w0); [done|exact I|]. intros r w2 Hs Hw2.
  apply (shows_metadata _ _ _ Hshows _ _ _ _ Hw1) in Hs as ->. destruct (tr_metadata tr c) as [m|e] eqn:Em.
  2:{ split; [done|]. exists d. split; [done|]. right; right. by exists c. }
  destruct (is_dir m) eqn:Hdir.
  - destruct (is_within_or_ancestor_of_allowed_root c allowed_roots) eqn:Hall; cbn [negb].
    + assert (Hvisits : visits tr allowed_roots c) by by exists m.
      eapply rest_entry_dir; [done..| |done|done|done]. by eapply reached_step.
    + apply (Hnone m); [done|done|intros (m' & ? & ? & ?); congruence|intros f (m' & ? & ? & _); congruence].
  - destruct (is_file m) eqn:Hfile; [destruct (is_within_allowed_roots c allowed_roots) eqn:Hall; cbn [negb]|].
    + by apply (rest_entry_file path d c m).
    + apply (Hnone m); [done|done|intros (m' & ? & ? & _); congruence|intros f (m' & ? & _ & _ & ? & _); congruence].
    + apply (Hnone m); [done|done|intros (m' & ? & ? & _); congruence|intros f (m' & ? & _ & ? & _); congruence].
Qed.

Lemma rest_search_entries recurse turns d entries rest st w :
  still w0 w → reached' start d → tr_entries tr d = Ok entries → rest ⊆ entries →
  sr_visited_dirs st ⊆ names → unvisited names (sr_visited_dirs st) < S turns → enters turns recurse →
  alone (search_entries fuel root pattern max_results allowed_roots max_file_bytes recurse d rest st)
    (λ r w', still w0 w' ∧ walked' st (λ v own f, (∀ e, e ∈ rest →
       ∃ entry, e = Ok entry ∧ entry_done' (path_join d (de_name entry)) v f) ∧ entries_find' d rest own) r) w.
Proof.
  intros Hw Hd He. revert st w Hw. induction rest as [|[entry|e] rest IH]; intros st w Hw Hsub Hv Ht Hrec;
    cbn [search_entries].
  - split; [done|]. apply walked_nothing. split; [by intros e ?%elem_of_nil|]. by exists [].
  - apply wp_try. eapply wp_mono; [|eapply (rest_search_entry _ _ _ entries); [done..| |done|done|done]; set_solver].
    intros [st1|e] w1 [Hw1 H1]; [|by split]. destruct H1 as (new & own & found & -> & Hex & Hdone & Hfinds).
    set (v := new ++ sr_visited_dirs st) in *.
    assert (Hv1 : v ⊆ names).
    { intros x [?%(ex_reached _ _ _ _ _ _ _ _ _ _ Hex)%reached_names|?]%elem_of_app; [done|by apply Hv]. }
    eapply wp_mono; [|apply IH; [done|set_solver|done| |done]].
    2:{ cbn. pose proof (unvisited_mono names (sr_visited_dirs st) v ltac:(set_solver)). lia. }
    intros r w2 [Hw2 H2]. split; [done|]. destruct r as [st2|e]; [|done].
    destruct H2 as (new' & own' & found' & -> & Hex' & Hdone' & Hfinds'). cbn [set_visited sr_visited_dirs] in *.
    exists (new' ++ new), (own ++ own'), (found ++ found'). rewrite <- app_assoc. fold v. split_and!.
    + rewrite replay_app. by rewrite replay_visited.
    + by apply explored_app.
    + intros e [->|Hin]%elem_of_cons.
      * exists entry. split; [done|]. eapply entry_done_mono; [| |exact Hdone]; set_solver.
      * destruct (Hdone' e Hin) as (en & -> & ?). exists en. split; [done|].
        eapply entry_done_mono; [done| |done]. set_solver.
    + destruct Hfinds' as (parts & Hparts & ->). exists (own :: parts). split; [|done]. constructor; [by exists entry|done].
  - split; [done|]. exists d. split; [done|]. right; left. exists entries. split; [done|]. apply Hsub. by left.
Qed.

Lemma rest_search_recursive turns : enters turns
  (search_recursive fuel root pattern max_results allowed_roots max_file_bytes turns).
Proof.
  induction turns as [|turns IH]; intros d st w Hw Hd Hv Ht; [lia|]. cbn [search_recursive].
  apply wp_try, (rest_call w0); [done|exact I|]. intros r w1 Hs Hw1.
  apply (shows_entries _ _ _ Hshows _ _ _ _ Hw) in Hs as ->. destruct (tr_entries tr d) as [entries|e] eqn:Ee.
  2:{ split; [done|]. exists d. eauto. }
  eapply wp_mono; [|by eapply (rest_search_entries _ turns d entries)].
  intros r w2 [Hw2 Hr]. split; [done|]. destruct r as [st'|e]; [|done].
  destruct Hr as (new & own & found & -> & Hex & Hdone & Hfinds). exists new, own, found. split_and!; [done..| |];
    by exists entries.
Qed.
End Recursion.

(** ** What is reported *)

Definition sum_len (l : list string) : N := foldr (λ s n, str_len s + n)%N 0%N l.
Lemma sum_len_app l l' : sum_len (l ++ l') = (sum_len l + sum_len l')%N.
Proof. induction l as [|s l IH]; [done|]. simpl. rewrite IH. lia. Qed.

(** The first results are kept, and the rest is counted. *)
Record tally (max_results : N) (all : list string) (st : SearchState) : Prop := {
  ta_matches : sr_matches st = take (N.to_nat max_results) all;
  ta_truncated : sr_truncated st = (max_results <? N.of_nat (length all))%N;
  ta_total : sr_total_bytes st = sum_len all;
  ta_retained : sr_retained_bytes st = sum_len (take (N.to_nat max_results) all)
}.
Lemma tally_match max all st r : tally max all st → tally max (all ++ [r]) (search_match max st r).
Proof.
  intros [Hm Ht Htot Hret]. unfold search_match. rewrite Hm, length_take.
  destruct (N.ltb_spec (N.of_nat (N.to_nat max `min` length all)) max) as [Hroom|Hfull].
  - assert (Hlen : length all < N.to_nat max) by lia.
    rewrite (take_ge all) in * by lia. assert (Htake : take (N.to_nat max) (all ++ [r]) = all ++ [r]).
    { apply take_ge. rewrite length_app. simpl. lia. }
    split; cbn; rewrite ?Htake, ?sum_len_app, ?length_app; simpl; [done| |lia|lia].
    rewrite Ht. destruct (N.ltb_spec max (N.of_nat (length all))), (N.ltb_spec max (N.of_nat (length all + 1))); done || lia.
  - assert (Hlen : N.to_nat max ≤ length all) by lia.
    assert (Htake : take (N.to_nat max) (all ++ [r]) = take (N.to_nat max) all) by by rewrite take_app_le.
    split; cbn; rewrite ?Htake, ?sum_len_app, ?length_app; simpl; [done| |lia|done].
    symmetry. apply N.ltb_lt. lia.
Qed.
Lemma tally_refs max all st refs : tally max all st → tally max (all ++ refs) (add_refs max st refs).
Proof.
  unfold add_refs. revert all st. induction refs as [|r refs IH]; intros all st H; [by rewrite app_nil_r|].
  simpl. rewrite cons_middle, (assoc_L (++)). by apply IH, tally_match.
Qed.

Definition found_refs (root pattern : string) (f : Found) : list string :=
  match f with Searched path data => file_refs root pattern path data | Skipped _ => [] end.
Definition is_searched (f : Found) : bool := match f with Searched _ _ => true | Skipped _ => false end.
Definition count_found (searched : bool) (found : list Found) : N :=
  N.of_nat (length (List.filter (λ f, Bool.eqb (is_searched f) searched) found)).
(** The state tells what was found. *)
Definition reports (root pattern : string) (max_results : N) (found : list Found) (st : SearchState) : Prop :=
  tally max_results (concat (map (found_refs root pattern) found)) st ∧
  sr_files_searched st = count_found true found ∧ sr_files_skipped st = count_found false found.

Lemma add_refs_counts max st refs :
  sr_files_searched (add_refs max st refs) = sr_files_searched st ∧
  sr_files_skipped (add_refs max st refs) = sr_files_skipped st.
Proof. unfold add_refs. revert st. induction refs as [|r refs IH]; intros st; [done|]. apply (IH (search_match max st r)). Qed.
Lemma replay_reports root pattern max st before found :
  reports root pattern max before st →
  reports root pattern max (before ++ found) (replay_all root pattern max st found).
Proof.
  revert before st. induction found as [|f found IH]; intros before st H; [by rewrite app_nil_r|].
  cbn [replay_all foldl]. rewrite cons_middle, (assoc_L (++)). apply IH. clear IH.
  destruct H as (Ht & Hs & Hk). unfold reports, count_found in *. rewrite map_app, concat_app, !List.filter_app, !length_app. simpl.
  rewrite app_nil_r. destruct f as [path data|path]; simpl.
  - destruct (add_refs_counts max (search_counted st 1 0) (file_refs root pattern path data)) as [-> ->].
    split; [|simpl; split; lia]. apply tally_refs. by destruct Ht.
  - rewrite app_nil_r. split; [by destruct Ht|simpl; split; lia].
Qed.
Lemma search_start_reports root pattern max v : reports root pattern max [] (search_start v).
Proof. split; [|done]. split; simpl; rewrite ?take_nil; try done. symmetry. apply N.ltb_ge. lia. Qed.
Lemma reports_visited root pattern max found st v :
  reports root pattern max found st → reports root pattern max found (set_visited st v).
Proof. by intros ([] & ? & ?). Qed.

Lemma searched_alone root pattern max path data :
  reports root pattern max [Searched path data]
    (search_counted (add_refs max (search_start []) (file_refs root pattern path data)) 1 0).
Proof.
  destruct (search_start_reports root pattern max []) as [Ht _].
  apply (tally_refs _ _ _ (file_refs root pattern path data)) in Ht.
  destruct (add_refs_counts max (search_start []) (file_refs root pattern path data)) as [Hs Hk].
  split_and!; [|simpl; by rewrite ?Hs, ?Hk..]. simpl. rewrite app_nil_r. by destruct Ht.
Qed.

(** The roots a search may visit. *)
Definition search_scope (t : FsSearchTool) (c : CanonicalPath) : list string :=
  if bool_decide (search_allowed_roots t = []) then [cp_root c] else search_allowed_roots t.

Lemma resolved_canonical tr root rel c :
  canonicalize_within_scope (tree_fs tr) root rel = Ok c → ∃ p, tr_canonicalize tr p = Ok (cp_canonical c).
Proof.
  unfold canonicalize_within_scope, tree_fs. cbn [fs_canonicalize]. destruct (tr_canonicalize tr root) as [cr|e]; [|done].
  cbn. destruct (tr_canonicalize tr (target_of cr rel)) as [ct|e] eqn:E; [|done]. cbn. unfold within_root.
  destruct (negb _); [done|]. intros [= <-]. by eexists.
Qed.

Section Execute.
Context {os : Os} `{!PosixLaws os} (w0 : World) (tr : Tree) (Hshows : shows os w0 tr).
Context (names : list string) (Hnames : canonical_names tr names) (fuel : nat).
Context (Hfuel : ∀ i n, w_nodes w0 !! i = Some n → length (n_data n) < fuel) (Hmany : length names < fuel).
Context (t : FsSearchTool).

(** The files a search of the directory [c] finds: the directories it reaches, each
    once, and of each directory the files its entries lead to, each entry once. *)
Definition search_finds (c : CanonicalPath) (found : list Found) : Prop :=
  ∃ dirs parts,
    NoDup dirs ∧ (∀ d, d ∈ dirs ↔ reached tr (cp_root c) (search_scope t c) (cp_canonical c) d) ∧
    Forall2 (dir_finds w0 tr (cp_root c) (search_max_file_bytes t) (search_scope t c)) dirs parts ∧
    found ≡ₚ concat parts.
Definition answers (c : CanonicalPath) (found : list Found) (report : Report) : Prop :=
  ∃ st, report = search_report t c st ∧
        reports (cp_root c) (search_pattern t) (search_max_results t) found st.

Lemma explored_all c new own found :
  explored w0 tr (cp_root c) (search_max_file_bytes t) (search_scope t c) (cp_canonical c) [cp_canonical c] new own found →
  dir_done w0 tr (cp_root c) (search_max_file_bytes t) (search_scope t c) (cp_canonical c)
    (new ++ [cp_canonical c]) found →
  dir_finds w0 tr (cp_root c) (search_max_file_bytes t) (search_scope t c) (cp_canonical c) own →
  search_finds c found ∧ ∀ e, ¬ broken tr (cp_root c) (search_scope t c) (cp_canonical c) e.
Proof.
  intros [[Hn Hdis] Hr Hd Hf (parts & Hp & Hperm)] Hstart Hown. set (v := new ++ [cp_canonical c]) in *.
  assert (Hdone : ∀ d, d ∈ v → dir_done w0 tr (cp_root c) (search_max_file_bytes t) (search_scope t c) d v found).
  { intros d [?| ->%list_elem_of_singleton]%elem_of_app; [by apply Hd|done]. }
  assert (Hstep : ∀ d x, d ∈ v → meets tr (cp_root c) d x →
    (∃ m, tr_metadata tr x = Ok m) ∧ (visits tr (search_scope t c) x → x ∈ v)).
  { intros d x Hin (entries & entry & He & Hen & Hl). destruct (Hdone d Hin) as (entries' & He' & Hall).
    assert (entries' = entries) as -> by congruence. destruct (Hall _ Hen) as (entry' & [= <-] & H).
    destruct (H _ Hl) as (? & ? & _). done. }
  assert (Hall : ∀ d, reached tr (cp_root c) (search_scope t c) (cp_canonical c) d → d ∈ v).
  { induction 1 as [|d x _ IH Hm Hv]; [set_solver|]. by apply (Hstep d x). }
  split.
  - exists v, (parts ++ [own]). split_and!.
    + apply NoDup_app. split_and!; [done| |apply NoDup_singleton]. set_solver.
    + intros d. split; [|apply Hall]. intros [?| ->%list_elem_of_singleton]%elem_of_app; [by apply Hr|constructor].
    + apply Forall2_app; [done|]. by constructor.
    + rewrite Hperm, concat_app. simpl. rewrite app_nil_r. solve_Permutation.
  - intros e (d & Hrd & Hbad). destruct (Hdone d (Hall d Hrd)) as (entries & He & Hen).
    destruct Hbad as [Hbad|[(entries' & He' & Hin)|(x & Hx & Hbad)]]; [congruence| |].
    + assert (entries' = entries) as -> by congruence. by destruct (Hen _ Hin) as (? & ? & _).
    + destruct (Hstep d x (Hall d Hrd) Hx) as [[m Hm] _]. congruence.
Qed.

Lemma rest_search_dir c st w :
  still w0 w → cp_canonical c ∈ names → st = search_start [cp_canonical c] →
  alone (search_recursive fuel (cp_root c) (search_pattern t) (search_max_results t) (search_scope t c)
           (search_max_file_bytes t) fuel (cp_canonical c) st)
    (λ r w', still w0 w' ∧
       match r with
       | Ok st' => (∃ found, search_finds c found ∧
                     reports (cp_root c) (search_pattern t) (search_max_results t) found st') ∧
                   ∀ e, ¬ broken tr (cp_root c) (search_scope t c) (cp_canonical c) e
       | Err e => broken tr (cp_root c) (search_scope t c) (cp_canonical c) e
       end) w.
Proof.
  intros Hw Hc ->. eapply wp_mono; [|eapply (rest_search_recursive w0 tr Hshows fuel (cp_root c) _ _ _ _ Hfuel names
    Hnames (cp_canonical c) Hc fuel); [done|constructor| |]].
  - intros r w1 [Hw1 Hr]. split; [done|]. destruct r as [st'|e]; [|done].
    destruct Hr as (new & own & found & -> & Hex & Hdone & Hfinds).
    destruct (explored_all _ _ _ _ Hex Hdone Hfinds) as [Hall Hno]. split; [|done]. exists found. split; [done|].
    apply reports_visited. apply (replay_reports _ _ _ _ []), search_start_reports.
  - simpl. set_solver.
  - simpl. pose proof (unvisited_mono names [] [cp_canonical c] ltac:(set_solver)) as Hle.
    unfold unvisited in Hle at 2. rewrite (List.filter_ext _ (λ _, true)) in Hle; [|by intros x; rewrite bool_decide_eq_false_2 by apply not_elem_of_nil].
    rewrite List.forallb_filter_id in Hle; [lia|]. by apply List.forallb_forall.
Qed.

(** A file is searched by itself: found, too large, or refused. *)
Definition single_promise (c : CanonicalPath) (m : Metadata) (report : Report) : Prop :=
  let allowed := is_within_allowed_roots (cp_canonical c) (search_scope t c) in
  let small := (md_len m <=? search_max_file_bytes t)%N in
  (∃ data, allowed = true ∧ small = true ∧ searchable w0 tr (cp_canonical c) data ∧
           answers c [Searched (cp_canonical c) data] report) ∨
  (allowed = true ∧ small = false ∧ answers c [Skipped (cp_canonical c)] report) ∨
  (report_status report = TrFailed ∧
   (allowed = false ∨ small = true ∧ ∀ data, ¬ searchable w0 tr (cp_canonical c) data)).
Lemma rest_search_single c m w :
  still w0 w → tr_metadata tr (cp_canonical c) = Ok m →
  alone (search_single fuel t c (search_scope t c)) (λ report w', still w0 w' ∧ single_promise c m report) w.
Proof.
  intros Hw Hm. unfold search_single, single_promise.
  destruct (is_within_allowed_roots _ _) eqn:Hall; cbn [negb].
  2:{ split; [done|]. right; right. split; [done|by left]. }
  apply wp_bind, (rest_call w0); [done|exact I|]. intros r w1 Hs Hw1.
  apply (shows_metadata _ _ _ Hshows _ _ _ _ Hw) in Hs as ->. rewrite Hm.
  destruct (N.ltb_spec (search_max_file_bytes t) (md_len m)) as [Hlarge|Hsmall].
  { split; [done|]. right; left. split_and!; [done|by apply N.leb_gt|].
    eexists. split; [done|]. apply (replay_reports _ _ _ _ [] [Skipped _]), search_start_reports. }
  rewrite (proj2 (N.leb_le _ _) Hsmall).
  apply wp_bind. eapply wp_mono; [|by apply (rest_search_file w0 tr Hshows)].
  intros [st|e] w2 [Hw2 Hr]; (split; [done|]).
  - destruct Hr as (data & Hdata & ->). left. exists data. split_and!; [done..|]. eexists. split; [done|].
    apply searched_alone.
  - right; right. split; [done|by right].
Qed.

Lemma rest_path_type path (Q : option FileType → World → Prop) w :
  still w0 w →
  (∀ w', still w0 w' → Q match tr_metadata tr path with Ok m => Some (md_type m) | Err _ => None end w') →
  alone (path_type path) Q w.
Proof.
  intros Hw HQ. unfold path_type. apply wp_bind, (rest_call w0); [done|exact I|]. intros r w1 Hs Hw1.
  apply (shows_metadata _ _ _ Hshows _ _ _ _ Hw) in Hs as ->. by apply HQ.
Qed.

(** What a search promises of its report. *)
Definition search_promise (request : RuntimeJobRequest) (report : Report) : Prop :=
  match canonicalize_within_scope (tree_fs tr) (search_root t) (target_from_request request) with
  | Err _ => report_status report = TrFailed
  | Ok c =>
      match tr_metadata tr (cp_canonical c) with
      | Ok m =>
          if is_dir m then
            ((∃ found, search_finds c found ∧ answers c found report) ∧
             ∀ e, ¬ broken tr (cp_root c) (search_scope t c) (cp_canonical c) e) ∨
            (report_status report = TrFailed ∧
             ∃ e, broken tr (cp_root c) (search_scope t c) (cp_canonical c) e)
          else if is_file m then single_promise c m report
          else answers c [] report
      | Err _ => answers c [] report
      end
  end.

Lemma rest_search_execute request w :
  still w0 w →
  alone (search_execute fuel t request) (λ report w', still w0 w' ∧ search_promise request report) w.
Proof.
  intros Hw. unfold search_execute, search_promise. apply wp_bind.
  eapply wp_mono; [|by apply (rest_resolve w0 tr Hshows)]. intros r w1 [Hw1 ->].
  destruct (canonicalize_within_scope _ _ _) as [c|e] eqn:Ec; [|done]. fold (search_scope t c). cbv zeta.
  assert (Hempty : answers c [] (search_report t c (search_start []))) by (eexists; split; [done|apply search_start_reports]).
  apply wp_bind, rest_path_type; [done|]. intros w2 Hw2. destruct (tr_metadata tr (cp_canonical c)) as [m|e] eqn:Em.
  2:{ apply wp_bind, rest_path_type; [done|]. rewrite Em. simpl. by intros w3 Hw3. }
  unfold is_dir, is_file in *. destruct (bool_decide_reflect (md_type m = TFile)) as [Hfile|Hfile].
  - rewrite bool_decide_eq_true_2 by congruence. rewrite bool_decide_eq_false_2 by congruence.
    by apply (rest_search_single c m).
  - rewrite bool_decide_eq_false_2 by congruence. apply wp_bind, rest_path_type; [done|]. intros w3 Hw3. rewrite Em.
    destruct (bool_decide_reflect (md_type m = TDir)) as [Hdir|Hdir].
    + rewrite bool_decide_eq_true_2 by congruence. apply wp_bind.
      eapply wp_mono; [|apply (rest_search_dir c); [done| |done]].
      2:{ destruct (resolved_canonical _ _ _ _ Ec) as [p Hp]. by eapply cn_finite. }
      intros [st|e] w4 [Hw4 Hr]; (split; [done|]).
      * destruct Hr as ((found & Hf & Hrep) & Hno). left. split; [|done]. exists found. split; [done|]. by exists st.
      * right. split; [done|]. by exists e.
    + rewrite bool_decide_eq_false_2 by congruence. by split.
Qed.
End Execute.

(** C21: a search finds exactly what it should.  On a disk at rest, with more turns
    than there are canonical paths and than any file has bytes, a run of
    [fs.search] changes nothing.  For a directory it fails exactly if a directory it
    can reach cannot be listed, or an entry of one or the metadata of what an entry
    leads to cannot be read.  Otherwise the files it reports are, in some order, those
    found in the directories it can reach (through links too, each directory once):
    of each entry once the file it leads to, if that lies in the allowed roots,
    searched if it is small enough and text, skipped otherwise.  Its matches are
    the first [max_results] of all references to lines of the searched files that
    contain the pattern, file by file, with the bytes of all and of the shown ones
    and the numbers of files.  A single file is searched if it is in the allowed
    roots, small enough and text, skipped if it is too large, refused otherwise. *)
Theorem fs_search_exact (os : Os) (Hos : PosixLaws os) w0 tr names fuel t request w report :
  shows os w0 tr → canonical_names tr names →
  (∀ i n, w_nodes w0 !! i = Some n → length (n_data n) < fuel) → length names < fuel →
  steps eq (w0, search_execute fuel t request) (w, Done report) →
  still w0 w ∧ search_promise w0 tr t request report.
Proof.
  intros Hsh Hn Hf Hl Hs. refine (proj2 (wp_adequate _ _ _ _ _ (rest_search_execute w0 tr Hsh names Hn fuel Hf Hl t
    request w0 _) _ _ Hs) _ eq_refl). reflexivity.
Qed.

(** ** Where a search looks *)

Section LooksSearch.
Context (sc : Scope) (root : string) (allowed_roots : list string).
Context (Hopen : ∀ p, is_within_allowed_roots p allowed_roots = true → sc_opens sc p).
Context (fuel : nat) (pattern : string) (max_results max_file_bytes : N).
Abbreviation looks := (tracked (sc_root sc) (looks_below sc)).
Definition more_roots (s s' : Told) : Prop := told_roots s ⊆ told_roots s'.
#[local] Instance more_roots_preorder : PreOrder more_roots.
Proof. split; [intros s|intros s1 s2 s3]; unfold more_roots; [done|apply transitivity]. Qed.

Lemma told_more {R} (c : Sys R) r s : more_roots s (told (sc_root sc) s c r).
Proof. unfold more_roots. destruct c; simpl; try done; destruct r; simpl; try done; case_match; set_solver. Qed.
Lemma more_below s s' p : more_roots s s' → below (told_roots s) p → below (told_roots s') p.
Proof. intros Hs (r & Hr & ?). exists r. split; [by apply Hs|done]. Qed.

Lemma search_lines_only turns fd path k buffer st :
  only (reads_fd fd) (search_lines fuel root pattern max_results turns fd path k buffer st).
Proof.
  revert k buffer st. induction turns as [|turns IH]; intros k buffer st; [done|]. cbn [search_lines].
  apply only_try; [apply read_until_io_only|]. intros [piece b]. case_match; [done|]. by apply only_try.
Qed.
Lemma looks_search_file path st s :
  below (told_roots s) path → is_within_allowed_roots path allowed_roots = true →
  looks (search_file fuel root pattern max_results path st) (λ _ s', more_roots s s') s.
Proof.
  intros Hb Hin. unfold search_file. apply tracked_try, tracked_call; [split; [by left|right; by apply Hopen]|].
  intros [fd|e]; [|done]. eapply (tracked_only _ _ (reads_fd fd)); [|apply search_lines_only|intros _; apply told_more].
  intros R [] Hc; simpl in Hc; try done; subst; simpl. split; [|done]. right. exists path. split; [by left|].
  left. by apply Hopen.
Qed.

Lemma looks_search_entry recurse dir name st s :
  root ∈ told_roots s → below (told_roots s) dir →
  (∀ c st s, root ∈ told_roots s → below (told_roots s) c → looks (recurse c st) (λ _ s', more_roots s s') s) →
  looks (search_entry fuel root pattern max_results allowed_roots max_file_bytes recurse (path_join dir name) st)
    (λ _ s', more_roots s s') s.
Proof.
  intros Hr Hd Hrec. unfold search_entry. apply tracked_bind, tracked_call; [right; right; right; eauto|]. intros r.
  assert (Hm := told_more (Canonicalize (path_join dir name)) r s). set (s1 := told _ _ _ _) in *. destruct r as [c|e]; [|done].
  destruct (path_starts_with c root) eqn:Hc; cbn [negb]; [|done].
  assert (Hb : below (told_roots s1) c) by (exists root; split; [by apply Hm|done]).
  apply tracked_try, tracked_call; [by left|]. intros [m|e]; [|done]. cbn [told]. destruct (is_dir m).
  - case_match; [done|]. case_match; [done|]. eapply tracked_mono; [|apply Hrec; [by apply Hm|done]].
    intros ? s2 Hs2. by etrans.
  - destruct (is_file m); [|done]. destruct (is_within_allowed_roots c allowed_roots) eqn:Hin; cbn [negb]; [|done].
    case_match; [done|]. apply tracked_bind. eapply tracked_mono; [|by apply looks_search_file].
    intros ? s2 Hs2. cbn [tracked]. by etrans.
Qed.
Lemma looks_search_recursive turns dir st s :
  root ∈ told_roots s → below (told_roots s) dir →
  looks (search_recursive fuel root pattern max_results allowed_roots max_file_bytes turns dir st)
    (λ _ s', more_roots s s') s.
Proof.
  revert dir st s. induction turns as [|turns IH]; intros dir st s Hr Hb; [by simpl|]. cbn [search_recursive].
  apply tracked_try, tracked_call; [by left|]. intros [entries|e]; [|done]. cbn [told].
  revert st s Hr Hb. induction entries as [|[entry|e] entries IHe]; intros st s Hr Hb; cbn [search_entries]; [by simpl| |by simpl].
  apply tracked_try. eapply tracked_mono; [|by apply looks_search_entry].
  intros [st'|e] s1 Hs1; [|done]. eapply tracked_mono; [|apply IHe; [by apply Hs1|by eapply more_below]].
  intros ? s2 Hs2. by etrans.
Qed.
End LooksSearch.

(** The search tool opens only what lies in its allowed roots, if it has any. *)
Definition may_search (t : FsSearchTool) (p : string) : Prop :=
  search_allowed_roots t = [] ∨ is_within_allowed_roots p (search_allowed_roots t) = true.
Lemma looks_search sc fuel t request s :
  search_root t = sc_root sc → target_from_request request ∈ sc_asked sc →
  (∀ p, may_search t p → sc_opens sc p) →
  tracked (sc_root sc) (looks_below sc) (search_execute fuel t request) (λ _ _, True) s.
Proof.
  intros Hroot Hrel Hmay. unfold search_execute. rewrite Hroot. apply tracked_bind.
  eapply tracked_mono; [|by apply looks_resolve].
  intros [c|e] s1 [Hc _]; [|exact I]. fold (search_scope t c). cbv zeta.
  pose proof (looks_path _ _ Hc) as Hb. destruct (Hc c eq_refl) as [Hr _].
  assert (Hopen : ∀ p, is_within_allowed_roots p (search_scope t c) = true → sc_opens sc p).
  { intros p Hp. apply Hmay. revert Hp. unfold search_scope, may_search. case_bool_decide; auto. }
  apply tracked_bind, tracked_bind, tracked_call; [by left|]. intros r. cbn [tracked told].
  destruct (bool_decide (_ = Some TFile)).
  - unfold search_single. destruct (is_within_allowed_roots _ _) eqn:Hin; cbn [negb]; [|exact I].
    apply tracked_bind, tracked_call; [by left|]. intros [m|e]; [|exact I]. cbn [told]. case_match; [exact I|].
    apply tracked_bind. eapply tracked_mono; [|by apply (looks_search_file _ _ (search_scope t c) Hopen)].
    by intros.
  - apply tracked_bind, tracked_bind, tracked_call; [by left|]. intros r'. cbn [tracked told].
    destruct (bool_decide (_ = Some TDir)); [|exact I]. apply tracked_bind.
    eapply tracked_mono; [|by apply (looks_search_recursive _ (cp_root c) (search_scope t c) Hopen)]. by intros.
Qed.

(** ** The reading tools, whatever else happens *)

(** The program of a reading tool. *)
Definition reading_program `{UuidLib} (fuel : nat)
  (store : option (OutputRefId → string → result string ArtifactLookupResult)) (invocation : ToolInvocation)
  (request : RuntimeJobRequest) (t : BuiltinTool) : option (Prog Report) :=
  match t with
  | ListBuiltin t => Some (list_execute t request)
  | StatBuiltin t => Some (stat_execute t request)
  | ReadBuiltin t => Some (read_execute store t invocation request)
  | DiffBuiltin t => Some (diff_execute t request)
  | SearchBuiltin t => Some (search_execute fuel t request)
  | _ => None
  end.
(** What its run is about. *)
Definition reading_scope `{UuidLib} (store : option (OutputRefId → string → result string ArtifactLookupResult))
  (request : RuntimeJobRequest) (t : BuiltinTool) : Scope := {|
  sc_root :=
    match t with
    | ListBuiltin t => list_root t | StatBuiltin t => stat_root t | ReadBuiltin t => read_root t
    | DiffBuiltin t => diff_root t | SearchBuiltin t => search_root t | _ => EmptyString
    end;
  sc_asked := target_from_request request :: match t with DiffBuiltin t => [diff_comparison_path t] | _ => [] end;
  sc_opens p := match t with SearchBuiltin t => may_search t p | _ => False end;
  sc_artifact p := match t with ReadBuiltin _ => artifact_path store request p | _ => False end |}.

Lemma tracked_reading {A} root sc (p : Prog A) Q s :
  tracked root (looks_below sc) p Q s → only reading p.
Proof.
  revert s. induction p as [a|R c k IH]; intros s; [done|]. cbn [tracked only]. intros [Hc Hk].
  split; [by destruct c|]. intros r. by eapply IH.
Qed.
Lemma reading_steps {os : Os} `{!PosixLaws os} {A} (others : World → World → Prop) (p : Prog A) w :
  only reading p → wp others still p (λ _ _, True) w.
Proof.
  revert w. induction p as [a|R c k IH]; intros w; [done|]. intros [Hc Hk] w1 r w2 _ Hs. split; [|by apply IH].
  eapply posix_reading; [done|by apply documented].
Qed.

