(* ===== verification/Artifacts.v ===== *)
(** * Artifacts: the local artifact store ([crates/atelia-core/src/artifacts.rs])

    Large output fields are kept as files, a directory per scope with an index of
    its records.  The file system is a tree of entries with symbolic links; every
    call on it may fail, and a failing write may leave a part of its data.  The
    variants for Unix are modelled. *)
From S2P Require Import Prelude Text Domain StoreTypes Settings Truncation Spill Runtime.
From S2P Require Import Paths Tools ToolText FileOps ReadTools.

(** ** The file system *)

Inductive Entry :=
  | EFile (data : bytes) (mode : N)
  | EDir (mode : N)
  | ELink (target : string).
(** Entries by the names that lead to them from the root, without links. *)
Abbreviation Files := (gmap (list string) Entry) (only parsing).

Definition entry_at (d : Files) (k : list string) : option Entry :=
  match k with [] => Some (EDir 493) | _ => d !! k end.

Definition not_found : OsError := io_error KNotFound "No such file or directory".
Definition not_a_directory : OsError := io_error KOther "Not a directory".
Definition is_a_directory : OsError := io_error KOther "Is a directory".
Definition already_exists : OsError := io_error KAlreadyExists "File exists".
Definition too_many_links : OsError := io_error KOther "Too many levels of symbolic links".

(** Resolution of a path; [links] is how many links it may still follow, and
    [create] says that the last name need not exist. *)
Fixpoint walk (links : nat) (d : Files) (create : bool)
  : list string → list PathComponent → io (list string) :=
  fix go (cur : list string) (todo : list PathComponent) : io (list string) :=
  match todo with
  | [] => Ok cur
  | RootDir :: todo => go [] todo
  | CurDir :: todo => go cur todo
  | ParentDir :: todo => go (removelast cur) todo
  | Normal name :: todo =>
      match entry_at d (cur ++ [name]) with
      | None => if create && bool_decide (todo = []) then Ok (cur ++ [name]) else Err not_found
      | Some (EDir _) => go (cur ++ [name]) todo
      | Some (EFile _ _) => if bool_decide (todo = []) then Ok (cur ++ [name]) else Err not_a_directory
      | Some (ELink target) =>
          match links with
          | O => Err too_many_links
          | S links => walk links d create cur (path_components target ++ todo)
          end
      end
  end.
(** How many links the kernel follows. *)
Definition MAXSYMLINKS : nat := 40.

Fixpoint names_string (k : list string) : string :=
  match k with [] => EmptyString | name :: k => "/" +:+ name +:+ names_string k end.
Definition path_string (k : list string) : string :=
  match k with [] => "/" | _ => names_string k end.

(** The working directory and the id of the process. *)
Class Process := { working_dir : list string; process_id : N }.

Section Paths.
Context `{Process}.

Definition resolve (create : bool) (d : Files) (p : string) : io (list string) :=
  if str_is_empty p then Err not_found else walk MAXSYMLINKS d create working_dir (path_components p).
(** The directory of a path and the name in it, which is not followed. *)
Definition parent_of (d : Files) (p : string) : io (list string * string) :=
  match List.rev (path_components p) with
  | Normal name :: front =>
      let? dir := walk MAXSYMLINKS d false working_dir (List.rev front) in
      match entry_at d dir with
      | Some (EDir _) => Ok (dir, name)
      | _ => Err not_a_directory
      end
  | _ => Err (io_error KInvalidInput "path has no file name")
  end.
End Paths.

(** ** Calls *)

(** A call that fails; a failing write has written a part of the data first. *)
Record Fault := { ft_error : OsError; ft_written : option nat }.
(** [mc_faults] says which of the next calls fail, [mc_unseen] which of the next
    [exists] and [is_dir], whose errors mean [false], do. *)
Record Machine := {
  mc_files : Files;
  mc_faults : list (option Fault);
  mc_unseen : list bool;
  mc_sources : Sources;
  mc_counter : N
}.
Definition with_files (m : Machine) (d : Files) : Machine := {|
  mc_files := d; mc_faults := mc_faults m; mc_unseen := mc_unseen m; mc_sources := mc_sources m;
  mc_counter := mc_counter m |}.
Definition with_faults (m : Machine) (faults : list (option Fault)) : Machine := {|
  mc_files := mc_files m; mc_faults := faults; mc_unseen := mc_unseen m; mc_sources := mc_sources m;
  mc_counter := mc_counter m |}.
Definition with_unseen (m : Machine) (unseen : list bool) : Machine := {|
  mc_files := mc_files m; mc_faults := mc_faults m; mc_unseen := unseen; mc_sources := mc_sources m;
  mc_counter := mc_counter m |}.
Definition with_sources (m : Machine) (sources : Sources) : Machine := {|
  mc_files := mc_files m; mc_faults := mc_faults m; mc_unseen := mc_unseen m; mc_sources := sources;
  mc_counter := mc_counter m |}.
Definition with_counter (m : Machine) (counter : N) : Machine := {|
  mc_files := mc_files m; mc_faults := mc_faults m; mc_unseen := mc_unseen m;
  mc_sources := mc_sources m; mc_counter := counter |}.

Definition IO (A : Type) : Type := Machine → Machine * A.
Definition io_ret {A : Type} (a : A) : IO A := λ m, (m, a).
Definition io_bind {A B : Type} (p : IO A) (k : A → IO B) : IO B := λ m, let '(m, a) := p m in k a m.
Notation "'do!' x := p 'in' k" := (io_bind p (λ x, k))
  (at level 10, x name, p at level 200, k at level 200) : secretary_scope.
(** [?] *)
Definition io_need {E A B : Type} (p : IO (result E A)) (k : A → IO (result E B)) : IO (result E B) :=
  io_bind p (λ r, match r with Ok a => k a | Err e => io_ret (Err e) end).
Notation "'need!' x := p 'in' k" := (io_need p (λ x, k))
  (at level 10, x name, p at level 200, k at level 200) : secretary_scope.
Notation "'need!' ' x := p 'in' k" := (io_need p (λ '(x), k))
  (at level 10, x pattern, p at level 200, k at level 200) : secretary_scope.

Abbreviation ArtifactResult := (result ArtifactError).
(** [From<io::Error> for ArtifactError] *)
Definition artifact_io {A : Type} (p : IO (io A)) : IO (ArtifactResult A) :=
  do! r := p in io_ret (map_err (λ _, ArtifactIo) r).

Definition os_call {A : Type} (hit : Fault → Files → Files) (f : Files → Files * io A) : IO (io A) := λ m,
  match mc_faults m with
  | Some fault :: faults =>
      (with_files (with_faults m faults) (hit fault (mc_files m)), Err (ft_error fault))
  | _ =>
      let '(d, r) := f (mc_files m) in
      (with_files (with_faults m (tail (mc_faults m))) d, r)
  end.
(** A call that changes nothing when it fails, and one that changes nothing. *)
Definition changing {A : Type} (f : Files → io (Files * A)) : IO (io A) :=
  os_call (λ _ d, d) (λ d, match f d with Ok (d', a) => (d', Ok a) | Err e => (d, Err e) end).
Definition asking {A : Type} (f : Files → io A) : IO (io A) := os_call (λ _ d, d) (λ d, (d, f d)).
(** [Path::exists] and [Path::is_dir] *)
Definition seeing (f : Files → bool) : IO bool := λ m,
  (with_unseen m (tail (mc_unseen m)), f (mc_files m) && negb (default false (head (mc_unseen m)))).

Definition fetch_add_counter : IO N := λ m, (with_counter m (mc_counter m + 1), mc_counter m).

Section Calls.
Context `{Process}.

Definition canonicalize (p : string) : IO (io string) :=
  asking (λ d, let? k := resolve false d p in Ok (path_string k)).
Definition symlink_metadata (p : string) : IO (io Entry) :=
  asking (λ d, let? '(dir, name) := parent_of d p in ok_or (d !! (dir ++ [name])) not_found).
Definition exists_path (p : string) : IO bool := seeing (λ d, is_ok (resolve false d p)).
Definition is_dir_path (p : string) : IO bool := seeing (λ d,
  match resolve false d p with
  | Ok k => match entry_at d k with Some (EDir _) => true | _ => false end
  | Err _ => false
  end).
(** [create_new(true)]: the file is known by its place. *)
Definition create_new (p : string) (mode : N) : IO (io (list string)) := changing (λ d,
  let? '(dir, name) := parent_of d p in
  reject? is_some (d !! (dir ++ [name])) with already_exists in
  Ok (<[dir ++ [name] := EFile [] mode]> d, dir ++ [name])).
(** [write(true).create(true).truncate(false)] *)
Definition open_or_create (p : string) : IO (io (list string)) := changing (λ d,
  let? k := resolve true d p in
  match entry_at d k with
  | Some (EDir _) => Err is_a_directory
  | Some _ => Ok (d, k)
  | None => Ok (<[k := EFile [] 420]> d, k)
  end).
Definition append_data (k : list string) (data : bytes) (d : Files) : Files :=
  match d !! k with Some (EFile old mode) => <[k := EFile (old ++ data) mode]> d | _ => d end.
Definition write_all (file : list string) (data : bytes) : IO (io unit) :=
  os_call (λ fault d, append_data file (take (default 0 (ft_written fault)) data) d)
    (λ d, (append_data file data d, Ok tt)).
Definition put_file (p : string) (data : bytes) (d : Files) : io Files :=
  let? k := resolve true d p in
  match entry_at d k with
  | Some (EDir _) => Err is_a_directory
  | Some (EFile _ mode) => Ok (<[k := EFile data mode]> d)
  | _ => Ok (<[k := EFile data 420]> d)
  end.
(** [fs::write] *)
Definition write_path (p : string) (data : bytes) : IO (io unit) :=
  os_call (λ fault d, match ft_written fault with
                      | Some n => match put_file p (take n data) d with Ok d' => d' | Err _ => d end
                      | None => d
                      end)
    (λ d, match put_file p data d with Ok d' => (d', Ok tt) | Err e => (d, Err e) end).
Definition rename (source destination : string) : IO (io unit) := changing (λ d,
  let? '(source_dir, source_name) := parent_of d source in
  let? '(dir, name) := parent_of d destination in
  let? entry := ok_or (d !! (source_dir ++ [source_name])) not_found in
  match d !! (dir ++ [name]) with
  | Some (EDir _) => Err is_a_directory
  | _ => Ok (<[dir ++ [name] := entry]> (delete (source_dir ++ [source_name]) d), tt)
  end).
Definition remove_file (p : string) : IO (io unit) := changing (λ d,
  let? '(dir, name) := parent_of d p in
  match d !! (dir ++ [name]) with
  | None => Err not_found
  | Some (EDir _) => Err is_a_directory
  | Some _ => Ok (delete (dir ++ [name]) d, tt)
  end).
Definition set_permissions (p : string) (mode : N) : IO (io unit) := changing (λ d,
  let? k := resolve false d p in
  match d !! k with
  | Some (EFile data _) => Ok (<[k := EFile data mode]> d, tt)
  | Some (EDir _) => Ok (<[k := EDir mode]> d, tt)
  | _ => Ok (d, tt)
  end).
Definition mkdir (p : string) (mode : N) : IO (io unit) := changing (λ d,
  let? '(dir, name) := parent_of d p in
  reject? is_some (d !! (dir ++ [name])) with already_exists in
  Ok (<[dir ++ [name] := EDir mode]> d, tt)).
Definition read_to_string (p : string) : IO (io string) := asking (λ d,
  let? k := resolve false d p in
  match entry_at d k with
  | Some (EFile data _) =>
      map_err (λ _, io_error KInvalidData "stream did not contain valid UTF-8") (from_utf8 data)
  | _ => Err is_a_directory
  end).
(** The names in a directory, and whether each is a directory itself. *)
Definition entries_of (dir : list string) (d : Files) : list (string * bool) :=
  omap (λ e : list string * Entry,
    match last e.1 with
    | Some name =>
        if bool_decide (e.1 = dir ++ [name])
        then Some (name, match e.2 with EDir _ => true | _ => false end) else None
    | None => None
    end) (map_to_list d).
Definition read_dir (p : string) : IO (io (list (string * bool))) := asking (λ d,
  let? k := resolve false d p in
  match entry_at d k with
  | Some (EDir _) => Ok (entries_of k d)
  | _ => Err not_a_directory
  end).
Definition current_dir : IO (io string) := asking (λ _, Ok (path_string working_dir)).

(** [DirBuilder::create] with [recursive(true)]; the parent is shorter. *)
Fixpoint create_dir_all (fuel : nat) (p : string) (mode : N) : IO (io unit) :=
  if str_is_empty p then io_ret (Ok tt)
  else
    let or_is_dir (e : OsError) :=
      do! is_dir := is_dir_path p in io_ret (if is_dir : bool then Ok tt else Err e) in
    do! made := mkdir p mode in
    match made with
    | Ok _ => io_ret (Ok tt)
    | Err e =>
        if negb (is_kind KNotFound e) then or_is_dir e
        else match fuel, path_parent p with
             | S fuel, Some parent =>
                 need! _ := create_dir_all fuel parent mode in
                 do! made := mkdir p mode in
                 match made with Ok _ => io_ret (Ok tt) | Err e => or_is_dir e end
             | _, _ => io_ret (Err (io_error KOther "failed to create whole tree"))
             end
    end.
Definition create_scope_dir (path : string) : IO (io unit) :=
  need! _ := create_dir_all (length (path_components path)) path 448 in
  set_permissions path 448.
End Calls.

(** ** Records *)

Record ArtifactTombstone := { tomb_at : LedgerTimestamp; tomb_reason : string }.
Record LocalArtifactRecord := {
  lar_id : OutputRefId;
  lar_scope : string;
  lar_project_id : option string;
  lar_repository_id : option string;
  lar_path : string;
  lar_uri : string;
  lar_media_type : string;
  lar_label : option string;
  lar_created_at : LedgerTimestamp;
  lar_original_bytes : option N;
  lar_retained_bytes : option N;
  lar_tombstone : option ArtifactTombstone
}.
Definition set_tombstone (r : LocalArtifactRecord) (t : ArtifactTombstone) : LocalArtifactRecord := {|
  lar_id := lar_id r; lar_scope := lar_scope r; lar_project_id := lar_project_id r;
  lar_repository_id := lar_repository_id r; lar_path := lar_path r; lar_uri := lar_uri r;
  lar_media_type := lar_media_type r; lar_label := lar_label r; lar_created_at := lar_created_at r;
  lar_original_bytes := lar_original_bytes r; lar_retained_bytes := lar_retained_bytes r;
  lar_tombstone := Some t |}.
Definition set_bytes (r : LocalArtifactRecord) (original retained : option N) : LocalArtifactRecord := {|
  lar_id := lar_id r; lar_scope := lar_scope r; lar_project_id := lar_project_id r;
  lar_repository_id := lar_repository_id r; lar_path := lar_path r; lar_uri := lar_uri r;
  lar_media_type := lar_media_type r; lar_label := lar_label r; lar_created_at := lar_created_at r;
  lar_original_bytes := or_else original (lar_original_bytes r);
  lar_retained_bytes := or_else retained (lar_retained_bytes r); lar_tombstone := lar_tombstone r |}.
Definition set_scope (r : LocalArtifactRecord) (scope : string) : LocalArtifactRecord := {|
  lar_id := lar_id r; lar_scope := scope; lar_project_id := lar_project_id r;
  lar_repository_id := lar_repository_id r; lar_path := lar_path r; lar_uri := lar_uri r;
  lar_media_type := lar_media_type r; lar_label := lar_label r; lar_created_at := lar_created_at r;
  lar_original_bytes := lar_original_bytes r; lar_retained_bytes := lar_retained_bytes r;
  lar_tombstone := lar_tombstone r |}.

Record ArtifactWriteMetadata := {
  awm_project_id : option string;
  awm_repository_id : option string;
  awm_original_bytes : option N;
  awm_retained_bytes : option N
}.
Definition metadata_default : ArtifactWriteMetadata := {|
  awm_project_id := None; awm_repository_id := None; awm_original_bytes := None;
  awm_retained_bytes := None |}.
(** [max_retention] in milliseconds *)
Record ArtifactRetentionPolicy := { arp_max_retention : N }.
Record ArtifactExpirationReport := {
  aer_requested : N;
  aer_matched : N;
  aer_tombstoned : N;
  aer_deleted_files : N;
  aer_missing_files : N
}.
Definition expiration_report_new (requested : N) : ArtifactExpirationReport := {|
  aer_requested := requested; aer_matched := 0; aer_tombstoned := 0; aer_deleted_files := 0;
  aer_missing_files := 0 |}.
Definition report_matched (r : ArtifactExpirationReport) : ArtifactExpirationReport := {|
  aer_requested := aer_requested r; aer_matched := aer_matched r + 1;
  aer_tombstoned := aer_tombstoned r; aer_deleted_files := aer_deleted_files r;
  aer_missing_files := aer_missing_files r |}.
Definition report_tombstoned (r : ArtifactExpirationReport) : ArtifactExpirationReport := {|
  aer_requested := aer_requested r; aer_matched := aer_matched r;
  aer_tombstoned := aer_tombstoned r + 1; aer_deleted_files := aer_deleted_files r;
  aer_missing_files := aer_missing_files r |}.
(** The end of a deletion: was the file there, and is it still? *)
Definition report_deletion (existed still_exists : bool) (r : ArtifactExpirationReport)
  : ArtifactExpirationReport := {|
  aer_requested := aer_requested r; aer_matched := aer_matched r; aer_tombstoned := aer_tombstoned r;
  aer_deleted_files := aer_deleted_files r + (if existed && negb still_exists then 1 else 0);
  aer_missing_files := aer_missing_files r + (if negb existed && negb still_exists then 1 else 0) |}.

Record ResolvedArtifactRecord := {
  rar_path : string;
  rar_repository_id : option string;
  rar_project_id : option string;
  rar_scope : string
}.
(** [ArtifactLookupResult] *)
Inductive LookupResult :=
  | Found (record : ResolvedArtifactRecord)
  | Denied (reason : ArtifactLookupDenyReason)
  | NotFoundHere.

(** [sort_by] of the creation time and then the id *)
Definition record_le (a b : LocalArtifactRecord) : Prop :=
  (lar_created_at a < lar_created_at b)%Z ∨
  lar_created_at a = lar_created_at b ∧ str_le (as_str (lar_id a)) (as_str (lar_id b)) = true.
#[export] Instance record_le_dec a b : Decision (record_le a b).
Proof. unfold record_le. apply _. Defined.
Definition sort_records (l : list LocalArtifactRecord) : list LocalArtifactRecord :=
  merge_sort record_le l.

(** ** Names and contexts *)

Definition INDEX_FILE : string := "index.json".
Definition LOCK_FILE : string := ".index.lock".
Definition WRITE_FILE_TMP_PREFIX : string := ".atelia-artifact-tmp".
Definition ARTIFACT_SUFFIX : string := ".artifact".

Definition underscore : ascii := "_".
Definition is_label_char (c : ascii) : bool :=
  is_ascii_alphanumeric c || contains_char c "-_.".
(** A character that is not kept becomes one [_], whatever its length; the bytes
    after its first are continuation bytes. *)
Definition label_bytes (l : bytes) : bytes :=
  map (λ c, if is_label_char c then c else underscore)
    (List.filter (λ c, negb (is_continuation c)) l).
Fixpoint drop_while {A : Type} (f : A → bool) (l : list A) : list A :=
  match l with c :: l' => if f c then drop_while f l' else l | [] => [] end.
Definition trim_matches (f : ascii → bool) (l : bytes) : bytes :=
  rev (drop_while f (rev (drop_while f l))).
Definition sanitize_label (value : string) : string :=
  of_bytes (trim_matches (λ c, bool_decide (c = underscore)) (label_bytes (to_bytes value))).
Definition sanitize_segment (value : string) : ArtifactResult string :=
  let sanitized := sanitize_label value in
  reject? str_is_empty sanitized || str_eqb sanitized "." || str_eqb sanitized ".."
    with InvalidScope value in
  Ok sanitized.

Definition ends_with (suffix s : string) : bool :=
  list_prefixb (rev (to_bytes suffix)) (rev (to_bytes s)).
Definition is_utf8 (s : string) : bool := is_ok (from_utf8 (to_bytes s)).
(** [path.file_name().and_then(|name| name.to_str())] *)
Definition file_name_str (p : string) : option string := opt_filter is_utf8 (path_file_name p).

Definition artifact_file_name_matches (file_name : string) (record_id : OutputRefId) : bool :=
  negb (str_eqb file_name INDEX_FILE) && negb (str_eqb file_name LOCK_FILE)
  && starts_with (as_str record_id) file_name && ends_with ARTIFACT_SUFFIX file_name.

Definition differs (value : option string) (expected : string) : bool :=
  match value with Some value => negb (str_eqb value expected) | None => false end.
Definition record_matches_request_context (record : LocalArtifactRecord)
  (repository_id repository_scope project_id : option string) : bool :=
  match repository_id with
  | Some expected =>
      negb (differs (lar_repository_id record) expected)
      && negb (is_none (lar_repository_id record)
               && match repository_scope with
                  | Some scope => negb (str_eqb (lar_scope record) scope)
                  | None => false
                  end)
  | None => true
  end
  && match project_id with
     | Some expected =>
         negb (differs (lar_project_id record) expected)
         && negb (is_none (lar_project_id record) && is_none repository_id)
     | None => is_none (lar_project_id record)
     end.
Definition record_matches_repository_context (record_repository_id : option string)
  (record_scope : string) (repository_id repository_scope : option string) : bool :=
  match repository_id with
  | Some expected =>
      match record_repository_id with
      | Some repository_id => str_eqb repository_id expected
      | None => match repository_scope with
                | Some scope => str_eqb record_scope scope
                | None => str_eqb record_scope expected
                end
      end
  | None => match repository_scope with Some scope => str_eqb record_scope scope | None => true end
  end.

(** [now.saturating_sub(retention)] in [i64] *)
Definition expired_cutoff_millis (now : LedgerTimestamp) (policy : ArtifactRetentionPolicy) : Z :=
  let retention := Z.min (Z.of_N (arp_max_retention policy)) i64_max in
  Z.max i64_min (now - retention).

(** [serde_json] on the records of an index *)
Class IndexCodec := {
  index_to_vec : list LocalArtifactRecord → result string bytes;
  index_from_str : string → result string (list LocalArtifactRecord)
}.

Definition missing_scope_record_error (scope_dir : string) (id : OutputRefId) : ArtifactError :=
  InvalidIndex (to_string_lossy (path_join scope_dir INDEX_FILE))
    ("missing index row for artifact " +:+ as_str id).
Definition duplicate_index_error (root_dir scope : string) (id : OutputRefId) : ArtifactError :=
  InvalidIndex (to_string_lossy (path_join (path_join root_dir scope) INDEX_FILE))
    ("duplicate artifact id " +:+ as_str id +:+ " in index").

Section Store.
Context `{Process} `{Entropy} `{IndexCodec}.

(** ** Files *)

Definition temporary_file_path (path : string) (attempt : N) : IO string :=
  let parent := default "." (path_parent path) in
  let file_name := default "artifact" (file_name_str path) in
  do! suffix := fetch_add_counter in
  io_ret (path_join parent (WRITE_FILE_TMP_PREFIX +:+ "-" +:+ file_name +:+ "-"
            +:+ usize_to_string attempt +:+ "-" +:+ usize_to_string suffix)).
(** The loop over the attempts. *)
Fixpoint open_temporary (attempts : nat) (attempt : N) (path : string)
  : IO (io (list string * string)) :=
  match attempts with
  | O => io_ret (Err (io_error KAlreadyExists "failed to create temporary artifact file"))
  | S attempts =>
      do! temp_path := temporary_file_path path attempt in
      do! opened := create_new temp_path 384 in
      match opened with
      | Ok file => io_ret (Ok (file, temp_path))
      | Err e => if is_kind KAlreadyExists e then open_temporary attempts (attempt + 1) path
                 else io_ret (Err e)
      end
  end.
(** A step whose failure removes the temporary file. *)
Definition or_clean_up (temp_path : string) (step : IO (io unit)) : IO (io unit) :=
  do! r := step in
  match r with
  | Ok _ => io_ret (Ok tt)
  | Err e => do! _ := remove_file temp_path in io_ret (Err e)
  end.
(** [flush] of a [File] does nothing. *)
Definition write_file_bytes (path : string) (bytes : bytes) : IO (io unit) :=
  need! '(file, temp_path) := open_temporary 64 0 path in
  need! _ := or_clean_up temp_path (write_all file bytes) in
  need! _ := or_clean_up temp_path (set_permissions temp_path 384) in
  or_clean_up temp_path (rename temp_path path).

(** [ScopeIndexGuard::acquire]: one process at a time has the lock. *)
Definition acquire (scope_dir : string) : IO (ArtifactResult unit) :=
  artifact_io (need! _ := open_or_create (path_join scope_dir LOCK_FILE) in asking (λ _, Ok tt)).

(** ** The index *)

Definition read_scope_records_unlocked (scope_dir : string)
  : IO (ArtifactResult (list LocalArtifactRecord)) :=
  let index_path := path_join scope_dir INDEX_FILE in
  do! there := exists_path index_path in
  if negb there then io_ret (Ok [])
  else
    need! index_contents := artifact_io (read_to_string index_path) in
    if str_is_empty (trim index_contents) then io_ret (Ok [])
    else io_ret (map_err (InvalidIndex (to_string_lossy index_path)) (index_from_str index_contents)).
Definition write_scope_records_unlocked (scope_dir : string) (records : list LocalArtifactRecord)
  : IO (ArtifactResult unit) :=
  let index_path := path_join scope_dir INDEX_FILE in
  if bool_decide (records = []) then
    do! removed := remove_file index_path in
    io_ret (match removed with
            | Ok _ => Ok tt
            | Err e => if is_kind KNotFound e then Ok tt else Err ArtifactIo
            end)
  else
    match index_to_vec (sort_records records) with
    | Err e => io_ret (Err (InvalidIndex "<serde>" e))
    | Ok serialized =>
        do! counter := fetch_add_counter in
        let tmp := path_join scope_dir (".index-tmp-" +:+ usize_to_string counter +:+ "-"
                     +:+ usize_to_string process_id) in
        need! _ := artifact_io (or_clean_up tmp (write_path tmp serialized)) in
        artifact_io (or_clean_up tmp (rename tmp index_path))
    end.
Definition read_scope_records (scope_dir : string) : IO (ArtifactResult (list LocalArtifactRecord)) :=
  need! _ := acquire scope_dir in read_scope_records_unlocked scope_dir.

(** ** Deleting an artifact *)

Section At.
(** [config.root_dir] *)
Context (root_dir : string).

Definition canonical_root_dir : IO (io string) :=
  do! root := canonicalize root_dir in
  match root with
  | Ok root => io_ret (Ok root)
  | Err _ => if is_absolute root_dir then io_ret (Ok root_dir)
             else need! cwd := current_dir in io_ret (Ok (path_join cwd root_dir))
  end.
Definition path_is_within_root (path root : string) : IO bool :=
  match path_parent path with
  | None => io_ret false
  | Some parent =>
      do! canonical_parent := canonicalize parent in
      io_ret (match canonical_parent with Ok p => path_starts_with p root | Err _ => false end)
  end.
(** [remove_file], for which a missing file is no error *)
Definition remove_if_there (path : string) : IO (ArtifactResult unit) :=
  do! removed := remove_file path in
  io_ret (match removed with
          | Ok _ => Ok tt
          | Err e => if is_kind KNotFound e then Ok tt else Err ArtifactIo
          end).

Definition delete_artifact (output_ref : OutputRef) : IO (ArtifactResult unit) :=
  let path := oref_uri output_ref in
  do! metadata := symlink_metadata path in
  match metadata, file_name_str path with
  | Err _, _ | _, None => io_ret (Ok tt)
  | Ok metadata, Some file_name =>
      if str_eqb file_name INDEX_FILE || str_eqb file_name LOCK_FILE then io_ret (Ok tt)
      else if negb (artifact_file_name_matches file_name (oref_id output_ref)) then
        io_ret (if starts_with (as_str (oref_id output_ref)) file_name then Err ArtifactIo else Ok tt)
      else
        do! resolved := canonicalize path in
        match resolved with
        | Err e =>
            if is_kind KNotFound e then
              need! root := artifact_io canonical_root_dir in
              match metadata with
              | ELink _ =>
                  do! within := path_is_within_root path root in
                  if within then remove_if_there path else io_ret (Ok tt)
              | _ => io_ret (Ok tt)
              end
            else io_ret (Err ArtifactIo)
        | Ok resolved_path =>
            need! root := artifact_io canonical_root_dir in
            if negb (path_starts_with resolved_path root) then io_ret (Ok tt)
            else
              do! within := path_is_within_root path root in
              if within then remove_if_there path else io_ret (Ok tt)
        end
  end.

(** ** Writing an artifact *)

Definition new_output_ref_id : IO OutputRefId := λ m,
  let '(sources, uuid) := draw_uuid (mc_sources m) in
  (with_sources m sources, id_new OutputRefIdKind uuid).
Definition ledger_now : IO LedgerTimestamp := λ m,
  let '(sources, now) := draw_now (mc_sources m) in (with_sources m sources, now).

Definition add_record (dir : string) (record : LocalArtifactRecord) : IO (ArtifactResult unit) :=
  need! _ := acquire dir in
  need! records := read_scope_records_unlocked dir in
  write_scope_records_unlocked dir (records ++ [record]).

Definition write_bytes_with_metadata (scope label media_type : string) (bytes : bytes)
  (metadata : ArtifactWriteMetadata) : IO (ArtifactResult OutputRef) :=
  match sanitize_segment scope with
  | Err e => io_ret (Err e)
  | Ok scope_dir_name =>
      let safe_label := sanitize_label label in
      do! id := new_output_ref_id in
      let file_name := as_str id +:+ "-" +:+ safe_label +:+ ARTIFACT_SUFFIX in
      let dir := path_join root_dir scope_dir_name in
      need! _ := artifact_io (create_scope_dir dir) in
      need! dir := artifact_io (canonicalize dir) in
      let path := path_join dir file_name in
      need! _ := artifact_io (write_file_bytes path bytes) in
      need! canonical := artifact_io (canonicalize path) in
      let uri := to_string_lossy canonical in
      do! created_at := ledger_now in
      let output_ref := {| oref_id := id; oref_uri := uri; oref_media_type := media_type;
                           oref_label := Some label; oref_digest := None |} in
      do! written := add_record dir {|
        lar_id := id; lar_scope := scope_dir_name; lar_project_id := awm_project_id metadata;
        lar_repository_id := awm_repository_id metadata; lar_path := uri; lar_uri := uri;
        lar_media_type := media_type; lar_label := Some label; lar_created_at := created_at;
        lar_original_bytes := awm_original_bytes metadata;
        lar_retained_bytes := awm_retained_bytes metadata; lar_tombstone := None |} in
      match written with
      | Ok _ => io_ret (Ok output_ref)
      | Err e =>
          do! _ := delete_artifact output_ref in
          do! _ := remove_file path in
          io_ret (Err e)
      end
  end.
Definition write_bytes (scope label media_type : string) (bytes : bytes)
  : IO (ArtifactResult OutputRef) :=
  write_bytes_with_metadata scope label media_type bytes metadata_default.

(** The loop of [update_record_bytes]: the first record of the id. *)
Fixpoint update_first (id : OutputRefId) (original retained : option N)
  (records : list LocalArtifactRecord) : option (list LocalArtifactRecord) :=
  match records with
  | [] => None
  | record :: records =>
      if bool_decide (lar_id record = id) then Some (set_bytes record original retained :: records)
      else option_map (cons record) (update_first id original retained records)
  end.
Definition update_record_bytes (scope : string) (id : OutputRefId) (original retained : option N)
  : IO (ArtifactResult unit) :=
  match sanitize_segment scope with
  | Err e => io_ret (Err e)
  | Ok segment =>
      let scope_dir := path_join root_dir segment in
      need! _ := acquire scope_dir in
      need! records := read_scope_records_unlocked scope_dir in
      match update_first id original retained records with
      | None => io_ret (Err (missing_scope_record_error scope_dir id))
      | Some records =>
          if is_none original && is_none retained then io_ret (Ok tt)
          else write_scope_records_unlocked scope_dir records
      end
  end.
Definition remove_record_bytes (scope : string) (id : OutputRefId) : IO (ArtifactResult unit) :=
  match sanitize_segment scope with
  | Err e => io_ret (Err e)
  | Ok segment =>
      let scope_dir := path_join root_dir segment in
      need! _ := acquire scope_dir in
      need! records := read_scope_records_unlocked scope_dir in
      let others := List.filter (λ record, negb (bool_decide (lar_id record = id))) records in
      if bool_decide (length others = length records)
      then io_ret (Err (missing_scope_record_error scope_dir id))
      else write_scope_records_unlocked scope_dir others
  end.

(** ** Listing *)

Definition scope_dir (scope : string) : ArtifactResult string :=
  let? segment := sanitize_segment scope in Ok (path_join root_dir segment).

(** The loop over the records of a scope. *)
Definition check_record_scope (source_scope : string) (record : LocalArtifactRecord)
  : ArtifactResult LocalArtifactRecord :=
  let? record_scope := sanitize_segment (lar_scope record) in
  reject? negb (str_eqb (lar_scope record) record_scope) with InvalidScope (lar_scope record) in
  reject? negb (str_eqb record_scope source_scope) with InvalidScope (lar_scope record) in
  Ok (set_scope record source_scope).
(** The loop over the scopes. *)
Fixpoint read_scopes (names : list string) (records : list LocalArtifactRecord)
  : IO (ArtifactResult (list LocalArtifactRecord)) :=
  match names with
  | [] => io_ret (Ok records)
  | name :: names =>
      let source_scope_name := default EmptyString (opt_filter is_utf8 (Some name)) in
      match sanitize_segment source_scope_name with
      | Err e => io_ret (Err e)
      | Ok source_scope =>
          if negb (str_eqb source_scope source_scope_name)
          then io_ret (Err (InvalidScope source_scope_name))
          else
            need! scoped := read_scope_records (path_join root_dir name) in
            match try_map (check_record_scope source_scope) scoped with
            | Err e => io_ret (Err e)
            | Ok scoped => read_scopes names (records ++ scoped)
            end
      end
  end.
Definition name_le (a b : string) : Prop := str_le a b = true.
#[local] Instance name_le_dec a b : Decision (name_le a b).
Proof. unfold name_le. apply _. Defined.
Definition read_all_records : IO (ArtifactResult (list LocalArtifactRecord)) :=
  do! there := exists_path root_dir in
  if negb there then io_ret (Ok [])
  else
    need! entries := artifact_io (read_dir root_dir) in
    read_scopes (merge_sort name_le (map fst (List.filter snd entries))) [].

Definition list_records (scope : option string) : IO (ArtifactResult (list LocalArtifactRecord)) :=
  need! records :=
    match scope with
    | Some scope =>
        match scope_dir scope with
        | Err e => io_ret (Err e)
        | Ok dir =>
            do! there := exists_path dir in
            if negb there then io_ret (Ok []) else read_scope_records dir
        end
    | None => read_all_records
    end in
  io_ret (Ok (sort_records records)).

(** ** Looking an artifact up *)

(** Where a record's file must be: the rest of its path below the directory of
    the scope, or else its name there. *)
Definition candidate_of (canonical_scope_dir record_path : string) : option string :=
  match path_strip_prefix record_path canonical_scope_dir with
  | Some relative => Some (path_join canonical_scope_dir relative)
  | None => option_map (path_join canonical_scope_dir) (path_file_name record_path)
  end.
Definition validate_record_path (sanitized_scope : string) (record_id : OutputRefId)
  (record_path : string) : IO (option string) :=
  do! canonical := canonicalize (path_join root_dir sanitized_scope) in
  match canonical with
  | Err _ => io_ret None
  | Ok canonical_scope_dir =>
      match candidate_of canonical_scope_dir record_path with
      | None => io_ret None
      | Some candidate_path =>
          match file_name_str candidate_path with
          | None => io_ret None
          | Some name =>
              if str_eqb name INDEX_FILE || str_eqb name LOCK_FILE
                 || negb (artifact_file_name_matches name record_id)
              then io_ret None
              else
                do! metadata := symlink_metadata candidate_path in
                match metadata with
                | Err e => io_ret (if is_kind KNotFound e then Some candidate_path else None)
                | Ok (ELink _) => io_ret None
                | Ok _ =>
                    do! resolved := canonicalize candidate_path in
                    match resolved with
                    | Err e =>
                        io_ret (if is_kind KNotFound e && path_starts_with candidate_path canonical_scope_dir
                                then Some candidate_path else None)
                    | Ok resolved_path =>
                        io_ret (if path_starts_with resolved_path canonical_scope_dir
                                then Some resolved_path else None)
                    end
                end
          end
      end
  end.

(** The matches so far, and whether a record was held back for want of a project. *)
Definition Matches : Type := list ResolvedArtifactRecord * bool.
(** The body of both loops. *)
Definition consider (output_ref_id : OutputRefId) (repository_id repository_scope project_id : option string)
  (record : LocalArtifactRecord) (acc : Matches) : IO (ArtifactResult Matches) :=
  if negb (bool_decide (lar_id record = output_ref_id)) then io_ret (Ok acc)
  else if negb (record_matches_request_context record repository_id repository_scope project_id)
  then io_ret (Ok (acc.1, acc.2 || is_none project_id && is_some (lar_project_id record)))
  else match sanitize_segment (lar_scope record) with
       | Err e => io_ret (Err e)
       | Ok sanitized_scope =>
           do! candidate := validate_record_path sanitized_scope (lar_id record) (lar_path record) in
           io_ret (match candidate with
                   | None => Err (InvalidIndex (lar_path record) "artifact path failed scope validation")
                   | Some path =>
                       Ok (acc.1 ++ [{| rar_path := path; rar_repository_id := lar_repository_id record;
                                        rar_project_id := lar_project_id record;
                                        rar_scope := sanitized_scope |}], acc.2)
                   end)
       end.
Fixpoint consider_all (output_ref_id : OutputRefId) (repository_id repository_scope project_id : option string)
  (records : list LocalArtifactRecord) (acc : Matches) : IO (ArtifactResult Matches) :=
  match records with
  | [] => io_ret (Ok acc)
  | record :: records =>
      need! acc := consider output_ref_id repository_id repository_scope project_id record acc in
      consider_all output_ref_id repository_id repository_scope project_id records acc
  end.
(** The loop over the candidate scopes. *)
Fixpoint consider_scopes (output_ref_id : OutputRefId) (repository_id project_id : option string)
  (scopes : list string) (acc : Matches) : IO (ArtifactResult Matches) :=
  match scopes with
  | [] => io_ret (Ok acc)
  | scope :: scopes =>
      match scope_dir scope with
      | Err e => io_ret (Err e)
      | Ok dir =>
          do! there := exists_path dir in
          if negb there then consider_scopes output_ref_id repository_id project_id scopes acc
          else
            need! records := read_scope_records dir in
            need! acc := consider_all output_ref_id repository_id (Some scope) project_id records acc in
            consider_scopes output_ref_id repository_id project_id scopes acc
      end
  end.
Definition has_output_record_id_in_other_repository_context (output_ref_id : OutputRefId)
  (repository_id repository_scope : option string) : IO (ArtifactResult bool) :=
  need! records := list_records None in
  io_ret (Ok (existsb (λ record, bool_decide (lar_id record = output_ref_id)
    && negb (record_matches_repository_context (lar_repository_id record) (lar_scope record)
               repository_id repository_scope)) records)).

Definition candidate_scopes (repository_scope repository_id : option string) : list string :=
  match repository_scope, repository_id with
  | Some scope, Some id => if str_eqb scope id then [scope] else [scope; id]
  | Some scope, None => [scope]
  | None, Some id => [id]
  | None, None => []
  end.
Definition sanitize_opt (value : option string) : ArtifactResult (option string) :=
  match value with
  | Some value => let? segment := sanitize_segment value in Ok (Some segment)
  | None => Ok None
  end.

Definition lookup_verdict (output_ref_id : OutputRefId) (acc : Matches) : ArtifactResult LookupResult :=
  match acc with
  | ([], denied) => Ok (if denied : bool then Denied ProjectOrJobContextRequired else NotFoundHere)
  | ([only], _) => Ok (Found only)
  | _ => Err (InvalidIndex "artifact index"
                ("duplicate artifact id " +:+ as_str output_ref_id +:+ " in index"))
  end.
Definition resolve_output_record_for_context (output_ref_id : OutputRefId)
  (repository_id repository_scope project_id : option string) : IO (ArtifactResult LookupResult) :=
  match (let? scope := sanitize_opt repository_scope in
         let? id := sanitize_opt repository_id in Ok (scope, id)) with
  | Err e => io_ret (Err e)
  | Ok (repository_scope, repository_id) =>
      need! acc := consider_scopes output_ref_id repository_id project_id
                     (candidate_scopes repository_scope repository_id) ([], false) in
      let needs_full_scan := is_none repository_id && is_none repository_scope in
      need! acc :=
        if bool_decide (acc.1 = []) && needs_full_scan then
          need! all_records := list_records None in
          consider_all output_ref_id repository_id repository_scope project_id all_records acc
        else io_ret (Ok acc) in
      if bool_decide (acc.1 = []) && negb needs_full_scan then
        need! elsewhere := has_output_record_id_in_other_repository_context output_ref_id
                             repository_id repository_scope in
        if elsewhere then io_ret (Ok (Denied RepositoryScopeOrIdentityMismatch))
        else io_ret (lookup_verdict output_ref_id acc)
      else io_ret (lookup_verdict output_ref_id acc)
  end.
Definition resolve_output_path_for_context (output_ref_id : OutputRefId)
  (repository_id repository_scope project_id : option string) : IO (ArtifactResult (option string)) :=
  need! found := resolve_output_record_for_context output_ref_id repository_id repository_scope project_id in
  io_ret (Ok (match found with Found record => Some (rar_path record) | _ => None end)).

(** ** Retention *)

(** The records of the list that [keep] holds of. *)
Fixpoint retain (keep : LocalArtifactRecord → IO bool) (records : list LocalArtifactRecord)
  : IO (list LocalArtifactRecord) :=
  match records with
  | [] => io_ret []
  | record :: records =>
      do! kept := keep record in
      do! others := retain keep records in
      io_ret (if kept : bool then record :: others else others)
  end.
Definition find_expired_artifact_records (scope : option string) (now : LedgerTimestamp)
  (policy : ArtifactRetentionPolicy) : IO (ArtifactResult (list LocalArtifactRecord)) :=
  let retention_cutoff := expired_cutoff_millis now policy in
  need! records := list_records scope in
  do! expired := retain (λ record,
    if negb (lar_created_at record <=? retention_cutoff)%Z then io_ret false
    else if is_none (lar_tombstone record) then io_ret true
    else exists_path (lar_path record)) records in
  io_ret (Ok expired).

Definition validate_expiration_record_path (sanitized_scope : string) (record_id : OutputRefId)
  (record_path : string) : IO (option string) :=
  do! canonical := canonicalize (path_join root_dir sanitized_scope) in
  match canonical with
  | Err _ => io_ret None
  | Ok canonical_scope_dir =>
      match candidate_of canonical_scope_dir record_path with
      | None => io_ret None
      | Some candidate_path =>
          match file_name_str candidate_path with
          | None => io_ret None
          | Some name =>
              if str_eqb name INDEX_FILE || str_eqb name LOCK_FILE
                 || str_eqb name (as_str record_id +:+ "-debug.tmp")
                 || negb (starts_with (as_str record_id) name)
              then io_ret None
              else
                match path_parent record_path with
                | None =>
                    io_ret (if path_starts_with canonical_scope_dir canonical_scope_dir
                            then Some candidate_path else None)
                | Some parent =>
                    do! canonical_parent := canonicalize parent in
                    io_ret (match canonical_parent with
                            | Ok dir => if path_starts_with dir canonical_scope_dir
                                        then Some candidate_path else None
                            | Err _ => None
                            end)
                end
          end
      end
  end.

(** The checks of all records before anything is changed. *)
Fixpoint check_expiration_records (expected_scope : option string) (seen_ids : gset OutputRefId)
  (records : list LocalArtifactRecord) : ArtifactResult unit :=
  match records with
  | [] => Ok tt
  | record :: records =>
      let? sanitized_scope := sanitize_segment (lar_scope record) in
      reject? match expected_scope with
              | Some expected => negb (str_eqb sanitized_scope expected)
              | None => false
              end with InvalidScope (lar_scope record) in
      reject? negb (str_eqb sanitized_scope (lar_scope record)) with InvalidScope (lar_scope record) in
      reject? bool_decide (lar_id record ∈ seen_ids)
        with duplicate_index_error root_dir sanitized_scope (lar_id record) in
      check_expiration_records expected_scope ({[lar_id record]} ∪ seen_ids) records
  end.
(** The targets by scope. *)
Fixpoint group_targets (target_ids : gset OutputRefId) (records : list LocalArtifactRecord)
  (acc : gmap string (gset OutputRefId) * ArtifactExpirationReport)
  : ArtifactResult (gmap string (gset OutputRefId) * ArtifactExpirationReport) :=
  match records with
  | [] => Ok acc
  | record :: records =>
      let? sanitized_scope := sanitize_segment (lar_scope record) in
      group_targets target_ids records
        (if bool_decide (lar_id record ∈ target_ids)
         then (<[sanitized_scope := {[lar_id record]} ∪ default ∅ (acc.1 !! sanitized_scope)]> acc.1,
               report_matched acc.2)
         else acc)
  end.
(** The loop over the records of a scope: what is stored, and what to delete. *)
Fixpoint mark_expired (scope : string) (target_ids : gset OutputRefId) (tombstone : ArtifactTombstone)
  (records : list LocalArtifactRecord) (report : ArtifactExpirationReport)
  : IO (list LocalArtifactRecord * list (OutputRef * string) * ArtifactExpirationReport) :=
  match records with
  | [] => io_ret ([], [], report)
  | record :: records =>
      if negb (bool_decide (lar_id record ∈ target_ids)) then
        do! rest := mark_expired scope target_ids tombstone records report in
        io_ret (record :: rest.1.1, rest.1.2, rest.2)
      else
        let '(record, report) :=
          match lar_tombstone record with
          | None => (set_tombstone record tombstone, report_tombstoned report)
          | Some _ => (record, report)
          end in
        do! candidate := validate_expiration_record_path scope (lar_id record) (lar_path record) in
        do! rest := mark_expired scope target_ids tombstone records report in
        let deletions :=
          match candidate with
          | Some candidate_path =>
              [({| oref_id := lar_id record; oref_uri := to_string_lossy candidate_path;
                   oref_media_type := lar_media_type record; oref_label := lar_label record;
                   oref_digest := None |}, candidate_path)]
          | None => []
          end in
        io_ret (record :: rest.1.1, deletions ++ rest.1.2, rest.2)
  end.
Fixpoint delete_expired (deletions : list (OutputRef * string)) (report : ArtifactExpirationReport)
  : IO (ArtifactResult ArtifactExpirationReport) :=
  match deletions with
  | [] => io_ret (Ok report)
  | (output_ref, path) :: deletions =>
      do! existed := exists_path path in
      need! _ := delete_artifact output_ref in
      do! still_exists := exists_path path in
      delete_expired deletions (report_deletion existed still_exists report)
  end.
Definition expire_scope (scope : string) (target_ids : gset OutputRefId) (tombstone : ArtifactTombstone)
  (report : ArtifactExpirationReport) : IO (ArtifactResult ArtifactExpirationReport) :=
  let dir := path_join root_dir scope in
  need! _ := acquire dir in
  need! records := read_scope_records_unlocked dir in
  do! marked := mark_expired scope target_ids tombstone records report in
  need! _ := write_scope_records_unlocked dir marked.1.1 in
  delete_expired marked.1.2 marked.2.
Fixpoint expire_scopes (scopes : list (string * gset OutputRefId)) (tombstone : ArtifactTombstone)
  (report : ArtifactExpirationReport) : IO (ArtifactResult ArtifactExpirationReport) :=
  match scopes with
  | [] => io_ret (Ok report)
  | (scope, target_ids) :: scopes =>
      need! report := expire_scope scope target_ids tombstone report in
      expire_scopes scopes tombstone report
  end.
Definition safe_expire_artifact_records (scope : option string) (record_ids : list OutputRefId)
  (now : LedgerTimestamp) (tombstone_reason : string)
  : IO (ArtifactResult ArtifactExpirationReport) :=
  need! records := list_records scope in
  let target_ids : gset OutputRefId := list_to_set record_ids in
  match (let? expected_scope := sanitize_opt scope in
         check_expiration_records expected_scope ∅ records) with
  | Err e => io_ret (Err e)
  | Ok _ =>
      let report := expiration_report_new (N.of_nat (size target_ids)) in
      if (aer_requested report =? 0)%N || bool_decide (records = []) then io_ret (Ok report)
      else
        match group_targets target_ids records (∅, report) with
        | Err e => io_ret (Err e)
        | Ok (scope_targets, report) =>
            expire_scopes (btree_to_list scope_targets)
              {| tomb_at := now; tomb_reason := tombstone_reason |} report
        end
  end.
Definition safe_expire_artifacts_by_retention (scope : option string) (now : LedgerTimestamp)
  (policy : ArtifactRetentionPolicy) (tombstone_reason : string)
  : IO (ArtifactResult ArtifactExpirationReport) :=
  need! expired := find_expired_artifact_records scope now policy in
  safe_expire_artifact_records scope (map lar_id expired) now tombstone_reason.
End At.

(** ** The interface of the spill *)

#[export] Instance local_artifact_store : ArtifactWriter string Machine := {|
  write_artifact_bytes root scope label media_type bytes := write_bytes root scope label media_type bytes;
  delete_artifact_bytes root output_ref := delete_artifact root output_ref;
  update_spill_metadata root scope output_ref original retained :=
    update_record_bytes root scope (oref_id output_ref) original retained;
  delete_artifact_record root scope output_ref :=
    remove_record_bytes root scope (oref_id output_ref) |}.
End Store.
