(* ===== verification/ArtifactLaws.v ===== *)
(** * ArtifactLaws: what the artifact store keeps, finds and removes

    Spilled fields are on disk under the references that replace them, a lookup
    finds only files of the scope it was asked about, and an expiration removes
    only files of its targets, whatever calls fail. *)
From S2P Require Import Prelude Text Domain DomainLaws StoreTypes Settings Truncation Spill Runtime.
From S2P Require Import Paths ScopeGuarantees Tools ToolText ToolTextLaws FileOps MutationLaws ReadTools Artifacts.

(** ** Paths and their components *)

(** A name that is one component of a path. *)
Definition plain_name (n : string) : Prop :=
  (slash ∉ to_bytes n) ∧ n ≠ EmptyString ∧ n ≠ "."%string ∧ n ≠ ".."%string.

Lemma bytes_inj a b : to_bytes a = to_bytes b → a = b.
Proof. intros E. by rewrite <- (of_to_bytes a), E, of_to_bytes. Qed.

Lemma split_slash_app l l' cur : split_slash (l ++ slash :: l') cur = split_slash l cur ++ split_slash l' [].
Proof.
  revert cur. induction l as [|c l IH]; intros cur; cbn [split_slash app].
  - by rewrite bool_decide_eq_true_2.
  - case_bool_decide; simpl; by rewrite IH.
Qed.
Lemma split_slash_whole l cur : slash ∉ l → split_slash l cur = [rev cur ++ l].
Proof.
  revert cur. induction l as [|c l IH]; intros cur Hl; cbn [split_slash]; [by rewrite app_nil_r|].
  apply not_elem_of_cons in Hl as [Hc Hl]. rewrite bool_decide_eq_false_2 by congruence.
  rewrite IH by done. cbn [rev]. by rewrite <- app_assoc.
Qed.
Lemma split_slash_ne l cur : split_slash l cur ≠ [].
Proof. revert cur. induction l as [|c l IH]; intros cur; cbn [split_slash]; [done|]. by case_bool_decide. Qed.

Lemma component_of_plain n : plain_name n → component_of (to_bytes n) = Some (Normal n).
Proof.
  intros (_ & H1 & H2 & H3). unfold component_of.
  rewrite !bool_decide_eq_false_2; [by rewrite of_to_bytes|..].
  - intros E. by apply bytes_inj in E.
  - intros E. by apply bytes_inj in E.
  - intros E. apply H1. by apply bytes_inj.
Qed.

(** The pieces of a path with a name appended. *)
Lemma split_slash_join p n : plain_name n → p ≠ EmptyString →
  ∃ x l, to_bytes p = x :: l ∧ (∃ l', to_bytes (path_join p n) = x :: l') ∧
    ∃ front last, split_slash (to_bytes p) [] = front ++ [last] ∧
      (last = [] ∧ front ≠ [] ∧ split_slash (to_bytes (path_join p n)) [] = front ++ [to_bytes n] ∨
       split_slash (to_bytes (path_join p n)) [] = front ++ [last; to_bytes n]).
Proof.
  intros (Hs & _) Hp. destruct (to_bytes p) as [|x l] eqn:Ep; [by apply (bytes_inj p EmptyString) in Ep|].
  exists x, l. assert (Habs : is_absolute n = false).
  { unfold is_absolute. destruct (to_bytes n) as [|c t]; [done|]. apply bool_decide_eq_false_2.
    intros ->. apply Hs. by left. }
  unfold path_join. rewrite Habs, Ep. destruct (List.rev (x :: l)) as [|c r] eqn:Er.
  { apply (f_equal (@length ascii)) in Er. rewrite length_rev in Er. done. }
  assert (Exl : x :: l = rev r ++ [c]) by (by rewrite <- (rev_involutive (x :: l)), Er).
  split; [done|]. case_bool_decide as Hc.
  - subst c. rewrite to_bytes_app, Ep. split; [by eexists|].
    exists (split_slash (rev r) []), []. rewrite Exl, split_slash_app. split; [done|]. left.
    rewrite <- app_assoc. cbn [app]. rewrite split_slash_app, (split_slash_whole (to_bytes n)) by done.
    split_and!; [done|apply split_slash_ne|done].
  - rewrite !to_bytes_app, Ep. split; [by eexists|].
    destruct (exists_last (split_slash_ne (x :: l) [])) as (front & last & E). exists front, last.
    split; [done|right]. change (to_bytes "/") with [slash]. cbn [app].
    change (x :: l ++ slash :: to_bytes n) with ((x :: l) ++ slash :: to_bytes n).
    rewrite split_slash_app, E, (split_slash_whole (to_bytes n)) by done. by rewrite <- app_assoc.
Qed.

Lemma path_components_join p n :
  plain_name n → path_components (path_join p n) = path_components p ++ [Normal n].
Proof.
  intros Hn. destruct (decide (p = EmptyString)) as [->|Hp].
  - pose proof Hn as (Hs & H1 & H2 & _).
    assert (E : path_join EmptyString n = n) by (unfold path_join; by destruct (is_absolute n)).
    rewrite E. unfold path_components at 1. rewrite split_slash_whole by done. cbn [omap list_omap rev app].
    rewrite component_of_plain by done. destruct (to_bytes n) as [|c t] eqn:En; [done|].
    rewrite bool_decide_eq_false_2 by (intros ->; apply Hs; by left).
    rewrite bool_decide_eq_false_2; [done|]. intros E2. apply H2, bytes_inj. by rewrite En.
  - destruct (split_slash_join p n Hn Hp) as (x & l & Ep & (l' & Ej) & front & last & Es & Hcase).
    unfold path_components. rewrite Ep, Ej. rewrite Ep in Es. rewrite Ej in Hcase. rewrite Es.
    assert (Hbody : omap component_of (split_slash (x :: l') []) = omap component_of (front ++ [last]) ++ [Normal n]).
    { destruct Hcase as [(-> & _ & ->)| ->]; rewrite !omap_app; cbn [omap list_omap];
        rewrite component_of_plain by done; [by rewrite app_nil_r|]. rewrite <- app_assoc. by destruct (component_of last). }
    rewrite Hbody. case_bool_decide; [done|].
    assert (Hhead : head (split_slash (x :: l') []) = head (front ++ [last])).
    { destruct Hcase as [(-> & Hf & ->)| ->]; [by destruct front|]. by destruct front. }
    destruct (split_slash (x :: l') []) as [|a la] eqn:Ea; [by apply split_slash_ne in Ea|].
    destruct (front ++ [last]) as [|b lb]; [done|]. injection Hhead as ->. by case_bool_decide.
Qed.

Lemma append_assoc_r a b c : (a +:+ b) +:+ c = a +:+ (b +:+ c).
Proof. apply bytes_inj. rewrite !to_bytes_app. by rewrite app_assoc. Qed.
Lemma append_nil_right a : a +:+ EmptyString = a.
Proof. apply bytes_inj. rewrite to_bytes_app. apply app_nil_r. Qed.
Lemma plain_relative n : plain_name n → is_absolute n = false.
Proof.
  intros (Hs & _). unfold is_absolute. destruct (to_bytes n) as [|c t]; [done|].
  apply bool_decide_eq_false_2. intros ->. apply Hs. by left.
Qed.
Lemma names_string_app k k' : names_string (k ++ k') = names_string k +:+ names_string k'.
Proof. induction k as [|n k IH]; [done|]. cbn [names_string app]. by rewrite IH, !append_assoc_r. Qed.
Lemma path_string_names k : k ≠ [] → path_string k = names_string k.
Proof. by destruct k. Qed.

Lemma path_string_snoc k n :
  Forall plain_name k → plain_name n → path_string (k ++ [n]) = path_join (path_string k) n.
Proof.
  intros Hk Hn. rewrite path_string_names by (by destruct k). rewrite names_string_app.
  unfold path_join. rewrite plain_relative by done. induction k as [|m k _] using rev_ind.
  { cbn. by rewrite append_nil_right. }
  apply Forall_app in Hk as [_ [(Hs & Hne & _) _]%Forall_cons].
  rewrite path_string_names by (by destruct k). rewrite names_string_app at 2. cbn [names_string].
  rewrite !to_bytes_app, rev_app_distr. change (to_bytes "") with (@nil ascii). rewrite app_nil_r.
  rewrite rev_app_distr. destruct (List.rev (to_bytes m)) as [|c r] eqn:E.
  { apply (f_equal (@rev ascii)) in E. rewrite rev_involutive in E. by apply (bytes_inj m EmptyString) in E. }
  cbn [app]. rewrite bool_decide_eq_false_2; [by rewrite append_nil_right|]. intros ->. apply Hs.
  rewrite <- (rev_involutive (to_bytes m)), E. apply list_elem_of_In, in_rev. rewrite rev_involutive. by left.
Qed.
Lemma path_components_string k : Forall plain_name k → path_components (path_string k) = RootDir :: map Normal k.
Proof.
  induction k as [|n k IH] using rev_ind; [done|]. intros [Hk [Hn _]%Forall_cons]%Forall_app.
  rewrite path_string_snoc, path_components_join, IH, map_app by done. done.
Qed.
Lemma path_file_name_join p n : plain_name n → path_file_name (path_join p n) = Some n.
Proof. intros Hn. unfold path_file_name. rewrite path_components_join by done. by rewrite rev_app_distr. Qed.
Lemma path_join_prefix p n : plain_name n → ∃ l, to_bytes (path_join p n) = to_bytes p ++ l.
Proof.
  intros Hn. unfold path_join. rewrite plain_relative by done.
  destruct (List.rev (to_bytes p)) as [|c r] eqn:E.
  - apply (f_equal (@rev ascii)) in E. rewrite rev_involutive in E. rewrite E. by eexists.
  - case_bool_decide; rewrite !to_bytes_app; by eexists.
Qed.
Lemma path_parent_join p n : plain_name n → p ≠ EmptyString →
  ∃ q, path_parent (path_join p n) = Some q ∧ path_components q = path_components p.
Proof.
  intros Hn Hp. assert (Hin : p ∈ path_prefixes (path_join p n)).
  { destruct (path_join_prefix p n Hn) as [l Hl]. unfold path_prefixes. rewrite Hl. apply list_elem_of_fmap.
    exists (length (to_bytes p)). rewrite take_app_length, of_to_bytes. split; [done|].
    apply elem_of_seq. rewrite length_app. lia. }
  apply (find_bool_is_Some (λ q, bool_decide (path_components q = path_components p))) in Hin as [q Hq].
  2:{ by apply bool_decide_eq_true_2. }
  exists q. pose proof Hq as [_ Hc%bool_decide_eq_true]%find_bool_Some. split; [|done].
  unfold path_parent. rewrite path_components_join, rev_app_distr by done. cbn [rev app].
  rewrite rev_involutive. destruct (List.rev (path_components p)); exact Hq.
Qed.

(** ** Resolution *)

Lemma walk_eq links d create cur todo :
  walk links d create cur todo =
  match todo with
  | [] => Ok cur
  | RootDir :: todo => walk links d create [] todo
  | CurDir :: todo => walk links d create cur todo
  | ParentDir :: todo => walk links d create (removelast cur) todo
  | Normal name :: todo =>
      match entry_at d (cur ++ [name]) with
      | None => if create && bool_decide (todo = []) then Ok (cur ++ [name]) else Err not_found
      | Some (EDir _) => walk links d create (cur ++ [name]) todo
      | Some (EFile _ _) => if bool_decide (todo = []) then Ok (cur ++ [name]) else Err not_a_directory
      | Some (ELink target) =>
          match links with
          | O => Err too_many_links
          | S links => walk links d create cur (path_components target ++ todo)
          end
      end
  end.
Proof. by destruct links, todo as [|[]]. Qed.

Definition is_dir_at (d : Files) (k : list string) : Prop := ∃ mode, entry_at d k = Some (EDir mode).

(** A directory that a path leads to, and a name in it. *)
Lemma walk_app links d create cur todo k rest :
  walk links d false cur todo = Ok k → is_dir_at d k → rest ≠ [] →
  ∃ links', walk links d create cur (todo ++ rest) = walk links' d create k rest.
Proof.
  intros Hw [mode Hk] Hrest. revert cur todo Hw.
  induction links as [|links IHl]; intros cur todo; revert cur;
    induction todo as [|c todo IH]; intros cur; rewrite (walk_eq _ _ false); intros Hw.
  1,3: injection Hw as ->; by eexists.
  all: cbn [app]; setoid_rewrite (walk_eq _ _ _ _ (c :: _)) at 1.
  all: destruct c as [| | |name]; [by apply IH..|].
  all: destruct (entry_at d (cur ++ [name])) as [[data mode'|mode'|target]|] eqn:E; [|by apply IH| |done].
  - case_bool_decide; [|done]. injection Hw as <-. by rewrite E in Hk.
  - done.
  - case_bool_decide; [|done]. injection Hw as <-. by rewrite E in Hk.
  - rewrite app_assoc. by apply IHl.
Qed.

Lemma walk_prefix links d cur a b k :
  walk links d false cur (a ++ b) = Ok k → ∃ k', walk links d false cur a = Ok k'.
Proof.
  revert cur a. induction links as [|links IHl]; intros cur a; revert cur;
    induction a as [|c a IH]; intros cur; cbn [app].
  1,3: intros _; rewrite walk_eq; by eexists.
  all: rewrite (walk_eq _ _ _ cur (c :: a ++ b)), (walk_eq _ _ _ cur (c :: a)).
  all: destruct c as [| | |name]; try apply IH.
  all: destruct (entry_at d (cur ++ [name])) as [[data mode|mode|target]|]; try apply IH; try done.
  1,2: case_bool_decide as E; [|done]; apply app_eq_nil in E as [-> _]; by eexists.
  rewrite app_assoc. apply IHl.
Qed.
Lemma elem_of_rev_list {A : Type} (c : A) l : c ∈ List.rev l ↔ c ∈ l.
Proof. rewrite !list_elem_of_In. symmetry. apply in_rev. Qed.

(** The places that paths lead to have plain names. *)
Lemma split_slash_clean l cur x : slash ∉ cur → x ∈ split_slash l cur → slash ∉ x.
Proof.
  revert cur. induction l as [|c l IH]; intros cur Hcur; cbn [split_slash].
  - intros ->%list_elem_of_singleton. by rewrite elem_of_rev_list.
  - case_bool_decide.
    + intros [->|Hx]%elem_of_cons; [by rewrite elem_of_rev_list|]. eapply IH; [|done]. apply not_elem_of_nil.
    + apply IH. apply not_elem_of_cons. split; [congruence|done].
Qed.
Lemma components_plain p n : Normal n ∈ path_components p → plain_name n.
Proof.
  intros Hn. assert (Hb : Normal n ∈ omap component_of (split_slash (to_bytes p) [])).
  { unfold path_components in Hn. destruct (to_bytes p) as [|c l]; [done|].
    case_bool_decide; [by apply elem_of_cons in Hn as [?|?]|]. destruct (split_slash (c :: l) []); [done|].
    case_bool_decide; [by apply elem_of_cons in Hn as [?|?]|done]. }
  apply list_elem_of_omap in Hb as (x & Hx & E). apply split_slash_clean in Hx; [|apply not_elem_of_nil].
  unfold component_of in E. do 3 (case_bool_decide; [done|]). injection E as <-.
  split_and!; [by rewrite to_of_bytes|..]; intros E; apply (f_equal to_bytes) in E; by rewrite to_of_bytes in E.
Qed.
Lemma walk_plain links d create cur todo k : Forall plain_name cur →
  (∀ n, Normal n ∈ todo → plain_name n) → walk links d create cur todo = Ok k → Forall plain_name k.
Proof.
  revert cur todo. induction links as [|links IHl]; intros cur todo; revert cur;
    induction todo as [|c todo IH]; intros cur Hcur Htodo; rewrite walk_eq.
  1,3: by intros [= <-].
  all: assert (Htodo' : ∀ n, Normal n ∈ todo → plain_name n) by (intros; apply Htodo; by right).
  all: destruct c as [| | |name]; [by apply IH|by apply IH| |].
  1,3: apply IH; [|done]; destruct cur as [|x cur _] using rev_ind; [done|]; rewrite removelast_last; by apply Forall_app in Hcur as [].
  all: assert (Hname : Forall plain_name (cur ++ [name])) by
    (apply Forall_app_2; [done|]; constructor; [apply Htodo; by left|constructor]).
  all: destruct (entry_at d (cur ++ [name])) as [[data mode|mode|target]|];
    try (by apply IH); try (case_match; by intros [= <-]); try done.
  apply IHl; [done|]. intros n [Hn|Hn]%elem_of_app; [by eapply components_plain|auto].
Qed.
Lemma below_path_string k k' : Forall plain_name k → Forall plain_name k' →
  path_starts_with (path_string k) (path_string k') = true ↔ k' `prefix_of` k.
Proof.
  intros Hk Hk'. rewrite starts_with_below. unfold below. rewrite !path_components_string by done. split.
  - intros [l E]. injection E as E. revert k' Hk' E. clear Hk. induction k as [|x k IH]; intros [|y k'] Hk' E; try done.
    + by eexists.
    + injection E as -> E. apply prefix_cons, IH; [by apply Forall_cons in Hk' as []|done].
  - intros [l ->]. exists (map Normal l). by rewrite map_app.
Qed.

(** ** Names *)

Lemma plain_long n : slash ∉ to_bytes n → 3 ≤ length (to_bytes n) → plain_name n.
Proof. intros Hs Hn. split_and!; [done|..]; intros ->; cbn in Hn; lia. Qed.
Lemma decimal_no_slash fuel n acc : slash ∉ to_bytes acc → slash ∉ to_bytes (decimal_digits fuel n acc).
Proof.
  assert (Hd : ∀ k acc, (k < 10)%N → slash ∉ to_bytes acc → slash ∉ to_bytes (String (digit k) acc)).
  { intros k acc' Hk Hacc. unfold to_bytes in *. cbn. apply not_elem_of_cons. split; [|done].
    intros E. apply (f_equal code) in E. rewrite (code_digit k Hk) in E. change (code slash) with 47%N in E. lia. }
  revert n acc. induction fuel as [|fuel IH]; intros n acc Hacc; cbn [decimal_digits]; [done|].
  pose proof (N.mod_upper_bound n 10). pose proof (Hd (n mod 10)%N acc).
  repeat case_match; try apply IH; (apply Hd || idtac); try done; lia.
Qed.
Lemma number_no_slash n : slash ∉ to_bytes (usize_to_string n).
Proof. apply decimal_no_slash. cbn. apply not_elem_of_nil. Qed.

(** Names of temporary files. *)
Definition index_tmp (n : string) : Prop := starts_with ".index-tmp-" n = true.
Definition file_tmp (n : string) : Prop := starts_with WRITE_FILE_TMP_PREFIX n = true.
Lemma starts_with_prefix a b : starts_with a (a +:+ b) = true.
Proof. unfold starts_with. by rewrite strip_prefix_app. Qed.
Lemma plain_index_tmp c pid :
  plain_name (".index-tmp-" +:+ usize_to_string c +:+ "-" +:+ usize_to_string pid).
Proof.
  apply plain_long; rewrite !to_bytes_app; [|rewrite !length_app; cbn; lia].
  rewrite !not_elem_of_app. split_and!; try apply number_no_slash; by (apply (bool_decide_unpack _); vm_compute).
Qed.

Lemma drop_while_subseteq {A : Type} (f : A → bool) l : drop_while f l ⊆ l.
Proof. induction l as [|c l IH]; cbn; [done|]. destruct (f c); [set_solver|done]. Qed.
Lemma trim_matches_subseteq f l : trim_matches f l ⊆ l.
Proof.
  intros c Hc. unfold trim_matches in Hc. rewrite elem_of_rev_list in Hc. apply drop_while_subseteq in Hc.
  rewrite elem_of_rev_list in Hc.
  by apply drop_while_subseteq in Hc.
Qed.
Lemma label_no_slash v : slash ∉ to_bytes (sanitize_label v).
Proof.
  unfold sanitize_label. rewrite to_of_bytes. intros Hs%trim_matches_subseteq. unfold label_bytes in Hs.
  apply list_elem_of_fmap in Hs as (c & E & _). destruct (is_label_char c) eqn:Ec; [|done].
  rewrite <- E in Ec. done.
Qed.
Lemma segment_plain v s : sanitize_segment v = Ok s → plain_name s.
Proof.
  unfold sanitize_segment. intros [Hs [= <-]]%reject_Ok. apply orb_false_iff in Hs as [[H1 H2]%orb_false_iff H3].
  split_and!; [apply label_no_slash|..]; intros E; by rewrite E in *.
Qed.

Lemma drop_while_head {A : Type} (f : A → bool) l c : head (drop_while f l) = Some c → f c = false.
Proof. induction l as [|x l IH]; cbn; [done|]. destruct (f x) eqn:E; [done|]. by intros [= <-]. Qed.
Lemma drop_while_id {A : Type} (f : A → bool) l : (∀ c, head l = Some c → f c = false) → drop_while f l = l.
Proof. destruct l as [|x l]; cbn; [done|]. intros Hx. by rewrite Hx. Qed.
Lemma drop_while_suffix {A : Type} (f : A → bool) l : ∃ l', l = l' ++ drop_while f l.
Proof.
  induction l as [|x l [l' E]]; [by exists []|]. cbn. destruct (f x); [exists (x :: l'); cbn; by rewrite <- E|by exists []].
Qed.
Lemma trim_matches_idem f l : trim_matches f (trim_matches f l) = trim_matches f l.
Proof.
  unfold trim_matches. set (x := drop_while f l). destruct (drop_while_suffix f (rev x)) as [z Ez].
  set (y := drop_while f (rev x)) in *. assert (Ex : x = rev y ++ rev z) by (by rewrite <- rev_app_distr, <- Ez, rev_involutive).
  rewrite (drop_while_id f (rev y)).
  - rewrite rev_involutive. f_equal. apply drop_while_id. intros c. apply drop_while_head.
  - intros c Hc. apply (drop_while_head f l). fold x. rewrite Ex. by destruct (rev y).
Qed.
Lemma label_char_byte c : is_label_char c = true → is_continuation c = false.
Proof. destruct c as [[][][][][][][][]]; vm_compute; congruence. Qed.
Lemma label_bytes_id l : Forall (λ c, is_label_char c = true) l → label_bytes l = l.
Proof.
  unfold label_bytes. induction 1 as [|c l Hc Hl IH]; [done|]. cbn. rewrite (label_char_byte c Hc). cbn. by rewrite Hc, IH.
Qed.
Lemma label_bytes_chars l : Forall (λ c, is_label_char c = true) (label_bytes l).
Proof.
  apply Forall_forall. intros c Hc. unfold label_bytes in Hc. apply list_elem_of_fmap in Hc as (x & -> & _).
  by destruct (is_label_char x) eqn:E.
Qed.
Lemma sanitize_label_idem v : sanitize_label (sanitize_label v) = sanitize_label v.
Proof.
  unfold sanitize_label. rewrite to_of_bytes, label_bytes_id; [by rewrite trim_matches_idem|].
  apply Forall_forall. intros c Hc%trim_matches_subseteq.
  by apply (proj1 (Forall_forall _ _) (label_bytes_chars _)) in Hc.
Qed.
Lemma segment_idem v s : sanitize_segment v = Ok s → sanitize_segment s = Ok s.
Proof.
  unfold sanitize_segment. intros [Hs [= <-]]%reject_Ok. rewrite sanitize_label_idem. by rewrite Hs.
Qed.

(** ** Programs *)

Definition wpio {A : Type} (p : IO A) (Q : A → Machine → Prop) (m : Machine) : Prop := Q (p m).2 (p m).1.

Lemma wpio_ret {A : Type} (a : A) Q m : Q a m → wpio (io_ret a) Q m.
Proof. done. Qed.
Lemma wpio_bind {A B : Type} (p : IO A) (k : A → IO B) Q m :
  wpio p (λ a m', wpio (k a) Q m') m → wpio (io_bind p k) Q m.
Proof. unfold wpio, io_bind. by destruct (p m). Qed.
Lemma wpio_need {E A B : Type} (p : IO (result E A)) (k : A → IO (result E B)) Q m :
  wpio p (λ r m', match r with Ok a => wpio (k a) Q m' | Err e => Q (Err e) m' end) m →
  wpio (io_need p k) Q m.
Proof. unfold io_need. intros Hp. apply wpio_bind. revert Hp. unfold wpio. by destruct (p m).2. Qed.
Lemma wpio_mono {A : Type} (p : IO A) (Q Q' : A → Machine → Prop) m :
  wpio p Q m → (∀ a m', Q a m' → Q' a m') → wpio p Q' m.
Proof. unfold wpio. auto. Qed.
Lemma wpio_and {A : Type} (p : IO A) (Q Q' : A → Machine → Prop) m :
  wpio p Q m → wpio p Q' m → wpio p (λ a m', Q a m' ∧ Q' a m') m.
Proof. done. Qed.
Lemma wpio_artifact_io {A : Type} (p : IO (io A)) (Q : ArtifactResult A → Machine → Prop) m :
  wpio p (λ r m', Q (map_err (λ _, ArtifactIo) r) m') m → wpio (artifact_io p) Q m.
Proof. intros Hp. apply wpio_bind. eapply wpio_mono; [exact Hp|]. done. Qed.

(** What every call keeps. *)
Record keeps (m m' : Machine) : Prop := {
  kp_sources : mc_sources m' = mc_sources m;
  kp_unseen : mc_unseen m = [] → mc_unseen m' = [];
  kp_faults : mc_faults m = [] → mc_faults m' = []
}.
#[local] Instance keeps_preorder : PreOrder keeps.
Proof.
  split; [by intros m|]. intros a b c [A1 A2 A3] [B1 B2 B3]. split; [congruence|auto..].
Qed.

Lemma wpio_changing {A : Type} (f : Files → io (Files * A)) Q m :
  (∀ e m', keeps m m' → mc_files m' = mc_files m → (mc_faults m = [] → f (mc_files m) = Err e) → Q (Err e) m') →
  (∀ a m', keeps m m' → f (mc_files m) = Ok (mc_files m', a) → Q (Ok a) m') →
  wpio (changing f) Q m.
Proof.
  intros He Ho. unfold wpio, changing, os_call. destruct (mc_faults m) as [|[fault|] faults] eqn:Ef.
  - destruct (f (mc_files m)) as [[d a]|e] eqn:E; cbn; [apply Ho|apply He]; try done; by split.
  - apply He; [split; try done; cbn; congruence|done..].
  - destruct (f (mc_files m)) as [[d a]|e] eqn:E; cbn; [apply Ho|apply He]; try done;
      (split; try done; cbn; congruence).
Qed.
Lemma wpio_asking {A : Type} (f : Files → io A) Q m :
  (∀ e m', keeps m m' → mc_files m' = mc_files m → (mc_faults m = [] → f (mc_files m) = Err e) → Q (Err e) m') →
  (∀ a m', keeps m m' → mc_files m' = mc_files m → f (mc_files m) = Ok a → Q (Ok a) m') →
  wpio (asking f) Q m.
Proof.
  intros He Ho. unfold wpio, asking, os_call. destruct (mc_faults m) as [|[fault|] faults] eqn:Ef.
  - destruct (f (mc_files m)) as [a|e] eqn:E; cbn; [apply Ho|apply He]; try done; by split.
  - apply He; [split; try done; cbn; congruence|done..].
  - destruct (f (mc_files m)) as [a|e] eqn:E; cbn; [apply Ho|apply He]; try done;
      (split; try done; cbn; congruence).
Qed.
Lemma wpio_seeing (f : Files → bool) Q m :
  mc_unseen m = [] → (∀ m', keeps m m' → mc_files m' = mc_files m → Q (f (mc_files m)) m') →
  wpio (seeing f) Q m.
Proof.
  intros Hu HQ. unfold wpio, seeing. rewrite Hu. cbn. rewrite andb_true_r. apply HQ; [by split|done].
Qed.
Lemma wpio_counter Q m : (∀ m', keeps m m' → mc_files m' = mc_files m → Q (mc_counter m) m') →
  wpio fetch_add_counter Q m.
Proof. intros HQ. apply HQ; [by split|done]. Qed.

(** [serde_json] reads back the records it wrote, as text that is not blank. *)
Class IndexCodecLaws `{IndexCodec} : Prop := {
  index_written l : is_ok (index_to_vec l) = true;
  index_read_back l data : index_to_vec l = Ok data →
    ∃ text, from_utf8 data = Ok text ∧ str_is_empty (trim text) = false ∧ index_from_str text = Ok l
}.

(** ** The directory of the store *)

Section Laws.
Context `{Process} `{Entropy} `{IndexCodecLaws}.
(** The directory and where it really is. *)
Context (root_dir : string) (R : list string).

Definition key (s n : string) : list string := R ++ [s; n].

(** The records that the index of a scope holds. *)
Definition decode (data : bytes) : option (list LocalArtifactRecord) :=
  match from_utf8 data with
  | Ok text => if str_is_empty (trim text) then Some []
               else match index_from_str text with Ok l => Some l | Err _ => None end
  | Err _ => None
  end.
Definition index_of (d : Files) (s : string) : option (list LocalArtifactRecord) :=
  match d !! key s INDEX_FILE with
  | None => Some []
  | Some (EFile data _) => decode data
  | Some _ => None
  end.

(** Directories of scopes with files in them, and nothing else, below a real
    directory that [root_dir] leads to, whatever is below it. *)
Record layout (d : Files) : Prop := {
  lay_plain : Forall plain_name R;
  lay_cwd : Forall plain_name working_dir;
  lay_named : root_dir ≠ EmptyString;
  lay_real : ∀ k k', R = k ++ k' → is_dir_at d k;
  lay_leads : ∀ d', (∀ k, (∀ l, l ≠ [] → k ≠ R ++ l) → d' !! k = d !! k) →
    walk MAXSYMLINKS d' false working_dir (path_components root_dir) = Ok R;
  lay_shape : ∀ l e, l ≠ [] → d !! (R ++ l) = Some e →
    match l with
    | [_] => ∃ mode, e = EDir mode
    | [s; _] => (∃ data mode, e = EFile data mode) ∧ ∃ mode, d !! (R ++ [s]) = Some (EDir mode)
    | _ => False
    end
}.
Definition scope_at (d : Files) (s : string) : Prop := ∃ mode, d !! (R ++ [s]) = Some (EDir mode).

Lemma entry_at_scope d s : entry_at d (R ++ [s]) = d !! (R ++ [s]).
Proof. by destruct R. Qed.
Lemma key_snoc s n : (R ++ [s]) ++ [n] = key s n.
Proof. unfold key. by rewrite <- app_assoc. Qed.
Lemma entry_at_key d s n : entry_at d (key s n) = d !! key s n.
Proof. unfold key. by destruct R. Qed.
Lemma layout_leads d : layout d → walk MAXSYMLINKS d false working_dir (path_components root_dir) = Ok R.
Proof. intros Hl. by apply (lay_leads _ Hl). Qed.
Lemma layout_root d : layout d → is_dir_at d R.
Proof. intros Hl. apply (lay_real _ Hl R []). by rewrite app_nil_r. Qed.
Lemma layout_file d s n e : layout d → d !! key s n = Some e → ∃ data mode, e = EFile data mode.
Proof. intros Hl He. by apply (lay_shape _ Hl [s; n]) in He as [? _]. Qed.

(** A path that leads to the directory of a scope. *)
Definition dir_path (p s : string) : Prop :=
  p ≠ EmptyString ∧ ∀ d, layout d → scope_at d s →
    walk MAXSYMLINKS d false working_dir (path_components p) = Ok (R ++ [s]).

Lemma join_nonempty p n : plain_name n → path_join p n ≠ EmptyString.
Proof. intros Hn E. pose proof (path_components_join p n Hn) as Hc. rewrite E in Hc. by destruct (path_components p). Qed.
Lemma dir_path_join s : plain_name s → dir_path (path_join root_dir s) s.
Proof.
  intros Hs. split; [by apply join_nonempty|]. intros d Hl [mode Hd]. rewrite path_components_join by done.
  destruct (walk_app MAXSYMLINKS d false working_dir (path_components root_dir) R [Normal s])
    as [links ->]; [by apply layout_leads|by apply layout_root|done|].
  rewrite walk_eq, entry_at_scope, Hd, walk_eq. done.
Qed.
Lemma walk_real links d k : (∀ k1 k2, k = k1 ++ k2 → is_dir_at d k1) →
  walk links d false [] (map Normal k) = Ok k.
Proof.
  intros Hr. enough (∀ cur todo, k = cur ++ todo → walk links d false cur (map Normal todo) = Ok k) by eauto.
  intros cur todo. revert cur. induction todo as [|n todo IH]; intros cur E; rewrite walk_eq; cbn [map].
  - by rewrite E, app_nil_r.
  - destruct (Hr (cur ++ [n]) todo) as [mode ->]; [by rewrite E, <- app_assoc|]. apply IH. by rewrite E, <- app_assoc.
Qed.
Lemma dir_path_string s : Forall plain_name R → plain_name s → dir_path (path_string (R ++ [s])) s.
Proof.
  intros HR Hs. split; [by rewrite path_string_snoc by done; apply join_nonempty|]. intros d Hl [mode Hd].
  rewrite path_components_string by (apply Forall_app_2; [done|constructor; [done|constructor]]). rewrite walk_eq. apply walk_real.
  intros k1 k2 E. apply app_eq_app in E as (l & [[-> E]|[-> E]]).
  - by apply (lay_real _ Hl k1 l).
  - destruct l as [|x l]; [rewrite app_nil_r; by apply layout_root|].
    injection E as <- E. symmetry in E. apply app_eq_nil in E as [-> ->]. exists mode. by rewrite entry_at_scope.
Qed.

Lemma parent_in d p s n : layout d → scope_at d s → dir_path p s → plain_name n →
  parent_of d (path_join p n) = Ok (R ++ [s], n).
Proof.
  intros Hl Hs [_ Hp] Hn. unfold parent_of. rewrite path_components_join, rev_app_distr by done. cbn [rev app].
  rewrite rev_involutive, (Hp d Hl Hs), entry_at_scope. by destruct Hs as [mode ->].
Qed.
Lemma resolve_in create d p s n : layout d → scope_at d s → dir_path p s → plain_name n →
  resolve create d (path_join p n) =
  match d !! key s n with
  | Some _ => Ok (key s n)
  | None => if create then Ok (key s n) else Err not_found
  end.
Proof.
  intros Hl Hs [_ Hp] Hn. unfold resolve. destruct (str_is_empty (path_join p n)) eqn:Ee.
  { destruct (path_join p n) eqn:E; [by apply join_nonempty in E|done]. }
  rewrite path_components_join by done.
  destruct (walk_app MAXSYMLINKS d create working_dir (path_components p) (R ++ [s]) [Normal n])
    as [links ->]; [by apply Hp|destruct Hs as [mode Hs]; exists mode; by rewrite entry_at_scope|done|].
  rewrite walk_eq, key_snoc, entry_at_key. destruct (d !! key s n) as [e|] eqn:E.
  - destruct (layout_file _ _ _ _ Hl E) as (data & mode & ->). done.
  - rewrite bool_decide_eq_true_2, andb_true_r by done. done.
Qed.

(** ** What a program changes *)

Lemma key_inj s n s' n' : key s n = key s' n' → s = s' ∧ n = n'.
Proof. unfold key. intros E%app_inv_head. by injection E. Qed.
Lemma scope_not_key s s' n : R ++ [s] ≠ key s' n.
Proof. unfold key. intros E%app_inv_head. done. Qed.

Lemma layout_files d d' s :
  layout d → scope_at d s → (∀ k, (∀ n, k ≠ key s n) → d' !! k = d !! k) →
  (∀ n e, d' !! key s n = Some e → ∃ data mode, e = EFile data mode) → layout d'.
Proof.
  intros Hl Hs Hsame Hfiles. assert (Hscope : ∀ s', d' !! (R ++ [s']) = d !! (R ++ [s'])).
  { intros s'. apply Hsame. intros n. apply scope_not_key. }
  split.
  - apply (lay_plain _ Hl).
  - apply (lay_cwd _ Hl).
  - apply (lay_named _ Hl).
  - intros k k' E. destruct (lay_real _ Hl k k' E) as [mode Hm]. exists mode. destruct k as [|x k]; [done|].
    cbn in *. rewrite Hsame; [done|]. intros n En. apply (f_equal (@length string)) in E, En.
    unfold key in En. cbn [length] in E, En. rewrite length_app in E, En. simpl in *. lia.
  - intros d2 Hd2. apply (lay_leads _ Hl). intros k Hk. rewrite Hd2 by done. apply Hsame.
    intros n ->. by apply (Hk [s; n]).
  - intros l e Hne He. assert (Hcase : (∃ n, l = [s; n]) ∨ ∀ n, l ≠ [s; n]).
    { destruct l as [|s1 [|n1 []]]; try (by right).
      destruct (decide (s1 = s)) as [->|?]; [left; by eexists|right; congruence]. }
    destruct Hcase as [[n ->]|Hn].
    + split; [by apply (Hfiles n)|]. destruct Hs as [mode Hs]. exists mode. by rewrite Hscope.
    + rewrite Hsame in He; [|intros n E%app_inv_head; by apply (Hn n)].
      pose proof (lay_shape _ Hl l e Hne He) as Hshape. destruct l as [|s1 [|n1 []]]; try done. by rewrite Hscope.
Qed.

(** Only files of the scope whose names [P] holds of. *)
Record changes (s : string) (P : string → Prop) (m m' : Machine) : Prop := {
  ch_keeps : keeps m m';
  ch_layout : layout (mc_files m) → layout (mc_files m');
  ch_same : ∀ k, (∀ n, P n → k ≠ key s n) → mc_files m' !! k = mc_files m !! k
}.
Record ready (m : Machine) (s : string) : Prop := {
  rd_layout : layout (mc_files m);
  rd_seen : mc_unseen m = [];
  rd_scope : scope_at (mc_files m) s
}.
Lemma changes_refl s P m m' : keeps m m' → mc_files m' = mc_files m → changes s P m m'.
Proof. intros Hk E. split; [done|by rewrite E|by rewrite E]. Qed.
Lemma changes_trans s P m1 m2 m3 : changes s P m1 m2 → changes s P m2 m3 → changes s P m1 m3.
Proof.
  intros [A1 A2 A3] [B1 B2 B3]. split; [by etrans|auto|]. intros k Hk. by rewrite B3, A3.
Qed.
Lemma changes_weaken s (P Q : string → Prop) m m' : changes s P m m' → (∀ n, P n → Q n) → changes s Q m m'.
Proof. intros [A1 A2 A3] HPQ. split; [done..|]. intros k Hk. apply A3. eauto. Qed.
Lemma changes_scope s P m m' s' : changes s P m m' → mc_files m' !! (R ++ [s']) = mc_files m !! (R ++ [s']).
Proof. intros Hc. apply (ch_same _ _ _ _ Hc). intros n _. apply scope_not_key. Qed.
Lemma changes_key s P m m' s' n :
  changes s P m m' → (s = s' → ¬ P n) → mc_files m' !! key s' n = mc_files m !! key s' n.
Proof. intros Hc Hn. apply (ch_same _ _ _ _ Hc). intros n' HP [-> ->]%key_inj. by apply Hn. Qed.
Lemma changes_ready s P m m' : changes s P m m' → ready m s → ready m' s.
Proof.
  intros Hc [A1 A2 [mode A3]]. split; [by apply (ch_layout _ _ _ _ Hc)|by apply (ch_keeps _ _ _ _ Hc)|].
  exists mode. by rewrite (changes_scope _ _ _ _ _ Hc).
Qed.
(** One file of a ready scope changes. *)
Lemma changes_file s n m m' :
  ready m s → keeps m m' → (∀ k, k ≠ key s n → mc_files m' !! k = mc_files m !! k) →
  (∀ e, mc_files m' !! key s n = Some e → ∃ data mode, e = EFile data mode) → changes s (eq n) m m'.
Proof.
  intros [Hl _ Hs] Hk Hsame He. split; [done| |eauto]. intros _.
  apply (layout_files (mc_files m) _ s); [done..|by eauto|].
  intros n' e. destruct (decide (n' = n)) as [->|Hn]; [apply He|].
  rewrite Hsame by (intros [_ ?]%key_inj; done). by apply layout_file.
Qed.
Lemma changes_insert s n m m' data mode :
  ready m s → keeps m m' → mc_files m' = <[key s n := EFile data mode]> (mc_files m) → changes s (eq n) m m'.
Proof.
  intros Hr Hk E. apply changes_file; [done..| |].
  - intros k Hne. rewrite E. by apply lookup_insert_ne.
  - intros e. rewrite E, lookup_insert_eq. intros [= <-]. eauto.
Qed.
Lemma changes_delete s n m m' :
  ready m s → keeps m m' → mc_files m' = delete (key s n) (mc_files m) → changes s (eq n) m m'.
Proof.
  intros Hr Hk E. apply changes_file; [done..| |].
  - intros k Hne. rewrite E. by apply lookup_delete_ne.
  - intros e. by rewrite E, lookup_delete_eq.
Qed.

(** ** Calls in the directory of a scope *)

Section Calls.
Context (p s : string) (Hp : dir_path p s).

Lemma spec_create_new n mode m : ready m s → plain_name n →
  wpio (create_new (path_join p n) mode) (λ r m', changes s (eq n) m m' ∧
    match r with
    | Ok k => k = key s n ∧ mc_files m !! key s n = None ∧ mc_files m' !! key s n = Some (EFile [] mode)
    | Err e => mc_files m' = mc_files m ∧ (mc_faults m = [] → is_Some (mc_files m !! key s n))
    end) m.
Proof.
  intros Hr Hn. apply wpio_changing; rewrite (parent_in _ p s) by (by try apply Hr); rewrite key_snoc.
  - intros e m' Hk E He. split; [by apply changes_refl|]. split; [done|]. intros Hf. specialize (He Hf).
    destruct (mc_files m !! key s n); [by eexists|done].
  - intros k m' Hk E. destruct (mc_files m !! key s n) eqn:En; [done|]. cbn [is_some] in E. injection E as E <-.
    split; [by eapply changes_insert|]. split_and!; [done..|]. by rewrite <- E, lookup_insert_eq.
Qed.

Lemma spec_write_all n data old mode m : ready m s → mc_files m !! key s n = Some (EFile old mode) →
  wpio (write_all (key s n) data) (λ r m', changes s (eq n) m m' ∧
    (∃ data', mc_files m' !! key s n = Some (EFile data' mode) ∧ (r = Ok tt → data' = old ++ data)) ∧
    (mc_faults m = [] → r = Ok tt)) m.
Proof.
  intros Hr Hn. unfold wpio, write_all, os_call, append_data.
  assert (Hins : ∀ m' data', keeps m m' → mc_files m' = <[key s n := EFile data' mode]> (mc_files m) →
    changes s (eq n) m m' ∧ mc_files m' !! key s n = Some (EFile data' mode)).
  { intros m' data' Hk E. split; [by eapply changes_insert|]. by rewrite E, lookup_insert_eq. }
  destruct (mc_faults m) as [|[fault|] faults] eqn:Ef; cbn; rewrite Hn; cbn.
  all: match goal with |- changes _ _ _ ?m' ∧ (∃ d, <[_ := EFile ?x _]> _ !! _ = _ ∧ _) ∧ _ =>
    destruct (Hins m' x) as [Hc Hf]; [split; try done; cbn; congruence|done|]; split; [exact Hc|] end.
  all: split; [eexists; split; [exact Hf|done]|done].
Qed.

Lemma spec_set_permissions n mode data old m : ready m s → plain_name n →
  mc_files m !! key s n = Some (EFile data old) →
  wpio (set_permissions (path_join p n) mode) (λ r m', changes s (eq n) m m' ∧
    (∃ mode', mc_files m' !! key s n = Some (EFile data mode') ∧ (r = Ok tt → mode' = mode)) ∧
    (mc_faults m = [] → r = Ok tt)) m.
Proof.
  intros Hr Hn He. apply wpio_changing; rewrite (resolve_in _ _ p s), He by (by try apply Hr);
    cbn beta iota; rewrite ?He.
  - intros e m' Hk E Hf. split; [by apply changes_refl|]. split; [|intros F; by specialize (Hf F)].
    exists old. by rewrite E.
  - intros [] m' Hk E. injection E as E. split; [by eapply changes_insert|]. split; [|done].
    exists mode. by rewrite <- E, lookup_insert_eq.
Qed.

Lemma spec_rename q a b e m : dir_path q s → ready m s → plain_name a → plain_name b → a ≠ b →
  mc_files m !! key s a = Some e →
  wpio (rename (path_join q a) (path_join p b)) (λ r m', changes s (λ n, n = a ∨ n = b) m m' ∧
    match r with
    | Ok _ => mc_files m' !! key s a = None ∧ mc_files m' !! key s b = Some e
    | Err _ => mc_files m' = mc_files m ∧ mc_faults m ≠ []
    end) m.
Proof.
  intros Hq Hr Ha Hb Hab He. destruct (layout_file _ _ _ _ (rd_layout _ _ Hr) He) as (data & mode & ->).
  assert (Hdst : ∀ x, mc_files m !! key s b = Some (EDir x) → False).
  { intros x Hx. by destruct (layout_file _ _ _ _ (rd_layout _ _ Hr) Hx) as (? & ? & ?). }
  apply wpio_changing; rewrite (parent_in _ q s), (parent_in _ p s) by (by try apply Hr); rewrite !key_snoc, He; cbn [ok_or].
  - intros e' m' Hk E Hf. split; [by apply changes_refl|]. split; [done|]. intros F. specialize (Hf F).
    destruct (mc_files m !! key s b) as [[]|]; try done. by eapply Hdst.
  - intros [] m' Hk E.
    assert (E' : mc_files m' = <[key s b := EFile data mode]> (delete (key s a) (mc_files m))).
    { destruct (mc_files m !! key s b) as [[]|]; try (by injection E as <-). by exfalso; eapply Hdst. }
    rewrite E'. assert (Hne : key s b ≠ key s a) by (intros [_ ?]%key_inj; by subst).
    split; [|split; [by rewrite lookup_insert_ne, lookup_delete_eq|by rewrite lookup_insert_eq]].
    apply (changes_trans _ _ _ (with_files m (delete (key s a) (mc_files m)))).
    + eapply changes_weaken; [apply (changes_delete s a); [done|by split|done]|]. by left.
    + assert (Hr' : ready (with_files m (delete (key s a) (mc_files m))) s).
      { eapply changes_ready; [apply (changes_delete s a m); [done|by split|done]|done]. }
      eapply changes_weaken; [eapply (changes_insert s b _ _ data mode); [done| |by rewrite E']|]; [|by right].
      destruct Hk. by split.
Qed.

Lemma spec_remove_file n m : ready m s → plain_name n →
  wpio (remove_file (path_join p n)) (λ r m', changes s (eq n) m m' ∧
    match r with
    | Ok _ => mc_files m' !! key s n = None
    | Err e => mc_files m' = mc_files m ∧
               (mc_faults m = [] → mc_files m !! key s n = None ∧ is_kind KNotFound e = true)
    end) m.
Proof.
  intros Hr Hn. apply wpio_changing; rewrite (parent_in _ p s) by (by try apply Hr); rewrite key_snoc.
  - intros e m' Hk E Hf. split; [by apply changes_refl|]. split; [done|]. intros F. specialize (Hf F).
    destruct (mc_files m !! key s n) as [en|] eqn:En; [|by injection Hf as <-].
    destruct (layout_file _ _ _ _ (rd_layout _ _ Hr) En) as (? & ? & ->). done.
  - intros [] m' Hk E. destruct (mc_files m !! key s n) as [[]|] eqn:En; try done; injection E as E;
      (split; [by apply changes_delete|by rewrite <- E, lookup_delete_eq]).
Qed.

Lemma spec_put_file n data d : layout d → scope_at d s → plain_name n →
  ∃ mode, put_file (path_join p n) data d = Ok (<[key s n := EFile data mode]> d).
Proof.
  intros Hl Hs Hn. unfold put_file. rewrite (resolve_in _ _ p s) by done.
  destruct (d !! key s n) as [e|] eqn:E; cbn beta iota; rewrite entry_at_key, E; [|by eexists].
  destruct (layout_file _ _ _ _ Hl E) as (old & mode & ->). by eexists.
Qed.
Lemma spec_write_path n data m : ready m s → plain_name n →
  wpio (write_path (path_join p n) data) (λ r m', changes s (eq n) m m' ∧
    (r = Ok tt → ∃ mode, mc_files m' !! key s n = Some (EFile data mode)) ∧ (mc_faults m = [] → r = Ok tt)) m.
Proof.
  intros Hr Hn. assert (Hput : ∀ data, ∃ mode,
    put_file (path_join p n) data (mc_files m) = Ok (<[key s n := EFile data mode]> (mc_files m))).
  { intros x. apply spec_put_file; [apply Hr..|done]. }
  unfold wpio, write_path, os_call. destruct (mc_faults m) as [|[fault|] faults] eqn:Ef; cbn.
  - destruct (Hput data) as [mode ->]. cbn. split.
    { eapply changes_insert; [done|by split|done]. }
    split; [|done]. exists mode. by rewrite lookup_insert_eq.
  - destruct (ft_written fault) as [k|]; [destruct (Hput (take k data)) as [mode ->]|]; (split; [|done]).
    + eapply changes_insert; [done|split; try done; cbn; congruence|done].
    + apply changes_refl; [split; try done; cbn; congruence|done].
  - destruct (Hput data) as [mode ->]. cbn. split.
    { eapply changes_insert; [done|split; try done; cbn; congruence|done]. }
    split; [|done]. exists mode. by rewrite lookup_insert_eq.
Qed.

(** A step on a temporary file, which is removed if it fails. *)
Lemma spec_or_clean_up n step m (P : string → Prop) (Q E : Machine → Prop) :
  ready m s → plain_name n → P n → (∀ m1 m2, changes s (eq n) m1 m2 → E m1 → E m2) →
  wpio step (λ r m', changes s P m m' ∧ match r with Ok _ => Q m' | Err _ => E m' end ∧
                     (mc_faults m = [] → r = Ok tt)) m →
  wpio (or_clean_up (path_join p n) step) (λ r m', changes s P m m' ∧
    match r with Ok _ => Q m' | Err _ => E m' end ∧ (mc_faults m = [] → r = Ok tt)) m.
Proof.
  intros Hr Hn HP HE Hstep. apply wpio_bind. eapply wpio_mono; [exact Hstep|]. intros [[]|e] m1 (Hc & HQ & Hf).
  - apply wpio_ret. auto.
  - apply wpio_bind. eapply wpio_mono; [apply (spec_remove_file n m1)|]; [by eapply changes_ready|done|].
    intros r2 m2 [Hc2 _]. apply wpio_ret. split_and!; [|by eapply HE|done].
    eapply changes_trans; [done|]. eapply changes_weaken; [done|]. by intros ? <-.
Qed.

Lemma spec_acquire m : ready m s →
  wpio (acquire p) (λ r m', changes s (eq LOCK_FILE) m m' ∧ (mc_faults m = [] → r = Ok tt)) m.
Proof.
  intros Hr. assert (Hlock : plain_name LOCK_FILE).
  { apply plain_long; [by (apply (bool_decide_unpack _); vm_compute)|cbn; lia]. }
  apply wpio_artifact_io, wpio_need, wpio_changing;
    rewrite (resolve_in _ _ p s) by (by try apply Hr).
  - intros e m' Hk E Hf. split; [by apply changes_refl|]. intros F. specialize (Hf F).
    destruct (mc_files m !! key s LOCK_FILE) as [x|] eqn:El; cbn beta iota in Hf; rewrite entry_at_key, El in Hf; [|done].
    destruct (layout_file _ _ _ _ (rd_layout _ _ Hr) El) as (? & ? & ->). done.
  - intros k m1 Hk E. assert (Hc : changes s (eq LOCK_FILE) m m1).
    { destruct (mc_files m !! key s LOCK_FILE) as [x|] eqn:El; cbn beta iota in E; rewrite entry_at_key, El in E.
      - destruct (layout_file _ _ _ _ (rd_layout _ _ Hr) El) as (? & ? & ->). injection E as E _.
        by apply changes_refl.
      - injection E as E _. by eapply changes_insert. }
    apply wpio_asking.
    + intros e m2 Hk2 E2 Hf. split; [|intros F; by specialize (Hf (kp_faults _ _ Hk F))].
      eapply changes_trans; [done|by apply changes_refl].
    + intros [] m2 Hk2 E2 _. split; [|done]. eapply changes_trans; [done|by apply changes_refl].
Qed.

Lemma plain_index : plain_name INDEX_FILE.
Proof. apply plain_long; [by (apply (bool_decide_unpack _); vm_compute)|cbn; lia]. Qed.
Lemma spec_read m : ready m s →
  wpio (read_scope_records_unlocked p) (λ r m', keeps m m' ∧ mc_files m' = mc_files m ∧
    (∀ l, r = Ok l → index_of (mc_files m) s = Some l) ∧
    (mc_faults m = [] → ∀ l, index_of (mc_files m) s = Some l → r = Ok l)) m.
Proof.
  intros Hr. pose proof plain_index as Hix. unfold read_scope_records_unlocked, index_of, decode.
  apply wpio_bind, wpio_seeing; [apply Hr|]. intros m1 Hk1 E1.
  rewrite (resolve_in _ _ p s) by (by try apply Hr).
  destruct (mc_files m !! key s INDEX_FILE) as [e|] eqn:Ee; cbn [is_ok negb].
  2:{ apply wpio_ret. split_and!; [done..| |]; [by intros l [= <-]|]. by intros _ l [= <-]. }
  destruct (layout_file _ _ _ _ (rd_layout _ _ Hr) Ee) as (data & mode & ->).
  apply wpio_need, wpio_artifact_io, wpio_asking; rewrite E1, (resolve_in _ _ p s), Ee by (by try apply Hr);
    cbn beta iota; rewrite entry_at_key, Ee.
  - intros e m2 Hk2 E2 Hf. split_and!; [by etrans|congruence|done|]. intros F l Hl.
    specialize (Hf (kp_faults _ _ Hk1 F)). by destruct (from_utf8 data).
  - intros text m2 Hk2 E2 Ht. destruct (from_utf8 data) as [text'|]; [|done]. injection Ht as ->.
    assert (Hk : keeps m m2) by (by etrans). assert (E : mc_files m2 = mc_files m) by congruence.
    cbn [map_err]. destruct (str_is_empty (trim text)); apply wpio_ret.
    + split_and!; [done..| |]; [by intros l [= <-]|]. by intros _ l [= <-].
    + destruct (index_from_str text); (split_and!; [done..| |]); [by intros l [= <-]| |done..].
      by intros _ l' [= <-].
Qed.

Lemma sort_records_nil l : sort_records l = [] → l = [].
Proof. intros E. pose proof (merge_sort_Permutation record_le l) as HP. unfold sort_records in E. rewrite E in HP. by apply Permutation_nil in HP. Qed.
Lemma spec_write_records l m : ready m s → l ≠ [] →
  wpio (write_scope_records_unlocked p l) (λ r m', changes s (λ n, n = INDEX_FILE ∨ index_tmp n) m m' ∧
    match r with
    | Ok _ => index_of (mc_files m') s = Some (sort_records l)
    | Err _ => mc_files m' !! key s INDEX_FILE = mc_files m !! key s INDEX_FILE
    end ∧ (mc_faults m = [] → r = Ok tt)) m.
Proof.
  intros Hr Hl. unfold write_scope_records_unlocked. rewrite bool_decide_eq_false_2 by done.
  pose proof (index_written (sort_records l)) as Hok. destruct (index_to_vec (sort_records l)) as [data|] eqn:Ev; [|done].
  apply wpio_bind, wpio_counter. intros m1 Hk1 E1.
  set (tmp := ".index-tmp-" +:+ usize_to_string (mc_counter m) +:+ "-" +:+ usize_to_string process_id).
  assert (Htmp : plain_name tmp) by apply plain_index_tmp.
  assert (Hit : index_tmp tmp) by apply starts_with_prefix.
  assert (Hne : tmp ≠ INDEX_FILE) by (intros E; unfold index_tmp in Hit; by rewrite E in Hit).
  assert (Hc1 : changes s (λ n, n = INDEX_FILE ∨ index_tmp n) m m1) by (by apply changes_refl).
  assert (Hkeep : ∀ m2 m3, changes s (eq tmp) m2 m3 →
    mc_files m2 !! key s INDEX_FILE = mc_files m !! key s INDEX_FILE →
    mc_files m3 !! key s INDEX_FILE = mc_files m !! key s INDEX_FILE).
  { intros m2 m3 Hc <-. apply (changes_key _ _ _ _ _ _ Hc). by intros _ ->. }
  apply wpio_need, wpio_artifact_io. eapply wpio_mono; [apply (spec_or_clean_up tmp _ m1 (eq tmp)
    (λ m2, ∃ mode, mc_files m2 !! key s tmp = Some (EFile data mode))
    (λ m2, mc_files m2 !! key s INDEX_FILE = mc_files m !! key s INDEX_FILE))|];
    [by eapply changes_ready|done..| |].
  { eapply wpio_mono; [apply (spec_write_path tmp data m1); [by eapply changes_ready|done]|].
    intros r m2 (Hc & Ho & Hf). split_and!; [done| |done]. destruct r as [[]|]; [by apply Ho|].
    apply (Hkeep _ _ Hc). by rewrite E1. }
  intros r m2 (Hc2 & HQ & Hf). assert (Hc12 : changes s (λ n, n = INDEX_FILE ∨ index_tmp n) m m2).
  { eapply changes_trans; [done|]. eapply changes_weaken; [done|]. intros ? <-. by right. }
  destruct r as [[]|e]; cbn [map_err].
  2:{ split_and!; [done..|]. intros F. by specialize (Hf (kp_faults _ _ Hk1 F)). }
  destruct HQ as [mode HQ]. apply wpio_artifact_io. eapply wpio_mono; [apply (spec_or_clean_up tmp _ m2
    (λ n, n = tmp ∨ n = INDEX_FILE) (λ m3, ∃ mode, mc_files m3 !! key s INDEX_FILE = Some (EFile data mode))
    (λ m3, mc_files m3 !! key s INDEX_FILE = mc_files m !! key s INDEX_FILE))|];
    [by eapply changes_ready|done|by left|done| |].
  { eapply wpio_mono; [eapply (spec_rename p tmp INDEX_FILE _ m2); try done; [by eapply changes_ready|apply plain_index]|].
    intros r m3 [Hc Hr3]. split; [done|]. destruct r as [[]|]; [by destruct Hr3; eauto|].
    destruct Hr3 as [E3 Hf3]. split; [|done]. rewrite E3. apply (Hkeep _ _ Hc2). by rewrite E1. }
  intros r m3 (Hc3 & HQ3 & Hf3). split_and!.
  - eapply changes_trans; [done|]. eapply changes_weaken; [done|]. intros ? [->| ->]; [by right|by left].
  - destruct r as [[]|]; cbn [map_err]; [|done]. destruct HQ3 as [mode3 HQ3]. unfold index_of, decode. rewrite HQ3.
    destruct (index_read_back _ _ Ev) as (text & -> & -> & ->). done.
  - intros F. rewrite Hf3; [done|]. apply (ch_keeps _ _ _ _ Hc12), F.
Qed.
End Calls.

(** ** Writing a file *)

Lemma dir_path_same p q s :
  dir_path p s → path_components p ≠ [] → path_components q = path_components p → dir_path q s.
Proof. intros [_ Hp] Hne E. split; [intros ->; by rewrite <- E in Hne|]. rewrite E. done. Qed.
Lemma plain_file_tmp f attempt suffix : slash ∉ to_bytes f →
  plain_name (WRITE_FILE_TMP_PREFIX +:+ "-" +:+ f +:+ "-" +:+ usize_to_string attempt +:+ "-" +:+ usize_to_string suffix).
Proof.
  intros Hf. apply plain_long; rewrite !to_bytes_app; [|rewrite !length_app; cbn; lia].
  rewrite !not_elem_of_app. split_and!; try apply number_no_slash; try done;
    by (apply (bool_decide_unpack _); vm_compute).
Qed.
Lemma changes_create s n m m1 m2 : mc_files m !! key s n = None → changes s (eq n) m m1 →
  changes s (eq n) m1 m2 → mc_files m2 !! key s n = None → changes s (λ _, False) m m2.
Proof.
  intros Hn Hc1 Hc2 Hn2. pose proof (changes_trans _ _ _ _ _ Hc1 Hc2) as [A1 A2 A3]. split; [done..|].
  intros k _. destruct (decide (k = key s n)) as [->|Hk]; [congruence|]. apply A3. by intros ? <-.
Qed.

Section WriteFile.
Context (p s f : string) (Hp : dir_path p s) (Hpc : path_components p ≠ []) (Hf : plain_name f).

Lemma spec_open_temporary attempts attempt m : ready m s →
  wpio (open_temporary attempts attempt (path_join p f)) (λ r m',
    match r with
    | Ok (file, temp) => ∃ q n, dir_path q s ∧ plain_name n ∧ file_tmp n ∧ temp = path_join q n ∧
        file = key s n ∧ mc_files m !! key s n = None ∧ changes s (eq n) m m' ∧
        mc_files m' !! key s n = Some (EFile [] 384)
    | Err _ => changes s (λ _, False) m m' ∧ (mc_faults m = [] → attempts ≠ O →
                 ∃ n, file_tmp n ∧ is_Some (mc_files m !! key s n))
    end) m.
Proof.
  revert attempt m. induction attempts as [|attempts IH]; intros attempt m Hr; cbn [open_temporary].
  { apply wpio_ret. split; [by apply changes_refl|done]. }
  apply wpio_bind, wpio_bind, wpio_counter. intros m1 Hk1 E1. apply wpio_ret.
  destruct (path_parent_join p f Hf (proj1 Hp)) as (q & -> & Eq). cbn [default from_option id].
  set (fn := default "artifact" (file_name_str (path_join p f))).
  assert (Hfn : slash ∉ to_bytes fn).
  { unfold fn, file_name_str. rewrite path_file_name_join by done. cbn. destruct (is_utf8 f); [apply Hf|].
    by (apply (bool_decide_unpack _); vm_compute). }
  pose proof (plain_file_tmp fn attempt (mc_counter m) Hfn) as Hn. assert (Htmp : ∀ t, file_tmp (WRITE_FILE_TMP_PREFIX +:+ t)) by (intros; apply starts_with_prefix).
  set (n := (WRITE_FILE_TMP_PREFIX +:+ _)) in *. pose proof (dir_path_same p q s Hp Hpc Eq) as Hq.
  assert (Hc1 : ∀ P, changes s P m m1) by (intros; by apply changes_refl).
  apply wpio_bind. eapply wpio_mono; [apply (spec_create_new q s Hq n 384 m1); [by apply (changes_ready _ _ _ _ (Hc1 (eq n)))|done]|].
  intros [k|e] m2 [Hc2 Ho].
  - apply wpio_ret. destruct Ho as (-> & Hn0 & Ho). exists q, n. rewrite <- E1.
    split_and!; [done|done|apply Htmp|done..| |done]. by eapply changes_trans.
  - destruct Ho as [E2 He].
    assert (Hc : changes s (λ _, False) m m2) by (apply changes_refl; [etrans; [done|apply Hc2]|congruence]).
    assert (Hlate : mc_faults m = [] → ∃ n, file_tmp n ∧ is_Some (mc_files m !! key s n)).
    { intros F. exists n. rewrite <- E1. split; [apply Htmp|]. by apply He, Hk1. }
    destruct (is_kind KAlreadyExists e); [|apply wpio_ret; auto].
    eapply wpio_mono; [apply (IH (attempt + 1)%N m2); by eapply changes_ready|].
    assert (E : mc_files m2 = mc_files m) by congruence. rewrite E.
    intros [[file temp]|e'] m3.
    + intros (q' & n' & A1 & A2 & A3 & A4 & A5 & A6 & A7 & A8). exists q', n'. split_and!; try done.
      eapply changes_trans; [|exact A7]. by apply changes_refl; [apply Hc|].
    + intros [A1 _]. split; [by eapply changes_trans|auto].
Qed.
(** The three steps on an open temporary file. *)
Lemma spec_fill q n data m : dir_path q s → plain_name n → n ≠ f → ready m s →
  mc_files m !! key s n = Some (EFile [] 384) →
  wpio (need! _ := or_clean_up (path_join q n) (write_all (key s n) data) in
        need! _ := or_clean_up (path_join q n) (set_permissions (path_join q n) 384) in
        or_clean_up (path_join q n) (rename (path_join q n) (path_join p f))) (λ r m',
    changes s (λ x, x = n ∨ x = f) m m' ∧
    match r with
    | Ok _ => mc_files m' !! key s n = None ∧ mc_files m' !! key s f = Some (EFile data 384)
    | Err _ => mc_files m' !! key s f = mc_files m !! key s f
    end ∧ (mc_faults m = [] → r = Ok tt)) m.
Proof.
  intros Hq Hn Hnf Hr Hm. set (both := λ x, x = n ∨ x = f).
  assert (Hw : ∀ m1 m2, changes s (eq n) m1 m2 → changes s both m1 m2).
  { intros m1 m2 Hc. eapply changes_weaken; [done|]. intros ? <-. by left. }
  assert (Hkeep : ∀ m1 m2, changes s (eq n) m1 m2 → mc_files m1 !! key s f = mc_files m !! key s f →
    mc_files m2 !! key s f = mc_files m !! key s f).
  { intros m1 m2 Hc <-. apply (changes_key _ _ _ _ _ _ Hc). by intros _ ->. }
  apply wpio_need. eapply wpio_mono; [apply (spec_or_clean_up q s Hq n _ m (eq n)
    (λ m1, mc_files m1 !! key s n = Some (EFile data 384)) (λ _, True)); try done|].
  { eapply wpio_mono; [by eapply (spec_write_all s n data)|]. intros r m1 (Hc & (data' & E & Hd) & Ho).
    split_and!; [done| |done]. destruct r as [[]|]; [|done]. by rewrite E, (Hd eq_refl). }
  intros r m1 (Hc1 & Q1 & F1). destruct r as [[]|]; [|split_and!; [by apply Hw|by apply (Hkeep m)|by intros ?%F1]].
  assert (Hr1 : ready m1 s) by (by eapply changes_ready).
  apply wpio_need. eapply wpio_mono; [apply (spec_or_clean_up q s Hq n _ m1 (eq n)
    (λ m1, mc_files m1 !! key s n = Some (EFile data 384)) (λ _, True)); try done|].
  { eapply wpio_mono; [by eapply (spec_set_permissions q s Hq n 384)|]. intros r m2 (Hc & (mode & E & Hd) & Ho).
    split_and!; [done| |done]. destruct r as [[]|]; [|done]. by rewrite E, (Hd eq_refl). }
  intros r m2 (Hc2 & Q2 & F2). assert (Hc12 : changes s (eq n) m m2) by (by eapply changes_trans).
  assert (HF : mc_faults m = [] → mc_faults m2 = []) by apply (ch_keeps _ _ _ _ Hc12).
  destruct r as [[]|]; [|split_and!; [by apply Hw|by apply (Hkeep m)|intros F; by specialize (F2 (kp_faults _ _ (ch_keeps _ _ _ _ Hc1) F))]].
  assert (Hr2 : ready m2 s) by (by eapply changes_ready).
  eapply wpio_mono; [apply (spec_or_clean_up q s Hq n _ m2 both
    (λ m3, mc_files m3 !! key s n = None ∧ mc_files m3 !! key s f = Some (EFile data 384))
    (λ m3, mc_files m3 !! key s f = mc_files m !! key s f)); try done; [by left|]|].
  { eapply wpio_mono; [by eapply (spec_rename p s Hp q n f)|]. intros r m3 [Hc Ho]. split; [done|].
    destruct r as [[]|]; [done|]. destruct Ho as [-> Ho]. split; [by apply (Hkeep m)|done]. }
  intros r m3 (Hc3 & Q3 & F3). split_and!; [|done|auto]. eapply changes_trans; [by apply Hw|done].
Qed.

Lemma spec_write_file data m : ready m s → ¬ file_tmp f →
  wpio (write_file_bytes (path_join p f) data) (λ r m', changes s (λ x, x = f ∨ file_tmp x) m m' ∧
    match r with
    | Ok _ => mc_files m' !! key s f = Some (EFile data 384) ∧ changes s (eq f) m m'
    | Err _ => mc_files m' !! key s f = mc_files m !! key s f
    end ∧ (mc_faults m = [] → (∀ n, file_tmp n → mc_files m !! key s n = None) → r = Ok tt)) m.
Proof.
  intros Hr Hft. apply wpio_need. eapply wpio_mono; [by apply spec_open_temporary|]. intros [[file temp]|e] m1.
  2:{ intros [Hc He]. split_and!; [by eapply changes_weaken|by apply (changes_key _ _ _ _ _ _ Hc); auto|].
      intros F Hno. destruct (He F) as (n & Hn & Hs); [done|]. rewrite Hno in Hs by done. by destruct Hs. }
  intros (q & n & Hq & Hn & Htmp & -> & -> & Hn0 & Hc1 & Hm1). assert (Hnf : n ≠ f) by congruence.
  eapply wpio_mono; [apply (spec_fill q n data m1); try done; by eapply changes_ready|].
  intros r m2 (Hc2 & HQ & HF). split_and!.
  - eapply changes_trans; (eapply changes_weaken; [done|]); [intros ? <-; by right|intros ? [->| ->]; [by right|by left]].
  - destruct r as [[]|].
    + destruct HQ as [Hgone ->]. split; [done|]. assert (Hc : changes s (λ x, x = n ∨ x = f) m m2).
      { eapply changes_trans; [|done]. eapply changes_weaken; [done|]. intros ? <-. by left. }
      destruct Hc as [A1 A2 A3]. split; [done..|]. intros k Hk. destruct (decide (k = key s n)) as [->|Hkn]; [congruence|].
      apply A3. intros x [->| ->]; [done|]. by apply Hk.
    + rewrite HQ. apply (changes_key _ _ _ _ _ _ Hc1). congruence.
  - intros F _. apply HF, (ch_keeps _ _ _ _ Hc1), F.
Qed.
End WriteFile.

(** ** Editing an index *)

Definition index_name (n : string) : Prop := n = LOCK_FILE ∨ n = INDEX_FILE ∨ index_tmp n.
Lemma index_of_same s P m m' s' : changes s P m m' → (s = s' → ¬ P INDEX_FILE) →
  index_of (mc_files m') s' = index_of (mc_files m) s'.
Proof. intros Hc HP. unfold index_of. by rewrite (changes_key _ _ _ _ _ _ Hc HP). Qed.

Section Edit.
Context (p s : string) (Hp : dir_path p s).

Lemma spec_locked {A : Type} (k : list LocalArtifactRecord → IO (ArtifactResult A)) Q m : ready m s →
  (∀ l m', changes s (eq LOCK_FILE) m m' → ready m' s → index_of (mc_files m) s = Some l → wpio (k l) Q m') →
  (∀ e m', changes s (eq LOCK_FILE) m m' → (mc_faults m = [] → index_of (mc_files m) s = None) → Q (Err e) m') →
  wpio (need! _ := acquire p in need! records := read_scope_records_unlocked p in k records) Q m.
Proof.
  intros Hr Ho He. apply wpio_need. eapply wpio_mono; [by apply (spec_acquire p s Hp)|].
  intros [[]|e] m1 [Hc1 Hf1]; [|apply He; [done|by intros F%Hf1]].
  assert (Hr1 : ready m1 s) by (by eapply changes_ready). assert (E1 := index_of_same _ _ _ _ s Hc1).
  apply wpio_need. eapply wpio_mono; [by apply (spec_read p s Hp)|]. intros r m2 (Hk & E & Hl & Hf).
  assert (Hc2 : changes s (eq LOCK_FILE) m m2) by (eapply changes_trans; [done|by apply changes_refl]).
  destruct r as [l|e].
  - apply Ho; [done|by eapply changes_ready|]. rewrite <- E1 by done. by apply Hl.
  - apply He; [done|]. intros F. rewrite <- E1 by done. destruct (index_of (mc_files m1) s) as [l|]; [|done].
    by specialize (Hf (kp_faults _ _ (ch_keeps _ _ _ _ Hc1) F) _ eq_refl).
Qed.

(** The records become [f] of them, or the index stays. *)
Definition edited (f : list LocalArtifactRecord → list LocalArtifactRecord) (m : Machine)
  (r : ArtifactResult unit) (m' : Machine) : Prop :=
  changes s index_name m m' ∧
  match r with
  | Ok _ => ∃ l, index_of (mc_files m) s = Some l ∧ index_of (mc_files m') s = Some (f l)
  | Err _ => mc_files m' !! key s INDEX_FILE = mc_files m !! key s INDEX_FILE
  end.
Lemma spec_store f l m m1 : changes s (eq LOCK_FILE) m m1 → ready m1 s → index_of (mc_files m) s = Some l →
  f l ≠ [] →
  wpio (write_scope_records_unlocked p (f l)) (λ r m',
    edited (λ l, sort_records (f l)) m r m' ∧ (mc_faults m = [] → r = Ok tt)) m1.
Proof.
  intros Hc1 Hr1 Hl Hne.
  assert (Hx : mc_files m1 !! key s INDEX_FILE = mc_files m !! key s INDEX_FILE) by (by apply (changes_key _ _ _ _ _ _ Hc1)).
  eapply wpio_mono; [by apply (spec_write_records p s Hp)|]. intros r m2 (Hc & Ho & HF). split.
  - split; [|destruct r; [by eauto|congruence]].
    eapply changes_trans; (eapply changes_weaken; [done|]); [intros ? <-; by left|intros ? [->|?]; right; auto].
  - intros F. apply HF, (ch_keeps _ _ _ _ Hc1), F.
Qed.
(** An index that was not read stays. *)
Lemma edited_unread f m e m' : changes s (eq LOCK_FILE) m m' → edited f m (Err e) m'.
Proof.
  intros Hc. split; [eapply changes_weaken; [done|]; intros ? <-; by left|]. by apply (changes_key _ _ _ _ _ _ Hc).
Qed.

Lemma spec_add_record rec m : ready m s →
  wpio (add_record p rec) (λ r m', edited (λ l, sort_records (l ++ [rec])) m r m' ∧
    (mc_faults m = [] → is_Some (index_of (mc_files m) s) → r = Ok tt)) m.
Proof.
  intros Hr. apply spec_locked; [done|intros l m1 Hc Hr1 Hl|intros e m1 Hc Hf].
  - eapply wpio_mono; [apply (spec_store (λ l, l ++ [rec]) l m m1); [done..|by destruct l]|]. intros r m2 [Ho HF]. auto.
  - split; [by apply edited_unread|]. intros F%Hf. rewrite F. by intros [].
Qed.
End Edit.

Definition update_bytes (id : OutputRefId) (original retained : option N) (l : list LocalArtifactRecord)
  : list LocalArtifactRecord := default l (update_first id original retained l).
Lemma update_first_is_Some id original retained l :
  id ∈ map lar_id l → is_Some (update_first id original retained l).
Proof.
  induction l as [|r l IH]; cbn; [by intros ?%not_elem_of_nil|]. intros [E|Hin]%elem_of_cons.
  - rewrite bool_decide_eq_true_2; by eauto.
  - case_bool_decide; [by eauto|]. destruct (IH Hin) as [l' ->]. by eexists.
Qed.
Lemma spec_update_record_bytes scope s id original retained m :
  sanitize_segment scope = Ok s → plain_name s → ready m s → is_none original && is_none retained = false →
  wpio (update_record_bytes root_dir scope id original retained) (λ r m',
    edited s (λ l, sort_records (update_bytes id original retained l)) m r m' ∧
    (mc_faults m = [] → ∀ l, index_of (mc_files m) s = Some l → id ∈ map lar_id l → r = Ok tt)) m.
Proof.
  intros Hs Hpl Hr Hsome. unfold update_record_bytes. rewrite Hs.
  apply (spec_locked _ s (dir_path_join s Hpl)); [done|intros l m1 Hc Hr1 Hl|intros e m1 Hc Hf].
  - destruct (update_first id original retained l) as [l'|] eqn:E.
    + rewrite Hsome. assert (El : l' = update_bytes id original retained l) by (unfold update_bytes; by rewrite E).
      assert (Hne : l' ≠ []).
      { destruct l as [|x l]; [done|]. cbn in E. case_bool_decide; [by injection E as <-|].
        destruct (update_first _ _ _ l); [by injection E as <-|done]. }
      rewrite El in *. eapply wpio_mono; [by apply (spec_store _ s (dir_path_join s Hpl) (update_bytes id original retained) l m m1)|].
      intros r m2 [Ho HF]. auto.
    + apply wpio_ret. split; [by apply edited_unread|]. intros _ l' Hl' Hin. rewrite Hl in Hl'. injection Hl' as <-.
      destruct (update_first_is_Some id original retained l Hin). congruence.
  - split; [by apply edited_unread|]. intros F%Hf l Hl. congruence.
Qed.
(** ** The directory of a scope *)

Definition opens (s : string) (m m' : Machine) : Prop :=
  keeps m m' ∧ (mc_files m' = mc_files m ∨ ∃ mode, mc_files m' = <[R ++ [s] := EDir mode]> (mc_files m)).
Lemma opens_keeps s m m' : keeps m m' → mc_files m' = mc_files m → opens s m m'.
Proof. by split; [|left]. Qed.
Lemma opens_trans s m1 m2 m3 : opens s m1 m2 → opens s m2 m3 → opens s m1 m3.
Proof.
  intros [A1 A2] [B1 B2]. split; [by etrans|].
  destruct A2 as [A2|[x A2]], B2 as [B2|[y B2]]; rewrite B2, A2; auto; right; eexists; [done..|].
  apply insert_insert_eq.
Qed.
Lemma opens_file s m m' s' n : opens s m m' → mc_files m' !! key s' n = mc_files m !! key s' n.
Proof. intros [_ [->|[mode ->]]]; [done|]. apply lookup_insert_ne, scope_not_key. Qed.
Lemma opens_scope s m m' : opens s m m' → scope_at (mc_files m) s → scope_at (mc_files m') s.
Proof. intros [_ [->|[mode ->]]]; [done|]. exists mode. by rewrite lookup_insert_eq. Qed.
Lemma opens_layout s m m' : opens s m m' → layout (mc_files m) → layout (mc_files m').
Proof.
  intros [_ [->|[mode ->]]] Hl; [done|].
  assert (Hup : ∀ k, (∀ l, l ≠ [] → k ≠ R ++ l) → <[R ++ [s] := EDir mode]> (mc_files m) !! k = mc_files m !! k).
  { intros k Hk. apply lookup_insert_ne. by apply not_eq_sym, Hk. }
  split.
  - apply (lay_plain _ Hl).
  - apply (lay_cwd _ Hl).
  - apply (lay_named _ Hl).
  - intros k k' E. destruct (lay_real _ Hl k k' E) as [x Hx]. exists x. destruct k as [|y k]; [done|].
    cbn in *. rewrite lookup_insert_ne; [done|]. intros E'. apply (f_equal (@length string)) in E, E'.
    cbn [length] in E, E'. rewrite length_app in E, E'. simpl in *. lia.
  - intros d2 Hd2. apply (lay_leads _ Hl). intros k Hk. by rewrite Hd2, Hup.
  - intros l e Hne He. destruct (decide (l = [s])) as [->|Hs].
    { rewrite lookup_insert_eq in He. injection He as <-. by eexists. }
    rewrite lookup_insert_ne in He by (by intros ?%app_inv_head).
    pose proof (lay_shape _ Hl l e Hne He) as Hshape. destruct l as [|s1 [|n1 []]]; try done.
    destruct Hshape as [Hfile [x Hx]]. split; [done|]. destruct (decide (s1 = s)) as [->|?].
    + exists mode. by rewrite lookup_insert_eq.
    + exists x. rewrite lookup_insert_ne; [done|]. intros ?%app_inv_head. congruence.
Qed.

(** No directory is made on the way to the store. *)
Lemma spec_mkdir_above p b m mode : layout (mc_files m) → path_components root_dir = path_components p ++ b →
  wpio (mkdir p mode) (λ r m', is_ok r = false ∧ keeps m m' ∧ mc_files m' = mc_files m) m.
Proof.
  intros Hl Hb. apply wpio_changing; [by intros|]. intros [] m' _ E. exfalso.
  pose proof (layout_leads _ Hl) as Hw. rewrite Hb in Hw. apply walk_prefix in Hw as [k Hk].
  unfold parent_of in E. destruct (List.rev (path_components p)) as [|[| | |name] front] eqn:Ep; try done.
  assert (Ec : path_components p = List.rev front ++ [Normal name]) by (by rewrite <- (rev_involutive (path_components p)), Ep).
  rewrite Ec in Hk. destruct (walk _ _ _ _ (List.rev front)) as [dir|] eqn:Ed; [|done]. cbn in E.
  destruct (entry_at (mc_files m) dir) as [[|mode'|]|] eqn:Ee; try done. cbn in E.
  destruct (walk_app _ _ false _ _ _ [Normal name] Ed (ex_intro _ mode' Ee)) as [links Hlinks]; [done|].
  rewrite Hlinks, walk_eq in Hk. assert (En : entry_at (mc_files m) (dir ++ [name]) = mc_files m !! (dir ++ [name])) by (by destruct dir).
  rewrite En in Hk. by destruct (mc_files m !! (dir ++ [name])).
Qed.
Lemma spec_or_is_dir p (e : OsError) m Q : mc_unseen m = [] →
  (∀ m' (r : io unit), keeps m m' → mc_files m' = mc_files m →
    (r = Ok tt ↔ ∃ k, resolve false (mc_files m) p = Ok k ∧ is_dir_at (mc_files m) k) → Q r m') →
  wpio (do! is_dir := is_dir_path p in io_ret (if is_dir : bool then Ok tt else Err e)) Q m.
Proof.
  intros Hu HQ. apply wpio_bind, wpio_seeing; [done|]. intros m1 Hk E. apply wpio_ret, HQ; [done..|].
  unfold is_dir_at. destruct (resolve false (mc_files m) p) as [k|]; [|by split; [|intros (? & ? & _)]].
  destruct (entry_at (mc_files m) k) as [[]|] eqn:Ee; split; try done;
    try (intros (k' & [= <-] & mode' & Hm); congruence). intros _. eauto.
Qed.
Lemma spec_create_above fuel p b m mode : layout (mc_files m) → mc_unseen m = [] →
  path_components root_dir = path_components p ++ b →
  wpio (create_dir_all fuel p mode) (λ _ m', keeps m m' ∧ mc_files m' = mc_files m) m.
Proof.
  revert p b m. induction fuel as [|fuel IH]; intros p b m Hl Hu Hb; cbn [create_dir_all]; destruct (str_is_empty p).
  1,3: by apply wpio_ret.
  all: apply wpio_bind; eapply wpio_mono; [by apply (spec_mkdir_above p b)|]; intros [[]|e] m1 (Hno & Hk & E); [done|].
  all: assert (Hsee : ∀ m2 (e : OsError), keeps m m2 → mc_files m2 = mc_files m →
    wpio (do! is_dir := is_dir_path p in io_ret (if is_dir : bool then Ok tt else Err e))
      (λ _ m', keeps m m' ∧ mc_files m' = mc_files m) m2).
  1,3: intros m2 e2 Hk2 E2; apply spec_or_is_dir; [by apply Hk2|]; intros m3 r Hk3 E3 _; split; [by etrans|congruence].
  all: destruct (is_kind KNotFound e); cbn [negb]; [|by apply Hsee]. 1: by apply wpio_ret.
  destruct (path_parent p) as [q|] eqn:Eq; [|by apply wpio_ret]. apply path_parent_components in Eq as [c Ec].
  apply wpio_need. eapply wpio_mono; [apply (IH q (c :: b) m1); [by rewrite E|by apply Hk|by rewrite Hb, Ec, <- app_assoc]|].
  intros [[]|e2] m2 [Hk2 E2]; [|split; [by etrans|congruence]]. assert (Hk12 : keeps m m2) by (by etrans).
  apply wpio_bind. eapply wpio_mono; [apply (spec_mkdir_above p b); [by rewrite E2, E|done]|].
  intros [[]|e3] m3 (Hno3 & Hk3 & E3); [done|]. apply Hsee; [by etrans|congruence].
Qed.

Section Scope.
Context (s : string) (Hs : plain_name s).

Lemma resolve_scope d : layout d →
  resolve false d (path_join root_dir s) =
  match d !! (R ++ [s]) with Some _ => Ok (R ++ [s]) | None => Err not_found end.
Proof.
  intros Hl. unfold resolve. destruct (str_is_empty (path_join root_dir s)) eqn:Ee.
  { destruct (path_join root_dir s) eqn:E; [by apply join_nonempty in E|done]. }
  rewrite path_components_join by done.
  destruct (walk_app MAXSYMLINKS d false working_dir (path_components root_dir) R [Normal s])
    as [links ->]; [by apply layout_leads|by apply layout_root|done|].
  rewrite walk_eq, entry_at_scope. destruct (d !! (R ++ [s])) as [e|] eqn:E; [|done].
  destruct (lay_shape _ Hl [s] e ltac:(done) E) as [mode ->]. by rewrite walk_eq.
Qed.
Lemma is_dir_scope d : layout d →
  (∃ k, resolve false d (path_join root_dir s) = Ok k ∧ is_dir_at d k) ↔ scope_at d s.
Proof.
  intros Hl. rewrite resolve_scope by done. unfold scope_at, is_dir_at. split.
  - intros (k & Hk & mode & Hm). destruct (d !! (R ++ [s])) eqn:E; [|done]. injection Hk as <-.
    exists mode. by rewrite <- E, <- entry_at_scope.
  - intros [mode E]. rewrite E. exists (R ++ [s]). split; [done|]. exists mode. by rewrite entry_at_scope.
Qed.
Lemma spec_mkdir_scope m mode : layout (mc_files m) →
  wpio (mkdir (path_join root_dir s) mode) (λ r m', opens s m m' ∧
    match r with
    | Ok _ => scope_at (mc_files m') s
    | Err e => mc_files m' = mc_files m ∧ (mc_faults m = [] → is_kind KNotFound e = false ∧ scope_at (mc_files m) s)
    end) m.
Proof.
  intros Hl. assert (Hpar : parent_of (mc_files m) (path_join root_dir s) = Ok (R, s)).
  { unfold parent_of. rewrite path_components_join, rev_app_distr by done. cbn [rev app].
    rewrite rev_involutive, (layout_leads _ Hl). by destruct (layout_root _ Hl) as [x ->]. }
  apply wpio_changing; rewrite Hpar; cbn beta iota.
  - intros e m' Hk E Hf. split; [by apply opens_keeps|]. split; [done|]. intros F. specialize (Hf F).
    destruct (mc_files m !! (R ++ [s])) as [x|] eqn:Ex; [|done]. injection Hf as <-. split; [done|].
    destruct (lay_shape _ Hl [s] x ltac:(done) Ex) as [y ->]. by eexists.
  - intros [] m' Hk E. destruct (mc_files m !! (R ++ [s])); [done|]. injection E as E.
    split; [split; [done|by right; eexists]|]. exists mode. by rewrite <- E, lookup_insert_eq.
Qed.

Lemma spec_create_dir fuel m mode : layout (mc_files m) → mc_unseen m = [] →
  wpio (create_dir_all fuel (path_join root_dir s) mode) (λ r m', opens s m m' ∧
    (r = Ok tt → scope_at (mc_files m') s) ∧ (mc_faults m = [] → r = Ok tt)) m.
Proof.
  intros Hl Hu. assert (Hsee : ∀ m2 (e : OsError), opens s m m2 → (mc_faults m = [] → scope_at (mc_files m2) s) →
    wpio (do! is_dir := is_dir_path (path_join root_dir s) in io_ret (if is_dir : bool then Ok tt else Err e))
      (λ r m', opens s m m' ∧ (r = Ok tt → scope_at (mc_files m') s) ∧ (mc_faults m = [] → r = Ok tt)) m2).
  { intros m2 e Ho Hf. apply spec_or_is_dir; [by apply Ho|]. intros m3 r Hk3 E3 Hr.
    rewrite is_dir_scope in Hr by (by eapply opens_layout). rewrite E3.
    split_and!; [|by intros ?%Hr|by intros F%Hf; apply Hr]. eapply opens_trans; [done|by apply opens_keeps]. }
  destruct fuel as [|fuel]; cbn [create_dir_all]; destruct (str_is_empty (path_join root_dir s)) eqn:Ee.
  1,3: destruct (path_join root_dir s) eqn:E; [by apply join_nonempty in E|done].
  all: apply wpio_bind; eapply wpio_mono; [by apply spec_mkdir_scope|]; intros [[]|e] m1 [Ho Hm1]; [by apply wpio_ret|].
  all: destruct Hm1 as [E1 Hf1]; destruct (is_kind KNotFound e) eqn:Ek; cbn [negb];
    [|apply Hsee; [done|]; intros F; rewrite E1; by apply Hf1].
  { apply wpio_ret. split_and!; [done..|]. by intros [? _]%Hf1. }
  assert (HF : mc_faults m ≠ []) by (by intros [? _]%Hf1).
  destruct (path_parent (path_join root_dir s)) as [q|] eqn:Eq; [|by apply wpio_ret].
  apply path_parent_components in Eq as [c Ec]. rewrite path_components_join in Ec by done.
  apply app_inj_tail in Ec as [Ec _]. apply wpio_need. eapply wpio_mono.
  { apply (spec_create_above fuel q [] m1); [by rewrite E1|by apply Ho|by rewrite Ec, app_nil_r]. }
  intros [[]|e2] m2 [Hk2 E2]; (assert (Ho2 : opens s m m2) by (eapply opens_trans; [done|by apply opens_keeps])); [|done].
  apply wpio_bind. eapply wpio_mono; [apply (spec_mkdir_scope m2); by rewrite E2, E1|].
  intros [[]|e3] m3 [Ho3 Hm3]; [apply wpio_ret; split_and!; [by eapply opens_trans|done..]|].
  apply Hsee; [by eapply opens_trans|done].
Qed.
Lemma spec_create_scope m : layout (mc_files m) → mc_unseen m = [] →
  wpio (create_scope_dir (path_join root_dir s)) (λ r m', opens s m m' ∧
    (r = Ok tt → scope_at (mc_files m') s) ∧ (mc_faults m = [] → r = Ok tt)) m.
Proof.
  intros Hl Hu. apply wpio_need. eapply wpio_mono; [by apply spec_create_dir|].
  intros [[]|e] m1 (Ho & Hs1 & Hf); [|split_and!; [done..|by intros F%Hf]]. specialize (Hs1 eq_refl).
  pose proof (opens_layout _ _ _ Ho Hl) as Hl1. destruct Hs1 as [x Hx].
  apply wpio_changing; rewrite resolve_scope, Hx by done; cbn beta iota; rewrite Hx.
  - intros e m2 Hk E Hf2. split_and!; [|done|intros F; by specialize (Hf2 (kp_faults _ _ (proj1 Ho) F))].
    eapply opens_trans; [done|by apply opens_keeps].
  - intros [] m2 Hk E. injection E as E. split_and!; [|intros _; exists 448%N; by rewrite <- E, lookup_insert_eq|done].
    eapply opens_trans; [done|]. split; [done|]. right. eauto.
Qed.
End Scope.

(** ** Deleting an artifact *)

(** The store knows where it really is. *)
Definition rooted (m : Machine) : Prop :=
  layout (mc_files m) ∧ (mc_faults m = [] ∨ root_dir = path_string R).
(** One file or link goes that [path] leads to. *)
Definition removes (path : string) (m m' : Machine) : Prop :=
  keeps m m' ∧ (mc_files m' = mc_files m ∨ ∃ dir n e, parent_of (mc_files m) path = Ok (dir, n) ∧
    mc_files m !! (dir ++ [n]) = Some e ∧ (∀ mode, e ≠ EDir mode) ∧ mc_files m' = delete (dir ++ [n]) (mc_files m)).
Lemma removes_keeps path m m' : keeps m m' → mc_files m' = mc_files m → removes path m m'.
Proof. by split; [|left]. Qed.
Lemma removes_after path m m1 m2 : keeps m m1 → mc_files m1 = mc_files m → removes path m1 m2 → removes path m m2.
Proof. intros Hk E [A1 A2]. rewrite E in A2. split; [by etrans|done]. Qed.

Lemma spec_remove_path path m : wpio (remove_file path) (λ _ m', removes path m m') m.
Proof.
  apply wpio_changing; [intros; by apply removes_keeps|]. intros [] m' Hk E. split; [done|right].
  destruct (parent_of (mc_files m) path) as [[dir n]|] eqn:Ep; [|done]. cbn in E.
  destruct (mc_files m !! (dir ++ [n])) as [e|] eqn:Ee; [|done]. exists dir, n, e.
  destruct e; try done; injection E as E; by split_and!.
Qed.
Lemma spec_remove_if_there path m : wpio (remove_if_there path) (λ _ m', removes path m m') m.
Proof. apply wpio_bind. eapply wpio_mono; [apply spec_remove_path|]. done. Qed.

Lemma spec_canonical_root m : wpio (canonical_root_dir root_dir) (λ r m', keeps m m' ∧ mc_files m' = mc_files m ∧
  (rooted m → ∀ root, r = Ok root → root = path_string R)) m.
Proof.
  apply wpio_bind, wpio_asking.
  - intros e m1 Hk E Hf. assert (Hroot : rooted m → root_dir = path_string R).
    { intros [Hl [F|?]]; [|done]. specialize (Hf F). unfold resolve in Hf.
      pose proof (lay_named _ Hl) as Hne. destruct (str_is_empty root_dir) eqn:Ee; [by destruct root_dir|].
      by rewrite (layout_leads _ Hl) in Hf. }
    destruct (is_absolute root_dir) eqn:Ea.
    + apply wpio_ret. split_and!; [done..|]. intros ?%Hroot root [= <-]. done.
    + apply wpio_need, wpio_asking; [intros; split_and!; [by etrans|congruence|done]|].
      intros cwd m2 Hk2 E2 _. apply wpio_ret. split_and!; [by etrans|congruence|]. intros HR%Hroot. exfalso.
      rewrite HR in Ea. unfold is_absolute in Ea. by destruct R as [|x r].
  - intros k m1 Hk E Er. apply wpio_ret. split_and!; [done..|]. intros [Hl _] root [= <-].
    destruct (resolve false (mc_files m) root_dir) as [k'|] eqn:Ek; [|done]. injection Er as <-.
    unfold resolve in Ek. destruct (str_is_empty root_dir); [done|]. rewrite (layout_leads _ Hl) in Ek. congruence.
Qed.

Lemma spec_remove_within path root m :
  wpio (do! within := path_is_within_root path root in
        if within then remove_if_there path else io_ret (Ok tt)) (λ _ m', removes path m m' ∧
    (mc_files m' = mc_files m ∨ ∀ dir n, parent_of (mc_files m) path = Ok (dir, n) →
       path_starts_with (path_string dir) root = true)) m.
Proof.
  unfold path_is_within_root. destruct (path_parent path) as [q|] eqn:Eq; [|split; [by apply removes_keeps|by left]].
  do 2 apply wpio_bind. apply wpio_asking.
  { intros e m1 Hk E _. split; [by apply removes_keeps|by left]. }
  intros p m1 Hk E Ep. apply wpio_ret. destruct (path_starts_with p root) eqn:Es.
  2:{ apply wpio_ret. split; [by apply removes_keeps|by left]. }
  eapply wpio_mono; [apply spec_remove_if_there|]. intros r m2 Hm2. split; [by eapply removes_after|right].
  intros dir n Hpar. apply path_parent_components in Eq as [c Ec]. unfold parent_of in Hpar.
  rewrite Ec, rev_app_distr in Hpar. destruct c as [| | |name]; try done. cbn [rev app] in Hpar.
  rewrite rev_involutive in Hpar. unfold resolve in Ep. destruct (str_is_empty q); [done|].
  destruct (walk _ _ _ _ (path_components q)) as [k|]; [|done]. injection Ep as <-. cbn in Hpar.
  by destruct (entry_at (mc_files m) k) as [[]|]; try done; injection Hpar as -> _.
Qed.

(** A reference is deleted by removing a file of its name, inside of the store. *)
Definition deletes (id : OutputRefId) (m m' : Machine) : Prop :=
  keeps m m' ∧ (mc_files m' = mc_files m ∨ ∃ dir n e, artifact_file_name_matches n id = true ∧
    mc_files m !! (dir ++ [n]) = Some e ∧ (∀ mode, e ≠ EDir mode) ∧ mc_files m' = delete (dir ++ [n]) (mc_files m) ∧
    (rooted m → R `prefix_of` dir)).
Lemma deletes_keeps id m m' : keeps m m' → mc_files m' = mc_files m → deletes id m m'.
Proof. by split; [|left]. Qed.
Lemma deletes_within id path fn root m m1 m2 : file_name_str path = Some fn → artifact_file_name_matches fn id = true →
  keeps m m1 → mc_files m1 = mc_files m → (rooted m → root = path_string R) →
  removes path m1 m2 → (mc_files m2 = mc_files m1 ∨ ∀ dir n, parent_of (mc_files m1) path = Ok (dir, n) →
       path_starts_with (path_string dir) root = true) → deletes id m m2.
Proof.
  intros Hfn Hid Hk E Hroot [A1 A2] Hin. rewrite E in *. split; [by etrans|].
  destruct A2 as [A2|(dir & n & e & B1 & B2 & B3 & B4)]; [by left|]. destruct Hin as [Hin|Hin]; [by left|right].
  assert (Hn : n = fn ∧ ∃ todo, walk MAXSYMLINKS (mc_files m) false working_dir todo = Ok dir ∧
      ∀ x, Normal x ∈ todo → plain_name x).
  { unfold parent_of in B1. unfold file_name_str, path_file_name in Hfn.
    destruct (List.rev (path_components path)) as [|[| | |name] front] eqn:Er; try done.
    destruct (walk _ _ _ _ (List.rev front)) as [k|] eqn:Ew; [|done]. cbn in B1. assert (k = dir ∧ name = n) as [-> ->].
    { by destruct (entry_at (mc_files m) k) as [[]|]; try done; injection B1 as -> ->. }
    cbn in Hfn. destruct (is_utf8 n); [|done]. injection Hfn as ->. split; [done|]. exists (List.rev front).
    split; [done|]. intros x Hx. apply (components_plain path). rewrite <- (rev_involutive (path_components path)), Er.
    cbn. apply elem_of_app. by left. }
  destruct Hn as (-> & todo & Hw & Htodo). exists dir, fn, e. split_and!; try done. intros Hrt.
  specialize (Hin dir fn B1). rewrite Hroot in Hin by done. apply below_path_string in Hin; [done| |apply Hrt].
  eapply walk_plain; [|done..]. apply (lay_cwd _ (proj1 Hrt)).
Qed.

Lemma spec_delete_artifact output_ref m :
  wpio (delete_artifact root_dir output_ref) (λ _ m', deletes (oref_id output_ref) m m') m.
Proof.
  unfold delete_artifact. apply wpio_bind, wpio_asking; [intros; by apply deletes_keeps|]. intros meta m1 Hk1 E1 _.
  destruct (file_name_str (oref_uri output_ref)) as [fn|] eqn:Efn; [|by apply deletes_keeps].
  destruct (_ || _); [by apply deletes_keeps|].
  destruct (artifact_file_name_matches fn (oref_id output_ref)) eqn:Ema; cbn [negb]; [|by apply deletes_keeps].
  assert (Htail : ∀ m3 root, keeps m m3 → mc_files m3 = mc_files m → (rooted m → root = path_string R) →
    wpio (do! within := path_is_within_root (oref_uri output_ref) root in
        if within then remove_if_there (oref_uri output_ref) else io_ret (Ok tt))
      (λ _ m', deletes (oref_id output_ref) m m') m3).
  { intros m3 root Hk3 E3 Hroot. eapply wpio_mono; [apply spec_remove_within|]. intros r m4 [Ho Hin].
    by eapply deletes_within. }
  apply wpio_bind, wpio_asking; intros x m2 Hk2 E2 _;
    assert (Hk : keeps m m2) by (by etrans); assert (E : mc_files m2 = mc_files m) by congruence.
  1: destruct (is_kind KNotFound x); [|by apply deletes_keeps].
  all: apply wpio_need, wpio_artifact_io; eapply wpio_mono; [apply spec_canonical_root|];
    intros [root|e] m3 (Hk3 & E3 & Hroot); [|apply deletes_keeps; [by etrans|congruence]].
  all: assert (Hroot' : rooted m → root = path_string R) by
    (intros [A1 A2]; apply Hroot; [split; [by rewrite E|destruct A2 as [A2|]; [left; by apply Hk|by right]]|done]).
  all: assert (Hk' : keeps m m3) by (by etrans); assert (E' : mc_files m3 = mc_files m) by congruence.
  - destruct meta; [by apply deletes_keeps..|]. by apply Htail.
  - cbn [map_err]. destruct (path_starts_with x root); cbn [negb]; [|by apply deletes_keeps]. by apply Htail.
Qed.

(** ** Writing an artifact *)

Definition artifact_file (id : OutputRefId) (label : string) : string :=
  as_str id +:+ "-" +:+ sanitize_label label +:+ ARTIFACT_SUFFIX.
Definition next_id (m : Machine) : OutputRefId := id_new OutputRefIdKind (uuid_at (src_uuids (mc_sources m))).
Definition record_at (now : LedgerTimestamp) (m : Machine) (s label media_type : string)
  (metadata : ArtifactWriteMetadata) : LocalArtifactRecord :=
  let uri := to_string_lossy (path_string (key s (artifact_file (next_id m) label))) in {|
  lar_id := next_id m; lar_scope := s; lar_project_id := awm_project_id metadata;
  lar_repository_id := awm_repository_id metadata; lar_path := uri; lar_uri := uri;
  lar_media_type := media_type; lar_label := Some label; lar_created_at := now;
  lar_original_bytes := awm_original_bytes metadata; lar_retained_bytes := awm_retained_bytes metadata;
  lar_tombstone := None |}.
Definition record_for (m : Machine) : string → string → string → ArtifactWriteMetadata → LocalArtifactRecord :=
  record_at (now_at (src_clock (mc_sources m))) m.

Lemma out_names t : ¬ file_tmp ("out_" +:+ t) ∧ ¬ index_name ("out_" +:+ t).
Proof. split; [done|]. by intros [|[]]. Qed.
Lemma artifact_other uuid label :
  ¬ file_tmp (artifact_file (id_new OutputRefIdKind uuid) label) ∧ ¬ index_name (artifact_file (id_new OutputRefIdKind uuid) label).
Proof. unfold artifact_file, id_new, as_str. cbn [id_prefix]. rewrite append_assoc_r. apply out_names. Qed.
Lemma ends_with_suffix a b : ends_with b (a +:+ b) = true.
Proof. unfold ends_with. rewrite to_bytes_app, rev_app_distr. apply list_prefixb_spec. by eexists. Qed.
Lemma artifact_matches uuid label :
  artifact_file_name_matches (artifact_file (id_new OutputRefIdKind uuid) label) (id_new OutputRefIdKind uuid) = true.
Proof.
  unfold artifact_file_name_matches. rewrite !andb_true_iff. split_and!.
  - done.
  - done.
  - apply starts_with_prefix.
  - unfold artifact_file. rewrite <- !append_assoc_r. apply ends_with_suffix.
Qed.
Lemma artifact_plain id label : slash ∉ to_bytes (as_str id) → plain_name (artifact_file id label).
Proof.
  intros Hid. unfold artifact_file. apply plain_long; rewrite !to_bytes_app; [|rewrite !length_app; cbn; lia].
  rewrite !not_elem_of_app. split_and!; [done|by (apply (bool_decide_unpack _); vm_compute)|apply label_no_slash|].
  by (apply (bool_decide_unpack _); vm_compute).
Qed.

(** Files of one scope change whose names [P] holds of. *)
Record stays (s : string) (P : string → Prop) (m m' : Machine) : Prop := {
  sy_unseen : mc_unseen m = [] → mc_unseen m' = [];
  sy_faults : mc_faults m = [] → mc_faults m' = [];
  sy_layout : layout (mc_files m) → layout (mc_files m');
  sy_same : ∀ s' n, (s = s' → ¬ P n) → mc_files m' !! key s' n = mc_files m !! key s' n;
  sy_scopes : ∀ s', scope_at (mc_files m) s' → scope_at (mc_files m') s'
}.
Lemma stays_trans s P m1 m2 m3 : stays s P m1 m2 → stays s P m2 m3 → stays s P m1 m3.
Proof. intros [A1 A2 A3 A4 A5] [B1 B2 B3 B4 B5]. split; auto. intros s' n Hn. by rewrite B4, A4. Qed.
Lemma stays_weaken s (P Q : string → Prop) m m' : stays s P m m' → (∀ n, P n → Q n) → stays s Q m m'.
Proof. intros [A1 A2 A3 A4 A5] HPQ. split; auto. intros s' n Hn. apply A4. intros E ?%HPQ. by apply Hn. Qed.
Lemma stays_changes s P m m' : changes s P m m' → stays s P m m'.
Proof.
  intros Hc. split; try apply (ch_keeps _ _ _ _ Hc); [apply (ch_layout _ _ _ _ Hc)|..].
  - intros s' n. apply (changes_key _ _ _ _ _ _ Hc).
  - intros s' [x Hx]. exists x. by rewrite (changes_scope _ _ _ _ _ Hc).
Qed.
Lemma stays_opens s P m m' : opens s m m' → stays s P m m'.
Proof.
  intros Ho. split; try apply Ho; [by eapply opens_layout|..].
  - intros s' n _. by eapply opens_file.
  - intros s' [x Hx]. destruct Ho as [_ [->|[y ->]]]; [by eexists|]. destruct (decide (s' = s)) as [->|?].
    + exists y. by rewrite lookup_insert_eq.
    + exists x. rewrite lookup_insert_ne; [done|]. intros ?%app_inv_head. congruence.
Qed.
Lemma stays_files s P m m' : mc_unseen m' = mc_unseen m → mc_faults m' = mc_faults m → mc_files m' = mc_files m →
  stays s P m m'.
Proof. intros E1 E2 E3. split; by rewrite ?E1, ?E2, ?E3. Qed.
Lemma stays_ready s P m m' : stays s P m m' → ready m s → ready m' s.
Proof. intros [A1 A2 A3 A4 A5] [B1 B2 B3]. split; auto. Qed.
Lemma stays_index s P m m' s' : stays s P m m' → (s = s' → ¬ P INDEX_FILE) →
  index_of (mc_files m') s' = index_of (mc_files m) s'.
Proof. intros Hs HP. unfold index_of. by rewrite (sy_same _ _ _ _ Hs) by done. Qed.

(** What a write that fails may have left behind: files of its own name, and
    temporary files. *)
Definition safe_from (id : OutputRefId) (n : string) : Prop :=
  n = INDEX_FILE ∨ artifact_file_name_matches n id = false ∧ ¬ index_name n ∧ ¬ file_tmp n.
Definition leaves (id : OutputRefId) (m m' : Machine) : Prop :=
  ∀ s n, safe_from id n → mc_files m' !! key s n = mc_files m !! key s n.
Lemma leaves_trans id m1 m2 m3 : leaves id m1 m2 → leaves id m2 m3 → leaves id m1 m3.
Proof. intros H12 H23 s n Hn. by rewrite H23, H12. Qed.
Lemma leaves_stays id s P m m' : stays s P m m' → (∀ n, P n → ¬ safe_from id n) → leaves id m m'.
Proof. intros Hs HP s' n Hn. apply (sy_same _ _ _ _ Hs). intros _ ?%HP. done. Qed.
Lemma leaves_edited id s f m e m' : edited s f m (Err e) m' → leaves id m m'.
Proof.
  intros [Hc Hx] s' n [->|(_ & Hn & _)].
  - destruct (decide (s' = s)) as [->|Hne]; [done|]. apply (changes_key _ _ _ _ _ _ Hc). congruence.
  - apply (changes_key _ _ _ _ _ _ Hc). by intros _ ?.
Qed.
Lemma matches_not_index id : artifact_file_name_matches INDEX_FILE id = false.
Proof. done. Qed.
Lemma leaves_delete id m m' k n : artifact_file_name_matches n id = true →
  mc_files m' = delete (k ++ [n]) (mc_files m) → leaves id m m'.
Proof.
  intros Hm E s n' Hn. rewrite E. apply lookup_delete_ne. unfold key.
  change [s; n'] with ([s] ++ [n']). rewrite app_assoc. intros [_ ->]%app_inj_tail.
  destruct Hn as [->|[Hn _]]; [by rewrite matches_not_index in Hm|congruence].
Qed.
Lemma leaves_deletes id m m' : deletes id m m' → leaves id m m'.
Proof. intros [_ [E|(dir & n & e & Hm & _ & _ & E & _)]]; [intros s n _; by rewrite E|by eapply leaves_delete]. Qed.

(** A deletion inside of the store is the removal of one of its files. *)
Lemma deletes_changes id m m' : deletes id m m' → rooted m → mc_unseen m = [] →
  keeps m m' ∧ (mc_files m' = mc_files m ∨ ∃ s n, artifact_file_name_matches n id = true ∧ changes s (eq n) m m').
Proof.
  intros [Hk [E|(dir & n & e & Hm & He & Hdir & E & Hin)]] Hr Hu; [auto|]. split; [done|right].
  destruct (Hin Hr) as [l ->]. destruct Hr as [Hl _]. rewrite <- app_assoc in He.
  pose proof (lay_shape _ Hl (l ++ [n]) e ltac:(by destruct l) He) as Hshape.
  destruct l as [|s [|? l]]; [destruct Hshape as [x ->]; by destruct (Hdir x)| |by destruct l].
  exists s, n. split; [done|]. rewrite <- app_assoc in E. apply changes_delete; [|done..].
  split; [done..|]. apply Hshape.
Qed.

(** The store is still one. *)
Record steady (m m' : Machine) : Prop := {
  sd_unseen : mc_unseen m = [] → mc_unseen m' = [];
  sd_faults : mc_faults m = [] → mc_faults m' = [];
  sd_layout : layout (mc_files m) → layout (mc_files m');
  sd_scopes : ∀ s', scope_at (mc_files m) s' → scope_at (mc_files m') s'
}.
#[local] Instance steady_preorder : PreOrder steady.
Proof. split; [by intros m; split|]. intros a b c [A1 A2 A3 A4] [B1 B2 B3 B4]. split; auto. Qed.
Lemma steady_stays s P m m' : stays s P m m' → steady m m'.
Proof. intros [A1 A2 A3 A4 A5]. by split. Qed.
Lemma steady_changes s P m m' : changes s P m m' → steady m m'.
Proof. intros Hc. by eapply steady_stays, stays_changes. Qed.
Lemma steady_deletes id m m' : deletes id m m' → rooted m → mc_unseen m = [] → steady m m'.
Proof.
  intros Hd Hr Hu. destruct (deletes_changes _ _ _ Hd Hr Hu) as [Hk [E|(s & n & _ & Hc)]]; [|by eapply steady_changes].
  eapply (steady_changes EmptyString (λ _, False)). by apply changes_refl.
Qed.
Lemma steady_rooted m m' : steady m m' → rooted m → rooted m'.
Proof. intros [A1 A2 A3 A4] [Hl Hf]. split; [auto|]. destruct Hf; auto. Qed.
Lemma steady_ready m m' s : steady m m' → ready m s → ready m' s.
Proof. intros [A1 A2 A3 A4] [B1 B2 B3]. split; auto. Qed.

Record written (m : Machine) (s label media_type : string) (data : bytes) (metadata : ArtifactWriteMetadata)
  (m' : Machine) : Prop := {
  wr_stays : stays s (λ n, n = artifact_file (next_id m) label ∨ index_name n) m m';
  wr_scope : scope_at (mc_files m') s;
  wr_file : mc_files m' !! key s (artifact_file (next_id m) label) = Some (EFile data 384);
  wr_index : ∃ l, index_of (mc_files m) s = Some l ∧
    index_of (mc_files m') s = Some (sort_records (l ++ [record_for m s label media_type metadata]));
  wr_uuids : src_uuids (mc_sources m') = S (src_uuids (mc_sources m))
}.
Definition reference_for (m : Machine) (s label media_type : string) : OutputRef := {|
  oref_id := next_id m; oref_uri := to_string_lossy (path_string (key s (artifact_file (next_id m) label)));
  oref_media_type := media_type; oref_label := Some label; oref_digest := None |}.

Section Write.
Context (Huuid : ∀ i, slash ∉ to_bytes (uuid_at i)).
Lemma next_id_no_slash m : slash ∉ to_bytes (as_str (next_id m)).
Proof.
  unfold next_id, id_new, as_str. rewrite to_bytes_app, not_elem_of_app. split; [|done].
  by (apply (bool_decide_unpack _); vm_compute).
Qed.
Lemma matches_unsafe id n : n ≠ INDEX_FILE → artifact_file_name_matches n id = true ∨ file_tmp n → ¬ safe_from id n.
Proof. intros Hn Hm [|(? & _ & ?)]; [done|]. destruct Hm; [congruence|done]. Qed.
Lemma file_tmp_not_index n : file_tmp n → n ≠ INDEX_FILE.
Proof. by intros Hn ->. Qed.
Lemma own_unsafe m label n : n = artifact_file (next_id m) label ∨ file_tmp n → ¬ safe_from (next_id m) n.
Proof.
  pose proof (artifact_matches (uuid_at (src_uuids (mc_sources m))) label) as Hm.
  intros [->|Hn]; apply matches_unsafe; [|by left|by apply file_tmp_not_index|by right].
  intros E. unfold next_id in E. by rewrite E in Hm.
Qed.

(** The end of a write: the record, or the file's removal. *)
Lemma spec_register m m3 p s label media_type data metadata : dir_path p s → plain_name s → ready m3 s →
  stays s (eq (artifact_file (next_id m) label)) m m3 →
  mc_sources m3 = {| src_uuids := S (src_uuids (mc_sources m)); src_clock := src_clock (mc_sources m) |} →
  mc_files m3 !! key s (artifact_file (next_id m) label) = Some (EFile data 384) →
  wpio (do! created_at := ledger_now in
        do! written := add_record p (record_at created_at m s label media_type metadata) in
        match written with
        | Ok _ => io_ret (Ok (reference_for m s label media_type))
        | Err e =>
            do! _ := delete_artifact root_dir (reference_for m s label media_type) in
            do! _ := remove_file (path_join p (artifact_file (next_id m) label)) in
            io_ret (Err e)
        end) (λ r m',
    match r with
    | Ok out => out = reference_for m s label media_type ∧ written m s label media_type data metadata m'
    | Err _ => leaves (next_id m) m m' ∧ (rooted m → steady m m')
    end ∧ (mc_faults m = [] → is_Some (index_of (mc_files m) s) → is_ok r = true)) m3.
Proof.
  intros Hp Hs Hr Hst Hsrc Hfile. set (f := artifact_file (next_id m) label) in *.
  pose proof (artifact_other (uuid_at (src_uuids (mc_sources m))) label) as [Hft Hix].
  assert (Hfx : f ≠ INDEX_FILE) by (intros E; apply Hix; fold f; right; by left).
  apply wpio_bind. unfold wpio at 1, ledger_now, draw_now. cbn [fst snd].
  assert (spec_remove_own : ∀ m', wpio (remove_file (path_join p f)) (λ _ m'', ready m' s → changes s (eq f) m' m'') m').
  { intros m' Hr'. by apply (spec_remove_file p s Hp f m' Hr'), artifact_plain, next_id_no_slash. }
  set (m4 := with_sources m3 _). assert (Hst4 : stays s (eq f) m m4) by (eapply stays_trans; [done|by apply stays_files]).
  assert (Hr4 : ready m4 s) by (destruct Hr; by split).
  rewrite Hsrc. cbn [src_clock]. change (record_at _ m) with (record_for m).
  apply wpio_bind. eapply wpio_mono; [by apply (spec_add_record p s Hp)|]. intros r m5 [He Hf].
  assert (Hx4 : index_of (mc_files m4) s = index_of (mc_files m) s) by (apply (stays_index _ _ _ _ _ Hst4); by intros _ ?).
  destruct r as [[]|e].
  - apply wpio_ret. split; [|done]. split; [done|]. destruct He as [Hc (l & Hl & Hl')]. rewrite Hx4 in Hl.
    split; [| |by rewrite (changes_key _ _ _ _ _ _ Hc)| |].
    + eapply stays_trans; [eapply stays_weaken; [exact Hst4|by left]|]. eapply stays_weaken; [by apply stays_changes|by right].
    + apply (rd_scope m5 s). by eapply changes_ready.
    + eauto.
    + rewrite (kp_sources _ _ (ch_keeps _ _ _ _ Hc)). cbn. by rewrite Hsrc.
  - apply wpio_bind. eapply wpio_mono; [apply spec_delete_artifact|]. intros r6 m6 Hd6.
    assert (Hsd6 : rooted m → steady m m6 ∧ ready m6 s).
    { intros Hroot. assert (Hsd5 : steady m m5).
      { etrans; [exact (steady_stays _ _ _ _ Hst4)|]. exact (steady_changes _ _ _ _ (proj1 He)). }
      assert (Hr5 : ready m5 s) by (by eapply changes_ready; [apply (proj1 He)|]).
      assert (Hsd6 : steady m5 m6) by exact (steady_deletes _ _ _ Hd6 (steady_rooted _ _ Hsd5 Hroot) (rd_seen _ _ Hr5)).
      split; [by etrans|by eapply steady_ready]. }
    apply wpio_bind. eapply wpio_mono; [apply wpio_and; [apply spec_remove_path|exact (spec_remove_own m6)]|].
    intros r7 m7 [Hd7 Hown7]. apply wpio_ret. split; [split|].
    + eapply leaves_trans; [eapply (leaves_stays _ s _ _ _ Hst4)|].
      { intros n <-. apply (own_unsafe m label). by left. }
      eapply leaves_trans; [by eapply leaves_edited|]. eapply leaves_trans; [exact (leaves_deletes _ _ _ Hd6)|].
      destruct Hd7 as [_ [E|(dir & n & x & Hpar & _ & _ & E)]]; [intros ? ? _; by rewrite E|].
      eapply leaves_delete; [|done]. unfold parent_of in Hpar. rewrite path_components_join in Hpar by (apply artifact_plain, next_id_no_slash).
      rewrite rev_app_distr in Hpar. cbn [rev app] in Hpar. destruct (walk _ _ _ _ _) as [k|]; [|done]. cbn in Hpar.
      assert (n = f) as -> by (by destruct (entry_at (mc_files m6) k) as [[]|]; try done; injection Hpar as _ ->).
      apply artifact_matches.
    + intros [Hsd6' Hr6]%Hsd6. etrans; [done|]. exact (steady_changes _ _ _ _ (Hown7 Hr6)).
    + intros F Hix0. rewrite <- Hx4 in Hix0. by specialize (Hf (sy_faults _ _ _ _ Hst4 F) Hix0).
Qed.

Lemma spec_write_bytes m scope s label media_type data metadata :
  layout (mc_files m) → mc_unseen m = [] → sanitize_segment scope = Ok s →
  wpio (write_bytes_with_metadata root_dir scope label media_type data metadata) (λ r m',
    match r with
    | Ok out => out = reference_for m s label media_type ∧ written m s label media_type data metadata m'
    | Err _ => leaves (next_id m) m m' ∧ (rooted m → steady m m')
    end ∧ (mc_faults m = [] → is_Some (index_of (mc_files m) s) →
           (∀ n, file_tmp n → mc_files m !! key s n = None) → is_ok r = true)) m.
Proof.
  intros Hl Hu Hs. pose proof (segment_plain _ _ Hs) as Hplain. unfold write_bytes_with_metadata. rewrite Hs.
  apply wpio_bind. unfold wpio at 1, new_output_ref_id, draw_uuid. cbn [fst snd]. set (m1 := with_sources m _).
  change (id_new OutputRefIdKind (uuid_at (src_uuids (mc_sources m)))) with (next_id m).
  set (f := artifact_file (next_id m) label). change (as_str (next_id m) +:+ _) with f.
  assert (Hf : plain_name f) by apply artifact_plain, next_id_no_slash.
  assert (Hst1 : ∀ P, stays s P m m1) by (intros; by apply stays_files).
  assert (Hfail : ∀ P m2, stays s P m m2 → (∀ n, P n → n = f ∨ file_tmp n) →
    leaves (next_id m) m m2 ∧ (rooted m → steady m m2)).
  { intros P m2 Hst HP. split; [|intros _; by eapply steady_stays]. eapply leaves_stays; [done|]. intros n ?%HP. by apply (own_unsafe m label). }
  apply wpio_need, wpio_artifact_io. eapply wpio_mono; [apply (spec_create_scope s Hplain m1); done|].
  intros r m2 (Ho & Hs2 & Hf2). assert (Hst2 : ∀ P, stays s P m m2).
  { intros P. eapply stays_trans; [apply Hst1|by apply stays_opens]. }
  destruct r as [[]|e]; cbn [map_err]; [|split; [by eapply (Hfail (λ _, False))|intros F; by specialize (Hf2 F)]].
  specialize (Hs2 eq_refl). assert (Hr2 : ready m2 s) by (split; [by apply (sy_layout _ _ _ _ (Hst2 (λ _, False)))|by apply (sy_unseen _ _ _ _ (Hst2 (λ _, False)))|done]).
  apply wpio_need, wpio_artifact_io, wpio_asking; rewrite resolve_scope by (by try apply Hr2); destruct Hs2 as [x Hx]; rewrite Hx.
  { intros e m3 Hk3 E3 Hf3. split; [|intros F; by specialize (Hf3 (sy_faults _ _ _ _ (Hst2 (λ _, False)) F))].
    eapply (Hfail (λ _, False)); [|done]. eapply stays_trans; [apply Hst2|]. apply stays_changes. by apply changes_refl. }
  intros dir m3 Hk3 E3 Hdir. injection Hdir as <-. cbn [map_err].
  assert (Hc3 : ∀ P, changes s P m2 m3) by (intros; by apply changes_refl).
  pose proof (dir_path_string s (lay_plain _ Hl) Hplain) as Hp.
  assert (Hpc : path_components (path_string (R ++ [s])) ≠ []).
  { rewrite path_components_string; [done|]. apply Forall_app_2; [apply (lay_plain _ Hl)|by constructor]. }
  assert (Hr3 : ready m3 s) by apply (changes_ready _ _ _ _ (Hc3 (λ _, False)) Hr2).
  pose proof (artifact_other (uuid_at (src_uuids (mc_sources m))) label) as [Hft _].
  apply wpio_need, wpio_artifact_io. eapply wpio_mono; [by apply (spec_write_file _ s f Hp Hpc Hf data m3)|].
  intros r m4 (Hc4 & HQ & Hf4). assert (Hst4 : ∀ P, changes s P m3 m4 → stays s P m m4).
  { intros P Hc. eapply stays_trans; [apply Hst2|]. eapply stays_trans; apply stays_changes; [apply Hc3|done]. }
  destruct r as [[]|e]; cbn [map_err].
  2:{ split; [by eapply Hfail; [apply Hst4, Hc4|]|]. intros F _ Hno. discriminate Hf4.
      - apply Hk3. by apply (sy_faults _ _ _ _ (Hst2 (λ _, False))).
      - intros n Hn. rewrite E3, (sy_same _ _ _ _ (Hst2 (λ _, False))); auto. }
  destruct HQ as [Hfile Hcf]. assert (Hr4 : ready m4 s) by (by eapply changes_ready).
  apply wpio_need, wpio_artifact_io, wpio_asking; rewrite (resolve_in _ _ _ s), Hfile by (by try apply Hr4).
  { intros e m5 Hk5 E5 Hf5. split; [|intros F; specialize (Hf5 (sy_faults _ _ _ _ (Hst4 _ Hcf) F)); done].
    eapply (Hfail (eq f)); [|intros ? <-; by left]. eapply stays_trans; [by apply Hst4|]. apply stays_changes. by apply changes_refl. }
  intros can m5 Hk5 E5 Hcan. injection Hcan as <-. cbn [map_err].
  assert (Hc5 : changes s (eq f) m3 m5) by (eapply changes_trans; [done|by apply changes_refl]).
  refine (wpio_mono _ _ _ _ (spec_register m m5 _ s label media_type data metadata Hp Hplain _ _ _ _) _).
  - by apply (changes_ready _ _ _ _ Hc5).
  - eapply stays_trans; [apply Hst4, Hcf|]. apply stays_changes. by apply changes_refl.
  - rewrite (kp_sources _ _ (ch_keeps _ _ _ _ Hc5)), (kp_sources _ _ Hk3), (kp_sources _ _ (proj1 Ho)). done.
  - by rewrite E5.
  - intros r m6 [Ho6 Hf6]. auto.
Qed.
End Write.

(** ** Looking an artifact up *)

(** Only lock files appear. *)
Record quiet (m m' : Machine) : Prop := {
  qt_keeps : keeps m m';
  qt_layout : layout (mc_files m) → layout (mc_files m');
  qt_same : ∀ k, (∀ s, k ≠ key s LOCK_FILE) → mc_files m' !! k = mc_files m !! k
}.
#[local] Instance quiet_preorder : PreOrder quiet.
Proof.
  split; [by intros m; split|]. intros a b c [A1 A2 A3] [B1 B2 B3]. split; [by etrans|auto|].
  intros k Hk. by rewrite B3, A3.
Qed.
Lemma quiet_changes s m m' : changes s (eq LOCK_FILE) m m' → quiet m m'.
Proof. intros [A1 A2 A3]. split; [done..|]. intros k Hk. apply A3. intros ? <-. apply Hk. Qed.
Lemma quiet_keeps m m' : keeps m m' → mc_files m' = mc_files m → quiet m m'.
Proof. intros Hk E. by split; rewrite ?E. Qed.
Lemma quiet_scope m m' s : quiet m m' → scope_at (mc_files m') s ↔ scope_at (mc_files m) s.
Proof. intros [_ _ Hq]. unfold scope_at. rewrite Hq; [done|]. intros s'. apply scope_not_key. Qed.
Lemma quiet_index m m' s : quiet m m' → index_of (mc_files m') s = index_of (mc_files m) s.
Proof. intros [_ _ Hq]. unfold index_of. rewrite Hq; [done|]. by intros s' [_ ?]%key_inj. Qed.
Lemma quiet_ready m m' s : quiet m m' → ready m s → ready m' s.
Proof. intros Hq [A1 A2 A3]. split; [by apply (qt_layout _ _ Hq)|by apply (qt_keeps _ _ Hq)|by apply (quiet_scope _ _ _ Hq)]. Qed.

Lemma spec_read_scope p s m : dir_path p s → ready m s →
  wpio (read_scope_records p) (λ r m', quiet m m' ∧ (∀ l, r = Ok l → index_of (mc_files m) s = Some l) ∧
    (mc_faults m = [] → ∀ l, index_of (mc_files m) s = Some l → r = Ok l)) m.
Proof.
  intros Hp Hr. apply wpio_need. eapply wpio_mono; [by apply (spec_acquire p s Hp)|].
  intros [[]|e] m1 [Hc1 Hf1].
  2:{ split_and!; [by eapply quiet_changes|done|]. by intros ?%Hf1. }
  pose proof (quiet_changes _ _ _ Hc1) as Hq1. eapply wpio_mono; [apply (spec_read p s Hp); by eapply quiet_ready|].
  intros r m2 (Hk & E & Hl & Hf). rewrite (quiet_index _ _ _ Hq1) in *. split_and!; [|done|].
  - etrans; [done|by apply quiet_keeps].
  - intros F. apply Hf. by apply (qt_keeps _ _ Hq1).
Qed.

Lemma exists_scope s m Q : plain_name s → layout (mc_files m) → mc_unseen m = [] →
  (∀ m', keeps m m' → mc_files m' = mc_files m → Q (is_some (mc_files m !! (R ++ [s]))) m') →
  wpio (exists_path (path_join root_dir s)) Q m.
Proof.
  intros Hs Hl Hu HQ. apply wpio_seeing; [done|]. intros m' Hk E. rewrite resolve_scope by done.
  specialize (HQ m' Hk E). by destruct (mc_files m !! (R ++ [s])).
Qed.
Lemma layout_scope d s : layout d → is_some (d !! (R ++ [s])) = true ↔ scope_at d s.
Proof.
  intros Hl. unfold scope_at. split; [|by intros [x ->]]. destruct (d !! (R ++ [s])) as [e|] eqn:E; [|done].
  intros _. destruct (lay_shape _ Hl [s] e ltac:(done) E) as [x ->]. eauto.
Qed.

(** A file that a path names and that is not there. *)
Definition missing (d : Files) (p : string) : Prop :=
  ∀ dir n, parent_of d p = Ok (dir, n) → d !! (dir ++ [n]) = None.
(** Where a validated path leads. *)
Definition located (d : Files) (s : string) (id : OutputRefId) (p : string) : Prop :=
  (∃ n, p = path_string (key s n) ∧ artifact_file_name_matches n id = true) ∨
  (artifact_file_name_matches s id = true ∧ p = path_string (R ++ [s])) ∨ missing d p.

Lemma parent_file_name d p dir n : parent_of d p = Ok (dir, n) →
  path_file_name p = Some n ∧ is_dir_at d dir ∧ ∃ front, path_components p = front ++ [Normal n] ∧
    walk MAXSYMLINKS d false working_dir front = Ok dir.
Proof.
  unfold parent_of, path_file_name. destruct (List.rev (path_components p)) as [|[| | |name] front] eqn:Er; try done.
  destruct (walk _ _ _ _ (List.rev front)) as [k|] eqn:Ew; [|done]. cbn. intros Hk.
  assert (k = dir ∧ name = n ∧ is_dir_at d k) as (-> & -> & Hd).
  { unfold is_dir_at. destruct (entry_at d k) as [[]|]; try done. injection Hk as -> ->. eauto. }
  split_and!; [done..|]. exists (List.rev front). split; [|done]. by rewrite <- (rev_involutive (path_components p)), Er.
Qed.
(** A path that is not a link leads to its own place. *)
Lemma resolve_direct d p dir n e : layout d → parent_of d p = Ok (dir, n) → d !! (dir ++ [n]) = Some e →
  (∀ target, e ≠ ELink target) → resolve false d p = Ok (dir ++ [n]) ∧ Forall plain_name (dir ++ [n]).
Proof.
  intros Hl Hpar He Hlink. destruct (parent_file_name _ _ _ _ Hpar) as (_ & Hdir & front & Ec & Hw).
  assert (Hr : resolve false d p = Ok (dir ++ [n])).
  { unfold resolve. destruct (str_is_empty p) eqn:Ep.
    { destruct p; [|done]. by destruct front. }
    rewrite Ec. destruct (walk_app _ _ false _ _ _ [Normal n] Hw Hdir) as [links ->]; [done|].
    rewrite walk_eq. assert (En : entry_at d (dir ++ [n]) = Some e) by (by destruct dir). rewrite En.
    destruct e as [| |target]; [done|by rewrite walk_eq|by destruct (Hlink target)]. }
  split; [done|]. unfold resolve in Hr. destruct (str_is_empty p); [done|].
  eapply walk_plain; [apply (lay_cwd _ Hl)| |exact Hr]. intros x. apply components_plain.
Qed.
Lemma located_below d s id dir n e : layout d → d !! (dir ++ [n]) = Some e → Forall plain_name (dir ++ [n]) → plain_name s →
  artifact_file_name_matches n id = true → path_starts_with (path_string (dir ++ [n])) (path_string (R ++ [s])) = true →
  located d s id (path_string (dir ++ [n])).
Proof.
  intros Hl He Hpl Hs Hm Hst. apply below_path_string in Hst as [l El]; [|done|].
  2:{ apply Forall_app_2; [apply (lay_plain _ Hl)|by constructor]. }
  rewrite <- app_assoc in El. cbn in El. rewrite El in He.
  pose proof (lay_shape _ Hl (s :: l) e ltac:(done) He) as Hshape. destruct l as [|n' []]; try done.
  - right; left. rewrite El. apply app_inj_tail in El as [_ ->]. done.
  - left. exists n'. rewrite El. unfold key. split; [done|].
    change (R ++ [s; n']) with (R ++ [s] ++ [n']) in El. rewrite app_assoc in El. by apply app_inj_tail in El as [_ ->].
Qed.
Lemma spec_validate s id path m : plain_name s → layout (mc_files m) → mc_faults m = [] →
  wpio (validate_record_path root_dir s id path) (λ r m', keeps m m' ∧ mc_files m' = mc_files m ∧
    ∀ p, r = Some p → located (mc_files m) s id p) m.
Proof.
  intros Hs Hl F. assert (Hnone : ∀ m', keeps m m' → mc_files m' = mc_files m → wpio (io_ret None) (λ r m', keeps m m' ∧ mc_files m' = mc_files m ∧
    ∀ p, r = Some p → located (mc_files m) s id p) m') by (intros; by apply wpio_ret).
  unfold validate_record_path. apply wpio_bind, wpio_asking; [by intros; apply Hnone|].
  intros canon m1 Hk1 E1 Hcan. rewrite resolve_scope in Hcan by done.
  destruct (mc_files m !! (R ++ [s])) as [e0|] eqn:E0; [|done]. injection Hcan as <-.
  destruct (candidate_of _ path) as [cand|]; [|by apply Hnone].
  destruct (file_name_str cand) as [name|] eqn:En; [|by apply Hnone].
  destruct (_ || _) eqn:Eb; [by apply Hnone|]. apply orb_false_iff in Eb as [_ Hm%negb_false_iff].
  apply wpio_bind, wpio_asking; rewrite E1.
  { intros e m2 Hk2 E2 Hf. apply wpio_ret. split_and!; [by etrans|congruence|]. specialize (Hf (kp_faults _ _ Hk1 F)).
    intros p Hp. destruct (is_kind KNotFound e); [|done]. injection Hp as <-. right; right. intros dir n Hpar.
    rewrite Hpar in Hf. cbn in Hf. by destruct (mc_files m !! (dir ++ [n])). }
  intros e m2 Hk2 E2 Hmeta. destruct (parent_of (mc_files m) cand) as [[dir n]|] eqn:Hpar; [|done]. cbn in Hmeta.
  destruct (mc_files m !! (dir ++ [n])) as [e'|] eqn:Ee; [|done]. injection Hmeta as ->.
  assert (Hk : keeps m m2) by (by etrans). assert (E : mc_files m2 = mc_files m) by congruence.
  assert (Hgo : (∀ target, e ≠ ELink target) → resolve false (mc_files m) cand = Ok (dir ++ [n]) ∧ Forall plain_name (dir ++ [n])) by (by apply resolve_direct).
  assert (name = n) as ->.
  { destruct (parent_file_name _ _ _ _ Hpar) as [Hfn _]. unfold file_name_str in En. rewrite Hfn in En. cbn in En.
    destruct (is_utf8 n); [by injection En|done]. }
  destruct (match e with ELink _ => true | _ => false end) eqn:Elink; [destruct e; try done; by apply Hnone|].
  assert (Hne : ∀ target, e ≠ ELink target) by (by intros target ->). destruct (Hgo Hne) as [Hres Hpl].
  replace (match e with ELink _ => _ | _ => _ end) with (do! resolved := canonicalize cand in
    match resolved with
    | Err x => io_ret (if is_kind KNotFound x && path_starts_with cand (path_string (R ++ [s])) then Some cand else None)
    | Ok q => io_ret (if path_starts_with q (path_string (R ++ [s])) then Some q else None)
    end) by (by destruct e).
  apply wpio_bind, wpio_asking; rewrite E, Hres.
  - intros x m3 _ _ Hf. by specialize (Hf (kp_faults _ _ Hk F)).
  - intros q m3 Hk3 E3 Hq. injection Hq as <-. apply wpio_ret. split_and!; [by etrans|congruence|].
    intros p Hp. destruct (path_starts_with _ _) eqn:Est; [|done]. injection Hp as <-. by eapply located_below.
Qed.

(** ** Listing *)

(** The records of some scopes, with nothing left out. *)
Definition part_of (d : Files) (s : string) (part : list LocalArtifactRecord) : Prop :=
  index_of d s = Some part ∧ scope_at d s ∧ sanitize_segment s = Ok s.
Definition lists (d : Files) (names : list string) (l : list LocalArtifactRecord) : Prop :=
  ∃ parts, l ≡ₚ concat parts ∧ Forall2 (part_of d) names parts.
Lemma lists_elem d names l record : lists d names l →
  record ∈ l ↔ ∃ s part, s ∈ names ∧ part_of d s part ∧ record ∈ part.
Proof.
  intros (parts & -> & Hf). induction Hf as [|s part names parts Hp Hf IH]; cbn.
  { split; [by intros ?%not_elem_of_nil|]. by intros (? & ? & ?%not_elem_of_nil & _). }
  rewrite elem_of_app, IH. split.
  - intros [Hin|(s' & part' & ? & ? & ?)]; [exists s, part|exists s', part']; by rewrite elem_of_cons; auto.
  - intros (s' & part' & [->|Hs]%elem_of_cons & Hp' & Hin); [left|right; eauto 6].
    destruct Hp as [Hp _], Hp' as [Hp' _]. rewrite Hp in Hp'. by injection Hp' as <-.
Qed.
Lemma lists_part d names l s : lists d names l → s ∈ names → ∃ part, part_of d s part.
Proof.
  intros (parts & _ & Hf) Hs. apply list_elem_of_lookup in Hs as [i Hi].
  destruct (Forall2_lookup_l _ _ _ _ _ Hf Hi) as (part & _ & Hp). eauto.
Qed.

Lemma check_record_scope_same s record record' :
  check_record_scope s record = Ok record' → record' = record ∧ lar_scope record = s.
Proof.
  unfold check_record_scope. destruct (sanitize_segment (lar_scope record)) as [seg|]; [|done]. cbn.
  intros [E1 [E2 [= <-]]%reject_Ok]%reject_Ok. apply negb_false_iff, str_eqb_eq in E1, E2.
  destruct record. cbn in *. unfold set_scope. cbn. split; congruence.
Qed.
Lemma check_record_scopes_same s l l' : try_map (check_record_scope s) l = Ok l' →
  l' = l ∧ Forall (λ record, lar_scope record = s) l.
Proof.
  revert l'. induction l as [|x l IH]; intros l'; cbn [try_map]; [by intros [= <-]|].
  destruct (check_record_scope s x) as [x'|] eqn:Ex; [|done]. cbn.
  destruct (try_map (check_record_scope s) l) as [l2|]; [|done]. intros [= <-].
  destruct (check_record_scope_same _ _ _ Ex) as [-> Hx], (IH _ eq_refl) as [-> Hl]. auto.
Qed.
Lemma resolve_root d : layout d → resolve false d root_dir = Ok R.
Proof.
  intros Hld. unfold resolve. pose proof (lay_named _ Hld). destruct (str_is_empty root_dir) eqn:E; [by destruct root_dir|].
  by apply layout_leads.
Qed.
Lemma elem_of_entries dir d name : (name, true) ∈ entries_of dir d ↔ ∃ mode, d !! (dir ++ [name]) = Some (EDir mode).
Proof.
  unfold entries_of. rewrite list_elem_of_omap. split.
  - intros ([k e] & Hk & E). cbn in E. destruct (last k) as [n|]; [|done].
    case_bool_decide as Ek; [|done]. destruct e as [|mode|]; injection E as ->; try done.
    exists mode. apply elem_of_map_to_list. by rewrite <- Ek.
  - intros [mode Hm]. exists (dir ++ [name], EDir mode). split; [by apply elem_of_map_to_list|]. cbn.
    rewrite last_snoc. by rewrite bool_decide_eq_true_2.
Qed.

Section Listing.
Context (m0 : Machine) (Hl : layout (mc_files m0)) (Hu : mc_unseen m0 = []).

Lemma quiet_still m1 m2 : quiet m0 m1 → keeps m1 m2 → mc_files m2 = mc_files m1 → quiet m0 m2.
Proof. intros Hq Hk E. etrans; [done|by apply quiet_keeps]. Qed.
Lemma spec_read_scopes names records m : Forall (scope_at (mc_files m0)) names → quiet m0 m →
  wpio (read_scopes root_dir names records) (λ r m', quiet m0 m' ∧ ∀ l, r = Ok l → ∃ parts, l = records ++ concat parts ∧
    Forall2 (λ s part, part_of (mc_files m0) s part ∧ Forall (λ record, lar_scope record = s) part) names parts) m.
Proof.
  intros Hnames. revert records m. induction Hnames as [|name names Hn Hnames IH]; intros records m Hq; cbn [read_scopes].
  { apply wpio_ret. split; [done|]. intros ? [= <-]. exists []. by rewrite app_nil_r. }
  destruct (sanitize_segment _) as [s|] eqn:Es; [|by apply wpio_ret].
  destruct (str_eqb s _) eqn:Eq; cbn [negb]; [|by apply wpio_ret]. apply str_eqb_eq in Eq.
  assert (s = name) as ->.
  { rewrite Eq. clear Eq. unfold opt_filter in *. cbn in *. by destruct (is_utf8 name). }
  apply segment_idem in Es as Hseg. pose proof (segment_plain _ _ Es) as Hpl. assert (Hr : ready m name).
  { split; [by apply (qt_layout _ _ Hq)|by apply (qt_keeps _ _ Hq)|by apply (quiet_scope _ _ _ Hq)]. }
  apply wpio_need. eapply wpio_mono; [by apply (spec_read_scope _ name); [apply dir_path_join|]|].
  intros [l|e] m1 (Hq1 & Hix & _); (assert (Hq01 : quiet m0 m1) by (by etrans)); [|done].
  destruct (try_map _ l) as [l'|] eqn:El; [|by apply wpio_ret]. apply check_record_scopes_same in El as [-> Hsame].
  eapply wpio_mono; [by apply IH|]. intros r m2 [Hq2 Hl2]. split; [done|]. intros l2 ->.
  destruct (Hl2 _ eq_refl) as (parts & -> & Hf). exists (l :: parts). cbn. rewrite app_assoc. split; [done|].
  constructor; [|done]. rewrite (quiet_index _ _ _ Hq) in Hix. by split; [split_and!; auto|].
Qed.

(** What a list is about: the scope that was asked for, or every one. *)
Definition asked (scope : option string) (s : string) : Prop :=
  match scope with Some v => sanitize_segment v = Ok s | None => True end.
Definition listing (scope : option string) (r : ArtifactResult (list LocalArtifactRecord)) (m : Machine) : Prop :=
  quiet m0 m ∧ ∀ l, r = Ok l → ∃ names, lists (mc_files m0) names l ∧
    (∀ s, s ∈ names ↔ asked scope s ∧ scope_at (mc_files m0) s) ∧
    (scope = None → ∀ s part, s ∈ names → part_of (mc_files m0) s part → Forall (λ record, lar_scope record = s) part).
Lemma spec_list_all m : quiet m0 m → wpio (list_records root_dir None) (listing None) m.
Proof.
  intros Hq. pose proof (qt_layout _ _ Hq Hl) as Hlm. apply wpio_need. unfold read_all_records.
  apply wpio_bind, wpio_seeing; [by apply (qt_keeps _ _ Hq)|]. intros m1 Hk1 E1. rewrite resolve_root by done. cbn [is_ok negb].
  pose proof (quiet_still _ _ Hq Hk1 E1) as Hq1. apply wpio_need, wpio_artifact_io, wpio_asking.
  { intros e m2 Hk2 E2 _. split; [by eapply quiet_still|done]. }
  intros entries m2 Hk2 E2 He. rewrite E1, resolve_root in He by done. cbn beta iota in He.
  destruct (layout_root _ Hlm) as [mode Hmode]. rewrite Hmode in He. injection He as <-. cbn [map_err].
  set (names := merge_sort name_le _). assert (Hnames : ∀ s, s ∈ names ↔ scope_at (mc_files m0) s).
  { intros s. rewrite <- (quiet_scope _ _ _ Hq). unfold names, scope_at. rewrite (merge_sort_Permutation name_le), list_elem_of_fmap.
    rewrite <- elem_of_entries. split.
    - intros ([n b] & -> & Hin). apply list_elem_of_In, filter_In in Hin as [Hin Hb]. cbn in Hb. subst b. by apply list_elem_of_In.
    - intros Hin. exists (s, true). split; [done|]. apply list_elem_of_In, filter_In. by rewrite <- list_elem_of_In. }
  eapply wpio_mono; [apply (spec_read_scopes names); [apply Forall_forall; intros; by apply Hnames|by eapply quiet_still]|].
  intros [l|e] m3 [Hq3 Hl3]; [|done]. apply wpio_ret. split; [done|]. intros l' [= <-].
  destruct (Hl3 _ eq_refl) as (parts & -> & Hf). exists names. split_and!.
  - exists parts. split; [apply merge_sort_Permutation|]. eapply Forall2_impl; [done|]. by intros ? ? [? _].
  - intros s. rewrite Hnames. by split; [|intros [_ ?]].
  - intros _ s part Hs [Hp _]. apply list_elem_of_lookup in Hs as [i Hi].
    destruct (Forall2_lookup_l _ _ _ _ _ Hf Hi) as (part' & _ & [Hp' _] & Hsame). rewrite Hp in Hp'. by injection Hp' as <-.
Qed.
Lemma spec_list_records scope m : quiet m0 m → wpio (list_records root_dir scope) (listing scope) m.
Proof.
  intros Hq. destruct scope as [v|]; [|by apply spec_list_all]. pose proof (qt_layout _ _ Hq Hl) as Hlm.
  apply wpio_need. unfold scope_dir. destruct (sanitize_segment v) as [s|] eqn:Es; [|by apply wpio_ret]. cbn beta iota.
  pose proof (segment_plain _ _ Es) as Hpl. apply segment_idem in Es as Hseg.
  apply wpio_bind, exists_scope; [done..|by apply (qt_keeps _ _ Hq)|]. intros m1 Hk1 E1. pose proof (quiet_still _ _ Hq Hk1 E1) as Hq1.
  pose proof (layout_scope _ s Hlm) as Hscope. rewrite (quiet_scope _ _ s Hq) in Hscope.
  destruct (is_some _); cbn [negb].
  - destruct Hscope as [Hscope _]. specialize (Hscope eq_refl). assert (Hr1 : ready m1 s).
    { split; [by rewrite E1|by apply (qt_keeps _ _ Hq1)|by apply (quiet_scope _ _ _ Hq1)]. }
    eapply wpio_mono; [by apply (spec_read_scope _ s); [apply dir_path_join|]|].
    intros [l|e] m2 (Hq2 & Hix & _); (assert (Hq12 : quiet m0 m2) by (by etrans)); [|done]. apply wpio_ret. split; [done|].
    intros l' [= <-]. exists [s]. split_and!; [|intros s'; rewrite list_elem_of_singleton; unfold asked; split; [by intros ->|intros [? _]; congruence]|done].
    exists [l]. cbn. rewrite app_nil_r. split; [apply merge_sort_Permutation|]. repeat constructor; [|done..].
    rewrite <- (quiet_index _ _ _ Hq1). auto.
  - apply wpio_ret. split; [done|]. intros l' [= <-]. exists []. split_and!; [by exists []| |done].
    intros s'. split; [by intros ?%not_elem_of_nil|]. intros [Ha Hs']. cbn in Ha. rewrite Es in Ha. injection Ha as <-.
    by apply Hscope in Hs'.
Qed.
End Listing.

(** What a request may see: a record of its project, or of no project inside of
    its repository; of its repository, or of no repository in its scope. *)
Record allowed (record : LocalArtifactRecord) (repository_id project_id : option string) (scopes : list string) : Prop := {
  al_project p : project_id = Some p → lar_project_id record = Some p ∨
    lar_project_id record = None ∧ is_Some repository_id;
  al_no_project : project_id = None → lar_project_id record = None;
  al_repository r : repository_id = Some r → lar_repository_id record = Some r ∨
    lar_repository_id record = None ∧ lar_scope record ∈ scopes
}.
Lemma context_allowed record repository_id repository_scope project_id scopes :
  record_matches_request_context record repository_id repository_scope project_id = true →
  (∀ r, repository_id = Some r → ∃ scope, repository_scope = Some scope ∧ scope ∈ scopes) →
  allowed record repository_id project_id scopes.
Proof.
  unfold record_matches_request_context. intros [Hr Hp]%andb_true_iff Hsc. split.
  - intros p ->. apply andb_true_iff in Hp as [Hd Hn]. unfold differs in Hd.
    destruct (lar_project_id record) as [v|]; [left; f_equal; apply str_eqb_eq; by destruct (str_eqb v p)|right].
    by destruct repository_id.
  - intros ->. by destruct (lar_project_id record).
  - intros r ->. apply andb_true_iff in Hr as [Hd Hn]. unfold differs in Hd.
    destruct (lar_repository_id record) as [v|]; [left; f_equal; apply str_eqb_eq; by destruct (str_eqb v r)|right].
    destruct (Hsc r eq_refl) as (scope & -> & Hin). cbn in Hn. split; [done|].
    destruct (str_eqb (lar_scope record) scope) eqn:E; [|done]. by apply str_eqb_eq in E as ->.
Qed.

Definition unlocked (d d' : Files) : Prop := ∀ k, (∀ s, k ≠ key s LOCK_FILE) → d' !! k = d !! k.
(** An answer is about a record of the request's scopes that it may see. *)
Record answers (d : Files) (id : OutputRefId) (repository_id project_id : option string) (scopes : list string)
  (answer : ResolvedArtifactRecord) (s : string) (l : list LocalArtifactRecord) (record : LocalArtifactRecord) : Prop := {
  an_index : index_of d s = Some l;
  an_record : record ∈ l;
  an_scope : scopes = [] ∨ s ∈ scopes;
  an_id : lar_id record = id;
  an_allowed : allowed record repository_id project_id scopes;
  an_repository : rar_repository_id answer = lar_repository_id record;
  an_project : rar_project_id answer = lar_project_id record;
  an_segment : sanitize_segment (lar_scope record) = Ok (rar_scope answer);
  an_located : ∃ d', unlocked d d' ∧ located d' (rar_scope answer) id (rar_path answer)
}.

Section Lookup.
Context (id : OutputRefId) (repository_id repository_scope project_id : option string) (m0 : Machine).
Context (Hl : layout (mc_files m0)) (Hu : mc_unseen m0 = []) (HF : mc_faults m0 = []).
Context (Hscopes : Forall (λ s, sanitize_segment s = Ok s) (candidate_scopes repository_scope repository_id)).
Abbreviation scopes := (candidate_scopes repository_scope repository_id).

Definition answered (answer : ResolvedArtifactRecord) : Prop :=
  ∃ s l record, answers (mc_files m0) id repository_id project_id scopes answer s l record.
Definition listed (record : LocalArtifactRecord) : Prop :=
  ∃ s l, index_of (mc_files m0) s = Some l ∧ record ∈ l ∧ (scopes = [] ∨ s ∈ scopes).
(** The state of the loops. *)
Definition found_so_far (r : ArtifactResult Matches) (m : Machine) : Prop :=
  quiet m0 m ∧ ∀ acc, r = Ok acc → Forall answered acc.1.

Lemma spec_consider scope record acc m : listed record → Forall answered acc.1 → quiet m0 m →
  (∀ r, repository_id = Some r → ∃ sc, scope = Some sc ∧ sc ∈ scopes) →
  wpio (consider root_dir id repository_id scope project_id record acc) found_so_far m.
Proof.
  intros (s & l & Hix & Hin & Hs) Hacc Hq Hsc. unfold consider. case_bool_decide as Eid; cbn [negb].
  2:{ apply wpio_ret. split; [done|]. by intros ? [= <-]. }
  destruct (record_matches_request_context _ _ _ _) eqn:Ec; cbn [negb].
  2:{ apply wpio_ret. split; [done|]. by intros ? [= <-]. }
  destruct (sanitize_segment (lar_scope record)) as [seg|] eqn:Eseg; [|by apply wpio_ret].
  apply wpio_bind. eapply wpio_mono.
  { apply spec_validate; [by eapply segment_plain|by apply (qt_layout _ _ Hq)|by apply (qt_keeps _ _ Hq)]. }
  intros r m1 (Hk & E & Hr). apply wpio_ret. split; [etrans; [done|by apply quiet_keeps]|].
  intros acc'. destruct r as [p|]; [|done]. intros [= <-]. apply Forall_app_2; [done|]. constructor; [|constructor].
  exists s, l, record. split; try done; [by eapply context_allowed|].
  exists (mc_files m). split; [exact (qt_same _ _ Hq)|]. rewrite <- Eid. by apply Hr.
Qed.
Lemma spec_consider_all scope records acc m : Forall listed records → Forall answered acc.1 → quiet m0 m →
  (∀ r, repository_id = Some r → ∃ sc, scope = Some sc ∧ sc ∈ scopes) →
  wpio (consider_all root_dir id repository_id scope project_id records acc) found_so_far m.
Proof.
  intros Hrec Hacc Hq Hsc. revert acc m Hacc Hq. induction Hrec as [|record records Hr Hrec IH]; intros acc m Hacc Hq;
    cbn [consider_all]; [apply wpio_ret; split; [done|]; by intros ? [= <-]|].
  apply wpio_need. eapply wpio_mono; [by apply spec_consider|]. intros [acc'|e] m1 [Hq1 Ha1]; [|done]. apply IH; auto.
Qed.

Lemma spec_consider_scopes todo acc m : todo ⊆ scopes → Forall answered acc.1 → quiet m0 m →
  wpio (consider_scopes root_dir id repository_id project_id todo acc) found_so_far m.
Proof.
  revert acc m. induction todo as [|scope todo IH]; intros acc m Hsub Hacc Hq; cbn [consider_scopes].
  { apply wpio_ret. split; [done|]. by intros ? [= <-]. }
  assert (Hin : scope ∈ scopes) by (apply Hsub; by left). assert (Hsub' : todo ⊆ scopes) by (intros x ?; apply Hsub; by right).
  assert (Hseg : sanitize_segment scope = Ok scope) by (by apply (proj1 (Forall_forall _ _) Hscopes)).
  pose proof (segment_plain _ _ Hseg) as Hpl. unfold scope_dir. rewrite Hseg. cbn beta iota.
  pose proof (qt_layout _ _ Hq Hl) as Hlm. apply wpio_bind, exists_scope; [done..|by apply (qt_keeps _ _ Hq)|].
  intros m1 Hk1 E1. pose proof (quiet_still m0 _ _ Hq Hk1 E1) as Hq1.
  destruct (is_some (mc_files m !! (R ++ [scope]))) eqn:Es; cbn [negb]; [|by apply IH].
  assert (Hr1 : ready m1 scope).
  { split; [by rewrite E1|by apply (qt_keeps _ _ Hq1)|]. rewrite E1. by apply layout_scope. }
  apply wpio_need. eapply wpio_mono; [by apply (spec_read_scope _ scope); [apply dir_path_join|]|].
  intros [l|e] m2 (Hq2 & Hix & _); (assert (Hq12 : quiet m0 m2) by (by etrans)); [|done].
  apply wpio_need. eapply wpio_mono; [apply spec_consider_all; [|done..|]|].
  - apply Forall_forall. intros record Hrec. exists scope, l. rewrite <- (quiet_index _ _ _ Hq1). auto.
  - intros r _. eauto.
  - intros [acc'|e] m3 [Hq3 Ha3]; [|done]. apply IH; auto.
Qed.

Lemma spec_elsewhere m : quiet m0 m →
  wpio (has_output_record_id_in_other_repository_context root_dir id repository_id repository_scope)
    (λ _ m', quiet m0 m') m.
Proof.
  intros Hq. apply wpio_need. eapply wpio_mono; [by apply spec_list_all|]. by intros [l|e] m1 [Hq1 _].
Qed.
Lemma verdict_answered acc answer : Forall answered acc.1 → lookup_verdict id acc = Ok (Found answer) → answered answer.
Proof.
  intros Ha. unfold lookup_verdict. destruct acc as [[|x [|y l]] b]; [by destruct b| |done].
  intros [= <-]. by apply Forall_cons in Ha as [].
Qed.
Lemma no_scopes : is_none repository_id && is_none repository_scope = true → scopes = [].
Proof. by destruct repository_id, repository_scope. Qed.
Lemma spec_last_scan acc m : quiet m0 m → Forall answered acc.1 →
  wpio (if bool_decide (acc.1 = []) && (is_none repository_id && is_none repository_scope) then
          need! all_records := list_records root_dir None in
          consider_all root_dir id repository_id repository_scope project_id all_records acc
        else io_ret (Ok acc)) found_so_far m.
Proof.
  intros Hq Ha. destruct (_ && _) eqn:Ec; [|apply wpio_ret; split; [done|]; by intros ? [= <-]].
  apply andb_true_iff in Ec as [_ Hno]. apply wpio_need. eapply wpio_mono; [by apply spec_list_all|].
  intros [l|e] m1 [Hq1 Hl1]; [|done]. apply spec_consider_all; [|done..|].
  { destruct (Hl1 _ eq_refl) as (names & Hlist & _). apply Forall_forall. intros record Hin.
    apply (lists_elem _ _ _ _ Hlist) in Hin as (s & part & _ & [Hix _] & Hin). exists s, part.
    split_and!; [done..|]. left. by apply no_scopes. }
  intros r Hr. by rewrite Hr in Hno.
Qed.
End Lookup.

Lemma candidates_sanitized scope id scope' id' : sanitize_opt scope = Ok scope' → sanitize_opt id = Ok id' →
  Forall (λ s, sanitize_segment s = Ok s) (candidate_scopes scope' id').
Proof.
  assert (Hone : ∀ v v', sanitize_opt v = Ok (Some v') → sanitize_segment v' = Ok v').
  { intros [v|] v'; [|done]. cbn. destruct (sanitize_segment v) as [x|] eqn:E; [|done]. intros [= <-]. by eapply segment_idem. }
  intros Hs Hi. destruct scope', id'; cbn; try case_match; repeat constructor; eauto.
Qed.
(** When no call fails, a lookup answers only with a record of the scopes of the
    request that its repository and project may see, and with the path of a file
    of that record's scope that bears its id (or of a file that is not there). *)
Theorem spec_resolve_record id repository_id repository_scope project_id m :
  layout (mc_files m) → mc_unseen m = [] → mc_faults m = [] →
  wpio (resolve_output_record_for_context root_dir id repository_id repository_scope project_id) (λ r _,
    ∀ answer, r = Ok (Found answer) → ∃ scope' id', sanitize_opt repository_scope = Ok scope' ∧
      sanitize_opt repository_id = Ok id' ∧ answered id id' scope' project_id m answer) m.
Proof.
  intros Hl Hu HF. unfold resolve_output_record_for_context.
  destruct (sanitize_opt repository_scope) as [scope'|] eqn:Es; [|by apply wpio_ret].
  destruct (sanitize_opt repository_id) as [id'|] eqn:Ei; [|by apply wpio_ret]. cbn beta iota.
  pose proof (candidates_sanitized _ _ _ _ Es Ei) as Hsc.
  eapply (wpio_mono _ (λ r _, ∀ answer, r = Ok (Found answer) → answered id id' scope' project_id m answer));
    [|intros r m' Hr answer Hans; exists scope', id'; auto].
  assert (Hv : ∀ acc m', Forall (answered id id' scope' project_id m) acc.1 → wpio (io_ret (lookup_verdict id acc)) (λ r _,
    ∀ answer, r = Ok (Found answer) → answered id id' scope' project_id m answer) m').
  { intros acc m' Ha. apply wpio_ret. intros answer Hans. by eapply verdict_answered. }
  apply wpio_need. eapply wpio_mono; [by apply (spec_consider_scopes id id' scope' project_id m)|].
  intros [acc|e] m1 [Hq1 Ha1]; [|done]. apply wpio_need.
  eapply wpio_mono; [by apply (spec_last_scan id id' scope' project_id m); auto|].
  intros [acc2|e] m2 [Hq2 Ha2]; [|done]. destruct (_ && _); [|by apply Hv, Ha2].
  apply wpio_need. eapply wpio_mono; [by apply (spec_elsewhere id id' scope' m)|].
  intros [[]|e] m3 Hq3; [by apply wpio_ret|by apply Hv, Ha2|done].
Qed.

(** ** Expiration *)

Definition expire (ids : gset OutputRefId) (tombstone : ArtifactTombstone) (record : LocalArtifactRecord)
  : LocalArtifactRecord :=
  if bool_decide (lar_id record ∈ ids) && is_none (lar_tombstone record)
  then set_tombstone record tombstone else record.

(** Files that are no target's and hold no index stay. *)
Definition spares (ids : gset OutputRefId) (n : string) : Prop :=
  (∀ id, id ∈ ids → artifact_file_name_matches n id = false) ∧ ¬ index_name n.
Record spared (ids : gset OutputRefId) (m m' : Machine) : Prop := {
  sp_keeps : keeps m m';
  sp_layout : layout (mc_files m) → layout (mc_files m');
  sp_same : ∀ s n, spares ids n → mc_files m' !! key s n = mc_files m !! key s n;
  sp_scopes : ∀ s, mc_files m' !! (R ++ [s]) = mc_files m !! (R ++ [s])
}.
#[local] Instance spared_preorder ids : PreOrder (spared ids).
Proof.
  split; [by intros m; split|]. intros a b c [A1 A2 A3 A4] [B1 B2 B3 B4]. split; [by etrans|auto|..].
  - intros s n Hn. by rewrite B3, A3.
  - intros s. by rewrite B4, A4.
Qed.
Lemma spared_changes ids s P m m' : changes s P m m' → (∀ n, P n → ¬ spares ids n) → spared ids m m'.
Proof.
  intros Hc HP. split; [apply (ch_keeps _ _ _ _ Hc)|apply (ch_layout _ _ _ _ Hc)|..].
  - intros s' n Hn. apply (changes_key _ _ _ _ _ _ Hc). intros _ ?%HP. done.
  - intros s'. by apply (changes_scope _ _ _ _ _ Hc).
Qed.
Lemma spared_keeps ids m m' : keeps m m' → mc_files m' = mc_files m → spared ids m m'.
Proof. intros Hk E. split; by rewrite ?E. Qed.
Lemma spared_quiet ids m m' : quiet m m' → spared ids m m'.
Proof.
  intros [A1 A2 A3]. split; [done..| |].
  - intros s n [_ Hn]. apply A3. intros s' [_ ->]%key_inj. apply Hn. by left.
  - intros s. apply A3. intros s'. apply scope_not_key.
Qed.
Lemma spared_mono ids ids' m m' : ids ⊆ ids' → spared ids m m' → spared ids' m m'.
Proof.
  intros Hsub [A1 A2 A3 A4]. split; [done..| |done]. intros s n [H1' H2']. apply A3. split; [|done]. auto.
Qed.
Lemma spared_rooted ids m m' : spared ids m m' → rooted m → rooted m'.
Proof. intros Hs [Hl Hf]. split; [by apply (sp_layout _ _ _ Hs)|]. destruct Hf; [left; by apply (sp_keeps _ _ _ Hs)|by right]. Qed.

Lemma spec_delete_spared (ids : gset OutputRefId) output_ref m :
  oref_id output_ref ∈ ids → rooted m → mc_unseen m = [] →
  wpio (delete_artifact root_dir output_ref) (λ _ m', spared ids m m' ∧
    ∀ s, index_of (mc_files m') s = index_of (mc_files m) s) m.
Proof.
  intros Hid Hr Hu. eapply wpio_mono; [apply spec_delete_artifact|]. intros r m' Hd.
  destruct (deletes_changes _ _ _ Hd Hr Hu) as [Hk [E|(s & n & Hm & Hc)]].
  { split; [by apply spared_keeps|]. intros s. by rewrite E. }
  split; [eapply spared_changes; [done|]; intros ? <- [Hn _]; by rewrite Hn in Hm|].
  intros s'. apply (index_of_same _ _ _ _ _ Hc). intros _ ->. done.
Qed.
Lemma spec_delete_expired (ids : gset OutputRefId) deletions report m :
  Forall (λ d, oref_id d.1 ∈ ids) deletions → rooted m → mc_unseen m = [] →
  wpio (delete_expired root_dir deletions report) (λ _ m', spared ids m m' ∧
    ∀ s, index_of (mc_files m') s = index_of (mc_files m) s) m.
Proof.
  intros Hd. revert report m. induction Hd as [|[out path] deletions Hid Hd IH]; intros report m Hr Hu; cbn [delete_expired].
  { apply wpio_ret. done. }
  apply wpio_bind, wpio_seeing; [done|]. intros m1 Hk1 E1. pose proof (spared_keeps ids _ _ Hk1 E1) as Hs1.
  apply wpio_need. eapply wpio_mono; [apply (spec_delete_spared ids); [done|by eapply spared_rooted|by apply Hk1]|].
  intros r m2 [Hs2 Hx2]. assert (Hs12 : spared ids m m2) by (by etrans).
  assert (Hx12 : ∀ s, index_of (mc_files m2) s = index_of (mc_files m) s) by (intros s; by rewrite Hx2, E1).
  destruct r as [[]|e]; [|done]. apply wpio_bind, wpio_seeing; [by apply (sp_keeps _ _ _ Hs12)|].
  intros m3 Hk3 E3. assert (Hs3 : spared ids m m3) by (etrans; [done|by apply spared_keeps]).
  eapply wpio_mono; [apply IH; [by eapply spared_rooted|by apply (sp_keeps _ _ _ Hs3)]|].
  intros r m4 [Hs4 Hx4]. split; [by etrans|]. intros s. by rewrite Hx4, E3.
Qed.

Lemma spec_validate_expiration s id path m :
  wpio (validate_expiration_record_path root_dir s id path) (λ _ m', keeps m m' ∧ mc_files m' = mc_files m) m.
Proof.
  unfold validate_expiration_record_path. apply wpio_bind, wpio_asking; [by intros; apply wpio_ret|].
  intros canon m1 Hk E _. destruct (candidate_of canon path) as [cand|]; [|by apply wpio_ret].
  destruct (file_name_str cand); [|by apply wpio_ret]. destruct (_ || _); [by apply wpio_ret|].
  destruct (path_parent path); [|by apply wpio_ret].
  apply wpio_bind, wpio_asking; intros; apply wpio_ret; (split; [by etrans|congruence]).
Qed.
Lemma spec_mark_expired s (ids : gset OutputRefId) tombstone records report m :
  wpio (mark_expired root_dir s ids tombstone records report) (λ r m', keeps m m' ∧ mc_files m' = mc_files m ∧
    r.1.1 = map (expire ids tombstone) records ∧ Forall (λ d, oref_id d.1 ∈ ids) r.1.2) m.
Proof.
  revert report m. induction records as [|record records IH]; intros report m; cbn [mark_expired].
  { apply wpio_ret. by split_and!. }
  cbn [map]. unfold expire at 1. case_bool_decide as Hin; cbn [negb andb].
  2:{ apply wpio_bind. eapply wpio_mono; [apply IH|]. intros [[l d] rep] m1 (Hk & E & Hl & Hd). apply wpio_ret.
      cbn in *. by rewrite Hl. }
  destruct (lar_tombstone record) as [t0|] eqn:Et; cbn [is_none].
  all: apply wpio_bind; eapply wpio_mono; [apply spec_validate_expiration|]; intros cand m1 [Hk1 E1].
  all: apply wpio_bind; eapply wpio_mono; [apply IH|]; intros [[l d] rep] m2 (Hk2 & E2 & Hl & Hd); apply wpio_ret.
  all: cbn in *; split_and!; [by etrans|congruence|by rewrite Hl|].
  all: apply Forall_app_2; [|done]; destruct cand; by repeat constructor.
Qed.

Definition tombstoned (ids : gset OutputRefId) (tombstone : ArtifactTombstone) (d d' : Files) (s : string) : Prop :=
  ∃ l, index_of d s = Some l ∧ index_of d' s = Some (sort_records (map (expire ids tombstone) l)).
Lemma spec_store_expired ids tombstone p s l m : dir_path p s → ready m s → index_of (mc_files m) s = Some l →
  wpio (write_scope_records_unlocked p (map (expire ids tombstone) l)) (λ r m',
    changes s index_name m m' ∧
    match r with
    | Ok _ => tombstoned ids tombstone (mc_files m) (mc_files m') s
    | Err _ => index_of (mc_files m') s = index_of (mc_files m) s
    end) m.
Proof.
  intros Hp Hr Hl. destruct l as [|x l].
  - unfold write_scope_records_unlocked. cbn [map]. rewrite bool_decide_eq_true_2 by done. apply wpio_bind.
    eapply wpio_mono; [apply (spec_remove_file p s Hp INDEX_FILE m Hr plain_index)|]. intros r m' [Hc Ho]. apply wpio_ret.
    split; [eapply changes_weaken; [done|]; intros ? <-; by right; left|].
    assert (Hl' : index_of (mc_files m') s = Some []).
    { destruct r as [[]|e]; [unfold index_of; by rewrite Ho|]. destruct Ho as [E _]. by rewrite E. }
    destruct r as [[]|e]; [by exists []|]. destruct (is_kind KNotFound e); [by exists []|congruence].
  - eapply wpio_mono; [apply (spec_write_records p s Hp); done|]. intros r m' (Hc & Ho & _).
    split; [eapply changes_weaken; [done|]; intros ? [->|?]; right; auto|].
    destruct r as [[]|e]; [by exists (x :: l)|]. unfold index_of. by rewrite Ho.
Qed.
Lemma spec_expire_scope s (ids : gset OutputRefId) tombstone report m : plain_name s → ready m s → rooted m →
  wpio (expire_scope root_dir s ids tombstone report) (λ r m', spared ids m m' ∧
    (∀ s', s' ≠ s → index_of (mc_files m') s' = index_of (mc_files m) s') ∧
    (tombstoned ids tombstone (mc_files m) (mc_files m') s ∨
     is_ok r = false ∧ index_of (mc_files m') s = index_of (mc_files m) s)) m.
Proof.
  intros Hs Hr Hroot. pose proof (dir_path_join s Hs) as Hp. unfold expire_scope.
  assert (Hix : ∀ n, index_name n → ¬ spares ids n) by (by intros n Hn [_ ?]).
  apply (spec_locked _ s Hp); [done|intros l m1 Hc1 Hr1 Hl|intros e m1 Hc1 _].
  2:{ split_and!; [by apply spared_quiet, (quiet_changes s)|intros s' _|right; split; [done|]];
        by apply (index_of_same _ _ _ _ _ Hc1). }
  assert (Hx1 : ∀ s', index_of (mc_files m1) s' = index_of (mc_files m) s') by (intros; by apply (index_of_same _ _ _ _ _ Hc1)).
  assert (Hs1 : spared ids m m1) by (by apply spared_quiet, (quiet_changes s)).
  apply wpio_bind. eapply wpio_mono; [apply spec_mark_expired|]. intros [[marked deletions] rep] m2 (Hk2 & E2 & Hm & Hd).
  cbn [fst snd] in *. subst marked. assert (Hr2 : ready m2 s) by (eapply (changes_ready s (λ _, False)); [by apply changes_refl|done]).
  apply wpio_need. eapply wpio_mono; [apply (spec_store_expired ids tombstone _ s l); [done..|by rewrite E2, Hx1]|].
  intros r m3 [Hc3 Ho]. assert (Hs3 : spared ids m m3).
  { etrans; [done|]. etrans; [by apply (spared_keeps ids m1 m2)|]. by eapply spared_changes. }
  assert (Hx3 : ∀ s', s' ≠ s → index_of (mc_files m3) s' = index_of (mc_files m) s').
  { intros s' Hne. rewrite (index_of_same _ _ _ _ s' Hc3) by congruence. by rewrite E2. }
  unfold tombstoned in Ho. rewrite E2, Hx1 in Ho. destruct r as [[]|e]; [|split_and!; auto].
  eapply wpio_mono; [apply (spec_delete_expired ids); [done|by eapply spared_rooted|apply (sp_keeps _ _ _ Hs3), Hr]|].
  intros r m4 [Hs4 Hx4]. split_and!; [by etrans|intros s' Hne; by rewrite Hx4, Hx3|]. left. unfold tombstoned. by rewrite Hx4.
Qed.
Lemma spec_expire_scopes (ids : gset OutputRefId) tombstone scopes report m : NoDup (map fst scopes) →
  Forall (λ e, plain_name e.1 ∧ scope_at (mc_files m) e.1 ∧ e.2 ⊆ ids) scopes → rooted m → mc_unseen m = [] →
  wpio (expire_scopes root_dir scopes tombstone report) (λ r m', spared ids m m' ∧
    (∀ s, s ∉ map fst scopes → index_of (mc_files m') s = index_of (mc_files m) s) ∧
    (∀ s T, (s, T) ∈ scopes → tombstoned T tombstone (mc_files m) (mc_files m') s ∨
       is_ok r = false ∧ index_of (mc_files m') s = index_of (mc_files m) s)) m.
Proof.
  revert report m. induction scopes as [|[s T] scopes IH]; intros report m Hnd Hall Hroot Hu; cbn [expire_scopes].
  { apply wpio_ret. split_and!; [done..|]. by intros s T ?%not_elem_of_nil. }
  apply NoDup_cons in Hnd as [Hs Hnd]. apply Forall_cons in Hall as [(Hpl & Hsc & Hsub) Hall]. cbn [fst snd map] in *.
  apply wpio_need. eapply wpio_mono; [apply spec_expire_scope; [done|split; [apply Hroot|done..]|done]|].
  intros r m1 (Hs1 & Hother & Hself). apply (spared_mono _ ids) in Hs1; [|done].
  destruct r as [rep|e].
  2:{ split_and!; [done|intros s' [Hne _]%not_elem_of_cons; auto|]. intros s' T' [[= -> ->]|Hin]%elem_of_cons.
      - destruct Hself as [?|[_ ?]]; auto.
      - right. split; [done|]. apply Hother. intros ->. apply Hs, list_elem_of_fmap. by exists (s, T'). }
  destruct Hself as [Hself|[? _]]; [|done].
  eapply wpio_mono; [apply IH; [done| |by eapply spared_rooted|by apply (sp_keeps _ _ _ Hs1)]|].
  { eapply Forall_impl; [done|]. intros [s' T'] (A1 & A2 & A3). unfold scope_at in *. by rewrite (sp_scopes _ _ _ Hs1). }
  intros r m2 (Hs2 & Hother2 & Hself2). split_and!; [by etrans| |].
  - intros s' [Hne Hnin]%not_elem_of_cons. rewrite Hother2, Hother; done.
  - intros s' T' [[= -> ->]|Hin]%elem_of_cons; [left; unfold tombstoned; by rewrite Hother2|].
    assert (Hne : s' ≠ s) by (intros ->; apply Hs, list_elem_of_fmap; by exists (s, T')).
    specialize (Hself2 s' T' Hin). unfold tombstoned in *. by rewrite Hother in Hself2.
Qed.

Lemma check_expiration_ok expected seen l : check_expiration_records root_dir expected seen l = Ok tt →
  Forall (λ record, sanitize_segment (lar_scope record) = Ok (lar_scope record) ∧
    ∀ s, expected = Some s → lar_scope record = s) l.
Proof.
  revert seen. induction l as [|record l IH]; intros seen; cbn [check_expiration_records]; [constructor|].
  destruct (sanitize_segment (lar_scope record)) as [s|] eqn:Es; [|done]. cbn.
  intros [H1' [H2' [_ Hl]%reject_Ok]%reject_Ok]%reject_Ok. apply negb_false_iff, str_eqb_eq in H2'. subst s.
  constructor; [|by eapply IH]. split; [done|]. intros s ->. by apply negb_false_iff, str_eqb_eq in H1'.
Qed.
Lemma group_targets_ok (ids : gset OutputRefId) l acc : Forall (λ record, sanitize_segment (lar_scope record) = Ok (lar_scope record)) l →
  ∃ acc', group_targets ids l acc = Ok acc' ∧
    (∀ s T, acc'.1 !! s = Some T → is_Some (acc.1 !! s) ∨ ∃ record, record ∈ l ∧ lar_scope record = s ∧ lar_id record ∈ ids) ∧
    (∀ s id, id ∈ default ∅ (acc'.1 !! s) ↔ id ∈ default ∅ (acc.1 !! s) ∨
       id ∈ ids ∧ ∃ record, record ∈ l ∧ lar_scope record = s ∧ lar_id record = id).
Proof.
  intros Hl. revert acc. induction Hl as [|record l Hr Hl IH]; intros acc; cbn [group_targets].
  { exists acc. split_and!; [done|eauto|]. intros s id. split; [auto|]. intros [?|(_ & ? & ?%not_elem_of_nil & _)]; done. }
  rewrite Hr. cbn. case_bool_decide as Hin.
  - destruct (IH (<[lar_scope record := {[lar_id record]} ∪ default ∅ (acc.1 !! lar_scope record)]> acc.1, report_matched acc.2))
      as (acc' & -> & Hd & Ht). exists acc'. cbn in Hd, Ht. split_and!; [done|..].
    + intros s T Hs. destruct (Hd s T Hs) as [HT|(x & ? & ? & ?)]; [|right; exists x; by rewrite elem_of_cons; auto].
      destruct (decide (lar_scope record = s)) as [<-|Hne]; [right; exists record; by rewrite elem_of_cons; auto|].
      rewrite lookup_insert_ne in HT by done. auto.
    + intros s id. rewrite Ht. clear Hd Ht. setoid_rewrite elem_of_cons. destruct (decide (lar_scope record = s)) as [<-|Hne].
      * rewrite lookup_insert_eq. cbn. rewrite elem_of_union, elem_of_singleton. split.
        -- intros [[->|?]|(? & x & ? & ? & ?)]; [right; split; [done|]; exists record; auto|auto|right; split; [done|]; exists x; auto].
        -- intros [?|(? & x & [->|?] & ? & ?)]; [auto..|right; split; [done|]; exists x; auto].
      * rewrite lookup_insert_ne by done. split; [intros [?|(? & x & ? & ? & ?)]; [auto|right; split; [done|]; exists x; auto]|].
        intros [?|(? & x & [->|?] & ? & ?)]; [auto|done|right; split; [done|]; exists x; auto].
  - destruct (IH acc) as (acc' & -> & Hd & Ht). exists acc'. split_and!; [done|..].
    + intros s T Hs. destruct (Hd s T Hs) as [HT|(x & ? & ? & ?)]; [auto|right; exists x; by rewrite elem_of_cons; auto].
    + intros s id. rewrite Ht. setoid_rewrite elem_of_cons. split.
      * intros [?|(? & x & ? & ? & ?)]; [auto|right; split; [done|]; exists x; auto].
      * intros [?|(? & x & [->|?] & ? & <-)]; [auto|done|right; split; [done|]; exists x; auto].
Qed.
Lemma expire_same_ids (ids T : gset OutputRefId) tombstone l :
  (∀ record, record ∈ l → lar_id record ∈ T ↔ lar_id record ∈ ids) → map (expire T tombstone) l = map (expire ids tombstone) l.
Proof.
  intros Hl. apply map_ext_in. intros record Hr%list_elem_of_In. unfold expire. f_equal.
  by rewrite (bool_decide_ext _ _ (Hl record Hr)).
Qed.
Lemma expire_none (ids : gset OutputRefId) tombstone l : (∀ record, record ∈ l → lar_id record ∉ ids) → map (expire ids tombstone) l = l.
Proof.
  intros Hl. rewrite <- (map_id l) at 2. apply map_ext_in. intros record Hr%list_elem_of_In. unfold expire.
  by rewrite bool_decide_eq_false_2 by auto.
Qed.

(** The records of a scope, with a tombstone on the targets. *)
Definition expired_index (ids : gset OutputRefId) (tombstone : ArtifactTombstone) (d d' : Files) (s : string) : Prop :=
  ∀ l, index_of d s = Some l → ∃ l', index_of d' s = Some l' ∧ l' ≡ₚ map (expire ids tombstone) l.
Lemma tombstoned_expired ids tombstone d d' s : tombstoned ids tombstone d d' s → expired_index ids tombstone d d' s.
Proof.
  intros (l & Hl & Hl') l2 Hl2. rewrite Hl in Hl2. injection Hl2 as <-. eexists. split; [done|]. apply merge_sort_Permutation.
Qed.
Lemma untouched_expired (ids : gset OutputRefId) tombstone d d' s : index_of d' s = index_of d s →
  (∀ l record, index_of d s = Some l → record ∈ l → lar_id record ∉ ids) → expired_index ids tombstone d d' s.
Proof. intros E Hno l Hl. exists l. rewrite E, expire_none; [done|]. eauto. Qed.

(** Other files stay, and every index does or has the tombstones; all have them
    that were asked for if the expiration succeeds. *)
Definition expiration_outcome (scope : option string) (ids : gset OutputRefId) (tombstone : ArtifactTombstone) (m : Machine)
  (r : ArtifactResult ArtifactExpirationReport) (m' : Machine) : Prop :=
  spared ids m m' ∧
  (∀ s, index_of (mc_files m') s = index_of (mc_files m) s ∨
        expired_index ids tombstone (mc_files m) (mc_files m') s) ∧
  (is_ok r = true → ∀ s, asked scope s → scope_at (mc_files m) s →
     expired_index ids tombstone (mc_files m) (mc_files m') s).

Section Targets.
Context (m : Machine) (scope : option string) (ids : gset OutputRefId) (tombstone : ArtifactTombstone).
Context (names : list string) (records : list LocalArtifactRecord) (expected : option string).
Context (Hlist : lists (mc_files m) names records) (Hnames : ∀ s, s ∈ names ↔ asked scope s ∧ scope_at (mc_files m) s).
Context (Hall : scope = None → ∀ s part, s ∈ names → part_of (mc_files m) s part → Forall (λ record, lar_scope record = s) part).
Context (Hexp : sanitize_opt scope = Ok expected).
Context (Hcheck : Forall (λ record, sanitize_segment (lar_scope record) = Ok (lar_scope record) ∧
    ∀ s, expected = Some s → lar_scope record = s) records).

(** Every record is of the scope whose index it is in. *)
Lemma listed_scope s part record : s ∈ names → part_of (mc_files m) s part → record ∈ part → record ∈ records ∧ lar_scope record = s.
Proof.
  intros Hs Hp Hin. assert (Hr : record ∈ records) by (apply (lists_elem _ _ _ _ Hlist); eauto). split; [done|].
  destruct scope as [v|].
  - cbn in Hexp. destruct (sanitize_segment v) as [s0|] eqn:Ev; [|done]. injection Hexp as <-.
    apply (proj1 (Forall_forall _ _) Hcheck) in Hr as [_ Hr]. rewrite (Hr s0 eq_refl).
    apply Hnames in Hs as [Hs _]. cbn in Hs. congruence.
  - by apply (proj1 (Forall_forall _ _) (Hall eq_refl s part Hs Hp)).
Qed.
Lemma target_scopes s record : record ∈ records → lar_scope record = s → s ∈ names ∧ plain_name s ∧ scope_at (mc_files m) s.
Proof.
  intros Hin <-. pose proof Hin as Hin'. apply (lists_elem _ _ _ _ Hlist) in Hin' as (s & part & Hs & Hp & Hr).
  destruct (listed_scope _ _ _ Hs Hp Hr) as [_ ->]. split_and!; [done|apply (segment_plain s s), Hp|apply Hp].
Qed.
(** The targets of a scope are the requested ids in its index. *)
Lemma scope_targets_same s part (T : gset OutputRefId) : s ∈ names → part_of (mc_files m) s part →
  (∀ id, id ∈ T ↔ id ∈ ids ∧ ∃ record, record ∈ records ∧ lar_scope record = s ∧ lar_id record = id) →
  ∀ record, record ∈ part → lar_id record ∈ T ↔ lar_id record ∈ ids.
Proof.
  intros Hs Hp HT record Hr. rewrite HT. split; [by intros []|]. intros Hid. split; [done|].
  exists record. destruct (listed_scope _ _ _ Hs Hp Hr). auto.
Qed.
Lemma indexed_target s l record : asked scope s → scope_at (mc_files m) s → index_of (mc_files m) s = Some l → record ∈ l →
  record ∈ records ∧ lar_scope record = s.
Proof.
  intros Ha Hs Hix Hr. assert (Hsn : s ∈ names) by (by apply Hnames). destruct (lists_part _ _ _ _ Hlist Hsn) as [part Hp].
  pose proof Hp as [Hp' _]. rewrite Hix in Hp'. injection Hp' as <-. by eapply listed_scope.
Qed.

Context (m1 : Machine) (Hq : quiet m m1) (Hroot : rooted m1) (Hu : mc_unseen m1 = []).
Lemma spec_expire_targets report :
  wpio (match group_targets ids records (∅, report) with
        | Err e => io_ret (Err e)
        | Ok (targets, report) => expire_scopes root_dir (btree_to_list targets) tombstone report
        end) (expiration_outcome scope ids tombstone m) m1.
Proof.
  destruct (group_targets_ok ids records (∅, report)) as ([targets rep] & -> & Hd & Ht);
    [eapply Forall_impl; [exact Hcheck|]; by intros ? [? _]|]. cbn [fst snd] in *. setoid_rewrite lookup_empty in Hd. setoid_rewrite lookup_empty in Ht.
  assert (HT : ∀ s T, targets !! s = Some T → s ∈ names ∧ plain_name s ∧ scope_at (mc_files m) s ∧
    (∀ id, id ∈ T ↔ id ∈ ids ∧ ∃ record, record ∈ records ∧ lar_scope record = s ∧ lar_id record = id)).
  { intros s T HsT. destruct (Hd s T HsT) as [[? ?]|(record & Hr & Hs & _)]; [done|].
    destruct (target_scopes _ _ Hr Hs) as (A1 & A2 & A3). split_and!; [done..|]. intros id. specialize (Ht s id). rewrite HsT in Ht. cbn in Ht.
    rewrite Ht. split; [|by right]. by intros [?%not_elem_of_empty|?]. }
  eapply wpio_mono; [apply (spec_expire_scopes ids); [apply btree_to_list_nodup| |done..]|].
  { apply Forall_forall. intros [s T] Hin%elem_of_btree_to_list. destruct (HT s T Hin) as (_ & A2 & A3 & A4).
    split_and!; [done|by apply (quiet_scope _ _ _ Hq)|]. cbn. by intros id [? _]%A4. }
  intros r m2 (Hs2 & Hother & Hself). unfold tombstoned in Hself. setoid_rewrite (quiet_index _ _ _ Hq) in Hother. setoid_rewrite (quiet_index _ _ _ Hq) in Hself.
  assert (Hkey : ∀ s T, targets !! s = Some T → expired_index ids tombstone (mc_files m) (mc_files m2) s ∨
    is_ok r = false ∧ index_of (mc_files m2) s = index_of (mc_files m) s).
  { intros s T HsT. destruct (Hself s T) as [(l & Hix & Hix')|?]; [by apply elem_of_btree_to_list| |auto]. left.
    destruct (HT s T HsT) as (Hsn & _ & _ & HTs). destruct (lists_part _ _ _ _ Hlist Hsn) as [part Hp].
    pose proof Hp as [Hp' _]. rewrite Hix in Hp'. injection Hp' as <-. apply tombstoned_expired. exists l.
    split; [done|]. rewrite Hix'. f_equal. f_equal. apply expire_same_ids. by eapply scope_targets_same. }
  assert (Hno : ∀ s, targets !! s = None → index_of (mc_files m2) s = index_of (mc_files m) s).
  { intros s Hs. apply Hother. intros ([s' T] & -> & Hin%elem_of_btree_to_list)%list_elem_of_fmap. cbn in Hs. congruence. }
  split_and!; [etrans; [by apply spared_quiet|done]| |].
  - intros s. destruct (targets !! s) as [T|] eqn:Es; [destruct (Hkey s T Es) as [?|[_ ?]]; auto|auto].
  - intros Hok s Ha Hs. destruct (targets !! s) as [T|] eqn:Es; [destruct (Hkey s T Es) as [?|[? _]]; [done|congruence]|].
    apply untouched_expired; [auto|]. intros l record Hix Hr Hid. destruct (indexed_target s l record Ha Hs Hix Hr) as [Hrec Hsc].
    specialize (Ht s (lar_id record)). rewrite Es in Ht.
    apply (not_elem_of_empty (C := gset OutputRefId) (lar_id record)), Ht. right. eauto.
Qed.
End Targets.

(** Whatever calls fail, an expiration changes no file but indexes and the files
    that bear the ids of its targets, and no record but by a tombstone on a target;
    if it succeeds, every target in the scopes it was asked for has one. *)
Theorem spec_safe_expire scope record_ids now reason m :
  layout (mc_files m) → mc_unseen m = [] → rooted m →
  wpio (safe_expire_artifact_records root_dir scope record_ids now reason)
    (expiration_outcome scope (list_to_set record_ids) {| tomb_at := now; tomb_reason := reason |} m) m.
Proof.
  intros Hl Hu Hroot. set (ids := list_to_set record_ids : gset OutputRefId). set (tombstone := {| tomb_at := now; tomb_reason := reason |}).
  apply wpio_need. eapply wpio_mono; [by apply (spec_list_records m Hl Hu scope m)|]. intros r1 m1 [Hq Hlist].
  assert (Hs1 : spared ids m m1) by (by apply spared_quiet). assert (Hx1 : ∀ s, index_of (mc_files m1) s = index_of (mc_files m) s) by (intros; by apply quiet_index).
  assert (Herr : ∀ e, expiration_outcome scope ids tombstone m (Err e) m1) by (intros e; split_and!; [done|auto|done]).
  destruct r1 as [records|e]; [|apply Herr].
  destruct (Hlist _ eq_refl) as (names & Hl1 & Hnames & Hall).
  destruct (sanitize_opt scope) as [expected|] eqn:Eexp; [|apply wpio_ret, Herr].
  cbn beta iota. destruct (check_expiration_records root_dir expected ∅ records) as [[]|] eqn:Ech;
    [|apply wpio_ret, Herr]. apply check_expiration_ok in Ech.
  cbv zeta. match goal with |- context [if ?b then _ else _] => destruct b eqn:Enone end.
  - apply wpio_ret. split_and!; [done|auto|]. intros _ s Ha Hs. apply untouched_expired; [done|]. intros l record Hix Hr Hid.
    destruct (indexed_target m scope names records expected Hl1 Hnames Hall Eexp Ech s l record Ha Hs Hix Hr) as [Hrec _].
    apply orb_true_iff in Enone as [Hz|Hz].
    + apply N.eqb_eq in Hz. cbn in Hz. assert (size ids = 0) as Hsz%size_empty_iff by (unfold ids; lia). by apply Hsz, not_elem_of_empty in Hid.
    + apply bool_decide_eq_true in Hz. subst records. by apply not_elem_of_nil in Hrec.
  - eapply (spec_expire_targets m scope ids tombstone names records expected); try done.
    + by eapply spared_rooted.
    + by apply (qt_keeps _ _ Hq).
Qed.

(** ** Removing a record *)

Definition without (id : OutputRefId) (l : list LocalArtifactRecord) : list LocalArtifactRecord :=
  List.filter (λ record, negb (bool_decide (lar_id record = id))) l.

Lemma spec_write_some p s l m : dir_path p s → ready m s →
  wpio (write_scope_records_unlocked p l) (λ _ m', changes s index_name m m' ∧
    (index_of (mc_files m') s = index_of (mc_files m) s ∨ index_of (mc_files m') s = Some (sort_records l))) m.
Proof.
  intros Hp Hr. destruct l as [|x l].
  - unfold write_scope_records_unlocked. rewrite bool_decide_eq_true_2 by done. apply wpio_bind.
    eapply wpio_mono; [apply (spec_remove_file p s Hp INDEX_FILE m Hr plain_index)|]. intros r m' [Hc Ho]. apply wpio_ret.
    split; [eapply changes_weaken; [done|]; intros ? <-; by right; left|].
    destruct r as [[]|e]; [right; unfold index_of; by rewrite Ho|left; destruct Ho as [E _]; by rewrite E].
  - eapply wpio_mono; [by apply (spec_write_records p s Hp)|]. intros r m' (Hc & Ho & _).
    split; [eapply changes_weaken; [done|]; intros ? [->|?]; right; auto|].
    destruct r; [by right|left]. unfold index_of. by rewrite Ho.
Qed.

Lemma spec_remove_record scope s id m : sanitize_segment scope = Ok s → ready m s →
  wpio (remove_record_bytes root_dir scope id) (λ _ m', changes s index_name m m' ∧
    (index_of (mc_files m') s = index_of (mc_files m) s ∨
     ∃ l, index_of (mc_files m) s = Some l ∧ index_of (mc_files m') s = Some (sort_records (without id l)))) m.
Proof.
  intros Hs Hr. unfold remove_record_bytes. rewrite Hs. pose proof (dir_path_join s (segment_plain _ _ Hs)) as Hp.
  assert (Hlock : ∀ m1, changes s (eq LOCK_FILE) m m1 →
    changes s index_name m m1 ∧ index_of (mc_files m1) s = index_of (mc_files m) s).
  { intros m1 Hc. split; [eapply changes_weaken; [done|]; intros ? <-; by left|]. by apply (index_of_same _ _ _ _ _ Hc). }
  apply (spec_locked _ s Hp); [done|intros l m1 Hc Hr1 Hl|intros e m1 Hc _; destruct (Hlock _ Hc); auto].
  destruct (Hlock _ Hc) as [Hc' E]. cbv zeta. case_bool_decide; [apply wpio_ret; auto|].
  eapply wpio_mono; [by apply (spec_write_some _ s)|]. intros r m2 [Hc2 Ho]. rewrite E in Ho.
  split; [by eapply changes_trans|]. destruct Ho; eauto.
Qed.

Lemma without_app id l l' : without id (l ++ l') = without id l ++ without id l'.
Proof. apply List.filter_app. Qed.
Lemma without_none id l : id ∉ map lar_id l → without id l = l.
Proof.
  induction l as [|x l IH]; [done|]. cbn [map]. rewrite not_elem_of_cons. intros [Hx Hl]. cbn.
  rewrite bool_decide_eq_false_2 by congruence. cbn. f_equal. by apply IH.
Qed.
Lemma without_perm id l l' : l ≡ₚ l' → without id l ≡ₚ without id l'.
Proof.
  induction 1 as [|x l l' _ IH|x y l|l1 l2 l3 _ IH1 _ IH2]; cbn; [done| | |by etrans].
  - case_bool_decide; cbn; [done|by constructor].
  - repeat case_bool_decide; cbn; try done. constructor.
Qed.

(** ** Spilling *)

Definition id_at (i : nat) : OutputRefId := id_new OutputRefIdKind (uuid_at i).

Section Spilling.
Context (scope s tool_id : string) (options : ToolResultSpilloverOptions).

(** The ids a call may draw that writes [count] artifacts. *)
Definition may_draw (m : Machine) (count i : nat) : Prop :=
  src_uuids (mc_sources m) ≤ i < src_uuids (mc_sources m) + count.
(** [Uuid::new_v4()]: no text has a slash, and of the ids that the call draws none
    begins another and none is in the index. *)
Record new_ids (m : Machine) (count : nat) : Prop := {
  ni_slash : ∀ i, slash ∉ to_bytes (uuid_at i);
  ni_apart : ∀ i j t, may_draw m count i → may_draw m count j →
    starts_with (uuid_at i) (uuid_at j +:+ t) = true → i = j;
  ni_unused : ∀ i l, may_draw m count i → index_of (mc_files m) s = Some l → id_at i ∉ map lar_id l
}.

Definition spill_name (field : ToolResultField) (ref : OutputRef) : string :=
  artifact_file (oref_id ref) (tool_id +:+ "." +:+ field_key field).
(** The bytes of the field are in the file of the reference, and the record of the
    index says so. *)
Record preserved (d : Files) (field : ToolResultField) (ref : OutputRef) (record : LocalArtifactRecord) : Prop := {
  pv_data : ∃ data, spillable_field_bytes field = Some data ∧
    d !! key s (spill_name field ref) = Some (EFile data 384) ∧
    lar_original_bytes record = Some (N.of_nat (length data));
  pv_uri : oref_uri ref = to_string_lossy (path_string (key s (spill_name field ref)));
  pv_media : oref_media_type ref = spo_media_type options;
  pv_id : lar_id record = oref_id ref;
  pv_scope : lar_scope record = s;
  pv_path : lar_path record = oref_uri ref;
  pv_retained : lar_retained_bytes record = Some (string_bytes (reference_to ref));
  pv_live : lar_tombstone record = None
}.

(** The index of the scope has the new records too, and no other index changes. *)
Definition index_grows (new : list LocalArtifactRecord) (d d' : Files) : Prop := ∀ s',
  match index_of d s' with
  | None => index_of d' s' = None
  | Some l => ∃ l', index_of d' s' = Some l' ∧ l' ≡ₚ l ++ (if decide (s' = s) then new else [])
  end.
Lemma index_grows_refl d : index_grows [] d d.
Proof. intros s'. destruct (index_of d s') as [l|]; [|done]. exists l. split; [done|]. case_decide; by rewrite app_nil_r. Qed.
Lemma index_grows_step new new' d d1 d2 : index_grows new d d1 →
  (∀ s', s' ≠ s → index_of d2 s' = index_of d1 s') →
  (∀ l l1, index_of d s = Some l → index_of d1 s = Some l1 → l1 ≡ₚ l ++ new →
     ∃ l2, index_of d2 s = Some l2 ∧ l2 ≡ₚ l ++ new') →
  (index_of d s = None → index_of d1 s = None → index_of d2 s = None) → index_grows new' d d2.
Proof.
  intros Hg Hother Hself Hnone s'. specialize (Hg s'). destruct (decide (s' = s)) as [->|Hne].
  - destruct (index_of d s) as [l|]; [|auto]. destruct Hg as (l1 & E1 & Hp). eauto.
  - rewrite (Hother s' Hne). done.
Qed.
Lemma index_grows_same new d d1 d2 : index_grows new d d1 → (∀ s', index_of d2 s' = index_of d1 s') → index_grows new d d2.
Proof. intros Hg E s'. specialize (Hg s'). by rewrite E. Qed.

Context (Hs : sanitize_segment scope = Ok s) (m0 : Machine) (count : nat).
Context (Hrooted : rooted m0) (Hunseen : mc_unseen m0 = []) (Hnew : new_ids m0 count).

(** The fields that were spilled so far, and what the store has of them. *)
Record spilled (fields : list ToolResultField) (refs : list OutputRef) (m : Machine) : Prop := {
  sl_steady : steady m0 m;
  sl_scope : refs ≠ [] → scope_at (mc_files m) s;
  sl_uuids : src_uuids (mc_sources m) = src_uuids (mc_sources m0) + length refs;
  sl_ids : map oref_id refs = map id_at (seq (src_uuids (mc_sources m0)) (length refs));
  sl_index : ∃ records, Forall3 (preserved (mc_files m)) fields refs records ∧
    index_grows records (mc_files m0) (mc_files m);
  sl_same : ∀ s' n, (s' = s → ∀ id, id ∈ map oref_id refs → artifact_file_name_matches n id = false) →
    ¬ index_name n → mc_files m !! key s' n = mc_files m0 !! key s' n
}.
(** What a call that fails may have changed: files and records of its own ids, and
    temporary files. *)
Record disturbed (ids : list OutputRefId) (m : Machine) : Prop := {
  ds_steady : steady m0 m;
  ds_ids : Forall (λ id, ∃ i, may_draw m0 count i ∧ id = id_at i) ids;
  ds_same : ∀ s' n, (∀ id, id ∈ ids → artifact_file_name_matches n id = false) →
    ¬ index_name n → ¬ file_tmp n → mc_files m !! key s' n = mc_files m0 !! key s' n;
  ds_index : ∃ left, Forall (λ record, lar_id record ∈ ids) left ∧ index_grows left (mc_files m0) (mc_files m)
}.

Lemma drawn_unused ids id l : Forall (λ id, ∃ i, may_draw m0 count i ∧ id = id_at i) ids → id ∈ ids →
  index_of (mc_files m0) s = Some l → id ∉ map lar_id l.
Proof. intros Hids Hid Hl. apply (proj1 (Forall_forall _ _) Hids) in Hid as (i & Hi & ->). by apply (ni_unused _ _ Hnew). Qed.

Lemma disturbed_spared (ids : list OutputRefId) m m1 : disturbed ids m → spared (list_to_set ids) m m1 →
  (∀ s', index_of (mc_files m1) s' = index_of (mc_files m) s') → disturbed ids m1.
Proof.
  intros [A1 A2 A3 (left & A4 & A5)] [B1 B2 B3 B4] Hx. split.
  - etrans; [done|]. split; [apply B1..|done|]. intros s' [x Hx']. exists x. by rewrite B4.
  - done.
  - intros s' n Hn Hin Htmp. rewrite B3, A3; [done..|]. split; [|done]. intros id. rewrite elem_of_list_to_set. auto.
  - exists left. split; [done|]. by eapply index_grows_same.
Qed.
Lemma disturbed_removed (ids : list OutputRefId) id m m1 : disturbed ids m → id ∈ ids → changes s index_name m m1 →
  (index_of (mc_files m1) s = index_of (mc_files m) s ∨
   ∃ l, index_of (mc_files m) s = Some l ∧ index_of (mc_files m1) s = Some (sort_records (without id l))) → disturbed ids m1.
Proof.
  intros [A1 A2 A3 (left & A4 & A5)] Hid Hc Hx.
  assert (Hother : ∀ s', s' ≠ s → index_of (mc_files m1) s' = index_of (mc_files m) s')
    by (intros s' Hne; apply (index_of_same _ _ _ _ _ Hc); congruence).
  split.
  - etrans; [done|]. by eapply steady_changes.
  - done.
  - intros s' n Hn Hin Htmp. rewrite (changes_key _ _ _ _ _ _ Hc) by done. auto.
  - destruct Hx as [Hx|(l & Hl & Hl')].
    { exists left. split; [done|]. eapply index_grows_same; [done|]. intros s'. destruct (decide (s' = s)) as [->|]; auto. }
    exists (without id left). split.
    + apply Forall_forall. intros record Hr%list_elem_of_In%filter_In. apply (proj1 (Forall_forall _ _) A4), list_elem_of_In, Hr.
    + eapply index_grows_step; [exact A5|done| |intros; congruence].
      intros l0 l1 Hl0 Hl1 Hp. rewrite Hl in Hl1. injection Hl1 as ->. exists (sort_records (without id l1)).
      split; [done|]. rewrite <- (without_none id l0) by (by eapply drawn_unused). rewrite <- without_app.
      unfold sort_records. rewrite merge_sort_Permutation. by apply without_perm.
Qed.

Lemma rollback_disturbed refs ids m : Forall (λ ref, oref_id ref ∈ ids) refs →
  (refs ≠ [] → scope_at (mc_files m) s) → disturbed ids m → disturbed ids (rollback_artifact_writes root_dir scope refs m).
Proof.
  intros Hrefs. revert m. induction Hrefs as [|ref refs Hid Hrefs IH]; intros m Hsc Hd; [done|]. cbn [rollback_artifact_writes].
  assert (Hr : ready m s).
  { destruct (ds_steady _ _ Hd). split; [by apply sd_layout0, Hrooted|auto|by apply Hsc]. }
  assert (Hroot : rooted m) by exact (steady_rooted _ _ (ds_steady _ _ Hd) Hrooted).
  destruct (spec_delete_spared (list_to_set ids) ref m) as [Hsp Hx];
    [by apply elem_of_list_to_set|done|apply Hr|].
  set (m1 := (delete_artifact_bytes root_dir ref m).1). change (delete_artifact root_dir ref m).1 with m1 in *.
  assert (Hd1 : disturbed ids m1) by (by eapply disturbed_spared).
  assert (Hr1 : ready m1 s).
  { destruct Hr as [L U [x X]]. split; [by apply (sp_layout _ _ _ Hsp)|by apply (sp_keeps _ _ _ Hsp)|].
    exists x. by rewrite (sp_scopes _ _ _ Hsp). }
  destruct (spec_remove_record scope s (oref_id ref) m1 Hs Hr1) as [Hc Hi].
  set (m2 := (delete_artifact_record root_dir scope ref m1).1).
  change (remove_record_bytes root_dir scope (oref_id ref) m1).1 with m2 in *.
  apply IH; [|by eapply disturbed_removed]. intros _. apply (changes_ready _ _ _ _ Hc Hr1).
Qed.

Lemma preserved_ids d fields refs records : Forall3 (preserved d) fields refs records →
  map lar_id records = map oref_id refs.
Proof. induction 1 as [|field ref record fields refs records Hp _ IH]; cbn; [done|]. by rewrite (pv_id _ _ _ _ Hp), IH. Qed.

Lemma disturbed_of_spilled fields refs m : length refs ≤ count → spilled fields refs m → disturbed (map oref_id refs) m.
Proof.
  intros Hlen [A1 A2 A3 A4 (records & A5 & A6) A7]. split; [done| | |].
  - rewrite A4. apply Forall_forall. intros id (i & -> & Hi%elem_of_seq)%list_elem_of_fmap. exists i.
    split; [unfold may_draw; lia|done].
  - intros s' n Hn Hin _. apply A7; auto.
  - exists records. split; [|done]. rewrite <- (preserved_ids _ _ _ _ A5). apply Forall_forall.
    intros record Hr. by apply (list_elem_of_fmap_2 lar_id).
Qed.
Lemma disturbed_leaves ids id m m1 : disturbed ids m → (∃ i, may_draw m0 count i ∧ id = id_at i) →
  leaves id m m1 → steady m m1 → disturbed (ids ++ [id]) m1.
Proof.
  intros [A1 A2 A3 (left & A4 & A5)] Hid Hl Hst. split.
  - by etrans.
  - apply Forall_app_2; [done|]. by constructor.
  - intros s' n Hn Hin Htmp. setoid_rewrite elem_of_app in Hn. setoid_rewrite list_elem_of_singleton in Hn.
    rewrite Hl, A3; [done| |done..|]; [auto|right; auto].
  - exists left. split; [eapply Forall_impl; [exact A4|]; intros; apply elem_of_app; by left|].
    eapply index_grows_same; [done|]. intros s'. unfold index_of. rewrite Hl; [done|by left].
Qed.

(** *** One more artifact *)

Lemma starts_with_both p a b : starts_with (p +:+ a) (p +:+ b) = starts_with a b.
Proof.
  unfold starts_with. f_equal. induction p as [|c p IH]; [done|].
  simpl. by rewrite bool_decide_eq_true_2.
Qed.
Lemma matches_own i j label : may_draw m0 count i → may_draw m0 count j →
  artifact_file_name_matches (artifact_file (id_at j) label) (id_at i) = true → i = j.
Proof.
  intros Hi Hj. unfold artifact_file_name_matches. rewrite !andb_true_iff. intros [[_ Hm] _].
  unfold artifact_file, id_at, id_new, as_str in Hm. cbn [id_prefix] in Hm. rewrite append_assoc_r in Hm.
  apply (ni_apart _ _ Hnew i j ("-" +:+ sanitize_label label +:+ ARTIFACT_SUFFIX) Hi Hj).
  by rewrite starts_with_both in Hm.
Qed.
Lemma name_matches i label : artifact_file_name_matches (artifact_file (id_at i) label) (id_at i) = true.
Proof. apply artifact_matches. Qed.
Lemma name_not_index i label : ¬ index_name (artifact_file (id_at i) label).
Proof. apply artifact_other. Qed.

Lemma update_first_middle id original retained l x l' : id ∉ map lar_id l → lar_id x = id →
  update_first id original retained (l ++ x :: l') = Some (l ++ set_bytes x original retained :: l').
Proof.
  intros Hl Hx. induction l as [|y l IH]; cbn; [by rewrite bool_decide_eq_true_2|].
  apply not_elem_of_cons in Hl as [Hy Hl]. rewrite bool_decide_eq_false_2 by congruence. by rewrite IH.
Qed.
Lemma update_perm id original retained l l' x : id ∉ map lar_id l' → lar_id x = id → l ≡ₚ l' ++ [x] →
  update_bytes id original retained l ≡ₚ l' ++ [set_bytes x original retained].
Proof.
  intros Hl' Hx Hp. assert (x ∈ l) as (l1 & l2 & ->)%list_elem_of_split.
  { rewrite Hp. apply elem_of_app. right. by left. }
  assert (Hp' : l1 ++ l2 ≡ₚ l').
  { apply (Permutation_cons_inv (a := x)). by rewrite Permutation_middle, Hp, Permutation_app_comm. }
  unfold update_bytes. rewrite update_first_middle; [|intros Hin; apply Hl'|done].
  - cbn [default]. rewrite <- Hp'. by rewrite <- Permutation_middle, (Permutation_app_comm (l1 ++ l2)).
  - rewrite <- Hp', map_app, elem_of_app. by left.
Qed.
Lemma tmp_not_out n t : file_tmp n → starts_with ("out_" +:+ t) n = false.
Proof. unfold file_tmp, starts_with. destruct n as [|c n]; [done|]. simpl. intros Hn. repeat case_bool_decide; simplify_eq; done. Qed.
Lemma tmp_not_index n : file_tmp n → ¬ index_name n.
Proof.
  intros Hn [->|[->|Hx]]; [done..|]. unfold file_tmp, index_tmp, starts_with in *.
  destruct n as [|a [|b n]]; try done; simpl in *; repeat case_bool_decide; simplify_eq; done.
Qed.

(** The step of the loop on the disk: the artifact is written, then its record has
    the sizes. *)
Section Step.
Context (field : ToolResultField) (data : bytes) (Hdata : spillable_field_bytes field = Some data).
Context (fields : list ToolResultField) (refs : list OutputRef) (m m1 : Machine).
Context (Hlen : length refs < count) (Hsp : spilled fields refs m).
Abbreviation label := (tool_id +:+ "." +:+ field_key field).
Context (Hw : written m s label (spo_media_type options) data metadata_default m1).
Abbreviation out := (reference_for m s label (spo_media_type options)).
Abbreviation rec := (record_for m s label (spo_media_type options) metadata_default).

Lemma step_id : next_id m = id_at (src_uuids (mc_sources m0) + length refs) ∧
  may_draw m0 count (src_uuids (mc_sources m0) + length refs).
Proof. unfold next_id. rewrite (sl_uuids _ _ _ Hsp). split; [done|]. unfold may_draw. lia. Qed.
Lemma step_ref_ids id : id ∈ map oref_id refs → ∃ i, id = id_at i ∧ may_draw m0 count i ∧ i ≠ src_uuids (mc_sources m0) + length refs.
Proof.
  rewrite (sl_ids _ _ _ Hsp). intros (i & -> & Hi%elem_of_seq)%list_elem_of_fmap. exists i. unfold may_draw. split_and!; [done|lia..].
Qed.

Lemma step_index : ∃ records, Forall3 (preserved (mc_files m1)) fields refs records ∧
  index_grows (records ++ [rec]) (mc_files m0) (mc_files m1).
Proof.
  destruct Hsp as [_ _ _ _ (records & Hp & Hg) _]. destruct Hw as [W1 _ _ (l & Wl & Wl') _]. exists records. split.
  - assert (Hn : ∀ f r, r ∈ refs → mc_files m1 !! key s (spill_name f r) = mc_files m !! key s (spill_name f r)).
    { intros f r Hr. apply (sy_same _ _ _ _ W1). intros _. unfold spill_name.
      destruct (step_ref_ids (oref_id r)) as (i & -> & Hi & Hne); [by apply (list_elem_of_fmap_2 oref_id)|].
      destruct step_id as [-> Hj]. intros [E|Hx]; [|by apply name_not_index in Hx].
      apply Hne, (matches_own _ _ label Hi Hj). rewrite <- E. apply name_matches. }
    clear -Hp Hn. induction Hp as [|f r x fs rs xs Hx _ IH]; constructor; [|apply IH; intros; apply Hn; by right].
    destruct Hx as [B1 B2 B3 B4 B5 B6 B7 B8]. split; try done. rewrite Hn; [done|by left].
  - eapply index_grows_step; [exact Hg| | |congruence].
    + intros s' Hne. apply (stays_index _ _ _ _ _ W1). congruence.
    + intros l0 l1 _ Hl1 Hperm. rewrite Wl in Hl1. injection Hl1 as ->. eexists. split; [done|].
      unfold sort_records. by rewrite merge_sort_Permutation, Hperm, <- app_assoc.
Qed.
Lemma step_same s' n : (s' = s → ∀ id, id ∈ map oref_id (refs ++ [out]) → artifact_file_name_matches n id = false) →
  ¬ index_name n → mc_files m1 !! key s' n = mc_files m0 !! key s' n.
Proof.
  intros Hn Hx. setoid_rewrite map_app in Hn. setoid_rewrite elem_of_app in Hn.
  rewrite (sy_same _ _ _ _ (wr_stays _ _ _ _ _ _ _ Hw)).
  - apply (sl_same _ _ _ Hsp); [|done]. auto.
  - intros <- [->|?]; [|done]. specialize (Hn eq_refl (next_id m)).
    pose proof (artifact_matches (uuid_at (src_uuids (mc_sources m))) label) as Hm. fold (next_id m) in Hm.
    rewrite Hn in Hm; [done|]. right. by left.
Qed.
Lemma step_disturbed : disturbed (map oref_id (refs ++ [out])) m1.
Proof.
  destruct (disturbed_of_spilled _ _ _ (Nat.lt_le_incl _ _ Hlen) Hsp) as [A1 A2 _ _]. destruct step_index as (records & Hp & Hg). split.
  - etrans; [done|]. eapply steady_stays, (wr_stays _ _ _ _ _ _ _ Hw).
  - rewrite map_app. apply Forall_app_2; [done|]. constructor; [|done]. destruct step_id as [E Hi]. by eexists.
  - intros s' n Hn Hx _. by apply step_same.
  - exists (records ++ [rec]). split; [|done]. rewrite map_app, <- (preserved_ids _ _ _ _ Hp). apply Forall_forall.
    intros record [Hr|Hr]%elem_of_app; apply elem_of_app; [left; by apply (list_elem_of_fmap_2 lar_id)|right].
    apply list_elem_of_singleton in Hr as ->. by left.
Qed.

(** The record with the sizes. *)
Context (m2 : Machine).
Abbreviation sizes r := (set_bytes r (Some (N.of_nat (length data))) (Some (string_bytes (reference_to out)))).
Context (Hedit : edited s (λ l, sort_records (update_bytes (next_id m) (Some (N.of_nat (length data)))
  (Some (string_bytes (reference_to out))) l)) m1 (Ok tt) m2).

Lemma step_fresh l records : index_of (mc_files m0) s = Some l → map lar_id records = map oref_id refs →
  next_id m ∉ map lar_id (l ++ records).
Proof.
  intros Hl Hr. destruct step_id as [-> Hi]. rewrite map_app, Hr, elem_of_app. intros [Hin|Hin].
  - by apply (ni_unused _ _ Hnew _ _ Hi Hl) in Hin.
  - destruct (step_ref_ids _ Hin) as (i & E & Hi' & Hne). apply Hne, (matches_own i _ EmptyString Hi' Hi).
    rewrite <- E. apply name_matches.
Qed.
Lemma step_spilled : spilled (fields ++ [field]) (refs ++ [out]) m2.
Proof.
  destruct Hedit as [Hc (l & Hl & Hl')]. destruct step_index as (records & Hp & Hg). destruct (Hw) as [W1 W2 W3 _ W5].
  assert (Hfile : ∀ n, ¬ index_name n → mc_files m2 !! key s n = mc_files m1 !! key s n)
    by (intros n Hn; by apply (changes_key _ _ _ _ _ _ Hc)).
  split.
  - etrans; [apply step_disturbed|]. by eapply steady_changes.
  - intros _. destruct W2 as [x Hx]. exists x. by rewrite (changes_scope _ _ _ _ _ Hc).
  - rewrite (kp_sources _ _ (ch_keeps _ _ _ _ Hc)), W5, (sl_uuids _ _ _ Hsp), length_app. cbn. lia.
  - rewrite length_app, seq_app, !map_app, (sl_ids _ _ _ Hsp). cbn. by rewrite (proj1 step_id).
  - exists (records ++ [sizes rec]). split.
    + apply Forall3_app.
      * clear -Hp Hfile Hsp Hlen Hnew. assert (Hn : ∀ f r, r ∈ refs → ¬ index_name (spill_name f r)).
        { intros f r Hr. destruct (step_ref_ids (oref_id r)) as (i & E & _); [by apply (list_elem_of_fmap_2 oref_id)|].
          unfold spill_name. rewrite E. apply name_not_index. }
        clear Hsp Hlen. induction Hp as [|f r x fs rs xs Hx _ IH]; constructor; [|apply IH; intros; apply Hn; by right].
        destruct Hx as [B1 B2 B3 B4 B5 B6 B7 B8]. split; try done. rewrite Hfile; [done|]. apply Hn. by left.
      * constructor; [|constructor]. split; try done. exists data. split_and!; [done| |done].
        rewrite Hfile by apply artifact_other. done.
    + eapply index_grows_step; [exact Hg| | |congruence].
      * intros s' Hne. apply (index_of_same _ _ _ _ _ Hc). congruence.
      * intros l0 l1 Hl0 Hl1 Hperm. rewrite Hl in Hl1. injection Hl1 as ->. eexists. split; [done|].
        unfold sort_records. rewrite merge_sort_Permutation, app_assoc.
        apply update_perm; [|done|by rewrite Hperm, app_assoc].
        apply step_fresh; [done|]. by eapply preserved_ids.
  - intros s' n Hn Hx. rewrite (changes_key _ _ _ _ _ _ Hc) by done. by apply step_same.
Qed.
End Step.

(** *** The loop *)

(** Nothing fails, and no temporary file is in the way. *)
Definition undisturbed (m : Machine) : Prop :=
  mc_faults m = [] ∧ is_Some (index_of (mc_files m) s) ∧ ∀ n, file_tmp n → mc_files m !! key s n = None.
Lemma undisturbed_spilled fields refs m : spilled fields refs m → undisturbed m0 → undisturbed m.
Proof.
  intros [A1 A2 A3 A4 (records & A5 & A6) A7] (F & [l Hl] & Ht). split_and!.
  - by apply A1.
  - specialize (A6 s). rewrite Hl in A6. destruct A6 as (l' & -> & _). by eexists.
  - intros n Hn. rewrite A7; [by apply Ht| |].
    + intros _ id (ref & -> & Hr)%list_elem_of_fmap. unfold artifact_file_name_matches.
      rewrite andb_false_iff. left. rewrite andb_false_iff. right.
      assert (Hid : oref_id ref ∈ map oref_id refs) by (by apply (list_elem_of_fmap_2 oref_id)).
      rewrite A4 in Hid. apply list_elem_of_fmap in Hid as (i & -> & _). apply tmp_not_out. done.
    + by apply tmp_not_index.
Qed.


Lemma spill_ready fields refs m : spilled fields refs m → rooted m ∧ layout (mc_files m) ∧ mc_unseen m = [].
Proof.
  intros Hsp. pose proof (sl_steady _ _ _ Hsp) as Hst. pose proof (steady_rooted _ _ Hst Hrooted) as Hr.
  split_and!; [done|apply Hr|by apply (sd_unseen _ _ Hst)].
Qed.
Lemma spec_spill_field index field data acc fields m : spillable_field_bytes field = Some data →
  length (sps_written acc) < count → spilled fields (sps_written acc) m →
  wpio (spill_field root_dir scope tool_id options index field data acc) (λ r m',
    match r with
    | Ok acc' => ∃ o p, sps_written acc' = sps_written acc ++ [o] ∧ sps_planned acc' = sps_planned acc ++ [p] ∧
        plan_index p = index ∧ plan_key p = field_key field ∧ plan_replacement p = reference_to o ∧
        plan_output_ref p = o ∧ spilled (fields ++ [field]) (sps_written acc') m'
    | Err _ => ∃ ids, disturbed ids m'
    end ∧ (undisturbed m0 → is_ok r = true)) m.
Proof.
  intros Hdata Hlen Hsp. destruct (spill_ready _ _ _ Hsp) as (Hroot & Hl & Hu).
  assert (Hfree : undisturbed m0 → undisturbed m) by (by apply undisturbed_spilled with fields (sps_written acc)).
  destruct (step_id fields _ _ Hlen Hsp) as [Eid Hid].
  pose proof (spec_write_bytes (ni_slash _ _ Hnew) m scope s (tool_id +:+ "." +:+ field_key field) (spo_media_type options)
    data metadata_default Hl Hu Hs) as Hw.
  unfold wpio, spill_field in *. cbn [write_artifact_bytes update_spill_metadata local_artifact_store]. unfold write_bytes.
  destruct (write_bytes_with_metadata root_dir scope _ _ data metadata_default m) as [m1 [out|e]]; cbn [fst snd] in Hw.
  2:{ destruct Hw as [[Hleft Hst] Hok]. split; [|intros (F & ? & ?)%Hfree; discriminate (Hok F); done]. cbn [fst snd].
      exists (map oref_id (sps_written acc) ++ [next_id m]). specialize (Hst Hroot). apply rollback_disturbed.
      - apply Forall_forall. intros ref Hr. apply elem_of_app. left. by apply (list_elem_of_fmap_2 oref_id).
      - intros Hne. apply (sd_scopes _ _ Hst), (sl_scope _ _ _ Hsp Hne).
      - apply disturbed_leaves with m; [|by eexists|done..]. apply (disturbed_of_spilled fields); [lia|exact Hsp]. }
  destruct Hw as [[-> Hw] _]. pose proof (wr_scope _ _ _ _ _ _ _ Hw) as Hsc1.
  pose proof (step_disturbed field data fields _ m m1 Hlen Hsp Hw) as Hd1.
  assert (Hr1 : ready m1 s).
  { split; [by apply (sd_layout _ _ (ds_steady _ _ Hd1)), Hrooted|by apply (sd_unseen _ _ (ds_steady _ _ Hd1))|done]. }
  set (out := reference_for m s _ _) in *.
  pose proof (spec_update_record_bytes scope s (next_id m) (Some (N.of_nat (length data)))
    (Some (string_bytes (reference_to out))) m1 Hs (segment_plain _ _ Hs) Hr1 eq_refl) as Hup. unfold wpio in Hup.
  change (oref_id out) with (next_id m). change ("artifact_ref " +:+ oref_uri out) with (reference_to out).
  destruct (update_record_bytes root_dir scope (next_id m) _ _ m1) as [m2 [[]|e]]; cbn [fst snd] in *.
  - destruct Hup as [Hedit _]. split; [|done]. exists out. eexists. split_and!; [reflexivity..|]. cbn [sps_written].
    by apply (step_spilled field data Hdata fields _ m m1 Hlen Hsp Hw m2).
  - destruct Hup as [[Hc Hx] Hok]. split.
    + exists (map oref_id (sps_written acc ++ [out])). apply rollback_disturbed.
      * apply Forall_forall. intros ref Hr. by apply (list_elem_of_fmap_2 oref_id).
      * intros _. apply (changes_ready _ _ _ _ Hc Hr1).
      * apply (disturbed_removed _ (next_id m) m1); [done| |done|left; unfold index_of; by rewrite Hx].
        rewrite map_app. apply elem_of_app. right. by left.
    + intros (F & [l Hl0] & Ht). destruct (wr_index _ _ _ _ _ _ _ Hw) as (l1 & _ & Hl1).
      discriminate (Hok (sd_faults _ _ (ds_steady _ _ Hd1) F) _ Hl1).
      apply list_elem_of_fmap. exists (record_for m s (tool_id +:+ "." +:+ field_key field) (spo_media_type options) metadata_default).
      split; [done|]. unfold sort_records. rewrite merge_sort_Permutation, elem_of_app. right. by left.
Qed.

Lemma spec_plan_spills todo index fields acc m :
  length (sps_written acc) + length (List.filter (spills options) todo) ≤ count → spilled fields (sps_written acc) m →
  wpio (plan_spills root_dir scope tool_id options index todo acc) (λ r m',
    match r with
    | Ok acc' => ∃ refs planned, sps_written acc' = sps_written acc ++ refs ∧
        sps_planned acc' = sps_planned acc ++ planned ∧ planned_for options index todo refs planned ∧
        spilled (fields ++ List.filter (spills options) todo) (sps_written acc') m'
    | Err _ => ∃ ids, disturbed ids m'
    end ∧ (undisturbed m0 → is_ok r = true)) m.
Proof.
  revert index fields acc m. induction todo as [|field todo IH]; intros index fields acc m Hlen Hsp; cbn [plan_spills].
  { unfold wpio. cbn [fst snd]. split; [|done]. exists [], []. rewrite !app_nil_r. split_and!; try done. }
  assert (Hskip : spills options field = false →
    wpio (plan_spills root_dir scope tool_id options (S index) todo acc) (λ r m',
      match r with
      | Ok acc' => ∃ refs planned, sps_written acc' = sps_written acc ++ refs ∧
          sps_planned acc' = sps_planned acc ++ planned ∧ planned_for options index (field :: todo) refs planned ∧
          spilled (fields ++ List.filter (spills options) (field :: todo)) (sps_written acc') m'
      | Err _ => ∃ ids, disturbed ids m'
      end ∧ (undisturbed m0 → is_ok r = true)) m).
  { intros Hno. cbn [List.filter] in *. rewrite Hno in *. eapply wpio_mono; [by apply IH|]. intros [acc'|e] m' [Ho Hok]; [|done].
    split; [|done]. destruct Ho as (refs & planned & A1 & A2 & A3 & A4). exists refs, planned. split_and!; try done. by apply planned_skip. }
  unfold spills in Hskip. destruct (spillable_field_bytes field) as [data|] eqn:Hd; [|exact (Hskip eq_refl)].
  unfold wpio. destruct (N.leb_spec (N.of_nat (length data)) (spo_max_inline_bytes options)) as [Hle|Hgt].
  { apply Hskip. lia. }
  assert (Hyes : spills options field = true) by (unfold spills; rewrite Hd; lia).
  cbn [List.filter] in *. rewrite Hyes in *. cbn [length] in Hlen.
  pose proof (spec_spill_field index field data acc fields m Hd ltac:(lia) Hsp) as Hf. unfold wpio in Hf.
  destruct (spill_field _ _ _ _ _ _ _ _ m) as [m1 [acc1|e]]; cbn [fst snd] in *; [|done].
  destruct Hf as [(o & p & E1 & E2 & E3 & E4 & E5 & E6 & Hsp1) _].
  pose proof (IH (S index) _ acc1 m1 ltac:(rewrite E1, length_app; cbn; lia) Hsp1) as Hrest. unfold wpio in Hrest.
  destruct (plan_spills _ _ _ _ _ todo acc1 m1) as [m2 [acc2|e]]; cbn [fst snd] in *; [|done].
  destruct Hrest as [(refs & planned & A1 & A2 & A3 & A4) Hok]. split; [|done]. exists (o :: refs), (p :: planned).
  rewrite <- app_assoc in A4. split_and!; [by rewrite A1, E1, <- app_assoc|by rewrite A2, E2, <- app_assoc| |done].
  by apply planned_spill.
Qed.
End Spilling.

Lemma plan_spills_none scope tool_id options index fields acc m : List.filter (spills options) fields = [] →
  plan_spills root_dir scope tool_id options index fields acc m = (m, Ok acc).
Proof.
  revert index. induction fields as [|field fields IH]; intros index Hno; cbn [plan_spills]; [done|].
  cbn [List.filter] in Hno. destruct (spills options field) eqn:E; [done|]. unfold spills in E.
  destruct (spillable_field_bytes field) as [data|]; [|by apply IH].
  destruct (N.leb_spec (N.of_nat (length data)) (spo_max_inline_bytes options)); [by apply IH|lia].
Qed.

Lemma spilled_nodup s tool_id options m0 count fields refs m : new_ids s m0 count → length refs ≤ count →
  spilled s tool_id options m0 fields refs m → NoDup (map oref_id refs).
Proof.
  intros Hnew Hlen Hsp. rewrite (sl_ids _ _ _ _ _ _ _ Hsp). apply NoDup_fmap_2_strong; [|apply NoDup_seq].
  intros i j Hi%elem_of_seq Hj%elem_of_seq E. eapply (matches_own s m0 count Hnew i j EmptyString); [unfold may_draw; lia..|].
  rewrite <- E. apply name_matches.
Qed.

End Laws.

(** ** When the check for the index fails *)

(** [Path::exists] is [false] when it cannot tell.  An index whose check fails is
    taken for empty, whatever is in it, and the next write replaces it. *)
Theorem failed_check_reads_no_records `{Process} `{IndexCodec} dir m :
  head (mc_unseen m) = Some true → (read_scope_records_unlocked dir m).2 = Ok [].
Proof.
  intros Hu. unfold read_scope_records_unlocked, io_bind, exists_path, seeing. rewrite Hu. cbn. by rewrite andb_false_r.
Qed.

(** ** On a disk with an empty store *)

Module ArtifactDemo.

(** A codec: the records are numbered, and an index is the decimal number of its
    list. *)
#[local] Instance tombstone_eq : EqDecision ArtifactTombstone.
Proof. solve_decision. Defined.
#[local] Instance record_eq : EqDecision LocalArtifactRecord.
Proof. solve_decision. Defined.
#[local] Instance tombstone_countable : Countable ArtifactTombstone.
Proof.
  refine (inj_countable' (λ t, (tomb_at t, tomb_reason t)) (λ '(a, b), {| tomb_at := a; tomb_reason := b |}) _).
  by intros [].
Defined.
#[local] Instance record_countable : Countable LocalArtifactRecord.
Proof.
  refine (inj_countable' (λ r, (lar_id r, lar_scope r, lar_project_id r, lar_repository_id r, lar_path r, lar_uri r,
      lar_media_type r, lar_label r, lar_created_at r, lar_original_bytes r, lar_retained_bytes r, lar_tombstone r))
    (λ '(a, b, c, d, e, f, g, h, i, j, k, l), {| lar_id := a; lar_scope := b; lar_project_id := c; lar_repository_id := d;
      lar_path := e; lar_uri := f; lar_media_type := g; lar_label := h; lar_created_at := i; lar_original_bytes := j;
      lar_retained_bytes := k; lar_tombstone := l |}) _).
  by intros [].
Defined.

Fixpoint unary (n : nat) : string := match n with O => EmptyString | S n => String "1" (unary n) end.
Definition number_of (l : list LocalArtifactRecord) : nat := encode_nat l.
#[local] Instance demo_codec : IndexCodec := {|
  index_to_vec l := Ok (to_bytes (unary (S (number_of l))));
  index_from_str text := ok_or (decode_nat (pred (String.length text))) "no index"%string |}.

Lemma unary_length n : String.length (unary n) = n.
Proof. induction n; cbn; auto. Qed.
Lemma unary_text n : text_bytes (to_bytes (unary n)).
Proof.
  exists (repeat ["1"%char] n). split; [|induction n as [|n IH]; [done|]; cbn; f_equal; exact IH].
  apply Forall_forall. intros ch Hch%list_elem_of_In%repeat_spec. subst ch. split; [done|]. intros rest. by vm_compute.
Qed.
Lemma unary_head n : ws_head (to_bytes (unary (S n))) = 0.
Proof. destruct n as [|[|n]]; reflexivity. Qed.
#[local] Instance demo_codec_laws : IndexCodecLaws.
Proof.
  split; [done|]. intros l data Hd. set (text := unary (S (number_of l))).
  assert (data = to_bytes text) as -> by (by injection Hd as <-). exists text.
  pose proof (proj1 (from_utf8_text _) (unary_text (S (number_of l)))) as Hu.
  pose proof (not_blank (to_bytes text) ltac:(done) (unary_head (number_of l))) as Hb. rewrite of_to_bytes in Hu, Hb.
  split_and!; [done..|]. cbn. rewrite unary_length. unfold number_of. by rewrite decode_encode_nat.
Qed.

#[local] Instance demo_process : Process := {| working_dir := []; process_id := 4242 |}.
#[local] Instance demo_entropy : Entropy := {|
  uuid_at n := "3f2b8c1e-7d4a-4c39-9e55-0a1b2c3d4e5" +:+ usize_to_string (N.of_nat n);
  now_at n := 1700000000000 + Z.of_nat n |}%Z.

Definition demo_disk : Files := {[ ["store"%string] := EDir 448 ]}.
Definition demo_machine : Machine := {|
  mc_files := demo_disk; mc_faults := []; mc_unseen := [];
  mc_sources := {| src_uuids := 0; src_clock := 0 |}; mc_counter := 0 |}.

Lemma store_plain : plain_name "store".
Proof. split_and!; [by (apply (bool_decide_unpack _); vm_compute)|done..]. Qed.
Lemma demo_layout : layout "/store" ["store"%string] demo_disk.
Proof.
  split.
  - repeat constructor; apply store_plain.
  - constructor.
  - done.
  - intros k k' E. exists (match k with [] => 493 | _ => 448 end)%N.
    destruct k as [|x [|y k]]; cbn in E; simplify_eq; [done|]. apply lookup_singleton_eq.
  - intros d' Hd'. assert (E : d' !! ["store"%string] = Some (EDir 448)).
    { rewrite Hd'; [apply lookup_singleton_eq|]. intros l Hl E. by destruct l. }
    assert (path_components "/store" = [RootDir; Normal "store"]) as -> by (vm_compute; reflexivity).
    rewrite walk_eq. cbn [app]. rewrite walk_eq. cbn [app entry_at]. rewrite E. by rewrite walk_eq.
  - intros l e Hl He. unfold demo_disk in He. apply lookup_singleton_Some in He as [E _]. by destruct l.
Qed.

(** A result with two fields over the limit, one of them a list. *)
Definition demo_result : ToolResult := {|
  res_id := id_new ToolResultIdKind "r"; res_schema_version := 1; res_created_at := 0;
  res_invocation_id := id_new ToolInvocationIdKind "i"; res_tool_id := "fs.search";
  res_status := TrSucceeded; res_schema_ref := None;
  res_fields := [
    {| field_key := "summary"; field_value := SvString "2" |};
    {| field_key := "text"; field_value := SvString "twelve bytes" |};
    {| field_key := "paths"; field_value := SvStringList ["src/main.rs"; "src/lib.rs"] |}]%string;
  res_evidence_refs := []; res_output_refs := []; res_truncation := None; res_redactions := [] |}.
Definition demo_options : ToolResultSpilloverOptions := spillover_options_new 8.

Lemma demo_new_ids : new_ids ["store"%string] "repo" demo_machine 2.
Proof.
  split.
  - intros i. cbn. rewrite to_bytes_app, not_elem_of_app. split; [|apply number_no_slash].
    by (apply (bool_decide_unpack _); vm_compute).
  - unfold may_draw. cbn [src_uuids mc_sources demo_machine]. intros i j t Hi Hj.
    destruct i as [|[|]], j as [|[|]]; try lia; vm_compute; done.
  - intros i l _ Hl. vm_compute in Hl. injection Hl as <-. apply not_elem_of_nil.
Qed.

End ArtifactDemo.
