(* ===== verification/MemoryFs.v ===== *)
(** * MemoryFs: a file system in memory

    A concrete system that behaves as [posix] says, and on which the programs of
    the tools run.  It has no links: a path names what its components lead to. *)
From S2P Require Import Prelude Text Truncation Domain StoreTypes Settings Runtime.
From S2P Require Import Paths ScopeGuarantees Packages Tools ToolText FileOps MutationLaws.
From S2P Require Import MutationTools WriteLaws ReadTools ReadToolLaws SearchLaws.

Definition lookup_path (w : World) (p : string) : option Inode :=
  if is_absolute p then walk w (w_root w) (path_components p) else None.
Definition not_found {A} : io A := Err (io_error KNotFound "No such file or directory").

Definition metadata_of (w : World) (i : Inode) (n : Node) : Metadata := {|
  md_inode := i; md_type := n_type n; md_len := N.of_nat (length (n_data n)); md_nlink := links w i;
  md_mode := n_mode n; md_modified_ms := None |}.
Definition stat (w : World) (i : option Inode) : io Metadata :=
  match i with
  | Some i => match w_nodes w !! i with Some n => Ok (metadata_of w i n) | None => not_found end
  | None => not_found
  end.
(** The paths of [n] names below a directory, and where they lead. *)
Fixpoint level (w : World) (n : nat) (dir : Inode) : list (list string * Inode) :=
  match n with
  | O => [([], dir)]
  | S n => flat_map (λ e : (Inode * string) * Inode,
             if bool_decide (e.1.1 = dir) then map (λ p, (e.1.2 :: p.1, p.2)) (level w n e.2) else [])
             (map_to_list (w_names w))
  end.
Definition all_paths (w : World) (depth : nat) : list (list string * Inode) :=
  flat_map (λ n, level w n (w_root w)) (seq 0 depth).
Definition path_of_names (names : list string) : string := "/" +:+ String.concat "/" names.
Definition names_of (cs : list PathComponent) : list string :=
  omap (λ c, match c with Normal name => Some name | _ => None end) cs.
Definition canonical_of (w : World) (p : string) : io string :=
  if is_some (lookup_path w p) then Ok (path_of_names (names_of (path_components p))) else not_found.
Definition path_of_inode (w : World) (i : Inode) : io string :=
  match find_bool (λ p : list string * Inode, bool_decide (p.2 = i)) (all_paths w (S (size (w_names w)))) with
  | Some p => Ok (path_of_names p.1)
  | None => not_found
  end.
Definition entries_of (w : World) (i : Inode) : list (io DirEntry) :=
  omap (λ e : (Inode * string) * Inode,
    if bool_decide (e.1.1 = i)
    then Some (Ok {| de_name := e.1.2; de_metadata := stat w (Some e.2);
                     de_file_type := match w_nodes w !! e.2 with Some n => Ok (n_type n) | None => not_found end |})
    else None) (map_to_list (w_names w)).
Definition read_dir_of (w : World) (p : string) : io (list (io DirEntry)) :=
  match stat w (lookup_path w p) with
  | Ok m => if is_dir m then Ok (entries_of w (md_inode m)) else Err (io_error KOther "Not a directory")
  | Err e => Err e
  end.
Definition handle_inode (w : World) (fd : Fd) : option Inode := h_inode <$> w_handles w !! fd.

Definition fresh_fd (w : World) : Fd := infinite_fresh (map fst (map_to_list (w_handles w))).
Definition fresh_inode (w : World) : Inode :=
  (1%N, infinite_fresh (map (λ e : Inode * Node, e.1.2) (map_to_list (w_nodes w)) ++
                        map (λ e : (Inode * string) * Inode, e.2.2) (map_to_list (w_names w)))).
Lemma fresh_fd_spec w : w_handles w !! fresh_fd w = None.
Proof.
  destruct (w_handles w !! fresh_fd w) as [h|] eqn:E; [|done]. exfalso.
  apply (infinite_is_fresh (map fst (map_to_list (w_handles w)))). apply list_elem_of_fmap.
  exists (fresh_fd w, h). split; [done|]. by apply elem_of_map_to_list.
Qed.
Lemma fresh_inode_spec w :
  w_nodes w !! fresh_inode w = None ∧ ∀ k, w_names w !! k ≠ Some (fresh_inode w).
Proof.
  unfold fresh_inode. set (l := _ ++ _). pose proof (infinite_is_fresh l) as Hf.
  set (n := infinite_fresh l) in *. split.
  - destruct (w_nodes w !! (1%N, n)) as [m|] eqn:E; [|done]. exfalso. apply Hf, elem_of_app. left.
    apply list_elem_of_fmap. exists ((1%N, n), m). split; [done|]. by apply elem_of_map_to_list.
  - intros k E. apply Hf, elem_of_app. right. apply list_elem_of_fmap. exists (k, (1%N, n)).
    split; [done|]. by apply elem_of_map_to_list.
Qed.

Definition open_as (w : World) (i : Inode) : io Fd * World :=
  let fd := fresh_fd w in (Ok fd, with_handle w fd {| h_inode := i; h_offset := 0 |}).
Definition create_in (w : World) (dir : Inode) (name : string) : io Fd * World :=
  let i := fresh_inode w in
  open_as (with_created (with_node (with_names w (<[(dir, name) := i]> (w_names w)) [dir]) i (empty_file 420)) i) i.

Definition opens_as (flags : OpenFlags) (n : Node) : bool :=
  match flags with
  | ODirectory => bool_decide (n_type n = TDir)
  | ORead => bool_decide (n_type n ≠ TSymlink)
  | _ => true
  end.
Definition open_entry (w : World) (d : Inode) (name : string) (flags : OpenFlags) : io Fd * World :=
  match w_names w !! (d, name), flags with
  | None, (OCreateNew | OCreate) => create_in w d name
  | None, _ => (not_found, w)
  | Some _, OCreateNew => (Err (io_error KAlreadyExists "File exists"), w)
  | Some i, OCreate => open_as w i
  | Some i, _ => match w_nodes w !! i with
                 | Some n => if opens_as flags n then open_as w i
                             else (Err (io_error KOther "wrong kind of file"), w)
                 | None => (not_found, w)
                 end
  end.

(** A call that needs what it looks up. *)
Definition given {A B} (x : option A) (f : A → io B * World) (w : World) : io B * World :=
  match x with Some a => f a | None => (not_found, w) end.
Definition with_open {B} (w : World) (fd : Fd) (f : Handle → Node → io B * World) : io B * World :=
  given (w_handles w !! fd) (λ h, given (w_nodes w !! h_inode h) (f h) w) w.

Definition write_to (w : World) (fd : Fd) (data : bytes) (h : Handle) (n : Node) : World :=
  with_handle
    (with_node w (h_inode h) {| n_type := n_type n; n_mode := n_mode n; n_synced := false;
       n_data := write_at (h_offset h) data (n_data n) |})
    fd {| h_inode := h_inode h; h_offset := h_offset h + length data |}.
Definition sync_node (w : World) (h : Handle) (n : Node) : World :=
  with_synced (with_node w (h_inode h) {| n_type := n_type n; n_data := n_data n; n_mode := n_mode n;
                                          n_synced := true |}) (h_inode h).
Definition rename_entry (w : World) (ks kd : Inode * string) (no_replace : bool) : io unit * World :=
  given (w_names w !! ks) (λ i,
    if no_replace && is_some (w_names w !! kd)
    then (Err (io_error KAlreadyExists "File exists"), w)
    else (Ok tt, if decide (w_names w !! kd = Some i) then w
                 else with_names w (<[kd := i]> (delete ks (w_names w))) [ks.1; kd.1])) w.

Definition mem_call {R} (c : Sys R) : World → R * World :=
  match c in Sys R return World → R * World with
  | Canonicalize p => λ w, (canonical_of w p, w)
  | SymlinkMetadata p => λ w, (stat w (lookup_path w p), w)
  | PathMetadata p => λ w, (stat w (lookup_path w p), w)
  | PathExists p => λ w, (is_some (lookup_path w p), w)
  | ReadDir p => λ w, (read_dir_of w p, w)
  | OpenFile p _ => λ w, given (lookup_path w p)
                           (λ i, if is_some (w_nodes w !! i) then open_as w i else (not_found, w)) w
  | CreateDirAll p => λ w, (if is_some (lookup_path w p) then Ok tt else not_found, w)
  | TempDir => λ w, ("/tmp", w)
  | OpenRoot => λ w, open_as w (w_root w)
  | OpenCwd => λ w, (not_found, w)
  | OpenAt dir name flags => λ w, given (handle_inode w dir) (λ d, open_entry w d name flags) w
  | Fstat fd => λ w, (stat w (handle_inode w fd), w)
  | FstatAt dir name => λ w,
      (match handle_inode w dir with
       | Some d => match w_names w !! (d, name) with
                   | Some i => match w_nodes w !! i with
                               | Some n => Ok (metadata_of w i n)
                               | None => Err (io_error KOther "Input/output error")
                               end
                   | None => not_found
                   end
       | None => Err (io_error KOther "Bad file descriptor")
       end, w)
  | FdPath fd => λ w, (match handle_inode w fd with Some i => path_of_inode w i | None => not_found end, w)
  | ReadSome fd limit => λ w, with_open w fd (λ h n,
      let data := take (N.to_nat limit) (drop (h_offset h) (n_data n)) in
      (Ok data, with_handle w fd {| h_inode := h_inode h; h_offset := h_offset h + length data |}))
  | WriteAll fd data => λ w, with_open w fd (λ h n, (Ok tt, write_to w fd data h n))
  | SetPermissions fd mode => λ w, with_open w fd (λ h n,
      (Ok tt, with_node w (h_inode h)
                {| n_type := n_type n; n_data := n_data n; n_mode := mode; n_synced := false |}))
  | SyncAll fd => λ w, with_open w fd (λ h n, (Ok tt, sync_node w h n))
  | RenameAt sd src dd dst no_replace => λ w,
      given (handle_inode w sd) (λ s, given (handle_inode w dd) (λ d,
        rename_entry w (s, src) (d, dst) no_replace) w) w
  | UnlinkAt dir name => λ w,
      given (handle_inode w dir) (λ d, given (w_names w !! (d, name)) (λ _,
        (Ok tt, with_names w (delete (d, name) (w_names w)) [d])) w) w
  | Flock fd => λ w, given (handle_inode w fd) (λ i,
      match w_locks w !! i with
      | None => (Ok tt, with_locks w (<[i := fd]> (w_locks w)))
      | Some _ => (Err (io_error KOther "Resource temporarily unavailable"), w)
      end) w
  | CloseLock fd => λ w, (tt, with_locks w (filter (λ kv, kv.2 ≠ fd) (w_locks w)))
  | FetchAddCounter => λ w, (0%N, w)
  end.

#[export] Instance mem_os : Os := λ R c w r w', mem_call c w = (r, w').

(** ** It behaves as documented *)

Lemma handle_opened w fd i : handle_inode w fd = Some i → opened w fd i.
Proof. unfold handle_inode. destruct (w_handles w !! fd) as [h|] eqn:E; [|done]. intros [= <-]. by exists h. Qed.
Lemma opened_handle w fd i : opened w fd i → handle_inode w fd = Some i.
Proof. intros (h & E & <-). unfold handle_inode. by rewrite E. Qed.
Lemma open_as_opens w i fd w' : open_as w i = (Ok fd, w') → opens w fd i w'.
Proof. intros [= <- <-]. split; [apply fresh_fd_spec|done]. Qed.
Lemma open_as_Ok w i e w' : open_as w i ≠ (Err e, w').
Proof. done. Qed.
Lemma stat_describes w i m : stat w (Some i) = Ok m → describes w m i.
Proof. simpl. destruct (w_nodes w !! i) as [n|] eqn:E; [|done]. intros [= <-]. by exists n. Qed.
Lemma stat_if_ok w i r : stat w i = r → if_ok r w w (λ m, ∃ j, i = Some j ∧ describes w m j).
Proof. intros <-. destruct i as [i|]; [|done]. destruct (stat w (Some i)) eqn:E; [|done]. exists i. split; [done|by apply stat_describes]. Qed.

Lemma open_entry_posix w dir d name flags r w' :
  opened w dir d → open_entry w d name flags = (r, w') → posix (OpenAt dir name flags) w r w'.
Proof.
  intros Hd E. assert (Hc : ∀ r w', create_in w d name = (r, w') → w_names w !! (d, name) = None →
    ∃ fd, r = Ok fd ∧ ∃ i w1, creates w d name i w1 ∧ opens w1 fd i w').
  { intros r0 w0 [= <- <-] Hn. eexists. split; [done|]. eexists (fresh_inode w), _.
    split; [split_and!; [done|apply fresh_inode_spec..|by eexists]|]. by apply open_as_opens. }
  unfold open_entry in E. simpl. destruct (w_names w !! (d, name)) as [i|] eqn:En.
  - assert (Hex : match w_nodes w !! i with
                  | Some n => if opens_as flags n then open_as w i
                              else (Err (io_error KOther "wrong kind of file"), w)
                  | None => (not_found, w)
                  end = (r, w') →
      if_ok r w w' (λ fd, ∃ n, w_nodes w !! i = Some n ∧ opens w fd i w' ∧ opens_as flags n = true)).
    { destruct (w_nodes w !! i) as [n|]; [|by intros [= <- <-]].
      destruct (opens_as flags n) eqn:Eo; [|by intros [= <- <-]]. intros Ho. destruct r as [fd|e]; [|done].
      exists n. split_and!; [done|by apply open_as_opens|done]. }
    destruct flags; try (specialize (Hex E); destruct r as [fd|e]; [|done]; destruct Hex as (n & ? & ? & Ho);
      apply bool_decide_eq_true in Ho || clear Ho; by exists d, i; split; [|exists n]).
    + by injection E as <- <-.
    + destruct r as [fd|e]; [|done]. exists d, i. split; [done|]. left. split; [done|]. by apply open_as_opens.
  - destruct flags; try (by injection E as <- <-); destruct (Hc _ _ E eq_refl) as (fd & -> & i & w1 & ? & ?);
      exists d, i; eauto 10.
Qed.
Lemma rename_entry_posix w sd s src dd d dst b r w' :
  opened w sd s → opened w dd d → rename_entry w (s, src) (d, dst) b = (r, w') →
  posix (RenameAt sd src dd dst b) w r w'.
Proof.
  intros Hs Hd. unfold rename_entry, given. destruct (w_names w !! (s, src)) as [i|] eqn:E; [|by intros [= <- <-]].
  destruct (b && is_some (w_names w !! (d, dst))) eqn:Hb; intros [= <- <-]; [done|]. exists s, d, i.
  split_and!; [done..| |done]. intros ->. by destruct (w_names w !! (d, dst)).
Qed.

Lemma with_open_inv {B} w fd (f : Handle → Node → io B * World) r w' :
  with_open w fd f = (r, w') →
  (w' = w ∧ ∃ e, r = Err e) ∨
  ∃ h n, w_handles w !! fd = Some h ∧ w_nodes w !! h_inode h = Some n ∧ f h n = (r, w').
Proof.
  unfold with_open, given, not_found. destruct (w_handles w !! fd) as [h|] eqn:Eh; [|intros [= <- <-]; eauto].
  destruct (w_nodes w !! h_inode h) as [n|] eqn:En; [|intros [= <- <-]; eauto]. eauto 10.
Qed.
Lemma given_inv {A B} (x : option A) (f : A → io B * World) w r w' :
  given x f w = (r, w') → (w' = w ∧ ∃ e, r = Err e) ∨ ∃ a, x = Some a ∧ f a = (r, w').
Proof. unfold given, not_found. destruct x; [eauto|]. intros [= <- <-]. eauto. Qed.
Lemma read_posix w fd limit r w' :
  mem_call (ReadSome fd limit) w = (r, w') → posix (ReadSome fd limit) w r w'.
Proof.
  intros [[-> [e ->]]|(h & n & Hh & Hn & Hf)]%with_open_inv; [done|].
  cbv zeta in Hf. injection Hf as <- <-. exists h, n.
  split_and!; [done..| | | |done].
  - rewrite length_take. lia.
  - apply prefix_take.
  - intros Hl Ht. destruct (drop (h_offset h) (n_data n)) as [|c l]; [done|].
    destruct (N.to_nat limit) eqn:E; [lia|done].
Qed.
Lemma fstatat_posix w dir name r w' :
  mem_call (FstatAt dir name) w = (r, w') → posix (FstatAt dir name) w r w'.
Proof.
  cbn [mem_call]. intros [= <- <-]. split; [done|].
  destruct (handle_inode w dir) as [d|] eqn:Ed; [|done]. pose proof (handle_opened _ _ _ Ed) as Hd.
  destruct (w_names w !! (d, name)) as [i|] eqn:En.
  - destruct (w_nodes w !! i) as [n|] eqn:Ei; [|done]. exists d, i. split_and!; [done..|]. by exists n.
  - intros _ d' Hd'. apply opened_handle in Hd'. by simplify_eq.
Qed.

#[export] Instance mem_lawful : PosixLaws mem_os.
Proof.
  intros R c w r w' Hc. unfold os_step, mem_os in Hc.
  destruct c; try (by apply read_posix); try (by apply fstatat_posix); cbn [mem_call] in Hc.
  - injection Hc as <- <-. split; [done|]. unfold canonical_of. by case_match.
  - injection Hc as <- <-. split; [done|]. pose proof (stat_if_ok w (lookup_path w p) _ eq_refl) as H.
    destruct (stat w _); [|done]. destruct H as (i & _ & ?). by exists i.
  - injection Hc as <- <-. split; [done|]. pose proof (stat_if_ok w (lookup_path w p) _ eq_refl) as H.
    destruct (stat w _); [|done]. destruct H as (i & _ & ?). by exists i.
  - by injection Hc as <- <-.
  - by injection Hc as <- <-.
  - apply given_inv in Hc as [[-> [e ->]]|(i & _ & Hc)]; [done|].
    destruct (w_nodes w !! i) as [n|] eqn:En; simpl in Hc; [|by injection Hc as <- <-].
    destruct r as [fd|e]; [|done]. exists i. split; [by eexists|by apply open_as_opens].
  - injection Hc as <- <-. by split; try congruence.
  - by injection Hc as <- <-.
  - destruct r as [fd|e]; [|done]. by apply open_as_opens.
  - by injection Hc as <- <-.
  - apply given_inv in Hc as [[-> [e ->]]|(d & Hd & Hc)]; [done|].
    eapply open_entry_posix; [by apply handle_opened|done].
  - injection Hc as <- <-. split; [done|]. pose proof (stat_if_ok w (handle_inode w fd) _ eq_refl) as H.
    destruct (stat w _); [|done]. destruct H as (i & Hi & ?). exists i. split; [by apply handle_opened|done].
  - by injection Hc as <- <-.
  - apply with_open_inv in Hc as [[-> [e ->]]|(h & n & Hh & Hn & Hf)]; [left; eauto|].
    injection Hf as <- <-. right. by exists h, n, data.
  - apply with_open_inv in Hc as [[-> [e ->]]|(h & n & Hh & Hn & Hf)]; [done|].
    injection Hf as <- <-. exists (h_inode h), n. split_and!; [by exists h|done|done].
  - apply with_open_inv in Hc as [[-> [e ->]]|(h & n & Hh & Hn & Hf)]; [done|].
    injection Hf as <- <-. exists (h_inode h), n. split_and!; [by exists h|done|done].
  - apply given_inv in Hc as [[-> [e ->]]|(s & Hs & Hc)]; [done|].
    apply given_inv in Hc as [[-> [e ->]]|(d & Hd & Hc)]; [done|].
    eapply rename_entry_posix; [by apply handle_opened..|done].
  - apply given_inv in Hc as [[-> [e ->]]|(d & Hd & Hc)]; [done|].
    apply given_inv in Hc as [[-> [e ->]]|(i & Hi & Hc)]; [done|]. injection Hc as <- <-.
    exists d, i. split_and!; [by apply handle_opened|done|done].
  - apply given_inv in Hc as [[-> [e ->]]|(i & Hi & Hc)]; [done|].
    destruct (w_locks w !! i) eqn:El; injection Hc as <- <-; [done|]. exists i. split_and!; [by apply handle_opened|by left|done].
  - by injection Hc as <- <-.
  - by injection Hc as <- <-.
Qed.

(** ** Running a program *)

Fixpoint mem_run {A} (p : Prog A) (w : World) : A * World :=
  match p with
  | Done a => (a, w)
  | Call c k => let '(r, w) := mem_call c w in mem_run (k r) w
  end.
Lemma mem_run_steps {A} (p : Prog A) w :
  steps eq (w, p) ((mem_run p w).2, Done (mem_run p w).1).
Proof.
  revert w. induction p as [a|R c k IH]; intros w; [done|]. cbn [mem_run].
  destruct (mem_call c w) as [r w1] eqn:E. eapply rtc_l; [|apply IH]. exists w. by exists r.
Qed.

(** One call at a time. *)
Definition mem_next {A} (ρ : World * Prog A) : World * Prog A :=
  match ρ.2 with
  | Done _ => ρ
  | Call c k => let '(r, w) := mem_call c ρ.1 in (w, k r)
  end.
Definition is_done {A} (p : Prog A) : bool := match p with Done _ => true | Call _ _ => false end.
Section Next.
Context (others : World → World → Prop) `{!Reflexive others}.
Lemma mem_next_step {A} (ρ : World * Prog A) : is_done ρ.2 = false → step others ρ ρ.1 (mem_next ρ).
Proof.
  destruct ρ as [w [a|R c k]]; [done|]. intros _. unfold mem_next, step. simpl.
  destruct (mem_call c w) as [r w'] eqn:E. by exists r.
Qed.
Lemma mem_iter_steps {A} n (ρ : World * Prog A) : steps others ρ (Nat.iter n mem_next ρ).
Proof.
  induction n as [|n IH]; [done|]. simpl. set (ρ' := Nat.iter n mem_next ρ) in *.
  destruct (is_done ρ'.2) eqn:E.
  - destruct ρ' as [w [a|R c k]]; [done|]. done.
  - eapply rtc_r; [exact IH|]. exists ρ'.1. by apply mem_next_step.
Qed.
(** The same with the pairs written out. *)
Lemma mem_reach {A} n w (p : Prog A) ρ :
  ρ = Nat.iter n mem_next (w, p) → steps others (w, p) (ρ.1, ρ.2).
Proof. intros ->. rewrite <- surjective_pairing. apply mem_iter_steps. Qed.
Lemma mem_go {A} (ρ : World * Prog A) : is_done ρ.2 = false → step others (ρ.1, ρ.2) ρ.1 (mem_next ρ).
Proof. intros H. rewrite <- surjective_pairing. by apply mem_next_step. Qed.
End Next.

(** The same with the history. *)
Definition Recorded A : Type := list Event * (World * Prog A).
Definition mem_record {A} (s : Recorded A) : Recorded A :=
  match s.2.2 with
  | Done _ => s
  | Call c k => let '(r, w) := mem_call c s.2.1 in (Ev c r :: s.1, (w, k r))
  end.
Definition mem_records {A} (n : nat) (w : World) (p : Prog A) : Recorded A := Nat.iter n mem_record ([], (w, p)).
Lemma mem_recorded others `{!Reflexive others} {A} n w (p : Prog A) :
  recorded others (w, p) (mem_records n w p).1 (mem_records n w p).2.
Proof.
  unfold mem_records. induction n as [|n IH]; [constructor|]. simpl. destruct (Nat.iter n _ _) as [h [w' [a|R c k]]]; [done|].
  unfold mem_record. simpl in *. destruct (mem_call c w') as [r w2] eqn:E. by econstructor.
Qed.
Fixpoint mem_history {A} (p : Prog A) (w : World) (h : list Event) : list Event :=
  match p with
  | Done _ => h
  | Call c k => let '(r, w) := mem_call c w in mem_history (k r) w (Ev c r :: h)
  end.
Lemma mem_run_recorded {A} (p : Prog A) w :
  recorded eq (w, p) (mem_history p w []) ((mem_run p w).2, Done (mem_run p w).1).
Proof.
  assert (H : ∀ (p' : Prog A) h w', recorded eq (w, p) h (w', p') →
    recorded eq (w, p) (mem_history p' w' h) ((mem_run p' w').2, Done (mem_run p' w').1)); [|apply H; constructor].
  induction p' as [a|R c k IH]; intros h w' Hr; [done|]. cbn [mem_run mem_history].
  destruct (mem_call c w') as [r w1] eqn:E. apply IH. by econstructor.
Qed.

(** ** The disk as a tree *)

Definition mem_tree (w : World) : Tree := {|
  tr_canonicalize := canonical_of w;
  tr_metadata p := stat w (lookup_path w p);
  tr_symlink_metadata p := stat w (lookup_path w p);
  tr_entries := read_dir_of w;
  tr_open p _ := match lookup_path w p with
                 | Some i => if is_some (w_nodes w !! i) then Ok i else not_found
                 | None => not_found
                 end;
  tr_fd_path := path_of_inode w |}.

Section Still.
Context (w0 w : World) (Hw : still w0 w).
Lemma mem_walk dir cs : walk w dir cs = walk w0 dir cs.
Proof.
  revert dir. induction cs as [|[] cs IH]; intros dir; simpl; auto. rewrite (still_names _ _ Hw). by case_match.
Qed.
Lemma mem_lookup p : lookup_path w p = lookup_path w0 p.
Proof. unfold lookup_path. by rewrite (still_root _ _ Hw), mem_walk. Qed.
Lemma mem_stat i : stat w i = stat w0 i.
Proof.
  destruct i as [i|]; [|done]. simpl. rewrite (still_nodes _ _ Hw). case_match; [|done]. unfold metadata_of, links.
  by rewrite (still_names _ _ Hw).
Qed.
Lemma mem_level n dir : level w n dir = level w0 n dir.
Proof.
  revert dir. induction n as [|n IH]; intros dir; [done|]. cbn [level]. rewrite (still_names _ _ Hw).
  apply flat_map_ext. intros e. by rewrite IH.
Qed.
Lemma mem_path i : path_of_inode w i = path_of_inode w0 i.
Proof.
  unfold path_of_inode, all_paths. rewrite (still_names _ _ Hw), (still_root _ _ Hw).
  by rewrite (flat_map_ext _ (λ n, level w0 n (w_root w0)) (λ n, mem_level n _)).
Qed.
Lemma mem_entries i : entries_of w i = entries_of w0 i.
Proof.
  unfold entries_of. rewrite (still_names _ _ Hw). set (l := map_to_list _). clearbody l.
  induction l as [|e l IH]; [done|]. cbn [omap list_omap]. by rewrite IH, mem_stat, (still_nodes _ _ Hw).
Qed.
Lemma mem_read_dir p : read_dir_of w p = read_dir_of w0 p.
Proof. unfold read_dir_of. rewrite mem_lookup, mem_stat. case_match; [|done]. by rewrite mem_entries. Qed.
Lemma mem_canonical p : canonical_of w p = canonical_of w0 p.
Proof. unfold canonical_of. by rewrite mem_lookup. Qed.
End Still.

Lemma mem_shows w0 : shows mem_os w0 (mem_tree w0).
Proof.
  split; intros w; unfold os_step, mem_os; cbn [mem_call mem_tree].
  - intros p r w' Hw [= <- _]. by apply mem_canonical.
  - intros p r w' Hw [= <- _]. cbn. by rewrite (mem_lookup _ _ Hw), (mem_stat _ _ Hw).
  - intros p r w' Hw [= <- _]. cbn. by rewrite (mem_lookup _ _ Hw), (mem_stat _ _ Hw).
  - intros p r w' Hw [= <- _]. by apply mem_read_dir.
  - intros p nf r w' Hw. cbn. rewrite (mem_lookup _ _ Hw), <- (still_nodes _ _ Hw). unfold given.
    destruct (lookup_path w0 p) as [i|]; [|by intros [= <- _]]. case_match; [|by intros [= <- _]].
    intros [= <- <-]. eexists. split; [done|by apply open_as_opens].
  - intros fd i r w' Hw ->%opened_handle [= <- _]. by apply mem_path.
  - intros fd h n limit e w' Hw Hh Hn. unfold with_open. by rewrite Hh; cbn; rewrite Hn.
  - intros fd i n e w' Hw ->%opened_handle Hn. cbn. by rewrite Hn.
Qed.

(** Every canonical path is the path of an entry. *)
Lemma walk_level w cs dir i :
  walk w dir cs = Some i → (names_of cs, i) ∈ level w (length (names_of cs)) dir.
Proof.
  revert dir. induction cs as [|[] cs IH]; intros dir; simpl; try done; auto.
  - intros [= ->]. by left.
  - destruct (w_names w !! (dir, name)) as [d|] eqn:E; [|done]. intros Hi%IH. cbn [level].
    apply list_elem_of_In, in_flat_map. exists ((dir, name), d). split.
    { by apply list_elem_of_In, elem_of_map_to_list. }
    cbn [fst snd]. rewrite bool_decide_eq_true_2 by done. apply in_map_iff. eexists (_, i). split; [done|].
    by apply list_elem_of_In.
Qed.
Lemma flat_map_nil {A B} (f g : A → list B) l :
  (∀ e, f e = [] → g e = []) → flat_map f l = [] → flat_map g l = [].
Proof.
  intros Hfg. induction l as [|e l IH]; [done|]. simpl. intros [He Hl]%app_eq_nil. by rewrite (Hfg e He), IH.
Qed.
Lemma level_end w n dir : level w n dir = [] → level w (S n) dir = [].
Proof.
  revert dir. induction n as [|n IH]; intros dir; [done|]. apply flat_map_nil. intros e.
  case_bool_decide; [|done]. intros H0%map_eq_nil%IH. exact (f_equal (map _) H0).
Qed.
Lemma level_within w depth dir p n : level w depth dir = [] → p ∈ level w n dir → n < depth.
Proof.
  intros Hd Hp. destruct (le_lt_dec depth n) as [Hle|]; [|done]. exfalso.
  assert (level w n dir = []) as E by (clear Hp; induction Hle; [done|by apply level_end]). rewrite E in Hp. by apply elem_of_nil in Hp.
Qed.

(** Whether paths that are equal as paths are equal as strings. *)
Definition written_one_way (names : list string) : bool :=
  forallb (λ q, forallb (λ q', negb (path_eqb q q') || bool_decide (q = q')) names) names.
Lemma mem_canonical_names w depth :
  level w depth (w_root w) = [] →
  let names := map (λ p : list string * Inode, path_of_names p.1) (all_paths w depth) in
  written_one_way names = true → canonical_names (mem_tree w) names.
Proof.
  intros Hd names Hone. split.
  - intros p q. cbn. unfold canonical_of. destruct (lookup_path w p) as [i|] eqn:E; [|done]. intros [= <-].
    unfold lookup_path in E. case_match; [|done]. apply walk_level in E. apply list_elem_of_In, in_map_iff.
    eexists (_, i). split; [done|]. apply in_flat_map. eexists. split; [|by apply list_elem_of_In, E].
    apply in_seq. eapply level_within in E; [|done]. lia.
  - intros q q' Hq Hq' Heq. unfold written_one_way in Hone. rewrite forallb_forall in Hone.
    specialize (Hone q (proj1 (list_elem_of_In _ _) Hq)). rewrite forallb_forall in Hone.
    specialize (Hone q' (proj1 (list_elem_of_In _ _) Hq')). rewrite Heq in Hone. by apply bool_decide_eq_true in Hone.
Qed.
