(* ===== verification/ToolSamples.v ===== *)
(** * ToolSamples: the tools on a small disk

    Runs of the tools on the file system in memory, with the theorems applied to
    them, and the corner cases of the text algorithms. *)
From S2P Require Import Prelude Text Truncation Domain StoreTypes Settings Runtime.
From S2P Require Import Paths ScopeGuarantees Packages Tools ToolText FileOps MutationLaws.
From S2P Require Import MutationTools WriteLaws MoveLaws.
From S2P Require Import TruncationLaws Spill ToolOutput ToonLaws RenderLaws.
From S2P Require Import MemoryFs ToolTextLaws WindowLaws ReadTools ReadToolLaws SearchLaws.

Module ToolDemo.

(** ** The disk: a repository with two files, and the directory of the locks *)

Definition ino (n : N) : Inode := (1%N, n).
Definition dir : Node := {| n_type := TDir; n_data := []; n_mode := 493; n_synced := true |}.
Definition text (s : string) : Node :=
  {| n_type := TFile; n_data := to_bytes s; n_mode := 384; n_synced := true |}.
Definition disk : World := {|
  w_root := ino 1;
  w_names := list_to_map
    [((ino 1, "srv"), ino 2); ((ino 2, "demo"), ino 3); ((ino 3, "a.txt"), ino 4);
     ((ino 3, "b.txt"), ino 5); ((ino 1, "tmp"), ino 6); ((ino 6, "atelia-secretary"), ino 7);
     ((ino 7, "locks"), ino 8)];
  w_nodes := list_to_map
    [(ino 1, dir); (ino 2, dir); (ino 3, dir); (ino 4, text "one two"); (ino 5, text "three");
     (ino 6, dir); (ino 7, dir); (ino 8, dir)];
  w_handles := ∅; w_created := ∅; w_unsynced := ∅; w_locks := ∅ |}.

Definition repository : string := "/srv/demo".
Definition request (path : string) : RuntimeJobRequest := {|
  req_requester := User "user:1" None; req_repository_id := id_new RepositoryIdKind "1";
  req_kind := JkMutate; req_goal := None; req_message := None;
  req_resource_scope := {| scope_kind := "path"; scope_value := path |};
  req_requested_capabilities := []; req_approval_available := true; req_render_options := None;
  req_tool_output_defaults := defaults_default; req_artifact_spillover := None |}.

(** What a path names afterwards. *)
Definition content_at (w : World) (p : string) : option string :=
  match lookup_path w p with
  | Some i => of_bytes ∘ n_data <$> w_nodes w !! i
  | None => None
  end.
Definition debug_str (s : string) : string := s.

(** ** Writing *)

Definition write_tool : FsWriteTool :=
  write_with_allow_overwrite (fs_write_tool_new repository "new") true.
Definition write_run := mem_run (write_execute write_tool (request "a.txt")) disk.
Example write_overwrites :
  report_status write_run.1 = TrSucceeded ∧ content_at write_run.2 "/srv/demo/a.txt" = Some "new" ∧
  content_at write_run.2 "/srv/demo/b.txt" = Some "three".
Proof. vm_compute. auto. Qed.
Example write_creates :
  let run := mem_run (write_execute (fs_write_tool_new repository "new") (request "c.txt")) disk in
  report_status run.1 = TrSucceeded ∧ content_at run.2 "/srv/demo/c.txt" = Some "new".
Proof. vm_compute. auto. Qed.
Example write_keeps :
  let run := mem_run (write_execute (fs_write_tool_new repository "new") (request "a.txt")) disk in
  report_status run.1 = TrFailed ∧ content_at run.2 "/srv/demo/a.txt" = Some "one two".
Proof. vm_compute. auto. Qed.
Example write_outside :
  let run := mem_run (write_execute (fs_write_tool_new repository "new") (request "/tmp/c.txt")) disk in
  report_status run.1 = TrFailed ∧ content_at run.2 "/tmp/c.txt" = None.
Proof. vm_compute. auto. Qed.

Definition write_history := mem_history (write_execute write_tool (request "a.txt")) disk [].
Lemma write_recorded :
  recorded eq (disk, write_execute write_tool (request "a.txt")) write_history (write_run.2, Done write_run.1).
Proof. unfold write_history, write_run. apply mem_run_recorded. Qed.
Lemma fs_write_exact_witness :
  report_status write_run.1 = TrSucceeded ∧
  ∃ path, resolves (answered write_history) repository "a.txt" path ∧
    written disk write_run.2 path true (λ _, eq (to_bytes "new")).
Proof.
  assert (Hok : report_status write_run.1 = TrSucceeded) by (vm_compute; reflexivity).
  split; [exact Hok|].
  exact (proj2 (proj2 (fs_write_exact mem_os mem_lawful write_tool (request "a.txt") disk write_history write_run.2
                         write_run.1 write_recorded) Hok)).
Defined.

(** The call that gives the name to the new file. *)
Definition before_rename := mem_records 30 disk (write_execute write_tool (request "a.txt")).
Lemma before_rename_recorded :
  recorded rely (disk, write_execute write_tool (request "a.txt")) before_rename.1 before_rename.2.
Proof. unfold before_rename. apply mem_recorded, _. Qed.
(** What a path names before and after the next call. *)
Definition next_contents {A} (s : Recorded A) (p : string) : option (option string * option string) :=
  match s.2.2 with
  | Done _ => None
  | Call c _ => Some (content_at s.2.1 p, content_at (mem_call c s.2.1).2 p)
  end.
Lemma replacements_are_atomic_witness :
  next_contents before_rename "/srv/demo/a.txt" = Some (Some "one two", Some "new") ∧
  match before_rename.2 with
  | (w1, Call c k) =>
      let '(r, w2) := mem_call c w1 in
      atomic_in (answered (Ev c r :: before_rename.1)) repository "a.txt" (to_bytes "new") false w1 w2
  | _ => False
  end.
Proof.
  assert (Hnext : next_contents before_rename "/srv/demo/a.txt" = Some (Some "one two", Some "new"))
    by (vm_compute; reflexivity).
  split; [exact Hnext|].
  pose proof before_rename_recorded as Hrec. revert Hrec Hnext.
  destruct before_rename as [h [w1 [a|R c k]]]; intros Hrec Hnext; [discriminate|]. simpl.
  destruct (mem_call c w1) as [r w2] eqn:E.
  exact (proj1 (replacements_are_atomic mem_os mem_lawful debug_str (request "a.txt")) write_tool disk
           h w1 R c k w1 r w2 Hrec (reflexivity w1) E).
Defined.

(** ** Patching *)

Definition patch_tool (find replacement : string) : FsPatchTool :=
  patch_with_max_bytes (fs_patch_tool_new repository find replacement) 64.
Definition patch_run := mem_run (patch_execute debug_str (patch_tool "two" "2") (request "a.txt")) disk.
Example patch_replaces :
  report_status patch_run.1 = TrSucceeded ∧ content_at patch_run.2 "/srv/demo/a.txt" = Some "one 2".
Proof. vm_compute. auto. Qed.
(** Two occurrences are refused. *)
Example patch_ambiguous :
  let run := mem_run (patch_execute debug_str (patch_tool "o" "0") (request "a.txt")) disk in
  report_status run.1 = TrFailed ∧ content_at run.2 "/srv/demo/a.txt" = Some "one two".
Proof. vm_compute. auto. Qed.
Definition patch_history := mem_history (patch_execute debug_str (patch_tool "two" "2") (request "a.txt")) disk [].
Lemma patch_recorded :
  recorded eq (disk, patch_execute debug_str (patch_tool "two" "2") (request "a.txt")) patch_history
    (patch_run.2, Done patch_run.1).
Proof. unfold patch_history, patch_run. apply mem_run_recorded. Qed.
Lemma fs_patch_exact_witness :
  report_status patch_run.1 = TrSucceeded ∧
  ∃ path, resolves (answered patch_history) repository "a.txt" path ∧
    written disk patch_run.2 path true (patches (patch_tool "two" "2")).
Proof.
  assert (Hok : report_status patch_run.1 = TrSucceeded) by (vm_compute; reflexivity).
  split; [exact Hok|].
  exact (proj2 (fs_patch_exact mem_os mem_lawful debug_str (patch_tool "two" "2") (request "a.txt") disk
                  patch_history patch_run.2 patch_run.1 patch_recorded) Hok).
Defined.

(** ** Deleting and moving *)

Definition delete_tool : FsDeleteTool := fs_delete_tool_new repository.
Definition delete_run := mem_run (delete_execute delete_tool (request "a.txt")) disk.
Example delete_removes :
  report_status delete_run.1 = TrSucceeded ∧ content_at delete_run.2 "/srv/demo/a.txt" = None ∧
  content_at delete_run.2 "/srv/demo/b.txt" = Some "three".
Proof. vm_compute. auto. Qed.
Definition delete_history := mem_history (delete_execute delete_tool (request "a.txt")) disk [].
Lemma delete_recorded :
  recorded eq (disk, delete_execute delete_tool (request "a.txt")) delete_history (delete_run.2, Done delete_run.1).
Proof. unfold delete_history, delete_run. apply mem_run_recorded. Qed.
Lemma fs_delete_exact_witness :
  reports_deleted delete_run.1 ∧
  ∃ path, resolves (answered delete_history) repository "a.txt" path ∧ deleted path disk delete_run.2.
Proof.
  assert (Hok : reports_deleted delete_run.1).
  { split; [vm_compute; reflexivity|]. apply (list_elem_of_lookup_2 _ 3). vm_compute. reflexivity. }
  split; [exact Hok|].
  exact (proj2 (fs_delete_exact mem_os mem_lawful delete_tool (request "a.txt") disk
                  delete_history delete_run.2 delete_run.1 delete_recorded) Hok).
Defined.

Definition move_tool : FsMoveTool := fs_move_tool_new repository "c.txt".
Definition move_run := mem_run (move_execute move_tool (request "a.txt")) disk.
Example move_renames :
  report_status move_run.1 = TrSucceeded ∧ content_at move_run.2 "/srv/demo/a.txt" = None ∧
  content_at move_run.2 "/srv/demo/c.txt" = Some "one two".
Proof. vm_compute. auto. Qed.
Example move_keeps :
  let run := mem_run (move_execute (fs_move_tool_new repository "b.txt") (request "a.txt")) disk in
  report_status run.1 = TrFailed ∧ content_at run.2 "/srv/demo/b.txt" = Some "three".
Proof. vm_compute. auto. Qed.
Definition move_history := mem_history (move_execute move_tool (request "a.txt")) disk [].
Lemma move_recorded :
  recorded eq (disk, move_execute move_tool (request "a.txt")) move_history (move_run.2, Done move_run.1).
Proof. unfold move_history, move_run. apply mem_run_recorded. Qed.
Lemma fs_move_exact_witness :
  report_status move_run.1 = TrSucceeded ∧
  ∃ src dst, resolves (answered move_history) repository "a.txt" src ∧
    resolves (answered move_history) repository "c.txt" dst ∧ moved src dst false disk move_run.2.
Proof.
  assert (Hok : report_status move_run.1 = TrSucceeded) by (vm_compute; reflexivity).
  split; [exact Hok|].
  exact (proj2 (fs_move_exact mem_os mem_lawful move_tool (request "a.txt") disk
                  move_history move_run.2 move_run.1 move_recorded) Hok).
Defined.

(** The call that renames. *)
Definition within_move := mem_records 43 disk (move_execute move_tool (request "a.txt")).
Lemma within_move_recorded :
  recorded rely (disk, move_execute move_tool (request "a.txt")) within_move.1 within_move.2.
Proof. unfold within_move. apply mem_recorded, _. Qed.
Lemma removals_are_confined_witness :
  next_contents within_move "/srv/demo/a.txt" = Some (Some "one two", None) ∧
  match within_move.2 with
  | (w1, Call c k) =>
      let '(r, w2) := mem_call c w1 in
      moves (place (answered (Ev c r :: within_move.1)) repository "a.txt")
        (place (answered (Ev c r :: within_move.1)) repository "c.txt") false w1 w2
  | _ => False
  end.
Proof.
  assert (Hnext : next_contents within_move "/srv/demo/a.txt" = Some (Some "one two", None))
    by (vm_compute; reflexivity).
  split; [exact Hnext|].
  pose proof within_move_recorded as Hrec. revert Hrec Hnext.
  destruct within_move as [h [w1 [a|R c k]]]; intros Hrec Hnext; [discriminate|]. simpl.
  destruct (mem_call c w1) as [r w2] eqn:E.
  exact (proj2 (removals_are_confined mem_os mem_lawful (request "a.txt")) move_tool disk
           h w1 R c k w1 r w2 Hrec (reflexivity w1) E).
Defined.

(** ** Reading *)

(** The disk with a directory below the repository. *)
Definition deep_disk : World := {|
  w_root := w_root disk;
  w_names := <[(ino 3, "docs") := ino 9]> (<[(ino 9, "c.txt") := ino 10]> (w_names disk));
  w_nodes := <[ino 9 := dir]> (<[ino 10 := text "two"]> (w_nodes disk));
  w_handles := ∅; w_created := ∅; w_unsynced := ∅; w_locks := ∅ |}.
Definition deep_tree : Tree := mem_tree deep_disk.
Definition deep_paths : list string := map (λ p : list string * Inode, path_of_names p.1) (all_paths deep_disk 5).
Definition no_uuids : UuidLib := {| uuid_parse_str _ := false |}.
Definition sample_invocation : ToolInvocation := {|
  inv_id := id_new ToolInvocationIdKind "t1"; inv_schema_version := 1; inv_created_at := 50;
  inv_job_id := id_new JobIdKind "1"; inv_repository_id := id_new RepositoryIdKind "1";
  inv_policy_decision_id := id_new PolicyDecisionIdKind "1"; inv_actor := User "user:1" None; inv_tool_id := "fs.read";
  inv_requested_capability := "filesystem.read"; inv_args_summary := "{}"; inv_resolved_paths := [];
  inv_timeout_millis := None; inv_redactions := [] |}.
Definition field_text (name : string) (r : Report) : option StructuredValue :=
  field_value <$> List.find (λ f, str_eqb (field_key f) name) (report_fields r).

Definition read_tool : FsReadTool := {|
  read_root := repository; read_start_line := 1; read_max_lines := 10; read_max_chars := 100; read_max_bytes := None;
  read_max_scan_bytes := 64; read_max_file_bytes := Some 100%N; read_include_line_numbers := true |}.
Definition read_program : Prog Report :=
  @read_execute no_uuids None read_tool sample_invocation (request "docs/c.txt").
Definition read_run := mem_run read_program deep_disk.
Lemma read_steps : steps eq (deep_disk, read_program) (read_run.2, Done read_run.1).
Proof. unfold read_run. apply mem_run_steps. Qed.
Lemma fs_read_exact_witness :
  field_text "content" read_run.1 = Some (SvString "1: two") ∧
  is_artifact_scope (request "docs/c.txt") = false ∧ still deep_disk read_run.2.
Proof.
  split; [vm_compute; reflexivity|]. split; [reflexivity|].
  exact (proj1 (@fs_read_exact mem_os mem_lawful deep_disk deep_tree no_uuids None read_tool sample_invocation
                  (request "docs/c.txt") read_run.2 read_run.1 (mem_shows deep_disk) eq_refl read_steps)).
Defined.

Definition diff_tool : FsDiffTool := diff_with_max_bytes (fs_diff_tool_new repository "docs/c.txt") 64.
Definition diff_run := mem_run (diff_execute diff_tool (request "a.txt")) deep_disk.
Lemma diff_steps : steps eq (deep_disk, diff_execute diff_tool (request "a.txt")) (diff_run.2, Done diff_run.1).
Proof. unfold diff_run. apply mem_run_steps. Qed.
Lemma fs_diff_exact_witness :
  field_text "changed" diff_run.1 = Some (SvBool true) ∧ still deep_disk diff_run.2.
Proof.
  split; [vm_compute; reflexivity|].
  exact (proj1 (fs_diff_exact mem_os mem_lawful deep_disk deep_tree diff_tool (request "a.txt") diff_run.2 diff_run.1
                  (mem_shows deep_disk) diff_steps)).
Defined.

Definition list_tool : FsListTool := {| list_root := repository |}.
Definition list_run := mem_run (list_execute list_tool (request ".")) deep_disk.
Lemma list_steps : steps eq (deep_disk, list_execute list_tool (request ".")) (list_run.2, Done list_run.1).
Proof. unfold list_run. apply mem_run_steps. Qed.
Lemma fs_list_exact_witness :
  field_text "entries" list_run.1 = Some (SvStringList ["a.txt"; "b.txt"; "docs"]) ∧ still deep_disk list_run.2.
Proof.
  split; [vm_compute; reflexivity|].
  exact (proj1 (fs_list_exact mem_os mem_lawful deep_disk deep_tree list_tool (request ".") list_run.2 list_run.1
                  (mem_shows deep_disk) list_steps)).
Defined.

Definition search_tool : FsSearchTool := fs_search_tool_new repository "two".
Definition search_run := mem_run (search_execute 20 search_tool (request ".")) deep_disk.
Lemma search_steps :
  steps eq (deep_disk, search_execute 20 search_tool (request ".")) (search_run.2, Done search_run.1).
Proof. unfold search_run. apply mem_run_steps. Qed.
Lemma deep_names : canonical_names deep_tree deep_paths.
Proof. apply mem_canonical_names; vm_compute; reflexivity. Qed.
Lemma deep_files i n : w_nodes deep_disk !! i = Some n → length (n_data n) < 20.
Proof.
  assert (H : Forall (λ e : Inode * Node, length (n_data e.2) < 20) (map_to_list (w_nodes deep_disk))).
  { apply (bool_decide_eq_true_1 _). vm_compute. reflexivity. }
  intros Hn. rewrite Forall_forall in H. exact (H (i, n) (proj2 (elem_of_map_to_list _ _ _) Hn)).
Qed.
Lemma fs_search_exact_witness :
  field_text "matches" search_run.1 = Some (SvStringList ["a.txt:1"; "docs/c.txt:1"]) ∧
  length deep_paths < 20 ∧ still deep_disk search_run.2 ∧
  search_promise deep_disk deep_tree search_tool (request ".") search_run.1.
Proof.
  split; [vm_compute; reflexivity|]. assert (Hl : length deep_paths < 20) by (vm_compute; lia). split; [exact Hl|].
  exact (fs_search_exact mem_os mem_lawful deep_disk deep_tree deep_paths 20 search_tool (request ".")
           search_run.2 search_run.1 (mem_shows deep_disk) deep_names deep_files Hl search_steps).
Defined.

(** Between the calls of the search others may do what they like. *)
Definition anything (w w' : World) : Prop := True.
#[local] Instance anything_reflexive : Reflexive anything.
Proof. by intros w. Qed.
Definition searching := Nat.iter 6 mem_next (deep_disk, search_execute 20 search_tool (request ".")).
Lemma reach_searching :
  steps anything (deep_disk, search_execute 20 search_tool (request ".")) (searching.1, searching.2).
Proof. by apply (mem_reach anything 6). Qed.
Lemma searching_step : step anything (searching.1, searching.2) searching.1 (mem_next searching).
Proof. apply mem_go; [apply _|]. vm_compute. reflexivity. Qed.

(** ** Text *)

Lemma cuts_are_longest_witness :
  valid_string "abc" ∧
  let '(t, n, cut) := truncate_utf8_by_chars_and_bytes "abc" 2 8 in
  t = "ab" ∧ cut = true ∧ to_bytes t `prefix_of` to_bytes "abc".
Proof.
  assert (Hv : valid_string "abc") by (apply plain_valid; reflexivity).
  split; [exact Hv|]. split; [vm_compute; reflexivity|]. split; [vm_compute; reflexivity|].
  exact (proj1 (proj2 (cuts_are_longest "abc" 2 8 Hv))).
Defined.

Definition window (lines chars : N) (max_bytes : option N) : WindowLimits := {|
  lim_start_line := 1; lim_max_lines := lines; lim_max_chars := chars; lim_max_bytes := max_bytes;
  lim_max_scan_bytes := 1024; lim_line_numbers := false |}.
Definition shown_text (r : option (result WindowError ReadWindow)) : option (string * N) :=
  match r with Some (Ok w) => Some (win_content w, win_line_count w) | _ => None end.

(** Leading empty lines are counted but not shown: the separator before a line
    depends on whether there is content, not on whether there was a line. *)
Definition blank_start : bytes := [line_feed; line_feed] ++ to_bytes "abc" ++ [line_feed; line_feed] ++ to_bytes "d".
Theorem leading_blank_lines_are_lost :
  shown_text (read_text_window blank_start (window 10 100 None)) =
    Some (of_bytes (to_bytes "abc" ++ [line_feed; line_feed] ++ to_bytes "d"), 5%N).
Proof. vm_compute. reflexivity. Qed.

(** A line cut by the character limit is not checked against the byte limit. *)
Definition two_byte_char : bytes := [ascii_of_N 195; ascii_of_N 169].
Theorem byte_limit_is_exceeded :
  (string_bytes <$> (fst <$> shown_text (read_text_window (two_byte_char ++ two_byte_char ++ two_byte_char)
     (window 10 2 (Some 3%N))))) = Some 4%N.
Proof. vm_compute. reflexivity. Qed.

(** ** Lock names *)

(** Two different paths of one directory share a lock file. *)
Theorem lock_names_collide :
  write_lock_file_name_for_path "/srv/demo/OiRMZ2FG-7B" =
    write_lock_file_name_for_path "/srv/demo/HlxbjPome9I" ∧
  "/srv/demo/OiRMZ2FG-7B" ≠ "/srv/demo/HlxbjPome9I".
Proof. split; [vm_compute; reflexivity|done]. Qed.
(** So a move from one to the other waits for a lock it holds itself; the system
    in memory answers at once. *)
Definition colliding_disk : World :=
  with_names disk (<[(ino 3, "OiRMZ2FG-7B") := ino 4]> (delete (ino 3, "a.txt") (w_names disk))) [].
Theorem colliding_move_fails :
  let run := mem_run (move_execute (fs_move_tool_new repository "HlxbjPome9I") (request "OiRMZ2FG-7B"))
               colliding_disk in
  report_status run.1 = TrFailed ∧
  match report_fields run.1 with
  | [_; e] => field_value e = SvString "OiRMZ2FG-7B -> HlxbjPome9I: Resource temporarily unavailable"
  | _ => False
  end.
Proof. vm_compute. auto. Qed.
End ToolDemo.
